(* ===== verification/_CoqProject ===== *)
-Q . S2P
Prelude.v
Bytes.v
Text.v
PartitionRouter.v
RouterFacts.v
RouterRace.v
Fencing.v
RingConsensus.v
RingRace.v
HealthMonitor.v
CoordinatorHA.v
FlatHashMap.v
JoinOperator.v
Arena.v
ColumnStore.v
StringDictionary.v
SchemaRegistry.v
CatalogFacts.v
PartitionManager.v
WindowFunction.v
Vectorized.v
RingBuffer.v
WalReplicator.v
Migration.v
Rebalance.v
Tokenizer.v
Ast.v
Literals.v
Hdb.v
FlushManager.v
FlushFacts.v
Parser.v
ParserFacts.v
Float64.v
RowEval.v
WhereEval.v
IndexScan.v
SqlGrammar.v
PartialAgg.v
RowOrder.v
MaterializedView.v
ViewRewrite.v
MergePlan.v
RewriteFacts.v
Rpc.v
Coordinator.v
DistributedQuery.v
CoordinatorFacts.v
QueryFacts.v
Failover.v
Snapshot.v
TickPipeline.v
PipelineFacts.v
DrainThreads.v
TypedRows.v
TickQuery.v
Recovery.v
RecoveryFacts.v
RestartFacts.v
