(* ===== verification/Prelude.v ===== *)
(** * Verification of the ZeptoDB core

    ZeptoDB is a distributed in-memory time-series database written in C++. This
    library models its core as executable functions and step relations and
    proves what makes each part correct. Paths below are relative to [src/].

    ** The program and the files of this library

    A tick enters the pipeline of a node ([TickPipeline.v]) through the tick plant, a
    queue stamped with sequence numbers ([RingBuffer.v]). It is stored in a partition, one per table, symbol and hour
    ([PartitionManager.v]), whose columns ([ColumnStore.v]) live in an arena
    ([Arena.v]) and whose strings are dictionary codes ([StringDictionary.v]).
    Queries select rows by their WHERE clause, with and without indexes
    ([RowEval.v], [WhereEval.v], [IndexScan.v], over the doubles of [Float64.v]),
    join columns ([JoinOperator.v], over the hash table of [FlatHashMap.v]), evaluate window functions ([WindowFunction.v]) and sum and
    filter columns with vector kernels ([Vectorized.v]). The flush manager
    ([FlushManager.v]) seals old partitions, writes them to column files
    ([Hdb.v]), and publishes snapshots of all of them. In a
    cluster a consistent-hash router says which node owns a symbol
    ([PartitionRouter.v], [RouterFacts.v]); what a node stores is replicated to
    others ([WalReplicator.v]); the coordinator broadcasts the ring to followers
    ([RingConsensus.v]), which use fencing tokens against stale
    coordinators ([Fencing.v]); nodes watch each other ([HealthMonitor.v]); a
    standby coordinator takes over under a lease ([CoordinatorHA.v]); data moves
    between nodes when the ring changes ([Migration.v], [Rebalance.v]) and is
    copied again when a node dies ([Failover.v]); and a snapshot is taken on all
    nodes together ([Snapshot.v]).
    The text of a query is cut into tokens ([Tokenizer.v]) and parsed to a syntax
    tree ([Parser.v], [Ast.v]); the query coordinator ([Coordinator.v],
    [DistributedQuery.v]) keeps the nodes and the placement of tables, looks
    tables up in the schema registry of its local pipelines
    ([SchemaRegistry.v]), plans what to ask the nodes ([MergePlan.v]), and
    merges the result sets they answer with ([PartialAgg.v]), which travel in a
    wire format ([Rpc.v], [Bytes.v]). Aggregates that are kept up to date tick by
    tick ([MaterializedView.v]) answer queries that ask for them
    ([ViewRewrite.v]).

    - [PartitionRouter.v]: include/zeptodb/cluster/partition_router.h. The record
      [PartitionRouter] has the class's members; [add_node], [remove_node],
      [route], [route_table], [pin_symbol], [begin_migration] ... [plan_add],
      [plan_remove] are its methods, each called without interruption.
      [RouterFacts.v] holds their theorems. [RouterRace.v] takes [route], [add_node]
      and [remove_node] apart into the regions that hold a mutex ([region]), as turns
      of threads that interleave, and proves the whole calls equal to runs of one
      thread.
    - [Fencing.v]: FencingToken of include/zeptodb/cluster/k8s_lease.h, as a call
      ([validate]) and as interleaved compare-exchange loops ([gate_step]).
    - [RingConsensus.v]: include/zeptodb/cluster/ring_consensus.h: [serialize] and
      [deserialize], the [propose_*] calls and [apply_update], each as a whole call;
      [RingRace.v] has their sections ([section_of]) and how they interleave.
    - [HealthMonitor.v]: include/zeptodb/cluster/health_monitor.h: heartbeats,
      [check_timeouts], rejoin; critical sections of concurrent threads are the
      steps of a relation.
    - [CoordinatorHA.v]: src/cluster/coordinator_ha.cpp and the K8sLease
      simulation of k8s_lease.h with its callbacks.
    - [Migration.v]: src/cluster/partition_migrator.cpp. [execute_move],
      [retry_move], [resume_plan] and [execute_plan] thread the migrator, the
      router and a log of remote calls. The theorems on routing are about
      [route], the routing of symbols without a table; pins have no effect on
      [route_table].
    - [Rebalance.v]: src/cluster/rebalance_manager.cpp. [worker_step] is the worker
      thread, one step per locked section or access to [state_]; [launch_step] is a
      caller within [start_plan]; [rb_step] interleaves them with other callers and the
      policy. [start_plan] and [start_add_node] are calls that nothing interrupts.
    - [RingBuffer.v]: include/zeptodb/ingestion/ring_buffer.h and
      src/ingestion/tick_plant.cpp; [ring_step] has one step per atomic access.
    - [Arena.v]: src/storage/arena_allocator.cpp; [arena_step] is the lock-free loop.
    - [ColumnStore.v]: src/storage/column_store.cpp over a byte memory.
    - [StringDictionary.v]: include/zeptodb/storage/string_dictionary.h.
    - [PartitionManager.v]: src/storage/partition_manager.cpp and its header; a
      [Partition] owns its arena, the memory in it, and its columns.
    - [Hdb.v]: src/storage/hdb_writer.cpp and hdb_reader.cpp over a map from paths
      to nodes; whether a system call succeeds is an argument, and LZ4 is the
      class [Lz4] with its documented laws.
    - [FlushManager.v]: src/storage/flush_manager.cpp. What a snapshot does to the
      disk is a [disk_program], which keeps every state it went through;
      [FlushFacts.v] holds its theorems.
    - [Float64.v]: [double] as the standard's binary floating point, from and to bits
      and integers; sine, cosine and arctangent are the class [Libm]. [RowEval.v],
      [WhereEval.v], [IndexScan.v]: what src/sql/executor.cpp does to find the rows of
      a WHERE clause: cells and expressions of one row, the scan of all rows
      ([eval_where]), and the intersection of indexes ([collect_and_intersect]).
    - [TickPipeline.v]: src/core/pipeline.cpp, the pipeline of a node: configuration,
      ticks and typed rows on their way into partitions, the index of partitions.
      [TickQuery.v] has its queries. [PipelineFacts.v] relates a pipeline to the log
      of the ticks it took ([represents], [behaves]); [DrainThreads.v] lets several drain
      threads interleave between taking a tick and storing it; [TypedRows.v] is about rows
      with a schema. [Recovery.v] has [start], [stop] and the recovery from a
      snapshot, as steps that may throw; [RecoveryFacts.v] and [RestartFacts.v]
      prove that a restart restores what was stored.
    - [FlatHashMap.v]: include/zeptodb/execution/flat_hash_map.h, with the class
      [IndexMap] that states what it promises to the joins.
    - [JoinOperator.v]: src/execution/join_operator.cpp, proved against [IndexMap].
    - [WindowFunction.v]: include/zeptodb/execution/window_function.h.
    - [Vectorized.v]: the integer kernels of src/execution/vectorized_engine.cpp
      over the class [Simd] of vector instructions, for any number of lanes.
    - [PartialAgg.v]: include/zeptodb/cluster/partial_agg.h over the result sets of
      include/zeptodb/sql/executor.h.
    - [Rpc.v]: include/zeptodb/cluster/rpc_protocol.h. Decoders are functions of a
      small state and error monad ([decoder]) whose third outcome is a read past
      the end of the buffer; [wp] is its weakest precondition. [Bytes.v] holds
      little-endian integers and strings as bytes.
    - [Text.v]: characters, strings as lists of characters, decimal numerals.
    - [SchemaRegistry.v]: include/zeptodb/storage/schema_registry.h, with the JSON
      catalog's writer ([save_text]) and loader ([load_text]). [CatalogFacts.v]
      holds the theorems about the catalog file.
    - [Tokenizer.v]: src/sql/tokenizer.cpp; one round of [tokenize_loop] is one
      iteration of the main loop.
    - [Ast.v]: include/zeptodb/sql/ast.h. [Literals.v]: the standard library's
      conversions between numbers and text.
    - [Parser.v]: src/sql/parser.cpp, one definition per method, over a monad of
      parsers whose outcomes are a value, an error, or no fuel. [ParserFacts.v]
      holds its termination, [SqlGrammar.v] a reference grammar as inductive
      relations and the theorem that the parser accepts its sentences.
    - [MergePlan.v]: src/cluster/query_coordinator.cpp up to the choice of a merge
      strategy: unparsing, the rewriting of averages, HAVING, the symbol of an
      INSERT. [RewriteFacts.v] holds its theorems.
    - [Coordinator.v]: the state of QueryCoordinator (query_coordinator.h), nodes,
      placement, [scatter] and bounded fetching. The state contains the local
      pipelines and the network; their operations are the classes [Pipeline] and
      [Network], and [executed_] logs every query run on an endpoint. A router that is
      shared with the coordinator ([set_shared_router]) takes the place of its own,
      and its owner may change it; [coordinator_invariant] covers both, and every other
      theorem that assumes [coordinator_ok] is about a coordinator with its own
      router and without pins.
    - [DistributedQuery.v]: [execute_sql] with every way it can choose, replay on a
      temporary pipeline, and what happens after the merge. [CoordinatorFacts.v]
      has the invariants, by a relational logic for the monad [M] ([respects],
      and the class [Steps] of what a relation must allow); [QueryFacts.v] has
      the theorems on queries. The laws of a pipeline that theorems need are
      the class [PipelineLaws], with a concrete instance.
    - [WalReplicator.v]: src/cluster/wal_replicator.cpp; [wal_step] interleaves
      producers, the sender's loop, start and stop.
    - [Failover.v]: include/zeptodb/cluster/failover_manager.h over the router, the
      coordinator and the migrator; its background threads are lists of what
      they still have to do. [Snapshot.v]:
      include/zeptodb/cluster/snapshot_coordinator.h over nodes of the class
      [Participant].
    - [MaterializedView.v]: src/storage/materialized_view.cpp. [ViewRewrite.v]:
      include/zeptodb/sql/mv_rewriter.h and the statements on views of
      src/sql/executor.cpp. [RowOrder.v]: how ORDER BY and LIMIT rearrange rows,
      with what [std::sort] promises as the class [RowSort].

    This file holds what they share: results that may be a thrown exception
    ([outcome]), integers at their width ([wrap], [i64]), ordered maps with the
    iterators of [std::map], binary search ([bound]), and list lemmas.

    ** Conventions

    An unsigned [w]-bit integer is a [Z] below 2^w and every operation that can
    wrap is followed by [wrap w]; an [int64_t] sum is followed by [i64]. An
    [unordered_map] is a [gmap], and a walk over it is a walk over
    [map_to_list]: theorems do not depend on that order unless they say so. A
    method that holds one lock from beginning to end is one function; where the
    program releases a lock, or uses atomics, the steps between are the steps
    of a relation or the turns of threads, and theorems quantify over every
    interleaving. Calls that take locks more than once also have a definition that
    runs them without interruption, for the theorems on sequences of calls: [route],
    [add_node] and [remove_node], [apply_update] and the [propose_*] calls,
    [drain_one], [start_plan]; the files named above relate it to the steps. Calls on
    the query coordinator come one after the other throughout. Clocks are
    arguments. Calls to other nodes are parameters that may answer anything
    unless a theorem has a hypothesis about them. Undefined behaviour (a read
    out of bounds, an endless loop) is a [None] or a separate constructor.

    ** What the theorems show

    - Routing: the cache is invisible, to calls that interleave as well
      ([route_transparent]), but not while the ring changes
      ([stale_route_is_cached]); adding or removing a
      node moves only the symbols it must ([membership_minimal_disruption]);
      the replica is the node that takes over ([replica_promoted]); plans name
      every pair of nodes between which symbols move ([plan_add_complete],
      [plan_remove_complete]); table-scoped keys ([route_table_spec]).
    - Ring broadcast: a follower that accepts a payload routes as its sender
      ([follower_converges], [updates_any_order]); the wire format reads back and
      its bound checks ([snapshot_roundtrip], [deserialize_bounds]).
    - Coordination: the fencing gate is monotone under any interleaving
      ([concurrent_gate_monotone]); health verdicts and transitions
      ([check_timeouts_verdict], [interleaved_events_chain]); the role follows the
      lease, epochs increase, what a silent peer leads to ([active_iff_leader],
      [epochs_increase], [monitor_failover]).
    - Migration: every move ends committed or rolled back and routing says so
      ([execute_plan_outcome]); rows are copied once ([move_copies_once]); the ring
      changes only after a complete run, which ends ([topology_changes_last],
      [rebalance_finishes]).
    - Replication and failover: what is sent is what was accepted, in order, a
      replica has what it acknowledged, and missed batches are counted
      ([wal_accounts_for_ticks], [wal_stop_drains]);
      a dead node's successors and the copies to make are determined
      ([failover_targets]), every failover is reported once
      ([failovers_reported]); snapshots are told to commit everywhere or nowhere
      ([snapshot_two_phase], [snapshots_share_history]).
    - Materialized views: a view equals grouping all ticks since its creation
      ([views_refine]), and a query answered from one gets its groups, DISTINCT
      and arithmetic aside ([rewrite_exact]).
    - Ingestion: nothing pushed is lost or duplicated ([ring_conserves]); the queue
      is FIFO until a push is refused ([ring_is_fifo], [ring_reorders]). What a
      pipeline takes is stored in order, and found again by the index
      ([ticks_stored_in_order]), until an arena is full
      ([full_partition_loses_ticks]); several drain threads lose nothing either, in
      some order ([drains_lose_nothing]); a typed row has all its values stored or
      none ([typed_row_all_or_nothing]); counts, filtered sums and averages are
      those of the ticks in memory ([queries_exact]); a node of ticks without a table
      that is stopped and started again has every tick ([restart_restores]).
    - Storage: concurrent allocations are disjoint
      ([concurrent_allocations_disjoint]); growing a column touches no other
      ([append_batch_isolated]); codes are stable ([intern_lookup_roundtrip]);
      indexes and time ranges are exact ([column_indexes_exact], [time_range_exact]);
      a flushed partition reads back ([flushed_partition_reads_back]) and no file
      makes the reader leave its data ([read_column_in_bounds]); flushing settles
      every sealed partition ([flush_settles_sealed]); a snapshot that is stopped
      anywhere leaves the old generation or the new one, with every partition
      ([snapshot_publication_atomic]).
    - WHERE: the scan selects the rows on which the condition holds, and the index
      scan selects the same ([index_scan_exact]).
    - Execution: the hash table refines a finite map ([flat_map_refines]); joins
      equal their nested-loop specifications ([hash_join_is_nested_loop],
      [asof_join_latest], [window_join_spec]); window functions compute their
      frames per partition ([window_frames], [ranks_exact], [lag_lead_exact]); the
      vector kernels agree with each other and with the scalar meaning
      ([sums_agree], [filters_agree]).
    - Schema: tables keep distinct ids ([registry_invariant], [create_first_free]);
      a saved catalog loads back exactly and saves are atomic
      ([catalog_roundtrip], [save_atomic]).
    - SQL text: tokenizing ends and yields a normal form ([tokenize_normal_form])
      and reads printed tokens back ([tokenize_print]); parsing ends on every
      text ([parse_terminates]) and returns the tree of the reference grammar
      ([select_grammar]).
    - Membership of the coordinator: its endpoints are the nodes of its router
      ([coordinator_invariant]); a node that stops answering is dropped
      ([silent_node_is_dropped]); placements change everywhere or nowhere
      ([placement_all_or_nothing]).
    - Distributed queries: a scatter gives all answers or one error
      ([scatter_all_or_nothing]); one symbol's query runs on its owner
      ([symbol_statement_runs_on_owner]); an INSERT runs at most once and an
      UPDATE everywhere ([insert_runs_at_most_once], [update_runs_everywhere]);
      rewritten queries parse to what was meant ([rewrite_parses]); merges are
      exact per column and per group, overflow is an error
      ([merge_scalar_exact], [merge_group_by_exact]); averages are exact from the
      text to the answer ([cluster_average_exact]); fetching stays within its
      caps ([bounded_fetch_exact]) and is counted ([join_telemetry_adds_up]);
      merged rows are ordered ([merged_rows_ordered]).
    - The wire: result sets and rows survive it ([result_roundtrip],
      [typed_row_roundtrip]); decoding stays in bounds, except for one wrapped
      length ([result_decoding_in_bounds], [typed_row_overread]).
    - Defects found while modelling are theorems about concrete runs, such as
      [ring_reorders], [timeout_duplicates_rows], [action_is_not_tied_to_plan],
      [promotion_is_not_atomic], [allocate_overflow_overlaps],
      [unrecognized_runs_everywhere], [rewrite_truncates_literals],
      [string_symbol_is_zero], [order_by_mixes_strings],
      [symbol_in_skips_average], [catalog_rejected],
      [failover_copies_symbol_zero], [failover_skips_promoted],
      [snapshots_always_abort], [retry_misses_replica], [sync_returns_unsent],
      [stale_route_is_cached], [emptied_ring_is_searched], [older_update_applied_last],
      [cancelled_run_changes_ring], [sorted_ne_is_dropped], [commit_is_lost],
      [view_answers_other_columns], [cold_tier_forgets_failure].

    ** Fuel

    [probe] (FlatHashMap) has one unit per slot, after which every slot was seen:
    [flat_map_refines] proves that this suffices below capacity, and
    [full_map_diverges] that nothing suffices above. [bound_loop] halves a range
    that starts below its fuel ([bound_spec]). [grow_cap] and ColumnStore's
    [grow] double a 64-bit size, at most 64 times. [try_promote] recurses through
    its own callback at most twice ([promotion_terminates]). [retry_move] has one
    unit per remaining attempt. A round of [tokenize_loop] consumes a character
    ([tokenize_normal_form]); the loops of the decoders run as often as the counts
    they have read and checked. [advance_right] has one unit per right row, and
    [replica_walk] one per virtual node, as in the code. [run_worker] only counts
    steps in theorems.

    ** Not modelled

    Sockets, threads and waits; [double] arithmetic outside WHERE, which is a
    parameter where it matters (EMA, RATIO, AVG of the window join, the policy's
    ratio) and otherwise left out (the vector kernels for VWAP); memory orderings
    weaker than sequential consistency; calls on the query coordinator that overlap.
    Of the SQL executor only the WHERE clause is modelled: queries on one node are
    the parameter [execute_local] of a pipeline. Neither have the msgpack, FIX and
    ITCH codecs, the WAL file writer, RBAC, tenants, the job scheduler, nor the
    coordinator's fan-out of statistics a model.
    Third-party engines (DuckDB, Arrow, LLVM) stay outside. *)

From stdpp Require Import base gmap sets list fin_maps fin_sets strings sorting.
From Stdlib Require Import ZArith Lia.

Open Scope Z_scope.

(** ** Notation scope, hint databases and tactics *)

Declare Scope zepto_scope.
Delimit Scope zepto_scope with zepto.
Open Scope zepto_scope.

Create HintDb zepto.
Create HintDb zepto_rw.

(** ** Errors: a C++ call returns a value or throws *)

Inductive outcome (A : Type) : Type :=
  | Returned (a : A)
  | Thrown (what : string).
Arguments Returned {A} _.
Arguments Thrown {A} _.

Definition outcome_bind {A B} (m : outcome A) (f : A → outcome B) : outcome B :=
  match m with Returned a => f a | Thrown w => Thrown w end.

Notation "'let?' x ':=' m 'in' k" := (outcome_bind m (λ x, k))
  (at level 10, x pattern, m at level 100, k at level 200) : zepto_scope.

(** ** Machine integers *)

(** An unsigned [w]-bit value keeps the low [w] bits; a signed 64-bit value is
    the two's complement reading of its low 64 bits. *)
Definition wrap (w z : Z) : Z := z mod 2 ^ w.
Abbreviation u8 := (wrap 8).
Abbreviation u16 := (wrap 16).
Abbreviation u32 := (wrap 32).
Abbreviation u64 := (wrap 64).

Definition i64 (z : Z) : Z := (z + 2 ^ 63) mod 2 ^ 64 - 2 ^ 63.

Definition INT64_MAX : Z := 2 ^ 63 - 1.
Definition INT64_MIN : Z := - 2 ^ 63.

Lemma wrap_range w z : 0 <= w → 0 <= wrap w z < 2 ^ w.
Proof. intros ?. apply Z.mod_pos_bound. lia. Qed.

Lemma wrap_small w z : 0 <= z < 2 ^ w → wrap w z = z.
Proof. apply Z.mod_small. Qed.

Lemma i64_range z : INT64_MIN <= i64 z <= INT64_MAX.
Proof.
  unfold i64, INT64_MIN, INT64_MAX.
  pose proof (Z.mod_pos_bound (z + 2 ^ 63) (2 ^ 64)). lia.
Qed.

Lemma i64_small z : INT64_MIN <= z <= INT64_MAX → i64 z = z.
Proof. unfold i64, INT64_MIN, INT64_MAX. intros ?. rewrite Z.mod_small; lia. Qed.

(** Two values with the same low 64 bits read as the same signed value. *)
Lemma i64_mod_eq a b : a mod 2 ^ 64 = b mod 2 ^ 64 → i64 a = i64 b.
Proof.
  intros H. unfold i64. f_equal.
  rewrite <- (Z.add_mod_idemp_l a), <- (Z.add_mod_idemp_l b), H by lia. done.
Qed.

Lemma i64_mod z : i64 z mod 2 ^ 64 = z mod 2 ^ 64.
Proof.
  unfold i64. rewrite Zminus_mod, Z.mod_mod, <- Zminus_mod by lia. f_equal. lia.
Qed.

(** A sum may wrap at every step. *)
Lemma i64_add_l a b : i64 (i64 a + b) = i64 (a + b).
Proof. apply i64_mod_eq. by rewrite <- Z.add_mod_idemp_l, i64_mod, Z.add_mod_idemp_l by lia. Qed.

#[export] Hint Resolve wrap_range i64_range : zepto.

(** ** Ordered maps

    [std::map<uint64_t, V>] is a finite map whose iterators walk the keys in
    increasing order. [map_min_key P m] is the least key that satisfies [P];
    [lower_bound], [upper_bound] and [begin_] are the iterators the code takes,
    [None] being [end()]. *)
Section OrderedMap.
Context {A : Type}.
Implicit Types (m : gmap Z A) (P : Z → bool).

Definition map_min_key P m : option Z :=
  map_fold (λ k _ acc,
    if P k then Some (match acc with None => k | Some k' => Z.min k k' end)
    else acc) None m.

Definition lower_bound m (h : Z) : option Z := map_min_key (λ k, h <=? k) m.
Definition upper_bound m (h : Z) : option Z := map_min_key (λ k, h <? k) m.
Definition begin_ m : option Z := map_min_key (λ _, true) m.

Lemma map_min_key_spec P m :
  match map_min_key P m with
  | Some k => is_Some (m !! k) ∧ P k = true ∧
              ∀ k', is_Some (m !! k') → P k' = true → k <= k'
  | None => ∀ k, is_Some (m !! k) → P k = false
  end.
Proof.
  unfold map_min_key.
  apply (map_fold_weak_ind (λ r m, match r with
    | Some k => is_Some (m !! k) ∧ P k = true ∧
                ∀ k', is_Some (m !! k') → P k' = true → k <= k'
    | None => ∀ k, is_Some (m !! k) → P k = false end)).
  - intros k. rewrite lookup_empty. by intros [].
  - intros i x m' r Hi IH.
    destruct (P i) eqn:HP, r as [k|]; setoid_rewrite lookup_insert_is_Some.
    + destruct IH as (? & ? & Hle). destruct (Z.min_spec i k) as [[? ->]|[? ->]].
      * split_and!; [by left|done|]. intros k' [<-|[_ Hk']] Hp; [lia|].
        specialize (Hle k' Hk' Hp). lia.
      * split_and!; [|done|].
        { destruct (decide (i = k)); [by left|by right]. }
        intros k' [<-|[_ Hk']] ?; [lia|]. by apply Hle.
    + split_and!; [by left|done|]. intros k' [<-|[_ Hk']] Hk; [lia|].
      rewrite IH in Hk by done. done.
    + destruct IH as (? & HPk & Hle). split_and!; [|done|].
      { right. split; [congruence|done]. }
      intros k' [<-|[_ Hk']] ?; [congruence|]. by apply Hle.
    + intros k [<-|[_ Hk]]; [done|]. by apply IH.
Qed.

Lemma map_min_key_Some P m k :
  map_min_key P m = Some k →
  is_Some (m !! k) ∧ P k = true ∧ ∀ k', is_Some (m !! k') → P k' = true → k <= k'.
Proof. intros H. pose proof (map_min_key_spec P m) as HS. by rewrite H in HS. Qed.

Lemma map_min_key_None P m k :
  map_min_key P m = None → is_Some (m !! k) → P k = false.
Proof. intros H. pose proof (map_min_key_spec P m) as HS. rewrite H in HS. apply HS. Qed.
End OrderedMap.

(** ** Lists *)

Section Lists.
Context {A : Type}.
Implicit Types (l : list A).

Lemma filter_all (P : A → Prop) `{∀ x, Decision (P x)} l : Forall P l → filter P l = l.
Proof.
  induction 1 as [|x l Hx _ IH]; [done|]. by rewrite filter_cons_True, IH.
Qed.

(** Replacing an element changes a count by that element. *)
Lemma length_filter_insert (P : A → Prop) `{∀ x, Decision (P x)} l i x y :
  l !! i = Some y →
  (length (filter P (<[i := x]> l)) + (if decide (P y) then 1 else 0) =
   length (filter P l) + (if decide (P x) then 1 else 0))%nat.
Proof.
  intros Hi. assert (i < length l)%nat by (by eapply lookup_lt_Some).
  rewrite insert_take_drop by done. rewrite <- (take_drop_middle l i y) at 3 by done.
  rewrite !filter_app, !length_app, !filter_cons. repeat case_decide; simpl; lia.
Qed.
End Lists.

(** ** Binary search

    The loop of [std::lower_bound] and [std::upper_bound] over [l]: [before x]
    tells that [x] lies before the bound. *)

Fixpoint bound_loop {A} (fuel : nat) (before : A → bool) (l : list A) (first len : nat) : nat :=
  match fuel with
  | O => first
  | S fuel' =>
      if (len =? 0)%nat then first
      else
        let half := Nat.div2 len in
        match l !! (first + half)%nat with
        | Some x =>
            if before x
            then bound_loop fuel' before l (first + half + 1)%nat (len - half - 1)%nat
            else bound_loop fuel' before l first half
        | None => first
        end
  end.

Definition bound {A} (before : A → bool) (l : list A) : nat :=
  bound_loop (S (length l)) before l 0 (length l).

(** On a list that [before] partitions, the search finds the partition point. *)
Lemma bound_spec {A} (before : A → bool) (l : list A) n :
  (n <= length l)%nat →
  (∀ i x, l !! i = Some x → (before x = true ↔ (i < n)%nat)) →
  bound before l = n.
Proof.
  intros Hn Hp. unfold bound.
  assert (∀ fuel first len, (first <= n <= first + len)%nat → (first + len <= length l)%nat →
    (len < fuel)%nat → bound_loop fuel before l first len = n) as Hgen; [|apply Hgen; lia].
  induction fuel as [|fuel IH]; intros first len Hf Hl Hfuel; [lia|]. cbn [bound_loop].
  destruct (Nat.eqb_spec len 0) as [->|Hlen]; [lia|].
  assert (Nat.div2 len < len)%nat as Hhalf by (apply Nat.lt_div2; lia).
  generalize dependent (Nat.div2 len). intros half Hhalf.
  destruct (lookup_lt_is_Some_2 l (first + half)%nat) as [x Hx]; [lia|]. rewrite Hx.
  destruct (before x) eqn:Hb.
  - apply (Hp _ _ Hx) in Hb. apply IH; lia.
  - assert (¬ (first + half < n)%nat) by (rewrite <- (Hp _ _ Hx); congruence).
    apply IH; lia.
Qed.

(** A predicate that is closed downwards along a sorted list partitions it. *)
Lemma sorted_partition {A} (before : A → bool) (R : A → A → Prop) (l : list A) :
  StronglySorted R l → (∀ x y, R x y → before y = true → before x = true) →
  ∀ i x, l !! i = Some x →
    (before x = true ↔ (i < length (filter (λ x, before x = true) l))%nat).
Proof.
  intros Hs Hd. induction Hs as [|y l Hs IH Hf]; intros i x Hi; [done|].
  destruct (before y) eqn:Hy.
  - rewrite filter_cons_True by done. simpl. destruct i as [|i].
    + simplify_eq/=. split; [lia|done].
    + simpl in Hi. rewrite (IH _ _ Hi). lia.
  - rewrite filter_cons_False by congruence.
    assert (∀ z, z ∈ l → before z = false) as Hall.
    { intros z Hz. rewrite Forall_forall in Hf. specialize (Hf z Hz).
      destruct (before z) eqn:Hbz; [|done]. by rewrite (Hd _ _ Hf Hbz) in Hy. }
    assert (filter (λ x, before x = true) l = []) as ->.
    { clear -Hall. induction l as [|z l IH]; [done|]. rewrite filter_cons_False.
      - apply IH. intros w Hw. apply Hall. by right.
      - rewrite (Hall z) by (by left). done. }
    simpl. destruct i as [|i]; simplify_eq/=; [split; [congruence|lia]|].
    rewrite (Hall x); [split; [done|lia]|]. by eapply list_elem_of_lookup_2.
Qed.

Lemma sorted_lookup_lt {A} (R : A → A → Prop) (l : list A) i j x y :
  StronglySorted R l → l !! i = Some x → l !! j = Some y → (i < j)%nat → R x y.
Proof.
  intros Hs. revert i j. induction Hs as [|z l Hs IH Hf]; intros i j Hi Hj Hlt; [done|].
  destruct j as [|j]; [lia|]. destruct i as [|i]; simpl in *.
  - simplify_eq. rewrite Forall_forall in Hf. apply Hf. by eapply list_elem_of_lookup_2.
  - eapply IH; [done..|lia].
Qed.

(** Filtering by a range of positions is slicing. *)
Lemma filter_slice {A} (P : A → Prop) `{∀ x, Decision (P x)} (l : list A) b e :
  (∀ i x, l !! i = Some x → (P x ↔ (b <= i < e)%nat)) →
  filter P l = take (e - b) (drop b l).
Proof.
  revert b e. induction l as [|x l IH]; intros b e HP; [by rewrite drop_nil, take_nil|].
  pose proof (HP 0%nat x eq_refl) as H0.
  destruct b as [|b].
  - destruct e as [|e].
    + rewrite filter_cons_False by (rewrite H0; lia). rewrite (IH 0%nat 0%nat); [done|].
      intros i y Hi. rewrite (HP (S i) y Hi). lia.
    + rewrite filter_cons_True by (rewrite H0; lia). cbn [drop]. simpl. f_equal.
      rewrite (IH 0%nat e), Nat.sub_0_r; [done|]. intros i y Hi. rewrite (HP (S i) y Hi). lia.
  - rewrite filter_cons_False by (rewrite H0; lia). cbn [drop].
    rewrite (IH b (e - 1)%nat); [f_equal; lia|]. intros i y Hi. rewrite (HP (S i) y Hi). lia.
Qed.

(** A left fold whose steps commute does not depend on the order. *)
Lemma foldl_permutation {A B} (f : B → A → B) l k a :
  (∀ a x y, f (f a x) y = f (f a y) x) → l ≡ₚ k → foldl f a l = foldl f a k.
Proof.
  intros Hf Hp. revert a. induction Hp as [|x l k _ IH|x y l|l1 l2 l3 _ IH1 _ IH2]; intros a; simpl.
  - done.
  - apply IH.
  - by rewrite Hf.
  - by rewrite IH1, IH2.
Qed.

(** ** Row numbers and the rows that hold a value *)

(** Row numbers from [i] on. *)
Fixpoint number {A} (i : Z) (l : list A) : list (Z * A) :=
  match l with
  | [] => []
  | x :: rest => (i, x) :: number (i + 1) rest
  end.

(** The rows of [keys] that hold [k], in order. *)
Definition matches_from (i : Z) (keys : list Z) (k : Z) : list Z :=
  omap (λ p, if decide (p.2 = k) then Some p.1 else None) (number i keys).
Definition matches (keys : list Z) (k : Z) : list Z := matches_from 0 keys k.

Lemma elem_of_number {A} (l : list A) i j x :
  (j, x) ∈ number i l ↔ i <= j ∧ l !! Z.to_nat (j - i) = Some x.
Proof.
  revert i. induction l as [|y l IH]; intros i; cbn [number].
  - rewrite elem_of_nil. split; [done|]. by intros [_ ?].
  - rewrite elem_of_cons, IH. split.
    + intros [[= -> ->]|[Hj Hl]]; [split; [lia|]; by rewrite Z.sub_diag|].
      split; [lia|]. by replace (Z.to_nat (j - i)) with (S (Z.to_nat (j - (i + 1)))) by lia.
    + intros [Hj Hl]. destruct (decide (j = i)) as [->|Hne].
      * left. rewrite Z.sub_diag in Hl. by simplify_eq/=.
      * right. split; [lia|].
        by replace (Z.to_nat (j - i)) with (S (Z.to_nat (j - (i + 1)))) in Hl by lia.
Qed.

Lemma number_fst_sorted {A} (l : list A) i : StronglySorted Z.lt (number i l).*1.
Proof.
  revert i. induction l as [|y l IH]; intros i; [constructor|]. cbn. constructor; [apply IH|].
  apply Forall_forall. intros j ((j' & x) & -> & Hj)%list_elem_of_fmap.
  apply elem_of_number in Hj. simpl. lia.
Qed.

Lemma number_snd {A} (l : list A) i : (number i l).*2 = l.
Proof. revert i. induction l as [|y l IH]; intros i; [done|]. cbn. by f_equal. Qed.

Lemma number_fmap {A B} (f : A → B) l i : number i (f <$> l) = (λ p, (p.1, f p.2)) <$> number i l.
Proof. revert i. induction l as [|y l IH]; intros i; [done|]. cbn. f_equal. apply IH. Qed.

Lemma elem_of_matches keys k j : j ∈ matches keys k ↔ 0 <= j ∧ keys !! Z.to_nat j = Some k.
Proof.
  unfold matches, matches_from. rewrite list_elem_of_omap. split.
  - intros ([j' x] & Hin & Hd). apply elem_of_number in Hin as [? Hin].
    simpl in Hd. case_decide; simplify_eq. by rewrite Z.sub_0_r in Hin.
  - intros [Hj Hl]. exists (j, k). rewrite elem_of_number, Z.sub_0_r. simpl.
    by rewrite decide_True.
Qed.

Lemma matches_nil keys k : matches keys k = [] ↔ k ∉ keys.
Proof.
  split.
  - intros Hm [i Hi]%list_elem_of_lookup.
    assert (Z.of_nat i ∈ matches keys k) as H.
    { apply elem_of_matches. rewrite Nat2Z.id. split; [lia|done]. }
    rewrite Hm in H. by apply elem_of_nil in H.
  - intros Hk. destruct (matches keys k) as [|j l] eqn:Hm; [done|].
    assert (j ∈ matches keys k) as [_ Hj]%elem_of_matches by (rewrite Hm; by left).
    by apply list_elem_of_lookup_2 in Hj.
Qed.

(** ** Sums *)

Notation zsum := (foldr Z.add 0).

Lemma zsum_app l k : zsum (l ++ k) = zsum l + zsum k.
Proof. induction l as [|x l IH]; simpl; lia. Qed.
