(* ===== verification/Bytes.v ===== *)
(** * Bytes: little-endian integers and strings on the wire

    The wire formats of the cluster write integers least significant byte first
    and strings as their bytes. A byte is an integer from 0 to 255. [push_le] is
    the loop of [RingSnapshot::serialize]; the codecs of [Rpc] use the same
    encoding, written out byte by byte. *)

From stdpp Require Import base list strings.
From Stdlib Require Import ZArith Lia.
From S2P Require Import Prelude.

Open Scope Z_scope.

(** [push_back(v & 0xFF); v >>= 8], [n] times. *)
Fixpoint push_le (n : nat) (v : Z) : list Z :=
  match n with
  | O => []
  | S n' => Z.land v 255 :: push_le n' (Z.shiftr v 8)
  end.

(** The value of bytes, least significant first. *)
Fixpoint le_val (bs : list Z) : Z :=
  match bs with
  | [] => 0
  | b :: bs => Z.lor b (Z.shiftl (le_val bs) 8)
  end.

Definition is_byte (b : Z) : Prop := 0 <= b < 2 ^ 8.

Definition bytes_of_string (s : string) : list Z := (λ c, Z.of_N (Ascii.N_of_ascii c)) <$> String.list_ascii_of_string s.
Definition string_of_bytes (bs : list Z) : string :=
  String.string_of_list_ascii ((λ b, Ascii.ascii_of_N (Z.to_N b)) <$> bs).

(** ** Lemmas *)

Lemma length_push_le n v : length (push_le n v) = n.
Proof. revert v. induction n as [|n IH]; intros v; simpl; [done|]. by rewrite IH. Qed.

Lemma land_255 v : Z.land v 255 = v mod 2 ^ 8.
Proof. change 255 with (Z.ones 8). by apply Z.land_ones. Qed.

Lemma lor_shiftl_byte a b : 0 <= b < 2 ^ 8 → Z.lor (Z.shiftl a 8) b = a * 2 ^ 8 + b.
Proof.
  intros Hb. rewrite Z.shiftl_mul_pow2 by lia.
  pose proof (Z.add_lor_land (a * 2 ^ 8) b) as H.
  replace (Z.land (a * 2 ^ 8) b) with 0 in H; [lia|].
  symmetry. apply Z.bits_inj'. intros i Hi. rewrite Z.land_spec, Z.bits_0.
  destruct (decide (i < 8)); [by rewrite Z.mul_pow2_bits_low by lia|].
  rewrite <- (Z.mod_small b (2 ^ 8)), Z.mod_pow2_bits_high, andb_false_r by lia. done.
Qed.

Lemma lookup_push_le n v i : (i < n)%nat →
  push_le n v !! i = Some ((v / 2 ^ (8 * Z.of_nat i)) mod 2 ^ 8).
Proof.
  revert v i. induction n as [|n IH]; intros v i Hi; [lia|].
  destruct i as [|i]; cbn [push_le lookup list_lookup].
  - by rewrite land_255, Z.div_1_r.
  - rewrite IH by lia. do 2 f_equal.
    rewrite Z.shiftr_div_pow2, Z.div_div by lia. f_equal.
    rewrite <- Z.pow_add_r by lia. f_equal. lia.
Qed.

Lemma lor_shiftl_byte_r a b : 0 <= b < 2 ^ 8 → Z.lor b (Z.shiftl a 8) = b + 2 ^ 8 * a.
Proof. intros Hb. rewrite Z.lor_comm, lor_shiftl_byte by done. lia. Qed.

Lemma le_val_push_le n v : 0 <= v < 2 ^ (8 * Z.of_nat n) → le_val (push_le n v) = v.
Proof.
  revert v. induction n as [|n IH]; intros v Hv; [simpl in *; lia|]. cbn [push_le le_val].
  replace (8 * Z.of_nat (S n)) with (8 + 8 * Z.of_nat n) in Hv by lia. rewrite Z.pow_add_r in Hv by lia.
  rewrite land_255, lor_shiftl_byte_r by (by apply Z.mod_pos_bound). rewrite Z.shiftr_div_pow2 by lia.
  rewrite IH; [|split; [by apply Z.div_pos; lia|apply Z.div_lt_upper_bound; lia]].
  rewrite Z.add_comm. symmetry. apply Z.div_mod. lia.
Qed.

Lemma le_val_range bs : Forall is_byte bs → 0 <= le_val bs < 2 ^ (8 * Z.of_nat (length bs)).
Proof.
  unfold is_byte. induction 1 as [|b bs Hb Hbs IH]; [simpl; lia|]. cbn [le_val length].
  rewrite lor_shiftl_byte_r by done.
  replace (8 * Z.of_nat (S (length bs))) with (8 + 8 * Z.of_nat (length bs)) by lia.
  rewrite Z.pow_add_r by lia. lia.
Qed.

Lemma push_le_bytes n v : Forall is_byte (push_le n v).
Proof.
  revert v. induction n as [|n IH]; intros v; simpl; constructor; [|done].
  unfold is_byte. rewrite land_255. by apply Z.mod_pos_bound.
Qed.

Lemma length_bytes_of_string s : length (bytes_of_string s) = String.length s.
Proof. unfold bytes_of_string. rewrite length_fmap. by induction s; simpl; [|f_equal]. Qed.

Lemma bytes_of_string_bytes s : Forall is_byte (bytes_of_string s).
Proof.
  apply Forall_forall. intros b (c & -> & _)%list_elem_of_fmap. unfold is_byte.
  pose proof (Ascii.N_ascii_bounded c). lia.
Qed.

Lemma string_of_bytes_of_string s : string_of_bytes (bytes_of_string s) = s.
Proof.
  unfold string_of_bytes, bytes_of_string. rewrite <- list_fmap_compose.
  rewrite <- (String.string_of_list_ascii_of_string s) at 2. f_equal.
  rewrite <- (list_fmap_id (String.list_ascii_of_string s)) at 2. apply list_fmap_ext. intros i c _. simpl.
  by rewrite N2Z.id, Ascii.ascii_N_embedding.
Qed.
