(* ===== verification/Text.v ===== *)
(** * Text

    Characters with their classes in the C locale, strings as lists of
    characters, and decimal numerals: what the tokenizer, the number conversions
    and the schema catalog share. *)

From stdpp Require Import base list strings.
From Stdlib Require Import ZArith Lia Ascii.
From S2P Require Import Prelude.

Open Scope Z_scope.

(** ** Characters *)

Notation char := Ascii.ascii.
Definition code (c : char) : Z := Z.of_N (Ascii.N_of_ascii c).
Definition between (lo hi : Z) (c : char) : bool := (lo <=? code c) && (code c <=? hi).

Definition isspace (c : char) : bool := between 9 13 c || (code c =? 32).
Definition isdigit (c : char) : bool := between 48 57 c.
Definition isalpha (c : char) : bool := between 65 90 c || between 97 122 c.
Definition isalnum (c : char) : bool := isalpha c || isdigit c.
Definition toupper (c : char) : char :=
  if between 97 122 c then Ascii.ascii_of_N (Ascii.N_of_ascii c - 32) else c.

Notation text := (list Ascii.ascii).
Definition str (l : text) : string := String.string_of_list_ascii l.
Definition chars (s : string) : text := String.list_ascii_of_string s.

(** [while (!at_end() && p(peek())) s += advance()]. *)
Fixpoint span (p : char → bool) (l : text) : text * text :=
  match l with
  | [] => ([], [])
  | c :: l' => if p c then let '(a, b) := span p l' in (c :: a, b) else ([], l)
  end.

(** What follows a run of characters in [p]: nothing, or a character outside. *)
Definition ends_run (p : char → bool) (l : text) : Prop := match l with c :: _ => p c = false | [] => True end.

(** ** Decimal numerals *)

Definition digit_value (c : char) : Z := code c - 48.
Definition digits_value (l : text) : Z := foldl (λ v c, 10 * v + digit_value c) 0 l.

Definition digit_char (d : Z) : char := Ascii.ascii_of_N (Z.to_N (48 + d)).

Fixpoint decimal_digits (fuel : nat) (n : Z) (acc : text) : text :=
  match fuel with
  | O => acc
  | S fuel =>
      let acc := digit_char (n mod 10) :: acc in
      if n / 10 =? 0 then acc else decimal_digits fuel (n / 10) acc
  end.

(** A number below [2 ^ k] has at most [k] decimal digits. *)
Definition unsigned_digits (n : Z) : text := decimal_digits (S (Z.to_nat (Z.log2 n))) n [].

Definition to_string (z : Z) : string :=
  str (if z <? 0 then "-"%char :: unsigned_digits (- z) else unsigned_digits z).

(** ** Lemmas *)

Ltac by_char c := destruct c as [[] [] [] [] [] [] [] []]; vm_compute; (done || congruence).

Lemma str_chars s : str (chars s) = s.
Proof. apply String.string_of_list_ascii_of_string. Qed.
Lemma chars_str l : chars (str l) = l.
Proof. apply String.list_ascii_of_string_of_list_ascii. Qed.

Lemma chars_append a b : chars (a +:+ b) = chars a ++ chars b.
Proof. induction a as [|c a IH]; [done|]. unfold chars in *. simpl. by rewrite IH. Qed.

Lemma digit_not_space c : isdigit c = true → isspace c = false.
Proof. by_char c. Qed.
Lemma span_app p l l' : forallb p l = true → match l' with c :: _ => p c = false | [] => True end →
  span p (l ++ l') = (l, l').
Proof.
  intros Hl Hl'. induction l as [|c l IH]; simpl in *.
  - destruct l' as [|c l']; [done|]. simpl. by rewrite Hl'.
  - apply andb_true_iff in Hl as [-> Hl]. by rewrite IH.
Qed.

Lemma span_spec p l : let '(a, b) := span p l in
  l = a ++ b ∧ forallb p a = true ∧ match b with c :: _ => p c = false | [] => True end.
Proof.
  induction l as [|c l IH]; simpl; [done|]. destruct (p c) eqn:Hc; [|by rewrite Hc].
  destruct (span p l) as [a b]. destruct IH as (-> & Ha & Hb). simpl. by rewrite Hc.
Qed.

Lemma length_span p l : (length (span p l).2 <= length l)%nat.
Proof. pose proof (span_spec p l) as H. destruct (span p l) as [a b]. destruct H as (-> & _). rewrite length_app. simpl. lia. Qed.

Lemma digit_char_spec d : 0 <= d < 10 → isdigit (digit_char d) = true ∧ digit_value (digit_char d) = d.
Proof.
  intros Hd. assert (d ∈ [0; 1; 2; 3; 4; 5; 6; 7; 8; 9]) as H by (rewrite !elem_of_cons; lia).
  repeat (apply elem_of_cons in H as [->|H]; [by vm_compute|]). by apply elem_of_nil in H.
Qed.

Lemma digits_value_app l l' : digits_value (l ++ l') = digits_value l * 10 ^ Z.of_nat (length l') + digits_value l'.
Proof.
  unfold digits_value. induction l' as [|c l' IH] using rev_ind; [rewrite app_nil_r; simpl; lia|].
  rewrite app_assoc, !foldl_snoc, IH, length_app. simpl.
  replace (Z.of_nat (length l' + 1)) with (Z.of_nat (length l') + 1) by lia. rewrite Z.pow_add_r by lia. lia.
Qed.

Lemma decimal_digits_spec fuel n acc :
  0 <= n < 10 ^ Z.of_nat fuel → (0 < fuel)%nat → forallb isdigit acc = true →
  ∃ l, decimal_digits fuel n acc = l ++ acc ∧ forallb isdigit l = true ∧ digits_value l = n ∧ l ≠ [].
Proof.
  revert n acc. induction fuel as [|fuel IH]; intros n acc Hn Hf Hacc; [lia|]. cbn [decimal_digits].
  destruct (digit_char_spec (n mod 10)) as [Hc Hv]; [by apply Z.mod_pos_bound|].
  pose proof (Z.div_mod n 10 ltac:(lia)) as Hdm. pose proof (Z.mod_pos_bound n 10 ltac:(lia)) as Hm.
  destruct (Z.eqb_spec (n / 10) 0) as [Hz|Hz].
  - exists [digit_char (n mod 10)]. split; [done|]. cbn [forallb]. rewrite Hc. split; [done|]. split; [|done].
    unfold digits_value. cbn [foldl]. lia.
  - rewrite Nat2Z.inj_succ, Z.pow_succ_r in Hn by lia.
    assert (0 <= n / 10 < 10 ^ Z.of_nat fuel) as Hn' by lia.
    destruct (IH (n / 10) (digit_char (n mod 10) :: acc)) as (l & -> & Hl & Hlv & Hne).
    + done.
    + destruct fuel; [|lia]. simpl in Hn'. lia.
    + simpl. by rewrite Hc.
    + exists (l ++ [digit_char (n mod 10)]). rewrite <- app_assoc, forallb_app. cbn [forallb app].
      rewrite Hl, Hc. split_and!; try done; [|by destruct l].
      rewrite digits_value_app, Hlv. unfold digits_value at 1. cbn [foldl length]. change (10 ^ Z.of_nat 1) with 10. lia.
Qed.

Lemma unsigned_digits_spec n : 0 <= n →
  forallb isdigit (unsigned_digits n) = true ∧ digits_value (unsigned_digits n) = n ∧ unsigned_digits n ≠ [].
Proof.
  intros Hn. unfold unsigned_digits. destruct (decimal_digits_spec (S (Z.to_nat (Z.log2 n))) n []) as (l & -> & ? & ? & ?);
    [|lia|done|by rewrite app_nil_r].
  split; [done|]. rewrite Nat2Z.inj_succ, Z2Nat.id by apply Z.log2_nonneg.
  destruct (decide (n = 0)) as [->|]; [done|]. pose proof (Z.log2_spec n ltac:(lia)) as [_ H].
  eapply Z.lt_le_trans; [done|]. apply Z.pow_le_mono_l. lia.
Qed.

Lemma span_all p l : forallb p l = true → span p l = (l, []).
Proof. intros Hl. rewrite <- (app_nil_r l) at 1. by apply span_app. Qed.

Lemma digit_not_sign c : isdigit c = true →
  isspace c = false ∧ Ascii.eqb c "-"%char = false ∧ Ascii.eqb c "+"%char = false ∧ Ascii.eqb c "."%char = false.
Proof. by_char c. Qed.
