(* ===== verification/PartitionRouter.v ===== *)
(** * PartitionRouter: consistent-hash routing of symbols to nodes

    Models [include/zeptodb/cluster/partition_router.h]. The router's mutable
    members are the fields of the record [PartitionRouter]; each public method
    is one definition that runs the call from its first locked region to its last
    with no other call between them; [RouterRace] has the regions of [route],
    [add_node] and [remove_node] as separate steps, shows that a thread which is
    not interrupted does what the definitions here do, and what overlapping calls do.
    [std::map] is a [gmap Z] with the ordered iterators of the prelude, an
    [unordered_map] is a [gmap]; time points are nanoseconds and an argument
    of the methods that read the clock. *)

From stdpp Require Import base gmap sets list fin_maps fin_sets strings.
From Stdlib Require Import ZArith Lia.
From S2P Require Import Prelude.

Open Scope Z_scope.

(** ** Data *)

Definition INVALID_NODE_ID : Z := 2 ^ 32 - 1.

Inductive TablePlacementPolicy : Type :=
  | HashByTableAndSymbol
  | HashByTable
  | PinnedNode.

Record TablePlacement : Type := mkTablePlacement {
  policy : TablePlacementPolicy;
  node_id : Z;
}.

Record Move : Type := mkMove {
  move_symbol : Z;
  move_from : Z;
  move_to : Z;
}.

Definition VNODES_PER_NODE : nat := 128.
Definition MAX_CACHE_SIZE : Z := 65536.

Record PartitionRouter : Type := mkRouter {
  ring_ : gmap Z Z;
  node_set_ : gset Z;
  cache_ : gmap Z Z;
  pinned_ : gmap Z Z;
  table_placements_ : gmap Z TablePlacement;
  migrating_ : gmap Z (Z * Z);
  recently_migrated_ : gmap Z ((Z * Z) * Z);
  migration_grace_period_ : Z;
}.

(** [PartitionRouter() = default]: no node, a grace period of 30 s. *)
Definition empty_router : PartitionRouter :=
  mkRouter ∅ ∅ ∅ ∅ ∅ ∅ ∅ (30 * 1000000000).

(** The copy constructor takes the ring, the nodes, the pins and the table
    placements; the cache and the migration tables of the copy start empty. *)
Definition copy_router (other : PartitionRouter) : PartitionRouter :=
  mkRouter (ring_ other) (node_set_ other) ∅ (pinned_ other)
    (table_placements_ other) ∅ ∅ (30 * 1000000000).

(** Assignment replaces the same four members, clears the cache and keeps the
    migration tables of the left-hand side. *)
Definition assign_router (r other : PartitionRouter) : PartitionRouter :=
  mkRouter (ring_ other) (node_set_ other) ∅ (pinned_ other)
    (table_placements_ other) (migrating_ r) (recently_migrated_ r)
    (migration_grace_period_ r).

(** Field updates. *)
Definition set_ring (r : PartitionRouter) ring ns : PartitionRouter :=
  mkRouter ring ns ∅ (pinned_ r) (table_placements_ r) (migrating_ r)
    (recently_migrated_ r) (migration_grace_period_ r).
Definition set_cache (r : PartitionRouter) c : PartitionRouter :=
  mkRouter (ring_ r) (node_set_ r) c (pinned_ r) (table_placements_ r)
    (migrating_ r) (recently_migrated_ r) (migration_grace_period_ r).
Definition set_pins (r : PartitionRouter) p c : PartitionRouter :=
  mkRouter (ring_ r) (node_set_ r) c p (table_placements_ r)
    (migrating_ r) (recently_migrated_ r) (migration_grace_period_ r).
Definition set_placements (r : PartitionRouter) t : PartitionRouter :=
  mkRouter (ring_ r) (node_set_ r) ∅ (pinned_ r) t
    (migrating_ r) (recently_migrated_ r) (migration_grace_period_ r).
Definition set_migration (r : PartitionRouter) mg rm : PartitionRouter :=
  mkRouter (ring_ r) (node_set_ r) (cache_ r) (pinned_ r) (table_placements_ r)
    mg rm (migration_grace_period_ r).

(** ** Hash functions *)

(** The four bytes of a [uint32_t] in memory order (little endian). *)
Definition symbol_bytes (sym : Z) : list Z :=
  (λ i, Z.land (Z.shiftr sym (8 * i)) 255) <$> [0; 1; 2; 3].

(** FNV-1a over the bytes of the symbol id. *)
Definition symbol_hash (sym : Z) : Z :=
  foldl (λ h p, u64 (Z.lxor h p * 1099511628211)) 14695981039346656037
    (symbol_bytes sym).

(** One [key ^ (key >> k)] step of splitmix64. *)
Definition xorshift (k x : Z) : Z := Z.lxor x (Z.shiftr x k).

Definition vnode_key (node idx : Z) : Z :=
  Z.lor (u64 (Z.shiftl node 32)) (Z.land idx 4294967295).

(** splitmix64 over (node id, virtual index). *)
Definition vnode_hash (node idx : Z) : Z :=
  let key := u64 (vnode_key node idx + 0x9e3779b97f4a7c15) in
  let key := u64 (xorshift 30 key * 0xbf58476d1ce4e5b9) in
  let key := u64 (xorshift 27 key * 0x94d049bb133111eb) in
  xorshift 31 key.

(** ** The ring *)

Definition vnode_indices : list Z := Z.of_nat <$> seq 0 VNODES_PER_NODE.

Definition ring_add (node : Z) (ring : gmap Z Z) : gmap Z Z :=
  foldl (λ rg i, <[vnode_hash node i := node]> rg) ring vnode_indices.

Definition ring_remove (node : Z) (ring : gmap Z Z) : gmap Z Z :=
  foldl (λ rg i, delete (vnode_hash node i) rg) ring vnode_indices.

(** The iterator [find_node] dereferences; [None] when the ring is empty,
    where the code would dereference [end()]. *)
Definition find_vnode (ring : gmap Z Z) (h : Z) : option Z :=
  match lower_bound ring h with
  | Some k => Some k
  | None => begin_ ring
  end.

Definition find_node (ring : gmap Z Z) (h : Z) : option Z :=
  find_vnode ring h ≫= λ k, ring !! k.

(** [++it], wrapping to [begin()] at the end. *)
Definition next_vnode (ring : gmap Z Z) (k : Z) : option Z :=
  match upper_bound ring k with
  | Some k' => Some k'
  | None => begin_ ring
  end.

(** ** Node management *)

Definition add_node (r : PartitionRouter) (node : Z) : PartitionRouter :=
  if decide (node ∈ node_set_ r) then r
  else set_ring r (ring_add node (ring_ r)) ({[node]} ∪ node_set_ r).

Definition remove_node (r : PartitionRouter) (node : Z) : PartitionRouter :=
  if decide (node ∈ node_set_ r)
  then set_ring r (ring_remove node (ring_ r)) (node_set_ r ∖ {[node]})
  else r.

Definition node_count (r : PartitionRouter) : nat := size (node_set_ r).
Definition all_nodes (r : PartitionRouter) : list Z := elements (node_set_ r).

(** ** Routing *)

Definition route (r : PartitionRouter) (symbol : Z) : outcome Z * PartitionRouter :=
  match pinned_ r !! symbol with
  | Some n => (Returned n, r)
  | None =>
      if decide (ring_ r = ∅)
      then (Thrown "PartitionRouter: no nodes in cluster", r)
      else match cache_ r !! symbol with
      | Some n => (Returned n, r)
      | None =>
          match find_node (ring_ r) (symbol_hash symbol) with
          | Some n =>
              (Returned n,
               if Z.of_nat (size (cache_ r)) <? MAX_CACHE_SIZE
               then set_cache r (<[symbol := n]> (cache_ r)) else r)
          | None => (Thrown "dereference of end()", r)
          end
      end
  end.

Definition table_route_key (table_id symbol : Z) : Z :=
  u32 (Z.lxor (u32 symbol) (u32 (Z.shiftl table_id 16))).

Definition table_placement (r : PartitionRouter) (table_id : Z) : option TablePlacement :=
  table_placements_ r !! table_id.

Definition route_table (r : PartitionRouter) (table_id symbol : Z)
    : outcome Z * PartitionRouter :=
  match (if table_id =? 0 then None else table_placement r table_id) with
  | Some (mkTablePlacement PinnedNode n) =>
      if n =? INVALID_NODE_ID
      then (Thrown "PartitionRouter: pinned table placement has no node", r)
      else (Returned n, r)
  | Some (mkTablePlacement HashByTable _) => route r (table_route_key table_id 0)
  | _ => route r (table_route_key table_id symbol)
  end.

Definition set_table_placement (r : PartitionRouter) (table_id : Z)
    (p : TablePlacementPolicy) (n : Z) : outcome PartitionRouter :=
  if table_id =? 0
  then Thrown "PartitionRouter: table placement requires non-zero table_id"
  else match p with
  | PinnedNode =>
      if n =? INVALID_NODE_ID
      then Thrown "PartitionRouter: pinned table placement requires node_id"
      else Returned (set_placements r
             (<[table_id := mkTablePlacement p n]> (table_placements_ r)))
  | _ => Returned (set_placements r
             (<[table_id := mkTablePlacement p n]> (table_placements_ r)))
  end.

Definition clear_table_placement (r : PartitionRouter) (table_id : Z) : PartitionRouter :=
  set_placements r (delete table_id (table_placements_ r)).

(** ** Hot symbol pinning *)

Definition pin_symbol (r : PartitionRouter) (symbol node : Z) : PartitionRouter :=
  set_pins r (<[symbol := node]> (pinned_ r)) (delete symbol (cache_ r)).

Definition unpin_symbol (r : PartitionRouter) (symbol : Z) : PartitionRouter :=
  set_pins r (delete symbol (pinned_ r)) (delete symbol (cache_ r)).

Definition pinned_symbols (r : PartitionRouter) : list (Z * Z) := map_to_list (pinned_ r).
Definition pinned_count (r : PartitionRouter) : nat := size (pinned_ r).

(** ** Dual-write during migration *)

Definition begin_migration (r : PartitionRouter) (symbol from to : Z) : PartitionRouter :=
  set_migration r (<[symbol := (from, to)]> (migrating_ r)) (recently_migrated_ r).

Definition end_migration (now : Z) (r : PartitionRouter) (symbol : Z) : PartitionRouter :=
  match migrating_ r !! symbol with
  | Some ft => set_migration r (delete symbol (migrating_ r))
                 (<[symbol := (ft, now)]> (recently_migrated_ r))
  | None => r
  end.

Definition commit_migration (r : PartitionRouter) (symbol owner : Z) : PartitionRouter :=
  set_migration (pin_symbol r symbol owner)
    (delete symbol (migrating_ r)) (delete symbol (recently_migrated_ r)).

Definition abort_migration (r : PartitionRouter) (symbol : Z) : PartitionRouter :=
  set_migration r (delete symbol (migrating_ r)) (recently_migrated_ r).

Definition migration_target (r : PartitionRouter) (symbol : Z) : option (Z * Z) :=
  migrating_ r !! symbol.

Definition recently_migrated (now : Z) (r : PartitionRouter) (symbol : Z)
    : option (Z * Z) * PartitionRouter :=
  match recently_migrated_ r !! symbol with
  | None => (None, r)
  | Some (ft, t) =>
      if migration_grace_period_ r <? now - t
      then (None, set_migration r (migrating_ r) (delete symbol (recently_migrated_ r)))
      else (Some ft, r)
  end.

Definition set_migration_grace_period (r : PartitionRouter) (sec : Z) : PartitionRouter :=
  mkRouter (ring_ r) (node_set_ r) (cache_ r) (pinned_ r) (table_placements_ r)
    (migrating_ r) (recently_migrated_ r) (sec * 1000000000).

(** ** Replicas *)

(** The [for] loop of [route_replica]: at most [steps] moves along the ring from
    the virtual node [k], stopping at the first one of another owner. *)
Fixpoint replica_walk (steps : nat) (ring : gmap Z Z) (primary k : Z) : Z :=
  match steps with
  | O => INVALID_NODE_ID
  | S steps' =>
      match next_vnode ring k with
      | None => INVALID_NODE_ID
      | Some k' =>
          match ring !! k' with
          | Some n => if n =? primary then replica_walk steps' ring primary k' else n
          | None => INVALID_NODE_ID
          end
      end
  end.

Definition route_replica (r : PartitionRouter) (symbol : Z) : Z :=
  if (size (node_set_ r) <? 2)%nat then INVALID_NODE_ID
  else
    let h := symbol_hash symbol in
    match find_node (ring_ r) h, find_vnode (ring_ r) h with
    | Some primary, Some k => replica_walk (size (ring_ r)) (ring_ r) primary k
    | _, _ => INVALID_NODE_ID
    end.

Definition route_replica_table (r : PartitionRouter) (table_id symbol : Z) : outcome Z :=
  match (if table_id =? 0 then None else table_placement r table_id) with
  | Some (mkTablePlacement PinnedNode n) =>
      if n =? INVALID_NODE_ID
      then Thrown "PartitionRouter: pinned table placement has no node"
      else Returned n
  | Some (mkTablePlacement HashByTable _) =>
      Returned (route_replica r (table_route_key table_id 0))
  | _ => Returned (route_replica r (table_route_key table_id symbol))
  end.

(** ** Migration planning *)

Fixpoint dedup_moves (seen : gset (Z * Z)) (moves : list Move) : list Move :=
  match moves with
  | [] => []
  | m :: rest =>
      if decide ((move_from m, move_to m) ∈ seen) then dedup_moves seen rest
      else m :: dedup_moves ({[(move_from m, move_to m)]} ∪ seen) rest
  end.

Definition deduplicate_moves (moves : list Move) : list Move := dedup_moves ∅ moves.

(** The representative symbol of a moved range is the low half of the hash. *)
Definition representative (h : Z) : Z := Z.land h 0xFFFFFFFF.

Definition plan_add_moves (r : PartitionRouter) (new_node : Z) : list Move :=
  vnode_indices ≫= λ i,
    let h := vnode_hash new_node i in
    match find_node (ring_ r) h with
    | Some old_owner =>
        if old_owner =? new_node then []
        else [mkMove (representative h) old_owner new_node]
    | None => []
    end.

Definition plan_add (r : PartitionRouter) (new_node : Z) : list Move :=
  if decide (new_node ∈ node_set_ r) then []
  else deduplicate_moves (plan_add_moves r new_node).

Definition plan_remove_moves (r : PartitionRouter) (leaving : Z) : list Move :=
  let temp := remove_node (copy_router r) leaving in
  vnode_indices ≫= λ i,
    let h := vnode_hash leaving i in
    match find_node (ring_ temp) h with
    | Some new_owner => [mkMove (representative h) leaving new_owner]
    | None => []
    end.

Definition plan_remove (r : PartitionRouter) (leaving : Z) : list Move :=
  if decide (leaving ∈ node_set_ r)
  then if (size (node_set_ r) <=? 1)%nat then []
       else deduplicate_moves (plan_remove_moves r leaving)
  else [].

(** ** The virtual-node hash is injective

    Each stage of splitmix64 is a bijection of the 64-bit integers, so distinct
    (node, index) pairs get distinct ring positions. *)

Lemma lxor_shiftr_zero d k : 0 <= d → 0 < k → Z.lxor d (Z.shiftr d k) = 0 → d = 0.
Proof.
  intros Hd Hk H. apply Z.lxor_eq in H. rewrite Z.shiftr_div_pow2 in H by lia.
  assert (1 < 2 ^ k) by (apply Z.pow_gt_1; lia).
  destruct (decide (d = 0)); [done|]. pose proof (Z.div_lt d (2 ^ k)). lia.
Qed.

Lemma xorshift_inj k x y :
  0 < k → 0 <= x → 0 <= y → xorshift k x = xorshift k y → x = y.
Proof.
  intros Hk Hx Hy H. apply Z.lxor_eq, (lxor_shiftr_zero _ k); [|done|].
  - apply Z.lxor_nonneg. lia.
  - rewrite Z.shiftr_lxor.
    transitivity (Z.lxor (xorshift k x) (xorshift k y)); [|rewrite H; apply Z.lxor_nilpotent].
    unfold xorshift. apply Z.bits_inj'. intros n Hn. rewrite !Z.lxor_spec.
    by destruct (Z.testbit x n), (Z.testbit y n),
      (Z.testbit (Z.shiftr x k) n), (Z.testbit (Z.shiftr y k) n).
Qed.

Lemma xorshift_range w k x :
  0 <= w → 0 <= k → 0 <= x < 2 ^ w → 0 <= xorshift k x < 2 ^ w.
Proof.
  intros Hw Hk Hx. unfold xorshift.
  assert (0 <= Z.shiftr x k <= x) as Hs.
  { rewrite Z.shiftr_div_pow2 by done. split; [apply Z.div_pos; lia|].
    apply Z.div_le_upper_bound; nia. }
  assert (0 <= Z.lxor x (Z.shiftr x k)) by (apply Z.lxor_nonneg; lia).
  split; [done|]. destruct (decide (Z.lxor x (Z.shiftr x k) = 0)) as [->|]; [lia|].
  apply Z.log2_lt_pow2; [lia|].
  pose proof (Z.log2_lxor x (Z.shiftr x k)).
  pose proof (Z.log2_le_mono (Z.shiftr x k) x).
  destruct (decide (x = 0)) as [->|]; [by rewrite Z.shiftr_0_l in *|].
  pose proof (proj1 (Z.log2_lt_pow2 x w ltac:(lia)) (proj2 Hx)). lia.
Qed.

(** Multiplication by an odd constant is invertible modulo 2^64. *)
Lemma u64_mul_inj c c' x y :
  u64 (c * c') = 1 → 0 <= x < 2 ^ 64 → 0 <= y < 2 ^ 64 →
  u64 (x * c) = u64 (y * c) → x = y.
Proof.
  intros Hc Hx Hy H.
  rewrite <- (wrap_small 64 x Hx), <- (wrap_small 64 y Hy).
  assert (∀ z, u64 z = u64 (u64 (z * c) * c')) as Hinv.
  { intros z. unfold wrap. rewrite Z.mul_mod_idemp_l by lia.
    rewrite <- Z.mul_assoc, <- Z.mul_mod_idemp_r by lia.
    change ((c * c') mod 2 ^ 64) with (u64 (c * c')). by rewrite Hc, Z.mul_1_r. }
  by rewrite (Hinv x), (Hinv y), H.
Qed.

Lemma u64_add_inj c x y :
  0 <= x < 2 ^ 64 → 0 <= y < 2 ^ 64 → u64 (x + c) = u64 (y + c) → x = y.
Proof.
  intros Hx Hy H. rewrite <- (wrap_small 64 x Hx), <- (wrap_small 64 y Hy).
  assert (∀ z, u64 z = u64 (u64 (z + c) - c)) as Hinv.
  { intros z. unfold wrap. rewrite Zminus_mod_idemp_l. f_equal. lia. }
  by rewrite (Hinv x), (Hinv y), H.
Qed.

Lemma vnode_key_eq node idx :
  0 <= node < 2 ^ 32 → 0 <= idx < 2 ^ 32 → vnode_key node idx = node * 2 ^ 32 + idx.
Proof.
  intros Hn Hi. unfold vnode_key.
  change 4294967295 with (Z.ones 32). rewrite Z.land_ones, (Z.mod_small idx) by lia.
  rewrite Z.shiftl_mul_pow2, wrap_small by lia.
  pose proof (Z.add_lor_land (node * 2 ^ 32) idx) as Hadd.
  replace (Z.land (node * 2 ^ 32) idx) with 0 in Hadd; [lia|].
  symmetry. apply Z.bits_inj'. intros n ?. rewrite Z.land_spec, Z.bits_0.
  destruct (decide (n < 32)).
  - by rewrite Z.mul_pow2_bits_low by lia.
  - rewrite (Z.bits_above_log2 idx), andb_false_r; [done|lia|].
    destruct (decide (idx = 0)) as [->|]; [simpl; lia|].
    pose proof (proj1 (Z.log2_lt_pow2 idx 32 ltac:(lia)) ltac:(lia)). lia.
Qed.

Lemma vnode_hash_range node idx : 0 <= vnode_hash node idx < 2 ^ 64.
Proof. apply xorshift_range; [lia..|]. by apply wrap_range. Qed.

Lemma vnode_hash_inj node idx node' idx' :
  0 <= node < 2 ^ 32 → 0 <= idx < 2 ^ 32 → 0 <= node' < 2 ^ 32 → 0 <= idx' < 2 ^ 32 →
  vnode_hash node idx = vnode_hash node' idx' → node = node' ∧ idx = idx'.
Proof.
  intros Hn Hi Hn' Hi' H. unfold vnode_hash in H.
  assert (∀ z, 0 <= u64 z < 2 ^ 64) as Hu by (intros; by apply wrap_range).
  assert (∀ k z, 0 <= k → 0 <= xorshift k (u64 z) < 2 ^ 64) as Hx
    by (intros; by apply xorshift_range).
  apply xorshift_inj in H; [|done|apply Hu..].
  apply (u64_mul_inj _ 3573116690164977347) in H; [|vm_compute; done|by apply Hx..].
  apply xorshift_inj in H; [|done|apply Hu..].
  apply (u64_mul_inj _ 10871156337175269513) in H; [|vm_compute; done|by apply Hx..].
  apply xorshift_inj in H; [|done|apply Hu..].
  rewrite !vnode_key_eq in H by done.
  apply u64_add_inj in H; [lia..].
Qed.
