(* ===== verification/RouterFacts.v ===== *)
(** * Facts about consistent-hash routing

    The theory behind [PartitionRouter]: the ring as a cyclic order, its
    canonical form for a set of nodes, and the properties of routing, replica
    placement and migration plans that follow from them. *)

From stdpp Require Import base gmap sets list fin_maps fin_sets strings relations.
From Stdlib Require Import ZArith Lia.
From S2P Require Import Prelude.
From S2P Require Import PartitionRouter.

Open Scope Z_scope.

(** ** The ring as a cyclic order

    [ring_dist h k] is how far the position [k] lies clockwise of the hash [h];
    the owner of [h] is the virtual node at the least distance. *)

Definition ring_dist (h k : Z) : Z := (k - h) mod 2 ^ 64.

Definition in_range (k : Z) : Prop := 0 <= k < 2 ^ 64.

Definition ring_keys_ok (ring : gmap Z Z) : Prop :=
  ∀ k, is_Some (ring !! k) → in_range k.

Definition is_first (ring : gmap Z Z) (h k : Z) : Prop :=
  is_Some (ring !! k) ∧ ∀ k', is_Some (ring !! k') → ring_dist h k <= ring_dist h k'.

Lemma ring_dist_eq h k :
  in_range h → in_range k →
  (h <= k ∧ ring_dist h k = k - h) ∨ (k < h ∧ ring_dist h k = k - h + 2 ^ 64).
Proof.
  unfold in_range, ring_dist. intros Hh Hk.
  destruct (Z.le_gt_cases h k); [left|right]; (split; [lia|]).
  - apply Z.mod_small. lia.
  - rewrite <- (Z_mod_plus_full _ 1). apply Z.mod_small. lia.
Qed.

(** Case analysis on every distance in sight, then linear arithmetic. *)
Ltac ring_lia :=
  repeat match goal with
  | Hh : in_range ?h, Hk : in_range ?k, H : context [ring_dist ?h ?k] |- _ =>
      lazymatch goal with
      | _ : ring_dist h k = k - h |- _ => fail
      | _ : ring_dist h k = k - h + _ |- _ => fail
      | _ => destruct (ring_dist_eq h k Hh Hk) as [[? ?]|[? ?]]
      end
  | Hh : in_range ?h, Hk : in_range ?k |- context [ring_dist ?h ?k] =>
      lazymatch goal with
      | _ : ring_dist h k = k - h |- _ => fail
      | _ : ring_dist h k = k - h + _ |- _ => fail
      | _ => destruct (ring_dist_eq h k Hh Hk) as [[? ?]|[? ?]]
      end
  end; unfold in_range in *; lia.

Lemma ring_dist_inj h k k' :
  in_range h → in_range k → in_range k' → ring_dist h k = ring_dist h k' → k = k'.
Proof. intros. ring_lia. Qed.

Lemma is_first_unique ring h k k' :
  ring_keys_ok ring → in_range h → is_first ring h k → is_first ring h k' → k = k'.
Proof.
  intros Hok Hh [Hk Hmin] [Hk' Hmin'].
  apply (ring_dist_inj h); [done|by apply Hok..|].
  specialize (Hmin k' Hk'). specialize (Hmin' k Hk). lia.
Qed.

Lemma begin_Some (ring : gmap Z Z) k : is_Some (ring !! k) → is_Some (begin_ ring).
Proof.
  intros Hk. destruct (begin_ ring) as [b|] eqn:Hb; [done|].
  by apply (map_min_key_None _ _ k) in Hb.
Qed.

Lemma find_vnode_is_Some ring h k : is_Some (ring !! k) → is_Some (find_vnode ring h).
Proof.
  intros Hk. unfold find_vnode. destruct (lower_bound ring h); [done|].
  by apply begin_Some with k.
Qed.

Lemma find_vnode_first ring h k :
  ring_keys_ok ring → in_range h → find_vnode ring h = Some k → is_first ring h k.
Proof.
  intros Hok Hh. unfold find_vnode. destruct (lower_bound ring h) as [k0|] eqn:Hl.
  - intros [= ->]. apply map_min_key_Some in Hl as (Hk & Hge%Z.leb_le & Hmin).
    split; [done|]. intros k' Hk'. specialize (Hmin k' Hk').
    pose proof (Hok _ Hk). pose proof (Hok _ Hk').
    destruct (decide (h <= k')); [|ring_lia].
    specialize (Hmin ltac:(by apply Z.leb_le)). ring_lia.
  - intros Hb. apply map_min_key_Some in Hb as (Hk & _ & Hmin).
    split; [done|]. intros k' Hk'. specialize (Hmin k' Hk' eq_refl).
    pose proof (map_min_key_None _ _ _ Hl Hk) as Hlt%Z.leb_gt.
    pose proof (map_min_key_None _ _ _ Hl Hk') as Hlt'%Z.leb_gt.
    pose proof (Hok _ Hk). pose proof (Hok _ Hk'). ring_lia.
Qed.

Lemma find_vnode_iff ring h k :
  ring_keys_ok ring → in_range h → find_vnode ring h = Some k ↔ is_first ring h k.
Proof.
  intros Hok Hh. split; [by apply find_vnode_first|]. intros Hf.
  destruct (find_vnode_is_Some ring h k) as [k' Hk']; [apply Hf|].
  rewrite Hk'. f_equal. apply (is_first_unique ring h); [done..| |done].
  by apply find_vnode_first.
Qed.

Lemma find_node_Some ring h n :
  ring_keys_ok ring → in_range h →
  find_node ring h = Some n ↔ ∃ k, is_first ring h k ∧ ring !! k = Some n.
Proof.
  intros Hok Hh. unfold find_node. rewrite bind_Some.
  by setoid_rewrite find_vnode_iff.
Qed.

Lemma find_node_is_Some ring h :
  ring ≠ ∅ → ring_keys_ok ring → in_range h → is_Some (find_node ring h).
Proof.
  intros [k [n Hk]]%map_choose Hok Hh.
  destruct (find_vnode_is_Some ring h k) as [k' Hk']; [done|].
  unfold find_node. rewrite Hk'. simpl. by apply (find_vnode_first ring h).
Qed.

(** [++it] with wrap-around moves to the least farther position. *)
Lemma next_vnode_spec ring h k k1 :
  ring_keys_ok ring → in_range h → is_Some (ring !! k) → is_Some (ring !! k1) →
  ring_dist h k < ring_dist h k1 →
  ∃ k', next_vnode ring k = Some k' ∧ is_Some (ring !! k') ∧
        ring_dist h k < ring_dist h k' ∧
        ∀ k'', is_Some (ring !! k'') → ring_dist h k < ring_dist h k'' →
               ring_dist h k' <= ring_dist h k''.
Proof.
  intros Hok Hh Hk Hk1 Hlt. pose proof (Hok _ Hk). pose proof (Hok _ Hk1).
  unfold next_vnode. destruct (upper_bound ring k) as [u|] eqn:Hu.
  - apply map_min_key_Some in Hu as (Hu & Hku%Z.ltb_lt & Hmin).
    pose proof (Hok _ Hu). exists u. split_and!; [done|done| |].
    + destruct (decide (k < k1)) as [Hc|]; [|ring_lia].
      specialize (Hmin k1 Hk1 ltac:(by apply Z.ltb_lt)). ring_lia.
    + intros k2 Hk2 ?. pose proof (Hok _ Hk2).
      destruct (decide (k < k2)) as [Hc|]; [|ring_lia].
      specialize (Hmin k2 Hk2 ltac:(by apply Z.ltb_lt)). ring_lia.
  - destruct (begin_Some ring k Hk) as [b Hb]. exists b.
    apply map_min_key_Some in Hb as Hb'. destruct Hb' as (Hbs & _ & Hmin).
    pose proof (Hok _ Hbs).
    pose proof (map_min_key_None _ _ _ Hu Hk1) as Hk1k%Z.ltb_ge.
    pose proof (Hmin k1 Hk1 eq_refl).
    split_and!; [done|done|ring_lia|]. intros k2 Hk2 ?. pose proof (Hok _ Hk2).
    pose proof (map_min_key_None _ _ _ Hu Hk2) as ?%Z.ltb_ge.
    pose proof (Hmin k2 Hk2 eq_refl). ring_lia.
Qed.

(** ** The canonical ring of a set of nodes *)

Definition node_ok (n : Z) : Prop := 0 <= n < 2 ^ 32.

Definition is_vnode (n h : Z) : Prop := ∃ i, i ∈ vnode_indices ∧ h = vnode_hash n i.

Definition ring_ok (ring : gmap Z Z) (ns : gset Z) : Prop :=
  ∀ h n, ring !! h = Some n ↔ n ∈ ns ∧ is_vnode n h.

Definition nodes_ok (ns : gset Z) : Prop := ∀ n, n ∈ ns → node_ok n.

Lemma elem_of_vnode_indices i : i ∈ vnode_indices ↔ 0 <= i < 128.
Proof.
  unfold vnode_indices, VNODES_PER_NODE. rewrite list_elem_of_fmap.
  setoid_rewrite elem_of_seq. split.
  - intros (j & -> & ?). lia.
  - intros ?. exists (Z.to_nat i). lia.
Qed.

Lemma is_vnode_range n h : is_vnode n h → in_range h.
Proof. intros (i & _ & ->). apply vnode_hash_range. Qed.

Lemma is_vnode_inj n n' h : node_ok n → node_ok n' → is_vnode n h → is_vnode n' h → n = n'.
Proof.
  unfold node_ok. intros Hn Hn' (i & Hi%elem_of_vnode_indices & ->) (i' & Hi'%elem_of_vnode_indices & H).
  by apply vnode_hash_inj in H as [-> _]; [|lia..].
Qed.

#[export] Instance is_vnode_dec n h : Decision (is_vnode n h).
Proof.
  refine (cast_if (decide (Exists (λ i, h = vnode_hash n i) vnode_indices)));
    abstract (revert select (Exists _ _) || revert select (¬ Exists _ _);
              rewrite Exists_exists; unfold is_vnode; done).
Defined.

Lemma ring_ok_unique ring ring' ns : ring_ok ring ns → ring_ok ring' ns → ring = ring'.
Proof.
  intros H H'. apply map_eq. intros h. apply option_eq. intros n.
  by rewrite (H h n), (H' h n).
Qed.

Lemma ring_ok_keys ring ns : ring_ok ring ns → ring_keys_ok ring.
Proof. intros Hr k [n [_ Hv]%Hr]. by apply is_vnode_range in Hv. Qed.

Lemma ring_ok_nonempty ring ns n : ring_ok ring ns → n ∈ ns → ring !! vnode_hash n 0 = Some n.
Proof.
  intros Hr Hn. apply Hr. split; [done|]. exists 0. split; [|done].
  by apply elem_of_vnode_indices.
Qed.

Lemma ring_ok_empty ring ns : ring_ok ring ns → ring = ∅ ↔ ns = ∅.
Proof.
  intros Hr. split.
  - intros ->. apply set_eq. intros n. split; [|set_solver].
    intros Hn%(ring_ok_nonempty _ _ _ Hr). by rewrite lookup_empty in Hn.
  - intros ->. apply map_eq. intros h. rewrite lookup_empty. apply eq_None_not_Some.
    intros [n [Hn _]%Hr]. set_solver.
Qed.

Lemma foldl_insert_lookup (f : Z → Z) (n : Z) l (ring : gmap Z Z) h :
  foldl (λ rg i, <[f i := n]> rg) ring l !! h =
  if decide (Exists (λ i, h = f i) l) then Some n else ring !! h.
Proof.
  revert ring. induction l as [|i l IH]; intros ring; cbn [foldl].
  - rewrite decide_False; [done|]. by intros ?%Exists_nil.
  - rewrite IH. destruct (decide (Exists _ l)) as [He|He].
    + rewrite decide_True; [done|]. by constructor.
    + destruct (decide (h = f i)) as [->|Hne].
      * rewrite lookup_insert_eq, decide_True; [done|]. by constructor.
      * rewrite lookup_insert_ne, decide_False by (done || by intros [|]%Exists_cons). done.
Qed.

Lemma foldl_delete_lookup (f : Z → Z) l (ring : gmap Z Z) h :
  foldl (λ rg i, delete (f i) rg) ring l !! h =
  if decide (Exists (λ i, h = f i) l) then None else ring !! h.
Proof.
  revert ring. induction l as [|i l IH]; intros ring; cbn [foldl].
  - rewrite decide_False; [done|]. by intros ?%Exists_nil.
  - rewrite IH. destruct (decide (Exists _ l)) as [He|He].
    + rewrite decide_True; [done|]. by constructor.
    + destruct (decide (h = f i)) as [->|Hne].
      * rewrite lookup_delete_eq, decide_True; [done|]. by constructor.
      * rewrite lookup_delete_ne, decide_False by (done || by intros [|]%Exists_cons). done.
Qed.

Lemma ring_add_lookup node ring h :
  ring_add node ring !! h = if decide (is_vnode node h) then Some node else ring !! h.
Proof.
  unfold ring_add. rewrite foldl_insert_lookup.
  apply decide_ext. by rewrite Exists_exists.
Qed.

Lemma ring_remove_lookup node ring h :
  ring_remove node ring !! h = if decide (is_vnode node h) then None else ring !! h.
Proof.
  unfold ring_remove. rewrite foldl_delete_lookup.
  apply decide_ext. by rewrite Exists_exists.
Qed.

Lemma ring_ok_add ring ns node :
  node_ok node → nodes_ok ns → ring_ok ring ns → ring_ok (ring_add node ring) ({[node]} ∪ ns).
Proof.
  intros Hn Hns Hr h n. rewrite ring_add_lookup. case_decide as Hv.
  - split.
    + intros [= <-]. split; [set_solver|done].
    + intros [[->%elem_of_singleton|Hin]%elem_of_union Hv']; [done|].
      f_equal. by apply (is_vnode_inj _ _ h); [|apply Hns| |].
  - rewrite (Hr h n). split; [set_solver|].
    intros [[->%elem_of_singleton|?]%elem_of_union ?]; done.
Qed.

Lemma ring_ok_remove ring ns node :
  node_ok node → nodes_ok ns → ring_ok ring ns → ring_ok (ring_remove node ring) (ns ∖ {[node]}).
Proof.
  intros Hn Hns Hr h n. rewrite ring_remove_lookup. case_decide as Hv.
  - split; [done|]. intros [[Hin Hne]%elem_of_difference Hv'].
    destruct Hne. apply elem_of_singleton.
    by apply (is_vnode_inj _ _ h); [apply Hns| | |].
  - rewrite (Hr h n). split; [|set_solver]. intros [Hin Hv']. split; [|done].
    apply elem_of_difference. split; [done|]. intros ->%elem_of_singleton. done.
Qed.

Lemma ring_remove_owner ring ns node h n :
  node_ok node → nodes_ok ns → ring_ok ring ns →
  ring_remove node ring !! h = Some n ↔ ring !! h = Some n ∧ n ≠ node.
Proof.
  intros Hn Hns Hr. rewrite (ring_ok_remove ring ns node Hn Hns Hr h n), (Hr h n). set_solver.
Qed.

(** ** Owners under membership changes *)

Lemma symbol_hash_range s : in_range (symbol_hash s).
Proof. unfold symbol_hash, symbol_bytes. simpl. by apply wrap_range. Qed.
#[export] Hint Resolve symbol_hash_range ring_ok_keys vnode_hash_range is_vnode_range : zepto.

Lemma is_first_subset (ring ring' : gmap Z Z) h k :
  (∀ k', is_Some (ring' !! k') → is_Some (ring !! k')) →
  is_Some (ring' !! k) → is_first ring h k → is_first ring' h k.
Proof. intros Hsub Hk [_ Hmin]. split; [done|]. intros k' Hk'. by apply Hmin, Hsub. Qed.

Section Membership.
Context (ring : gmap Z Z) (ns : gset Z) (node h : Z).
Context (Hnode : node_ok node) (Hns : nodes_ok ns) (Hring : ring_ok ring ns).
Context (Hh : in_range h).

Lemma add_keys_ok : ring_keys_ok (ring_add node ring).
Proof. by eapply ring_ok_keys, ring_ok_add. Qed.

Lemma remove_keys_ok : ring_keys_ok (ring_remove node ring).
Proof. by eapply ring_ok_keys, ring_ok_remove. Qed.

Lemma find_node_in n : find_node ring h = Some n → n ∈ ns.
Proof.
  intros (k & _ & [Hn _]%Hring)%find_node_Some; [done| |done]. by eapply ring_ok_keys.
Qed.

Lemma find_node_add n :
  find_node (ring_add node ring) h = Some n → n ≠ node → find_node ring h = Some n.
Proof.
  intros (k & Hf & Hk)%find_node_Some Hne; [|apply add_keys_ok|done].
  rewrite ring_add_lookup in Hk. case_decide; [congruence|].
  apply find_node_Some; [by eapply ring_ok_keys|done|]. exists k. split; [|done].
  eapply is_first_subset, Hf; [|done]. intros k' [n' Hk'].
  rewrite ring_add_lookup. by case_decide.
Qed.

Lemma find_node_remove n :
  find_node ring h = Some n → n ≠ node → find_node (ring_remove node ring) h = Some n.
Proof.
  intros (k & Hf & Hk)%find_node_Some Hne; [|by eapply ring_ok_keys|done].
  assert (ring_remove node ring !! k = Some n) as Hk' by (by apply (ring_remove_owner _ ns)).
  apply find_node_Some; [apply remove_keys_ok|done|]. exists k. split; [|done].
  eapply is_first_subset, Hf; [|done]. intros k2 [n2 [? _]%(ring_remove_owner _ ns)]; done.
Qed.

(** A hash that moves to the added node lies just before one of its virtual
    nodes, whose previous owner is the owner it had. *)
Lemma find_node_add_moved :
  node ∉ ns → ns ≠ ∅ → find_node (ring_add node ring) h = Some node →
  ∃ i, i ∈ vnode_indices ∧ find_node ring (vnode_hash node i) = find_node ring h.
Proof.
  intros Hnin Hne (k & Hf & Hk)%find_node_Some; [|apply add_keys_ok|done].
  rewrite ring_add_lookup in Hk. case_decide as Hv.
  2:{ by apply Hring in Hk as [? _]. }
  destruct Hv as (i & Hi & ->). exists i. split; [done|].
  assert (ring_keys_ok ring) as Hok by (by eapply ring_ok_keys).
  destruct (find_node_is_Some ring h) as [n Hn]; [|done..|].
  { by rewrite (ring_ok_empty ring ns). }
  rewrite Hn. apply find_node_Some in Hn as (k & Hfk & Hkn); [|done..].
  apply find_node_Some; [done|apply vnode_hash_range|]. exists k. split; [|done].
  split; [by apply Hfk|]. intros k' Hk'.
  assert (∀ k2, is_Some (ring !! k2) →
    ring_dist h (vnode_hash node i) < ring_dist h k2) as Hlt.
  { intros k2 [n2 Hk2]. apply Z.le_neq. split.
    - apply Hf. rewrite ring_add_lookup. by case_decide.
    - intros Heq. apply ring_dist_inj in Heq; [|done|apply vnode_hash_range|by eapply Hok].
      subst k2. apply Hring in Hk2 as [Hin Hv2]. destruct Hnin.
      rewrite (is_vnode_inj node n2 (vnode_hash node i)); [done|done|by apply Hns| |done].
      by exists i. }
  pose proof (Hlt k (proj1 Hfk)). pose proof (Hlt k' Hk'). pose proof (proj2 Hfk k' Hk').
  pose proof (Hok _ Hk'). pose proof (Hok _ (proj1 Hfk)).
  pose proof (vnode_hash_range node i : in_range _). ring_lia.
Qed.
End Membership.

(** ** The replica walk *)

Definition farther (ring : gmap Z Z) (h k : Z) : gset Z :=
  filter (λ k', ring_dist h k < ring_dist h k') (dom ring).

Lemma elem_of_farther ring h k k' :
  k' ∈ farther ring h k ↔ is_Some (ring !! k') ∧ ring_dist h k < ring_dist h k'.
Proof. unfold farther. rewrite elem_of_filter, elem_of_dom. naive_solver. Qed.

Section ReplicaWalk.
Context (ring : gmap Z Z) (h primary : Z).
Context (Hok : ring_keys_ok ring) (Hh : in_range h).

(** The walk returns the owner of the first virtual node of another node. *)
Lemma replica_walk_spec steps k k1 n1 :
  is_Some (ring !! k) →
  (∀ k' n, ring !! k' = Some n → ring_dist h k' <= ring_dist h k → n = primary) →
  ring !! k1 = Some n1 → n1 ≠ primary →
  (size (farther ring h k) <= steps)%nat →
  ∃ k' n, ring !! k' = Some n ∧ n ≠ primary ∧ replica_walk steps ring primary k = n ∧
    ∀ k'' n', ring !! k'' = Some n' → n' ≠ primary → ring_dist h k' <= ring_dist h k''.
Proof.
  revert k. induction steps as [|steps IH]; intros k Hk Hseen Hk1 Hn1 Hsize.
  { assert (farther ring h k = ∅) as He by (apply leibniz_equiv, size_empty_inv; lia).
    destruct (decide (ring_dist h k1 <= ring_dist h k)) as [Hle|Hgt].
    { by apply Hseen in Hk1. }
    assert (k1 ∈ farther ring h k) by (apply elem_of_farther; split; [done|lia]).
    set_solver. }
  assert (ring_dist h k < ring_dist h k1) as Hlt.
  { apply Z.nle_gt. intros Hle. by apply Hseen in Hk1. }
  destruct (next_vnode_spec ring h k k1) as (k' & Hnext & [n Hk'] & Hlt' & Hmin); [done..|].
  simpl. rewrite Hnext, Hk'. destruct (Z.eqb_spec n primary) as [->|Hne].
  - apply IH; [done| |done|done|].
    + intros k2 n2 Hk2 Hd. destruct (decide (ring_dist h k2 <= ring_dist h k)); [by eapply Hseen|].
      assert (k2 = k') as ->; [|congruence]. apply (ring_dist_inj h); [done|by eapply Hok..|].
      specialize (Hmin k2 ltac:(done) ltac:(lia)). lia.
    + enough (size (farther ring h k') < size (farther ring h k))%nat by lia.
      apply subset_size. split.
      * intros k2. rewrite !elem_of_farther. intros [??]. split; [done|lia].
      * intros Hsub. assert (k' ∈ farther ring h k') as Hc.
        { apply Hsub, elem_of_farther. split; [done|lia]. }
        apply elem_of_farther in Hc. lia.
  - exists k', n. split_and!; [done..|]. intros k2 n2 Hk2 Hn2. apply Hmin; [done|].
    apply Z.nle_gt. intros Hle. by apply Hseen in Hk2.
Qed.
End ReplicaWalk.

(** ** The router's invariant *)

Record router_ok (r : PartitionRouter) : Prop := {
  rok_nodes : nodes_ok (node_set_ r);
  rok_ring : ring_ok (ring_ r) (node_set_ r);
  rok_cache : ∀ s n, cache_ r !! s = Some n →
    find_node (ring_ r) (symbol_hash s) = Some n;
}.

(** The public methods that change a router, with the clock they read. *)
Inductive router_op : Type :=
  | OpAdd (node : Z) | OpRemove (node : Z)
  | OpRoute (symbol : Z) | OpRouteTable (table_id symbol : Z)
  | OpPin (symbol node : Z) | OpUnpin (symbol : Z)
  | OpPlace (table_id : Z) (p : TablePlacementPolicy) (node : Z) | OpClearPlace (table_id : Z)
  | OpBegin (symbol from to : Z) | OpEnd (now symbol : Z)
  | OpCommit (symbol owner : Z) | OpAbort (symbol : Z)
  | OpRecent (now symbol : Z) | OpGrace (sec : Z).

Definition run_op (r : PartitionRouter) (op : router_op) : PartitionRouter :=
  match op with
  | OpAdd n => add_node r n
  | OpRemove n => remove_node r n
  | OpRoute s => (route r s).2
  | OpRouteTable t s => (route_table r t s).2
  | OpPin s n => pin_symbol r s n
  | OpUnpin s => unpin_symbol r s
  | OpPlace t p n => match set_table_placement r t p n with
                     | Returned r' => r' | Thrown _ => r end
  | OpClearPlace t => clear_table_placement r t
  | OpBegin s f t => begin_migration r s f t
  | OpEnd now s => end_migration now r s
  | OpCommit s o => commit_migration r s o
  | OpAbort s => abort_migration r s
  | OpRecent now s => (recently_migrated now r s).2
  | OpGrace sec => set_migration_grace_period r sec
  end.

(** Node ids are [uint32_t]. *)
Definition op_ok (op : router_op) : Prop :=
  match op with OpAdd n | OpRemove n => node_ok n | _ => True end.

(** Discharges [Forall op_ok] on a literal list of calls. *)
Ltac solve_ops :=
  repeat first [apply Forall_nil_2 | apply Forall_cons_2]; simpl; unfold node_ok; lia || done.

Lemma router_ok_empty : router_ok empty_router.
Proof.
  split; simpl.
  - by intros n ?%elem_of_empty.
  - intros h n. rewrite lookup_empty. set_solver.
  - intros s n. by rewrite lookup_empty.
Qed.

Lemma router_ok_add r n : node_ok n → router_ok r → router_ok (add_node r n).
Proof.
  intros Hn [Hns Hr Hc]. unfold add_node. case_decide; [done|]. split; simpl.
  - intros m [->%elem_of_singleton|?]%elem_of_union; [done|by apply Hns].
  - by apply ring_ok_add.
  - intros s m. by rewrite lookup_empty.
Qed.

Lemma router_ok_remove r n : node_ok n → router_ok r → router_ok (remove_node r n).
Proof.
  intros Hn [Hns Hr Hc]. unfold remove_node. case_decide; [|done]. split; simpl.
  - intros m [? _]%elem_of_difference. by apply Hns.
  - by apply ring_ok_remove.
  - intros s m. by rewrite lookup_empty.
Qed.

(** Any update that keeps the ring and only drops cache entries is fine. *)
Lemma router_ok_weaken r r' :
  ring_ r' = ring_ r → node_set_ r' = node_set_ r → cache_ r' ⊆ cache_ r →
  router_ok r → router_ok r'.
Proof.
  intros Hr Hn Hc [? ? Hcache]. split; rewrite ?Hr, ?Hn; [done|done|].
  intros s n Hs. by apply Hcache, (lookup_weaken _ _ _ _ Hs).
Qed.

Lemma router_ok_route r s : router_ok r → router_ok (route r s).2.
Proof.
  intros Hok. unfold route. destruct (pinned_ r !! s); [done|]. case_decide; [done|].
  destruct (cache_ r !! s); [done|].
  destruct (find_node _ _) as [n|] eqn:Hf; [|done]. simpl. case_match; [|done].
  destruct Hok as [? ? Hc]. split; simpl; [done..|].
  intros s' n' [[-> ->]|[_ ?]]%lookup_insert_Some; [done|by apply Hc].
Qed.

Lemma router_ok_op r op : op_ok op → router_ok r → router_ok (run_op r op).
Proof.
  intros Hop Hok. destruct op; simpl.
  - by apply router_ok_add.
  - by apply router_ok_remove.
  - by apply router_ok_route.
  - unfold route_table. destruct (if _ =? _ then _ else _) as [[[] ?]|]; simpl;
      [by apply router_ok_route..| |by apply router_ok_route]. by case_match.
  - apply (router_ok_weaken r); [done..| |done]. apply delete_subseteq.
  - apply (router_ok_weaken r); [done..| |done]. apply delete_subseteq.
  - unfold set_table_placement.
    repeat case_match; simplify_eq; try done;
      apply (router_ok_weaken r); try done; apply map_empty_subseteq.
  - apply (router_ok_weaken r); [done..| |done]. apply map_empty_subseteq.
  - by apply (router_ok_weaken r).
  - unfold end_migration. case_match; [|done]. by apply (router_ok_weaken r).
  - apply (router_ok_weaken r); [done..| |done]. apply delete_subseteq.
  - by apply (router_ok_weaken r).
  - unfold recently_migrated. repeat case_match; simpl; try done. by apply (router_ok_weaken r).
  - by apply (router_ok_weaken r).
Qed.

Lemma router_ok_run r ops : Forall op_ok ops → router_ok r → router_ok (foldl run_op r ops).
Proof.
  intros Hops. revert r. induction Hops as [|op ops Hop _ IH]; intros r Hr; [done|].
  apply IH. by apply router_ok_op.
Qed.

(** ** Routing *)

(** What [route] computes, the cache aside. *)
Definition route_answer (r : PartitionRouter) (s : Z) : outcome Z :=
  match pinned_ r !! s with
  | Some n => Returned n
  | None => match find_node (ring_ r) (symbol_hash s) with
            | Some n => Returned n
            | None => Thrown "PartitionRouter: no nodes in cluster"
            end
  end.

Lemma find_node_empty h : find_node ∅ h = None.
Proof. done. Qed.

Lemma route_answer_eq r s : router_ok r → (route r s).1 = route_answer r s.
Proof.
  intros [Hns Hr Hc]. unfold route, route_answer. destruct (pinned_ r !! s) as [n|]; [done|].
  case_decide as He; [by rewrite He, find_node_empty|].
  destruct (cache_ r !! s) as [n|] eqn:Hcs.
  - by rewrite (Hc _ _ Hcs).
  - destruct (find_node_is_Some (ring_ r) (symbol_hash s)) as [n Hn];
      [done|by eapply ring_ok_keys|apply symbol_hash_range|]. by rewrite Hn.
Qed.

(** The routers of one cluster agree as soon as they agree on nodes and pins. *)
Lemma route_answer_determined r r' s :
  router_ok r → router_ok r' → node_set_ r = node_set_ r' → pinned_ r = pinned_ r' →
  route_answer r s = route_answer r' s.
Proof.
  intros [_ Hr _] [_ Hr' _] Hn Hp. unfold route_answer.
  rewrite Hp, (ring_ok_unique (ring_ r) (ring_ r') (node_set_ r')); [done| |done].
  by rewrite <- Hn.
Qed.

Lemma ring_add_node r n :
  n ∉ node_set_ r → ring_ (add_node r n) = ring_add n (ring_ r).
Proof. intros Hn. unfold add_node. by rewrite decide_False. Qed.

Lemma ring_remove_node r n :
  n ∈ node_set_ r → ring_ (remove_node r n) = ring_remove n (ring_ r).
Proof. intros Hn. unfold remove_node. by rewrite decide_True. Qed.

Lemma pinned_add_node r n : pinned_ (add_node r n) = pinned_ r.
Proof. unfold add_node. by case_decide. Qed.

Lemma pinned_remove_node r n : pinned_ (remove_node r n) = pinned_ r.
Proof. unfold remove_node. by case_decide. Qed.

Lemma node_set_add_node r n : node_set_ (add_node r n) = {[n]} ∪ node_set_ r.
Proof. unfold add_node. case_decide; [|done]. set_solver. Qed.

Lemma node_set_remove_node r n : node_set_ (remove_node r n) = node_set_ r ∖ {[n]}.
Proof. unfold remove_node. case_decide; [done|]. set_solver. Qed.

(** Two states on which every routing decision is the same. *)
Lemma remove_add_ring r n :
  node_ok n → n ∉ node_set_ r → router_ok r →
  ring_ (remove_node (add_node r n) n) = ring_ r ∧
  node_set_ (remove_node (add_node r n) n) = node_set_ r.
Proof.
  intros Hn Hnin Hok.
  assert (node_set_ (remove_node (add_node r n) n) = node_set_ r) as Hs.
  { rewrite node_set_remove_node, node_set_add_node. set_solver. }
  split; [|done]. apply (ring_ok_unique _ _ (node_set_ r)); [|by apply Hok].
  rewrite <- Hs. by apply router_ok_remove, router_ok_add.
Qed.

(** ** Deduplicated plans *)

Definition move_pair (m : Move) : Z * Z := (move_from m, move_to m).

Lemma dedup_moves_spec seen l :
  NoDup (move_pair <$> dedup_moves seen l) ∧
  (∀ m, m ∈ dedup_moves seen l → m ∈ l ∧ move_pair m ∉ seen) ∧
  (∀ m, m ∈ l → move_pair m ∉ seen →
     ∃ m', m' ∈ dedup_moves seen l ∧ move_pair m' = move_pair m).
Proof.
  revert seen. induction l as [|m l IH]; intros seen; simpl.
  - split_and!; [constructor|by intros m ?%elem_of_nil..].
  - case_decide as Hm.
    + destruct (IH seen) as (Hnd & Hin & Hcov). split_and!; [done| |].
      * intros m' [? ?]%Hin. split; [by right|done].
      * intros m' [->|Hm']%elem_of_cons Hs; [done|by apply Hcov].
    + destruct (IH ({[move_pair m]} ∪ seen)) as (Hnd & Hin & Hcov). split_and!.
      * simpl. constructor; [|done]. intros (m' & Heq & [_ Hn]%Hin)%list_elem_of_fmap.
        rewrite <- Heq in Hn. set_solver.
      * intros m' [->|[? ?]%Hin]%elem_of_cons; [by split; [left|]|].
        split; [by right|set_solver].
      * intros m' Hm' Hs. destruct (decide (move_pair m' = move_pair m)) as [Heq|Hne].
        { exists m. split; [by left|done]. }
        apply elem_of_cons in Hm' as [->|Hm']; [done|].
        destruct (Hcov m' Hm') as (m2 & ? & ?); [set_solver|]. exists m2. split; [by right|done].
Qed.

Lemma plan_remove_temp r n : ring_ (remove_node (copy_router r) n) = ring_ (remove_node r n).
Proof. unfold remove_node. simpl. by case_decide. Qed.

(** ** Properties of the router *)

(** Every router reached from the empty one by any sequence of calls is
    well formed: its ring is exactly the set of virtual nodes of its members,
    and each cached route is the route the ring gives. *)
Theorem router_reachable_ok ops :
  Forall op_ok ops → router_ok (foldl run_op empty_router ops).
Proof. intros Hops. by apply router_ok_run, router_ok_empty. Qed.

Lemma router_reachable_ok_witness :
  router_ok (foldl run_op empty_router [OpAdd 1; OpRoute 7; OpAdd 2; OpRemove 1]).
Proof. apply router_reachable_ok. solve_ops. Defined.

(** C2. Consistent hashing moves as little as possible: adding a node only
    moves symbols onto the new node, and removing a node only moves the symbols
    it owned. *)
Theorem membership_minimal_disruption r node s n :
  router_ok r → node_ok node → n ≠ node →
  (node_set_ r ≠ ∅ → (route (add_node r node) s).1 = Returned n → (route r s).1 = Returned n) ∧
  ((route r s).1 = Returned n → (route (remove_node r node) s).1 = Returned n).
Proof.
  intros Hok Hnode Hne.
  rewrite !route_answer_eq by (done || by apply router_ok_add || by apply router_ok_remove).
  unfold route_answer. rewrite pinned_add_node, pinned_remove_node.
  destruct Hok as [Hns Hr _]. destruct (pinned_ r !! s); [done|]. split.
  - intros Hne' Hf. destruct (decide (node ∈ node_set_ r)) as [Hin|Hnin].
    { unfold add_node in Hf. by rewrite decide_True in Hf. }
    rewrite ring_add_node in Hf by done.
    destruct (find_node (ring_add _ _) _) as [m|] eqn:Hm; simplify_eq.
    erewrite find_node_add; [done|done|done|done|apply symbol_hash_range|done|done].
  - intros Hf. destruct (decide (node ∈ node_set_ r)) as [Hin|Hnin].
    2:{ unfold remove_node. by rewrite decide_False. }
    rewrite ring_remove_node by done.
    destruct (find_node (ring_ r) _) as [m|] eqn:Hm; simplify_eq.
    erewrite find_node_remove; [done|done|done|done|apply symbol_hash_range|done|done].
Qed.

Lemma membership_minimal_disruption_witness :
  let r := foldl run_op empty_router [OpAdd 1; OpAdd 2] in
  (node_set_ r ≠ ∅ → (route (add_node r 3) 7).1 = Returned 1 → (route r 7).1 = Returned 1) ∧
  ((route r 7).1 = Returned 1 → (route (remove_node r 3) 7).1 = Returned 1).
Proof.
  apply membership_minimal_disruption; [|unfold node_ok; lia|done].
  apply router_ok_run; [solve_ops|apply router_ok_empty].
Defined.

(** Adding a node that is not a member and removing it again restores the
    ring and the member set, and with them every route. *)
Theorem add_remove_roundtrip r node :
  router_ok r → node_ok node → node ∉ node_set_ r →
  ring_ (remove_node (add_node r node) node) = ring_ r ∧
  node_set_ (remove_node (add_node r node) node) = node_set_ r ∧
  ∀ s, (route (remove_node (add_node r node) node) s).1 = (route r s).1.
Proof.
  intros Hok Hn Hnin. destruct (remove_add_ring r node) as [Hring Hset]; [done..|].
  split_and!; [done|done|]. intros s.
  assert (router_ok (remove_node (add_node r node) node)) by (by apply router_ok_remove, router_ok_add).
  rewrite !route_answer_eq by done. apply route_answer_determined; [done..|].
  by rewrite pinned_remove_node, pinned_add_node.
Qed.

Lemma add_remove_roundtrip_witness :
  let r := foldl run_op empty_router [OpAdd 1; OpAdd 2] in
  ring_ (remove_node (add_node r 3) 3) = ring_ r ∧
  node_set_ (remove_node (add_node r 3) 3) = node_set_ r ∧
  ∀ s, (route (remove_node (add_node r 3) 3) s).1 = (route r s).1.
Proof.
  apply add_remove_roundtrip; [|unfold node_ok; lia|by vm_compute].
  apply router_ok_run; [solve_ops|apply router_ok_empty].
Defined.

(** The replica, found by walking the ring, is what the ring gives without the owner. *)
Lemma replica_next r s :
  router_ok r → (2 <= size (node_set_ r))%nat →
  ∃ p n, find_node (ring_ r) (symbol_hash s) = Some p ∧ route_replica r s = n ∧
    n ∈ node_set_ r ∧ n ≠ p ∧
    find_node (ring_ (remove_node r p)) (symbol_hash s) = Some n.
Proof.
  intros [Hns Hr _] Hsize. set (h := symbol_hash s).
  assert (in_range h) as Hh by apply symbol_hash_range.
  pose proof (ring_ok_keys _ _ Hr) as Hkeys.
  destruct (find_vnode (ring_ r) h) as [k|] eqn:Hk.
  2:{ destruct (set_choose_L (node_set_ r)) as [n Hn].
      { intros He. rewrite He, size_empty in Hsize. lia. }
      destruct (find_vnode_is_Some (ring_ r) h (vnode_hash n 0)) as [? ?]; [|congruence].
      eexists. by eapply ring_ok_nonempty. }
  destruct (find_vnode_first _ _ _ Hkeys Hh Hk) as [[p Hp] Hfirst].
  assert (p ∈ node_set_ r) as Hpin by by apply Hr in Hp as [? _].
  assert (∃ q, q ∈ node_set_ r ∧ q ≠ p) as (q & Hq & Hqp).
  { destruct (set_choose_L (node_set_ r ∖ {[p]})) as [q Hq].
    - intros He%(f_equal size). rewrite size_empty in He.
      rewrite (size_difference (node_set_ r) {[p]}), size_singleton in He by set_solver. lia.
    - exists q. set_solver. }
  destruct (replica_walk_spec (ring_ r) h p Hkeys Hh (size (ring_ r)) k (vnode_hash q 0) q)
    as (k' & n & Hk' & Hn & Hw & Hmin).
  - by exists p.
  - intros k2 n2 Hk2 Hle. assert (k2 = k) as ->; [|congruence].
    specialize (Hfirst k2 ltac:(done)).
    apply (ring_dist_inj h); [done|by eapply Hkeys..|lia].
  - by eapply ring_ok_nonempty.
  - done.
  - rewrite <- (size_dom (ring_ r)). apply subseteq_size. unfold farther. set_solver.
  - exists p, n. split_and!.
    + unfold find_node. by rewrite Hk.
    + unfold route_replica. rewrite (proj2 (Nat.ltb_ge _ _)) by done. fold h.
      unfold find_node. rewrite Hk. simpl. by rewrite Hp.
    + by apply Hr in Hk' as [? _].
    + done.
    + rewrite ring_remove_node by done.
      assert (node_ok p) by by apply Hns.
      apply find_node_Some; [by eapply remove_keys_ok|done|]. exists k'. split.
      * split; [exists n; by apply (ring_remove_owner _ (node_set_ r))|].
        intros k2 [n2 [? ?]%(ring_remove_owner _ (node_set_ r))]; [|done..]. by eapply Hmin.
      * by apply (ring_remove_owner _ (node_set_ r)).
Qed.

(** Replica placement and promotion: with at least two nodes, the replica of
    a symbol is a member other than the owner of its hash, and once the owner is
    removed the ring owner of the hash is that replica. *)
Theorem replica_promoted r s :
  router_ok r → (2 <= size (node_set_ r))%nat →
  ∃ p n, find_node (ring_ r) (symbol_hash s) = Some p ∧ route_replica r s = n ∧
    n ∈ node_set_ r ∧ n ≠ p ∧
    find_node (ring_ (remove_node r p)) (symbol_hash s) = Some n.
Proof. apply replica_next. Qed.

Lemma replica_promoted_witness :
  let r := foldl run_op empty_router [OpAdd 1; OpAdd 2] in
  ∃ p n, find_node (ring_ r) (symbol_hash 7) = Some p ∧ route_replica r 7 = n ∧
    n ∈ node_set_ r ∧ n ≠ p ∧
    find_node (ring_ (remove_node r p)) (symbol_hash 7) = Some n.
Proof.
  apply replica_promoted; [|by vm_compute; repeat constructor].
  apply router_ok_run; [solve_ops|apply router_ok_empty].
Defined.

(** ** Migration plans *)

Lemma elem_of_plan_add_moves r node m :
  m ∈ plan_add_moves r node ↔
  ∃ i o, i ∈ vnode_indices ∧ find_node (ring_ r) (vnode_hash node i) = Some o ∧ o ≠ node ∧
         m = mkMove (representative (vnode_hash node i)) o node.
Proof.
  unfold plan_add_moves. rewrite list_elem_of_bind. split.
  - intros (i & Hm & Hi). destruct (find_node _ _) as [o|] eqn:Ho; [|by apply elem_of_nil in Hm].
    destruct (Z.eqb_spec o node); [by apply elem_of_nil in Hm|].
    apply list_elem_of_singleton in Hm. naive_solver.
  - intros (i & o & Hi & Ho & Hne & ->). exists i. split; [|done]. rewrite Ho.
    destruct (Z.eqb_spec o node); [done|by left].
Qed.

Lemma elem_of_plan_remove_moves r node m :
  m ∈ plan_remove_moves r node ↔
  ∃ i o, i ∈ vnode_indices ∧ find_node (ring_ (remove_node r node)) (vnode_hash node i) = Some o ∧
         m = mkMove (representative (vnode_hash node i)) node o.
Proof.
  unfold plan_remove_moves. rewrite plan_remove_temp, list_elem_of_bind. split.
  - intros (i & Hm & Hi). destruct (find_node _ _) as [o|] eqn:Ho; [|by apply elem_of_nil in Hm].
    apply list_elem_of_singleton in Hm. naive_solver.
  - intros (i & o & Hi & Ho & ->). exists i. split; [|done]. rewrite Ho. by left.
Qed.

Lemma deduplicate_covers l m : m ∈ l → ∃ m', m' ∈ deduplicate_moves l ∧ move_pair m' = move_pair m.
Proof. intros Hm. by apply (dedup_moves_spec ∅ l); [|apply not_elem_of_empty]. Qed.

Lemma deduplicate_sound l m : m ∈ deduplicate_moves l → m ∈ l.
Proof. intros Hm. by apply (dedup_moves_spec ∅ l). Qed.

Lemma find_node_reenters r node h n :
  router_ok r → node ∈ node_set_ r → in_range h → n ≠ node →
  find_node (ring_ r) h = Some node → find_node (ring_ (remove_node r node)) h = Some n →
  ∃ i, i ∈ vnode_indices ∧ find_node (ring_ (remove_node r node)) (vnode_hash node i) = Some n.
Proof.
  intros [Hns Hr Hc] Hin Hh Hne Hf Hf'. rewrite ring_remove_node in * by done.
  assert (node_ok node) as Hnode by by apply Hns.
  pose proof (ring_ok_remove _ _ _ Hnode Hns Hr) as Hr'.
  assert (nodes_ok (node_set_ r ∖ {[node]})) as Hns' by (intros m [? _]%elem_of_difference; by apply Hns).
  assert (ring_add node (ring_remove node (ring_ r)) = ring_ r) as Hback.
  { eapply (ring_ok_unique _ _ ({[node]} ∪ node_set_ r ∖ {[node]})); [by apply ring_ok_add|].
    replace ({[node]} ∪ node_set_ r ∖ {[node]}) with (node_set_ r); [done|].
    apply set_eq. intros x. destruct (decide (x = node)); set_solver. }
  destruct (find_node_add_moved _ _ _ _ Hnode Hns' Hr' Hh) as (i & Hi & He).
  - set_solver.
  - intros He. apply (find_node_in _ _ _ Hr' Hh) in Hf'. set_solver.
  - by rewrite Hback.
  - exists i. split; [done|]. by rewrite He.
Qed.

(** A scale-out plan is complete and has one move per pair of nodes: every
    symbol whose ring owner changes from [o] to the new node is covered by a
    planned move from [o] to it. *)
Theorem plan_add_complete r node s o :
  router_ok r → node_ok node → node ∉ node_set_ r → o ≠ node →
  find_node (ring_ r) (symbol_hash s) = Some o →
  find_node (ring_ (add_node r node)) (symbol_hash s) = Some node →
  NoDup (move_pair <$> plan_add r node) ∧
  ∃ m, m ∈ plan_add r node ∧ move_from m = o ∧ move_to m = node.
Proof.
  intros [Hns Hr Hc] Hnode Hnin Hne Ho Hn. unfold plan_add. rewrite decide_False by done.
  split; [apply dedup_moves_spec|]. rewrite ring_add_node in Hn by done.
  destruct (find_node_add_moved _ _ _ _ Hnode Hns Hr (symbol_hash_range s)) as (i & Hi & He);
    [done| |done|].
  { intros He. apply (find_node_in _ _ _ Hr (symbol_hash_range s)) in Ho. set_solver. }
  rewrite Ho in He.
  destruct (deduplicate_covers (plan_add_moves r node)
    (mkMove (representative (vnode_hash node i)) o node)) as (m & Hm & [= <- <-]);
    [|by exists m].
  apply elem_of_plan_add_moves. by exists i, o.
Qed.

(** A scale-in plan is complete and has one move per receiver: every symbol
    owned by the leaving node is covered by a planned move to its new owner,
    and every planned move leaves that node for another member. *)
Theorem plan_remove_complete r node s n :
  router_ok r → node ∈ node_set_ r → (2 <= size (node_set_ r))%nat →
  find_node (ring_ r) (symbol_hash s) = Some node →
  find_node (ring_ (remove_node r node)) (symbol_hash s) = Some n →
  NoDup (move_pair <$> plan_remove r node) ∧
  (∃ m, m ∈ plan_remove r node ∧ move_from m = node ∧ move_to m = n) ∧
  ∀ m, m ∈ plan_remove r node →
    move_from m = node ∧ move_to m ∈ node_set_ r ∧ move_to m ≠ node.
Proof.
  intros Hok Hin Hsize Ho Hn.
  assert (router_ok (remove_node r node)) as Hok' by (apply router_ok_remove; [by apply Hok|done]).
  assert (∀ h n', in_range h → find_node (ring_ (remove_node r node)) h = Some n' →
    n' ∈ node_set_ r ∧ n' ≠ node) as Howner.
  { intros h n' Hh Hf. apply (find_node_in _ _ _ (rok_ring _ Hok') Hh) in Hf.
    rewrite node_set_remove_node in Hf. set_solver. }
  unfold plan_remove. rewrite decide_True, (proj2 (Nat.leb_gt _ _)) by (done || lia).
  split_and!; [apply dedup_moves_spec| |].
  - destruct (find_node_reenters r node (symbol_hash s) n) as (i & Hi & He);
      [done|done|apply symbol_hash_range| |done|done|].
    { by eapply Howner; [apply symbol_hash_range|]. }
    destruct (deduplicate_covers (plan_remove_moves r node)
      (mkMove (representative (vnode_hash node i)) node n)) as (m & Hm & [= <- <-]);
      [|by exists m].
    apply elem_of_plan_remove_moves. by exists i, n.
  - intros m (i & o & Hi & Hf & ->)%deduplicate_sound%elem_of_plan_remove_moves. simpl.
    split; [done|]. eapply Howner, Hf. apply vnode_hash_range.
Qed.

Lemma plan_add_complete_witness :
  let r := foldl run_op empty_router [OpAdd 1; OpAdd 2] in
  NoDup (move_pair <$> plan_add r 3) ∧
  ∃ m, m ∈ plan_add r 3 ∧ move_from m = 2 ∧ move_to m = 3.
Proof.
  apply (plan_add_complete _ 3 6 2).
  - apply router_ok_run; [solve_ops|apply router_ok_empty].
  - unfold node_ok; lia.
  - by vm_compute.
  - done.
  - by vm_compute.
  - by vm_compute.
Defined.

Lemma plan_remove_complete_witness :
  let r := foldl run_op empty_router [OpAdd 1; OpAdd 2] in
  NoDup (move_pair <$> plan_remove r 1) ∧
  (∃ m, m ∈ plan_remove r 1 ∧ move_from m = 1 ∧ move_to m = 2) ∧
  ∀ m, m ∈ plan_remove r 1 → move_from m = 1 ∧ move_to m ∈ node_set_ r ∧ move_to m ≠ 1.
Proof.
  apply (plan_remove_complete _ 1 7 2).
  - apply router_ok_run; [solve_ops|apply router_ok_empty].
  - by vm_compute.
  - by vm_compute; repeat constructor.
  - by vm_compute.
  - by vm_compute.
Defined.

(** ** Table-scoped routing *)

Lemma table_route_key_eq t s :
  0 <= t < 2 ^ 16 → 0 <= s < 2 ^ 32 → table_route_key t s = Z.lxor s (Z.shiftl t 16).
Proof.
  intros Ht Hs. unfold table_route_key.
  assert (0 <= Z.shiftl t 16 < 2 ^ 32) as Hsh by (rewrite Z.shiftl_mul_pow2; lia).
  rewrite (wrap_small 32 s), (wrap_small 32 (Z.shiftl t 16)) by done.
  apply wrap_small. split; [by apply Z.lxor_nonneg; lia|].
  destruct (decide (Z.lxor s (Z.shiftl t 16) = 0)) as [->|]; [lia|].
  assert (0 <= Z.lxor s (Z.shiftl t 16)) by (apply Z.lxor_nonneg; lia).
  apply Z.log2_lt_pow2; [lia|].
  pose proof (Z.log2_lxor s (Z.shiftl t 16)).
  assert (∀ x, 0 <= x < 2 ^ 32 → Z.log2 x < 32) as Hlog.
  { intros x Hx. destruct (decide (x = 0)) as [->|]; [done|]. apply Z.log2_lt_pow2; lia. }
  pose proof (Hlog s Hs). pose proof (Hlog _ Hsh). lia.
Qed.

Lemma table_route_key_involutive t s :
  0 <= t < 2 ^ 16 → 0 <= s < 2 ^ 32 → table_route_key t (table_route_key t s) = s.
Proof.
  intros Ht Hs. rewrite table_route_key_eq; [|done|by apply wrap_range].
  rewrite table_route_key_eq by done. by rewrite Z.lxor_assoc, Z.lxor_nilpotent, Z.lxor_0_r.
Qed.

Lemma table_route_key_ne t s :
  0 < t < 2 ^ 16 → 0 <= s < 2 ^ 32 → table_route_key t s ≠ s.
Proof.
  intros Ht Hs H. rewrite table_route_key_eq in H by lia.
  assert (Z.lxor s (Z.lxor s (Z.shiftl t 16)) = 0) as H0 by (rewrite H; apply Z.lxor_nilpotent).
  rewrite <- Z.lxor_assoc, Z.lxor_nilpotent, Z.lxor_0_l, Z.shiftl_mul_pow2 in H0 by lia. lia.
Qed.

(** Table-scoped routing: table 0 is the legacy route; without a placement
    two symbols of one table never share a route key; a table hashed as a whole
    sends every symbol to one node; and a pinned table answers its node. *)
Theorem route_table_spec r t s s' :
  0 <= t < 2 ^ 16 → 0 <= s < 2 ^ 32 → 0 <= s' < 2 ^ 32 →
  route_table r 0 s = route r s ∧
  (table_placement r t = None →
     route_table r t s = route r (table_route_key t s) ∧
     (table_route_key t s = table_route_key t s' → s = s')) ∧
  (t ≠ 0 → ∀ n, table_placement r t = Some (mkTablePlacement HashByTable n) →
     route_table r t s = route_table r t s') ∧
  (t ≠ 0 → ∀ n, n ≠ INVALID_NODE_ID →
     table_placement r t = Some (mkTablePlacement PinnedNode n) →
     route_table r t s = (Returned n, r)).
Proof.
  intros Ht Hs Hs'. unfold route_table. split_and!.
  - simpl. by rewrite table_route_key_eq, Z.shiftl_0_l, Z.lxor_0_r by lia.
  - intros ->. split; [by destruct (t =? 0)|]. intros Heq.
    by rewrite <- (table_route_key_involutive t s), Heq, table_route_key_involutive.
  - intros Hne n Hp. by rewrite (proj2 (Z.eqb_neq t 0)), Hp by done.
  - intros Hne n Hn Hp. rewrite (proj2 (Z.eqb_neq t 0)), Hp by done.
    by rewrite (proj2 (Z.eqb_neq n _)).
Qed.

Lemma route_table_spec_witness :
  let r := foldl run_op empty_router [OpAdd 1; OpAdd 2; OpPlace 9 PinnedNode 2] in
  route_table r 9 7 = (Returned 2, r).
Proof.
  apply (route_table_spec (foldl run_op empty_router [OpAdd 1; OpAdd 2; OpPlace 9 PinnedNode 2])
    9 7 8); [lia..|done|done|by vm_compute].
Defined.

(** A pin is looked up under the route key, not the symbol: pinning [s]
    moves the legacy route of [s], leaves the route of [s] in every non-default
    table without a placement where it was, and moves instead the symbol whose
    key collides with [s]. *)
Theorem pin_is_not_table_scoped r s n t :
  router_ok r → 0 <= s < 2 ^ 32 → 0 < t < 2 ^ 16 → table_placement r t = None →
  (route (pin_symbol r s n) s).1 = Returned n ∧
  (route_table (pin_symbol r s n) t s).1 = (route_table r t s).1 ∧
  (route_table (pin_symbol r s n) t (table_route_key t s)).1 = Returned n.
Proof.
  intros Hok Hs Ht Hp.
  assert (router_ok (pin_symbol r s n)) as Hok' by by apply (router_ok_op r (OpPin s n)).
  unfold route_table. rewrite (proj2 (Z.eqb_neq t 0)) by lia.
  change (table_placement (pin_symbol r s n) t) with (table_placement r t).
  rewrite Hp, !route_answer_eq by done.
  rewrite table_route_key_involutive by lia.
  pose proof (table_route_key_ne t s Ht Hs).
  unfold route_answer. simpl. by rewrite lookup_insert_eq, lookup_insert_ne.
Qed.

Lemma pin_is_not_table_scoped_witness :
  let r := foldl run_op empty_router [OpAdd 1; OpAdd 2] in
  (route (pin_symbol r 7 2) 7).1 = Returned 2 ∧
  (route_table (pin_symbol r 7 2) 5 7).1 = (route_table r 5 7).1 ∧
  (route_table (pin_symbol r 7 2) 5 (table_route_key 5 7)).1 = Returned 2.
Proof.
  apply pin_is_not_table_scoped; [|lia|lia|by vm_compute].
  apply router_ok_run; [solve_ops|apply router_ok_empty].
Defined.
