(* ===== verification/RouterRace.v ===== *)
(** * Concurrent calls of the router

    [PartitionRouter::route] ([include/zeptodb/cluster/partition_router.h]) takes
    and releases its two mutexes five times: the pins under [cache_mutex_], the
    empty-ring test under [ring_mutex_], the cache under [cache_mutex_], the ring
    under [ring_mutex_] and the store into the cache under [cache_mutex_].
    [add_node] and [remove_node] hold [ring_mutex_] throughout and take
    [cache_mutex_] for the second half, the clearing of the cache. Here a call is a
    thread, one turn of a thread is one such region, and a schedule is the list of
    the threads that get the turns. *)

From S2P Require Import Prelude.
From S2P Require Import PartitionRouter.
From S2P Require Import RouterFacts.
From stdpp Require Import base gmap sets list fin_maps fin_sets strings.
From Stdlib Require Import ZArith Lia.

Open Scope Z_scope.

(** ** Threads and turns *)

(** The region a call enters next, with the locals it has by then. [ClearCache] is
    the half of a membership change that still holds [ring_mutex_]. *)
Inductive thread : Type :=
  | RoutePin (symbol : Z)
  | RouteEmpty (symbol : Z)
  | RouteCache (symbol : Z)
  | RouteFind (symbol : Z)
  | RouteStore (symbol n : Z)
  | RouteDone (symbol : Z) (answer : outcome Z)
  | AddRing (node : Z)
  | RemoveRing (node : Z)
  | ClearCache
  | ChangeDone.

(** A ring and its nodes replaced while the cache still holds the old routes. *)
Definition change_ring (r : PartitionRouter) ring ns : PartitionRouter :=
  set_cache (set_ring r ring ns) (cache_ r).

(** One region; [None] when the thread has to wait for [ring_mutex_] or is done. *)
Definition region (ring_free : bool) (r : PartitionRouter) (t : thread) : option (PartitionRouter * thread) :=
  match t with
  | RoutePin s =>
      Some (r, match pinned_ r !! s with Some n => RouteDone s (Returned n) | None => RouteEmpty s end)
  | RouteEmpty s =>
      if ring_free
      then Some (r, if decide (ring_ r = ∅) then RouteDone s (Thrown "PartitionRouter: no nodes in cluster")
                    else RouteCache s)
      else None
  | RouteCache s =>
      Some (r, match cache_ r !! s with Some n => RouteDone s (Returned n) | None => RouteFind s end)
  | RouteFind s =>
      if ring_free
      then Some (r, match find_node (ring_ r) (symbol_hash s) with
                    | Some n => RouteStore s n
                    | None => RouteDone s (Thrown "dereference of end()")
                    end)
      else None
  | RouteStore s n =>
      Some (if Z.of_nat (size (cache_ r)) <? MAX_CACHE_SIZE then set_cache r (<[s := n]> (cache_ r)) else r,
            RouteDone s (Returned n))
  | AddRing n =>
      if ring_free
      then if decide (n ∈ node_set_ r) then Some (r, ChangeDone)
           else Some (change_ring r (ring_add n (ring_ r)) ({[n]} ∪ node_set_ r), ClearCache)
      else None
  | RemoveRing n =>
      if ring_free
      then if decide (n ∈ node_set_ r)
           then Some (change_ring r (ring_remove n (ring_ r)) (node_set_ r ∖ {[n]}), ClearCache)
           else Some (r, ChangeDone)
      else None
  | ClearCache => Some (set_cache r ∅, ChangeDone)
  | RouteDone _ _ | ChangeDone => None
  end.

Record Race : Type := mkRace { race_router : PartitionRouter; threads : list thread }.

(** [ring_mutex_] is held from one turn to the next only by a membership change. *)
Definition holds_ring (t : thread) : bool := match t with ClearCache => true | _ => false end.

Definition turn (st : Race) (i : nat) : Race :=
  match threads st !! i ≫= region (negb (existsb holds_ring (threads st))) (race_router st) with
  | Some (r, t) => mkRace r (<[i := t]> (threads st))
  | None => st
  end.

Definition run_turns (schedule : list nat) (st : Race) : Race := foldl turn st schedule.

(** ** A call that nobody interrupts *)

(** The sequential definitions of [PartitionRouter] are the runs of one thread. *)
Lemma route_alone r s :
  run_turns [0; 0; 0; 0; 0]%nat (mkRace r [RoutePin s]) = mkRace (route r s).2 [RouteDone s (route r s).1].
Proof.
  unfold run_turns, turn, route. simpl. destruct (pinned_ r !! s) as [n|]; simpl; [done|].
  case_decide; simpl; [done|]. destruct (cache_ r !! s) as [n|]; simpl; [done|].
  by destruct (find_node (ring_ r) (symbol_hash s)).
Qed.

Lemma add_node_alone r n :
  run_turns [0; 0]%nat (mkRace r [AddRing n]) = mkRace (add_node r n) [ChangeDone].
Proof. unfold run_turns, turn, add_node. simpl. by case_decide. Qed.

Lemma remove_node_alone r n :
  run_turns [0; 0]%nat (mkRace r [RemoveRing n]) = mkRace (remove_node r n) [ChangeDone].
Proof. unfold run_turns, turn, remove_node. simpl. by case_decide. Qed.

(** ** Calls of route that overlap one another *)

(** A thread that works on symbol [s] and has learned only what holds of [r]. *)
Definition learned (r : PartitionRouter) (s : Z) (t : thread) : Prop :=
  match t with
  | RoutePin s' => s' = s
  | RouteEmpty s' => s' = s ∧ pinned_ r !! s = None
  | RouteCache s' | RouteFind s' => s' = s ∧ pinned_ r !! s = None ∧ ring_ r ≠ ∅
  | RouteStore s' n => s' = s ∧ pinned_ r !! s = None ∧ find_node (ring_ r) (symbol_hash s) = Some n
  | RouteDone s' o => s' = s ∧ o = route_answer r s
  | _ => False
  end.

(** The regions a call of [route] has before it. *)
Definition remaining (t : thread) : nat :=
  match t with
  | RoutePin _ => 5 | RouteEmpty _ => 4 | RouteCache _ => 3 | RouteFind _ => 2 | RouteStore _ _ => 1
  | _ => 0
  end.

Ltac rewrite_facts :=
  repeat match goal with
  | H : pinned_ _ !! _ = None |- _ => rewrite H; clear H
  | H : find_node _ _ = Some _ |- _ => rewrite H; clear H
  end.

(** A router that differs from [r] in its cache. *)
Definition same_routes (r r' : PartitionRouter) : Prop :=
  router_ok r' ∧ ring_ r' = ring_ r ∧ pinned_ r' = pinned_ r.

Lemma learned_region r r' s t :
  same_routes r r' → learned r s t →
  match region true r' t with
  | Some (r'', t') => same_routes r r'' ∧ learned r s t' ∧ (remaining t' < remaining t)%nat
  | None => remaining t = 0%nat
  end.
Proof.
  intros (Hok & Hring & Hpins) Ht. pose proof Hok as [_ Hr Hc].
  destruct t; simpl in Ht; try done; simpl; destruct_and?; subst.
  - rewrite Hpins. split; [done|]. destruct (pinned_ r !! s) eqn:Hp; simpl; (split; [|lia]); [|done].
    split; [done|]. unfold route_answer. by rewrite Hp.
  - rewrite Hring. split; [done|]. case_decide as He; simpl; (split; [|lia]); [|done].
    split; [done|]. unfold route_answer.
    by rewrite_facts; rewrite He, find_node_empty.
  - split; [done|]. destruct (cache_ r' !! s) eqn:He; simpl; (split; [|lia]); [|done].
    split; [done|]. apply Hc in He. rewrite Hring in He. unfold route_answer.
    by rewrite_facts.
  - destruct (find_node_is_Some (ring_ r') (symbol_hash s)) as [n Hn];
      [by rewrite Hring|by eapply ring_ok_keys|apply symbol_hash_range|].
    rewrite Hn. rewrite Hring in Hn. split; [done|]. simpl. split; [done|lia].
  - split; [|split; [|lia]].
    + case_match; [|done]. split; [|done]. destruct Hok as [? ? ?]. split; simpl; [done..|].
      intros s' n' [[-> ->]|[_ ?]]%lookup_insert_Some; [by rewrite Hring|by apply Hc].
    + split; [done|]. unfold route_answer.
      by rewrite_facts.
Qed.

(** What is true of the threads of calls of [route] after the turns [sched]. *)
Definition overlapping (r : PartitionRouter) (symbols : list Z) (sched : list nat) (st : Race) : Prop :=
  same_routes r (race_router st) ∧ length (threads st) = length symbols ∧
  ∀ i s t, symbols !! i = Some s → threads st !! i = Some t →
    learned r s t ∧ (remaining t + count_occ Nat.eq_dec sched i <= 5 ∨ remaining t = 0)%nat.

Lemma no_holder r symbols sched st : overlapping r symbols sched st → existsb holds_ring (threads st) = false.
Proof.
  intros (_ & Hlen & Hall). apply not_true_is_false. intros (t & Ht & Hh)%existsb_exists.
  apply list_elem_of_In, list_elem_of_lookup in Ht as [i Hi].
  destruct (lookup_lt_is_Some_2 symbols i) as [s Hs]; [rewrite <- Hlen; by eapply lookup_lt_Some|].
  destruct (Hall i s t Hs Hi) as [Hl _]. by destruct t.
Qed.

Lemma overlapping_turn r symbols sched st i :
  overlapping r symbols sched st → overlapping r symbols (sched ++ [i]) (turn st i).
Proof.
  intros Hst. pose proof (no_holder _ _ _ _ Hst) as Hfree. destruct Hst as (Hr & Hlen & Hall).
  assert (∀ j, count_occ Nat.eq_dec (sched ++ [i]) j =
    (count_occ Nat.eq_dec sched j + if decide (i = j) then 1 else 0)%nat) as Hcount.
  { intros j. rewrite count_occ_app. simpl. destruct (Nat.eq_dec i j), (decide (i = j)); done. }
  unfold turn. rewrite Hfree. simpl. destruct (threads st !! i) as [t|] eqn:Hi; simpl.
  2:{ split_and!; [done..|]. intros j s t Hs Ht. rewrite Hcount, decide_False by congruence.
      rewrite Nat.add_0_r. by apply Hall. }
  destruct (lookup_lt_is_Some_2 symbols i) as [s Hs]; [rewrite <- Hlen; by eapply lookup_lt_Some|].
  destruct (Hall i s t Hs Hi) as [Hl Hrem]. pose proof (learned_region _ _ _ _ Hr Hl) as Hstep.
  destruct (region true (race_router st) t) as [[r' t']|].
  - destruct Hstep as (Hr' & Hl' & Hlt). split_and!; [done|by cbn; rewrite length_insert|]. simpl.
    intros j s' u Hs' Hu. rewrite Hcount. apply list_lookup_insert_Some in Hu as [(-> & <- & _)|[Hne Hu]].
    + simplify_eq. split; [done|]. rewrite decide_True by done. lia.
    + rewrite decide_False, Nat.add_0_r by done. by apply Hall.
  - split_and!; [done..|]. intros j s' u Hs' Hu. rewrite Hcount. case_decide; [simplify_eq; auto|].
    rewrite Nat.add_0_r. by apply Hall.
Qed.

Lemma overlapping_run r symbols sched :
  router_ok r → overlapping r symbols sched (run_turns sched (mkRace r (RoutePin <$> symbols))).
Proof.
  intros Hok. induction sched as [|i sched IH] using rev_ind.
  - split_and!; [done|by cbn; rewrite length_fmap|]. simpl. intros i s t Hs Ht.
    rewrite list_lookup_fmap, Hs in Ht. injection Ht as <-. simpl. split; [done|lia].
  - unfold run_turns. rewrite foldl_app. by apply overlapping_turn.
Qed.

Lemma same_routes_answer r r' s : same_routes r r' → (route r' s).1 = route_answer r s.
Proof. intros (Hok & Hring & Hpins). rewrite route_answer_eq by done. unfold route_answer. by rewrite Hring, Hpins. Qed.

(** C1. The cache of a router is transparent. Take the router that any sequence of
    its methods, called one at a time, has left, and any number of threads that
    call [route] on it, their locked regions interleaved in any order while no
    other method runs. Each call that finishes has answered the pin of its symbol,
    else the owner of the symbol's hash on the ring, else thrown; each call that
    gets five turns has finished; and the router they leave routes every symbol as
    the one they found. *)
Theorem route_transparent ops symbols schedule :
  Forall op_ok ops →
  let r := foldl run_op empty_router ops in
  let st := run_turns schedule (mkRace r (RoutePin <$> symbols)) in
  (∀ i s o, threads st !! i = Some (RouteDone s o) → symbols !! i = Some s ∧ o = route_answer r s) ∧
  (∀ i s, symbols !! i = Some s → (5 <= count_occ Nat.eq_dec schedule i)%nat →
    threads st !! i = Some (RouteDone s (route_answer r s))) ∧
  (∀ s, (route (race_router st) s).1 = route_answer r s).
Proof.
  intros Hops r st. assert (router_ok r) as Hok by by apply router_ok_run, router_ok_empty.
  destruct (overlapping_run r symbols schedule Hok) as (Hr & Hlen & Hall). fold st in Hr, Hlen, Hall.
  split_and!.
  - intros i s o Hi. destruct (lookup_lt_is_Some_2 symbols i) as [s' Hs];
      [rewrite <- Hlen; by eapply lookup_lt_Some|].
    destruct (Hall i s' _ Hs Hi) as [[-> ->] _]. done.
  - intros i s Hs Hcount. destruct (lookup_lt_is_Some_2 (threads st) i) as [t Ht];
      [rewrite Hlen; by eapply lookup_lt_Some|].
    destruct (Hall i s t Hs Ht) as [Hl Hrem]. rewrite Ht. destruct t; simpl in *; try done; try lia.
    by destruct Hl as [-> ->].
  - intros s. by apply same_routes_answer.
Qed.

Lemma route_transparent_witness :
  let r := foldl run_op empty_router [OpAdd 1; OpAdd 2; OpRoute 7; OpRemove 1; OpPin 8 5] in
  let st := run_turns [0; 1; 0; 1; 2; 0; 1; 0; 1; 1; 0; 2]%nat (mkRace r (RoutePin <$> [7; 7; 8])) in
  threads st = [RouteDone 7 (Returned 2); RouteDone 7 (Returned 2); RouteDone 8 (Returned 5)] ∧
  ∀ s, (route (race_router st) s).1 = route_answer r s.
Proof. split; [vm_compute; reflexivity|]. apply route_transparent. solve_ops. Defined.

(** ** Calls that overlap a membership change *)

(** [route] finds an owner, [add_node] changes the ring and clears the cache, and
    the first call stores its answer: the stale answer is in the cache of the new
    ring and every later call returns it, until the next change of membership. *)
Lemma stale_route_is_cached :
  let r := add_node empty_router 1 in
  let st := run_turns [0; 0; 0; 0; 1; 1; 0]%nat (mkRace r [RoutePin 2; AddRing 2]) in
  threads st = [RouteDone 2 (Returned 1); ChangeDone] ∧
  (route (race_router st) 2).1 = Returned 1 ∧ route_answer (race_router st) 2 = Returned 2.
Proof. vm_compute. split_and!; reflexivity. Qed.

(** The empty-ring test and the search of the ring are separate regions: when the
    last node leaves between them, [find_node] dereferences [end()]. *)
Lemma emptied_ring_is_searched :
  let r := add_node empty_router 1 in
  let st := run_turns [0; 0; 0; 1; 1; 0]%nat (mkRace r [RoutePin 2; RemoveRing 1]) in
  threads st = [RouteDone 2 (Thrown "dereference of end()"); ChangeDone].
Proof. vm_compute. reflexivity. Qed.
