(* ===== verification/Fencing.v ===== *)
(** * FencingToken: the monotonic epoch gate

    Models [FencingToken] of [include/zeptodb/cluster/k8s_lease.h]: the epoch a
    coordinator advances on promotion and the gate data nodes put in front of
    writes. The calls are total functions on the token; [validate]'s
    compare-exchange loop is also given as a step relation of threads that
    interleave at the atomic operations. *)

From stdpp Require Import base list relations sorting.
From Stdlib Require Import ZArith Lia.
From S2P Require Import Prelude.

Open Scope Z_scope.

(** ** The token *)

Record FencingToken : Type := mkToken {
  epoch_ : Z;
  last_seen_ : Z;
}.

(** [FencingToken(initial)]; the default constructor is [initial = 0]. *)
Definition make_token (initial : Z) : FencingToken := mkToken initial 0.

Definition advance (t : FencingToken) : Z * FencingToken :=
  let e := u64 (epoch_ t + 1) in (e, mkToken e (last_seen_ t)).

Definition current (t : FencingToken) : Z := epoch_ t.

(** [validate] without interference: the first compare-exchange succeeds. *)
Definition validate (t : FencingToken) (token : Z) : bool * FencingToken :=
  if last_seen_ t <=? token then (true, mkToken (epoch_ t) token) else (false, t).

Definition last_seen (t : FencingToken) : Z := last_seen_ t.

(** A sequence of calls, with the answers. *)
Fixpoint validate_all (t : FencingToken) (tokens : list Z) : list bool * FencingToken :=
  match tokens with
  | [] => ([], t)
  | x :: rest =>
      let '(ok, t1) := validate t x in
      let '(oks, t2) := validate_all t1 rest in (ok :: oks, t2)
  end.

(** ** The compare-exchange loop under interleaving

    A thread is about to load [last_seen_], or holds the value [expected] it
    loaded, or has returned. *)
Inductive vthread : Type :=
  | VLoad (token : Z)
  | VLoop (token expected : Z)
  | VDone (token : Z) (ok : bool).

Record gate : Type := mkGate {
  g_last_seen : Z;
  g_threads : list vthread;
  g_accepted : list Z; (** the accepted tokens, the latest first *)
}.

Inductive gate_step : gate → gate → Prop :=
  | gs_load i tok ls ts acc :
      ts !! i = Some (VLoad tok) →
      gate_step (mkGate ls ts acc) (mkGate ls (<[i := VLoop tok ls]> ts) acc)
  | gs_cas_ok i tok ls ts acc :
      ts !! i = Some (VLoop tok ls) → ls <= tok →
      gate_step (mkGate ls ts acc) (mkGate tok (<[i := VDone tok true]> ts) (tok :: acc))
  | gs_cas_fail i tok e ls ts acc :
      (* another thread stored first, or a spurious failure of the weak form *)
      ts !! i = Some (VLoop tok e) → e <= tok →
      gate_step (mkGate ls ts acc) (mkGate ls (<[i := VLoop tok ls]> ts) acc)
  | gs_stale i tok e ls ts acc :
      ts !! i = Some (VLoop tok e) → tok < e →
      gate_step (mkGate ls ts acc) (mkGate ls (<[i := VDone tok false]> ts) acc).

Definition gate_init (ls : Z) (tokens : list Z) : gate := mkGate ls (VLoad <$> tokens) [].

(** ** Sequential behaviour *)

Lemma validate_all_cons t x rest :
  validate_all t (x :: rest) =
  ((validate t x).1 :: (validate_all (validate t x).2 rest).1,
   (validate_all (validate t x).2 rest).2).
Proof. simpl. by destruct (validate t x), (validate_all _ rest). Qed.

(** The gate keeps the maximum: after any sequence of tokens, [last_seen] is
    the largest of its initial value and the tokens, the epoch is untouched, and
    the next token is accepted exactly when no earlier one exceeds it. *)
Theorem validate_all_max t tokens x :
  last_seen (validate_all t tokens).2 = foldr Z.max (last_seen t) tokens ∧
  current (validate_all t tokens).2 = current t ∧
  (validate (validate_all t tokens).2 x).1 =
    bool_decide (last_seen t <= x ∧ Forall (λ y, y <= x) tokens).
Proof.
  assert (∀ l z, foldr Z.max z l <= x ↔ z <= x ∧ Forall (λ y, y <= x) l) as Hfold.
  { induction l as [|y l IH]; intros z; simpl.
    - split; [split; [done|constructor]|tauto].
    - rewrite Z.max_lub_iff, IH, Forall_cons. tauto. }
  assert (last_seen (validate_all t tokens).2 = foldr Z.max (last_seen t) tokens ∧
          current (validate_all t tokens).2 = current t) as [Hl Hc].
  { revert t. induction tokens as [|y tokens IH]; intros t; [done|].
    rewrite validate_all_cons. simpl. destruct (IH (validate t y).2) as [-> ->].
    assert (∀ z, foldr Z.max (Z.max z y) tokens = Z.max y (foldr Z.max z tokens)) as Hm.
    { clear. induction tokens as [|w tokens IH]; intros z; simpl; [lia|]. rewrite IH. lia. }
    unfold validate. destruct (Z.leb_spec (last_seen_ t) y); simpl; (split; [|done]).
    - rewrite <- Hm. f_equal. unfold last_seen. lia.
    - rewrite <- Hm. f_equal. unfold last_seen. lia. }
  split_and!; [done|done|]. unfold validate.
  change (last_seen_ ?u) with (last_seen u). rewrite Hl.
  destruct (Z.leb_spec (foldr Z.max (last_seen t) tokens) x) as [Hle|Hgt]; simpl; symmetry.
  - by apply bool_decide_eq_true, Hfold.
  - apply bool_decide_eq_false. rewrite <- Hfold. lia.
Qed.

(** ** Concurrent behaviour *)

Definition gate_ok (init : Z) (g : gate) : Prop :=
  g_last_seen g = hd init (g_accepted g) ∧
  StronglySorted (λ a b, b <= a) (g_accepted g) ∧
  Forall (λ a, init <= a) (g_accepted g) ∧
  init <= g_last_seen g ∧
  ∀ i tok e, g_threads g !! i = Some (VLoop tok e) → e <= g_last_seen g.

Lemma hd_max (init : Z) l : StronglySorted (λ a b, b <= a) l → Forall (λ a, a <= hd init l) l.
Proof. intros Hs. destruct Hs as [|a l _ Hf]; constructor; simpl; [lia|done]. Qed.

Lemma gate_ok_step init g g' : gate_ok init g → gate_step g g' → gate_ok init g'.
Proof.
  intros (Hls & Hs & Hf & Hi & Hthr) Hstep.
  destruct Hstep as [i tok ls ts acc Hi'|i tok ls ts acc Hi' Hle|i tok e ls ts acc Hi' Hle
                    |i tok e ls ts acc Hi' Hlt]; unfold gate_ok; simpl in *; split_and!; try done.
  - intros j tok' e'. rewrite list_lookup_insert. case_decide; [intros [= <- <-]; lia|by eauto].
  - constructor; [done|]. eapply Forall_impl; [apply (hd_max init)|]; [done|].
    simpl. rewrite <- Hls. lia.
  - constructor; [lia|done].
  - lia.
  - intros j tok' e'. rewrite list_lookup_insert. case_decide; [done|].
    intros Hj%Hthr. lia.
  - intros j tok' e'. rewrite list_lookup_insert. case_decide; [intros [= <- <-]; lia|by eauto].
  - intros j tok' e'. rewrite list_lookup_insert. case_decide; [done|by eauto].
Qed.

Lemma gate_ok_init init tokens : gate_ok init (gate_init init tokens).
Proof.
  unfold gate_ok, gate_init. simpl. split_and!; [done|constructor|constructor|lia|].
  intros i tok e (? & ? & ?)%list_lookup_fmap_Some. congruence.
Qed.

(** However the compare-exchange loops of concurrent validators interleave,
    tokens are accepted in non-decreasing order from the initial value on,
    [last_seen] is the latest accepted one, and it never goes back. *)
Theorem concurrent_gate_monotone init tokens g g' :
  rtc gate_step (gate_init init tokens) g → rtc gate_step g g' →
  StronglySorted (λ a b, b <= a) (g_accepted g) ∧
  Forall (λ a, init <= a) (g_accepted g) ∧
  g_last_seen g = hd init (g_accepted g) ∧
  g_last_seen g <= g_last_seen g'.
Proof.
  intros Hr Hr'.
  assert (gate_ok init g) as Hok.
  { remember (gate_init init tokens) as g0 eqn:E.
    assert (gate_ok init g0) as H0 by (subst; apply gate_ok_init). clear E.
    induction Hr as [|x y z Hxy _ IH]; [done|]. by eapply IH, gate_ok_step. }
  assert (g_last_seen g <= g_last_seen g') as Hmono.
  { clear Hr. revert Hok. induction Hr' as [|x y z Hxy _ IH]; intros Hok; [lia|].
    trans (g_last_seen y); [|by eapply IH, gate_ok_step].
    destruct Hxy; simpl; lia. }
  by destruct Hok as (? & ? & ? & _).
Qed.

Lemma concurrent_gate_monotone_witness :
  let g := mkGate 5 [VLoop 3 0; VDone 5 true] [5] in
  let g' := mkGate 5 [VLoop 3 5; VDone 5 true] [5] in
  StronglySorted (λ a b, b <= a) (g_accepted g) ∧ Forall (λ a, 0 <= a) (g_accepted g) ∧
  g_last_seen g = hd 0 (g_accepted g) ∧ g_last_seen g <= g_last_seen g'.
Proof.
  apply (concurrent_gate_monotone 0 [3; 5]).
  - eapply rtc_l; [by apply (gs_load 0)|]. eapply rtc_l; [by apply (gs_load 1)|].
    eapply rtc_once. by apply (gs_cas_ok 1 5 0 [VLoop 3 0; VLoop 5 0] []).
  - eapply rtc_once. by apply (gs_cas_fail 0 3 0 5 [VLoop 3 0; VDone 5 true] [5]).
Defined.
