(* ===== verification/RingConsensus.v ===== *)
(** * RingConsensus: epoch-numbered broadcast of the routing ring

    Models [include/zeptodb/cluster/ring_consensus.h]: the wire format of
    [RingSnapshot] and the coordinator and follower sides of
    [EpochBroadcastConsensus]. Bytes are integers from 0 to 255. The network is
    the parameter [send] of the proposals: whether peer [id] acknowledged the
    payload. Each call runs to its end; [RingRace] has its sections one by one. *)

From stdpp Require Import base gmap sets list fin_maps fin_sets strings.
From Stdlib Require Import ZArith Lia.
From S2P Require Import Prelude.
From S2P Require Import Bytes.
From S2P Require Import PartitionRouter.
From S2P Require Import RouterFacts.
From S2P Require Import Fencing.

Open Scope Z_scope.

(** ** Snapshots *)

Record RingSnapshot : Type := mkSnapshot {
  epoch : Z;
  nodes : list Z;
  snap_pins : list (Z * Z);
}.

Definition serialize (s : RingSnapshot) : list Z :=
  push_le 8 (u64 (epoch s)) ++
  push_le 4 (u32 (Z.of_nat (length (nodes s)))) ++
  (nodes s ≫= λ id, push_le 4 (u32 id)) ++
  push_le 4 (u32 (Z.of_nat (length (snap_pins s)))) ++
  (snap_pins s ≫= λ p, push_le 4 (u32 p.1) ++ push_le 4 (u32 p.2)).

(** What [deserialize] does: it fills the snapshot, returns [false], or reads
    [data[i]] at an index past [len], which is undefined behaviour. *)
Inductive parsed : Type :=
  | Accepted (s : RingSnapshot)
  | Rejected
  | OutOfBounds.

(** [for (i = n - 1; i >= 0; --i) v = (v << 8) | data[off + i]] on a [w]-bit [v]. *)
Fixpoint read_le (w : Z) (n : nat) (data : list Z) (off : Z) (v : Z) : option Z :=
  match n with
  | O => Some v
  | S i =>
      b ← data !! Z.to_nat (off + Z.of_nat i);
      read_le w i data off (Z.lor (wrap w (Z.shiftl v 8)) b)
  end.

(** The node loop from index [j]; [12 + j * 4] is [uint32_t] arithmetic. *)
Fixpoint read_nodes (n : nat) (data : list Z) (j : Z) : option (list Z) :=
  match n with
  | O => Some []
  | S n' =>
      v ← read_le 32 4 data (u32 (12 + u32 (j * 4))) 0;
      rest ← read_nodes n' data (j + 1);
      Some (v :: rest)
  end.

Fixpoint read_pins (n : nat) (data : list Z) (off : Z) : option (list (Z * Z)) :=
  match n with
  | O => Some []
  | S n' =>
      sym ← read_le 32 4 data off 0;
      node ← read_le 32 4 data (off + 4) 0;
      rest ← read_pins n' data (off + 8);
      Some ((sym, node) :: rest)
  end.

(** The part of [deserialize] after the node list, from the offset [off]. *)
Definition deserialize_pins (data : list Z) (e : Z) (ns : list Z) (off : Z) : parsed :=
  let len := Z.of_nat (length data) in
  if len =? off then Accepted (mkSnapshot e ns [])
  else if len <? off + 4 then Rejected
  else match read_le 32 4 data off 0 with
  | None => OutOfBounds
  | Some pin_count =>
      if len <? off + 4 + u32 (pin_count * 8) then Rejected
      else match read_pins (Z.to_nat pin_count) data (off + 4) with
      | None => OutOfBounds
      | Some pins => Accepted (mkSnapshot e ns pins)
      end
  end.

Definition deserialize (data : list Z) : parsed :=
  let len := Z.of_nat (length data) in
  if len <? 12 then Rejected
  else match read_le 64 8 data 0 0, read_le 32 4 data 8 0 with
  | Some e, Some count =>
      if len <? u32 (12 + u32 (count * 4)) then Rejected
      else match read_nodes (Z.to_nat count) data 0 with
      | None => OutOfBounds
      | Some ns => deserialize_pins data e ns (u32 (12 + u32 (count * 4)))
      end
  | _, _ => OutOfBounds
  end.

(** ** EpochBroadcastConsensus *)

Record Consensus : Type := mkConsensus {
  router_ : PartitionRouter;
  token_ : FencingToken;
  peers_ : list Z;
}.

Definition with_router (c : Consensus) (r : PartitionRouter) : Consensus :=
  mkConsensus r (token_ c) (peers_ c).

Definition add_peer (c : Consensus) (id : Z) : Consensus :=
  mkConsensus (router_ c) (token_ c)
    (if decide (id ∈ peers_ c) then peers_ c else peers_ c ++ [id]).

Definition remove_peer (c : Consensus) (id : Z) : Consensus :=
  mkConsensus (router_ c) (token_ c) (filter (λ p, p ≠ id) (peers_ c)).

Definition take_snapshot (e : Z) (r : PartitionRouter) : RingSnapshot :=
  mkSnapshot e (all_nodes r) (pinned_symbols r).

(** [broadcast_ring]: whether every peer acknowledged, the new state, and the
    payload every peer is sent. *)
Definition broadcast_ring (send : Z → list Z → bool) (c : Consensus)
    : bool * Consensus * list Z :=
  let '(e, tok) := advance (token_ c) in
  let payload := serialize (take_snapshot e (router_ c)) in
  let failures := length (filter (λ id, send id payload = false) (peers_ c)) in
  ((failures =? 0)%nat, mkConsensus (router_ c) tok (peers_ c), payload).

Definition propose_add send (c : Consensus) (node : Z) :=
  broadcast_ring send (with_router c (add_node (router_ c) node)).

Definition propose_remove send (c : Consensus) (node : Z) :=
  broadcast_ring send (with_router c (remove_node (router_ c) node)).

Definition propose_pin send (c : Consensus) (symbol node : Z) :=
  broadcast_ring send (with_router c (pin_symbol (router_ c) symbol node)).

(** The router is rebuilt from a snapshot in four loops. *)
Definition remove_missing (snap : RingSnapshot) (r : PartitionRouter) : PartitionRouter :=
  foldl (λ r id, if decide (id ∈ nodes snap) then r else remove_node r id) r (all_nodes r).

Definition add_listed (snap : RingSnapshot) (r : PartitionRouter) : PartitionRouter :=
  foldl add_node r (nodes snap).

Definition unpin_missing (snap : RingSnapshot) (r : PartitionRouter) : PartitionRouter :=
  foldl (λ r p, if decide (p ∈ snap_pins snap) then r else unpin_symbol r p.1) r
    (pinned_symbols r).

Definition pin_listed (snap : RingSnapshot) (r : PartitionRouter) : PartitionRouter :=
  foldl (λ r p, pin_symbol r p.1 p.2) r (snap_pins snap).

(** [None] is the undefined behaviour of an out-of-bounds [deserialize]. *)
Definition apply_update (c : Consensus) (data : list Z) : option (bool * Consensus) :=
  match deserialize data with
  | OutOfBounds => None
  | Rejected => Some (false, c)
  | Accepted snap =>
      let '(ok, tok) := validate (token_ c) (epoch snap) in
      if ok
      then Some (true, mkConsensus
             (pin_listed snap (unpin_missing snap
               (add_listed snap (remove_missing snap (router_ c))))) tok (peers_ c))
      else Some (false, mkConsensus (router_ c) tok (peers_ c))
  end.

Definition current_epoch (c : Consensus) : Z := current (token_ c).

(** ** Reading back what was written *)

Lemma length_push_nodes l : length (l ≫= λ id, push_le 4 (u32 id)) = (4 * length l)%nat.
Proof.
  induction l as [|x l IH]; [done|]. cbn [mbind list_bind].
  rewrite length_app, length_push_le. fold (l ≫= λ id, push_le 4 (u32 id)). rewrite IH. simpl. lia.
Qed.

Lemma length_push_pins (l : list (Z * Z)) :
  length (l ≫= λ p, push_le 4 (u32 p.1) ++ push_le 4 (u32 p.2)) = (8 * length l)%nat.
Proof.
  induction l as [|x l IH]; [done|]. cbn [mbind list_bind].
  rewrite !length_app, !length_push_le.
  fold (l ≫= λ p, push_le 4 (u32 p.1) ++ push_le 4 (u32 p.2)). rewrite IH. simpl. lia.
Qed.

(** Reading [k] bytes of the encoding of [v] on top of its high part. *)
Lemma read_le_push w n v pre post k :
  0 <= v < 2 ^ (8 * Z.of_nat n) → 8 * Z.of_nat n <= w → (k <= n)%nat →
  read_le w k (pre ++ push_le n v ++ post) (Z.of_nat (length pre)) (v / 2 ^ (8 * Z.of_nat k)) =
  Some v.
Proof.
  intros Hv Hw. induction k as [|k IH]; intros Hk; cbn [read_le].
  - by rewrite Z.mul_0_r, Z.div_1_r.
  - rewrite lookup_app_r by lia.
    replace (Z.to_nat _ - length pre)%nat with k by lia.
    rewrite lookup_app_l by (rewrite length_push_le; lia).
    rewrite lookup_push_le by lia. simpl.
    rewrite wrap_small, lor_shiftl_byte.
    + replace (_ * 2 ^ 8 + _) with (v / 2 ^ (8 * Z.of_nat k)); [apply IH; lia|].
      replace (8 * Z.of_nat (S k)) with (8 * Z.of_nat k + 8) by lia.
      rewrite Z.pow_add_r, <- Z.div_div by lia.
      rewrite (Z.mul_comm _ (2 ^ 8)). apply Z.div_mod. lia.
    + by apply Z.mod_pos_bound.
    + rewrite Z.shiftl_mul_pow2 by lia.
      assert (v / 2 ^ (8 * Z.of_nat (S k)) * 2 ^ 8 <= v).
      { replace (8 * Z.of_nat (S k)) with (8 * Z.of_nat k + 8) by lia.
        rewrite Z.pow_add_r, <- Z.div_div by lia.
        trans (v / 2 ^ (8 * Z.of_nat k)).
        - rewrite Z.mul_comm. by apply Z.mul_div_le.
        - apply Z.div_le_upper_bound; [lia|]. assert (1 <= 2 ^ (8 * Z.of_nat k)) by lia. nia. }
      assert (2 ^ (8 * Z.of_nat n) <= 2 ^ w) by (apply Z.pow_le_mono_r; lia).
      pose proof (Z.div_pos v (2 ^ (8 * Z.of_nat (S k)))). lia.
Qed.

Lemma read_le_push_all w n v pre post off :
  0 <= v < 2 ^ (8 * Z.of_nat n) → 8 * Z.of_nat n <= w → off = Z.of_nat (length pre) →
  read_le w n (pre ++ push_le n v ++ post) off 0 = Some v.
Proof.
  intros Hv Hw ->. rewrite <- (read_le_push w n v pre post n) by lia.
  by rewrite Z.div_small by lia.
Qed.

Definition snapshot_ok (s : RingSnapshot) : Prop :=
  0 <= epoch s < 2 ^ 64 ∧
  Forall (λ id, 0 <= id < 2 ^ 32) (nodes s) ∧
  Forall (λ p, 0 <= p.1 < 2 ^ 32 ∧ 0 <= p.2 < 2 ^ 32) (snap_pins s) ∧
  12 + 4 * Z.of_nat (length (nodes s)) < 2 ^ 32 ∧
  8 * Z.of_nat (length (snap_pins s)) < 2 ^ 32.

Lemma read_nodes_push l data pre post j :
  Forall (λ id, 0 <= id < 2 ^ 32) l → 0 <= j →
  12 + 4 * (j + Z.of_nat (length l)) < 2 ^ 32 →
  data = pre ++ (l ≫= λ id, push_le 4 (u32 id)) ++ post →
  Z.of_nat (length pre) = 12 + 4 * j →
  read_nodes (length l) data j = Some l.
Proof.
  intros Hl. revert pre j. induction Hl as [|x l Hx _ IH]; intros pre j Hj Hlen Hd Hpre; [done|].
  cbn [mbind list_bind] in Hd. fold (l ≫= λ id, push_le 4 (u32 id)) in Hd.
  rewrite <- app_assoc in Hd. simpl in Hlen. cbn [length read_nodes].
  rewrite (wrap_small 32 (j * 4)), wrap_small by lia. subst data.
  rewrite (read_le_push_all 32 4 (u32 x)) by (lia || by apply wrap_range).
  cbn [mbind option_bind]. rewrite (IH (pre ++ push_le 4 (u32 x)) (j + 1)).
  - cbn [mbind option_bind]. by rewrite wrap_small.
  - lia.
  - lia.
  - by rewrite <- app_assoc.
  - rewrite length_app, length_push_le. lia.
Qed.

Lemma read_pins_push l data pre post off :
  Forall (λ p, 0 <= p.1 < 2 ^ 32 ∧ 0 <= p.2 < 2 ^ 32) l →
  data = pre ++ (l ≫= λ p, push_le 4 (u32 p.1) ++ push_le 4 (u32 p.2)) ++ post →
  off = Z.of_nat (length pre) →
  read_pins (length l) data off = Some l.
Proof.
  intros Hl. revert pre off. induction Hl as [|[s n] l [Hs Hn] _ IH]; intros pre off Hd ->; [done|].
  cbn [mbind list_bind] in Hd.
  fold (l ≫= λ p, push_le 4 (u32 p.1) ++ push_le 4 (u32 p.2)) in Hd.
  rewrite <- !app_assoc in Hd. cbn [fst snd] in *. cbn [length read_pins].
  assert (read_le 32 4 data (Z.of_nat (length pre)) 0 = Some s) as ->.
  { rewrite Hd, (read_le_push_all 32 4 (u32 s)) by (lia || by apply wrap_range).
    by rewrite wrap_small. }
  assert (read_le 32 4 data (Z.of_nat (length pre) + 4) 0 = Some n) as ->.
  { rewrite Hd, (app_assoc pre), (read_le_push_all 32 4 (u32 n)); [by rewrite wrap_small| |lia|].
    - by apply wrap_range.
    - rewrite length_app, length_push_le. lia. }
  cbn [mbind option_bind].
  rewrite (IH ((pre ++ push_le 4 (u32 s)) ++ push_le 4 (u32 n))).
  - done.
  - by rewrite Hd, <- !app_assoc.
  - rewrite !length_app, !length_push_le. lia.
Qed.

Lemma length_serialize s :
  length (serialize s) = (16 + 4 * length (nodes s) + 8 * length (snap_pins s))%nat.
Proof.
  unfold serialize. rewrite !length_app, !length_push_le, length_push_nodes, length_push_pins. lia.
Qed.

Lemma deserialize_serialize s : snapshot_ok s → deserialize (serialize s) = Accepted s.
Proof.
  intros (He & Hn & Hp & Hln & Hlp). pose proof (length_serialize s) as Hlen.
  unfold deserialize. rewrite (proj2 (Z.ltb_ge _ _)) by lia.
  assert (read_le 64 8 (serialize s) 0 0 = Some (epoch s)) as ->.
  { unfold serialize. rewrite <- (app_nil_l (push_le 8 _ ++ _)).
    rewrite (read_le_push_all 64 8); [by rewrite wrap_small|by apply wrap_range|lia|done]. }
  assert (read_le 32 4 (serialize s) 8 0 = Some (Z.of_nat (length (nodes s)))) as ->.
  { unfold serialize. rewrite (read_le_push_all 32 4); [|by apply wrap_range|lia|].
    - rewrite wrap_small; [done|lia].
    - by rewrite length_push_le. }
  rewrite (wrap_small 32 (_ * 4)), (wrap_small 32 (12 + _)) by lia.
  rewrite (proj2 (Z.ltb_ge _ _)) by lia.
  rewrite Nat2Z.id.
  erewrite (read_nodes_push (nodes s) _
    (push_le 8 (u64 (epoch s)) ++ push_le 4 (u32 (Z.of_nat (length (nodes s))))));
    [|done|lia|lia|unfold serialize; by rewrite <- app_assoc|by rewrite length_app, !length_push_le].
  unfold deserialize_pins. rewrite (proj2 (Z.eqb_neq _ _)) by lia.
  rewrite (proj2 (Z.ltb_ge _ _)) by lia.
  assert (serialize s = (push_le 8 (u64 (epoch s)) ++
    push_le 4 (u32 (Z.of_nat (length (nodes s)))) ++
    (nodes s ≫= λ id, push_le 4 (u32 id))) ++
    push_le 4 (u32 (Z.of_nat (length (snap_pins s)))) ++
    (snap_pins s ≫= λ p, push_le 4 (u32 p.1) ++ push_le 4 (u32 p.2))) as Hser.
  { unfold serialize. by rewrite <- !app_assoc. }
  rewrite Hser at 1.
  rewrite (read_le_push_all 32 4); [|by apply wrap_range|lia|].
  2:{ rewrite !length_app, !length_push_le, length_push_nodes. lia. }
  rewrite (wrap_small 32 (Z.of_nat (length (snap_pins s)))) by lia.
  rewrite (wrap_small 32 (_ * 8)), (proj2 (Z.ltb_ge _ _)) by lia.
  rewrite Nat2Z.id.
  erewrite (read_pins_push (snap_pins s) _ ((push_le 8 (u64 (epoch s)) ++
    push_le 4 (u32 (Z.of_nat (length (nodes s)))) ++
    (nodes s ≫= λ id, push_le 4 (u32 id))) ++
    push_le 4 (u32 (Z.of_nat (length (snap_pins s))))) []).
  - by destruct s.
  - done.
  - rewrite app_nil_r, Hser. rewrite <- !app_assoc. by rewrite wrap_small by lia.
  - rewrite !length_app, !length_push_le, length_push_nodes. lia.
Qed.

(** ** Rebuilding a router from a snapshot *)

Lemma remove_missing_spec s r :
  router_ok r →
  router_ok (remove_missing s r) ∧ pinned_ (remove_missing s r) = pinned_ r ∧
  ∀ n, n ∈ node_set_ (remove_missing s r) ↔ n ∈ node_set_ r ∧ n ∈ nodes s.
Proof.
  intros Hok. unfold remove_missing.
  assert (∀ n, n ∈ all_nodes r → node_ok n) as Hns.
  { unfold all_nodes. intros n Hn%elem_of_elements. by apply Hok. }
  assert (∀ l r0, (∀ n, n ∈ l → node_ok n) → router_ok r0 →
    let r1 := foldl (λ r id, if decide (id ∈ nodes s) then r else remove_node r id) r0 l in
    router_ok r1 ∧ pinned_ r1 = pinned_ r0 ∧
    ∀ n, n ∈ node_set_ r1 ↔ n ∈ node_set_ r0 ∧ (n ∈ l → n ∈ nodes s)) as Hgen.
  { clear. induction l as [|x l IH]; intros r0 Hl Hr0; simpl.
    { split_and!; [done..|]. intros n. rewrite elem_of_nil. tauto. }
    assert (router_ok (if decide (x ∈ nodes s) then r0 else remove_node r0 x)) as Hr1.
    { case_decide; [done|]. apply router_ok_remove; [by apply Hl; left|done]. }
    destruct (IH _ (λ n Hn, Hl n (list_elem_of_further _ _ _ Hn)) Hr1) as (? & Hp & Hin).
    split_and!; [done| |].
    - rewrite Hp. case_decide; [done|]. apply pinned_remove_node.
    - intros n. rewrite Hin, elem_of_cons. case_decide as Hx.
      + naive_solver.
      + rewrite node_set_remove_node, elem_of_difference, elem_of_singleton. naive_solver. }
  destruct (Hgen (all_nodes r) r Hns Hok) as (? & ? & Hin). split_and!; [done..|].
  intros n. rewrite Hin. unfold all_nodes. rewrite elem_of_elements. tauto.
Qed.

Lemma add_listed_spec s r :
  router_ok r → Forall node_ok (nodes s) →
  router_ok (add_listed s r) ∧ pinned_ (add_listed s r) = pinned_ r ∧
  ∀ n, n ∈ node_set_ (add_listed s r) ↔ n ∈ node_set_ r ∨ n ∈ nodes s.
Proof.
  unfold add_listed. intros Hok Hn. revert r Hok.
  induction Hn as [|x l Hx _ IH]; intros r Hok; simpl.
  { split_and!; [done..|]. intros n. rewrite elem_of_nil. tauto. }
  destruct (IH (add_node r x)) as (? & Hp & Hin); [by apply router_ok_add|].
  split_and!; [done| |].
  - rewrite Hp. apply pinned_add_node.
  - intros n. rewrite Hin, node_set_add_node, elem_of_union, elem_of_singleton, elem_of_cons. tauto.
Qed.

Lemma unpin_missing_spec s r :
  router_ok r →
  router_ok (unpin_missing s r) ∧ node_set_ (unpin_missing s r) = node_set_ r ∧
  ∀ x n, pinned_ (unpin_missing s r) !! x = Some n → (x, n) ∈ snap_pins s.
Proof.
  intros Hok. unfold unpin_missing.
  assert (∀ l r0, router_ok r0 →
    let r1 := foldl (λ r p, if decide (p ∈ snap_pins s) then r else unpin_symbol r p.1) r0 l in
    router_ok r1 ∧ node_set_ r1 = node_set_ r0 ∧
    ∀ x n, pinned_ r1 !! x = Some n →
      pinned_ r0 !! x = Some n ∧ ((x, n) ∈ l → (x, n) ∈ snap_pins s)) as Hgen.
  { clear. induction l as [|p l IH]; intros r0 Hr0; simpl.
    { split_and!; [done..|]. intros x n ?. split; [done|]. by intros ?%elem_of_nil. }
    assert (router_ok (if decide (p ∈ snap_pins s) then r0 else unpin_symbol r0 p.1)) as Hr1.
    { case_decide; [done|]. by apply (router_ok_op r0 (OpUnpin p.1)). }
    destruct (IH _ Hr1) as (? & Hp & Hin). split_and!; [done| |].
    - rewrite Hp. by case_decide.
    - intros x n [H1 H2]%Hin. rewrite elem_of_cons. case_decide as Hx.
      + split; [done|]. intros [<-|?]; [done|by apply H2].
      + simpl in H1. apply lookup_delete_Some in H1 as [Hne H1]. split; [done|].
        intros [<-|?]; [done|by apply H2]. }
  destruct (Hgen (pinned_symbols r) r Hok) as (? & ? & Hin). split_and!; [done..|].
  intros x n [H1 H2]%Hin. apply H2. by apply elem_of_map_to_list.
Qed.

Lemma pin_listed_spec s r m :
  router_ok r → (∀ x n, (x, n) ∈ snap_pins s ↔ m !! x = Some n) → pinned_ r ⊆ m →
  router_ok (pin_listed s r) ∧ node_set_ (pin_listed s r) = node_set_ r ∧
  pinned_ (pin_listed s r) = m.
Proof.
  intros Hok Hm Hsub. unfold pin_listed.
  assert (∀ l r0, router_ok r0 → (∀ x n, (x, n) ∈ l → m !! x = Some n) → pinned_ r0 ⊆ m →
    let r1 := foldl (λ r p, pin_symbol r p.1 p.2) r0 l in
    router_ok r1 ∧ node_set_ r1 = node_set_ r0 ∧ pinned_ r1 ⊆ m ∧
    ∀ x n, pinned_ r0 !! x = Some n ∨ (x, n) ∈ l → pinned_ r1 !! x = Some n) as Hgen.
  { clear. induction l as [|[y v] l IH]; intros r0 Hr0 Hl Hs; simpl.
    { split_and!; [done..|]. by intros x n [?|?%elem_of_nil]. }
    destruct (IH (pin_symbol r0 y v)) as (? & Hn & ? & Hin).
    - by apply (router_ok_op r0 (OpPin y v)).
    - intros x n ?. apply Hl. by right.
    - simpl. apply insert_subseteq_l; [|done]. apply Hl. by left.
    - split_and!; [done|by rewrite Hn|done|]. intros x n Hxn. apply Hin. simpl.
      rewrite lookup_insert. destruct Hxn as [Hx|[[= -> ->]|Hx]%elem_of_cons].
      + left. case_decide as Hy; [subst y|done].
        assert (m !! x = Some n) as Hmn by (by eapply lookup_weaken).
        rewrite <- Hmn. symmetry. apply Hl. by left.
      + left. by rewrite decide_True.
      + by right. }
  destruct (Hgen (snap_pins s) r) as (? & ? & Hle & Hin); [done| |done|].
  { intros x n. apply Hm. }
  split_and!; [done..|]. apply (anti_symm (⊆)); [done|].
  apply map_subseteq_spec. intros x n Hx. apply Hin. right. by apply Hm.
Qed.

(** A router that agrees with a snapshot. *)
Definition shows (r : PartitionRouter) (s : RingSnapshot) : Prop :=
  router_ok r ∧ node_set_ r = list_to_set (nodes s) ∧ pinned_ r = list_to_map (snap_pins s).

(** The snapshots a coordinator sends: no duplicate pin, node ids in range. *)
Definition snapshot_wf (s : RingSnapshot) : Prop :=
  snapshot_ok s ∧ Forall node_ok (nodes s) ∧ NoDup (snap_pins s).*1.

Lemma rebuild_shows s r :
  router_ok r → snapshot_wf s →
  shows (pin_listed s (unpin_missing s (add_listed s (remove_missing s r)))) s.
Proof.
  intros Hok (_ & Hn & Hnd).
  destruct (remove_missing_spec s r Hok) as (Hok1 & _ & Hn1).
  destruct (add_listed_spec s _ Hok1 Hn) as (Hok2 & _ & Hn2).
  destruct (unpin_missing_spec s _ Hok2) as (Hok3 & Hn3 & Hp3).
  assert (∀ x n, (x, n) ∈ snap_pins s ↔ (list_to_map (snap_pins s) : gmap Z Z) !! x = Some n) as Hm.
  { intros x n. by rewrite elem_of_list_to_map. }
  destruct (pin_listed_spec s _ (list_to_map (snap_pins s)) Hok3 Hm) as (Hok4 & Hn4 & Hp4).
  { apply map_subseteq_spec. intros x n ?%Hp3. by apply Hm. }
  split_and!; [done| |done]. rewrite Hn4, Hn3. apply set_eq. intros n.
  rewrite Hn2, Hn1, elem_of_list_to_set. tauto.
Qed.

(** What a follower does with a well-formed payload. *)
Lemma apply_update_wf f s :
  router_ok (router_ f) → snapshot_wf s →
  (epoch s < last_seen (token_ f) ∧ apply_update f (serialize s) = Some (false, f)) ∨
  (last_seen (token_ f) <= epoch s ∧
   ∃ f', apply_update f (serialize s) = Some (true, f') ∧ shows (router_ f') s ∧
         last_seen (token_ f') = epoch s ∧ current_epoch f' = current_epoch f ∧
         peers_ f' = peers_ f).
Proof.
  intros Hok Hwf. unfold apply_update. rewrite deserialize_serialize by apply Hwf.
  unfold validate, last_seen. destruct (Z.leb_spec (last_seen_ (token_ f)) (epoch s)).
  - right. split; [done|]. eexists. split; [done|]. split_and!; [by apply rebuild_shows|done..].
  - left. split; [done|]. by destruct f.
Qed.

(** ** Reading within bounds *)

Lemma read_le_take w n data off v k :
  0 <= off → off + Z.of_nat n <= Z.of_nat k →
  read_le w n (take k data) off v = read_le w n data off v.
Proof.
  revert v. induction n as [|n IH]; intros v Ho Hk; [done|]. cbn [read_le].
  rewrite lookup_take_lt by lia. destruct (data !! _); [|done]. simpl. apply IH; lia.
Qed.

Lemma read_nodes_take n data j k :
  0 <= j → 12 + 4 * (j + Z.of_nat n) <= Z.of_nat k → 12 + 4 * (j + Z.of_nat n) < 2 ^ 32 →
  read_nodes n (take k data) j = read_nodes n data j.
Proof.
  revert j. induction n as [|n IH]; intros j Hj Hk Hb; [done|]. cbn [read_nodes].
  rewrite (wrap_small 32 (j * 4)), wrap_small, read_le_take by lia.
  destruct (read_le _ _ _ _ _); [|done]. simpl. by rewrite IH by lia.
Qed.

Lemma read_le_is_Some w n data off v :
  0 <= off → off + Z.of_nat n <= Z.of_nat (length data) → is_Some (read_le w n data off v).
Proof.
  revert v. induction n as [|n IH]; intros v Ho Hk; cbn [read_le]; [by eexists|].
  destruct (data !! _) as [b|] eqn:Hb; [simpl; apply IH; lia|].
  apply lookup_ge_None in Hb. lia.
Qed.

Lemma read_le_32_range data off v r :
  Forall (λ b, 0 <= b < 2 ^ 8) data → 0 <= v < 2 ^ 32 →
  ∀ n, read_le 32 n data off v = Some r → 0 <= r < 2 ^ 32.
Proof.
  intros Hd Hv n. revert v Hv. induction n as [|n IH]; intros v Hv; cbn [read_le].
  { by intros [= <-]. }
  destruct (data !! _) as [b|] eqn:Hb; [|done]. simpl. apply IH.
  assert (0 <= b < 2 ^ 8) by (eapply (Forall_lookup_1 _ _ _ _ Hd); done).
  pose proof (Z.div_mod (v * 2 ^ 8) (2 ^ 32) ltac:(lia)).
  assert (u32 (Z.shiftl v 8) = Z.shiftl (v mod 2 ^ 24) 8) as ->.
  { unfold wrap. rewrite !Z.shiftl_mul_pow2 by lia.
    change (2 ^ 32) with (2 ^ 24 * 2 ^ 8). by rewrite Zmult_mod_distr_r. }
  rewrite lor_shiftl_byte by done. pose proof (Z.mod_pos_bound v (2 ^ 24)). lia.
Qed.

Lemma read_nodes_is_Some n data j :
  0 <= j → 12 + 4 * (j + Z.of_nat n) <= Z.of_nat (length data) →
  12 + 4 * (j + Z.of_nat n) < 2 ^ 32 → is_Some (read_nodes n data j).
Proof.
  revert j. induction n as [|n IH]; intros j Hj Hk Hb; cbn [read_nodes]; [by eexists|].
  rewrite (wrap_small 32 (j * 4)), wrap_small by lia.
  destruct (read_le_is_Some 32 4 data (12 + j * 4) 0) as [v ->]; [lia..|]. simpl.
  destruct (IH (j + 1)) as [rest ->]; [lia..|]. by eexists.
Qed.

Lemma read_pins_is_Some n data off :
  0 <= off → off + 8 * Z.of_nat n <= Z.of_nat (length data) → is_Some (read_pins n data off).
Proof.
  revert off. induction n as [|n IH]; intros off Ho Hk; cbn [read_pins]; [by eexists|].
  destruct (read_le_is_Some 32 4 data off 0) as [v ->]; [lia..|].
  destruct (read_le_is_Some 32 4 data (off + 4) 0) as [v' ->]; [lia..|]. simpl.
  destruct (IH (off + 8)) as [rest ->]; [lia..|]. by eexists.
Qed.

(** The parse of the fields of a well-formed snapshot. *)
Lemma read_fields s :
  snapshot_ok s →
  read_le 64 8 (serialize s) 0 0 = Some (epoch s) ∧
  read_le 32 4 (serialize s) 8 0 = Some (Z.of_nat (length (nodes s))) ∧
  read_nodes (length (nodes s)) (serialize s) 0 = Some (nodes s) ∧
  read_le 32 4 (serialize s) (12 + 4 * Z.of_nat (length (nodes s))) 0 =
    Some (Z.of_nat (length (snap_pins s))).
Proof.
  intros (He & Hn & Hp & Hln & Hlp). split_and!.
  - unfold serialize. rewrite <- (app_nil_l (push_le 8 _ ++ _)).
    rewrite (read_le_push_all 64 8); [by rewrite wrap_small|by apply wrap_range|lia|done].
  - unfold serialize. rewrite (read_le_push_all 32 4); [|by apply wrap_range|lia|].
    + rewrite wrap_small; [done|lia].
    + by rewrite length_push_le.
  - eapply (read_nodes_push _ _
      (push_le 8 (u64 (epoch s)) ++ push_le 4 (u32 (Z.of_nat (length (nodes s))))));
      [done|lia|lia|unfold serialize; by rewrite <- app_assoc|].
    by rewrite length_app, !length_push_le.
  - unfold serialize. rewrite !app_assoc, <- app_assoc.
    rewrite (read_le_push_all 32 4); [rewrite wrap_small by lia; done|by apply wrap_range|lia|].
    rewrite !length_app, !length_push_le, length_push_nodes. lia.
Qed.

(** ** Properties of the wire format *)

(** The wire format round-trips, and a truncated payload is never accepted
    as something else: it is rejected, except when it is cut exactly after the
    node list, where it reads as the node-only snapshot of older senders. *)
Theorem snapshot_roundtrip s k :
  snapshot_ok s → (k < length (serialize s))%nat →
  deserialize (serialize s) = Accepted s ∧
  deserialize (take k (serialize s)) =
    if (k =? 12 + 4 * length (nodes s))%nat
    then Accepted (mkSnapshot (epoch s) (nodes s) []) else Rejected.
Proof.
  intros Hok Hk. split; [by apply deserialize_serialize|].
  destruct (read_fields s Hok) as (He & Hc & Hn & Hp). destruct Hok as (_ & _ & _ & Hln & Hlp).
  rewrite length_serialize in Hk.
  assert (length (take k (serialize s)) = k) as Hlen by (rewrite length_take, length_serialize; lia).
  unfold deserialize. rewrite Hlen.
  destruct (Z.ltb_spec (Z.of_nat k) 12). { by rewrite (proj2 (Nat.eqb_neq _ _)) by lia. }
  rewrite !read_le_take, He, Hc by lia.
  rewrite (wrap_small 32 (_ * 4)), (wrap_small 32 (12 + _)) by lia.
  destruct (Z.ltb_spec (Z.of_nat k) (12 + Z.of_nat (length (nodes s)) * 4)).
  { by rewrite (proj2 (Nat.eqb_neq _ _)) by lia. }
  rewrite Nat2Z.id, read_nodes_take, Hn by lia. unfold deserialize_pins. rewrite Hlen.
  destruct (Z.eqb_spec (Z.of_nat k) (12 + Z.of_nat (length (nodes s)) * 4)).
  { by rewrite (proj2 (Nat.eqb_eq _ _)) by lia. }
  rewrite (proj2 (Nat.eqb_neq _ _)) by lia.
  destruct (Z.ltb_spec (Z.of_nat k) (12 + Z.of_nat (length (nodes s)) * 4 + 4)); [done|].
  rewrite read_le_take by lia. rewrite (Z.mul_comm _ 4), Hp.
  rewrite (wrap_small 32) by lia. by rewrite (proj2 (Z.ltb_lt _ _)) by lia.
Qed.

Lemma snapshot_roundtrip_witness :
  let s := mkSnapshot 7 [1; 2] [(5, 2)] in
  deserialize (serialize s) = Accepted s ∧ deserialize (take 20 (serialize s)) =
    if (20 =? 12 + 4 * length (nodes s))%nat
    then Accepted (mkSnapshot (epoch s) (nodes s) []) else Rejected.
Proof.
  apply snapshot_roundtrip; [|rewrite length_serialize; simpl; lia].
  unfold snapshot_ok. simpl. split_and!; [lia..| | |lia|lia]; repeat constructor; simpl; lia.
Defined.

(** Twelve bytes that announce 2^30 nodes: [12 + count * 4] wraps to 12. *)
Lemma deserialize_overflow e :
  deserialize (push_le 8 e ++ push_le 4 (2 ^ 30)) = OutOfBounds.
Proof.
  unfold deserialize. rewrite length_app, !length_push_le. simpl Z.of_nat.
  destruct (read_le_is_Some 64 8 (push_le 8 e ++ push_le 4 (2 ^ 30)) 0 0) as [v ->]; [done..|].
  change (12 <? 12) with false. cbv iota.
  rewrite <- (app_nil_r (push_le 4 _)), (read_le_push_all 32 4) by (rewrite ?length_push_le; lia).
  change (12 <? u32 (12 + u32 (2 ^ 30 * 4))) with false. cbv iota.
  replace (Z.to_nat (2 ^ 30)) with (S (Z.to_nat (2 ^ 30 - 1))) by lia.
  cbn [read_nodes]. change (u32 (12 + u32 (0 * 4))) with 12. cbn [read_le].
  rewrite lookup_ge_None_2; [done|]. rewrite !length_app, !length_push_le. simpl. lia.
Qed.

(** [deserialize] reads outside the buffer only when one of the two 32-bit
    size computations overflows: a node count of at least 2^30 - 3, or a pin
    count of at least 2^29. The witness is a 12-byte message that does. *)
Theorem deserialize_bounds data :
  Forall (λ b, 0 <= b < 2 ^ 8) data → deserialize data = OutOfBounds →
  ∃ count, read_le 32 4 data 8 0 = Some count ∧
    (2 ^ 30 - 3 <= count ∨
     ∃ pins, read_le 32 4 data (12 + 4 * count) 0 = Some pins ∧ 2 ^ 29 <= pins).
Proof.
  intros Hd. unfold deserialize.
  destruct (Z.ltb_spec (Z.of_nat (length data)) 12) as [|Hlen]; [done|].
  destruct (read_le_is_Some 64 8 data 0 0) as [e ->]; [lia..|].
  destruct (read_le_is_Some 32 4 data 8 0) as [count Hc]; [lia..|]. rewrite Hc.
  pose proof (read_le_32_range data 8 0 count Hd ltac:(lia) 4 Hc) as Hr.
  intros HO. exists count. split; [done|].
  destruct (Z.le_gt_cases (2 ^ 30 - 3) count); [by left|right]. revert HO.
  rewrite (wrap_small 32 (_ * 4)), (wrap_small 32 (12 + _)) by lia.
  destruct (Z.ltb_spec (Z.of_nat (length data)) (12 + count * 4)); [done|].
  destruct (read_nodes_is_Some (Z.to_nat count) data 0) as [ns ->]; [lia..|].
  unfold deserialize_pins. case_match; [done|].
  destruct (Z.ltb_spec (Z.of_nat (length data)) (12 + count * 4 + 4)); [done|].
  destruct (read_le_is_Some 32 4 data (12 + count * 4) 0) as [pins Hp]; [lia..|].
  rewrite Hp, (Z.mul_comm 4).
  pose proof (read_le_32_range data _ 0 pins Hd ltac:(lia) 4 Hp) as Hpr.
  destruct (Z.ltb_spec (Z.of_nat (length data)) (12 + count * 4 + 4 + u32 (pins * 8))); [done|].
  intros HO. exists pins. split; [done|]. apply Z.nlt_ge. intros Hlt.
  rewrite wrap_small in * by lia.
  destruct (read_pins_is_Some (Z.to_nat pins) data (12 + count * 4 + 4)) as [? Hx]; [lia..|].
  by rewrite Hx in HO.
Qed.

Lemma deserialize_bounds_witness :
  let data := push_le 8 1 ++ push_le 4 (2 ^ 30) in
  ∃ count, read_le 32 4 data 8 0 = Some count ∧
    (2 ^ 30 - 3 <= count ∨
     ∃ pins, read_le 32 4 data (12 + 4 * count) 0 = Some pins ∧ 2 ^ 29 <= pins).
Proof.
  apply deserialize_bounds; [|apply deserialize_overflow].
  vm_compute; repeat constructor; done.
Defined.

(** ** Properties of the protocol *)

Inductive proposal : Type :=
  | ProposeAdd (node : Z) | ProposeRemove (node : Z) | ProposePin (symbol node : Z).

Definition propose (send : Z → list Z → bool) (c : Consensus) (p : proposal) :=
  match p with
  | ProposeAdd n => propose_add send c n
  | ProposeRemove n => propose_remove send c n
  | ProposePin s n => propose_pin send c s n
  end.

Definition proposal_ok (p : proposal) : Prop :=
  match p with ProposeAdd n | ProposeRemove n => node_ok n | ProposePin s n => True end.

(** The coordinator's ring fits the wire format. *)
Definition wire_fits (c : Consensus) : Prop :=
  0 <= current_epoch c < 2 ^ 64 ∧
  Forall (λ p, 0 <= p.1 < 2 ^ 32 ∧ 0 <= p.2 < 2 ^ 32) (pinned_symbols (router_ c)) ∧
  12 + 4 * Z.of_nat (node_count (router_ c)) < 2 ^ 32 ∧
  8 * Z.of_nat (pinned_count (router_ c)) < 2 ^ 32.

Lemma take_snapshot_wf c :
  router_ok (router_ c) → wire_fits c →
  snapshot_wf (take_snapshot (current_epoch c) (router_ c)).
Proof.
  intros Hok (He & Hp & Hn & Hpc).
  assert (Forall node_ok (all_nodes (router_ c))) as Hnodes.
  { apply Forall_forall. unfold all_nodes. intros n ?%elem_of_elements. by apply Hok. }
  split; [|split; [done|apply NoDup_fst_map_to_list]].
  split; [done|]. split; [done|]. split; [done|]. split; [exact Hn|].
  simpl. unfold pinned_symbols. by rewrite length_map_to_list.
Qed.

Lemma shows_take_snapshot e r r' :
  shows r' (take_snapshot e r) → node_set_ r' = node_set_ r ∧ pinned_ r' = pinned_ r.
Proof.
  intros (_ & Hn & Hp). simpl in *. split.
  - rewrite Hn. unfold all_nodes. apply leibniz_equiv, list_to_set_elements.
  - rewrite Hp. apply list_to_map_to_list.
Qed.

Lemma propose_spec send c p :
  proposal_ok p → router_ok (router_ c) →
  let '(_, c', payload) := propose send c p in
  router_ok (router_ c') ∧ payload = serialize (take_snapshot (current_epoch c') (router_ c')) ∧
  current_epoch c' = u64 (current_epoch c + 1).
Proof.
  intros Hp Hok. destruct p as [n|n|s n]; simpl; (split; [|done]).
  - by apply router_ok_add.
  - by apply router_ok_remove.
  - by apply (router_ok_op _ (OpPin s n)).
Qed.

(** C23. A proposal converges: any follower whose last seen epoch is not newer
    applies the broadcast payload and then has the coordinator's members and
    pins and routes every symbol as the coordinator does; a follower that has
    seen a newer epoch rejects it and stays exactly as it was. *)
Theorem follower_converges send c f p :
  proposal_ok p → router_ok (router_ c) → router_ok (router_ f) →
  let '(_, c', payload) := propose send c p in
  wire_fits c' →
  (current_epoch c' < last_seen (token_ f) → apply_update f payload = Some (false, f)) ∧
  (last_seen (token_ f) <= current_epoch c' →
   ∃ f', apply_update f payload = Some (true, f') ∧
     node_set_ (router_ f') = node_set_ (router_ c') ∧
     pinned_ (router_ f') = pinned_ (router_ c') ∧
     ∀ s, (route (router_ f') s).1 = (route (router_ c') s).1).
Proof.
  intros Hp Hc Hf. pose proof (propose_spec send c p Hp Hc) as HS.
  destruct (propose send c p) as [[ok c'] payload]. destruct HS as (Hc' & -> & _).
  intros Hfit. pose proof (take_snapshot_wf c' Hc' Hfit) as Hwf.
  destruct (apply_update_wf f _ Hf Hwf) as [[Hlt Ha]|(Hle & f' & Ha & Hs & _)]; cbn [epoch] in *.
  - split; [done|]. simpl in Hlt. lia.
  - simpl in Hle. split; [lia|]. intros _. exists f'. split; [done|].
    destruct (shows_take_snapshot _ _ _ Hs) as [Hn Hpin]. split_and!; [done..|]. intros s.
    rewrite !route_answer_eq by (done || apply Hs). apply route_answer_determined; [apply Hs|done..].
Qed.

Lemma follower_converges_witness :
  let c := mkConsensus (add_node empty_router 1) (make_token 0) [2] in
  let f := mkConsensus empty_router (make_token 0) [] in
  let '(_, c', payload) := propose (λ _ _, true) c (ProposePin 7 2) in
  wire_fits c' ∧
  (wire_fits c' →
   (current_epoch c' < last_seen (token_ f) → apply_update f payload = Some (false, f)) ∧
   (last_seen (token_ f) <= current_epoch c' →
    ∃ f', apply_update f payload = Some (true, f') ∧
      node_set_ (router_ f') = node_set_ (router_ c') ∧
      pinned_ (router_ f') = pinned_ (router_ c') ∧
      ∀ s, (route (router_ f') s).1 = (route (router_ c') s).1)).
Proof.
  split.
  - unfold wire_fits. split_and!; [by vm_compute..| |by vm_compute|by vm_compute].
    replace (pinned_symbols _) with [(7, 2)] by (vm_compute; reflexivity).
    repeat constructor; simpl; lia.
  - apply (follower_converges (λ _ _, true) (mkConsensus (add_node empty_router 1) (make_token 0) [2])
      (mkConsensus empty_router (make_token 0) []) (ProposePin 7 2)); [done| |apply router_ok_empty].
    apply router_ok_add; [unfold node_ok; lia|apply router_ok_empty].
Defined.

(** A follower receives payloads one after the other. *)
Fixpoint apply_all (f : Consensus) (payloads : list (list Z)) : option Consensus :=
  match payloads with
  | [] => Some f
  | d :: rest => r ← apply_update f d; apply_all r.2 rest
  end.

Lemma apply_all_spec l g :
  Forall snapshot_wf l → router_ok (router_ g) →
  ∃ f', apply_all g (serialize <$> l) = Some f' ∧
    last_seen (token_ g) <= last_seen (token_ f') ∧
    Forall (λ s, epoch s <= last_seen (token_ f')) l ∧
    (f' = g ∧ Forall (λ s, epoch s < last_seen (token_ g)) l ∨
     ∃ s, s ∈ l ∧ shows (router_ f') s ∧ last_seen (token_ f') = epoch s).
Proof.
  revert g. induction l as [|s l IH]; intros g Hwf Hg.
  { exists g. split_and!; [done|lia|constructor|by left; split; [|constructor]]. }
  apply Forall_cons in Hwf as [Hs Hwf]. rewrite fmap_cons. cbn [apply_all].
  destruct (apply_update_wf g s Hg Hs) as [[Hlt ->]|(Hle & g' & -> & Hsh & Hls & _)]; simpl.
  - destruct (IH g Hwf Hg) as (f' & ? & ? & ? & Hor). exists f'. split_and!; [done..| |].
    + constructor; [lia|done].
    + destruct Hor as [[-> ?]|(s' & ? & ?)]; [left; split; [done|by constructor]|right].
      exists s'. split; [by right|done].
  - destruct (IH g' Hwf) as (f' & ? & ? & ? & Hor); [apply Hsh|].
    exists f'. split_and!; [done|lia|constructor; [lia|done]|]. right.
    destruct Hor as [[-> ?]|(s' & ? & ?)].
    + exists s. split_and!; [by left|done|done].
    + exists s'. split; [by right|done].
Qed.

(** Loss, reordering and repetition do not matter: a follower that receives
    payloads of the coordinator in any order, at least one of them not older
    than what it has seen, ends with the ring of the newest one received. *)
Theorem updates_any_order f received :
  router_ok (router_ f) → Forall snapshot_wf received →
  Exists (λ s, last_seen (token_ f) <= epoch s) received →
  ∃ f' s, apply_all f (serialize <$> received) = Some f' ∧ s ∈ received ∧
    Forall (λ s', epoch s' <= epoch s) received ∧
    shows (router_ f') s ∧ last_seen (token_ f') = epoch s.
Proof.
  intros Hf Hwf Hex.
  destruct (apply_all_spec received f Hwf Hf) as (f' & Ha & Hle & Hmax & Hor).
  apply Exists_exists in Hex as (s0 & Hs0 & Hge).
  destruct Hor as [[-> Hlt]|(s & Hs & Hsh & Hls)].
  - rewrite Forall_forall in Hlt. specialize (Hlt s0 Hs0). simpl in Hlt. lia.
  - exists f', s. split_and!; [done..| |done|done]. by rewrite <- Hls.
Qed.

Lemma updates_any_order_witness :
  let f := mkConsensus empty_router (make_token 0) [] in
  let received := [mkSnapshot 2 [1; 2] []; mkSnapshot 1 [1] [(7, 1)]] in
  ∃ f' s, apply_all f (serialize <$> received) = Some f' ∧ s ∈ received ∧
    Forall (λ s', epoch s' <= epoch s) received ∧
    shows (router_ f') s ∧ last_seen (token_ f') = epoch s.
Proof.
  apply updates_any_order.
  - apply router_ok_empty.
  - unfold snapshot_wf, snapshot_ok, node_ok.
    repeat first [apply Forall_nil_2 | apply Forall_cons_2 | split | apply NoDup_nil_2];
      simpl; (lia || apply NoDup_nil_2 || apply NoDup_singleton).
  - left. simpl. lia.
Defined.
