(* ===== verification/RingRace.v ===== *)
(** * Concurrent updates of the ring

    [EpochBroadcastConsensus] ([include/zeptodb/cluster/ring_consensus.h]) takes the
    router's mutex for each change and each reading of the router, and validates or
    advances the epoch outside it. The definitions of [RingConsensus] run a call from
    its first section to its last with no other call between them; here each section
    is a turn of its own, and a schedule is the list of the calls that get the turns. *)

From S2P Require Import Prelude.
From S2P Require Import Bytes.
From S2P Require Import PartitionRouter.
From S2P Require Import RouterFacts.
From S2P Require Import Fencing.
From S2P Require Import RingConsensus.
From stdpp Require Import base gmap sets list strings.
From Stdlib Require Import ZArith Lia.

Open Scope Z_scope.

(** The section a call enters next. [ApplyCheck] parses the payload and validates its
    epoch; [ApplyRing] rebuilds the router under its mutex. *)
Inductive ring_call : Type :=
  | ApplyCheck (data : list Z)
  | ApplyRing (snap : RingSnapshot)
  | ApplyDone (applied : bool)
  | ProposeChange (p : proposal)
  | ProposeEpoch
  | ProposeRead (epoch : Z)
  | ProposeSend (payload : list Z)
  | ProposeDone (acknowledged : bool) (payload : list Z).

Definition rebuild (snap : RingSnapshot) (r : PartitionRouter) : PartitionRouter :=
  pin_listed snap (unpin_missing snap (add_listed snap (remove_missing snap r))).

Definition change_router (p : proposal) (r : PartitionRouter) : PartitionRouter :=
  match p with
  | ProposeAdd n => add_node r n
  | ProposeRemove n => remove_node r n
  | ProposePin s n => pin_symbol r s n
  end.

Section Calls.
Context (send : Z → list Z → bool).

(** One section; [None] when the call is over, or reads outside its payload. *)
Definition section_of (c : Consensus) (call : ring_call) : option (Consensus * ring_call) :=
  match call with
  | ApplyCheck data =>
      match deserialize data with
      | OutOfBounds => None
      | Rejected => Some (c, ApplyDone false)
      | Accepted snap =>
          let '(ok, tok) := validate (token_ c) (epoch snap) in
          Some (mkConsensus (router_ c) tok (peers_ c), if ok : bool then ApplyRing snap else ApplyDone false)
      end
  | ApplyRing snap => Some (with_router c (rebuild snap (router_ c)), ApplyDone true)
  | ProposeChange p => Some (with_router c (change_router p (router_ c)), ProposeEpoch)
  | ProposeEpoch =>
      let '(e, tok) := advance (token_ c) in Some (mkConsensus (router_ c) tok (peers_ c), ProposeRead e)
  | ProposeRead e => Some (c, ProposeSend (serialize (take_snapshot e (router_ c))))
  | ProposeSend payload =>
      let failures := length (filter (λ id, send id payload = false) (peers_ c)) in
      Some (c, ProposeDone (failures =? 0)%nat payload)
  | ApplyDone _ | ProposeDone _ _ => None
  end.

Definition ring_turn (st : Consensus * list ring_call) (i : nat) : Consensus * list ring_call :=
  match st.2 !! i ≫= section_of st.1 with
  | Some (c, call) => (c, <[i := call]> st.2)
  | None => st
  end.
Definition run_calls (schedule : list nat) (st : Consensus * list ring_call) : Consensus * list ring_call :=
  foldl ring_turn st schedule.

(** ** A call that nobody interrupts *)

Lemma apply_alone c data :
  match apply_update c data with
  | Some (ok, c') => run_calls [0; 0]%nat (c, [ApplyCheck data]) = (c', [ApplyDone ok])
  | None => run_calls [0; 0]%nat (c, [ApplyCheck data]) = (c, [ApplyCheck data])
  end.
Proof.
  unfold apply_update, run_calls, ring_turn. destruct c as [r t ps]. cbn [foldl lookup list_lookup snd fst mbind option_bind].
  unfold section_of. destruct (deserialize data) as [snap| |] eqn:Hd; simpl; [|done|by rewrite Hd].
  by destruct (validate t (epoch snap)) as [[] tok].
Qed.

Lemma propose_alone c p :
  let '(ok, c', payload) := propose send c p in
  run_calls [0; 0; 0; 0]%nat (c, [ProposeChange p]) = (c', [ProposeDone ok payload]).
Proof. by destruct p. Qed.
End Calls.

(** ** Two updates at once *)

(** Both epochs pass the check before either router is rebuilt, and the older update
    is applied last: the follower has seen epoch 6 and routes by the ring of epoch 5. *)
Lemma older_update_applied_last :
  let f := mkConsensus empty_router (make_token 0) [] in
  let st := run_calls (λ _ _, true) [0; 1; 1; 0]%nat
    (f, [ApplyCheck (serialize (mkSnapshot 5 [1] [])); ApplyCheck (serialize (mkSnapshot 6 [2] []))]) in
  st.2 = [ApplyDone true; ApplyDone true] ∧ last_seen (token_ st.1) = 6 ∧ elements (node_set_ (router_ st.1)) = [1].
Proof. vm_compute. split_and!; reflexivity. Qed.
