(* ===== verification/HealthMonitor.v ===== *)
(** * HealthMonitor: node states driven by heartbeats and timeouts

    Models [include/zeptodb/cluster/health_monitor.h]. A method is one function
    on the record [HealthMonitor] when it runs alone; [inject_heartbeat] and
    [check_timeouts] release [state_mutex_] between their parts, so they are also
    given as sequences of atomic actions that threads interleave. Time points are
    nanoseconds of the steady clock and an argument of what reads the clock;
    whether a TCP connection to an address succeeds is the argument [connect],
    the registered rejoin callback the argument [rejoin] ([None] when there is
    none). The callbacks of [on_state_change] are called with every entry of the
    log [events_]. *)

From stdpp Require Import base gmap sets list fin_maps fin_sets strings relations.
From Stdlib Require Import ZArith Lia.
From S2P Require Import Prelude.

Open Scope Z_scope.

(** ** Data *)

Inductive NodeState : Type :=
  | UNKNOWN | JOINING | ACTIVE | SUSPECT | DEAD | LEAVING | REJOINING.

#[export] Instance NodeState_eq_dec : EqDecision NodeState.
Proof. solve_decision. Defined.

Record NodeAddress : Type := mkAddress {
  host : string;
  port : Z;
  addr_id : Z;
}.

Record HealthConfig : Type := mkHealthConfig {
  heartbeat_interval_ms : Z;
  suspect_timeout_ms : Z;
  dead_timeout_ms : Z;
  consecutive_misses_for_suspect : Z;
  enable_dead_rejoin : bool;
  fatal_on_bind_failure : bool;
}.

Definition default_health_config : HealthConfig :=
  mkHealthConfig 1000 3000 10000 3 true true.

Record HealthMonitor : Type := mkMonitor {
  config_ : HealthConfig;
  self_node_ : Z;
  running_ : bool;
  node_states_ : gmap Z NodeState;
  last_heartbeat_ : gmap Z Z;
  node_addresses_ : gmap Z NodeAddress;
  consecutive_misses_ : gmap Z Z;
  events_ : list (Z * NodeState * NodeState);
}.

Definition new_monitor (cfg : HealthConfig) : HealthMonitor :=
  mkMonitor cfg 0 false ∅ ∅ ∅ ∅ [].

Definition set_states (m : HealthMonitor) st hb ms : HealthMonitor :=
  mkMonitor (config_ m) (self_node_ m) (running_ m) st hb (node_addresses_ m) ms (events_ m).

Definition set_running (m : HealthMonitor) (b : bool) : HealthMonitor :=
  mkMonitor (config_ m) (self_node_ m) b (node_states_ m) (last_heartbeat_ m)
    (node_addresses_ m) (consecutive_misses_ m) (events_ m).

(** [it->second = new_state], and the callbacks that follow it. *)
Definition set_state_event (m : HealthMonitor) (n : Z) (old new : NodeState) ms : HealthMonitor :=
  mkMonitor (config_ m) (self_node_ m) (running_ m) (<[n := new]> (node_states_ m))
    (last_heartbeat_ m) (node_addresses_ m) ms (events_ m ++ [(n, old, new)]).

(** ** State transitions *)

Definition transition_state (m : HealthMonitor) (node : Z) (new_state : NodeState) : HealthMonitor :=
  match node_states_ m !! node with
  | None => m
  | Some old_state =>
      if decide (old_state = new_state) then m
      else set_state_event m node old_state new_state
        (if decide (new_state = ACTIVE) then <[node := 0]> (consecutive_misses_ m)
         else consecutive_misses_ m)
  end.

Definition rejoin_result (rejoin : option (Z → bool)) (node : Z) : bool :=
  match rejoin with Some cb => cb node | None => true end.

Definition handle_dead_rejoin (rejoin : option (Z → bool)) (m : HealthMonitor) (node : Z) :=
  let m := transition_state m node REJOINING in
  if rejoin_result rejoin node then transition_state m node ACTIVE else m.

(** ** Node management and queries *)

Definition add_node_locked (now : Z) (m : HealthMonitor) (peer : NodeAddress) : HealthMonitor :=
  let id := addr_id peer in
  let addrs := <[id := peer]> (node_addresses_ m) in
  match node_states_ m !! id with
  | Some _ => mkMonitor (config_ m) (self_node_ m) (running_ m) (node_states_ m)
                (last_heartbeat_ m) addrs (consecutive_misses_ m) (events_ m)
  | None => mkMonitor (config_ m) (self_node_ m) (running_ m) (<[id := JOINING]> (node_states_ m))
              (<[id := now]> (last_heartbeat_ m)) addrs
              (<[id := 0]> (consecutive_misses_ m)) (events_ m)
  end.

Definition add_peer (now : Z) (m : HealthMonitor) (peer : NodeAddress) : HealthMonitor :=
  add_node_locked now m peer.

Definition mark_leaving (m : HealthMonitor) (node : Z) : HealthMonitor :=
  transition_state m node LEAVING.

Definition set_self (now : Z) (m : HealthMonitor) (self : Z) : HealthMonitor :=
  mkMonitor (config_ m) self (running_ m) (<[self := ACTIVE]> (node_states_ m))
    (<[self := now]> (last_heartbeat_ m)) (node_addresses_ m)
    (<[self := 0]> (consecutive_misses_ m)) (events_ m).

(** [start]: [udp] tells whether the UDP socket could be created and bound. *)
Definition start (now : Z) (udp : bool) (m : HealthMonitor) (self : NodeAddress)
    (peers : list NodeAddress) : outcome unit * HealthMonitor :=
  if running_ m then (Returned (), m)
  else
    let m1 := set_self now (foldl (add_node_locked now) m peers) (addr_id self) in
    if negb udp && fatal_on_bind_failure (config_ m)
    then (Thrown "HealthMonitor: UDP bind failed", m1)
    else (Returned (), set_running m1 true).

Definition stop (m : HealthMonitor) : HealthMonitor := set_running m false.

Definition get_state (m : HealthMonitor) (node : Z) : NodeState :=
  default UNKNOWN (node_states_ m !! node).

Definition get_active_nodes (m : HealthMonitor) : list Z :=
  omap (λ p, if decide (p.2 = ACTIVE) then Some p.1 else None) (map_to_list (node_states_ m)).

Definition get_all_nodes (m : HealthMonitor) : list Z := (map_to_list (node_states_ m)).*1.

Definition get_consecutive_misses (m : HealthMonitor) (node : Z) : Z :=
  default 0 (consecutive_misses_ m !! node).

(** ** Heartbeats *)

(** The timestamp and the miss count are updated whatever the state. *)
Definition touch (now : Z) (m : HealthMonitor) (node : Z) : HealthMonitor :=
  set_states m (node_states_ m) (<[node := now]> (last_heartbeat_ m))
    (<[node := 0]> (consecutive_misses_ m)).

Definition inject_heartbeat (now : Z) (rejoin : option (Z → bool)) (m : HealthMonitor)
    (node : Z) : HealthMonitor :=
  let m := touch now m node in
  match node_states_ m !! node with
  | Some SUSPECT => transition_state m node ACTIVE
  | Some DEAD =>
      if enable_dead_rejoin (config_ m) then handle_dead_rejoin rejoin m node else m
  | Some JOINING | Some UNKNOWN => transition_state m node ACTIVE
  | Some _ => m
  | None => set_states m (<[node := ACTIVE]> (node_states_ m)) (last_heartbeat_ m)
              (<[node := 0]> (consecutive_misses_ m))
  end.

Definition simulate_timeout (now : Z) (m : HealthMonitor) (node age_ms : Z) : HealthMonitor :=
  set_states m (node_states_ m) (<[node := now - age_ms * 1000000]> (last_heartbeat_ m))
    (consecutive_misses_ m).

Definition simulate_consecutive_misses (m : HealthMonitor) (node count : Z) : HealthMonitor :=
  set_states m (node_states_ m) (last_heartbeat_ m) (<[node := count]> (consecutive_misses_ m)).

(** ** Timeouts *)

(** [duration_cast<milliseconds>] truncates towards zero. *)
Definition age_ms (now hb : Z) : Z := Z.quot (now - hb) 1000000.

Definition check_interval (cfg : HealthConfig) : Z :=
  let i := Z.min (heartbeat_interval_ms cfg)
             (if 0 <? consecutive_misses_for_suspect cfg
              then suspect_timeout_ms cfg / consecutive_misses_for_suspect cfg
              else heartbeat_interval_ms cfg) in
  if i =? 0 then 1 else i.

(** The nodes both loops of [check_timeouts] skip. *)
Definition skipped (m : HealthMonitor) (id : Z) (state : NodeState) : bool :=
  (id =? self_node_ m) || bool_decide (state = DEAD) || bool_decide (state = LEAVING) ||
  bool_decide (state = REJOINING).

(** The first loop: the miss count of one node. *)
Definition count_misses (now : Z) (m : HealthMonitor) (ms : gmap Z Z) (p : Z * NodeState) : gmap Z Z :=
  let '(id, state) := p in
  if skipped m id state then ms
  else match last_heartbeat_ m !! id with
  | None => ms
  | Some hb =>
      if check_interval (config_ m) <=? age_ms now hb
      then let expected := u32 (Z.quot (age_ms now hb) (check_interval (config_ m))) in
           if default 0 (ms !! id) <? expected then <[id := expected]> ms else ms
      else ms
  end.

Inductive decision : Type :=
  | Change (id : Z) (to : NodeState)
  | Probe (id : Z) (target : NodeAddress).

(** The second loop: what is decided for one node, under the new miss counts. *)
Definition decide_state (now : Z) (m : HealthMonitor) (p : Z * NodeState) : option decision :=
  let '(id, state) := p in
  if skipped m id state then None
  else match last_heartbeat_ m !! id with
  | None => None
  | Some hb =>
      match state with
      | ACTIVE | JOINING =>
          if (suspect_timeout_ms (config_ m) <=? age_ms now hb) &&
             (consecutive_misses_for_suspect (config_ m) <=? get_consecutive_misses m id)
          then Some (Change id SUSPECT) else None
      | SUSPECT =>
          if dead_timeout_ms (config_ m) <=? age_ms now hb
          then match node_addresses_ m !! id with
               | Some a => Some (Probe id a)
               | None => Some (Change id DEAD)
               end
          else None
      | _ => None
      end
  end.

(** The part of [check_timeouts] under [state_mutex_]. *)
Definition check_locked (now : Z) (m : HealthMonitor) : list decision * HealthMonitor :=
  let m := set_states m (node_states_ m) (last_heartbeat_ m)
             (foldl (count_misses now m) (consecutive_misses_ m) (map_to_list (node_states_ m))) in
  (omap (decide_state now m) (map_to_list (node_states_ m)), m).

(** The changes: the decided ones, then those whose probe failed. *)
Definition changes_of (connect : NodeAddress → bool) (ds : list decision) : list (Z * NodeState) :=
  omap (λ d, match d with Change id to => Some (id, to) | Probe _ _ => None end) ds ++
  omap (λ d, match d with
             | Probe id a => if connect a then None else Some (id, DEAD)
             | Change _ _ => None end) ds.

Definition check_timeouts (now : Z) (connect : NodeAddress → bool) (m : HealthMonitor) : HealthMonitor :=
  let '(ds, m) := check_locked now m in
  foldl (λ m c, transition_state m c.1 c.2) m (changes_of connect ds).

(** ** Threads

    A thread runs a list of actions; each action takes [state_mutex_] at most
    once, or calls the rejoin callback, and yields the actions that follow it. *)

Inductive action : Type :=
  | Heartbeat (node : Z)
  | Transition (node : Z) (to : NodeState)
  | RejoinCallback (node : Z)
  | Check.

Definition run_action (now : Z) (connect : NodeAddress → bool) (rejoin : option (Z → bool))
    (m : HealthMonitor) (a : action) : HealthMonitor * list action :=
  match a with
  | Heartbeat node =>
      let m := touch now m node in
      match node_states_ m !! node with
      | Some SUSPECT | Some JOINING | Some UNKNOWN => (m, [Transition node ACTIVE])
      | Some DEAD =>
          (m, if enable_dead_rejoin (config_ m)
              then [Transition node REJOINING; RejoinCallback node] else [])
      | Some _ => (m, [])
      | None => (set_states m (<[node := ACTIVE]> (node_states_ m)) (last_heartbeat_ m)
                   (<[node := 0]> (consecutive_misses_ m)), [])
      end
  | Transition node to => (transition_state m node to, [])
  | RejoinCallback node =>
      (m, if rejoin_result rejoin node then [Transition node ACTIVE] else [])
  | Check =>
      let '(ds, m) := check_locked now m in
      (m, (λ c, Transition c.1 c.2) <$> changes_of connect ds)
  end.

(** One thread on its own. *)
Inductive thread_step now connect rejoin : relation (HealthMonitor * list action) :=
  | thread_step_intro m a rest m' k :
      run_action now connect rejoin m a = (m', k) →
      thread_step now connect rejoin (m, a :: rest) (m', k ++ rest).

(** Threads that interleave; clock, network and callback are those of the moment. *)
Inductive hm_step : relation (HealthMonitor * list (list action)) :=
  | hm_step_intro now connect rejoin m ts i a rest m' k :
      ts !! i = Some (a :: rest) → run_action now connect rejoin m a = (m', k) →
      hm_step (m, ts) (m', <[i := k ++ rest]> ts).

(** ** The documented state machine *)

(** The transitions the header of the class lists, the departure of any node, and
    [JOINING -> SUSPECT], which the timeout check makes as well. *)
Definition allowed (from to : NodeState) : bool :=
  match from, to with
  | (JOINING | UNKNOWN), ACTIVE | JOINING, SUSPECT | ACTIVE, SUSPECT | SUSPECT, ACTIVE
  | SUSPECT, DEAD | DEAD, REJOINING | REJOINING, ACTIVE => true
  | _, LEAVING => true
  | _, _ => false
  end.

(** The state of [n] after [evs], when every event of [n] starts where the
    previous one ended. *)
Fixpoint follow (n : Z) (s : NodeState) (evs : list (Z * NodeState * NodeState)) : option NodeState :=
  match evs with
  | [] => Some s
  | (n', from, to) :: rest =>
      if n =? n' then if decide (from = s) then follow n to rest else None
      else follow n s rest
  end.

Lemma follow_app n s evs evs' : follow n s (evs ++ evs') = follow n s evs ≫= λ s', follow n s' evs'.
Proof.
  revert s. induction evs as [|[[n' from] to] evs IH]; intros s; simpl; [done|].
  repeat case_match; simpl; auto.
Qed.

(** [m'] extends the log of [m] with events that satisfy [P] and explain the new
    state of every node known in [m]. *)
Definition extends (P : NodeState → NodeState → Prop) (m m' : HealthMonitor) : Prop :=
  ∃ evs, events_ m' = events_ m ++ evs ∧ Forall (λ e, P e.1.2 e.2) evs ∧
    config_ m' = config_ m ∧
    ∀ n s, node_states_ m !! n = Some s →
      ∃ s', node_states_ m' !! n = Some s' ∧ follow n s evs = Some s'.

Lemma extends_same P m m' :
  events_ m' = events_ m → config_ m' = config_ m →
  (∀ n s, node_states_ m !! n = Some s → node_states_ m' !! n = Some s) → extends P m m'.
Proof.
  intros He Hc Hs. exists []. rewrite app_nil_r. split_and!; [done|constructor|done|].
  intros n s Hn. exists s. by rewrite (Hs n s Hn).
Qed.

Lemma extends_refl P m : extends P m m.
Proof. by apply extends_same. Qed.

Lemma extends_trans P m1 m2 m3 : extends P m1 m2 → extends P m2 m3 → extends P m1 m3.
Proof.
  intros (e1 & H1 & F1 & C1 & S1) (e2 & H2 & F2 & C2 & S2). exists (e1 ++ e2). split_and!.
  - by rewrite H2, H1, app_assoc.
  - by apply Forall_app_2.
  - congruence.
  - intros n s (s' & Hs' & Hf)%S1. destruct (S2 _ _ Hs') as (s'' & ? & ?). exists s''.
    split; [done|]. by rewrite follow_app, Hf.
Qed.

Lemma extends_transition (P : NodeState → NodeState → Prop) m n to :
  (∀ from, node_states_ m !! n = Some from → from ≠ to → P from to) →
  extends P m (transition_state m n to).
Proof.
  intros HP. unfold transition_state. destruct (node_states_ m !! n) as [from|] eqn:Hn;
    [|apply extends_refl]. case_decide as Hne; [apply extends_refl|].
  exists [(n, from, to)]. split_and!; [done|constructor; [by apply HP|constructor]|done|].
  intros n' s Hs. simpl. destruct (Z.eqb_spec n' n) as [->|Hnn].
  - exists to. rewrite lookup_insert, decide_True by done. split; [done|].
    rewrite decide_True by congruence. done.
  - exists s. by rewrite lookup_insert_ne by done.
Qed.

Lemma transition_state_lookup m n to :
  is_Some (node_states_ m !! n) → node_states_ (transition_state m n to) !! n = Some to.
Proof.
  intros [s Hs]. unfold transition_state. rewrite Hs. case_decide; [congruence|].
  simpl. by rewrite lookup_insert, decide_True.
Qed.

Lemma transition_state_lookup_ne m n n' to :
  n ≠ n' → node_states_ (transition_state m n' to) !! n = node_states_ m !! n.
Proof.
  intros Hne. unfold transition_state. destruct (node_states_ m !! n'); [|done].
  case_decide; [done|]. simpl. by rewrite lookup_insert_ne.
Qed.

(** ** The changes one check makes *)

Definition decision_id (d : decision) : Z := match d with Change id _ | Probe id _ => id end.

Lemma decide_state_id now m p d : decide_state now m p = Some d → decision_id d = p.1.
Proof.
  destruct p as [id state]. unfold decide_state. intros H.
  repeat case_match; simplify_eq; done.
Qed.

Lemma elem_of_changes_of connect ds id to :
  (id, to) ∈ changes_of connect ds ↔
  Change id to ∈ ds ∨ ∃ a, Probe id a ∈ ds ∧ connect a = false ∧ to = DEAD.
Proof.
  unfold changes_of. rewrite elem_of_app, !list_elem_of_omap. split.
  - intros [(d & Hd & Hm)|(d & Hd & Hm)]; destruct d; simplify_eq; [by left|].
    right. destruct (connect target) eqn:?; simplify_eq. eauto.
  - intros [Hd|(a & Hd & Hc & ->)]; [left|right]; eexists; (split; [exact Hd|]); [done|].
    simpl. by rewrite Hc.
Qed.

Lemma changes_of_ids connect ds :
  NoDup (decision_id <$> ds) → NoDup (changes_of connect ds).*1.
Proof.
  intros Hnd.
  assert (∀ (f : decision → option (Z * NodeState)),
    (∀ d x, f d = Some x → x.1 = decision_id d) → NoDup (omap f ds).*1) as Homap.
  { intros f Hf. eapply sublist_NoDup; [exact Hnd|]. clear Hnd.
    induction ds as [|d ds IH]; simpl; [constructor|].
    destruct (f d) as [x|] eqn:Hx; simpl; [|by apply sublist_cons].
    rewrite (Hf _ _ Hx). by apply sublist_skip. }
  unfold changes_of. rewrite fmap_app. apply NoDup_app. split_and!.
  - apply Homap. intros [] x ?; by simplify_eq.
  - intros id (x & -> & (d & Hd & Hx)%list_elem_of_omap)%list_elem_of_fmap
      (y & Hxy & (d' & Hd' & Hy)%list_elem_of_omap)%list_elem_of_fmap.
    destruct d as [i t|], d' as [|i' a]; simplify_eq. simpl in Hxy.
    destruct (connect a); simplify_eq. simpl in *. subst.
    apply list_elem_of_lookup in Hd as [j Hj], Hd' as [j' Hj'].
    assert (j = j') as <-; [|congruence].
    eapply NoDup_lookup; [exact Hnd|rewrite list_lookup_fmap, Hj; done|].
    by rewrite list_lookup_fmap, Hj'.
  - apply Homap. intros [] x ?; [done|]. by destruct (connect _); simplify_eq.
Qed.

(** Applying changes of distinct nodes. *)
Lemma apply_changes_spec (P : NodeState → NodeState → Prop) l m :
  NoDup l.*1 →
  (∀ id to from, (id, to) ∈ l → node_states_ m !! id = Some from → from ≠ to → P from to) →
  let m' := foldl (λ m c, transition_state m c.1 c.2) m l in
  extends P m m' ∧
  (∀ id to, (id, to) ∈ l → is_Some (node_states_ m !! id) → node_states_ m' !! id = Some to) ∧
  (∀ id, id ∉ l.*1 → node_states_ m' !! id = node_states_ m !! id).
Proof.
  revert m. induction l as [|[id to] l IH]; intros m Hnd HP; simpl.
  { split_and!; [apply extends_refl|by intros ?? ?%elem_of_nil|done]. }
  inversion Hnd as [|? ? Hid Hnd']; subst.
  assert (∀ id', id' ∈ l.*1 →
    node_states_ (transition_state m id to) !! id' = node_states_ m !! id') as Hsame.
  { intros id' Hin. apply transition_state_lookup_ne. by intros ->. }
  destruct (IH (transition_state m id to) Hnd') as (He & Hin & Hout).
  { intros id' to' from Hin. rewrite Hsame by (by apply (list_elem_of_fmap_2 fst) in Hin).
    apply HP. by right. }
  split_and!.
  - eapply extends_trans; [|exact He]. apply extends_transition. intros from. apply HP. by left.
  - intros id' to' [[= -> ->]|Hl]%elem_of_cons Hs.
    + rewrite Hout by done. by apply transition_state_lookup.
    + apply Hin; [done|]. by rewrite Hsame by (by apply (list_elem_of_fmap_2 fst) in Hl).
  - intros id' [Hne Hn]%not_elem_of_cons. rewrite Hout by done. by apply transition_state_lookup_ne.
Qed.

Lemma check_locked_spec now m ds m1 :
  check_locked now m = (ds, m1) →
  node_states_ m1 = node_states_ m ∧ last_heartbeat_ m1 = last_heartbeat_ m ∧
  config_ m1 = config_ m ∧ self_node_ m1 = self_node_ m ∧ events_ m1 = events_ m ∧
  node_addresses_ m1 = node_addresses_ m ∧
  NoDup (decision_id <$> ds) ∧
  ∀ d, d ∈ ds ↔ ∃ s, node_states_ m !! decision_id d = Some s ∧
    decide_state now m1 (decision_id d, s) = Some d.
Proof.
  unfold check_locked. intros [= <- <-]. simpl. set (m1 := set_states _ _ _ _).
  split_and!; try done.
  - eapply sublist_NoDup; [apply (NoDup_fst_map_to_list (node_states_ m))|].
    change (node_states_ m1) with (node_states_ m). clearbody m1.
    induction (map_to_list (node_states_ m)) as [|p l IH]; simpl; [constructor|].
    destruct (decide_state _ _ p) as [d|] eqn:Hd; simpl; [|by apply sublist_cons].
    rewrite (decide_state_id _ _ _ _ Hd). by apply sublist_skip.
  - intros d. rewrite list_elem_of_omap. split.
    + intros ([id s] & Hp%elem_of_map_to_list & Hd). exists s.
      by rewrite (decide_state_id _ _ _ _ Hd).
    + intros (s & Hs & Hd). exists (decision_id d, s). by rewrite elem_of_map_to_list.
Qed.

(** ** The verdict of a check *)

Lemma count_misses_ne now m ms p id : id ≠ p.1 → count_misses now m ms p !! id = ms !! id.
Proof.
  destruct p as [i s]. simpl. intros Hne. repeat case_match; try done.
  by rewrite lookup_insert_ne.
Qed.

Lemma count_misses_at now m ms ms' id s :
  ms !! id = ms' !! id → count_misses now m ms (id, s) !! id = count_misses now m ms' (id, s) !! id.
Proof.
  intros H. unfold count_misses. rewrite H. repeat case_match; try done.
  by rewrite !lookup_insert, !decide_True.
Qed.

Lemma count_misses_fold now m l ms id s :
  NoDup l.*1 → (id, s) ∈ l →
  foldl (count_misses now m) ms l !! id = count_misses now m ms (id, s) !! id.
Proof.
  revert ms. induction l as [|[i t] l IH]; intros ms Hnd; [by intros ?%elem_of_nil|].
  inversion Hnd as [|? ? Hi Hnd']; subst. intros [[= -> ->]|Hin]%elem_of_cons; cbn [foldl].
  - generalize (count_misses now m ms (i, t)). intros ms1. revert ms1 Hi. clear.
    induction l as [|p l IH]; intros ms1 Hi; [done|]. cbn [foldl].
    rewrite fmap_cons in Hi. apply not_elem_of_cons in Hi as [Hne Hi].
    rewrite IH by done. by apply count_misses_ne.
  - rewrite IH by done. apply count_misses_at, count_misses_ne. intros ->.
    apply Hi. by apply (list_elem_of_fmap_2 fst) in Hin.
Qed.

(** The timeouts a check is meant to apply, the number of misses aside. *)
Definition verdict (now : Z) (connect : NodeAddress → bool) (m : HealthMonitor) (id hb : Z)
    (s : NodeState) : NodeState :=
  match s with
  | ACTIVE | JOINING => if suspect_timeout_ms (config_ m) <=? age_ms now hb then SUSPECT else s
  | SUSPECT =>
      if (dead_timeout_ms (config_ m) <=? age_ms now hb) &&
         negb (from_option connect false (node_addresses_ m !! id)) then DEAD else s
  | _ => s
  end.

Definition timing_ok (cfg : HealthConfig) : Prop :=
  0 < heartbeat_interval_ms cfg ∧ 0 < consecutive_misses_for_suspect cfg ∧
  consecutive_misses_for_suspect cfg <= suspect_timeout_ms cfg.

(** A node as old as the suspect timeout has missed enough heartbeats. *)
Lemma enough_misses cfg age :
  timing_ok cfg → suspect_timeout_ms cfg <= age → age < 2 ^ 32 →
  check_interval cfg <= age ∧
  consecutive_misses_for_suspect cfg <= u32 (Z.quot age (check_interval cfg)).
Proof.
  intros (Hh & Hc & Hs) Ha Hb. unfold check_interval.
  rewrite (proj2 (Z.ltb_lt _ _)) by done.
  set (k := consecutive_misses_for_suspect cfg) in *. set (t := suspect_timeout_ms cfg) in *.
  assert (1 <= t / k) by (apply Z.div_le_lower_bound; lia).
  pose proof (Z.mul_div_le t k Hc).
  assert (t / k <= t) by (apply Z.div_le_upper_bound; nia).
  set (i := Z.min _ _). assert (1 <= i <= t / k) by lia.
  rewrite (proj2 (Z.eqb_neq i 0)) by lia. split; [lia|].
  rewrite Z.quot_div_nonneg by lia.
  assert (age / i <= age) by (apply Z.div_le_upper_bound; nia).
  assert (0 <= age / i) by (apply Z.div_pos; lia).
  rewrite wrap_small by lia. apply Z.div_le_lower_bound; nia.
Qed.

Lemma misses_after_check now m m1 ds id s hb :
  check_locked now m = (ds, m1) → node_states_ m !! id = Some s → skipped m id s = false →
  last_heartbeat_ m !! id = Some hb → timing_ok (config_ m) →
  suspect_timeout_ms (config_ m) <= age_ms now hb → age_ms now hb < 2 ^ 32 →
  consecutive_misses_for_suspect (config_ m) <= get_consecutive_misses m1 id.
Proof.
  unfold check_locked. intros [= _ <-] Hs Hsk Hhb Ht Ha Hb. unfold get_consecutive_misses. simpl.
  rewrite (count_misses_fold _ _ _ _ _ s);
    [|apply NoDup_fst_map_to_list|by apply elem_of_map_to_list].
  destruct (enough_misses _ _ Ht Ha Hb) as [Hi Hm]. unfold count_misses.
  rewrite Hsk, Hhb, (proj2 (Z.leb_le _ _)) by done. cbv zeta.
  destruct (Z.ltb_spec (default 0 (consecutive_misses_ m !! id))
    (u32 (Z.quot (age_ms now hb) (check_interval (config_ m))))).
  - by rewrite lookup_insert, decide_True.
  - etrans; [exact Hm|done].
Qed.

Lemma exists_Some {A} (o : option A) (Q : A → Prop) :
  (∃ d, o = Some d ∧ Q d) ↔ match o with Some d => Q d | None => False end.
Proof. destruct o; naive_solver. Qed.

Lemma transition_when_verdict now connect m m1 ds id s hb :
  check_locked now m = (ds, m1) → node_states_ m !! id = Some s → skipped m id s = false →
  last_heartbeat_ m !! id = Some hb → timing_ok (config_ m) → age_ms now hb < 2 ^ 32 →
  ∀ to, (id, to) ∈ changes_of connect ds ↔ to = verdict now connect m id hb s ∧ to ≠ s.
Proof.
  intros Hc Hs Hsk Hhb Ht Hb to.
  pose proof (misses_after_check now m m1 ds id s hb Hc Hs Hsk Hhb Ht) as Hm.
  destruct (check_locked_spec _ _ _ _ Hc) as (_ & Hh1 & Hc1 & Hs1 & _ & Ha1 & _ & Hds).
  assert (∀ d, d ∈ ds ∧ decision_id d = id ↔ decide_state now m1 (id, s) = Some d) as Hd.
  { intros d. rewrite Hds. split.
    - intros [(s' & ? & ?) <-]. congruence.
    - intros Hdd. pose proof (decide_state_id _ _ _ _ Hdd) as Hid. simpl in Hid.
      split; [|done]. rewrite Hid. eauto. }
  unfold decide_state, skipped in Hd. rewrite Hs1 in Hd.
  unfold skipped in Hsk. rewrite Hsk, Hh1, Hhb, Hc1, Ha1 in Hd.
  assert ((id, to) ∈ changes_of connect ds ↔
    ∃ d, (d ∈ ds ∧ decision_id d = id) ∧
      match d with Change _ t => to = t | Probe _ a => connect a = false ∧ to = DEAD end) as ->.
  { rewrite elem_of_changes_of. split.
    - intros [?|(a & ? & ? & ?)]; [exists (Change id to)|exists (Probe id a)]; done.
    - intros ([i t|i a] & [Hin Hid] & Hx); simpl in Hid; subst; [by left|]. destruct Hx. eauto. }
  setoid_rewrite Hd. rewrite exists_Some. unfold verdict.
  destruct s; try (split; [done|by intros [-> ?]]).
  - destruct (Z.leb_spec (suspect_timeout_ms (config_ m)) (age_ms now hb)); cbn [andb].
    + rewrite (proj2 (Z.leb_le _ _)) by (by apply Hm). split; [by intros ->|by intros [-> _]].
    + split; [done|by intros [-> ?]].
  - destruct (Z.leb_spec (suspect_timeout_ms (config_ m)) (age_ms now hb)); cbn [andb].
    + rewrite (proj2 (Z.leb_le _ _)) by (by apply Hm). split; [by intros ->|by intros [-> _]].
    + split; [done|by intros [-> ?]].
  - destruct (_ <=? _); [|split; [done|by intros [-> ?]]].
    destruct (node_addresses_ m !! id) as [a|]; simpl; [destruct (connect a)|]; simpl.
    + split; [by intros []|by intros [-> ?]].
    + split; [by intros [_ ->]|by intros [-> _]].
    + split; [by intros ->|by intros [-> _]].
Qed.

Lemma check_extends now connect m : extends allowed m (check_timeouts now connect m).
Proof.
  unfold check_timeouts. destruct (check_locked now m) as [ds m1] eqn:Hc.
  destruct (check_locked_spec _ _ _ _ Hc) as (Hn1 & _ & Hc1 & _ & He1 & _ & Hnd & Hds).
  apply (extends_trans _ _ m1); [apply extends_same; [done..|by rewrite Hn1]|].
  apply apply_changes_spec; [by apply changes_of_ids|].
  intros id to from Hin Hfrom Hne. rewrite Hn1 in Hfrom.
  apply elem_of_changes_of in Hin as [Hin|(a & Hin & _ & ->)];
    apply Hds in Hin as (s & Hs & Hd); simpl in *; simplify_eq;
    unfold decide_state in Hd; repeat case_match; simplify_eq; done.
Qed.

Lemma heartbeat_extends now rejoin m n : extends allowed m (inject_heartbeat now rejoin m n).
Proof.
  unfold inject_heartbeat. apply (extends_trans _ _ (touch now m n)); [by apply extends_same|].
  destruct (node_states_ (touch now m n) !! n) as [[]|] eqn:Hn; try apply extends_refl;
    try (apply extends_transition; naive_solver).
  - case_match; [|apply extends_refl]. unfold handle_dead_rejoin.
    apply (extends_trans _ _ (transition_state (touch now m n) n REJOINING));
      [apply extends_transition; naive_solver|].
    case_match; [|apply extends_refl]. apply extends_transition.
    rewrite transition_state_lookup by (by eexists). by intros ? [= <-].
  - apply extends_same; [done..|]. intros k s Hk. simpl in *.
    rewrite lookup_insert_ne; [done|]. congruence.
Qed.

Lemma check_timeouts_state now connect m id s hb :
  id ≠ self_node_ m → node_states_ m !! id = Some s → last_heartbeat_ m !! id = Some hb →
  timing_ok (config_ m) → age_ms now hb < 2 ^ 32 →
  node_states_ (check_timeouts now connect m) !! id = Some (verdict now connect m id hb s).
Proof.
  intros Hid Hs Hhb Ht Hb. unfold check_timeouts. destruct (check_locked now m) as [ds m1] eqn:Hc.
  destruct (check_locked_spec _ _ _ _ Hc) as (Hn1 & _ & _ & _ & _ & _ & Hnd & Hds).
  destruct (apply_changes_spec (λ _ _, True) (changes_of connect ds) m1) as (_ & Hin & Hout);
    [by apply changes_of_ids|done|].
  destruct (skipped m id s) eqn:Hsk.
  - rewrite Hout, Hn1, Hs.
    + unfold skipped in Hsk. rewrite (proj2 (Z.eqb_neq _ _)) in Hsk by done. by destruct s.
    + intros ((i & t) & -> & Hx)%list_elem_of_fmap. simpl in *.
      destruct (check_locked_spec _ _ _ _ Hc) as (_ & _ & _ & Hself & _).
      apply elem_of_changes_of in Hx as [Hx|(a & Hx & _)]; apply Hds in Hx as (s' & Hs' & Hd);
        simpl in *; simplify_eq; unfold skipped in Hd; rewrite Hself in Hd;
        unfold skipped in Hsk; by rewrite Hsk in Hd.
  - pose proof (transition_when_verdict now connect m m1 ds id s hb Hc Hs Hsk Hhb Ht Hb) as Hv.
    destruct (decide (verdict now connect m id hb s = s)) as [He|Hne].
    + rewrite Hout, Hn1, Hs, He; [done|]. intros ((i & t) & -> & Hx)%list_elem_of_fmap.
      apply Hv in Hx as [-> ?]. simpl in *. congruence.
    + apply Hin; [by apply Hv|]. by rewrite Hn1, Hs.
Qed.

(** ** Properties of a monitor whose methods run one at a time *)

Inductive hm_op : Type :=
  | OpHeartbeat (now : Z) (rejoin : option (Z → bool)) (node : Z)
  | OpCheck (now : Z) (connect : NodeAddress → bool)
  | OpLeave (node : Z)
  | OpAddPeer (now : Z) (peer : NodeAddress)
  | OpSimTimeout (now node age : Z)
  | OpSimMisses (node count : Z)
  | OpStop.

Definition run_hm (m : HealthMonitor) (op : hm_op) : HealthMonitor :=
  match op with
  | OpHeartbeat now rejoin n => inject_heartbeat now rejoin m n
  | OpCheck now connect => check_timeouts now connect m
  | OpLeave n => mark_leaving m n
  | OpAddPeer now p => add_peer now m p
  | OpSimTimeout now n age => simulate_timeout now m n age
  | OpSimMisses n c => simulate_consecutive_misses m n c
  | OpStop => stop m
  end.

(** The state machine: whatever methods run, in whatever order, the state
    of a known node only moves along the documented transitions, every move is
    reported to the callbacks in order, and the reported moves lead from its old
    state to its new one. *)
Theorem sequential_state_machine m ops :
  extends allowed m (foldl run_hm m ops).
Proof.
  revert m. induction ops as [|op ops IH]; intros m; [apply extends_refl|].
  apply (extends_trans _ _ (run_hm m op)); [|apply IH]. destruct op; simpl.
  - apply heartbeat_extends.
  - apply check_extends.
  - apply extends_transition. by intros [].
  - unfold add_peer, add_node_locked. destruct (node_states_ m !! addr_id peer) eqn:Hn;
      apply extends_same; try done. simpl. intros n s Hs. rewrite lookup_insert_ne; [done|congruence].
  - by apply extends_same.
  - by apply extends_same.
  - by apply extends_same.
Qed.

(** What a check decides, for every state and age: an active or joining
    node becomes suspect exactly when its last heartbeat is at least
    [suspect_timeout_ms] old, a suspect one dead exactly when it is at least
    [dead_timeout_ms] old and the TCP probe does not reach it; nothing else
    moves. The required number of consecutive misses never matters. *)
Theorem check_timeouts_verdict now connect m id s hb :
  id ≠ self_node_ m → node_states_ m !! id = Some s → last_heartbeat_ m !! id = Some hb →
  timing_ok (config_ m) → age_ms now hb < 2 ^ 32 →
  node_states_ (check_timeouts now connect m) !! id = Some (verdict now connect m id hb s).
Proof. apply check_timeouts_state. Qed.

Lemma check_timeouts_verdict_witness :
  let m := simulate_timeout 0 (inject_heartbeat 0 None (new_monitor default_health_config) 7) 7 3000 in
  node_states_ (check_timeouts 0 (λ _, false) m) !! 7 = Some (verdict 0 (λ _, false) m 7 (-3000000000) ACTIVE).
Proof.
  apply check_timeouts_verdict; by vm_compute.
Defined.

(** A failed rejoin is final: once a node is in [REJOINING], no sequence of
    heartbeats, checks and timeouts ever moves it again, whatever the rejoin
    callback would answer; only [mark_leaving] does. *)
Theorem rejoining_is_absorbing m n ops :
  node_states_ m !! n = Some REJOINING → Forall (λ op, op ≠ OpLeave n) ops →
  node_states_ (foldl run_hm m ops) !! n = Some REJOINING.
Proof.
  intros Hn Hops. revert m Hn. induction Hops as [|op ops Hop _ IH]; intros m Hn; [done|].
  apply IH. destruct op as [now rejoin k|now connect|k|now p|now k age|k c|]; simpl; try done.
  - unfold inject_heartbeat. simpl. destruct (decide (k = n)) as [->|Hk]; [by rewrite Hn|].
    unfold handle_dead_rejoin.
    repeat case_match; rewrite ?transition_state_lookup_ne by done; try done.
    simpl. by rewrite lookup_insert_ne by done.
  - unfold check_timeouts. destruct (check_locked now m) as [ds m1] eqn:Hc.
    destruct (check_locked_spec _ _ _ _ Hc) as (Hn1 & _ & _ & _ & _ & _ & Hnd & Hds).
    destruct (apply_changes_spec (λ _ _, True) (changes_of connect ds) m1) as (_ & _ & Hout);
      [by apply changes_of_ids|done|].
    rewrite Hout, Hn1; [done|]. intros ((i & t) & -> & Hx)%list_elem_of_fmap. simpl in *.
    apply elem_of_changes_of in Hx as [Hx|(a & Hx & _)]; apply Hds in Hx as (s' & Hs' & Hd);
      simpl in *; simplify_eq; unfold skipped in Hd; by rewrite orb_true_r in Hd.
  - unfold mark_leaving. rewrite transition_state_lookup_ne; [done|]. congruence.
  - unfold add_peer, add_node_locked. case_match; [done|]. simpl.
    rewrite lookup_insert_ne; [done|congruence].
Qed.

Lemma rejoining_is_absorbing_witness :
  let m := transition_state (inject_heartbeat 0 None (new_monitor default_health_config) 7) 7 DEAD in
  let m' := inject_heartbeat 1 (Some (λ _, false)) m 7 in
  node_states_ (foldl run_hm m' [OpHeartbeat 2 (Some (λ _, true)) 7; OpCheck 9 (λ _, true)]) !! 7 =
  Some REJOINING.
Proof. apply rejoining_is_absorbing; [by vm_compute|repeat constructor; done]. Defined.

(** ** Properties of interleaved threads *)

Lemma thread_next now connect rejoin m a rest m' k z :
  run_action now connect rejoin m a = (m', k) →
  rtc (thread_step now connect rejoin) (m', k ++ rest) z →
  rtc (thread_step now connect rejoin) (m, a :: rest) z.
Proof. intros Ha Hr. eapply rtc_l; [by constructor|done]. Qed.

(** The methods are the action sequences: a thread that runs without
    interference ends in the state the method computes. *)
Theorem thread_alone now connect rejoin m n :
  rtc (thread_step now connect rejoin) (m, [Heartbeat n]) (inject_heartbeat now rejoin m n, []) ∧
  rtc (thread_step now connect rejoin) (m, [Check]) (check_timeouts now connect m, []).
Proof.
  assert (∀ cs m0, rtc (thread_step now connect rejoin)
    (m0, (λ c : Z * NodeState, Transition c.1 c.2) <$> cs)
    (foldl (λ m c, transition_state m c.1 c.2) m0 cs, [])) as Htr.
  { induction cs as [|c cs IH]; intros m0; [done|].
    eapply thread_next; [done|]. apply IH. }
  split.
  - unfold inject_heartbeat. destruct (node_states_ (touch now m n) !! n) as [[]|] eqn:Hn;
      (eapply thread_next; [cbn [run_action]; rewrite Hn; done|]); rewrite ?app_nil_r;
      try done; try apply (Htr [(n, ACTIVE)]).
    destruct (enable_dead_rejoin _); [|done]. unfold handle_dead_rejoin.
    eapply thread_next; [done|]. eapply thread_next; [done|]. cbn [app]. rewrite app_nil_r.
    destruct (rejoin_result rejoin n); [apply (Htr [(n, ACTIVE)])|done].
  - unfold check_timeouts. destruct (check_locked now m) as [ds m1] eqn:Hc.
    eapply thread_next; [cbn [run_action]; by rewrite Hc|]. rewrite app_nil_r. apply Htr.
Qed.

(** However heartbeats, checks and departures interleave, the reported
    transitions of every known node form a chain from its old state to its
    new one: no change is lost or reported out of order. *)
Theorem interleaved_events_chain m ts m' ts' :
  rtc hm_step (m, ts) (m', ts') → extends (λ from to, from ≠ to) m m'.
Proof.
  intros Hr. remember (m, ts) as x eqn:Hx. remember (m', ts') as y eqn:Hy.
  revert m ts Hx. induction Hr as [x|x z y Hxz _ IH]; intros m ts ->; simplify_eq.
  { apply extends_refl. }
  inversion Hxz as [now connect rejoin ? ? i a rest m1 k Hi Ha]; subst.
  apply (extends_trans _ _ m1); [|by eapply IH]. clear IH. destruct a as [n|n to|n|]; simpl in Ha.
  - destruct (node_states_ m !! n) as [[]|] eqn:Hn; simplify_eq; try by apply extends_same.
    apply extends_same; [done..|]. simpl. intros k s Hk.
    rewrite lookup_insert_ne; [done|]. congruence.
  - simplify_eq. by apply extends_transition.
  - simplify_eq. apply extends_refl.
  - simplify_eq. by apply extends_same.
Qed.

Lemma interleaved_events_chain_witness :
  let m := inject_heartbeat 0 None (new_monitor default_health_config) 7 in
  extends (λ from to, from ≠ to) m (transition_state m 7 LEAVING).
Proof.
  set (m := inject_heartbeat 0 None (new_monitor default_health_config) 7).
  apply (interleaved_events_chain m [[Transition 7 LEAVING]] _ [[]]).
  apply rtc_once. by apply (hm_step_intro 0 (λ _, true) None m [[Transition 7 LEAVING]] 0
    (Transition 7 LEAVING) [] _ []).
Defined.

(** A suspect node that has been silent for ten seconds, known without address. *)
Definition silent_node : HealthMonitor :=
  transition_state
    (simulate_timeout 0 (inject_heartbeat 0 None (new_monitor default_health_config) 7) 7 10000)
    7 SUSPECT.

(** The lock is released between reading a state and moving it: when a
    heartbeat and a check interleave, a dead node becomes active again without
    passing [REJOINING], and the rejoin callback is never called. *)
Theorem rejoin_can_be_bypassed :
  ∃ m', rtc hm_step (silent_node, [[Heartbeat 7]; [Check]]) (m', [[]; []]) ∧
    events_ m' = events_ silent_node ++ [(7, SUSPECT, DEAD); (7, DEAD, ACTIVE)].
Proof.
  eexists. split.
  - eapply rtc_l.
    { by apply (hm_step_intro 0 (λ _, false) (Some (λ _, false)) _ _ 1 Check []). }
    eapply rtc_l.
    { by apply (hm_step_intro 0 (λ _, false) (Some (λ _, false)) _ _ 0 (Heartbeat 7) []). }
    eapply rtc_l.
    { by apply (hm_step_intro 0 (λ _, false) (Some (λ _, false)) _ _ 1 (Transition 7 DEAD) []). }
    eapply rtc_l.
    { by apply (hm_step_intro 0 (λ _, false) (Some (λ _, false)) _ _ 0 (Transition 7 ACTIVE) []). }
    match goal with |- rtc _ (_, ?ts) _ =>
      assert (ts = [[]; []]) as -> by (vm_compute; reflexivity) end. done.
  - by vm_compute.
Qed.
