(* ===== verification/CoordinatorHA.v ===== *)
(** * CoordinatorHA: the lease and the active/standby coordinator

    Models [K8sLease] of [include/zeptodb/cluster/k8s_lease.h] with its local
    simulation of a lease, and [CoordinatorHA] of [src/cluster/coordinator_ha.cpp].
    The lease's callbacks are those [CoordinatorHA::init] installs, so a lease
    operation is a function on the whole coordinator. The calls to the query
    coordinator, the peer connection and the promotion callback are the log
    [calls_]. Time points are nanoseconds of the steady clock; one iteration of a
    thread's loop is one operation. *)

From stdpp Require Import base gmap sets list fin_maps fin_sets strings relations sorting.
From Stdlib Require Import ZArith Lia.
From S2P Require Import Prelude.
From S2P Require Import HealthMonitor.
From S2P Require Import Fencing.

Open Scope Z_scope.

(** ** The lease *)

Record K8sLease : Type := mkLease {
  lease_duration_ms : Z;
  holder_id_ : string;
  token_ : FencingToken;
  is_leader_ : bool;
  lease_running_ : bool;
  current_holder_ : string;
  lease_expiry_ms_ : Z;
}.

Definition new_lease (duration : Z) : K8sLease :=
  mkLease duration "" (make_token 0) false false "" 0.

Definition steady_now_ms (now : Z) : Z := now / 1000000.

Definition set_holder (l : K8sLease) (tok : FencingToken) (leader : bool) (holder : string)
    (expiry : Z) : K8sLease :=
  mkLease (lease_duration_ms l) (holder_id_ l) tok leader (lease_running_ l) holder expiry.

(** [try_acquire] up to its callback: the answer, the lease, and whether
    [on_elected] is to be called. *)
Definition try_acquire_lease (now : Z) (l : K8sLease) : bool * K8sLease * bool :=
  let ms := steady_now_ms now in
  let expiry := u64 (ms + lease_duration_ms l) in
  if (bool_decide (current_holder_ l = ""%string) || (lease_expiry_ms_ l <=? ms))
  then if is_leader_ l
       then (true, set_holder l (token_ l) true (holder_id_ l) expiry, false)
       else (true, set_holder l (advance (token_ l)).2 true (holder_id_ l) expiry, true)
  else if bool_decide (current_holder_ l = holder_id_ l)
  then (true, set_holder l (token_ l) (is_leader_ l) (current_holder_ l) expiry, false)
  else (false, l, false).

(** ** The coordinator *)

Inductive CoordinatorRole : Type := RoleActive | RoleStandby.

#[export] Instance CoordinatorRole_eq_dec : EqDecision CoordinatorRole.
Proof. solve_decision. Defined.

(** The calls a coordinator makes to its collaborators. *)
Inductive call : Type :=
  | AddRemoteNode (addr : NodeAddress)
  | AddLocalNode (addr : NodeAddress)
  | RemoveNode (id : Z)
  | SetPeerEpoch (e : Z)
  | PromotionCallback.

Record CoordinatorHA : Type := mkHA {
  require_lease : bool;
  cfg_lease_duration_ms : Z;
  failover_after_ms : Z;
  role_ : CoordinatorRole;
  fencing_token_ : FencingToken;
  lease_ : option K8sLease;
  peer_rpc_ : bool;
  registered_nodes_ : list NodeAddress;
  ha_running_ : bool;
  last_pong_ : option Z; (** of the monitor thread, while it runs *)
  promotions_ : Z;
  calls_ : list call;
}.

Definition new_ha (need_lease : bool) (duration failover : Z) : CoordinatorHA :=
  mkHA need_lease duration failover RoleStandby (make_token 0) None false [] false None 0 [].

(** Field updates. *)
Definition set_lease (h : CoordinatorHA) (l : option K8sLease) : CoordinatorHA :=
  mkHA (require_lease h) (cfg_lease_duration_ms h) (failover_after_ms h) (role_ h)
    (fencing_token_ h) l (peer_rpc_ h) (registered_nodes_ h) (ha_running_ h) (last_pong_ h)
    (promotions_ h) (calls_ h).
Definition set_role (h : CoordinatorHA) (r : CoordinatorRole) : CoordinatorHA :=
  mkHA (require_lease h) (cfg_lease_duration_ms h) (failover_after_ms h) r
    (fencing_token_ h) (lease_ h) (peer_rpc_ h) (registered_nodes_ h) (ha_running_ h) (last_pong_ h)
    (promotions_ h) (calls_ h).
Definition set_threads (h : CoordinatorHA) (run : bool) (pong : option Z) : CoordinatorHA :=
  mkHA (require_lease h) (cfg_lease_duration_ms h) (failover_after_ms h) (role_ h)
    (fencing_token_ h) (lease_ h) (peer_rpc_ h) (registered_nodes_ h) run pong
    (promotions_ h) (calls_ h).
Definition set_nodes (h : CoordinatorHA) (ns : list NodeAddress) (c : call) : CoordinatorHA :=
  mkHA (require_lease h) (cfg_lease_duration_ms h) (failover_after_ms h) (role_ h)
    (fencing_token_ h) (lease_ h) (peer_rpc_ h) ns (ha_running_ h) (last_pong_ h)
    (promotions_ h) (calls_ h ++ [c]).

Definition holds_lease (h : CoordinatorHA) : bool :=
  match lease_ h with Some l => is_leader_ l | None => false end.

(** [lease_ && !lease_->is_leader()] *)
Definition needs_lease (h : CoordinatorHA) : bool :=
  match lease_ h with Some l => negb (is_leader_ l) | None => false end.

(** ** Promotion *)

(** [try_promote] after the lease check. *)
Definition promote (h : CoordinatorHA) : CoordinatorHA :=
  let '(new_epoch, tok) := advance (fencing_token_ h) in
  mkHA (require_lease h) (cfg_lease_duration_ms h) (failover_after_ms h) RoleActive tok
    (lease_ h) (peer_rpc_ h) (registered_nodes_ h) (ha_running_ h) (last_pong_ h)
    (promotions_ h + 1)
    (calls_ h ++ (if peer_rpc_ h then [SetPeerEpoch new_epoch] else []) ++
     (AddRemoteNode <$> registered_nodes_ h) ++ [PromotionCallback]).

(** [try_promote] acquires the lease, whose [on_elected] callback may promote in
    turn; [fuel] bounds that recursion. *)
Fixpoint try_promote (fuel : nat) (now : Z) (h : CoordinatorHA) : bool * CoordinatorHA :=
  match fuel with
  | O => (false, h)
  | S fuel' =>
      match lease_ h with
      | None => (true, promote h)
      | Some l =>
          if is_leader_ l then (true, promote h)
          else
            let '(ok, l', elected) := try_acquire_lease now l in
            let h := set_lease h (Some l') in
            let h := if elected && bool_decide (role_ h = RoleStandby)
                     then (try_promote fuel' now h).2 else h in
            if ok then (true, promote h) else (false, h)
      end
  end.

Definition promotion_fuel : nat := 2.

(** [on_elected] and [on_lost], as [init] defines them. *)
Definition on_elected (now : Z) (h : CoordinatorHA) : CoordinatorHA :=
  if decide (role_ h = RoleStandby) then (try_promote promotion_fuel now h).2 else h.

Definition on_lost (h : CoordinatorHA) : CoordinatorHA :=
  if decide (role_ h = RoleActive) then set_role h RoleStandby else h.

(** The lease's methods, with the callbacks. *)
Definition try_acquire (now : Z) (h : CoordinatorHA) : bool * CoordinatorHA :=
  match lease_ h with
  | None => (false, h)
  | Some l =>
      let '(ok, l', elected) := try_acquire_lease now l in
      let h := set_lease h (Some l') in
      (ok, if elected then on_elected now h else h)
  end.

Definition release (h : CoordinatorHA) : CoordinatorHA :=
  match lease_ h with
  | Some l =>
      if is_leader_ l
      then on_lost (set_lease h (Some (set_holder l (token_ l) false "" (lease_expiry_ms_ l))))
      else h
  | None => h
  end.

Definition force_holder (now : Z) (other_id : string) (h : CoordinatorHA) : CoordinatorHA :=
  match lease_ h with
  | Some l =>
      let expiry := u64 (steady_now_ms now + lease_duration_ms l) in
      if bool_decide (holder_id_ l ≠ other_id) && is_leader_ l
      then on_lost (set_lease h (Some (set_holder l (token_ l) false other_id expiry)))
      else set_lease h (Some (set_holder l (token_ l) (is_leader_ l) other_id expiry))
  | None => h
  end.

(** One iteration of [lease_loop]. *)
Definition lease_tick (now : Z) (h : CoordinatorHA) : CoordinatorHA :=
  match lease_ h with
  | Some l =>
      if lease_running_ l then
        if is_leader_ l then
          let '(renewed, h) := try_acquire now h in
          if renewed then h
          else match lease_ h with
               | Some l => on_lost (set_lease h (Some (set_holder l (token_ l) false
                             (current_holder_ l) (lease_expiry_ms_ l))))
               | None => h
               end
        else (try_acquire now h).2
      else h
  | None => h
  end.

(** ** Life cycle *)

Definition init (role : CoordinatorRole) (h : CoordinatorHA) : CoordinatorHA :=
  let h := mkHA (require_lease h) (cfg_lease_duration_ms h) (failover_after_ms h) role
    (fencing_token_ h)
    (if require_lease h then Some (new_lease (cfg_lease_duration_ms h)) else lease_ h)
    true (registered_nodes_ h) (ha_running_ h) (last_pong_ h) (promotions_ h) (calls_ h) in
  match role with
  | RoleActive =>
      let '(e, tok) := advance (fencing_token_ h) in
      mkHA (require_lease h) (cfg_lease_duration_ms h) (failover_after_ms h) role tok
        (lease_ h) true (registered_nodes_ h) (ha_running_ h) (last_pong_ h) (promotions_ h)
        (calls_ h ++ [SetPeerEpoch e])
  | RoleStandby => h
  end.

Definition start_lease (holder : string) (l : K8sLease) : K8sLease :=
  if lease_running_ l then l
  else mkLease (lease_duration_ms l) holder (token_ l) (is_leader_ l) true
         (current_holder_ l) (lease_expiry_ms_ l).

Definition stop_lease (l : K8sLease) : K8sLease :=
  mkLease (lease_duration_ms l) (holder_id_ l) (token_ l) (is_leader_ l) false
    (current_holder_ l) (lease_expiry_ms_ l).

Definition start (now : Z) (holder : string) (h : CoordinatorHA) : CoordinatorHA :=
  if ha_running_ h then h
  else set_threads (set_lease h (start_lease holder <$> lease_ h)) true
         (if decide (role_ h = RoleStandby) then Some now else last_pong_ h).

Definition stop (h : CoordinatorHA) : CoordinatorHA :=
  if ha_running_ h
  then set_threads (set_lease h (stop_lease <$> lease_ h)) false None
  else h.

(** One iteration of [monitor_loop] after its sleep; [pong] is the answer of
    [peer_rpc_->ping()]. *)
Definition monitor_tick (now : Z) (pong : bool) (h : CoordinatorHA) : CoordinatorHA :=
  match last_pong_ h with
  | None => h
  | Some last =>
      if decide (role_ h = RoleStandby) then
        if peer_rpc_ h && pong then set_threads h (ha_running_ h) (Some now)
        else if failover_after_ms h <=? Z.quot (now - last) 1000000 then
          let '(ok, h) := try_promote promotion_fuel now h in
          set_threads h (ha_running_ h) (if ok then None else Some now)
        else h
      else h
  end.

(** ** Node registry and queries *)

Definition add_remote_node (addr : NodeAddress) (h : CoordinatorHA) : CoordinatorHA :=
  set_nodes h (registered_nodes_ h ++ [addr]) (AddRemoteNode addr).

Definition add_local_node (addr : NodeAddress) (h : CoordinatorHA) : CoordinatorHA :=
  set_nodes h (registered_nodes_ h ++ [addr]) (AddLocalNode addr).

Definition remove_node (id : Z) (h : CoordinatorHA) : CoordinatorHA :=
  set_nodes h (filter (λ a, addr_id a ≠ id) (registered_nodes_ h)) (RemoveNode id).

(** Where [execute_sql] sends a query. *)
Inductive sql_target : Type := LocalCoordinator | PeerCoordinator | NoPeerError.

Definition execute_sql (h : CoordinatorHA) : sql_target :=
  if decide (role_ h = RoleActive) then LocalCoordinator
  else if peer_rpc_ h then PeerCoordinator else NoPeerError.

(** ** Runs *)

Inductive ha_op : Type :=
  | OpStart (now : Z) (holder : string) | OpStop
  | OpMonitor (now : Z) (pong : bool)
  | OpLease (now : Z)
  | OpAcquire (now : Z) | OpRelease | OpForce (now : Z) (other : string)
  | OpAddRemote (addr : NodeAddress) | OpAddLocal (addr : NodeAddress) | OpRemove (id : Z).

Definition run_ha (h : CoordinatorHA) (op : ha_op) : CoordinatorHA :=
  match op with
  | OpStart now holder => start now holder h
  | OpStop => stop h
  | OpMonitor now pong => monitor_tick now pong h
  | OpLease now => lease_tick now h
  | OpAcquire now => (try_acquire now h).2
  | OpRelease => release h
  | OpForce now other => force_holder now other h
  | OpAddRemote a => add_remote_node a h
  | OpAddLocal a => add_local_node a h
  | OpRemove id => remove_node id h
  end.

(** ** The lease and the role *)

(** [init] as a standby, then [start]. *)
Definition booted (need_lease : bool) (duration failover now : Z) (holder : string) : CoordinatorHA :=
  start now holder (init RoleStandby (new_ha need_lease duration failover)).

(** The coordinator is active exactly when its lease says it leads, and a lease
    it does not lead is not recorded under its own name. *)
Definition lease_inv (holder : string) (h : CoordinatorHA) : Prop :=
  ∃ l, lease_ h = Some l ∧ holder_id_ l = holder ∧
    (role_ h = RoleActive ↔ is_leader_ l = true) ∧
    (is_leader_ l = false → current_holder_ l ≠ holder).

(** Nobody else takes the lease under our name, and the identity is kept. *)
Definition foreign (holder : string) (op : ha_op) : Prop :=
  match op with OpStart _ _ => False | OpForce _ other => other ≠ holder | _ => True end.

(** What an acquisition does to a lease we do not lead. *)
Lemma try_acquire_lease_spec now l ok l' elected :
  try_acquire_lease now l = (ok, l', elected) → is_leader_ l = false →
  current_holder_ l ≠ holder_id_ l →
  holder_id_ l' = holder_id_ l ∧
  ((ok = true ∧ elected = true ∧ is_leader_ l' = true) ∨
   (ok = false ∧ elected = false ∧ l' = l)).
Proof.
  unfold try_acquire_lease. intros H Hl Hh. rewrite Hl in H.
  rewrite (bool_decide_eq_false_2 (current_holder_ l = holder_id_ l)) in H by done.
  destruct (_ || _) in H; simplify_eq; naive_solver.
Qed.

Lemma try_promote_leads fuel now h l :
  lease_ h = Some l → is_leader_ l = true → try_promote (S fuel) now h = (true, promote h).
Proof. intros Hl Hd. simpl. by rewrite Hl, Hd. Qed.

Lemma on_elected_inv holder now h l :
  holder_id_ l = holder → is_leader_ l = true → role_ h = RoleStandby →
  on_elected now (set_lease h (Some l)) = promote (set_lease h (Some l)).
Proof.
  intros Hh Hl Hr. unfold on_elected. rewrite decide_True by done.
  unfold promotion_fuel. by rewrite (try_promote_leads 1 now _ l).
Qed.

Lemma promote_inv holder h l :
  lease_ h = Some l → holder_id_ l = holder → is_leader_ l = true → lease_inv holder (promote h).
Proof. intros Hl Hh Hd. exists l. split_and!; [done|done|by rewrite Hd|congruence]. Qed.

Lemma try_acquire_inv holder now h : lease_inv holder h → lease_inv holder (try_acquire now h).2.
Proof.
  intros (l & Hl & Hh & Hr & Hn). unfold try_acquire. rewrite Hl.
  destruct (try_acquire_lease now l) as [[ok l'] elected] eqn:Ha.
  destruct (is_leader_ l) eqn:Hd.
  - unfold try_acquire_lease in Ha. rewrite Hd in Ha.
    exists l'. destruct (_ || _) in Ha; [|case_bool_decide]; simplify_eq; simpl; rewrite ?Hd;
      (split_and!; [done|done|by rewrite Hr|done]).
  - assert (current_holder_ l ≠ holder_id_ l) by (rewrite Hh; by apply Hn).
    destruct (try_acquire_lease_spec _ _ _ _ _ Ha Hd) as (Hh' & [(-> & -> & Hd')|(-> & -> & ->)]); [done| |].
    + assert (role_ h = RoleStandby) as Hs by (destruct (role_ h); naive_solver).
      cbn [snd]. rewrite (on_elected_inv holder) by congruence. by eapply promote_inv; [done|congruence|].
    + simpl. exists l. by rewrite Hd.
Qed.

Lemma try_promote_inv holder now h :
  lease_inv holder h → role_ h = RoleStandby → lease_inv holder (try_promote promotion_fuel now h).2.
Proof.
  intros (l & Hl & Hh & Hr & Hn) Hs.
  assert (is_leader_ l = false) as Hd.
  { destruct (is_leader_ l); [|done]. by rewrite (proj2 Hr eq_refl) in Hs. }
  assert (current_holder_ l ≠ holder_id_ l) by (rewrite Hh; by apply Hn).
  unfold promotion_fuel. cbn [try_promote]. rewrite Hl, Hd.
  destruct (try_acquire_lease now l) as [[ok l'] elected] eqn:Ha.
  destruct (try_acquire_lease_spec _ _ _ _ _ Ha Hd) as (Hh' & [(-> & -> & Hd')|(-> & -> & ->)]); [done| |].
  - simpl. rewrite Hs, bool_decide_true, Hd' by done. simpl. by eapply promote_inv; [done|congruence|].
  - simpl. by exists l.
Qed.

Lemma lost_inv holder h l tok hold e :
  holder_id_ l = holder → hold ≠ holder →
  lease_inv holder (on_lost (set_lease h (Some (set_holder l tok false hold e)))).
Proof.
  intros Hh Hne. unfold on_lost. simpl. destruct (role_ h) eqn:Hr; simpl.
  all: eexists; split; [done|]; simpl; rewrite ?Hr; naive_solver.
Qed.

Lemma lease_inv_op holder op h :
  holder ≠ ""%string → foreign holder op → lease_inv holder h → lease_inv holder (run_ha h op).
Proof.
  intros Hne Hf Hinv. pose proof Hinv as (l & Hl & Hh & Hr & Hn).
  destruct op as [| |now pong|now|now| |now other|a|a|id]; simpl; try done.
  - unfold stop. destruct (ha_running_ h); [|done]. rewrite Hl. simpl. by eexists.
  - unfold monitor_tick. destruct (last_pong_ h) as [last|]; [|done].
    destruct (decide (role_ h = RoleStandby)) as [Hs|]; [|done].
    destruct (_ && _); [done|]. destruct (_ <=? _); [|done].
    pose proof (try_promote_inv holder now h Hinv Hs) as Hp.
    by destruct (try_promote promotion_fuel now h) as [ok h'].
  - unfold lease_tick. rewrite Hl. destruct (lease_running_ l); [|done].
    pose proof (try_acquire_inv holder now h Hinv) as Hp.
    destruct (is_leader_ l) eqn:Hd; [|done].
    destruct (try_acquire now h) as [renewed h'] eqn:Ha. destruct renewed; [done|].
    unfold try_acquire in Ha. rewrite Hl in Ha. unfold try_acquire_lease in Ha. rewrite Hd in Ha.
    destruct (_ || _) in Ha; simplify_eq. case_bool_decide as Hc; simplify_eq. simpl.
    apply lost_inv; congruence.
  - by apply try_acquire_inv.
  - unfold release. rewrite Hl. destruct (is_leader_ l); [|done]. apply lost_inv; congruence.
  - simpl in Hf. unfold force_holder. rewrite Hl, Hh, bool_decide_true by congruence. simpl.
    destruct (is_leader_ l) eqn:Hd; [by apply lost_inv|].
    exists (set_holder l (token_ l) false other (u64 (steady_now_ms now + lease_duration_ms l))).
    simpl. naive_solver.
Qed.

(** With [require_lease], a coordinator booted as a standby is active
    exactly while it leads the lease, after any sequence of monitor and lease
    iterations, step-downs, take-overs by others and registry changes. *)
Theorem active_iff_leader duration failover now holder ops :
  holder ≠ ""%string → Forall (foreign holder) ops →
  let h := foldl run_ha (booted true duration failover now holder) ops in
  role_ h = RoleActive ↔ holds_lease h = true.
Proof.
  intros Hne Hf. cbv zeta.
  assert (∀ h, lease_inv holder h → Forall (foreign holder) ops →
    lease_inv holder (foldl run_ha h ops)) as Hrun.
  { clear Hf. induction ops as [|op ops IH]; intros h Hh Hf; [done|].
    apply Forall_cons in Hf as [Hop Hf]. apply IH; [|done]. by apply lease_inv_op. }
  destruct (Hrun (booted true duration failover now holder)) as (l & Hl & _ & Hr & _); [|done|].
  - eexists. split; [done|]. simpl. naive_solver.
  - unfold holds_lease. by rewrite Hl.
Qed.

Lemma active_iff_leader_witness :
  let h := foldl run_ha (booted true 15000 2000 0 "a") [OpMonitor 3000000000 false; OpForce 3000000000 "b"] in
  role_ h = RoleActive ↔ holds_lease h = true.
Proof. apply active_iff_leader; [done|repeat constructor; done]. Defined.

(** ** Termination of the promotion *)

(** The recursion through [on_elected] ends: two levels are enough, so the
    promotion returns for every state and clock. *)
Theorem promotion_terminates fuel now h :
  (2 <= fuel)%nat → try_promote fuel now h = try_promote promotion_fuel now h.
Proof.
  unfold promotion_fuel. intros Hfuel. destruct fuel as [|[|fuel]]; [lia..|].
  cbn [try_promote]. destruct (lease_ h) as [l|] eqn:Hl; [|done].
  destruct (is_leader_ l) eqn:Hd; [done|].
  destruct (try_acquire_lease now l) as [[ok l'] elected] eqn:Ha. cbn [lease_ set_lease].
  destruct elected; [|done].
  assert (is_leader_ l' = true) as ->; [|done].
  unfold try_acquire_lease in Ha. rewrite Hd in Ha.
  destruct (_ || _) in Ha; [by simplify_eq|]. case_bool_decide; simplify_eq.
Qed.

Lemma promotion_terminates_witness :
  let h := set_lease (new_ha true 15000 2000) (Some (new_lease 15000)) in
  try_promote 9 0 h = try_promote promotion_fuel 0 h.
Proof. apply promotion_terminates. lia. Defined.

(** ** Epochs *)

(** The epochs announced to the peer, in order. *)
Definition announced (cs : list call) : list Z :=
  omap (λ c, match c with SetPeerEpoch e => Some e | _ => None end) cs.

#[export] Instance call_eq_dec : EqDecision call.
Proof.
  assert (EqDecision NodeAddress) by solve_decision. solve_decision.
Defined.

Definition promotion_callbacks (cs : list call) : Z :=
  Z.of_nat (length (filter (λ c, c = PromotionCallback) cs)).

Definition ha_epoch (h : CoordinatorHA) : Z := current (fencing_token_ h).

(** [h'] is [h] after at most [k] promotions. *)
Definition advances (k : Z) (h h' : CoordinatorHA) : Prop :=
  0 <= k ∧ (0 <= ha_epoch h → ha_epoch h + k < 2 ^ 64 →
    ha_epoch h <= ha_epoch h' <= ha_epoch h + k ∧
    ∃ cs, calls_ h' = calls_ h ++ cs ∧
      StronglySorted Z.lt (announced cs) ∧
      Forall (λ e, ha_epoch h < e <= ha_epoch h') (announced cs) ∧
      promotions_ h' = promotions_ h + promotion_callbacks cs).

Lemma advances_same h h' :
  fencing_token_ h' = fencing_token_ h → calls_ h' = calls_ h → promotions_ h' = promotions_ h →
  advances 0 h h'.
Proof.
  unfold advances, ha_epoch. intros -> -> ->. split; [done|]. intros _ _. split; [lia|]. exists [].
  rewrite app_nil_r. split_and!; [done|constructor|constructor|]. unfold promotion_callbacks. simpl. lia.
Qed.

Lemma advances_call h h' c :
  fencing_token_ h' = fencing_token_ h → calls_ h' = calls_ h ++ [c] →
  promotions_ h' = promotions_ h → announced [c] = [] → c ≠ PromotionCallback → advances 0 h h'.
Proof.
  unfold advances, ha_epoch. intros -> -> -> Ha Hc. split; [done|]. intros _ _. split; [lia|].
  exists [c]. rewrite Ha. split_and!; [done|constructor|constructor|].
  unfold promotion_callbacks. rewrite filter_cons_False by done. simpl. lia.
Qed.

Lemma advances_trans k1 k2 h1 h2 h3 :
  advances k1 h1 h2 → advances k2 h2 h3 → advances (k1 + k2) h1 h3.
Proof.
  intros [Hk1 H1] [Hk2 H2]. split; [lia|]. intros H0 Hb.
  destruct H1 as (? & cs1 & Hc1 & Hs1 & Hf1 & Hp1); [lia..|].
  destruct H2 as (? & cs2 & Hc2 & Hs2 & Hf2 & Hp2); [lia..|]. split; [lia|].
  exists (cs1 ++ cs2). unfold announced in *. rewrite omap_app. split_and!.
  - by rewrite Hc2, Hc1, app_assoc.
  - apply StronglySorted_app. split_and!; [|done|done]. intros x y Hx Hy.
    rewrite Forall_forall in Hf1, Hf2. specialize (Hf1 x Hx). specialize (Hf2 y Hy). simpl in *. lia.
  - apply Forall_app. split; eapply Forall_impl; [exact Hf1|simpl; lia|exact Hf2|simpl; lia].
  - unfold promotion_callbacks in *. rewrite Hp2, Hp1, filter_app, length_app. lia.
Qed.

Lemma advances_mono k k' h h' : k <= k' → advances k h h' → advances k' h h'.
Proof. intros Hk [? H]. split; [lia|]. intros ??. destruct H as (? & ?); [lia..|]. split; [lia|done]. Qed.

Lemma announced_registered ns : announced (AddRemoteNode <$> ns) = [].
Proof. by induction ns. Qed.

Lemma callbacks_registered ns :
  filter (λ c, c = PromotionCallback) (AddRemoteNode <$> ns) = [].
Proof. by induction ns. Qed.

Lemma promote_callbacks h :
  promotion_callbacks (calls_ (promote h)) = promotion_callbacks (calls_ h) + 1.
Proof.
  unfold promotion_callbacks. simpl. rewrite !filter_app, !length_app, callbacks_registered.
  destruct (peer_rpc_ h); simpl; lia.
Qed.

Lemma promote_advances h : advances 1 h (promote h).
Proof.
  split; [done|]. unfold promote, ha_epoch. simpl. unfold current. intros H0 Hb.
  rewrite (wrap_small 64 (_ + 1)) by lia. split; [lia|]. eexists. split; [done|].
  assert (∀ (b : bool) (e : Z), announced ((if b then [SetPeerEpoch e] else []) ++
    (AddRemoteNode <$> registered_nodes_ h) ++ [PromotionCallback]) = if b then [e] else []) as Han.
  { intros b e. unfold announced. rewrite !omap_app.
    change (omap _ (AddRemoteNode <$> _)) with (announced (AddRemoteNode <$> registered_nodes_ h)).
    rewrite announced_registered. by destruct b. }
  rewrite Han. split_and!.
  - destruct (peer_rpc_ h); repeat constructor.
  - destruct (peer_rpc_ h); repeat constructor; lia.
  - unfold promotion_callbacks. rewrite !filter_app, !length_app.
    rewrite callbacks_registered. by destruct (peer_rpc_ h).
Qed.

Lemma set_lease_advances h l : advances 0 h (set_lease h l).
Proof. by apply advances_same. Qed.

Lemma try_promote_advances fuel now h : advances (Z.of_nat fuel) h (try_promote fuel now h).2.
Proof.
  revert h. induction fuel as [|fuel IH]; intros h; cbn [try_promote]; [by apply advances_same|].
  assert (∀ h, advances (Z.of_nat (S fuel)) h (promote h)) as Hp.
  { intros h0. apply (advances_mono 1); [lia|apply promote_advances]. }
  destruct (lease_ h) as [l|]; [|apply Hp]. destruct (is_leader_ l); [apply Hp|].
  destruct (try_acquire_lease now l) as [[ok l'] elected]. cbv zeta.
  set (h1 := set_lease h (Some l')).
  assert (advances (Z.of_nat fuel) h (if elected && bool_decide (role_ h1 = RoleStandby)
    then (try_promote fuel now h1).2 else h1)) as H1.
  { replace (Z.of_nat fuel) with (0 + Z.of_nat fuel) by lia.
    eapply advances_trans; [apply set_lease_advances|].
    destruct (_ && _); [apply IH|]. apply (advances_mono 0); [lia|by apply advances_same]. }
  rewrite Nat2Z.inj_succ in *. destruct ok; cbn [snd].
  - replace (Z.succ (Z.of_nat fuel)) with (Z.of_nat fuel + 1) by lia.
    eapply advances_trans; [exact H1|apply promote_advances].
  - eapply advances_mono; [|exact H1]. lia.
Qed.

Lemma try_acquire_advances now h : advances 2 h (try_acquire now h).2.
Proof.
  assert (∀ h', fencing_token_ h' = fencing_token_ h → calls_ h' = calls_ h →
    promotions_ h' = promotions_ h → advances 2 h h') as Hsame.
  { intros. apply (advances_mono 0); [done|by apply advances_same]. }
  unfold try_acquire. destruct (lease_ h) as [l|]; [|by apply Hsame].
  destruct (try_acquire_lease now l) as [[ok l'] elected]. simpl.
  destruct elected; [|by apply Hsame]. unfold on_elected.
  case_decide; [|by apply Hsame].
  apply (advances_trans 0 2 _ (set_lease h (Some l'))); [apply set_lease_advances|].
  apply (try_promote_advances promotion_fuel).
Qed.

Lemma on_lost_advances h : advances 0 h (on_lost h).
Proof. unfold on_lost. case_decide; by apply advances_same. Qed.

Lemma run_ha_advances h op : advances 2 h (run_ha h op).
Proof.
  assert (∀ h', advances 0 h h' → advances 2 h h') as Hz by (intros ?; by apply advances_mono).
  destruct op as [now holder| |now pong|now|now| |now other|a|a|id]; simpl.
  - apply Hz. unfold start. case_match; by apply advances_same.
  - apply Hz. unfold stop. case_match; by apply advances_same.
  - unfold monitor_tick. destruct (last_pong_ h); [|by apply Hz, advances_same].
    case_decide; [|by apply Hz, advances_same]. destruct (_ && _); [by apply Hz, advances_same|].
    destruct (_ <=? _); [|by apply Hz, advances_same].
    pose proof (try_promote_advances promotion_fuel now h) as Hp.
    destruct (try_promote promotion_fuel now h) as [ok h'].
    apply (advances_trans 2 0 _ h'); [done|by apply advances_same].
  - unfold lease_tick. destruct (lease_ h) as [l|]; [|by apply Hz, advances_same].
    destruct (lease_running_ l); [|by apply Hz, advances_same].
    pose proof (try_acquire_advances now h) as Hp. destruct (is_leader_ l); [|done].
    destruct (try_acquire now h) as [[] h']; [done|]. simpl in Hp. destruct (lease_ h'); [|done].
    apply (advances_trans 2 0 _ h'); [done|]. apply (advances_trans 0 0 _ (set_lease h' (Some
      (set_holder k (token_ k) false (current_holder_ k) (lease_expiry_ms_ k)))));
      [by apply advances_same|apply on_lost_advances].
  - apply try_acquire_advances.
  - apply Hz. unfold release. destruct (lease_ h) as [l|]; [|by apply advances_same].
    destruct (is_leader_ l); [|by apply advances_same]. unfold on_lost.
    case_decide; by apply advances_same.
  - apply Hz. unfold force_holder. destruct (lease_ h) as [l|]; [|by apply advances_same].
    destruct (_ && _); [|by apply advances_same]. unfold on_lost. case_decide; by apply advances_same.
  - apply Hz. by eapply advances_call.
  - apply Hz. by eapply advances_call.
  - apply Hz. by eapply advances_call.
Qed.

(** Over any run, the epochs announced to the peer strictly increase and lie
    between the epoch before and the epoch after, the epoch never goes back,
    and the promotion counter counts the promotion callbacks. Each operation
    takes at most two epochs, so the 64-bit counter bounds the run's length. *)
Theorem epochs_increase h ops :
  0 <= ha_epoch h → ha_epoch h + 2 * Z.of_nat (length ops) < 2 ^ 64 →
  let h' := foldl run_ha h ops in
  ha_epoch h <= ha_epoch h' ∧
  ∃ cs, calls_ h' = calls_ h ++ cs ∧ StronglySorted Z.lt (announced cs) ∧
    Forall (λ e, ha_epoch h < e <= ha_epoch h') (announced cs) ∧
    promotions_ h' = promotions_ h + promotion_callbacks cs.
Proof.
  intros H0 Hb.
  assert (∀ h, advances (2 * Z.of_nat (length ops)) h (foldl run_ha h ops)) as Hrun.
  { clear. induction ops as [|op ops IH]; intros h; [by apply advances_same|].
    cbn [length foldl]. replace (2 * Z.of_nat (S (length ops))) with (2 + 2 * Z.of_nat (length ops)) by lia.
    eapply advances_trans; [apply run_ha_advances|apply IH]. }
  destruct (Hrun h) as [_ Hadv]. destruct (Hadv H0 Hb) as [? Hcs]. simpl. split; [lia|done].
Qed.

Lemma epochs_increase_witness :
  let h := booted true 15000 2000 0 "a" in
  let h' := foldl run_ha h [OpMonitor 3000000000 false; OpForce 3000000000 "b"] in
  ha_epoch h <= ha_epoch h' ∧
  ∃ cs, calls_ h' = calls_ h ++ cs ∧ StronglySorted Z.lt (announced cs) ∧
    Forall (λ e, ha_epoch h < e <= ha_epoch h') (announced cs) ∧
    promotions_ h' = promotions_ h + promotion_callbacks cs.
Proof. apply epochs_increase; by vm_compute. Defined.

(** ** Failover *)

Lemma monitor_tick_due now pong h last :
  last_pong_ h = Some last → role_ h = RoleStandby → peer_rpc_ h && pong = false →
  failover_after_ms h <= Z.quot (now - last) 1000000 →
  monitor_tick now pong h =
    let '(ok, h') := try_promote promotion_fuel now h in
    set_threads h' (ha_running_ h') (if ok then None else Some now).
Proof.
  intros Hl Hr Hp He. unfold monitor_tick. rewrite Hl, decide_True, Hp by done.
  by rewrite (proj2 (Z.leb_le _ _)).
Qed.

(** What a silent peer leads to, once it has been silent for
    [failover_after_ms]. Without a lease the standby promotes once. With a lease
    that another holds it stays standby and waits again. With a lease it can
    take it becomes active and stops monitoring, but it promotes twice: once in
    the [on_elected] callback of its own acquisition and once after it, with two
    epochs and two calls of the promotion callback. *)
Theorem monitor_failover now h last :
  last_pong_ h = Some last → role_ h = RoleStandby →
  failover_after_ms h <= Z.quot (now - last) 1000000 →
  let h' := monitor_tick now false h in
  match lease_ h with
  | None => h' = set_threads (promote h) (ha_running_ h) None
  | Some l =>
      is_leader_ l = false → current_holder_ l ≠ holder_id_ l →
      if bool_decide (current_holder_ l = ""%string) || (lease_expiry_ms_ l <=? steady_now_ms now)
      then role_ h' = RoleActive ∧ holds_lease h' = true ∧ last_pong_ h' = None ∧
           promotions_ h' = promotions_ h + 2 ∧
           promotion_callbacks (calls_ h') = promotion_callbacks (calls_ h) + 2 ∧
           ha_epoch h' = u64 (u64 (ha_epoch h + 1) + 1)
      else h' = set_threads h (ha_running_ h) (Some now)
  end.
Proof.
  intros Hl Hr He. cbv zeta. rewrite (monitor_tick_due now false h last)
    by (done || by rewrite andb_false_r). unfold promotion_fuel. cbn [try_promote].
  destruct (lease_ h) as [l|] eqn:Hle; [|done]. intros Hd Hn. rewrite Hd.
  unfold try_acquire_lease. rewrite Hd, (bool_decide_eq_false_2 (_ = holder_id_ l)) by done.
  destruct (bool_decide _ || _) eqn:Hfree.
  - cbn [andb]. simpl. rewrite Hr, bool_decide_true by done. simpl.
    split_and!; [done..|lia| |done].
    transitivity (promotion_callbacks (calls_ (promote (promote h)))); [done|].
    rewrite !promote_callbacks. lia.
  - cbn [andb]. unfold set_lease, set_threads. destruct h; simpl in *. by subst.
Qed.

Lemma monitor_failover_witness :
  let h := booted true 15000 2000 0 "a" in
  let h' := monitor_tick 2000000000 false h in
  role_ h' = RoleActive ∧ holds_lease h' = true ∧ last_pong_ h' = None ∧
  promotions_ h' = promotions_ h + 2 ∧
  promotion_callbacks (calls_ h') = promotion_callbacks (calls_ h) + 2 ∧
  ha_epoch h' = u64 (u64 (ha_epoch h + 1) + 1).
Proof.
  exact (monitor_failover 2000000000 (booted true 15000 2000 0 "a") 0 eq_refl eq_refl
    ltac:(vm_compute; discriminate) eq_refl ltac:(discriminate)).
Defined.

(** ** Where the lease does not protect *)

(** A coordinator initialised as active serves queries itself without ever
    having the required lease, for as long as another holder keeps it. *)
Theorem active_without_lease duration failover now t holder other ticks :
  other ≠ ""%string → other ≠ holder →
  Forall (λ t', steady_now_ms t' < u64 (steady_now_ms t + duration)) ticks →
  let h0 := start now holder (init RoleActive (new_ha true duration failover)) in
  let h := foldl run_ha h0 (OpForce t other :: (OpLease <$> ticks)) in
  role_ h = RoleActive ∧ holds_lease h = false ∧ execute_sql h = LocalCoordinator.
Proof.
  intros Hne Hoth Ht. cbv zeta. cbn [foldl run_ha].
  set (h1 := force_holder _ _ _).
  assert (∃ l, lease_ h1 = Some l ∧ is_leader_ l = false ∧ current_holder_ l = other ∧
    holder_id_ l = holder ∧ lease_expiry_ms_ l = u64 (steady_now_ms t + duration)) as Hl.
  { subst h1. unfold force_holder. simpl. rewrite andb_false_r. eexists. split; [done|]. done. }
  assert (role_ h1 = RoleActive) as Hr.
  { subst h1. unfold force_holder. simpl. by rewrite andb_false_r. }
  assert (foldl run_ha h1 (OpLease <$> ticks) = h1) as ->.
  { clear -Ht Hl Hne Hoth. destruct Hl as (l & Hl & Hd & Hc & Hh & He).
    induction Ht as [|t' ticks Ht' _ IH]; [done|]. rewrite fmap_cons. cbn [foldl run_ha].
    assert (lease_tick t' h1 = h1) as ->; [|done].
    unfold lease_tick. rewrite Hl. destruct (lease_running_ l); [|done]. rewrite Hd.
    unfold try_acquire, try_acquire_lease. rewrite Hl, Hc, Hh, He, !bool_decide_false by done.
    rewrite (proj2 (Z.leb_gt _ _)) by done. simpl. destruct h1; simpl in *. by subst. }
  destruct Hl as (l & Hl & Hd & _). unfold holds_lease, execute_sql.
  by rewrite Hl, Hr, decide_True.
Qed.

Lemma active_without_lease_witness :
  let h0 := start 0 "a" (init RoleActive (new_ha true 15000 2000)) in
  let h := foldl run_ha h0 (OpForce 0 "b" :: (OpLease <$> [2000000000; 4000000000])) in
  role_ h = RoleActive ∧ holds_lease h = false ∧ execute_sql h = LocalCoordinator.
Proof. apply active_without_lease; [done|done|repeat constructor]. Defined.

(** [try_promote] is an acquisition under the lease's mutex followed by a
    promotion outside it; when another holder takes the lease in between, the
    coordinator ends active without the lease, and nothing is left to demote it. *)
Theorem promotion_is_not_atomic holder now now' other h :
  lease_inv holder h → role_ h = RoleStandby → other ≠ holder →
  (try_acquire now h).1 = true →
  try_promote promotion_fuel now h = (true, promote (try_acquire now h).2) ∧
  let h' := promote (force_holder now' other (try_acquire now h).2) in
  role_ h' = RoleActive ∧ holds_lease h' = false.
Proof.
  intros (l & Hl & Hh & Hr & Hn) Hs Hoth Hacq.
  assert (is_leader_ l = false) as Hd.
  { destruct (is_leader_ l); [|done]. by rewrite (proj2 Hr eq_refl) in Hs. }
  assert (current_holder_ l ≠ holder_id_ l) by (rewrite Hh; by apply Hn).
  unfold try_acquire in *. rewrite Hl in *. unfold promotion_fuel. cbn [try_promote]. rewrite Hl, Hd.
  destruct (try_acquire_lease now l) as [[ok l'] elected] eqn:Ha.
  destruct (try_acquire_lease_spec _ _ _ _ _ Ha Hd) as (Hh' & [(-> & -> & Hd')|(-> & -> & ->)]); [done| |done].
  cbn [fst snd] in *. rewrite (on_elected_inv holder) by congruence. split.
  - simpl. rewrite Hs, bool_decide_true, Hd' by done. done.
  - unfold force_holder. simpl. rewrite Hd', bool_decide_true by congruence. simpl. done.
Qed.

Lemma promotion_is_not_atomic_witness :
  let h := booted true 15000 2000 0 "a" in
  try_promote promotion_fuel 0 h = (true, promote (try_acquire 0 h).2) ∧
  let h' := promote (force_holder 0 "b" (try_acquire 0 h).2) in
  role_ h' = RoleActive ∧ holds_lease h' = false.
Proof.
  apply (promotion_is_not_atomic "a"); [|done|done|done].
  eexists. split; [done|]. simpl. naive_solver.
Defined.
