(* ===== verification/FlatHashMap.v ===== *)
(** * FlatHashMap: open addressing with linear probing

    Models [include/zeptodb/execution/flat_hash_map.h]: the vector of entries, the
    probe loops of [operator[]] and [find], and [for_each]. A probe that would
    never stop is [None]. The map has no erase and never grows; [IndexMap] is the
    interface the join operators use, and the class's promise that a map built
    for [n] entries holds [n] keys is the refinement to a finite map proved here. *)

From stdpp Require Import base gmap sets list fin_maps fin_sets strings.
From Stdlib Require Import ZArith Lia.
From S2P Require Import Prelude.
From S2P Require Import PartitionRouter.

Open Scope Z_scope.

(** ** The interface: a map from keys to values that is built once

    [im_rep e m g]: [m], built for [e] entries, holds the finite map [g]. The
    operations answer [None] where the code would not return. *)
Class IndexMap (V : Type) (d : V) (M : Type) : Type := {
  im_new : Z → M;
  im_upsert : M → Z → (V → V) → option M;
  im_find : M → Z → option (option V);
  im_for_each : M → (V → V) → M;
  im_rep : Z → M → gmap Z V → Prop;
  im_new_rep e : 0 <= e < 2 ^ 60 → im_rep e (im_new e) ∅;
  im_upsert_rep e m g k f :
    im_rep e m g → Z.of_nat (size (<[k := f (default d (g !! k))]> g)) <= e →
    ∃ m', im_upsert m k f = Some m' ∧ im_rep e m' (<[k := f (default d (g !! k))]> g);
  im_find_rep e m g k :
    im_rep e m g → Z.of_nat (size g) <= e → im_find m k = Some (g !! k);
  im_for_each_rep e m g f : im_rep e m g → im_rep e (im_for_each m f) (f <$> g);
}.

(** ** Hashing *)

(** The portable branch of [hash_i64], the splitmix64 finalizer. The other branch
    is the CRC32 instruction; the map is correct for any function. *)
Definition hash_i64 (key : Z) : Z :=
  let x := u64 key in
  let x := u64 (xorshift 30 x * 0xbf58476d1ce4e5b9) in
  let x := u64 (xorshift 27 x * 0x94d049bb133111eb) in
  xorshift 31 x.

(** ** The map *)

Record Entry (V : Type) : Type := mkEntry {
  occupied : bool;
  key : Z;
  value : V;
}.
Arguments mkEntry {V} _ _ _.
Arguments occupied {V} _.
Arguments key {V} _.
Arguments value {V} _.

Record FlatHashMap (V : Type) : Type := mkFlat {
  entries_ : list (Entry V);
  mask_ : Z;
  size_ : Z;
}.
Arguments mkFlat {V} _ _ _.
Arguments entries_ {V} _.
Arguments mask_ {V} _.
Arguments size_ {V} _.

(** [while (cap < target) cap <<= 1]; 64 rounds shift any bit out. *)
Fixpoint grow_cap (fuel : nat) (cap target : Z) : Z :=
  match fuel with
  | O => cap
  | S fuel' => if cap <? target then grow_cap fuel' (u64 (Z.shiftl cap 1)) target else cap
  end.

Definition capacity_for (expected_entries : Z) : Z :=
  grow_cap 64 16 (u64 (u64 (expected_entries * 4) / 3 + 1)).

Section Map.
Context {V : Type} (d : V) (hash : Z → Z).

Definition new_map (expected_entries : Z) : FlatHashMap V :=
  let cap := capacity_for expected_entries in
  mkFlat (replicate (Z.to_nat cap) (mkEntry false 0 d)) (cap - 1) 0.

(** The loop of [operator[]] and [find] from slot [idx]: the slot it stops at,
    and whether it holds the key. *)
Fixpoint probe (fuel : nat) (m : FlatHashMap V) (idx k : Z) : option (Z * bool) :=
  match fuel with
  | O => None
  | S fuel' =>
      e ← entries_ m !! Z.to_nat idx;
      if negb (occupied e) then Some (idx, false)
      else if key e =? k then Some (idx, true)
      else probe fuel' m (Z.land (idx + 1) (mask_ m)) k
  end.

(** After as many steps as there are slots a probe only sees slots again. *)
Definition probe_from (m : FlatHashMap V) (k : Z) : option (Z * bool) :=
  probe (length (entries_ m)) m (Z.land (hash k) (mask_ m)) k.

(** [map[key]] followed by an update of the referenced value. *)
Definition upsert (m : FlatHashMap V) (k : Z) (f : V → V) : option (FlatHashMap V) :=
  r ← probe_from m k;
  let '(idx, found) := r in
  e ← entries_ m !! Z.to_nat idx;
  Some (mkFlat (<[Z.to_nat idx := mkEntry true k (f (value e))]> (entries_ m)) (mask_ m)
          (if found : bool then size_ m else u64 (size_ m + 1))).

Definition find (m : FlatHashMap V) (k : Z) : option (option V) :=
  r ← probe_from m k;
  let '(idx, found) := r in
  e ← entries_ m !! Z.to_nat idx;
  Some (if found : bool then Some (value e) else None).

(** [for_each] with a function that updates the value in place. *)
Definition for_each (m : FlatHashMap V) (f : V → V) : FlatHashMap V :=
  mkFlat ((λ e, if occupied e then mkEntry true (key e) (f (value e)) else e) <$> entries_ m)
    (mask_ m) (size_ m).

(** The calls of the function in [for_each], in order: keys and values. *)
Definition visited (m : FlatHashMap V) : list (Z * V) :=
  omap (λ e, if occupied e then Some (key e, value e) else None) (entries_ m).

(** ** The invariant *)

Definition cap (m : FlatHashMap V) : Z := Z.of_nat (length (entries_ m)).

(** The [n]-th slot a probe for [k] visits. *)
Definition slot (m : FlatHashMap V) (k n : Z) : Z := (hash k + n) mod cap m.

Definition entry_at (m : FlatHashMap V) (i : Z) : option (Entry V) := entries_ m !! Z.to_nat i.

(** The slot holds another key, so a probe for [k] goes on. *)
Definition passes (m : FlatHashMap V) (k i : Z) : Prop :=
  ∃ e, entry_at m i = Some e ∧ occupied e = true ∧ key e ≠ k.

Record map_ok (m : FlatHashMap V) (g : gmap Z V) : Prop := {
  mok_cap : ∃ b, 0 <= b < 64 ∧ cap m = 2 ^ b;
  mok_mask : mask_ m = cap m - 1;
  mok_size : Z.of_nat (size g) = size_ m;
  mok_count : length (filter (λ e, occupied e = true) (entries_ m)) = size g;
  mok_in : ∀ k v, g !! k = Some v →
    ∃ i, 0 <= i ∧ entry_at m i = Some (mkEntry true k v);
  mok_out : ∀ i e, 0 <= i → entry_at m i = Some e → occupied e = true →
    g !! key e = Some (value e);
  mok_chain : ∀ i e, 0 <= i → entry_at m i = Some e → occupied e = true →
    ∃ n, 0 <= n < cap m ∧ i = slot m (key e) n ∧
      ∀ n', 0 <= n' < n → passes m (key e) (slot m (key e) n');
}.

Lemma cap_pos m g : map_ok m g → 0 < cap m.
Proof. intros []. destruct mok_cap0 as (b & ? & ->). apply Z.pow_pos_nonneg; lia. Qed.

Lemma land_mask m g x : map_ok m g → Z.land x (mask_ m) = x mod cap m.
Proof.
  intros []. destruct mok_cap0 as (b & Hb & Hc). rewrite mok_mask0, Hc.
  replace (2 ^ b - 1) with (Z.ones b) by (rewrite Z.ones_equiv; lia). apply Z.land_ones. lia.
Qed.

Lemma slot_range m g k n : map_ok m g → 0 <= slot m k n < cap m.
Proof. intros Hok. apply Z.mod_pos_bound. by eapply cap_pos. Qed.

Lemma slot_next m g k n : map_ok m g → Z.land (slot m k n + 1) (mask_ m) = slot m k (n + 1).
Proof.
  intros Hok. rewrite (land_mask _ _ _ Hok). unfold slot. pose proof (cap_pos _ _ Hok).
  rewrite Z.add_mod_idemp_l by lia. f_equal. lia.
Qed.

(** The slot where a probe for [k] stops. *)
Definition stops (m : FlatHashMap V) (k i : Z) (found : bool) : Prop :=
  ∃ e, entry_at m i = Some e ∧
    if found then occupied e = true ∧ key e = k else occupied e = false.

Lemma probe_stops m g k n found :
  map_ok m g → 0 <= n < cap m → stops m k (slot m k n) found →
  (∀ n', 0 <= n' < n → passes m k (slot m k n')) →
  probe_from m k = Some (slot m k n, found).
Proof.
  intros Hok Hn Hs Hp. unfold probe_from.
  rewrite (land_mask _ _ _ Hok).
  assert (∀ fuel j, 0 <= j <= n → n - j < Z.of_nat fuel →
    probe fuel m (slot m k j) k = Some (slot m k n, found)) as Hgen.
  { induction fuel as [|fuel IH]; intros j Hj Hf; [lia|]. cbn [probe].
    destruct (decide (j = n)) as [->|Hne].
    - destruct Hs as (e & He & Hd). unfold entry_at in He. rewrite He. simpl.
      destruct found; [destruct Hd as [-> ->]|by rewrite Hd]. simpl. by rewrite Z.eqb_refl.
    - destruct (Hp j) as (e & He & Ho & Hk); [lia|]. unfold entry_at in He. rewrite He. simpl.
      rewrite Ho, (proj2 (Z.eqb_neq _ _)) by done. simpl.
      rewrite (slot_next _ _ _ _ Hok). apply IH; lia. }
  replace (hash k mod cap m) with (slot m k 0) by (unfold slot; f_equal; lia).
  apply Hgen; [lia|]. unfold cap in Hn. lia.
Qed.

(** A free slot exists while the map is not full. *)
Lemma free_slot m g :
  map_ok m g → Z.of_nat (size g) < cap m →
  ∃ i e, 0 <= i < cap m ∧ entry_at m i = Some e ∧ occupied e = false.
Proof.
  intros Hok Hlt. destruct (decide (Exists (λ e, occupied e = false) (entries_ m))) as [Hex|Hno].
  - apply Exists_exists in Hex as (e & [i Hi]%list_elem_of_lookup & Ho).
    exists (Z.of_nat i), e. unfold entry_at, cap. rewrite Nat2Z.id. split_and!; [lia| |done..].
    apply lookup_lt_Some in Hi. lia.
  - exfalso. pose proof (mok_count _ _ Hok) as Hc. rewrite filter_all in Hc.
    + unfold cap in Hlt. lia.
    + apply Forall_lookup_2. intros i e Hi. destruct (occupied e) eqn:Ho; [done|].
      destruct Hno. apply Exists_exists. exists e. split; [by eapply list_elem_of_lookup_2|done].
Qed.

(** Where a probe for a key that is not in the map stops. *)
Lemma absent_slot m g k :
  map_ok m g → g !! k = None → Z.of_nat (size g) < cap m →
  ∃ n, 0 <= n < cap m ∧ stops m k (slot m k n) false ∧
    ∀ n', 0 <= n' < n → passes m k (slot m k n').
Proof.
  intros Hok Hk Hlt. destruct (free_slot m g Hok Hlt) as (i & e & Hi & He & Ho).
  pose proof (cap_pos _ _ Hok) as Hc.
  assert (∀ n, 0 <= n < cap m → ¬ stops m k (slot m k n) false → passes m k (slot m k n)) as Hpass.
  { intros n Hn Hs. destruct (entry_at m (slot m k n)) as [e'|] eqn:He'.
    - exists e'. split; [done|]. destruct (occupied e') eqn:Ho'; [|destruct Hs; by exists e'].
      split; [done|]. intros <-. pose proof (slot_range m g (key e') n Hok).
      assert (g !! key e' = Some (value e')) by (eapply mok_out; [done| |done|done]; lia).
      congruence.
    - unfold entry_at in He'. apply lookup_ge_None in He'.
      pose proof (slot_range m g k n Hok). unfold cap in *. lia. }
  assert (∀ fuel n, 0 <= n → (∀ n', 0 <= n' < n → passes m k (slot m k n')) →
    n + Z.of_nat fuel = (i - hash k) mod cap m →
    ∃ n, 0 <= n < cap m ∧ stops m k (slot m k n) false ∧
      ∀ n', 0 <= n' < n → passes m k (slot m k n')) as Hgen.
  { pose proof (Z.mod_pos_bound (i - hash k) (cap m) Hc).
    induction fuel as [|fuel IH]; intros n Hn Hp Hsum.
    - exists n. split; [lia|]. split; [|done]. exists e.
      assert (slot m k n = i) as ->; [|done]. unfold slot.
      replace n with ((i - hash k) mod cap m) by lia.
      rewrite Z.add_mod_idemp_r by lia. rewrite <- (Z.mod_small i (cap m)) at 2 by lia.
      f_equal. lia.
    - destruct (decide (occupied <$> entry_at m (slot m k n) = Some false)) as [Hst|Hst].
      + exists n. split; [lia|]. split; [|done].
        destruct (entry_at m (slot m k n)) as [e'|] eqn:He'; [|done]. exists e'. by simplify_eq/=.
      + apply (IH (n + 1)); [lia| |lia]. intros n' Hn'.
        destruct (decide (n' = n)) as [->|]; [|apply Hp; lia]. apply Hpass; [lia|].
        intros (e' & He' & Ho'). apply Hst. rewrite He'. simpl. by rewrite Ho'. }
  apply (Hgen (Z.to_nat ((i - hash k) mod cap m)) 0); [done|lia|].
  pose proof (Z.mod_pos_bound (i - hash k) (cap m) Hc). lia.
Qed.

(** Where a probe for a key that is in the map stops. *)
Lemma present_slot m g k v :
  map_ok m g → g !! k = Some v →
  ∃ n, 0 <= n < cap m ∧ entry_at m (slot m k n) = Some (mkEntry true k v) ∧
    ∀ n', 0 <= n' < n → passes m k (slot m k n').
Proof.
  intros Hok Hk. destruct (mok_in _ _ Hok k v Hk) as (i & Hi & He).
  destruct (mok_chain _ _ Hok i _ Hi He eq_refl) as (n & Hn & -> & Hp). by exists n.
Qed.

(** A key is in one slot only. *)
Lemma key_slot_unique m g k n i e :
  map_ok m g → 0 <= i → entry_at m i = Some e → occupied e = true → key e = k →
  0 <= n → (∃ e', entry_at m (slot m k n) = Some e' ∧ (occupied e' = true → key e' = k)) →
  (∀ n', 0 <= n' < n → passes m k (slot m k n')) → i = slot m k n.
Proof.
  intros Hok Hi He Ho Hk Hn (e' & He' & Hk') Hp.
  destruct (mok_chain _ _ Hok i e Hi He Ho) as (n2 & Hn2 & -> & Hp2). rewrite Hk in *.
  destruct (Z.lt_trichotomy n n2) as [Hlt|[->|Hlt]]; [|done|].
  - destruct (Hp2 n) as (e2 & He2 & Ho2 & Hne2); [lia|].
    assert (e2 = e') as -> by congruence. destruct (Hne2 (Hk' Ho2)).
  - destruct (Hp n2) as (e2 & He2 & Ho2 & Hne2); [lia|].
    assert (e2 = e) as -> by congruence. congruence.
Qed.

Lemma find_spec m g k :
  map_ok m g → Z.of_nat (size g) < cap m → find m k = Some (g !! k).
Proof.
  intros Hok Hlt. unfold find. destruct (g !! k) as [v|] eqn:Hk.
  - destruct (present_slot m g k v Hok Hk) as (n & Hn & He & Hp).
    rewrite (probe_stops m g k n true) by (done || by eexists).
    cbn [mbind option_bind]. unfold entry_at in He. by rewrite He.
  - destruct (absent_slot m g k Hok Hk Hlt) as (n & Hn & Hs & Hp).
    rewrite (probe_stops m g k n false) by done.
    cbn [mbind option_bind]. destruct Hs as (e & He & _). unfold entry_at in He. by rewrite He.
Qed.

(** Storing an entry for [k] in the slot its probe stops at. *)
Lemma store_ok m g k v n e sz :
  map_ok m g → 0 <= n < cap m →
  (∀ n', 0 <= n' < n → passes m k (slot m k n')) →
  entry_at m (slot m k n) = Some e →
  (occupied e = true ∧ key e = k ∨ occupied e = false ∧ g !! k = None) →
  Z.of_nat (size (<[k := v]> g)) = sz →
  map_ok (mkFlat (<[Z.to_nat (slot m k n) := mkEntry true k v]> (entries_ m)) (mask_ m) sz)
    (<[k := v]> g).
Proof.
  intros Hok Hn Hp He Hor Hsz. set (m' := mkFlat _ _ _).
  assert (cap m' = cap m) as Hcap by (unfold cap; simpl; by rewrite length_insert).
  assert (∀ k n, slot m' k n = slot m k n) as Hslot by (intros; unfold slot; by rewrite Hcap).
  pose proof (slot_range m g k n Hok) as Hr.
  assert (∀ i, 0 <= i → i ≠ slot m k n → entry_at m' i = entry_at m i) as Hother.
  { intros i Hi Hne. unfold entry_at, m'. simpl. apply list_lookup_insert_ne. lia. }
  assert (entry_at m' (slot m k n) = Some (mkEntry true k v)) as Hself.
  { unfold entry_at, m'. simpl. apply list_lookup_insert_eq. unfold cap in Hr. lia. }
  assert (∀ k2 i, 0 <= i → k2 ≠ k ∨ i ≠ slot m k n → passes m k2 i → passes m' k2 i) as Hpass.
  { intros k2 i Hi Hc (e2 & He2 & Ho & Hk2). destruct (decide (i = slot m k n)) as [->|Hne].
    - exists (mkEntry true k v). rewrite Hself. split_and!; [done..|]. simpl. naive_solver.
    - exists e2. by rewrite Hother. }
  assert (∀ k2 n2, 0 <= slot m k2 n2) as Hsr by (intros; by eapply slot_range).
  split.
  - rewrite Hcap. by apply Hok.
  - rewrite Hcap. by apply Hok.
  - done.
  - assert (Z.of_nat (length (filter (λ e, occupied e = true) (entries_ m))) = Z.of_nat (size g)) as Hc
      by (f_equal; apply Hok).
    pose proof (length_filter_insert (λ e, occupied e = true) (entries_ m) (Z.to_nat (slot m k n))
      (mkEntry true k v) e He) as Hf. simpl in Hf. unfold m'. simpl.
    destruct Hor as [[Ho <-]|[Ho Hk]]; rewrite Ho in Hf; simpl in Hf.
    + assert (g !! key e = Some (value e)) by (eapply mok_out; [done| |done|done]; lia).
      rewrite map_size_insert_Some by (by eexists). lia.
    + rewrite map_size_insert_None by done. lia.
  - intros k2 v2. rewrite lookup_insert_Some. intros [[<- <-]|[Hne Hk2]].
    + exists (slot m k n). split; [lia|done].
    + destruct (mok_in _ _ Hok k2 v2 Hk2) as (i & Hi & He2). exists i. split; [done|].
      rewrite Hother; [done|done|]. intros ->. rewrite He in He2. simplify_eq.
      destruct Hor as [[_ ?]|[? _]]; simpl in *; congruence.
  - intros i e2 Hi He2 Ho. destruct (decide (i = slot m k n)) as [->|Hne].
    + rewrite Hself in He2. simplify_eq/=. by rewrite lookup_insert, decide_True.
    + rewrite Hother in He2 by done. rewrite lookup_insert_ne; [by eapply mok_out|].
      intros Hk. apply Hne. eapply key_slot_unique; try done; [lia|]. exists e.
      split; [done|]. intros ?. destruct Hor as [[_ ?]|[? _]]; congruence.
  - intros i e2 Hi He2 Ho. destruct (decide (i = slot m k n)) as [->|Hne].
    + rewrite Hself in He2. simplify_eq/=. exists n. rewrite Hcap. split; [done|].
      split; [by rewrite Hslot|]. intros n' Hn'. rewrite Hslot. apply Hpass; [done| |by apply Hp].
      right. intros Heq. destruct (Hp n' Hn') as (e' & He' & Ho' & Hk').
      rewrite Heq in He'. assert (e' = e) as -> by congruence.
      destruct Hor as [[_ ?]|[? _]]; congruence.
    + rewrite Hother in He2 by done.
      destruct (mok_chain _ _ Hok i e2 Hi He2 Ho) as (n2 & Hn2 & -> & Hp2).
      exists n2. rewrite Hcap. split; [done|]. split; [by rewrite Hslot|]. intros n' Hn'.
      rewrite Hslot. apply Hpass; [done| |by apply Hp2]. left. intros Hk.
      apply Hne. eapply key_slot_unique; try done; [lia|]. exists e.
      split; [done|]. intros ?. destruct Hor as [[_ ?]|[? _]]; congruence.
Qed.

Lemma upsert_spec m g k f :
  map_ok m g → Z.of_nat (size (<[k := f (default d (g !! k))]> g)) <= cap m → cap m < 2 ^ 64 →
  (∀ i e, entry_at m i = Some e → occupied e = false → value e = d) →
  ∃ m', upsert m k f = Some m' ∧ map_ok m' (<[k := f (default d (g !! k))]> g) ∧ cap m' = cap m ∧
    (∀ i e, entry_at m' i = Some e → occupied e = false → value e = d).
Proof.
  intros Hok Hsz Hcap Hd. unfold upsert.
  assert (∀ i m' e0 sz, m' = mkFlat (<[Z.to_nat i := mkEntry true k e0]> (entries_ m)) (mask_ m) sz →
    cap m' = cap m ∧ ∀ i e, entry_at m' i = Some e → occupied e = false → value e = d) as Hrest.
  { intros i m' e0 sz ->. split; [unfold cap; simpl; by rewrite length_insert|].
    intros j e. unfold entry_at. simpl. rewrite list_lookup_insert. case_decide as Hj.
    - by intros [= <-].
    - apply (Hd j). }
  destruct (g !! k) as [v|] eqn:Hk.
  - destruct (present_slot m g k v Hok Hk) as (n & Hn & He & Hp).
    rewrite (probe_stops m g k n true) by (done || by eexists).
    cbn [mbind option_bind]. unfold entry_at in He. rewrite He. simpl.
    eexists. split; [done|]. split; [|by eapply Hrest].
    eapply store_ok; [done|done|done|exact He|by left|].
    rewrite map_size_insert_Some by (by eexists). by apply Hok.
  - rewrite map_size_insert_None in Hsz by done.
    destruct (absent_slot m g k Hok Hk) as (n & Hn & Hs & Hp); [lia|].
    rewrite (probe_stops m g k n false) by done. destruct Hs as (e & He & Ho).
    cbn [mbind option_bind]. pose proof (Hd _ _ He Ho) as Hv. unfold entry_at in He. rewrite He.
    simpl. rewrite Hv. eexists. split; [done|]. split; [|by eapply Hrest].
    eapply store_ok; [done|done|done|exact He|by right|].
    rewrite map_size_insert_None, <- (mok_size _ _ Hok), wrap_small by (done || lia). lia.
Qed.

Lemma for_each_spec m g f : map_ok m g → map_ok (for_each m f) (f <$> g).
Proof.
  intros Hok. set (m' := for_each m f).
  assert (cap m' = cap m) as Hcap by (unfold cap; simpl; by rewrite length_fmap).
  assert (∀ k n, slot m' k n = slot m k n) as Hslot by (intros; unfold slot; by rewrite Hcap).
  assert (∀ i, entry_at m' i = (λ e, if occupied e then mkEntry true (key e) (f (value e)) else e) <$>
    entry_at m i) as Hent by (intros i; unfold entry_at; simpl; by rewrite list_lookup_fmap).
  assert (∀ k i, passes m k i → passes m' k i) as Hpass.
  { intros k i (e & He & Ho & Hk). eexists. rewrite Hent, He. simpl. split; [done|]. by rewrite Ho. }
  split.
  - rewrite Hcap. by apply Hok.
  - rewrite Hcap. by apply Hok.
  - rewrite map_size_fmap. by apply Hok.
  - rewrite map_size_fmap, <- (mok_count _ _ Hok). unfold m'. simpl. clear.
    induction (entries_ m) as [|e l IH]; [done|]. rewrite fmap_cons, !filter_cons.
    destruct (occupied e) eqn:Ho; simpl; rewrite ?Ho; simpl; by rewrite IH.
  - intros k v. rewrite lookup_fmap, fmap_Some. intros (w & Hw & ->).
    destruct (mok_in _ _ Hok k w Hw) as (i & Hi & He). exists i. split; [done|]. by rewrite Hent, He.
  - intros i e Hi. rewrite Hent. intros (e0 & He0 & ->)%fmap_Some Ho.
    destruct (occupied e0) eqn:Ho0; [|congruence]. simpl.
    by rewrite lookup_fmap, (mok_out _ _ Hok i e0) by done.
  - intros i e Hi. rewrite Hent. intros (e0 & He0 & ->)%fmap_Some Ho.
    destruct (occupied e0) eqn:Ho0; [|congruence]. simpl.
    destruct (mok_chain _ _ Hok i e0) as (n & Hn & -> & Hp); [done..|].
    exists n. rewrite Hcap. split; [done|]. split; [by rewrite Hslot|]. intros n' Hn'.
    rewrite Hslot. by apply Hpass, Hp.
Qed.
(** [for_each] meets every key once, with its value. *)
Lemma visited_spec m g : map_ok m g → visited m ≡ₚ map_to_list g.
Proof.
  intros Hok. symmetry. apply submseteq_length_Permutation.
  - apply NoDup_submseteq; [apply NoDup_map_to_list|]. intros [k v] Hkv%elem_of_map_to_list.
    destruct (mok_in _ _ Hok k v Hkv) as (i & _ & He). unfold visited. apply list_elem_of_omap.
    exists (mkEntry true k v). split; [|done]. by apply list_elem_of_lookup_2 in He.
  - rewrite length_map_to_list, <- (mok_count _ _ Hok). unfold visited. clear.
    induction (entries_ m) as [|e l IH]; [done|]. rewrite filter_cons. cbn [omap list_omap]. destruct (occupied e) eqn:Ho; simpl in *; lia.
Qed.

End Map.

(** ** Construction *)

Lemma grow_cap_spec fuel b target :
  0 <= b → target <= 2 ^ 62 → b + Z.of_nat fuel >= 62 → b <= 62 →
  ∃ b', b <= b' <= 62 ∧ grow_cap fuel (2 ^ b) target = 2 ^ b' ∧ target <= 2 ^ b'.
Proof.
  revert b. induction fuel as [|fuel IH]; intros b Hb Ht Hf Hb62; cbn [grow_cap].
  { exists b. assert (b = 62) as -> by lia. split_and!; [lia|lia|done|done]. }
  destruct (Z.ltb_spec (2 ^ b) target) as [Hlt|Hge]; [|by exists b].
  assert (b < 62) by (apply (Z.pow_lt_mono_r_iff 2); lia).
  assert (u64 (Z.shiftl (2 ^ b) 1) = 2 ^ (b + 1)) as ->.
  { rewrite Z.shiftl_mul_pow2, <- Z.pow_add_r by lia. apply wrap_small.
    split; [apply Z.pow_nonneg; lia|apply Z.pow_lt_mono_r; lia]. }
  destruct (IH (b + 1)) as (b' & ? & ? & ?); [lia..|]. exists b'. split_and!; [lia|lia|done|done].
Qed.

Lemma capacity_for_spec e :
  0 <= e < 2 ^ 60 → ∃ b, 4 <= b <= 62 ∧ capacity_for e = 2 ^ b ∧ e * 4 / 3 + 1 <= 2 ^ b.
Proof.
  intros He. unfold capacity_for. rewrite (wrap_small 64 (e * 4)) by lia.
  assert (0 <= e * 4 / 3 <= e * 4) by (split; [apply Z.div_pos|apply Z.div_le_upper_bound]; lia).
  rewrite wrap_small by lia.
  destruct (grow_cap_spec 64 4 (e * 4 / 3 + 1)) as (b & ? & ? & ?); [lia..|].
  exists b. split_and!; [lia|lia|done|done].
Qed.

Definition flat_rep {V} (d : V) (hash : Z → Z) (e : Z) (m : FlatHashMap V) (g : gmap Z V) : Prop :=
  map_ok hash m g ∧ e < cap m < 2 ^ 64 ∧
  ∀ i x, entry_at m i = Some x → occupied x = false → value x = d.

Lemma new_map_rep {V} (d : V) hash e : 0 <= e < 2 ^ 60 → flat_rep d hash e (new_map d e) ∅.
Proof.
  intros He. destruct (capacity_for_spec e He) as (b & Hb & Hc & Hle).
  assert (0 < 2 ^ b < 2 ^ 64) by (split; [apply Z.pow_pos_nonneg|apply Z.pow_lt_mono_r]; lia).
  assert (e < e * 4 / 3 + 1).
  { assert (e <= e * 4 / 3) by (apply Z.div_le_lower_bound; lia). lia. }
  assert (cap (new_map d e) = 2 ^ b) as Hcap.
  { unfold cap, new_map. simpl. rewrite length_replicate, Hc. lia. }
  assert (∀ i x, entry_at (new_map d e) i = Some x → x = mkEntry false 0 d) as Hall.
  { intros i x. unfold entry_at. simpl. by intros [? _]%lookup_replicate. }
  split_and!; [|lia|lia|by intros i x ->%Hall].
  split.
  - exists b. split; [lia|done].
  - unfold cap, new_map. simpl. rewrite length_replicate, Hc. lia.
  - done.
  - simpl. clear. by induction (Z.to_nat _).
  - intros k v. by rewrite lookup_empty.
  - by intros i x _ ->%Hall.
  - by intros i x _ ->%Hall.
Qed.

Lemma upsert_rep {V} (d : V) hash e m g k f :
  flat_rep d hash e m g → Z.of_nat (size (<[k := f (default d (g !! k))]> g)) <= e →
  ∃ m', upsert hash m k f = Some m' ∧ flat_rep d hash e m' (<[k := f (default d (g !! k))]> g).
Proof.
  intros (Hok & Hcap & Hd) Hsz.
  destruct (upsert_spec d hash m g k f) as (m' & ? & ? & Hc & ?); [done|lia|lia|done|].
  exists m'. split; [done|]. split_and!; [done|lia|lia|done].
Qed.

Lemma find_rep {V} (d : V) hash e m g k :
  flat_rep d hash e m g → Z.of_nat (size g) <= e → find hash m k = Some (g !! k).
Proof. intros (Hok & Hcap & Hd) Hsz. apply find_spec; [done|lia]. Qed.

Lemma for_each_rep {V} (d : V) hash e m g f :
  flat_rep d hash e m g → flat_rep d hash e (for_each m f) (f <$> g).
Proof.
  intros (Hok & Hcap & Hd). split_and!; [by apply for_each_spec|..].
  - unfold cap in *. simpl. rewrite length_fmap. lia.
  - unfold cap in *. simpl. rewrite length_fmap. lia.
  - intros i x. unfold entry_at. simpl. rewrite list_lookup_fmap.
    intros (x0 & Hx0 & ->)%fmap_Some Ho. destruct (occupied x0) eqn:Ho0; [by simpl in Ho|].
    by eapply Hd.
Qed.

#[export] Instance flat_index_map {V} (d : V) (hash : Z → Z) : IndexMap V d (FlatHashMap V) := {
  im_new := new_map d;
  im_upsert := upsert hash;
  im_find := find hash;
  im_for_each := for_each;
  im_rep := flat_rep d hash;
  im_new_rep := new_map_rep d hash;
  im_upsert_rep := upsert_rep d hash;
  im_find_rep := find_rep d hash;
  im_for_each_rep := for_each_rep d hash;
}.

(** ** Properties *)

Section Properties.
Context {V : Type} (d : V) (hash : Z → Z).

(** A sequence of [map[key]] updates, on the map and on its specification. *)
Fixpoint upserts (m : FlatHashMap V) (ops : list (Z * (V → V))) : option (FlatHashMap V) :=
  match ops with
  | [] => Some m
  | (k, f) :: rest => m' ← upsert hash m k f; upserts m' rest
  end.

Definition spec_upserts (g : gmap Z V) (ops : list (Z * (V → V))) : gmap Z V :=
  foldl (λ g p, <[p.1 := p.2 (default d (g !! p.1))]> g) g ops.

Lemma spec_upserts_grow ops g : (size g <= size (spec_upserts g ops))%nat.
Proof.
  revert g. induction ops as [|[k f] ops IH]; intros g; [done|].
  etrans; [|apply IH]. cbn. rewrite map_size_insert. case_match; simpl; lia.
Qed.

Lemma upserts_spec ops m g :
  map_ok hash m g → Z.of_nat (size (spec_upserts g ops)) <= cap m → cap m < 2 ^ 64 →
  (∀ i e, entry_at m i = Some e → occupied e = false → value e = d) →
  ∃ m', upserts m ops = Some m' ∧ map_ok hash m' (spec_upserts g ops) ∧ cap m' = cap m.
Proof.
  revert m g. induction ops as [|[k f] ops IH]; intros m g Hok Hsz Hc Hd; [by exists m|].
  change (spec_upserts g ((k, f) :: ops)) with
    (spec_upserts (<[k := f (default d (g !! k))]> g) ops) in *.
  pose proof (spec_upserts_grow ops (<[k := f (default d (g !! k))]> g)).
  destruct (upsert_spec d hash m g k f Hok) as (m1 & Hm1 & Hok1 & Hc1 & Hd1); [lia|done|done|].
  cbn [upserts]. rewrite Hm1. simpl.
  destruct (IH m1 _ Hok1) as (m' & ? & ? & ?); [lia|lia|done|]. exists m'. split_and!; [done|done|lia].
Qed.

(** C33. A map built for [e] entries implements a finite map as long as it gets at
    most [e] distinct keys, whatever the hash function: every update and every
    lookup returns, lookups answer what a finite map answers, and [size_] is the
    number of keys. Iteration calls its function once for every key with the
    key's value, and what the function does to the values is what is found
    afterwards. *)
Theorem flat_map_refines e ops :
  0 <= e < 2 ^ 60 → Z.of_nat (size (spec_upserts ∅ ops)) <= e →
  ∃ m, upserts (new_map d e) ops = Some m ∧
    (∀ k, find hash m k = Some (spec_upserts ∅ ops !! k)) ∧
    size_ m = Z.of_nat (size (spec_upserts ∅ ops)) ∧
    visited m ≡ₚ map_to_list (spec_upserts ∅ ops) ∧
    ∀ f k, find hash (for_each m f) k = Some (f <$> spec_upserts ∅ ops !! k).
Proof.
  intros He Hsz. destruct (new_map_rep d hash e He) as (Hok & Hcap & Hd).
  destruct (upserts_spec ops (new_map d e) ∅) as (m & Hm & Hok' & Hc); [done|lia|lia|done|].
  exists m. split; [done|]. split_and!.
  - intros k. apply find_spec; [done|lia].
  - by rewrite (mok_size _ _ _ Hok').
  - by apply (visited_spec hash).
  - intros f k. rewrite <- lookup_fmap. apply find_spec; [by apply for_each_spec|].
    rewrite map_size_fmap. unfold cap in *. simpl. rewrite length_fmap. lia.
Qed.

(** A full map does not return from a lookup or an update of a key it does
    not hold: however many steps it is given, the probe never stops. The
    stated load factor of at most 0.75 is not enforced. *)
Theorem full_map_diverges (m : FlatHashMap V) g k f fuel :
  map_ok hash m g → Z.of_nat (size g) = cap m → g !! k = None →
  probe fuel m (Z.land (hash k) (mask_ m)) k = None ∧
  find hash m k = None ∧ upsert hash m k f = None.
Proof.
  intros Hok Hfull Hk.
  assert (∀ n, passes m k (slot hash m k n)) as Hpass.
  { intros n. pose proof (slot_range hash m g k n Hok) as Hr.
    destruct (entry_at m (slot hash m k n)) as [e|] eqn:He.
    - exists e. split; [done|]. destruct (occupied e) eqn:Ho.
      + split; [done|]. intros Hke.
        assert (g !! key e = Some (value e)) by (eapply (mok_out hash); [done| |done|done]; lia).
        congruence.
      + pose proof (mok_count _ _ _ Hok) as Hc.
        assert (length (filter (λ e, occupied e = true) (entries_ m)) < length (entries_ m))%nat.
        { eapply length_filter_lt; [by eapply list_elem_of_lookup_2|by rewrite Ho]. }
        unfold cap in Hfull. lia.
    - unfold entry_at in He. apply lookup_ge_None in He. unfold cap in Hr. lia. }
  assert (∀ fuel n, probe fuel m (slot hash m k n) k = None) as Hprobe.
  { clear fuel. induction fuel as [|fuel IH]; intros n; [done|]. cbn [probe].
    destruct (Hpass n) as (e & He & Ho & Hne). unfold entry_at in He. rewrite He. simpl.
    rewrite Ho, (proj2 (Z.eqb_neq _ _)) by done. simpl. by rewrite (slot_next _ _ _ _ _ Hok). }
  assert (∀ fuel, probe fuel m (Z.land (hash k) (mask_ m)) k = None) as Hall.
  { intros fl. rewrite (land_mask _ _ _ _ Hok). rewrite <- (Hprobe fl 0). f_equal.
    unfold slot. f_equal. lia. }
  split; [done|]. unfold find, upsert, probe_from. by rewrite Hall.
Qed.
End Properties.

Lemma full_map_diverges_witness :
  let full := default (new_map 0 2)
    (upserts hash_i64 (new_map 0 2) ((λ k, (Z.of_nat k, λ _, 1)) <$> seq 0 16)) in
  probe 1000 full (Z.land (hash_i64 99) (mask_ full)) 99 = None ∧
  find hash_i64 full 99 = None ∧ upsert hash_i64 full 99 id = None.
Proof.
  destruct (new_map_rep 0 hash_i64 2 ltac:(lia)) as (Hok & Hcap & Hd).
  destruct (upserts_spec 0 hash_i64 ((λ k, (Z.of_nat k, λ _, 1)) <$> seq 0 16) (new_map 0 2) ∅ Hok)
    as (m & -> & Hokm & Hc); [by vm_compute|by vm_compute|done|].
  apply (full_map_diverges hash_i64 m _ 99 id 1000 Hokm); [by rewrite Hc|by vm_compute].
Defined.

Lemma flat_map_refines_witness :
  let ops := [(5, λ l, l ++ [0]); (-7, λ l, l ++ [1]); (5, λ l, l ++ [2])] in
  ∃ m, upserts hash_i64 (new_map [] 2) ops = Some m ∧
    (∀ k, find hash_i64 m k = Some (spec_upserts [] ∅ ops !! k)) ∧
    size_ m = Z.of_nat (size (spec_upserts [] ∅ ops)) ∧
    visited m ≡ₚ map_to_list (spec_upserts [] ∅ ops) ∧
    ∀ f k, find hash_i64 (for_each m f) k = Some (f <$> spec_upserts [] ∅ ops !! k).
Proof. apply flat_map_refines; by vm_compute. Defined.
