(* ===== verification/JoinOperator.v ===== *)
(** * Join operators

    Models [include/zeptodb/execution/join_operator.h] and
    [src/execution/join_operator.cpp]: the hash join with its four join types,
    the ASOF join and the window join, over any [IndexMap]. A column is the list
    of its [int64_t] values; [None] is a lookup of the map that would not return.
    [std::sort] is the parameter [sort_by] (it may order equal elements as it
    likes), and the two floating-point divisions of the window average are
    parameters. *)

From stdpp Require Import base gmap sets list fin_maps fin_sets strings sorting.
From Stdlib Require Import ZArith Lia.
From S2P Require Import Prelude.
From S2P Require Import FlatHashMap.

Open Scope Z_scope.

(** ** Data *)

Inductive JoinType : Type := INNER | LEFT | RIGHT | FULL.
Inductive WJAggType : Type := AVG | SUM | COUNT | MIN | MAX.

Definition JOIN_NULL : Z := INT64_MIN.

Record JoinResult : Type := mkJoin {
  left_indices : list Z;
  right_indices : list Z;
  match_count : Z;
}.

Definition empty_result : JoinResult := mkJoin [] [] 0.

(** The two [push_back]s and [++match_count]. *)
Definition emit (r : JoinResult) (li ri : Z) : JoinResult :=
  mkJoin (left_indices r ++ [li]) (right_indices r ++ [ri]) (match_count r + 1).

(** A column element, [data[i]]. *)
Definition at_ (data : list Z) (i : Z) : Z := default 0 (data !! Z.to_nat i).

Section Join.
Context {M : Type} `{!IndexMap (list Z) [] M}.

(** ** Build and probe *)

(** [for (i = 0; i < n; ++i) map[keys[i]].push_back(i)] *)
Fixpoint build_groups (m : M) (i : Z) (keys : list Z) : option M :=
  match keys with
  | [] => Some m
  | k :: rest => m' ← im_upsert m k (λ l, l ++ [i]); build_groups m' (i + 1) rest
  end.

(** The probe loop: [miss] when there is no bucket, [hit] for each of its rows. *)
Fixpoint probe_rows {S} (m : M) (miss : S → Z → S) (hit : S → Z → Z → S) (i : Z)
    (keys : list Z) (st : S) : option S :=
  match keys with
  | [] => Some st
  | k :: rest =>
      bucket ← im_find m k;
      probe_rows m miss hit (i + 1) rest
        (match bucket with
         | None => miss st i
         | Some rows => foldl (λ st j, hit st i j) st rows
         end)
  end.

Definition groups_of (keys : list Z) : option M :=
  build_groups (im_new (Z.of_nat (length keys))) 0 keys.

(** ** HashJoinOperator::execute *)

Definition hash_join (join_type : JoinType) (lk rk : list Z) : option JoinResult :=
  match join_type with
  | RIGHT =>
      m ← groups_of lk;
      probe_rows m (λ r ri, emit r (-1) ri) (λ r ri li, emit r li ri) 0 rk empty_result
  | FULL =>
      m ← groups_of rk;
      s ← probe_rows m (λ s li, (emit s.1 li (-1), s.2))
            (λ s li ri, (emit s.1 li ri, <[Z.to_nat ri := true]> s.2)) 0 lk
            (empty_result, replicate (length rk) false);
      Some (foldl (λ r p, if (p : Z * bool).2 then r else emit r (-1) p.1) s.1 (number 0 s.2))
  | _ =>
      m ← groups_of rk;
      probe_rows m (λ r li, match join_type with LEFT => emit r li (-1) | _ => r end)
        emit 0 lk empty_result
  end.

(** ** AsofJoinOperator *)

Section Sorted.
Context (sort_by : (Z → Z) → list Z → list Z).

(** [execute]: the right rows grouped by key and sorted by time, then a binary
    search per left row. *)
Definition asof_row (rt : list Z) (m : M) (r : JoinResult) (p : Z * (Z * Z)) : option JoinResult :=
  let '(li, (sym, l_ts)) := p in
  bucket ← im_find m sym;
  Some match bucket with
       | None => r
       | Some rindices =>
           let pos := bound (λ ridx, negb (l_ts <? at_ rt ridx)) rindices in
           match pos with
           | O => r
           | S pos' => emit r li (default 0 (rindices !! pos'))
           end
       end.

Fixpoint asof_rows (rt : list Z) (m : M) (r : JoinResult) (rows : list (Z * (Z * Z))) : option JoinResult :=
  match rows with
  | [] => Some r
  | p :: rest => r' ← asof_row rt m r p; asof_rows rt m r' rest
  end.

(** The two time columns are pointers that may be null. *)
Definition asof_join (lk rk : list Z) (left_time right_time : option (list Z))
    : outcome (option JoinResult) :=
  match left_time, right_time with
  | Some lt, Some rt =>
      Returned (m ← groups_of rk;
                asof_rows rt (im_for_each m (sort_by (at_ rt))) empty_result (number 0 (zip lk lt)))
  | _, _ => Thrown "AsofJoinOperator: left_time and right_time are required"
  end.

(** ** WindowJoinOperator *)

Record WindowJoinResult : Type := mkWindow {
  w_left_indices : list Z;
  agg_values : list Z;
  match_counts : list Z;
}.

(** [sum_i64]: additions of [int64_t] that wrap around. *)
Definition sum_i64 (vals : list Z) : Z := foldl (λ s v, i64 (s + v)) 0 vals.

Definition min_of (vals : list Z) : Z :=
  let m := foldl Z.min INT64_MAX vals in if m =? INT64_MAX then 0 else m.
Definition max_of (vals : list Z) : Z :=
  let m := foldl Z.max INT64_MIN vals in if m =? INT64_MIN then 0 else m.

(** [double] arithmetic: [(int64_t)((double)sum / n)], and the same with the sum
    taken in [double] too. *)
Context (avg_of_sum : Z → Z → Z) (avg_of_doubles : list Z → Z → Z).

(** Whether the rows [begin, end) of a group are consecutive. *)
Definition contiguous (idx : list Z) : bool :=
  match idx with
  | [] => true
  | base :: rest => bool_decide (Forall (λ p, p.2 = base + p.1) (number 1 rest))
  end.

(** [aggregate_window] on the slice [idx] of the group, not empty. *)
Definition aggregate_window (agg : WJAggType) (right_val : list Z) (idx : list Z) : Z :=
  let n := length idx in
  match agg with
  | COUNT => Z.of_nat n
  | _ =>
      let gathered := at_ right_val <$> idx in
      let slice := take n (drop (Z.to_nat (default 0 (head idx))) right_val) in
      let vals := if contiguous idx then Some slice
                  else if (32 <=? n)%nat then Some gathered else None in
      match agg with
      | SUM => sum_i64 (default gathered vals)
      | AVG => match vals with
               | Some v => avg_of_sum (sum_i64 v) (Z.of_nat n)
               | None => avg_of_doubles gathered (Z.of_nat n)
               end
      | MIN => min_of (default gathered vals)
      | MAX => max_of (default gathered vals)
      | COUNT => Z.of_nat n
      end
  end.

(** One left row: its aggregate and its count. *)
Definition window_row (agg : WJAggType) (before after : Z) (right_time right_val : list Z) (m : M)
    (sym l_ts : Z) : option (Z * Z) :=
  bucket ← im_find m sym;
  Some match bucket with
       | None => (0, 0)
       | Some rg =>
           let t_lo := i64 (l_ts - before) in
           let t_hi := i64 (l_ts + after) in
           let b := bound (λ ridx, at_ right_time ridx <? t_lo) rg in
           let e := bound (λ ridx, negb (t_hi <? at_ right_time ridx)) rg in
           if (e <=? b)%nat then (0, 0)
           else (aggregate_window agg right_val (take (e - b) (drop b rg)), Z.of_nat (e - b))
       end.

Fixpoint window_rows (agg : WJAggType) (before after : Z) (right_time right_val : list Z) (m : M)
    (rows : list (Z * Z)) : option (list (Z * Z)) :=
  match rows with
  | [] => Some []
  | (sym, l_ts) :: rest =>
      x ← window_row agg before after right_time right_val m sym l_ts;
      xs ← window_rows agg before after right_time right_val m rest;
      Some (x :: xs)
  end.

Definition window_join (agg : WJAggType) (before after : Z) (lk lt rk rt rv : list Z)
    : option WindowJoinResult :=
  m ← groups_of rk;
  xs ← window_rows agg before after rt rv (im_for_each m (sort_by (at_ rt))) (zip lk lt);
  Some (mkWindow (number 0 xs).*1 xs.*1 xs.*2).
End Sorted.

(** [asof_match_symbol]: the two-pointer merge of one symbol's rows. *)
Fixpoint advance_right (fuel : nat) (r_times : list Z) (l_ts : Z) (ri : Z) (last : option Z)
    : Z * option Z :=
  match fuel with
  | O => (ri, last)
  | S fuel' =>
      match r_times !! Z.to_nat ri with
      | Some t => if t <=? l_ts then advance_right fuel' r_times l_ts (ri + 1) (Some ri)
                  else (ri, last)
      | None => (ri, last)
      end
  end.

Fixpoint merge_rows (r_times : list Z) (rows : list (Z * Z)) (ri : Z) (last : option Z)
    (r : JoinResult) : JoinResult :=
  match rows with
  | [] => r
  | (li, l_ts) :: rest =>
      let '(ri, last) := advance_right (length r_times) r_times l_ts ri last in
      merge_rows r_times rest ri last
        (match last with Some lr => emit r li lr | None => r end)
  end.

Definition asof_match_symbol (l_times r_times : list Z) (r : JoinResult) : JoinResult :=
  merge_rows r_times (number 0 l_times) 0 None r.

(** ** Building groups *)

Definition group (keys : list Z) (k : Z) : option (list Z) :=
  match matches keys k with [] => None | l => Some l end.

Lemma build_groups_spec e keys m g i :
  im_rep e m g →
  Z.of_nat (size (dom g ∪ list_to_set keys)) <= e →
  ∃ m' g', build_groups m i keys = Some m' ∧ im_rep e m' g' ∧
    (∀ k, g' !! k = match g !! k with
                    | Some l => Some (l ++ matches_from i keys k)
                    | None => match matches_from i keys k with [] => None | l => Some l end
                    end) ∧
    dom g' = dom g ∪ list_to_set keys.
Proof.
  revert m g i. induction keys as [|x keys IH]; intros m g i Hrep Hsz.
  { exists m, g. split_and!; [done|done| |set_solver].
    intros k. unfold matches_from. simpl. destruct (g !! k); [by rewrite app_nil_r|done]. }
  cbn [build_groups]. set (g1 := <[x := default [] (g !! x) ++ [i]]> g).
  assert (dom g1 = {[x]} ∪ dom g) as Hdom by (unfold g1; apply leibniz_equiv, dom_insert).
  assert (dom g1 ∪ list_to_set keys = dom g ∪ list_to_set (x :: keys)) as Hd by set_solver.
  destruct (im_upsert_rep e m g x (λ l, l ++ [i]) Hrep) as (m1 & Hm1 & Hrep1).
  { fold g1. rewrite <- size_dom. etrans; [|exact Hsz]. apply Nat2Z.inj_le, subseteq_size. set_solver. }
  rewrite Hm1. simpl. fold g1 in Hrep1.
  destruct (IH m1 g1 (i + 1) Hrep1) as (m' & g' & ? & ? & Hg' & Hd'); [by rewrite Hd|].
  exists m', g'. split_and!; [done|done| |by rewrite Hd', Hd].
  intros k. rewrite Hg'. unfold matches_from. cbn [number omap list_omap fst snd].
  destruct (decide (x = k)) as [->|Hne].
  - unfold g1. rewrite lookup_insert, decide_True by done.
    destruct (g !! k); simpl; [by rewrite <- app_assoc|done].
  - unfold g1. rewrite lookup_insert_ne by done. done.
Qed.

Definition rows_ok (keys : list Z) : Prop := Z.of_nat (length keys) < 2 ^ 60.

Lemma groups_of_spec keys :
  rows_ok keys →
  ∃ m g, groups_of keys = Some m ∧ im_rep (Z.of_nat (length keys)) m g ∧
    (∀ k, g !! k = group keys k) ∧ Z.of_nat (size g) <= Z.of_nat (length keys).
Proof.
  intros Hok. unfold groups_of.
  assert (size (list_to_set keys : gset Z) <= length keys)%nat as Hsz.
  { clear. induction keys as [|k keys IH]; [done|]. simpl. rewrite size_union_alt, size_singleton.
    etrans; [apply Nat.add_le_mono_l, subseteq_size|]; [|by apply le_n_S]. set_solver. }
  destruct (build_groups_spec (Z.of_nat (length keys)) keys (im_new (Z.of_nat (length keys))) ∅ 0)
    as (m & g & ? & ? & Hg & Hd).
  - apply im_new_rep. unfold rows_ok in Hok. lia.
  - rewrite dom_empty_L, union_empty_l_L. lia.
  - exists m, g. split_and!; [done|done| |].
    + intros k. by rewrite Hg, lookup_empty.
    + rewrite <- size_dom, Hd, dom_empty_L, union_empty_l_L. lia.
Qed.

(** Looking a key up in finished groups. *)
Lemma group_find e m g keys k :
  im_rep e m g → Z.of_nat (size g) <= e → (∀ k, g !! k = group keys k) →
  im_find m k = Some (group keys k).
Proof. intros Hr Hs Hg. by rewrite (im_find_rep e m g k Hr Hs), Hg. Qed.
End Join.

(** ** Emitted rows *)

Definition add_pairs (r : JoinResult) (ps : list (Z * Z)) : JoinResult :=
  mkJoin (left_indices r ++ ps.*1) (right_indices r ++ ps.*2) (match_count r + Z.of_nat (length ps)).

Lemma add_pairs_nil r : add_pairs r [] = r.
Proof. unfold add_pairs. rewrite !app_nil_r, Z.add_0_r. by destruct r. Qed.

Lemma add_pairs_app r ps qs : add_pairs (add_pairs r ps) qs = add_pairs r (ps ++ qs).
Proof. unfold add_pairs. simpl. rewrite !fmap_app, !app_assoc, length_app. f_equal. lia. Qed.

Lemma emit_add_pairs r li ri : emit r li ri = add_pairs r [(li, ri)].
Proof. done. Qed.

Lemma foldl_emit {A} (f : A → Z * Z) l r :
  foldl (λ r x, add_pairs r [f x]) r l = add_pairs r (f <$> l).
Proof.
  revert r. induction l as [|x l IH]; intros r; simpl; [by rewrite add_pairs_nil|].
  by rewrite IH, add_pairs_app.
Qed.

(** ** The nested-loop reference *)

Definition left_rows (lk rk : list Z) : list (Z * Z) :=
  number 0 lk ≫= λ p, match matches rk p.2 with [] => [(p.1, -1)] | l => pair p.1 <$> l end.

Definition ref_join (join_type : JoinType) (lk rk : list Z) : list (Z * Z) :=
  match join_type with
  | INNER => number 0 lk ≫= λ p, pair p.1 <$> matches rk p.2
  | LEFT => left_rows lk rk
  | RIGHT => number 0 rk ≫= λ p,
      match matches lk p.2 with [] => [(-1, p.1)] | l => (λ li, (li, p.1)) <$> l end
  | FULL => left_rows lk rk ++
      omap (λ p, if decide (p.2 ∈ lk) then None else Some (-1, p.1)) (number 0 rk)
  end.

Section JoinFacts.
Context {M : Type} `{!IndexMap (list Z) [] M}.

Lemma probe_rows_emit (m : M) keys' miss hit missp (hitp : Z → Z → Z * Z) i keys r :
  (∀ k, im_find m k = Some (group keys' k)) →
  (∀ r i, miss r i = add_pairs r (missp i)) →
  (∀ r i j, hit r i j = add_pairs r [hitp i j]) →
  probe_rows m miss hit i keys r = Some (add_pairs r (number i keys ≫= λ p,
    match matches keys' p.2 with [] => missp p.1 | l => hitp p.1 <$> l end)).
Proof.
  intros Hf Hm Hh. revert i r. induction keys as [|k keys IH]; intros i r.
  { cbn. by rewrite add_pairs_nil. }
  cbn [probe_rows number]. rewrite Hf. cbn [mbind option_bind list_bind fst snd].
  rewrite IH, <- add_pairs_app. do 2 f_equal. unfold group.
  destruct (matches keys' k) as [|j l]; [by rewrite Hm|].
  rewrite <- foldl_emit. generalize (j :: l). intros l'. revert r.
  induction l' as [|x l' IHl]; intros r; [done|]. simpl. by rewrite Hh, IHl.
Qed.

(** The marks of [right_matched] after the left keys [seen]. *)
Definition marks (rk seen : list Z) : list bool := (λ k, bool_decide (k ∈ seen)) <$> rk.

Lemma mark_matches rk seen x :
  foldl (λ s j, <[Z.to_nat j := true]> s) (marks rk seen) (matches rk x) = marks rk (seen ++ [x]).
Proof.
  assert (∀ js (s : list bool) i,
    foldl (λ s j, <[Z.to_nat j := true]> s) s js !! i =
    if decide (Exists (λ j, Z.to_nat j = i) js) then (λ _, true) <$> s !! i else s !! i) as Hfold.
  { clear. induction js as [|j js IH]; intros s i; cbn [foldl].
    { by rewrite decide_False by (by intros ?%Exists_nil). }
    rewrite IH. destruct (decide (Z.to_nat j = i)) as [<-|Hne].
    - rewrite (decide_True (P := Exists _ (j :: js))) by (by left).
      destruct (decide (Z.to_nat j < length s)%nat) as [Hl|Hl].
      + rewrite list_lookup_insert_eq by done.
        destruct (lookup_lt_is_Some_2 s _ Hl) as [b ->]. simpl. by case_decide.
      + rewrite list_insert_ge, (lookup_ge_None_2 s) by lia. by case_decide.
    - rewrite list_lookup_insert_ne by done.
      assert (Exists (λ j, Z.to_nat j = i) (j :: js) ↔ Exists (λ j, Z.to_nat j = i) js) as He
        by (rewrite Exists_cons; naive_solver).
      destruct (decide (Exists (λ j, Z.to_nat j = i) js)) as [H|H].
      + by rewrite decide_True by (by rewrite He).
      + by rewrite decide_False by (by rewrite He). }
  apply list_eq. intros i. rewrite Hfold. unfold marks. rewrite !list_lookup_fmap.
  destruct (rk !! i) as [k|] eqn:Hk; simpl; [|by case_decide].
  assert (Exists (λ j, Z.to_nat j = i) (matches rk x) ↔ k = x) as Hex.
  { rewrite Exists_exists. split.
    - intros (j & [_ Hj]%elem_of_matches & <-). congruence.
    - intros ->. exists (Z.of_nat i). rewrite elem_of_matches, !Nat2Z.id. split; [split; [lia|done]|done]. }
  case_decide as Hc; rewrite Hex in Hc; f_equal; symmetry.
  - apply bool_decide_eq_true_2. rewrite elem_of_app, list_elem_of_singleton. by right.
  - apply bool_decide_ext. rewrite elem_of_app, list_elem_of_singleton. tauto.
Qed.

Lemma probe_rows_full (m : M) rk i keys r seen :
  (∀ k, im_find m k = Some (group rk k)) →
  probe_rows m (λ s li, (emit s.1 li (-1), s.2))
    (λ s li ri, (emit s.1 li ri, <[Z.to_nat ri := true]> s.2)) i keys (r, marks rk seen) =
  Some (add_pairs r (number i keys ≫= λ p,
          match matches rk p.2 with [] => [(p.1, -1)] | l => pair p.1 <$> l end),
        marks rk (seen ++ keys)).
Proof.
  intros Hf. revert i r seen. induction keys as [|k keys IH]; intros i r seen.
  { cbn. by rewrite add_pairs_nil, app_nil_r. }
  cbn [probe_rows number]. rewrite Hf. cbn [mbind option_bind list_bind fst snd]. unfold group at 1.
  assert (∀ (l : list Z) r s, foldl (λ (s : JoinResult * list bool) ri,
      (emit s.1 i ri, <[Z.to_nat ri := true]> s.2)) (r, s) l =
    (add_pairs r (pair i <$> l), foldl (λ s ri, <[Z.to_nat ri := true]> s) s l)) as Hfold.
  { clear. induction l as [|x l IH]; intros r s; cbn; [by rewrite add_pairs_nil|].
    by rewrite IH, emit_add_pairs, add_pairs_app. }
  destruct (matches rk k) as [|j l] eqn:Hm.
  - assert (marks rk seen = marks rk (seen ++ [k])) as ->.
    { by rewrite <- mark_matches, Hm. }
    rewrite emit_add_pairs, IH, <- app_assoc. by rewrite add_pairs_app.
  - rewrite Hfold, <- Hm, mark_matches, IH, <- app_assoc. by rewrite add_pairs_app.
Qed.

(** C21. The hash join computes the nested-loop join: for each of the four types
    it returns the same pairs in the same order, with [-1] for the missing side,
    and counts them. *)
Theorem hash_join_is_nested_loop join_type lk rk :
  rows_ok lk → rows_ok rk →
  hash_join (M := M) join_type lk rk =
    Some (mkJoin (ref_join join_type lk rk).*1 (ref_join join_type lk rk).*2
            (Z.of_nat (length (ref_join join_type lk rk)))).
Proof.
  intros Hl Hr. change (mkJoin _ _ _) with (add_pairs empty_result (ref_join join_type lk rk)).
  destruct (groups_of_spec lk Hl) as (ml & gl & Hml & Hrl & Hgl & Hsl).
  destruct (groups_of_spec rk Hr) as (mr & gr & Hmr & Hrr & Hgr & Hsr).
  assert (∀ k, im_find ml k = Some (group lk k)) as Hfl by (intros; by eapply group_find).
  assert (∀ k, im_find mr k = Some (group rk k)) as Hfr by (intros; by eapply group_find).
  destruct join_type; cbn [hash_join ref_join]; rewrite ?Hml, ?Hmr; cbn [mbind option_bind].
  - erewrite (probe_rows_emit mr rk _ _ (λ _, []) (λ li ri, (li, ri)));
      [|done|intros; by rewrite add_pairs_nil|done].
    do 2 f_equal. apply list_bind_ext; [|done]. intros [li k]. simpl. by destruct (matches rk k).
  - by erewrite (probe_rows_emit mr rk _ _ (λ li, [(li, -1)]) (λ li ri, (li, ri))).
  - by erewrite (probe_rows_emit ml lk _ _ (λ ri, [(-1, ri)]) (λ ri li, (li, ri))).
  - assert (replicate (length rk) false = marks rk []) as ->.
    { unfold marks. clear. induction rk as [|k rk IH]; [done|]. cbn. by rewrite IH. }
    rewrite probe_rows_full by done. cbn [mbind option_bind fst snd app].
    change (number 0 lk ≫= _) with (left_rows lk rk). rewrite <- add_pairs_app. f_equal.
    generalize (add_pairs empty_result (left_rows lk rk)). unfold marks. rewrite number_fmap.
    induction (number 0 rk) as [|[ri k] l IH]; intros r; cbn [foldl fmap list_fmap omap list_omap fst snd].
    { by rewrite add_pairs_nil. }
    rewrite IH. case_bool_decide; [by rewrite decide_True|rewrite decide_False by done].
    by rewrite emit_add_pairs, add_pairs_app.
Qed.
End JoinFacts.

Lemma hash_join_is_nested_loop_witness :
  hash_join (M := FlatHashMap (list Z)) (IndexMap0 := flat_index_map [] hash_i64) FULL [1; 2] [2; 2; 3] =
    Some (mkJoin [0; 1; 1; -1] [-1; 0; 1; 2] 4).
Proof.
  apply (hash_join_is_nested_loop (M := FlatHashMap (list Z)) (IndexMap0 := flat_index_map [] hash_i64)
    FULL [1; 2] [2; 2; 3]); unfold rows_ok; simpl; lia.
Defined.

(** ** ASOF join *)

Section SortedFacts.
Context {M : Type} `{!IndexMap (list Z) [] M}.
Context (sort_by : (Z → Z) → list Z → list Z).
Context (sort_perm : ∀ f l, sort_by f l ≡ₚ l).
Context (sort_sorted : ∀ f l, StronglySorted (λ a b, f a <= f b) (sort_by f l)).

(** The groups after the [for_each] that sorts them. *)
Lemma sorted_groups rk (f : Z → Z) :
  rows_ok rk →
  ∃ m, groups_of (M := M) rk = Some m ∧
    ∀ k, im_find (im_for_each m (sort_by f)) k = Some (sort_by f <$> group rk k).
Proof.
  intros Hr. destruct (groups_of_spec rk Hr) as (m & g & Hm & Hrep & Hg & Hsz).
  exists m. split; [done|]. intros k.
  rewrite (im_find_rep _ _ _ k (im_for_each_rep _ _ _ (sort_by f) Hrep)).
  - by rewrite lookup_fmap, Hg.
  - by rewrite map_size_fmap.
Qed.

(** The right rows of a symbol that are not later than [ts]. *)
Definition candidates (rk rt : list Z) (sym ts : Z) : list Z :=
  filter (λ j, at_ rt j <= ts) (matches rk sym).

Lemma asof_row_spec rk rt m r li sym ts :
  (∀ k, im_find m k = Some (sort_by (at_ rt) <$> group rk k)) →
  (candidates rk rt sym ts = [] ∧ asof_row rt m r (li, (sym, ts)) = Some r) ∨
  ∃ ri, asof_row rt m r (li, (sym, ts)) = Some (emit r li ri) ∧ ri ∈ candidates rk rt sym ts ∧
    ∀ j, j ∈ candidates rk rt sym ts → at_ rt j <= at_ rt ri.
Proof.
  intros Hf. unfold asof_row. rewrite Hf. cbn [mbind option_bind]. unfold candidates, group.
  destruct (matches rk sym) as [|x xs]; [by left|]. cbn [fmap option_fmap option_map].
  set (l := sort_by (at_ rt) (x :: xs)).
  assert (l ≡ₚ x :: xs) as Hp by apply sort_perm.
  assert (StronglySorted (λ a b, at_ rt a <= at_ rt b) l) as Hs by apply sort_sorted.
  assert (∀ j, j ∈ filter (λ j, at_ rt j <= ts) (x :: xs) ↔ j ∈ l ∧ at_ rt j <= ts) as Hin
    by (intros j; rewrite list_elem_of_filter, Hp; tauto).
  set (before := λ ridx, negb (ts <? at_ rt ridx)).
  assert (∀ y, before y = true ↔ at_ rt y <= ts) as Hb.
  { intros y. unfold before. rewrite negb_true_iff, Z.ltb_ge. done. }
  pose proof (sorted_partition before (λ a b, at_ rt a <= at_ rt b) l Hs
    ltac:(intros y z Hyz; rewrite !Hb; simpl in Hyz; lia)) as Hpart.
  set (n := length (filter (λ x, before x = true) l)) in *.
  rewrite (bound_spec before l n (length_filter _ _) Hpart).
  destruct n as [|n'] eqn:Hn.
  - left. split; [|done]. destruct (filter _ (x :: xs)) as [|j js] eqn:He; [done|].
    assert (j ∈ l ∧ at_ rt j <= ts) as [[i Hi]%list_elem_of_lookup Hj] by (rewrite <- Hin; by left).
    apply Hb, (Hpart _ _ Hi) in Hj. lia.
  - right. destruct (lookup_lt_is_Some_2 l n') as [ri Hri].
    { pose proof (length_filter (λ x, before x = true) l). lia. }
    exists ri. rewrite Hri. split; [done|]. split.
    + apply Hin. split; [by eapply list_elem_of_lookup_2|]. apply Hb, (Hpart _ _ Hri). lia.
    + intros j [[i Hi]%list_elem_of_lookup Hj]%Hin. apply Hb, (Hpart _ _ Hi) in Hj.
      destruct (decide (i = n')) as [->|Hne]; [by simplify_eq|].
      eapply (sorted_lookup_lt (λ a b, at_ rt a <= at_ rt b) l i n'); [done..|]. lia.
Qed.

(** The ASOF join: a left row appears exactly when some right row of its key
    is not later than it, left rows keep their order, and the row matched is a
    latest one among those. The columns' rows are paired by position. *)
Theorem asof_join_latest lk lt rk rt :
  rows_ok rk →
  ∃ ps, asof_join (M := M) sort_by lk rk (Some lt) (Some rt) =
          Returned (Some (mkJoin ps.*1 ps.*2 (Z.of_nat (length ps)))) ∧
    ps.*1 = omap (λ p, if decide (candidates rk rt p.2.1 p.2.2 = []) then None else Some p.1)
              (number 0 (zip lk lt)) ∧
    ∀ li ri sym ts, (li, ri) ∈ ps → (li, (sym, ts)) ∈ number 0 (zip lk lt) →
      ri ∈ candidates rk rt sym ts ∧
      ∀ j, j ∈ candidates rk rt sym ts → at_ rt j <= at_ rt ri.
Proof.
  intros Hr. destruct (sorted_groups rk (at_ rt) Hr) as (m & Hm & Hf). unfold asof_join.
  rewrite Hm. cbn [mbind option_bind].
  set (m' := im_for_each m (sort_by (at_ rt))) in *.
  assert (∀ rows r, ∃ ps, asof_rows rt m' r rows = Some (add_pairs r ps) ∧
    ps.*1 = omap (λ p, if decide (candidates rk rt p.2.1 p.2.2 = []) then None else Some p.1) rows ∧
    Forall (λ q, ∃ sym ts, (q.1, (sym, ts)) ∈ rows ∧ q.2 ∈ candidates rk rt sym ts ∧
      ∀ j, j ∈ candidates rk rt sym ts → at_ rt j <= at_ rt q.2) ps) as Hrows.
  { induction rows as [|[li [sym ts]] rows IH]; intros r.
    { exists []. cbn. rewrite add_pairs_nil. split_and!; [done|done|constructor]. }
    cbn [asof_rows]. destruct (asof_row_spec rk rt m' r li sym ts Hf) as [[Hc ->]|(ri & -> & Hri & Hmax)].
    - cbn [mbind option_bind]. destruct (IH r) as (ps & -> & Hps & Hall). exists ps.
      split; [done|]. cbn [omap list_omap fst snd]. rewrite decide_True by done. split; [done|].
      eapply Forall_impl; [exact Hall|]. intros q (s & t & ? & ? & ?). exists s, t.
      split_and!; [by right|done|done].
    - cbn [mbind option_bind]. destruct (IH (emit r li ri)) as (ps & -> & Hps & Hall).
      exists ((li, ri) :: ps). rewrite emit_add_pairs, add_pairs_app. split; [done|].
      cbn [omap list_omap fst snd fmap list_fmap]. rewrite decide_False by (intros Hc; rewrite Hc in Hri; by apply elem_of_nil in Hri).
      split; [by rewrite Hps|]. constructor.
      + exists sym, ts. split_and!; [by left|done|done].
      + eapply Forall_impl; [exact Hall|]. intros q (s & t & ? & ? & ?). exists s, t.
        split_and!; [by right|done|done]. }
  destruct (Hrows (number 0 (zip lk lt)) empty_result) as (ps & Hps & Hl & Hall). exists ps.
  rewrite Hps. split_and!; [done|done|]. intros li ri sym ts Hin Hrow.
  rewrite Forall_forall in Hall. destruct (Hall _ Hin) as (s & t & Hst & Hx). simpl in *.
  apply elem_of_number in Hst as [_ Hst], Hrow as [_ Hrow].
  by simplify_eq.
Qed.

(** ** Window join *)

(** The right rows of a symbol inside a time window. *)
Definition in_window (rk rt : list Z) (sym t_lo t_hi : Z) : list Z :=
  filter (λ j, t_lo <= at_ rt j <= t_hi) (matches rk sym).

(** The aggregate of the values in a window; none gives 0. *)
Definition ref_aggregate (agg : WJAggType) (vals : list Z) : Z :=
  match agg with
  | COUNT => Z.of_nat (length vals)
  | MIN => min_of vals
  | MAX => max_of vals
  | _ => i64 (foldr Z.add 0 vals)
  end.

Lemma sum_i64_spec vals : sum_i64 vals = i64 (foldr Z.add 0 vals).
Proof.
  unfold sum_i64. assert (∀ s, foldl (λ s v, i64 (s + v)) (i64 s) vals = i64 (s + foldr Z.add 0 vals)) as H.
  { induction vals as [|v vals IH]; intros s; simpl; [by rewrite Z.add_0_r|].
    replace (i64 (i64 s + v)) with (i64 (s + v)); [rewrite IH; f_equal; lia|].
    apply i64_mod_eq. by rewrite <- (Z.add_mod_idemp_l (i64 s)), i64_mod, Z.add_mod_idemp_l by lia. }
  change 0 with (i64 0) at 1. rewrite H. f_equal.
Qed.

Lemma ref_aggregate_perm agg l k : l ≡ₚ k → ref_aggregate agg l = ref_aggregate agg k.
Proof.
  intros Hp.
  assert (foldr Z.add 0 l = foldr Z.add 0 k) as Hsum by (induction Hp; simpl; lia).
  destruct agg; simpl; [by rewrite Hsum|by rewrite Hsum|..].
  - f_equal. by apply Permutation_length.
  - unfold min_of. rewrite (foldl_permutation Z.min l k); [done|intros; lia|done].
  - unfold max_of. rewrite (foldl_permutation Z.max l k); [done|intros; lia|done].
Qed.

(** Consecutive rows are a slice of the column. *)
Lemma contiguous_slice rv idx :
  contiguous idx = true → Forall (λ j, 0 <= j < Z.of_nat (length rv)) idx →
  take (length idx) (drop (Z.to_nat (default 0 (head idx))) rv) = at_ rv <$> idx.
Proof.
  destruct idx as [|base rest]; [done|]. simpl. intros Hc%bool_decide_eq_true Hr.
  assert (∀ l b i, Forall (λ p, p.2 = b + p.1) (number i l) → 0 <= b + i →
    Forall (λ j, 0 <= j < Z.of_nat (length rv)) l →
    take (length l) (drop (Z.to_nat (b + i)) rv) = at_ rv <$> l) as Hgen.
  { clear. induction l as [|x l IH]; intros b i Hn Hbi Hr; [done|].
    cbn [number] in Hn. apply Forall_cons in Hn as [Hx Hn], Hr as [Hxr Hr]. simpl in Hx. subst x.
    destruct (lookup_lt_is_Some_2 rv (Z.to_nat (b + i))) as [v Hv]; [lia|].
    rewrite (drop_S _ _ _ Hv). cbn [length take fmap list_fmap]. f_equal; [unfold at_; by rewrite Hv|].
    replace (S (Z.to_nat (b + i))) with (Z.to_nat (b + (i + 1))) by lia. apply IH; [done|lia|done]. }
  replace base with (base + 0) at 1 by lia.
  apply (Hgen (base :: rest) base 0); [|apply Forall_cons in Hr as [? _]; lia|done].
  cbn [number]. constructor; [simpl; lia|done].
Qed.

Context (avg_of_sum : Z → Z → Z) (avg_of_doubles : list Z → Z → Z).

Lemma aggregate_window_spec agg rv idx :
  agg ≠ AVG → Forall (λ j, 0 <= j < Z.of_nat (length rv)) idx →
  aggregate_window avg_of_sum avg_of_doubles agg rv idx = ref_aggregate agg (at_ rv <$> idx).
Proof.
  intros Ha Hr. unfold aggregate_window.
  destruct (contiguous idx) eqn:Hc; [rewrite (contiguous_slice rv idx Hc Hr)|];
    destruct (32 <=? length idx)%nat; destruct agg; simpl;
    rewrite ?sum_i64_spec, ?length_fmap; done.
Qed.

Lemma window_row_spec agg before after rk rt rv m' sym t :
  agg ≠ AVG → length rv = length rk →
  (∀ k, im_find m' k = Some (sort_by (at_ rt) <$> group rk k)) →
  window_row avg_of_sum avg_of_doubles agg before after rt rv m' sym t =
    let w := in_window rk rt sym (i64 (t - before)) (i64 (t + after)) in
    Some (ref_aggregate agg (at_ rv <$> w), Z.of_nat (length w)).
Proof.
  intros Hagg Hlen Hf. unfold window_row. rewrite Hf. cbn [mbind option_bind]. unfold in_window, group.
  assert (Forall (λ j, 0 <= j < Z.of_nat (length rv)) (matches rk sym)) as Hmr.
  { apply Forall_forall. intros j [? Hj%lookup_lt_Some]%elem_of_matches. lia. }
  destruct (matches rk sym) as [|x xs]; [by destruct agg|].
  cbn [fmap option_fmap option_map]. set (l := sort_by (at_ rt) (x :: xs)).
  assert (l ≡ₚ x :: xs) as Hp by apply sort_perm.
  assert (StronglySorted (λ a b, at_ rt a <= at_ rt b) l) as Hs by apply sort_sorted.
  set (t_lo := i64 (t - before)). set (t_hi := i64 (t + after)).
  set (lo := λ ridx, at_ rt ridx <? t_lo). set (hi := λ ridx, negb (t_hi <? at_ rt ridx)).
  assert (∀ y, lo y = true ↔ at_ rt y < t_lo) as Hlo by (intros y; apply Z.ltb_lt).
  assert (∀ y, hi y = true ↔ at_ rt y <= t_hi) as Hhi
    by (intros y; unfold hi; rewrite negb_true_iff, Z.ltb_ge; done).
  pose proof (sorted_partition lo (λ a b, at_ rt a <= at_ rt b) l Hs
    ltac:(intros y z Hyz; rewrite !Hlo; simpl in Hyz; lia)) as Hplo.
  pose proof (sorted_partition hi (λ a b, at_ rt a <= at_ rt b) l Hs
    ltac:(intros y z Hyz; rewrite !Hhi; simpl in Hyz; lia)) as Hphi.
  set (b := length (filter (λ x, lo x = true) l)) in *.
  set (e := length (filter (λ x, hi x = true) l)) in *.
  rewrite (bound_spec lo l b (length_filter _ _) Hplo), (bound_spec hi l e (length_filter _ _) Hphi).
  assert (filter (λ j, t_lo <= at_ rt j <= t_hi) l = take (e - b) (drop b l)) as Hsl.
  { apply filter_slice. intros i y Hi. specialize (Hplo i y Hi). specialize (Hphi i y Hi).
    rewrite Hlo in Hplo. rewrite Hhi in Hphi. split; [|intros; split]; intuition lia. }
  assert (filter (λ j, t_lo <= at_ rt j <= t_hi) (x :: xs) ≡ₚ take (e - b) (drop b l)) as Hpw
    by (by rewrite <- Hsl, Hp).
  cbv zeta. rewrite (ref_aggregate_perm _ _ _ (fmap_Permutation (at_ rv) _ _ Hpw)).
  rewrite (Permutation_length Hpw), length_take, length_drop.
  assert (e <= length l)%nat by apply length_filter.
  destruct (Nat.leb_spec e b) as [Hle|Hgt].
  - replace (e - b)%nat with 0%nat by lia. simpl. by destruct agg.
  - rewrite aggregate_window_spec; [do 3 f_equal; lia|done|].
    rewrite <- Hpw. apply Forall_forall. intros j [_ Hj]%list_elem_of_filter.
      rewrite Forall_forall in Hmr. by apply Hmr.
Qed.

(** The window join: for each left row, in order, the count is the number of
    right rows of its key whose time lies in [t - before, t + after], and the
    aggregate (other than the floating-point average) is that of exactly their
    values, whichever of the contiguous, gathered or scalar paths computes it. *)
Theorem window_join_spec agg before after lk lt rk rt rv :
  rows_ok rk → agg ≠ AVG → length rv = length rk →
  window_join (M := M) sort_by avg_of_sum avg_of_doubles agg before after lk lt rk rt rv =
    let windows := (λ p, in_window rk rt p.1 (i64 (p.2 - before)) (i64 (p.2 + after))) <$> zip lk lt in
    Some (mkWindow (number 0 windows).*1
            ((λ w, ref_aggregate agg (at_ rv <$> w)) <$> windows)
            ((λ w, Z.of_nat (length w)) <$> windows)).
Proof.
  intros Hr Hagg Hlen. destruct (sorted_groups rk (at_ rt) Hr) as (m & Hm & Hf). unfold window_join.
  rewrite Hm. cbn [mbind option_bind]. set (m' := im_for_each m (sort_by (at_ rt))) in *.
  assert (∀ rows, window_rows avg_of_sum avg_of_doubles agg before after rt rv m' rows =
    Some ((λ p, let w := in_window rk rt p.1 (i64 (p.2 - before)) (i64 (p.2 + after)) in
             (ref_aggregate agg (at_ rv <$> w), Z.of_nat (length w))) <$> rows)) as Hrows.
  { induction rows as [|[sym t] rows IH]; [done|]. cbn [window_rows].
    rewrite (window_row_spec agg before after rk rt rv m' sym t Hagg Hlen Hf).
    cbn [mbind option_bind]. by rewrite IH. }
  rewrite Hrows. cbn [mbind option_bind]. cbv zeta. do 2 f_equal; [|by rewrite <- !list_fmap_compose..].
  rewrite !number_fmap, <- !list_fmap_compose. done.
Qed.
End SortedFacts.

(** A concrete [std::sort]. *)
Definition sort_with (f : Z → Z) (l : list Z) : list Z :=
  merge_sort (H := λ a b, Z_le_dec (f a) (f b)) (λ a b, f a <= f b) l.

Lemma sort_with_perm f l : sort_with f l ≡ₚ l.
Proof. apply merge_sort_Permutation. Qed.

Lemma sort_with_sorted f l : StronglySorted (λ a b, f a <= f b) (sort_with f l).
Proof.
  apply StronglySorted_merge_sort.
  - intros x y z. lia.
  - intros x y. lia.
Qed.

Lemma asof_join_latest_witness :
  let lk := [1; 2; 1] in let lt := [10; 10; 3] in
  let rk := [1; 1; 3] in let rt := [9; 5; 1] in
  ∃ ps, asof_join (M := FlatHashMap (list Z)) (IndexMap0 := flat_index_map [] hash_i64) sort_with
      lk rk (Some lt) (Some rt) = Returned (Some (mkJoin ps.*1 ps.*2 (Z.of_nat (length ps)))) ∧
    ps.*1 = omap (λ p, if decide (candidates rk rt p.2.1 p.2.2 = []) then None else Some p.1)
              (number 0 (zip lk lt)) ∧
    ∀ li ri sym ts, (li, ri) ∈ ps → (li, (sym, ts)) ∈ number 0 (zip lk lt) →
      ri ∈ candidates rk rt sym ts ∧
      ∀ j, j ∈ candidates rk rt sym ts → at_ rt j <= at_ rt ri.
Proof.
  apply (asof_join_latest (M := FlatHashMap (list Z)) (IndexMap0 := flat_index_map [] hash_i64)
    sort_with sort_with_perm sort_with_sorted).
  unfold rows_ok. simpl. lia.
Defined.

Lemma window_join_spec_witness :
  window_join (M := FlatHashMap (list Z)) (IndexMap0 := flat_index_map [] hash_i64) sort_with
    (λ _ _, 0) (λ _ _, 0) SUM 5 0 [1; 2] [10; 10] [1; 1; 1] [10; 4; 6] [100; 7; 30] =
  Some (mkWindow [0; 1] [130; 0] [2; 0]).
Proof.
  apply (window_join_spec (M := FlatHashMap (list Z)) (IndexMap0 := flat_index_map [] hash_i64)
    sort_with sort_with_perm sort_with_sorted (λ _ _, 0) (λ _ _, 0) SUM 5 0
    [1; 2] [10; 10] [1; 1; 1] [10; 4; 6] [100; 7; 30]); [unfold rows_ok; simpl; lia|done|done].
Defined.

(** ** The two-pointer merge *)

Definition last_before (r_times : list Z) (l_ts : Z) : option Z :=
  match length (filter (λ t, t <= l_ts) r_times) with O => None | S n => Some (Z.of_nat n) end.

Lemma filter_le_mono (l : list Z) a b :
  a <= b → (length (filter (λ t, (t <= a)%Z) l) <= length (filter (λ t, (t <= b)%Z) l))%nat.
Proof.
  intros Hab. induction l as [|x l IH]; [done|]. rewrite !filter_cons.
  repeat case_decide; simpl; lia.
Qed.

Lemma advance_right_spec r_times l_ts fuel ri last :
  StronglySorted Z.le r_times →
  let n := length (filter (λ t, t <= l_ts) r_times) in
  (ri <= n)%nat → (n - ri <= fuel)%nat →
  last = (match ri with O => None | S k => Some (Z.of_nat k) end) →
  advance_right fuel r_times l_ts (Z.of_nat ri) last = (Z.of_nat n, last_before r_times l_ts).
Proof.
  intros Hs n Hn Hfuel ->.
  assert (∀ i x, r_times !! i = Some x → (x <= l_ts ↔ (i < n)%nat)) as Hp.
  { intros i x Hi. rewrite <- Z.leb_le.
    rewrite (sorted_partition (λ t, t <=? l_ts) Z.le r_times Hs) by (done || intros ??; rewrite !Z.leb_le; lia).
    unfold n. erewrite list_filter_iff; [done|]. intros y. by rewrite Z.leb_le. }
  revert ri Hn Hfuel. induction fuel as [|fuel IH]; intros ri Hn Hfuel; cbn [advance_right].
  - assert (ri = n) as -> by lia. done.
  - rewrite Nat2Z.id. destruct (decide (ri = n)) as [->|Hne].
    + destruct (r_times !! n) as [t|] eqn:Ht; [|done]. specialize (Hp _ _ Ht).
      destruct (Z.leb_spec t l_ts); [lia|done].
    + destruct (lookup_lt_is_Some_2 r_times ri) as [t Ht].
      { pose proof (length_filter (λ t, t <= l_ts) r_times). lia. }
      rewrite Ht, (proj2 (Z.leb_le _ _)) by (apply (Hp _ _ Ht); lia).
      replace (Z.of_nat ri + 1) with (Z.of_nat (S ri)) by lia. apply (IH (S ri)); lia.
Qed.

(** The two-pointer merge of [asof_match_symbol] agrees with a search per row. *)
Theorem two_pointer_is_search l_times r_times r :
  StronglySorted Z.le l_times → StronglySorted Z.le r_times →
  asof_match_symbol l_times r_times r =
  add_pairs r (omap (λ p, pair p.1 <$> last_before r_times p.2) (number 0 l_times)).
Proof.
  intros Hl Hr. unfold asof_match_symbol.
  assert (∀ ls i ri r, StronglySorted Z.le ls →
    Forall (λ t, (ri <= length (filter (λ x, (x <= t)%Z) r_times))%nat) ls →
    merge_rows r_times (number i ls) (Z.of_nat ri)
      (match ri with O => None | S k => Some (Z.of_nat k) end) r =
    add_pairs r (omap (λ p, pair p.1 <$> last_before r_times p.2) (number i ls))) as Hgen.
  { clear Hl. induction ls as [|t ls IH]; intros i ri r0 Hs Hf; [by rewrite add_pairs_nil|].
    apply Forall_cons in Hf as [Ht Hf].
    apply StronglySorted_inv in Hs as [Hs Hall]. cbn [number merge_rows].
    rewrite (advance_right_spec r_times t (length r_times) ri _ Hr Ht); [|..|done].
    2:{ pose proof (length_filter (λ x, x <= t) r_times). lia. }
    unfold last_before at 1. rewrite (IH (i + 1)); [|done|].
    - cbn [omap list_omap fst snd]. unfold last_before.
      destruct (length (filter (λ t0, t0 <= t) r_times)); simpl; [done|].
      by rewrite emit_add_pairs, add_pairs_app.
    - eapply Forall_impl; [exact Hall|]. intros t' Ht'. simpl in *. by apply filter_le_mono. }
  apply (Hgen l_times 0 0%nat r Hl). apply Forall_forall. lia.
Qed.
