(* ===== verification/Arena.v ===== *)
(** * ArenaAllocator: the lock-free bump allocator

    Models [include/zeptodb/storage/arena_allocator.h],
    [src/storage/arena_allocator.cpp] and [align_up] of
    [include/zeptodb/common/types.h]. A pointer is an offset from the base of the
    mapping ([None] is [nullptr]); sizes are [size_t] and wrap modulo 2^64. The
    mapping itself ([mmap], NUMA) is the operating system's. The compare-exchange
    loop of [allocate] is also a step relation of threads that interleave. *)

From stdpp Require Import base gmap sets list relations sorting.
From Stdlib Require Import ZArith Lia.
From S2P Require Import Prelude.

Open Scope Z_scope.

Definition CACHE_LINE_SIZE : Z := 64.
Definition HUGEPAGE_SIZE_2M : Z := 2 * 1024 * 1024.
Definition DEFAULT_ARENA_SIZE : Z := 256 * 1024 * 1024.

(** [(value + alignment - 1) & ~(alignment - 1)] on [size_t]. *)
Definition align_up (value alignment : Z) : Z :=
  Z.land (u64 (value + alignment - 1)) (u64 (Z.lnot (alignment - 1))).

Record Arena : Type := mkArena {
  total_size_ : Z;
  offset_ : Z;
}.

(** The constructor, once the mapping succeeded. *)
Definition make_arena (total_size : Z) (use_hugepages : bool) : Arena :=
  mkArena (if use_hugepages then align_up total_size HUGEPAGE_SIZE_2M else total_size) 0.

(** The body of the loop for a loaded offset [current]. *)
Definition attempt (total current size alignment : Z) : option (Z * Z) :=
  let aligned_offset := align_up current alignment in
  let new_offset := u64 (aligned_offset + size) in
  if total <? new_offset then None else Some (aligned_offset, new_offset).

(** [allocate] without interference. *)
Definition allocate (a : Arena) (size alignment : Z) : option Z * Arena :=
  match attempt (total_size_ a) (offset_ a) size alignment with
  | None => (None, a)
  | Some (aligned_offset, new_offset) => (Some aligned_offset, mkArena (total_size_ a) new_offset)
  end.

(** [allocate_array<T>]: [sizeof(T) * count] bytes, aligned to a cache line. *)
Definition allocate_array (a : Arena) (sizeof alignof count : Z) : option Z * Arena :=
  allocate a (u64 (sizeof * count)) (Z.max alignof CACHE_LINE_SIZE).

Definition reset (a : Arena) : Arena := mkArena (total_size_ a) 0.
Definition total_capacity (a : Arena) : Z := total_size_ a.
Definition used_bytes (a : Arena) : Z := offset_ a.
Definition free_bytes (a : Arena) : Z := u64 (total_size_ a - used_bytes a).

(** ** Alignment *)

Lemma align_up_spec value k :
  0 <= k < 64 → 0 <= value → value + 2 ^ k <= 2 ^ 64 →
  align_up value (2 ^ k) = (value + 2 ^ k - 1) / 2 ^ k * 2 ^ k.
Proof.
  intros Hk Hv Hb. unfold align_up. assert (0 < 2 ^ k) by (apply Z.pow_pos_nonneg; lia).
  rewrite (wrap_small 64 (value + _ - 1)) by lia.
  set (x := value + 2 ^ k - 1). unfold wrap. rewrite <- Z.land_ones by lia.
  rewrite Z.land_assoc, (Z.land_comm x), <- Z.land_assoc.
  rewrite (Z.land_ones x), (Z.mod_small x) by lia.
  rewrite Z.land_comm. replace (2 ^ k - 1) with (Z.ones k) by (rewrite Z.ones_equiv; lia).
  rewrite <- Z.ldiff_land, Z.ldiff_ones_r by lia.
  by rewrite Z.shiftl_mul_pow2, Z.shiftr_div_pow2 by lia.
Qed.

Definition is_pow2 (alignment : Z) : Prop := ∃ k, 0 <= k < 62 ∧ alignment = 2 ^ k.

Lemma align_up_bounds value alignment :
  is_pow2 alignment → 0 <= value < 2 ^ 62 →
  value <= align_up value alignment < value + alignment ∧
  align_up value alignment mod alignment = 0.
Proof.
  intros (k & Hk & ->) Hv. assert (0 < 2 ^ k) by (apply Z.pow_pos_nonneg; lia).
  assert (2 ^ k <= 2 ^ 62) by (apply Z.pow_le_mono_r; lia).
  rewrite align_up_spec by lia. split; [|apply Z_mod_mult].
  pose proof (Z.div_mod (value + 2 ^ k - 1) (2 ^ k)).
  pose proof (Z.mod_pos_bound (value + 2 ^ k - 1) (2 ^ k)). lia.
Qed.

(** ** Successful attempts *)

(** Sizes that cannot wrap: the mapping is below 2^61 bytes. *)
Definition arena_ok (a : Arena) : Prop := 0 <= offset_ a <= total_size_ a ∧ total_size_ a < 2 ^ 61.
Definition request_ok (size alignment : Z) : Prop :=
  0 <= size < 2 ^ 62 ∧ is_pow2 alignment ∧ alignment < 2 ^ 61.

Lemma attempt_spec total current size alignment p new :
  0 <= current <= total → total < 2 ^ 61 → request_ok size alignment →
  attempt total current size alignment = Some (p, new) →
  current <= p ∧ p mod alignment = 0 ∧ new = p + size ∧ new <= total.
Proof.
  intros Hc Ht (Hs & Hp & Ha) H. unfold attempt in H.
  destruct (align_up_bounds current alignment Hp) as [Hal Hmod]; [lia|].
  rewrite wrap_small in H by lia.
  destruct (Z.ltb_spec total (align_up current alignment + size)); [done|]. simplify_eq.
  split_and!; [lia|done|done|lia].
Qed.

(** A block [start, start + len), with the alignment it was asked for. *)
Record block : Type := mkBlock { b_start : Z; b_len : Z; b_align : Z }.

Definition disjoint_blocks (x y : block) : Prop :=
  b_start x + b_len x <= b_start y ∨ b_start y + b_len y <= b_start x.

Definition block_ok (total : Z) (b : block) : Prop :=
  0 <= b_start b ∧ 0 <= b_len b ∧ b_start b + b_len b <= total ∧ b_start b mod b_align b = 0.

(** ** Concurrent allocation

    A thread asks for [size] bytes: it loads the offset, computes, and tries to
    exchange; [g_blocks] are the blocks handed out so far. *)
Inductive athread : Type :=
  | ALoad (size alignment : Z)
  | ATry (size alignment current : Z)
  | ADone (result : option Z).

Record arena_state : Type := mkAS {
  as_arena : Arena;
  as_threads : list athread;
  as_blocks : list block; (** the latest first *)
}.

Inductive arena_step : relation arena_state :=
  | as_load i size al a ts bs :
      ts !! i = Some (ALoad size al) →
      arena_step (mkAS a ts bs) (mkAS a (<[i := ATry size al (offset_ a)]> ts) bs)
  | as_exhausted i size al cur a ts bs :
      ts !! i = Some (ATry size al cur) → attempt (total_size_ a) cur size al = None →
      arena_step (mkAS a ts bs) (mkAS a (<[i := ADone None]> ts) bs)
  | as_exchange i size al a ts bs p new :
      ts !! i = Some (ATry size al (offset_ a)) →
      attempt (total_size_ a) (offset_ a) size al = Some (p, new) →
      arena_step (mkAS a ts bs)
        (mkAS (mkArena (total_size_ a) new) (<[i := ADone (Some p)]> ts) (mkBlock p size al :: bs))
  | as_retry i size al cur a ts bs :
      (* the offset has moved, or the weak exchange failed spuriously *)
      ts !! i = Some (ATry size al cur) →
      arena_step (mkAS a ts bs) (mkAS a (<[i := ATry size al (offset_ a)]> ts) bs).

Definition arena_start (a : Arena) (requests : list (Z * Z)) : arena_state :=
  mkAS a ((λ r, ALoad r.1 r.2) <$> requests) [].

Definition thread_ok (t : athread) : Prop :=
  match t with ALoad s al | ATry s al _ => request_ok s al | ADone _ => True end.

Record arena_inv (s : arena_state) : Prop := {
  ai_arena : arena_ok (as_arena s);
  ai_threads : Forall thread_ok (as_threads s);
  ai_blocks : Forall (block_ok (total_size_ (as_arena s))) (as_blocks s);
  ai_below : Forall (λ b, b_start b + b_len b <= offset_ (as_arena s)) (as_blocks s);
  ai_sorted : StronglySorted disjoint_blocks (as_blocks s);
}.

Lemma arena_inv_step s s' : arena_inv s → arena_step s s' → arena_inv s'.
Proof.
  intros [Ha Ht Hb Hbel Hs] Hstep. destruct Hstep as
    [i size al a ts bs Hi|i size al cur a ts bs Hi Hn|i size al a ts bs p new Hi Hat|i size al cur a ts bs Hi];
    simpl in *.
  - split; try done. apply Forall_insert; [done|]. by apply (Forall_lookup_1 _ _ _ _ Ht) in Hi.
  - split; try done. by apply Forall_insert.
  - pose proof (Forall_lookup_1 _ _ _ _ Ht Hi) as Hr. simpl in Hr. destruct Ha as [Ho Hto].
    destruct (attempt_spec _ _ _ _ _ _ Ho Hto Hr Hat) as (Hp & Hm & -> & Hle).
    destruct Hr as ((? & ?) & _). split; simpl.
    + split; simpl; lia.
    + by apply Forall_insert.
    + constructor; [|done]. unfold block_ok. simpl. split_and!; [lia..|done].
    + constructor; simpl; [lia|]. eapply Forall_impl; [exact Hbel|]. simpl. lia.
    + constructor; [done|]. eapply Forall_impl; [exact Hbel|]. intros b Hbb. right. simpl in *. lia.
  - split; try done. apply Forall_insert; [done|]. by apply (Forall_lookup_1 _ _ _ _ Ht) in Hi.
Qed.

(** Concurrent allocations never overlap: however the compare-exchange loops
    of any number of threads interleave, the blocks handed out are aligned as
    asked, lie inside the arena and are pairwise disjoint. *)
Theorem concurrent_allocations_disjoint a requests s :
  arena_ok a → Forall (λ r, request_ok r.1 r.2) requests →
  rtc arena_step (arena_start a requests) s →
  Forall (block_ok (total_size_ (as_arena s))) (as_blocks s) ∧
  ∀ i j x y, as_blocks s !! i = Some x → as_blocks s !! j = Some y → i ≠ j → disjoint_blocks x y.
Proof.
  intros Ha Hr Hrun.
  assert (arena_inv s) as [_ _ Hb _ Hs].
  { assert (arena_inv (arena_start a requests)) as H0.
    { split; simpl; [done| |constructor..]. apply Forall_fmap. eapply Forall_impl; [exact Hr|done]. }
    revert H0. induction Hrun as [|x y z Hxy _ IH]; intros Hx; [done|]. by eapply IH, arena_inv_step. }
  split; [done|]. intros i j x y Hi Hj Hij. destruct (decide (i < j)%nat).
  - by eapply (sorted_lookup_lt disjoint_blocks _ i j).
  - assert (disjoint_blocks y x) as [?|?] by (eapply (sorted_lookup_lt disjoint_blocks _ j i); try done; lia);
      [by right|by left].
Qed.

Lemma concurrent_allocations_disjoint_witness :
  let s := mkAS (mkArena 4096 164) [ADone (Some 128); ADone (Some 0)] [mkBlock 128 36 64; mkBlock 0 100 64] in
  Forall (block_ok (total_size_ (as_arena s))) (as_blocks s) ∧
  ∀ i j x y, as_blocks s !! i = Some x → as_blocks s !! j = Some y → i ≠ j → disjoint_blocks x y.
Proof.
  assert (request_ok 36 64 ∧ request_ok 100 64) as [? ?].
  { split; (split; [lia|split; [|lia]]; exists 6; split; [lia|done]). }
  apply (concurrent_allocations_disjoint (mkArena 4096 0) [(36, 64); (100, 64)]).
  - split; simpl; lia.
  - apply Forall_cons_2; [done|]. apply Forall_cons_2; [done|]. apply Forall_nil_2.
  - eapply rtc_l; [by apply (as_load 0 36 64)|]. eapply rtc_l; [by apply (as_load 1 100 64)|].
    eapply rtc_l; [by apply (as_exchange 1 100 64 _ _ _ 0 100)|].
    eapply rtc_l; [by apply (as_retry 0 36 64 0)|].
    eapply rtc_once. by apply (as_exchange 0 36 64 (mkArena 4096 100) [ATry 36 64 100; ADone (Some 0)]
      [mkBlock 0 100 64] 128 164).
Defined.

(** The exhaustion check is done after the addition: a request that wraps
    [size_t] is granted, moves the offset backwards, and the next allocation
    overlaps a live one. *)
Theorem allocate_overflow_overlaps :
  let a0 := mkArena 4096 0 in
  let '(p0, a1) := allocate a0 64 64 in
  let '(p1, a2) := allocate a1 (2 ^ 64 - 64) 64 in
  let '(p2, a3) := allocate a2 64 64 in
  p0 = Some 0 ∧ p1 = Some 64 ∧ offset_ a2 = 0 ∧ p2 = Some 0.
Proof. by vm_compute. Qed.
