(* ===== verification/ColumnStore.v ===== *)
(** * ColumnVector: growing columns in one arena

    Models [include/zeptodb/storage/column_store.h] and
    [src/storage/column_store.cpp]. The arena's bytes are a map from offsets to
    values, zero where nothing was written (the constructor clears the mapping);
    a column value is the list of its bytes. A column that grows leaves its old
    block behind, so what matters is that several columns of one arena never
    disturb each other: that is the store invariant. *)

From stdpp Require Import base gmap sets list fin_maps strings.
From Stdlib Require Import ZArith Lia.
From S2P Require Import Prelude.
From S2P Require Import Bytes.
From S2P Require Import Arena.

Open Scope Z_scope.

(** ** Data *)

Inductive ColumnType : Type :=
  | INT32 | INT64 | FLOAT32 | FLOAT64 | TIMESTAMP_NS | SYMBOL | BOOL | STRING.

Definition column_type_size (t : ColumnType) : Z :=
  match t with
  | INT32 | FLOAT32 | SYMBOL | STRING => 4
  | INT64 | FLOAT64 | TIMESTAMP_NS => 8
  | BOOL => 1
  end.

(** [static_cast<uint8_t>] of a column type and back. *)
Definition type_code (t : ColumnType) : Z :=
  match t with
  | INT32 => 0 | INT64 => 1 | FLOAT32 => 2 | FLOAT64 => 3
  | TIMESTAMP_NS => 4 | SYMBOL => 5 | BOOL => 6 | STRING => 7
  end.
Definition type_of_code (c : Z) : option ColumnType :=
  match c with
  | 0 => Some INT32 | 1 => Some INT64 | 2 => Some FLOAT32 | 3 => Some FLOAT64
  | 4 => Some TIMESTAMP_NS | 5 => Some SYMBOL | 6 => Some BOOL | 7 => Some STRING
  | _ => None
  end.

Lemma type_of_type_code t : type_of_code (type_code t) = Some t.
Proof. by destruct t. Qed.

Record ColumnVector : Type := mkColumn {
  name_ : string;
  type_ : ColumnType;
  data_ : option Z;
  size_ : Z;
  capacity_ : Z;
  elem_size_ : Z;
}.

Notation memory := (gmap Z Z).

Definition DATABLOCK_ROWS : Z := 8192.
Definition INITIAL_CAPACITY : Z := DATABLOCK_ROWS.
Definition GROWTH_FACTOR : Z := 2.

(** ** Memory *)

Definition read_byte (m : memory) (x : Z) : Z := default 0 (m !! x).
Definition read_bytes (m : memory) (addr : Z) (n : nat) : list Z :=
  (λ i, read_byte m (addr + Z.of_nat i)) <$> seq 0 n.

Fixpoint write_bytes (m : memory) (addr : Z) (bs : list Z) : memory :=
  match bs with
  | [] => m
  | b :: rest => write_bytes (<[addr := b]> m) (addr + 1) rest
  end.

Definition memcpy (m : memory) (dst src : Z) (n : Z) : memory :=
  write_bytes m dst (read_bytes m src (Z.to_nat n)).

(** ** Operations *)

(** [while (new_capacity < needed) new_capacity *= GROWTH_FACTOR] *)
Fixpoint grow (fuel : nat) (new_capacity needed : Z) : Z :=
  match fuel with
  | O => new_capacity
  | S fuel' => if new_capacity <? needed then grow fuel' (u64 (new_capacity * GROWTH_FACTOR)) needed
               else new_capacity
  end.

Definition ensure_capacity (a : Arena) (m : memory) (c : ColumnVector) (needed : Z)
    : bool * Arena * memory * ColumnVector :=
  if needed <=? capacity_ c then (true, a, m, c)
  else
    let new_capacity := grow 64 (if capacity_ c =? 0 then Z.max needed INITIAL_CAPACITY
                                 else capacity_ c) needed in
    match allocate a (u64 (new_capacity * elem_size_ c)) CACHE_LINE_SIZE with
    | (None, a') => (false, a', m, c)
    | (Some new_data, a') =>
        let m' := match data_ c with
                  | Some d => if 0 <? size_ c
                              then memcpy m new_data d (u64 (size_ c * elem_size_ c)) else m
                  | None => m
                  end in
        (true, a', m', mkColumn (name_ c) (type_ c) (Some new_data) (size_ c) new_capacity
                         (elem_size_ c))
    end.

Definition make_column (a : Arena) (m : memory) (name : string) (t : ColumnType)
    : Arena * memory * ColumnVector :=
  let '(_, a, m, c) := ensure_capacity a m
    (mkColumn name t None 0 0 (column_type_size t)) INITIAL_CAPACITY in (a, m, c).

Definition set_count (c : ColumnVector) (n : Z) : ColumnVector :=
  mkColumn (name_ c) (type_ c) (data_ c) n (capacity_ c) (elem_size_ c).

(** [append<T>]: the value's bytes are [sizeof(T)] many. *)
Definition append (a : Arena) (m : memory) (c : ColumnVector) (value : list Z)
    : bool * Arena * memory * ColumnVector :=
  let '(ok, a, m, c) := ensure_capacity a m c (u64 (size_ c + 1)) in
  if ok
  then (true, a,
        write_bytes m (default 0 (data_ c) + size_ c * Z.of_nat (length value)) value,
        set_count c (u64 (size_ c + 1)))
  else (false, a, m, c).

Definition append_batch (a : Arena) (m : memory) (c : ColumnVector) (values : list (list Z))
    : bool * Arena * memory * ColumnVector :=
  let count := Z.of_nat (length values) in
  let '(ok, a, m, c) := ensure_capacity a m c (u64 (size_ c + count)) in
  if ok
  then (true, a, write_bytes m (default 0 (data_ c) + size_ c * elem_size_ c) (concat values),
        set_count c (u64 (size_ c + count)))
  else (false, a, m, c).

Definition set_size (c : ColumnVector) (new_size : Z) : ColumnVector :=
  if new_size <=? size_ c then set_count c new_size else c.

(** [as_span]: the values of the column, each as its bytes. *)
Definition as_span (m : memory) (c : ColumnVector) : list (list Z) :=
  (λ i, read_bytes m (default 0 (data_ c) + Z.of_nat i * elem_size_ c) (Z.to_nat (elem_size_ c))) <$>
    seq 0 (Z.to_nat (size_ c)).

(** ** Memory lemmas *)

Lemma write_bytes_lookup m addr bs x :
  write_bytes m addr bs !! x =
  if decide (addr <= x < addr + Z.of_nat (length bs)) then bs !! Z.to_nat (x - addr) else m !! x.
Proof.
  revert m addr. induction bs as [|b bs IH]; intros m addr; cbn [write_bytes length].
  { rewrite decide_False; [done|]. simpl. lia. }
  rewrite IH. repeat case_decide; try lia.
  - replace (Z.to_nat (x - addr)) with (S (Z.to_nat (x - (addr + 1)))) by lia. done.
  - rewrite lookup_insert. case_decide as Hx; [|lia]. subst. by rewrite Z.sub_diag.
  - rewrite lookup_insert_ne by lia. done.
Qed.

Lemma length_read_bytes m addr n : length (read_bytes m addr n) = n.
Proof. unfold read_bytes. by rewrite length_fmap, length_seq. Qed.

Lemma read_bytes_lookup m addr n i :
  (i < n)%nat → read_bytes m addr n !! i = Some (read_byte m (addr + Z.of_nat i)).
Proof. intros Hi. unfold read_bytes. rewrite list_lookup_fmap, lookup_seq_lt by done. done. Qed.

Lemma read_bytes_ext m m' addr addr' n :
  (∀ i, (i < n)%nat → read_byte m (addr + Z.of_nat i) = read_byte m' (addr' + Z.of_nat i)) →
  read_bytes m addr n = read_bytes m' addr' n.
Proof.
  intros H. unfold read_bytes. apply list_fmap_ext. intros i x [-> Hi]%lookup_seq. simpl. by apply H.
Qed.

(** Writing elsewhere does not change what is read. *)
Lemma read_write_disjoint m addr n dst bs :
  addr + Z.of_nat n <= dst ∨ dst + Z.of_nat (length bs) <= addr →
  read_bytes (write_bytes m dst bs) addr n = read_bytes m addr n.
Proof.
  intros H. apply read_bytes_ext. intros i Hi. unfold read_byte.
  rewrite write_bytes_lookup, decide_False by lia. done.
Qed.

Lemma read_write_inside m dst bs off n :
  0 <= off → off + Z.of_nat n <= Z.of_nat (length bs) →
  read_bytes (write_bytes m dst bs) (dst + off) n = take n (drop (Z.to_nat off) bs).
Proof.
  intros Ho Hn. apply list_eq_same_length with n.
  - rewrite length_take, length_drop. lia.
  - by rewrite length_read_bytes.
  - intros i x y Hi Hx Hy. rewrite read_bytes_lookup in Hx by done.
    rewrite lookup_take_lt, lookup_drop in Hy by done. unfold read_byte in Hx.
    rewrite write_bytes_lookup, decide_True in Hx by lia.
    replace (Z.to_nat (dst + off + Z.of_nat i - dst)) with (Z.to_nat off + i)%nat in Hx by lia.
    rewrite Hy in Hx. by simplify_eq/=.
Qed.

(** ** Growth *)

Lemma grow_spec fuel cap needed :
  0 < cap → needed < 2 ^ 60 → cap < 2 ^ 60 → needed <= cap * 2 ^ Z.of_nat fuel →
  let r := grow fuel cap needed in
  cap <= r ∧ needed <= r ∧ r < 2 ^ 61 ∧ r <= Z.max cap (2 * needed).
Proof.
  revert cap. induction fuel as [|fuel IH]; intros cap Hc Hn Hb Hf; cbn [grow]; [simpl in Hf; lia|].
  destruct (Z.ltb_spec cap needed); [|lia].
  unfold GROWTH_FACTOR. rewrite wrap_small by lia.
  destruct (decide (cap * 2 < 2 ^ 60)).
  - destruct (IH (cap * 2)) as (? & ? & ? & ?); [lia|done|done| |lia].
    rewrite Nat2Z.inj_succ, Z.pow_succ_r in Hf by lia. lia.
  - destruct fuel; cbn [grow]; [lia|]. destruct (Z.ltb_spec (cap * 2) needed); lia.
Qed.

Lemma grow_enough c needed :
  needed < 2 ^ 60 → 0 <= capacity_ c < 2 ^ 60 → capacity_ c < needed →
  let start := if capacity_ c =? 0 then Z.max needed INITIAL_CAPACITY else capacity_ c in
  let r := grow 64 start needed in
  capacity_ c < r ∧ needed <= r ∧ r <= Z.max INITIAL_CAPACITY (2 * needed).
Proof.
  intros Hn Hc Hlt. cbv zeta. unfold INITIAL_CAPACITY, DATABLOCK_ROWS.
  destruct (Z.eqb_spec (capacity_ c) 0) as [He|He].
  - destruct (grow_spec 64 (Z.max needed 8192) needed) as (? & ? & ? & ?); lia.
  - destruct (grow_spec 64 (capacity_ c) needed) as (? & ? & ? & ?); lia.
Qed.

(** ** The store: columns of one arena *)

Definition base (c : ColumnVector) : Z := default 0 (data_ c).
Definition block_end (c : ColumnVector) : Z := base c + capacity_ c * elem_size_ c.

(** A column is below the offset of its arena; its bounds leave room to double. *)
Record column_ok (a : Arena) (c : ColumnVector) : Prop := {
  co_elem : elem_size_ c = column_type_size (type_ c);
  co_size : 0 <= size_ c <= capacity_ c;
  co_base : 0 <= base c;
  co_end : block_end c <= offset_ a;
  co_data : data_ c = None → capacity_ c = 0;
}.

Definition apart (c c' : ColumnVector) : Prop :=
  block_end c <= base c' ∨ block_end c' <= base c.

Record store_ok (a : Arena) (cs : list ColumnVector) : Prop := {
  so_arena : arena_ok a;
  so_columns : Forall (column_ok a) cs;
  so_apart : ∀ i j c c', cs !! i = Some c → cs !! j = Some c' → i ≠ j → apart c c';
}.

Lemma elem_size_range a c : column_ok a c → 1 <= elem_size_ c <= 8.
Proof. intros [-> _ _ _ _]. by destruct (type_ c). Qed.

(** Blocks below the offset are small numbers. *)
Lemma column_bounds a c : arena_ok a → column_ok a c →
  0 <= size_ c <= capacity_ c ∧ 0 <= capacity_ c * elem_size_ c < 2 ^ 61 ∧ capacity_ c < 2 ^ 61 ∧
  0 <= size_ c * elem_size_ c <= capacity_ c * elem_size_ c.
Proof.
  intros [Ho Ht] Hc. pose proof (elem_size_range _ _ Hc). destruct Hc as [_ Hs Hb He _].
  unfold block_end in He. nia.
Qed.

(** What an operation on column [c] leaves of the rest of the store. *)
Record column_step (a : Arena) (m : memory) (c : ColumnVector)
    (a' : Arena) (m' : memory) (c' : ColumnVector) : Prop := {
  cs_arena : arena_ok a';
  cs_total : total_size_ a' = total_size_ a;
  cs_offset : offset_ a <= offset_ a';
  cs_column : column_ok a' c';
  cs_block : (base c' = base c ∧ block_end c' = block_end c) ∨ offset_ a <= base c';
  cs_frame : ∀ x n, 0 <= x → x + Z.of_nat n <= offset_ a →
    (x + Z.of_nat n <= base c ∨ block_end c <= x) →
    read_bytes m' x n = read_bytes m x n;
}.

Lemma column_ok_offset a a' c :
  offset_ a <= offset_ a' → column_ok a c → column_ok a' c.
Proof. intros Hle [? ? ? ? ?]. split; try done. lia. Qed.

(** Another column keeps its values and its place. *)
Lemma column_step_other a m c a' m' c' d :
  arena_ok a → column_ok a d → apart c d → column_step a m c a' m' c' →
  column_ok a' d ∧ apart c' d ∧ as_span m' d = as_span m d.
Proof.
  intros Ha Hd Hap [_ _ Ho Hc' Hb Hf]. pose proof (column_bounds a d Ha Hd) as (? & ? & ? & ?).
  pose proof (elem_size_range _ _ Hd). split_and!.
  - by eapply column_ok_offset.
  - unfold apart in *. destruct Hb as [[-> ->]|Hb]; [done|]. right.
    pose proof (co_end _ _ Hd). lia.
  - unfold as_span. apply list_fmap_ext. intros i x [-> Hi]%lookup_seq. simpl.
    pose proof (co_base _ _ Hd). pose proof (co_end _ _ Hd). unfold block_end in *.
    change (default 0 (data_ d)) with (base d).
    assert (Z.of_nat i * elem_size_ d + elem_size_ d <= size_ d * elem_size_ d) by nia.
    apply Hf; [nia|lia|]. unfold apart, block_end in Hap. lia.
Qed.

Lemma store_step a m cs i c a' m' c' :
  store_ok a cs → cs !! i = Some c → column_step a m c a' m' c' →
  store_ok a' (<[i := c']> cs) ∧
  ∀ j d, cs !! j = Some d → j ≠ i → as_span m' d = as_span m d.
Proof.
  intros [Ha Hcs Hap] Hi Hst.
  assert (∀ j d, cs !! j = Some d → j ≠ i →
    column_ok a' d ∧ apart c' d ∧ as_span m' d = as_span m d) as Hoth.
  { intros j d Hj Hne. eapply column_step_other; [exact Ha| | |exact Hst].
    - by eapply (Forall_lookup_1 _ _ _ _ Hcs).
    - by eapply Hap. }
  split; [split|].
  - by destruct Hst.
  - apply Forall_lookup_2. intros j d. rewrite list_lookup_insert. case_decide as Hj.
    + intros [= <-]. by destruct Hst.
    + intros Hd. destruct (decide (j = i)) as [->|].
      * destruct Hj. split; [done|]. by eapply lookup_lt_Some.
      * by eapply Hoth.
  - intros j k d e. rewrite !list_lookup_insert.
    assert (i < length cs)%nat by (by eapply lookup_lt_Some).
    repeat case_decide; intros Hd He Hjk; simplify_eq; try lia.
    + eapply Hoth; [done|lia].
    + destruct (Hoth j d Hd) as (_ & [?|?] & _); [lia|by right|by left].
    + by eapply Hap.
  - intros j d Hj Hne. by eapply Hoth.
Qed.

Lemma column_step_refl a m c : arena_ok a → column_ok a c → column_step a m c a m c.
Proof. intros ??. split; [done|done|lia|done|by left|done]. Qed.

(** [ensure_capacity] keeps the values and, when it succeeds, makes room. *)
Lemma ensure_capacity_spec a m c needed ok a' m' c' :
  arena_ok a → column_ok a c → needed < 2 ^ 57 →
  ensure_capacity a m c needed = (ok, a', m', c') →
  column_step a m c a' m' c' ∧ size_ c' = size_ c ∧ elem_size_ c' = elem_size_ c ∧
  as_span m' c' = as_span m c ∧
  if ok : bool then needed <= capacity_ c' else (a', m', c') = (a, m, c).
Proof.
  intros Ha Hc Hn H. pose proof (column_bounds a c Ha Hc) as (Hs & Hce & Hcb & Hse).
  pose proof (elem_size_range a c Hc) as Hel. unfold ensure_capacity in H.
  destruct (Z.leb_spec needed (capacity_ c)) as [Hle|Hgt].
  { simplify_eq. by pose proof (column_step_refl a' m' c' Ha Hc). }
  destruct (grow_enough c needed) as (Hg1 & Hg2 & Hg3); [lia|lia|lia|].
  unfold INITIAL_CAPACITY, DATABLOCK_ROWS in Hg3.
  set (nc := grow 64 _ _) in *.
  assert (0 <= nc * elem_size_ c < 2 ^ 61) by nia.
  rewrite (wrap_small 64 (nc * elem_size_ c)) in H by lia. unfold allocate in H.
  destruct (attempt _ _ _ _) as [[p new]|] eqn:Hat.
  2:{ simplify_eq. by pose proof (column_step_refl a' m' c' Ha Hc). }
  destruct Ha as [Ho Ht].
  assert (request_ok (nc * elem_size_ c) CACHE_LINE_SIZE) as Hreq.
  { split; [lia|]. split; [exists 6; split; [lia|done]|]. unfold CACHE_LINE_SIZE. lia. }
  destruct (attempt_spec _ _ _ _ _ _ Ho Ht Hreq Hat) as (Hp & _ & -> & Hle).
  injection H as <- <- Hm <-. symmetry in Hm.
  assert (∀ x n, x + Z.of_nat n <= p → read_bytes m' x n = read_bytes m x n) as Hlow.
  { intros x n Hx. rewrite Hm. destruct (data_ c); [|done]. destruct (0 <? size_ c); [|done].
    unfold memcpy. apply read_write_disjoint. by left. }
  split_and!; [|done|done| |done].
  - split; simpl.
    + split; simpl; lia.
    + done.
    + lia.
    + split; unfold block_end, base; simpl; [by apply Hc|lia|lia|lia|done].
    + right. unfold base. simpl. lia.
    + intros x n Hx Hxn _. apply Hlow. lia.
  - unfold as_span. simpl. apply list_fmap_ext. intros i x [-> Hi]%lookup_seq. simpl.
    rewrite Hm. destruct (data_ c) as [d|] eqn:Hd.
    2:{ pose proof (co_data _ _ Hc Hd). lia. }
    rewrite (proj2 (Z.ltb_lt _ _)) by lia. unfold memcpy. rewrite wrap_small by lia.
    assert (0 <= Z.of_nat i * elem_size_ c) as Hq by (apply Z.mul_nonneg_nonneg; lia).
    assert ((Z.of_nat i + 1) * elem_size_ c <= size_ c * elem_size_ c) as Hq'
      by (apply Z.mul_le_mono_nonneg_r; lia).
    rewrite Z.mul_add_distr_r in Hq'.
    unfold base. simpl. set (q := Z.of_nat i * elem_size_ c) in *. clearbody q.
    rewrite (read_write_inside m p _ q) by (rewrite ?length_read_bytes; lia).
    apply list_eq_same_length with (Z.to_nat (elem_size_ c)).
    + by rewrite length_read_bytes.
    + rewrite length_take, length_drop, length_read_bytes. lia.
    + intros j y z Hj Hy Hz. rewrite lookup_take_lt, lookup_drop, read_bytes_lookup in Hy by lia.
      rewrite read_bytes_lookup in Hz by done. injection Hy as <-. injection Hz as <-.
      f_equal. lia.
Qed.

(** ** Appending *)

Lemma concat_uniform (vs : list (list Z)) n k v :
  Forall (λ v, length v = n) vs → vs !! k = Some v → take n (drop (k * n) (concat vs)) = v.
Proof.
  intros Hf. revert k. induction Hf as [|w vs Hw _ IH]; intros k Hk; [done|].
  destruct k as [|k]; simpl in *.
  - simplify_eq. rewrite drop_0. apply take_app_length.
  - rewrite drop_app_ge by lia. replace (n + k * n - length w)%nat with (k * n)%nat by lia.
    by apply IH.
Qed.

Lemma length_concat_uniform (vs : list (list Z)) n :
  Forall (λ v, length v = n) vs → length (concat vs) = (length vs * n)%nat.
Proof. induction 1 as [|v vs Hv _ IH]; simpl; [done|]. rewrite length_app. lia. Qed.

(** Writing values behind the last one of a column that has room. *)
Lemma write_values_span m c values :
  0 <= size_ c → 1 <= elem_size_ c →
  Forall (λ v, length v = Z.to_nat (elem_size_ c)) values →
  as_span (write_bytes m (base c + size_ c * elem_size_ c) (concat values))
    (set_count c (size_ c + Z.of_nat (length values))) = as_span m c ++ values.
Proof.
  intros Hs He Hv. pose proof (length_concat_uniform _ _ Hv) as Hlen. unfold as_span. simpl.
  change (default 0 (data_ c)) with (base c).
  replace (Z.to_nat (size_ c + Z.of_nat (length values))) with
    (Z.to_nat (size_ c) + length values)%nat by lia.
  rewrite seq_app, fmap_app. f_equal.
  - apply list_fmap_ext. intros i x [-> Hi]%lookup_seq. simpl. apply read_write_disjoint. left.
    assert ((Z.of_nat i + 1) * elem_size_ c <= size_ c * elem_size_ c)
      by (apply Z.mul_le_mono_nonneg_r; lia). lia.
  - apply list_eq_same_length with (length values); [done|by rewrite length_fmap, length_seq|].
    intros k x y Hk Hx Hy. rewrite list_lookup_fmap, lookup_seq_lt in Hx by done. simpl in Hx.
    injection Hx as <-. rewrite <- (concat_uniform values (Z.to_nat (elem_size_ c)) k y Hv Hy).
    assert (Z.of_nat (S k * Z.to_nat (elem_size_ c)) <= Z.of_nat (length values * Z.to_nat (elem_size_ c)))
      by (apply inj_le, Nat.mul_le_mono_r; lia).
    replace (base c + Z.of_nat (Z.to_nat (size_ c) + k) * elem_size_ c) with
      (base c + size_ c * elem_size_ c + Z.of_nat (k * Z.to_nat (elem_size_ c))).
    2:{ rewrite Nat2Z.inj_add, Nat2Z.inj_mul, !Z2Nat.id by lia. ring. }
    rewrite read_write_inside; [by rewrite Nat2Z.id|lia|]. rewrite Hlen. lia.
Qed.

Lemma append_batch_step a m c values ok a' m' c' :
  arena_ok a → column_ok a c → size_ c + Z.of_nat (length values) < 2 ^ 57 →
  Forall (λ v, length v = Z.to_nat (elem_size_ c)) values →
  append_batch a m c values = (ok, a', m', c') →
  column_step a m c a' m' c' ∧
  as_span m' c' = as_span m c ++ (if ok : bool then values else []).
Proof.
  intros Ha Hc Hn Hv H. unfold append_batch in H. pose proof (co_size _ _ Hc) as Hs.
  pose proof (elem_size_range a c Hc) as Hel. rewrite (wrap_small 64) in H by lia.
  destruct (ensure_capacity a m c _) as [[[ok1 a1] m1] c1] eqn:He.
  destruct (ensure_capacity_spec a m c _ ok1 a1 m1 c1 Ha Hc Hn He) as (Hst & Hs1 & He1 & Hsp & Hcap).
  destruct ok1; simplify_eq; [|by rewrite app_nil_r].
  rewrite Hs1, wrap_small by lia. split.
  2:{ rewrite <- Hs1, <- Hsp. apply write_values_span; [lia|lia|by rewrite He1]. }
  destruct Hst as [? ? Ho Hc1 Hb Hf].
  assert ((size_ c1 + Z.of_nat (length values)) * elem_size_ c1 <= capacity_ c1 * elem_size_ c1)
    by (apply Z.mul_le_mono_nonneg_r; lia).
  assert (0 <= size_ c1 * elem_size_ c1) by (apply Z.mul_nonneg_nonneg; lia).
  pose proof (length_concat_uniform _ _ Hv) as Hlen.
  assert (Z.of_nat (length (concat values)) = Z.of_nat (length values) * elem_size_ c1) as Hlz.
  { rewrite Hlen, Nat2Z.inj_mul, Z2Nat.id by lia. by rewrite He1. }
  split; try done.
  - destruct Hc1 as [? ? ? ? ?]. split; try done. simpl. lia.
  - intros x n Hx Hxn Hout. rewrite <- Hf by done. change (default 0 (data_ c1)) with (base c1).
    rewrite <- Hs1. apply read_write_disjoint. rewrite Hlz.
    destruct Hb as [[Hb1 Hb2]|Hb].
    + rewrite <- Hb1, <- Hb2 in Hout. unfold block_end in Hout. lia.
    + left. lia.
Qed.

Lemma ensure_capacity_elem a m c needed ok a' m' c' :
  ensure_capacity a m c needed = (ok, a', m', c') → elem_size_ c' = elem_size_ c.
Proof.
  unfold ensure_capacity. destruct (_ <=? _); [by intros [= <- <- <- <-]|].
  generalize (grow 64 (if capacity_ c =? 0 then Z.max needed INITIAL_CAPACITY else capacity_ c) needed).
  intros nc. destruct (allocate _ _ _) as [[p|] a1]; by intros [= <- <- <- <-].
Qed.

Lemma ensure_capacity_names a m c needed ok a' m' c' :
  ensure_capacity a m c needed = (ok, a', m', c') → name_ c' = name_ c ∧ type_ c' = type_ c.
Proof.
  unfold ensure_capacity. destruct (_ <=? _); [by intros [= <- <- <- <-]|].
  generalize (grow 64 (if capacity_ c =? 0 then Z.max needed INITIAL_CAPACITY else capacity_ c) needed).
  intros nc. destruct (allocate _ _ _) as [[p|] a1]; by intros [= <- <- <- <-].
Qed.

Lemma append_is_batch a m c v :
  1 <= elem_size_ c → length v = Z.to_nat (elem_size_ c) → append a m c v = append_batch a m c [v].
Proof.
  intros He Hv. unfold append, append_batch. simpl. rewrite app_nil_r, Hv, Z2Nat.id by lia.
  destruct (ensure_capacity a m c _) as [[[ok1 a1] m1] c1] eqn:Hc.
  by rewrite (ensure_capacity_elem _ _ _ _ _ _ _ _ Hc).
Qed.

(** A single value, the arena's size included. *)
Lemma append_one a m c v ok a' m' c' :
  arena_ok a → column_ok a c → size_ c + 1 < 2 ^ 57 → length v = Z.to_nat (elem_size_ c) →
  append a m c v = (ok, a', m', c') →
  column_step a m c a' m' c' ∧ as_span m' c' = as_span m c ++ (if ok : bool then [v] else []) ∧
  total_size_ a' = total_size_ a.
Proof.
  intros Ha Hc Hn Hv H. pose proof (elem_size_range _ _ Hc) as He.
  rewrite append_is_batch in H by (lia || done).
  destruct (append_batch_step a m c [v] ok a' m' c' Ha Hc) as [Hst Hsp]; [simpl; lia|by constructor|done|].
  split_and!; [done..|apply Hst].
Qed.

(** What is stored are bytes. *)
Definition all_bytes (m : memory) : Prop := map_Forall (λ _ b, is_byte b) m.

Lemma read_bytes_are_bytes m addr n : all_bytes m → Forall is_byte (read_bytes m addr n).
Proof.
  intros Hm. apply Forall_fmap, Forall_forall. intros i _. unfold read_byte. simpl.
  destruct (m !! _) eqn:H; [by eapply Hm|]. by vm_compute.
Qed.

Lemma write_bytes_are_bytes m addr bs : all_bytes m → Forall is_byte bs → all_bytes (write_bytes m addr bs).
Proof.
  intros Hm Hbs x b. rewrite write_bytes_lookup. case_decide; [|apply Hm].
  intros H1. by eapply (Forall_lookup_1 _ _ _ _ Hbs).
Qed.

Lemma ensure_capacity_bytes a m c needed ok a' m' c' :
  all_bytes m → ensure_capacity a m c needed = (ok, a', m', c') → all_bytes m'.
Proof.
  intros Hm. unfold ensure_capacity. destruct (_ <=? _); [by intros [= <- <- <- <-]|].
  generalize (grow 64 (if capacity_ c =? 0 then Z.max needed INITIAL_CAPACITY else capacity_ c) needed).
  intros nc. destruct (allocate _ _ _) as [[p|] a1]; intros [= <- <- <- <-]; [|done].
  destruct (data_ c); [|done]. destruct (0 <? size_ c); [|done].
  apply write_bytes_are_bytes; [done|by apply read_bytes_are_bytes].
Qed.

Lemma append_bytes a m c v ok a' m' c' :
  all_bytes m → Forall is_byte v → append a m c v = (ok, a', m', c') → all_bytes m'.
Proof.
  intros Hm Hv. unfold append. destruct (ensure_capacity a m c _) as [[[ok1 a1] m1] c1] eqn:He.
  pose proof (ensure_capacity_bytes _ _ _ _ _ _ _ _ Hm He).
  destruct ok1; intros [= <- <- <- <-]; [by apply write_bytes_are_bytes|done].
Qed.

Lemma as_span_bytes m c : all_bytes m → Forall (Forall is_byte) (as_span m c).
Proof. intros Hm. apply Forall_fmap, Forall_forall. intros i _. by apply read_bytes_are_bytes. Qed.

Lemma as_span_lengths m c : Forall (λ v, length v = Z.to_nat (elem_size_ c)) (as_span m c).
Proof. apply Forall_fmap, Forall_forall. intros i _. apply length_read_bytes. Qed.

(** A column that is created takes its place in the store, empty. *)
Lemma make_column_step a m cs name t a' m' c :
  store_ok a cs → make_column a m name t = (a', m', c) →
  store_ok a' (cs ++ [c]) ∧ (all_bytes m → all_bytes m') ∧ total_size_ a' = total_size_ a ∧
  name_ c = name ∧ type_ c = t ∧ as_span m' c = [] ∧ ∀ j d, cs !! j = Some d → as_span m' d = as_span m d.
Proof.
  intros Hs H. unfold make_column in H. set (c0 := mkColumn name t None 0 0 (column_type_size t)) in H.
  destruct (ensure_capacity a m c0 _) as [[[ok1 a1] m1] c1] eqn:He. simplify_eq.
  destruct Hs as [Ha Hcs Hap].
  assert (column_ok a c0) as Hc0. { split; try done; unfold block_end, base; simpl; destruct Ha; lia. }
  assert (store_ok a (cs ++ [c0])) as Hs0.
  { split; [done|apply Forall_app_2; [done|by constructor]|].
    intros i j d d' Hi Hj Hne. apply lookup_app_Some in Hi, Hj.
    assert (∀ k x, cs !! k = Some x → 0 <= base x) as Hb.
    { intros k x Hk. apply (co_base a). by eapply (Forall_lookup_1 _ _ _ _ Hcs). }
    destruct Hi as [Hi|[Hi1 Hi2]], Hj as [Hj|[Hj1 Hj2]].
    - by eapply Hap.
    - apply list_lookup_singleton_Some in Hj2 as [? <-]. right. unfold block_end. simpl. by eapply Hb.
    - apply list_lookup_singleton_Some in Hi2 as [? <-]. left. unfold block_end. simpl. by eapply Hb.
    - apply list_lookup_singleton_Some in Hi2 as [? _], Hj2 as [? _]. lia. }
  assert ((cs ++ [c0]) !! length cs = Some c0) as Hi by (by rewrite lookup_app_r, Nat.sub_diag by done).
  destruct (ensure_capacity_spec a m c0 INITIAL_CAPACITY ok1 a' m' c Ha Hc0) as (Hst & Hsz & _ & Hsp & _); [done|done|].
  destruct (store_step _ _ _ _ _ _ _ _ Hs0 Hi Hst) as [Hs1 Hoth].
  destruct (ensure_capacity_names _ _ _ _ _ _ _ _ He) as [Hn Ht].
  rewrite insert_app_r_alt, Nat.sub_diag in Hs1 by done. simpl in Hs1. split_and!; try done.
  - intros Hm. by apply (ensure_capacity_bytes _ _ _ _ _ _ _ _ Hm He).
  - apply Hst.
  - intros j d Hj. pose proof (lookup_lt_Some _ _ _ Hj). apply Hoth with j; [by rewrite lookup_app_l|lia].
Qed.

(** C34. Columns of one arena are independent: a batch appended to one of them is
    added behind its values, or leaves it as it was when the arena is full;
    whatever relocation it takes, every other column reads the same values as
    before, and the store stays well formed. Single values are batches of one. *)
Theorem append_batch_isolated a m cs i c values ok a' m' c' :
  store_ok a cs → cs !! i = Some c → size_ c + Z.of_nat (length values) < 2 ^ 57 →
  Forall (λ v, length v = Z.to_nat (elem_size_ c)) values →
  append_batch a m c values = (ok, a', m', c') →
  store_ok a' (<[i := c']> cs) ∧
  as_span m' c' = as_span m c ++ (if ok : bool then values else []) ∧
  (∀ j d, cs !! j = Some d → j ≠ i → as_span m' d = as_span m d) ∧
  ∀ v, values = [v] → append a m c v = append_batch a m c values.
Proof.
  intros Hs Hi Hn Hv H.
  assert (column_ok a c) as Hc by (eapply (Forall_lookup_1 _ _ _ _ (so_columns _ _ Hs)); done).
  destruct (append_batch_step a m c values ok a' m' c' (so_arena _ _ Hs) Hc Hn Hv H) as [Hst Hsp].
  destruct (store_step a m cs i c a' m' c' Hs Hi Hst) as [? ?]. split_and!; [done..|].
  intros v ->. apply Forall_cons in Hv as [Hv _]. pose proof (elem_size_range a c Hc). by apply append_is_batch; [lia|].
Qed.

(** Two columns of 8192 rows in an arena of 2 MB. *)
Definition demo_price : ColumnVector := mkColumn "price" INT64 (Some 0) 0 8192 8.
Definition demo_flag : ColumnVector := mkColumn "flag" BOOL (Some 65536) 0 8192 1.
Definition demo_arena : Arena := mkArena (2 ^ 21) 73728.

Lemma append_batch_isolated_witness :
  let m := write_bytes ∅ 65536 [1; 0] in
  let c' := mkColumn "flag" BOOL (Some 65536) 2 8192 1 in
  store_ok demo_arena (<[1%nat := c']> [demo_price; demo_flag]) ∧
  as_span m c' = as_span ∅ demo_flag ++ [[1]; [0]] ∧
  (∀ j d, [demo_price; demo_flag] !! j = Some d → j ≠ 1%nat → as_span m d = as_span ∅ d) ∧
  ∀ v, [[1]; [0]] = [v] → append demo_arena ∅ demo_flag v = append_batch demo_arena ∅ demo_flag [[1]; [0]].
Proof.
  apply (append_batch_isolated demo_arena ∅ [demo_price; demo_flag] 1 demo_flag [[1]; [0]] true demo_arena).
  - split.
    + split; simpl; lia.
    + repeat (apply Forall_cons_2 || apply Forall_nil_2); split; unfold block_end, base; simpl; done || lia.
    + intros [|[|i]] [|[|j]] c c' Hc Hc' Hne; simplify_eq/=; try done; unfold apart, block_end, base; simpl; lia.
  - done.
  - simpl. lia.
  - repeat constructor.
  - vm_compute. reflexivity.
Defined.
