(* ===== verification/StringDictionary.v ===== *)
(** * StringDictionary: dictionary encoding of strings

    Models [include/zeptodb/storage/string_dictionary.h]: codes are positions of
    [strings_], [assigned_] tells which positions are bound, [index_] is the
    reverse map. [intern] assigns the next code; [ensure_code] binds a code that
    a replica dictates. *)

From stdpp Require Import base gmap sets list fin_maps strings.
From Stdlib Require Import ZArith Lia.
From S2P Require Import Prelude.

Open Scope Z_scope.

Record StringDictionary : Type := mkDict {
  strings_ : list string;
  assigned_ : list bool;
  index_ : gmap string Z;
}.

Definition empty_dict : StringDictionary := mkDict [] [] ∅.

Definition intern (d : StringDictionary) (s : string) : Z * StringDictionary :=
  match index_ d !! s with
  | Some code => (code, d)
  | None =>
      let code := u32 (Z.of_nat (length (strings_ d))) in
      (code, mkDict (strings_ d ++ [s]) (assigned_ d ++ [true]) (<[s := code]> (index_ d)))
  end.

(** [std::vector::resize]. *)
Definition resize {A} (l : list A) (n : nat) (x : A) : list A :=
  take n l ++ replicate (n - length l) x.

Definition ensure_code (d : StringDictionary) (code : Z) (s : string) : bool * StringDictionary :=
  match index_ d !! s with
  | Some c => (c =? code, d)
  | None =>
      let n := Z.to_nat (code + 1) in
      let grown := Z.of_nat (length (strings_ d)) <=? code in
      let strings := if grown then resize (strings_ d) n ""%string else strings_ d in
      let assigned := if grown then resize (assigned_ d) n false else assigned_ d in
      let d := mkDict strings assigned (index_ d) in
      if default false (assigned !! Z.to_nat code) &&
         negb (bool_decide (strings !! Z.to_nat code = Some s))
      then (false, d)
      else (true, mkDict (<[Z.to_nat code := s]> strings) (<[Z.to_nat code := true]> assigned)
                    (<[s := code]> (index_ d)))
  end.

Definition lookup (d : StringDictionary) (code : Z) : string :=
  if (code <? Z.of_nat (length (strings_ d))) && (code <? Z.of_nat (length (assigned_ d))) &&
     default false (assigned_ d !! Z.to_nat code)
  then default ""%string (strings_ d !! Z.to_nat code) else ""%string.

Definition find (d : StringDictionary) (s : string) : Z := default (-1) (index_ d !! s).

Definition size (d : StringDictionary) : Z := Z.of_nat (length (strings_ d)).

(** ** Invariant *)

(** [index_] and the assigned positions are inverse to each other. *)
Record dict_ok (d : StringDictionary) : Prop := {
  do_length : length (assigned_ d) = length (strings_ d);
  do_bound : Z.of_nat (length (strings_ d)) <= 2 ^ 32;
  do_index : ∀ s code, index_ d !! s = Some code →
    0 <= code ∧ strings_ d !! Z.to_nat code = Some s ∧ assigned_ d !! Z.to_nat code = Some true;
  do_assigned : ∀ i s, strings_ d !! i = Some s → assigned_ d !! i = Some true →
    index_ d !! s = Some (Z.of_nat i);
}.

Lemma dict_ok_empty : dict_ok empty_dict.
Proof.
  split; simpl; [done|lia| |done]. intros s code. by rewrite lookup_empty.
Qed.

Inductive dict_op : Type := OpIntern (s : string) | OpEnsure (code : Z) (s : string).

Definition run_dict (d : StringDictionary) (op : dict_op) : StringDictionary :=
  match op with
  | OpIntern s => (intern d s).2
  | OpEnsure code s => (ensure_code d code s).2
  end.

(** Codes are [uint32_t], and there is room for the code [intern] would assign. *)
Definition op_fits (d : StringDictionary) (op : dict_op) : Prop :=
  match op with
  | OpIntern _ => size d < 2 ^ 32
  | OpEnsure code _ => 0 <= code < 2 ^ 32
  end.

Lemma resize_lookup {A} (l : list A) n x i :
  (length l <= n)%nat →
  resize l n x !! i = if decide (i < length l)%nat then l !! i
                      else if decide (i < n)%nat then Some x else None.
Proof.
  intros Hn. unfold resize. rewrite take_ge by done. case_decide.
  - by rewrite lookup_app_l by done.
  - rewrite lookup_app_r by lia. case_decide.
    + by rewrite lookup_replicate_2 by lia.
    + apply lookup_ge_None_2. rewrite length_replicate. lia.
Qed.

Lemma length_resize {A} (l : list A) n x : (length l <= n)%nat → length (resize l n x) = n.
Proof. intros Hn. unfold resize. rewrite length_app, length_take, length_replicate. lia. Qed.

(** Binding a free position. *)
Lemma bind_ok d code s :
  dict_ok d → index_ d !! s = None → 0 <= code → (Z.to_nat code < length (strings_ d))%nat →
  assigned_ d !! Z.to_nat code ≠ Some true →
  dict_ok (mkDict (<[Z.to_nat code := s]> (strings_ d)) (<[Z.to_nat code := true]> (assigned_ d))
             (<[s := code]> (index_ d))).
Proof.
  intros [Hl Hb Hi Ha] Hs Hc Hlen Hfree. split; simpl.
  - by rewrite !length_insert.
  - by rewrite length_insert.
  - intros t c [[<- <-]|[Hne Ht]]%lookup_insert_Some.
    + split; [done|]. rewrite !list_lookup_insert_eq by lia. done.
    + destruct (Hi t c Ht) as (? & ? & Hat). split; [done|].
      rewrite !list_lookup_insert_ne by congruence. done.
  - intros i t. rewrite !list_lookup_insert. case_decide as Hic.
    + intros [= <-] _. destruct Hic as [<- _]. rewrite lookup_insert, decide_True by done.
      f_equal. lia.
    + assert (Z.to_nat code ≠ i) by (intros <-; by apply Hic).
      rewrite decide_False by lia. intros Ht Hat. rewrite lookup_insert_ne; [by apply Ha|].
      intros <-. by rewrite (Ha i _ Ht Hat) in Hs.
Qed.

(** Growing the vectors with unassigned positions. *)
Lemma resize_ok d n :
  dict_ok d → (length (strings_ d) <= n)%nat → Z.of_nat n <= 2 ^ 32 →
  dict_ok (mkDict (resize (strings_ d) n ""%string) (resize (assigned_ d) n false) (index_ d)).
Proof.
  intros [Hl Hb Hi Ha] Hn Hn32. split; simpl.
  - rewrite !length_resize by lia. done.
  - rewrite length_resize by lia. lia.
  - intros s c Hs. destruct (Hi s c Hs) as (? & Hcs & Hca). split; [done|].
    rewrite !resize_lookup by lia.
    rewrite !decide_True by (rewrite ?Hl; by eapply lookup_lt_Some). done.
  - intros i s. rewrite !resize_lookup by lia. rewrite Hl.
    repeat case_decide; try done; apply Ha.
Qed.

Lemma dict_ok_op d op : dict_ok d → op_fits d op → dict_ok (run_dict d op).
Proof.
  intros Hok Hfit. destruct op as [s|code s]; simpl in *.
  - unfold intern. destruct (index_ d !! s) as [c|] eqn:Hs; [done|]. simpl.
    unfold size in Hfit. rewrite wrap_small by lia.
    pose proof (do_length _ Hok) as Hl.
    destruct (resize_ok d (S (length (strings_ d))) Hok) as [? ? ? ?]; [lia|lia|].
    pose proof (bind_ok _ (Z.of_nat (length (strings_ d))) s (resize_ok d (S (length (strings_ d))) Hok
      ltac:(lia) ltac:(lia)) Hs ltac:(lia)) as Hbind.
    simpl in Hbind. rewrite Nat2Z.id in Hbind. unfold resize in Hbind.
    rewrite !take_ge, Hl in Hbind by lia.
    replace (S (length (strings_ d)) - length (strings_ d))%nat with 1%nat in Hbind by lia.
    rewrite <- Hl in Hbind at 3. rewrite !insert_app_r_alt in Hbind by lia.
    rewrite Hl, Nat.sub_diag in Hbind. apply Hbind.
    + rewrite length_app. simpl. lia.
    + rewrite lookup_app_r by lia. rewrite Hl, Nat.sub_diag. done.
  - unfold ensure_code. destruct (index_ d !! s) as [c|] eqn:Hs; [done|].
    destruct (Z.leb_spec (Z.of_nat (length (strings_ d))) code) as [Hge|Hlt]; cbv zeta.
    + assert (dict_ok (mkDict (resize (strings_ d) (Z.to_nat (code + 1)) ""%string)
        (resize (assigned_ d) (Z.to_nat (code + 1)) false) (index_ d))) as Hr by (apply resize_ok; [done|lia|lia]).
      pose proof (do_length _ Hok) as Hl.
      rewrite resize_lookup by lia. rewrite Hl, decide_False, decide_True by lia. cbn [default andb snd].
      apply (bind_ok _ code s Hr Hs); [lia| |]; simpl.
      * rewrite length_resize by lia. lia.
      * rewrite resize_lookup by lia. rewrite Hl, decide_False, decide_True by lia. done.
    + destruct (default false (assigned_ d !! Z.to_nat code)) eqn:Hasg.
      * assert (assigned_ d !! Z.to_nat code = Some true) as Hat.
        { destruct (assigned_ d !! Z.to_nat code) as [[]|]; done. }
        cbn [andb]. case_bool_decide as Hsame; simpl; [|by destruct d].
        by rewrite (do_assigned _ Hok _ _ Hsame Hat) in Hs.
      * cbn [andb snd]. apply (bind_ok d code s Hok Hs); [lia|lia|].
        by intros Ht; rewrite Ht in Hasg.
Qed.

(** Any sequence of calls that fit. *)
Inductive dict_run : StringDictionary → StringDictionary → Prop :=
  | dict_run_nil d : dict_run d d
  | dict_run_cons d op d' : op_fits d op → dict_run (run_dict d op) d' → dict_run d d'.

Lemma dict_run_ok d d' : dict_run d d' → dict_ok d → dict_ok d'.
Proof. induction 1 as [|d op d' Hf _ IH]; [done|]. intros Hok. by apply IH, dict_ok_op. Qed.

(** A bound string keeps its code. *)
Lemma index_op d op s c : index_ d !! s = Some c → index_ (run_dict d op) !! s = Some c.
Proof.
  intros Hs. destruct op as [t|code t]; simpl.
  - unfold intern. destruct (index_ d !! t) eqn:Ht; [done|]. simpl.
    rewrite lookup_insert_ne; [done|congruence].
  - unfold ensure_code. destruct (index_ d !! t) eqn:Ht; [done|]. cbv zeta.
    destruct (_ && _); simpl; [done|]. rewrite lookup_insert_ne; [done|congruence].
Qed.

(** Codes are stable and invertible: in a dictionary reached from the empty
    one, interning a string gives a code that looks up and is found as that
    string from then on, whatever other strings are interned or replicated, and
    distinct strings have distinct codes. *)
Theorem intern_lookup_roundtrip d s d' :
  dict_run empty_dict d → size d < 2 ^ 32 → dict_run (intern d s).2 d' →
  lookup d' (intern d s).1 = s ∧ find d' s = (intern d s).1 ∧
  (∀ t, t ≠ s → find d' t ≠ (intern d s).1).
Proof.
  intros Hrun Hsz Hrun'.
  assert (dict_ok d) as Hok by (eapply dict_run_ok; [done|apply dict_ok_empty]).
  assert (dict_ok (intern d s).2) as Hok1 by (by apply (dict_ok_op d (OpIntern s))).
  assert (index_ (intern d s).2 !! s = Some (intern d s).1) as Hidx.
  { unfold intern. destruct (index_ d !! s) eqn:Hs; [done|]. simpl. by rewrite lookup_insert, decide_True. }
  assert (dict_ok d') as Hok' by (by eapply dict_run_ok).
  assert (index_ d' !! s = Some (intern d s).1) as Hidx'.
  { clear Hok' Hok1. induction Hrun' as [|d0 op d' Hf _ IH]; [done|]. apply IH. by apply index_op. }
  destruct (do_index _ Hok' _ _ Hidx') as (Hc & Hstr & Hasg). split_and!.
  - unfold lookup. pose proof (lookup_lt_Some _ _ _ Hstr). pose proof (lookup_lt_Some _ _ _ Hasg).
    rewrite !(proj2 (Z.ltb_lt _ _)) by lia. by rewrite Hasg, Hstr.
  - unfold find. by rewrite Hidx'.
  - intros t Hne. unfold find. destruct (index_ d' !! t) as [c|] eqn:Ht; simpl; [|lia].
    intros ->. destruct (do_index _ Hok' _ _ Ht) as (_ & Hstr' & _). congruence.
Qed.

Lemma intern_lookup_roundtrip_witness :
  let d := (intern empty_dict "AAPL").2 in
  let d' := (ensure_code (intern d "MSFT").2 7 "NVDA").2 in
  lookup d' (intern d "MSFT").1 = "MSFT"%string ∧ find d' "MSFT" = (intern d "MSFT").1 ∧
  (∀ t, t ≠ "MSFT"%string → find d' t ≠ (intern d "MSFT").1).
Proof.
  apply intern_lookup_roundtrip.
  - apply (dict_run_cons _ (OpIntern "AAPL")); [by vm_compute|apply dict_run_nil].
  - by vm_compute.
  - apply (dict_run_cons _ (OpEnsure 7 "NVDA")); [by vm_compute|apply dict_run_nil].
Defined.
