(* ===== verification/SchemaRegistry.v ===== *)
(** * The schema registry

    Models [include/zeptodb/storage/schema_registry.h]: the tables of a pipeline
    with their ids, and the JSON catalog they are saved to and loaded from. The
    registry's [unordered_map] is a [gmap]; its iteration order is that of
    [map_to_list]. A position in the JSON text is the text from there on; every
    method holds the registry's lock, so a call is one state change. *)

From S2P Require Import Prelude.
From S2P Require Import Text.
From S2P Require Import ColumnStore.
From stdpp Require Import base gmap list strings fin_maps.
From Stdlib Require Import ZArith Lia Ascii.

Open Scope Z_scope.

(** ** Data *)

Record ColumnDef : Type := mkColumn { col_name : string; col_type : ColumnType }.

Inductive TablePlacementMode : Type := HashByTableAndSymbol | HashByTable | PinnedNode.

Record TablePlacementOptions : Type := mkPlacement {
  configured : bool;
  mode : TablePlacementMode;
  placement_node : Z;
}.

Record TableSchema : Type := mkSchema {
  table_name : string;
  columns : list ColumnDef;
  ttl_ns : Z;
  has_data : bool;
  table_id : Z;
  placement : TablePlacementOptions;
}.

Inductive SchemaCatalogLoadResult : Type := Loaded | NotFound | Invalid.

#[export] Instance TablePlacementMode_eq_dec : EqDecision TablePlacementMode.
Proof. solve_decision. Defined.
#[export] Instance TablePlacementOptions_eq_dec : EqDecision TablePlacementOptions.
Proof. solve_decision. Defined.
#[export] Instance ColumnType_eq_dec : EqDecision ColumnType.
Proof. solve_decision. Defined.
#[export] Instance ColumnDef_eq_dec : EqDecision ColumnDef.
Proof. solve_decision. Defined.
#[export] Instance TableSchema_eq_dec : EqDecision TableSchema.
Proof. solve_decision. Defined.

Record SchemaRegistry : Type := mkRegistry {
  tables_ : gmap string TableSchema;
  next_table_id_ : Z;
}.

Definition empty_registry : SchemaRegistry := mkRegistry ∅ 1.
Definition no_placement : TablePlacementOptions := mkPlacement false HashByTableAndSymbol 0.

(** The schemas in the order of iteration. *)
Definition schemas (r : SchemaRegistry) : list TableSchema := snd <$> map_to_list (tables_ r).

(** ** Table ids *)

(** FNV-1a over the name, in [1, 65535]. *)
Definition stable_table_id (name : string) : Z :=
  u16 (foldl (λ h c, u32 (Z.lxor h (Z.of_N (Ascii.N_of_ascii c)) * 16777619)) 2166136261
         (String.list_ascii_of_string name) mod 65535 + 1).

Definition next_candidate (candidate : Z) : Z := if candidate =? 65535 then 1 else u16 (candidate + 1).

(** The probe of [allocate_table_id_locked_]; 0 when [attempts] are used up. *)
Fixpoint probe (attempts : nat) (used : list Z) (candidate : Z) : Z :=
  match attempts with
  | O => 0
  | S attempts =>
      if bool_decide (candidate ∈ used) then probe attempts used (next_candidate candidate) else candidate
  end.

Definition MAX_TABLES : nat := Z.to_nat 65535.

Definition allocate_table_id (r : SchemaRegistry) (name : string) : Z :=
  probe MAX_TABLES (table_id <$> schemas r) (stable_table_id name).

Definition bump_next (next id : Z) : Z := if (next <=? id) && (id <? 65535) then u16 (id + 1) else next.

(** ** Operations *)

Definition create (r : SchemaRegistry) (name : string) (cols : list ColumnDef) (p : TablePlacementOptions) :
  bool * SchemaRegistry :=
  match tables_ r !! name with
  | Some _ => (false, r)
  | None =>
      let id := allocate_table_id r name in
      if id =? 0 then (false, r)
      else (true, mkRegistry (<[name := mkSchema name cols 0 false id p]> (tables_ r)) (bump_next (next_table_id_ r) id))
  end.

Definition drop_table (r : SchemaRegistry) (name : string) : bool * SchemaRegistry :=
  (bool_decide (is_Some (tables_ r !! name)), mkRegistry (delete name (tables_ r)) (next_table_id_ r)).

(** Refused when another table has the id. *)
Definition restore_table_schema (r : SchemaRegistry) (s : TableSchema) : bool * SchemaRegistry :=
  if String.eqb (table_name s) "" || (table_id s =? 0) then (false, r)
  else if existsb (λ p, negb (String.eqb p.1 (table_name s)) && (table_id p.2 =? table_id s)) (map_to_list (tables_ r))
  then (false, r)
  else (true, mkRegistry (<[table_name s := s]> (tables_ r)) (bump_next (next_table_id_ r) (table_id s))).

Definition exists_table (r : SchemaRegistry) (name : string) : bool := bool_decide (is_Some (tables_ r !! name)).
Definition get (r : SchemaRegistry) (name : string) : option TableSchema := tables_ r !! name.
Definition get_by_id (r : SchemaRegistry) (id : Z) : option TableSchema := find (λ s, table_id s =? id) (schemas r).

(** Replace a table's schema; [false] when there is no such table. *)
Definition update_table (r : SchemaRegistry) (name : string) (f : TableSchema → option TableSchema) :
  bool * SchemaRegistry :=
  match tables_ r !! name ≫= f with
  | Some s => (true, mkRegistry (<[name := s]> (tables_ r)) (next_table_id_ r))
  | None => (false, r)
  end.

Definition with_columns (cols : list ColumnDef) (s : TableSchema) : TableSchema :=
  mkSchema (table_name s) cols (ttl_ns s) (has_data s) (table_id s) (placement s).
Definition with_ttl (ttl : Z) (s : TableSchema) : TableSchema :=
  mkSchema (table_name s) (columns s) ttl (has_data s) (table_id s) (placement s).
Definition with_placement (p : TablePlacementOptions) (s : TableSchema) : TableSchema :=
  mkSchema (table_name s) (columns s) (ttl_ns s) (has_data s) (table_id s) p.
Definition with_data (s : TableSchema) : TableSchema :=
  mkSchema (table_name s) (columns s) (ttl_ns s) true (table_id s) (placement s).

(** Without the first column of that name. *)
Fixpoint erase_column (name : string) (cols : list ColumnDef) : option (list ColumnDef) :=
  match cols with
  | [] => None
  | c :: cols => if String.eqb (col_name c) name then Some cols else cons c <$> erase_column name cols
  end.

Definition add_column (r : SchemaRegistry) (name : string) (col : ColumnDef) : bool * SchemaRegistry :=
  update_table r name (λ s, Some (with_columns (columns s ++ [col]) s)).
Definition drop_column (r : SchemaRegistry) (name col : string) : bool * SchemaRegistry :=
  update_table r name (λ s, (λ cols, with_columns cols s) <$> erase_column col (columns s)).
Definition set_ttl (r : SchemaRegistry) (name : string) (ttl : Z) : bool * SchemaRegistry :=
  update_table r name (λ s, Some (with_ttl ttl s)).
Definition set_placement (r : SchemaRegistry) (name : string) (p : TablePlacementOptions) : bool * SchemaRegistry :=
  update_table r name (λ s, Some (with_placement p s)).
Definition clear_placement (r : SchemaRegistry) (name : string) : bool * SchemaRegistry :=
  set_placement r name no_placement.

Definition min_ttl_ns (r : SchemaRegistry) : Z :=
  foldl (λ m s, if (0 <? ttl_ns s) && ((m =? 0) || (ttl_ns s <? m)) then ttl_ns s else m) 0 (schemas r).
Definition list_tables (r : SchemaRegistry) : list string := fst <$> map_to_list (tables_ r).
Definition table_count (r : SchemaRegistry) : nat := size (tables_ r).

Definition mark_has_data (r : SchemaRegistry) (name : string) : SchemaRegistry :=
  (update_table r name (λ s, Some (with_data s))).2.
(** The first table of that id. *)
Definition mark_id_has_data (r : SchemaRegistry) (id : Z) : SchemaRegistry :=
  if id =? 0 then r
  else match find (λ p, table_id p.2 =? id) (map_to_list (tables_ r)) with
       | Some (name, s) => mkRegistry (<[name := with_data s]> (tables_ r)) (next_table_id_ r)
       | None => r
       end.
Definition table_has_data (r : SchemaRegistry) (name : string) : bool :=
  from_option has_data false (tables_ r !! name).
Definition get_table_id (r : SchemaRegistry) (name : string) : Z := from_option table_id 0 (tables_ r !! name).

(** ** Writing the catalog *)

Notation quote := ("034"%char).
Notation backslash := ("\"%char).
Notation brace_open := ("{"%char).
Notation brace_close := ("}"%char).
Notation bracket_open := ("["%char).
Notation bracket_close := ("]"%char).

Definition json_escape_char (c : char) : text :=
  if Ascii.eqb c quote then [backslash; quote]
  else if Ascii.eqb c backslash then [backslash; backslash]
  else if Ascii.eqb c "010"%char then [backslash; "n"%char]
  else if Ascii.eqb c "013"%char then [backslash; "r"%char]
  else if Ascii.eqb c "009"%char then [backslash; "t"%char]
  else [c].

Definition json_escape (l : text) : text := l ≫= json_escape_char.
Definition json_str (s : string) : text := quote :: json_escape (chars s) ++ [quote].
Definition json_num (z : Z) : text := chars (to_string z).

(** Members [k: v] separated by commas. *)
Definition json_member (m : string * text) : text := (quote :: chars m.1 ++ [quote; ":"%char]) ++ m.2.
Definition json_more (items : list text) : text := items ≫= λ l, ","%char :: l.
Definition json_list (items : list text) : text :=
  match items with
  | [] => []
  | l :: items => l ++ json_more items
  end.
Definition json_object (ms : list (string * text)) : text :=
  brace_open :: json_list (json_member <$> ms) ++ [brace_close].
Definition json_array (items : list text) : text := bracket_open :: json_list items ++ [bracket_close].

Definition mode_index (m : TablePlacementMode) : Z :=
  match m with HashByTableAndSymbol => 0 | HashByTable => 1 | PinnedNode => 2 end.
Definition bool_index (b : bool) : Z := if b then 1 else 0.

Definition print_column (c : ColumnDef) : text :=
  json_object [("name", json_str (col_name c)); ("type", json_num (type_code (col_type c)))]%string.

Definition print_table (s : TableSchema) : text :=
  json_object
    [("name", json_str (table_name s)); ("table_id", json_num (table_id s)); ("ttl_ns", json_num (ttl_ns s));
     ("has_data", json_num (bool_index (has_data s)));
     ("placement_configured", json_num (bool_index (configured (placement s))));
     ("placement_policy", json_num (mode_index (mode (placement s))));
     ("placement_node_id", json_num (placement_node (placement s)));
     ("columns", json_array (print_column <$> columns s))]%string.

Definition save_text (r : SchemaRegistry) : text :=
  json_object
    [("next_table_id", json_num (next_table_id_ r)); ("tables", json_array (print_table <$> schemas r))]%string.

(** ** Reading the catalog *)

Definition json_space (c : char) : bool :=
  Ascii.eqb c " "%char || Ascii.eqb c "010"%char || Ascii.eqb c "013"%char || Ascii.eqb c "009"%char.
Definition skip_ws (l : text) : text := (span json_space l).2.

Definition keep_char (x : char) (r : option (text * text)) : option (text * text) := prod_map (cons x) id <$> r.

(** After an opening bracket, [depth] more of them inside: the text up to the
    bracket that closes it, and what follows. *)
Fixpoint close_from (o c : char) (depth : nat) (in_str : bool) (l : text) : option (text * text) :=
  match l with
  | [] => None
  | x :: l =>
      if in_str then
        if Ascii.eqb x backslash then
          match l with
          | y :: l => keep_char x (keep_char y (close_from o c depth true l))
          | [] => None
          end
        else keep_char x (close_from o c depth (negb (Ascii.eqb x quote)) l)
      else if Ascii.eqb x quote then keep_char x (close_from o c depth true l)
      else if Ascii.eqb x o then keep_char x (close_from o c (S depth) false l)
      else if Ascii.eqb x c then
        match depth with
        | O => Some ([], l)
        | S depth => keep_char x (close_from o c depth false l)
        end
      else keep_char x (close_from o c depth false l)
  end.

Definition match_close (o c : char) (l : text) : option (text * text) :=
  match l with
  | x :: l => if Ascii.eqb x o then close_from o c 0 false l else None
  | [] => None
  end.

(** The value of the first member [key] at the top level of the object [l] starts
    with; [inside] is what has been read of a string, escapes included. *)
Fixpoint find_member (key : text) (object_depth array_depth : Z) (inside : option text) (l : text) : option text :=
  match l with
  | [] => None
  | c :: l =>
      match inside with
      | Some txt =>
          if Ascii.eqb c backslash then
            match l with
            | d :: l => find_member key object_depth array_depth (Some (txt ++ [c; d])) l
            | [] => None
            end
          else if Ascii.eqb c quote then
            if (object_depth =? 1) && (array_depth =? 0) && bool_decide (txt = key) then
              match skip_ws l with
              | d :: l' =>
                  if Ascii.eqb d ":"%char then Some (skip_ws l')
                  else find_member key object_depth array_depth None l
              | [] => find_member key object_depth array_depth None l
              end
            else find_member key object_depth array_depth None l
          else find_member key object_depth array_depth (Some (txt ++ [c])) l
      | None =>
          if Ascii.eqb c brace_open then find_member key (object_depth + 1) array_depth None l
          else if Ascii.eqb c brace_close then find_member key (object_depth - 1) array_depth None l
          else if Ascii.eqb c bracket_open then find_member key object_depth (array_depth + 1) None l
          else if Ascii.eqb c bracket_close then find_member key object_depth (array_depth - 1) None l
          else if Ascii.eqb c quote then find_member key object_depth array_depth (Some []) l
          else find_member key object_depth array_depth None l
      end
  end.

Definition find_member_value (key : string) (l : text) : option text := find_member (chars key) 0 0 None l.

(** What may follow a string, and a number. *)
Definition value_ends (with_bracket : bool) (l : text) : bool :=
  match skip_ws l with
  | [] => true
  | c :: _ => Ascii.eqb c ","%char || Ascii.eqb c brace_close || with_bracket && Ascii.eqb c bracket_close
  end.

Definition unescape_char (c : char) : option char :=
  if Ascii.eqb c "n"%char then Some "010"%char
  else if Ascii.eqb c "r"%char then Some "013"%char
  else if Ascii.eqb c "t"%char then Some "009"%char
  else if Ascii.eqb c quote then Some quote
  else if Ascii.eqb c backslash then Some backslash
  else None.

(** After the opening quote: the string and what follows the closing one. *)
Fixpoint read_json_string (l : text) : option (text * text) :=
  match l with
  | [] => None
  | c :: l =>
      if Ascii.eqb c quote then Some ([], l)
      else if Ascii.eqb c backslash then
        match l with
        | n :: l => x ← unescape_char n; keep_char x (read_json_string l)
        | [] => None
        end
      else if code c <? 32 then None
      else keep_char c (read_json_string l)
  end.

Definition extract_string (key : string) (l : text) : option string :=
  v ← find_member_value key l;
  match v with
  | c :: v =>
      if Ascii.eqb c quote then
        '(s, rest) ← read_json_string v;
        if value_ends false rest then Some (str s) else None
      else None
  | [] => None
  end.

Fixpoint read_digits (limit v : Z) (l : text) : option (Z * text) :=
  match l with
  | c :: l' =>
      if isdigit c then
        if (limit - digit_value c) / 10 <? v then None else read_digits limit (v * 10 + digit_value c) l'
      else Some (v, l)
  | [] => Some (v, [])
  end.

(** An integer of a type with the greatest value [limit]. *)
Definition find_int (signed : bool) (limit : Z) (key : string) (l : text) : option Z :=
  v ← find_member_value key l;
  let '(neg, v) := match v with
                   | c :: v' => if Ascii.eqb c "-"%char then (true, v') else (false, v)
                   | [] => (false, v)
                   end in
  match v with
  | c :: _ =>
      if negb (isdigit c) then None
      else if neg && negb signed then None
      else
        '(n, rest) ← read_digits (if neg then limit + 1 else limit) 0 v;
        if value_ends true rest then Some (if neg then - n else n) else None
  | [] => None
  end.

Definition find_uint32 : string → text → option Z := find_int false (2 ^ 32 - 1).
Definition find_int64 : string → text → option Z := find_int true INT64_MAX.

(** Objects separated by commas, added one after the other. *)
Fixpoint read_objects {A} (item : list A → text → option A) (fuel : nat) (acc : list A) (l : text) : option (list A) :=
  match fuel with
  | O => None
  | S fuel =>
      match skip_ws l with
      | [] => Some acc
      | l =>
          '(inside, rest) ← match_close brace_open brace_close l;
          x ← item acc (brace_open :: inside ++ [brace_close]);
          match skip_ws rest with
          | [] => Some (acc ++ [x])
          | c :: rest =>
              if Ascii.eqb c ","%char && negb (bool_decide (skip_ws rest = []))
              then read_objects item fuel (acc ++ [x]) rest
              else None
          end
      end
  end.

Definition read_array {A} (item : list A → text → option A) (inside : text) : option (list A) :=
  read_objects item (S (length inside)) [] inside.

(** [guard b; k] stops when [b] is false. *)
Definition require_ {A} (b : bool) (k : option A) : option A := if b then k else None.

Definition column_type_of (code : Z) : option ColumnType :=
  nth_error [INT32; INT64; FLOAT32; FLOAT64; TIMESTAMP_NS; SYMBOL; BOOL; STRING] (Z.to_nat code).

Definition read_column (seen : list ColumnDef) (obj : text) : option ColumnDef :=
  name ← extract_string "name" obj;
  require_ (negb (String.eqb name "") && negb (bool_decide (name ∈ (col_name <$> seen))))
  (t ← find_uint32 "type" obj; ty ← column_type_of t; Some (mkColumn name ty)).

Definition mode_of (index : Z) : option TablePlacementMode :=
  nth_error [HashByTableAndSymbol; HashByTable; PinnedNode] (Z.to_nat index).

(** A placement field that is missing or malformed keeps its default. *)
Definition read_placement (obj : text) : option TablePlacementOptions :=
  c ← match find_uint32 "placement_configured" obj with
      | Some n => if 1 <? n then None else Some (negb (n =? 0))
      | None => Some false
      end;
  m ← match find_uint32 "placement_policy" obj with
      | Some n => mode_of n
      | None => Some HashByTableAndSymbol
      end;
  let node := default 0 (find_uint32 "placement_node_id" obj) in
  require_ (negb (c && bool_decide (m = PinnedNode) && (node =? 0))) (Some (mkPlacement c m node)).

Definition read_table (seen : list TableSchema) (obj : text) : option TableSchema :=
  columns_left ← find_member_value "columns" obj;
  '(inside, rest) ← match_close bracket_open bracket_close columns_left;
  require_ (bool_decide (skip_ws rest = [brace_close]))
  (name ← extract_string "name" obj;
   id ← find_uint32 "table_id" obj;
   ttl ← find_int64 "ttl_ns" obj;
   data ← find_uint32 "has_data" obj;
   require_ (negb (String.eqb name "") && negb (id =? 0) && (id <=? 65535) && (0 <=? ttl) && (data <=? 1) &&
             negb (bool_decide (name ∈ (table_name <$> seen))) && negb (bool_decide (id ∈ (table_id <$> seen))))
   (p ← read_placement obj;
    cols ← read_array read_column inside;
    Some (mkSchema name cols ttl (negb (data =? 0)) id p))).

Definition max_table_id (ss : list TableSchema) : Z := foldr (λ s m, Z.max (table_id s) m) 0 ss.

Definition load_text (s : text) : option SchemaRegistry :=
  let l := skip_ws s in
  '(_, after) ← match_close brace_open brace_close l;
  require_ (bool_decide (skip_ws after = []))
  (loaded_next ← find_uint32 "next_table_id" l;
   require_ (negb (loaded_next =? 0) && (loaded_next <=? 65535))
   (tables_value ← find_member_value "tables" l;
    require_ (length after <? length tables_value)%nat
    ('(inside, rest) ← match_close bracket_open bracket_close tables_value;
     require_ ((length after <=? length rest)%nat && (length (skip_ws rest) =? S (length after))%nat)
     (parsed ← read_array read_table inside;
      Some (mkRegistry (list_to_map ((λ s, (table_name s, s)) <$> parsed))
              (Z.min (Z.max loaded_next (max_table_id parsed + 1)) 65535)))))).

(** ** Files *)

(** How the system calls of a save end. *)
Record save_io : Type := mkSaveIo {
  opened : bool; written : bool; reopened : bool; synced : bool; renamed : bool;
  dir_opened : bool; dir_synced : bool;
}.

(** Write a temporary file [tmp], make it durable, move it over [path]. *)
Definition save_to (io : save_io) (fs : gmap string text) (tmp path : string) (r : SchemaRegistry) :
  bool * gmap string text :=
  if negb (opened io) then (false, fs)
  else if negb (written io && reopened io && synced io && renamed io) then (false, delete tmp fs)
  else (dir_opened io && dir_synced io, <[path := save_text r]> (delete tmp fs)).

Inductive catalog_file : Type := Missing | Unreadable | Readable (s : text).

Definition load_from_checked (f : catalog_file) (r : SchemaRegistry) : SchemaCatalogLoadResult * SchemaRegistry :=
  match f with
  | Missing => (NotFound, r)
  | Unreadable => (Invalid, r)
  | Readable s => match load_text s with Some r' => (Loaded, r') | None => (Invalid, r) end
  end.

Definition load_from (f : catalog_file) (r : SchemaRegistry) : bool * SchemaRegistry :=
  let '(res, r) := load_from_checked f r in (match res with Loaded => true | _ => false end, r).

(** ** The invariant *)

(** The ranges the C++ types give. *)
Definition schema_ranges (s : TableSchema) : Prop :=
  0 <= table_id s <= 65535 ∧ INT64_MIN <= ttl_ns s <= INT64_MAX ∧ 0 <= placement_node (placement s) <= 2 ^ 32 - 1.

(** Tables are filed under their names, and no two share an id. *)
Record registry_wf (r : SchemaRegistry) : Prop := mkWf {
  wf_table name s : tables_ r !! name = Some s → table_name s = name ∧ schema_ranges s ∧ table_id s ≠ 0;
  wf_ids n n' s s' : tables_ r !! n = Some s → tables_ r !! n' = Some s' → table_id s = table_id s' → n = n';
  wf_next : 1 <= next_table_id_ r <= 65535;
}.

Lemma elem_of_schemas r s : s ∈ schemas r ↔ ∃ name, tables_ r !! name = Some s.
Proof.
  unfold schemas. rewrite list_elem_of_fmap. split.
  - intros ([name s'] & -> & Hin). exists name. by apply elem_of_map_to_list.
  - intros (name & Hs). exists (name, s). split; [done|]. by apply elem_of_map_to_list.
Qed.

Lemma stable_table_id_range name : 1 <= stable_table_id name <= 65535.
Proof.
  unfold stable_table_id. set (h := foldl _ _ _). pose proof (Z.mod_pos_bound h 65535 ltac:(lia)).
  unfold u16, wrap. rewrite Z.mod_small; lia.
Qed.

(** The [k]-th id after [c] on the circle of ids. *)
Definition id_after (c : Z) (k : nat) : Z := (c - 1 + Z.of_nat k) mod 65535 + 1.

Lemma next_candidate_after c k : next_candidate (id_after c k) = id_after c (S k).
Proof.
  unfold next_candidate, id_after, u16, wrap. rewrite Nat2Z.inj_succ.
  replace (c - 1 + Z.succ (Z.of_nat k)) with (c - 1 + Z.of_nat k + 1) by lia.
  set (x := c - 1 + Z.of_nat k). pose proof (Z.mod_pos_bound x 65535 ltac:(lia)) as Hx.
  rewrite <- (Z.add_mod_idemp_l x 1) by lia.
  destruct (Z.eqb_spec (x mod 65535 + 1) 65535) as [Heq|Hne].
  - replace (x mod 65535 + 1) with 65535 by lia. done.
  - rewrite (Z.mod_small (x mod 65535 + 1) 65535), Z.mod_small by lia. done.
Qed.

(** The probe finds the first id from [c] on that is not used. *)
Lemma probe_spec attempts used c k :
  match probe attempts used (id_after c k) with
  | 0 => ∀ j, (k <= j < k + attempts)%nat → id_after c j ∈ used
  | id => id ∉ used ∧ 1 <= id <= 65535 ∧
      ∃ j, (k <= j < k + attempts)%nat ∧ id = id_after c j ∧ ∀ i, (k <= i < j)%nat → id_after c i ∈ used
  end.
Proof.
  revert k. induction attempts as [|attempts IH]; intros k; cbn [probe]; [intros j; lia|].
  assert (1 <= id_after c k <= 65535) as Hr.
  { unfold id_after. pose proof (Z.mod_pos_bound (c - 1 + Z.of_nat k) 65535 ltac:(lia)). lia. }
  case_bool_decide as Hin.
  - rewrite next_candidate_after. specialize (IH (S k)).
    assert (∀ j, (k <= j)%nat → (∀ i, (S k <= i < j)%nat → id_after c i ∈ used) → ∀ i, (k <= i < j)%nat → id_after c i ∈ used) as Hext.
    { intros j Hj H i Hi. destruct (decide (i = k)) as [->|]; [done|]. apply H. lia. }
    destruct (probe attempts used (id_after c (S k))) eqn:Hp.
    + intros j Hj. destruct (decide (j = k)) as [->|]; [done|]. apply IH. lia.
    + destruct IH as (Hn & Hrange & j & Hj & Hid & Hused). split; [done|]. split; [done|]. exists j. split; [lia|].
      split; [done|]. apply Hext; [lia|done].
    + destruct IH as (_ & Hrange & _). lia.
  - destruct (id_after c k) eqn:Hid; [lia| |lia]. rewrite <- Hid in *. split; [done|]. split; [done|].
    exists k. split; [lia|]. split; [done|]. lia.
Qed.

(** Every id is met within [MAX_TABLES] steps. *)
Lemma id_after_all c id : 1 <= id <= 65535 → ∃ j, (j < MAX_TABLES)%nat ∧ id = id_after c j.
Proof.
  intros Hid. exists (Z.to_nat ((id - c) mod 65535)). pose proof (Z.mod_pos_bound (id - c) 65535 ltac:(lia)) as Hm.
  split; [unfold MAX_TABLES; lia|]. unfold id_after. rewrite Z2Nat.id by lia.
  rewrite Z.add_mod_idemp_r by lia. replace (c - 1 + (id - c)) with (id - 1) by lia. rewrite Z.mod_small by lia. lia.
Qed.

Lemma id_after_0 c : 1 <= c <= 65535 → id_after c 0 = c.
Proof. intros Hc. unfold id_after. rewrite Z.add_0_r, Z.mod_small by lia. lia. Qed.

(** The id a new table gets, and when there is none. *)
Lemma allocate_spec r name :
  match allocate_table_id r name with
  | 0 => ∀ id, 1 <= id <= 65535 → id ∈ (table_id <$> schemas r)
  | id => id ∉ (table_id <$> schemas r) ∧ 1 <= id <= 65535 ∧
      ∃ j, (j < MAX_TABLES)%nat ∧ id = id_after (stable_table_id name) j ∧
        ∀ i, (i < j)%nat → id_after (stable_table_id name) i ∈ (table_id <$> schemas r)
  end.
Proof.
  unfold allocate_table_id. pose proof (stable_table_id_range name) as Hc.
  pose proof (probe_spec MAX_TABLES (table_id <$> schemas r) (stable_table_id name) 0) as H.
  rewrite id_after_0 in H by done. destruct (probe _ _ _).
  - intros id Hid. destruct (id_after_all (stable_table_id name) id Hid) as (j & Hj & ->). apply H. lia.
  - destruct H as (Hn & Hr & j & Hj & Hid & Hused). split; [done|]. split; [done|]. exists j. split; [lia|].
    split; [done|]. intros i Hi. apply Hused. lia.
  - destruct H as (_ & H & _). lia.
Qed.

Lemma empty_registry_wf : registry_wf empty_registry.
Proof. split; [|intros n n' s s'|simpl; lia]; intros *; unfold empty_registry; simpl; by rewrite lookup_empty. Qed.

Lemma bump_next_range next id : 1 <= next <= 65535 → 0 <= id <= 65535 → 1 <= bump_next next id <= 65535.
Proof.
  intros Hn Hid. unfold bump_next, u16, wrap. destruct (Z.leb_spec next id), (Z.ltb_spec id 65535); simpl; try lia.
  rewrite Z.mod_small; lia.
Qed.

(** Filing a schema under its name, with an id no other table has. *)
Lemma insert_wf r s next : registry_wf r → schema_ranges s → table_id s ≠ 0 → 1 <= next <= 65535 →
  (∀ n s', tables_ r !! n = Some s' → n ≠ table_name s → table_id s' ≠ table_id s) →
  registry_wf (mkRegistry (<[table_name s := s]> (tables_ r)) next).
Proof.
  intros [Ht Hi Hn] Hs Hid Hnext Hother. split; cbn [tables_ next_table_id_]; [| |done].
  - intros name s' [[<- <-]|[_ Hl]]%lookup_insert_Some; [done|by apply Ht].
  - intros n n' s1 s2 [[<- <-]|[Hne1 H1]]%lookup_insert_Some [[<- <-]|[Hne2 H2]]%lookup_insert_Some Heq; [done| | |by eapply Hi].
    + by destruct (Hother _ _ H2 (not_eq_sym Hne2)).
    + by destruct (Hother _ _ H1 (not_eq_sym Hne1)).
Qed.

Lemma update_table_wf r name f : registry_wf r →
  (∀ s s', schema_ranges s → f s = Some s' → table_name s' = table_name s ∧ table_id s' = table_id s ∧ schema_ranges s') →
  registry_wf (update_table r name f).2.
Proof.
  intros Hwf Hf. pose proof Hwf as [Ht Hi Hn]. unfold update_table.
  destruct (tables_ r !! name) as [s|] eqn:Hs; [|done]. simpl. destruct (f s) as [s'|] eqn:Hfs; [|done].
  destruct (Ht _ _ Hs) as (Hname & Hr & Hid). destruct (Hf s s' Hr Hfs) as (Hn' & Hid' & Hr'). simpl.
  rewrite <- Hname, <- Hn'. apply insert_wf; [done|done|by rewrite Hid'|done|].
  intros n s2 Hs2 Hne Heq. rewrite Hid' in Heq. apply Hne. rewrite Hn', Hname. by eapply Hi.
Qed.

(** *** What a catalog file can hold *)

Lemma read_digits_range limit v l n rest : 0 <= v <= limit → read_digits limit v l = Some (n, rest) → 0 <= n <= limit.
Proof.
  revert v. induction l as [|c l IH]; intros v Hv H; cbn [read_digits] in H; [by simplify_eq|].
  destruct (isdigit c) eqn:Hc; [|by simplify_eq]. destruct (Z.ltb_spec ((limit - digit_value c) / 10) v) as [|Hle]; [done|].
  eapply IH; [|exact H]. assert (0 <= digit_value c) as Hd.
  { unfold isdigit, Text.between in Hc. unfold digit_value. lia. }
  pose proof (Z.mul_div_le (limit - digit_value c) 10 ltac:(lia)). lia.
Qed.

Lemma find_int_range signed limit key l n : 0 <= limit → find_int signed limit key l = Some n →
  (if signed then - limit - 1 else 0) <= n <= limit.
Proof.
  intros Hl H. unfold find_int in H. destruct (find_member_value key l) as [v|]; [|done]. cbn in H.
  destruct (match v with c :: v' => if Ascii.eqb c "-"%char then (true, v') else (false, v) | [] => (false, v) end) as [neg w].
  destruct w as [|c w]; [done|]. destruct (isdigit c); [|done]. cbn [negb] in H. destruct (neg && negb signed) eqn:Hns; [done|].
  destruct (read_digits _ 0 _) as [[m rest]|] eqn:Hd; [|done]. cbn in H. destruct (value_ends _ _); [|done]. simplify_eq.
  apply read_digits_range in Hd; [|destruct neg; lia]. destruct neg, signed; try done; lia.
Qed.

(** An invariant of the objects read so far holds for the whole array. *)
Lemma read_objects_inv {A} (item : list A → text → option A) (I : list A → Prop) fuel acc l res :
  (∀ acc obj x, I acc → item acc obj = Some x → I (acc ++ [x])) → I acc → read_objects item fuel acc l = Some res → I res.
Proof.
  intros Hi. revert acc l. induction fuel as [|fuel IH]; intros acc l Ha H; cbn [read_objects] in H; [done|].
  destruct (skip_ws l) as [|c l']; [by simplify_eq|].
  destruct (match_close _ _ _) as [[inside rest]|]; [|done]. cbn in H.
  destruct (item acc _) as [x|] eqn:Hx; [|done]. cbn in H. specialize (Hi _ _ _ Ha Hx).
  destruct (skip_ws rest) as [|d rest']; [by simplify_eq|]. destruct (_ && _); [|done]. exact (IH _ _ Hi H).
Qed.

(** Tables read from a file: in range, with names and ids of their own. *)
Definition readable_tables (ss : list TableSchema) : Prop :=
  Forall (λ s, schema_ranges s ∧ table_id s ≠ 0) ss ∧ NoDup (table_name <$> ss) ∧ NoDup (table_id <$> ss).

Lemma placement_range obj p : read_placement obj = Some p → 0 <= placement_node p <= 2 ^ 32 - 1.
Proof.
  intros H. assert (placement_node p = default 0 (find_uint32 "placement_node_id" obj)) as ->.
  { unfold read_placement, require_ in H. cbn in H. repeat (case_match; cbn in H; simplify_eq; try done).
    all: destruct (mode_of _) as [md|]; [|done]; cbn in H; repeat (case_match; try done); by simplify_eq. }
  destruct (find_uint32 "placement_node_id" obj) as [n|] eqn:Hn; cbn; [|lia]. by apply find_int_range in Hn.
Qed.

Lemma read_table_readable acc obj s : readable_tables acc → read_table acc obj = Some s → readable_tables (acc ++ [s]).
Proof.
  intros (Hr & Hn & Hi) H. unfold read_table in H. destruct (find_member_value _ _) as [left|]; [|done]. cbn [mbind option_bind] in H.
  destruct (match_close _ _ _) as [[inside rest]|]; [|done]. cbn [mbind option_bind] in H. unfold require_ in H. destruct (bool_decide _); [|done].
  destruct (extract_string _ _) as [name|]; [|done]. destruct (find_uint32 "table_id" obj) as [id|] eqn:Hid; [|done].
  destruct (find_int64 "ttl_ns" obj) as [ttl|] eqn:Httl; [|done]. destruct (find_uint32 "has_data" obj) as [data|]; [|done]. cbn [mbind option_bind] in H.
  destruct (_ && _) eqn:Hc; [|done]. rewrite !andb_true_iff, !negb_true_iff, !bool_decide_eq_false in Hc.
  destruct Hc as ((((((Hne & Hz) & Hmax) & Ht) & Hdata) & Hname) & Hids).
  destruct (read_placement obj) as [p|] eqn:Hp; [|done]. destruct (read_array read_column inside) as [cols|]; [|done]. cbn [mbind option_bind] in H. simplify_eq.
  apply find_int_range in Hid; [|done]. apply find_int_range in Httl; [|done]. apply placement_range in Hp.
  unfold readable_tables. rewrite !fmap_app, !NoDup_app, Forall_app, Forall_singleton. split_and!; try done; try apply NoDup_singleton.
  - split; cbn; [lia|]. unfold INT64_MIN, INT64_MAX in *. split; [lia|done].
  - cbn. lia.
  - intros x Hx ->%list_elem_of_singleton. done.
  - intros x Hx ->%list_elem_of_singleton. done.
Qed.

Lemma fmap_inj_on {A B} (f : A → B) (l : list A) x y : NoDup (f <$> l) → x ∈ l → y ∈ l → f x = f y → x = y.
Proof.
  intros Hn [i Hi]%list_elem_of_lookup [j Hj]%list_elem_of_lookup Hf.
  assert (i = j) as ->; [|congruence].
  apply (NoDup_lookup (f <$> l) i j (f x)); [done|by rewrite list_lookup_fmap, Hi|by rewrite list_lookup_fmap, Hj, Hf].
Qed.

Lemma load_text_wf s r : load_text s = Some r → registry_wf r.
Proof.
  unfold load_text. intros H. destruct (match_close _ _ _) as [[inside after]|]; [|done]. cbn [mbind option_bind] in H. unfold require_ in H.
  destruct (bool_decide _); [|done]. destruct (find_uint32 "next_table_id" _) as [next|] eqn:Hnext; [|done]. cbn [mbind option_bind] in H.
  destruct (_ && _) eqn:Hc; [|done]. destruct (find_member_value "tables" _) as [tables|]; [|done]. cbn [mbind option_bind] in H.
  case_match; [|done]. destruct (match_close _ _ tables) as [[inside' rest]|]; [|done]. cbn [mbind option_bind] in H.
  case_match; [|done]. destruct (read_array read_table inside') as [parsed|] eqn:Hp; [|done]. cbn [mbind option_bind] in H. simplify_eq.
  apply find_int_range in Hnext; [|done].
  destruct (read_objects_inv read_table readable_tables _ _ _ _ read_table_readable ltac:(by repeat constructor) Hp) as (Hr & Hn & Hi).
  assert (∀ name s, (list_to_map ((λ s, (table_name s, s)) <$> parsed) : gmap string TableSchema) !! name = Some s →
    s ∈ parsed ∧ table_name s = name) as Hl.
  { intros name t Ht%elem_of_list_to_map_2. apply list_elem_of_fmap in Ht as (t' & [= -> ->] & Hin). done. }
  split; cbn [tables_ next_table_id_].
  - intros name t [Hin Hname]%Hl. rewrite Forall_forall in Hr. destruct (Hr t Hin). done.
  - intros n n' t t' [Hin <-]%Hl [Hin' <-]%Hl Heq. f_equal. by eapply (fmap_inj_on table_id parsed).
  - assert (0 <= max_table_id parsed) by (clear; induction parsed; simpl; lia). lia.
Qed.

(** What happens to a registry. *)
Inductive registry_op : Type :=
  | OpCreate (name : string) (cols : list ColumnDef) (p : TablePlacementOptions)
  | OpDrop (name : string)
  | OpRestore (s : TableSchema)
  | OpAddColumn (name : string) (col : ColumnDef)
  | OpDropColumn (name col : string)
  | OpSetTtl (name : string) (ttl : Z)
  | OpSetPlacement (name : string) (p : TablePlacementOptions)
  | OpClearPlacement (name : string)
  | OpMarkHasData (name : string)
  | OpMarkIdHasData (id : Z)
  | OpLoad (f : catalog_file).

Definition registry_step (r : SchemaRegistry) (op : registry_op) : SchemaRegistry :=
  match op with
  | OpCreate name cols p => (create r name cols p).2
  | OpDrop name => (drop_table r name).2
  | OpRestore s => (restore_table_schema r s).2
  | OpAddColumn name col => (add_column r name col).2
  | OpDropColumn name col => (drop_column r name col).2
  | OpSetTtl name ttl => (set_ttl r name ttl).2
  | OpSetPlacement name p => (set_placement r name p).2
  | OpClearPlacement name => (clear_placement r name).2
  | OpMarkHasData name => mark_has_data r name
  | OpMarkIdHasData id => mark_id_has_data r id
  | OpLoad f => (load_from_checked f r).2
  end.

Definition node_in_range (p : TablePlacementOptions) : Prop := 0 <= placement_node p <= 2 ^ 32 - 1.

(** Arguments are values of their C++ types. *)
Definition op_in_range (op : registry_op) : Prop :=
  match op with
  | OpCreate _ _ p | OpSetPlacement _ p => node_in_range p
  | OpRestore s => schema_ranges s
  | OpSetTtl _ ttl => INT64_MIN <= ttl <= INT64_MAX
  | _ => True
  end.

Lemma create_wf r name cols p : registry_wf r → node_in_range p → registry_wf (create r name cols p).2.
Proof.
  intros Hwf Hp. unfold create. destruct (tables_ r !! name) as [s|] eqn:Hs; [done|].
  destruct (Z.eqb_spec (allocate_table_id r name) 0) as [|Hne]; [done|]. simpl.
  pose proof (allocate_spec r name) as Ha. destruct (allocate_table_id r name) as [|id|id] eqn:Hid; [done| |].
  all: destruct Ha as (Hn & Hr & _).
  all: apply (insert_wf r (mkSchema name cols 0 false _ p)); [done| |done|apply bump_next_range; [apply Hwf|lia]|].
  all: try (split; [simpl; lia|]; split; [simpl; unfold INT64_MIN, INT64_MAX; lia|exact Hp]).
  all: intros n s Hl _ Heq; apply Hn; apply list_elem_of_fmap; exists s; split; [done|]; apply elem_of_schemas; by exists n.
Qed.

Lemma restore_wf r s : registry_wf r → schema_ranges s → registry_wf (restore_table_schema r s).2.
Proof.
  intros Hwf Hs. unfold restore_table_schema. destruct (Z.eqb_spec (table_id s) 0) as [|Hid]; [by rewrite orb_true_r|].
  rewrite orb_false_r. destruct (String.eqb (table_name s) ""); [done|].
  destruct (existsb _ _) eqn:He; [done|]. simpl.
  apply insert_wf; [done|done|done|apply bump_next_range; [apply Hwf|apply Hs]|].
  intros n s' Hl Hne Heq. apply not_true_iff_false in He. apply He, existsb_exists. exists (n, s').
  split; [by apply list_elem_of_In, elem_of_map_to_list|]. simpl. apply String.eqb_neq in Hne. rewrite Hne.
  simpl. by apply Z.eqb_eq.
Qed.

Lemma mark_id_wf r id : registry_wf r → registry_wf (mark_id_has_data r id).
Proof.
  intros Hwf. unfold mark_id_has_data. destruct (id =? 0); [done|].
  destruct (find _ _) as [[n s]|] eqn:Hf; [|done]. apply find_some in Hf as [Hin _].
  apply list_elem_of_In, elem_of_map_to_list in Hin.
  pose proof (update_table_wf r n (λ s, Some (with_data s)) Hwf) as H. unfold update_table in H. rewrite Hin in H.
  apply H. intros s0 s' Hs [= <-]. done.
Qed.

(** C37. Whatever is done to a registry, its tables stay filed under their own
    names, with ids from 1 to 65535 that no two tables share: creating, dropping,
    altering, restoring and marking tables, and loading catalog files
    with any contents, in any order keep the invariant. *)
Theorem registry_invariant ops : Forall op_in_range ops → registry_wf (foldl registry_step empty_registry ops).
Proof.
  intros Hops. induction ops as [|op ops IH] using rev_ind; [apply empty_registry_wf|].
  apply Forall_app in Hops as [Hops Hop]. rewrite Forall_singleton in Hop. rewrite foldl_snoc. specialize (IH Hops).
  set (r := foldl registry_step empty_registry ops) in *.
  assert (∀ name f, (∀ s s', schema_ranges s → f s = Some s' →
    table_name s' = table_name s ∧ table_id s' = table_id s ∧ schema_ranges s') → registry_wf (update_table r name f).2) as Hu.
  { intros name f. by apply update_table_wf. }
  destruct op; cbn [registry_step op_in_range] in Hop |- *.
  - by apply create_wf.
  - destruct IH as [Ht Hi Hn]. unfold drop_table. split; cbn [snd tables_ next_table_id_]; [| |done].
    + intros n s [_ Hl]%lookup_delete_Some. by apply Ht.
    + intros n n' s s' [_ H1]%lookup_delete_Some [_ H2]%lookup_delete_Some. by eapply Hi.
  - by apply restore_wf.
  - apply Hu. intros s s' Hs [= <-]. done.
  - apply Hu. intros s s' Hs Hf. destruct (erase_column col (columns s)); [|done]. injection Hf as <-. done.
  - apply Hu. intros s s' (H1 & _ & H3) [= <-]. done.
  - apply Hu. intros s s' (H1 & H2 & _) [= <-]. done.
  - apply Hu. intros s s' (H1 & H2 & _) [= <-]. split; [done|]. split; [done|]. split; [done|]. split; [done|]. simpl. lia.
  - apply Hu. intros s s' Hs [= <-]. done.
  - by apply mark_id_wf.
  - destruct f as [| |text]; cbn [load_from_checked]; [done..|].
    destruct (load_text text) as [r'|] eqn:Hl; [|done]. by apply load_text_wf in Hl.
Qed.

(** Creating a table succeeds exactly when there is no table of the name and
    one of the ids 1 to 65535 is free. The table then gets the first free id from
    the hash of its name on, whatever was created or dropped before in which
    order, and every other table is as it was. *)
Theorem create_first_free r name cols p :
  let ids := table_id <$> schemas r in
  ((create r name cols p).1 = true ↔ tables_ r !! name = None ∧ ∃ id, 1 <= id <= 65535 ∧ id ∉ ids) ∧
  ((create r name cols p).1 = false → (create r name cols p).2 = r) ∧
  ((create r name cols p).1 = true → ∃ id j,
    tables_ (create r name cols p).2 = <[name := mkSchema name cols 0 false id p]> (tables_ r) ∧
    id = id_after (stable_table_id name) j ∧ (j < MAX_TABLES)%nat ∧ id ∉ ids ∧
    ∀ i, (i < j)%nat → id_after (stable_table_id name) i ∈ ids).
Proof.
  intros ids. unfold create. destruct (tables_ r !! name) as [s|].
  { simpl. split; [|by split]. split; [done|]. by intros [? _]. }
  pose proof (allocate_spec r name) as Ha. destruct (Z.eqb_spec (allocate_table_id r name) 0) as [H0|Hne]; simpl.
  - rewrite H0 in Ha. split; [|by split]. split; [done|]. intros (_ & id & Hid & Hfree). by destruct (Hfree (Ha id Hid)).
  - assert (allocate_table_id r name ∉ ids ∧ 1 <= allocate_table_id r name <= 65535 ∧
      ∃ j, (j < MAX_TABLES)%nat ∧ allocate_table_id r name = id_after (stable_table_id name) j ∧
        ∀ i, (i < j)%nat → id_after (stable_table_id name) i ∈ ids) as (Hn & Hr & j & Hj & Hid & Hused)
      by by destruct (allocate_table_id r name).
    split; [|split; [done|]].
    + split; [|done]. intros _. split; [done|]. by exists (allocate_table_id r name).
    + intros _. by exists (allocate_table_id r name), j.
Qed.

Lemma registry_invariant_witness :
  let ops := [OpCreate "a" [] no_placement; OpCreate "b" [] no_placement; OpDrop "a"; OpSetTtl "b" 5;
    OpLoad (Readable (save_text (create empty_registry "c" [] no_placement).2))] in
  Forall op_in_range ops ∧ registry_wf (foldl registry_step empty_registry ops).
Proof.
  intros ops. assert (Forall op_in_range ops) as Hops.
  { repeat (apply Forall_cons; split); try done; simpl; unfold node_in_range, INT64_MIN, INT64_MAX; simpl; lia. }
  split; [exact Hops|]. apply registry_invariant. exact Hops.
Defined.
