(* ===== verification/CatalogFacts.v ===== *)
(** * Theorems about the schema catalog

    What is written to the JSON catalog is read back, table by table, and which
    catalogs the loader refuses. *)

From S2P Require Import Prelude.
From S2P Require Import Text.
From S2P Require Import ColumnStore.
From S2P Require Import SchemaRegistry.
From stdpp Require Import base gmap list strings fin_maps.
From Stdlib Require Import ZArith Lia Ascii.

Open Scope Z_scope.

(** ** Brackets *)

Definition keep_chars (l : text) (r : option (text * text)) : option (text * text) := prod_map (app l) id <$> r.

Lemma keep_char_chars x l r : keep_char x (keep_chars l r) = keep_chars (x :: l) r.
Proof. by destruct r as [[a b]|]. Qed.
Lemma keep_chars_app l k r : keep_chars l (keep_chars k r) = keep_chars (l ++ k) r.
Proof. destruct r as [[a b]|]; [|done]. unfold keep_chars. simpl. by rewrite app_assoc. Qed.
Lemma keep_chars_nil r : keep_chars [] r = r.
Proof. by destruct r as [[a b]|]. Qed.

Section Brackets.
Context (o c : char).

(** Text that opens no bracket it does not close. *)
Definition closed (l : text) : Prop :=
  ∀ depth rest, close_from o c depth false (l ++ rest) = keep_chars l (close_from o c depth false rest).

Lemma closed_nil : closed [].
Proof. intros depth rest. by rewrite keep_chars_nil. Qed.

Lemma closed_app l k : closed l → closed k → closed (l ++ k).
Proof. intros Hl Hk depth rest. by rewrite <- app_assoc, Hl, Hk, keep_chars_app. Qed.

Definition plain (x : char) : bool := negb (Ascii.eqb x quote) && negb (Ascii.eqb x o) && negb (Ascii.eqb x c).

Lemma closed_plain l : forallb plain l = true → closed l.
Proof.
  induction l as [|x l IH]; [intros _; apply closed_nil|]. cbn [forallb]. intros [Hx Hl]%andb_true_iff depth rest.
  unfold plain in Hx. cbn [app close_from].
  destruct (Ascii.eqb x quote), (Ascii.eqb x o), (Ascii.eqb x c); try done.
  rewrite (IH Hl). apply keep_char_chars.
Qed.

(** In a string: the escaped text, then the closing quote. *)
Lemma close_escaped s depth rest :
  close_from o c depth true (json_escape s ++ quote :: rest) =
    keep_chars (json_escape s ++ [quote]) (close_from o c depth false rest).
Proof.
  induction s as [|x s IH]; [done|]. unfold json_escape in *. cbn [mbind list_bind].
  rewrite <- app_assoc. unfold json_escape_char at 1 3.
  destruct (Ascii.eqb x quote) eqn:Hq; [cbn [app close_from]; rewrite !IH, !keep_char_chars; done|].
  destruct (Ascii.eqb x backslash) eqn:Hb; [cbn [app close_from]; rewrite !IH, !keep_char_chars; done|].
  repeat (case_match; [cbn [app close_from]; rewrite !IH, !keep_char_chars; done|]).
  cbn [app close_from]. rewrite Hb, Hq. cbn [negb]. by rewrite IH, keep_char_chars.
Qed.

Lemma closed_string s : closed (json_str s).
Proof.
  intros depth rest. unfold json_str. cbn [app close_from]. rewrite <- app_assoc. cbn [app].
  change (Ascii.eqb quote quote) with true. cbv iota. by rewrite close_escaped, keep_char_chars.
Qed.

Lemma closed_nested l : plain o = false → Ascii.eqb o quote = false → Ascii.eqb c quote = false → Ascii.eqb c o = false →
  closed l → closed (o :: l ++ [c]).
Proof.
  intros _ Hoq Hcq Hco Hl depth rest. cbn [app close_from]. rewrite Hoq, Ascii.eqb_refl, <- app_assoc, Hl.
  cbn [app close_from]. rewrite Hcq, Hco, Ascii.eqb_refl.
  by destruct (close_from o c depth false rest) as [[a b]|]; simpl; rewrite <- ?app_assoc.
Qed.

Lemma match_closed l rest : Ascii.eqb c quote = false → Ascii.eqb c o = false → closed l →
  match_close o c (o :: l ++ c :: rest) = Some (l, rest).
Proof.
  intros Hcq Hco Hl. unfold match_close. rewrite Ascii.eqb_refl, Hl. cbn [close_from].
  rewrite Hcq, Hco, Ascii.eqb_refl. unfold keep_chars. simpl. by rewrite app_nil_r.
Qed.

Lemma closed_more items : plain ","%char = true → Forall closed items → closed (json_more items).
Proof.
  intros Hc. induction 1 as [|l items Hl Hitems IH]; [apply closed_nil|].
  change (json_more (l :: items)) with ((","%char :: l) ++ json_more items).
  apply closed_app; [|done]. apply (closed_app [","%char]); [|done]. apply closed_plain. simpl. by rewrite Hc.
Qed.

Lemma closed_list items : plain ","%char = true → Forall closed items → closed (json_list items).
Proof.
  intros Hc [|l items' Hl Hitems]; [apply closed_nil|]. apply closed_app; [done|]. by apply closed_more.
Qed.
End Brackets.

(** ** Numbers and keys *)

Definition numeral (x : char) : bool := isdigit x || Ascii.eqb x "-"%char.

Lemma numeral_plain x : numeral x = true →
  Ascii.eqb x quote = false ∧ Ascii.eqb x brace_open = false ∧ Ascii.eqb x brace_close = false ∧
  Ascii.eqb x bracket_open = false ∧ Ascii.eqb x bracket_close = false ∧ json_space x = false.
Proof. by_char x. Qed.

Lemma json_num_numeral z : forallb numeral (json_num z) = true ∧ json_num z ≠ [].
Proof.
  unfold json_num, to_string. rewrite chars_str.
  assert (∀ l, forallb isdigit l = true → forallb numeral l = true) as Hd.
  { intros l. rewrite !forallb_forall. intros H x Hx. unfold numeral. by rewrite H. }
  destruct (Z.ltb_spec z 0).
  - destruct (unsigned_digits_spec (- z)) as (H1 & _ & H2); [lia|]. split; [|done]. cbn [forallb]. by apply Hd.
  - destruct (unsigned_digits_spec z) as (H1 & _ & H2); [lia|]. split; [by apply Hd|done].
Qed.

Lemma closed_num o c z : (o = brace_open ∧ c = brace_close) ∨ (o = bracket_open ∧ c = bracket_close) → closed o c (json_num z).
Proof.
  intros Hoc. apply closed_plain. destruct (json_num_numeral z) as [Hn _]. rewrite forallb_forall in Hn |- *.
  intros x Hx. destruct (numeral_plain x (Hn x Hx)) as (H1 & H2 & H3 & H4 & H5 & _). unfold plain.
  destruct Hoc as [[-> ->]|[-> ->]]; [by rewrite H1, H2, H3|by rewrite H1, H4, H5].
Qed.

(** Keys that are printed as they are. *)
Definition simple_key (k : string) : Prop := json_escape (chars k) = chars k.

Lemma json_member_str k v : simple_key k → json_member (k, v) = json_str k ++ ":"%char :: v.
Proof. intros Hk. unfold json_member, json_str. cbn [fst snd]. rewrite Hk. simpl. by rewrite <- !app_assoc. Qed.

(** ** Skipping over values *)

(** The member [key] is not in [l], which leaves the depths as they are. *)
Definition inert (key : text) (od ad : Z) (l : text) : Prop :=
  ∀ rest, find_member key od ad None (l ++ rest) = find_member key od ad None rest.

Definition top (od ad : Z) : bool := (od =? 1) && (ad =? 0).

Section Inert.
Context (key : text) (od ad : Z).

Lemma inert_nil : inert key od ad [].
Proof. done. Qed.
Lemma inert_app l k : inert key od ad l → inert key od ad k → inert key od ad (l ++ k).
Proof. intros Hl Hk rest. by rewrite <- app_assoc, Hl, Hk. Qed.

Definition ordinary (x : char) : bool :=
  negb (Ascii.eqb x quote) && negb (Ascii.eqb x brace_open) && negb (Ascii.eqb x brace_close) &&
  negb (Ascii.eqb x bracket_open) && negb (Ascii.eqb x bracket_close).

Lemma inert_ordinary l : forallb ordinary l = true → inert key od ad l.
Proof.
  induction l as [|x l IH]; [intros _; apply inert_nil|]. cbn [forallb]. intros [Hx Hl]%andb_true_iff rest.
  unfold ordinary in Hx. cbn [app find_member].
  destruct (Ascii.eqb x quote), (Ascii.eqb x brace_open), (Ascii.eqb x brace_close), (Ascii.eqb x bracket_open),
    (Ascii.eqb x bracket_close); try done. by apply IH.
Qed.

Lemma inert_num z : inert key od ad (json_num z).
Proof.
  apply inert_ordinary. destruct (json_num_numeral z) as [Hn _]. rewrite forallb_forall in Hn |- *.
  intros x Hx. destruct (numeral_plain x (Hn x Hx)) as (H1 & H2 & H3 & H4 & H5 & _). unfold ordinary.
  by rewrite H1, H2, H3, H4, H5.
Qed.

Lemma find_escaped s txt rest :
  find_member key od ad (Some txt) (json_escape s ++ rest) = find_member key od ad (Some (txt ++ json_escape s)) rest.
Proof.
  revert txt. induction s as [|x s IH]; intros txt; [by rewrite app_nil_r|].
  unfold json_escape in *. cbn [mbind list_bind]. rewrite <- app_assoc, (app_assoc txt).
  unfold json_escape_char at 1 3.
  destruct (Ascii.eqb x quote) eqn:Hq; [cbn [app find_member]; by rewrite IH|].
  destruct (Ascii.eqb x backslash) eqn:Hb; [cbn [app find_member]; by rewrite IH|].
  repeat (case_match; [cbn [app find_member]; by rewrite IH|]).
  cbn [app find_member]. by rewrite Hb, Hq, IH.
Qed.

(** What is read after a string that is a value. *)
Lemma find_string s rest :
  (top od ad = true → json_escape (chars s) = key → ends_run json_space rest ∧ head rest ≠ Some ":"%char) →
  find_member key od ad None (json_str s ++ rest) = find_member key od ad None rest.
Proof.
  intros Hr. unfold json_str. cbn [app find_member]. rewrite <- app_assoc.
  change (Ascii.eqb quote brace_open) with false. change (Ascii.eqb quote brace_close) with false.
  change (Ascii.eqb quote bracket_open) with false. change (Ascii.eqb quote bracket_close) with false.
  change (Ascii.eqb quote quote) with true. cbv iota. rewrite find_escaped. cbn [app find_member].
  change (Ascii.eqb quote backslash) with false. change (Ascii.eqb quote quote) with true. cbv iota.
  fold (top od ad). destruct (top od ad); [|done]. simpl (true && _).
  destruct (bool_decide_reflect (json_escape (chars s) = key)) as [Hk|]; [|done].
  destruct (Hr eq_refl Hk) as [Hs Hc]. unfold skip_ws. destruct rest as [|d rest]; [done|]. simpl in Hs, Hc.
  cbn [span]. rewrite Hs. cbn [snd]. destruct (Ascii.eqb_spec d ":"%char); [by subst|done].
Qed.

Lemma inert_string s : top od ad = false → inert key od ad (json_str s).
Proof. intros Ht rest. apply find_string. by rewrite Ht. Qed.

Lemma inert_more items : Forall (inert key od ad) items → inert key od ad (json_more items).
Proof.
  induction 1 as [|l items Hl Hitems IH]; [apply inert_nil|].
  change (json_more (l :: items)) with ([","%char] ++ l ++ json_more items).
  apply inert_app; [by apply inert_ordinary|]. by apply inert_app.
Qed.
Lemma inert_list items : Forall (inert key od ad) items → inert key od ad (json_list items).
Proof. intros [|l items' Hl Hitems]; [apply inert_nil|]. apply inert_app; [done|]. by apply inert_more. Qed.
End Inert.

Lemma inert_object key od ad ms :
  Forall (inert key (od + 1) ad) (json_member <$> ms) → inert key od ad (json_object ms).
Proof.
  intros Hms rest. unfold json_object. cbn [app find_member]. rewrite <- app_assoc, (inert_list key (od + 1) ad _ Hms).
  cbn [app find_member]. by rewrite Z.add_simpl_r.
Qed.

Lemma inert_array key od ad items : Forall (inert key od (ad + 1)) items → inert key od ad (json_array items).
Proof.
  intros Hms rest. unfold json_array. cbn [app find_member]. rewrite <- app_assoc, (inert_list key od (ad + 1) _ Hms).
  cbn [app find_member]. by rewrite Z.add_simpl_r.
Qed.

Lemma inert_member key od ad k v : simple_key k → top od ad = false → inert key od ad v → inert key od ad (json_member (k, v)).
Proof.
  intros Hk Ht Hv. rewrite json_member_str by done. apply inert_app; [by apply inert_string|].
  apply (inert_app _ _ _ [":"%char]); [by apply inert_ordinary|done].
Qed.

(** ** Members of an object *)

(** What follows a member. *)
Definition after_value (rest : text) : Prop := ∃ x r, rest = x :: r ∧ (x = ","%char ∨ x = brace_close).

Record json_value (v : text) : Prop := mkJsonValue {
  value_skipped key rest : after_value rest → find_member key 1 0 None (v ++ rest) = find_member key 1 0 None rest;
  value_starts : ∃ x l, v = x :: l ∧ json_space x = false;
}.

Lemma value_num z : json_value (json_num z).
Proof.
  split; [intros key rest _; by apply inert_num|]. destruct (json_num_numeral z) as [Hn Hne].
  destruct (json_num z) as [|x l]; [done|]. exists x, l. split; [done|].
  cbn [forallb] in Hn. apply andb_true_iff in Hn as [Hx _]. by apply numeral_plain.
Qed.

Lemma value_string s : json_value (json_str s).
Proof.
  split; [|by do 2 eexists]. intros key rest (x & r & -> & [-> | ->]); by apply find_string.
Qed.

Lemma value_array items : (∀ key, Forall (inert key 1 1) items) → json_value (json_array items).
Proof. intros Hi. split; [|by do 2 eexists]. intros key rest _. by apply inert_array. Qed.

Lemma chars_inj a b : chars a = chars b → a = b.
Proof. intros H. rewrite <- (str_chars a), <- (str_chars b). by rewrite H. Qed.

Lemma find_other key k v rest : simple_key k → k ≠ key →
  find_member (chars key) 1 0 None (json_member (k, v) ++ rest) = find_member (chars key) 1 0 None (v ++ rest).
Proof.
  intros Hk Hne. rewrite json_member_str, <- app_assoc by done. rewrite find_string; [done|].
  rewrite Hk. intros _ Heq. by apply chars_inj in Heq.
Qed.

Lemma find_this key v rest : simple_key key → json_value v →
  find_member (chars key) 1 0 None (json_member (key, v) ++ rest) = Some (v ++ rest).
Proof.
  intros Hk [_ (x & l & -> & Hx)]. rewrite json_member_str by done. unfold json_str. cbn [app find_member].
  rewrite <- !app_assoc. change (Ascii.eqb quote brace_open) with false. change (Ascii.eqb quote brace_close) with false.
  change (Ascii.eqb quote bracket_open) with false. change (Ascii.eqb quote bracket_close) with false.
  change (Ascii.eqb quote quote) with true. cbv iota. rewrite find_escaped. cbn [app find_member].
  change (Ascii.eqb quote backslash) with false. change (Ascii.eqb quote quote) with true. cbv iota.
  rewrite Hk, bool_decide_true by done. unfold skip_ws. cbn [span]. change (json_space ":"%char) with false. cbv iota.
  cbn [snd]. rewrite Ascii.eqb_refl. cbn [app span]. by rewrite Hx.
Qed.

Definition good_member (m : string * text) : Prop := simple_key m.1 ∧ json_value m.2.

Lemma after_more ms rest : after_value rest → after_value (json_more ms ++ rest).
Proof. intros Hr. destruct ms; [done|]. do 2 eexists. split; [reflexivity|by left]. Qed.

Lemma find_in_more key pre v post rest : Forall good_member (pre ++ (key, v) :: post) → key ∉ pre.*1 → after_value rest →
  find_member (chars key) 1 0 None (json_more (json_member <$> pre ++ (key, v) :: post) ++ rest) =
    Some (v ++ json_more (json_member <$> post) ++ rest).
Proof.
  intros Hall Hnot Hrest. induction pre as [|[k w] pre IH].
  - cbn [app fmap list_fmap] in *. apply Forall_cons in Hall as [[Hk Hv] _].
    change (json_more (json_member (key, v) :: ?t)) with (","%char :: json_member (key, v) ++ json_more t).
    rewrite <- app_comm_cons, <- app_assoc. apply (find_this key v (json_more (json_member <$> post) ++ rest) Hk Hv).
  - cbn [app fmap list_fmap] in *. apply Forall_cons in Hall as [[Hk Hw] Hall]. apply not_elem_of_cons in Hnot as [Hne Hnot].
    change (json_more (json_member (k, w) :: ?t)) with (","%char :: json_member (k, w) ++ json_more t).
    rewrite <- app_comm_cons, <- app_assoc.
    transitivity (find_member (chars key) 1 0 None (json_member (k, w) ++ json_more (json_member <$> pre ++ (key, v) :: post) ++ rest));
      [done|].
    rewrite find_other by done. destruct Hw as [Hw _]. rewrite Hw by (by apply after_more). by apply IH.
Qed.

Lemma find_in_object key pre v post rest : Forall good_member (pre ++ (key, v) :: post) → key ∉ pre.*1 →
  find_member_value key (json_object (pre ++ (key, v) :: post) ++ rest) =
    Some (v ++ json_more (json_member <$> post) ++ brace_close :: rest).
Proof.
  intros Hall Hnot. unfold find_member_value, json_object. cbn [app find_member]. rewrite <- app_assoc.
  assert (json_more (json_member <$> pre ++ (key, v) :: post) = ","%char :: json_list (json_member <$> pre ++ (key, v) :: post))
    as Hlist by by destruct pre.
  transitivity (find_member (chars key) 1 0 None (json_more (json_member <$> pre ++ (key, v) :: post) ++ brace_close :: rest)).
  - by rewrite Hlist.
  - apply find_in_more; [done|done|]. do 2 eexists. split; [done|by right].
Qed.

(** ** Reading a value *)

Lemma skip_ws_ends l : ends_run json_space l → skip_ws l = l.
Proof. unfold skip_ws. destruct l as [|x l]; [done|]. simpl. by intros ->. Qed.

Lemma after_value_ends b rest : after_value rest → value_ends b rest = true.
Proof.
  intros (x & r & -> & Hx). unfold value_ends. rewrite skip_ws_ends by by destruct Hx as [-> | ->].
  by destruct Hx as [-> | ->].
Qed.

Lemma digit_value_range c : isdigit c = true → 0 <= digit_value c < 10.
Proof. unfold isdigit, Text.between, digit_value. intros [H1%Z.leb_le H2%Z.leb_le]%andb_true_iff. lia. Qed.

Lemma digits_value_cons c l : digits_value (c :: l) = digit_value c * 10 ^ Z.of_nat (length l) + digits_value l.
Proof. change (c :: l) with ([c] ++ l). rewrite digits_value_app. unfold digits_value at 1. simpl. lia. Qed.

Lemma digits_value_nonneg l : forallb isdigit l = true → 0 <= digits_value l.
Proof.
  induction l as [|c l IH]; [done|]. cbn [forallb]. intros [Hc Hl]%andb_true_iff. rewrite digits_value_cons.
  pose proof (digit_value_range c Hc). pose proof (Z.pow_nonneg 10 (Z.of_nat (length l))). specialize (IH Hl). nia.
Qed.

Lemma read_digits_ok limit v ds rest : forallb isdigit ds = true → ends_run isdigit rest →
  v * 10 ^ Z.of_nat (length ds) + digits_value ds <= limit → 0 <= v →
  read_digits limit v (ds ++ rest) = Some (v * 10 ^ Z.of_nat (length ds) + digits_value ds, rest).
Proof.
  revert v. induction ds as [|c ds IH]; intros v Hds Hr Hlim Hv.
  - simpl. rewrite Z.mul_1_r, Z.add_0_r. destruct rest as [|x rest]; [done|]. simpl in Hr |- *. by rewrite Hr.
  - cbn [forallb] in Hds. apply andb_true_iff in Hds as [Hc Hds]. cbn [app read_digits]. rewrite Hc.
    rewrite digits_value_cons in Hlim |- *. cbn [length] in Hlim |- *. rewrite Nat2Z.inj_succ, Z.pow_succ_r in Hlim |- * by lia.
    pose proof (digit_value_range c Hc) as Hd. pose proof (digits_value_nonneg ds Hds) as Hn.
    assert (0 < 10 ^ Z.of_nat (length ds)) as Hp by (apply Z.pow_pos_nonneg; lia).
    assert (v * 10 + digit_value c <= limit) as Hstep by nia.
    pose proof (Z.div_le_lower_bound (limit - digit_value c) 10 v ltac:(lia) ltac:(lia)) as Hdiv.
    destruct (Z.ltb_spec ((limit - digit_value c) / 10) v); [lia|].
    rewrite IH; [|done|done|nia|lia]. f_equal. f_equal. lia.
Qed.

(** Reading a printed number that fits. *)
Lemma find_int_num (signed : bool) limit key z rest l :
  find_member_value key l = Some (json_num z ++ rest) → after_value rest →
  0 < limit → (if signed then - limit - 1 <= z <= limit else 0 <= z <= limit) →
  find_int signed limit key l = Some z.
Proof.
  intros Hf Hrest Hpos Hz. unfold find_int. rewrite Hf. cbn [mbind option_bind].
  assert (ends_run isdigit rest) as Hend by (destruct Hrest as (x & r & -> & [-> | ->]); done).
  unfold json_num, to_string. rewrite chars_str. destruct (Z.ltb_spec z 0) as [Hneg|Hnn].
  - destruct signed; [|lia]. destruct (unsigned_digits_spec (- z)) as (Hd & Hv & Hne); [lia|].
    cbn [app]. change (Ascii.eqb "-"%char "-"%char) with true. cbv iota.
    destruct (unsigned_digits (- z)) as [|c ds] eqn:Hu; [done|]. cbn [app].
    assert (isdigit c = true) as Hc by (cbn [forallb] in Hd; by apply andb_true_iff in Hd as [? _]). rewrite Hc. simpl (negb _). cbv iota.
    rewrite (app_comm_cons ds rest c), read_digits_ok; [|done|done|rewrite Hv; lia|lia].
    cbn [mbind option_bind]. rewrite Hv, after_value_ends by done. f_equal. lia.
  - destruct (unsigned_digits_spec z) as (Hd & Hv & Hne); [lia|].
    destruct (unsigned_digits z) as [|c ds] eqn:Hu; [done|]. cbn [app].
    assert (isdigit c = true) as Hc by (cbn [forallb] in Hd; by apply andb_true_iff in Hd as [? _]).
    destruct (digit_not_sign c Hc) as (_ & Hm & _). rewrite Hm. cbv iota beta. rewrite Hc. cbn [negb andb]. cbv iota.
    rewrite (app_comm_cons ds rest c), read_digits_ok; [|done|done|rewrite Hv; destruct signed; lia|lia].
    cbn [mbind option_bind]. rewrite Hv, after_value_ends by done. f_equal.
Qed.

(** Characters a string is read back with. *)
Definition json_char (c : char) : bool :=
  (32 <=? code c) || Ascii.eqb c "010"%char || Ascii.eqb c "013"%char || Ascii.eqb c "009"%char.

Lemma json_char_escape c l :
  read_json_string (json_escape_char c ++ l) = if json_char c then keep_char c (read_json_string l) else None.
Proof. destruct c as [[] [] [] [] [] [] [] []]; reflexivity. Qed.

Lemma read_escaped s rest :
  read_json_string (json_escape s ++ quote :: rest) = if forallb json_char s then Some (s, rest) else None.
Proof.
  induction s as [|c s IH]; [done|]. unfold json_escape in *. cbn [mbind list_bind forallb].
  rewrite <- app_assoc, json_char_escape, IH. by destruct (json_char c), (forallb json_char s).
Qed.

Lemma extract_string_str key s rest l :
  find_member_value key l = Some (json_str s ++ rest) → after_value rest →
  extract_string key l = if forallb json_char (chars s) then Some s else None.
Proof.
  intros Hf Hr. unfold extract_string. rewrite Hf. unfold json_str. cbn [mbind option_bind app].
  change (Ascii.eqb quote quote) with true. cbv iota. rewrite <- app_assoc. cbn [app]. rewrite read_escaped.
  destruct (forallb json_char (chars s)); [|done]. cbn [mbind option_bind]. by rewrite after_value_ends, str_chars.
Qed.

(** ** Lists of objects *)

(** The objects one after the other. *)
Fixpoint add_all {A} (item : list A → text → option A) (acc : list A) (texts : list text) : option (list A) :=
  match texts with
  | [] => Some acc
  | t :: texts => x ← item acc t; add_all item (acc ++ [x]) texts
  end.

Definition object_text (t : text) : Prop := ∃ inside, t = brace_open :: inside ++ [brace_close] ∧ closed brace_open brace_close inside.

Lemma read_objects_list {A} (item : list A → text → option A) fuel acc texts :
  Forall object_text texts → (length (json_list texts) < fuel)%nat →
  read_objects item fuel acc (json_list texts) = add_all item acc texts.
Proof.
  intros Hall. revert fuel acc. induction Hall as [|t texts (inside & -> & Hin) Hall IH]; intros [|fuel] acc Hf; try (simpl in Hf; lia); [done|].
  assert (json_list ((brace_open :: inside ++ [brace_close]) :: texts) = brace_open :: inside ++ brace_close :: json_more texts) as Hl.
  { unfold json_list. cbn [app]. by rewrite <- app_assoc. }
  rewrite Hl in Hf |- *. cbn [read_objects]. rewrite skip_ws_ends by done. cbv iota beta.
  rewrite match_closed by done. cbn [mbind option_bind add_all].
  destruct (item acc (brace_open :: inside ++ [brace_close])) as [x|]; [|done]. cbn [mbind option_bind].
  destruct texts as [|t' texts]; [done|].
  rewrite skip_ws_ends by done. change (json_more (t' :: texts)) with (","%char :: json_list (t' :: texts)) in *.
  apply Forall_cons in Hall as Hall'. destruct Hall' as [(inside' & -> & _) _].
  rewrite bool_decide_false by (rewrite skip_ws_ends; done).
  change (Ascii.eqb ","%char ","%char && negb false) with true. cbv iota. apply IH.
  simpl in Hf. rewrite length_app in Hf. simpl in Hf |- *. lia.
Qed.

Lemma read_array_list {A} (item : list A → text → option A) texts :
  Forall object_text texts → read_array item (json_list texts) = add_all item [] texts.
Proof. intros H. apply read_objects_list; [done|lia]. Qed.

(** ** Columns *)

Lemma closed_member o c k v : (o = brace_open ∧ c = brace_close) ∨ (o = bracket_open ∧ c = bracket_close) →
  simple_key k → closed o c v → closed o c (json_member (k, v)).
Proof.
  intros Hoc Hk Hv. rewrite json_member_str by done. apply closed_app; [apply closed_string|].
  apply (closed_app _ _ [":"%char]); [|done]. apply closed_plain. by destruct Hoc as [[-> ->]|[-> ->]].
Qed.

(** The members of an object, seen from inside. *)
Lemma object_closed_text ms : Forall (λ m : string * text, simple_key m.1 ∧ closed brace_open brace_close m.2) ms →
  object_text (json_object ms).
Proof.
  intros Hms. eexists. split; [reflexivity|]. apply closed_list; [done|]. apply Forall_fmap. eapply Forall_impl; [exact Hms|].
  intros [k v] [Hk Hv]. apply closed_member; [by left|done|done].
Qed.

Lemma closed_object_text t : object_text t → closed brace_open brace_close t.
Proof. intros (inside & -> & Hin). by apply closed_nested. Qed.

(** Brackets inside an object's members. *)
Lemma object_brackets ms : Forall (λ m : string * text, simple_key m.1 ∧ closed bracket_open bracket_close m.2) ms →
  closed bracket_open bracket_close (json_object ms).
Proof.
  intros Hms. apply (closed_app _ _ [brace_open]); [by apply closed_plain|].
  apply closed_app; [|by apply closed_plain]. apply closed_list; [done|]. apply Forall_fmap. eapply Forall_impl; [exact Hms|].
  intros [k v] [Hk Hv]. apply closed_member; [by right|done|done].
Qed.

Lemma closed_num_braces z : closed brace_open brace_close (json_num z).
Proof. apply closed_num. by left. Qed.
Lemma closed_num_brackets z : closed bracket_open bracket_close (json_num z).
Proof. apply closed_num. by right. Qed.

Create HintDb catalog.
#[export] Hint Resolve closed_num_braces closed_num_brackets closed_string value_num value_string inert_num inert_string : catalog.

Ltac members := repeat (apply Forall_cons; split); try apply Forall_nil_2; try (split; [reflexivity|]; cbn [fst snd]; auto with catalog).

Lemma column_text c : object_text (print_column c).
Proof. apply object_closed_text. members. Qed.

Lemma column_brackets c : closed bracket_open bracket_close (print_column c).
Proof. apply object_brackets. members. Qed.

Lemma column_inert key c : inert key 1 1 (print_column c).
Proof.
  apply inert_object. cbn [fmap list_fmap].
  apply Forall_cons; split; [by apply inert_member; [| |apply inert_string]|].
  apply Forall_cons; split; [by apply inert_member; [| |apply inert_num]|done].
Qed.

Definition name_ok (s : string) : bool := negb (String.eqb s "") && forallb json_char (chars s).

Fixpoint columns_ok (seen cols : list ColumnDef) : bool :=
  match cols with
  | [] => true
  | c :: cols =>
      name_ok (col_name c) && negb (bool_decide (col_name c ∈ (col_name <$> seen))) && columns_ok (seen ++ [c]) cols
  end.

(** The first member of an object, and a later one. *)
Lemma find_field key pre v post : Forall good_member (pre ++ (key, v) :: post) → key ∉ pre.*1 →
  ∃ rest, find_member_value key (json_object (pre ++ (key, v) :: post)) = Some (v ++ rest) ∧ after_value rest ∧
    (post = [] → rest = [brace_close]).
Proof.
  intros Hall Hnot. eexists. rewrite <- (app_nil_r (json_object _)), (find_in_object key pre v post []) by done.
  split; [done|]. split; [apply after_more; do 2 eexists; split; [done|by right]|by intros ->].
Qed.

Ltac field key pre v post :=
  let rest := fresh "rest" in let Hf := fresh "Hf" in let Hr := fresh "Hr" in let Hp := fresh "Hp" in
  destruct (find_field key pre v post) as (rest & Hf & Hr & Hp);
  [members | by apply (bool_decide_unpack _); vm_compute |].

Lemma column_type_code t : column_type_of (type_code t) = Some t.
Proof. by destruct t. Qed.

Lemma read_column_print seen c :
  read_column seen (print_column c) =
    if name_ok (col_name c) && negb (bool_decide (col_name c ∈ (col_name <$> seen))) then Some c else None.
Proof.
  unfold read_column, print_column, name_ok, find_uint32.
  field "name"%string (@nil (string * text)) (json_str (col_name c)) [("type"%string, json_num (type_code (col_type c)))].
  field "type"%string [("name"%string, json_str (col_name c))] (json_num (type_code (col_type c))) (@nil (string * text)).
  cbn [app] in Hf, Hf0. rewrite (extract_string_str _ _ _ _ Hf Hr).
  rewrite (find_int_num false (2 ^ 32 - 1) _ _ _ _ Hf0 Hr0) by (try done; destruct (col_type c); simpl; lia).
  destruct (forallb json_char (chars (col_name c))); [|by rewrite andb_false_r]. rewrite andb_true_r. cbn [mbind option_bind].
  unfold require_. destruct (_ && _); [|done]. rewrite column_type_code. simpl. by destruct c.
Qed.

Lemma add_columns seen cols :
  add_all read_column seen (print_column <$> cols) = if columns_ok seen cols then Some (seen ++ cols) else None.
Proof.
  revert seen. induction cols as [|c cols IH]; intros seen; [by rewrite app_nil_r|].
  cbn [fmap list_fmap add_all columns_ok]. rewrite read_column_print.
  destruct (name_ok (col_name c) && _); [|done]. cbn [mbind option_bind andb]. fold (print_column <$> cols). rewrite IH, <- app_assoc. done.
Qed.

(** ** Tables *)

Definition table_fields (s : TableSchema) : list (string * text) :=
  [("name", json_str (table_name s)); ("table_id", json_num (table_id s)); ("ttl_ns", json_num (ttl_ns s));
   ("has_data", json_num (bool_index (has_data s)));
   ("placement_configured", json_num (bool_index (configured (placement s))));
   ("placement_policy", json_num (mode_index (mode (placement s))));
   ("placement_node_id", json_num (placement_node (placement s)));
   ("columns", json_array (print_column <$> columns s))]%string.

Lemma print_table_fields s : print_table s = json_object (table_fields s).
Proof. done. Qed.

Lemma columns_brackets cols : closed bracket_open bracket_close (json_list (print_column <$> cols)).
Proof. apply closed_list; [done|]. apply Forall_fmap, Forall_true. intros c. apply column_brackets. Qed.

Lemma columns_value cols : json_value (json_array (print_column <$> cols)).
Proof. apply value_array. intros key. apply Forall_fmap, Forall_true. intros c. apply column_inert. Qed.

Lemma columns_braces cols : closed brace_open brace_close (json_array (print_column <$> cols)).
Proof.
  apply (closed_app _ _ [bracket_open]); [by apply closed_plain|]. apply closed_app; [|by apply closed_plain].
  apply closed_list; [done|]. apply Forall_fmap, Forall_true. intros c. apply closed_object_text, column_text.
Qed.

Lemma columns_array_brackets cols : closed bracket_open bracket_close (json_array (print_column <$> cols)).
Proof. apply closed_nested; try done. apply columns_brackets. Qed.

#[export] Hint Resolve columns_value columns_braces columns_array_brackets : catalog.

Lemma table_text s : object_text (print_table s).
Proof. apply object_closed_text. members. Qed.

Lemma table_brackets s : closed bracket_open bracket_close (print_table s).
Proof. apply object_brackets. members. Qed.

Lemma table_inert key s : inert key 1 1 (print_table s).
Proof.
  apply inert_object. cbn [fmap list_fmap].
  repeat (apply Forall_cons; split; [apply inert_member; [reflexivity|reflexivity|first [apply inert_num|by apply inert_string|idtac]]|]);
    try apply Forall_nil_2.
  apply inert_array, Forall_fmap, Forall_true. intros c. apply inert_object. cbn [fmap list_fmap].
  apply Forall_cons; split; [by apply inert_member; [| |apply inert_string]|].
  apply Forall_cons; split; [by apply inert_member; [| |apply inert_num]|done].
Qed.


(** What the loader demands of a table. *)
Definition placement_ok (p : TablePlacementOptions) : bool :=
  negb (configured p && bool_decide (mode p = PinnedNode) && (placement_node p =? 0)).
Definition loadable (s : TableSchema) : bool :=
  name_ok (table_name s) && negb (table_id s =? 0) && (0 <=? ttl_ns s) && placement_ok (placement s) && columns_ok [] (columns s).

Lemma mode_of_index m : mode_of (mode_index m) = Some m.
Proof. by destruct m. Qed.

Lemma bool_index_range b : 0 <= bool_index b <= 1.
Proof. destruct b; simpl; lia. Qed.

Lemma find_table_field s key pre v post : table_fields s = pre ++ (key, v) :: post → bool_decide (key ∉ pre.*1) = true →
  ∃ rest, find_member_value key (print_table s) = Some (v ++ rest) ∧ after_value rest ∧ (post = [] → rest = [brace_close]).
Proof.
  intros Hs Hk. rewrite print_table_fields, Hs. apply find_field; [|by apply bool_decide_eq_true in Hk].
  rewrite <- Hs. unfold table_fields. members.
Qed.

(** The field of [print_table] that stands at place [n]. *)
Ltac table_field s n :=
  let fs := eval cbv [table_fields] in (table_fields s) in
  let pre := eval cbv [firstn] in (firstn n fs) in
  let post := eval cbv [skipn] in (skipn (S n) fs) in
  let kv := eval cbv [nth] in (nth n fs (EmptyString, [])) in
  match kv with
  | (?key, ?v) =>
      let rest := fresh "rest" in let Hf := fresh "Hf" in let Hr := fresh "Hr" in let Hp := fresh "Hp" in
      destruct (find_table_field s key pre v post eq_refl) as (rest & Hf & Hr & Hp); [by vm_compute|]
  end.

Lemma find_uint32_num key z rest l :
  find_member_value key l = Some (json_num z ++ rest) → after_value rest → 0 <= z <= 2 ^ 32 - 1 → find_uint32 key l = Some z.
Proof. intros Hf Hr Hz. by apply (find_int_num false _ _ _ _ _ Hf Hr). Qed.

Lemma read_placement_print s : schema_ranges s →
  read_placement (print_table s) = if placement_ok (placement s) then Some (placement s) else None.
Proof.
  intros (_ & _ & Hnode). table_field s 4%nat. table_field s 5%nat. table_field s 6%nat. unfold read_placement.
  pose proof (bool_index_range (configured (placement s))) as Hb.
  rewrite (find_uint32_num _ _ _ _ Hf Hr) by lia.
  rewrite (find_uint32_num _ _ _ _ Hf0 Hr0) by (destruct (mode (placement s)); simpl; lia).
  rewrite (find_uint32_num _ _ _ _ Hf1 Hr1) by done. cbn [default]. rewrite mode_of_index. unfold placement_ok, require_.
  by destruct (placement s) as [[] m node].
Qed.

Lemma read_table_print seen s : schema_ranges s →
  table_name s ∉ (table_name <$> seen) → table_id s ∉ (table_id <$> seen) →
  read_table seen (print_table s) = if loadable s then Some s else None.
Proof.
  intros Hs Hname Hid. pose proof Hs as (Hrid & Hrttl & Hrnode).
  table_field s 0%nat. table_field s 1%nat. table_field s 2%nat. table_field s 3%nat. table_field s 7%nat.
  unfold read_table. rewrite Hf3, Hp3 by done. unfold json_array. cbn [app mbind option_bind]. rewrite <- app_assoc. cbn [app].
  rewrite match_closed by (done || apply columns_brackets). cbn [mbind option_bind].
  rewrite (extract_string_str _ _ _ _ Hf Hr), (find_uint32_num _ _ _ _ Hf0 Hr0) by lia.
  rewrite (find_uint32_num _ _ _ _ Hf2 Hr2) by (pose proof (bool_index_range (has_data s)); lia).
  unfold find_int64. rewrite (find_int_num true INT64_MAX _ _ _ _ Hf1 Hr1) by (unfold INT64_MIN, INT64_MAX in *; lia).
  rewrite read_placement_print, read_array_list, add_columns by
    (done || (apply Forall_fmap, Forall_true; intros c; apply column_text)).
  unfold loadable, name_ok. destruct (forallb json_char (chars (table_name s))); [|by rewrite andb_false_r].
  cbn [mbind option_bind]. rewrite (bool_decide_false (table_name s ∈ _)), (bool_decide_false (table_id s ∈ _)) by done.
  destruct (String.eqb (table_name s) ""), (table_id s =? 0), (Z.leb_spec (table_id s) 65535), (0 <=? ttl_ns s); try lia; try done.
  all: simpl (_ && _); cbn [require_].
  destruct (Z.leb_spec (bool_index (has_data s)) 1); [|pose proof (bool_index_range (has_data s)); lia]. simpl (_ && _).
  destruct (placement_ok (placement s)); [|done]. cbn [mbind option_bind andb].
  destruct (columns_ok [] (columns s)); [|done]. simpl. destruct s as [? ? ? []]; done.
Qed.

(** ** The catalog *)

Lemma NoDup_snoc_not_elem {A} (l k : list A) x : NoDup (l ++ x :: k) → x ∉ l.
Proof. intros (_ & Hd & _)%NoDup_app Hx. apply (Hd x Hx). by left. Qed.

Lemma add_tables seen ss : Forall schema_ranges ss →
  NoDup (table_name <$> seen ++ ss) → NoDup (table_id <$> seen ++ ss) →
  add_all read_table seen (print_table <$> ss) = if forallb loadable ss then Some (seen ++ ss) else None.
Proof.
  revert seen. induction ss as [|s ss IH]; intros seen Hr Hn Hi; [by rewrite app_nil_r|].
  apply Forall_cons in Hr as [Hs Hr]. rewrite fmap_app in Hn. rewrite fmap_app in Hi. cbn [fmap list_fmap add_all forallb] in *.
  rewrite read_table_print by (try done; by eapply NoDup_snoc_not_elem).
  destruct (loadable s); [|done]. cbn [mbind option_bind andb]. fold (print_table <$> ss).
  rewrite IH, <- app_assoc by (try done; rewrite <- app_assoc, fmap_app; done). done.
Qed.

Lemma schemas_names r : registry_wf r → (λ s, (table_name s, s)) <$> schemas r = map_to_list (tables_ r).
Proof.
  intros [Ht _ _]. unfold schemas. rewrite <- list_fmap_compose.
  transitivity (id <$> map_to_list (tables_ r)); [|apply list_fmap_id]. apply list_fmap_ext. intros i [name s] Hl. apply list_elem_of_lookup_2, elem_of_map_to_list in Hl. simpl.
  by destruct (Ht name s Hl) as [-> _].
Qed.

Lemma schemas_nodup r : registry_wf r → NoDup (table_name <$> schemas r) ∧ NoDup (table_id <$> schemas r).
Proof.
  intros Hwf. split.
  - assert (table_name <$> schemas r = (map_to_list (tables_ r)).*1) as ->.
    { rewrite <- (schemas_names r Hwf), <- list_fmap_compose. done. }
    apply NoDup_fst_map_to_list.
  - unfold schemas. rewrite <- list_fmap_compose. apply NoDup_fmap_2_strong; [|apply NoDup_map_to_list].
    intros [n s] [n' s'] H%elem_of_map_to_list H'%elem_of_map_to_list Heq. simpl in Heq.
    pose proof (wf_ids r Hwf n n' s s' H H' Heq) as <-. by simplify_eq.
Qed.

Lemma tables_brackets ss : closed bracket_open bracket_close (json_list (print_table <$> ss)).
Proof. apply closed_list; [done|]. apply Forall_fmap, Forall_true. intros s. apply table_brackets. Qed.

Lemma tables_braces ss : closed brace_open brace_close (json_array (print_table <$> ss)).
Proof.
  apply (closed_app _ _ [bracket_open]); [by apply closed_plain|]. apply closed_app; [|by apply closed_plain].
  apply closed_list; [done|]. apply Forall_fmap, Forall_true. intros s. apply closed_object_text, table_text.
Qed.

Lemma tables_value ss : json_value (json_array (print_table <$> ss)).
Proof. apply value_array. intros key. apply Forall_fmap, Forall_true. intros s. apply table_inert. Qed.

#[export] Hint Resolve tables_braces tables_value : catalog.

(** The registry that is loaded. *)
Definition reloaded (r : SchemaRegistry) : SchemaRegistry :=
  mkRegistry (tables_ r) (Z.min (Z.max (next_table_id_ r) (max_table_id (schemas r) + 1)) 65535).

Lemma load_save_text r : registry_wf r →
  load_text (save_text r) = if forallb loadable (schemas r) then Some (reloaded r) else None.
Proof.
  intros Hwf. destruct (schemas_nodup r Hwf) as [Hn Hi].
  set (next := json_num (next_table_id_ r)). set (tables := json_array (print_table <$> schemas r)).
  destruct (find_field "next_table_id" [] next [("tables"%string, tables)]) as (rest & Hf & Hr & _);
    [subst next tables; members|by apply not_elem_of_nil|].
  destruct (find_field "tables" [("next_table_id"%string, next)] tables []) as (rest' & Hf' & Hr' & Hp');
    [subst next tables; members|by apply (bool_decide_unpack _); vm_compute|].
  change (find_member_value "next_table_id" (save_text r) = Some (next ++ rest)) in Hf.
  change (find_member_value "tables" (save_text r) = Some (tables ++ rest')) in Hf'.
  assert (object_text (save_text r)) as (inside & Htext & Hin).
  { apply object_closed_text. subst next tables. members. }
  unfold load_text. rewrite Htext in Hf, Hf' |- *. rewrite skip_ws_ends by done.
  rewrite match_closed by done. cbn [mbind option_bind]. rewrite bool_decide_true by done. cbn [require_].
  rewrite (find_uint32_num _ _ _ _ Hf Hr) by (pose proof (wf_next r Hwf); lia). cbn [mbind option_bind].
  pose proof (wf_next r Hwf) as Hnext. destruct (Z.eqb_spec (next_table_id_ r) 0) as [|Hne0]; [lia|].
  destruct (Z.leb_spec (next_table_id_ r) 65535) as [Hle|]; [|lia]. cbn [negb andb require_].
  rewrite Hf', Hp' by done. cbn [mbind option_bind]. subst tables. unfold json_array. cbn [app].
  rewrite <- app_assoc. cbn [app length]. cbn [Nat.ltb Nat.leb require_].
  rewrite match_closed by (done || apply tables_brackets). cbn [mbind option_bind].
  rewrite skip_ws_ends by done. cbn [length Nat.leb Nat.eqb andb require_].
  rewrite read_array_list by (apply Forall_fmap, Forall_true; intros s; apply table_text).
  rewrite add_tables; [|apply Forall_forall; intros s [n Hs]%elem_of_schemas; by apply (wf_table r Hwf n)|done|done].
  destruct (forallb loadable (schemas r)); [|done]. cbn [app mbind option_bind]. unfold reloaded.
  rewrite schemas_names, list_to_map_to_list by done. done.
Qed.

Lemma columns_ok_spec seen cols : NoDup (col_name <$> seen) →
  columns_ok seen cols = true ↔ Forall (λ c, name_ok (col_name c) = true) cols ∧ NoDup (col_name <$> seen ++ cols).
Proof.
  revert seen. induction cols as [|c cols IH]; intros seen Hd; cbn [columns_ok]; [rewrite app_nil_r; naive_solver|].
  rewrite !andb_true_iff, negb_true_iff, bool_decide_eq_false, Forall_cons.
  assert (NoDup (col_name <$> seen ++ c :: cols) → col_name c ∉ (col_name <$> seen)) as Hfirst.
  { rewrite fmap_app. apply NoDup_snoc_not_elem. }
  assert (col_name c ∉ (col_name <$> seen) → NoDup (col_name <$> seen ++ [c])) as Hsnoc.
  { intros Hc. rewrite fmap_app. apply NoDup_app. split; [done|]. split; [|apply NoDup_singleton].
    intros x Hx Hin%list_elem_of_singleton. by subst. }
  replace (seen ++ c :: cols) with ((seen ++ [c]) ++ cols) in * by (by rewrite <- app_assoc). split.
  - intros [[Hn Hc] Hok]. apply IH in Hok as [Ha Hd']; auto.
  - intros [[Hn Ha] Hd']. split; [split; auto|]. apply IH; auto.
Qed.

(** What the loader demands of a table, spelt out. *)
Definition loadable_schema (s : TableSchema) : Prop :=
  name_ok (table_name s) = true ∧ 0 <= ttl_ns s ∧
  ¬ (configured (placement s) = true ∧ mode (placement s) = PinnedNode ∧ placement_node (placement s) = 0) ∧
  Forall (λ c, name_ok (col_name c) = true) (columns s) ∧ NoDup (col_name <$> columns s).

Lemma loadable_spec s : table_id s ≠ 0 → loadable s = true ↔ loadable_schema s.
Proof.
  intros Hid. unfold loadable, loadable_schema.
  assert (placement_ok (placement s) = true ↔
    ¬ (configured (placement s) = true ∧ mode (placement s) = PinnedNode ∧ placement_node (placement s) = 0)) as Hp.
  { unfold placement_ok. rewrite negb_true_iff, <- not_true_iff_false, !andb_true_iff, bool_decide_eq_true, Z.eqb_eq. tauto. }
  rewrite !andb_true_iff, columns_ok_spec, Hp, Z.leb_le, negb_true_iff, Z.eqb_neq by constructor. cbn [app]. tauto.
Qed.

Lemma all_loadable r : registry_wf r →
  (forallb loadable (schemas r) = true ↔ ∀ n s, tables_ r !! n = Some s → loadable_schema s).
Proof.
  intros Hwf. rewrite forallb_forall. split.
  - intros H n s Hs. apply loadable_spec; [by apply (wf_table r Hwf n)|].
    apply H, list_elem_of_In, elem_of_schemas. by exists n.
  - intros H s [n Hs]%list_elem_of_In%elem_of_schemas. apply loadable_spec; [by apply (wf_table r Hwf n)|by eapply H].
Qed.

(** C10. A registry whose tables the loader accepts survives its catalog. When no
    table or column name is empty or has control characters, no TTL is negative,
    no table repeats a column name and none is pinned to node 0, and a save
    reports success, then loading the file gives every table back exactly, and
    the next id is in range and not below the old one. The loader refuses a
    catalog with any other table although the save reported success
    ([catalog_rejected]). *)
Theorem catalog_roundtrip io fs fs' tmp path r r0 :
  registry_wf r → (∀ n s, tables_ r !! n = Some s → loadable_schema s) →
  save_to io fs tmp path r = (true, fs') →
  ∃ r1, load_from_checked (from_option Readable Missing (fs' !! path)) r0 = (Loaded, r1) ∧
    tables_ r1 = tables_ r ∧ next_table_id_ r <= next_table_id_ r1 <= 65535.
Proof.
  intros Hwf Hall Hsave. exists (reloaded r).
  assert (fs' !! path = Some (save_text r)) as ->.
  { unfold save_to in Hsave. destruct (opened io); [|done]. simpl in Hsave. destruct (negb _); [done|].
    injection Hsave as _ <-. apply lookup_insert_eq. }
  cbn [from_option load_from_checked]. rewrite load_save_text by done.
  rewrite (proj2 (all_loadable r Hwf) Hall).
  split; [done|]. split; [done|]. cbn [reloaded next_table_id_]. pose proof (wf_next r Hwf). lia.
Qed.

(** One such table makes the whole catalog unreadable: when a table is pinned
    to node 0, has a negative TTL or repeats a column name, all of which the
    registry accepts, the saved file is rejected as invalid and no table at all
    is loaded. *)
Theorem catalog_rejected r r0 n s :
  registry_wf r → tables_ r !! n = Some s → ¬ loadable_schema s →
  load_from_checked (Readable (save_text r)) r0 = (Invalid, r0).
Proof.
  intros Hwf Hs Hbad. cbn [load_from_checked]. rewrite load_save_text by done.
  destruct (forallb loadable (schemas r)) eqn:Hf; [|done]. destruct Hbad. by apply (proj1 (all_loadable r Hwf) Hf n).
Qed.

(** Saving replaces the catalog as a whole or leaves it alone: whatever the
    system calls return, the file is afterwards what it was or the complete new
    text, it is the new text when the save reports success, a save that fails
    before the renaming leaves it alone, and no other file but the temporary one
    is touched. *)
Theorem save_atomic io fs tmp path r :
  tmp ≠ path →
  let '(ok, fs') := save_to io fs tmp path r in
  (fs' !! path = fs !! path ∨ fs' !! path = Some (save_text r)) ∧
  (ok = true → fs' !! path = Some (save_text r) ∧ fs' !! tmp = None) ∧
  (renamed io = false → ok = false ∧ fs' !! path = fs !! path) ∧
  ∀ other, other ≠ tmp → other ≠ path → fs' !! other = fs !! other.
Proof.
  intros Hne. unfold save_to. destruct (opened io); simpl; [|naive_solver].
  destruct (written io && reopened io && synced io && renamed io) eqn:Hio; simpl.
  - apply andb_true_iff in Hio as [_ ->]. rewrite lookup_insert_eq, lookup_insert_ne by done. rewrite lookup_delete_eq.
    split; [by right|]. split; [done|]. split; [done|]. intros other H1 H2.
    by rewrite lookup_insert_ne, lookup_delete_ne by done.
  - rewrite lookup_delete_ne by done. split; [by left|]. split; [done|]. split; [done|]. intros other H1 H2.
    by rewrite lookup_delete_ne by done.
Qed.

(** ** The hypotheses can hold *)

Definition sample_registry : SchemaRegistry :=
  foldl registry_step empty_registry
    [OpCreate "trades" [mkColumn "symbol" SYMBOL; mkColumn "price\usd" FLOAT64] no_placement;
     OpCreate "table_id" [] (mkPlacement true HashByTable 0); OpSetTtl "trades" 86400].

Lemma sample_registry_wf : registry_wf sample_registry.
Proof.
  pose proof (create_wf empty_registry "trades" [mkColumn "symbol" SYMBOL; mkColumn "price\usd" FLOAT64] no_placement empty_registry_wf) as H1.
  pose proof (create_wf _ "table_id" [] (mkPlacement true HashByTable 0) (H1 ltac:(unfold node_in_range; simpl; lia))) as H2.
  unfold sample_registry. cbn [foldl registry_step]. apply update_table_wf; [apply H2; unfold node_in_range; simpl; lia|].
  intros s s' (? & ? & ?) [= <-]. split; [done|]. split; [done|]. split; [done|]. split; [simpl; unfold INT64_MIN, INT64_MAX; lia|done].
Qed.

Definition all_good : save_io := mkSaveIo true true true true true true true.

Lemma catalog_roundtrip_witness :
  let fs := <["c"%string := save_text sample_registry]> (delete "c.tmp"%string ∅) in
  save_to all_good ∅ "c.tmp" "c" sample_registry = (true, fs) ∧
  ∃ r1, load_from_checked (from_option Readable Missing (fs !! "c"%string)) empty_registry = (Loaded, r1) ∧
    tables_ r1 = tables_ sample_registry.
Proof.
  intros fs. assert (save_to all_good ∅ "c.tmp" "c" sample_registry = (true, fs)) as Hsave by (unfold save_to; reflexivity).
  split; [exact Hsave|].
  destruct (catalog_roundtrip all_good ∅ fs "c.tmp" "c" sample_registry empty_registry sample_registry_wf)
    as (r1 & Hload & Htables & _); [|exact Hsave|exists r1; split; [exact Hload|exact Htables]].
  apply (all_loadable sample_registry sample_registry_wf). by vm_compute.
Defined.

(** [trades] pinned to node 0. *)
Definition pinned_registry : SchemaRegistry := registry_step sample_registry (OpSetPlacement "trades" (mkPlacement true PinnedNode 0)).

Lemma catalog_rejected_witness :
  load_from_checked (Readable (save_text pinned_registry)) empty_registry = (Invalid, empty_registry).
Proof.
  assert (∃ s, tables_ pinned_registry !! "trades"%string = Some s ∧ configured (placement s) = true ∧
    mode (placement s) = PinnedNode ∧ placement_node (placement s) = 0) as (s & Hs & H1 & H2 & H3).
  { eexists. split; [vm_compute; reflexivity|]. by vm_compute. }
  apply (catalog_rejected pinned_registry empty_registry "trades" s); [|exact Hs|].
  - unfold pinned_registry. cbn [registry_step]. apply update_table_wf; [exact sample_registry_wf|].
    intros s0 s' (? & ? & _) [= <-]. split; [done|]. split; [done|]. split; [done|]. split; [done|]. simpl. lia.
  - intros (_ & _ & Hp & _). apply Hp. split; [exact H1|]. split; [exact H2|exact H3].
Defined.

Lemma save_atomic_witness :
  "c.tmp"%string ≠ "c"%string ∧
  (save_to (mkSaveIo true true true true false true true) {["c"%string := chars "old"]} "c.tmp" "c" sample_registry).2 !! "c"%string
    = Some (chars "old").
Proof.
  split; [done|].
  pose proof (save_atomic (mkSaveIo true true true true false true true) {["c"%string := chars "old"]} "c.tmp" "c" sample_registry ltac:(done)) as H.
  destruct H as (_ & _ & H & _). destruct (H eq_refl) as [_ Heq]. simpl in Heq |- *. exact Heq.
Defined.
