(* ===== verification/PartitionManager.v ===== *)
(** * Partition and PartitionManager

    Models [include/zeptodb/storage/partition_manager.h] and
    [src/storage/partition_manager.cpp]: hour partitions keyed by table, symbol
    and hour, their life cycle, and the per-partition column indexes. A partition
    has an arena and its bytes, in which its columns live ([ColumnStore]); a
    [Partition*] is the identity [p_id] the manager gives each object it creates,
    a [ColumnVector*] the position of the column. An unordered map is visited in
    the order of [map_to_list], and no theorem depends on that order. *)

From stdpp Require Import base gmap sets list fin_maps strings sorting.
From Stdlib Require Import ZArith Lia.
From S2P Require Import Prelude.
From S2P Require Import Bytes.
From S2P Require Import Arena.
From S2P Require Import ColumnStore.

Open Scope Z_scope.

(** ** Keys *)

Record PartitionKey : Type := mkKey {
  table_id : Z;
  symbol_id : Z;
  hour_epoch : Z;
}.

#[export] Instance PartitionKey_eq_dec : EqDecision PartitionKey.
Proof. solve_decision. Defined.

#[export] Instance PartitionKey_countable : Countable PartitionKey.
Proof.
  refine (inj_countable' (λ k, (table_id k, symbol_id k, hour_epoch k))
    (λ p, mkKey p.1.1 p.1.2 p.2) _). by intros [].
Defined.

(** The packed comparison of [PartitionKey::operator==]. *)
Definition packed_low (k : PartitionKey) : Z :=
  Z.lor (u64 (Z.shiftl (u32 (symbol_id k)) 16)) (u64 (table_id k)).
Definition key_eq (k k' : PartitionKey) : bool :=
  (packed_low k =? packed_low k') && (hour_epoch k =? hour_epoch k').

(** [PartitionKeyHash]; the hour is a signed 64-bit value. *)
Definition key_hash (k : PartitionKey) : Z :=
  let x := Z.lor (Z.lor (u32 (symbol_id k)) (u64 (Z.shiftl (table_id k) 32)))
                 (u64 (Z.shiftl (Z.land (hour_epoch k) 65535) 48)) in
  let x := Z.lxor x (u64 (hour_epoch k)) in
  let x := u64 (Z.lxor x (Z.shiftr x 33) * 0xff51afd7ed558ccd) in
  Z.lxor x (Z.shiftr x 33).

(** ** Partition *)

Inductive State : Type := ACTIVE | SEALED | FLUSHING | FLUSHED.

#[export] Instance State_eq_dec : EqDecision State.
Proof. solve_decision. Defined.

Record Partition : Type := mkPartition {
  p_id : Z;
  key_ : PartitionKey;
  state_ : State;
  arena_ : Arena;
  memory_ : memory; (** the bytes of the arena *)
  columns_ : list ColumnVector;
  sorted_columns_ : gset string;
  grouped_indexes_ : gmap string (gmap Z (list Z));
  parted_indexes_ : gmap string (gmap Z (Z * Z));
}.

Definition new_partition (id : Z) (k : PartitionKey) (arena : Arena) : Partition :=
  mkPartition id k ACTIVE arena ∅ [] ∅ ∅ ∅.

Definition set_state (p : Partition) (s : State) : Partition :=
  mkPartition (p_id p) (key_ p) s (arena_ p) (memory_ p) (columns_ p) (sorted_columns_ p) (grouped_indexes_ p)
    (parted_indexes_ p).

Definition seal (p : Partition) : Partition := set_state p SEALED.

(** The same partition with other columns in its arena. *)
Definition with_store (p : Partition) (a : Arena) (m : memory) (cs : list ColumnVector) : Partition :=
  mkPartition (p_id p) (key_ p) (state_ p) a m cs (sorted_columns_ p) (grouped_indexes_ p) (parted_indexes_ p).

Definition add_column (p : Partition) (name : string) (t : ColumnType) : Partition :=
  let '(a, m, c) := make_column (arena_ p) (memory_ p) name t in with_store p a m (columns_ p ++ [c]).

Definition get_column (p : Partition) (name : string) : option ColumnVector :=
  List.find (λ c, String.eqb (name_ c) name) (columns_ p).

(** [as_span<int64_t>]: eight bytes per row, whatever the column's width. *)
Definition span_i64 (m : memory) (c : ColumnVector) : list Z :=
  (λ i, i64 (le_val (read_bytes m (base c + Z.of_nat i * 8) 8))) <$> seq 0 (Z.to_nat (size_ c)).

Definition column_values (p : Partition) (name : string) : option (list Z) :=
  span_i64 (memory_ p) <$> get_column p name.

Definition num_rows (p : Partition) : Z :=
  match columns_ p with [] => 0 | c :: _ => size_ c end.

(** [append] on the column at a position. *)
Definition append_at (p : Partition) (i : nat) (value : list Z) : bool * Partition :=
  match columns_ p !! i with
  | None => (false, p)
  | Some c =>
      let '(ok, a, m, c) := append (arena_ p) (memory_ p) c value in
      (ok, with_store p a m (<[i := c]> (columns_ p)))
  end.

Definition set_size_at (p : Partition) (i : nat) (n : Z) : Partition :=
  with_store p (arena_ p) (memory_ p) (alter (λ c, set_size c n) i (columns_ p)).

(** The arena forgets its blocks; the columns keep pointing to them. *)
Definition reclaim_arena (p : Partition) : Partition :=
  with_store p (Arena.reset (arena_ p)) (memory_ p) (columns_ p).

Definition set_sorted (p : Partition) (col : string) : Partition :=
  mkPartition (p_id p) (key_ p) (state_ p) (arena_ p) (memory_ p) (columns_ p) ({[col]} ∪ sorted_columns_ p)
    (grouped_indexes_ p) (parted_indexes_ p).

Definition is_sorted (p : Partition) (col : string) : bool := bool_decide (col ∈ sorted_columns_ p).

(** [std::lower_bound] and [std::upper_bound] on the values of a column. *)
Definition value_range (values : list Z) (lo hi : Z) : Z * Z :=
  (Z.of_nat (bound (λ v, v <? lo) values), Z.of_nat (bound (λ v, negb (hi <? v)) values)).

Definition sorted_range (p : Partition) (col : string) (lo hi : Z) : Z * Z :=
  match column_values p col with
  | None | Some [] => (0, 0)
  | Some values => value_range values lo hi
  end.

Definition timestamp_range (p : Partition) (from_ts to_ts : Z) : Z * Z :=
  match column_values p "timestamp" with
  | None | Some [] => (0, 0)
  | Some values => value_range values from_ts to_ts
  end.

Definition overlaps_time_range (p : Partition) (lo hi : Z) : bool :=
  match column_values p "timestamp" with
  | None | Some [] => false
  | Some (front :: rest) => (front <=? hi) && (lo <=? default front (last (front :: rest)))
  end.

(** [idx[span[i]].push_back(i)] for the rows from [i] on. *)
Fixpoint group_rows (idx : gmap Z (list Z)) (i : Z) (values : list Z) : gmap Z (list Z) :=
  match values with
  | [] => idx
  | v :: rest => group_rows (<[v := default [] (idx !! v) ++ [u32 i]]> idx) (i + 1) rest
  end.

Definition set_grouped (p : Partition) (col : string) : Partition :=
  match column_values p col with
  | None | Some [] => p
  | Some values =>
      mkPartition (p_id p) (key_ p) (state_ p) (arena_ p) (memory_ p) (columns_ p) (sorted_columns_ p)
        (<[col := group_rows ∅ 0 values]> (grouped_indexes_ p)) (parted_indexes_ p)
  end.

Definition is_grouped (p : Partition) (col : string) : bool :=
  bool_decide (is_Some (grouped_indexes_ p !! col)).

Definition grouped_lookup (p : Partition) (col : string) (value : Z) : list Z :=
  default [] (grouped_indexes_ p !! col ≫= λ idx, idx !! value).

(** The loop of [set_parted] from row [i], in the run of [cur_val] that started
    at [cur_start]. *)
Fixpoint part_rows (idx : gmap Z (Z * Z)) (cur_val cur_start i : Z) (values : list Z)
    : gmap Z (Z * Z) :=
  match values with
  | [] => <[cur_val := (cur_start, i)]> idx
  | v :: rest =>
      if v =? cur_val then part_rows idx cur_val cur_start (i + 1) rest
      else part_rows (<[cur_val := (cur_start, i)]> idx) v i (i + 1) rest
  end.

Definition set_parted (p : Partition) (col : string) : Partition :=
  match column_values p col with
  | None | Some [] => p
  | Some (v :: rest) =>
      mkPartition (p_id p) (key_ p) (state_ p) (arena_ p) (memory_ p) (columns_ p) (sorted_columns_ p)
        (grouped_indexes_ p) (<[col := part_rows ∅ v 0 1 rest]> (parted_indexes_ p))
  end.

Definition is_parted (p : Partition) (col : string) : bool :=
  bool_decide (is_Some (parted_indexes_ p !! col)).

Definition parted_range (p : Partition) (col : string) (value : Z) : Z * Z :=
  default (0, 0) (parted_indexes_ p !! col ≫= λ idx, idx !! value).

(** ** PartitionManager *)

Record PartitionManager : Type := mkManager {
  arena_size_ : Z;
  partitions_ : gmap PartitionKey Partition;
  next_id_ : Z;
}.

Definition new_manager (arena_size_per_partition : Z) : PartitionManager :=
  mkManager arena_size_per_partition ∅ 0.

Definition NS_PER_HOUR : Z := 3600 * 1000000000.

(** [(ts / NS_PER_HOUR) * NS_PER_HOUR]: the division truncates towards zero. *)
Definition to_hour_epoch (ts : Z) : Z := i64 (Z.quot ts NS_PER_HOUR * NS_PER_HOUR).

Definition get_or_create (m : PartitionManager) (table symbol ts : Z) : Partition * PartitionManager :=
  let key := mkKey table symbol (to_hour_epoch ts) in
  match partitions_ m !! key with
  | Some p => (p, m) (* the fast path, or the one found under the exclusive lock *)
  | None =>
      let p := new_partition (next_id_ m) key (make_arena (arena_size_ m) true) in
      (p, mkManager (arena_size_ m) (<[key := p]> (partitions_ m)) (next_id_ m + 1))
  end.

(** Work on a partition through its pointer. *)
Definition with_partition (m : PartitionManager) (key : PartitionKey) (f : Partition → Partition)
    : PartitionManager :=
  mkManager (arena_size_ m) (alter f key (partitions_ m)) (next_id_ m).

Definition seal_cutoff (current_ts max_age_hours : Z) : Z :=
  i64 (to_hour_epoch current_ts - i64 (max_age_hours * NS_PER_HOUR)).

Definition to_be_sealed (cutoff : Z) (k : PartitionKey) (p : Partition) : bool :=
  bool_decide (state_ p = ACTIVE) && (hour_epoch k <? cutoff).

Definition seal_old_partitions (m : PartitionManager) (current_ts max_age_hours : Z)
    : list Partition * PartitionManager :=
  let cutoff := seal_cutoff current_ts max_age_hours in
  (omap (λ kp, if to_be_sealed cutoff kp.1 kp.2 then Some (seal kp.2) else None)
     (map_to_list (partitions_ m)),
   mkManager (arena_size_ m)
     (map_imap (λ k p, Some (if to_be_sealed cutoff k p then seal p else p)) (partitions_ m))
     (next_id_ m)).

(** The partitions whose key and object satisfy a condition. *)
Definition select (m : PartitionManager) (P : PartitionKey → Partition → bool) : list Partition :=
  omap (λ kp, if P kp.1 kp.2 then Some kp.2 else None) (map_to_list (partitions_ m)).

Definition get_sealed_partitions (m : PartitionManager) : list Partition :=
  select m (λ _ p, bool_decide (state_ p = SEALED)).
Definition get_all_partitions (m : PartitionManager) : list Partition := select m (λ _ _, true).
Definition get_partitions_for_symbol (m : PartitionManager) (table symbol : Z) : list Partition :=
  select m (λ k _, (table_id k =? table) && (symbol_id k =? symbol)).
Definition get_partitions_for_table (m : PartitionManager) (table : Z) : list Partition :=
  select m (λ k _, table_id k =? table).

Definition hour_overlaps (k : PartitionKey) (lo hi : Z) : bool :=
  (hour_epoch k <=? hi) && (lo <? i64 (hour_epoch k + NS_PER_HOUR)).

Definition get_partitions_for_time_range (m : PartitionManager) (lo hi : Z) : list Partition :=
  select m (λ k _, hour_overlaps k lo hi).
Definition get_table_partitions_for_time_range (m : PartitionManager) (table lo hi : Z) : list Partition :=
  select m (λ k _, (table_id k =? table) && hour_overlaps k lo hi).

(** The visitor stops the walk by answering [false]. *)
Definition visit_partitions_stable (m : PartitionManager) (visitor : Partition → bool) : bool :=
  forallb visitor (map_to_list (partitions_ m)).*2.

(** Erasing while iterating, with the count. *)
Definition erase_if (m : PartitionManager) (P : PartitionKey → bool) : nat * PartitionManager :=
  let kept := filter (λ kp : PartitionKey * Partition, P kp.1 = false) (partitions_ m) in
  ((size (partitions_ m) - size kept)%nat, mkManager (arena_size_ m) kept (next_id_ m)).

Definition evict_older_than (m : PartitionManager) (cutoff_ns : Z) : nat * PartitionManager :=
  erase_if m (λ k, hour_epoch k <? cutoff_ns).
Definition drop_table_partitions (m : PartitionManager) (table : Z) : nat * PartitionManager :=
  erase_if m (λ k, table_id k =? table).

Definition total_memory_bytes (m : PartitionManager) : Z :=
  u64 (Z.of_nat (size (partitions_ m)) * arena_size_ m).
Definition partition_count (m : PartitionManager) : nat := size (partitions_ m).

Definition oldest_partition (m : PartitionManager) : option Partition :=
  (foldl (λ acc kp, if hour_epoch kp.1 <? acc.1 then (hour_epoch kp.1, Some kp.2) else acc)
     (INT64_MAX, None) (map_to_list (partitions_ m))).2.

(** The first partition of the walk that is the target is erased. *)
Definition evict_partition (m : PartitionManager) (target : Z) : PartitionManager :=
  match List.find (λ kp, p_id kp.2 =? target) (map_to_list (partitions_ m)) with
  | Some (k, _) => mkManager (arena_size_ m) (delete k (partitions_ m)) (next_id_ m)
  | None => m
  end.

(** ** What a partition holds

    Its columns as lists: name, type, and the bytes of each value. *)

Definition entry : Type := string * ColumnType * list (list Z).

Definition entry_of (m : memory) (c : ColumnVector) : entry := (name_ c, type_ c, as_span m c).
Definition contents (p : Partition) : list entry := entry_of (memory_ p) <$> columns_ p.
Definition push_value (v : list Z) (e : entry) : entry := (e.1, e.2 ++ [v]).

(** An arena below 2^56 bytes holds no column long enough to wrap. *)
Record partition_ok (p : Partition) : Prop := {
  po_store : store_ok (arena_ p) (columns_ p);
  po_size : total_size_ (arena_ p) < 2 ^ 56;
  po_bytes : all_bytes (memory_ p);
}.

(** Two states of one partition, between which only its columns changed. *)
Definition same_partition (p p' : Partition) : Prop :=
  p_id p' = p_id p ∧ key_ p' = key_ p ∧ state_ p' = state_ p ∧ total_size_ (arena_ p') = total_size_ (arena_ p).

Lemma column_at p i c : partition_ok p → columns_ p !! i = Some c →
  column_ok (arena_ p) c ∧ 0 <= size_ c < 2 ^ 56.
Proof.
  intros [Hs Ht _] Hi. pose proof (Forall_lookup_1 _ _ _ _ (so_columns _ _ Hs) Hi) as Hc. split; [done|].
  pose proof (column_bounds _ _ (so_arena _ _ Hs) Hc) as (? & ? & ? & ?).
  pose proof (elem_size_range _ _ Hc). destruct Hc as [_ ? ? He _], (so_arena _ _ Hs) as [? _].
  unfold block_end in He. nia.
Qed.

Lemma contents_insert m m' (cs : list ColumnVector) (i : nat) c c' e : cs !! i = Some c → name_ c' = name_ c → type_ c' = type_ c →
  as_span m' c' = e → (∀ j d, cs !! j = Some d → j ≠ i → as_span m' d = as_span m d) →
  entry_of m' <$> <[i := c']> cs = <[i := (name_ c, type_ c, e)]> (entry_of m <$> cs).
Proof.
  intros Hi Hn Ht He Hoth. rewrite list_fmap_insert. unfold entry_of at 1. rewrite Hn, Ht, He.
  apply list_eq. intros j. pose proof (lookup_lt_Some _ _ _ Hi).
  destruct (decide (i = j)) as [->|Hne]; [by rewrite !list_lookup_insert_eq by (by rewrite length_fmap)|].
  rewrite !list_lookup_insert_ne, !list_lookup_fmap by done. destruct (cs !! j) as [d|] eqn:Hd; [|done].
  simpl. unfold entry_of. by rewrite (Hoth j d Hd).
Qed.

Lemma list_alter_insert {A} (f : A → A) (l : list A) i x : l !! i = Some x → alter f i l = <[i := f x]> l.
Proof. revert i. induction l as [|y l IH]; intros [|i] H; simplify_eq/=; [done|]. f_equal. by apply IH. Qed.

Lemma append_names a m c v ok a' m' c' : append a m c v = (ok, a', m', c') → name_ c' = name_ c ∧ type_ c' = type_ c.
Proof.
  unfold append. destruct (ensure_capacity a m c _) as [[[ok1 a1] m1] c1] eqn:He.
  destruct (ensure_capacity_names _ _ _ _ _ _ _ _ He). by destruct ok1; intros [= <- <- <- <-].
Qed.

(** Appending pushes onto one column, or leaves everything as it was. *)
Lemma append_at_spec p i c v ok p' :
  partition_ok p → columns_ p !! i = Some c → length v = Z.to_nat (column_type_size (type_ c)) →
  Forall is_byte v → append_at p i v = (ok, p') →
  partition_ok p' ∧ same_partition p p' ∧
  contents p' = if ok : bool then alter (push_value v) i (contents p) else contents p.
Proof.
  intros Hp Hi Hv Hb H. destruct (column_at p i c Hp Hi) as [Hc Hsz]. destruct Hp as [Hs Ht Hm].
  unfold append_at in H. rewrite Hi in H.
  destruct (append (arena_ p) (memory_ p) c v) as [[[ok1 a1] m1] c1] eqn:Happ. simplify_eq.
  destruct (append_one (arena_ p) (memory_ p) c v ok a1 m1 c1) as (Hst & Hsp & Htot); try done.
  { apply Hs. } { simpl. lia. } { by rewrite (co_elem _ _ Hc). }
  destruct (store_step _ _ _ _ _ _ _ _ Hs Hi Hst) as [Hs' Hoth].
  destruct (append_names _ _ _ _ _ _ _ _ Happ) as [Hn Hty]. split_and!.
  - split; simpl; [done|by rewrite Htot|by eapply append_bytes].
  - by repeat split.
  - unfold contents. simpl. rewrite (contents_insert (memory_ p) m1 _ _ c c1 _ Hi Hn Hty Hsp Hoth).
    destruct ok.
    + by rewrite (list_alter_insert _ _ i (entry_of (memory_ p) c)) by (by rewrite list_lookup_fmap, Hi).
    + rewrite app_nil_r. apply list_insert_id. by rewrite list_lookup_fmap, Hi.
Qed.

Lemma append_at_ok p i v : partition_ok p → Forall is_byte v →
  (∀ c, columns_ p !! i = Some c → length v = Z.to_nat (column_type_size (type_ c))) → partition_ok (append_at p i v).2.
Proof.
  intros Hp Hv Hl. destruct (append_at p i v) as [ok p'] eqn:Ha. destruct (columns_ p !! i) as [c|] eqn:Hi.
  - by destruct (append_at_spec p i c v ok p' Hp Hi (Hl c eq_refl) Hv Ha).
  - unfold append_at in Ha. rewrite Hi in Ha. by simplify_eq.
Qed.

(** Arenas of up to 2^55 bytes. *)
Lemma new_partition_ok id k size : 0 <= size < 2 ^ 55 → partition_ok (new_partition id k (make_arena size true)).
Proof.
  intros Hs. assert (0 <= total_size_ (make_arena size true) < 2 ^ 56) as Ht.
  { unfold make_arena. simpl. destruct (align_up_bounds size HUGEPAGE_SIZE_2M) as [Hb _]; [by exists 21|lia|].
    unfold HUGEPAGE_SIZE_2M in *. lia. }
  split; simpl; [|apply Ht|by apply map_Forall_empty].
  split; [split; simpl in *; lia|by constructor|intros i j c c' Hi; by rewrite lookup_nil in Hi].
Qed.

Lemma add_column_spec p name t :
  partition_ok p →
  partition_ok (add_column p name t) ∧ same_partition p (add_column p name t) ∧
  contents (add_column p name t) = contents p ++ [(name, t, [])].
Proof.
  intros [Hs Ht Hb]. unfold add_column. destruct (make_column _ _ name t) as [[a m] c] eqn:Hm.
  destruct (make_column_step _ _ _ _ _ _ _ _ Hs Hm) as (Hs' & Hb' & Htot & Hn & Hty & Hsp & Hoth). split_and!.
  - split; simpl; [done|by rewrite Htot|by apply Hb'].
  - by repeat split.
  - unfold contents. simpl. rewrite fmap_app. f_equal.
    + apply list_fmap_ext. intros j d Hd. unfold entry_of. by rewrite (Hoth j d Hd).
    + simpl. unfold entry_of. by rewrite Hn, Hty, Hsp.
Qed.

(** Shrinking a column drops its last values. *)
Lemma set_size_at_spec p i c n :
  partition_ok p → columns_ p !! i = Some c → 0 <= n <= size_ c →
  partition_ok (set_size_at p i n) ∧ same_partition p (set_size_at p i n) ∧
  contents (set_size_at p i n) = alter (λ e : entry, (e.1, take (Z.to_nat n) e.2)) i (contents p).
Proof.
  intros [Hs Ht Hb] Hi Hn. destruct (column_at p i c (Build_partition_ok _ Hs Ht Hb) Hi) as [Hc _]. unfold set_size_at.
  rewrite (list_alter_insert _ _ i c Hi). unfold set_size. rewrite (proj2 (Z.leb_le _ _)) by lia.
  assert (column_step (arena_ p) (memory_ p) c (arena_ p) (memory_ p) (set_count c n)) as Hst.
  { destruct Hs as [Ha _ _], Hc as [? ? ? ? ?]. split; try done; [split; simpl; try done; lia|by left]. }
  destruct (store_step _ _ _ _ _ _ _ _ Hs Hi Hst) as [Hs' Hoth]. split_and!; [by split|by repeat split|].
  unfold contents. simpl.
  rewrite (contents_insert (memory_ p) (memory_ p) _ i c (set_count c n) (take (Z.to_nat n) (as_span (memory_ p) c)) Hi); try done.
  - by rewrite (list_alter_insert _ _ i (entry_of (memory_ p) c)) by (by rewrite list_lookup_fmap, Hi).
  - unfold as_span. simpl. rewrite <- fmap_take. f_equal. rewrite take_seq. f_equal. lia.
Qed.

(** Values of eight bytes are read as they are. *)
Lemma span_i64_wide m c : elem_size_ c = 8 → span_i64 m c = i64 ∘ le_val <$> as_span m c.
Proof. intros He. unfold span_i64, as_span. rewrite <- list_fmap_compose, He. done. Qed.

Lemma lookup_contents p i c : columns_ p !! i = Some c → contents p !! i = Some (entry_of (memory_ p) c).
Proof. intros Hi. unfold contents. by rewrite list_lookup_fmap, Hi. Qed.

Lemma length_as_span m c : 0 <= size_ c → Z.of_nat (length (as_span m c)) = size_ c.
Proof. intros ?. unfold as_span. rewrite length_fmap, length_seq. lia. Qed.

Lemma num_rows_contents p : partition_ok p →
  num_rows p = match contents p with [] => 0 | e :: _ => Z.of_nat (length e.2) end.
Proof.
  intros Hp. unfold num_rows, contents. destruct (columns_ p) as [|c cs] eqn:Hc; [done|]. simpl.
  destruct (column_at p 0 c Hp) as [_ ?]; [by rewrite Hc|]. by rewrite length_as_span by lia.
Qed.

(** ** Time arithmetic *)

Lemma NS_PER_HOUR_pos : 0 < NS_PER_HOUR.
Proof. unfold NS_PER_HOUR. lia. Qed.

(** Timestamps from 1970 on, far enough from the end of the range. *)
Definition ts_ok (ts : Z) : Prop := 0 <= ts <= INT64_MAX - NS_PER_HOUR.

Lemma to_hour_epoch_spec ts :
  ts_ok ts → to_hour_epoch ts = ts / NS_PER_HOUR * NS_PER_HOUR ∧
             to_hour_epoch ts <= ts < to_hour_epoch ts + NS_PER_HOUR ∧ 0 <= to_hour_epoch ts.
Proof.
  intros [H0 H1]. pose proof NS_PER_HOUR_pos. unfold to_hour_epoch.
  rewrite Z.quot_div_nonneg by lia.
  pose proof (Z.div_mod ts NS_PER_HOUR). pose proof (Z.mod_pos_bound ts NS_PER_HOUR).
  pose proof (Z.div_pos ts NS_PER_HOUR).
  assert (0 <= ts / NS_PER_HOUR * NS_PER_HOUR <= ts) by nia.
  rewrite i64_small; [lia|]. unfold INT64_MIN, INT64_MAX, NS_PER_HOUR in *. lia.
Qed.

Lemma to_hour_epoch_unique ts h :
  ts_ok ts → h mod NS_PER_HOUR = 0 → h <= ts < h + NS_PER_HOUR → to_hour_epoch ts = h.
Proof.
  intros Hts Hm Hh. pose proof NS_PER_HOUR_pos. destruct (to_hour_epoch_spec ts Hts) as (-> & _ & _).
  assert (h = NS_PER_HOUR * (h / NS_PER_HOUR)) as Hd by (apply Z_div_exact_full_2; lia).
  assert (ts / NS_PER_HOUR = h / NS_PER_HOUR) as ->; [|lia].
  symmetry. apply (Z.div_unique ts NS_PER_HOUR _ (ts - h)); lia.
Qed.

(** ** The manager's invariant *)

Record manager_ok (m : PartitionManager) : Prop := {
  mo_key : ∀ k p, partitions_ m !! k = Some p → key_ p = k ∧ p_id p < next_id_ m;
  mo_id : ∀ k k' p p', partitions_ m !! k = Some p → partitions_ m !! k' = Some p' →
    p_id p = p_id p' → k = k';
}.

(** A change of a partition that keeps its identity. *)
Definition keeps_identity (f : Partition → Partition) : Prop :=
  ∀ p, key_ (f p) = key_ p ∧ p_id (f p) = p_id p.

Inductive pm_op : Type :=
  | OpGet (table symbol ts : Z)
  | OpSeal (current_ts max_age_hours : Z)
  | OpEvict (cutoff : Z) | OpDrop (table : Z) | OpEvictOne (target : Z)
  | OpUpdate (key : PartitionKey) (f : Partition → Partition).

Definition run_pm (m : PartitionManager) (op : pm_op) : PartitionManager :=
  match op with
  | OpGet t s ts => (get_or_create m t s ts).2
  | OpSeal now age => (seal_old_partitions m now age).2
  | OpEvict c => (evict_older_than m c).2
  | OpDrop t => (drop_table_partitions m t).2
  | OpEvictOne id => evict_partition m id
  | OpUpdate k f => with_partition m k f
  end.

Definition op_keeps (op : pm_op) : Prop :=
  match op with OpUpdate _ f => keeps_identity f | _ => True end.

Lemma manager_ok_sub m ps :
  ps ⊆ partitions_ m → manager_ok m → manager_ok (mkManager (arena_size_ m) ps (next_id_ m)).
Proof.
  intros Hsub [Hk Hi]. split; simpl.
  - intros k p Hp. apply Hk. by eapply lookup_weaken.
  - intros k k' p p' Hp Hp'. apply Hi; by eapply lookup_weaken.
Qed.

Lemma manager_ok_map m (g : PartitionKey → Partition → Partition) ps :
  (∀ k p, key_ (g k p) = key_ p ∧ p_id (g k p) = p_id p) →
  (∀ k, ps !! k = g k <$> partitions_ m !! k) →
  manager_ok m → manager_ok (mkManager (arena_size_ m) ps (next_id_ m)).
Proof.
  intros Hg Hps [Hk Hi]. split; simpl.
  - intros k p. rewrite Hps. intros (q & Hq & ->)%fmap_Some. destruct (Hg k q) as [-> ->]. by apply Hk.
  - intros k k' p p'. rewrite !Hps. intros (q & Hq & ->)%fmap_Some (q' & Hq' & ->)%fmap_Some.
    destruct (Hg k q) as [_ ->], (Hg k' q') as [_ ->]. by apply Hi.
Qed.

Lemma manager_ok_op m op : op_keeps op → manager_ok m → manager_ok (run_pm m op).
Proof.
  intros Hop Hok. destruct op as [t s ts|now age|c|t|id|k f]; simpl in *.
  - unfold get_or_create. destruct (partitions_ m !! _) eqn:Hp; [done|]. simpl.
    destruct Hok as [Hk Hi]. split; simpl.
    + intros k p [[<- <-]|[_ Hp']]%lookup_insert_Some; simpl; [split; [done|lia]|].
      destruct (Hk k p Hp'). split; [done|lia].
    + intros k k' p p' [[<- <-]|[Hn Hp1]]%lookup_insert_Some [[<- <-]|[Hn' Hp2]]%lookup_insert_Some;
        simpl; intros Hid; [done| | |by eapply Hi].
      * destruct (Hk _ _ Hp2). lia.
      * destruct (Hk _ _ Hp1). lia.
  - apply (manager_ok_map m (λ k p, if to_be_sealed (seal_cutoff now age) k p then seal p else p));
      [|by intros k; rewrite map_lookup_imap; destruct (partitions_ m !! k)|done].
    intros k p. by case_match.
  - apply manager_ok_sub; [apply map_filter_subseteq|done].
  - apply manager_ok_sub; [apply map_filter_subseteq|done].
  - unfold evict_partition. destruct (List.find _ _) as [[k p]|]; [|done].
    apply manager_ok_sub; [apply delete_subseteq|done].
  - apply (manager_ok_map m (λ k' p, if decide (k' = k) then f p else p)); [| |done].
    + intros k' p. case_decide; [apply Hop|done].
    + intros k'. rewrite lookup_alter. destruct (decide (k' = k)) as [->|Hne].
      * rewrite decide_True by done. by destruct (partitions_ m !! k).
      * rewrite decide_False by done. by destruct (partitions_ m !! k').
Qed.

Lemma elem_of_select m P p :
  p ∈ select m P ↔ ∃ k, partitions_ m !! k = Some p ∧ P k p = true.
Proof.
  unfold select. rewrite list_elem_of_omap. split.
  - intros ([k q] & Hin%elem_of_map_to_list & Hp). simpl in Hp. exists k.
    by destruct (P k q) eqn:HP; simplify_eq.
  - intros (k & Hk & HP). exists (k, p). rewrite elem_of_map_to_list. simpl. by rewrite HP.
Qed.

(** ** Properties of the manager *)

(** The manager's invariant holds in every state reached from an empty one:
    each partition is stored under its own key, and two stored partitions are
    never the same object; so erasing by pointer erases at most one. *)
Theorem manager_reachable_ok arena ops :
  Forall op_keeps ops → manager_ok (foldl run_pm (new_manager arena) ops).
Proof.
  assert (∀ m, manager_ok m → Forall op_keeps ops → manager_ok (foldl run_pm m ops)) as Hrun.
  { induction ops as [|op ops IH]; intros m Hm Ho; [done|].
    apply Forall_cons in Ho as [? ?]. apply IH; [by apply manager_ok_op|done]. }
  intros Ho. apply Hrun; [|done]. split; simpl; intros k p; rewrite lookup_empty; done || (intros; naive_solver).
Qed.

Lemma manager_reachable_ok_witness :
  manager_ok (foldl run_pm (new_manager 100) [OpGet 0 7 5; OpUpdate (mkKey 0 7 0) seal; OpEvict 1]).
Proof. apply manager_reachable_ok. repeat constructor. Defined.

(** Time-range lookup is exact for timestamps from 1970 on: it returns
    precisely the stored partitions whose hour holds an instant of [lo, hi]; so a
    tick's partition is found by every query that covers the tick. *)
Theorem time_range_exact m lo hi p :
  ts_ok lo → ts_ok hi → lo <= hi →
  (∀ k q, partitions_ m !! k = Some q → ts_ok (hour_epoch k) ∧ hour_epoch k mod NS_PER_HOUR = 0) →
  p ∈ get_partitions_for_time_range m lo hi ↔
  ∃ k, partitions_ m !! k = Some p ∧ ∃ ts, lo <= ts <= hi ∧ to_hour_epoch ts = hour_epoch k.
Proof.
  intros Hlo Hhi Hle Hkeys. unfold get_partitions_for_time_range. rewrite elem_of_select.
  pose proof NS_PER_HOUR_pos as Hpos. split; intros (k & Hk & Hx); exists k; (split; [done|]);
    destruct (Hkeys k p Hk) as [Hts Hmod]; unfold hour_overlaps in *.
  - apply andb_true_iff in Hx as [H1%Z.leb_le H2%Z.ltb_lt].
    rewrite i64_small in H2 by (unfold ts_ok, INT64_MIN in *; lia).
    exists (Z.max lo (hour_epoch k)). split; [lia|]. apply to_hour_epoch_unique; [|done|lia].
    unfold ts_ok in *. lia.
  - destruct Hx as (ts & Hin & Heq).
    destruct (to_hour_epoch_spec ts) as (_ & Hb & _); [unfold ts_ok in *; lia|]. rewrite Heq in Hb.
    apply andb_true_iff. split; [apply Z.leb_le; lia|apply Z.ltb_lt].
    rewrite i64_small by (unfold ts_ok, INT64_MIN in *; lia). lia.
Qed.

Lemma time_range_exact_witness :
  let m := (get_or_create (new_manager 1) 0 7 (NS_PER_HOUR + 5)).2 in
  let p := (get_or_create (new_manager 1) 0 7 (NS_PER_HOUR + 5)).1 in
  p ∈ get_partitions_for_time_range m 9 (NS_PER_HOUR + 5) ↔
  ∃ k, partitions_ m !! k = Some p ∧
       ∃ ts, 9 <= ts <= NS_PER_HOUR + 5 ∧ to_hour_epoch ts = hour_epoch k.
Proof.
  apply time_range_exact; [by vm_compute|by vm_compute|by vm_compute|].
  intros k q. unfold get_or_create, new_manager. cbn [partitions_]. rewrite lookup_empty.
  cbn [snd partitions_]. intros [[<- _]|[_ Hk]]%lookup_insert_Some; [by vm_compute|].
  by rewrite lookup_empty in Hk.
Defined.

(** Before 1970 it is not: the truncating division puts the last hour before
    the epoch into the partition of the first hour after it, and a query for
    that instant does not return the partition it was stored in. *)
Theorem negative_time_is_lost m table symbol ts :
  - NS_PER_HOUR < ts < 0 → partitions_ m = ∅ →
  let '(p, m') := get_or_create m table symbol ts in
  hour_epoch (key_ p) = 0 ∧ p ∈ get_all_partitions m' ∧
  p ∉ get_partitions_for_time_range m' ts ts.
Proof.
  intros Hts Hm. pose proof NS_PER_HOUR_pos.
  assert (to_hour_epoch ts = 0) as He.
  { unfold to_hour_epoch. rewrite <- (Z.opp_involutive ts), Z.quot_opp_l, Z.quot_small by lia. done. }
  unfold get_or_create. rewrite Hm, lookup_empty, He. split; [done|].
  unfold get_all_partitions, get_partitions_for_time_range. rewrite !elem_of_select. simpl. split.
  - eexists. split; [by rewrite lookup_insert, decide_True|done].
  - intros (k & [[<- _]|[_ Hk]]%lookup_insert_Some & HP); [|by rewrite lookup_empty in Hk].
    unfold hour_overlaps in HP. simpl in HP. apply andb_true_iff in HP as [HP%Z.leb_le _]. lia.
Qed.

Lemma negative_time_is_lost_witness :
  let '(p, m') := get_or_create (new_manager 1) 0 7 (-1) in
  hour_epoch (key_ p) = 0 ∧ p ∈ get_all_partitions m' ∧
  p ∉ get_partitions_for_time_range m' (-1) (-1).
Proof. apply (negative_time_is_lost (new_manager 1) 0 7 (-1)); [by vm_compute|done]. Defined.

(** Sealing does not stop writes: a tick that falls into a sealed partition's
    hour is given that partition itself, sealed as it is. *)
Theorem sealed_partition_is_returned m table symbol ts p :
  partitions_ m !! mkKey table symbol (to_hour_epoch ts) = Some p →
  (get_or_create (with_partition m (mkKey table symbol (to_hour_epoch ts)) seal) table symbol ts).1 =
  seal p.
Proof.
  intros Hp. unfold get_or_create, with_partition. simpl.
  by rewrite lookup_alter, decide_True, Hp by done.
Qed.

Lemma sealed_partition_is_returned_witness :
  let m := (get_or_create (new_manager 1) 0 7 5).2 in
  (get_or_create (with_partition m (mkKey 0 7 (to_hour_epoch 5)) seal) 0 7 5).1 =
  seal (new_partition 0 (mkKey 0 7 0) (make_arena 1 true)).
Proof. apply sealed_partition_is_returned. by vm_compute. Defined.

(** What sealing and eviction do to every partition: exactly the active ones
    of earlier hours than the cutoff are sealed, nothing else changes; exactly
    those of hours before the cutoff are evicted, and they are counted. *)
Theorem seal_and_evict_exact m now age cutoff k :
  partitions_ (seal_old_partitions m now age).2 !! k =
    (λ p, if to_be_sealed (seal_cutoff now age) k p then seal p else p) <$> partitions_ m !! k ∧
  partitions_ (evict_older_than m cutoff).2 !! k =
    (if hour_epoch k <? cutoff then None else partitions_ m !! k) ∧
  (size (partitions_ (evict_older_than m cutoff).2) + (evict_older_than m cutoff).1 =
   size (partitions_ m))%nat.
Proof.
  split_and!.
  - simpl. rewrite map_lookup_imap. by destruct (partitions_ m !! k).
  - simpl. rewrite map_lookup_filter. destruct (partitions_ m !! k) as [p|] eqn:Hp; simpl; [|by case_match].
    destruct (hour_epoch k <? cutoff) eqn:Hlt.
    + by rewrite option_guard_False by (simpl; congruence).
    + by rewrite option_guard_True by done.
  - simpl. set (kept := filter _ _).
    assert (size kept <= size (partitions_ m))%nat by apply map_subseteq_size, map_filter_subseteq. lia.
Qed.

(** ** Column indexes *)

Lemma value_range_sorted values lo hi i v :
  StronglySorted Z.le values → values !! i = Some v →
  (lo <= v <= hi ↔ (value_range values lo hi).1 <= Z.of_nat i < (value_range values lo hi).2).
Proof.
  intros Hs Hi. unfold value_range. simpl.
  pose proof (sorted_partition (λ v, v <? lo) Z.le values Hs
    ltac:(intros x y Hxy; rewrite !Z.ltb_lt; lia)) as Hlo.
  pose proof (sorted_partition (λ v, negb (hi <? v)) Z.le values Hs
    ltac:(intros x y Hxy; rewrite !negb_true_iff, !Z.ltb_ge; lia)) as Hhi.
  rewrite (bound_spec _ values _ (length_filter _ _) Hlo), (bound_spec _ values _ (length_filter _ _) Hhi).
  specialize (Hlo i v Hi). specialize (Hhi i v Hi). rewrite Z.ltb_lt in Hlo.
  rewrite negb_true_iff, Z.ltb_ge in Hhi. split; intros; [split|]; intuition lia.
Qed.

Lemma group_rows_lookup values i idx v :
  0 <= i → i + Z.of_nat (length values) < 2 ^ 32 →
  default [] (group_rows idx i values !! v) = default [] (idx !! v) ++ matches_from i values v.
Proof.
  revert i idx. induction values as [|x values IH]; intros i idx Hi Hb.
  { unfold matches_from. simpl. by rewrite app_nil_r. }
  cbn [group_rows length] in *. rewrite IH by lia. unfold matches_from.
  cbn [number omap list_omap fst snd]. rewrite wrap_small by lia. rewrite lookup_insert.
  destruct (decide (x = v)) as [->|Hne]; [|done]. simpl. by rewrite <- app_assoc.
Qed.

(** Each run of [part_rows]: the values from row [i] on follow a run of
    [cur_val] that started at [cur_start]; the last run of a value wins. *)
Fixpoint clustered (seen : gset Z) (cur : Z) (values : list Z) : Prop :=
  match values with
  | [] => True
  | v :: rest => if decide (v = cur) then clustered seen cur rest
                 else v ∉ seen ∧ clustered ({[v]} ∪ seen) v rest
  end.

Lemma part_rows_other values idx cur start i seen v :
  cur ∈ seen → clustered seen cur values → v ∈ seen → v ≠ cur →
  part_rows idx cur start i values !! v = idx !! v.
Proof.
  revert idx cur start i seen. induction values as [|x values IH]; intros idx cur start i seen Hc Hcl Hv Hne;
    cbn [part_rows clustered] in *; [by rewrite lookup_insert_ne|].
  case_decide as Hx.
  - subst. rewrite Z.eqb_refl. by eapply IH.
  - rewrite (proj2 (Z.eqb_neq _ _)) by done. destruct Hcl as [Hxs Hcl].
    rewrite (IH _ _ _ _ ({[x]} ∪ seen)); [by rewrite lookup_insert_ne|set_solver|done|set_solver|].
    intros ->. done.
Qed.

Lemma part_rows_current values idx cur start i seen :
  cur ∈ seen → clustered seen cur values →
  ∃ e, part_rows idx cur start i values !! cur = Some (start, e) ∧ i <= e ∧
    ∀ j, i <= j → (values !! Z.to_nat (j - i) = Some cur ↔ j < e).
Proof.
  revert idx start i. induction values as [|x values IH]; intros idx start i Hc Hcl;
    cbn [part_rows clustered] in *.
  { exists i. rewrite lookup_insert, decide_True by done. split_and!; [done|lia|].
    intros j Hj. rewrite lookup_nil. split; [done|lia]. }
  case_decide as Hx.
  - subst x. rewrite Z.eqb_refl. destruct (IH idx start (i + 1) Hc Hcl) as (e & He & Hie & Hj).
    exists e. split_and!; [done|lia|]. intros j Hij. destruct (decide (j = i)) as [->|Hne].
    + rewrite Z.sub_diag. simpl. split; [lia|done].
    + rewrite <- Hj by lia.
      by replace (Z.to_nat (j - i)) with (S (Z.to_nat (j - (i + 1)))) by lia.
  - rewrite (proj2 (Z.eqb_neq _ _)) by done. destruct Hcl as [Hxs Hcl]. exists i.
    rewrite (part_rows_other _ _ _ _ _ ({[x]} ∪ seen)) by set_solver.
    rewrite lookup_insert, decide_True by done. split_and!; [done|lia|]. intros j Hij.
    split; [|lia]. intros Hj. exfalso.
    assert (∀ l cur' seen', cur ∈ seen' → cur ≠ cur' → clustered seen' cur' l → cur ∉ l) as Hno.
    { clear. induction l as [|y l IHl]; intros cur' seen' Hs Hne Hcl; [by apply not_elem_of_nil|].
      cbn [clustered] in Hcl. apply not_elem_of_cons. case_decide as Hy.
      - subst. split; [done|]. by eapply IHl.
      - destruct Hcl as [Hys Hcl]. split; [intros ->; done|].
        eapply (IHl y ({[y]} ∪ seen')); [set_solver|intros ->; done|done]. }
    apply list_elem_of_lookup_2, elem_of_cons in Hj as [?|Hj]; [congruence|].
    eapply (Hno values x ({[x]} ∪ seen)); [set_solver|done|done|done].
Qed.

Lemma part_rows_new values idx cur start i seen x :
  cur ∈ seen → clustered seen cur values → x ∉ seen →
  (x ∉ values ∧ part_rows idx cur start i values !! x = idx !! x) ∨
  ∃ b e, part_rows idx cur start i values !! x = Some (b, e) ∧ i <= b ∧
    ∀ j, i <= j → (values !! Z.to_nat (j - i) = Some x ↔ b <= j < e).
Proof.
  revert idx cur start i seen. induction values as [|y values IH]; intros idx cur start i seen Hc Hcl Hx;
    cbn [part_rows clustered] in *.
  { left. split; [apply not_elem_of_nil|]. rewrite lookup_insert_ne; [done|]. intros ->. done. }
  assert (∀ j, i < j → Z.to_nat (j - i) = S (Z.to_nat (j - (i + 1)))) as Hj by lia.
  case_decide as Hy.
  - subst y. rewrite Z.eqb_refl.
    destruct (IH idx cur start (i + 1) seen Hc Hcl Hx) as [[Hn Hp]|(b & e & Hp & Hb & Hr)].
    + left. split; [|done]. apply not_elem_of_cons. split; [intros ->; done|done].
    + right. exists b, e. split_and!; [done|lia|]. intros j Hij. destruct (decide (j = i)) as [->|].
      * rewrite Z.sub_diag. simpl. split; [intros [= ->]; done|lia].
      * rewrite Hj by lia. apply Hr. lia.
  - rewrite (proj2 (Z.eqb_neq _ _)) by done. destruct Hcl as [Hys Hcl].
    set (idx' := <[cur := (start, i)]> idx).
    destruct (decide (y = x)) as [->|Hyx].
    + right. destruct (part_rows_current values idx' x i (i + 1) ({[x]} ∪ seen)) as (e & Hp & He & Hr);
        [set_solver|done|].
      exists i, e. split_and!; [done|lia|]. intros j Hij. destruct (decide (j = i)) as [->|].
      * rewrite Z.sub_diag. simpl. split; [lia|done].
      * rewrite Hj by lia. cbn. rewrite (Hr j) by lia. lia.
    + destruct (IH idx' y i (i + 1) ({[y]} ∪ seen)) as [[Hn Hp]|(b & e & Hp & Hb & Hr)];
        [set_solver|done|set_solver|..].
      * left. split; [apply not_elem_of_cons; split; congruence|]. rewrite Hp.
        unfold idx'. rewrite lookup_insert_ne; [done|]. intros ->. done.
      * right. exists b, e. split_and!; [done|lia|]. intros j Hij. destruct (decide (j = i)) as [->|].
        -- rewrite Z.sub_diag. simpl. split; [intros [= ->]; done|lia].
        -- rewrite Hj by lia. apply Hr. lia.
Qed.

(** The column indexes answer what a scan answers: [g#] the rows that hold a
    value, in order; [p#], on a column whose equal values are contiguous, exactly
    their row range; [s#], on a sorted column, exactly the rows whose value lies
    between the bounds. *)
Theorem column_indexes_exact p col v0 rest :
  column_values p col = Some (v0 :: rest) → Z.of_nat (length (v0 :: rest)) < 2 ^ 32 →
  (∀ v, grouped_lookup (set_grouped p col) col v = matches (v0 :: rest) v) ∧
  (clustered {[v0]} v0 rest → ∀ v j, 0 <= j →
    ((v0 :: rest) !! Z.to_nat j = Some v ↔
     (parted_range (set_parted p col) col v).1 <= j < (parted_range (set_parted p col) col v).2)) ∧
  (StronglySorted Z.le (v0 :: rest) → ∀ lo hi i v, (v0 :: rest) !! i = Some v →
    (lo <= v <= hi ↔ (sorted_range p col lo hi).1 <= Z.of_nat i < (sorted_range p col lo hi).2)).
Proof.
  intros Hcol Hlen. split_and!.
  - intros v. unfold grouped_lookup, set_grouped. rewrite Hcol. cbn [grouped_indexes_].
    rewrite lookup_insert, decide_True by done. cbn [mbind option_bind].
    by rewrite group_rows_lookup, lookup_empty by lia.
  - intros Hcl v j Hj. unfold parted_range, set_parted. rewrite Hcol. cbn [parted_indexes_].
    rewrite lookup_insert, decide_True by done. cbn [mbind option_bind].
    assert (0 < j → Z.to_nat j = S (Z.to_nat (j - 1))) as Hjs by lia.
    destruct (decide (v = v0)) as [->|Hv].
    + destruct (part_rows_current rest ∅ v0 0 1 {[v0]}) as (e & -> & He & Hr); [set_solver|done|].
      simpl. destruct (decide (j = 0)) as [->|]; [split; [lia|done]|].
      rewrite Hjs by lia. cbn. rewrite (Hr j) by lia. lia.
    + destruct (part_rows_new rest ∅ v0 0 1 {[v0]} v) as [[Hn ->]|(b & e & -> & Hb & Hr)];
        [set_solver|done|set_solver|..].
      * rewrite lookup_empty. simpl. split; [|lia]. intros Hl%list_elem_of_lookup_2.
        apply elem_of_cons in Hl as [?|?]; congruence || done.
      * simpl. destruct (decide (j = 0)) as [->|]; [split; [intros [= ->]; done|lia]|].
        rewrite Hjs by lia. cbn. rewrite (Hr j) by lia. done.
  - intros Hs lo hi i v Hi. unfold sorted_range. rewrite Hcol. by apply value_range_sorted.
Qed.

Lemma column_indexes_exact_witness :
  let p := foldl (λ p v, (append_at p 0 (push_le 8 v)).2)
             (add_column (new_partition 0 (mkKey 0 7 0) (make_arena 1 true)) "price" INT64) [4; 4; 9] in
  (∀ v, grouped_lookup (set_grouped p "price") "price" v = matches [4; 4; 9] v) ∧
  (clustered {[4]} 4 [4; 9] → ∀ v j, 0 <= j →
    ([4; 4; 9] !! Z.to_nat j = Some v ↔
     (parted_range (set_parted p "price") "price" v).1 <= j < (parted_range (set_parted p "price") "price" v).2)) ∧
  (StronglySorted Z.le [4; 4; 9] → ∀ lo hi i v, [4; 4; 9] !! i = Some v →
    (lo <= v <= hi ↔ (sorted_range p "price" lo hi).1 <= Z.of_nat i < (sorted_range p "price" lo hi).2)).
Proof. apply column_indexes_exact; [done|by vm_compute]. Defined.
