(* ===== verification/WindowFunction.v ===== *)
(** * SQL window functions

    Models [include/zeptodb/execution/window_function.h]. A window function works
    on the rows [start, end) of each partition of its input and writes the same
    rows of its output; here it returns those rows. Integers are [int64_t] and
    additions wrap around; [None] is a read outside the input. The [double]
    arithmetic of EMA and RATIO is a parameter. *)

From stdpp Require Import base gmap sets list fin_maps strings sorting.
From Stdlib Require Import ZArith Lia.
From S2P Require Import Prelude.

Open Scope Z_scope.

(** ** Frames and partitions *)

Record WindowFrame : Type := mkFrame {
  preceding : Z; (** [INT64_MAX] is UNBOUNDED PRECEDING *)
  following : Z;
}.

(** The loop of [compute_partition_bounds] from row [i], after the key [prev]. *)
Fixpoint bounds_from (i : nat) (prev : Z) (keys : list Z) : list nat :=
  match keys with
  | [] => []
  | k :: rest => if k =? prev then bounds_from (S i) k rest else i :: bounds_from (S i) k rest
  end.

Definition compute_partition_bounds (partition_keys : list Z) : list nat :=
  0%nat :: (match partition_keys with [] => [] | k :: rest => bounds_from 1 k rest end) ++
  [length partition_keys].

(** [compute]: the partitions one after the other. *)
Fixpoint over_bounds {A} (f : nat → nat → list A) (bounds : list nat) : list A :=
  match bounds with
  | s :: (e :: _) as rest => f s e ++ over_bounds f rest
  | _ => []
  end.

Definition compute {A} (f : nat → nat → list A) (n : nat) (partition_keys : option (list Z)) : list A :=
  match partition_keys with
  | None => f 0%nat n
  | Some keys => over_bounds f (compute_partition_bounds keys)
  end.

(** The rows of a partition. *)
Definition slice (input : list Z) (s e : nat) : list Z := take (e - s) (drop s input).

(** ** Sliding sums and counts *)

(** [prefix[i + 1] = prefix[i] + input[start + i]] *)
Fixpoint prefix_from (acc : Z) (xs : list Z) : list Z :=
  match xs with
  | [] => [acc]
  | x :: rest => acc :: prefix_from (i64 (acc + x)) rest
  end.

Definition frame_start (preceding i : Z) : Z :=
  if preceding =? INT64_MAX then 0 else Z.max 0 (i64 (i - preceding)).
Definition frame_end (following i len : Z) : Z :=
  if following =? INT64_MAX then len else Z.min len (i64 (i64 (i + following) + 1)).

Definition sliding_sum_partition (input : list Z) (fr : WindowFrame) (s e : nat) : list (option Z) :=
  let xs := slice input s e in
  let prefix := prefix_from 0 xs in
  let len := Z.of_nat (length xs) in
  (λ i, hi ← prefix !! Z.to_nat (frame_end (following fr) (Z.of_nat i) len);
        lo ← prefix !! Z.to_nat (frame_start (preceding fr) (Z.of_nat i));
        Some (i64 (hi - lo))) <$> seq 0 (length xs).

Definition sliding_count_partition (input : list Z) (fr : WindowFrame) (s e : nat) : list Z :=
  let len := Z.of_nat (length (slice input s e)) in
  (λ i, i64 (frame_end (following fr) (Z.of_nat i) len - frame_start (preceding fr) (Z.of_nat i))) <$>
    seq 0 (length (slice input s e)).

(** ** Sliding minimum and maximum: a monotone deque of row numbers *)

(** [while (dq.front() < fs) dq.erase(dq.begin())] *)
Fixpoint drop_front (fs : Z) (dq : list nat) : list nat :=
  match dq with
  | j :: rest => if Z.of_nat j <? fs then drop_front fs rest else dq
  | [] => []
  end.

(** [while (worse(input[dq.back()], x)) dq.pop_back()] *)
Definition drop_back (worse : Z → Z → bool) (xs : list Z) (x : Z) (dq : list nat) : list nat :=
  reverse ((fix go (l : list nat) : list nat :=
    match l with
    | j :: rest => if worse (default 0 (xs !! j)) x then go rest else l
    | [] => []
    end) (reverse dq)).

Fixpoint deque_rows (worse : Z → Z → bool) (preceding : Z) (all : list Z) (i : nat) (xs : list Z)
    (dq : list nat) : list Z :=
  match xs with
  | [] => []
  | x :: rest =>
      let dq := drop_front (frame_start preceding (Z.of_nat i)) dq in
      let dq := drop_back worse all x dq ++ [i] in
      default 0 (head dq ≫= λ j, all !! j) :: deque_rows worse preceding all (S i) rest dq
  end.

(** [following] is not used. *)
Definition sliding_min_partition (input : list Z) (fr : WindowFrame) (s e : nat) : list Z :=
  deque_rows (λ a b, b <=? a) (preceding fr) (slice input s e) 0 (slice input s e) [].
Definition sliding_max_partition (input : list Z) (fr : WindowFrame) (s e : nat) : list Z :=
  deque_rows (λ a b, a <=? b) (preceding fr) (slice input s e) 0 (slice input s e) [].

(** ** The window functions *)

Definition do_row_number (s e : nat) : list Z := (λ i, Z.of_nat i + 1) <$> seq 0 (e - s).

(** [rank] changes where a value differs from the one before it. *)
Fixpoint rank_rows (i : Z) (prev : option Z) (rank : Z) (xs : list Z) : list Z :=
  match xs with
  | [] => []
  | x :: rest =>
      let rank := if bool_decide (prev = Some x) then rank else i + 1 in
      rank :: rank_rows (i + 1) (Some x) rank rest
  end.

Definition do_rank (input : list Z) (s e : nat) : list Z := rank_rows 0 None 1 (slice input s e).

Fixpoint dense_rows (prev : option Z) (rank : Z) (xs : list Z) : list Z :=
  match xs with
  | [] => []
  | x :: rest =>
      let rank := match prev with Some p => if p =? x then rank else rank + 1 | None => rank end in
      rank :: dense_rows (Some x) rank rest
  end.

Definition do_dense_rank (input : list Z) (s e : nat) : list Z := dense_rows None 1 (slice input s e).

(** [sums[i] / counts[i]], truncated, when there is a row. *)
Definition do_avg (input : list Z) (fr : WindowFrame) (s e : nat) : list (option Z) :=
  zip_with (λ sum c, (λ x, if 0 <? c then Z.quot x c else 0) <$> sum)
    (sliding_sum_partition input fr s e) (sliding_count_partition input fr s e).

(** [input[src]] for a signed [src]. *)
Definition read_input (input : list Z) (src : Z) : option Z :=
  if src <? 0 then None else input !! Z.to_nat src.

Definition do_lag (input : list Z) (offset default_val : Z) (s e : nat) : list (option Z) :=
  (λ i, let src := i64 (Z.of_nat i - offset) in
        if src <? Z.of_nat s then Some default_val else read_input input src) <$> seq s (e - s).

Definition do_lead (input : list Z) (offset default_val : Z) (s e : nat) : list (option Z) :=
  (λ i, let src := i64 (Z.of_nat i + offset) in
        if Z.of_nat e <=? src then Some default_val else read_input input src) <$> seq s (e - s).

Definition do_delta (input : list Z) (s e : nat) : list Z :=
  match slice input s e with
  | [] => []
  | x :: rest => x :: zip_with (λ cur prev, i64 (cur - prev)) rest (x :: rest)
  end.

Section Floating.
Context {D : Type} (of_int : Z → D) (to_int : D → Z) (ema_step : Z → D → D) (ratio : Z → Z → Z).

(** [ema = alpha * input[i] + (1 - alpha) * ema] is [ema_step]. *)
Fixpoint ema_rows (ema : D) (xs : list Z) : list Z :=
  match xs with
  | [] => []
  | x :: rest => let ema := ema_step x ema in to_int ema :: ema_rows ema rest
  end.

Definition do_ema (input : list Z) (s e : nat) : list Z :=
  match slice input s e with
  | [] => []
  | x :: rest => to_int (of_int x) :: ema_rows (of_int x) rest
  end.

(** The quotient in millionths; 0 when the previous value is 0. *)
Definition do_ratio (input : list Z) (s e : nat) : list Z :=
  match slice input s e with
  | [] => []
  | x :: rest => 1000000 ::
      zip_with (λ cur prev, if prev =? 0 then 0 else ratio cur prev) rest (x :: rest)
  end.

Inductive window_function : Type :=
  | WindowRowNumber | WindowRank | WindowDenseRank | WindowSum | WindowAvg | WindowMin | WindowMax
  | WindowLag (offset default_val : Z) | WindowLead (offset default_val : Z)
  | WindowEMA | WindowDelta | WindowRatio.

Definition named (name upper lower : string) : bool :=
  String.eqb name upper || String.eqb name lower.

Definition make_window_function (name : string) (offset default_val : Z) : outcome window_function :=
  if named name "ROW_NUMBER" "row_number" then Returned WindowRowNumber
  else if named name "RANK" "rank" then Returned WindowRank
  else if named name "DENSE_RANK" "dense_rank" then Returned WindowDenseRank
  else if named name "SUM" "sum" then Returned WindowSum
  else if named name "AVG" "avg" then Returned WindowAvg
  else if named name "MIN" "min" then Returned WindowMin
  else if named name "MAX" "max" then Returned WindowMax
  else if named name "LAG" "lag" then Returned (WindowLag offset default_val)
  else if named name "LEAD" "lead" then Returned (WindowLead offset default_val)
  else if named name "EMA" "ema" then Returned WindowEMA
  else if named name "DELTA" "delta" then Returned WindowDelta
  else if named name "RATIO" "ratio" then Returned WindowRatio
  else Thrown ("Unknown window function: " +:+ name).

(** What [compute] of each class does in one partition. *)
Definition run_partition (w : window_function) (input : list Z) (fr : WindowFrame) (s e : nat)
    : list (option Z) :=
  match w with
  | WindowRowNumber => Some <$> do_row_number s e
  | WindowRank => Some <$> do_rank input s e
  | WindowDenseRank => Some <$> do_dense_rank input s e
  | WindowSum => sliding_sum_partition input fr s e
  | WindowAvg => do_avg input fr s e
  | WindowMin => Some <$> sliding_min_partition input fr s e
  | WindowMax => Some <$> sliding_max_partition input fr s e
  | WindowLag o d => do_lag input o d s e
  | WindowLead o d => do_lead input o d s e
  | WindowEMA => Some <$> do_ema input s e
  | WindowDelta => Some <$> do_delta input s e
  | WindowRatio => Some <$> do_ratio input s e
  end.

Definition run_window (w : window_function) (input : list Z) (fr : WindowFrame)
    (partition_keys : option (list Z)) : list (option Z) :=
  compute (run_partition w input fr) (length input) partition_keys.
End Floating.

(** ** Partitions *)

(** Rows [s, e) are a maximal run of equal keys. *)
Definition key_run (keys : list Z) (s e : nat) : Prop :=
  (s < e <= length keys)%nat ∧
  (∀ j, (s <= j < e)%nat → keys !! j = keys !! s) ∧
  ((0 < s)%nat → keys !! (s - 1)%nat ≠ keys !! s) ∧
  ((e < length keys)%nat → keys !! e ≠ keys !! s).

Lemma over_bounds_run {A} (f : nat → nat → list A) keys pre rest s prev r :
  (∀ s e, (s <= e <= length keys)%nat → length (f s e) = (e - s)%nat) →
  keys = pre ++ rest → (s < length pre)%nat →
  (∀ j, (s <= j < length pre)%nat → keys !! j = Some prev) →
  ((0 < s)%nat → keys !! (s - 1)%nat ≠ keys !! s) →
  (s <= r < length keys)%nat →
  ∃ s' e', key_run keys s' e' ∧ (s' <= r < e')%nat ∧
    over_bounds f (s :: bounds_from (length pre) prev rest ++ [length keys]) !! (r - s)%nat =
    f s' e' !! (r - s')%nat.
Proof.
  intros Hf. revert pre s prev. induction rest as [|k rest IH]; intros pre s prev Hk Hs Hrun Hst Hr.
  - rewrite app_nil_r in Hk. subst pre. exists s, (length keys). cbn [bounds_from app over_bounds].
    rewrite app_nil_r. split_and!; [|lia..|done]. split_and!; [lia..| |done|lia].
    intros j Hj. by rewrite !Hrun by lia.
  - assert (keys = (pre ++ [k]) ++ rest) as Hk' by (by rewrite Hk, <- app_assoc).
    assert (keys !! length pre = Some k) as Hkk by (by rewrite Hk, list_lookup_middle).
    assert (length (pre ++ [k]) = S (length pre)) as Hlen by (rewrite length_app; simpl; lia).
    assert (length pre < length keys)%nat by (rewrite Hk, length_app; simpl; lia).
    cbn [bounds_from]. rewrite <- Hlen. destruct (Z.eqb_spec k prev) as [->|Hne].
    + apply IH; [done|lia| |done|done]. intros j Hj.
      destruct (decide (j = length pre)) as [->|]; [done|]. apply Hrun. lia.
    + cbn [app over_bounds]. destruct (decide (r < length pre)%nat) as [Hlt|Hge].
      * exists s, (length pre). rewrite lookup_app_l by (rewrite Hf; lia).
        split_and!; [|lia..|done]. split_and!; [lia..| |done|].
        { intros j Hj. by rewrite !Hrun by lia. }
        intros _. rewrite Hkk, (Hrun s) by lia. congruence.
      * rewrite lookup_app_r by (rewrite Hf; lia). rewrite Hf by lia.
        replace (r - s - (length pre - s))%nat with (r - length pre)%nat by lia.
        apply IH; [done|lia| | |lia].
        { intros j Hj. assert (j = length pre) as -> by lia. done. }
        intros _. rewrite Hkk, Hrun by lia. congruence.
Qed.

(** Every row of a partitioned computation is a row of the run it lies in. *)
Lemma compute_run {A} (f : nat → nat → list A) keys r :
  (∀ s e, (s <= e <= length keys)%nat → length (f s e) = (e - s)%nat) →
  (r < length keys)%nat →
  ∃ s e, key_run keys s e ∧ (s <= r < e)%nat ∧
    compute f (length keys) (Some keys) !! r = f s e !! (r - s)%nat.
Proof.
  intros Hf Hr. destruct keys as [|k rest]; [simpl in Hr; lia|].
  destruct (over_bounds_run f (k :: rest) [k] rest 0 k r) as (s & e & H1 & H2 & H3);
    [done|done|simpl; lia| |lia|lia|].
  - intros j Hj. simpl in Hj. by assert (j = 0)%nat as -> by lia.
  - exists s, e. rewrite Nat.sub_0_r in H3. split_and!; [done|lia|lia|]. exact H3.
Qed.

Lemma key_run_unique keys s e s' e' r :
  key_run keys s e → key_run keys s' e' → (s <= r < e)%nat → (s' <= r < e')%nat → s = s' ∧ e = e'.
Proof.
  intros (He & Hc & Hs & Hx) (He' & Hc' & Hs' & Hx') Hr Hr'.
  assert (keys !! s = keys !! s') as Heq by (rewrite <- (Hc r), <- (Hc' r) by lia; done).
  split.
  - destruct (lt_eq_lt_dec s s') as [[Hlt|]|Hgt]; [|done|].
    + destruct Hs'; [lia|]. rewrite (Hc (s' - 1)%nat) by lia. done.
    + destruct Hs; [lia|]. rewrite (Hc' (s - 1)%nat) by lia. done.
  - destruct (lt_eq_lt_dec e e') as [[Hlt|]|Hgt]; [|done|].
    + destruct Hx; [lia|]. rewrite (Hc' e) by lia. done.
    + destruct Hx'; [lia|]. rewrite (Hc e') by lia. done.
Qed.

(** ** Lengths *)

Lemma length_slice input s e : (e <= length input)%nat → length (slice input s e) = (e - s)%nat.
Proof. intros ?. unfold slice. rewrite length_take, length_drop. lia. Qed.

Lemma length_deque_rows worse p all i xs dq : length (deque_rows worse p all i xs dq) = length xs.
Proof. revert i dq. induction xs; intros; cbn; auto. Qed.
Lemma length_rank_rows i prev rank xs : length (rank_rows i prev rank xs) = length xs.
Proof. revert i prev rank. induction xs; intros; cbn; auto. Qed.
Lemma length_dense_rows prev rank xs : length (dense_rows prev rank xs) = length xs.
Proof. revert prev rank. induction xs; intros; cbn; auto. Qed.
Lemma length_ema_rows {D} (to_int : D → Z) step ema xs : length (ema_rows to_int step ema xs) = length xs.
Proof. revert ema. induction xs; intros; cbn; auto. Qed.

Lemma length_run_partition {D} (of_int : Z → D) to_int step ratio w input fr s e :
  (s <= e <= length input)%nat →
  length (run_partition of_int to_int step ratio w input fr s e) = (e - s)%nat.
Proof.
  intros He. assert (length (slice input s e) = (e - s)%nat) as Hl by (apply length_slice; lia).
  destruct w; cbn [run_partition];
    unfold do_row_number, do_rank, do_dense_rank, do_avg, sliding_sum_partition,
      sliding_count_partition, sliding_min_partition, sliding_max_partition, do_lag, do_lead,
      do_ema, do_delta, do_ratio;
    rewrite ?length_zip_with, ?length_fmap, ?length_rank_rows, ?length_dense_rows,
      ?length_deque_rows, ?length_seq; try lia;
    destruct (slice input s e); rewrite <- Hl; cbn [length];
    rewrite ?length_ema_rows, ?length_zip_with; simpl; lia.
Qed.

(** ** Sums *)

Lemma i64_sub_both a b : i64 (i64 a - i64 b) = i64 (a - b).
Proof.
  apply i64_mod_eq. rewrite Zminus_mod, !i64_mod, <- Zminus_mod. done.
Qed.

Lemma prefix_from_lookup a xs k :
  (k <= length xs)%nat → prefix_from (i64 a) xs !! k = Some (i64 (a + zsum (take k xs))).
Proof.
  revert a k. induction xs as [|x xs IH]; intros a k Hk; destruct k as [|k]; simpl in *;
    rewrite ?Z.add_0_r; [done|lia|done|].
  rewrite i64_add_l, IH by lia. do 2 f_equal. lia.
Qed.

Lemma zsum_slice xs lo hi : (lo <= hi)%nat →
  zsum (take hi xs) - zsum (take lo xs) = zsum (take (hi - lo) (drop lo xs)).
Proof.
  intros Hle. rewrite <- (take_drop lo (take hi xs)) at 1.
  rewrite take_take, Nat.min_l by done. rewrite zsum_app, take_drop_commute.
  replace (lo + (hi - lo))%nat with hi by lia. lia.
Qed.

(** The rows of the frame of row [i]. *)
Definition frame_rows (fr : WindowFrame) (xs : list Z) (i : nat) : list Z :=
  (filter (λ r, Z.of_nat i - preceding fr <= r.1 <= Z.of_nat i + following fr) (number 0 xs)).*2.

(** The frames for which no addition of the code overflows. *)
Definition frame_ok (fr : WindowFrame) (len : nat) : Prop :=
  0 <= preceding fr <= INT64_MAX ∧ 0 <= following fr ∧ Z.of_nat len < INT64_MAX ∧
  (following fr = INT64_MAX ∨ Z.of_nat len + following fr < INT64_MAX).

Lemma frame_bounds fr len i :
  frame_ok fr len → (i < len)%nat →
  frame_start (preceding fr) (Z.of_nat i) = Z.max 0 (Z.of_nat i - preceding fr) ∧
  frame_end (following fr) (Z.of_nat i) (Z.of_nat len) =
    Z.min (Z.of_nat len) (Z.of_nat i + following fr + 1).
Proof.
  unfold frame_ok, frame_start, frame_end, INT64_MAX. intros (Hp & Hf & Hl & Ho) Hi. split.
  - destruct (Z.eqb_spec (preceding fr) (2 ^ 63 - 1)) as [->|]; [lia|].
    rewrite i64_small; [done|]. unfold INT64_MIN, INT64_MAX. lia.
  - destruct (Z.eqb_spec (following fr) (2 ^ 63 - 1)) as [->|]; [lia|].
    destruct Ho; [done|]. rewrite (i64_small (Z.of_nat i + following fr)), i64_small;
      [done|..]; unfold INT64_MIN, INT64_MAX; lia.
Qed.

Lemma take_fmap_drop {A B} (f : A → B) n m (l : list A) :
  take n (drop m (f <$> l)) = f <$> take n (drop m l).
Proof. by rewrite fmap_take, fmap_drop. Qed.

Lemma frame_rows_slice fr xs i :
  frame_ok fr (length xs) → (i < length xs)%nat →
  frame_rows fr xs i =
    let lo := Z.to_nat (frame_start (preceding fr) (Z.of_nat i)) in
    let hi := Z.to_nat (frame_end (following fr) (Z.of_nat i) (Z.of_nat (length xs))) in
    take (hi - lo) (drop lo xs).
Proof.
  intros Hok Hi. destruct (frame_bounds fr (length xs) i) as [-> ->]; [done..|].
  unfold frame_rows. cbn zeta. rewrite <- (number_snd xs 0) at 3. rewrite take_fmap_drop.
  f_equal. apply filter_slice. intros j [r x] Hj.
  assert (r = Z.of_nat j ∧ (j < length xs)%nat) as [-> Hlt].
  { assert ((number 0 xs).*1 !! j = Some r) as Hr by (by rewrite list_lookup_fmap, Hj).
    clear -Hr. revert Hr. replace (Z.of_nat j) with (0 + Z.of_nat j) by lia. generalize 0 as b.
    revert j. induction xs as [|y xs IH]; intros j b Hr; [done|]. destruct j as [|j]; simpl in *.
    - simplify_eq. lia.
    - apply IH in Hr as [-> ?]. lia. }
  simpl. destruct Hok as (? & ? & _). lia.
Qed.

(** SUM, COUNT and AVG of one partition. *)
Lemma sliding_sum_lookup input fr s e i :
  frame_ok fr (e - s) → (e <= length input)%nat → (i < e - s)%nat →
  sliding_sum_partition input fr s e !! i =
    Some (Some (i64 (zsum (frame_rows fr (slice input s e) i)))).
Proof.
  intros Hok He Hi. pose proof (length_slice input s e He) as Hl.
  unfold sliding_sum_partition. rewrite list_lookup_fmap, lookup_seq_lt by lia. simpl. f_equal.
  rewrite frame_rows_slice by (rewrite Hl; done). cbn zeta. rewrite Hl.
  destruct (frame_bounds fr (e - s) i) as [-> ->]; [done..|].
  change (prefix_from 0 (slice input s e)) with (prefix_from (i64 0) (slice input s e)).
  destruct Hok as (? & ? & _). rewrite !prefix_from_lookup by lia. simpl. f_equal.
  rewrite i64_sub_both, <- zsum_slice by lia. done.
Qed.

Lemma sliding_count_lookup input fr s e i :
  frame_ok fr (e - s) → (e <= length input)%nat → (i < e - s)%nat →
  sliding_count_partition input fr s e !! i =
    Some (Z.of_nat (length (frame_rows fr (slice input s e) i))).
Proof.
  intros Hok He Hi. pose proof (length_slice input s e He) as Hl.
  unfold sliding_count_partition. rewrite Hl, list_lookup_fmap, lookup_seq_lt by lia. simpl. f_equal.
  rewrite frame_rows_slice by (rewrite Hl; done). cbn zeta. rewrite Hl.
  destruct (frame_bounds fr (e - s) i) as [-> ->]; [done..|].
  rewrite length_take, length_drop, Hl. destruct Hok as (? & ? & ? & ?).
  rewrite i64_small; unfold INT64_MIN, INT64_MAX in *; lia.
Qed.

(** ** Minimum and maximum *)

Section Deque.
Context (R : Z → Z → Prop) (worse : Z → Z → bool).
Context (Rrefl : ∀ a, R a a) (Rtrans : ∀ a b c, R a b → R b c → R a c) (Rtotal : ∀ a b, R a b ∨ R b a).
Context (Hworse : ∀ a b, worse a b = true ↔ R b a).
Context (xs : list Z) (p : Z) (Hp : 0 <= p <= INT64_MAX) (Hlen : Z.of_nat (length xs) < INT64_MAX).
Notation val j := (default 0 (xs !! j)).
Notation fs i := (frame_start p (Z.of_nat i)).

(** The deque before row [i] holds increasing rows with strictly worse values
    towards its back, and beats every earlier row that is still in the frame. *)
Record deque_ok (i : nat) (dq : list nat) : Prop := {
  dq_rows : StronglySorted lt dq;
  dq_before : ∀ d, d ∈ dq → (d < i)%nat;
  dq_values : StronglySorted (λ a b, ¬ R (val b) (val a)) dq;
  dq_beats : ∀ j, (j < i)%nat → fs i <= Z.of_nat j → ∃ d, d ∈ dq ∧ (j <= d)%nat ∧ R (val d) (val j);
}.

Lemma elem_of_drop_front f dq d : d ∈ drop_front f dq → d ∈ dq.
Proof.
  induction dq as [|j dq IH]; [done|]. simpl. case_match; [|done]. intros ?. right. auto.
Qed.

Lemma drop_front_keeps f dq d : d ∈ dq → f <= Z.of_nat d → d ∈ drop_front f dq.
Proof.
  induction dq as [|j dq IH]; [done|]. simpl. destruct (Z.ltb_spec (Z.of_nat j) f); [|done].
  intros [->|]%elem_of_cons ?; [lia|auto].
Qed.

Lemma drop_front_sorted S f dq : StronglySorted S dq → StronglySorted S (drop_front f dq).
Proof. induction 1 as [|j dq Hs IH Hf]; [constructor|]. simpl. case_match; [done|by constructor]. Qed.

Lemma drop_front_ge f dq d : StronglySorted lt dq → d ∈ drop_front f dq → f <= Z.of_nat d.
Proof.
  induction 1 as [|j dq Hs IH Hf]; [by intros ?%elem_of_nil|]. simpl.
  destruct (Z.ltb_spec (Z.of_nat j) f); [done|]. intros [->|Hd]%elem_of_cons; [lia|].
  rewrite Forall_forall in Hf. specialize (Hf d Hd). lia.
Qed.

Lemma drop_back_snoc x dq j :
  drop_back worse xs x (dq ++ [j]) = if worse (val j) x then drop_back worse xs x dq else dq ++ [j].
Proof.
  unfold drop_back. rewrite reverse_app. simpl. case_match; [done|].
  rewrite reverse_cons, reverse_involutive. done.
Qed.

Lemma StronglySorted_snoc {A} (S : A → A → Prop) l x :
  StronglySorted S (l ++ [x]) ↔ StronglySorted S l ∧ ∀ y, y ∈ l → S y x.
Proof.
  rewrite StronglySorted_app. split.
  - intros (H & Hl & _). split; [done|]. intros y Hy. apply H; [done|by left].
  - intros [Hl H]. split_and!; [|done|by repeat constructor].
    intros y z Hy ->%list_elem_of_singleton. by apply H.
Qed.

(** What the back of the deque drops is beaten by [x], what it keeps is not. *)
Lemma drop_back_spec S x dq :
  StronglySorted S dq → StronglySorted (λ a b, ¬ R (val b) (val a)) dq →
  StronglySorted S (drop_back worse xs x dq) ∧
  StronglySorted (λ a b, ¬ R (val b) (val a)) (drop_back worse xs x dq) ∧
  ∀ d, d ∈ drop_back worse xs x dq ↔ d ∈ dq ∧ ¬ R x (val d).
Proof.
  induction dq as [|j dq IH] using rev_ind; intros HS HR.
  - split_and!; [done|done|]. intros d. change (drop_back worse xs x []) with (@nil nat).
    rewrite elem_of_nil. tauto.
  - rewrite drop_back_snoc. apply StronglySorted_snoc in HS as [HS HSl].
    apply StronglySorted_snoc in HR as [HR HRl]. destruct (worse (val j) x) eqn:Hw.
    + apply Hworse in Hw. destruct (IH HS HR) as (H1 & H2 & H3). split_and!; [done..|].
      intros d. rewrite H3, elem_of_app, list_elem_of_singleton. split; [tauto|].
      intros [[Hd| ->] Hn]; [done|]. contradiction.
    + assert (¬ R x (val j)) as Hn by (rewrite <- Hworse, Hw; done).
      split_and!; [by apply StronglySorted_snoc..|]. intros d.
      rewrite elem_of_app, list_elem_of_singleton. split; [|tauto].
      intros [Hd| ->]; [|auto]. split; [auto|]. intros HR'. specialize (HRl d Hd).
      destruct (Rtotal (val j) (val d)) as [|Hjd]; [done|]. apply Hn. by eapply Rtrans.
Qed.

Lemma fs_mono i : (S i < length xs)%nat → fs i <= fs (S i).
Proof.
  intros Hi. unfold frame_start. case_match; [lia|].
  rewrite !i64_small; unfold INT64_MIN, INT64_MAX in *; lia.
Qed.

Lemma fs_range i : (i < length xs)%nat → 0 <= fs i <= Z.of_nat i.
Proof.
  intros Hi. unfold frame_start. case_match; [lia|].
  rewrite i64_small; unfold INT64_MIN, INT64_MAX in *; lia.
Qed.

(** One row: the new deque is in order, its front is in the frame and beats it. *)
Lemma deque_step i dq x :
  xs !! i = Some x → deque_ok i dq →
  let dq' := drop_back worse xs x (drop_front (fs i) dq) ++ [i] in
  ((S i < length xs)%nat → deque_ok (S i) dq') ∧
  ∃ h, head dq' = Some h ∧ fs i <= Z.of_nat h <= Z.of_nat i ∧
    ∀ j, (j <= i)%nat → fs i <= Z.of_nat j → R (val h) (val j).
Proof.
  intros Hx [Hr Hb Hv Hbt] dq'. assert (i < length xs)%nat as Hi by (by eapply lookup_lt_Some).
  assert (val i = x) as Hvi by (by rewrite Hx).
  destruct (drop_back_spec lt x (drop_front (fs i) dq)) as (H1 & H2 & H3);
    [by apply drop_front_sorted..|].
  set (k := drop_back worse xs x (drop_front (fs i) dq)) in *.
  assert (StronglySorted lt dq') as Hs'.
  { apply StronglySorted_snoc. split; [done|]. intros y [Hy%elem_of_drop_front _]%H3. auto. }
  assert (StronglySorted (λ a b, ¬ R (val b) (val a)) dq') as Hv'.
  { apply StronglySorted_snoc. split; [done|]. intros y [_ Hy]%H3. by rewrite Hvi. }
  assert (∀ j, (j <= i)%nat → fs i <= Z.of_nat j → ∃ d, d ∈ dq' ∧ (j <= d)%nat ∧ R (val d) (val j)) as Hbt'.
  { intros j Hj Hfj. destruct (decide (j = i)) as [->|Hne].
    { exists i. split_and!; [apply elem_of_app; right; by left|lia|done]. }
    destruct (Hbt j) as (d & Hd & Hjd & HR); [lia|done|].
    destruct (worse (val d) x) eqn:Hw.
    - apply Hworse in Hw. exists i. split_and!; [apply elem_of_app; right; by left|lia|].
      rewrite Hvi. by eapply Rtrans.
    - exists d. split_and!; [|done..]. apply elem_of_app. left. apply H3. split.
      + apply drop_front_keeps; [done|lia].
      + rewrite <- Hworse, Hw. done. }
  split.
  - intros Hi'. constructor; [done| |done|].
    + intros d [Hd|Hd%list_elem_of_singleton]%elem_of_app; [|lia].
      apply H3 in Hd as [Hd%elem_of_drop_front _]. apply Hb in Hd. lia.
    + intros j Hj Hfj. apply Hbt'; [lia|]. pose proof (fs_mono i Hi'). lia.
  - destruct dq' as [|h t] eqn:Hdq; [by apply app_nil in Hdq as [_ ?]|].
    exists h. split; [done|]. assert (h ∈ k ++ [i]) as Hh by (fold dq'; rewrite Hdq; by left).
    split.
    + pose proof (fs_range i Hi). apply elem_of_app in Hh as [Hh|Hh%list_elem_of_singleton]; [|lia].
      apply H3 in Hh as [Hh _]. pose proof (drop_front_ge _ _ _ Hr Hh).
      apply elem_of_drop_front, Hb in Hh. lia.
    + intros j Hj Hfj. destruct (Hbt' j Hj Hfj) as (d & Hd & _ & HR).
      eapply Rtrans; [|done]. apply elem_of_cons in Hd as [->|Hd]; [done|].
      apply StronglySorted_inv in Hv' as [_ Hf]. rewrite Forall_forall in Hf.
      specialize (Hf d Hd). destruct (Rtotal (val h) (val d)); [done|contradiction].
Qed.

Lemma deque_rows_lookup rest i dq k :
  drop i xs = rest → (length rest + i = length xs)%nat → deque_ok i dq → (k < length rest)%nat →
  ∃ h, deque_rows worse p xs i rest dq !! k = Some (val h) ∧ (h < length xs)%nat ∧
    fs (i + k) <= Z.of_nat h <= Z.of_nat (i + k) ∧
    ∀ j, (j <= i + k)%nat → fs (i + k) <= Z.of_nat j → R (val h) (val j).
Proof.
  revert i dq k. induction rest as [|x rest IH]; intros i dq k Hd Hlr Hok Hk; simpl in *; [lia|].
  assert (xs !! i = Some x) as Hx.
  { rewrite <- (Nat.add_0_r i), <- lookup_drop, Hd. done. }
  destruct (deque_step i dq x Hx Hok) as (Hok' & h & Hh & Hhr & Hhb). destruct k as [|k].
  - exists h. rewrite Hh, !Nat.add_0_r. simpl. split_and!; [|lia|lia|lia|done].
    destruct (lookup_lt_is_Some_2 xs h) as [y Hy]; [lia|]. by rewrite Hy.
  - simpl. replace (i + S k)%nat with (S i + k)%nat by lia. apply IH; [|lia| |lia].
    + replace (S i) with (i + 1)%nat by lia. by rewrite <- drop_drop, Hd.
    + apply Hok'. lia.
Qed.
End Deque.

Lemma deque_spec R worse xs p k :
  (∀ a, R a a) → (∀ a b c, R a b → R b c → R a c) → (∀ a b, R a b ∨ R b a) →
  (∀ a b, worse a b = true ↔ R b a) →
  0 <= p <= INT64_MAX → Z.of_nat (length xs) < INT64_MAX → (k < length xs)%nat →
  ∃ m, deque_rows worse p xs 0 xs [] !! k = Some m ∧
    m ∈ frame_rows (mkFrame p 0) xs k ∧ Forall (R m) (frame_rows (mkFrame p 0) xs k).
Proof.
  intros H1 H2 H3 H4 Hp Hl Hk.
  destruct (deque_rows_lookup R worse H1 H2 H3 H4 xs p Hp Hl xs 0 [] k) as (h & Hh & Hlt & Hr & Hb);
    [done|lia| |done|].
  { constructor; [constructor|by intros d ?%elem_of_nil|constructor|intros; lia]. }
  destruct (frame_bounds (mkFrame p 0) (length xs) k) as [Hfs _].
  { unfold frame_ok. simpl. split_and!; [lia..|right; lia]. } { done. }
  simpl in Hfs, Hr, Hb. rewrite Hfs in Hr, Hb.
  destruct (lookup_lt_is_Some_2 xs h Hlt) as [m Hm]. rewrite Hm in Hh, Hb. simpl in Hh, Hb.
  exists m. split; [done|]. unfold frame_rows. simpl. split.
  - apply list_elem_of_fmap. exists (Z.of_nat h, m). split; [done|]. apply list_elem_of_filter.
    simpl. split; [lia|]. apply elem_of_number. rewrite Z.sub_0_r, Nat2Z.id. split; [lia|done].
  - apply Forall_forall. intros y ((j & y') & -> & Hy)%list_elem_of_fmap.
    apply list_elem_of_filter in Hy as [Hj Hy]. apply elem_of_number in Hy as [? Hy]. simpl in *.
    rewrite Z.sub_0_r in Hy. specialize (Hb (Z.to_nat j)). rewrite Hy in Hb. simpl in Hb.
    apply Hb; lia.
Qed.

(** ** Ranks *)

Section Ranks.
Context (R : Z → Z → Prop) `{!RelDecision R} (Rantisym : ∀ a b, R a b → R b a → a = b).

(** The rows that come before the peers of [x]. *)
Notation preceding_rows x l := (filter (λ y, R y x ∧ y ≠ x) l).
Notation distinct l := (size (list_to_set l : gset Z)).

Lemma later_not_preceding x l : Forall (R x) l → preceding_rows x l = [].
Proof.
  induction 1 as [|y l Hy _ IH]; [done|]. rewrite filter_cons_False; [done|].
  intros [H1 H2]. apply H2. by apply Rantisym.
Qed.

(** In a sorted partition the rows before those peers are a prefix, cut where
    the value changes. *)
Lemma preceding_change pre p x rest :
  StronglySorted R ((pre ++ [p]) ++ x :: rest) → p ≠ x →
  preceding_rows x ((pre ++ [p]) ++ x :: rest) = pre ++ [p].
Proof.
  intros Hs Hp. rewrite filter_app, filter_cons_False by tauto.
  pose proof Hs as Hs'. apply StronglySorted_app_1_r, StronglySorted_inv in Hs' as [_ Hx].
  rewrite (later_not_preceding x rest), app_nil_r by done. apply filter_all, Forall_forall.
  apply StronglySorted_app in Hs as (Hbefore & Hpre & _).
  intros y Hy. split; [apply Hbefore; [done|by left]|]. intros ->.
  apply elem_of_app in Hy as [Hy|Hy%list_elem_of_singleton]; [|congruence].
  apply StronglySorted_snoc in Hpre as [_ Hl]. apply Hp, Rantisym; [|by apply Hl].
  apply Hbefore; [|by left]. apply elem_of_app. right. by left.
Qed.

Lemma distinct_snoc l p x :
  StronglySorted R ((l ++ [p]) ++ [x]) → p ≠ x → 
  distinct (l ++ [p]) = S (distinct (preceding_rows p (l ++ [p]))).
Proof.
  intros Hs Hp. apply StronglySorted_app_1_l in Hs.
  apply StronglySorted_snoc in Hs as [_ Hl].
  assert (list_to_set (l ++ [p]) =@{gset Z} {[p]} ∪ list_to_set (preceding_rows p (l ++ [p]))) as ->.
  { apply set_eq. intros y.
    rewrite elem_of_union, elem_of_singleton, !elem_of_list_to_set, list_elem_of_filter,
      elem_of_app, list_elem_of_singleton.
    destruct (decide (y = p)) as [->|Hne]; [tauto|]. split; [|tauto].
    intros [Hy| ->]; [|done]. right. split; [split; auto|auto]. }
  rewrite size_union, size_singleton; [done|]. apply disjoint_singleton_l.
  rewrite elem_of_list_to_set, list_elem_of_filter. tauto.
Qed.

Lemma rank_rows_spec pre p rest k :
  StronglySorted R ((pre ++ [p]) ++ rest) → (k < length rest)%nat →
  let xs := (pre ++ [p]) ++ rest in
  rank_rows (Z.of_nat (length (pre ++ [p]))) (Some p)
    (Z.of_nat (length (preceding_rows p xs)) + 1) rest !! k =
  (λ x, Z.of_nat (length (preceding_rows x xs)) + 1) <$> rest !! k.
Proof.
  revert pre p k. induction rest as [|x rest IH]; intros pre p k Hs Hk; simpl in Hk; [lia|].
  cbn zeta. cbn [rank_rows].
  assert ((if bool_decide (Some p = Some x)
    then Z.of_nat (length (preceding_rows p ((pre ++ [p]) ++ x :: rest))) + 1
    else Z.of_nat (length (pre ++ [p])) + 1) =
    Z.of_nat (length (preceding_rows x ((pre ++ [p]) ++ x :: rest))) + 1) as ->.
  { case_bool_decide as Heq; [by simplify_eq|]. rewrite (preceding_change pre p x rest) by congruence.
    done. }
  destruct k as [|k]; [done|]. simpl.
  replace ((pre ++ [p]) ++ x :: rest) with (((pre ++ [p]) ++ [x]) ++ rest) in * by
    (by rewrite <- app_assoc).
  rewrite <- (IH (pre ++ [p]) x k) by (done || lia). cbn zeta. f_equal.
  f_equal. rewrite (length_app _ [x]). simpl. lia.
Qed.

Lemma dense_rows_spec pre p rest k :
  StronglySorted R ((pre ++ [p]) ++ rest) → (k < length rest)%nat →
  let xs := (pre ++ [p]) ++ rest in
  dense_rows (Some p) (Z.of_nat (distinct (preceding_rows p xs)) + 1) rest !! k =
  (λ x, Z.of_nat (distinct (preceding_rows x xs)) + 1) <$> rest !! k.
Proof.
  revert pre p k. induction rest as [|x rest IH]; intros pre p k Hs Hk; simpl in Hk; [lia|].
  cbn zeta. cbn [dense_rows].
  assert ((if p =? x
    then Z.of_nat (distinct (preceding_rows p ((pre ++ [p]) ++ x :: rest))) + 1
    else Z.of_nat (distinct (preceding_rows p ((pre ++ [p]) ++ x :: rest))) + 1 + 1) =
    Z.of_nat (distinct (preceding_rows x ((pre ++ [p]) ++ x :: rest))) + 1) as ->.
  { destruct (Z.eqb_spec p x) as [->|Hne]; [done|].
    rewrite (preceding_change pre p x rest) by done.
    rewrite (distinct_snoc pre p x).
    - rewrite filter_app, (later_not_preceding p (x :: rest)), app_nil_r; [lia|].
      apply StronglySorted_app in Hs as (Hb & _ & _). apply Forall_forall. intros y Hy.
      apply Hb; [apply elem_of_app; right; by left|done].
    - change (x :: rest) with ([x] ++ rest) in Hs. rewrite app_assoc in Hs.
      by apply StronglySorted_app_1_l in Hs.
    - done. }
  destruct k as [|k]; [done|]. simpl.
  replace ((pre ++ [p]) ++ x :: rest) with (((pre ++ [p]) ++ [x]) ++ rest) in * by
    (by rewrite <- app_assoc).
  by rewrite <- (IH (pre ++ [p]) x k) by (done || lia).
Qed.

Lemma rank_dense_lookup xs k :
  StronglySorted R xs → (k < length xs)%nat →
  rank_rows 0 None 1 xs !! k = (λ x, Z.of_nat (length (preceding_rows x xs)) + 1) <$> xs !! k ∧
  dense_rows None 1 xs !! k = (λ x, Z.of_nat (distinct (preceding_rows x xs)) + 1) <$> xs !! k.
Proof.
  intros Hs Hk. destruct xs as [|x xs]; [simpl in Hk; lia|].
  assert (preceding_rows x (x :: xs) = []) as H0.
  { rewrite filter_cons_False by tauto. apply later_not_preceding.
    by apply StronglySorted_inv in Hs as [_ ?]. }
  cbn [rank_rows dense_rows]. destruct k as [|k]; simpl; [by rewrite H0|]. simpl in Hk.
  pose proof (rank_rows_spec [] x xs k Hs) as Hr. pose proof (dense_rows_spec [] x xs k Hs) as Hd.
  cbn zeta in Hr, Hd. simpl app in Hr, Hd. rewrite H0 in Hr, Hd.
  rewrite <- Hr, <- Hd by lia. done.
Qed.
End Ranks.

(** ** The window functions *)

(** Aggregates over a partitioned input. Row [r] of the output is computed
    from the maximal run of equal keys that holds [r], and from nothing else:
    SUM is the [int64_t] sum of the rows of that run from [preceding] rows
    before [r] to [following] rows after it, AVG that sum divided by their
    number, and MIN and MAX the extremum of the rows from [preceding] before
    [r] to [r] itself. *)
Theorem window_frames {D} (of_int : Z → D) to_int step ratio input keys fr r :
  length keys = length input → (r < length keys)%nat → frame_ok fr (length keys) →
  let out w := run_window of_int to_int step ratio w input fr (Some keys) in
  ∃ s e, key_run keys s e ∧ (s <= r < e)%nat ∧
    let rows := frame_rows fr (slice input s e) (r - s) in
    let rows0 := frame_rows (mkFrame (preceding fr) 0) (slice input s e) (r - s) in
    out WindowSum !! r = Some (Some (i64 (zsum rows))) ∧
    out WindowAvg !! r = Some (Some (Z.quot (i64 (zsum rows)) (Z.of_nat (length rows)))) ∧
    (∃ m, out WindowMin !! r = Some (Some m) ∧ m ∈ rows0 ∧ Forall (Z.le m) rows0) ∧
    (∃ m, out WindowMax !! r = Some (Some m) ∧ m ∈ rows0 ∧ Forall (Z.ge m) rows0).
Proof.
  intros Hlen Hr Hok out.
  assert (∀ w s e, (s <= e <= length keys)%nat →
    length (run_partition of_int to_int step ratio w input fr s e) = (e - s)%nat) as Hl.
  { intros w s e ?. apply length_run_partition. lia. }
  destruct (compute_run _ keys r (Hl WindowSum) Hr) as (s & e & Hrun & Hse & _).
  exists s, e. split; [done|]. split; [done|].
  assert (∀ w, out w !! r = run_partition of_int to_int step ratio w input fr s e !! (r - s)%nat) as Hout.
  { intros w. destruct (compute_run _ keys r (Hl w) Hr) as (s' & e' & Hrun' & Hse' & Heq).
    destruct (key_run_unique keys s e s' e' r) as [<- <-]; [done..|].
    unfold out, run_window. by rewrite <- Hlen. }
  pose proof Hrun as ((_ & He) & _). rewrite Hlen in He.
  pose proof (length_slice input s e He) as Hls.
  assert (frame_ok fr (e - s)) as Hok'.
  { destruct Hok as (? & ? & ? & ?). unfold frame_ok. split_and!; [lia..|]. lia. }
  pose proof Hok' as (Hp & _ & Hlm & _).
  cbn zeta. rewrite !Hout. cbn [run_partition]. split_and!.
  - apply sliding_sum_lookup; [done|done|lia].
  - unfold do_avg. rewrite lookup_zip_with, sliding_sum_lookup, sliding_count_lookup by (done || lia).
    simpl. destruct (Z.ltb_spec 0 (Z.of_nat (length (frame_rows fr (slice input s e) (r - s)))));
      [done|]. exfalso.
    rewrite frame_rows_slice in * by (rewrite Hls; done || lia). cbn zeta in *. rewrite Hls in *.
    destruct (frame_bounds fr (e - s) (r - s)) as [Ha Hb]; [done|lia|]. rewrite Ha, Hb in *.
    rewrite length_take, length_drop, Hls in *. destruct Hok' as (_ & ? & _). lia.
  - destruct (deque_spec Z.le (λ a b, b <=? a) (slice input s e) (preceding fr) (r - s))
      as (m & Hm & Hin & Hall); [intros; lia..|intros; apply Z.leb_le|done|by rewrite Hls|lia|].
    exists m. split_and!; [|done..]. by rewrite list_lookup_fmap; unfold sliding_min_partition; rewrite Hm.
  - destruct (deque_spec Z.ge (λ a b, a <=? b) (slice input s e) (preceding fr) (r - s))
      as (m & Hm & Hin & Hall); [intros; lia..|intros; rewrite Z.leb_le; lia|done|by rewrite Hls|lia|].
    exists m. split_and!; [|done..]. by rewrite list_lookup_fmap; unfold sliding_max_partition; rewrite Hm.
Qed.

Definition some_frame : WindowFrame := mkFrame 1 1.

Lemma window_frames_witness :
  ∃ s e, key_run [7; 7; 7; 8] s e ∧ (s <= 1 < e)%nat.
Proof.
  destruct (window_frames (λ x, x) (λ x, x) (λ x _, x) Z.add [5; 3; 9; 1] [7; 7; 7; 8] some_frame 1)
    as (s & e & H1 & H2 & _).
  - reflexivity.
  - simpl. lia.
  - unfold frame_ok, some_frame, INT64_MAX. simpl. lia.
  - exists s, e. split; [exact H1|exact H2].
Defined.

(** RANK and DENSE_RANK on a partition sorted by [R] (ascending, descending
    or any other order): the rank of a row is one more than the number of rows
    strictly before it in the order, the dense rank one more than the number
    of distinct values strictly before it. *)
Theorem ranks_exact (R : Z → Z → Prop) `{!RelDecision R} input s e k :
  (∀ a b, R a b → R b a → a = b) → (s <= e <= length input)%nat →
  StronglySorted R (slice input s e) → (k < e - s)%nat →
  let before x := filter (λ y, R y x ∧ y ≠ x) (slice input s e) in
  do_rank input s e !! k =
    (λ x, Z.of_nat (length (before x)) + 1) <$> slice input s e !! k ∧
  do_dense_rank input s e !! k =
    (λ x, Z.of_nat (size (list_to_set (before x) : gset Z)) + 1) <$> slice input s e !! k.
Proof.
  intros HR He Hs Hk before. apply rank_dense_lookup; [done..|]. rewrite length_slice; lia.
Qed.

Lemma ranks_exact_witness :
  do_rank [9; 4; 4; 6; 1] 1 4 !! 2%nat = Some 3 ∧ do_dense_rank [9; 4; 4; 6; 1] 1 4 !! 2%nat = Some 2.
Proof.
  destruct (ranks_exact Z.le [9; 4; 4; 6; 1] 1 4 2) as [H1 H2].
  - intros a b. lia.
  - simpl. lia.
  - vm_compute. repeat constructor; done.
  - lia.
  - rewrite H1, H2. split; reflexivity.
Defined.

(** LAG and LEAD on a partition. With an offset that is not negative row
    [k] of the partition answers row [k - offset] ([k + offset]) of the same
    partition, and the default when there is none. With a negative offset,
    which the SQL parser accepts, both read rows outside the partition, and
    outside the input when the target is. *)
Theorem lag_lead_exact input o d s e k :
  (s <= e <= length input)%nat → (k < e - s)%nat →
  INT64_MIN + Z.of_nat (length input) < o < INT64_MAX - Z.of_nat (length input) →
  let k' := Z.of_nat k in
  (0 <= o →
    do_lag input o d s e !! k = Some (if k' <? o then Some d else slice input s e !! Z.to_nat (k' - o)) ∧
    do_lead input o d s e !! k =
      Some (if Z.of_nat (e - s) <=? k' + o then Some d else slice input s e !! Z.to_nat (k' + o))) ∧
  (o < 0 →
    do_lag input o d s e !! k = Some (read_input input (Z.of_nat s + k' - o)) ∧
    do_lead input o d s e !! k = Some (read_input input (Z.of_nat s + k' + o)) ∧
    (Z.of_nat (length input) <= Z.of_nat s + k' - o → do_lag input o d s e !! k = Some None) ∧
    (Z.of_nat s + k' + o < 0 → do_lead input o d s e !! k = Some None)).
Proof.
  unfold INT64_MIN, INT64_MAX. cbn zeta. intros He Hk Ho. unfold do_lag, do_lead.
  rewrite !list_lookup_fmap, !lookup_seq_lt by lia. simpl.
  rewrite !i64_small by (unfold INT64_MIN, INT64_MAX; lia). rewrite Nat2Z.inj_add.
  assert (∀ j, Z.of_nat s <= j < Z.of_nat e →
    read_input input j = slice input s e !! Z.to_nat (j - Z.of_nat s)) as Hread.
  { intros j Hj. unfold read_input, slice. destruct (Z.ltb_spec j 0); [lia|].
    rewrite lookup_take_lt, lookup_drop by lia. f_equal. lia. }
  split; intros Hsign.
  - split.
    + destruct (Z.ltb_spec (Z.of_nat s + Z.of_nat k - o) (Z.of_nat s)), (Z.ltb_spec (Z.of_nat k) o);
        try lia; [done|]. rewrite Hread by lia. do 3 f_equal. lia.
    + destruct (Z.leb_spec (Z.of_nat e) (Z.of_nat s + Z.of_nat k + o)),
        (Z.leb_spec (Z.of_nat (e - s)) (Z.of_nat k + o));
        try lia; [done|]. rewrite Hread by lia. do 3 f_equal. lia.
  - destruct (Z.ltb_spec (Z.of_nat s + Z.of_nat k - o) (Z.of_nat s)),
      (Z.leb_spec (Z.of_nat e) (Z.of_nat s + Z.of_nat k + o)); try lia.
    unfold read_input.
    split; [done|]. split; [done|]. split; intros Hout.
    + destruct (Z.ltb_spec (Z.of_nat s + Z.of_nat k - o) 0); [lia|].
      by rewrite lookup_ge_None_2 by lia.
    + by destruct (Z.ltb_spec (Z.of_nat s + Z.of_nat k + o) 0); [|lia].
Qed.

Lemma lag_lead_exact_witness : do_lag [5; 6; 7] (-3) 0 0 3 !! 1%nat = Some None.
Proof.
  apply (lag_lead_exact [5; 6; 7] (-3) 0 0 3 1); [simpl; lia|lia| |lia|simpl; lia].
  unfold INT64_MIN, INT64_MAX. simpl. lia.
Defined.
