(* ===== verification/Vectorized.v ===== *)
(** * Vectorized kernels

    Models [include/zeptodb/execution/vectorized_engine.h] and the integer kernels
    of [src/execution/vectorized_engine.cpp]: sums, comparisons with a threshold,
    and what follows them. The vector instructions come from a library; the class
    [Simd] has the ones that are used, [SimdLaws] what it documents of them, for
    any number of lanes. A pointer into a column is the rest of its values. *)

From S2P Require Import Prelude.
From stdpp Require Import base list sets.
From Stdlib Require Import ZArith Lia.

Open Scope Z_scope.

(** ** The instructions *)

Class Simd : Type := {
  vec : Type;
  Lanes : nat;
  Zero : vec;
  Set_ : Z → vec;
  LoadU : list Z → vec;
  Add : vec → vec → vec;
  GtMask : vec → vec → list Z; (** the bytes of [StoreMaskBits(Gt(a, b))] *)
  ReduceSum : vec → Z;
}.

(** The lanes of a vector: [lane v] has [Lanes] many values. *)
Class SimdLaws (S : Simd) : Type := {
  lane : vec → list Z;
  lanes_pow : ∃ k, (k <= 6)%nat ∧ Lanes = (2 ^ k)%nat;
  lane_length : ∀ v, length (lane v) = Lanes;
  lane_zero : lane Zero = replicate Lanes 0;
  lane_set : ∀ x, lane (Set_ x) = replicate Lanes x;
  lane_load : ∀ l, (Lanes <= length l)%nat → lane (LoadU l) = take Lanes l;
  lane_add : ∀ a b, lane (Add a b) = zip_with (λ x y, i64 (x + y)) (lane a) (lane b);
  mask_length : ∀ a b, length (GtMask a b) = ((Lanes + 7) / 8)%nat;
  mask_byte : ∀ a b x, x ∈ GtMask a b → 0 <= x < 2 ^ 8;
  mask_bit : ∀ a b i, (i < Lanes)%nat →
    Z.testbit (default 0 (GtMask a b !! (i / 8)%nat)) (Z.of_nat (i mod 8)) =
    (default 0 (lane b !! i) <? default 0 (lane a !! i));
  mask_rest : ∀ a b i, (Lanes <= i)%nat → (* unused bits are clear *)
    Z.testbit (default 0 (GtMask a b !! (i / 8)%nat)) (Z.of_nat (i mod 8)) = false;
  reduce_sum : ∀ v, ReduceSum v = i64 (zsum (lane v));
}.

(** ** Selections *)

(** A selection vector is the list of its indices; a bit mask the list of its
    words. *)
Notation SelectionVector := (list Z).

Record BitMask : Type := mkBitMask { bits_ : list Z; mask_rows_ : Z }.

Definition new_mask (num_rows : Z) : BitMask := mkBitMask (replicate (Z.to_nat ((num_rows + 63) / 64)) 0) num_rows.
Definition clear_mask (m : BitMask) : BitMask := mkBitMask (replicate (length (bits_ m)) 0) (mask_rows_ m).
Definition or_word (i : nat) (x : Z) (words : list Z) : list Z := alter (λ w, Z.lor w x) i words.
Definition set_bit (m : BitMask) (i : Z) : BitMask :=
  mkBitMask (or_word (Z.to_nat (Z.shiftr i 6)) (Z.shiftl 1 (Z.land i 63)) (bits_ m)) (mask_rows_ m).
Definition test_bit (m : BitMask) (i : Z) : bool :=
  Z.testbit (default 0 (bits_ m !! Z.to_nat (Z.shiftr i 6))) (Z.land i 63).

(** [__builtin_popcountll] and [__builtin_ctzll]. *)
Fixpoint popcount_pos (p : positive) : Z :=
  match p with xH => 1 | xO p => popcount_pos p | xI p => 1 + popcount_pos p end.
Fixpoint ctz_pos (p : positive) : Z := match p with xO p => 1 + ctz_pos p | _ => 0 end.
Definition popcountll (w : Z) : Z := match w with Zpos p => popcount_pos p | _ => 0 end.
Definition ctzll (w : Z) : Z := match w with Zpos p => ctz_pos p | _ => 0 end.

Definition mask_popcount (m : BitMask) : Z := foldl (λ t w, t + popcountll w) 0 (bits_ m).

Section Kernels.
Context {V : Simd}.

(** ** Sums *)

(** [for (; i + u * N <= n; i += u * N)] with an accumulator per unrolled load;
    [data] is what is left of the column. *)
Fixpoint sum_loop (fuel : nat) (accs : list vec) (data : list Z) : list vec * list Z :=
  match fuel with
  | O => (accs, data)
  | S fuel =>
      let stride := (length accs * Lanes)%nat in
      if (stride <=? length data)%nat
      then sum_loop fuel (imap (λ j acc, Add acc (LoadU (drop (j * Lanes) data))) accs) (drop stride data)
      else (accs, data)
  end.

(** One vector at a time, then one value at a time. *)
Definition sum_tail (acc : vec) (data : list Z) : Z :=
  let '(accs, data) := sum_loop (length data) [acc] data in
  foldl (λ r x, i64 (r + x)) (match accs with acc :: _ => ReduceSum acc | [] => 0 end) data.

Definition add4 (a b c d : vec) : vec := Add (Add a b) (Add c d).

Definition sum_i64_simd (data : list Z) : Z :=
  let '(accs, rest) := sum_loop (length data) (replicate 4 Zero) data in
  match accs with
  | [a; b; c; d] => sum_tail (add4 a b c d) rest
  | _ => 0
  end.

Definition sum_i64_simd_v2 (data : list Z) : Z :=
  let '(accs, rest) := sum_loop (length data) (replicate 8 Zero) data in
  match accs with
  | [a; b; c; d; e; f; g; h] => sum_tail (Add (add4 a b c d) (add4 e f g h)) rest
  | _ => 0
  end.

Definition sum_i64 (data : list Z) : Z := sum_i64_simd data.

(** ** Comparing with a threshold *)

(** The mask's bytes as an integer. *)
Definition mask_word (bytes : list Z) : Z := foldl (λ bits b, Z.lor bits (Z.shiftl b.2 (b.1 * 8))) 0 (number 0 bytes).

(** [while (bits)]: the indices of the bits from the lowest on. *)
Fixpoint bit_loop (fuel : nat) (i bits : Z) : SelectionVector :=
  match fuel with
  | O => []
  | S fuel => if bits =? 0 then [] else i + ctzll bits :: bit_loop fuel i (Z.land bits (bits - 1))
  end.

Fixpoint filter_loop (fuel : nat) (threshold i : Z) (data : list Z) : SelectionVector :=
  match fuel with
  | O => []
  | S fuel =>
      if (Lanes <=? length data)%nat
      then (wrap 32 <$> bit_loop 64 i (mask_word (GtMask (LoadU data) (Set_ threshold)))) ++
           filter_loop fuel threshold (i + Z.of_nat Lanes) (drop Lanes data)
      else omap (λ p, if threshold <? p.2 then Some (wrap 32 p.1) else None) (number i data)
  end.

Definition filter_gt_i64 (data : list Z) (threshold : Z) : SelectionVector :=
  filter_loop (S (length data)) threshold 0 data.

(** The same, or-ed into the words of a mask. *)
Fixpoint bitmask_loop (fuel : nat) (threshold bit_pos : Z) (data : list Z) (words : list Z) : list Z :=
  match fuel with
  | O => words
  | S fuel =>
      let N := Z.of_nat Lanes in
      if (Lanes <=? length data)%nat
      then
        let bits := mask_word (GtMask (LoadU data) (Set_ threshold)) in
        let bits := if N <? 64 then Z.land bits (Z.shiftl 1 N - 1) else bits in
        let word_idx := Z.to_nat (Z.shiftr bit_pos 6) in
        let bit_off := Z.land bit_pos 63 in
        let words := or_word word_idx (u64 (Z.shiftl bits bit_off)) words in
        let words := if 64 <? bit_off + N then or_word (S word_idx) (Z.shiftr bits (64 - bit_off)) words else words in
        bitmask_loop fuel threshold (bit_pos + N) (drop Lanes data) words
      else
        foldl (λ ws p, if threshold <? p.2 then or_word (Z.to_nat (Z.shiftr p.1 6)) (Z.shiftl 1 (Z.land p.1 63)) ws else ws)
          words (number bit_pos data)
  end.

Definition filter_gt_i64_bitmask (data : list Z) (threshold : Z) (m : BitMask) : BitMask :=
  mkBitMask (bitmask_loop (S (length data)) threshold 0 data (bits_ (clear_mask m))) (mask_rows_ m).
End Kernels.

(** ** Kernels without vectors *)

(** Sixteen values at a time into four accumulators. *)
Fixpoint sum_fast_loop (fuel : nat) (s0 s1 s2 s3 : Z) (data : list Z) : Z :=
  match fuel, data with
  | S fuel, d0 :: d1 :: d2 :: d3 :: d4 :: d5 :: d6 :: d7 :: d8 :: d9 :: d10 :: d11 :: d12 :: d13 :: d14 :: d15 :: data =>
      sum_fast_loop fuel (i64 (s0 + (d0 + d4 + d8 + d12))) (i64 (s1 + (d1 + d5 + d9 + d13)))
        (i64 (s2 + (d2 + d6 + d10 + d14))) (i64 (s3 + (d3 + d7 + d11 + d15))) data
  | _, _ => i64 (foldl (λ s x, i64 (s + x)) s0 data + s1 + s2 + s3)
  end.
Definition sum_i64_fast (data : list Z) : Z := sum_fast_loop (length data) 0 0 0 0 data.

Definition sum_i64_selected (data : list Z) (selection : SelectionVector) : Z :=
  foldl (λ t i, i64 (t + default 0 (data !! Z.to_nat i))) 0 selection.

(** The rows of a word's bits, added up. *)
Definition sum_i64_masked (data : list Z) (m : BitMask) : Z :=
  foldl (λ t w, foldl (λ t row, i64 (t + default 0 (data !! Z.to_nat row))) t (bit_loop 64 (Z.shiftl w.1 6) w.2))
    0 (number 0 (bits_ m)).

(** ** Specification: the rows above a threshold *)

Definition rows_above (threshold : Z) (data : list Z) : list Z :=
  omap (λ p, if threshold <? p.2 then Some p.1 else None) (number 0 data).

(** ** Integers up to overflow *)

Definition eq64 (a b : Z) : Prop := i64 a = i64 b.
Infix "≡64" := eq64 (at level 70).

#[export] Instance eq64_equiv : Equivalence eq64.
Proof. split; [done|by intros a b|]. intros a b c. unfold eq64. congruence. Qed.

Lemma eq64_mod a b : a ≡64 b ↔ a mod 2 ^ 64 = b mod 2 ^ 64.
Proof. split; [|apply i64_mod_eq]. intros H. by rewrite <- (i64_mod a), H, i64_mod. Qed.

Lemma eq64_goal a b : a ≡64 b → i64 a = i64 b.
Proof. done. Qed.

#[export] Instance add_eq64 : Proper (eq64 ==> eq64 ==> eq64) Z.add.
Proof. intros a b H c d H'. rewrite eq64_mod in *. by rewrite (Z.add_mod a), (Z.add_mod b), H, H'. Qed.

Lemma i64_eq64 a : i64 a ≡64 a.
Proof. apply eq64_mod, i64_mod. Qed.

Lemma fold_sum64 l a : foldl (λ s x, i64 (s + x)) a l ≡64 a + zsum l.
Proof.
  revert a. induction l as [|x l IH]; intros a; simpl; [by rewrite Z.add_0_r|].
  rewrite IH, i64_eq64. by rewrite Z.add_assoc.
Qed.

Lemma fold_i64 l a : foldl (λ s x, i64 (s + x)) (i64 a) l = i64 (a + zsum l).
Proof.
  revert a. induction l as [|x l IH]; intros a; simpl; [by rewrite Z.add_0_r|]. rewrite i64_add_l, IH. f_equal. lia.
Qed.

Lemma zip_sum64 l k : length l = length k → zsum (zip_with (λ x y, i64 (x + y)) l k) ≡64 zsum l + zsum k.
Proof.
  revert k. induction l as [|x l IH]; intros [|y k] H; simplify_eq/=; [done|].
  rewrite IH, i64_eq64 by done. by replace (x + y + (zsum l + zsum k)) with (x + zsum l + (y + zsum k)) by lia.
Qed.

Lemma zsum_replicate_0 n : zsum (replicate n 0) = 0.
Proof. by induction n. Qed.

(** ** Sums *)

Section SumFacts.
Context {V : Simd} {HV : SimdLaws V}.

Definition lanes_sum (accs : list vec) : Z := zsum ((λ v, zsum (lane v)) <$> accs).

Lemma lanes_positive : (0 < Lanes)%nat.
Proof. destruct lanes_pow as (k & _ & ->). pose proof (Nat.pow_nonzero 2 k). lia. Qed.

Lemma lane_sum_add a b : zsum (lane (Add a b)) ≡64 zsum (lane a) + zsum (lane b).
Proof. rewrite lane_add. apply zip_sum64. by rewrite !lane_length. Qed.

Lemma lanes_sum_load accs data : (length accs * Lanes <= length data)%nat →
  lanes_sum (imap (λ j acc, Add acc (LoadU (drop (j * Lanes) data))) accs) ≡64
  lanes_sum accs + zsum (take (length accs * Lanes) data).
Proof.
  revert data. induction accs as [|a accs IH]; intros data Hl; [done|]. cbn [length] in *.
  rewrite imap_cons. unfold lanes_sum in *. cbn [fmap list_fmap foldr].
  rewrite lane_sum_add, lane_load by (rewrite length_drop; lia). rewrite drop_0.
  replace (S (length accs) * Lanes)%nat with (Lanes + length accs * Lanes)%nat by lia.
  rewrite <- take_take_drop, zsum_app.
  specialize (IH (drop Lanes data)). rewrite length_drop in IH. specialize (IH ltac:(lia)).
  assert (imap (λ j acc, Add acc (LoadU (drop (j * Lanes) (drop Lanes data)))) accs =
          imap ((λ j acc, Add acc (LoadU (drop (j * Lanes) data))) ∘ S) accs) as Heq.
  { apply imap_ext. intros j x _. simpl. do 2 f_equal. by rewrite drop_drop. }
  rewrite <- Heq, IH. apply eq64_mod. f_equal. lia.
Qed.

(** What the loop has added, and what it leaves. *)
Lemma sum_loop_spec fuel accs data :
  let '(accs', rest) := sum_loop fuel accs data in
  length accs' = length accs ∧ lanes_sum accs' + zsum rest ≡64 lanes_sum accs + zsum data.
Proof.
  revert accs data. induction fuel as [|fuel IH]; intros accs data; cbn [sum_loop]; [done|].
  destruct (Nat.leb_spec (length accs * Lanes) (length data)) as [Hle|]; [|done].
  specialize (IH (imap (λ j acc, Add acc (LoadU (drop (j * Lanes) data))) accs) (drop (length accs * Lanes) data)).
  destruct (sum_loop fuel _ _) as [accs' rest]. rewrite length_imap in IH. destruct IH as [Hlen IH]. split; [done|].
  rewrite IH, lanes_sum_load by done. rewrite <- Z.add_assoc, <- zsum_app. by rewrite take_drop.
Qed.

Lemma sum_tail_spec acc data : sum_tail acc data = i64 (zsum (lane acc) + zsum data).
Proof.
  unfold sum_tail. pose proof (sum_loop_spec (length data) [acc] data) as H.
  destruct (sum_loop _ _ _) as [accs rest]. destruct H as [Hlen H]. destruct accs as [|a [|b accs]]; simplify_eq/=.
  unfold lanes_sum in H. simpl in H. rewrite !Z.add_0_r in H. unfold eq64 in H.
  by rewrite reduce_sum, fold_i64.
Qed.

Lemma add4_sum a b c d :
  zsum (lane (add4 a b c d)) ≡64 zsum (lane a) + zsum (lane b) + zsum (lane c) + zsum (lane d).
Proof. unfold add4. rewrite !lane_sum_add. by rewrite !Z.add_assoc. Qed.

Lemma lanes_sum_zero n : lanes_sum (replicate n Zero) = 0.
Proof. unfold lanes_sum. rewrite fmap_replicate, lane_zero, zsum_replicate_0. apply zsum_replicate_0. Qed.

Lemma sum_simd_exact data : sum_i64_simd data = i64 (zsum data).
Proof.
  unfold sum_i64_simd. pose proof (sum_loop_spec (length data) (replicate 4 Zero) data) as H.
  destruct (sum_loop _ _ _) as [accs rest]. destruct H as [Hlen H]. rewrite lanes_sum_zero in H.
  destruct accs as [|a [|b [|c [|d [|]]]]]; simplify_eq/=.
  rewrite sum_tail_spec. apply (eq64_goal _ (zsum data)). rewrite <- H, add4_sum. unfold lanes_sum. simpl. apply eq64_mod. f_equal. lia.
Qed.

Lemma sum_simd_v2_exact data : sum_i64_simd_v2 data = i64 (zsum data).
Proof.
  unfold sum_i64_simd_v2. pose proof (sum_loop_spec (length data) (replicate 8 Zero) data) as H.
  destruct (sum_loop _ _ _) as [accs rest]. destruct H as [Hlen H]. rewrite lanes_sum_zero in H.
  destruct accs as [|a [|b [|c [|d [|e [|f [|g [|h [|]]]]]]]]]; simplify_eq/=.
  rewrite sum_tail_spec. apply (eq64_goal _ (zsum data)). rewrite <- H, lane_sum_add, !add4_sum. unfold lanes_sum. simpl. apply eq64_mod. f_equal. lia.
Qed.
End SumFacts.

Lemma sum_fast_loop_spec fuel s0 s1 s2 s3 data : sum_fast_loop fuel s0 s1 s2 s3 data = i64 (s0 + s1 + s2 + s3 + zsum data).
Proof.
  revert s0 s1 s2 s3 data. induction fuel as [|fuel IH]; intros s0 s1 s2 s3 data.
  { apply eq64_goal. rewrite fold_sum64. apply eq64_mod. f_equal. lia. }
  assert (i64 (foldl (λ s x, i64 (s + x)) s0 data + s1 + s2 + s3) = i64 (s0 + s1 + s2 + s3 + zsum data)) as Hend.
  { apply eq64_goal. rewrite fold_sum64. apply eq64_mod. f_equal. lia. }
  do 16 (destruct data as [|? data]; [exact Hend|]). clear Hend. cbn [sum_fast_loop]. rewrite IH. cbn [foldr].
  apply eq64_goal.
  rewrite !i64_eq64. apply eq64_mod. f_equal. lia.
Qed.

(** ** Bits, one by one *)

Lemma ctz_split p : ∃ m, 0 <= m ∧ 0 <= ctz_pos p ∧ Zpos p = 2 ^ ctz_pos p * (2 * m + 1).
Proof.
  induction p as [p IH|p IH|]; cbn [ctz_pos].
  - exists (Zpos p). rewrite Z.mul_1_l. lia.
  - destruct IH as (m & Hm & Hc & Hp). exists m. split_and!; [done|lia|]. rewrite Z.pow_add_r by lia. lia.
  - exists 0. lia.
Qed.

(** The lowest bit, and the word without it. *)
Lemma ctz_spec w : 0 < w →
  0 <= ctzll w ∧ Z.testbit w (ctzll w) = true ∧ (∀ j, 0 <= j < ctzll w → Z.testbit w j = false) ∧
  ∀ j, 0 <= j → Z.testbit (Z.land w (w - 1)) j = Z.testbit w j && negb (j =? ctzll w).
Proof.
  intros Hw. destruct w as [|p|]; [done| |done]. cbn [ctzll]. destruct (ctz_split p) as (m & Hm & Hc & Hp).
  rewrite Hp. generalize dependent (ctz_pos p). intros c Hc _. clear p Hw.
  assert (∀ j, 0 <= j < c → Z.testbit (2 ^ c * (2 * m + 1)) j = false) as Hlow
    by (intros j Hj; rewrite Z.mul_comm; apply Z.mul_pow2_bits_low; lia).
  assert (∀ k j, c <= j → Z.testbit (2 ^ c * k) j = Z.testbit k (j - c)) as Hhigh
    by (intros k j Hj; rewrite Z.mul_comm; by rewrite Z.mul_pow2_bits by lia).
  split_and!; [done| |done|].
  - rewrite Hhigh, Z.sub_diag by lia. apply Z.testbit_odd_0.
  - intros j Hj. rewrite Z.land_spec. destruct (Z.testbit (2 ^ c * (2 * m + 1)) j) eqn:Hb; [|done]. simpl.
    assert (c <= j) as Hcj by (destruct (decide (c <= j)); [done|rewrite Hlow in Hb; [done|lia]]).
    replace (2 ^ c * (2 * m + 1) - 1) with (2 * m * 2 ^ c + (2 ^ c - 1)) by lia.
    assert (0 < 2 ^ c) by (apply Z.pow_pos_nonneg; lia).
    replace j with (j - c + c) by lia. rewrite <- Z.div_pow2_bits by lia.
    rewrite Z.div_add_l, (Z.div_small (2 ^ c - 1)), Z.add_0_r by lia.
    rewrite Hhigh in Hb by done. replace (j - c + c) with j by lia.
    destruct (Z.eqb_spec j c) as [->|Hne]; [by rewrite Z.sub_diag, Z.testbit_even_0|]. simpl.
    replace (j - c) with (Z.succ (j - c - 1)) in * by lia. rewrite Z.testbit_odd_succ in Hb by lia.
    by rewrite Z.testbit_even_succ by lia.
Qed.

Lemma omap_none {A B} (f : A → option B) l : (∀ x, x ∈ l → f x = None) → omap f l = [].
Proof.
  induction l as [|x l IH]; intros H; [done|]. simpl. rewrite H by set_solver. apply IH. intros y Hy. apply H. set_solver.
Qed.

(** The rows of the bits of [bits] from position [a] on. *)
Definition bit_rows (i bits a n : Z) : list Z := omap (λ k, if Z.testbit bits k then Some (i + k) else None) (seqZ a n).

Lemma bit_rows_skip i bits a a' e : a <= a' <= e → (∀ k, a <= k < a' → Z.testbit bits k = false) →
  bit_rows i bits a (e - a) = bit_rows i bits a' (e - a').
Proof.
  intros Ha Hz. unfold bit_rows. replace (e - a) with ((a' - a) + (e - a')) by lia. rewrite seqZ_app by lia.
  rewrite omap_app. replace (a + (a' - a)) with a' by lia.
  rewrite (omap_none _ (seqZ a (a' - a))); [done|]. intros k Hk%elem_of_seqZ. by rewrite Hz by lia.
Qed.

Lemma bit_rows_first i bits a n : 0 < n → Z.testbit bits a = true →
  bit_rows i bits a n = (i + a) :: bit_rows i bits (a + 1) (n - 1).
Proof.
  intros Hn Hb. unfold bit_rows. rewrite seqZ_cons by done. simpl. rewrite Hb. by rewrite Z.add_1_r, <- Z.sub_1_r.
Qed.

Lemma bit_rows_ext i bits bits' a n : (∀ k, a <= k < a + n → Z.testbit bits k = Z.testbit bits' k) →
  bit_rows i bits a n = bit_rows i bits' a n.
Proof.
  intros H. unfold bit_rows. apply list_omap_ext, Forall2_same_length_lookup_2; [done|].
  intros j x y Hx Hy. rewrite Hx in Hy. simplify_eq. apply list_elem_of_lookup_2, elem_of_seqZ in Hx. by rewrite H by lia.
Qed.

Lemma bit_loop_spec i fuel bits : (fuel <= 64)%nat → 0 <= bits →
  (∀ k, 0 <= k → (k < 64 - Z.of_nat fuel ∨ 64 <= k) → Z.testbit bits k = false) →
  bit_loop fuel i bits = bit_rows i bits (64 - Z.of_nat fuel) (Z.of_nat fuel).
Proof.
  revert bits. induction fuel as [|fuel IH]; intros bits Hf Hb Hz; [done|]. cbn [bit_loop].
  destruct (Z.eqb_spec bits 0) as [->|Hne].
  { unfold bit_rows. symmetry. apply omap_none. intros k _. by rewrite Z.testbit_0_l. }
  destruct (ctz_spec bits) as (Hc & Htrue & Hlow & Hclear); [lia|]. set (c := ctzll bits) in *.
  assert (64 - Z.of_nat (S fuel) <= c < 64) as Hrange.
  { destruct (decide (c < 64 - Z.of_nat (S fuel) ∨ 64 <= c)) as [Hd|]; [|lia]. by rewrite Hz in Htrue by lia. }
  replace (bit_rows i bits (64 - Z.of_nat (S fuel)) (Z.of_nat (S fuel))) with (bit_rows i bits c (64 - c)).
  2:{ rewrite <- (bit_rows_skip i bits (64 - Z.of_nat (S fuel)) c 64); [f_equal; lia|lia|]. intros k Hk. apply Hlow. lia. }
  rewrite bit_rows_first by (done || lia). f_equal.
  rewrite IH.
  - rewrite (bit_rows_ext i bits (Z.land bits (bits - 1)) (c + 1)).
    2:{ intros k Hk. rewrite Hclear, (proj2 (Z.eqb_neq k c)) by lia. by rewrite andb_true_r. }
    replace (64 - c - 1) with (64 - (c + 1)) by lia.
    rewrite <- (bit_rows_skip i _ (64 - Z.of_nat fuel) (c + 1) 64); [f_equal; lia|lia|].
    intros k Hk. rewrite Hclear by lia. destruct (decide (k = c)) as [->|]; [by rewrite Z.eqb_refl, andb_false_r|].
    rewrite Hlow by lia. done.
  - lia.
  - apply Z.land_nonneg. lia.
  - intros k Hk Hout. rewrite Hclear by done. destruct (decide (k = c)) as [->|]; [by rewrite Z.eqb_refl, andb_false_r|].
    destruct (decide (k < c)); [by rewrite Hlow by lia|]. by rewrite Hz by lia.
Qed.

(** Bytes, least significant first, as one word. *)
Lemma mask_word_from bytes j bits k : 0 <= j → 0 <= k → (∀ x, x ∈ bytes → 0 <= x < 2 ^ 8) →
  Z.testbit (foldl (λ bits b, Z.lor bits (Z.shiftl b.2 (b.1 * 8))) bits (number j bytes)) k =
  Z.testbit bits k || (j * 8 <=? k) && Z.testbit (default 0 (bytes !! Z.to_nat (k / 8 - j))) (k mod 8).
Proof.
  revert j bits. induction bytes as [|b bytes IH]; intros j bits Hj Hk Hb; cbn [number foldl fst snd].
  { simpl. by rewrite Z.testbit_0_l, andb_false_r, orb_false_r. }
  rewrite IH by (lia || (intros x Hx; apply Hb; by right)).
  rewrite Z.lor_spec, Z.shiftl_spec by lia. rewrite <- orb_assoc. f_equal.
  assert (0 <= b < 2 ^ 8) as Hbyte by (apply Hb; by left).
  pose proof (Z.div_mod k 8). pose proof (Z.mod_pos_bound k 8).
  destruct (Z.leb_spec ((j + 1) * 8) k), (Z.leb_spec (j * 8) k); try lia; cbn [andb].
  - replace (Z.to_nat (k / 8 - j)) with (S (Z.to_nat (k / 8 - (j + 1)))) by lia. cbn [lookup list_lookup].
    rewrite <- (Z.mod_small b (2 ^ 8)), Z.mod_pow2_bits_high by lia. done.
  - replace (Z.to_nat (k / 8 - j)) with 0%nat by lia. cbn [lookup list_lookup default from_option]. rewrite orb_false_r.
    f_equal. lia.
  - by rewrite Z.testbit_neg_r by lia.
Qed.

Lemma mask_word_nonneg bytes : (∀ x, x ∈ bytes → 0 <= x < 2 ^ 8) → 0 <= mask_word bytes.
Proof.
  intros H. unfold mask_word.
  enough (∀ j bits, 0 <= bits → 0 <= foldl (λ bits b, Z.lor bits (Z.shiftl b.2 (b.1 * 8))) bits (number j bytes)) as He by by apply He.
  induction bytes as [|b bytes IH]; intros j bits Hb; simpl; [done|]. apply IH; [intros x Hx; apply H; by right|].
  apply Z.lor_nonneg. split; [done|]. apply Z.shiftl_nonneg. by destruct (H b) as [? _]; [left|].
Qed.

Lemma bits_below w n : 0 <= w → 0 <= n → (∀ k, n <= k → Z.testbit w k = false) → w < 2 ^ n.
Proof.
  intros Hw Hn Hb. assert (w mod 2 ^ n = w) as <-; [|by apply Z.mod_pos_bound, Z.pow_pos_nonneg].
  apply Z.bits_inj'. intros k Hk. destruct (decide (k < n)); [by rewrite Z.mod_pow2_bits_low by lia|].
  rewrite Z.mod_pow2_bits_high, Hb by lia. done.
Qed.

Lemma mask_word_bit bytes k : 0 <= k → (∀ x, x ∈ bytes → 0 <= x < 2 ^ 8) →
  Z.testbit (mask_word bytes) k = Z.testbit (default 0 (bytes !! Z.to_nat (k / 8))) (k mod 8).
Proof.
  intros Hk Hb. unfold mask_word. rewrite mask_word_from by done. rewrite Z.testbit_0_l, (proj2 (Z.leb_le _ _)) by lia.
  simpl. by rewrite Z.sub_0_r.
Qed.

Lemma rows_of_bits i (f : Z → bool) (g : Z → Z → option Z) data a :
  (∀ k x, data !! k = Some x → g (i + Z.of_nat k) x = if f (a + Z.of_nat k) then Some (i + Z.of_nat k) else None) →
  omap (λ k, if f k then Some (i - a + k) else None) (seqZ a (Z.of_nat (length data))) = omap (λ p, g p.1 p.2) (number i data).
Proof.
  revert i a. induction data as [|x data IH]; intros i a H; [done|].
  rewrite seqZ_cons by (simpl; lia). cbn [number omap list_omap]. cbn [fst snd].
  pose proof (H 0%nat x eq_refl) as H0. rewrite Z.add_0_r, Z.add_0_r in H0. rewrite H0.
  replace (Z.pred (Z.of_nat (length (x :: data)))) with (Z.of_nat (length data)) by (simpl; lia).
  replace (i - a + a) with i by lia.
  specialize (IH (i + 1) (Z.succ a)). rewrite <- IH.
  - replace (i + 1 - Z.succ a) with (i - a) by lia. by destruct (f a).
  - intros k y Hk. specialize (H (S k) y Hk). replace (i + Z.of_nat (S k)) with (i + 1 + Z.of_nat k) in H by lia.
    by replace (a + Z.of_nat (S k)) with (Z.succ a + Z.of_nat k) in H by lia.
Qed.

Section FilterFacts.
Context {V : Simd} {HV : SimdLaws V}.

Lemma lanes_max : (Lanes <= 64)%nat.
Proof.
  destruct lanes_pow as (k & Hk & ->). change 64%nat with (2 ^ 6)%nat. by apply Nat.pow_le_mono_r.
Qed.

(** The bits of one comparison. *)
Lemma compare_bits threshold data k : (Lanes <= length data)%nat → 0 <= k →
  Z.testbit (mask_word (GtMask (LoadU data) (Set_ threshold))) k =
  (k <? Z.of_nat Lanes) && (threshold <? default 0 (data !! Z.to_nat k)).
Proof.
  intros Hl Hk. rewrite mask_word_bit; [|done|by intros x; apply mask_byte].
  replace (Z.to_nat (k / 8)) with (Z.to_nat k / 8)%nat by (rewrite Z2Nat.inj_div by lia; done).
  replace (k mod 8) with (Z.of_nat (Z.to_nat k mod 8)) by (rewrite Nat2Z.inj_mod, Z2Nat.id by lia; done).
  destruct (Z.ltb_spec k (Z.of_nat Lanes)).
  - rewrite mask_bit by lia. rewrite lane_set, lane_load by done. rewrite lookup_replicate_2 by lia.
    by rewrite lookup_take_lt by lia.
  - by rewrite mask_rest by lia.
Qed.

Lemma compare_word threshold data : (Lanes <= length data)%nat →
  0 <= mask_word (GtMask (LoadU data) (Set_ threshold)) < 2 ^ Z.of_nat Lanes.
Proof.
  intros Hl. assert (0 <= mask_word (GtMask (LoadU data) (Set_ threshold))) as Hn.
  { apply mask_word_nonneg. intros x. apply mask_byte. }
  split; [done|]. apply bits_below; [done|lia|]. intros k Hk. rewrite compare_bits by lia.
  by rewrite (proj2 (Z.ltb_ge _ _)) by done.
Qed.

(** The rows of one vector. *)
Lemma compare_rows threshold i data : (Lanes <= length data)%nat →
  bit_loop 64 i (mask_word (GtMask (LoadU data) (Set_ threshold))) =
  omap (λ p, if threshold <? p.2 then Some p.1 else None) (number i (take Lanes data)).
Proof.
  intros Hl. pose proof lanes_max. pose proof (compare_word threshold data Hl) as Hw.
  rewrite bit_loop_spec; [|done|lia|].
  2:{ intros k Hk [?|?]; [lia|]. rewrite compare_bits by done. by rewrite (proj2 (Z.ltb_ge _ _)) by lia. }
  rewrite <- (rows_of_bits i (Z.testbit (mask_word (GtMask (LoadU data) (Set_ threshold)))) (λ j x, if threshold <? x then Some j else None)
    (take Lanes data) 0).
  - rewrite length_take_le by done. unfold bit_rows. change (64 - Z.of_nat 64) with 0. change (Z.of_nat 64) with 64.
    replace 64 with (Z.of_nat Lanes + (64 - Z.of_nat Lanes)) by lia. rewrite seqZ_app, omap_app by lia.
    rewrite (omap_none _ (seqZ (0 + _) _)), app_nil_r.
    + apply list_omap_ext, Forall2_same_length_lookup_2; [done|]. intros j x y Hx Hy. rewrite Hx in Hy. simplify_eq.
      by rewrite Z.sub_0_r.
    + intros k Hk%elem_of_seqZ. rewrite compare_bits by lia. by rewrite (proj2 (Z.ltb_ge _ _)) by lia.
  - intros k x Hk. rewrite lookup_take_Some in Hk. destruct Hk as [Hk Hlt]. rewrite compare_bits, Z.add_0_l by lia.
    rewrite (proj2 (Z.ltb_lt (Z.of_nat k) _)), Nat2Z.id, Hk by lia. done.
Qed.

Lemma number_app {A} i (l k : list A) : number i (l ++ k) = number i l ++ number (i + Z.of_nat (length l)) k.
Proof.
  revert i. induction l as [|x l IH]; intros i; cbn [number app length]; [by rewrite Z.add_0_r|].
  rewrite IH. do 3 f_equal. lia.
Qed.

Lemma filter_loop_spec fuel threshold i data : 0 <= i → i + Z.of_nat (length data) <= 2 ^ 32 → (length data < fuel)%nat →
  filter_loop fuel threshold i data = omap (λ p, if threshold <? p.2 then Some p.1 else None) (number i data).
Proof.
  pose proof lanes_positive as Hpos. revert i data. induction fuel as [|fuel IH]; intros i data Hi Hb Hf; [lia|]. cbn [filter_loop].
  assert (∀ j (l : list Z), 0 <= j → j + Z.of_nat (length l) <= 2 ^ 32 →
    wrap 32 <$> omap (λ p, if threshold <? p.2 then Some p.1 else None) (number j l) =
    omap (λ p, if threshold <? p.2 then Some p.1 else None) (number j l)) as Hwrap.
  { intros j l. revert j. induction l as [|x l IHl]; intros j Hj Hl; [done|]. cbn [number omap list_omap length] in *.
    cbn [fst snd]. destruct (threshold <? x); rewrite ?fmap_cons, IHl by lia; [|done]. by rewrite wrap_small by lia. }
  destruct (Nat.leb_spec Lanes (length data)) as [Hle|Hgt].
  - rewrite compare_rows by done. rewrite Hwrap, IH by (rewrite ?length_drop, ?length_take; lia).
    rewrite <- (take_drop Lanes data) at 3. by rewrite number_app, omap_app, length_take_le by done.
  - rewrite <- Hwrap by done. rewrite list_fmap_omap. apply list_omap_ext, Forall2_same_length_lookup_2; [done|].
    intros j x y Hx Hy. rewrite Hx in Hy. simplify_eq. by destruct (_ <? _).
Qed.

Lemma filter_exact threshold data : Z.of_nat (length data) <= 2 ^ 32 → filter_gt_i64 data threshold = rows_above threshold data.
Proof. intros H. unfold filter_gt_i64, rows_above. apply filter_loop_spec; lia. Qed.

(** *** Bit masks *)

(** The bit of a row in the words. *)
Definition word_bit (words : list Z) (j : Z) : bool := Z.testbit (default 0 (words !! Z.to_nat (j / 64))) (j mod 64).

Lemma or_word_bit words i x j : 0 <= j →
  word_bit (or_word i x words) j =
  word_bit words j || bool_decide (Z.to_nat (j / 64) = i ∧ (i < length words)%nat) && Z.testbit x (j mod 64).
Proof.
  intros Hj. unfold word_bit, or_word. destruct (decide (Z.to_nat (j / 64) = i)) as [<-|Hne].
  - rewrite list_lookup_alter_eq. destruct (words !! _) as [w|] eqn:Hw; simpl.
    + rewrite Z.lor_spec, bool_decide_true by (split; [done|by eapply lookup_lt_Some]). done.
    + apply lookup_ge_None in Hw. rewrite bool_decide_false by lia. by rewrite orb_false_r.
  - rewrite list_lookup_alter_ne by done. rewrite bool_decide_false by tauto. by rewrite orb_false_r.
Qed.

Lemma or_word_one words p j : 0 <= p → 0 <= j → p < 64 * Z.of_nat (length words) →
  word_bit (or_word (Z.to_nat (Z.shiftr p 6)) (Z.shiftl 1 (Z.land p 63)) words) j = word_bit words j || (j =? p).
Proof.
  intros Hp Hj Hl. rewrite or_word_bit by done. f_equal. change 63 with (Z.ones 6). rewrite Z.land_ones by lia.
  rewrite Z.shiftr_div_pow2 by lia. change (2 ^ 6) with 64. pose proof (Z.div_mod p 64). pose proof (Z.mod_pos_bound p 64).
  pose proof (Z.div_mod j 64). pose proof (Z.mod_pos_bound j 64).
  rewrite Z.shiftl_1_l, Z.pow2_bits_eqb by lia. destruct (Z.eqb_spec j p) as [->|Hne].
  - rewrite bool_decide_true, Z.eqb_refl by (split; [done|lia]). done.
  - destruct (Z.eqb_spec (p mod 64) (j mod 64)); [|by rewrite andb_false_r].
    rewrite bool_decide_false; [done|]. intros [? _]. apply Hne. lia.
Qed.

Lemma length_or_word i x words : length (or_word i x words) = length words.
Proof. apply length_alter. Qed.

(** The rows from [p] on that are above the threshold. *)
Definition above_bit (threshold p : Z) (data : list Z) (j : Z) : bool :=
  (p <=? j) && match data !! Z.to_nat (j - p) with Some x => threshold <? x | None => false end.

Lemma scalar_bits threshold p data words j : 0 <= p → 0 <= j → p + Z.of_nat (length data) <= 64 * Z.of_nat (length words) →
  word_bit (foldl (λ ws q, if threshold <? q.2 then or_word (Z.to_nat (Z.shiftr q.1 6)) (Z.shiftl 1 (Z.land q.1 63)) ws else ws)
    words (number p data)) j = word_bit words j || above_bit threshold p data j.
Proof.
  revert p words. induction data as [|x data IH]; intros p words Hp Hj Hl; cbn [number foldl fst snd length] in *.
  { unfold above_bit. by rewrite lookup_nil, andb_false_r, orb_false_r. }
  assert (∀ ws, length ws = length words → word_bit ws j = word_bit words j || (j =? p) && (threshold <? x) →
    word_bit (foldl (λ ws q, if threshold <? q.2 then or_word (Z.to_nat (Z.shiftr q.1 6)) (Z.shiftl 1 (Z.land q.1 63)) ws else ws)
    ws (number (p + 1) data)) j = word_bit words j || above_bit threshold p (x :: data) j) as Hstep.
  { intros ws Hlen Hws. rewrite IH by (rewrite ?Hlen; lia). rewrite Hws, <- orb_assoc. f_equal. unfold above_bit.
    destruct (Z.eqb_spec j p) as [->|Hne].
    - rewrite Z.sub_diag, (proj2 (Z.leb_gt _ _)), Z.leb_refl by lia. simpl. by rewrite orb_false_r.
    - simpl. destruct (Z.leb_spec (p + 1) j), (Z.leb_spec p j); try (lia || done).
      by replace (Z.to_nat (j - p)) with (S (Z.to_nat (j - (p + 1)))) by lia. }
  destruct (threshold <? x) eqn:Hx; apply Hstep.
  - apply length_or_word.
  - rewrite or_word_one by lia. by rewrite andb_true_r.
  - done.
  - by rewrite andb_false_r, orb_false_r.
Qed.

Lemma bitmask_loop_spec fuel threshold p data words j :
  0 <= p → p mod Z.of_nat Lanes = 0 → 0 <= j → p + Z.of_nat (length data) <= 64 * Z.of_nat (length words) →
  (length data < fuel)%nat →
  word_bit (bitmask_loop fuel threshold p data words) j = word_bit words j || above_bit threshold p data j.
Proof.
  pose proof lanes_positive as Hpos. pose proof lanes_max as Hmax.
  assert (64 mod Z.of_nat Lanes = 0) as Hdiv.
  { destruct lanes_pow as (k & Hk & ->). rewrite Nat2Z.inj_pow. change (Z.of_nat 2) with 2.
    replace 64 with (2 ^ (6 - Z.of_nat k) * 2 ^ Z.of_nat k); [apply Z_mod_mult|]. rewrite <- Z.pow_add_r by lia.
    by replace (6 - Z.of_nat k + Z.of_nat k) with 6 by lia. }
  revert p data words. induction fuel as [|fuel IH]; intros p data words Hp Hm Hj Hl Hf; [lia|]. cbn [bitmask_loop].
  destruct (Nat.leb_spec Lanes (length data)) as [Hle|Hgt]; [|by apply scalar_bits].
  set (N := Z.of_nat Lanes) in *. assert (0 < N <= 64) as HN by lia.
  assert (Z.land p 63 = p mod 64) as Hland by (change 63 with (Z.ones 6); by rewrite Z.land_ones by lia).
  assert (Z.shiftr p 6 = p / 64) as Hshift by (by rewrite Z.shiftr_div_pow2 by lia).
  assert (p mod 64 + N <= 64) as Hfit.
  { apply Z.mod_divide in Hdiv as [r Hr]; [|lia]. apply Z.mod_divide in Hm as [q Hq]; [|lia].
    rewrite Hr, Hq. rewrite Z.mul_mod_distr_r by lia. pose proof (Z.mod_pos_bound q r). nia. }
  rewrite Hland, Hshift. pose proof (compare_word threshold data Hle) as Hw.
  pose proof (compare_bits threshold data) as Hbits. revert Hw Hbits.
  generalize (mask_word (GtMask (LoadU data) (Set_ threshold))). intros w Hw Hbits. fold N in Hw.
  assert ((if N <? 64 then Z.land w (Z.shiftl 1 N - 1) else w) = w) as ->.
  { destruct (N <? 64); [|done]. rewrite Z.shiftl_1_l. replace (2 ^ N - 1) with (Z.ones N) by (rewrite Z.ones_equiv; lia).
    rewrite Z.land_ones by lia. by apply Z.mod_small. }
  rewrite (proj2 (Z.ltb_ge 64 _)) by lia.
  rewrite IH by (rewrite ?length_or_word, ?length_drop; try lia; rewrite Z.add_mod, Hm, Z.mod_same by lia; done).
  rewrite or_word_bit by done. rewrite <- orb_assoc. f_equal.
  assert (Z.to_nat (p / 64) < length words)%nat as Hwl.
  { pose proof (Z.div_mod p 64). pose proof (Z.mod_pos_bound p 64). lia. }
  pose proof (Z.div_mod p 64). pose proof (Z.mod_pos_bound p 64). pose proof (Z.div_mod j 64). pose proof (Z.mod_pos_bound j 64).
  assert (2 ^ N <= 2 ^ (64 - p mod 64)) by (apply Z.pow_le_mono_r; lia).
  assert (0 <= Z.shiftl w (p mod 64) < 2 ^ 64) as Hsmall.
  { rewrite Z.shiftl_mul_pow2 by lia. assert (0 < 2 ^ (p mod 64)) by (apply Z.pow_pos_nonneg; lia).
    replace (2 ^ 64) with (2 ^ (64 - p mod 64) * 2 ^ (p mod 64)) by (rewrite <- Z.pow_add_r by lia; f_equal; lia). nia. }
  rewrite wrap_small by done.
  assert (bool_decide (Z.to_nat (j / 64) = Z.to_nat (p / 64) ∧ (Z.to_nat (p / 64) < length words)%nat) = (j / 64 =? p / 64)) as ->.
  { pose proof (Z.div_pos j 64). pose proof (Z.div_pos p 64).
    destruct (Z.eqb_spec (j / 64) (p / 64)); [apply bool_decide_true|apply bool_decide_false]; lia. }
  rewrite Z.shiftl_spec by lia. unfold above_bit.
  destruct (decide (p <= j < p + N)) as [Hin|Hout].
  - assert (j / 64 = p / 64) as Hq by lia. rewrite (proj2 (Z.eqb_eq _ _) Hq). simpl.
    rewrite (proj2 (Z.leb_gt (p + N) j)), (proj2 (Z.leb_le p j)) by lia. rewrite orb_false_r. simpl.
    rewrite Hbits by lia. fold N. rewrite (proj2 (Z.ltb_lt _ N)) by lia. simpl.
    replace (j mod 64 - p mod 64) with (j - p) by lia.
    destruct (data !! Z.to_nat (j - p)) as [x|] eqn:Hx; [done|]. apply lookup_ge_None in Hx. lia.
  - assert ((j / 64 =? p / 64) && Z.testbit w (j mod 64 - p mod 64) = false) as ->.
    { destruct (Z.eqb_spec (j / 64) (p / 64)); [|done]. simpl. destruct (decide (j < p)); [by rewrite Z.testbit_neg_r by lia|].
      rewrite Hbits by lia. fold N. by rewrite (proj2 (Z.ltb_ge _ N)) by lia. }
    simpl. destruct (Z.leb_spec (p + N) j), (Z.leb_spec p j); try (lia || done). simpl.
    rewrite lookup_drop. by replace (Lanes + Z.to_nat (j - (p + N)))%nat with (Z.to_nat (j - p)) by lia.
Qed.

(** A mask holds exactly the rows above the threshold. *)
Lemma bitmask_exact threshold data m j : 0 <= j → Z.of_nat (length data) <= 64 * Z.of_nat (length (bits_ m)) →
  word_bit (bits_ (filter_gt_i64_bitmask data threshold m)) j = above_bit threshold 0 data j.
Proof.
  intros Hj Hl. unfold filter_gt_i64_bitmask. cbn [bits_ mask_rows_].
  rewrite bitmask_loop_spec by (cbn [clear_mask bits_]; rewrite ?length_replicate; lia || done).
  unfold word_bit. cbn [clear_mask bits_]. destruct (replicate _ 0 !! _) as [w|] eqn:Hw.
  - apply lookup_replicate in Hw as [-> _]. simpl. by rewrite Z.testbit_0_l.
  - simpl. by rewrite Z.testbit_0_l.
Qed.

Lemma bitmask_loop_length fuel threshold p data words : length (bitmask_loop fuel threshold p data words) = length words.
Proof.
  revert p data words. induction fuel as [|fuel IH]; intros p data words; cbn [bitmask_loop]; [done|].
  destruct (_ <=? _)%nat.
  - rewrite IH. destruct (64 <? _); by rewrite ?length_or_word.
  - generalize (number p data) as l. intros l. revert words. induction l as [|q l IHl]; intros words; simpl; [done|].
    rewrite IHl. destruct (_ <? _); by rewrite ?length_or_word.
Qed.
End FilterFacts.

(** The rows of the words, in order. *)
Lemma word_rows words i : 0 <= i → Forall (λ w, 0 <= w < 2 ^ 64) words →
  (number i words ≫= λ w, bit_loop 64 (Z.shiftl w.1 6) w.2) =
  omap (λ k, if word_bit words (k - 64 * i) then Some k else None) (seqZ (64 * i) (64 * Z.of_nat (length words))).
Proof.
  revert i. induction words as [|w words IH]; intros i Hi Hw; [done|]. apply Forall_cons in Hw as [Hw Hws].
  cbn [number mbind list_bind]. cbn [fst snd]. rewrite IH by (done || lia).
  replace (64 * Z.of_nat (length (w :: words))) with (64 + 64 * Z.of_nat (length words)) by (simpl; lia).
  rewrite seqZ_app, omap_app by lia. f_equal.
  - rewrite bit_loop_spec; [|done|lia|].
    2:{ intros k Hk [?|?]; [lia|]. rewrite <- (Z.mod_small w (2 ^ 64)), Z.mod_pow2_bits_high by lia. done. }
    unfold bit_rows. change (64 - Z.of_nat 64) with 0. change (Z.of_nat 64) with 64.
    rewrite Z.shiftl_mul_pow2 by lia. change (2 ^ 6) with 64.
    replace (seqZ (64 * i) 64) with (Z.add (64 * i) <$> seqZ 0 64) by (rewrite fmap_add_seqZ; f_equal; lia).
    generalize (seqZ 0 64), (λ k, proj1 (elem_of_seqZ 0 64 k)). intros l Hl.
    induction l as [|k l IHl]; [done|]. cbn [fmap list_fmap omap list_omap].
    rewrite IHl by (intros x Hx; apply Hl; by right). pose proof (Hl k ltac:(by left)).
    replace (64 * i + k - 64 * i) with k by lia. unfold word_bit. rewrite (Z.div_small k), (Z.mod_small k) by lia. simpl.
    by replace (i * 64 + k) with (64 * i + k) by lia.
  - replace (64 * i + 64) with (64 * (i + 1)) by lia. apply list_omap_ext, Forall2_same_length_lookup_2; [done|].
    intros j x y Hx Hy. rewrite Hx in Hy. simplify_eq. apply list_elem_of_lookup_2, elem_of_seqZ in Hx.
    unfold word_bit. replace (y - 64 * i) with (y - 64 * (i + 1) + 1 * 64) by lia.
    rewrite Z.div_add, Z.mod_add by lia. replace (Z.to_nat ((y - 64 * (i + 1)) / 64 + 1)) with (S (Z.to_nat ((y - 64 * (i + 1)) / 64))).
    2:{ pose proof (Z.div_pos (y - 64 * (i + 1)) 64). lia. }
    done.
Qed.

(** The threshold's rows as a function of the row. *)
Lemma rows_above_bits threshold data n : Z.of_nat (length data) <= n →
  omap (λ k, if above_bit threshold 0 data k then Some k else None) (seqZ 0 n) = rows_above threshold data.
Proof.
  intros Hn. replace n with (Z.of_nat (length data) + (n - Z.of_nat (length data))) by lia.
  rewrite seqZ_app, omap_app by lia. rewrite (omap_none _ (seqZ (0 + _) _)).
  2:{ intros k Hk%elem_of_seqZ. unfold above_bit. by rewrite Z.sub_0_r, lookup_ge_None_2, andb_false_r by lia. }
  rewrite app_nil_r. unfold rows_above.
  rewrite <- (rows_of_bits 0 (above_bit threshold 0 data) (λ j x, if threshold <? x then Some j else None) data 0).
  - apply list_omap_ext, Forall2_same_length_lookup_2; [done|]. intros j x y Hx Hy. rewrite Hx in Hy. by simplify_eq.
  - intros k x Hk. unfold above_bit. by rewrite !Z.add_0_l, Z.sub_0_r, Nat2Z.id, Hk, (proj2 (Z.leb_le _ _)) by lia.
Qed.

Lemma or_word_range words i x : Forall (λ w, 0 <= w < 2 ^ 64) words → 0 <= x < 2 ^ 64 →
  Forall (λ w, 0 <= w < 2 ^ 64) (or_word i x words).
Proof.
  intros Hw Hx. apply Forall_alter; [done|]. intros w _ Hr.
  split; [apply Z.lor_nonneg; lia|]. apply bits_below; [apply Z.lor_nonneg; lia|lia|]. intros k Hk. rewrite Z.lor_spec.
  rewrite <- (Z.mod_small w (2 ^ 64)), <- (Z.mod_small x (2 ^ 64)) by lia. by rewrite !Z.mod_pow2_bits_high by lia.
Qed.

Lemma bitmask_loop_range {V : Simd} {HV : SimdLaws V} fuel threshold p data words :
  0 <= p → Forall (λ w, 0 <= w < 2 ^ 64) words → Forall (λ w, 0 <= w < 2 ^ 64) (bitmask_loop fuel threshold p data words).
Proof.
  revert p data words. induction fuel as [|fuel IH]; intros p data words Hp Hw; cbn [bitmask_loop]; [done|].
  destruct (Nat.leb_spec Lanes (length data)) as [Hle|].
  - pose proof (compare_word threshold data Hle) as Hc. pose proof lanes_max. apply IH; [lia|].
    assert (2 ^ Z.of_nat Lanes <= 2 ^ 64) by (apply Z.pow_le_mono_r; lia).
    assert (0 <= (if Z.of_nat Lanes <? 64 then Z.land (mask_word (GtMask (LoadU data) (Set_ threshold))) (Z.shiftl 1 (Z.of_nat Lanes) - 1)
                  else mask_word (GtMask (LoadU data) (Set_ threshold))) < 2 ^ 64) as Hb.
    { destruct (Z.ltb_spec (Z.of_nat Lanes) 64); [|lia]. rewrite Z.shiftl_1_l.
      replace (2 ^ Z.of_nat Lanes - 1) with (Z.ones (Z.of_nat Lanes)) by (rewrite Z.ones_equiv; lia).
      rewrite Z.land_ones, Z.mod_small by lia. lia. }
    destruct (Z.ltb_spec 64 (Z.land p 63 + Z.of_nat Lanes)).
    + apply or_word_range; [apply or_word_range; [done|by apply wrap_range]|].
      rewrite Z.shiftr_div_pow2 by (change 63 with (Z.ones 6); rewrite Z.land_ones by lia; pose proof (Z.mod_pos_bound p (2 ^ 6)); lia).
      split; [apply Z.div_pos|eapply Z.le_lt_trans; [apply Z.div_le_upper_bound|apply Hb]].
      all: change 63 with (Z.ones 6); rewrite ?Z.land_ones by lia; pose proof (Z.mod_pos_bound p (2 ^ 6));
        assert (1 <= 2 ^ (64 - p mod 2 ^ 6)) by (apply (Z.pow_le_mono_r 2 0); lia); nia.
    + apply or_word_range; [done|by apply wrap_range].
  - generalize Hp. intros _. assert (∀ q, q ∈ number p data → 0 <= q.1) as Hq.
    { intros [j x] Hj. apply elem_of_number in Hj. simpl. lia. }
    revert words Hw Hq. generalize (number p data). intros l. induction l as [|q l IHl]; intros words Hw Hq; simpl; [done|].
    apply IHl; [|intros q' Hq'; apply Hq; by right]. destruct (_ <? _); [|done]. apply or_word_range; [done|].
    change 63 with (Z.ones 6). rewrite Z.land_ones, Z.shiftl_1_l by lia. pose proof (Z.mod_pos_bound q.1 (2 ^ 6)).
    split; [apply Z.pow_nonneg; lia|apply Z.pow_lt_mono_r; lia].
Qed.

(** ** What the kernels compute *)

(** However wide the vectors are and however a sum is unrolled, it is the sum of
    the column modulo 2^64: the three summing kernels agree on every input. *)
Theorem sums_agree {V : Simd} {HV : SimdLaws V} data :
  sum_i64 data = i64 (zsum data) ∧ sum_i64_simd_v2 data = i64 (zsum data) ∧ sum_i64_fast data = i64 (zsum data).
Proof.
  split_and!; [apply sum_simd_exact|apply sum_simd_v2_exact|]. unfold sum_i64_fast. by rewrite sum_fast_loop_spec.
Qed.

Lemma selected_sum data rows : sum_i64_selected data rows = i64 (zsum ((λ i, default 0 (data !! Z.to_nat i)) <$> rows)).
Proof.
  unfold sum_i64_selected. rewrite <- (Z.add_0_l (zsum _)), <- fold_i64. change (i64 0) with 0.
  enough (∀ t, foldl (λ t i, i64 (t + default 0 (data !! Z.to_nat i))) t rows =
    foldl (λ s x, i64 (s + x)) t ((λ i, default 0 (data !! Z.to_nat i)) <$> rows)) as H by apply H.
  induction rows as [|r rows IH]; intros t; simpl; [done|]. apply IH.
Qed.

Lemma masked_sum data m : sum_i64_masked data m = sum_i64_selected data (number 0 (bits_ m) ≫= λ w, bit_loop 64 (Z.shiftl w.1 6) w.2).
Proof.
  unfold sum_i64_masked, sum_i64_selected. generalize (number 0 (bits_ m)). intros ws.
  enough (∀ t, foldl (λ t w, foldl (λ t row, i64 (t + default 0 (data !! Z.to_nat row))) t (bit_loop 64 (Z.shiftl w.1 6) w.2)) t ws =
    foldl (λ t i, i64 (t + default 0 (data !! Z.to_nat i))) t (ws ≫= λ w, bit_loop 64 (Z.shiftl w.1 6) w.2)) as H by apply H.
  induction ws as [|w ws IH]; intros t; [done|].
  cbn [mbind list_bind foldl]. rewrite foldl_app. apply IH.
Qed.

(** C40. The two ways to filter a column agree with the reference. The index kernel
    returns the rows above the threshold, in order; the mask kernel sets exactly
    their bits; and summing the selection or the mask gives the same sum of their
    values. *)
Theorem filters_agree {V : Simd} {HV : SimdLaws V} threshold data :
  Z.of_nat (length data) <= 2 ^ 32 →
  let m := filter_gt_i64_bitmask data threshold (new_mask (Z.of_nat (length data))) in
  let sum := i64 (zsum ((λ i, default 0 (data !! Z.to_nat i)) <$> rows_above threshold data)) in
  filter_gt_i64 data threshold = rows_above threshold data ∧
  (∀ j, 0 <= j → test_bit m j = bool_decide (j ∈ rows_above threshold data)) ∧
  sum_i64_selected data (filter_gt_i64 data threshold) = sum ∧ sum_i64_masked data m = sum.
Proof.
  intros Hlen m sum. rewrite filter_exact by done.
  assert (64 * Z.of_nat (length (bits_ (new_mask (Z.of_nat (length data))))) >= Z.of_nat (length data)) as Hwords.
  { unfold new_mask. cbn [bits_]. rewrite length_replicate. pose proof (Z.div_mod (Z.of_nat (length data) + 63) 64).
    pose proof (Z.mod_pos_bound (Z.of_nat (length data) + 63) 64). lia. }
  split_and!; [done| | |].
  - intros j Hj. transitivity (word_bit (bits_ m) j).
    { unfold test_bit, word_bit. change 63 with (Z.ones 6). by rewrite Z.land_ones, Z.shiftr_div_pow2 by lia. }
    subst m. rewrite bitmask_exact by lia. unfold above_bit, rows_above. rewrite (proj2 (Z.leb_le _ _)), Z.sub_0_r by lia. cbn [andb].
    symmetry. destruct (data !! Z.to_nat j) as [x|] eqn:Hx; [destruct (threshold <? x) eqn:Ht|].
    + apply bool_decide_true, list_elem_of_omap. exists (j, x). rewrite elem_of_number, Z.sub_0_r. simpl. by rewrite Ht.
    + apply bool_decide_false. intros ([j' y] & Hin & Hy)%list_elem_of_omap. apply elem_of_number in Hin. rewrite Z.sub_0_r in Hin.
      simpl in Hy. destruct Hin as [_ Hin]. destruct (threshold <? y) eqn:Hty; simplify_eq. congruence.
    + apply bool_decide_false. intros ([j' y] & Hin & Hy)%list_elem_of_omap. apply elem_of_number in Hin. rewrite Z.sub_0_r in Hin.
      simpl in Hy. destruct Hin as [_ Hin]. by destruct (threshold <? y); simplify_eq.
  - apply selected_sum.
  - rewrite masked_sum, selected_sum. subst m. unfold sum. do 2 f_equal. f_equal.
    rewrite word_rows; [|done|].
    2:{ unfold filter_gt_i64_bitmask. cbn [bits_]. apply bitmask_loop_range; [done|]. unfold clear_mask. cbn [bits_].
        by apply Forall_replicate. }
    rewrite <- (rows_above_bits threshold data (64 * Z.of_nat (length (bits_ (filter_gt_i64_bitmask data threshold (new_mask (Z.of_nat (length data)))))))).
    + change (64 * 0) with 0. apply list_omap_ext, Forall2_same_length_lookup_2; [done|]. intros j x y Hx Hy. rewrite Hx in Hy. simplify_eq.
      apply list_elem_of_lookup_2, elem_of_seqZ in Hx. by rewrite Z.sub_0_r, bitmask_exact by lia.
    + unfold filter_gt_i64_bitmask. cbn [bits_]. rewrite bitmask_loop_length. unfold clear_mask. cbn [bits_].
      rewrite length_replicate. lia.
Qed.

(** ** A machine with four lanes *)

Definition bit_of (b : bool) (i : Z) : Z := if b then 2 ^ i else 0.

Record vec4 : Type := mkVec4 { v0 : Z; v1 : Z; v2 : Z; v3 : Z }.
Definition lane4 (v : vec4) : list Z := [v0 v; v1 v; v2 v; v3 v].

#[export] Instance four_lanes : Simd := {|
  vec := vec4;
  Lanes := 4;
  Zero := mkVec4 0 0 0 0;
  Set_ x := mkVec4 x x x x;
  LoadU l := mkVec4 (default 0 (l !! 0%nat)) (default 0 (l !! 1%nat)) (default 0 (l !! 2%nat)) (default 0 (l !! 3%nat));
  Add a b := mkVec4 (i64 (v0 a + v0 b)) (i64 (v1 a + v1 b)) (i64 (v2 a + v2 b)) (i64 (v3 a + v3 b));
  GtMask a b := [bit_of (v0 b <? v0 a) 0 + bit_of (v1 b <? v1 a) 1 + bit_of (v2 b <? v2 a) 2 + bit_of (v3 b <? v3 a) 3];
  ReduceSum v := i64 (v0 v + (v1 v + (v2 v + (v3 v + 0))));
|}.

#[export] Instance four_lanes_laws : SimdLaws four_lanes.
Proof.
  refine {| lane := lane4 |}; cbn -[Nat.div Nat.modulo Z.pow].
  - exists 2%nat. split; [lia|done].
  - done.
  - done.
  - done.
  - by intros [|a [|b [|c [|d l]]]] H; simpl in H; try lia.
  - by intros [] [].
  - done.
  - intros [a0 a1 a2 a3] [b0 b1 b2 b3] x ->%list_elem_of_singleton. simpl.
    by destruct (b0 <? a0), (b1 <? a1), (b2 <? a2), (b3 <? a3).
  - intros [a0 a1 a2 a3] [b0 b1 b2 b3] [|[|[|[|i]]]] Hi; simpl; try lia;
      by destruct (b0 <? a0), (b1 <? a1), (b2 <? a2), (b3 <? a3).
  - intros [a0 a1 a2 a3] [b0 b1 b2 b3] i Hi. destruct (decide (i < 8)%nat) as [Hlt|Hge].
    + do 8 (destruct i as [|i]; [try lia; simpl; by destruct (b0 <? a0), (b1 <? a1), (b2 <? a2), (b3 <? a3)|]). lia.
    + assert (i / 8 = S (pred (i / 8)))%nat as ->; [|simpl; by rewrite Z.testbit_0_l].
      pose proof (Nat.div_le_mono 8 i 8). change (8 / 8)%nat with 1%nat in *. lia.
  - done.
Defined.

Lemma sums_agree_witness :
  sum_i64 [1; 2; 3; 4; 5; INT64_MAX] = i64 (zsum [1; 2; 3; 4; 5; INT64_MAX]) ∧
  sum_i64_simd_v2 [1; 2; 3; 4; 5; INT64_MAX] = i64 (zsum [1; 2; 3; 4; 5; INT64_MAX]) ∧
  sum_i64_fast [1; 2; 3; 4; 5; INT64_MAX] = i64 (zsum [1; 2; 3; 4; 5; INT64_MAX]).
Proof. apply (sums_agree (V := four_lanes)). Defined.

Lemma filters_agree_witness :
  let data := [5; 1; 7; 9; -3; 8] in
  let m := filter_gt_i64_bitmask data 6 (new_mask (Z.of_nat (length data))) in
  let sum := i64 (zsum ((λ i, default 0 (data !! Z.to_nat i)) <$> rows_above 6 data)) in
  filter_gt_i64 data 6 = rows_above 6 data ∧
  (∀ j, 0 <= j → test_bit m j = bool_decide (j ∈ rows_above 6 data)) ∧
  sum_i64_selected data (filter_gt_i64 data 6) = sum ∧ sum_i64_masked data m = sum.
Proof. apply (filters_agree (V := four_lanes) 6 [5; 1; 7; 9; -3; 8]). by vm_compute. Defined.

Example filters_agree_value : filter_gt_i64 [5; 1; 7; 9; -3; 8] 6 = [2; 3; 5] ∧ sum_i64_fast [INT64_MAX; 1] = INT64_MIN.
Proof. by vm_compute. Qed.
