(* ===== verification/RingBuffer.v ===== *)
(** * The lock-free tick queue

    Models [include/zeptodb/ingestion/ring_buffer.h] ([MPMCRingBufferDynamic];
    [MPMCRingBuffer] is the same code with a compile-time capacity) and
    [src/ingestion/tick_plant.cpp]. The two operations are functions for the
    calls that run alone, and a step relation, one step per atomic access, for
    producers and consumers that interleave. Positions are [size_t] and wrap
    modulo 2^64. *)

From stdpp Require Import base list relations strings.
From Stdlib Require Import ZArith Lia.
From S2P Require Import Prelude.

Open Scope Z_scope.

Inductive SlotState : Type := EMPTY | WRITING | READY | READING.

Record Slot (T : Type) : Type := mkSlot {
  state : SlotState;
  data : option T; (** [None] before the first write *)
}.
Arguments mkSlot {T} _ _.
Arguments state {T} _.
Arguments data {T} _.

Record Ring (T : Type) : Type := mkRing {
  capacity_ : Z;
  mask_ : Z;
  write_pos_ : Z;
  read_pos_ : Z;
  slots_ : list (Slot T);
}.
Arguments mkRing {T} _ _ _ _ _.
Arguments capacity_ {T} _.
Arguments mask_ {T} _.
Arguments write_pos_ {T} _.
Arguments read_pos_ {T} _.
Arguments slots_ {T} _.

Section Ring.
Context {T : Type}.
Implicit Types (r : Ring T) (s : Slot T) (x : T) (l : list T).

Definition make_ring (capacity : Z) : outcome (Ring T) :=
  if (capacity =? 0) || negb (Z.land capacity (capacity - 1) =? 0)
  then Thrown "MPMCRingBufferDynamic capacity must be a power of two > 0"
  else Returned (mkRing capacity (capacity - 1) 0 0 (replicate (Z.to_nat capacity) (mkSlot EMPTY None))).

(** [slots_[pos & mask_]] *)
Definition slot_index r (pos : Z) : nat := Z.to_nat (Z.land pos (mask_ r)).
Definition set_slot r (i : nat) s : Ring T :=
  mkRing (capacity_ r) (mask_ r) (write_pos_ r) (read_pos_ r) (<[i := s]> (slots_ r)).
Definition advance_write r : Ring T :=
  mkRing (capacity_ r) (mask_ r) (u64 (write_pos_ r + 1)) (read_pos_ r) (slots_ r).
Definition advance_read r : Ring T :=
  mkRing (capacity_ r) (mask_ r) (write_pos_ r) (u64 (read_pos_ r + 1)) (slots_ r).

Definition try_push r x : bool * Ring T :=
  let i := slot_index r (write_pos_ r) in
  let r := advance_write r in
  match slots_ r !! i with
  | Some (mkSlot EMPTY _) => (true, set_slot r i (mkSlot READY (Some x)))
  | _ => (false, r)
  end.

Definition try_pop r : option T * Ring T :=
  let i := slot_index r (read_pos_ r) in
  match slots_ r !! i with
  | Some (mkSlot READY d) => (d, set_slot (advance_read r) i (mkSlot EMPTY d))
  | _ => (None, r)
  end.

Definition approx_size r : Z :=
  if read_pos_ r <=? write_pos_ r then write_pos_ r - read_pos_ r else 0.

(** ** Interleaved producers and consumers

    A thread runs one call. The positions it has loaded may be out of date. *)
Inductive rthread : Type :=
  | PushStart (x : T)
  | PushAt (x : T) (i : nat)      (** the position is taken *)
  | PushWriting (x : T) (i : nat) (** the slot is claimed *)
  | PushWritten (x : T) (i : nat) (** the data is stored *)
  | PushDone (x : T) (ok : bool)
  | PopStart
  | PopAt (i : nat)
  | PopClaimed (i : nat)
  | PopAdvanced (i : nat)
  | PopRead (i : nat) (d : option T)
  | PopDone (d : option T).

(** A state: the ring, and a thread per call. *)
Inductive ring_step : relation (Ring T * list rthread) :=
  | push_position j x r ts :
      ts !! j = Some (PushStart x) →
      ring_step (r, ts) (advance_write r, <[j := PushAt x (slot_index r (write_pos_ r))]> ts)
  | push_claim j x i d r ts :
      ts !! j = Some (PushAt x i) → slots_ r !! i = Some (mkSlot EMPTY d) →
      ring_step (r, ts) (set_slot r i (mkSlot WRITING d), <[j := PushWriting x i]> ts)
  | push_full j x i s r ts :
      ts !! j = Some (PushAt x i) → slots_ r !! i = Some s → state s ≠ EMPTY →
      ring_step (r, ts) (r, <[j := PushDone x false]> ts)
  | push_write j x i s r ts :
      ts !! j = Some (PushWriting x i) → slots_ r !! i = Some s →
      ring_step (r, ts) (set_slot r i (mkSlot (state s) (Some x)), <[j := PushWritten x i]> ts)
  | push_ready j x i s r ts :
      ts !! j = Some (PushWritten x i) → slots_ r !! i = Some s →
      ring_step (r, ts) (set_slot r i (mkSlot READY (data s)), <[j := PushDone x true]> ts)
  | pop_position j r ts :
      ts !! j = Some PopStart →
      ring_step (r, ts) (r, <[j := PopAt (slot_index r (read_pos_ r))]> ts)
  | pop_claim j i d r ts :
      ts !! j = Some (PopAt i) → slots_ r !! i = Some (mkSlot READY d) →
      ring_step (r, ts) (set_slot r i (mkSlot READING d), <[j := PopClaimed i]> ts)
  | pop_none j i s r ts :
      ts !! j = Some (PopAt i) → slots_ r !! i = Some s → state s ≠ READY →
      ring_step (r, ts) (r, <[j := PopDone None]> ts)
  | pop_advance j i r ts :
      ts !! j = Some (PopClaimed i) →
      ring_step (r, ts) (advance_read r, <[j := PopAdvanced i]> ts)
  | pop_read j i s r ts :
      ts !! j = Some (PopAdvanced i) → slots_ r !! i = Some s →
      ring_step (r, ts) (r, <[j := PopRead i (data s)]> ts)
  | pop_free j i d s r ts :
      ts !! j = Some (PopRead i d) → slots_ r !! i = Some s →
      ring_step (r, ts) (set_slot r i (mkSlot EMPTY (data s)), <[j := PopDone d]> ts).
End Ring.
Arguments rthread : clear implicits.

(** ** TickPlant *)

Record TickMessage : Type := mkTick {
  seq_num : Z;
  recv_ts : Z;
  symbol_id : Z;
  price : Z; (** the 8 bytes of the union *)
  volume : Z;
  msg_type : Z;
  price_is_float : Z;
  tick_table_id : Z;
}.

Record TickPlant : Type := mkPlant {
  queue_ : Ring TickMessage;
  seq_counter_ : Z;
}.

Definition new_plant (capacity : Z) : outcome TickPlant :=
  let? q := make_ring capacity in Returned (mkPlant q 0).

(** [now] is the clock's reading. *)
Definition ingest (p : TickPlant) (now : Z) (m : TickMessage) : bool * TickPlant :=
  let m := mkTick (seq_counter_ p) now (symbol_id m) (price m) (volume m) (msg_type m)
    (price_is_float m) (tick_table_id m) in
  let (ok, q) := try_push (queue_ p) m in
  (ok, mkPlant q (u64 (seq_counter_ p + 1))).

Definition consume (p : TickPlant) : option TickMessage * TickPlant :=
  let (d, q) := try_pop (queue_ p) in (d, mkPlant q (seq_counter_ p)).

Definition current_seq (p : TickPlant) : Z := seq_counter_ p.
Definition queue_depth (p : TickPlant) : Z := approx_size (queue_ p).
Definition plant_capacity (p : TickPlant) : Z := capacity_ (queue_ p).

(** ** A queue, as long as no push finds it full *)

Section Fifo.
Context {T : Type}.
Implicit Types (r : Ring T) (x : T) (l : list T).

(** The ring holds the queue [l], whose head is the [R]-th item ever pushed. *)
Record holds r (R : Z) l : Prop := {
  h_pow : ∃ k, 0 <= k <= 63 ∧ capacity_ r = 2 ^ k;
  h_mask : mask_ r = capacity_ r - 1;
  h_slots : Z.of_nat (length (slots_ r)) = capacity_ r;
  h_start : 0 <= R;
  h_read : read_pos_ r = u64 R;
  h_write : write_pos_ r = u64 (R + Z.of_nat (length l));
  h_fits : Z.of_nat (length l) <= capacity_ r;
  h_data : ∀ j, 0 <= j < capacity_ r → ∃ s, slots_ r !! Z.to_nat ((R + j) mod capacity_ r) = Some s ∧
    match l !! Z.to_nat j with Some x => s = mkSlot READY (Some x) | None => state s = EMPTY end;
}.

Lemma holds_capacity r R l : holds r R l → 0 < capacity_ r.
Proof. intros [(k & ? & ->) _ _ _ _ _ _ _]. apply Z.pow_pos_nonneg; lia. Qed.

Lemma slot_index_mod r R l p : holds r R l → slot_index r (u64 p) = Z.to_nat (p mod capacity_ r).
Proof.
  intros [(k & Hk & Hc) Hm _ _ _ _ _ _]. unfold slot_index. rewrite Hm, Hc.
  replace (2 ^ k - 1) with (Z.ones k) by (rewrite Z.ones_equiv; lia).
  rewrite Z.land_ones by lia. f_equal. unfold wrap. apply Z.mod_mod_divide.
  exists (2 ^ (64 - k)). rewrite <- Z.pow_add_r by lia. f_equal. lia.
Qed.

Lemma mod_inj c R i j : 0 <= i < c → 0 <= j < c → (R + i) mod c = (R + j) mod c → i = j.
Proof.
  intros Hi Hj H. assert ((i - j) mod c = 0) as Hd.
  { replace (i - j) with ((R + i) - (R + j)) by lia. by rewrite Zminus_mod, H, Z.sub_diag. }
  apply Z_div_exact_full_2 in Hd; [|lia]. generalize dependent ((i - j) / c). intros q Hd.
  destruct (Z.lt_trichotomy q 0) as [?|[->|?]]; nia.
Qed.

Lemma slot_positions_differ c R i j :
  0 <= i < c → 0 <= j < c → i ≠ j → Z.to_nat ((R + i) mod c) ≠ Z.to_nat ((R + j) mod c).
Proof.
  intros Hi Hj Hne Heq. apply Hne, (mod_inj c R); [done..|].
  pose proof (Z.mod_pos_bound (R + i) c). pose proof (Z.mod_pos_bound (R + j) c). lia.
Qed.

Lemma u64_add p n : u64 (u64 p + n) = u64 (p + n).
Proof. unfold wrap. apply Z.add_mod_idemp_l. lia. Qed.

Lemma try_push_holds r R l x :
  holds r R l → Z.of_nat (length l) < capacity_ r →
  ∃ r', try_push r x = (true, r') ∧ holds r' R (l ++ [x]).
Proof.
  intros Hh Hlt. pose proof (holds_capacity _ _ _ Hh) as Hc. unfold try_push.
  rewrite (h_write _ _ _ Hh), (slot_index_mod r R l) by done.
  destruct (h_data _ _ _ Hh (Z.of_nat (length l))) as ([st d] & Hs & Hst); [lia|].
  rewrite Nat2Z.id, lookup_ge_None_2 in Hst by lia. simpl in Hst. subst st.
  cbn [advance_write slots_]. rewrite Hs. eexists; split; [done|]. destruct Hh as [H1 H2 H3 H4 H5 H6 H7 H8].
  split; simpl; try done.
  - by rewrite length_insert.
  - rewrite H6, u64_add, length_app. simpl. f_equal. lia.
  - rewrite length_app. simpl. lia.
  - intros j Hj. destruct (decide (j = Z.of_nat (length l))) as [->|Hne].
    + eexists. rewrite list_lookup_insert_eq by (by eapply lookup_lt_Some). split; [done|].
      by rewrite Nat2Z.id, list_lookup_middle.
    + rewrite list_lookup_insert_ne by (apply slot_positions_differ; lia).
      destruct (H8 j Hj) as (s & -> & Hst). exists s. split; [done|].
      destruct (decide (j < Z.of_nat (length l))).
      * by rewrite lookup_app_l by lia.
      * rewrite lookup_ge_None_2 in Hst by lia. by rewrite lookup_ge_None_2 by (rewrite length_app; simpl; lia).
Qed.

(** A push that finds the ring full consumes a position all the same. *)
Lemma try_push_full r R l x :
  holds r R l → Z.of_nat (length l) = capacity_ r → try_push r x = (false, advance_write r).
Proof.
  intros Hh Hlt. pose proof (holds_capacity _ _ _ Hh) as Hc. unfold try_push.
  rewrite (h_write _ _ _ Hh), (slot_index_mod r R l) by done. rewrite Hlt.
  destruct (h_data _ _ _ Hh 0) as (s & Hs & Hst); [lia|].
  destruct (lookup_lt_is_Some_2 l (Z.to_nat 0)) as [y Hy]; [lia|]. rewrite Hy in Hst. subst s.
  rewrite Z.add_0_r in Hs.
  replace ((R + capacity_ r) mod capacity_ r) with (R mod capacity_ r); [by cbn [advance_write slots_]; rewrite Hs|].
  rewrite <- (Z.mod_add R 1 (capacity_ r)) by lia. f_equal. lia.
Qed.

Lemma try_pop_holds r R x l :
  holds r R (x :: l) → ∃ r', try_pop r = (Some x, r') ∧ holds r' (R + 1) l.
Proof.
  intros Hh. pose proof (holds_capacity _ _ _ Hh) as Hc. unfold try_pop.
  rewrite (h_read _ _ _ Hh), (slot_index_mod r R (x :: l)) by done.
  destruct (h_data _ _ _ Hh 0) as (s & Hs & Hst); [lia|]. simpl in Hst. subst s.
  rewrite Z.add_0_r in Hs. rewrite Hs. eexists; split; [done|].
  destruct Hh as [H1 H2 H3 H4 H5 H6 H7 H8]. simpl in H6, H7. split; simpl; try done.
  - by rewrite length_insert.
  - lia.
  - by rewrite H5, u64_add.
  - rewrite H6. f_equal. lia.
  - lia.
  - intros j Hj. destruct (decide (j = capacity_ r - 1)) as [->|Hne].
    + replace ((R + 1 + (capacity_ r - 1)) mod capacity_ r) with (R mod capacity_ r)
        by (rewrite <- (Z.mod_add R 1 (capacity_ r)) by lia; f_equal; lia).
      eexists. rewrite list_lookup_insert_eq by (by eapply lookup_lt_Some). split; [done|].
      by rewrite lookup_ge_None_2 by lia.
    + rewrite list_lookup_insert_ne.
      * destruct (H8 (j + 1)) as (s & Hs' & Hst); [lia|].
        replace (R + 1 + j) with (R + (j + 1)) by lia. exists s. split; [done|].
        by replace (Z.to_nat (j + 1)) with (S (Z.to_nat j)) in Hst by lia.
      * replace (R + 1 + j) with (R + (j + 1)) by lia. rewrite <- (Z.add_0_r R) at 1.
        apply slot_positions_differ; lia.
Qed.

Lemma try_pop_empty r R : holds r R [] → try_pop r = (None, r).
Proof.
  intros Hh. pose proof (holds_capacity _ _ _ Hh) as Hc. unfold try_pop.
  rewrite (h_read _ _ _ Hh), (slot_index_mod r R []) by done.
  destruct (h_data _ _ _ Hh 0) as ([st d] & Hs & Hst); [lia|]. rewrite Z.add_0_r in Hs.
  simpl in Hst. subst st. by rewrite Hs.
Qed.

Lemma try_push_capacity r x : capacity_ (try_push r x).2 = capacity_ r.
Proof. unfold try_push. repeat case_match; done. Qed.

Lemma try_pop_capacity r : capacity_ (try_pop r).2 = capacity_ r.
Proof. unfold try_pop. repeat case_match; done. Qed.

(** Calls of a run, and what they answer. *)
Inductive ring_call : Type := CallPush (x : T) | CallPop.
Inductive ring_answer : Type := Pushed (ok : bool) | Popped (d : option T).

Fixpoint run_ring r (calls : list ring_call) : list ring_answer * Ring T :=
  match calls with
  | [] => ([], r)
  | CallPush x :: rest =>
      let (ok, r) := try_push r x in let (ans, r) := run_ring r rest in (Pushed ok :: ans, r)
  | CallPop :: rest =>
      let (d, r) := try_pop r in let (ans, r) := run_ring r rest in (Popped d :: ans, r)
  end.

(** A bounded queue; [None] when a push finds it full. *)
Fixpoint run_queue (capacity : Z) l (calls : list ring_call) : option (list ring_answer * list T) :=
  match calls with
  | [] => Some ([], l)
  | CallPush x :: rest =>
      if Z.of_nat (length l) <? capacity
      then '(ans, l) ← run_queue capacity (l ++ [x]) rest; Some (Pushed true :: ans, l)
      else None
  | CallPop :: rest =>
      '(ans, l') ← run_queue capacity (tail l) rest; Some (Popped (head l) :: ans, l')
  end.

Lemma run_ring_holds r R l calls ans l' :
  holds r R l → run_queue (capacity_ r) l calls = Some (ans, l') →
  ∃ r' R', run_ring r calls = (ans, r') ∧ holds r' R' l'.
Proof.
  revert r R l ans. induction calls as [|[x|] calls IH]; intros r R l ans Hh Hq; simpl in *.
  - simplify_eq. by exists r, R.
  - destruct (Z.ltb_spec (Z.of_nat (length l)) (capacity_ r)); [|done].
    destruct (run_queue _ _ _) as [[ans' l'']|] eqn:Hq'; simplify_option_eq.
    destruct (try_push_holds r R l x) as (r' & Hp & Hh'); [done..|].
    pose proof (try_push_capacity r x) as Hc. rewrite Hp in *. simpl in Hc. rewrite <- Hc in Hq'.
    destruct (IH _ _ _ _ Hh' Hq') as (r'' & R' & -> & Hh''). by exists r'', R'.
  - destruct (run_queue _ _ _) as [[ans' l'']|] eqn:Hq'; simplify_option_eq.
    pose proof (try_pop_capacity r) as Hc. destruct l as [|x l]; simpl in *.
    + rewrite (try_pop_empty r R) in * by done.
      destruct (IH _ _ _ _ Hh Hq') as (r'' & R' & -> & Hh''). by exists r'', R'.
    + destruct (try_pop_holds r R x l Hh) as (r' & Hp & Hh'). rewrite Hp in *. simpl in Hc.
      rewrite <- Hc in Hq'.
      destruct (IH _ _ _ _ Hh' Hq') as (r'' & R' & -> & Hh''). by exists r'', R'.
Qed.

Lemma make_ring_holds capacity r : 0 <= capacity < 2 ^ 64 → make_ring capacity = Returned r → holds r 0 [].
Proof.
  unfold make_ring. intros Hb. destruct (Z.eqb_spec capacity 0); [done|]. simpl.
  destruct (Z.eqb_spec (Z.land capacity (capacity - 1)) 0) as [Hl|]; [|done]. simpl. intros [= <-].
  assert (capacity = 2 ^ Z.log2 capacity) as Hp.
  { pose proof (Z.log2_spec capacity) as [Hlo Hhi]; [lia|].
    destruct (decide (capacity = 2 ^ Z.log2 capacity)) as [|Hne]; [done|]. exfalso.
    assert (0 < 2 ^ Z.log2 capacity) by (apply Z.pow_pos_nonneg; [lia|apply Z.log2_nonneg]).
    assert (Z.testbit (Z.land capacity (capacity - 1)) (Z.log2 capacity) = true) as Ht.
    { rewrite Z.land_spec, Z.bit_log2 by lia. simpl.
      replace (Z.log2 capacity) with (Z.log2 (capacity - 1)).
      - apply Z.bit_log2. lia.
      - apply Z.log2_unique; [apply Z.log2_nonneg|lia]. }
    rewrite Hl, Z.bits_0 in Ht. done. }
  split; simpl; try done; try lia.
  - exists (Z.log2 capacity). split; [|done]. split; [apply Z.log2_nonneg|].
    assert (Z.log2 capacity < 64); [|lia]. apply Z.log2_lt_pow2; lia.
  - rewrite length_replicate. lia.
  - intros j Hj. exists (mkSlot EMPTY None). split; [|done]. apply lookup_replicate_2.
    pose proof (Z.mod_pos_bound (0 + j) capacity). lia.
Qed.
End Fifo.

(** ** Interleaved calls *)

Section Interleaved.
Context {T : Type} `{!EqDecision T}.
Implicit Types (r : Ring T) (s : Slot T) (x : T) (t u : rthread T) (ts : list (rthread T)).
Implicit Types (slots : list (Slot T)).

(** The item a finished push put in the queue, the item a finished pop
    returned, the item a consumer has claimed and not yet returned, and the
    item a slot offers. *)
Definition pushed t : option T := match t with PushDone x true => Some x | _ => None end.
Definition popped t : option T := match t with PopDone d => d | _ => None end.
Definition reading slots t : option T :=
  match t with
  | PopClaimed i | PopAdvanced i => slots !! i ≫= data
  | PopRead _ d => d
  | _ => None
  end.
Definition ready s : option T := match s with mkSlot READY d => d | _ => None end.

(** The slot a thread has claimed, and the state it gave it. *)
Definition owner t : option (nat * SlotState) :=
  match t with
  | PushWriting _ i | PushWritten _ i => Some (i, WRITING)
  | PopClaimed i | PopAdvanced i | PopRead i _ => Some (i, READING)
  | _ => None
  end.

Definition count (x : T) (o : option T) : nat := if decide (o = Some x) then 1 else 0.

(** What a thread's local knowledge says of its slot. *)
Definition knows slots t : Prop :=
  match t with
  | PushWritten x i => slots !! i = Some (mkSlot WRITING (Some x))
  | PopRead i d => slots !! i = Some (mkSlot READING d)
  | _ => True
  end.

Record ring_inv slots ts : Prop := {
  ri_owner : ∀ j t i st, ts !! j = Some t → owner t = Some (i, st) →
    ∃ d, slots !! i = Some (mkSlot st d);
  ri_unique : ∀ j k t u i st st', ts !! j = Some t → ts !! k = Some u →
    owner t = Some (i, st) → owner u = Some (i, st') → j = k;
  ri_knows : ∀ j t, ts !! j = Some t → knows slots t;
  ri_full : ∀ i s, slots !! i = Some s → state s = READY ∨ state s = READING → is_Some (data s);
  ri_count : ∀ x, sum_list_with (λ t, count x (pushed t)) ts =
    (sum_list_with (λ t, count x (popped t)) ts + sum_list_with (λ t, count x (reading slots t)) ts +
     sum_list_with (λ s, count x (ready s)) slots)%nat;
}.

Lemma sum_insert {A} (f : A → nat) (l : list A) i a b :
  l !! i = Some a → (sum_list_with f (<[i := b]> l) + f a = sum_list_with f l + f b)%nat.
Proof.
  revert i. induction l as [|y l IH]; intros [|i] Hi; simplify_eq/=; [lia|]. specialize (IH i Hi). lia.
Qed.

Lemma sum_ext {A} (f g : A → nat) (l : list A) :
  (∀ a, a ∈ l → f a = g a) → sum_list_with f l = sum_list_with g l.
Proof.
  induction l as [|y l IH]; intros H; [done|]. simpl. rewrite (H y) by (by left).
  rewrite IH; [done|]. intros a Ha. apply H. by right.
Qed.

Lemma sum_zero {A} (f : A → nat) (l : list A) : (∀ a, a ∈ l → f a = 0%nat) → sum_list_with f l = 0%nat.
Proof.
  induction l as [|y l IH]; intros H; [done|]. simpl. rewrite (H y) by (by left).
  apply IH. intros a Ha. apply H. by right.
Qed.

(** No thread but [j] has claimed slot [i]. *)
Definition exclusive ts (j i : nat) : Prop :=
  ∀ k u st, k ≠ j → ts !! k = Some u → owner u ≠ Some (i, st).

Lemma owner_exclusive slots ts j t i st :
  ring_inv slots ts → ts !! j = Some t → owner t = Some (i, st) → exclusive ts j i.
Proof.
  intros Hinv Hj Ho k u st' Hk Hu Hou. apply Hk. symmetry.
  by eapply (ri_unique _ _ Hinv j k t u).
Qed.

Lemma free_exclusive slots ts j i s :
  ring_inv slots ts → slots !! i = Some s → state s = EMPTY ∨ state s = READY → exclusive ts j i.
Proof.
  intros Hinv Hi Hs k u st Hk Hu Ho.
  destruct (ri_owner _ _ Hinv k u i st Hu Ho) as [d Hd]. rewrite Hi in Hd. simplify_eq.
  destruct u; simplify_eq/=; destruct Hs; done.
Qed.

(** A step of thread [j] that touches no slot it has not claimed. *)
Lemma ring_inv_update slots ts j t t' i s s' :
  ring_inv slots ts → ts !! j = Some t → slots !! i = Some s → exclusive ts j i →
  owner t' = None ∨ owner t' = Some (i, state s') →
  knows (<[i := s']> slots) t' →
  (state s' = READY ∨ state s' = READING → is_Some (data s')) →
  (∀ x, count x (pushed t') + count x (popped t) + count x (reading slots t) + count x (ready s) =
        count x (pushed t) + count x (popped t') + count x (reading (<[i := s']> slots) t') +
        count x (ready s'))%nat →
  ring_inv (<[i := s']> slots) (<[j := t']> ts).
Proof.
  intros Hinv Hj Hi Hex Ho Hk Hf Hc.
  assert (j < length ts)%nat by (by eapply lookup_lt_Some).
  assert (i < length slots)%nat by (by eapply lookup_lt_Some).
  assert (∀ k u, k ≠ j → ts !! k = Some u → reading (<[i := s']> slots) u = reading slots u) as Hframe.
  { intros k u Hkj Hu. destruct u; simpl; try done; rewrite list_lookup_insert_ne; try done;
      intros <-; by eapply (Hex k _ _ Hkj Hu). }
  split.
  - intros k u i' st Hu Hou. destruct (decide (k = j)) as [->|Hkj].
    + rewrite list_lookup_insert_eq in Hu by done. simplify_eq.
      destruct Ho as [Ho|Ho]; rewrite Ho in Hou; simplify_eq.
      exists (data s'). rewrite list_lookup_insert_eq by done. by destruct s'.
    + rewrite list_lookup_insert_ne in Hu by done. rewrite list_lookup_insert_ne.
      * by eapply (ri_owner _ _ Hinv).
      * intros <-. by eapply (Hex k _ _ Hkj Hu).
  - assert (∀ k u i' st, k ≠ j → ts !! k = Some u → owner u = Some (i', st) →
      ∀ st', owner t' ≠ Some (i', st')) as Hd.
    { intros k u i' st Hkj Hu Hou st' Ht'. destruct Ho as [Ho|Ho]; rewrite Ho in Ht'; simplify_eq.
      by eapply (Hex k _ _ Hkj Hu). }
    intros k k' u u' i' st st' Hu Hu' Hou Hou'.
    destruct (decide (k = j)) as [->|], (decide (k' = j)) as [->|]; [done| | |].
    + rewrite list_lookup_insert_eq in Hu by done. injection Hu as <-.
      rewrite list_lookup_insert_ne in Hu' by done. exfalso. by eapply (Hd k' u').
    + rewrite list_lookup_insert_eq in Hu' by done. injection Hu' as <-.
      rewrite list_lookup_insert_ne in Hu by done. exfalso. by eapply (Hd k u).
    + rewrite list_lookup_insert_ne in Hu by done. rewrite list_lookup_insert_ne in Hu' by done.
      by eapply (ri_unique _ _ Hinv k k' u u').
  - intros k u Hu. destruct (decide (k = j)) as [->|Hkj].
    + rewrite list_lookup_insert_eq in Hu by done. by simplify_eq.
    + rewrite list_lookup_insert_ne in Hu by done. pose proof (ri_knows _ _ Hinv _ _ Hu) as Hku.
      destruct u; simpl in *; try done; rewrite list_lookup_insert_ne; try done;
        intros <-; by eapply (Hex k _ _ Hkj Hu).
  - intros i' s0 Hs0. destruct (decide (i = i')) as [<-|].
    + rewrite list_lookup_insert_eq in Hs0 by done. by simplify_eq.
    + rewrite list_lookup_insert_ne in Hs0 by done. by eapply (ri_full _ _ Hinv).
  - intros x. specialize (Hc x). pose proof (ri_count _ _ Hinv x) as Hcount.
    pose proof (sum_insert (λ t, count x (pushed t)) ts j t t' Hj).
    pose proof (sum_insert (λ t, count x (popped t)) ts j t t' Hj).
    pose proof (sum_insert (λ s, count x (ready s)) slots i s s' Hi).
    assert (sum_list_with (λ t, count x (reading (<[i:=s']> slots) t)) (<[j:=t']> ts) +
      count x (reading slots t) = sum_list_with (λ t, count x (reading slots t)) ts +
      count x (reading (<[i:=s']> slots) t'))%nat; [|lia].
    clear -Hj Hframe. revert j Hj Hframe.
    induction ts as [|u ts IH]; intros [|j] Hj Hframe; simplify_eq/=.
    + rewrite (sum_ext (λ t, count x (reading (<[i:=s']> slots) t)) (λ t, count x (reading slots t))); [lia|].
      intros v [k Hv]%list_elem_of_lookup. rewrite (Hframe (S k) v); done.
    + rewrite (Hframe 0%nat u) by done.
      assert (∀ k v, k ≠ j → ts !! k = Some v → reading (<[i:=s']> slots) v = reading slots v) as Hf'.
      { intros k v ? ?. apply (Hframe (S k)); [congruence|done]. }
      specialize (IH j Hj Hf'). lia.
Qed.

(** A step of a thread that has claimed no slot, and still has not. *)
Lemma ring_inv_thread slots ts j t t' :
  ring_inv slots ts → ts !! j = Some t → owner t' = None → knows slots t' →
  (∀ x, count x (pushed t') + count x (popped t) + count x (reading slots t) =
        count x (pushed t) + count x (popped t') + count x (reading slots t'))%nat →
  ring_inv slots (<[j := t']> ts).
Proof.
  intros Hinv Hj Ho Hk Hc. assert (j < length ts)%nat by (by eapply lookup_lt_Some).
  assert (∀ k u, <[j := t']> ts !! k = Some u → u = t' ∨ ts !! k = Some u) as Hl.
  { intros k u [(-> & <- & _)|[_ ?]]%list_lookup_insert_Some; auto. }
  split.
  - intros k u i st [->|Hu]%Hl Hou; [congruence|]. by eapply (ri_owner _ _ Hinv).
  - intros k k' u u' i st st' [->|Hu]%Hl [->|Hu']%Hl; try congruence. by eapply (ri_unique _ _ Hinv).
  - intros k u [->|Hu]%Hl; [done|]. by eapply (ri_knows _ _ Hinv).
  - apply (ri_full _ _ Hinv).
  - intros x. specialize (Hc x). pose proof (ri_count _ _ Hinv x).
    pose proof (sum_insert (λ t, count x (pushed t)) ts j t t' Hj).
    pose proof (sum_insert (λ t, count x (popped t)) ts j t t' Hj).
    pose proof (sum_insert (λ t, count x (reading slots t)) ts j t t' Hj). simpl in *. lia.
Qed.

Lemma count_zero x : count x None = 0%nat.
Proof. done. Qed.

Lemma ring_inv_step r ts r' ts' :
  ring_inv (slots_ r) ts → ring_step (r, ts) (r', ts') → ring_inv (slots_ r') ts'.
Proof.
  intros Hinv Hstep. inversion Hstep as
    [j x ? ? Hj|j x i d ? ? Hj Hi|j x i s ? ? Hj Hi Hs|j x i s ? ? Hj Hi|j x i s ? ? Hj Hi|j ? ? Hj
    |j i d ? ? Hj Hi|j i s ? ? Hj Hi Hs|j i ? ? Hj|j i s ? ? Hj Hi|j i d s ? ? Hj Hi]; subst;
    cbn [advance_write advance_read set_slot slots_].
  - by eapply ring_inv_thread.
  - eapply ring_inv_update; [done..|eapply free_exclusive; [done..|by left]|by right|done| |done].
    intros [?|?]; done.
  - by eapply ring_inv_thread.
  - destruct (ri_owner _ _ Hinv j _ i WRITING Hj eq_refl) as [d Hd]. rewrite Hi in Hd. simplify_eq.
    eapply ring_inv_update; [done..|by eapply owner_exclusive|by right| |by intros [?|?]|done].
    simpl. by rewrite list_lookup_insert_eq by (by eapply lookup_lt_Some).
  - pose proof (ri_knows _ _ Hinv _ _ Hj) as Hk. simpl in Hk. rewrite Hi in Hk. simplify_eq.
    eapply ring_inv_update; [done..|by eapply owner_exclusive|by left|done|done|].
    intros y. simpl. rewrite !count_zero. lia.
  - by eapply ring_inv_thread.
  - eapply ring_inv_update; [done..|eapply free_exclusive; [done..|by right]|by right|done| |].
    + intros _. by eapply (ri_full _ _ Hinv i (mkSlot READY d)); [|left].
    + intros y. simpl. rewrite list_lookup_insert_eq by (by eapply lookup_lt_Some).
      simpl. rewrite !count_zero. lia.
  - by eapply ring_inv_thread.
  - destruct (ri_owner _ _ Hinv j _ i READING Hj eq_refl) as [d Hd].
    rewrite <- (list_insert_id _ _ _ Hd).
    eapply ring_inv_update; [done..|by eapply owner_exclusive|by right|done| |].
    + by apply (ri_full _ _ Hinv i).
    + intros y. simpl. rewrite list_insert_id by done. lia.
  - destruct (ri_owner _ _ Hinv j _ i READING Hj eq_refl) as [d Hd]. rewrite Hi in Hd. simplify_eq.
    rewrite <- (list_insert_id _ _ _ Hi).
    eapply ring_inv_update; [done..|by eapply owner_exclusive|by right| | |].
    + simpl. by rewrite list_insert_id by done.
    + by apply (ri_full _ _ Hinv i).
    + intros y. simpl. rewrite Hi. simpl. lia.
  - pose proof (ri_knows _ _ Hinv _ _ Hj) as Hk. simpl in Hk. rewrite Hi in Hk. simplify_eq.
    eapply ring_inv_update; [done..|by eapply owner_exclusive|by left|done|by intros [?|?]|].
    intros y. simpl. rewrite !count_zero. lia.
Qed.

(** A call that has not begun. *)
Definition call_start t : Prop := match t with PushStart _ | PopStart => True | _ => False end.

Lemma ring_inv_start capacity r ts :
  make_ring capacity = Returned r → Forall call_start ts → ring_inv (slots_ r) ts.
Proof.
  unfold make_ring. case_match; [done|]. intros [= <-] Hts. simpl.
  assert (∀ j t, ts !! j = Some t → call_start t) as Hst by (intros; by eapply (Forall_lookup_1 _ ts)).
  assert (∀ i s, replicate (Z.to_nat capacity) (mkSlot EMPTY None) !! i = Some s → s = mkSlot EMPTY (@None T)) as Hsl.
  { intros i s [-> _]%lookup_replicate. done. }
  split.
  - intros j t i st Hj Ho. apply Hst in Hj. by destruct t.
  - intros j k t u i st st' Hj _ Ho. apply Hst in Hj. by destruct t.
  - intros j t Hj. apply Hst in Hj. by destruct t.
  - intros i s Hs%Hsl. subst. by intros [?|?].
  - intros x. rewrite !sum_zero; [done|..].
    + intros s [i Hi%Hsl]%list_elem_of_lookup. by subst.
    + intros t [j Hj%Hst]%list_elem_of_lookup. by destruct t.
    + intros t [j Hj%Hst]%list_elem_of_lookup. by destruct t.
    + intros t [j Hj%Hst]%list_elem_of_lookup. by destruct t.
Qed.

Lemma count_omap {A} (f : A → option T) (l : list A) x :
  count_occ (decide_rel eq) (omap f l) x = sum_list_with (λ a, count x (f a)) l.
Proof.
  induction l as [|a l IH]; [done|].
  change (omap f (a :: l)) with (match f a with Some y => y :: omap f l | None => omap f l end).
  cbn [sum_list_with]. rewrite <- IH. unfold count. destruct (f a) as [y|]; [|done].
  destruct (decide (y = x)) as [->|Hne].
  - rewrite count_occ_cons_eq, decide_True by done. lia.
  - rewrite count_occ_cons_neq, decide_False by congruence. lia.
Qed.

(** C22. Nothing is lost, made up or handed out twice. However any number of
    producers and consumers interleave, at every moment the items whose
    [try_push] returned true are, as a multiset, the items returned by
    [try_pop], those a consumer has claimed and is about to return, and those
    the slots offer; and no two threads ever hold the same slot. *)
Theorem ring_conserves capacity r0 ts0 r ts :
  make_ring capacity = Returned r0 → Forall call_start ts0 → rtc ring_step (r0, ts0) (r, ts) →
  omap pushed ts ≡ₚ omap popped ts ++ omap (reading (slots_ r)) ts ++ omap ready (slots_ r) ∧
  ∀ j k t u i st st', ts !! j = Some t → ts !! k = Some u → owner t = Some (i, st) →
    owner u = Some (i, st') → j = k.
Proof.
  intros Hr Hts Hrun. pose proof (ring_inv_start _ _ _ Hr Hts) as Hinv.
  assert (∀ a b, rtc ring_step a b → ring_inv (slots_ a.1) a.2 → ring_inv (slots_ b.1) b.2) as Hrtc.
  { intros a b. induction 1 as [|[r1 ts1] [r2 ts2] c Hs _ IH]; [done|]. intros ?.
    apply IH. by eapply ring_inv_step. }
  apply Hrtc in Hrun; [|done]. simpl in Hrun. split; [|apply (ri_unique _ _ Hrun)].
  apply (Permutation_count_occ (decide_rel eq)). intros x.
  rewrite !count_occ_app, !count_omap. pose proof (ri_count _ _ Hrun x). lia.
Qed.
End Interleaved.

(** ** The queue *)

(** Calls that do not overlap: as long as no push finds the ring full, the
    ring answers every call as a first-in first-out queue of its capacity does,
    over any number of wrap-arounds. A push that finds it full answers false,
    stores nothing and still consumes a position. *)
Theorem ring_is_fifo {T} capacity (r : Ring T) calls ans l :
  0 <= capacity < 2 ^ 64 → make_ring capacity = Returned r →
  run_queue capacity [] calls = Some (ans, l) →
  ∃ r', run_ring r calls = (ans, r') ∧
    (l = [] → try_pop r' = (None, r')) ∧
    (Z.of_nat (length l) = capacity → ∀ x, try_push r' x = (false, advance_write r')).
Proof.
  intros Hb Hr Hq. pose proof (make_ring_holds _ _ Hb Hr) as Hh.
  assert (capacity_ r = capacity) as Hc.
  { unfold make_ring in Hr. case_match; [done|]. by simplify_eq. }
  rewrite <- Hc in Hq. destruct (run_ring_holds _ _ _ _ _ _ Hh Hq) as (r' & R & Hrun & Hh').
  exists r'. split; [done|]. split.
  - intros ->. by eapply try_pop_empty.
  - intros Hl x. eapply try_push_full; [done|]. rewrite Hl.
    assert (∀ r x, capacity_ (try_push r x).2 = capacity_ (T := T) r) as Hcpush.
    { intros r0 y. unfold try_push. repeat case_match; done. }
    assert (∀ r, capacity_ (try_pop r).2 = capacity_ (T := T) r) as Hcpop.
    { intros r0. unfold try_pop. repeat case_match; done. }
    rewrite <- Hc. clear -Hrun Hcpush Hcpop. revert r ans Hrun.
    induction calls as [|[y|] calls IH]; intros r ans Hrun; simpl in Hrun; [by simplify_eq| |].
    + specialize (Hcpush r y). destruct (try_push r y) as [ok r1].
      destruct (run_ring r1 calls) as [ans' r2] eqn:H2. simplify_eq. rewrite <- Hcpush.
      by apply (IH _ ans').
    + specialize (Hcpop r). destruct (try_pop r) as [d r1].
      destruct (run_ring r1 calls) as [ans' r2] eqn:H2. simplify_eq. rewrite <- Hcpop.
      by apply (IH _ ans').
Qed.

Lemma ring_is_fifo_witness :
  ∃ r r' : Ring Z, make_ring 2 = Returned r ∧
    run_ring r [CallPush 7; CallPush 8; CallPop; CallPush 9; CallPop; CallPop] =
      ([Pushed true; Pushed true; Popped (Some 7); Pushed true; Popped (Some 8); Popped (Some 9)], r').
Proof.
  eexists. destruct (ring_is_fifo (T := Z) 2 (mkRing 2 1 0 0 [mkSlot EMPTY None; mkSlot EMPTY None])
    [CallPush 7; CallPush 8; CallPop; CallPush 9; CallPop; CallPop]
    [Pushed true; Pushed true; Popped (Some 7); Pushed true; Popped (Some 8); Popped (Some 9)] [])
    as (r' & H & _).
  - lia.
  - reflexivity.
  - reflexivity.
  - exists r'. split; [reflexivity|exact H].
Defined.

(** Calls on a tick plant: what [ingest] answers, or the sequence number of the
    tick [consume] returns. *)
Fixpoint run_plant (p : TickPlant) (calls : list (option TickMessage)) : list (bool + option Z) :=
  match calls with
  | [] => []
  | Some m :: rest => let (ok, p) := ingest p 0 m in inl ok :: run_plant p rest
  | None :: rest => let (d, p) := consume p in inr (seq_num <$> d) :: run_plant p rest
  end.

Definition some_tick : TickMessage := mkTick 0 0 1 100 5 0 0 0.

Ltac ring_move c := eapply rtc_l; [eapply c; reflexivity|]; simpl.

(** After a push has found the queue full the order is lost. In a tick plant
    of capacity 2 the third tick is refused; once the first two are consumed,
    tick 3 is accepted but cannot be consumed, and when tick 4 is accepted it
    is delivered before tick 3. With interleaved calls no refusal is needed: a
    consumer that loaded [read_pos_] before another consumer's pop takes item
    3 while item 2 waits, and the next pop finds nothing. *)
Theorem ring_reorders :
  (∃ p, new_plant 2 = Returned p ∧
    run_plant p [Some some_tick; Some some_tick; Some some_tick; None; None;
                 Some some_tick; None; Some some_tick; None; None] =
    [inl true; inl true; inl false; inr (Some 0); inr (Some 1);
     inl true; inr None; inl true; inr (Some 4); inr (Some 3)]) ∧
  ∃ (r0 r : Ring Z), make_ring 2 = Returned r0 ∧
    rtc ring_step (r0, [PushStart 1; PushStart 2; PopStart; PopStart; PushStart 3])
      (r, [PushDone 1 true; PushDone 2 true; PopDone (Some 1); PopDone (Some 3); PushDone 3 true]) ∧
    omap ready (slots_ r) = [2] ∧ try_pop r = (None, r).
Proof.
  split; [eexists; split; reflexivity|].
  eexists _, (mkRing 2 1 3 2 [mkSlot EMPTY (Some 3); mkSlot READY (Some 2)]).
  split; [reflexivity|]. split; [|split; reflexivity].
  ring_move (push_position (T := Z) 0). ring_move (push_claim (T := Z) 0).
  ring_move (push_write (T := Z) 0). ring_move (push_ready (T := Z) 0).
  ring_move (push_position (T := Z) 1). ring_move (push_claim (T := Z) 1).
  ring_move (push_write (T := Z) 1). ring_move (push_ready (T := Z) 1).
  (* the second consumer loads the position; the first one pops *)
  ring_move (pop_position (T := Z) 3). ring_move (pop_position (T := Z) 2).
  ring_move (pop_claim (T := Z) 2). ring_move (pop_advance (T := Z) 2).
  ring_move (pop_read (T := Z) 2). ring_move (pop_free (T := Z) 2).
  ring_move (push_position (T := Z) 4). ring_move (push_claim (T := Z) 4).
  ring_move (push_write (T := Z) 4). ring_move (push_ready (T := Z) 4).
  ring_move (pop_claim (T := Z) 3). ring_move (pop_advance (T := Z) 3).
  ring_move (pop_read (T := Z) 3). ring_move (pop_free (T := Z) 3).
  apply rtc_refl.
Qed.

Lemma ring_conserves_witness :
  ∃ r0 r : Ring Z, make_ring 2 = Returned r0 ∧
    omap pushed [PushDone 4 true; PopClaimed 0] ≡ₚ
    omap popped [PushDone 4 true; PopClaimed 0] ++
    omap (reading (slots_ r)) [PushDone 4 true; PopClaimed 0] ++ omap ready (slots_ r).
Proof.
  exists (mkRing 2 1 0 0 [mkSlot EMPTY None; mkSlot EMPTY None]),
    (mkRing 2 1 1 0 [mkSlot READING (Some 4); mkSlot EMPTY None]).
  split; [reflexivity|].
  destruct (ring_conserves (T := Z) 2 (mkRing 2 1 0 0 [mkSlot EMPTY None; mkSlot EMPTY None])
    [PushStart 4; PopStart] (mkRing 2 1 1 0 [mkSlot READING (Some 4); mkSlot EMPTY None])
    [PushDone 4 true; PopClaimed 0]) as [H _]; [reflexivity| | |exact H].
  - repeat constructor.
  - ring_move (push_position (T := Z) 0). ring_move (push_claim (T := Z) 0). ring_move (push_write (T := Z) 0).
    ring_move (push_ready (T := Z) 0). ring_move (pop_position (T := Z) 1). ring_move (pop_claim (T := Z) 1).
    apply rtc_refl.
Defined.
