(* ===== verification/WalReplicator.v ===== *)
(** * WAL replication

    Models [include/zeptodb/cluster/wal_replicator.h] and
    [src/cluster/wal_replicator.cpp]: producers put ticks into a bounded queue, a
    background thread sends them to the replicas in batches. A critical section or
    a call of the sender is a step ([wal_step]); producers, the sender and the
    thread that starts and stops it interleave. The replies of the replicas are
    arguments of the steps. What replicas have acknowledged, the batches that
    were flushed and the ticks that were accepted are recorded for the theorems. *)

From S2P Require Import Prelude.
From S2P Require Import RingBuffer.
From stdpp Require Import base list relations.
From Stdlib Require Import ZArith Lia.

Open Scope Z_scope.

(** ** Data *)

Record ReplicatorConfig : Type := mkReplicatorConfig {
  batch_size : Z;
  flush_interval_ms : Z;
  wal_queue_capacity : Z;
  sync_mode : bool;
  sync_timeout_ms : Z;
  quorum_w : Z;
  retry_queue_capacity : Z;
  retry_interval_ms : Z;
  wal_max_retries : Z;
  backpressure : bool;
  backpressure_timeout_ms : Z;
}.

Definition default_replicator_config : ReplicatorConfig :=
  mkReplicatorConfig 256 10 (2 ^ 20) false 1000 0 (2 ^ 16) 100 3 false 500.

Inductive wal_counter : Type :=
  | Enqueued | Replicated | Dropped | SendErrors | SyncAcked | Retried | RetryExhausted | Backpressured.
#[export] Instance wal_counter_eq_dec : EqDecision wal_counter.
Proof. solve_decision. Defined.

Definition ReplicatorStats : Type := wal_counter → Z.
Definition no_stats : ReplicatorStats := λ _, 0.
Definition add_stat (k : wal_counter) (n : Z) (st : ReplicatorStats) : ReplicatorStats :=
  λ k', if decide (k' = k) then u64 (st k + n) else st k'.

Notation batch_of_ticks := (list TickMessage).

Record RetryEntry : Type := mkRetry { retry_batch : batch_of_ticks; retry_attempts : Z }.

(** Where the sender thread is: not started, at the head of its loop, waiting,
    holding a batch, before the retries, or at its end. *)
Inductive sender_state : Type :=
  | NotStarted
  | LoopHead
  | Waiting
  | Flushing (batch : batch_of_ticks)
  | Retrying
  | Exited.

Record WalReplicator : Type := mkReplicator {
  wal_config : ReplicatorConfig;
  wal_stats : ReplicatorStats;
  wal_queue : batch_of_ticks;
  flush_epoch_ : Z;
  retry_queue_ : list RetryEntry;
  wal_running : bool;
  sender_ : sender_state;
  blocked_ : batch_of_ticks;        (** the ticks of producers that wait for space *)
  sync_waiting_ : list (TickMessage * Z); (** producers that wait for a flush, with the epoch they read *)
  sync_done_ : batch_of_ticks;      (** the ticks whose producers saw a later epoch *)
  replica_logs_ : list (list batch_of_ticks); (** what each replica acknowledged *)
  flushed_ : list (batch_of_ticks * list bool); (** with the replies *)
  accepted_ : batch_of_ticks;
}.

(** [replicas] endpoints. *)
Definition new_replicator (cfg : ReplicatorConfig) (replicas : nat) : WalReplicator :=
  mkReplicator cfg no_stats [] 0 [] false NotStarted [] [] [] (replicate replicas []) [] [].

(** ** Updates *)

Definition count_stat (k : wal_counter) (n : Z) (s : WalReplicator) : WalReplicator :=
  mkReplicator (wal_config s) (add_stat k n (wal_stats s)) (wal_queue s) (flush_epoch_ s) (retry_queue_ s) (wal_running s)
    (sender_ s) (blocked_ s) (sync_waiting_ s) (sync_done_ s) (replica_logs_ s) (flushed_ s) (accepted_ s).

Definition set_sender (st : sender_state) (s : WalReplicator) : WalReplicator :=
  mkReplicator (wal_config s) (wal_stats s) (wal_queue s) (flush_epoch_ s) (retry_queue_ s) (wal_running s)
    st (blocked_ s) (sync_waiting_ s) (sync_done_ s) (replica_logs_ s) (flushed_ s) (accepted_ s).

Definition set_wal_running (b : bool) (s : WalReplicator) : WalReplicator :=
  mkReplicator (wal_config s) (wal_stats s) (wal_queue s) (flush_epoch_ s) (retry_queue_ s) b
    (sender_ s) (blocked_ s) (sync_waiting_ s) (sync_done_ s) (replica_logs_ s) (flushed_ s) (accepted_ s).

Definition set_blocked (l : batch_of_ticks) (s : WalReplicator) : WalReplicator :=
  mkReplicator (wal_config s) (wal_stats s) (wal_queue s) (flush_epoch_ s) (retry_queue_ s) (wal_running s)
    (sender_ s) l (sync_waiting_ s) (sync_done_ s) (replica_logs_ s) (flushed_ s) (accepted_ s).

Definition set_sync (waiting : list (TickMessage * Z)) (completed : batch_of_ticks) (s : WalReplicator) : WalReplicator :=
  mkReplicator (wal_config s) (wal_stats s) (wal_queue s) (flush_epoch_ s) (retry_queue_ s) (wal_running s)
    (sender_ s) (blocked_ s) waiting completed (replica_logs_ s) (flushed_ s) (accepted_ s).

(** The batch that the sender takes: the whole queue. *)
Definition clear_queue (s : WalReplicator) : WalReplicator :=
  mkReplicator (wal_config s) (wal_stats s) [] (flush_epoch_ s) (retry_queue_ s) (wal_running s)
    (sender_ s) (blocked_ s) (sync_waiting_ s) (sync_done_ s) (replica_logs_ s) (flushed_ s) (accepted_ s).

Definition set_retry (q : list RetryEntry) (s : WalReplicator) : WalReplicator :=
  mkReplicator (wal_config s) (wal_stats s) (wal_queue s) (flush_epoch_ s) q (wal_running s)
    (sender_ s) (blocked_ s) (sync_waiting_ s) (sync_done_ s) (replica_logs_ s) (flushed_ s) (accepted_ s).

Definition set_logs (logs : list (list batch_of_ticks)) (s : WalReplicator) : WalReplicator :=
  mkReplicator (wal_config s) (wal_stats s) (wal_queue s) (flush_epoch_ s) (retry_queue_ s) (wal_running s)
    (sender_ s) (blocked_ s) (sync_waiting_ s) (sync_done_ s) logs (flushed_ s) (accepted_ s).

Definition end_flush (batch : batch_of_ticks) (acks : list bool) (s : WalReplicator) : WalReplicator :=
  mkReplicator (wal_config s) (wal_stats s) (wal_queue s) (u64 (flush_epoch_ s + 1)) (retry_queue_ s) (wal_running s)
    (sender_ s) (blocked_ s) (sync_waiting_ s) (sync_done_ s) (replica_logs_ s) (flushed_ s ++ [(batch, acks)]) (accepted_ s).

(** ** Producers *)

Definition queue_full (s : WalReplicator) : bool := wal_queue_capacity (wal_config s) <=? Z.of_nat (length (wal_queue s)).

Definition push (msg : TickMessage) (s : WalReplicator) : WalReplicator :=
  let s := count_stat Enqueued 1 s in
  mkReplicator (wal_config s) (wal_stats s) (wal_queue s ++ [msg]) (flush_epoch_ s) (retry_queue_ s) (wal_running s)
    (sender_ s) (blocked_ s)
    (if sync_mode (wal_config s) then sync_waiting_ s ++ [(msg, flush_epoch_ s)] else sync_waiting_ s)
    (sync_done_ s) (replica_logs_ s) (flushed_ s) (accepted_ s ++ [msg]).

(** The beginning of [enqueue]: the tick is queued, refused, or its producer waits. *)
Definition enqueue (msg : TickMessage) (s : WalReplicator) : WalReplicator :=
  if queue_full s then
    if backpressure (wal_config s) then set_blocked (blocked_ s ++ [msg]) (count_stat Backpressured 1 s)
    else count_stat Dropped 1 s
  else push msg s.

(** The end of a producer's wait for space, by a wake-up or at the timeout. *)
Definition unblock (i : nat) (s : WalReplicator) : WalReplicator :=
  match blocked_ s !! i with
  | None => s
  | Some msg =>
      let s := set_blocked (delete i (blocked_ s)) s in
      if queue_full s || negb (wal_running s) then count_stat Dropped 1 s else push msg s
  end.

(** A producer that waits for its tick sees a later epoch. *)
Definition sync_return (i : nat) (s : WalReplicator) : WalReplicator :=
  match sync_waiting_ s !! i with
  | Some (msg, epoch) => if epoch <? flush_epoch_ s then set_sync (delete i (sync_waiting_ s)) (sync_done_ s ++ [msg]) s else s
  | None => s
  end.
(** Or gives up. *)
Definition sync_timeout (i : nat) (s : WalReplicator) : WalReplicator := set_sync (delete i (sync_waiting_ s)) (sync_done_ s) s.

(** ** The sender *)

(** [acks] are the replicas' replies. *)
Definition reply (acks : list bool) (i : nat) : bool := default false (acks !! i).

Definition log_batch (batch : batch_of_ticks) (acks : list bool) (logs : list (list batch_of_ticks)) : list (list batch_of_ticks) :=
  imap (λ i log, if reply acks i then log ++ [batch] else log) logs.

Definition ack_count (acks : list bool) (logs : list (list batch_of_ticks)) : nat :=
  length (List.filter (reply acks) (seq 0 (length logs))).

Definition flush_batch (batch : batch_of_ticks) (acks : list bool) (s : WalReplicator) : WalReplicator :=
  let replicas := length (replica_logs_ s) in
  let acked := ack_count acks (replica_logs_ s) in
  let required := if 0 <? quorum_w (wal_config s) then quorum_w (wal_config s) else Z.of_nat replicas in
  let s := count_stat Replicated (Z.of_nat acked * Z.of_nat (length batch)) s in
  let s := count_stat SendErrors (Z.of_nat (replicas - acked)) s in
  let s := set_logs (log_batch batch acks (replica_logs_ s)) s in
  let s := if required <=? Z.of_nat acked then count_stat SyncAcked 1 s else s in
  let s :=
    if (acked <? replicas)%nat && (0 <? wal_max_retries (wal_config s)) then
      if Z.of_nat (length (retry_queue_ s)) <? retry_queue_capacity (wal_config s)
      then set_retry (retry_queue_ s ++ [mkRetry batch 0]) s
      else count_stat RetryExhausted 1 s
    else s in
  end_flush batch acks s.

(** One entry: the replicas are tried in order until one takes the batch. *)
Definition retry_entry (entry : RetryEntry) (acks : list bool) (s : WalReplicator) : option RetryEntry * WalReplicator :=
  let entry := mkRetry (retry_batch entry) (retry_attempts entry + 1) in
  match head (List.filter (reply acks) (seq 0 (length (replica_logs_ s)))) with
  | Some i =>
      let s := set_logs (alter (λ log, log ++ [retry_batch entry]) i (replica_logs_ s)) s in
      (None, count_stat Retried 1 (count_stat Replicated (Z.of_nat (length (retry_batch entry))) s))
  | None =>
      if retry_attempts entry <? wal_max_retries (wal_config s) then (Some entry, s)
      else (None, count_stat RetryExhausted 1 s)
  end.

(** [answers] has the replicas' replies for each entry. *)
Fixpoint retry_entries (pending : list RetryEntry) (answers : list (list bool)) (s : WalReplicator) : list RetryEntry * WalReplicator :=
  match pending with
  | [] => ([], s)
  | entry :: pending =>
      let '(failed, s) := retry_entry entry (default [] (head answers)) s in
      let '(rest, s) := retry_entries pending (tail answers) s in
      (match failed with Some e => e :: rest | None => rest end, s)
  end.

Definition process_retry_queue (answers : list (list bool)) (s : WalReplicator) : WalReplicator :=
  let '(still_failed, s) := retry_entries (retry_queue_ s) answers (set_retry [] s) in
  set_retry (take (Z.to_nat (retry_queue_capacity (wal_config s))) (retry_queue_ s ++ still_failed)) s.

Definition is_nil {A} (l : list A) : bool := match l with [] => true | _ => false end.

(** One step of the sender's loop; [acks] and [answers] are the replies it gets. *)
Definition send_step (acks : list bool) (answers : list (list bool)) (s : WalReplicator) : WalReplicator :=
  match sender_ s with
  | NotStarted | Exited => s
  | LoopHead => set_sender (if wal_running s then Waiting else Exited) s
  | Waiting =>
      if is_nil (wal_queue s) && is_nil (retry_queue_ s) then set_sender LoopHead s
      else set_sender (Flushing (wal_queue s)) (clear_queue s)
  | Flushing batch => set_sender Retrying (if is_nil batch then s else flush_batch batch acks s)
  | Retrying => set_sender LoopHead (process_retry_queue answers s)
  end.

(** ** Starting and stopping *)

Definition start_replicator (s : WalReplicator) : WalReplicator :=
  if wal_running s then s else set_sender LoopHead (set_wal_running true s).

(** [stop] ends the loop, joins the thread, and flushes what is left. *)
Definition stop_begin (s : WalReplicator) : WalReplicator := set_wal_running false s.
Definition stop_end (acks : list bool) (s : WalReplicator) : WalReplicator :=
  set_sender NotStarted (if is_nil (wal_queue s) then s else flush_batch (wal_queue s) acks (clear_queue s)).

Inductive wal_step : relation WalReplicator :=
  | wal_enqueue msg s : wal_step s (enqueue msg s)
  | wal_unblock i s : wal_step s (unblock i s)
  | wal_sync_return i s : wal_step s (sync_return i s)
  | wal_sync_timeout i s : wal_step s (sync_timeout i s)
  | wal_send acks answers s : wal_step s (send_step acks answers s)
  | wal_start s : sender_ s = NotStarted → wal_step s (start_replicator s)
  | wal_stop s : wal_step s (stop_begin s)
  | wal_stopped acks s : sender_ s = Exited → wal_running s = false → wal_step s (stop_end acks s).

(** ** What is in the queue, under way, and sent *)

Definition inflight (s : WalReplicator) : batch_of_ticks := match sender_ s with Flushing batch => batch | _ => [] end.

(** The batches that some replica did not acknowledge when they were flushed. *)
Definition unacknowledged (s : WalReplicator) : list (batch_of_ticks * list bool) :=
  filter (λ f, (ack_count f.2 (replica_logs_ s) < length (replica_logs_ s))%nat) (flushed_ s).

(** [mid] is the batch under way. *)
Record wal_inv (cfg : ReplicatorConfig) (n : nat) (mid : batch_of_ticks) (s : WalReplicator) : Prop := {
  wok_config : wal_config s = cfg;
  wok_replicas : length (replica_logs_ s) = n;
  wok_order : mjoin (flushed_ s).*1 ++ mid ++ wal_queue s = accepted_ s;
  wok_bound : Z.of_nat (length (wal_queue s)) <= Z.max 0 (wal_queue_capacity cfg);
  wok_logs : Forall (Forall (λ b, b ∈ (flushed_ s).*1)) (replica_logs_ s);
  wok_pending : Forall (λ e, retry_batch e ∈ (flushed_ s).*1 ∧ 0 <= retry_attempts e < wal_max_retries cfg) (retry_queue_ s);
  wok_retry_bound : Z.of_nat (length (retry_queue_ s)) <= Z.max 0 (retry_queue_capacity cfg);
  wok_accounted : 0 < wal_max_retries cfg →
    u64 (Z.of_nat (length (unacknowledged s))) =
    u64 (Z.of_nat (length (retry_queue_ s)) + wal_stats s Retried + wal_stats s RetryExhausted);
}.

Lemma ack_count_logs acks (l l' : list (list batch_of_ticks)) : length l = length l' → ack_count acks l = ack_count acks l'.
Proof. unfold ack_count. by intros ->. Qed.

Lemma ack_count_le acks logs : (ack_count acks logs <= length logs)%nat.
Proof. unfold ack_count. rewrite filter_length_le. by rewrite length_seq. Qed.

Lemma u64_add_l a b : u64 (u64 a + b) = u64 (a + b).
Proof. unfold wrap. by rewrite Z.add_mod_idemp_l. Qed.
Lemma u64_add_r a b : u64 (a + u64 b) = u64 (a + b).
Proof. unfold wrap. by rewrite Z.add_mod_idemp_r. Qed.

Lemma add_stat_eq k n st : add_stat k n st k = u64 (st k + n).
Proof. unfold add_stat. by rewrite decide_True. Qed.
Lemma add_stat_ne k k' n st : k' ≠ k → add_stat k n st k' = st k'.
Proof. intros. unfold add_stat. by rewrite decide_False. Qed.

(** Updates of the fields that the invariant does not mention. *)
Lemma wal_inv_count cfg n mid k i s :
  k ≠ Retried → k ≠ RetryExhausted → wal_inv cfg n mid s → wal_inv cfg n mid (count_stat k i s).
Proof.
  intros H1 H2 [? ? ? ? ? ? ? Hacc]. split; try done. intros Hm. etransitivity; [exact (Hacc Hm)|]. simpl.
  by rewrite !add_stat_ne by done.
Qed.

Lemma wal_inv_sender cfg n mid st s : wal_inv cfg n mid s → wal_inv cfg n mid (set_sender st s).
Proof. intros []. by split. Qed.
Lemma wal_inv_running cfg n mid b s : wal_inv cfg n mid s → wal_inv cfg n mid (set_wal_running b s).
Proof. intros []. by split. Qed.
Lemma wal_inv_blocked cfg n mid l s : wal_inv cfg n mid s → wal_inv cfg n mid (set_blocked l s).
Proof. intros []. by split. Qed.
Lemma wal_inv_sync cfg n mid l d s : wal_inv cfg n mid s → wal_inv cfg n mid (set_sync l d s).
Proof. intros []. by split. Qed.
Lemma wal_inv_clear cfg n s : wal_inv cfg n [] s → wal_inv cfg n (wal_queue s) (clear_queue s).
Proof. intros []. split; try done; simpl; [by rewrite app_nil_r|lia]. Qed.

Lemma wal_inv_push cfg n mid msg s : wal_inv cfg n mid s → queue_full s = false → wal_inv cfg n mid (push msg s).
Proof.
  intros Hs Hf. apply (wal_inv_count _ _ _ Enqueued 1) in Hs; [|done..]. destruct Hs as [Hc Hn Ho Hb ? ? ? ?].
  unfold push. split; try done; simpl in *.
  - by rewrite <- Ho, !app_assoc.
  - unfold queue_full in Hf. rewrite length_app. simpl. rewrite <- Hc. lia.
Qed.

Hint Resolve wal_inv_count wal_inv_sender wal_inv_running wal_inv_blocked wal_inv_sync wal_inv_clear wal_inv_push : zepto.

Lemma elem_of_snoc_l {A} (x y : A) l : x ∈ l → x ∈ l ++ [y].
Proof. intros. apply elem_of_app. by left. Qed.

Lemma unacknowledged_snoc s s' batch acks :
  length (replica_logs_ s') = length (replica_logs_ s) → flushed_ s' = flushed_ s ++ [(batch, acks)] →
  length (unacknowledged s') = (length (unacknowledged s) +
    if (ack_count acks (replica_logs_ s) <? length (replica_logs_ s))%nat then 1 else 0)%nat.
Proof.
  intros Hlen Hf. unfold unacknowledged. rewrite Hf, Hlen, filter_app, length_app. f_equal.
  - f_equal. apply list_filter_iff. intros [b a]. simpl. unfold ack_count. by rewrite Hlen.
  - rewrite filter_cons, filter_nil. simpl. rewrite (ack_count_logs acks _ _ Hlen).
    destruct (Nat.ltb_spec (ack_count acks (replica_logs_ s)) (length (replica_logs_ s))); case_decide; (done || lia).
Qed.

Lemma log_batch_ok (P : batch_of_ticks → Prop) batch acks logs :
  P batch → Forall (Forall P) logs → Forall (Forall P) (log_batch batch acks logs).
Proof.
  intros Hb Hl. unfold log_batch. apply Forall_lookup. intros i log Hi. rewrite list_lookup_imap in Hi.
  destruct (logs !! i) as [log0|] eqn:H0; simplify_eq/=. pose proof (proj1 (Forall_lookup _ _) Hl _ _ H0).
  destruct (reply acks i); [|done]. by apply Forall_app_2, Forall_singleton.
Qed.

(** A flush sends the batch under way. *)
Lemma wal_inv_flush cfg n batch acks s : wal_inv cfg n batch s → wal_inv cfg n [] (flush_batch batch acks s).
Proof.
  intros Hs. unfold flush_batch. set (acked := ack_count acks (replica_logs_ s)). set (replicas := length (replica_logs_ s)).
  set (s1 := count_stat SendErrors _ (count_stat Replicated _ s)).
  assert (wal_inv cfg n batch s1) as H1 by (unfold s1; auto with zepto).
  set (s2 := set_logs _ s1).
  set (s3 := if _ <=? Z.of_nat acked then count_stat SyncAcked 1 s2 else s2).
  assert (replica_logs_ s3 = log_batch batch acks (replica_logs_ s) ∧ wal_config s3 = cfg ∧ flushed_ s3 = flushed_ s ∧
    wal_queue s3 = wal_queue s ∧ accepted_ s3 = accepted_ s ∧ retry_queue_ s3 = retry_queue_ s ∧
    wal_stats s3 Retried = wal_stats s Retried ∧ wal_stats s3 RetryExhausted = wal_stats s RetryExhausted)
    as (Hl3 & Hc3 & Hf3 & Hq3 & Ha3 & Hr3 & Hst3 & Hst3').
  { destruct H1 as [Hc _ _ _ _ _ _ _]. unfold s3. case_match; unfold s2, s1; simpl in *; by rewrite ?Hc. }
  clearbody s3. clear s2 H1 s1. destruct Hs as [Hc Hn Ho Hb Hl Hp Hrb Hacc].
  assert (length (log_batch batch acks (replica_logs_ s)) = n) as Hn3 by (unfold log_batch; by rewrite length_imap).
  assert (∀ b, b ∈ (flushed_ s).*1 → b ∈ (flushed_ s ++ [(batch, acks)]).*1) as Hmono.
  { intros b. rewrite fmap_app. apply elem_of_snoc_l. }
  assert (batch ∈ (flushed_ s ++ [(batch, acks)]).*1) as Hnew by (rewrite fmap_app; apply elem_of_app; right; by left).
  assert (∀ s4, replica_logs_ s4 = replica_logs_ s3 → wal_config s4 = cfg → flushed_ s4 = flushed_ s →
    wal_queue s4 = wal_queue s → accepted_ s4 = accepted_ s →
    Forall (λ e, retry_batch e ∈ (flushed_ s ++ [(batch, acks)]).*1 ∧ 0 <= retry_attempts e < wal_max_retries cfg) (retry_queue_ s4) →
    Z.of_nat (length (retry_queue_ s4)) <= Z.max 0 (retry_queue_capacity cfg) →
    (0 < wal_max_retries cfg → u64 (Z.of_nat (length (retry_queue_ s4)) + wal_stats s4 Retried + wal_stats s4 RetryExhausted) =
      u64 (Z.of_nat (length (retry_queue_ s)) + wal_stats s Retried + wal_stats s RetryExhausted +
           if (acked <? replicas)%nat then 1 else 0)) →
    wal_inv cfg n [] (end_flush batch acks s4)) as Hend.
  { intros s4 H1 H2 H3 H4 H5 H6 H7 H8. split; simpl; rewrite ?H1, ?H2, ?H3, ?H4, ?H5, ?Hl3; try done.
    - by rewrite fmap_app, join_app, <- Ho, <- app_assoc; simpl; rewrite app_nil_r.
    - apply log_batch_ok; [done|]. eapply Forall_impl; [exact Hl|]. intros log Hlog. by eapply Forall_impl.
    - intros Hm. rewrite (H8 Hm), <- u64_add_l, <- (Hacc Hm), u64_add_l. f_equal.
      erewrite (unacknowledged_snoc s); [|simpl; by rewrite H1, Hl3, Hn3|simpl; by rewrite H3].
      fold acked replicas. destruct (_ <? _)%nat; lia. }
  assert (Forall (λ e, retry_batch e ∈ (flushed_ s ++ [(batch, acks)]).*1 ∧ 0 <= retry_attempts e < wal_max_retries cfg) (retry_queue_ s))
    as Hp' by (eapply Forall_impl; [exact Hp|]; intros e [? ?]; auto).
  rewrite Hc3, Hr3. destruct (acked <? replicas)%nat; simpl; [destruct (Z.ltb_spec 0 (wal_max_retries cfg)) as [Hm|Hm]|].
  - destruct (Z.ltb_spec (Z.of_nat (length (retry_queue_ s))) (retry_queue_capacity cfg)) as [Hr|Hr].
    + apply Hend; simpl; try done.
      * apply Forall_app_2; [done|]. apply Forall_singleton. simpl. split; [done|lia].
      * rewrite length_app. simpl. lia.
      * intros _. rewrite Hst3, Hst3', length_app. f_equal. simpl. lia.
    + apply Hend; simpl; rewrite ?Hr3; try done. intros _. rewrite add_stat_eq, add_stat_ne by done.
      rewrite Hst3, Hst3', u64_add_r. f_equal. lia.
  - apply Hend; rewrite ?Hr3; try done. intros. lia.
  - apply Hend; rewrite ?Hr3; try done. intros _. rewrite Hst3, Hst3'. f_equal. lia.
Qed.

Lemma u64_chain a b c d k0 k1 k2 :
  u64 (a + k1) = u64 (b + k0) → u64 (c + k2) = u64 (d + k1) → u64 (a + c + k2) = u64 (b + d + k0).
Proof.
  intros H1 H2. rewrite <- Z.add_assoc, <- u64_add_r, H2, u64_add_r.
  replace (a + (d + k1)) with (d + (a + k1)) by lia. rewrite <- u64_add_r, H1, u64_add_r. f_equal. lia.
Qed.

(** The retries move every entry to one of its ends. *)
Record retries (cfg : ReplicatorConfig) (pending rest : list RetryEntry) (s s' : WalReplicator) : Prop := {
  rt_same : wal_config s' = wal_config s ∧ wal_queue s' = wal_queue s ∧ flushed_ s' = flushed_ s ∧ accepted_ s' = accepted_ s ∧
    retry_queue_ s' = retry_queue_ s ∧ sender_ s' = sender_ s ∧ length (replica_logs_ s') = length (replica_logs_ s);
  rt_logs : Forall (Forall (λ b, b ∈ (flushed_ s).*1)) (replica_logs_ s');
  rt_rest : Forall (λ e, retry_batch e ∈ (flushed_ s).*1 ∧ 0 <= retry_attempts e < wal_max_retries cfg) rest;
  rt_length : (length rest <= length pending)%nat;
  rt_accounted : u64 (Z.of_nat (length rest) + wal_stats s' Retried + wal_stats s' RetryExhausted) =
    u64 (Z.of_nat (length pending) + wal_stats s Retried + wal_stats s RetryExhausted);
}.

Lemma retry_entry_spec cfg e acks s r s' :
  wal_config s = cfg → Forall (Forall (λ b, b ∈ (flushed_ s).*1)) (replica_logs_ s) →
  retry_batch e ∈ (flushed_ s).*1 → 0 <= retry_attempts e →
  retry_entry e acks s = (r, s') → retries cfg [e] (option_list r) s s'.
Proof.
  intros Hc Hl He Ha Hr. unfold retry_entry in Hr. cbn [retry_batch retry_attempts] in Hr.
  destruct (head _) as [i|]; [|destruct (Z.ltb_spec (retry_attempts e + 1) (wal_max_retries (wal_config s))) as [Hlt|Hlt]]; simplify_eq/=.
  - split; simpl; [|by apply Forall_alter; [|intros log _ Hlog; apply Forall_app_2, Forall_singleton]|constructor|lia|].
    + split_and!; try done. apply length_alter.
    + rewrite add_stat_eq, !add_stat_ne by done. rewrite Z.add_0_l, u64_add_l. f_equal. lia.
  - split; simpl; [done|done| |lia|done]. apply Forall_singleton. simpl. split; [done|lia].
  - split; simpl; [done|done|constructor|lia|]. rewrite add_stat_eq, add_stat_ne by done.
    rewrite Z.add_0_l, u64_add_r. f_equal. lia.
Qed.

Lemma retry_entries_spec cfg pending answers s rest s' :
  wal_config s = cfg → Forall (Forall (λ b, b ∈ (flushed_ s).*1)) (replica_logs_ s) →
  Forall (λ e, retry_batch e ∈ (flushed_ s).*1 ∧ 0 <= retry_attempts e < wal_max_retries cfg) pending →
  retry_entries pending answers s = (rest, s') → retries cfg pending rest s s'.
Proof.
  revert answers s rest s'. induction pending as [|e pending IH]; intros answers s rest s' Hc Hl Hp Hr.
  { simplify_eq/=. split; simpl; done. }
  cbn [retry_entries] in Hr. destruct (retry_entry e _ s) as [r s1] eqn:H1.
  destruct (retry_entries pending _ s1) as [rest1 s2] eqn:H2. apply Forall_cons in Hp as [[He Ha] Hp].
  destruct (retry_entry_spec cfg _ _ _ _ _ Hc Hl He (proj1 Ha) H1) as [(Hc1 & Hq1 & Hf1 & Ha1 & Hr1 & Hs1 & Hn1) Hl1 Hrest1 _ Hacc1].
  assert (retries cfg pending rest1 s1 s2) as [(Hc2 & Hq2 & Hf2 & Ha2 & Hr2 & Hs2 & Hn2) Hl2 Hrest2 Hlen2 Hacc2].
  { eapply IH; [congruence| | |exact H2]; by rewrite Hf1. }
  rewrite Hf1 in Hl2, Hrest2.
  assert (rest = option_list r ++ rest1 ∧ s' = s2) as [-> ->] by (destruct r; by simplify_eq/=).
  assert (length (option_list r) <= 1)%nat by (destruct r; simpl; lia).
  split; [split_and!; congruence|done|by apply Forall_app_2|rewrite length_app; simpl; lia|].
  rewrite length_app, <- !Z.add_assoc in *. rewrite Nat2Z.inj_add.
  etransitivity; [apply (u64_chain _ _ _ _ _ _ _ Hacc1 Hacc2)|]. f_equal. simpl. lia.
Qed.

Lemma wal_inv_retry cfg n mid answers s : wal_inv cfg n mid s → wal_inv cfg n mid (process_retry_queue answers s).
Proof.
  intros [Hc Hn Ho Hb Hl Hp Hrb Hacc]. unfold process_retry_queue.
  destruct (retry_entries (retry_queue_ s) answers (set_retry [] s)) as [rest s1] eqn:H1.
  destruct (retry_entries_spec cfg _ _ (set_retry [] s) _ _ Hc Hl Hp H1) as [(Hc1 & Hq1 & Hf1 & Ha1 & Hr1 & Hs1 & Hn1) Hl1 Hrest Hlen Hacc1].
  simpl in *. assert (take (Z.to_nat (retry_queue_capacity (wal_config s1))) (retry_queue_ s1 ++ rest) = rest) as Htake.
  { rewrite Hr1. simpl. apply take_ge. rewrite Hc1, Hc. lia. }
  rewrite Htake. split; simpl; rewrite ?Hc1, ?Hq1, ?Hf1, ?Ha1; try done; [congruence|lia|].
  intros Hm. unfold unacknowledged in *. simpl. rewrite Hf1. rewrite Hacc1, <- (Hacc Hm). f_equal. f_equal. f_equal.
  rewrite Hn1. apply list_filter_iff. intros [b a]. simpl. unfold ack_count. by rewrite Hn1.
Qed.

Lemma wal_inv_new cfg n : wal_inv cfg n [] (new_replicator cfg n).
Proof.
  split; simpl; try done; [by rewrite length_replicate|lia| |lia].
  apply Forall_lookup. intros i log Hi. apply lookup_replicate in Hi as [-> _]. constructor.
Qed.

Lemma is_nil_true {A} (l : list A) : is_nil l = true → l = [].
Proof. by destruct l. Qed.

(** A thread that does not run is stopped, and one that has ended was. *)
Lemma wal_inv_step cfg n s s' : wal_step s s' → wal_inv cfg n (inflight s) s → wal_inv cfg n (inflight s') s'.
Proof.
  intros Hstep Hs. destruct Hstep as [msg s|i s|i s|i s|acks answers s|s Hst|s|acks s Hst Hrun].
  - unfold enqueue. destruct (queue_full s) eqn:Hf; [destruct (backpressure _)|]; unfold inflight in *; simpl; auto with zepto.
  - unfold unblock. destruct (blocked_ s !! i) as [msg|]; [|done]. set (s1 := set_blocked _ s).
    assert (wal_inv cfg n (inflight s) s1) as H1 by (unfold s1; auto with zepto).
    destruct (queue_full s1) eqn:Hf; [|destruct (wal_running s1)]; simpl; unfold inflight in *; simpl; auto with zepto.
  - unfold sync_return. destruct (sync_waiting_ s !! i) as [[msg e]|]; [|done]. destruct (e <? _); [|done].
    unfold inflight in *. simpl. auto with zepto.
  - unfold sync_timeout, inflight in *. simpl. auto with zepto.
  - unfold send_step, inflight in *. destruct (sender_ s) as [| | |batch| |] eqn:Hst; rewrite ?Hst; try done.
    + destruct (wal_running s); simpl; auto with zepto.
    + destruct (_ && _); simpl; auto with zepto.
    + simpl. apply wal_inv_sender. destruct (is_nil batch) eqn:Hb; [|by apply wal_inv_flush].
      apply is_nil_true in Hb as ->. done.
    + simpl. by apply wal_inv_sender, wal_inv_retry.
  - unfold start_replicator, inflight in *. rewrite Hst in Hs. destruct (wal_running s); [by rewrite Hst|]. simpl. auto with zepto.
  - unfold stop_begin, inflight in *. simpl. auto with zepto.
  - unfold stop_end, inflight in *. rewrite Hst in Hs. simpl. apply wal_inv_sender.
    destruct (is_nil (wal_queue s)); [done|]. apply wal_inv_flush. auto with zepto.
Qed.

Lemma wal_inv_reachable cfg n s : rtc wal_step (new_replicator cfg n) s → wal_inv cfg n (inflight s) s.
Proof.
  intros Hs. assert (wal_inv cfg n (inflight (new_replicator cfg n)) (new_replicator cfg n)) as H0 by apply wal_inv_new.
  induction Hs as [s|s1 s2 s3 Hstep _ IH]; [done|]. apply IH. by eapply wal_inv_step.
Qed.

(** ** What each replica has *)

(** The batches that replica [i] acknowledged when they were flushed. *)
Definition acknowledged (i : nat) (flushed : list (batch_of_ticks * list bool)) : list batch_of_ticks :=
  (filter (λ f, reply f.2 i = true) flushed).*1.

(** Each replica has them, in order, and without retries nothing else. *)
Definition logs_hold (retries : bool) (logs : list (list batch_of_ticks)) (flushed : list (batch_of_ticks * list bool)) : Prop :=
  ∀ i log, logs !! i = Some log → acknowledged i flushed `sublist_of` log ∧ (retries = false → log = acknowledged i flushed).

Lemma logs_hold_flush r batch acks logs flushed :
  logs_hold r logs flushed → logs_hold r (log_batch batch acks logs) (flushed ++ [(batch, acks)]).
Proof.
  intros H i log. unfold log_batch. rewrite list_lookup_imap. destruct (logs !! i) as [log0|] eqn:Hi; intros; simplify_eq/=.
  destruct (H i log0 Hi) as [H1 H2]. unfold acknowledged in *. rewrite filter_app, fmap_app, filter_cons, filter_nil. simpl.
  destruct (reply acks i) eqn:Ha; simpl.
  - split; [by apply sublist_app|]. intros Hr. by rewrite (H2 Hr).
  - rewrite app_nil_r. by split.
Qed.

Lemma flush_batch_logs batch acks s :
  replica_logs_ (flush_batch batch acks s) = log_batch batch acks (replica_logs_ s) ∧
  flushed_ (flush_batch batch acks s) = flushed_ s ++ [(batch, acks)].
Proof. unfold flush_batch. repeat case_match; done. Qed.

Lemma retry_entry_logs e acks s r s' flushed : retry_entry e acks s = (r, s') →
  logs_hold true (replica_logs_ s) flushed → logs_hold true (replica_logs_ s') flushed ∧ flushed_ s' = flushed_ s.
Proof.
  unfold retry_entry. intros H Hl. repeat case_match; simplify_eq/=; try done. split; [|done].
  intros i log Hi. split; [|done]. rewrite list_lookup_alter in Hi. destruct (decide _) as [->|].
  - apply fmap_Some in Hi as (log0 & Hlog & ->). by apply sublist_inserts_r, (Hl _ _ Hlog).
  - apply (Hl _ _ Hi).
Qed.

Lemma retry_entries_logs pending answers s rest s' flushed : retry_entries pending answers s = (rest, s') →
  logs_hold true (replica_logs_ s) flushed → logs_hold true (replica_logs_ s') flushed ∧ flushed_ s' = flushed_ s.
Proof.
  revert answers s rest s'. induction pending as [|e pending IH]; intros answers s rest s' H Hl; cbn [retry_entries] in H; [by simplify_eq|].
  destruct (retry_entry e _ s) as [r s1] eqn:H1. destruct (retry_entries pending _ s1) as [rest1 s2] eqn:H2.
  destruct (retry_entry_logs _ _ _ _ _ flushed H1 Hl) as [Hl1 Hf1]. destruct (IH _ _ _ _ H2 Hl1) as [Hl2 Hf2].
  destruct r; simplify_eq/=; (split; [done|congruence]).
Qed.

Lemma process_retry_logs answers s r flushed : (r = false → retry_queue_ s = []) → logs_hold r (replica_logs_ s) flushed →
  logs_hold r (replica_logs_ (process_retry_queue answers s)) flushed ∧ flushed_ (process_retry_queue answers s) = flushed_ s.
Proof.
  intros Hq Hl. unfold process_retry_queue. destruct r; [|by rewrite (Hq eq_refl)].
  destruct (retry_entries _ _ _) as [rest s1] eqn:H. by destruct (retry_entries_logs _ _ (set_retry [] s) _ _ flushed H Hl).
Qed.

Lemma wal_queue_without_retries cfg n mid s : wal_inv cfg n mid s → wal_max_retries cfg <= 0 → retry_queue_ s = [].
Proof. intros [_ _ _ _ _ Hp _ _] Hm. destruct Hp as [|e l [_ Ha]]; [done|lia]. Qed.

Lemma wal_step_logs cfg n s s' : wal_step s s' → wal_inv cfg n (inflight s) s →
  logs_hold (0 <? wal_max_retries cfg) (replica_logs_ s) (flushed_ s) → logs_hold (0 <? wal_max_retries cfg) (replica_logs_ s') (flushed_ s').
Proof.
  intros Hstep Hinv Hl. destruct Hstep as [msg s|i s|i s|i s|acks answers s|s Hst|s|acks s Hst Hrun].
  - unfold enqueue. by repeat case_match.
  - unfold unblock. by repeat case_match.
  - unfold sync_return. by repeat case_match.
  - done.
  - unfold send_step. destruct (sender_ s) as [| | |batch| |]; [done|done|by case_match| | |done]; simpl.
    + destruct (is_nil batch); [done|]. destruct (flush_batch_logs batch acks s) as [-> ->]. by apply logs_hold_flush.
    + destruct (process_retry_logs answers s (0 <? wal_max_retries cfg) (flushed_ s)) as [H ->]; [|done|done].
      intros Hm%Z.ltb_ge. by eapply wal_queue_without_retries.
  - unfold start_replicator. by case_match.
  - done.
  - unfold stop_end. destruct (is_nil (wal_queue s)); [done|]. cbn [set_sender replica_logs_ flushed_].
    destruct (flush_batch_logs (wal_queue s) acks (clear_queue s)) as [-> ->]. by apply logs_hold_flush.
Qed.

Lemma wal_logs_reachable cfg n s : rtc wal_step (new_replicator cfg n) s →
  logs_hold (0 <? wal_max_retries cfg) (replica_logs_ s) (flushed_ s).
Proof.
  intros Hs. assert (wal_inv cfg n (inflight (new_replicator cfg n)) (new_replicator cfg n)) as H0 by apply wal_inv_new.
  assert (logs_hold (0 <? wal_max_retries cfg) (replica_logs_ (new_replicator cfg n)) (flushed_ (new_replicator cfg n))) as H1.
  { intros i log Hi. simpl in Hi. by apply lookup_replicate in Hi as [-> _]. }
  induction Hs as [s|s1 s2 s3 Hstep _ IH]; [done|]. apply IH; [by eapply wal_inv_step|by eapply wal_step_logs].
Qed.

(** C7. Replication loses and reorders nothing before it is sent, and a replica has
    what it acknowledged. In every state that any interleaving of producers, sender,
    start and stop can reach: the batches flushed so far, the batch under way and the
    queue are the accepted ticks, in order; the queue is within its capacity; the log
    of each replica holds, in order, the batches that it acknowledged when they were
    flushed, and nothing that was not flushed. With retries on ([max_retries] above
    0) the batches that some replica did not acknowledge are, in number and modulo
    2^64, those that wait for a retry (each of them a flushed batch with tries
    left), those that some replica took on a retry, and those counted as given up.
    With retries off nothing is ever queued for a retry, and a replica has exactly
    the batches it acknowledged: one it missed is not sent again. *)
Theorem wal_accounts_for_ticks cfg n s :
  rtc wal_step (new_replicator cfg n) s →
  mjoin (flushed_ s).*1 ++ inflight s ++ wal_queue s = accepted_ s ∧
  Z.of_nat (length (wal_queue s)) <= Z.max 0 (wal_queue_capacity cfg) ∧
  Forall (Forall (λ b, b ∈ (flushed_ s).*1)) (replica_logs_ s) ∧
  (∀ i log, replica_logs_ s !! i = Some log → acknowledged i (flushed_ s) `sublist_of` log) ∧
  Forall (λ e, retry_batch e ∈ (flushed_ s).*1 ∧ 0 <= retry_attempts e < wal_max_retries cfg) (retry_queue_ s) ∧
  if 0 <? wal_max_retries cfg then
    u64 (Z.of_nat (length (unacknowledged s))) =
    u64 (Z.of_nat (length (retry_queue_ s)) + wal_stats s Retried + wal_stats s RetryExhausted)
  else retry_queue_ s = [] ∧ ∀ i log, replica_logs_ s !! i = Some log → log = acknowledged i (flushed_ s).
Proof.
  intros Hs. pose proof (wal_inv_reachable cfg n s Hs) as Hinv. pose proof (wal_logs_reachable cfg n s Hs) as Hl.
  pose proof (wal_queue_without_retries _ _ _ _ Hinv) as Hnone. destruct Hinv as [Hc Hn Ho Hb Hlg Hp Hrb Hacc]. split_and!; try done.
  { intros i log Hi. by apply (Hl i log Hi). }
  destruct (Z.ltb_spec 0 (wal_max_retries cfg)) as [Hm|Hm]; [by apply Hacc|].
  split; [by apply Hnone|]. intros i log Hi. apply (Hl i log Hi). done.
Qed.

(** ** Stopping *)

Notation replies := (list bool * list (list bool))%type.
Definition send_steps (rs : list replies) (s : WalReplicator) : WalReplicator := foldl (λ s r, send_step r.1 r.2 s) s rs.

Lemma send_step_fields acks answers s :
  wal_running (send_step acks answers s) = wal_running s ∧ accepted_ (send_step acks answers s) = accepted_ s.
Proof.
  unfold send_step. destruct (sender_ s) as [| | |batch| |]; [done|done|by destruct (_ && _)| | |done].
  - destruct (is_nil batch); [done|]. unfold flush_batch. repeat case_match; done.
  - unfold process_retry_queue. destruct (retry_entries _ _ _) as [rest s1] eqn:H. simpl.
    enough (wal_running s1 = wal_running (set_retry [] s) ∧ accepted_ s1 = accepted_ (set_retry [] s)) by done.
    revert H. generalize (set_retry [] s). generalize (retry_queue_ s) as pending. intros pending. revert answers rest.
    induction pending as [|e pending IH]; intros answers rest s0 H; simpl in H; [by simplify_eq|].
    destruct (retry_entry e _ s0) as [r s2] eqn:H1. destruct (retry_entries pending _ s2) as [rest2 s3] eqn:H2.
    assert (s3 = s1) as -> by (destruct r; by simplify_eq). destruct (IH _ _ _ H2) as [-> ->].
    unfold retry_entry in H1. repeat case_match; by simplify_eq/=.
Qed.

(** Rounds the sender's loop has left once it is stopped. *)
Definition rounds_left (st : sender_state) : nat :=
  match st with NotStarted | Exited => 0 | LoopHead => 1 | Retrying => 2 | Flushing _ => 3 | Waiting => 4 end.

Lemma send_step_left acks answers s : wal_running s = false → sender_ s ≠ NotStarted →
  sender_ (send_step acks answers s) ≠ NotStarted ∧
  (rounds_left (sender_ (send_step acks answers s)) <= pred (rounds_left (sender_ s)))%nat.
Proof.
  intros Hr Hn. unfold send_step. destruct (sender_ s) as [| | |batch| |] eqn:Hs; [done| | | | |].
  - rewrite Hr. simpl. split; [done|lia].
  - destruct (_ && _); simpl; split; (done || lia).
  - simpl. split; [done|lia].
  - simpl. split; [done|lia].
  - rewrite Hs. simpl. split; [done|lia].
Qed.

(** C36. Stopping ends and drains. Once a replicator that was started is told to stop,
    its sender leaves the loop after at most four rounds, whatever the replicas
    reply, and after the final flush every tick that had been accepted was sent, in
    order: the queue is empty and the batches make up the accepted ticks. *)
Theorem wal_stop_drains cfg n s rs acks :
  rtc wal_step (new_replicator cfg n) s → wal_running s = false → sender_ s ≠ NotStarted → (4 <= length rs)%nat →
  let s' := stop_end acks (send_steps rs s) in
  sender_ (send_steps rs s) = Exited ∧ wal_queue s' = [] ∧ mjoin (flushed_ s').*1 = accepted_ s.
Proof.
  intros Hreach Hrun Hne Hlen s'.
  assert (rtc wal_step (new_replicator cfg n) (send_steps rs s) ∧ wal_running (send_steps rs s) = false ∧
    accepted_ (send_steps rs s) = accepted_ s ∧ sender_ (send_steps rs s) ≠ NotStarted ∧
    (rounds_left (sender_ (send_steps rs s)) <= rounds_left (sender_ s) - length rs)%nat) as (Hreach' & Hrun' & Hacc & Hne' & Hleft).
  { clear Hlen s'. revert s Hreach Hrun Hne. induction rs as [|r rs IH]; intros s Hreach Hrun Hne; simpl; [split_and!; (done || lia)|].
    destruct (send_step_fields r.1 r.2 s) as [H1 H2]. destruct (send_step_left r.1 r.2 s Hrun Hne) as [H3 H4].
    destruct (IH (send_step r.1 r.2 s)) as (? & ? & ? & ? & ?); [eapply rtc_r; [done|constructor]|congruence|done|].
    split_and!; [done..|congruence|done|lia]. }
  assert (sender_ (send_steps rs s) = Exited) as Hex.
  { destruct (sender_ (send_steps rs s)); simpl in Hleft; try done; destruct (sender_ s); simpl in Hleft; lia. }
  split; [done|]. assert (wal_inv cfg n (inflight s') s') as Hinv.
  { apply wal_inv_reachable. eapply rtc_r; [done|]. by constructor. }
  assert (wal_queue s' = [] ∧ accepted_ s' = accepted_ s) as [Hq Ha].
  { unfold s', stop_end. destruct (is_nil (wal_queue (send_steps rs s))) eqn:Hq; simpl; [by apply is_nil_true in Hq|].
    unfold flush_batch. repeat case_match; simpl; done. }
  split; [done|]. destruct Hinv as [_ _ Ho _ _ _ _ _]. rewrite Hq, Ha in Ho. unfold s' in Ho at 2. simpl in Ho. by rewrite !app_nil_r in Ho.
Qed.

(** ** Runs *)

Definition tick_of (symbol : Z) : TickMessage := mkTick 0 0 symbol 0 0 0 0 0.
Definition small_config (sync : bool) : ReplicatorConfig := mkReplicatorConfig 256 10 4 sync 1000 0 16 100 3 false 500.

Inductive wal_op : Type :=
  | Enqueue (msg : TickMessage) | SyncReturn (i : nat) | Send (acks : list bool) (answers : list (list bool)) | Start | Stop.

Definition wal_run1 (s : WalReplicator) (op : wal_op) : WalReplicator :=
  match op with
  | Enqueue msg => enqueue msg s
  | SyncReturn i => sync_return i s
  | Send acks answers => send_step acks answers s
  | Start => match sender_ s with NotStarted => start_replicator s | _ => s end
  | Stop => stop_begin s
  end.

Lemma wal_run_reachable cfg n ops : rtc wal_step (new_replicator cfg n) (foldl wal_run1 (new_replicator cfg n) ops).
Proof.
  induction ops as [|op ops IH] using rev_ind; [constructor|]. rewrite foldl_snoc. destruct op as [msg|i|acks answers| |]; simpl.
  1-3: eapply rtc_r; [exact IH|constructor].
  - destruct (sender_ _) eqn:Hs; try exact IH. eapply rtc_r; [exact IH|by constructor].
  - eapply rtc_r; [exact IH|constructor].
Qed.

Definition two_replicas : list wal_op :=
  [Start; Send [] []; Enqueue (tick_of 1); Send [] []; Enqueue (tick_of 2); Send [true; false] []; Send [] [[false; false]]].

Lemma wal_accounts_for_ticks_witness :
  let s := foldl wal_run1 (new_replicator (small_config false) 2) two_replicas in
  mjoin (flushed_ s).*1 ++ inflight s ++ wal_queue s = [tick_of 1; tick_of 2] ∧
  Forall (λ e, retry_batch e ∈ [[tick_of 1]] ∧ 0 <= retry_attempts e < 3) (retry_queue_ s) ∧
  u64 (Z.of_nat (length (unacknowledged s))) = u64 (Z.of_nat (length (retry_queue_ s)) + wal_stats s Retried + wal_stats s RetryExhausted).
Proof.
  destruct (wal_accounts_for_ticks (small_config false) 2 _ (wal_run_reachable (small_config false) 2 two_replicas))
    as (Ho & _ & _ & _ & Hq & Hacc).
  split; [etransitivity; [exact Ho|reflexivity]|]. split; [exact Hq|exact Hacc].
Defined.

Lemma wal_stop_drains_witness :
  let s := foldl wal_run1 (new_replicator (small_config false) 1) [Start; Send [] []; Enqueue (tick_of 1); Enqueue (tick_of 2); Stop] in
  let s' := stop_end [true] (send_steps [([], []); ([], []); ([], []); ([], [])] s) in
  wal_queue s' = [] ∧ mjoin (flushed_ s').*1 = [tick_of 1; tick_of 2].
Proof.
  destruct (wal_stop_drains (small_config false) 1 _ [([], []); ([], []); ([], []); ([], [])] [true]
    (wal_run_reachable (small_config false) 1 [Start; Send [] []; Enqueue (tick_of 1); Enqueue (tick_of 2); Stop])) as (_ & Hq & Hf).
  - reflexivity.
  - discriminate.
  - simpl. lia.
  - split; [exact Hq|]. etransitivity; [exact Hf|reflexivity].
Defined.

(** A retry goes to the wrong replica. With two replicas of which the second
    misses a batch, the retry is sent to the first, which has it already: the
    first replica has the batch twice, the second never gets it, nothing is left
    to retry, and no batch is counted as given up. *)
Theorem retry_misses_replica :
  let s := foldl wal_run1 (new_replicator (small_config false) 2)
    [Enqueue (tick_of 1); Start; Send [] []; Send [] []; Send [true; false] []; Send [] [[true; true]]] in
  replica_logs_ s = [[[tick_of 1]; [tick_of 1]]; []] ∧ retry_queue_ s = [] ∧ wal_queue s = [] ∧
  wal_stats s Retried = 1 ∧ wal_stats s RetryExhausted = 0.
Proof. split_and!; reflexivity. Qed.

(** A synchronous enqueue can return before its tick was sent, and after every
    replica refused it: both producers return, and no replica has anything. *)
Theorem sync_returns_unsent :
  let s := foldl wal_run1 (new_replicator (small_config true) 2)
    [Enqueue (tick_of 1); Start; Send [] []; Send [] []; Enqueue (tick_of 2); Send [false; false] []; SyncReturn 1; SyncReturn 0] in
  sync_done_ s = [tick_of 2; tick_of 1] ∧ replica_logs_ s = [[]; []] ∧ wal_queue s = [tick_of 2].
Proof. split_and!; reflexivity. Qed.
