(* ===== verification/Migration.v ===== *)
(** * PartitionMigrator: moving a symbol's rows to another node

    Models [include/zeptodb/cluster/partition_migrator.h] and
    [src/cluster/partition_migrator.cpp]. The other nodes are reached through
    remote calls, whose replies are parameters that may depend on everything
    sent before; the calls that were made, with their replies, are a log, oldest
    first. [delayed] tells that a copy is not ready when its timeout expires:
    the future of [std::async] is then destroyed, which waits for the copy, so
    the copy still runs to its end. The clock is the parameter [now]. *)

From stdpp Require Import base gmap sets list strings pretty.
From Stdlib Require Import ZArith Lia.
From S2P Require Import Prelude.
From S2P Require Import SchemaRegistry.
From S2P Require Import PartitionRouter.
From S2P Require Import RingBuffer.

Open Scope Z_scope.

Inductive MoveState : Type := PENDING | DUAL_WRITE | COPYING | COMMITTED | FAILED.

#[export] Instance MoveState_eq_dec : EqDecision MoveState.
Proof. solve_decision. Defined.

Definition move_state_str (s : MoveState) : string :=
  match s with
  | PENDING => "PENDING" | DUAL_WRITE => "DUAL_WRITE" | COPYING => "COPYING"
  | FAILED => "FAILED" | COMMITTED => "COMMITTED"
  end.

Record MoveStatus : Type := mkStatus {
  ms_move : Move;
  ms_state : MoveState;
  ms_error : string;
  ms_rows_migrated : Z;
  ms_attempts : Z;
}.

(** ** Checkpoints *)

Abbreviation MigrationCheckpoint := (list MoveStatus).

Definition pending_count (cp : MigrationCheckpoint) : nat :=
  length (filter (λ m, ms_state m = PENDING ∨ ms_state m = FAILED) cp).
Definition committed_count (cp : MigrationCheckpoint) : nat :=
  length (filter (λ m, ms_state m = COMMITTED) cp).
Definition failed_count (cp : MigrationCheckpoint) : nat :=
  length (filter (λ m, ms_state m = FAILED) cp).
Definition all_done (cp : MigrationCheckpoint) : bool := (pending_count cp =? 0)%nat.

(** ** The remote calls *)

Record QueryResult : Type := mkResult {
  q_ok : bool;
  column_names : list string;
  rows : list (list Z);
}.

Inductive remote_call : Type :=
  | CallSelect (node symbol : Z) (reply : QueryResult)
  | CallReplicate (node : Z) (batch : list TickMessage) (ok : bool)
  | CallDelete (node symbol : Z).

Record MigrationStats : Type := mkStats {
  moves_completed : Z;
  moves_failed : Z;
  rows_migrated : Z;
}.

Record PartitionMigrator : Type := mkMigrator {
  nodes_ : gset Z;
  stats_ : MigrationStats;
  max_retries_ : Z;
  move_timeout_sec_ : Z;
  checkpoint_path_ : string;
  throttled_ : option Z;       (** bytes recorded by the throttler, when there is one *)
  sent_ : list remote_call;    (** the log *)
  saved_ : list MigrationCheckpoint; (** what was written to the checkpoint file, oldest first *)
}.

Definition new_migrator : PartitionMigrator :=
  mkMigrator ∅ (mkStats 0 0 0) 3 300 "" None [] [].

(** The position of the last column of that name; [None] is -1. *)
Definition find_col (name : string) (cols : list string) : option nat :=
  foldl (λ acc p, if String.eqb p.2 name then Some p.1 else acc) None (imap pair cols).

(** The tick built from a row; rows have a value for every column. *)
Definition tick_of_row (cols : list string) (symbol : Z) (row : list Z) : TickMessage :=
  let cell name := from_option (λ i, default 0 (row !! i)) 0 (find_col name cols) in
  mkTick 0 (cell "timestamp") (u32 symbol) (cell "price") (cell "volume") 0 0 (stable_table_id "trades").

Section Migrator.
Context (select_reply : list remote_call → Z → Z → QueryResult)
  (replicate_reply : list remote_call → Z → list TickMessage → bool)
  (delayed : list remote_call → bool) (now : Z).

Definition with_stats (m : PartitionMigrator) (st : MigrationStats) : PartitionMigrator :=
  mkMigrator (nodes_ m) st (max_retries_ m) (move_timeout_sec_ m) (checkpoint_path_ m) (throttled_ m)
    (sent_ m) (saved_ m).
Definition count_completed (m : PartitionMigrator) (n : Z) : PartitionMigrator :=
  with_stats m (mkStats (u64 (moves_completed (stats_ m) + 1)) (moves_failed (stats_ m))
    (u64 (rows_migrated (stats_ m) + n))).
Definition count_failed (m : PartitionMigrator) : PartitionMigrator :=
  with_stats m (mkStats (moves_completed (stats_ m)) (u64 (moves_failed (stats_ m) + 1))
    (rows_migrated (stats_ m))).
Definition log_call (m : PartitionMigrator) (c : remote_call) : PartitionMigrator :=
  mkMigrator (nodes_ m) (stats_ m) (max_retries_ m) (move_timeout_sec_ m) (checkpoint_path_ m)
    (throttled_ m) (sent_ m ++ [c]) (saved_ m).
Definition throttle (m : PartitionMigrator) (bytes : Z) : PartitionMigrator :=
  mkMigrator (nodes_ m) (stats_ m) (max_retries_ m) (move_timeout_sec_ m) (checkpoint_path_ m)
    ((λ b, b + bytes) <$> throttled_ m) (sent_ m) (saved_ m).
Definition save_checkpoint (m : PartitionMigrator) (cp : MigrationCheckpoint) : PartitionMigrator :=
  if String.eqb (checkpoint_path_ m) "" then m
  else mkMigrator (nodes_ m) (stats_ m) (max_retries_ m) (move_timeout_sec_ m) (checkpoint_path_ m)
    (throttled_ m) (sent_ m) (saved_ m ++ [cp]).

Definition add_migration_node (m : PartitionMigrator) (id : Z) : PartitionMigrator :=
  mkMigrator ({[id]} ∪ nodes_ m) (stats_ m) (max_retries_ m) (move_timeout_sec_ m)
    (checkpoint_path_ m) (throttled_ m) (sent_ m) (saved_ m).
Definition has_node (m : PartitionMigrator) (id : Z) : bool := bool_decide (id ∈ nodes_ m).
Definition set_max_retries (m : PartitionMigrator) (n : Z) : PartitionMigrator :=
  mkMigrator (nodes_ m) (stats_ m) n (move_timeout_sec_ m) (checkpoint_path_ m) (throttled_ m)
    (sent_ m) (saved_ m).
Definition set_move_timeout (m : PartitionMigrator) (sec : Z) : PartitionMigrator :=
  mkMigrator (nodes_ m) (stats_ m) (max_retries_ m) sec (checkpoint_path_ m) (throttled_ m)
    (sent_ m) (saved_ m).
Definition set_throttler (m : PartitionMigrator) (t : option Z) : PartitionMigrator :=
  mkMigrator (nodes_ m) (stats_ m) (max_retries_ m) (move_timeout_sec_ m) (checkpoint_path_ m) t
    (sent_ m) (saved_ m).
Definition set_checkpoint_path (m : PartitionMigrator) (path : string) : PartitionMigrator :=
  mkMigrator (nodes_ m) (stats_ m) (max_retries_ m) (move_timeout_sec_ m) path (throttled_ m)
    (sent_ m) (saved_ m).

(** The result, and [rows_out]. *)
Definition migrate_symbol (m : PartitionMigrator) (symbol from to : Z) : bool * Z * PartitionMigrator :=
  if has_node m from && has_node m to then
    let result := select_reply (sent_ m) from symbol in
    let m := log_call m (CallSelect from symbol result) in
    if negb (q_ok result) then (false, 0, count_failed m)
    else match rows result with
    | [] => (true, 0, count_completed m 0)
    | _ =>
        let batch := tick_of_row (column_names result) symbol <$> rows result in
        let ok := replicate_reply (sent_ m) to batch in
        let m := log_call m (CallReplicate to batch ok) in
        let n := Z.of_nat (length batch) in
        if ok then (true, n, throttle (count_completed m n) (n * 64)) else (false, 0, count_failed m)
    end
  else (false, 0, m).

(** [DELETE FROM trades WHERE symbol = ...] on the destination; its result is
    only logged. *)
Definition rollback_move (m : PartitionMigrator) (symbol dest : Z) : PartitionMigrator :=
  if has_node m dest then log_call m (CallDelete dest symbol) else m.

Definition execute_move (m : PartitionMigrator) (ms : MoveStatus) (router : PartitionRouter)
    : MoveStatus * PartitionMigrator * PartitionRouter :=
  let attempts := ms_attempts ms + 1 in
  let symbol := move_symbol (ms_move ms) in
  let from := move_from (ms_move ms) in
  let to := move_to (ms_move ms) in
  let router := begin_migration router symbol from to in
  let late := (0 <? move_timeout_sec_ m) && delayed (sent_ m) in
  let '(ok, n, m) := migrate_symbol m symbol from to in
  if late then
    (mkStatus (ms_move ms) FAILED ("move timed out after " +:+ pretty (move_timeout_sec_ m) +:+ "s")
       (ms_rows_migrated ms) attempts, m, end_migration now router symbol)
  else if ok then
    (mkStatus (ms_move ms) COMMITTED "" n attempts, m, commit_migration router symbol to)
  else
    (mkStatus (ms_move ms) FAILED ("migrate_symbol failed (attempt " +:+ pretty attempts +:+ ")")
       (ms_rows_migrated ms) attempts, rollback_move m symbol to, abort_migration router symbol).

Definition with_state (ms : MoveStatus) (s : MoveState) : MoveStatus :=
  mkStatus (ms_move ms) s (ms_error ms) (ms_rows_migrated ms) (ms_attempts ms).

(** The [while] loop of [resume_plan] for one move; [before] and [after] are the
    other moves of the checkpoint, saved with it after each attempt. *)
Fixpoint retry_move (fuel : nat) (before after : list MoveStatus) (m : PartitionMigrator)
    (ms : MoveStatus) (router : PartitionRouter) : MoveStatus * PartitionMigrator * PartitionRouter :=
  match fuel with
  | O => (ms, m, router)
  | S fuel =>
      if bool_decide (ms_state ms = PENDING) && (ms_attempts ms <? max_retries_ m) then
        let '(ms, m, router) := execute_move m ms router in
        let m := save_checkpoint m (before ++ ms :: after) in
        if bool_decide (ms_state ms = COMMITTED) then (ms, m, router)
        else
          let ms := if bool_decide (ms_state ms = FAILED) && (ms_attempts ms <? max_retries_ m)
                    then with_state ms PENDING else ms in
          retry_move fuel before after m ms router
      else (ms, m, router)
  end.

(** Every attempt counts, so [max_retries_ - attempts] of them are enough. *)
Definition retry_fuel (m : PartitionMigrator) (ms : MoveStatus) : nat :=
  Z.to_nat (max_retries_ m - ms_attempts ms).

Fixpoint resume_moves (before : list MoveStatus) (m : PartitionMigrator) (moves : list MoveStatus)
    (router : PartitionRouter) : list MoveStatus * PartitionMigrator * PartitionRouter :=
  match moves with
  | [] => (before, m, router)
  | ms :: after =>
      if bool_decide (ms_state ms = COMMITTED) then resume_moves (before ++ [ms]) m after router
      else
        let ms := if bool_decide (ms_state ms = FAILED) then with_state ms PENDING else ms in
        let '(ms, m, router) := retry_move (retry_fuel m ms) before after m ms router in
        resume_moves (before ++ [ms]) m after router
  end.

Definition resume_plan (m : PartitionMigrator) (checkpoint : MigrationCheckpoint) (router : PartitionRouter)
    : MigrationCheckpoint * PartitionMigrator * PartitionRouter :=
  resume_moves [] m checkpoint router.

Definition execute_plan (m : PartitionMigrator) (plan : list Move) (router : PartitionRouter)
    : MigrationCheckpoint * PartitionMigrator * PartitionRouter :=
  resume_plan m ((λ mv, mkStatus mv PENDING "" 0 0) <$> plan) router.
End Migrator.

(** ** What a move does to the router *)

Section Facts.
Context (select_reply : list remote_call → Z → Z → QueryResult)
  (replicate_reply : list remote_call → Z → list TickMessage → bool)
  (delayed : list remote_call → bool) (now : Z).
Notation execute_move := (execute_move select_reply replicate_reply delayed now).
Notation retry_move := (retry_move select_reply replicate_reply delayed now).
Notation resume_moves := (resume_moves select_reply replicate_reply delayed now).
Notation resume_plan := (resume_plan select_reply replicate_reply delayed now).
Notation execute_plan := (execute_plan select_reply replicate_reply delayed now).

(** Two routers that agree on a symbol. *)
Definition same_symbol (r r' : PartitionRouter) (s : Z) : Prop :=
  pinned_ r' !! s = pinned_ r !! s ∧ cache_ r' !! s = cache_ r !! s ∧
  migrating_ r' !! s = migrating_ r !! s.
Definition same_ring (r r' : PartitionRouter) : Prop :=
  ring_ r' = ring_ r ∧ node_set_ r' = node_set_ r ∧ table_placements_ r' = table_placements_ r.

#[local] Instance same_ring_preorder : PreOrder same_ring.
Proof. split; [by intros ?|]. intros r1 r2 r3 (? & ? & ?) (? & ? & ?). split_and!; congruence. Qed.

Lemma same_symbol_trans r1 r2 r3 s : same_symbol r1 r2 s → same_symbol r2 r3 s → same_symbol r1 r3 s.
Proof. intros (? & ? & ?) (? & ? & ?). split_and!; congruence. Qed.

Lemma route_same r r' s :
  same_ring r r' → pinned_ r' !! s = pinned_ r !! s → cache_ r' !! s = cache_ r !! s →
  (route r' s).1 = (route r s).1.
Proof.
  intros (Hr & _) Hp Hc. unfold route. rewrite Hp, Hc, Hr.
  destruct (pinned_ r !! s); [done|]. destruct (decide (ring_ r = ∅)); [done|].
  destruct (cache_ r !! s); [done|]. by destruct (find_node (ring_ r) (symbol_hash s)).
Qed.

(** What the router says of the move's symbol once the move has ended. *)
Definition move_effect (ms : MoveStatus) (r r' : PartitionRouter) : Prop :=
  let s := move_symbol (ms_move ms) in
  same_ring r r' ∧ migrating_ r' !! s = None ∧ (∀ s', s' ≠ s → same_symbol r r' s') ∧
  (ms_state ms = COMMITTED → pinned_ r' !! s = Some (move_to (ms_move ms))) ∧
  (ms_state ms ≠ COMMITTED → pinned_ r' !! s = pinned_ r !! s ∧ cache_ r' !! s = cache_ r !! s).

Definition same_config (m m' : PartitionMigrator) : Prop :=
  nodes_ m' = nodes_ m ∧ max_retries_ m' = max_retries_ m ∧ move_timeout_sec_ m' = move_timeout_sec_ m ∧
  checkpoint_path_ m' = checkpoint_path_ m.

Lemma migrate_symbol_config m s from to ok n m' :
  migrate_symbol select_reply replicate_reply m s from to = (ok, n, m') → same_config m m'.
Proof. unfold migrate_symbol. intros H. repeat case_match; simplify_eq; done. Qed.

Lemma execute_move_spec m ms r ms' m' r' :
  execute_move m ms r = (ms', m', r') →
  (ms_state ms' = COMMITTED ∨ ms_state ms' = FAILED) ∧ ms_move ms' = ms_move ms ∧
  ms_attempts ms' = ms_attempts ms + 1 ∧ same_config m m' ∧ move_effect ms' r r'.
Proof.
  unfold execute_move. set (s := move_symbol (ms_move ms)).
  destruct (migrate_symbol _ _ _ _ _ _) as [[ok n] m1] eqn:Hm.
  pose proof (migrate_symbol_config _ _ _ _ _ _ _ Hm) as Hc.
  destruct (_ && delayed _).
  - intros [= <- <- <-]. split_and!; try done; [by right|].
    unfold end_migration, begin_migration. simpl. rewrite lookup_insert_eq.
    split_and!; simpl; try done.
    + by rewrite lookup_delete_eq.
    + intros s' Hs. split_and!; try done. simpl.
      by rewrite lookup_delete_ne, lookup_insert_ne.
  - destruct ok; intros [= <- <- <-].
    + split_and!; try done; [by left|]. split_and!; simpl; try done.
      * by rewrite lookup_delete_eq.
      * intros s' Hs. split_and!; simpl; rewrite ?lookup_delete_ne, ?lookup_insert_ne by done; done.
      * intros _. by rewrite lookup_insert_eq.
    + split_and!; try done; [by right| |].
      { unfold rollback_move. by case_match. }
      split_and!; simpl; try done.
      * by rewrite lookup_delete_eq.
      * intros s' Hs. split_and!; try done. simpl. by rewrite lookup_delete_ne, lookup_insert_ne.
Qed.

Lemma save_checkpoint_config m cp : same_config m (save_checkpoint m cp).
Proof. unfold save_checkpoint. by case_match. Qed.

(** Repeated attempts compose. *)
Lemma move_effect_trans ms1 ms2 r1 r2 r3 :
  ms_move ms1 = ms_move ms2 → ms_state ms1 ≠ COMMITTED →
  move_effect ms1 r1 r2 → move_effect ms2 r2 r3 → move_effect ms2 r1 r3.
Proof.
  intros Hm Hs (H1 & H2 & H3 & _ & H5) (K1 & K2 & K3 & K4 & K5). rewrite Hm in *.
  split_and!; [by etrans|done| |done|].
  - intros s' Hne. eapply same_symbol_trans; auto.
  - intros Hc. destruct (K5 Hc) as [-> ->]. by apply H5.
Qed.

Lemma retry_move_spec fuel before after m ms r ms' m' r' :
  ms_state ms = PENDING → ms_attempts ms < max_retries_ m → fuel = retry_fuel m ms →
  retry_move fuel before after m ms r = (ms', m', r') →
  ms_move ms' = ms_move ms ∧ same_config m m' ∧ move_effect ms' r r' ∧
  ms_attempts ms < ms_attempts ms' <= max_retries_ m ∧
  (ms_state ms' = COMMITTED ∨ ms_state ms' = FAILED ∧ ms_attempts ms' = max_retries_ m).
Proof.
  unfold retry_fuel. revert m ms r. induction fuel as [|fuel IH]; intros m ms r Hp Ha Hf H; [lia|].
  cbn [Migration.retry_move] in H. rewrite bool_decide_true in H by done.
  rewrite (proj2 (Z.ltb_lt _ _) Ha) in H. simpl in H.
  destruct (execute_move m ms r) as [[ms1 m1] r1] eqn:He.
  destruct (execute_move_spec _ _ _ _ _ _ He) as (Hst & Hmv & Hat & Hc1 & Heff).
  set (m2 := save_checkpoint m1 (before ++ ms1 :: after)) in *.
  assert (same_config m m2) as Hc.
  { destruct Hc1 as (? & ? & ? & ?), (save_checkpoint_config m1 (before ++ ms1 :: after)) as (? & ? & ? & ?).
    unfold m2, same_config. split_and!; congruence. }
  pose proof Hc as (Hn & Hmax & Ht & Hcp).
  destruct Hst as [Hst|Hst]; rewrite Hst in H; simpl in H.
  - simplify_eq. split_and!; try done; try lia. by left.
  - destruct (Z.ltb_spec (ms_attempts ms1) (max_retries_ m2)).
    + apply IH in H; [|done|simpl; lia|simpl; lia].
      destruct H as (H1 & H2 & H3 & H4 & H5). simpl in *. rewrite Hmax in *.
      split_and!; try lia; try congruence.
      * destruct H2 as (? & ? & ? & ?). unfold same_config. split_and!; congruence.
      * eapply (move_effect_trans ms1); [congruence|congruence|done|done].
    + assert (fuel = 0%nat) as -> by lia. simpl in H. simplify_eq.
      split_and!; try done; try lia. right. split; [done|]. lia.
Qed.

(** A move whose attempts are used up is left PENDING. *)
Lemma retry_move_exhausted fuel before after m ms r :
  max_retries_ m <= ms_attempts ms → retry_move fuel before after m ms r = (ms, m, r).
Proof.
  intros Ha. destruct fuel; [done|]. cbn [Migration.retry_move].
  rewrite (proj2 (Z.ltb_ge _ _) Ha), andb_false_r. done.
Qed.

(** The moves of a plan, from where the checkpoint stands. *)
Definition ended (m : PartitionMigrator) (r r' : PartitionRouter) (ms : MoveStatus) : Prop :=
  let s := move_symbol (ms_move ms) in
  0 < ms_attempts ms <= max_retries_ m ∧ migrating_ r' !! s = None ∧
  (ms_state ms = COMMITTED ∧ pinned_ r' !! s = Some (move_to (ms_move ms)) ∨
   ms_state ms = FAILED ∧ ms_attempts ms = max_retries_ m ∧
   pinned_ r' !! s = pinned_ r !! s ∧ cache_ r' !! s = cache_ r !! s).

Notation symbols moves := ((λ ms, move_symbol (ms_move ms)) <$> moves).

Lemma resume_moves_fresh before m moves r cp m' r' :
  0 < max_retries_ m → NoDup (symbols moves) →
  Forall (λ ms, ms_state ms = PENDING ∧ ms_attempts ms = 0) moves →
  resume_moves before m moves r = (cp, m', r') →
  ∃ done_, cp = before ++ done_ ∧ ms_move <$> done_ = ms_move <$> moves ∧ same_config m m' ∧
    same_ring r r' ∧ (∀ s, s ∉ symbols moves → same_symbol r r' s) ∧ Forall (ended m r r') done_.
Proof.
  intros Hmax. revert before m r Hmax. induction moves as [|ms moves IH]; intros before m r Hmax Hnd Hall H.
  - simpl in H. simplify_eq. exists []. rewrite app_nil_r. split_and!; done || constructor.
  - cbn [Migration.resume_moves] in H. apply Forall_cons in Hall as [[Hp Ha] Hall].
    apply NoDup_cons in Hnd as [Hnotin Hnd]. rewrite Hp in H. simpl in H.
    destruct (retry_move (retry_fuel m ms) before moves m ms r) as [[ms1 m1] r1] eqn:Hr.
    assert (ms_attempts ms < max_retries_ m) as Hlt by lia.
    destruct (retry_move_spec _ _ _ _ _ _ _ _ _ Hp Hlt eq_refl Hr) as (Hmv & Hc & Heff & Hat & Hst).
    pose proof Hc as (Hn1 & Hmax1 & Ht1 & Hcp1).
    assert (0 < max_retries_ m1) as Hmax' by lia.
    destruct (IH (before ++ [ms1]) m1 r1 Hmax' Hnd Hall H) as (dn & -> & Hmvs & Hc' & Hring & Hsame & Hend).
    destruct Heff as (E1 & E2 & E3 & E4 & E5). rewrite Hmv in *.
    destruct (Hsame _ Hnotin) as (S1 & S2 & S3).
    exists (ms1 :: dn). split_and!.
    + by rewrite <- app_assoc.
    + by rewrite !fmap_cons, Hmv, Hmvs.
    + destruct Hc' as (? & ? & ? & ?). unfold same_config. split_and!; congruence.
    + by etrans.
    + intros s Hs. apply not_elem_of_cons in Hs as [Hs1 Hs2].
      eapply same_symbol_trans; [apply E3; congruence|by apply Hsame].
    + apply Forall_cons. split.
      * unfold ended. rewrite Hmv. split_and!; [lia|lia|congruence|].
        destruct Hst as [Hst|[Hst Hatt]]; [left|right]; rewrite Hst in *.
        { split; [done|]. rewrite S1. by apply E4. }
        destruct (E5 ltac:(done)) as [P1 P2]. split_and!; try done; congruence.
      * rewrite Forall_forall in Hend |- *. intros ms2 Hin.
        destruct (Hend ms2 Hin) as (A1 & A2 & A3). unfold ended. rewrite Hmax1 in *.
        split_and!; try done; try lia.
        assert (move_symbol (ms_move ms2) ≠ move_symbol (ms_move ms)) as Hne.
        { intros Heq. apply Hnotin. rewrite <- Heq. rewrite (list_fmap_compose ms_move move_symbol).
          rewrite <- Hmvs. by apply list_elem_of_fmap_2, list_elem_of_fmap_2. }
        destruct (E3 _ Hne) as (Q1 & Q2 & _).
        destruct A3 as [?|(B1 & B2 & B3 & B4)]; [by left|]. right. split_and!; congruence.
Qed.

(** C30. Every move of a plan of distinct symbols ends, within [max_retries_]
    attempts, when [max_retries_] is positive: it is COMMITTED, and
    [route(symbol)] answers the destination, or it is FAILED after exactly
    [max_retries_] attempts, and [route(symbol)] answers as before. No symbol of
    the plan is left in dual-write; for no other symbol does [route(symbol)] or
    the dual-write target change, and the router's members and table placements
    are as before. The claim is about the routing of symbols without a table:
    [route(table, symbol)] reads no pins, so that a committed move does not
    redirect it; and rows that a failed move has already copied to the
    destination can stay there when the rollback does not reach it. *)
Theorem execute_plan_outcome m plan r cp m' r' :
  0 < max_retries_ m → NoDup (move_symbol <$> plan) → execute_plan m plan r = (cp, m', r') →
  ms_move <$> cp = plan ∧
  (∀ i ms, cp !! i = Some ms →
    let s := move_symbol (ms_move ms) in
    0 < ms_attempts ms <= max_retries_ m ∧ migration_target r' s = None ∧
    (ms_state ms = COMMITTED ∧ (route r' s).1 = Returned (move_to (ms_move ms)) ∨
     ms_state ms = FAILED ∧ ms_attempts ms = max_retries_ m ∧ (route r' s).1 = (route r s).1)) ∧
  (∀ s, s ∉ move_symbol <$> plan →
    (route r' s).1 = (route r s).1 ∧ migration_target r' s = migration_target r s) ∧
  node_set_ r' = node_set_ r ∧ table_placements_ r' = table_placements_ r.
Proof.
  intros Hmax Hnd He. set (moves := (λ mv, mkStatus mv PENDING "" 0 0) <$> plan).
  assert (ms_move <$> moves = plan) as Hmv.
  { unfold moves. rewrite <- list_fmap_compose. apply list_fmap_id. }
  assert (symbols moves = move_symbol <$> plan) as Hsy.
  { rewrite <- Hmv. by rewrite <- list_fmap_compose. }
  destruct (resume_moves_fresh [] m moves r cp m' r') as (dn & -> & Hd & Hc & Hring & Hsame & Hend);
    [done|by rewrite Hsy| |exact He|].
  { unfold moves. apply Forall_fmap, Forall_true. done. }
  simpl. rewrite Hmv in Hd. split; [done|]. split; [|split; [|by destruct Hring as (_ & ? & ?)]].
  - intros i ms Hi. pose proof (Forall_lookup_1 _ _ _ _ Hend Hi) as (H1 & H2 & H3).
    split; [done|]. split; [done|]. destruct H3 as [[H3 H4]|(H3 & H4 & H5 & H6)]; [left|right].
    + split; [done|]. unfold route. by rewrite H4.
    + split_and!; [done..|]. by apply route_same.
  - intros s Hs. rewrite <- Hsy in Hs. destruct (Hsame s Hs) as (H1 & H2 & H3).
    split; [by apply route_same|done].
Qed.

(** Resuming a plan whose failed moves have used up their attempts calls no
    node and changes neither router nor statistics; the moves come back as
    PENDING, so that [failed_count] is 0 and the plan is never done. *)
Theorem resume_exhausted m cp r :
  Forall (λ ms, ms_state ms = FAILED ∧ max_retries_ m <= ms_attempts ms) cp → cp ≠ [] →
  ∃ cp', resume_plan m cp r = (cp', m, r) ∧ cp' = (λ ms, with_state ms PENDING) <$> cp ∧
    failed_count cp' = 0%nat ∧ all_done cp' = false.
Proof.
  intros Hall Hne. exists ((λ ms, with_state ms PENDING) <$> cp).
  assert (∀ before, resume_moves before m cp r =
    (before ++ ((λ ms, with_state ms PENDING) <$> cp), m, r)) as Hres.
  { clear Hne. induction Hall as [|ms cp [Hs Ha] Hall IH]; intros before; simpl; [by rewrite app_nil_r|].
    rewrite Hs. simpl. rewrite retry_move_exhausted by (simpl; lia). rewrite IH.
    by rewrite <- app_assoc. }
  split_and!; [apply Hres|done| |].
  - unfold failed_count. clear. induction cp as [|ms cp IH]; [done|].
    by rewrite fmap_cons, filter_cons_False by done.
  - destruct cp as [|ms cp]; [done|]. unfold all_done, pending_count.
    by rewrite fmap_cons, filter_cons_True by (by left).
Qed.

(** ** What reaches the destination *)

(** The ticks of a symbol that a node holds when it stores the batches it
    acknowledges and executes the deletions it is sent. *)
Definition held_step (node symbol : Z) (h : list TickMessage) (c : remote_call) : list TickMessage :=
  match c with
  | CallReplicate n batch true =>
      if n =? node then h ++ filter (λ t, symbol_id t = u32 symbol) batch else h
  | CallDelete n s => if (n =? node) && (s =? symbol) then [] else h
  | _ => h
  end.
Definition held (log : list remote_call) (node symbol : Z) : list TickMessage :=
  foldl (held_step node symbol) [] log.

Lemma held_snoc log c node symbol : held (log ++ [c]) node symbol = held_step node symbol (held log node symbol) c.
Proof. unfold held. by rewrite foldl_app. Qed.

Lemma ticks_of_symbol cols s (rs : list (list Z)) :
  filter (λ t, symbol_id t = u32 s) (tick_of_row cols s <$> rs) = tick_of_row cols s <$> rs.
Proof. apply filter_all, Forall_fmap, Forall_true. done. Qed.

Definition timeouts_never (m : PartitionMigrator) : Prop :=
  move_timeout_sec_ m <= 0 ∨ ∀ log, delayed log = false.

(** A copy the source answered, as the destination stores it. *)
Definition copied (s from : Z) (ts : list TickMessage) : Prop :=
  ∃ log, let res := select_reply log from s in
    q_ok res = true ∧ ts = tick_of_row (column_names res) s <$> rows res.

Lemma execute_move_copies m ms r ms' m' r' :
  timeouts_never m → execute_move m ms r = (ms', m', r') →
  let s := move_symbol (ms_move ms) in
  let to := move_to (ms_move ms) in
  held (sent_ m) to s = [] →
  (ms_state ms' = COMMITTED ∧ copied s (move_from (ms_move ms)) (held (sent_ m') to s) ∧
   ms_rows_migrated ms' = Z.of_nat (length (held (sent_ m') to s))) ∨
  (ms_state ms' = FAILED ∧ held (sent_ m') to s = []).
Proof.
  intros Hnt He s to Hh. unfold execute_move in He.
  assert ((0 <? move_timeout_sec_ m) && delayed (sent_ m) = false) as Hlate.
  { destruct Hnt as [Hle|Hd]; [by rewrite (proj2 (Z.ltb_ge _ _) Hle)|by rewrite Hd, andb_false_r]. }
  rewrite Hlate in He. fold s to in He. set (from := move_from (ms_move ms)) in *.
  assert (∀ m, held (sent_ (rollback_move m s to)) to s = [] ∨
    rollback_move m s to = m ∧ has_node m to = false) as Hroll.
  { intros m0. unfold rollback_move. destruct (has_node m0 to); [left|by right].
    simpl. rewrite held_snoc. simpl. by rewrite !Z.eqb_refl. }
  unfold migrate_symbol in He. destruct (has_node m from && has_node m to) eqn:Hn.
  2:{ simplify_eq. right. split; [done|]. destruct (Hroll m) as [?|[-> _]]; done. }
  apply andb_true_iff in Hn as [_ Hto].
  set (res := select_reply (sent_ m) from s) in *.
  assert (held (sent_ m ++ [CallSelect from s res]) to s = []) as Hh1 by (by rewrite held_snoc).
  assert (∀ m1, has_node m1 to = true → held (sent_ (rollback_move m1 s to)) to s = []) as Hrb.
  { intros m1 H1. destruct (Hroll m1) as [?|[_ ?]]; congruence. }
  destruct (negb (q_ok res)) eqn:Hok.
  { simplify_eq. right. split; [done|]. by apply Hrb. }
  apply negb_false_iff in Hok. destruct (rows res) as [|row rs] eqn:Hrows.
  - simplify_eq. left. simpl. rewrite Hh1. split_and!; [done| |done].
    exists (sent_ m). cbn zeta. fold from. fold res. by rewrite Hrows.
  - cbv zeta in He. rewrite <- Hrows in He. destruct (replicate_reply _ _ _) eqn:Hrep; simplify_eq.
    + left. simpl sent_. rewrite held_snoc, Hh1. simpl held_step. rewrite Z.eqb_refl. simpl app.
      rewrite ticks_of_symbol. split_and!; [done| |].
      * exists (sent_ m). by cbn zeta.
      * done.
    + right. split; [done|]. by apply Hrb.
Qed.

Lemma retry_move_copies fuel before after m ms r ms' m' r' :
  timeouts_never m → ms_state ms = PENDING → ms_attempts ms < max_retries_ m → fuel = retry_fuel m ms →
  retry_move fuel before after m ms r = (ms', m', r') →
  let s := move_symbol (ms_move ms) in
  let to := move_to (ms_move ms) in
  held (sent_ m) to s = [] →
  (ms_state ms' = COMMITTED ∧ copied s (move_from (ms_move ms)) (held (sent_ m') to s) ∧
   ms_rows_migrated ms' = Z.of_nat (length (held (sent_ m') to s))) ∨
  (ms_state ms' = FAILED ∧ held (sent_ m') to s = []).
Proof.
  cbv zeta. unfold retry_fuel. revert m ms r. induction fuel as [|fuel IH]; intros m ms r Hnt Hp Ha Hf H Hh; [lia|].
  cbn [Migration.retry_move] in H. rewrite bool_decide_true in H by done.
  rewrite (proj2 (Z.ltb_lt _ _) Ha) in H. simpl in H.
  destruct (execute_move m ms r) as [[ms1 m1] r1] eqn:He.
  destruct (execute_move_spec _ _ _ _ _ _ He) as (_ & Hmv & Hat & Hc1 & _).
  assert (∀ cp, sent_ (save_checkpoint m1 cp) = sent_ m1) as Hsent.
  { intros cp. unfold save_checkpoint. by destruct (String.eqb (checkpoint_path_ m1) ""). }
  destruct (execute_move_copies _ _ _ _ _ _ Hnt He Hh) as [(Hst & H1 & H2)|[Hst H1]]; rewrite Hst in H; simpl in H.
  - simplify_eq. rewrite Hsent. left. by split_and!.
  - set (m2 := save_checkpoint m1 (before ++ ms1 :: after)) in *.
    pose proof (save_checkpoint_config m1 (before ++ ms1 :: after)) as Hc2. fold m2 in Hc2.
    assert (sent_ m2 = sent_ m1) as Hs2 by (unfold m2; by rewrite Hsent).
    destruct Hc1 as (_ & Hmax1 & Ht1 & _), Hc2 as (_ & Hmax2 & Ht2 & _).
    destruct (Z.ltb_spec (ms_attempts ms1) (max_retries_ m2)).
    + pose proof (IH m2 (with_state ms1 PENDING) r1) as IH'. simpl in IH'. rewrite Hmv in IH'.
      apply IH'; try done; try lia.
      * unfold timeouts_never. rewrite Ht2, Ht1. done.
      * by rewrite Hs2.
    + assert (fuel = 0%nat) as -> by lia. simpl in H. simplify_eq. right.
      split; [done|]. by rewrite Hs2.
Qed.

(** Without timeouts a move copies its symbol exactly once: when it is
    COMMITTED the destination holds exactly the ticks of one answer of the
    source, and as many as [rows_migrated] says, however many attempts failed
    before; when it is FAILED the destination holds none. *)
Theorem move_copies_once m mv r cp m' r' :
  timeouts_never m → 0 < max_retries_ m → held (sent_ m) (move_to mv) (move_symbol mv) = [] →
  execute_plan m [mv] r = (cp, m', r') →
  ∃ ms, cp = [ms] ∧
    let h := held (sent_ m') (move_to mv) (move_symbol mv) in
    (ms_state ms = COMMITTED ∧ copied (move_symbol mv) (move_from mv) h ∧
     ms_rows_migrated ms = Z.of_nat (length h)) ∨
    (ms_state ms = FAILED ∧ h = []).
Proof.
  intros Hnt Hmax Hh He. unfold execute_plan, resume_plan in He. simpl in He.
  set (ms0 := mkStatus mv PENDING "" 0 0) in *.
  destruct (retry_move (retry_fuel m ms0) [] [] m ms0 r) as [[ms m1] r1] eqn:Hr. simplify_eq.
  exists ms. split; [done|].
  by apply (retry_move_copies (retry_fuel m ms0) [] [] m ms0 r ms m' r').
Qed.
End Facts.

(** ** Concrete runs *)

Definition one_row (log : list remote_call) (node symbol : Z) : QueryResult :=
  mkResult true ["timestamp"; "price"; "volume"] [[5; 100; 10]].
Definition all_stored (log : list remote_call) (node : Z) (batch : list TickMessage) : bool := true.
Definition demo_migrator : PartitionMigrator := mkMigrator {[1; 2]} (mkStats 0 0 0) 3 300 "" None [] [].
Definition demo_move : Move := mkMove 7 1 2.

Lemma execute_plan_outcome_witness :
  ∃ cp m' r', execute_plan one_row all_stored (λ _, false) 0 demo_migrator [demo_move] empty_router = (cp, m', r') ∧
    ms_move <$> cp = [demo_move].
Proof.
  destruct (execute_plan one_row all_stored (λ _, false) 0 demo_migrator [demo_move] empty_router)
    as [[cp m'] r'] eqn:H.
  exists cp, m', r'. split; [reflexivity|].
  apply (execute_plan_outcome one_row all_stored (λ _, false) 0 demo_migrator [demo_move] empty_router cp m' r').
  - reflexivity.
  - repeat constructor. intros ?%elem_of_nil. done.
  - exact H.
Defined.

Lemma resume_exhausted_witness :
  ∃ cp', resume_plan one_row all_stored (λ _, false) 0 demo_migrator [mkStatus demo_move FAILED "" 0 3] empty_router =
    (cp', demo_migrator, empty_router) ∧ failed_count cp' = 0%nat.
Proof.
  destruct (resume_exhausted one_row all_stored (λ _, false) 0 demo_migrator
    [mkStatus demo_move FAILED "" 0 3] empty_router) as (cp' & H1 & _ & H2 & _).
  - repeat constructor. simpl. lia.
  - done.
  - exists cp'. split; [exact H1|exact H2].
Defined.

Lemma move_copies_once_witness :
  ∃ ms m' r', execute_plan one_row all_stored (λ _, false) 0 demo_migrator [demo_move] empty_router = ([ms], m', r').
Proof.
  destruct (execute_plan one_row all_stored (λ _, false) 0 demo_migrator [demo_move] empty_router)
    as [[cp m'] r'] eqn:H.
  destruct (move_copies_once one_row all_stored (λ _, false) 0 demo_migrator demo_move empty_router cp m' r')
    as (ms & Hms & _).
  - by right.
  - reflexivity.
  - reflexivity.
  - exact H.
  - exists ms, m', r'. by rewrite Hms.
Defined.

(** A timeout breaks this. The copy whose timeout expired is not undone and
    still runs to its end, and the next attempt copies again: a move that
    reports one migrated row leaves the destination with two. *)
Theorem timeout_duplicates_rows :
  let late log := bool_decide (length log = 0%nat) in
  ∃ ms m' r', execute_plan one_row all_stored late 0 demo_migrator [demo_move] empty_router = ([ms], m', r') ∧
    ms_state ms = COMMITTED ∧ ms_attempts ms = 2 ∧ ms_rows_migrated ms = 1 ∧
    length (rows (one_row [] 1 7)) = 1%nat ∧ length (held (sent_ m') 2 7) = 2%nat.
Proof. do 3 eexists. split; [vm_compute; reflexivity|]. repeat split. Qed.
