(* ===== verification/Rebalance.v ===== *)
(** * RebalanceManager: running a migration plan

    Models [include/zeptodb/cluster/rebalance_manager.h] and
    [src/cluster/rebalance_manager.cpp]. The worker thread is a program counter;
    [worker_step] is one iteration of its loop, or one of the steps that close a run:
    the section under [mu_] that reads the action and the counts, the load of
    [state_], the change of the ring, each broadcast, the section that records the
    run, and the store of IDLE. A [start_*] call records its action, wins the
    compare-exchange of [start_plan], joins the last worker, resets the status and
    starts the thread in five steps; [pause], [resume] and [cancel] change [state_]
    and then, in a second step, the status. A move of the loop is one step: between
    its load of [state_] and its end it writes only what no caller reads or writes
    but for reports of the status. The router is shared with the consensus object, as
    in the program. Remote replies are the parameters of [Migration]; the comparison
    of the policy's [double] ratio is the parameter [ratio_exceeds]. *)

From stdpp Require Import base gmap sets list relations strings pretty.
From Stdlib Require Import ZArith Lia.
From S2P Require Import Prelude.
From S2P Require Import PartitionRouter.
From S2P Require Import Fencing.
From S2P Require Import RingConsensus.
From S2P Require Import RingBuffer.
From S2P Require Import Migration.

Open Scope Z_scope.

Inductive RebalanceAction : Type := NONE | ADD_NODE | REMOVE_NODE.
Inductive RebalanceState : Type := IDLE | RUNNING | PAUSED | CANCELLING.

#[export] Instance RebalanceAction_eq_dec : EqDecision RebalanceAction.
Proof. solve_decision. Defined.
#[export] Instance RebalanceState_eq_dec : EqDecision RebalanceState.
Proof. solve_decision. Defined.

Record RebalanceConfig : Type := mkConfig {
  checkpoint_dir : string;
  cfg_move_timeout_sec : Z;
  max_bandwidth_mbps : Z;
  policy_enabled : bool;
  check_interval_sec : Z;
  cooldown_sec : Z;
}.

Record RebalanceStatus : Type := mkRStatus {
  rs_state : RebalanceState;
  total_moves : Z;
  completed_moves : Z;
  failed_moves : Z;
  current_symbol : string;
}.

Record RebalanceHistoryEntry : Type := mkEntry {
  h_action : RebalanceAction;
  h_node : Z;
  h_total : Z;
  h_completed : Z;
  h_failed : Z;
  h_cancelled : bool;
}.

Definition MAX_HISTORY : nat := 50.

(** Where the worker thread is. In the closing steps it holds what it read under the
    lock: the action and its node, the counts and the moves. *)
Inductive worker_pc : Type :=
  | AtMove (i : nat)  (** the head of the loop *)
  | Waiting (i : nat) (** in [cv_.wait] *)
  | Applying          (** before the section that reads the action *)
  | Deciding (act : RebalanceAction) (node completed failed : Z) (moves : list Move) (** before the load of [state_] *)
  | Changing (act : RebalanceAction) (node : Z)  (** before [router_.add_node] or [remove_node] *)
  | Proposing (act : RebalanceAction) (node : Z) (** before [propose_add] or [propose_remove] *)
  | Pinning (moves : list Move) (** the moves not proposed yet *)
  | Recording         (** before the section that records the run *)
  | Storing.          (** before the store of IDLE *)

(** Where a [start_plan] is that won its compare-exchange. *)
Inductive launch_pc : Type :=
  | Joining (plan : list Move)
  | Resetting (plan : list Move)
  | Spawning.

(** [starting_] are the [start_*] calls before their compare-exchange: the plan, and
    the policy's clock when it is the caller. [reports_] are the calls of [pause],
    [resume] and [cancel] that have changed [state_] but not the status. *)
Record RebalanceManager : Type := mkRebalance {
  rm_router : PartitionRouter;
  rm_migrator : PartitionMigrator;
  cfg_ : RebalanceConfig;
  state_ : RebalanceState;
  plan_ : list Move;
  status_ : RebalanceStatus;
  worker_ : option worker_pc;
  action_ : RebalanceAction;
  action_node_ : Z;
  consensus_ : option (FencingToken * list Z); (** its token and its peers *)
  history_ : list RebalanceHistoryEntry;
  starting_ : list (list Move * option Z);
  launching_ : option launch_pc;
  reports_ : list RebalanceState;
  policy_running_ : bool;
  last_auto_rebalance_ : Z;
}.

Definition new_rebalance (r : PartitionRouter) (m : PartitionMigrator) (cfg : RebalanceConfig)
    : RebalanceManager :=
  mkRebalance r m cfg IDLE [] (mkRStatus IDLE 0 0 0 "") None NONE 0 None [] [] None [] false 0.

(** Field updates. *)
Definition set_worker (m : RebalanceManager) (r : PartitionRouter) (mg : PartitionMigrator)
    (st : RebalanceStatus) (w : option worker_pc) (c : option (FencingToken * list Z)) : RebalanceManager :=
  mkRebalance r mg (cfg_ m) (state_ m) (plan_ m) st w (action_ m) (action_node_ m) c (history_ m)
    (starting_ m) (launching_ m) (reports_ m) (policy_running_ m) (last_auto_rebalance_ m).
Definition go (m : RebalanceManager) (w : worker_pc) : RebalanceManager :=
  set_worker m (rm_router m) (rm_migrator m) (status_ m) (Some w) (consensus_ m).
(** [state_] by a call whose report is still to come. *)
Definition set_state_only (m : RebalanceManager) (s : RebalanceState) (reports : list RebalanceState) : RebalanceManager :=
  mkRebalance (rm_router m) (rm_migrator m) (cfg_ m) s (plan_ m) (status_ m) (worker_ m) (action_ m)
    (action_node_ m) (consensus_ m) (history_ m) (starting_ m) (launching_ m) reports
    (policy_running_ m) (last_auto_rebalance_ m).
Definition set_status (m : RebalanceManager) (plan : list Move) (st : RebalanceStatus) (reports : list RebalanceState)
    (l : option launch_pc) : RebalanceManager :=
  mkRebalance (rm_router m) (rm_migrator m) (cfg_ m) (state_ m) plan st (worker_ m) (action_ m)
    (action_node_ m) (consensus_ m) (history_ m) (starting_ m) l reports
    (policy_running_ m) (last_auto_rebalance_ m).
Definition set_action (m : RebalanceManager) (a : RebalanceAction) (node : Z) (starting : list (list Move * option Z))
    : RebalanceManager :=
  mkRebalance (rm_router m) (rm_migrator m) (cfg_ m) (state_ m) (plan_ m) (status_ m) (worker_ m) a node
    (consensus_ m) (history_ m) starting (launching_ m) (reports_ m) (policy_running_ m) (last_auto_rebalance_ m).
Definition set_policy (m : RebalanceManager) (running : bool) (last : Z) : RebalanceManager :=
  mkRebalance (rm_router m) (rm_migrator m) (cfg_ m) (state_ m) (plan_ m) (status_ m) (worker_ m)
    (action_ m) (action_node_ m) (consensus_ m) (history_ m) (starting_ m) (launching_ m) (reports_ m) running last.
Definition set_consensus (m : RebalanceManager) (c : option (FencingToken * list Z)) : RebalanceManager :=
  set_worker m (rm_router m) (rm_migrator m) (status_ m) (worker_ m) c.
Definition set_max_bandwidth_mbps (m : RebalanceManager) (mbps : Z) : RebalanceManager :=
  let c := cfg_ m in
  mkRebalance (rm_router m) (rm_migrator m)
    (mkConfig (checkpoint_dir c) (cfg_move_timeout_sec c) mbps (policy_enabled c) (check_interval_sec c)
      (cooldown_sec c))
    (state_ m) (plan_ m) (status_ m) (worker_ m) (action_ m) (action_node_ m) (consensus_ m) (history_ m)
    (starting_ m) (launching_ m) (reports_ m) (policy_running_ m) (last_auto_rebalance_ m).

(** ** Starting *)

(** The compare-exchange of [start_plan] for the [j]-th call under way: it loses
    unless the manager is IDLE. The policy notes the time of its own success. *)
Definition launch (m : RebalanceManager) (j : nat) : bool * RebalanceManager :=
  match starting_ m !! j with
  | Some (plan, auto) =>
      let m := set_action m (action_ m) (action_node_ m) (delete j (starting_ m)) in
      if bool_decide (state_ m = IDLE) then
        let m := set_state_only m RUNNING (reports_ m) in
        (true, set_policy (set_status m (plan_ m) (status_ m) (reports_ m) (Some (Joining plan)))
                 (policy_running_ m) (default (last_auto_rebalance_ m) auto))
      else (false, m)
  | None => (false, m)
  end.

(** What the configuration says to the migrator. *)
Definition configure_migrator (c : RebalanceConfig) (mg : PartitionMigrator) : PartitionMigrator :=
  let mg := if String.eqb (checkpoint_dir c) "" then mg
            else set_checkpoint_path mg (checkpoint_dir c +:+ "/rebalance.json") in
  let mg := if 0 <? cfg_move_timeout_sec c then set_move_timeout mg (cfg_move_timeout_sec c) else mg in
  set_throttler mg (if 0 <? max_bandwidth_mbps c then Some (default 0 (throttled_ mg)) else None).

(** The rest of [start_plan]: the join, which waits for the last worker's end, the
    section under [mu_], and the thread. *)
Definition launch_step (m : RebalanceManager) : option RebalanceManager :=
  match launching_ m with
  | Some (Joining plan) =>
      match worker_ m with
      | None => Some (set_status m (plan_ m) (status_ m) (reports_ m) (Some (Resetting plan)))
      | Some _ => None
      end
  | Some (Resetting plan) =>
      Some (set_status m plan (mkRStatus RUNNING (Z.of_nat (length plan)) 0 0 "") (reports_ m) (Some Spawning))
  | Some Spawning =>
      let m := set_status m (plan_ m) (status_ m) (reports_ m) None in
      Some (set_worker m (rm_router m) (configure_migrator (cfg_ m) (rm_migrator m)) (status_ m) (Some (AtMove 0)) (consensus_ m))
  | None => None
  end.

(** What [start_add_node], [start_remove_node] and [start_move_partitions] do before
    they call [start_plan]: the plan, and the action under the lock. *)
Definition begin_add_node (m : RebalanceManager) (node : Z) : bool * RebalanceManager :=
  match plan_add (rm_router m) node with
  | [] => (false, m)
  | plan => (true, set_action m ADD_NODE node (starting_ m ++ [(plan, None)]))
  end.
Definition begin_remove_node (m : RebalanceManager) (auto : option Z) (node : Z) : bool * RebalanceManager :=
  match plan_remove (rm_router m) node with
  | [] => (false, m)
  | plan => (true, set_action m REMOVE_NODE node (starting_ m ++ [(plan, auto)]))
  end.
Definition begin_move_partitions (m : RebalanceManager) (moves : list Move) : bool * RebalanceManager :=
  match moves with
  | [] => (false, m)
  | plan => (true, set_action m NONE 0 (starting_ m ++ [(plan, None)]))
  end.

(** A whole call, undisturbed. *)
Definition start_plan (b : bool * RebalanceManager) : bool * RebalanceManager :=
  if b.1 then
    let '(ok, m) := launch b.2 (length (starting_ b.2) - 1) in
    if ok : bool then (true, default m (m ← launch_step m; m ← launch_step m; launch_step m)) else (false, m)
  else b.
Definition start_add_node (m : RebalanceManager) (node : Z) := start_plan (begin_add_node m node).
Definition start_remove_node (m : RebalanceManager) (node : Z) := start_plan (begin_remove_node m None node).
Definition start_move_partitions (m : RebalanceManager) (moves : list Move) := start_plan (begin_move_partitions m moves).

(** ** Control *)

(** The change of [state_]; the report follows under [mu_]. *)
Definition change_state (m : RebalanceManager) (s : RebalanceState) : RebalanceManager :=
  set_state_only m s (reports_ m ++ [s]).
Definition pause (m : RebalanceManager) : RebalanceManager :=
  if bool_decide (state_ m = RUNNING) then change_state m PAUSED else m.
Definition resume (m : RebalanceManager) : RebalanceManager :=
  if bool_decide (state_ m = PAUSED) then change_state m RUNNING else m.
Definition cancel (m : RebalanceManager) : RebalanceManager :=
  if bool_decide (state_ m = IDLE ∨ state_ m = CANCELLING) then m else change_state m CANCELLING.

Definition report (m : RebalanceManager) (j : nat) : RebalanceManager :=
  match reports_ m !! j with
  | Some s =>
      let st := status_ m in
      set_status m (plan_ m) (mkRStatus s (total_moves st) (completed_moves st) (failed_moves st) (current_symbol st))
        (delete j (reports_ m)) (launching_ m)
  | None => m
  end.

Definition status (m : RebalanceManager) : RebalanceStatus := status_ m.
Definition history (m : RebalanceManager) : list RebalanceHistoryEntry := history_ m.
Definition current_owner (m : RebalanceManager) (symbol : Z) : outcome Z := (route (rm_router m) symbol).1.

(** ** The worker *)

Section Worker.
Context (select_reply : list remote_call → Z → Z → QueryResult)
  (replicate_reply : list remote_call → Z → list TickMessage → bool)
  (delayed : list remote_call → bool) (now : Z) (send : Z → list Z → bool).

(** The body of the loop for move [i]. *)
Definition run_move (m : RebalanceManager) (i : nat) (mv : Move) : RebalanceManager :=
  let '(cp, mg, r) :=
    execute_plan select_reply replicate_reply delayed now (rm_migrator m) [mv] (rm_router m) in
  let ok := match cp with ms :: _ => bool_decide (ms_state ms = COMMITTED) | [] => false end in
  let st := status_ m in
  let st := mkRStatus (rs_state st) (total_moves st) (completed_moves st + (if ok then 1 else 0))
              (failed_moves st + (if ok then 0 else 1)) (pretty (move_symbol mv)) in
  set_worker m r mg st (Some (AtMove (S i))) (consensus_ m).

(** [propose_pin] for every move; a failed broadcast is only logged. *)
Definition pin_moves (c : Consensus) (moves : list Move) : Consensus :=
  foldl (λ c mv, (propose_pin send c (move_symbol mv) (move_to mv)).1.2) c moves.

(** *** Closing a run *)

(** The condition on the counts read under the lock, and the load of [state_]. *)
Definition decide_ring (m : RebalanceManager) (act : RebalanceAction) (node completed failed : Z) (moves : list Move) : worker_pc :=
  if (0 <? completed) && (failed =? 0) && negb (bool_decide (state_ m = CANCELLING))
  then match act, consensus_ m with
       | NONE, Some _ => Pinning moves
       | NONE, None => Recording
       | _, _ => Changing act node
       end
  else Recording.

Definition apply_ring (act : RebalanceAction) (node : Z) (r : PartitionRouter) : PartitionRouter :=
  match act with ADD_NODE => add_node r node | _ => remove_node r node end.

(** A proposal to the consensus, which works on the same router; a failed broadcast is
    only logged. *)
Definition propose (f : Consensus → Consensus) (m : RebalanceManager) (w : worker_pc) : RebalanceManager :=
  match consensus_ m with
  | Some (tok, peers) =>
      let c := f (mkConsensus (rm_router m) tok peers) in
      set_worker m (router_ c) (rm_migrator m) (status_ m) (Some w) (Some (token_ c, peers_ c))
  | None => go m w
  end.

Definition record_run (m : RebalanceManager) : RebalanceManager :=
  let st := status_ m in
  let entry := mkEntry (action_ m) (action_node_ m) (total_moves st) (completed_moves st) (failed_moves st)
                 (bool_decide (state_ m = CANCELLING)) in
  let h := if (MAX_HISTORY <=? length (history_ m))%nat then tail (history_ m) else history_ m in
  mkRebalance (rm_router m) (rm_migrator m) (cfg_ m) (state_ m) (plan_ m)
    (mkRStatus IDLE (total_moves st) (completed_moves st) (failed_moves st) "") (Some Storing) NONE 0
    (consensus_ m) (h ++ [entry]) (starting_ m) (launching_ m) (reports_ m) (policy_running_ m) (last_auto_rebalance_ m).

(** The last store of the thread. *)
Definition store_idle (m : RebalanceManager) : RebalanceManager :=
  let m := set_worker m (rm_router m) (rm_migrator m) (status_ m) None (consensus_ m) in
  set_state_only m IDLE (reports_ m).

(** One step of [run_loop]; [None] when there is no worker, or it waits. *)
Definition worker_step (m : RebalanceManager) : option RebalanceManager :=
  match worker_ m with
  | None => None
  | Some (AtMove i) =>
      match plan_ m !! i with
      | None => Some (go m Applying)
      | Some mv =>
          match state_ m with
          | CANCELLING => Some (go m Applying)
          | PAUSED => Some (go m (Waiting i))
          | _ => Some (run_move m i mv)
          end
      end
  | Some (Waiting i) =>
      match state_ m with
      | CANCELLING => Some (go m Applying)
      | RUNNING => from_option (λ mv, Some (run_move m i mv)) None (plan_ m !! i)
      | _ => None
      end
  | Some Applying =>
      Some (go m (Deciding (action_ m) (action_node_ m) (completed_moves (status_ m)) (failed_moves (status_ m)) (plan_ m)))
  | Some (Deciding act node completed failed moves) => Some (go m (decide_ring m act node completed failed moves))
  | Some (Changing act node) =>
      let next := match consensus_ m with Some _ => Proposing act node | None => Recording end in
      Some (set_worker m (apply_ring act node (rm_router m)) (rm_migrator m) (status_ m) (Some next) (consensus_ m))
  | Some (Proposing act node) =>
      Some (propose (λ c, (match act with ADD_NODE => propose_add send c node | _ => propose_remove send c node end).1.2) m Recording)
  | Some (Pinning []) => Some (go m Recording)
  | Some (Pinning (mv :: moves)) =>
      Some (propose (λ c, (propose_pin send c (move_symbol mv) (move_to mv)).1.2) m (Pinning moves))
  | Some Recording => Some (record_run m)
  | Some Storing => Some (store_idle m)
  end.
End Worker.

(** ** The automatic policy *)

Section Policy.
Context (ratio_exceeds : Z → Z → bool).

Definition start_policy (m : RebalanceManager) (has_provider : bool) (now : Z) : RebalanceManager :=
  if policy_enabled (cfg_ m) && has_provider && negb (policy_running_ m)
  then set_policy m true now else m.
Definition stop_policy (m : RebalanceManager) : RebalanceManager :=
  set_policy m false (last_auto_rebalance_ m).

(** The least and the greatest load, the first node of each. *)
Definition min_max (first : Z * Z) (loads : list (Z * Z)) : (Z * Z) * (Z * Z) :=
  foldl (λ acc nc, (if nc.2 <? acc.1.2 then nc else acc.1, if acc.2.2 <? nc.2 then nc else acc.2))
    (first, first) loads.

(** One round of [policy_loop] up to the [start_plan] it may call; times are seconds. *)
Definition policy_check (m : RebalanceManager) (now : Z) (loads : list (Z * Z)) : RebalanceManager :=
  if negb (policy_running_ m) then m
  else if negb (bool_decide (state_ m = IDLE)) then m
  else if now - last_auto_rebalance_ m <? cooldown_sec (cfg_ m) then m
  else match loads with
  | first :: _ :: _ =>
      let '((min_node, min_count), (max_node, max_count)) := min_max first loads in
      if min_count =? 0 then
        match plan_add (rm_router m) min_node with
        | [] => (begin_remove_node m (Some now) max_node).2
        | plan => set_action m (action_ m) (action_node_ m) (starting_ m ++ [(plan, Some now)])
        end
      else if ratio_exceeds max_count min_count then (begin_remove_node m (Some now) max_node).2
      else m
  | _ => m
  end.
End Policy.

(** ** Runs *)

Section Runs.
Context (select_reply : list remote_call → Z → Z → QueryResult)
  (replicate_reply : list remote_call → Z → list TickMessage → bool)
  (delayed : list remote_call → bool) (now : Z) (send : Z → list Z → bool)
  (ratio_exceeds : Z → Z → bool).
Notation worker_step := (worker_step select_reply replicate_reply delayed now send).
Notation run_move := (run_move select_reply replicate_reply delayed now).
Notation execute_plan := (execute_plan select_reply replicate_reply delayed now).

(** What can happen next: a step of the worker, of a [start_plan] that has won, or of
    some caller. *)
Inductive rb_step : relation RebalanceManager :=
  | step_worker m m' : worker_step m = Some m' → rb_step m m'
  | step_launching m m' : launch_step m = Some m' → rb_step m m'
  | step_pause m : rb_step m (pause m)
  | step_resume m : rb_step m (resume m)
  | step_cancel m : rb_step m (cancel m)
  | step_report m j : rb_step m (report m j)
  | step_begin_add m node : rb_step m (begin_add_node m node).2
  | step_begin_remove m node : rb_step m (begin_remove_node m None node).2
  | step_begin_moves m moves : rb_step m (begin_move_partitions m moves).2
  | step_launch m j : rb_step m (launch m j).2
  | step_policy m t loads : rb_step m (policy_check ratio_exceeds m t loads)
  | step_bandwidth m mbps : rb_step m (set_max_bandwidth_mbps m mbps).

(** A move whose symbol the router already sends to the destination of the
    plan's last committed move of that symbol. *)
Definition served (r : PartitionRouter) (plan : list Move) (mv : Move) : Prop :=
  ∃ mv', mv' ∈ plan ∧ move_symbol mv' = move_symbol mv ∧ pinned_ r !! move_symbol mv = Some (move_to mv').

Definition all_served (m : RebalanceManager) (i : nat) : Prop :=
  ∀ j mv, (j < i)%nat → plan_ m !! j = Some mv → served (rm_router m) (plan_ m) mv.

Definition progress (m : RebalanceManager) (i : nat) : Prop :=
  (i <= length (plan_ m))%nat ∧ 0 <= completed_moves (status_ m) ∧ 0 <= failed_moves (status_ m) ∧
  completed_moves (status_ m) + failed_moves (status_ m) = Z.of_nat i ∧
  (failed_moves (status_ m) = 0 → all_served m i).

Definition ran (m : RebalanceManager) : Prop :=
  ∃ i, progress m i ∧ (i = length (plan_ m) ∨ state_ m = CANCELLING).

Record rb_inv (m : RebalanceManager) : Prop := {
  ri_idle : state_ m = IDLE ↔ worker_ m = None ∧ launching_ m = None;
  ri_launching : launching_ m = None ∨ worker_ m = None;
  ri_spawning : launching_ m = Some Spawning → completed_moves (status_ m) = 0 ∧ failed_moves (status_ m) = 0;
  ri_progress : match worker_ m with
    | Some (AtMove i) => progress m i
    | Some (Waiting i) => progress m i ∧ (i < length (plan_ m))%nat
    | Some Applying => ran m
    | Some (Deciding act node completed failed moves) => ran m ∧ completed = completed_moves (status_ m) ∧
        failed = failed_moves (status_ m) ∧ moves = plan_ m
    | Some (Changing act node) => progress m (length (plan_ m)) ∧ failed_moves (status_ m) = 0 ∧ act ≠ NONE
    | Some (Proposing act node) =>
        match act with ADD_NODE => node ∈ node_set_ (rm_router m) | _ => node ∉ node_set_ (rm_router m) end
    | _ => True
    end;
}.

(** What one move leaves behind. *)
Lemma execute_single m mv r cp m' r' :
  execute_plan m [mv] r = (cp, m', r') →
  ∃ ms, cp = [ms] ∧ node_set_ r' = node_set_ r ∧
    (∀ s, s ≠ move_symbol mv → pinned_ r' !! s = pinned_ r !! s) ∧
    (ms_state ms = COMMITTED → pinned_ r' !! move_symbol mv = Some (move_to mv)).
Proof.
  unfold Migration.execute_plan, resume_plan. simpl. intros H.
  set (ms0 := mkStatus mv PENDING "" 0 0) in *.
  destruct (retry_move _ _ _ _ _ _ _ _ _ _) as [[ms m1] r1] eqn:Hr. simplify_eq.
  exists ms. split; [done|]. destruct (decide (0 < max_retries_ m)).
  - destruct (retry_move_spec select_reply replicate_reply delayed now (retry_fuel m ms0) [] [] m ms0 r ms m' r')
      as (Hmv & _ & (Hring & _ & Hother & Hcom & _) & _); [done..|].
    rewrite Hmv in *. simpl in *. split; [apply Hring|]. split; [|done].
    intros s Hs. by apply Hother.
  - rewrite retry_move_exhausted in Hr by (simpl; lia). simplify_eq. done.
Qed.

Lemma run_move_inv m i mv :
  plan_ m !! i = Some mv → worker_ m ≠ None → rb_inv m → progress m i → rb_inv (run_move m i mv).
Proof.
  intros Hi Hw [Hidle Hl _ _] (Hlen & Hc & Hf & Hsum & Hserved). unfold Rebalance.run_move.
  assert (state_ m ≠ IDLE) as Hns by (intros Hs; apply Hidle in Hs as [? _]; done).
  assert (launching_ m = None) as Hnl by (by destruct Hl).
  destruct (execute_plan (rm_migrator m) [mv] (rm_router m)) as [[cp mg] r] eqn:He.
  destruct (execute_single _ _ _ _ _ _ He) as (ms & -> & _ & Hother & Hcom).
  split; simpl; [split; [done|by intros []]|by left|congruence|].
  assert (i < length (plan_ m))%nat by (by eapply lookup_lt_Some).
  split_and!; simpl; [lia|case_bool_decide; lia|case_bool_decide; lia|case_bool_decide; lia|].
  intros Hf0 j mv' Hj Hmv'. unfold served. simpl in *.
  case_bool_decide as Hok; [|lia]. specialize (Hcom Hok).
  destruct (decide (move_symbol mv' = move_symbol mv)) as [Heq|Hne].
  - exists mv. rewrite Heq. split_and!; [by eapply list_elem_of_lookup_2|done|done].
  - assert (j ≠ i) by (intros ->; congruence).
    destruct (Hserved ltac:(lia) j mv') as (mv2 & ? & ? & ?); [lia|done|].
    exists mv2. split_and!; [done..|]. by rewrite Hother.
Qed.

(** *** Steps of the callers *)

(** What a step that is not the worker's leaves alone while the worker runs. *)
Record quiet (m m' : RebalanceManager) : Prop := {
  qu_router : rm_router m' = rm_router m;
  qu_worker : worker_ m' = worker_ m;
  qu_plan : plan_ m' = plan_ m;
  qu_completed : completed_moves (status_ m') = completed_moves (status_ m);
  qu_failed : failed_moves (status_ m') = failed_moves (status_ m);
  qu_cancelling : state_ m = CANCELLING → state_ m' = CANCELLING;
}.

#[local] Instance quiet_refl : Reflexive quiet.
Proof. by intros m. Qed.

Lemma quiet_progress m m' i : quiet m m' → progress m i → progress m' i.
Proof. intros [H1 _ H2 H3 H4 _]. unfold progress, all_served. by rewrite H1, H2, H3, H4. Qed.

Lemma quiet_ran m m' : quiet m m' → ran m → ran m'.
Proof.
  intros Hq (i & Hp & Hi). exists i. split; [by apply (quiet_progress m)|].
  destruct Hi as [->|Hc]; [left; by rewrite (qu_plan _ _ Hq)|right; by apply (qu_cancelling _ _ Hq)].
Qed.

(** A step of a caller: [state_] leaves IDLE only where a [start_plan] wins. *)
Record caller (m m' : RebalanceManager) : Prop := {
  ca_quiet : quiet m m';
  ca_state : (state_ m' = IDLE ↔ state_ m = IDLE) ∧ launching_ m' = launching_ m ∨
    state_ m = IDLE ∧ state_ m' ≠ IDLE ∧ ∃ plan, launching_ m' = Some (Joining plan);
}.

#[local] Instance caller_refl : Reflexive caller.
Proof. intros m. split; [done|by left]. Qed.

Lemma caller_action m a n st : caller m (set_action m a n st).
Proof. split; [done|by left]. Qed.

Lemma caller_change m s : s ≠ IDLE → state_ m ≠ IDLE → (state_ m = CANCELLING → s = CANCELLING) → caller m (change_state m s).
Proof. intros Hs Hm Hc. split; [by split|]. left. by split. Qed.

Lemma caller_launch m j : caller m (launch m j).2.
Proof.
  unfold launch. destruct (starting_ m !! j) as [[plan auto]|]; [|done]. cbv zeta. case_bool_decide as Hs.
  - split; [split; simpl; try done; simpl in Hs; congruence|]. right. split; [done|]. split; [done|]. by exists plan.
  - apply caller_action.
Qed.

Lemma caller_remove m auto node : caller m (begin_remove_node m auto node).2.
Proof. unfold begin_remove_node. case_match; [done|apply caller_action]. Qed.

Lemma rb_step_cases m m' : rb_step m m' → worker_step m = Some m' ∨ launch_step m = Some m' ∨ caller m m'.
Proof.
  intros [m1 m2 H|m1 m2 H|m1|m1|m1|m1 j|m1 node|m1 node|m1 moves|m1 j|m1 t loads|m1 mbps]; [by left|right; by left|right; right..].
  - unfold pause. case_bool_decide as Hs; [|done]. apply caller_change; congruence.
  - unfold resume. case_bool_decide as Hs; [|done]. apply caller_change; congruence.
  - unfold cancel. case_bool_decide as Hs; [done|]. apply caller_change; [done|naive_solver|done].
  - unfold report. case_match; [|done]. split; [done|by left].
  - unfold begin_add_node. case_match; [done|apply caller_action].
  - apply caller_remove.
  - unfold begin_move_partitions. case_match; [done|apply caller_action].
  - apply caller_launch.
  - unfold policy_check. destruct (negb (policy_running_ m1)); [done|].
    destruct (negb _); [done|]. destruct (_ <? _); [done|].
    destruct loads as [|first [|second loads]]; [done|done|].
    destruct (min_max _ _) as [[min_node min_count] [max_node max_count]].
    destruct (min_count =? 0); [|by destruct (ratio_exceeds _ _); [apply caller_remove|]].
    destruct (plan_add _ _) as [|mv plan]; [apply caller_remove|apply caller_action].
  - split; [done|by left].
Qed.

(** *** The invariant *)

Lemma caller_inv m m' : rb_inv m → caller m m' → rb_inv m'.
Proof.
  intros [Hidle Hl Hsp Hp] [Hq Hs]. pose proof Hq as [Hr Hw Hpl Hc Hf _]. split.
  - destruct Hs as [[Hs ->]|(Hs & Hns & plan & ->)]; [by rewrite Hs, Hw|]. split; [done|by intros []].
  - destruct Hs as [[_ ->]|(Hs & _)]; [by rewrite Hw|]. right. rewrite Hw. by apply Hidle.
  - destruct Hs as [[_ ->]|(_ & _ & plan & ->)]; [|done]. by rewrite Hc, Hf.
  - rewrite Hw. destruct (worker_ m) as [[]|]; rewrite ?Hc, ?Hf, ?Hpl, ?Hr; try done.
    + by apply (quiet_progress m).
    + destruct Hp as [Hpr Hp]. split; [by apply (quiet_progress m)|done].
    + by apply (quiet_ran m).
    + destruct Hp as [Hpr Hp]. split; [by apply (quiet_ran m)|done].
    + destruct Hp as [Hpr Hp]. split; [by apply (quiet_progress m)|done].
Qed.

Lemma launch_step_inv m m' : rb_inv m → launch_step m = Some m' → rb_inv m'.
Proof.
  intros [Hidle Hl Hsp _] H. unfold launch_step in H. destruct (launching_ m) as [pc|] eqn:Hlm; [|done].
  assert (worker_ m = None) as Hw by (by destruct Hl).
  assert (state_ m ≠ IDLE) as Hns by (intros Hs; apply Hidle in Hs as [_ ?]; done).
  destruct pc as [plan|plan|]; [rewrite Hw in H|..]; injection H as <-; split; simpl; rewrite ?Hw; try done.
  - split; [done|by intros []].
  - by right.
  - split; [done|by intros []].
  - by right.
  - split; [done|by intros []].
  - by left.
  - destruct (Hsp eq_refl) as [Hc Hf]. split_and!; simpl; rewrite ?Hc, ?Hf; try lia. intros _ j mv Hj. lia.
Qed.

Lemma decide_ring_cases m act node completed failed moves :
  let w := decide_ring m act node completed failed moves in
  w = Recording ∨ w = Pinning moves ∨
  w = Changing act node ∧ 0 < completed ∧ failed = 0 ∧ state_ m ≠ CANCELLING ∧ act ≠ NONE.
Proof.
  unfold decide_ring. cbv zeta. destruct (_ && _) eqn:Hc; [|by left].
  apply andb_true_iff in Hc as [[Hc%Z.ltb_lt Hf%Z.eqb_eq]%andb_true_iff Hs%negb_true_iff%bool_decide_eq_false].
  destruct act; [destruct (consensus_ m); [right; by left|by left]|right; right..]; done.
Qed.

Lemma add_node_in r node : node ∈ node_set_ (add_node r node).
Proof. unfold add_node. case_decide; [done|]. simpl. set_solver. Qed.
Lemma remove_node_out r node : node ∉ node_set_ (remove_node r node).
Proof. unfold remove_node. case_decide; [|done]. simpl. set_solver. Qed.

(** While a worker runs only its own steps set the program counter. *)
Lemma go_inv m w : rb_inv m → worker_ m ≠ None →
  match w with
  | AtMove i => progress m i
  | Waiting i => progress m i ∧ (i < length (plan_ m))%nat
  | Applying => ran m
  | Deciding _ _ completed failed moves => ran m ∧ completed = completed_moves (status_ m) ∧
      failed = failed_moves (status_ m) ∧ moves = plan_ m
  | Changing act _ => progress m (length (plan_ m)) ∧ failed_moves (status_ m) = 0 ∧ act ≠ NONE
  | Proposing _ _ => False
  | _ => True
  end → rb_inv (go m w).
Proof.
  intros [Hidle Hl Hsp Hp] Hw H. destruct Hl as [Hl|]; [|done]. split; simpl; [|by left|congruence|by destruct w].
  rewrite Hl. split; [|by intros []]. intros Hs. apply Hidle in Hs as [? _]. done.
Qed.

Lemma consensus_inv m r w c : rb_inv m → worker_ m ≠ None →
  match w with
  | Proposing ADD_NODE node => node ∈ node_set_ r
  | Proposing _ node => node ∉ node_set_ r
  | Pinning _ | Recording => True
  | _ => False
  end → rb_inv (set_worker m r (rm_migrator m) (status_ m) (Some w) c).
Proof.
  intros [Hidle Hl Hsp Hp] Hw H. destruct Hl as [Hl|]; [|done]. split; simpl; [|by left|congruence|by destruct w as [| | | | |[]| | |]].
  rewrite Hl. split; [|by intros []]. intros Hs. apply Hidle in Hs as [? _]. done.
Qed.

Lemma closing_step_inv m w m' : rb_inv m → worker_ m = Some w →
  match w with AtMove _ | Waiting _ => False | _ => True end → worker_step m = Some m' → rb_inv m'.
Proof.
  intros Hinv Hw Hcl Hstep. pose proof Hinv as [Hidle Hl Hsp Hp]. unfold Rebalance.worker_step in Hstep. rewrite Hw in Hstep, Hp.
  assert (worker_ m ≠ None) as Hne by congruence.
  assert (∀ f next, match next with Pinning _ | Recording => True | _ => False end → rb_inv (propose f m next)) as Hprop.
  { intros f next Hn. unfold propose. destruct (consensus_ m) as [[tok peers]|];
      [apply consensus_inv; [done|done|]; by destruct next|apply go_inv; [done|done|]; by destruct next]. }
  destruct w as [i|i| |act node c f moves|act node|act node|[|mv moves]| |]; try done; injection Hstep as <-.
  - by apply go_inv.
  - destruct Hp as (Hran & -> & -> & ->). apply go_inv; [done|done|].
    destruct (decide_ring_cases m act node (completed_moves (status_ m)) (failed_moves (status_ m)) (plan_ m))
      as [-> |[-> |(-> & _ & Hf & Hs & Ha)]]; [done|done|].
    destruct Hran as (i & Hpr & [->|?]); [|done]. done.
  - apply consensus_inv; [done|done|]. destruct (consensus_ m); [|done].
    destruct act; [apply remove_node_out|apply add_node_in|apply remove_node_out].
  - by apply Hprop.
  - by apply go_inv.
  - by apply Hprop.
  - split; simpl; [|destruct Hl; [by left|done]|destruct Hl; congruence|done]. split; [|by intros [? ?]].
    intros Hs. apply Hidle in Hs as [? _]. done.
  - split; simpl; [|by right|destruct Hl; congruence|done]. split; [|done]. intros _. split; [done|]. by destruct Hl.
Qed.

Lemma worker_step_inv m m' : rb_inv m → worker_step m = Some m' → rb_inv m'.
Proof.
  intros Hinv Hstep. destruct (worker_ m) as [w|] eqn:Hw; [|by unfold Rebalance.worker_step in Hstep; rewrite Hw in Hstep].
  assert (match w with AtMove _ | Waiting _ => False | _ => True end ∨ ∃ i, w = AtMove i ∨ w = Waiting i) as [Hcl|(i & Hcl)]
    by (destruct w; eauto); [by eapply closing_step_inv|].
  pose proof Hinv as [Hidle Hl _ Hp]. unfold Rebalance.worker_step in Hstep. rewrite Hw in Hstep, Hp.
  assert (state_ m ≠ IDLE) as Hns by (intros Hs; apply Hidle in Hs; destruct Hs; congruence).
  assert (worker_ m ≠ None) as Hwn by congruence.
  destruct Hcl as [-> | ->].
  - destruct (plan_ m !! i) as [mv|] eqn:Hi.
    + destruct (state_ m) eqn:Hs; [done| | |]; injection Hstep as <-.
      * by apply run_move_inv.
      * apply go_inv; [done|done|]. split; [done|]. by eapply lookup_lt_Some.
      * apply go_inv; [done|done|]. exists i. split; [done|]. by right.
    + injection Hstep as <-. apply go_inv; [done|done|]. exists i. split; [done|]. left.
      destruct Hp as (Hle & _). apply lookup_ge_None in Hi. lia.
  - destruct Hp as [Hp Hlt]. destruct (state_ m) eqn:Hs; [done| |done|].
    + destruct (lookup_lt_is_Some_2 _ _ Hlt) as [mv Hi]. rewrite Hi in Hstep. injection Hstep as <-.
      by apply run_move_inv.
    + injection Hstep as <-. apply go_inv; [done|done|]. exists i. split; [done|]. by right.
Qed.

Lemma rb_inv_step m m' : rb_inv m → rb_step m m' → rb_inv m'.
Proof.
  intros Hinv [H|[H|H]]%rb_step_cases; [by eapply worker_step_inv|by eapply launch_step_inv|by eapply caller_inv].
Qed.

(** A manager before its first start. *)
Definition at_rest (m : RebalanceManager) : Prop := worker_ m = None ∧ launching_ m = None ∧ state_ m = IDLE.

Lemma reachable_inv m0 m : at_rest m0 → rtc rb_step m0 m → rb_inv m.
Proof.
  intros (Hw & Hl & Hs) Hrun. assert (rb_inv m0) as Hinv by (split; rewrite ?Hw, ?Hl, ?Hs; try done; by left).
  revert Hinv. clear Hw Hl Hs. induction Hrun as [|x y z Hxy _ IH]; [done|]. intros Hx.
  by eapply IH, rb_inv_step.
Qed.

(** *** The ring *)

(** What the worker's steps do to the members: only [Changing] touches them. *)
Lemma worker_step_nodes m m' : rb_inv m → worker_step m = Some m' →
  node_set_ (rm_router m') ≠ node_set_ (rm_router m) →
  ∃ act node, worker_ m = Some (Changing act node) ∧ rm_router m' = apply_ring act node (rm_router m).
Proof.
  intros Hinv Hstep Hne. pose proof (ri_progress _ Hinv) as Hp. unfold Rebalance.worker_step in Hstep.
  assert (∀ i mv, node_set_ (rm_router (run_move m i mv)) = node_set_ (rm_router m)) as Hmove.
  { intros i mv. unfold Rebalance.run_move.
    destruct (execute_plan _ _ _) as [[cp mg] r] eqn:He. simpl.
    by destruct (execute_single _ _ _ _ _ _ He) as (? & _ & ? & _). }
  destruct (worker_ m) as [w|] eqn:Hwk; [|done].
  destruct w as [i|i| |act node c f moves|act node|act node|[|mv moves]| |]; try (injection Hstep as <-; done).
  - exfalso. apply Hne. destruct (plan_ m !! i) as [mv|]; [destruct (state_ m)|]; simplify_eq; done || apply Hmove.
  - exfalso. apply Hne. destruct (state_ m); try done; [|by simplify_eq].
    destruct (plan_ m !! i) as [mv|]; [|done]. injection Hstep as <-. apply Hmove.
  - injection Hstep as <-. by exists act, node.
  - exfalso. apply Hne. injection Hstep as <-. unfold propose. destruct (consensus_ m) as [[tok peers]|]; [|done].
    destruct act; simpl; unfold add_node, remove_node; by case_decide.
  - exfalso. apply Hne. injection Hstep as <-. unfold propose. by destruct (consensus_ m) as [[tok peers]|].
Qed.

(** Before the ring changes there was a check of [state_], in the same run. *)
Definition checked m0 m : Prop := ∀ act node, worker_ m = Some (Changing act node) →
  ∃ m1, rtc rb_step m0 m1 ∧ rtc rb_step m1 m ∧ state_ m1 ≠ CANCELLING ∧ plan_ m1 = plan_ m ∧
    worker_ m1 = Some (Deciding act node (completed_moves (status_ m)) (failed_moves (status_ m)) (plan_ m)).

Lemma reachable_checked m0 m : at_rest m0 → rtc rb_step m0 m → checked m0 m.
Proof.
  intros Hrest. revert m. apply rtc_ind_r.
  { intros act node Hw. destruct Hrest as [Hw0 _]. congruence. }
  intros m m' Hrun Hstep IH.
  pose proof (reachable_inv _ _ Hrest Hrun) as Hinv. intros act node Hw'.
  pose proof Hstep as [Hw|[Hl|[Hq _]]]%rb_step_cases.
  - exists m. pose proof (ri_progress _ Hinv) as Hp. unfold Rebalance.worker_step in Hw.
    destruct (worker_ m) as [w|] eqn:Hwk; [|done].
    assert (∀ i mv, worker_ (run_move m i mv) = Some (AtMove (S i))) as Hmove.
    { intros i mv. unfold Rebalance.run_move. by destruct (execute_plan _ _ _) as [[cp mg] r]. }
    assert (∀ f next, worker_ (propose f m next) = Some next) as Hprop.
    { intros f next. unfold propose. by destruct (consensus_ m) as [[]|]. }
    destruct w as [i|i| |a n c f moves|a n|a n|[|mv moves]| |].
    + destruct (plan_ m !! i); [destruct (state_ m)|]; injection Hw as <-; rewrite ?Hmove in Hw'; done.
    + destruct (state_ m); [done|destruct (plan_ m !! i); [|done]|done|]; injection Hw as <-; rewrite ?Hmove in Hw'; done.
    + by injection Hw as <-.
    + destruct Hp as (_ & -> & -> & ->). injection Hw as <-. simpl in Hw'. injection Hw' as Hd.
      destruct (decide_ring_cases m a n (completed_moves (status_ m)) (failed_moves (status_ m)) (plan_ m))
        as [Hc|[Hc|(Hc & _ & _ & Hs & _)]]; rewrite Hc in Hd; [done|done|]. injection Hd as -> ->.
      split_and!; try done. by apply rtc_once.
    + injection Hw as <-. simpl in Hw'. by destruct (consensus_ m).
    + injection Hw as <-. by rewrite Hprop in Hw'.
    + by injection Hw as <-.
    + injection Hw as <-. by rewrite Hprop in Hw'.
    + by injection Hw as <-.
    + by injection Hw as <-.
  - unfold launch_step in Hl. destruct (launching_ m) as [pc|] eqn:Hlm; [|done].
    assert (worker_ m = None) as Hwn by (destruct (ri_launching _ Hinv); congruence).
    destruct pc; [rewrite Hwn in Hl|..]; injection Hl as <-; simpl in Hw'; congruence.
  - destruct Hq as [_ Hwq Hpl Hc Hf _]. rewrite Hwq in Hw'. destruct (IH _ _ Hw') as (m1 & H1 & H2 & H3 & H4 & H5).
    exists m1. rewrite Hpl, Hc, Hf. split_and!; try done. by eapply rtc_r.
Qed.

(** C25. The ring changes only at the end of a run that moved everything. In any
    interleaving of the worker's steps with those of callers, a step that changes
    the router's members is the worker's, after the last move of a run: all moves of
    its plan completed and none failed; [state_] was not CANCELLING when the worker
    looked, after it had read the action, its node and the counts; the step adds or
    removes that node; and every symbol of the plan is by then routed to a
    destination the plan gave it. *)
Theorem topology_changes_last m0 m m' :
  at_rest m0 → rtc rb_step m0 m → rb_step m m' →
  node_set_ (rm_router m') ≠ node_set_ (rm_router m) →
  ∃ act node, worker_ m = Some (Changing act node) ∧
  completed_moves (status_ m) = Z.of_nat (length (plan_ m)) ∧ failed_moves (status_ m) = 0 ∧
  (∃ m1, rtc rb_step m0 m1 ∧ rtc rb_step m1 m ∧ state_ m1 ≠ CANCELLING ∧ plan_ m1 = plan_ m ∧
     worker_ m1 = Some (Deciding act node (Z.of_nat (length (plan_ m))) 0 (plan_ m))) ∧
  (act = ADD_NODE ∧ node_set_ (rm_router m') = {[node]} ∪ node_set_ (rm_router m) ∨
   act = REMOVE_NODE ∧ node_set_ (rm_router m') = node_set_ (rm_router m) ∖ {[node]}) ∧
  ∀ mv, mv ∈ plan_ m → ∃ mv', mv' ∈ plan_ m ∧ move_symbol mv' = move_symbol mv ∧
    (route (rm_router m') (move_symbol mv)).1 = Returned (move_to mv').
Proof.
  intros Hrest Hrun Hstep Hne. pose proof (reachable_inv _ _ Hrest Hrun) as Hinv.
  pose proof Hstep as [Hw|Hno]%rb_step_cases.
  2:{ exfalso. apply Hne. f_equal. destruct Hno as [Hl|Hq]; [|apply Hq]. unfold launch_step in Hl.
      destruct (launching_ m) as [[plan|plan|]|]; [destruct (worker_ m)|..]; by simplify_eq. }
  destruct (worker_step_nodes _ _ Hinv Hw Hne) as (act & node & Hwk & Hr). exists act, node.
  pose proof (ri_progress _ Hinv) as Hp. rewrite Hwk in Hp. destruct Hp as ((_ & _ & _ & Hsum & Hserved) & Hf & Ha).
  destruct (reachable_checked _ _ Hrest Hrun act node Hwk) as (m1 & H1 & H2 & H3 & H4 & H5).
  rewrite Hf in H5. replace (completed_moves (status_ m)) with (Z.of_nat (length (plan_ m))) in * by lia.
  split_and!; try done; [by exists m1| |].
  - rewrite Hr in Hne |- *. destruct act; [done|left|right]; (split; [done|]); simpl in *; unfold add_node, remove_node in *;
      by case_decide.
  - intros mv [j Hj]%list_elem_of_lookup. destruct (Hserved Hf j mv) as (mv' & Hin & Hsy & Hpin); [by eapply lookup_lt_Some|done|].
    exists mv'. split_and!; [done..|]. unfold route. rewrite Hr.
    assert (pinned_ (apply_ring act node (rm_router m)) = pinned_ (rm_router m)) as ->
      by (destruct act; simpl; unfold add_node, remove_node; by case_decide).
    by rewrite Hpin.
Qed.

(** ** A run comes to an end *)

(** The next step of the threads a start has made: the start's own, then the worker's. *)
Definition own_step (m : RebalanceManager) : option RebalanceManager :=
  match launching_ m with Some _ => launch_step m | None => worker_step m end.

Fixpoint run_worker (n : nat) (m : RebalanceManager) : RebalanceManager :=
  match n with
  | O => m
  | S n => match own_step m with Some m' => run_worker n m' | None => m end
  end.

(** The steps they have left, when nobody interferes. *)
Definition steps_left (m : RebalanceManager) : nat :=
  let all := (2 * length (plan_ m) + 7)%nat in
  match launching_ m with
  | Some (Joining plan) => 2 * length plan + 10
  | Some (Resetting plan) => 2 * length plan + 9
  | Some Spawning => all + 1
  | None =>
      match worker_ m with
      | Some (AtMove i) | Some (Waiting i) => all - i
      | Some Applying => length (plan_ m) + 6
      | Some (Deciding _ _ _ _ _) => length (plan_ m) + 5
      | Some (Changing _ _) => 4
      | Some (Proposing _ _) => 3
      | Some (Pinning moves) => length moves + 3
      | Some Recording => 2
      | Some Storing => 1
      | None => 0
      end
  end.

Lemma own_step_progress m :
  rb_inv m → state_ m ≠ IDLE → state_ m ≠ PAUSED →
  ∃ m', own_step m = Some m' ∧ (steps_left m' < steps_left m)%nat ∧ state_ m' ≠ PAUSED.
Proof.
  intros [Hidle Hl _ Hp] Hns Hs. unfold own_step, steps_left.
  assert (∀ i mv, plan_ (run_move m i mv) = plan_ m ∧ worker_ (run_move m i mv) = Some (AtMove (S i)) ∧
    state_ (run_move m i mv) = state_ m ∧ launching_ (run_move m i mv) = launching_ m) as Hmove.
  { intros i mv. unfold Rebalance.run_move. by destruct (execute_plan _ _ _) as [[cp mg] r]. }
  assert (∀ f next, worker_ (propose f m next) = Some next ∧ state_ (propose f m next) = state_ m ∧
    launching_ (propose f m next) = launching_ m) as Hprop.
  { intros f next. unfold propose. by destruct (consensus_ m) as [[]|]. }
  destruct (launching_ m) as [[plan|plan|]|] eqn:Hlm.
  - destruct Hl as [|Hw]; [done|]. unfold launch_step. rewrite Hlm, Hw. eexists; split; [done|]. simpl. split; [lia|done].
  - unfold launch_step. rewrite Hlm. eexists; split; [done|]. simpl. split; [lia|done].
  - unfold launch_step. rewrite Hlm. eexists; split; [done|]. simpl. split; [lia|done].
  - unfold Rebalance.worker_step. destruct (worker_ m) as [w|] eqn:Hw; [|by destruct Hns; apply Hidle].
    destruct w as [i|i| |act node c f moves|act node|act node|[|mv moves]| |].
    + destruct (plan_ m !! i) as [mv|] eqn:Hi.
      * assert (i < length (plan_ m))%nat by (by eapply lookup_lt_Some). destruct (Hmove i mv) as (E1 & E2 & E3 & E4).
        destruct (state_ m) eqn:Hst; try done; eexists; (split; [done|]); [rewrite E4, E2, E1, E3|simpl; rewrite Hlm];
          (split; [lia|congruence]).
      * eexists; split; [done|]. simpl. rewrite Hlm. destruct Hp as (Hle & _). split; [lia|done].
    + destruct Hp as [_ Hlt]. destruct (lookup_lt_is_Some_2 _ _ Hlt) as [mv Hi]. rewrite Hi.
      destruct (Hmove i mv) as (E1 & E2 & E3 & E4).
      destruct (state_ m) eqn:Hst; try done; eexists; (split; [done|]); [rewrite E4, E2, E1, E3|simpl; rewrite Hlm];
        (split; [lia|congruence]).
    + eexists; split; [done|]. simpl. rewrite Hlm. split; [lia|done].
    + eexists; split; [done|]. destruct Hp as (_ & -> & -> & ->). simpl. rewrite Hlm. split; [|done].
      destruct (decide_ring_cases m act node (completed_moves (status_ m)) (failed_moves (status_ m)) (plan_ m))
        as [-> |[-> |(-> & _)]]; lia.
    + eexists; split; [done|]. simpl. rewrite Hlm. split; [destruct (consensus_ m); lia|done].
    + eexists; split; [done|]. destruct (Hprop (λ c, (match act with ADD_NODE => propose_add send c node | _ => propose_remove send c node end).1.2) Recording)
        as (-> & -> & ->). split; [lia|done].
    + eexists; split; [done|]. simpl. rewrite Hlm. split; [lia|done].
    + eexists; split; [done|]. destruct (Hprop (λ c, (propose_pin send c (move_symbol mv) (move_to mv)).1.2) (Pinning moves))
        as (-> & -> & ->). simpl. split; [lia|done].
    + eexists; split; [done|]. simpl. rewrite Hlm. split; [lia|done].
    + eexists; split; [done|]. simpl. rewrite Hlm. split; [lia|done].
Qed.

(** A run that is not paused ends: from any state that can be reached, with no further
    call, the start under way and the worker are done after at most
    [2 * length plan + 10] of their steps, and the manager is IDLE. *)
Theorem rebalance_finishes m0 m :
  at_rest m0 → rtc rb_step m0 m → state_ m ≠ PAUSED →
  let m' := run_worker (steps_left m) m in
  worker_ m' = None ∧ launching_ m' = None ∧ state_ m' = IDLE ∧ own_step m' = None.
Proof.
  intros Hrest Hrun Hs. pose proof (reachable_inv _ _ Hrest Hrun) as Hinv.
  assert (∀ m, rb_inv m → state_ m = IDLE → worker_ m = None ∧ launching_ m = None ∧ state_ m = IDLE ∧ own_step m = None) as Hend.
  { intros m1 Hinv1 Hs1. destruct (proj1 (ri_idle _ Hinv1) Hs1) as [Hw Hl]. split_and!; [done..|].
    unfold own_step, Rebalance.worker_step. by rewrite Hl, Hw. }
  assert (∀ n m, (steps_left m <= n)%nat → rb_inv m → state_ m ≠ PAUSED →
    let m' := run_worker n m in worker_ m' = None ∧ launching_ m' = None ∧ state_ m' = IDLE ∧ own_step m' = None) as Hgen.
  { clear m0 m Hrest Hrun Hs Hinv. induction n as [|n IH]; intros m Hn Hinv Hs; cbn [run_worker];
      destruct (decide (state_ m = IDLE)) as [Hi|Hi].
    - by apply Hend.
    - destruct (own_step_progress m Hinv Hi Hs) as (m' & _ & Hlt & _). lia.
    - destruct (Hend m Hinv Hi) as (? & ? & ? & Hnone). rewrite Hnone. done.
    - destruct (own_step_progress m Hinv Hi Hs) as (m' & Hstep & Hlt & Hs'). rewrite Hstep. apply IH; [lia| |done].
      unfold own_step in Hstep. destruct (launching_ m); [by eapply launch_step_inv|by eapply worker_step_inv]. }
  by apply Hgen.
Qed.
End Runs.

(** ** Concrete runs *)

Definition demo_config : RebalanceConfig := mkConfig "" 0 0 true 60 0.
Definition one_node : PartitionRouter := add_node empty_router 1.
Definition demo_manager : RebalanceManager := new_rebalance one_node demo_migrator demo_config.
Notation demo_run := (run_worker one_row all_stored (λ _, false) 0 (λ _ _, true)).

Definition refused_start : bool * RebalanceManager :=
  start_add_node (start_move_partitions demo_manager [demo_move]).2 2.
Definition auto_start : RebalanceManager :=
  (launch (policy_check (λ _ _, true) (set_policy demo_manager true 0) 100 [(1, 5); (2, 0)]) 0).2.
Definition in_ring (m : RebalanceManager) (node : Z) : bool := bool_decide (node ∈ node_set_ (rm_router m)).

(** The recorded action is not tied to the plan that runs. A [start_add_node]
    that is refused because a rebalance runs has already overwritten the
    action: when that other rebalance ends, the node joins the ring although
    none of its plan was executed. Conversely the automatic policy launches a
    scale-out plan without recording an action: every move of it completes and
    the node does not join. *)
Theorem action_is_not_tied_to_plan :
  (let m := demo_run 20 refused_start.2 in
   refused_start.1 = false ∧ state_ m = IDLE ∧ plan_ m = [demo_move] ∧
   Forall (λ mv, move_symbol mv ≠ move_symbol demo_move) (plan_add one_node 2) ∧
   in_ring refused_start.2 2 = false ∧ in_ring m 2 = true) ∧
  (let m := demo_run 20 auto_start in
   state_ auto_start = RUNNING ∧ plan_ m = plan_add one_node 2 ∧ state_ m = IDLE ∧
   completed_moves (status_ m) = Z.of_nat (length (plan_ m)) ∧ failed_moves (status_ m) = 0 ∧
   in_ring m 2 = false).
Proof.
  assert (∃ mv, plan_add one_node 2 = [mv] ∧ move_symbol mv ≠ move_symbol demo_move) as (mv & Hp & Hne).
  { eexists. split; [vm_compute; reflexivity|done]. }
  cbv zeta. split.
  - split; [vm_compute; reflexivity|]. split; [vm_compute; reflexivity|]. split; [vm_compute; reflexivity|].
    split; [rewrite Hp; by constructor|]. split; vm_compute; reflexivity.
  - do 5 (split; [vm_compute; reflexivity|]). vm_compute; reflexivity.
Qed.

Lemma run_worker_reachable sr rr dl now send re n m :
  rtc (rb_step sr rr dl now send re) m (run_worker sr rr dl now send n m).
Proof.
  revert m. induction n as [|n IH]; intros m; [done|]. cbn [run_worker].
  destruct (own_step _ _ _ _ _ m) as [m'|] eqn:Hs; [|done]. eapply rtc_l; [|apply IH].
  unfold own_step in Hs. destruct (launching_ m); [by apply step_launching|by apply step_worker].
Qed.

(** A scale-out to node 2, won but not started, and up to the change of the ring. *)
Definition scale_out : RebalanceManager := (launch (begin_add_node demo_manager 2).2 0).2.
Definition closing : RebalanceManager := demo_run 7 scale_out.

(** A [cancel] that comes between the worker's look at [state_] and its change of the
    ring does not stop the change: the run is recorded as cancelled, and the node is
    in the ring. *)
Theorem cancelled_run_changes_ring :
  worker_ closing = Some (Changing ADD_NODE 2) ∧ in_ring closing 2 = false ∧
  (let m := demo_run 20 (cancel closing) in
   state_ m = IDLE ∧ (h_cancelled <$> history_ m) = [true] ∧ in_ring m 2 = true).
Proof. cbv zeta. split_and!; vm_compute; reflexivity. Qed.

Lemma scale_out_reachable n :
  rtc (rb_step one_row all_stored (λ _, false) 0 (λ _ _, true) (λ _ _, true)) demo_manager (demo_run n scale_out).
Proof.
  eapply rtc_l; [apply (step_begin_add _ _ _ _ _ _ _ 2)|].
  eapply rtc_l; [apply (step_launch _ _ _ _ _ _ _ 0)|]. apply run_worker_reachable.
Qed.

Lemma topology_changes_last_witness :
  ∃ m', worker_step one_row all_stored (λ _, false) 0 (λ _ _, true) closing = Some m' ∧ in_ring m' 2 = true ∧
  ∃ act node, worker_ closing = Some (Changing act node) ∧ completed_moves (status_ closing) = Z.of_nat (length (plan_ closing)).
Proof.
  pose (next := worker_step one_row all_stored (λ _, false) 0 (λ _ _, true) closing).
  assert (in_ring (default closing next) 2 = true) as Ht by (vm_compute; reflexivity).
  assert (in_ring closing 2 = false) as Hf by (vm_compute; reflexivity).
  destruct next as [m'|] eqn:Hnext; [|simpl in Ht; rewrite Hf in Ht; discriminate Ht].
  exists m'. split; [exact Hnext|]. split; [exact Ht|].
  destruct (topology_changes_last one_row all_stored (λ _, false) 0 (λ _ _, true) (λ _ _, true)
    demo_manager closing m') as (act & node & H1 & H2 & _).
  - split; [reflexivity|split; reflexivity].
  - apply (scale_out_reachable 7).
  - apply step_worker. exact Hnext.
  - intros H. assert (in_ring m' 2 = in_ring closing 2) as Hb by (unfold in_ring; rewrite H; reflexivity).
    simpl in Ht. rewrite Ht, Hf in Hb. discriminate Hb.
  - exists act, node. split; [exact H1|exact H2].
Defined.

Lemma rebalance_finishes_witness :
  worker_ (demo_run (steps_left scale_out) scale_out) = None.
Proof.
  apply (rebalance_finishes one_row all_stored (λ _, false) 0 (λ _ _, true) (λ _ _, true)
    demo_manager scale_out).
  - split; [reflexivity|split; reflexivity].
  - apply (scale_out_reachable 0).
  - vm_compute. discriminate.
Defined.
