(* ===== verification/Tokenizer.v ===== *)
(** * The SQL tokenizer

    Models [src/sql/tokenizer.cpp] and [include/zeptodb/sql/tokenizer.h]. The
    input is the list of characters from the current position on; a position in
    an error is the number of characters consumed. Character classes are those
    of the C locale. *)

From stdpp Require Import base list strings.
From Stdlib Require Import ZArith Lia Ascii.
From S2P Require Import Prelude.
From S2P Require Import Text.

Open Scope Z_scope.

Inductive TokenType : Type :=
  | SELECT | FROM | WHERE | JOIN | ASOF | ON | AND | OR | NOT | GROUP | BY | ORDER | LIMIT | OFFSET | BETWEEN
  | HAVING | AS | DISTINCT | INNER | LEFT | RIGHT | OUTER | CROSS | ASC | DESC | NULLS | FIRST | LAST | SUM
  | AVG | COUNT | MIN | MAX | VWAP | STDDEV | VARIANCE | MEDIAN | PERCENTILE | OVER | PARTITION | ROWS
  | RANGE | PRECEDING | FOLLOWING | UNBOUNDED | CURRENT | ROW | RANK | DENSE_RANK | ROW_NUMBER | LAG | LEAD
  | XBAR | EMA | DELTA | RATIO | WINDOW | DATE_TRUNC | NOW | EPOCH_S | EPOCH_MS | SUBSTR | LIKE | FULL
  | PLUS_JOIN | AJ0 | EXPLAIN | INTERVAL | SAMPLE | WITH | INSERT | INTO | VALUES | UPDATE | SET | DELETE_KW
  | MATERIALIZED | VIEW | UNION | ALL | INTERSECT | EXCEPT | IN | IS | NULL_KW | GT | LT | GE | LE | EQ | NE
  | PLUS | MINUS | SLASH | CASE | WHEN | THEN | ELSE | CASE_END | COMMA | DOT | LPAREN | RPAREN | STAR
  | IDENT | NUMBER | STRING | END.

Record Token : Type := mkToken { type : TokenType; value : string }.

(** The chain of comparisons, in its order. *)
Definition keywords : list (string * TokenType) :=
  [("SELECT", SELECT); ("FROM", FROM); ("WHERE", WHERE); ("JOIN", JOIN); ("ASOF", ASOF); ("ON", ON);
   ("AND", AND); ("OR", OR); ("NOT", NOT); ("IN", IN); ("IS", IS); ("NULL", NULL_KW); ("GROUP", GROUP);
   ("BY", BY); ("ORDER", ORDER); ("LIMIT", LIMIT); ("OFFSET", OFFSET); ("BETWEEN", BETWEEN);
   ("HAVING", HAVING); ("AS", AS); ("DISTINCT", DISTINCT); ("INNER", INNER); ("LEFT", LEFT);
   ("RIGHT", RIGHT); ("OUTER", OUTER); ("CROSS", CROSS); ("ASC", ASC); ("DESC", DESC); ("NULLS", NULLS);
   ("FIRST", FIRST); ("LAST", LAST); ("SUM", SUM); ("AVG", AVG); ("COUNT", COUNT); ("MIN", MIN);
   ("MAX", MAX); ("VWAP", VWAP); ("STDDEV", STDDEV); ("VARIANCE", VARIANCE); ("MEDIAN", MEDIAN);
   ("PERCENTILE", PERCENTILE); ("PERCENTILE_CONT", PERCENTILE); ("OVER", OVER); ("PARTITION", PARTITION);
   ("ROWS", ROWS); ("RANGE", RANGE); ("PRECEDING", PRECEDING); ("FOLLOWING", FOLLOWING);
   ("UNBOUNDED", UNBOUNDED); ("CURRENT", CURRENT); ("ROW", ROW); ("RANK", RANK); ("DENSE_RANK", DENSE_RANK);
   ("ROW_NUMBER", ROW_NUMBER); ("LAG", LAG); ("LEAD", LEAD); ("XBAR", XBAR); ("EMA", EMA); ("DELTA", DELTA);
   ("RATIO", RATIO); ("WINDOW", WINDOW); ("CASE", CASE); ("WHEN", WHEN); ("THEN", THEN); ("ELSE", ELSE);
   ("END", CASE_END); ("DATE_TRUNC", DATE_TRUNC); ("NOW", NOW); ("EPOCH_S", EPOCH_S); ("EPOCH_MS", EPOCH_MS);
   ("LIKE", LIKE); ("SUBSTR", SUBSTR); ("FULL", FULL); ("PLUS", PLUS_JOIN); ("AJ0", AJ0);
   ("EXPLAIN", EXPLAIN); ("INTERVAL", INTERVAL); ("SAMPLE", SAMPLE); ("WITH", WITH); ("INSERT", INSERT);
   ("INTO", INTO); ("VALUES", VALUES); ("UPDATE", UPDATE); ("SET", SET); ("DELETE", DELETE_KW);
   ("MATERIALIZED", MATERIALIZED); ("VIEW", VIEW); ("UNION", UNION); ("ALL", ALL); ("INTERSECT", INTERSECT);
   ("EXCEPT", EXCEPT)].

Fixpoint find_keyword (table : list (string * TokenType)) (upper : string) : TokenType :=
  match table with
  | [] => IDENT
  | (word, t) :: rest => if String.eqb upper word then t else find_keyword rest upper
  end.

Definition keyword_type (upper : string) : TokenType := find_keyword keywords upper.

(** ** Scanning *)

Definition skip_whitespace (l : text) : text := (span isspace l).2.

Definition number_char (c : char) : bool := isdigit c || Ascii.eqb c "."%char.
Definition read_number (l : text) : Token * text :=
  let '(num, rest) := span number_char l in (mkToken NUMBER (str num), rest).

(** After the opening quote: the literal and what follows it, or [None] when the
    closing quote is missing. *)
Fixpoint read_string (l : text) : option (text * text) :=
  match l with
  | [] => None
  | c :: l' =>
      if Ascii.eqb c "'"%char then
        match l' with
        | c2 :: l2 => if Ascii.eqb c2 "'"%char then '(s, rest) ← read_string l2; Some (c :: s, rest) else Some ([], l')
        | [] => Some ([], [])
        end
      else '(s, rest) ← read_string l'; Some (c :: s, rest)
  end.

Definition ident_char (c : char) : bool := isalnum c || Ascii.eqb c "_"%char.
Definition read_ident_or_keyword (l : text) : Token * text :=
  let '(ident, rest) := span ident_char l in
  (mkToken (keyword_type (str (toupper <$> ident))) (str ident), rest).

(** ** The loop *)

Inductive token_error : Type :=
  | UnterminatedString
  | UnexpectedCharacter (c : char) (position : Z).

(** One round: a token, a comment, or an error. *)
Inductive round : Type :=
  | Produced (t : Token) (rest : text)
  | Skipped (rest : text)
  | Failed (e : token_error).

Definition is_operand (t : Token) : bool :=
  match type t with RPAREN | NUMBER | IDENT => true | _ => false end.

(** The [switch] on the consumed character [c]; [pos] is the position after it. *)
Definition punctuation (c : char) (rest : text) (pos : Z) : round :=
  let one t := Produced (mkToken t (str [c])) rest in
  let followed x := match rest with c2 :: _ => Ascii.eqb c2 x | [] => false end in
  let two t x := Produced (mkToken t (str [c; x])) (tail rest) in
  if Ascii.eqb c ","%char then one COMMA
  else if Ascii.eqb c "."%char then one DOT
  else if Ascii.eqb c "("%char then one LPAREN
  else if Ascii.eqb c ")"%char then one RPAREN
  else if Ascii.eqb c "*"%char then one STAR
  else if Ascii.eqb c "+"%char then one PLUS
  else if Ascii.eqb c "-"%char then one MINUS
  else if Ascii.eqb c "/"%char then one SLASH
  else if Ascii.eqb c "="%char then one EQ
  else if Ascii.eqb c ">"%char then if followed "="%char then two GE "="%char else one GT
  else if Ascii.eqb c "<"%char then
    if followed "="%char then two LE "="%char
    else if followed ">"%char then two NE ">"%char
    else one LT
  else if Ascii.eqb c "!"%char then if followed "="%char then two NE "="%char else Failed (UnexpectedCharacter c pos)
  else Failed (UnexpectedCharacter c pos).

(** A round on [c :: rest], [c] not a space; [back] is [tokens.back()]. *)
Definition scan (c : char) (rest : text) (back : option Token) (pos : Z) : round :=
  let next x := match rest with c2 :: _ => x c2 | [] => false end in
  if Ascii.eqb c "-"%char && next (Ascii.eqb "-"%char) then
    Skipped (span (λ c, negb (Ascii.eqb c "010"%char)) (c :: rest)).2
  else if isdigit c then let '(t, rest) := read_number (c :: rest) in Produced t rest
  else if Ascii.eqb c "-"%char && next isdigit then
    if from_option is_operand false back then Produced (mkToken MINUS "-") rest
    else let '(t, rest) := read_number rest in
         Produced (mkToken (type t) (String.append "-" (value t))) rest
  else if Ascii.eqb c "'"%char then
    match read_string rest with
    | Some (s, rest) => Produced (mkToken STRING (str s)) rest
    | None => Failed UnterminatedString
    end
  else if isalpha c || Ascii.eqb c "_"%char then
    let '(t, rest) := read_ident_or_keyword (c :: rest) in Produced t rest
  else if Ascii.eqb c "`"%char then
    let '(ident, rest) := span (λ c, negb (Ascii.eqb c "`"%char)) rest in
    Produced (mkToken IDENT (str ident)) (tail rest)
  else punctuation c rest (pos + 1).

Inductive tokenized : Type :=
  | Tokens (ts : list Token)
  | Error (e : token_error)
  | OutOfFuel.

(** [tokens] is kept in order; [len] is the length of the whole input. *)
Fixpoint tokenize_loop (fuel : nat) (len : Z) (tokens : list Token) (l : text) : tokenized :=
  match fuel with
  | O => OutOfFuel
  | S fuel =>
      match skip_whitespace l with
      | [] => Tokens (tokens ++ [mkToken END ""])
      | c :: rest =>
          match scan c rest (last tokens) (len - Z.of_nat (length (c :: rest))) with
          | Produced t rest => tokenize_loop fuel len (tokens ++ [t]) rest
          | Skipped rest => tokenize_loop fuel len tokens rest
          | Failed e => Error e
          end
      end
  end.

(** Every round consumes a character, so the length is fuel enough. *)
Definition tokenize (sql : string) : tokenized :=
  tokenize_loop (S (length (chars sql))) (Z.of_nat (length (chars sql))) [] (chars sql).

(** ** Printing *)

Definition upper_word (s : string) : string := str (toupper <$> chars s).

(** A word the tokenizer reads with [read_ident_or_keyword]. *)
Definition is_word (s : string) : bool :=
  match chars s with
  | c :: l => (isalpha c || Ascii.eqb c "_"%char) && forallb ident_char l
  | [] => false
  end.

Definition plain_ident (s : string) : bool :=
  is_word s && match keyword_type (upper_word s) with IDENT => true | _ => false end.

Fixpoint escape (l : text) : text :=
  match l with
  | [] => []
  | c :: l => if Ascii.eqb c "'"%char then "'"%char :: "'"%char :: escape l else c :: escape l
  end.

(** Strings are quoted, identifiers that are not plain words are put between
    backticks, everything else is its own text. *)
Definition print_token (t : Token) : text :=
  match type t with
  | STRING => "'"%char :: escape (chars (value t)) ++ ["'"%char]
  | IDENT => if plain_ident (value t) then chars (value t) else "`"%char :: chars (value t) ++ ["`"%char]
  | _ => chars (value t)
  end.

Definition print (ts : list Token) : text := ts ≫= λ t, " "%char :: print_token t.

(** ** Well-formed token lists *)

Definition unsigned_number (l : text) : bool :=
  match l with c :: l => isdigit c && forallb number_char l | [] => false end.

Definition negative (t : Token) : bool :=
  match type t, chars (value t) with NUMBER, c :: _ => Ascii.eqb c "-"%char | _, _ => false end.

Definition operator_texts (t : TokenType) : list string :=
  match t with
  | COMMA => [","] | DOT => ["."] | LPAREN => ["("] | RPAREN => [")"] | STAR => ["*"] | PLUS => ["+"]
  | MINUS => ["-"] | SLASH => ["/"] | EQ => ["="] | GT => [">"] | GE => [">="] | LT => ["<"] | LE => ["<="]
  | NE => ["<>"; "!="] | _ => []
  end%string.

(** What a token of each type can be. *)
Definition valid_token (t : Token) : Prop :=
  match type t with
  | NUMBER => unsigned_number (if negative t then tail (chars (value t)) else chars (value t)) = true
  | STRING => True
  | IDENT => forallb (λ c, negb (Ascii.eqb c "`"%char)) (chars (value t)) = true
  | END => False
  | ty => value t ∈ operator_texts ty ∨ is_word (value t) = true ∧ keyword_type (upper_word (value t)) = ty
  end.

(** A negative literal never directly follows an operand. *)
Fixpoint valid_from (back : option Token) (ts : list Token) : Prop :=
  match ts with
  | [] => True
  | t :: ts =>
      valid_token t ∧ (negative t = true → from_option is_operand false back = false) ∧ valid_from (Some t) ts
  end.

(** ** Characters *)

Lemma word_start_not_space c : isalpha c || Ascii.eqb c "_"%char = true → isspace c = false.
Proof. by_char c. Qed.
Lemma word_start_kind c : isalpha c || Ascii.eqb c "_"%char = true →
  Ascii.eqb c "-"%char = false ∧ isdigit c = false ∧ Ascii.eqb c "'"%char = false ∧ ident_char c = true.
Proof. by_char c. Qed.
Lemma digit_kind c : isdigit c = true → Ascii.eqb c "-"%char = false ∧ number_char c = true.
Proof. by_char c. Qed.

Lemma read_string_escape l rest : match rest with c :: _ => Ascii.eqb c "'"%char = false | [] => True end →
  read_string (escape l ++ "'"%char :: rest) = Some (l, rest).
Proof.
  intros Hr. induction l as [|c l IH].
  - simpl. destruct rest as [|c rest]; [done|]. by rewrite Hr.
  - cbn [escape]. destruct (Ascii.eqb_spec c "'"%char) as [->|Hc].
    + cbn [app read_string]. simpl. rewrite IH. done.
    + cbn [app read_string]. apply Ascii.eqb_neq in Hc. by rewrite Hc, IH.
Qed.

Lemma read_string_length l s rest : read_string l = Some (s, rest) → (length rest < length l)%nat.
Proof.
  revert s rest. assert (∀ n l s rest, (length l <= n)%nat → read_string l = Some (s, rest) → (length rest < length l)%nat) as H.
  { intros n. induction n as [|n IH]; intros [|c l'] s rest Hn Hr; simpl in *; try done; try lia.
    destruct (Ascii.eqb c "'"%char).
    - destruct l' as [|c2 l2]; simplify_eq/=; [lia|]. destruct (Ascii.eqb c2 "'"%char); simplify_eq/=; [|lia].
      destruct (read_string l2) as [[s' r']|] eqn:Hl2; simplify_eq/=. apply IH in Hl2; simpl in *; lia.
    - destruct (read_string l') as [[s' r']|] eqn:Hl2; simplify_eq/=. apply IH in Hl2; lia. }
  intros s rest. by eapply H.
Qed.

(** ** Reading back one token *)

(** What follows a printed token: nothing, or a space. *)
Definition stops (l : text) : Prop := match l with c :: _ => c = " "%char | [] => True end.

Definition scans_to (t : Token) (back : option Token) (rest l : text) : Prop :=
  ∃ c l', l = c :: l' ∧ isspace c = false ∧ ∀ pos, scan c l' back pos = Produced t rest.

Lemma stops_span p l : p " "%char = false → stops l → ends_run p l.
Proof. intros Hp. destruct l; simpl; [done|]. by intros ->. Qed.

Lemma scan_operator ty v back rest :
  v ∈ operator_texts ty → stops rest → scans_to (mkToken ty v) back rest (chars v ++ rest).
Proof.
  intros Hv Hr. destruct ty; simpl in Hv; try by apply elem_of_nil in Hv.
  all: repeat (apply elem_of_cons in Hv as [->|Hv]); try by apply elem_of_nil in Hv.
  all: destruct rest as [|c rest]; [|simpl in Hr; subst c]; do 2 eexists; (split_and!; [reflexivity|reflexivity|intros pos; reflexivity]).
Qed.

Lemma scan_word v back rest :
  is_word v = true → ends_run ident_char rest →
  scans_to (mkToken (keyword_type (upper_word v)) v) back rest (chars v ++ rest).
Proof.
  unfold is_word. intros Hw Hr. pose proof (str_chars v) as Hv. destruct (chars v) as [|c l] eqn:Hc; [done|].
  apply andb_true_iff in Hw as [Hc0 Hl]. exists c, (l ++ rest). split; [done|].
  split; [by apply word_start_not_space|]. intros pos.
  destruct (word_start_kind c Hc0) as (H1 & H2 & H3 & H4).
  unfold scan. rewrite H1, H2, H3, Hc0. simpl (false && _). cbv iota. unfold read_ident_or_keyword.
  change (c :: l ++ rest) with ((c :: l) ++ rest). rewrite (span_app ident_char (c :: l) rest).
  - unfold upper_word. by rewrite Hc, Hv.
  - simpl. by rewrite H4.
  - done.
Qed.

Lemma scan_backticks v back rest :
  forallb (λ c, negb (Ascii.eqb c "`"%char)) (chars v) = true → stops rest →
  scans_to (mkToken IDENT v) back rest ("`"%char :: (chars v ++ ["`"%char]) ++ rest).
Proof.
  intros Hv Hr. do 2 eexists. split; [done|]. split; [done|]. intros pos. rewrite <- app_assoc. simpl.
  unfold scan. simpl. rewrite (span_app _ (chars v) ("`"%char :: rest)) by done. simpl. by rewrite str_chars.
Qed.

Lemma scan_string v back rest :
  stops rest → scans_to (mkToken STRING v) back rest ("'"%char :: (escape (chars v) ++ ["'"%char]) ++ rest).
Proof.
  intros Hr. do 2 eexists. split; [done|]. split; [done|]. intros pos. rewrite <- app_assoc. simpl.
  unfold scan. simpl. rewrite read_string_escape by by apply stops_span. by rewrite str_chars.
Qed.

Lemma scan_number v back rest :
  valid_token (mkToken NUMBER v) →
  (negative (mkToken NUMBER v) = true → from_option is_operand false back = false) →
  ends_run number_char rest → scans_to (mkToken NUMBER v) back rest (chars v ++ rest).
Proof.
  unfold valid_token. simpl. intros Hv Hback Hr. unfold negative in *. simpl in *.
  pose proof (str_chars v) as Hs. destruct (chars v) as [|c l]; [done|].
  destruct (Ascii.eqb_spec c "-"%char) as [->|Hc].
  - simpl in Hv. destruct l as [|d l]; [done|]. simpl in Hv. apply andb_true_iff in Hv as [Hd Hl].
    exists "-"%char, ((d :: l) ++ rest). split; [done|]. split; [done|]. intros pos.
    destruct (digit_kind d Hd) as [H1 H2]. unfold scan. cbn [app]. rewrite Hd, (Ascii.eqb_sym "-"%char d), H1.
    simpl (Ascii.eqb "-" "-" && _). cbv iota. rewrite Hback by done. unfold read_number.
    change (d :: l ++ rest) with ((d :: l) ++ rest). rewrite (span_app number_char (d :: l) rest); [|simpl; by rewrite H2|done].
    cbn. do 2 f_equal. rewrite <- Hs. done.
  - simpl in Hv. apply andb_true_iff in Hv as [Hd Hl]. exists c, (l ++ rest). split; [done|].
    split; [by apply digit_not_space|]. intros pos. destruct (digit_kind c Hd) as [H1 H2].
    unfold scan. rewrite H1, Hd. simpl (false && _). cbv iota. unfold read_number.
    change (c :: l ++ rest) with ((c :: l) ++ rest). rewrite (span_app number_char (c :: l) rest); [by rewrite Hs|simpl; by rewrite H2|done].
Qed.

Lemma scan_print t back rest :
  valid_token t → (negative t = true → from_option is_operand false back = false) → stops rest →
  scans_to t back rest (print_token t ++ rest).
Proof.
  destruct t as [ty v]. intros Hv Hneg Hr.
  destruct (match ty with NUMBER | STRING | IDENT | END => true | _ => false end) eqn:Hty.
  - destruct ty; try done; unfold print_token; cbn [type value].
    + unfold plain_ident. destruct (is_word v) eqn:Hw; cbn [andb]; [|by apply scan_backticks].
      destruct (keyword_type (upper_word v)) eqn:Hk; try by apply scan_backticks.
      rewrite <- Hk. by apply scan_word, stops_span.
    + by apply scan_number; [..|apply stops_span].
    + by apply scan_string.
  - assert (v ∈ operator_texts ty ∨ is_word v = true ∧ keyword_type (upper_word v) = ty) as [Ho|[Hw Hk]]
      by (destruct ty; done).
    + assert (print_token (mkToken ty v) = chars v) as -> by (by destruct ty). by apply scan_operator.
    + assert (print_token (mkToken ty v) = chars v) as -> by (by destruct ty). rewrite <- Hk. by apply scan_word, stops_span.
Qed.

Lemma skip_space l : skip_whitespace (" "%char :: l) = skip_whitespace l.
Proof. unfold skip_whitespace. cbn [span]. change (isspace " "%char) with true. cbv iota. by destruct (span isspace l). Qed.

Lemma skip_not_space c l : isspace c = false → skip_whitespace (c :: l) = c :: l.
Proof. intros Hc. unfold skip_whitespace. simpl. by rewrite Hc. Qed.

Lemma print_cons t ts : print (t :: ts) = " "%char :: print_token t ++ print ts.
Proof. done. Qed.

Lemma print_stops ts : stops (print ts).
Proof. by destruct ts. Qed.

Lemma tokenize_loop_print fuel len acc ts :
  (length ts < fuel)%nat → valid_from (last acc) ts →
  tokenize_loop fuel len acc (print ts) = Tokens (acc ++ ts ++ [mkToken END ""]).
Proof.
  revert fuel acc. induction ts as [|t ts IH]; intros [|fuel] acc Hf Hv; simpl in Hf; try lia; [done|].
  destruct Hv as (Ht & Hneg & Hv). rewrite print_cons. cbn [tokenize_loop]. rewrite skip_space.
  destruct (scan_print t (last acc) (print ts) Ht Hneg (print_stops ts)) as (c & l & -> & Hc & Hs).
  rewrite skip_not_space by done. rewrite Hs, IH; [by rewrite <- app_assoc|lia|by rewrite last_snoc].
Qed.

Lemma length_print ts : (length ts <= length (print ts))%nat.
Proof. induction ts as [|t ts IH]; [done|]. rewrite print_cons. simpl. rewrite length_app. lia. Qed.

(** ** What a round produces *)

Lemma keyword_type_not k : (match k with NUMBER | STRING | END | COMMA | DOT | LPAREN | RPAREN | STAR | PLUS | MINUS
    | SLASH | EQ | GT | GE | LT | LE | NE => false | _ => true end) = true ∨ ∀ u, keyword_type u ≠ k.
Proof.
  destruct (match k with NUMBER | STRING | END | COMMA | DOT | LPAREN | RPAREN | STAR | PLUS | MINUS
    | SLASH | EQ | GT | GE | LT | LE | NE => false | _ => true end) eqn:Hk; [by left|right].
  intros u Hu. assert (∀ table, Forall (λ p : string * TokenType, p.2 ≠ k) table → k ≠ IDENT → find_keyword table u ≠ k) as H.
  { intros table Hall Hi. induction Hall as [|[w t] table Ht Hall IH]; simpl; [by intros <-|].
    destruct (String.eqb u w); [done|apply IH]. }
  apply (H keywords); [|by destruct k|done]. unfold keywords. destruct k; try done; repeat constructor; done.
Qed.

Lemma word_token_valid c l : isalpha c || Ascii.eqb c "_"%char = true → forallb ident_char l = true →
  let v := str (c :: l) in
  valid_token (mkToken (keyword_type (upper_word v)) v) ∧ negative (mkToken (keyword_type (upper_word v)) v) = false.
Proof.
  intros Hc Hl v.
  assert (is_word v = true) as Hw by (unfold is_word, v; rewrite chars_str; by rewrite Hc, Hl).
  assert (forallb (λ c, negb (Ascii.eqb c "`"%char)) (chars v) = true) as Hb.
  { unfold v. rewrite chars_str. simpl. assert (negb (Ascii.eqb c "`"%char) = true) as -> by (revert Hc; by_char c).
    simpl. clear -Hl. induction l as [|d l IH]; [done|]. simpl in *. apply andb_true_iff in Hl as [Hd Hl].
    rewrite IH by done. assert (negb (Ascii.eqb d "`"%char) = true) as -> by (revert Hd; by_char d). done. }
  pose proof (keyword_type_not (keyword_type (upper_word v))) as [Hk|Hk]; [|by destruct (Hk (upper_word v))].
  unfold valid_token, negative. cbn [type value].
  destruct (keyword_type (upper_word v)) eqn:He; try done; (split; [|done]); try exact Hb; by right.
Qed.

Lemma operator_token_valid ty v : v ∈ operator_texts ty → valid_token (mkToken ty v) ∧ negative (mkToken ty v) = false.
Proof. intros Hv. destruct ty; simpl in Hv; first [by apply elem_of_nil in Hv | split; [by left|done]]. Qed.

(** The outcome of a round on [n] remaining characters. *)
Definition sound_round (back : option Token) (n : nat) (r : round) : Prop :=
  match r with
  | Produced t rest =>
      valid_token t ∧ (negative t = true → from_option is_operand false back = false) ∧ (length rest <= n)%nat
  | Skipped rest => (length rest <= n)%nat
  | Failed _ => True
  end.

Lemma sound_operator ty v back rest n :
  v ∈ operator_texts ty → (length rest <= n)%nat → sound_round back n (Produced (mkToken ty v) rest).
Proof. intros Hv Hl. destruct (operator_token_valid ty v Hv) as [H1 H2]. simpl. rewrite H2. done. Qed.

Lemma length_tail {A} (l : list A) : (length (tail l) <= length l)%nat.
Proof. destruct l; simpl; lia. Qed.

Lemma punctuation_sound c rest back pos : sound_round back (length rest) (punctuation c rest pos).
Proof.
  unfold punctuation.
  repeat (match goal with |- sound_round _ _ (if ?b then _ else _) => let H := fresh in destruct b eqn:H end);
    try done;
    repeat match goal with H : Ascii.eqb c _ = true |- _ => apply Ascii.eqb_eq in H; subst c end;
    apply sound_operator; (apply length_tail || done || (apply (bool_decide_unpack _); reflexivity)).
Qed.

Lemma number_token_valid l :
  forallb number_char l = true → ∀ c, isdigit c = true →
  valid_token (mkToken NUMBER (str (c :: l))) ∧ negative (mkToken NUMBER (str (c :: l))) = false.
Proof.
  intros Hl c Hc. destruct (digit_kind c Hc) as [H1 _]. unfold valid_token, negative. cbn [type value].
  rewrite chars_str, H1. simpl. by rewrite Hc, Hl.
Qed.

Lemma scan_sound c rest back pos : sound_round back (length rest) (scan c rest back pos).
Proof.
  unfold scan. destruct (Ascii.eqb c "-"%char && _) eqn:Hcomment.
  { apply andb_true_iff in Hcomment as [Hc%Ascii.eqb_eq _]. subst c. cbn [span].
    change (negb (Ascii.eqb "-" "010")) with true. cbv iota.
    pose proof (length_span (λ c, negb (Ascii.eqb c "010"%char)) rest) as Hl. by destruct (span _ rest). }
  destruct (isdigit c) eqn:Hd.
  { unfold read_number. cbn [span]. rewrite (proj2 (digit_kind c Hd)).
    pose proof (span_spec number_char rest) as H. destruct (span number_char rest) as [a b].
    destruct H as (-> & Ha & _). destruct (number_token_valid a Ha c Hd) as [Hv Hn].
    unfold sound_round. rewrite Hn. split_and!; [done|done|rewrite length_app; lia]. }
  destruct (Ascii.eqb c "-"%char && match rest with c2 :: _ => isdigit c2 | [] => false end) eqn:Hneg.
  { destruct (from_option is_operand false back) eqn:Hb; [by apply sound_operator; [apply (bool_decide_unpack _); reflexivity|]|].
    apply andb_true_iff in Hneg as [_ Hnext]. destruct rest as [|d rest]; [done|].
    unfold read_number. cbn [span]. rewrite (proj2 (digit_kind d Hnext)).
    pose proof (span_spec number_char rest) as H. destruct (span number_char rest) as [a b].
    destruct H as (-> & Ha & _). cbn [type value]. split_and!; [|done|simpl; rewrite length_app; lia].
    unfold valid_token, negative. cbn [type value].
    change (String.append "-" (str (d :: a))) with (str ("-"%char :: d :: a)). rewrite chars_str. simpl.
    by rewrite Hnext, Ha. }
  destruct (Ascii.eqb c "'"%char).
  { destruct (read_string rest) as [[s rest']|] eqn:Hr; [|done]. apply read_string_length in Hr. simpl.
    split_and!; [done|done|lia]. }
  destruct (isalpha c || Ascii.eqb c "_"%char) eqn:Hw.
  { unfold read_ident_or_keyword. cbn [span]. rewrite (proj2 (proj2 (proj2 (word_start_kind c Hw)))).
    pose proof (span_spec ident_char rest) as H. destruct (span ident_char rest) as [a b].
    destruct H as (-> & Ha & _). destruct (word_token_valid c a Hw Ha) as [Hv Hn].
    unfold upper_word in *. rewrite chars_str in *. unfold sound_round. rewrite Hn. split; [done|]. split; [done|].
    rewrite length_app. lia. }
  destruct (Ascii.eqb c "`"%char); [|apply punctuation_sound].
  pose proof (span_spec (λ c, negb (Ascii.eqb c "`"%char)) rest) as H. destruct (span _ rest) as [a b].
  destruct H as (-> & Ha & _). simpl. split_and!; [|done|rewrite length_app; pose proof (length_tail b); lia].
  unfold valid_token. cbn [type value]. by rewrite chars_str.
Qed.

Lemma valid_from_snoc back ts t :
  valid_from back ts → valid_token t →
  (negative t = true → from_option is_operand false (match last ts with Some t => Some t | None => back end) = false) →
  valid_from back (ts ++ [t]).
Proof.
  revert back. induction ts as [|u ts IH]; intros back Hts Ht Hneg; [by split_and!|].
  destruct Hts as (? & ? & ?). split; [done|]. split; [done|]. apply IH; [done|done|].
  rewrite last_cons in Hneg. by destruct (last ts).
Qed.

Lemma tokenize_loop_sound fuel len acc l :
  (length l < fuel)%nat → valid_from None acc →
  match tokenize_loop fuel len acc l with
  | Tokens ts => ∃ body, ts = body ++ [mkToken END ""] ∧ valid_from None body ∧
      (length body <= length acc + length l)%nat
  | Error _ => True
  | OutOfFuel => False
  end.
Proof.
  revert acc l. induction fuel as [|fuel IH]; intros acc l Hf Hacc; [lia|]. cbn [tokenize_loop].
  pose proof (length_span isspace l) as Hl. unfold skip_whitespace. destruct (span isspace l).2 as [|c rest].
  { exists acc. split_and!; [done|done|lia]. }
  set (pos := len - _). pose proof (scan_sound c rest (last acc) pos) as Hs. simpl in Hl.
  destruct (scan c rest (last acc) pos) as [t rest'|rest'|e]; simpl in Hs; [| |done].
  - destruct Hs as (Ht & Hneg & Hr).
    assert (valid_from None (acc ++ [t])) as Hv by (apply valid_from_snoc; [done|done|by destruct (last acc)]).
    specialize (IH (acc ++ [t]) rest' ltac:(lia) Hv).
    destruct (tokenize_loop fuel len (acc ++ [t]) rest') as [ts|e|]; [|done|done].
    destruct IH as (body & -> & Hb & Hlen). exists body. rewrite length_app in Hlen. simpl in Hlen.
    split_and!; [done|done|lia].
  - specialize (IH acc rest' ltac:(lia) Hacc). destruct (tokenize_loop fuel len acc rest'); [|done|done].
    destruct IH as (body & ? & ? & ?). exists body. split_and!; [done|done|lia].
Qed.

(** C32. The tokenizer reads back what is printed: for every well-formed list of
    tokens, the text in which string literals are quoted with their quotes
    doubled, identifiers that are not plain words are put between backticks and
    tokens are separated by spaces tokenizes to exactly that list and [END]. In
    particular no text inside a quoted literal can become a token of its own. *)
Theorem tokenize_print ts :
  valid_from None ts → tokenize (str (print ts)) = Tokens (ts ++ [mkToken END ""]).
Proof.
  intros Hv. unfold tokenize. rewrite chars_str. pose proof (length_print ts).
  by apply tokenize_loop_print; [lia|].
Qed.

(** Tokenizing terminates on every text within one round per character, and
    it either throws or returns a well-formed list of at most as many tokens as
    characters, followed by one [END]; that list is a normal form: printing it
    and tokenizing the print gives it back. *)
Theorem tokenize_normal_form sql :
  (∃ e, tokenize sql = Error e) ∨
  ∃ body, tokenize sql = Tokens (body ++ [mkToken END ""]) ∧ valid_from None body ∧
    (length body <= length (chars sql))%nat ∧ tokenize (str (print body)) = tokenize sql.
Proof.
  pose proof (tokenize_loop_sound (S (length (chars sql))) (Z.of_nat (length (chars sql))) [] (chars sql)) as H.
  unfold tokenize. destruct (tokenize_loop _ _ [] (chars sql)) as [ts|e|]; [|by left; eexists|by destruct H; [lia|]].
  right. destruct H as (body & -> & Hb & Hl); [lia|done|]. exists body. split_and!; [done|done|done|].
  rewrite chars_str. pose proof (length_print body). by apply tokenize_loop_print; [lia|].
Qed.

Definition sample_tokens : list Token :=
  [mkToken SELECT "select"; mkToken IDENT "last price"; mkToken COMMA ","; mkToken STRING "it's -- 'x'";
   mkToken FROM "From"; mkToken IDENT "t"; mkToken WHERE "WHERE"; mkToken IDENT "x"; mkToken GE ">=";
   mkToken NUMBER "-1.5"].

Lemma tokenize_print_witness :
  tokenize (str (print sample_tokens)) = Tokens (sample_tokens ++ [mkToken END ""]).
Proof.
  apply tokenize_print. cbn [valid_from sample_tokens].
  split_and!; try done; try (right; split; reflexivity); left; apply (bool_decide_unpack _); reflexivity.
Defined.

(** A minus sign before a digit is part of the number unless the previous token
    is a parenthesis, a number or an identifier: after the [END] of a [CASE] the
    subtraction is lost. *)
Lemma minus_after_case_end :
  tokenize "CASE WHEN a THEN b END -5" =
    Tokens [mkToken CASE "CASE"; mkToken WHEN "WHEN"; mkToken IDENT "a"; mkToken THEN "THEN"; mkToken IDENT "b";
            mkToken CASE_END "END"; mkToken NUMBER "-5"; mkToken END ""] ∧
  tokenize "CASE WHEN a THEN b END - 5" =
    Tokens [mkToken CASE "CASE"; mkToken WHEN "WHEN"; mkToken IDENT "a"; mkToken THEN "THEN"; mkToken IDENT "b";
            mkToken CASE_END "END"; mkToken MINUS "-"; mkToken NUMBER "5"; mkToken END ""].
Proof. by vm_compute. Qed.
