(* ===== verification/Ast.v ===== *)
(** * The syntax tree of SQL statements

    Models [include/zeptodb/sql/ast.h], the types the parser builds. A tagged
    union of the C++ structs is an inductive type with a constructor per kind
    that keeps the fields of that kind; a [shared_ptr] that may be null is an
    [option]. [SelectStmt] and [Expr] contain each other, so the records between
    them are written over the types they contain. *)

From stdpp Require Import base list strings.
From Stdlib Require Import ZArith.
From S2P Require Import Prelude.

Open Scope Z_scope.

(** A binary64 number that is not infinite: [mantissa * 2 ^ exponent]. *)
Record double : Type := mkDouble { mantissa : Z; exponent : Z }.

Inductive AggFunc : Type :=
  | NONE | COUNT | SUM | AVG | MIN | MAX | VWAP | FIRST | LAST | XBAR
  | STDDEV | VARIANCE | MEDIAN | PERCENTILE.

Inductive WindowFunc : Type :=
  | W_NONE | W_ROW_NUMBER | W_RANK | W_DENSE_RANK | W_SUM | W_AVG | W_MIN | W_MAX | W_LAG | W_LEAD
  | W_EMA | W_DELTA | W_RATIO.

Inductive WJAggFunc : Type := WJ_NONE | WJ_AVG | WJ_SUM | WJ_COUNT | WJ_MIN | WJ_MAX.

Record WindowSpec : Type := mkWindowSpec {
  partition_by : list (string * string); (** alias and column *)
  window_order_by : list (string * string * bool); (** alias, column, ascending *)
  frame : option (Z * Z); (** preceding and following when [has_frame] *)
}.

(** [ema_alpha] and [ema_period]: none, an alpha, or a period [p] with the
    alpha [2 / (p + 1)]. *)
Inductive EmaParameter : Type := NoEma | EmaAlpha (alpha : double) | EmaPeriod (period : Z).

Inductive ArithOp : Type := ADD | SUB | MUL | DIV.

Inductive ArithExpr : Type :=
  | AColumn (table_alias column : string)
  | ALiteral (literal : Z)
  | AFloat (literal_f : double) (literal : Z)
  | ABinary (arith_op : ArithOp) (left right : ArithExpr)
  | AFunc (func_name func_unit : string) (func_arg func_arg2 : option ArithExpr) (func_args : list ArithExpr).

Inductive CompareOp : Type := EQ | NE | GT | LT | GE | LE.

(** The right-hand side of a comparison. [value] is 0 beside a string or an
    expression. *)
Inductive CompareValue : Type :=
  | VInt (value : Z)
  | VFloat (value_f : double) (value : Z)
  | VString (value_str : string)
  | VExpr (value_expr : ArithExpr).

Record JoinCondition : Type := mkJoinCondition {
  left_alias : string; left_col : string;
  cond_op : CompareOp;
  right_alias : string; right_col : string;
}.

Inductive JoinType : Type :=
  | J_INNER | J_ASOF | J_LEFT | J_RIGHT | J_FULL | J_WINDOW | J_UNION_JOIN | J_PLUS | J_AJ0.

(** The window of a WINDOW JOIN: the time columns and the two widths. *)
Record JoinWindow : Type := mkJoinWindow {
  wj_left_time_col : string; wj_right_time_col : string;
  wj_window_before : Z; wj_window_after : Z;
}.

Record JoinClause : Type := mkJoin {
  join_type : JoinType;
  join_table : string;
  join_alias : string;
  on_conditions : list JoinCondition;
  join_window : JoinWindow;
}.

(** One entry per GROUP BY item: alias, column, xbar bucket, date bucket. *)
Record GroupByClause : Type := mkGroupBy {
  group_columns : list string;
  group_aliases : list string;
  xbar_buckets : list Z;
  date_trunc_buckets : list Z;
}.

Record OrderByItem : Type := mkOrderBy { order_alias : string; order_column : string; asc : bool }.

Inductive SetOp : Type := S_NONE | S_UNION_ALL | S_UNION_DISTINCT | S_INTERSECT | S_EXCEPT.

(** ** Expressions and statements *)

Record CaseWhen (E : Type) : Type := mkCaseWhen {
  branches : list (option E * ArithExpr);
  else_val : option ArithExpr;
}.
Arguments mkCaseWhen {E}.
Arguments branches {E}.
Arguments else_val {E}.

Record SelectItem (E : Type) : Type := mkSelectItem {
  agg : AggFunc;
  agg_distinct : bool;
  item_table_alias : string;
  column : string;
  agg_arg2 : string;
  alias : string;
  is_star : bool;
  xbar_bucket : Z;
  percentile_value : Z;
  wj_agg : WJAggFunc;
  window_func : WindowFunc;
  window_offset : Z;
  window_default : Z;
  ema : EmaParameter;
  window_spec : option WindowSpec;
  arith_expr : option ArithExpr;
  case_when : option (CaseWhen E);
}.
Arguments mkSelectItem {E}.
Arguments agg {E}.
Arguments agg_distinct {E}.
Arguments item_table_alias {E}.
Arguments column {E}.
Arguments agg_arg2 {E}.
Arguments alias {E}.
Arguments is_star {E}.
Arguments xbar_bucket {E}.
Arguments percentile_value {E}.
Arguments wj_agg {E}.
Arguments window_func {E}.
Arguments window_offset {E}.
Arguments window_default {E}.
Arguments ema {E}.
Arguments window_spec {E}.
Arguments arith_expr {E}.
Arguments case_when {E}.

(** A clause with a null expression is [Some None]. *)
Record SelectBody (E S : Type) : Type := mkSelect {
  cte_defs : list (string * S);
  explain : bool;
  distinct : bool;
  columns : list (SelectItem E);
  from_table : string;
  from_alias : string;
  from_subquery : option S;
  join : option JoinClause;
  where_clause : option (option E);
  group_by : option GroupByClause;
  order_by : option (list OrderByItem);
  limit : option Z;
  offset : option Z;
  sample_rate : option double;
  having : option (option E);
  set_op : SetOp;
  rhs : option S;
}.
Arguments mkSelect {E S}.
Arguments cte_defs {E S}.
Arguments explain {E S}.
Arguments distinct {E S}.
Arguments columns {E S}.
Arguments from_table {E S}.
Arguments from_alias {E S}.
Arguments from_subquery {E S}.
Arguments join {E S}.
Arguments where_clause {E S}.
Arguments group_by {E S}.
Arguments order_by {E S}.
Arguments limit {E S}.
Arguments offset {E S}.
Arguments sample_rate {E S}.
Arguments having {E S}.
Arguments set_op {E S}.
Arguments rhs {E S}.

Inductive Expr : Type :=
  | ECompare (table_alias column : string) (op : CompareOp) (value : CompareValue) (lhs_expr : option ArithExpr)
  | EBetween (table_alias column : string) (lhs_expr : option ArithExpr) (lo hi : Z)
  | EAnd (left right : option Expr)
  | EOr (left right : option Expr)
  | ENot (left : option Expr)
  | EIn (table_alias column : string) (in_values : list Z)
  | EIsNull (table_alias column : string) (negated : bool)
  | ELike (table_alias column : string) (like_pattern : string) (negated : bool)
  | EScalarSubquery (table_alias column : string) (op : CompareOp) (subquery : SelectStmt)
  | EInSubquery (table_alias column : string) (subquery : SelectStmt)
with SelectStmt : Type := Select (body : SelectBody Expr SelectStmt).

Notation SelectExpr := (SelectItem Expr).
Notation CaseWhenExpr := (CaseWhen Expr).
Definition body_of (s : SelectStmt) : SelectBody Expr SelectStmt := let '(Select b) := s in b.

(** ** DDL and DML *)

Record DdlColumnDef : Type := mkDdlColumn { ddl_column : string; type_str : string }.

Record CreateTableStmt : Type := mkCreateTable {
  create_name : string;
  create_columns : list DdlColumnDef;
  if_not_exists : bool;
  placement_policy : option string;
  placement_node_id : option Z;
}.

Record DropTableStmt : Type := mkDropTable { drop_name : string; if_exists : bool }.

Inductive AlterAction : Type :=
  | ADD_COLUMN (col_def : DdlColumnDef)
  | DROP_COLUMN (col_name : string)
  | SET_TTL (ttl_value : Z) (ttl_unit : string)
  | SET_ATTRIBUTE (col_name attr_type : string)
  | SET_STORAGE_POLICY (warm_after_ns cold_after_ns drop_after_ns : Z).

Record AlterTableStmt : Type := mkAlterTable { alter_name : string; action : AlterAction }.

Inductive InsertValue : Type := IInt (i : Z) | IFloat (f : double) | IString (s : string).

Record InsertStmt : Type := mkInsert {
  insert_table : string;
  insert_columns : list string;
  value_rows : list (list InsertValue);
}.

Record UpdateStmt : Type := mkUpdate {
  update_table : string;
  assignments : list (string * Z);
  update_where : option (option Expr);
}.

Record DeleteStmt : Type := mkDelete { delete_table : string; delete_where : option (option Expr) }.

Inductive ParsedStatement : Type :=
  | P_SELECT (select : SelectStmt)
  | P_CREATE_TABLE (create_table : CreateTableStmt)
  | P_DROP_TABLE (drop_table : DropTableStmt)
  | P_ALTER_TABLE (alter_table : AlterTableStmt)
  | P_INSERT (insert : InsertStmt)
  | P_UPDATE (update : UpdateStmt)
  | P_DELETE (del : DeleteStmt)
  | P_CREATE_MV (view_name : string) (query : SelectStmt)
  | P_DROP_MV (view_name : string)
  | P_SHOW_TABLES
  | P_DESCRIBE_TABLE (describe_table_name : string).
