(* ===== verification/Literals.v ===== *)
(** * Number literals

    The standard library's conversions between text and numbers that the SQL
    parser and the query coordinator use: [std::stoll], [std::stod],
    [std::to_string] and the conversion of a [double] to [int64_t]. *)

From S2P Require Import Prelude.
From S2P Require Import Text.
From S2P Require Import Tokenizer.
From S2P Require Import Ast.
From stdpp Require Import base list strings.
From Stdlib Require Import ZArith Lia Ascii.

Open Scope Z_scope.

(** What a conversion returns or throws. *)
Inductive converted (A : Type) : Type :=
  | Valid (a : A)
  | InvalidArgument
  | OutOfRange.
Arguments Valid {A}.
Arguments InvalidArgument {A}.
Arguments OutOfRange {A}.

(** ** Integers *)

Definition read_sign (l : text) : bool * text :=
  match l with
  | c :: l' => if Ascii.eqb c "-"%char then (true, l') else if Ascii.eqb c "+"%char then (false, l') else (false, l)
  | [] => (false, l)
  end.

Definition in_int64 (z : Z) : bool := (INT64_MIN <=? z) && (z <=? INT64_MAX).

(** The longest prefix that is a number in base 10. *)
Definition stoll (s : string) : converted Z :=
  let '(negative, l) := read_sign (skip_whitespace (chars s)) in
  match (span isdigit l).1 with
  | [] => InvalidArgument
  | ds =>
      let v := if negative then - digits_value ds else digits_value ds in
      if in_int64 v then Valid v else OutOfRange
  end.

(** ** Floating point *)

(** [n / d] rounded to a multiple [m * 2 ^ q], ties to even. *)
Definition round_at (n d q : Z) : Z :=
  let num := n * 2 ^ Z.max 0 (- q) in
  let den := d * 2 ^ Z.max 0 q in
  let m := num / den in
  let twice := 2 * (num mod den) in
  if (den <? twice) || (den =? twice) && Z.odd m then m + 1 else m.

(** The exponent [e] with [2 ^ e <= n / d < 2 ^ (e + 1)]. *)
Definition ratio_log2 (n d : Z) : Z :=
  let e := Z.log2 n - Z.log2 d in
  if d * 2 ^ Z.max 0 e <=? n * 2 ^ Z.max 0 (- e) then e else e - 1.

(** The nearest binary64 number to [n / d]; [strtod] reports a result that is
    infinite, or inexact and below [2 ^ -1022] at full precision. *)
Definition nearest_double (n d : Z) : converted double :=
  if n =? 0 then Valid (mkDouble 0 0) else
  let e := ratio_log2 n d in
  let q := Z.max (e - 52) (-1074) in
  let m := round_at n d q in
  let exact := m * 2 ^ Z.max 0 q * d =? n * 2 ^ Z.max 0 (- q) in
  let tiny := (e <? -1022) && (round_at n d (e - 52) * 2 ^ Z.max 0 (e + 970) <? 2 ^ (52 + Z.max 0 (- (e + 970)))) in
  if (1024 <=? q + Z.log2 m) || tiny && negb exact then OutOfRange else Valid (mkDouble m q).

Definition negate (d : double) : double := mkDouble (- mantissa d) (exponent d).

(** [strtod] on the text of a number token: digits and dots after an optional
    sign. *)
Definition stod (s : string) : converted double :=
  let '(negative, l) := read_sign (skip_whitespace (chars s)) in
  let '(int_digits, rest) := span isdigit l in
  let frac_digits := match rest with
                     | c :: l' => if Ascii.eqb c "."%char then (span isdigit l').1 else []
                     | [] => []
                     end in
  match int_digits ++ frac_digits with
  | [] => InvalidArgument
  | ds =>
      match nearest_double (digits_value ds) (10 ^ Z.of_nat (length frac_digits)) with
      | Valid v => Valid (if negative then negate v else v)
      | InvalidArgument => InvalidArgument
      | OutOfRange => OutOfRange
      end
  end.

(** The value of a [double] without its fraction. *)
Definition truncated (v : double) : Z :=
  if 0 <=? exponent v then mantissa v * 2 ^ exponent v else Z.quot (mantissa v) (2 ^ (- exponent v)).

(** The conversion is undefined out of range; x86-64 returns the least integer. *)
Definition cast_int64 (v : double) : Z := if in_int64 (truncated v) then truncated v else INT64_MIN.

Definition exceeds_one (v : double) : bool :=
  if 0 <=? exponent v then 1 <? mantissa v * 2 ^ exponent v else 2 ^ (- exponent v) <? mantissa v.

(** [s.find('.') != npos] *)
Definition has_dot (s : string) : bool := existsb (Ascii.eqb "."%char) (chars s).

(** ** Reading back a printed integer *)

Lemma digits_start l : forallb isdigit l = true → skip_whitespace l = l ∧ read_sign l = (false, l).
Proof.
  destruct l as [|c l]; [done|]. simpl. intros [Hc _]%andb_true_iff.
  destruct (digit_not_sign c Hc) as (H1 & H2 & H3 & _). unfold skip_whitespace. simpl. by rewrite H1, H2, H3.
Qed.

Lemma stoll_to_string z : INT64_MIN <= z <= INT64_MAX → stoll (to_string z) = Valid z.
Proof.
  intros Hz. unfold stoll, to_string. rewrite chars_str.
  assert (in_int64 z = true) as Hin by (unfold in_int64; apply andb_true_iff; split; lia).
  destruct (Z.ltb_spec z 0) as [Hneg|Hpos].
  - destruct (unsigned_digits_spec (- z)) as (Hd & Hv & Hne); [lia|].
    rewrite skip_not_space by done. change (read_sign ("-"%char :: unsigned_digits (- z))) with (true, unsigned_digits (- z)).
    cbv iota beta. rewrite span_all by done. cbn [fst].
    destruct (unsigned_digits (- z)) as [|c l] eqn:Hu; [done|]. simpl. rewrite Hv, Z.opp_involutive. by rewrite Hin.
  - destruct (unsigned_digits_spec z) as (Hd & Hv & Hne); [lia|].
    destruct (digits_start _ Hd) as [-> ->]. cbv iota beta. rewrite span_all by done. cbn [fst].
    destruct (unsigned_digits z) as [|c l] eqn:Hu; [done|]. simpl. rewrite Hv. by rewrite Hin.
Qed.

Lemma no_dot_to_string z : has_dot (to_string z) = false.
Proof.
  unfold has_dot, to_string. rewrite chars_str.
  assert (∀ l, forallb isdigit l = true → existsb (Ascii.eqb "."%char) l = false) as H.
  { intros l. induction l as [|c l IH]; [done|]. cbn [existsb forallb]. intros [Hc Hl]%andb_true_iff.
    destruct (digit_not_sign c Hc) as (_ & _ & _ & Hdot). rewrite Ascii.eqb_sym, Hdot. by apply IH. }
  destruct (Z.ltb_spec z 0); cbn [existsb]; apply H, unsigned_digits_spec; lia.
Qed.

(** ** Rounding *)

(** The result of [round_at] is within half a unit of [n / d]. *)
Lemma round_at_nearest n d q : 0 <= n → 0 < d →
  2 * Z.abs (round_at n d q * (d * 2 ^ Z.max 0 q) - n * 2 ^ Z.max 0 (- q)) <= d * 2 ^ Z.max 0 q.
Proof.
  intros Hn Hd. unfold round_at. set (num := n * _). set (den := d * _).
  assert (0 < den) as Hden by (apply Z.mul_pos_pos; [done|apply Z.pow_pos_nonneg; lia]).
  pose proof (Z.div_mod num den ltac:(lia)) as Hdm. pose proof (Z.mod_pos_bound num den Hden) as Hm.
  destruct (Z.ltb_spec den (2 * (num mod den))); simpl; [nia|].
  destruct (Z.eqb_spec den (2 * (num mod den))); simpl; [|nia].
  destruct (Z.odd (num / den)); nia.
Qed.

Example stod_samples :
  stod "0.1" = Valid (mkDouble 7205759403792794 (-56)) ∧ stod "-2.50" = Valid (mkDouble (-5629499534213120) (-51)) ∧
  stod "1.2.3" = Valid (mkDouble 5404319552844595 (-52)) ∧ cast_int64 (mkDouble (-5629499534213120) (-51)) = -2.
Proof. by vm_compute. Qed.
