(* ===== verification/Hdb.v ===== *)
(** * The historical database on disk

    Models [include/zeptodb/storage/hdb_writer.h], [src/storage/hdb_writer.cpp],
    [include/zeptodb/storage/hdb_reader.h] and [src/storage/hdb_reader.cpp]: one
    file per column of a partition, below a directory per hour, symbol and table.
    A path is the list of its components and a file system a map from paths to
    what is there; a path that is built from a string goes as many levels down as
    the string has slashes. How system calls end is an argument. LZ4 is the class
    [Lz4]; what its documentation promises is [Lz4Laws]. *)

From S2P Require Import Prelude.
From S2P Require Import Text.
From S2P Require Import Bytes.
From S2P Require Import Arena.
From S2P Require Import ColumnStore.
From S2P Require Import PartitionManager.
From S2P Require Import Literals.
From stdpp Require Import base gmap list strings fin_maps sorting.
From Stdlib Require Import ZArith Lia Ascii.

Open Scope Z_scope.

(** ** Files *)

(** What a path leads to; links and devices are [OtherNode]. *)
Inductive node : Type := Directory | File (bytes : list Z) | OtherNode.

Notation path := (list string).
Notation filesystem := (gmap path node).

Definition is_directory (fs : filesystem) (p : path) : bool :=
  match fs !! p with Some Directory => true | _ => false end.

(** The components of a path that is written with slashes. *)
Fixpoint split_slash (acc : text) (l : text) : path :=
  match l with
  | [] => [str (rev acc)]
  | c :: l => if Ascii.eqb c "/"%char then str (rev acc) :: split_slash [] l else split_slash (c :: acc) l
  end.
Definition below (dir : path) (s : string) : path := dir ++ split_slash [] (chars s).

(** The entries of a directory, in no particular order. *)
Definition children (fs : filesystem) (dir : path) : list (string * node) :=
  omap (λ e, match last e.1 with
             | Some name => if bool_decide (e.1 = dir ++ [name]) then Some (name, e.2) else None
             | None => None
             end) (map_to_list fs).

(** How the system calls for a file end. *)
Record write_io : Type := mkWriteIo { io_opened : bool; io_written : bool; io_closed : bool; io_renamed : bool }.

Record disk_io : Type := mkDiskIo { io_made : path → bool; io_file : path → write_io }.

Definition prefixes (p : path) : list path := (λ n, take n p) <$> seq 1 (length p).

(** [create_directories] *)
Definition mkdir_p (io : disk_io) (fs : filesystem) (p : path) : bool * filesystem :=
  if forallb (λ q, match fs !! q with None | Some Directory => true | _ => false end) (prefixes p) && io_made io p
  then (true, foldr (λ q, <[q := Directory]>) fs (prefixes p))
  else (false, fs).

(** ** LZ4 *)

Class Lz4 : Type := {
  lz4_available : bool;
  LZ4_compress : list Z → list Z; (** empty on failure *)
  LZ4_decompress : list Z → Z → option (list Z); (** with the size of the destination *)
}.

Class Lz4Laws {L : Lz4} : Prop := {
  lz4_bytes : ∀ b, Forall is_byte b → Forall is_byte (LZ4_compress b);
  lz4_inverse : ∀ b, Forall is_byte b → LZ4_compress b ≠ [] →
    LZ4_decompress (LZ4_compress b) (Z.of_nat (length b)) = Some b;
}.
#[global] Arguments Lz4Laws : clear implicits.

Definition INT32_MAX : Z := 2 ^ 31 - 1.
Definition SIZE_MAX : Z := 2 ^ 64 - 1.

(** ** The file format *)

Definition HDB_MAGIC : list Z := [65; 80; 69; 88; 72].
Definition HDB_VERSION : Z := 2.
Definition HDB_HEADER_V1_SIZE : Z := 32.
Definition HDB_HEADER_V2_SIZE : Z := 40.

Inductive HDBCompression : Type := COMPRESSION_NONE | COMPRESSION_LZ4.
Definition compression_code (c : HDBCompression) : Z := match c with COMPRESSION_NONE => 0 | COMPRESSION_LZ4 => 1 end.

Record HDBFileHeader : Type := mkHeader {
  h_version : Z;
  h_col_type : Z;
  h_compression : Z;
  h_row_count : Z;
  h_data_size : Z;
  h_uncompressed_size : Z;
  h_table_id : Z;
}.

(** The 40 bytes of the structure. *)
Definition header_bytes (h : HDBFileHeader) : list Z :=
  HDB_MAGIC ++ [h_version h; h_col_type h; h_compression h] ++
  push_le 8 (h_row_count h) ++ push_le 8 (h_data_size h) ++ push_le 8 (h_uncompressed_size h) ++
  push_le 2 (h_table_id h) ++ replicate 6 0.

(** [n] bytes from an offset, as an integer. *)
Definition bytes_at (l : list Z) (off n : Z) : list Z := take (Z.to_nat n) (drop (Z.to_nat off) l).
Definition field_at (l : list Z) (off n : Z) : Z := le_val (bytes_at l off n).

(** ** Writing *)

(** Where a partition's files are: below [t<id>] for a table, at the top for
    ticks. *)
Definition partition_dir (base_path : path) (table symbol hour : Z) : path :=
  base_path ++ (if table =? 0 then [] else ["t" +:+ to_string table]%string) ++ [to_string symbol; to_string hour].

Definition column_file_path (base_path : path) (table symbol hour : Z) (col_name : string) : path :=
  below (partition_dir base_path table symbol hour) (col_name +:+ ".bin")%string.

Section Writer.
Context {L : Lz4}.

Record HDBWriter : Type := mkWriter {
  hw_base_path : path;
  use_compression_ : bool;
  total_bytes_written_ : Z;
  partitions_flushed_ : Z;
}.

Definition new_writer (io : disk_io) (fs : filesystem) (base_path : path) (use_compression : bool) :
    HDBWriter * filesystem :=
  (mkWriter base_path (use_compression && lz4_available) 0 0, (mkdir_p io fs base_path).2).

(** The payload and how it is stored. *)
Definition payload (w : HDBWriter) (raw : list Z) : list Z * HDBCompression :=
  if lz4_available && use_compression_ w && (Z.of_nat (length raw) <=? INT32_MAX) then
    let c := LZ4_compress raw in
    if (0 <? length c)%nat && (length c <? length raw)%nat then (c, COMPRESSION_LZ4) else (raw, COMPRESSION_NONE)
  else (raw, COMPRESSION_NONE).

(** A temporary file that is removed again on failure, and renamed at the end. *)
Definition publish (io : write_io) (fs : filesystem) (file : path) (bytes : list Z) : bool * filesystem :=
  if io_opened io && io_written io && io_closed io && io_renamed io && negb (is_directory fs file)
  then (true, <[file := File bytes]> fs)
  else (false, fs).

Definition write_column_file (io : disk_io) (fs : filesystem) (w : HDBWriter) (dir : path) (m : memory)
    (col : ColumnVector) (table : Z) : Z * filesystem :=
  let elem_sz := column_type_size (type_ col) in
  if (elem_sz =? 0) || (SIZE_MAX / elem_sz <? size_ col) then (0, fs)
  else
    let raw := concat (as_span m col) in
    if size_ col * elem_sz =? 0 then (0, fs)
    else
      let '(data, comp) := payload w raw in
      let header := mkHeader HDB_VERSION (type_code (type_ col)) (compression_code comp) (size_ col)
                      (Z.of_nat (length data)) (size_ col * elem_sz) table in
      let file := below dir (name_ col +:+ ".bin") in
      let '(ok, fs) := publish (io_file io file) fs file (header_bytes header ++ data) in
      (if ok : bool then HDB_HEADER_V2_SIZE + Z.of_nat (length data) else 0, fs).

(** The columns in turn; the first that is not written ends the loop. *)
Fixpoint write_columns (io : disk_io) (fs : filesystem) (w : HDBWriter) (dir : path) (m : memory)
    (cols : list ColumnVector) (table total : Z) : option Z * filesystem :=
  match cols with
  | [] => (Some total, fs)
  | col :: cols =>
      let '(written, fs) := write_column_file io fs w dir m col table in
      if written =? 0 then (None, fs) else write_columns io fs w dir m cols table (total + written)
  end.

(** Every column has a known type and as many rows as the first. *)
Definition consistent (p : Partition) : bool :=
  forallb (λ c, negb (column_type_size (type_ c) =? 0) && (size_ c =? num_rows p)) (columns_ p).

Definition count_flush (bytes : Z) (w : HDBWriter) : HDBWriter :=
  mkWriter (hw_base_path w) (use_compression_ w) (u64 (total_bytes_written_ w + bytes)) (u64 (partitions_flushed_ w + 1)).

Definition flush_partition (io : disk_io) (fs : filesystem) (w : HDBWriter) (p : Partition) : Z * filesystem * HDBWriter :=
  if negb (bool_decide (state_ p = SEALED ∨ state_ p = FLUSHING)) || negb (consistent p) || (num_rows p =? 0)
  then (0, fs, w)
  else
    let key := key_ p in
    let dir := partition_dir (hw_base_path w) (table_id key) (symbol_id key) (hour_epoch key) in
    let '(made, fs) := mkdir_p io fs dir in
    if negb made then (0, fs, w)
    else
      match write_columns io fs w dir (memory_ p) (columns_ p) (table_id key) 0 with
      | (None, fs) => (0, fs, w)
      | (Some total, fs) => (total, fs, count_flush total w)
      end.

Record HDBSnapshotWriteResult : Type := mkSnapshotWrite { sw_ok : bool; bytes_written : Z; rows_written : Z }.
Definition snapshot_failed : HDBSnapshotWriteResult := mkSnapshotWrite false 0 0.

Definition dictionary_column (c : ColumnVector) : bool :=
  match type_ c with STRING | SYMBOL => true | _ => false end.

Definition snapshot_partition_checked (io : disk_io) (fs : filesystem) (w : HDBWriter) (p : Partition) (snapshot_dir : path) :
    HDBSnapshotWriteResult * filesystem :=
  if negb (consistent p) || existsb dictionary_column (columns_ p) then (snapshot_failed, fs)
  else if num_rows p =? 0 then (mkSnapshotWrite true 0 0, fs)
  else
    let key := key_ p in
    let dir := partition_dir snapshot_dir (table_id key) (symbol_id key) (hour_epoch key) in
    let '(made, fs) := mkdir_p io fs dir in
    if negb made then (snapshot_failed, fs)
    else
      match write_columns io fs w dir (memory_ p) (columns_ p) (table_id key) 0 with
      | (None, fs) => (snapshot_failed, fs)
      | (Some total, fs) => (mkSnapshotWrite true total (num_rows p), fs)
      end.

Definition snapshot_partition (io : disk_io) (fs : filesystem) (w : HDBWriter) (p : Partition) (snapshot_dir : path) :
    Z * filesystem :=
  let '(r, fs) := snapshot_partition_checked io fs w p snapshot_dir in (if sw_ok r then bytes_written r else 0, fs).

(** ** Reading *)

(** A column that was read: its type, its rows and their bytes. *)
Record MappedColumn : Type := mkMapped { mc_data : list Z; mc_rows : Z; mc_type : ColumnType }.

(** The row at an index through [as_span<T>], where [T] has [n] bytes; [None] is
    a read past the data. *)
Definition mapped_at (n : Z) (c : MappedColumn) (i : Z) : option Z :=
  if ((i + 1) * n <=? Z.of_nat (length (mc_data c))) && (i <? mc_rows c)
  then Some (field_at (mc_data c) (i * n) n) else None.

(** The size and the table id of the header, when the version is known. *)
Definition header_shape (bytes : list Z) : option (Z * Z) :=
  let version := field_at bytes 5 1 in
  if version =? 1 then Some (HDB_HEADER_V1_SIZE, 0)
  else if (version =? 2) && (HDB_HEADER_V2_SIZE <=? Z.of_nat (length bytes)) then Some (HDB_HEADER_V2_SIZE, field_at bytes 32 2)
  else None.

Definition parse_column (bytes : list Z) (table : Z) : option MappedColumn :=
  let file_size := Z.of_nat (length bytes) in
  if (file_size <? HDB_HEADER_V1_SIZE) || negb (bool_decide (take 5 bytes = HDB_MAGIC)) then None
  else
    '(header_size, file_table) ← header_shape bytes;
    if negb (file_table =? table) then None
    else
      t ← type_of_code (field_at bytes 6 1);
      let comp := field_at bytes 7 1 in
      let row_count := field_at bytes 8 8 in
      let data_size := field_at bytes 16 8 in
      let uncomp_size := field_at bytes 24 8 in
      let elem_size := column_type_size t in
      if (row_count =? 0) || (SIZE_MAX / elem_size <? row_count) then None
      else if negb (uncomp_size =? row_count * elem_size) || (file_size - header_size <? data_size) ||
              negb (file_size =? u64 (header_size + data_size)) || ((comp =? 0) && negb (data_size =? uncomp_size)) ||
              negb ((comp =? 0) || (comp =? 1))
      then None
      else
        let data := drop (Z.to_nat header_size) bytes in
        if comp =? 0 then Some (mkMapped data row_count t)
        else if negb lz4_available || (INT32_MAX <? data_size) || (INT32_MAX <? uncomp_size) then None
        else
          out ← LZ4_decompress data uncomp_size;
          if negb (Z.of_nat (length out) =? uncomp_size) then None else Some (mkMapped out row_count t).

(** [mapped] tells whether the system calls that map the file succeed. *)
Definition read_column (mapped : path → bool) (fs : filesystem) (base_path : path) (table symbol hour : Z) (col_name : string) :
    option MappedColumn :=
  let file := column_file_path base_path table symbol hour col_name in
  match fs !! file with
  | Some (File bytes) => if mapped file then parse_column bytes table else None
  | _ => None
  end.
End Writer.

(** The hours of a symbol, ascending; [std::stoll] may ignore what follows the
    digits of a name. *)
Definition list_partitions (fs : filesystem) (base_path : path) (table symbol : Z) : list Z :=
  let sym_dir := base_path ++ (if table =? 0 then [] else ["t" +:+ to_string table]%string) ++ [to_string symbol] in
  if is_directory fs sym_dir
  then merge_sort Z.le (omap (λ e, match e.2, stoll e.1 with Directory, Valid hour => Some hour | _, _ => None end)
                          (children fs sym_dir))
  else [].

Definition list_partitions_in_range (fs : filesystem) (base_path : path) (table symbol from_ns to_ns : Z) : list Z :=
  filter (λ h, to_hour_epoch from_ns <= h <= to_hour_epoch to_ns) (list_partitions fs base_path table symbol).

(** ** The format reads back *)

Lemma field_at_push pre k v post off n : off = Z.of_nat (length pre) → n = Z.of_nat k → 0 <= v < 2 ^ (8 * Z.of_nat k) →
  field_at (pre ++ push_le k v ++ post) off n = v.
Proof.
  intros -> -> Hv. unfold field_at, bytes_at. rewrite !Nat2Z.id, drop_app_length.
  rewrite take_app_le by (by rewrite length_push_le). rewrite take_ge by (by rewrite length_push_le).
  by apply le_val_push_le.
Qed.

Lemma length_header h : length (header_bytes h) = 40%nat.
Proof. unfold header_bytes. by rewrite !length_app, !length_push_le. Qed.

Record header_ok (h : HDBFileHeader) : Prop := {
  ho_version : 0 <= h_version h < 2 ^ 8;
  ho_type : 0 <= h_col_type h < 2 ^ 8;
  ho_compression : 0 <= h_compression h < 2 ^ 8;
  ho_rows : 0 <= h_row_count h < 2 ^ 64;
  ho_data : 0 <= h_data_size h < 2 ^ 64;
  ho_raw : 0 <= h_uncompressed_size h < 2 ^ 64;
  ho_table : 0 <= h_table_id h < 2 ^ 16;
}.

Lemma push_le_1 v : 0 <= v < 2 ^ 8 → push_le 1 v = [v].
Proof. intros Hv. cbn [push_le]. by rewrite land_255, Z.mod_small. Qed.

Lemma header_fields h data : header_ok h →
  let bytes := header_bytes h ++ data in
  take 5 bytes = HDB_MAGIC ∧ field_at bytes 5 1 = h_version h ∧ field_at bytes 6 1 = h_col_type h ∧
  field_at bytes 7 1 = h_compression h ∧ field_at bytes 8 8 = h_row_count h ∧ field_at bytes 16 8 = h_data_size h ∧
  field_at bytes 24 8 = h_uncompressed_size h ∧ field_at bytes 32 2 = h_table_id h ∧
  drop 40 bytes = data.
Proof.
  intros [Hv Ht Hc Hr Hd Hu Hi] bytes. unfold bytes, header_bytes.
  unfold HDB_MAGIC.
  split; [done|].
  set (tail := push_le 2 (h_table_id h) ++ replicate 6 0).
  assert (∀ b, 0 <= b < 2 ^ 8 → le_val [b] = b) as Hb by (intros b _; cbn [le_val]; by rewrite Z.shiftl_0_l, Z.lor_0_r).
  split_and!.
  - by apply Hb.
  - by apply Hb.
  - by apply Hb.
  - apply (field_at_push (HDB_MAGIC ++ [h_version h; h_col_type h; h_compression h]) 8 _
      (push_le 8 (h_data_size h) ++ push_le 8 (h_uncompressed_size h) ++ tail ++ data)); done.
  - apply (field_at_push (HDB_MAGIC ++ [h_version h; h_col_type h; h_compression h] ++ push_le 8 (h_row_count h)) 8 _
      (push_le 8 (h_uncompressed_size h) ++ tail ++ data)); done.
  - apply (field_at_push (HDB_MAGIC ++ [h_version h; h_col_type h; h_compression h] ++ push_le 8 (h_row_count h) ++
      push_le 8 (h_data_size h)) 8 _ (tail ++ data)); done.
  - apply (field_at_push (HDB_MAGIC ++ [h_version h; h_col_type h; h_compression h] ++ push_le 8 (h_row_count h) ++
      push_le 8 (h_data_size h) ++ push_le 8 (h_uncompressed_size h)) 2 _ (replicate 6 0 ++ data)); done.
  - done.
Qed.

Lemma type_code_range t : 0 <= type_code t < 2 ^ 8.
Proof. by destruct t. Qed.
Lemma type_size_range t : 1 <= column_type_size t <= 8.
Proof. by destruct t. Qed.

Lemma nonempty_length {A} (l : list A) : (0 <? length l)%nat = true → l ≠ [].
Proof. by destruct l. Qed.

Section Facts.
Context {L : Lz4} {HL : Lz4Laws L}.

(** The compression is chosen so that it can be undone. *)
Lemma payload_spec w raw : Forall is_byte raw →
  let '(data, comp) := payload w raw in
  Forall is_byte data ∧ (length data <= length raw)%nat ∧
  match comp with
  | COMPRESSION_NONE => data = raw
  | COMPRESSION_LZ4 =>
      lz4_available = true ∧ Z.of_nat (length raw) <= INT32_MAX ∧ LZ4_decompress data (Z.of_nat (length raw)) = Some raw
  end.
Proof.
  intros Hraw. unfold payload. destruct (lz4_available && use_compression_ w && _) eqn:Hav; [|done]. cbv zeta.
  destruct ((0 <? _)%nat && _) eqn:Hc; [|done]. apply andb_prop in Hav as [[Hav _]%andb_prop Hlen%Z.leb_le].
  apply andb_prop in Hc as [Hne%nonempty_length Hlt%Nat.ltb_lt].
  split_and!; [by apply lz4_bytes|lia|done|done|by apply lz4_inverse].
Qed.

(** The bytes of a column file parse to the column. *)
Lemma parse_written w raw rows t table :
  Forall is_byte raw → 0 < rows → Z.of_nat (length raw) = rows * column_type_size t → rows < 2 ^ 60 → 0 <= table < 2 ^ 16 →
  let '(data, comp) := payload w raw in
  parse_column (header_bytes (mkHeader HDB_VERSION (type_code t) (compression_code comp) rows (Z.of_nat (length data))
                                (rows * column_type_size t) table) ++ data) table = Some (mkMapped raw rows t).
Proof.
  intros Hraw Hrows Hlen Hsmall Htable. pose proof (payload_spec w raw Hraw) as Hp.
  destruct (payload w raw) as [data comp]. destruct Hp as (_ & Hdl & Hcomp).
  pose proof (type_size_range t) as Ht.
  assert (rows * column_type_size t < 2 ^ 63) by nia.
  set (h := mkHeader _ _ _ _ _ _ _). assert (header_ok h) as Hh.
  { subst h.
    split; cbn [h_version h_col_type h_compression h_row_count h_data_size h_uncompressed_size h_table_id];
      [done|apply type_code_range|by destruct comp|lia..]. }
  destruct (header_fields h data Hh) as (Hm & Hv & Hty & Hc & Hr & Hd & Hu & Hi & Hdrop).
  assert (Z.of_nat (length (header_bytes h ++ data)) = 40 + Z.of_nat (length data)) as Hl by (rewrite length_app, length_header; lia).
  revert Hm Hv Hty Hc Hr Hd Hu Hi Hdrop Hl. generalize (header_bytes h ++ data). subst h.
  cbn [h_version h_col_type h_compression h_row_count h_data_size h_uncompressed_size h_table_id].
  intros bytes Hm Hv Hty Hc Hr Hd Hu Hi Hdrop Hl.
  assert (rows <= SIZE_MAX / column_type_size t) as Hmax.
  { apply Z.div_le_lower_bound; [lia|]. unfold SIZE_MAX. nia. }
  assert (header_shape bytes = Some (HDB_HEADER_V2_SIZE, table)) as Hs.
  { unfold header_shape. rewrite Hv, Hi, Hl. change (HDB_VERSION =? 1) with false. change (HDB_VERSION =? 2) with true.
    by rewrite (proj2 (Z.leb_le _ _)) by (unfold HDB_HEADER_V2_SIZE; lia). }
  unfold parse_column. rewrite Hm, Hl, Hs, Hty, Hc, Hr, Hd, Hu, type_of_type_code. unfold HDB_HEADER_V1_SIZE, HDB_HEADER_V2_SIZE.
  rewrite (proj2 (Z.ltb_ge _ 32)), bool_decide_true by (done || lia). cbn [negb orb mbind option_bind].
  rewrite Z.eqb_refl. cbn [negb mbind option_bind].
  rewrite (proj2 (Z.eqb_neq rows 0)), (proj2 (Z.ltb_ge _ rows)) by lia. cbn [orb]. rewrite Z.eqb_refl. cbn [negb orb].
  rewrite (proj2 (Z.ltb_ge _ (Z.of_nat (length data)))), wrap_small, Z.eqb_refl by lia. cbn [negb orb].
  change (Z.to_nat 40) with 40%nat. rewrite Hdrop. destruct comp; cbn [compression_code].
  - subst data. by rewrite Hlen, !Z.eqb_refl.
  - destruct Hcomp as (Hav & Hlz & Hdec). change (1 =? 0) with false. change (1 =? 1) with true. cbn [andb orb negb].
    rewrite Hav, !(proj2 (Z.ltb_ge INT32_MAX _)) by lia. cbn [orb negb].
    rewrite <- Hlen, Hdec. cbn [mbind option_bind]. by rewrite Z.eqb_refl.
Qed.

Lemma field_range bytes off n : Forall is_byte bytes → 0 <= field_at bytes off n < 2 ^ (8 * Z.of_nat (Z.to_nat n)).
Proof.
  intros Hb. unfold field_at, bytes_at. set (l := take _ _).
  assert (Forall is_byte l) as Hl by (apply Forall_take, Forall_drop, Hb). pose proof (le_val_range l Hl) as Hr.
  assert (length l <= Z.to_nat n)%nat by (subst l; rewrite length_take; lia).
  assert (2 ^ (8 * Z.of_nat (length l)) <= 2 ^ (8 * Z.of_nat (Z.to_nat n))) by (apply Z.pow_le_mono_r; lia). lia.
Qed.

(** Whatever a file holds: a column that is returned has data for its rows. *)
Lemma parse_in_bounds bytes table c : Forall is_byte bytes → parse_column bytes table = Some c →
  0 < mc_rows c ∧ Z.of_nat (length (mc_data c)) = mc_rows c * column_type_size (mc_type c).
Proof.
  intros Hb H. unfold parse_column in H. destruct (_ || _); [done|].
  destruct (header_shape bytes) as [[hs ft]|] eqn:Hs; [|done]. cbn [mbind option_bind] in H.
  destruct (negb _); [done|]. destruct (type_of_code _) as [t|]; [|done]. cbn [mbind option_bind] in H.
  pose proof (field_range bytes 8 8 Hb) as Hr. pose proof (field_range bytes 16 8 Hb) as Hd.
  revert H Hr Hd. generalize (field_at bytes 8 8), (field_at bytes 16 8), (field_at bytes 24 8), (field_at bytes 7 1).
  intros rows ds us comp H Hr Hd.
  assert (0 <= hs) as Hhs. { unfold header_shape in Hs. repeat case_match; by simplify_eq. }
  destruct (rows =? 0) eqn:Hz; [done|]. destruct (_ <? rows); [done|]. cbn [orb] in H.
  destruct (_ || _) eqn:Hc in H; [done|]. apply orb_false_elim in Hc as [[[[Hu Hle]%orb_false_elim Hf]%orb_false_elim Hn]%orb_false_elim _].
  apply negb_false_iff in Hu, Hf.
  assert (hs + ds = Z.of_nat (length bytes)) as Hfile.
  { apply Z.eqb_eq in Hf. unfold wrap in Hf. pose proof (Z.mod_pos_bound (hs + ds) (2 ^ 64)). rewrite Z.mod_small in Hf; lia. }
  destruct (comp =? 0).
  - simplify_eq/=. rewrite length_drop. lia.
  - destruct (_ || _) in H; [done|]. destruct (LZ4_decompress _ _) as [out|]; [|done]. cbn [mbind option_bind] in H.
    destruct (negb _) eqn:Ho in H; [done|]. simplify_eq/=. lia.
Qed.

(** ** Partitions read back *)

Definition column_file (dir : path) (c : ColumnVector) : path := below dir (name_ c +:+ ".bin")%string.

(** The file of a column that was written. *)
Definition holds_column (fs : filesystem) (file : path) (table : Z) (m : memory) (c : ColumnVector) : Prop :=
  ∃ bytes, fs !! file = Some (File bytes) ∧
    parse_column bytes table = Some (mkMapped (concat (as_span m c)) (size_ c) (type_ c)).

Lemma raw_length a m c : column_ok a c → Z.of_nat (length (concat (as_span m c))) = size_ c * column_type_size (type_ c).
Proof.
  intros Hc. rewrite (length_concat_uniform _ _ (as_span_lengths m c)). unfold as_span. rewrite length_fmap, length_seq.
  rewrite Nat2Z.inj_mul, (co_elem _ _ Hc). pose proof (co_size _ _ Hc). pose proof (type_size_range (type_ c)). lia.
Qed.

Lemma write_column_spec io fs w dir a m c table n fs' :
  column_ok a c → all_bytes m → size_ c < 2 ^ 56 → 0 <= table < 2 ^ 16 →
  write_column_file io fs w dir m c table = (n, fs') →
  if n =? 0 then fs' = fs
  else holds_column fs' (column_file dir c) table m c ∧ ∀ q, q ≠ column_file dir c → fs' !! q = fs !! q.
Proof.
  intros Hc Hm Hs Ht H. unfold write_column_file in H. destruct (_ || _); [by simplify_eq|].
  pose proof (type_size_range (type_ c)). pose proof (co_size _ _ Hc).
  destruct (Z.eqb_spec (size_ c * column_type_size (type_ c)) 0) as [|Hne]; [by simplify_eq|].
  pose proof (parse_written w (concat (as_span m c)) (size_ c) (type_ c) table) as Hp.
  destruct (payload w _) as [data comp]. unfold publish in H. fold (column_file dir c) in H.
  destruct (_ && _) in H; [|by simplify_eq]. simplify_eq. unfold HDB_HEADER_V2_SIZE.
  rewrite (proj2 (Z.eqb_neq _ _)) by lia. split.
  - eexists. rewrite lookup_insert_eq. split; [done|]. apply Hp; [|nia|by apply (raw_length a)|lia|done].
    apply Forall_concat, as_span_bytes, Hm.
  - intros q Hq. by rewrite lookup_insert_ne.
Qed.

Lemma write_columns_spec io w dir a m cols table : all_bytes m → 0 <= table < 2 ^ 16 →
  Forall (λ c, column_ok a c ∧ size_ c < 2 ^ 56) cols → NoDup (column_file dir <$> cols) →
  ∀ fs total total' fs', write_columns io fs w dir m cols table total = (Some total', fs') →
  Forall (λ c, holds_column fs' (column_file dir c) table m c) cols ∧
  ∀ q, q ∉ column_file dir <$> cols → fs' !! q = fs !! q.
Proof.
  intros Hm Ht. induction 1 as [|c cols [Hc Hs] Hcols IH]; intros Hnd fs total total' fs' H; cbn [write_columns] in H; [by simplify_eq|].
  destruct (write_column_file io fs w dir m c table) as [n fs1] eqn:Hw.
  pose proof (write_column_spec _ _ _ _ a _ _ _ _ _ Hc Hm Hs Ht Hw) as Hspec.
  destruct (n =? 0); [done|]. destruct Hspec as [Hcol Hoth]. apply NoDup_cons in Hnd as [Hnin Hnd].
  destruct (IH Hnd _ _ _ _ H) as [Hrest Hframe]. split.
  - constructor; [|done]. destruct Hcol as (bytes & Hb & Hp). exists bytes. by rewrite Hframe.
  - intros q Hq. rewrite fmap_cons, not_elem_of_cons in Hq. rewrite Hframe by tauto. apply Hoth. tauto.
Qed.

(** Paths determine the names they were built from. *)
Fixpoint join_slash (p : path) : text :=
  match p with
  | [] => []
  | [s] => chars s
  | s :: p => chars s ++ "/"%char :: join_slash p
  end.

Lemma join_split acc l : join_slash (split_slash acc l) = rev acc ++ l.
Proof.
  revert acc. induction l as [|c l IH]; intros acc; cbn [split_slash]; [simpl; by rewrite chars_str, app_nil_r|].
  destruct (Ascii.eqb_spec c "/"%char) as [->|Hc].
  - cbn [join_slash]. pose proof (IH []) as IH0. destruct (split_slash [] l) eqn:Hs; [by destruct l as [|c' l]; simpl in Hs; [|destruct (Ascii.eqb c' _)]|].
    by rewrite IH0, chars_str.
  - rewrite IH. simpl. by rewrite <- app_assoc.
Qed.

Lemma below_inj dir s s' : below dir s = below dir s' → s = s'.
Proof.
  intros H%app_inv_head. apply (f_equal join_slash) in H. rewrite !join_split in H. simpl in H.
  by rewrite <- (str_chars s), <- (str_chars s'), H.
Qed.

Lemma append_inj_r a b suffix : (a +:+ suffix)%string = (b +:+ suffix)%string → a = b.
Proof.
  intros H. apply (f_equal chars) in H. rewrite !chars_append in H. apply app_inv_tail in H.
  by rewrite <- (str_chars a), <- (str_chars b), H.
Qed.

#[export] Instance column_file_name_inj dir : Inj (=) (=) (λ s, below dir (s +:+ ".bin")%string).
Proof. intros s s' H. by apply below_inj, append_inj_r in H. Qed.

Lemma column_files_distinct dir cols : NoDup (name_ <$> cols) → NoDup (column_file dir <$> cols).
Proof. intros H. apply (NoDup_fmap_2 (λ s, below dir (s +:+ ".bin")%string)) in H. by rewrite <- list_fmap_compose in H. Qed.

Lemma mkdir_files io fs p ok fs' : mkdir_p io fs p = (ok, fs') →
  ∀ q, is_directory fs' q = false → fs' !! q = fs !! q.
Proof.
  unfold mkdir_p. destruct (_ && _); intros [= <- <-]; [|done]. intros q.
  induction (prefixes p) as [|r rs IH]; simpl; [done|]. unfold is_directory in *.
  destruct (decide (r = q)) as [->|Hne]; [by rewrite lookup_insert_eq|]. by rewrite lookup_insert_ne.
Qed.

(** What a partition's write leaves on disk. *)
Record partition_written (fs fs' : filesystem) (base_path : path) (p : Partition) : Prop := {
  pw_columns : ∀ i c, columns_ p !! i = Some c →
    holds_column fs' (column_file_path base_path (table_id (key_ p)) (symbol_id (key_ p)) (hour_epoch (key_ p)) (name_ c))
      (table_id (key_ p)) (memory_ p) c ∧ size_ c = num_rows p;
  pw_frame : ∀ q, is_directory fs' q = false →
    (∀ c, c ∈ columns_ p → q ≠ column_file_path base_path (table_id (key_ p)) (symbol_id (key_ p)) (hour_epoch (key_ p)) (name_ c)) →
    fs' !! q = fs !! q;
}.

Lemma write_partition io fs fs1 w base_path p total fs' ok :
  let k := key_ p in
  let dir := partition_dir base_path (table_id k) (symbol_id k) (hour_epoch k) in
  partition_ok p → NoDup (name_ <$> columns_ p) → 0 <= table_id k < 2 ^ 16 → consistent p = true →
  mkdir_p io fs dir = (ok, fs1) →
  write_columns io fs1 w dir (memory_ p) (columns_ p) (table_id k) 0 = (Some total, fs') →
  partition_written fs fs' base_path p.
Proof.
  intros k dir Hp Hnd Ht Hcons Hmk Hw.
  assert (Forall (λ c, column_ok (arena_ p) c ∧ size_ c < 2 ^ 56) (columns_ p)) as Hcols.
  { apply Forall_lookup_2. intros i c Hi. destruct (column_at p i c Hp Hi) as [? ?]. split; [done|lia]. }
  pose proof (column_files_distinct dir _ Hnd) as Hfiles.
  destruct (write_columns_spec io w dir (arena_ p) (memory_ p) _ (table_id k) (po_bytes _ Hp) Ht Hcols Hfiles _ _ _ _ Hw) as [Hall Hframe].
  split.
  - intros i c Hi. split; [by apply (Forall_lookup_1 _ _ _ _ Hall Hi)|].
    unfold consistent in Hcons. rewrite forallb_forall in Hcons. specialize (Hcons c). rewrite <- list_elem_of_In in Hcons.
    apply list_elem_of_lookup_2, Hcons, andb_prop in Hi as [_ ?%Z.eqb_eq]. done.
  - intros q Hq Hoth. rewrite Hframe.
    + apply (mkdir_files _ _ _ _ _ Hmk). unfold is_directory in *. rewrite <- Hframe; [done|].
      intros (c & -> & Hc)%list_elem_of_fmap. by apply (Hoth c Hc).
    + intros (c & -> & Hc)%list_elem_of_fmap. by apply (Hoth c Hc).
Qed.

Lemma mkdir_makes io fs p fs' q : mkdir_p io fs p = (true, fs') → q ∈ prefixes p → fs' !! q = Some Directory.
Proof.
  unfold mkdir_p. destruct (_ && _); intros [= <-]. induction (prefixes p) as [|r rs IH]; simpl; [by intros ?%not_elem_of_nil|].
  intros Hq. destruct (decide (r = q)) as [->|Hne]; [by rewrite lookup_insert_eq|]. rewrite lookup_insert_ne by done.
  apply IH. apply elem_of_cons in Hq as [->|?]; done.
Qed.

Lemma prefix_of_path (p q : path) : q ≠ [] → q `prefix_of` p → q ∈ prefixes p.
Proof.
  intros Hne [r ->]. unfold prefixes. apply list_elem_of_fmap. exists (length q). rewrite take_app_length. split; [done|].
  apply elem_of_seq. rewrite length_app. destruct q; [done|simpl; lia].
Qed.

Lemma child_entry (fs : filesystem) dir name n : fs !! (dir ++ [name]) = Some n → (name, n) ∈ children fs dir.
Proof.
  intros H. unfold children. apply list_elem_of_omap. exists (dir ++ [name], n). rewrite elem_of_map_to_list. split; [done|].
  simpl. by rewrite last_snoc, bool_decide_true.
Qed.

Definition symbol_dir (base_path : path) (table symbol : Z) : path :=
  base_path ++ (if table =? 0 then [] else ["t" +:+ to_string table]%string) ++ [to_string symbol].

Lemma partition_dir_split base_path table symbol hour :
  partition_dir base_path table symbol hour = symbol_dir base_path table symbol ++ [to_string hour].
Proof. unfold partition_dir, symbol_dir. by rewrite <- !app_assoc. Qed.

Lemma listed (fs : filesystem) base_path table symbol hour :
  INT64_MIN <= hour <= INT64_MAX → fs !! symbol_dir base_path table symbol = Some Directory →
  fs !! partition_dir base_path table symbol hour = Some Directory → hour ∈ list_partitions fs base_path table symbol.
Proof.
  intros Hh Hs Hd. unfold list_partitions. fold (symbol_dir base_path table symbol). unfold is_directory. rewrite Hs.
  rewrite merge_sort_Permutation. apply list_elem_of_omap. exists (to_string hour, Directory). split.
  - apply child_entry. by rewrite <- partition_dir_split.
  - simpl. by rewrite stoll_to_string.
Qed.

Lemma column_file_long dir c q : q `prefix_of` dir → q ≠ column_file dir c.
Proof.
  intros [r ->] H. apply (f_equal length) in H. unfold column_file, below in H. rewrite !length_app in H.
  destruct (split_slash [] _) eqn:Hs; [|simpl in H; lia].
  apply (f_equal join_slash) in Hs. rewrite join_split in Hs. cbn [rev app join_slash] in Hs.
  rewrite chars_append in Hs. by destruct (chars (name_ c)).
Qed.

Lemma write_columns_frame io w dir m cols table fs total r fs' :
  write_columns io fs w dir m cols table total = (r, fs') → ∀ q, q ∉ column_file dir <$> cols → fs' !! q = fs !! q.
Proof.
  revert fs total. induction cols as [|c cols IH]; intros fs total H q Hq; cbn [write_columns] in H; [by simplify_eq|].
  destruct (write_column_file io fs w dir m c table) as [n fs1] eqn:Hw. rewrite fmap_cons, not_elem_of_cons in Hq.
  assert (fs1 !! q = fs !! q) as H1.
  { unfold write_column_file in Hw. destruct (_ || _) in Hw; [by simplify_eq|]. destruct (_ * _ =? 0) in Hw; [by simplify_eq|].
    destruct (payload _ _) as [data comp]. unfold publish in Hw. destruct (_ && _) in Hw; simplify_eq; [|done].
    apply lookup_insert_ne. intros Heq. by apply (proj1 Hq). }
  destruct (n =? 0); [by simplify_eq|]. rewrite <- H1. apply (IH _ _ H). tauto.
Qed.

(** C11. What is flushed can be read back. When the partition of a table, symbol and
    hour is flushed, every column reads back with its type, its number of rows and
    the bytes of its values, compressed or not; the hour is listed for the symbol;
    and no other file changes. *)
Theorem flushed_partition_reads_back io fs w p n fs' w' mapped :
  partition_ok p → NoDup (name_ <$> columns_ p) → 0 <= table_id (key_ p) < 2 ^ 16 →
  INT64_MIN <= hour_epoch (key_ p) <= INT64_MAX → (∀ q, mapped q = true) →
  flush_partition io fs w p = (n, fs', w') → n ≠ 0 →
  (∀ i c, columns_ p !! i = Some c →
     read_column mapped fs' (hw_base_path w) (table_id (key_ p)) (symbol_id (key_ p)) (hour_epoch (key_ p)) (name_ c) =
     Some (mkMapped (concat (as_span (memory_ p) c)) (num_rows p) (type_ c))) ∧
  hour_epoch (key_ p) ∈ list_partitions fs' (hw_base_path w) (table_id (key_ p)) (symbol_id (key_ p)) ∧
  ∀ q, is_directory fs' q = false →
    (∀ c, c ∈ columns_ p → q ≠ column_file_path (hw_base_path w) (table_id (key_ p)) (symbol_id (key_ p)) (hour_epoch (key_ p)) (name_ c)) →
    fs' !! q = fs !! q.
Proof.
  intros Hp Hnd Ht Hh Hmap H Hn. unfold flush_partition in H. destruct (negb _ || _ || _) eqn:Hguard; [by simplify_eq|].
  apply orb_false_elim in Hguard as [[_ Hcons%negb_false_iff]%orb_false_elim _].
  destruct (mkdir_p io fs _) as [ok fs1] eqn:Hmk. destruct ok; cbn [negb] in H; [|by simplify_eq].
  destruct (write_columns _ _ _ _ _ _ _ _) as [[total|] fs2] eqn:Hw; simplify_eq.
  destruct (write_partition _ _ _ _ _ _ _ _ _ Hp Hnd Ht Hcons Hmk Hw) as [Hcols Hframe]. split_and!; [| |done].
  - intros i c Hi. destruct (Hcols i c Hi) as [(bytes & Hb & Hparse) Hrows]. unfold read_column.
    by rewrite Hb, Hmap, Hparse, Hrows.
  - pose proof (partition_dir_split (hw_base_path w) (table_id (key_ p)) (symbol_id (key_ p)) (hour_epoch (key_ p))) as Hsplit.
    assert (∀ q, q ≠ [] → q `prefix_of` partition_dir (hw_base_path w) (table_id (key_ p)) (symbol_id (key_ p)) (hour_epoch (key_ p)) →
      fs' !! q = Some Directory) as Hdir.
    { intros q Hq Hpre. rewrite (write_columns_frame _ _ _ _ _ _ _ _ _ _ Hw).
      - eapply mkdir_makes; [done|]. by apply prefix_of_path.
      - intros (c & Hc & _)%list_elem_of_fmap. by apply (column_file_long _ _ _ Hpre) in Hc. }
    apply listed; [done| |].
    + apply Hdir; [unfold symbol_dir; by destruct (hw_base_path w), (_ =? 0)|]. rewrite Hsplit. by apply prefix_app_r.
    + apply Hdir; [|done]. rewrite Hsplit. by destruct (symbol_dir _ _ _).
Qed.

(** C39. Reading never leaves a file's data. Whatever bytes the files hold, a column
    that is returned has at least one row, and every row read at the width of the
    column's type lies within the data. *)
Theorem read_column_in_bounds mapped fs base_path table symbol hour name c :
  (∀ q bytes, fs !! q = Some (File bytes) → Forall is_byte bytes) →
  read_column mapped fs base_path table symbol hour name = Some c →
  0 < mc_rows c ∧ ∀ i, 0 <= i < mc_rows c → is_Some (mapped_at (column_type_size (mc_type c)) c i).
Proof.
  intros Hfs H. unfold read_column in H. destruct (fs !! _) as [[|bytes|]|] eqn:Hf; [done| |done|done].
  destruct (mapped _); [|done]. destruct (parse_in_bounds _ _ _ (Hfs _ _ Hf) H) as [Hpos Hlen]. split; [done|].
  intros i Hi. unfold mapped_at. rewrite Hlen. pose proof (type_size_range (mc_type c)).
  rewrite (proj2 (Z.leb_le _ _)), (proj2 (Z.ltb_lt _ _)) by nia. done.
Qed.
End Facts.

(** ** A concrete database *)

Lemma bytes_checked l : forallb (λ b, (0 <=? b) && (b <? 2 ^ 8)) l = true → Forall is_byte l.
Proof.
  rewrite forallb_forall, Forall_forall. intros H b Hb%list_elem_of_In.
  apply H, andb_prop in Hb as [?%Z.leb_le ?%Z.ltb_lt]. done.
Qed.


(** A compressor that knows blocks of zeros only. *)
#[export] Instance zeros_lz4 : Lz4 := {|
  lz4_available := true;
  LZ4_compress b := if bool_decide (b = replicate (length b) 0) then [0] else [];
  LZ4_decompress b n := Some (replicate (Z.to_nat n) 0);
|}.

#[export] Instance zeros_lz4_laws : Lz4Laws zeros_lz4.
Proof.
  split; simpl; intros b Hb; case_bool_decide as H; [by repeat constructor|constructor| |done].
  intros _. by rewrite Nat2Z.id, <- H.
Qed.

Definition always_works : disk_io := mkDiskIo (λ _, true) (λ _, mkWriteIo true true true true).

(** Two rows, with a column that compresses and one that does not. *)
Definition demo_partition : Partition :=
  let p := add_column (new_partition 0 (mkKey 3 7 NS_PER_HOUR) (make_arena 1 true)) "price" INT64 in
  let p := add_column p "flag" INT32 in
  let p := (append_at p 0 (push_le 8 0)).2 in
  let p := (append_at p 0 (push_le 8 0)).2 in
  let p := (append_at p 1 (push_le 4 1)).2 in
  PartitionManager.seal (append_at p 1 (push_le 4 2)).2.

Lemma seal_ok p : partition_ok p → partition_ok (PartitionManager.seal p).
Proof. by intros [? ? ?]. Qed.

Lemma demo_partition_ok : partition_ok demo_partition.
Proof.
  apply seal_ok. repeat (apply append_at_ok; [|apply push_le_bytes|intros c Hc; vm_compute in Hc; by simplify_eq]).
  apply add_column_spec, add_column_spec, new_partition_ok. done.
Qed.

Notation demo_writer := (mkWriter ["db"%string] true 0 0).
Notation demo_flush := (flush_partition always_works ∅ demo_writer demo_partition).

Lemma triple_eta {A B C} (x : A * B * C) : x = (x.1.1, x.1.2, x.2).
Proof. by destruct x as [[? ?] ?]. Qed.

Lemma flushed_partition_reads_back_witness :
  (∀ i c, columns_ demo_partition !! i = Some c →
     read_column (λ _, true) demo_flush.1.2 ["db"%string] 3 7 NS_PER_HOUR (name_ c) =
     Some (mkMapped (concat (as_span (memory_ demo_partition) c)) (num_rows demo_partition) (type_ c))) ∧
  NS_PER_HOUR ∈ list_partitions demo_flush.1.2 ["db"%string] 3 7 ∧
  ∀ q, is_directory demo_flush.1.2 q = false →
    (∀ c, c ∈ columns_ demo_partition → q ≠ column_file_path ["db"%string] 3 7 NS_PER_HOUR (name_ c)) →
    demo_flush.1.2 !! q = (∅ : filesystem) !! q.
Proof.
  apply (flushed_partition_reads_back always_works ∅ demo_writer demo_partition demo_flush.1.1 _ demo_flush.2).
  - apply demo_partition_ok.
  - vm_compute. repeat constructor; by (set_solver || apply not_elem_of_nil || done).
  - by vm_compute.
  - by vm_compute.
  - done.
  - apply triple_eta.
  - by vm_compute.
Defined.

Lemma read_column_in_bounds_witness :
  let c := mkMapped (replicate 16 0) 2 INT64 in
  0 < mc_rows c ∧ ∀ i, 0 <= i < mc_rows c → is_Some (mapped_at (column_type_size (mc_type c)) c i).
Proof.
  apply (read_column_in_bounds (λ _, true)
    {[ ["1"; "0"; "x.bin"]%string := File (header_bytes (mkHeader 2 1 1 2 1 16 0) ++ [0]) ]} [] 0 1 0 "x").
  - intros q bytes [_ [= <-]]%lookup_singleton_Some. apply bytes_checked. by vm_compute.
  - vm_compute. reflexivity.
Defined.
