(* ===== verification/FlushManager.v ===== *)
(** * FlushManager: from memory to disk

    Models [include/zeptodb/storage/flush_manager.h] and
    [src/storage/flush_manager.cpp]: flushing of sealed partitions, tiers by age,
    and snapshots of all partitions that are published as generations. What a
    snapshot does to the file system is a program over its states that keeps every
    state it went through ([disk_program]), so that a theorem can speak of a stop
    at any point. Parquet's encoding, the object store's answers and the calendar
    are parameters; so are the clock and the outcomes of system calls. *)

From S2P Require Import Prelude.
From S2P Require Import Text.
From S2P Require Import Bytes.
From S2P Require Import Arena.
From S2P Require Import ColumnStore.
From S2P Require Import PartitionManager.
From S2P Require Import Tokenizer.
From S2P Require Import Literals.
From S2P Require Import Hdb.
From stdpp Require Import base gmap list strings fin_maps sorting.
From Stdlib Require Import ZArith Lia Ascii.

Open Scope Z_scope.

(** ** Configuration *)

Inductive HDBOutputFormat : Type := BINARY | PARQUET | BOTH.
Inductive S3Layout : Type := FLAT | HIVE.

#[export] Instance HDBOutputFormat_eq_dec : EqDecision HDBOutputFormat.
Proof. solve_decision. Defined.

(** All thresholds in nanoseconds; 0 disables a tier. *)
Record TieringPolicy : Type := mkTiering {
  tiering_enabled : bool;
  warm_after_ns : Z;
  cold_after_ns : Z;
  drop_after_ns : Z;
}.

Record FlushConfig : Type := mkFlushConfig {
  enable_compression : bool;
  reclaim_after_flush : bool;
  auto_seal_age_hours : Z;
  output_format : HDBOutputFormat;
  enable_s3_upload : bool;
  s3_bucket : string;
  s3_layout : S3Layout;
  delete_local_after_s3 : bool;
  enable_auto_snapshot : bool;
  snapshot_interval_ms : Z;
  snapshot_path : string;
  tiering : TieringPolicy;
}.

Definition default_flush_config : FlushConfig :=
  mkFlushConfig true false 1 BINARY false "" FLAT false false 60000 "" (mkTiering false 0 0 0).

(** ** Streams: what [operator>>] reads *)

(** A word between spaces. *)
Definition read_word (l : text) : option (string * text) :=
  match span (λ c, negb (isspace c)) (skip_whitespace l) with
  | ([], _) => None
  | (w, rest) => Some (str w, rest)
  end.

(** A [uint64_t]; a minus sign is accepted and negates modulo 2^64. *)
Definition read_uint64 (l : text) : option (Z * text) :=
  let '(negative, l) := read_sign (skip_whitespace l) in
  match span isdigit l with
  | ([], _) => None
  | (ds, rest) =>
      let v := digits_value ds in
      if 2 ^ 64 <=? v then None else Some (if negative then u64 (- v) else v, rest)
  end.

Definition file_text (bytes : list Z) : text := chars (string_of_bytes bytes).

(** ** Generations *)

Definition kSnapshotManifestMagic : string := "ZEPTO_SNAPSHOT_V1".

Definition is_generation_name (name : string) : bool :=
  let l := chars name in
  bool_decide (take 4 l = chars "gen-") && (4 <? length l)%nat && (length l <=? 160)%nat &&
  forallb (λ c, isdigit c || Ascii.eqb c "-"%char) (drop 4 l).

Definition generations (root : path) : path := root ++ ["generations"%string].
Definition generation_path (root : path) (name : string) : path := generations root ++ [name].
Definition complete_path (root : path) (name : string) : path := generation_path root name ++ ["_COMPLETE"%string].
Definition current_path (root : path) : path := root ++ ["CURRENT"%string].

Inductive SnapshotResolution : Type :=
  | SnapshotMissing
  | SnapshotReady (path : path) (partitions rows : Z)
  | SnapshotInvalid (error : string).

(** The manifest of a generation. *)
Definition read_manifest (generation : string) (l : text) : option (Z * Z) :=
  '(magic, l) ← read_word l;
  '(name, l) ← read_word l;
  '(partitions, l) ← read_uint64 l;
  '(rows, l) ← read_uint64 l;
  match read_word l with
  | Some _ => None
  | None => if String.eqb magic kSnapshotManifestMagic && String.eqb name generation then Some (partitions, rows) else None
  end.

(** The only word of CURRENT. *)
Definition read_current (l : text) : option string :=
  '(name, l) ← read_word l;
  match read_word l with Some _ => None | None => if is_generation_name name then Some name else None end.

(** [sees] tells which paths can be inspected. *)
Definition resolve_snapshot (sees : path → bool) (fs : filesystem) (snapshot_path : string) : SnapshotResolution :=
  if String.eqb snapshot_path "" then SnapshotMissing
  else
    let root := below [] snapshot_path in
    if negb (sees root) then SnapshotInvalid "cannot inspect snapshot root"
    else match fs !! root with
    | None => SnapshotMissing
    | Some (File _ | OtherNode) => SnapshotInvalid "snapshot root is not a directory"
    | Some Directory =>
        if negb (sees (current_path root)) then SnapshotInvalid "cannot inspect snapshot CURRENT"
        else match fs !! current_path root with
        | None => (* nothing was published: only an empty directory of generations is accepted *)
            if forallb (λ e, String.eqb e.1 "generations" && is_directory fs (root ++ [e.1]) &&
                             (length (children fs (generations root)) =? 0)%nat) (children fs root)
            then SnapshotMissing else SnapshotInvalid "snapshot root has data but no CURRENT manifest"
        | Some (Directory | OtherNode) => SnapshotInvalid "snapshot CURRENT is not a regular file"
        | Some (File current) =>
            if (length current =? 0)%nat || (512 <? Z.of_nat (length current))
            then SnapshotInvalid "snapshot CURRENT has an invalid size"
            else match read_current (file_text current) with
            | None => SnapshotInvalid "snapshot CURRENT is malformed"
            | Some name =>
                if negb (sees (generation_path root name) && is_directory fs (generation_path root name))
                then SnapshotInvalid "snapshot CURRENT generation is missing"
                else match sees (complete_path root name), fs !! complete_path root name with
                | true, Some (File complete) =>
                    if (length complete =? 0)%nat || (512 <? Z.of_nat (length complete))
                    then SnapshotInvalid "snapshot complete manifest has an invalid size"
                    else match read_manifest name (file_text complete) with
                    | Some (partitions, rows) => SnapshotReady (generation_path root name) partitions rows
                    | None => SnapshotInvalid "snapshot complete manifest is malformed"
                    end
                | _, _ => SnapshotInvalid "snapshot generation is not complete"
                end
            end
        end
    end.

(** ** Programs over the disk

    A program returns a value and the states of the file system it goes through,
    the last of which it leaves behind. *)

Definition disk_program (A : Type) : Type := filesystem → A * list filesystem.

Definition final (fs : filesystem) (states : list filesystem) : filesystem := default fs (last states).

Definition act {A} (f : filesystem → A * filesystem) : disk_program A := λ fs, let '(a, fs') := f fs in (a, [fs']).

#[export] Instance disk_ret : MRet disk_program := λ A a fs, (a, []).
#[export] Instance disk_bind : MBind disk_program := λ A B f m fs,
  let '(a, states) := m fs in
  let '(b, states') := f a (final fs states) in (b, states ++ states').

(** How the system calls of the manager end. *)
Record flush_io : Type := mkFlushIo {
  fio_disk : disk_io;
  fio_text : path → write_io;      (** [write_text_atomically] *)
  fio_create : path → bool;        (** [create_directory] *)
  fio_listed : path → bool;        (** [directory_iterator] *)
  fio_removed : path → bool;       (** which entries [remove_all] can remove *)
  fio_upload : string → bool;      (** an object is stored *)
  fio_pid : Z;
}.

(** Everything below a path, as far as it can be removed. *)
Definition remove_all (io : flush_io) (p : path) (fs : filesystem) : filesystem :=
  filter (λ e : path * node, ¬ (p `prefix_of` e.1 ∧ fio_removed io e.1 = true)) fs.

(** Write a temporary file beside the destination and rename it; [sequence] makes
    its name. *)
Definition temporary (io : flush_io) (name : string) (sequence : Z) : string :=
  (name +:+ ".tmp." +:+ to_string (fio_pid io) +:+ "." +:+ to_string sequence)%string.

Definition write_text_atomically (io : flush_io) (sequence : Z) (dir : path) (name : string) (contents : string) :
    disk_program bool := λ fs,
  let temp := dir ++ [temporary io name sequence] in
  let calls := fio_text io (dir ++ [name]) in
  if negb (io_opened calls) || is_directory fs temp then (false, [])
  else
    let fs1 := <[temp := File (bytes_of_string contents)]> fs in
    if io_written calls && io_closed calls && io_renamed calls && negb (is_directory fs (dir ++ [name]))
    then (true, [fs1; <[dir ++ [name] := File (bytes_of_string contents)]> (delete temp fs1)])
    else (false, [fs1; delete temp fs1]).

(** [std::string]'s order, descending. *)
Definition name_ge (a b : string) : Prop := String.leb b a = true.
#[export] Instance name_ge_dec : RelDecision name_ge.
Proof. intros a b. unfold name_ge. apply _. Defined.

(** The generations to remove: all but the current one and the newest other. *)
Definition expired_generations (current : string) (names : list string) : list string :=
  drop 1 (filter (λ name, name ≠ current) (merge_sort name_ge names)).

Definition generation_names (fs : filesystem) (root : path) : list string :=
  omap (λ e, if is_generation_name e.1 && is_directory fs (generations root ++ [e.1]) then Some e.1 else None)
    (children fs (generations root)).

Fixpoint remove_generations (io : flush_io) (root : path) (names : list string) : disk_program () :=
  match names with
  | [] => mret tt
  | name :: names =>
      act (λ fs, (tt, remove_all io (generation_path root name) fs)) ≫= λ _, remove_generations io root names
  end.

Definition cleanup_old_generations (io : flush_io) (root : path) (current : string) : disk_program () := λ fs,
  if fio_listed io (generations root)
  then remove_generations io root (expired_generations current (generation_names fs root)) fs
  else (tt, []).

(** ** The manager *)

Record ParquetWriter : Type := mkParquet { files_written_ : Z; parquet_bytes_written_ : Z }.
Record S3Sink : Type := mkS3 { host_hash_ : string; uploads_succeeded_ : Z; uploads_failed_ : Z }.

Record FlushManager : Type := mkFlushManager {
  fm_config : FlushConfig;
  parquet_writer_ : option ParquetWriter;
  s3_sink_ : option S3Sink;
  fm_running : bool;
  stat_partitions_flushed_ : Z;
  stat_bytes_written_ : Z;
  stat_flush_triggers_ : Z;
  stat_manual_flushes_ : Z;
  stat_last_flush_ns_ : Z;
  last_snapshot_ns_ : Z;
  last_snapshot_succeeded_ : bool;
  ttl_ns_ : Z;
  generation_sequence_ : Z; (** a global counter of the program *)
}.

Definition new_flush_manager (config : FlushConfig) (host_hash : string) (sequence : Z) : FlushManager :=
  mkFlushManager config
    (match output_format config with BINARY => None | _ => Some (mkParquet 0 0) end)
    (if enable_s3_upload config && negb (String.eqb (s3_bucket config) "") then Some (mkS3 host_hash 0 0) else None)
    false 0 0 0 0 0 0 false 0 sequence.

Definition set_fm_running (b : bool) (f : FlushManager) : FlushManager :=
  mkFlushManager (fm_config f) (parquet_writer_ f) (s3_sink_ f) b (stat_partitions_flushed_ f) (stat_bytes_written_ f)
    (stat_flush_triggers_ f) (stat_manual_flushes_ f) (stat_last_flush_ns_ f) (last_snapshot_ns_ f)
    (last_snapshot_succeeded_ f) (ttl_ns_ f) (generation_sequence_ f).

Definition set_exports (pq : option ParquetWriter) (s3 : option S3Sink) (f : FlushManager) : FlushManager :=
  mkFlushManager (fm_config f) pq s3 (fm_running f) (stat_partitions_flushed_ f) (stat_bytes_written_ f)
    (stat_flush_triggers_ f) (stat_manual_flushes_ f) (stat_last_flush_ns_ f) (last_snapshot_ns_ f)
    (last_snapshot_succeeded_ f) (ttl_ns_ f) (generation_sequence_ f).

(** One more partition flushed, with its bytes and time where they are counted. *)
Definition count_flushed (bytes : Z) (now : option Z) (f : FlushManager) : FlushManager :=
  mkFlushManager (fm_config f) (parquet_writer_ f) (s3_sink_ f) (fm_running f) (u64 (stat_partitions_flushed_ f + 1))
    (u64 (stat_bytes_written_ f + bytes)) (stat_flush_triggers_ f) (stat_manual_flushes_ f)
    (default (stat_last_flush_ns_ f) now) (last_snapshot_ns_ f) (last_snapshot_succeeded_ f) (ttl_ns_ f)
    (generation_sequence_ f).

Definition count_trigger (manual : bool) (f : FlushManager) : FlushManager :=
  mkFlushManager (fm_config f) (parquet_writer_ f) (s3_sink_ f) (fm_running f) (stat_partitions_flushed_ f)
    (stat_bytes_written_ f) (if manual then stat_flush_triggers_ f else u64 (stat_flush_triggers_ f + 1))
    (if manual then u64 (stat_manual_flushes_ f + 1) else stat_manual_flushes_ f) (stat_last_flush_ns_ f)
    (last_snapshot_ns_ f) (last_snapshot_succeeded_ f) (ttl_ns_ f) (generation_sequence_ f).

Definition set_snapshot (at_ : option Z) (ok : bool) (sequence : Z) (f : FlushManager) : FlushManager :=
  mkFlushManager (fm_config f) (parquet_writer_ f) (s3_sink_ f) (fm_running f) (stat_partitions_flushed_ f)
    (stat_bytes_written_ f) (stat_flush_triggers_ f) (stat_manual_flushes_ f) (stat_last_flush_ns_ f)
    (default (last_snapshot_ns_ f) at_) ok (ttl_ns_ f) sequence.

Definition set_ttl_ns (ttl : Z) (f : FlushManager) : FlushManager :=
  mkFlushManager (fm_config f) (parquet_writer_ f) (s3_sink_ f) (fm_running f) (stat_partitions_flushed_ f)
    (stat_bytes_written_ f) (stat_flush_triggers_ f) (stat_manual_flushes_ f) (stat_last_flush_ns_ f)
    (last_snapshot_ns_ f) (last_snapshot_succeeded_ f) ttl (generation_sequence_ f).

(** [any tier is used] enables the policy. *)
Definition set_tiering_policy (warm cold drop : Z) (f : FlushManager) : FlushManager :=
  let c := fm_config f in
  let tiers := mkTiering ((0 <? warm) || (0 <? cold) || (0 <? drop)) warm cold drop in
  mkFlushManager
    (mkFlushConfig (enable_compression c) (reclaim_after_flush c) (auto_seal_age_hours c) (output_format c)
       (enable_s3_upload c) (s3_bucket c) (s3_layout c) (delete_local_after_s3 c) (enable_auto_snapshot c)
       (snapshot_interval_ms c) (snapshot_path c) tiers)
    (parquet_writer_ f) (s3_sink_ f) (fm_running f) (stat_partitions_flushed_ f) (stat_bytes_written_ f)
    (stat_flush_triggers_ f) (stat_manual_flushes_ f) (stat_last_flush_ns_ f) (last_snapshot_ns_ f)
    (last_snapshot_succeeded_ f) (ttl_ns_ f) (generation_sequence_ f).

(** ** Exports *)

Section Manager.
Context {L : Lz4}.

(** Arrow's encoding of a partition, if it succeeds, and [gmtime_r]. *)
Context (parquet_encode : Partition → option (list Z)) (gmtime : Z → Z * Z * Z).

Definition parquet_filename (symbol hour : Z) : string :=
  (to_string symbol +:+ "_" +:+ to_string hour +:+ ".parquet")%string.

(** [%0nd] *)
Definition zero_padded (n : nat) (v : Z) : string :=
  let ds := chars (to_string v) in str (replicate (n - length ds) "0"%char ++ ds).

Definition make_s3_key (layout : S3Layout) (host_hash : string) (symbol hour : Z) (ext : string) : string :=
  match layout with
  | FLAT => (to_string symbol +:+ "/" +:+ to_string hour +:+ "." +:+ ext)%string
  | HIVE =>
      let '(year, month, day) := gmtime (i64 (hour * 3600)) in
      ("year=" +:+ zero_padded 4 year +:+ "/month=" +:+ zero_padded 2 month +:+ "/day=" +:+ zero_padded 2 day +:+ "/symbol=" +:+
       to_string (u32 symbol) +:+ "/" +:+ to_string (u32 symbol) +:+ "-" +:+ to_string hour +:+
       (if String.eqb host_hash "" then "" else "-" +:+ host_hash) +:+ "." +:+ ext)%string
  end.

(** What is on disk and in the object store. *)
Record storage : Type := mkStorage { disk_ : filesystem; objects_ : gmap string (list Z) }.

(** [flush_to_file]: the file's path and its bytes. *)
Definition flush_to_file (io : flush_io) (fs : filesystem) (w : ParquetWriter) (p : Partition) (output_dir : path) :
    option (path * list Z) * filesystem * ParquetWriter :=
  if num_rows p =? 0 then (None, fs, w)
  else
    let '(made, fs) := mkdir_p (fio_disk io) fs output_dir in
    let file := output_dir ++ [parquet_filename (symbol_id (key_ p)) (hour_epoch (key_ p))] in
    match (if made : bool then parquet_encode p else None) with
    | Some bytes =>
        let calls := io_file (fio_disk io) file in
        if io_opened calls && io_written calls && negb (is_directory fs file)
        then (Some (file, bytes), <[file := File bytes]> fs,
              mkParquet (u64 (files_written_ w + 1)) (u64 (parquet_bytes_written_ w + Z.of_nat (length bytes))))
        else (None, fs, w)
    | None => (None, fs, w)
    end.

Definition upload_file (io : flush_io) (s3 : S3Sink) (objects : gmap string (list Z)) (bytes : list Z) (key : string) :
    bool * S3Sink * gmap string (list Z) :=
  if fio_upload io key
  then (true, mkS3 (host_hash_ s3) (u64 (uploads_succeeded_ s3 + 1)) (uploads_failed_ s3), <[key := bytes]> objects)
  else (false, mkS3 (host_hash_ s3) (uploads_succeeded_ s3) (u64 (uploads_failed_ s3 + 1)), objects).

(** The hour is divided once more for the layout by date. *)
Definition s3_hour (layout : S3Layout) (hour : Z) : Z :=
  match layout with HIVE => Z.quot hour NS_PER_HOUR | FLAT => hour end.

Definition flush_partition_parquet (io : flush_io) (base_path : path) (p : Partition) (f : FlushManager) (s : storage) :
    FlushManager * storage :=
  match parquet_writer_ f with
  | None => (f, s)
  | Some w =>
      let key := key_ p in
      let '(written, fs, w) := flush_to_file io (disk_ s) w p
        (partition_dir base_path (table_id key) (symbol_id key) (hour_epoch key)) in
      match written, s3_sink_ f with
      | Some (file, bytes), Some s3 =>
          let layout := s3_layout (fm_config f) in
          let '(uploaded, s3, objects) := upload_file io s3 (objects_ s) bytes
            (make_s3_key layout (host_hash_ s3) (symbol_id key) (s3_hour layout (hour_epoch key)) "parquet") in
          (set_exports (Some w) (Some s3) f,
           mkStorage (if uploaded && delete_local_after_s3 (fm_config f) && fio_removed io file then delete file fs else fs) objects)
      | _, s3 => (set_exports (Some w) s3 f, mkStorage fs (objects_ s))
      end
  end.

(** ** Flushing *)

(** Everything the manager works on, by reference in the program. *)
Record flush_state : Type := mkFlushState {
  fs_manager : FlushManager;
  fs_partitions : PartitionManager;
  fs_writer : HDBWriter;
  fs_storage : storage;
}.

Definition parquet_succeeded (f : FlushManager) : bool :=
  match parquet_writer_ f with Some w => 0 <? files_written_ w | None => false end.
Definition upload_succeeded (f : FlushManager) : bool :=
  match s3_sink_ f with Some s3 => 0 <? uploads_succeeded_ s3 | None => false end.

Definition after_flush (reclaim : bool) (p : Partition) : Partition :=
  let p := set_state p FLUSHED in if reclaim then reclaim_arena p else p.

(** One partition of [do_flush_sealed]. *)
Definition flush_sealed_one (io : flush_io) (now : Z) (s : flush_state) (part : Partition) : bool * flush_state :=
  let config := fm_config (fs_manager s) in
  let part := set_state part FLUSHING in
  let '(bytes, fs, w) :=
    match output_format config with
    | BINARY | BOTH => Hdb.flush_partition (fio_disk io) (disk_ (fs_storage s)) (fs_writer s) part
    | PARQUET => (0, disk_ (fs_storage s), fs_writer s)
    end in
  let st := mkStorage fs (objects_ (fs_storage s)) in
  let '(f, st) :=
    match output_format config with
    | PARQUET | BOTH => flush_partition_parquet io (hw_base_path w) part (fs_manager s) st
    | BINARY => (fs_manager s, st)
    end in
  let bytes :=
    match output_format config, parquet_writer_ f with
    | PARQUET, Some pq => if 0 <? files_written_ pq then parquet_bytes_written_ pq else bytes
    | _, _ => bytes
    end in
  if (0 <? bytes) || parquet_succeeded f || upload_succeeded f
  then (true, mkFlushState (count_flushed bytes (Some now) f)
                (with_partition (fs_partitions s) (key_ part) (after_flush (reclaim_after_flush config))) w st)
  else (false, mkFlushState f (with_partition (fs_partitions s) (key_ part) (λ p, set_state p SEALED)) w st).

Fixpoint flush_sealed_all (io : flush_io) (now : Z) (s : flush_state) (sealed : list Partition) : Z * flush_state :=
  match sealed with
  | [] => (0, s)
  | part :: sealed =>
      let '(ok, s) := flush_sealed_one io now s part in
      let '(n, s) := flush_sealed_all io now s sealed in ((if ok : bool then 1 else 0) + n, s)
  end.

Definition do_flush_sealed (io : flush_io) (now : Z) (s : flush_state) : Z * flush_state :=
  flush_sealed_all io now s (get_sealed_partitions (fs_partitions s)).

Definition with_manager (g : FlushManager → FlushManager) (s : flush_state) : flush_state :=
  mkFlushState (g (fs_manager s)) (fs_partitions s) (fs_writer s) (fs_storage s).
Definition with_partitions (g : PartitionManager → PartitionManager) (s : flush_state) : flush_state :=
  mkFlushState (fs_manager s) (g (fs_partitions s)) (fs_writer s) (fs_storage s).

Definition flush_now (io : flush_io) (now : Z) (s : flush_state) : Z * flush_state :=
  let '(n, s) := do_flush_sealed io now s in (n, with_manager (count_trigger true) s).

(** ** Tiers *)

(** Seal a partition and write its columns. *)
Definition seal_and_write (io : flush_io) (s : flush_state) (part : Partition) : Z * Partition * flush_state :=
  let part := set_state (PartitionManager.seal part) FLUSHING in
  let '(bytes, fs, w) := Hdb.flush_partition (fio_disk io) (disk_ (fs_storage s)) (fs_writer s) part in
  (bytes, part, mkFlushState (fs_manager s) (fs_partitions s) w (mkStorage fs (objects_ (fs_storage s)))).

Definition exports_configured (f : FlushManager) : bool :=
  match s3_sink_ f, parquet_writer_ f with Some _, Some _ => true | _, _ => false end.

Definition export (io : flush_io) (part : Partition) (s : flush_state) : flush_state :=
  if exports_configured (fs_manager s)
  then let '(f, st) := flush_partition_parquet io (hw_base_path (fs_writer s)) part (fs_manager s) (fs_storage s) in
       mkFlushState f (fs_partitions s) (fs_writer s) st
  else s.

Definition cold_tier (io : flush_io) (s : flush_state) (part : Partition) : flush_state :=
  match state_ part with
  | FLUSHED => export io part s
  | ACTIVE =>
      let '(_, part, s) := seal_and_write io s part in
      let s := export io part s in
      with_manager (count_flushed 0 None)
        (with_partitions (λ m, with_partition m (key_ part)
           (after_flush (reclaim_after_flush (fm_config (fs_manager s))))) s)
  | _ => s
  end.

Definition warm_tier (io : flush_io) (s : flush_state) (part : Partition) : flush_state :=
  match state_ part with
  | ACTIVE =>
      let '(bytes, part, s) := seal_and_write io s part in
      if 0 <? bytes
      then with_manager (count_flushed bytes None)
             (with_partitions (λ m, with_partition m (key_ part)
                (after_flush (reclaim_after_flush (fm_config (fs_manager s))))) s)
      else with_partitions (λ m, with_partition m (key_ part) (λ p, set_state p SEALED)) s
  | _ => s
  end.

Definition tier_one (io : flush_io) (current : Z) (s : flush_state) (part : Partition) : flush_state :=
  if num_rows part =? 0 then s
  else
    let tp := tiering (fm_config (fs_manager s)) in
    let age := i64 (current - hour_epoch (key_ part)) in
    if (0 <? drop_after_ns tp) && (drop_after_ns tp <=? age)
    then with_partitions (λ m, evict_partition m (p_id part)) s
    else if (0 <? cold_after_ns tp) && (cold_after_ns tp <=? age) then cold_tier io s part
    else if (0 <? warm_after_ns tp) && (warm_after_ns tp <=? age) then warm_tier io s part
    else s.

Definition do_tiering (io : flush_io) (current : Z) (s : flush_state) : flush_state :=
  foldl (tier_one io current) s (get_all_partitions (fs_partitions s)).

(** ** Snapshots *)

Definition generation_name (now pid sequence : Z) : string :=
  ("gen-" +:+ to_string now +:+ "-" +:+ to_string pid +:+ "-" +:+ to_string sequence)%string.

Definition manifest (name : string) (partitions rows : Z) : string :=
  (kSnapshotManifestMagic +:+ " " +:+ name +:+ " " +:+ to_string partitions +:+ " " +:+ to_string rows +:+
   String (Ascii.ascii_of_nat 10) "")%string.

Definition current_contents (name : string) : string := (name +:+ String (Ascii.ascii_of_nat 10) "")%string.

Definition make_directory (io : flush_io) (p : path) (fs : filesystem) : bool * filesystem :=
  match fs !! p with
  | None => if fio_create io p then (true, <[p := Directory]> fs) else (false, fs)
  | Some _ => (false, fs)
  end.

(** The partitions in turn, with the counts so far; the first that cannot be
    written ends the walk. *)
Fixpoint snapshot_partitions (io : flush_io) (w : HDBWriter) (dir : path) (parts : list Partition) (counts : Z * Z) :
    disk_program (option (Z * Z)) :=
  match parts with
  | [] => mret (Some counts)
  | p :: parts =>
      act (λ fs, snapshot_partition_checked (fio_disk io) fs w p dir) ≫= λ r,
      if negb (sw_ok r) then mret None
      else if 0 <? rows_written r
      then if (SIZE_MAX - rows_written r <? counts.2) || (counts.1 =? SIZE_MAX)
           then mret None
           else snapshot_partitions io w dir parts (counts.1 + 1, counts.2 + rows_written r)
      else snapshot_partitions io w dir parts counts
  end.

(** A failed snapshot has drawn some numbers of the sequence, a published one all
    three. *)
Inductive snapshot_outcome : Type :=
  | SnapshotFailed (drawn : Z)
  | SnapshotPublished (name : string) (partitions rows : Z).

(** The manifest, then CURRENT; a generation that is not published is removed. *)
Definition discard (io : flush_io) (root : path) (name : string) (drawn : Z) : disk_program snapshot_outcome :=
  act (λ fs, (SnapshotFailed drawn, remove_all io (generation_path root name) fs)).

Definition publish_generation (io : flush_io) (sequence : Z) (root : path) (name : string) (partitions rows : Z) :
    disk_program snapshot_outcome :=
  write_text_atomically io (sequence + 1) (generation_path root name) "_COMPLETE" (manifest name partitions rows) ≫= λ ok,
  if negb ok then discard io root name 2
  else
    write_text_atomically io (sequence + 2) root "CURRENT" (current_contents name) ≫= λ ok,
    if negb ok then discard io root name 3
    else cleanup_old_generations io root name ≫= λ _, mret (SnapshotPublished name partitions rows).

(** What [do_snapshot] does to the disk. *)
Definition snapshot_program (io : flush_io) (now sequence : Z) (w : HDBWriter) (parts : list Partition) (root : path) :
    disk_program snapshot_outcome :=
  act (λ fs, mkdir_p (fio_disk io) fs (generations root)) ≫= λ made,
  if negb made then mret (SnapshotFailed 0)
  else
    let name := generation_name now (fio_pid io) sequence in
    act (make_directory io (generation_path root name)) ≫= λ made,
    if negb made then mret (SnapshotFailed 1)
    else
      snapshot_partitions io w (generation_path root name) parts (0, 0) ≫= λ counts,
      match counts with
      | None => discard io root name 1
      | Some (partitions, rows) => publish_generation io sequence root name partitions rows
      end.

Definition do_snapshot (io : flush_io) (now : Z) (s : flush_state) : Z * flush_state * list filesystem :=
  let f := fs_manager s in
  let sequence := generation_sequence_ f in
  if String.eqb (snapshot_path (fm_config f)) ""
  then (0, with_manager (set_snapshot None false sequence) s, [])
  else
    let '(outcome, states) := snapshot_program io now sequence (fs_writer s)
      (map_to_list (partitions_ (fs_partitions s))).*2 (below [] (snapshot_path (fm_config f))) (disk_ (fs_storage s)) in
    let st := mkStorage (final (disk_ (fs_storage s)) states) (objects_ (fs_storage s)) in
    match outcome with
    | SnapshotFailed drawn =>
        (0, mkFlushState (set_snapshot None false (u64 (sequence + drawn)) f) (fs_partitions s) (fs_writer s) st, states)
    | SnapshotPublished _ partitions _ =>
        (partitions, mkFlushState (set_snapshot (Some now) true (u64 (sequence + 3)) f) (fs_partitions s) (fs_writer s) st, states)
    end.

(** ** The background loop *)

(** [evict_before_] when the pipeline gave one; the program passes the state by
    reference. *)
Definition evict (evict_before : option (Z → flush_state → Z * flush_state)) (cutoff : Z) (s : flush_state) :
    Z * flush_state :=
  match evict_before with
  | Some callback => callback cutoff s
  | None => let '(n, m) := evict_older_than (fs_partitions s) cutoff in (Z.of_nat n, with_partitions (λ _, m) s)
  end.

(** One round, after the wait: seal, flush, evict, snapshot, tiers. *)
Definition flush_round (io : flush_io) (evict_before : option (Z → flush_state → Z * flush_state)) (now : Z)
    (s : flush_state) : flush_state :=
  let s := with_partitions (λ m, (seal_old_partitions m now (auto_seal_age_hours (fm_config (fs_manager s)))).2) s in
  let '(flushed, s) := do_flush_sealed io now s in
  let s := if 0 <? flushed then with_manager (count_trigger false) s else s in
  let ttl := ttl_ns_ (fs_manager s) in
  let s := if 0 <? ttl then (evict evict_before (i64 (now - ttl)) s).2 else s in
  let config := fm_config (fs_manager s) in
  let s :=
    if enable_auto_snapshot config && negb (String.eqb (snapshot_path config) "") &&
       (snapshot_interval_ms config * 1000000 <=? i64 (now - last_snapshot_ns_ (fs_manager s)))
    then (do_snapshot io now s).1.2 else s in
  if tiering_enabled (tiering (fm_config (fs_manager s))) then do_tiering io now s else s.

(** [while (running_)] for as long as it runs. *)
Definition flush_loop (io : flush_io) (evict_before : option (Z → flush_state → Z * flush_state)) (clock : list Z)
    (s : flush_state) : flush_state :=
  foldl (λ s now, if fm_running (fs_manager s) then flush_round io evict_before now s else s) s clock.

Definition start (s : flush_state) : flush_state := with_manager (set_fm_running true) s.
Definition stop (s : flush_state) : flush_state := with_manager (set_fm_running false) s.
End Manager.
