(* ===== verification/FlushFacts.v ===== *)
(** * What snapshots and flushes leave on disk

    Theorems on [FlushManager.v]: a snapshot is published at one point, whatever
    the program was stopped at; flushing a sealed partition ends with its columns
    on disk or with the partition sealed as before. *)

From S2P Require Import Prelude.
From S2P Require Import Text.
From S2P Require Import Bytes.
From S2P Require Import Arena.
From S2P Require Import ColumnStore.
From S2P Require Import PartitionManager.
From S2P Require Import Tokenizer.
From S2P Require Import Literals.
From S2P Require Import Hdb.
From S2P Require Import FlushManager.
From stdpp Require Import base gmap list strings fin_maps sorting.
From Stdlib Require Import ZArith Lia Ascii.

Open Scope Z_scope.

(** ** What is printed reads back *)

Lemma file_text_string s : file_text (bytes_of_string s) = chars s.
Proof. unfold file_text. by rewrite string_of_bytes_of_string. Qed.

Lemma length_decimal_digits fuel n acc (k : nat) : 0 <= n < 10 ^ Z.of_nat (S k) →
  (length (decimal_digits fuel n acc) <= S k + length acc)%nat.
Proof.
  revert n acc k. induction fuel as [|fuel IH]; intros n acc k Hn; cbn [decimal_digits]; [lia|].
  destruct (Z.eqb_spec (n / 10) 0); [simpl; lia|]. destruct k as [|k].
  { change (10 ^ Z.of_nat 1) with 10 in Hn. rewrite Z.div_small in n0 by done. done. }
  rewrite (Nat2Z.inj_succ (S k)), Z.pow_succ_r in Hn by lia.
  etrans; [apply (IH _ _ k)|simpl; lia]. split; [apply Z.div_pos; lia|]. apply Z.div_lt_upper_bound; lia.
Qed.

Lemma length_to_string z : - 2 ^ 64 < z < 2 ^ 64 → (length (chars (to_string z)) <= 21)%nat.
Proof.
  intros Hz. unfold to_string. rewrite chars_str. unfold unsigned_digits.
  assert (2 ^ 64 < 10 ^ Z.of_nat 20) as Hp by (change (10 ^ Z.of_nat 20) with 100000000000000000000; lia).
  destruct (Z.ltb_spec z 0); cbn [length]; [apply le_n_S|];
    (etrans; [apply (length_decimal_digits _ _ _ 19)|simpl; lia]); lia.
Qed.

(** A word without spaces, and what follows it. *)
Definition wordy (l : text) : Prop := l ≠ [] ∧ forallb (λ c, negb (isspace c)) l = true.

Lemma read_word_app w rest : wordy w → ends_run (λ c, negb (isspace c)) rest → read_word (w ++ rest) = Some (str w, rest).
Proof.
  intros [Hne Hw] Hr. unfold read_word, skip_whitespace. destruct w as [|c w]; [done|].
  assert (isspace c = false) as Hc by (cbn [forallb] in Hw; by apply andb_prop in Hw as [?%negb_true_iff _]).
  cbn [app span]. rewrite Hc. cbn [snd]. change (c :: w ++ rest) with ((c :: w) ++ rest). by rewrite span_app.
Qed.

Lemma skip_one_space l : match l with c :: _ => isspace c = false | [] => True end → skip_whitespace (" "%char :: l) = l.
Proof.
  intros Hl. unfold skip_whitespace. cbn [span]. change (isspace " "%char) with true. cbv iota.
  destruct l as [|c l]; [done|]. cbn [span]. by rewrite Hl.
Qed.

Lemma read_word_space w rest : wordy w → ends_run (λ c, negb (isspace c)) rest →
  read_word (" "%char :: w ++ rest) = Some (str w, rest).
Proof.
  intros Hw Hr. unfold read_word. rewrite skip_one_space.
  - destruct Hw as [Hne Hw]. rewrite span_app by done. by destruct w.
  - destruct Hw as [Hne Hw]. destruct w as [|c w]; [done|]. cbn [app forallb] in *. by apply andb_prop in Hw as [?%negb_true_iff _].
Qed.

Lemma digits_wordy l : forallb isdigit l = true → l ≠ [] → wordy l.
Proof.
  intros Hl Hne. split; [done|]. rewrite forallb_forall in Hl |- *. intros c Hc%Hl. by rewrite digit_not_space.
Qed.

Lemma to_string_chars z : 0 <= z → chars (to_string z) = unsigned_digits z.
Proof. intros Hz. unfold to_string. by rewrite (proj2 (Z.ltb_ge z 0)), chars_str by done. Qed.

Lemma read_uint64_space z rest : 0 <= z < 2 ^ 64 → ends_run isdigit rest →
  read_uint64 (" "%char :: chars (to_string z) ++ rest) = Some (z, rest).
Proof.
  intros Hz Hr. rewrite to_string_chars by lia. destruct (unsigned_digits_spec z) as (Hd & Hv & Hne); [lia|].
  unfold read_uint64. rewrite skip_one_space.
  - destruct (unsigned_digits z) as [|c l] eqn:Hu; [done|]. cbn [forallb] in Hd. apply andb_prop in Hd as [Hc Hl].
    destruct (digit_not_sign c Hc) as (_ & H1 & H2 & _). cbn [app read_sign]. rewrite H1, H2.
    change (c :: l ++ rest) with ((c :: l) ++ rest). rewrite span_app; [|by cbn [forallb]; rewrite Hc|done].
    rewrite Hv. by rewrite (proj2 (Z.leb_gt _ _)) by lia.
  - destruct (unsigned_digits z) as [|c l]; [done|]. cbn [forallb app] in *. apply andb_prop in Hd as [Hc _].
    by apply digit_not_space.
Qed.

(** ** Generation names *)

Definition fresh_name_ok (now pid sequence : Z) : Prop :=
  INT64_MIN <= now <= INT64_MAX ∧ 0 <= pid < 2 ^ 64 ∧ 0 <= sequence < 2 ^ 64.

Lemma name_chars_to_string z : forallb (λ c, isdigit c || Ascii.eqb c "-"%char) (chars (to_string z)) = true.
Proof.
  assert (∀ n, 0 <= n → forallb (λ c, isdigit c || Ascii.eqb c "-"%char) (unsigned_digits n) = true) as Hd.
  { intros n Hn. destruct (unsigned_digits_spec n Hn) as (Hd & _). rewrite forallb_forall in Hd |- *.
    intros c Hc%Hd. by rewrite Hc. }
  unfold to_string. rewrite chars_str. destruct (Z.ltb_spec z 0); cbn [forallb]; apply Hd; lia.
Qed.

Lemma generation_chars now pid sequence :
  chars (generation_name now pid sequence) =
  chars "gen-" ++ chars (to_string now) ++ "-"%char :: chars (to_string pid) ++ "-"%char :: chars (to_string sequence).
Proof. unfold generation_name. by rewrite !chars_append. Qed.

Lemma generation_name_valid now pid sequence : fresh_name_ok now pid sequence →
  is_generation_name (generation_name now pid sequence) = true.
Proof.
  intros (Hn & Hp & Hs). unfold is_generation_name. rewrite generation_chars. unfold INT64_MIN, INT64_MAX in Hn.
  pose proof (length_to_string now ltac:(lia)). pose proof (length_to_string pid ltac:(lia)).
  pose proof (length_to_string sequence ltac:(lia)).
  rewrite !length_app. cbn [length]. rewrite !length_app. cbn [length chars String.list_ascii_of_string].
  rewrite bool_decide_true by done. rewrite (proj2 (Nat.ltb_lt 4 _)), (proj2 (Nat.leb_le _ 160)) by lia. cbn [andb].
  cbn [app drop]. rewrite drop_0.
  rewrite !forallb_app. cbn [forallb]. rewrite !forallb_app. cbn [forallb]. by rewrite !name_chars_to_string.
Qed.

Lemma generation_wordy name : is_generation_name name = true → wordy (chars name) ∧ (length (chars name) <= 160)%nat.
Proof.
  unfold is_generation_name. intros [[[Hg%bool_decide_eq_true Hl%Nat.ltb_lt]%andb_prop Hu%Nat.leb_le]%andb_prop Hd]%andb_prop.
  split; [|done]. split; [intros Hn; rewrite Hn in Hl; simpl in Hl; lia|].
  rewrite <- (take_drop 4 (chars name)), forallb_app, Hg. apply andb_true_intro. split; [done|].
  rewrite forallb_forall in Hd |- *. intros c Hc. specialize (Hd c Hc). apply orb_prop in Hd as [Hd|Heq]; [by rewrite digit_not_space|by apply Ascii.eqb_eq in Heq as ->].
Qed.

Lemma read_current_contents name : is_generation_name name = true →
  read_current (file_text (bytes_of_string (current_contents name))) = Some name.
Proof.
  intros Hn. destruct (generation_wordy _ Hn) as [Hw _]. unfold read_current, current_contents. rewrite file_text_string, chars_append.
  rewrite read_word_app by done. cbn [mbind option_bind]. change (read_word _) with (@None (string * text)). cbv iota.
  by rewrite str_chars, Hn.
Qed.

Lemma read_manifest_contents name partitions rows :
  is_generation_name name = true → 0 <= partitions < 2 ^ 64 → 0 <= rows < 2 ^ 64 →
  read_manifest name (file_text (bytes_of_string (manifest name partitions rows))) = Some (partitions, rows).
Proof.
  intros Hn Hp Hr. destruct (generation_wordy _ Hn) as [Hw _]. unfold read_manifest, manifest. rewrite file_text_string.
  rewrite !chars_append. change (chars " ") with [" "%char]. cbn [app].
  rewrite read_word_app by (done || by split). cbn [mbind option_bind]. rewrite read_word_space by done. cbn [mbind option_bind].
  rewrite (read_uint64_space partitions) by done. cbn [mbind option_bind].
  rewrite (read_uint64_space rows) by done. cbn [mbind option_bind].
  change (read_word _) with (@None (string * text)). cbv iota. rewrite !str_chars, !String.eqb_refl. done.
Qed.

Lemma manifest_size name partitions rows : is_generation_name name = true → 0 <= partitions < 2 ^ 64 → 0 <= rows < 2 ^ 64 →
  (0 < length (bytes_of_string (manifest name partitions rows)) <= 512)%nat.
Proof.
  intros Hn Hp Hr. destruct (generation_wordy _ Hn) as [_ Hl]. unfold manifest, bytes_of_string. rewrite length_fmap.
  fold (chars (kSnapshotManifestMagic +:+ " " +:+ name +:+ " " +:+ to_string partitions +:+ " " +:+ to_string rows +:+
    String (Ascii.ascii_of_nat 10) "")%string). rewrite !chars_append, !length_app.
  pose proof (length_to_string partitions ltac:(lia)). pose proof (length_to_string rows ltac:(lia)).
  change (length (chars kSnapshotManifestMagic)) with 17%nat. change (length (chars " ")) with 1%nat.
  change (length (chars (String (Ascii.ascii_of_nat 10) ""))) with 1%nat. lia.
Qed.

Lemma current_size name : is_generation_name name = true →
  (0 < length (bytes_of_string (current_contents name)) <= 512)%nat.
Proof.
  intros Hn. destruct (generation_wordy _ Hn) as [_ Hl]. unfold current_contents, bytes_of_string. rewrite length_fmap.
  fold (chars (name +:+ String (Ascii.ascii_of_nat 10) "")%string). rewrite chars_append, length_app.
  change (length (chars (String (Ascii.ascii_of_nat 10) ""))) with 1%nat. lia.
Qed.

(** ** A published generation *)

Record published (fs : filesystem) (root : path) (name : string) (partitions rows : Z) : Prop := {
  pub_root : fs !! root = Some Directory;
  pub_current : ∃ bytes, fs !! current_path root = Some (File bytes) ∧ (0 < length bytes <= 512)%nat ∧
    read_current (file_text bytes) = Some name;
  pub_generation : fs !! generation_path root name = Some Directory;
  pub_complete : ∃ bytes, fs !! complete_path root name = Some (File bytes) ∧ (0 < length bytes <= 512)%nat ∧
    read_manifest name (file_text bytes) = Some (partitions, rows);
}.

Lemma size_checked (bytes : list Z) :
  (length bytes =? 0)%nat || (512 <? Z.of_nat (length bytes)) = false ↔ (0 < length bytes <= 512)%nat.
Proof. rewrite orb_false_iff, Nat.eqb_neq, Z.ltb_ge. lia. Qed.

Lemma resolve_published sees fs sp name partitions rows :
  (∀ q, sees q = true) → sp ≠ ""%string → published fs (below [] sp) name partitions rows →
  resolve_snapshot sees fs sp = SnapshotReady (generation_path (below [] sp) name) partitions rows.
Proof.
  intros Hsees Hsp [Hr (cur & Hc & Hcs%size_checked & Hcn) Hg (com & Hm & Hms%size_checked & Hmn)]. unfold resolve_snapshot.
  rewrite (proj2 (String.eqb_neq sp "") Hsp), !Hsees, Hr, Hc, Hcs, Hcn. unfold is_directory. by rewrite Hsees, Hg, Hsees, Hm, Hms, Hmn.
Qed.

Lemma published_resolved sees fs sp g partitions rows :
  resolve_snapshot sees fs sp = SnapshotReady g partitions rows →
  sp ≠ ""%string ∧ ∃ name, g = generation_path (below [] sp) name ∧ published fs (below [] sp) name partitions rows.
Proof.
  unfold resolve_snapshot. destruct (String.eqb_spec sp "") as [|Hsp]; [done|]. intros H. split; [done|].
  destruct (negb (sees _)); [done|]. destruct (fs !! below [] sp) as [[| |]|] eqn:Hr; try done.
  destruct (negb (sees _)); [done|]. destruct (fs !! current_path _) as [[|cur|]|] eqn:Hc; try done; [|by destruct (forallb _ _)].
  destruct (_ || _) eqn:Hcs in H; [done|]. apply size_checked in Hcs. destruct (read_current _) as [name|] eqn:Hn; [|done].
  destruct (negb _) eqn:Hg in H; [done|]. apply negb_false_iff, andb_prop in Hg as [_ Hg].
  destruct (sees (complete_path _ _)); [|done]. destruct (fs !! complete_path _ _) as [[|com|]|] eqn:Hm; try done.
  destruct (_ || _) eqn:Hms in H; [done|]. apply size_checked in Hms. destruct (read_manifest _ _) as [[p r]|] eqn:Hmn; [|done].
  simplify_eq. exists name. split; [done|]. split; [done|by exists cur| |by exists com].
  unfold is_directory in Hg. by destruct (fs !! generation_path _ _) as [[| |]|].
Qed.

(** The paths that decide which generation is current. *)
Definition deciding (root : path) (name : string) : list path :=
  [root; current_path root; generation_path root name; complete_path root name].

Lemma published_frame fs fs' root name partitions rows :
  (∀ q n, q ∈ deciding root name → fs !! q = Some n → fs' !! q = Some n) →
  published fs root name partitions rows → published fs' root name partitions rows.
Proof.
  intros H [Hr (cur & Hc & Hcs) Hg (com & Hm & Hms)]. unfold deciding in H. split.
  - apply H; [set_solver|done].
  - exists cur. split; [apply H; [set_solver|done]|done].
  - apply H; [set_solver|done].
  - exists com. split; [apply H; [set_solver|done]|done].
Qed.

(** ** Changes that decide nothing *)

(** Everything stays but what is below a directory, and one file. *)
Definition keeps (dir temp : path) (fs s : filesystem) : Prop :=
  ∀ q n, fs !! q = Some n → ¬ dir `prefix_of` q → q ≠ temp → s !! q = Some n.

#[export] Instance keeps_refl dir temp : Reflexive (keeps dir temp).
Proof. by intros fs q n. Qed.
#[export] Instance keeps_trans dir temp : Transitive (keeps dir temp).
Proof. intros a b c H H' q n Hq Hd Ht. apply H'; [by apply H|done..]. Qed.

Lemma keeps_insert_below dir temp fs q n : dir `prefix_of` q → keeps dir temp fs (<[q := n]> fs).
Proof. intros Hq r n' Hr Hd _. rewrite lookup_insert_ne; [done|]. by intros ->. Qed.

Lemma mkdir_grows io fs p ok fs' : mkdir_p io fs p = (ok, fs') → fs ⊆ fs'.
Proof.
  unfold mkdir_p. destruct (forallb _ _) eqn:Hall; cbn [andb].
  - destruct (io_made io p); intros [= <- <-]; [|done]. rewrite forallb_forall in Hall.
    assert (∀ q, q ∈ prefixes p → match fs !! q with None | Some Directory => true | _ => false end = true) as Hq
      by (intros q Hin; by apply Hall, list_elem_of_In). clear Hall.
    induction (prefixes p) as [|q qs IH]; simpl; [done|].
    apply map_subseteq_spec. intros r n Hr. destruct (decide (q = r)) as [->|Hne].
    + rewrite lookup_insert_eq. specialize (Hq r ltac:(by left)). rewrite Hr in Hq. by destruct n.
    + rewrite lookup_insert_ne by done. eapply lookup_weaken; [done|]. apply IH. intros q' Hq'. apply Hq. by right.
  - by intros [= <- <-].
Qed.

Lemma keeps_grow dir temp fs fs' : fs ⊆ fs' → keeps dir temp fs fs'.
Proof. intros H q n Hq _ _. by eapply lookup_weaken. Qed.

Lemma keeps_remove dir temp io fs : keeps dir temp fs (remove_all io dir fs).
Proof. intros q n Hq Hd _. unfold remove_all. apply map_lookup_filter_Some. split; [done|]. simpl. tauto. Qed.

(** Every state of a program stays in a set of states. *)
Definition stays {A : Type} (P : filesystem → Prop) (m : disk_program A) : Prop := ∀ fs, P fs → Forall P (m fs).2.

Lemma final_in (P : filesystem → Prop) fs states : P fs → Forall P states → P (final fs states).
Proof.
  intros Hf Hs. unfold final. destruct (last states) as [s|] eqn:Hl; [|done]. simpl. rewrite Forall_forall in Hs.
  apply Hs. apply last_Some in Hl as [l' ->]. set_solver.
Qed.

Lemma final_app fs s1 s2 : final fs (s1 ++ s2) = final (final fs s1) s2.
Proof. unfold final. rewrite last_app. by destruct (last s2). Qed.

Lemma stays_bind {A B : Type} P (m : disk_program A) (f : A → disk_program B) :
  stays P m → (∀ a, stays P (f a)) → stays P (m ≫= f).
Proof.
  intros Hm Hf fs Hfs. unfold mbind, disk_bind. specialize (Hm fs Hfs). destruct (m fs) as [a st] eqn:Hmf.
  specialize (Hf a (final fs st) (final_in _ _ _ Hfs Hm)). destruct (f a _) as [b st']. simpl in *. by apply Forall_app.
Qed.

Lemma stays_ret {A : Type} (P : filesystem → Prop) (a : A) : stays P (mret (M := disk_program) a).
Proof. intros fs _. by constructor. Qed.

Lemma stays_act {A : Type} (P : filesystem → Prop) (f : filesystem → A * filesystem) :
  (∀ fs, P fs → P (f fs).2) → stays P (act f).
Proof. intros Hf fs Hfs. unfold act. specialize (Hf fs Hfs). destruct (f fs) as [a fs']. by repeat constructor. Qed.

Section Facts.
Context {L : Lz4} {HL : Lz4Laws L}.

Lemma write_columns_below io w dir m cols table fs total r fs' q :
  write_columns io fs w dir m cols table total = (r, fs') → ¬ dir `prefix_of` q → fs' !! q = fs !! q.
Proof.
  intros H Hq. apply (write_columns_frame _ _ _ _ _ _ _ _ _ _ H). intros (c & -> & _)%list_elem_of_fmap.
  apply Hq. unfold column_file, below. by apply prefix_app_r.
Qed.

Lemma partition_dir_below base_path table symbol hour : base_path `prefix_of` partition_dir base_path table symbol hour.
Proof. unfold partition_dir. by apply prefix_app_r. Qed.

(** A partition's snapshot changes nothing outside its directory. *)
Lemma snapshot_partition_keeps io fs w p dir temp : keeps dir temp fs (snapshot_partition_checked io fs w p dir).2.
Proof.
  unfold snapshot_partition_checked. destruct (_ || _); [done|]. destruct (_ =? 0); [done|].
  destruct (mkdir_p _ _ _) as [made fs1] eqn:Hmk. pose proof (keeps_grow dir temp _ _ (mkdir_grows _ _ _ _ _ Hmk)) as Hk.
  destruct made; cbn [negb]; [|done].
  destruct (write_columns _ _ _ _ _ _ _ _) as [r fs2] eqn:Hw.
  assert (keeps dir temp fs1 fs2) as Hk2.
  { intros q n Hq Hd _. rewrite (write_columns_below _ _ _ _ _ _ _ _ _ _ q Hw); [done|].
    intros Hpre. apply Hd. etrans; [|done]. apply partition_dir_below. }
  destruct r; by etrans.
Qed.

Lemma snapshot_partitions_stays (io : flush_io) (w : HDBWriter) (dir : path) (parts : list Partition) (counts : Z * Z) (P : filesystem → Prop) :
  (∀ fs p, P fs → P (snapshot_partition_checked (fio_disk io) fs w p dir).2) →
  stays P (snapshot_partitions io w dir parts counts).
Proof.
  intros HP. revert counts. induction parts as [|p parts IH]; intros counts; cbn [snapshot_partitions]; [apply stays_ret|].
  apply stays_bind; [apply stays_act; intros fs; apply HP|]. intros r. destruct (negb _); [apply stays_ret|].
  destruct (0 <? _); [|apply IH]. destruct (_ || _); [apply stays_ret|apply IH].
Qed.

Lemma snapshot_partitions_counts io w dir parts counts fs p r states :
  0 <= counts.1 <= SIZE_MAX → 0 <= counts.2 <= SIZE_MAX →
  snapshot_partitions io w dir parts counts fs = (Some (p, r), states) → 0 <= p <= SIZE_MAX ∧ 0 <= r <= SIZE_MAX.
Proof.
  revert counts fs states. induction parts as [|q parts IH]; intros counts fs states H1 H2 H; cbn [snapshot_partitions] in H.
  { injection H as -> _. done. }
  unfold mbind, disk_bind, act in H. destruct (snapshot_partition_checked _ _ _ _ _) as [res fs'].
  destruct (negb _); [done|]. destruct (Z.ltb_spec 0 (rows_written res)).
  - destruct (_ || _) eqn:Hov in H; [done|]. apply orb_false_elim in Hov as [?%Z.ltb_ge ?%Z.eqb_neq].
    destruct (snapshot_partitions io w dir parts _ _) as [o st] eqn:Hs in H. simplify_eq.
    eapply IH; [| |done]; simpl; lia.
  - destruct (snapshot_partitions io w dir parts _ _) as [o st] eqn:Hs in H. simplify_eq. by eapply IH.
Qed.

(** ** Where a snapshot is published *)

(** The temporary file of CURRENT. *)
Definition current_temp (io : flush_io) (root : path) (sequence : Z) : path := root ++ [temporary io "CURRENT" sequence].

Lemma child_ne (p : path) a b : a ≠ b → p ++ [a] ≠ p ++ [b].
Proof. intros Hne H%app_inv_head. by simplify_eq. Qed.

Lemma not_below_self (p : path) a : ¬ p ++ [a] `prefix_of` p.
Proof. intros [r H]. apply (f_equal length) in H. rewrite !length_app in H. simpl in H. lia. Qed.

Lemma generation_not_below root name name' : name ≠ name' → ¬ generation_path root name `prefix_of` generation_path root name'.
Proof.
  intros Hne [r H]. unfold generation_path in H. rewrite <- app_assoc in H. apply app_inv_head in H. by destruct r; simplify_eq/=.
Qed.

Lemma temp_length io root sequence : length (current_temp io root sequence) = S (length root).
Proof. unfold current_temp. rewrite length_app. simpl. lia. Qed.

Lemma temporary_ne io name sequence : temporary io name sequence ≠ name.
Proof.
  intros H. apply (f_equal chars) in H. unfold temporary in H. rewrite !chars_append in H. apply (f_equal length) in H.
  rewrite !length_app in H. change (length (chars ".tmp.")) with 5%nat in H. lia.
Qed.

(** The paths that decide for another generation are neither below the new one
    nor the temporary file. *)
Lemma deciding_outside io root name name' sequence q : name ≠ name' → q ∈ deciding root name' →
  ¬ generation_path root name `prefix_of` q ∧ q ≠ current_temp io root sequence.
Proof.
  intros Hne Hq. unfold deciding in Hq. rewrite !elem_of_cons in Hq.
  assert (∀ p, (length p <= length root + 1)%nat → ¬ generation_path root name `prefix_of` p) as Hshort.
  { intros p Hl Hp%prefix_length. unfold generation_path, generations in Hp. rewrite !length_app in Hp. simpl in Hp. lia. }
  destruct Hq as [->|[->|[->|[->|[]%not_elem_of_nil]]]].
  - split; [apply Hshort; lia|]. intros H. apply (f_equal length) in H. rewrite temp_length in H. lia.
  - split; [apply Hshort; unfold current_path; rewrite length_app; simpl; lia|].
    apply child_ne. intros H. by eapply temporary_ne.
  - split; [by apply generation_not_below|]. intros H. apply (f_equal length) in H. rewrite temp_length in H.
    unfold generation_path, generations in H. rewrite !length_app in H. simpl in H. lia.
  - split.
    + intros [r H]. unfold complete_path in H. apply app_inj_1 in H as [H _].
      * apply (generation_not_below root name name' Hne). by rewrite H.
      * unfold generation_path, generations. by rewrite !length_app.
    + intros H. apply (f_equal length) in H. rewrite temp_length in H.
      unfold complete_path, generation_path, generations in H. rewrite !length_app in H. simpl in H. lia.
Qed.

(** A generation that is not current can be removed. *)
Lemma published_remove io root name other partitions rows fs : other ≠ name →
  published fs root name partitions rows → published (remove_all io (generation_path root other) fs) root name partitions rows.
Proof.
  intros Hne. apply published_frame. intros q n Hq Hn. unfold remove_all. apply map_lookup_filter_Some. split; [done|].
  simpl. intros [Hpre _]. by destruct (deciding_outside io root other name 0 q Hne Hq).
Qed.

Lemma cleanup_stays io root name partitions rows :
  stays (λ fs, published fs root name partitions rows) (cleanup_old_generations io root name).
Proof.
  intros fs Hfs. unfold cleanup_old_generations. destruct (fio_listed io _); [|by constructor].
  assert (Forall (λ other, other ≠ name) (expired_generations name (generation_names fs root))) as Hothers.
  { unfold expired_generations. apply Forall_drop. apply Forall_forall. by intros x [Hx _]%list_elem_of_filter. }
  revert Hothers. generalize (expired_generations name (generation_names fs root)). intros others Hothers.
  revert fs Hfs. induction Hothers as [|other others Ho _ IH]; intros fs Hfs; cbn [remove_generations]; [by constructor|].
  apply (stays_bind (λ fs, published fs root name partitions rows)); [|done|done].
  apply stays_act. intros fs' H. by apply published_remove.
Qed.

Record snapshot_states (io : flush_io) (root : path) (name : string) (temp : path) (fs : filesystem) (outcome : snapshot_outcome)
    (states : list filesystem) : Prop := {
  ss_state : ∀ s, s ∈ states → keeps (generation_path root name) temp fs s ∨
    ∃ p r, outcome = SnapshotPublished name p r ∧ published s root name p r;
  ss_final : match outcome with
    | SnapshotFailed _ => keeps (generation_path root name) temp fs (final fs states)
    | SnapshotPublished name' p r => name' = name ∧ published (final fs states) root name p r
    end;
  ss_exists : is_Some (fs !! generation_path root name) → (∃ drawn, outcome = SnapshotFailed drawn) ∧ Forall (λ s, fs ⊆ s) states;
}.

(** The steps up to CURRENT leave alone what decides; [states] are those so far. *)
Lemma keeping_states io root name temp fs drawn states :
  Forall (keeps (generation_path root name) temp fs) states →
  (is_Some (fs !! generation_path root name) → Forall (λ s, fs ⊆ s) states) →
  snapshot_states io root name temp fs (SnapshotFailed drawn) states.
Proof.
  intros Hs He. split; [| |by eauto].
  - intros s Hin. left. rewrite Forall_forall in Hs. by apply Hs.
  - by apply final_in.
Qed.

Lemma keeps_text io sequence dir (name : string) temp contents fs gdir :
  (gdir `prefix_of` dir ∨ temp = dir ++ [temporary io name sequence]) →
  (gdir `prefix_of` dir ∨ (write_text_atomically io sequence dir name contents fs).1 = false) →
  Forall (keeps gdir temp fs) (write_text_atomically io sequence dir name contents fs).2.
Proof.
  intros Htemp Hok. set (tp := dir ++ [temporary io name sequence]) in *.
  assert (∀ n, keeps gdir temp fs (<[tp := n]> fs)) as H1.
  { intros n q m Hq Hd Ht. rewrite lookup_insert_ne; [done|]. intros <-. destruct Htemp as [Hpre|Heq].
    - apply Hd. subst tp. by apply prefix_app_r.
    - by apply Ht. }
  assert (∀ n, keeps gdir temp fs (delete tp (<[tp := n]> fs))) as H2.
  { intros n q m Hq Hd Ht. rewrite lookup_delete_ne; [by apply H1|]. intros <-. destruct Htemp as [Hpre|Heq].
    - apply Hd. subst tp. by apply prefix_app_r.
    - by apply Ht. }
  unfold write_text_atomically in *. fold tp in Hok |- *. destruct (_ || _); [by constructor|].
  destruct (_ && _); repeat constructor; try done.
  destruct Hok as [Hpre|]; [|done]. etrans; [apply H2|]. apply keeps_insert_below. by apply prefix_app_r.
Qed.

(** A text that was written is there. *)
Lemma text_written io sequence dir name contents fs : (write_text_atomically io sequence dir name contents fs).1 = true →
  let fs' := final fs (write_text_atomically io sequence dir name contents fs).2 in
  fs' !! (dir ++ [name]) = Some (File (bytes_of_string contents)) ∧
  ∀ q, q ≠ dir ++ [name] → q ≠ dir ++ [temporary io name sequence] → fs' !! q = fs !! q.
Proof.
  unfold write_text_atomically. destruct (_ || _); [done|]. destruct (_ && _); [|done]. intros _. cbv zeta.
  unfold final. simpl. split; [by rewrite lookup_insert_eq|]. intros q H1 H2.
  by rewrite lookup_insert_ne, lookup_delete_ne, lookup_insert_ne by done.
Qed.

(** The states of a text that is written: the temporary file, then the text. *)
Lemma text_states io sequence dir name contents fs : (write_text_atomically io sequence dir name contents fs).1 = true →
  ∃ s fs', (write_text_atomically io sequence dir name contents fs).2 = [s; fs'] ∧
    (∀ q, q ≠ dir ++ [temporary io name sequence] → s !! q = fs !! q).
Proof.
  unfold write_text_atomically. destruct (_ || _); [done|]. destruct (_ && _); [|done]. intros _. eexists _, _. split; [done|].
  intros q Hq. by rewrite lookup_insert_ne.
Qed.

Lemma snapshot_partition_prefix io fs w p dir q n : q `prefix_of` dir → fs !! q = Some n →
  (snapshot_partition_checked io fs w p dir).2 !! q = Some n.
Proof.
  intros Hpre Hq. unfold snapshot_partition_checked. destruct (_ || _); [done|]. destruct (_ =? 0); [done|].
  destruct (mkdir_p _ _ _) as [made fs1] eqn:Hmk. pose proof (lookup_weaken _ _ _ _ Hq (mkdir_grows _ _ _ _ _ Hmk)) as Hq1.
  destruct made; cbn [negb]; [|done]. destruct (write_columns _ _ _ _ _ _ _ _) as [r fs2] eqn:Hw.
  assert (fs2 !! q = Some n) as Hq2; [|by destruct r].
  rewrite (write_columns_frame _ _ _ _ _ _ _ _ _ _ Hw); [done|]. intros (c & Hc & _)%list_elem_of_fmap.
  eapply column_file_long; [|done]. etrans; [done|]. apply partition_dir_below.
Qed.

(** Between the creation of the generation and its publication. *)
Record writing (root : path) (name : string) (temp : path) (fs s : filesystem) : Prop := {
  wr_keeps : keeps (generation_path root name) temp fs s;
  wr_root : s !! root = Some Directory;
  wr_generation : s !! generation_path root name = Some Directory;
}.

Lemma root_outside io root name sequence : ¬ generation_path root name `prefix_of` root ∧ root ≠ current_temp io root sequence.
Proof.
  split.
  - intros Hp%prefix_length. unfold generation_path, generations in Hp. rewrite !length_app in Hp. simpl in Hp. lia.
  - intros H. apply (f_equal length) in H. rewrite temp_length in H. lia.
Qed.

Lemma writing_partitions io w root name sequence parts fs :
  stays (writing root name (current_temp io root sequence) fs) (snapshot_partitions io w (generation_path root name) parts (0, 0)).
Proof.
  apply snapshot_partitions_stays. intros s p [Hk Hr Hg]. destruct (root_outside io root name sequence) as [Ho1 Ho2]. split.
  - etrans; [done|]. apply snapshot_partition_keeps.
  - by eapply snapshot_partition_keeps.
  - by apply snapshot_partition_prefix.
Qed.

Lemma writing_discard io root name temp fs s : writing root name temp fs s →
  keeps (generation_path root name) temp fs (remove_all io (generation_path root name) s).
Proof. intros [Hk _ _]. etrans; [done|]. apply keeps_remove. Qed.

(** The manifest, written while the generation is. *)
Lemma writing_complete io root name sequence fs s contents : writing root name (current_temp io root (sequence + 2)) fs s →
  let '(ok, states) := write_text_atomically io (sequence + 1) (generation_path root name) "_COMPLETE" contents s in
  Forall (keeps (generation_path root name) (current_temp io root (sequence + 2)) fs) states ∧
  writing root name (current_temp io root (sequence + 2)) fs (final s states) ∧
  (ok = true → final s states !! complete_path root name = Some (File (bytes_of_string contents))).
Proof.
  intros [Hk Hr Hg]. pose proof (text_written io (sequence + 1) (generation_path root name) "_COMPLETE" contents s) as Hw.
  assert (Forall (keeps (generation_path root name) (current_temp io root (sequence + 2)) s)
    (write_text_atomically io (sequence + 1) (generation_path root name) "_COMPLETE" contents s).2) as Hs
    by (apply keeps_text; by left).
  assert (∀ q n, q `prefix_of` generation_path root name → s !! q = Some n →
    final s (write_text_atomically io (sequence + 1) (generation_path root name) "_COMPLETE" contents s).2 !! q = Some n) as Hpre.
  { intros q n Hq Hn. unfold write_text_atomically. apply prefix_length in Hq. destruct (_ || _); [done|].
    assert (∀ x, generation_path root name ++ [x] ≠ q) as Hx by (intros x <-; rewrite length_app in Hq; simpl in Hq; lia).
    destruct (_ && _); unfold final; simpl; by rewrite ?lookup_insert_ne, lookup_delete_ne, lookup_insert_ne. }
  destruct (write_text_atomically _ _ _ _ _ _) as [ok states]. cbn [fst snd] in *. split_and!.
  - eapply Forall_impl; [done|]. intros x Hx. by etrans.
  - split; [etrans; [done|]; by apply final_in| |].
    + apply Hpre; [|done]. unfold generation_path, generations. rewrite <- app_assoc. by apply prefix_app_r.
    + by apply Hpre.
  - intros ->. by destruct (Hw eq_refl).
Qed.

(** CURRENT, once the manifest is there: the rename publishes. *)
Lemma writing_current io root name sequence fs s (p r : Z) :
  is_generation_name name = true → 0 <= p < 2 ^ 64 → 0 <= r < 2 ^ 64 →
  writing root name (current_temp io root sequence) fs s →
  s !! complete_path root name = Some (File (bytes_of_string (manifest name p r))) →
  let '(ok, states) := write_text_atomically io sequence root "CURRENT" (current_contents name) s in
  if ok : bool then ∃ s' fs', states = [s'; fs'] ∧ keeps (generation_path root name) (current_temp io root sequence) fs s' ∧
                  published fs' root name p r
  else Forall (keeps (generation_path root name) (current_temp io root sequence) fs) states ∧
       writing root name (current_temp io root sequence) fs (final s states).
Proof.
  intros Hn Hp Hr Hwr Hm. set (temp := current_temp io root sequence) in *.
  pose proof (text_written io sequence root "CURRENT" (current_contents name) s) as Hw.
  pose proof (text_states io sequence root "CURRENT" (current_contents name) s) as Hst.
  pose proof (keeps_text io sequence root "CURRENT" temp (current_contents name) s (generation_path root name) (or_intror eq_refl)) as Hk.
  assert (∀ q, q ∈ [root; generation_path root name; complete_path root name] → q ≠ current_path root ∧ q ≠ temp) as Hne.
  { assert (∀ q, length q ≠ S (length root) → q ≠ current_path root ∧ q ≠ temp) as Hlen.
    { intros q Hq. split; intros ->; apply Hq; unfold temp; rewrite ?temp_length; unfold current_path; rewrite ?length_app; simpl; lia. }
    intros q Hq. apply Hlen. unfold complete_path, generation_path, generations in Hq. rewrite !elem_of_cons in Hq.
    destruct Hq as [->|[->|[->|[]%not_elem_of_nil]]]; rewrite ?length_app; simpl; lia. }
  destruct Hwr as [Hkeep Hroot Hgen]. destruct (write_text_atomically _ _ _ _ _ _) as [ok states] eqn:Hrun. cbn [fst snd] in *.
  destruct ok.
  - destruct (Hst eq_refl) as (s' & fs' & -> & Hs'). destruct (Hw eq_refl) as [Hc Hoth]. unfold final in Hc, Hoth. simpl in Hc, Hoth.
    exists s', fs'. split_and!; [done| |].
    + etrans; [done|]. intros q n Hq _ Ht. by rewrite Hs'.
    + split.
      * rewrite Hoth; [done|apply Hne; set_solver..].
      * exists (bytes_of_string (current_contents name)). split; [done|]. split; [by apply current_size|by apply read_current_contents].
      * rewrite Hoth; [done|apply Hne; set_solver..].
      * exists (bytes_of_string (manifest name p r)). split; [by rewrite Hoth; [|apply Hne; set_solver..]|].
        split; [by apply manifest_size|by apply read_manifest_contents].
  - specialize (Hk (or_intror eq_refl)).
    assert (∀ q, q ≠ temp → final s states !! q = s !! q) as Hfin.
    { intros q Hq. unfold write_text_atomically in Hrun. destruct (_ || _); [by simplify_eq|]. destruct (_ && _); [done|].
      simplify_eq. unfold final. simpl. by rewrite lookup_delete_ne, lookup_insert_ne. }
    split.
    + eapply Forall_impl; [done|]. intros x Hx. by etrans.
    + split; [etrans; [done|]; by apply final_in| |]; (rewrite Hfin; [done|apply Hne; set_solver]).
Qed.

Lemma run_bind {A B : Type} (m : disk_program A) (f : A → disk_program B) (fs : filesystem) :
  (m ≫= f) fs = let '(a, st) := m fs in let '(b, st') := f a (final fs st) in (b, st ++ st').
Proof. done. Qed.

(** From the manifest on: either everything so far is undone, or the generation is
    published from some state on. *)
Lemma publish_generation_states io root name sequence fs fs3 p r outcome st :
  is_generation_name name = true → 0 <= p < 2 ^ 64 → 0 <= r < 2 ^ 64 →
  let temp := current_temp io root (sequence + 2) in
  writing root name temp fs fs3 → publish_generation io sequence root name p r fs3 = (outcome, st) →
  (∃ drawn, outcome = SnapshotFailed drawn) ∧ Forall (keeps (generation_path root name) temp fs) st ∨
  outcome = SnapshotPublished name p r ∧ published (final fs3 st) root name p r ∧
  Forall (λ s, keeps (generation_path root name) temp fs s ∨ published s root name p r) st.
Proof.
  intros Hname Hp Hr temp Hw3 H. unfold publish_generation in H. rewrite run_bind in H.
  pose proof (writing_complete io root name sequence fs fs3 (manifest name p r) Hw3) as H4.
  destruct (write_text_atomically io (sequence + 1) _ _ _ _) as [ok4 st4]. destruct H4 as (Hk4 & Hw4 & Hm4).
  destruct ok4; cbn [negb] in H.
  2:{ unfold discard, act in H. injection H as <- <-. left. split; [by eexists|].
      rewrite Forall_app, Forall_singleton. split; [done|]. by apply writing_discard. }
  rewrite run_bind in H.
  pose proof (writing_current io root name (sequence + 2) fs (final fs3 st4) p r Hname Hp Hr Hw4 (Hm4 eq_refl)) as H5.
  destruct (write_text_atomically io (sequence + 2) root _ _ _) as [ok5 st5]. destruct ok5; cbn [negb] in H.
  2:{ destruct H5 as [Hk5 Hw5]. unfold discard, act in H. injection H as <- <-. left. split; [by eexists|].
      rewrite !Forall_app, Forall_singleton. split_and!; try done. by apply writing_discard. }
  destruct H5 as (s' & fs' & -> & Hs' & Hpub). rewrite run_bind in H. change (final (final fs3 st4) [s'; fs']) with fs' in H.
  pose proof (cleanup_stays io root name p r fs' Hpub) as H6.
  destruct (cleanup_old_generations io root name fs') as [[] st6]. cbn [snd] in H6. injection H as <- <-. right. split; [done|].
  split.
  - rewrite app_nil_r. replace (st4 ++ s' :: fs' :: st6) with ((st4 ++ [s']) ++ [fs'] ++ st6) by by rewrite <- app_assoc.
    rewrite !final_app. by apply (final_in (λ s, published s root name p r)).
  - rewrite app_nil_r, Forall_app, !Forall_cons.
    split_and!; [|by left|by right|]; (eapply Forall_impl; [done|]; by auto).
Qed.

Lemma snapshot_program_states io now sequence w parts root fs outcome states :
  root ≠ [] → fresh_name_ok now (fio_pid io) sequence →
  snapshot_program io now sequence w parts root fs = (outcome, states) →
  snapshot_states io root (generation_name now (fio_pid io) sequence) (current_temp io root (sequence + 2)) fs outcome states.
Proof.
  intros Hroot Hname%generation_name_valid H. unfold snapshot_program in H. rewrite run_bind in H. unfold act at 1 in H.
  set (name := generation_name now (fio_pid io) sequence) in *. set (temp := current_temp io root (sequence + 2)).
  destruct (mkdir_p _ _ _) as [made fs1] eqn:Hmk. pose proof (mkdir_grows _ _ _ _ _ Hmk) as Hgrow.
  pose proof (keeps_grow (generation_path root name) temp _ _ Hgrow) as Hk1. destruct made; cbn [negb] in H.
  2:{ injection H as <- <-. apply keeping_states; [by repeat constructor|by repeat constructor]. }
  change (final fs [fs1]) with fs1 in H. rewrite run_bind in H. unfold act at 1, make_directory in H.
  assert (fs1 !! root = Some Directory) as Hr1.
  { eapply mkdir_makes; [done|]. apply prefix_of_path; [done|]. by apply prefix_app_r. }
  destruct (fs1 !! generation_path root name) as [n|] eqn:Hg1.
  { cbn [negb] in H. injection H as <- <-. apply keeping_states; [by repeat constructor|by repeat constructor]. }
  assert (fs !! generation_path root name = None) as Hg0.
  { destruct (fs !! generation_path root name) eqn:Hg0; [|done]. by rewrite (lookup_weaken _ _ _ _ Hg0 Hgrow) in Hg1. }
  assert (is_Some (fs !! generation_path root name) → Forall (λ s, fs ⊆ s) states) as Hnone by (rewrite Hg0; by intros []).
  destruct (fio_create io _); cbn [negb] in H.
  2:{ injection H as <- <-. apply keeping_states; [by repeat constructor|done]. }
  set (fs2 := <[generation_path root name := Directory]> fs1) in H.
  assert (keeps (generation_path root name) temp fs fs2) as Hk2 by (etrans; [done|by apply keeps_insert_below]).
  destruct (root_outside io root name (sequence + 2)) as [Ho1 Ho2].
  assert (writing root name temp fs fs2) as Hw2.
  { split; [done| |by apply lookup_insert_eq]. unfold fs2. rewrite lookup_insert_ne; [done|].
    intros Heq. apply Ho1. by rewrite Heq. }
  change (final fs1 [fs2]) with fs2 in H. rewrite run_bind in H.
  pose proof (writing_partitions io w root name (sequence + 2) parts fs fs2 Hw2) as Hst3. fold temp in Hst3.
  destruct (snapshot_partitions io w (generation_path root name) parts (0, 0) fs2) as [counts st3] eqn:H3. cbn [snd] in Hst3.
  pose proof (final_in _ _ _ Hw2 Hst3) as Hw3.
  assert (Forall (keeps (generation_path root name) temp fs) st3) as Hk3 by (eapply Forall_impl; [done|]; by intros x []).
  destruct counts as [[p r]|].
  2:{ unfold discard, act in H. injection H as <- <-. apply keeping_states; [|done].
      rewrite !Forall_cons, Forall_app, Forall_singleton. split_and!; try done. by apply writing_discard. }
  destruct (snapshot_partitions_counts _ _ _ _ (0, 0) _ _ _ _ ltac:(unfold SIZE_MAX; simpl; lia) ltac:(unfold SIZE_MAX; simpl; lia) H3) as [Hp Hr].
  destruct (publish_generation _ _ _ _ _ _ _) as [o st4] eqn:H4. injection H as -> <-.
  apply (publish_generation_states _ _ _ _ fs) in H4 as [([drawn ->] & Hk4)|(-> & Hpub & Hst4)];
    try (done || (unfold SIZE_MAX in *; lia)).
  - apply keeping_states; [|done]. by rewrite !Forall_cons, Forall_app.
  - split; [|split; [done|]|].
    + intros s. rewrite !elem_of_cons, elem_of_app. rewrite Forall_forall in Hk3, Hst4.
      intros [->|[->|[Hs|Hs]]]; auto. destruct (Hst4 s Hs); [by auto|right; eauto].
    + replace (fs1 :: fs2 :: st3 ++ st4) with ([fs1; fs2] ++ st3 ++ st4) by done. by rewrite !final_app.
    + rewrite Hg0. by intros [].
Qed.

(** Two disks that differ below a directory only. *)
Definition same_outside (dir : path) (s s' : filesystem) : Prop := ∀ q, ¬ dir `prefix_of` q → s' !! q = s !! q.

(** ** Flushing what is sealed *)

(** The columns of a partition, on disk. *)
Definition on_disk (fs : filesystem) (base_path : path) (p : Partition) : Prop :=
  ∀ i c, columns_ p !! i = Some c →
    holds_column fs (column_file_path base_path (table_id (key_ p)) (symbol_id (key_ p)) (hour_epoch (key_ p)) (name_ c))
      (table_id (key_ p)) (memory_ p) c.

Definition key_ranges (k : PartitionKey) : Prop :=
  0 <= table_id k < 2 ^ 16 ∧ INT64_MIN <= symbol_id k <= INT64_MAX ∧ INT64_MIN <= hour_epoch k <= INT64_MAX.

(** A partition that can be written: distinct column names, and a key in range. *)
Record flushable (p : Partition) : Prop := {
  fl_ok : partition_ok p;
  fl_names : NoDup (name_ <$> columns_ p);
  fl_key : key_ranges (key_ p);
}.

Definition own_file (base_path : path) (p : Partition) (q : path) : Prop :=
  ∃ c, c ∈ columns_ p ∧
    q = column_file_path base_path (table_id (key_ p)) (symbol_id (key_ p)) (hour_epoch (key_ p)) (name_ c).

Lemma write_columns_total io w dir m cols table fs total total' fs' :
  write_columns io fs w dir m cols table total = (Some total', fs') → 0 <= total → total <= total' ∧ (cols ≠ [] → total < total').
Proof.
  revert fs total. induction cols as [|c cols IH]; intros fs total H Ht; cbn [write_columns] in H; [simplify_eq; split; [lia|done]|].
  destruct (write_column_file io fs w dir m c table) as [n fs1] eqn:Hw. destruct (Z.eqb_spec n 0) as [|Hn]; [done|].
  assert (0 <= n) as Hpos.
  { unfold write_column_file in Hw. destruct (_ || _) in Hw; [by simplify_eq|]. destruct (_ * _ =? 0) in Hw; [by simplify_eq|].
    destruct (payload _ _) in Hw. destruct (publish _ _ _ _) as [[] ?] in Hw; simplify_eq; unfold HDB_HEADER_V2_SIZE; lia. }
  destruct (IH _ _ H) as [? _]; [lia|]. split; [lia|]. intros _. lia.
Qed.

Lemma flush_partition_spec io fs w p n fs' w' : flushable p → Hdb.flush_partition io fs w p = (n, fs', w') →
  0 <= n ∧ hw_base_path w' = hw_base_path w ∧ (0 < n → on_disk fs' (hw_base_path w) p) ∧
  ∀ q bytes, fs !! q = Some (File bytes) → ¬ own_file (hw_base_path w) p q → fs' !! q = Some (File bytes).
Proof.
  intros [Hp Hnd (Ht & _ & _)] H. unfold Hdb.flush_partition in H. destruct (negb _ || _ || _) eqn:Hguard; [by simplify_eq|].
  apply orb_false_elim in Hguard as [[_ Hcons%negb_false_iff]%orb_false_elim Hrows%Z.eqb_neq].
  destruct (mkdir_p io fs _) as [ok fs1] eqn:Hmk. pose proof (mkdir_grows _ _ _ _ _ Hmk) as Hgrow.
  destruct ok; cbn [negb] in H.
  2:{ simplify_eq. split_and!; [lia|done|lia|]. intros q bytes Hq _. by eapply lookup_weaken. }
  destruct (write_columns _ _ _ _ _ _ _ _) as [r fs2] eqn:Hw.
  assert (∀ q bytes, fs !! q = Some (File bytes) → ¬ own_file (hw_base_path w) p q → fs2 !! q = Some (File bytes)) as Hframe.
  { intros q bytes Hq Hno. rewrite (write_columns_frame _ _ _ _ _ _ _ _ _ _ Hw); [by eapply lookup_weaken|].
    intros (c & -> & Hc)%list_elem_of_fmap. apply Hno. by exists c. }
  destruct r as [total|]; simplify_eq; [|by split_and!].
  destruct (write_columns_total _ _ _ _ _ _ _ _ _ _ Hw) as [Hle Hlt]; [lia|]. split_and!; [lia|done| |done].
  intros _ i c Hi. by destruct (write_partition _ _ _ _ _ _ _ _ _ Hp Hnd Ht Hcons Hmk Hw) as [Hcols _]; destruct (Hcols i c Hi).
Qed.

Lemma to_string_inj a b : INT64_MIN <= a <= INT64_MAX → INT64_MIN <= b <= INT64_MAX → to_string a = to_string b → a = b.
Proof. intros Ha Hb H. pose proof (stoll_to_string a Ha) as H1. rewrite H, (stoll_to_string b Hb) in H1. by simplify_eq. Qed.

Lemma to_string_not_t a s : to_string a ≠ ("t" +:+ s)%string.
Proof.
  intros H. apply (f_equal chars) in H. rewrite chars_append in H. change (chars "t") with ["t"%char] in H.
  pose proof (name_chars_to_string a) as Hd. rewrite H in Hd. done.
Qed.

Lemma partition_dir_inj base_path t s h t' s' h' rest rest' :
  key_ranges (mkKey t s h) → key_ranges (mkKey t' s' h') →
  partition_dir base_path t s h ++ rest = partition_dir base_path t' s' h' ++ rest' →
  t = t' ∧ s = s' ∧ h = h'.
Proof.
  intros (Ht & Hs & Hh) (Ht' & Hs' & Hh') H. simpl in *. unfold partition_dir in H. rewrite <- !app_assoc in H.
  apply app_inv_head in H. unfold INT64_MIN, INT64_MAX in *.
  destruct (Z.eqb_spec t 0), (Z.eqb_spec t' 0); simpl in H; injection H as H1 H2 H3.
  - split_and!; [lia|by apply to_string_inj|by apply to_string_inj].
  - by apply to_string_not_t in H1.
  - by apply symmetry, to_string_not_t in H1.
  - apply (f_equal chars) in H1. rewrite !chars_append in H1. apply app_inv_head in H1.
    assert (to_string t = to_string t') as Heq by (by rewrite <- (str_chars (to_string t)), H1, str_chars).
    split_and!; apply to_string_inj; (done || lia || (unfold INT64_MIN, INT64_MAX; lia)).
Qed.

Lemma own_file_key base_path p p' q : key_ranges (key_ p) → key_ranges (key_ p') →
  own_file base_path p q → own_file base_path p' q → key_ p = key_ p'.
Proof.
  intros Hk Hk' (c & _ & ->) (c' & _ & H). unfold column_file_path, below in H.
  destruct (key_ p) as [t s h], (key_ p') as [t' s' h']. simpl in *.
  apply partition_dir_inj in H as (-> & -> & ->); done.
Qed.

Lemma on_disk_own fs base_path p i c : on_disk fs base_path p → columns_ p !! i = Some c →
  ∃ q bytes, own_file base_path p q ∧ fs !! q = Some (File bytes).
Proof.
  intros H Hi. destruct (H i c Hi) as (bytes & Hb & _). eexists _, bytes. split; [|done].
  exists c. split; [by eapply list_elem_of_lookup_2|done].
Qed.

(** Files of another partition stay. *)
Lemma on_disk_frame fs fs' base_path p p' : key_ranges (key_ p) → key_ranges (key_ p') → key_ p ≠ key_ p' →
  (∀ q bytes, fs !! q = Some (File bytes) → ¬ own_file base_path p' q → fs' !! q = Some (File bytes)) →
  on_disk fs base_path p → on_disk fs' base_path p.
Proof.
  intros Hk Hk' Hne Hframe H i c Hi. destruct (H i c Hi) as (bytes & Hb & Hparse). exists bytes. split; [|done].
  apply Hframe; [done|]. intros Ho. eapply Hne, (own_file_key base_path p p'); [done..| |exact Ho].
  exists c. split; [by eapply list_elem_of_lookup_2|done].
Qed.

(** ** What a published generation holds *)

(** Every partition that has rows has all its column files in the generation. *)
Definition complete_generation (fs : filesystem) (gen : path) (parts : list Partition) : Prop :=
  ∀ p, p ∈ parts → num_rows p ≠ 0 → on_disk fs gen p.

Definition nonempty_count (parts : list Partition) : Z := zsum ((λ p, if num_rows p =? 0 then 0 else 1) <$> parts).
Definition row_count (parts : list Partition) : Z := zsum (num_rows <$> parts).

Lemma num_rows_nonneg p : partition_ok p → 0 <= num_rows p.
Proof.
  intros Hp. unfold num_rows. destruct (columns_ p) as [|c cols] eqn:Hcols; [done|].
  destruct (column_at p 0 c Hp) as [Hc _]; [by rewrite Hcols|]. apply Hc.
Qed.

Lemma snapshot_partition_spec io fs w gen p r fs' : flushable p → snapshot_partition_checked io fs w p gen = (r, fs') → sw_ok r = true →
  rows_written r = num_rows p ∧ (num_rows p ≠ 0 → on_disk fs' gen p) ∧
  ∀ q bytes, fs !! q = Some (File bytes) → ¬ own_file gen p q → fs' !! q = Some (File bytes).
Proof.
  intros [Hp Hnd (Ht & _ & _)] H Hok. unfold snapshot_partition_checked in H. destruct (_ || _) eqn:Hguard; [by simplify_eq|].
  apply orb_false_elim in Hguard as [Hcons%negb_false_iff _]. destruct (Z.eqb_spec (num_rows p) 0) as [Hz|Hrows].
  { simplify_eq. simpl. by rewrite Hz. }
  destruct (mkdir_p io fs _) as [made fs1] eqn:Hmk. pose proof (mkdir_grows _ _ _ _ _ Hmk) as Hgrow.
  destruct made; cbn [negb] in H; [|by simplify_eq].
  destruct (write_columns _ _ _ _ _ _ _ _) as [[total|] fs2] eqn:Hw; [|by simplify_eq]. injection H as <- <-.
  split_and!; [done| |].
  - intros _ i c Hi. by destruct (write_partition _ _ _ _ _ _ _ _ _ Hp Hnd Ht Hcons Hmk Hw) as [Hcols _]; destruct (Hcols i c Hi).
  - intros q bytes Hq Hno. rewrite (write_columns_frame _ _ _ _ _ _ _ _ _ _ Hw); [by eapply lookup_weaken|].
    intros (c & -> & Hc)%list_elem_of_fmap. apply Hno. by exists c.
Qed.

Lemma snapshot_partitions_complete io w gen parts : ∀ written counts s p r st,
  Forall flushable (written ++ parts) → NoDup (key_ <$> written ++ parts) → complete_generation s gen written →
  snapshot_partitions io w gen parts counts s = (Some (p, r), st) →
  complete_generation (final s st) gen (written ++ parts) ∧
  p = counts.1 + nonempty_count parts ∧ r = counts.2 + row_count parts.
Proof.
  induction parts as [|part parts IH]; intros written counts s p r st Hfl Hnd Hdone H; cbn [snapshot_partitions] in H.
  { injection H as -> <-. rewrite app_nil_r. split; [done|]. unfold nonempty_count, row_count. simpl. lia. }
  rewrite run_bind in H. unfold act in H. destruct (snapshot_partition_checked (fio_disk io) s w part gen) as [res s1] eqn:Hone.
  change (final s [s1]) with s1 in H. destruct (sw_ok res) eqn:Hok; cbn [negb] in H; [|done].
  pose proof Hfl as Hall. rewrite Forall_app, Forall_cons in Hall. destruct Hall as (Hwritten & Hpart & _).
  destruct (snapshot_partition_spec _ _ _ _ _ _ _ Hpart Hone Hok) as (Hrows & Hmine & Hframe).
  assert (complete_generation s1 gen (written ++ [part])) as Hdone1.
  { intros q [Hq|Hq%list_elem_of_singleton]%elem_of_app Hne; [|subst; by apply Hmine].
    rewrite Forall_forall in Hwritten. pose proof (fl_key _ (Hwritten q Hq)) as Hkey.
    apply (on_disk_frame s s1 gen q part); [done|apply Hpart| |done|by apply Hdone].
    intros Heq. rewrite fmap_app, fmap_cons in Hnd. apply NoDup_app in Hnd as (_ & Hnd & _). apply (Hnd (key_ q)).
    - apply list_elem_of_fmap. by exists q.
    - rewrite Heq. by left. }
  rewrite cons_middle, app_assoc in Hfl, Hnd.
  pose proof (num_rows_nonneg _ (fl_ok _ Hpart)) as Hpos. rewrite Hrows in H.
  assert (nonempty_count (part :: parts) = (if num_rows part =? 0 then 0 else 1) + nonempty_count parts) as Hcount by done.
  assert (row_count (part :: parts) = num_rows part + row_count parts) as Hsum by done.
  destruct (Z.ltb_spec 0 (num_rows part)).
  - destruct (_ || _) in H; [done|]. destruct (snapshot_partitions io w gen parts _ s1) as [o st1] eqn:Hrest. injection H as -> <-.
    destruct (IH _ _ s1 p r st1 Hfl Hnd Hdone1 Hrest) as (Hc & -> & ->).
    rewrite <- app_assoc in Hc. rewrite Hcount, Hsum, (proj2 (Z.eqb_neq _ _)) by lia. cbn [fst snd].
    change (s1 :: st1) with ([s1] ++ st1). split_and!; [by rewrite final_app|lia|lia].
  - destruct (snapshot_partitions io w gen parts _ s1) as [o st1] eqn:Hrest. injection H as -> <-.
    destruct (IH _ _ s1 p r st1 Hfl Hnd Hdone1 Hrest) as (Hc & -> & ->).
    rewrite <- app_assoc in Hc. rewrite Hcount, Hsum, (proj2 (Z.eqb_eq _ _)) by lia.
    change (s1 :: st1) with ([s1] ++ st1). split_and!; [by rewrite final_app|lia|lia].
Qed.

(** What is two levels below a generation stays. *)
Definition same_inside (gen : path) (s s' : filesystem) : Prop :=
  ∀ rest, (2 <= length rest)%nat → s' !! (gen ++ rest) = s !! (gen ++ rest).

Lemma same_inside_change gen s s0 (q : path) s' :
  (length q <= S (length gen))%nat → (∀ q', q' ≠ q → s' !! q' = s !! q') → same_inside gen s0 s → same_inside gen s0 s'.
Proof.
  intros Hlen Heq Hs rest Hrest. rewrite Heq; [by apply Hs|]. intros <-. rewrite length_app in Hlen. lia.
Qed.

Lemma text_inside io sequence dir name contents gen s0 : (length dir <= length gen)%nat →
  stays (same_inside gen s0) (write_text_atomically io sequence dir name contents).
Proof.
  intros Hlen s Hs. unfold write_text_atomically.
  assert (∀ x, length (dir ++ [x]) <= S (length gen))%nat as Hx by (intros x; rewrite length_app; simpl; lia).
  assert (same_inside gen s0 (<[dir ++ [temporary io name sequence] := File (bytes_of_string contents)]> s)) as H1.
  { eapply same_inside_change; [apply Hx| |exact Hs]. intros q Hq. by rewrite lookup_insert_ne. }
  assert (same_inside gen s0 (delete (dir ++ [temporary io name sequence])
    (<[dir ++ [temporary io name sequence] := File (bytes_of_string contents)]> s))) as H2.
  { eapply same_inside_change; [apply Hx| |exact H1]. intros q Hq. by rewrite lookup_delete_ne. }
  destruct (_ || _); [by constructor|]. destruct (_ && _); repeat (constructor; [done|]); constructor; [|by constructor].
  eapply same_inside_change; [apply Hx| |exact H2]. intros q Hq. by rewrite lookup_insert_ne.
Qed.

Lemma cleanup_inside io root name s0 :
  stays (same_inside (generation_path root name) s0) (cleanup_old_generations io root name).
Proof.
  intros fs Hfs. unfold cleanup_old_generations. destruct (fio_listed io _); [|by constructor].
  assert (Forall (λ other, other ≠ name) (expired_generations name (generation_names fs root))) as Hothers.
  { unfold expired_generations. apply Forall_drop. apply Forall_forall. by intros x [Hx _]%list_elem_of_filter. }
  revert Hothers. generalize (expired_generations name (generation_names fs root)). intros others Hothers.
  revert fs Hfs. induction Hothers as [|other others Ho _ IH]; intros fs Hfs; cbn [remove_generations]; [by constructor|].
  apply (stays_bind (same_inside (generation_path root name) s0)); [|done|done].
  apply stays_act. intros s Hs rest Hrest. rewrite <- Hs by done. unfold remove_all. cbn [snd].
  destruct (s !! (generation_path root name ++ rest)) as [n|] eqn:Hn.
  - apply map_lookup_filter_Some. split; [done|]. intros [[r Heq] _]. simpl in Heq. unfold generation_path in Heq.
    rewrite <- !app_assoc in Heq. apply app_inv_head in Heq. by simplify_eq/=.
  - apply map_lookup_filter_None. by left.
Qed.

(** Publishing leaves the partitions of the generation as they were written. *)
Lemma publish_inside io sequence root name (p r : Z) s name' p' r' st :
  publish_generation io sequence root name p r s = (SnapshotPublished name' p' r', st) →
  p' = p ∧ r' = r ∧ Forall (same_inside (generation_path root name) s) st.
Proof.
  intros H. set (gen := generation_path root name) in *.
  assert (length root <= length gen)%nat as Hlen by (unfold gen, generation_path, generations; rewrite !length_app; lia).
  assert (same_inside gen s s) as H0 by done. unfold publish_generation in H. fold gen in H. rewrite run_bind in H.
  pose proof (text_inside io (sequence + 1) gen "_COMPLETE" (manifest name p r) gen s (le_n _) s H0) as H1.
  destruct (write_text_atomically io (sequence + 1) _ _ _ _) as [[] st1]; cbn [negb] in H; [|done].
  pose proof (final_in _ _ _ H0 H1) as F1. rewrite run_bind in H.
  pose proof (text_inside io (sequence + 2) root "CURRENT" (current_contents name) gen s Hlen _ F1) as H2.
  destruct (write_text_atomically io (sequence + 2) root _ _ _) as [[] st2]; cbn [negb] in H; [|done].
  pose proof (final_in _ _ _ F1 H2) as F2. rewrite run_bind in H.
  pose proof (cleanup_inside io root name s _ F2) as H3. destruct (cleanup_old_generations io root name _) as [[] st3].
  injection H as <- <- <- <-. split_and!; [done..|]. rewrite app_nil_r. by rewrite !Forall_app.
Qed.

Lemma complete_inside gen s s' parts : same_inside gen s s' → complete_generation s gen parts → complete_generation s' gen parts.
Proof.
  intros Hs Hc p Hp Hne i c Hi. destruct (Hc p Hp Hne i c Hi) as (bytes & Hb & Hparse). exists bytes. split; [|done].
  unfold column_file_path, below, partition_dir in Hb |- *. rewrite <- !app_assoc in Hb |- *. rewrite Hs; [done|].
  rewrite !length_app. simpl. lia.
Qed.

(** A snapshot that is published: before some point nothing of it is current, after
    that point everything of it is there. *)
Lemma snapshot_program_complete io now sequence w parts root fs name p r states :
  root ≠ [] → Forall flushable parts → NoDup (key_ <$> parts) →
  snapshot_program io now sequence w parts root fs = (SnapshotPublished name p r, states) →
  let new := generation_path root (generation_name now (fio_pid io) sequence) in
  p = nonempty_count parts ∧ r = row_count parts ∧ complete_generation (final fs states) new parts ∧
  ∀ s, s ∈ states → keeps new (current_temp io root (sequence + 2)) fs s ∨ complete_generation s new parts.
Proof.
  intros Hroot Hfl Hnd H new. unfold snapshot_program in H. rewrite run_bind in H. unfold act at 1 in H.
  set (gname := generation_name now (fio_pid io) sequence) in *. fold new in H. set (temp := current_temp io root (sequence + 2)).
  destruct (mkdir_p _ _ _) as [made fs1] eqn:Hmk. pose proof (keeps_grow new temp _ _ (mkdir_grows _ _ _ _ _ Hmk)) as Hk1.
  destruct made; cbn [negb] in H; [|done]. change (final fs [fs1]) with fs1 in H. rewrite run_bind in H.
  unfold act at 1, make_directory in H. destruct (fs1 !! new); [done|]. destruct (fio_create io new); cbn [negb] in H; [|done].
  set (fs2 := <[new := Directory]> fs1) in H. change (final fs1 [fs2]) with fs2 in H.
  assert (keeps new temp fs fs2) as Hk2 by (etrans; [exact Hk1|by apply keeps_insert_below]).
  rewrite run_bind in H.
  pose proof (snapshot_partitions_stays io w new parts (0, 0) (keeps new temp fs)
    (λ s q Hs, transitivity Hs (snapshot_partition_keeps _ _ _ _ _ _)) fs2 Hk2) as Hk3.
  destruct (snapshot_partitions io w new parts (0, 0) fs2) as [[[pc rc]|] st3] eqn:Hs; [|done].
  destruct (snapshot_partitions_complete io w new parts [] (0, 0) fs2 pc rc st3 Hfl Hnd) as (Hc & -> & ->);
    [by intros q Hq%elem_of_nil|done|]. cbn [app] in Hc.
  destruct (publish_generation io sequence root gname _ _ _) as [outcome st4] eqn:Hpub. injection H as -> <-.
  destruct (publish_inside _ _ _ _ _ _ _ _ _ _ _ Hpub) as (-> & -> & Hin). fold new in Hin.
  assert (Forall (λ s, complete_generation s new parts) st4) as Hc4.
  { eapply Forall_impl; [exact Hin|]. intros s Hsame. by apply (complete_inside _ (final fs2 st3)). }
  cbn [snd] in Hk3. split_and!; [simpl; lia|simpl; lia| |].
  - change (fs1 :: fs2 :: st3 ++ st4) with ([fs1; fs2] ++ st3 ++ st4). rewrite !final_app.
    by apply (final_in (λ s, complete_generation s new parts)).
  - intros s. rewrite !elem_of_cons, elem_of_app. rewrite Forall_forall in Hk3, Hc4. intros [->|[->|[?|?]]]; auto.
Qed.


Context (parquet_encode : Partition → option (list Z)) (gmtime : Z → Z * Z * Z).

(** The configuration that writes column files only. *)
Definition binary_only (f : FlushManager) : Prop :=
  output_format (fm_config f) = BINARY ∧ parquet_writer_ f = None ∧ upload_succeeded f = false.

Definition flushed_or_sealed (reclaim : bool) (fs : filesystem) (base_path : path) (p p' : Partition) : Prop :=
  (p' = after_flush reclaim (set_state p FLUSHING) ∧ on_disk fs base_path p) ∨ p' = set_state p SEALED.

Lemma flush_one_spec io now s p ok s' : flushable p → binary_only (fs_manager s) →
  flush_sealed_one parquet_encode gmtime io now s p = (ok, s') →
  let reclaim := reclaim_after_flush (fm_config (fs_manager s)) in
  let base_path := hw_base_path (fs_writer s) in
  let disk := disk_ (fs_storage s) in let disk' := disk_ (fs_storage s') in
  binary_only (fs_manager s') ∧ fm_config (fs_manager s') = fm_config (fs_manager s) ∧
  hw_base_path (fs_writer s') = base_path ∧
  fs_partitions s' = with_partition (fs_partitions s) (key_ p)
    (if ok : bool then after_flush reclaim else λ q, set_state q SEALED) ∧
  (ok = true → on_disk disk' base_path p) ∧
  ∀ q bytes, disk !! q = Some (File bytes) → ¬ own_file base_path p q → disk' !! q = Some (File bytes).
Proof.
  intros Hp (Hb & Hpq & Hup) H. unfold flush_sealed_one in H. rewrite Hb in H.
  destruct (Hdb.flush_partition _ _ _ _) as [[n fs'] w'] eqn:Hf.
  assert (flushable (set_state p FLUSHING)) as Hp' by (destruct Hp as [[? ? ?] ? ?]; split; [by split|done|done]).
  destruct (flush_partition_spec _ _ _ _ _ _ _ Hp' Hf) as (Hn & Hw & Hdisk & Hframe).
  unfold parquet_succeeded in H. rewrite Hpq, Hup, !orb_false_r in H. destruct (Z.ltb_spec 0 n); simplify_eq/=; split_and!; try done.
  - intros _. by apply Hdisk.
Qed.

Definition is_flushed (m : PartitionManager) (p : Partition) : bool :=
  match partitions_ m !! key_ p with Some p' => bool_decide (state_ p' = FLUSHED) | None => false end.

Lemma lookup_with_partition m k f k' :
  partitions_ (with_partition m k f) !! k' = if decide (k = k') then f <$> partitions_ m !! k' else partitions_ m !! k'.
Proof. simpl. case_decide as H; [by rewrite H, lookup_alter_eq|by rewrite lookup_alter_ne]. Qed.

Lemma flush_all_spec io now sealed : ∀ s n s',
  NoDup (key_ <$> sealed) → Forall flushable sealed → binary_only (fs_manager s) →
  Forall (λ p, partitions_ (fs_partitions s) !! key_ p = Some p ∧ state_ p = SEALED) sealed →
  flush_sealed_all parquet_encode gmtime io now s sealed = (n, s') →
  let reclaim := reclaim_after_flush (fm_config (fs_manager s)) in
  let base_path := hw_base_path (fs_writer s) in
  (∀ k, k ∉ key_ <$> sealed → partitions_ (fs_partitions s') !! k = partitions_ (fs_partitions s) !! k) ∧
  Forall (λ p, ∃ p', partitions_ (fs_partitions s') !! key_ p = Some p' ∧
                 flushed_or_sealed reclaim (disk_ (fs_storage s')) base_path p p') sealed ∧
  n = Z.of_nat (length (filter (λ p, is_flushed (fs_partitions s') p = true) sealed)) ∧
  ∀ q bytes, disk_ (fs_storage s) !! q = Some (File bytes) → Forall (λ p, ¬ own_file base_path p q) sealed →
    disk_ (fs_storage s') !! q = Some (File bytes).
Proof.
  induction sealed as [|p sealed IH]; intros s n s' Hnd Hfl Hbin Hin H; cbn [flush_sealed_all] in H.
  { simplify_eq. by split_and!. }
  destruct (flush_sealed_one _ _ io now s p) as [ok s1] eqn:H1. destruct (flush_sealed_all _ _ io now s1 sealed) as [n1 s2] eqn:H2.
  injection H as <- <-. apply NoDup_cons in Hnd as [Hnin Hnd]. apply Forall_cons in Hfl as [Hp Hfl], Hin as [[Hpk Hps] Hin].
  destruct (flush_one_spec _ _ _ _ _ _ Hp Hbin H1) as (Hbin1 & Hcfg1 & Hbase1 & Hpm1 & Hdisk1 & Hframe1).
  assert (∀ q, q ∈ sealed → key_ p ≠ key_ q) as Hne.
  { intros q Hq Heq. apply Hnin. rewrite Heq. by apply list_elem_of_fmap_2. }
  assert (Forall (λ p, partitions_ (fs_partitions s1) !! key_ p = Some p ∧ state_ p = SEALED) sealed) as Hin1.
  { rewrite Forall_forall in Hin |- *. intros q Hq. destruct (Hin q Hq) as [Hqk Hqs]. split; [|done].
    by rewrite Hpm1, lookup_with_partition, decide_False by by apply Hne. }
  destruct (IH _ _ _ Hnd Hfl Hbin1 Hin1 H2) as (Hoth & Hall & Hn & Hframe). rewrite Hcfg1, Hbase1 in *.
  assert (partitions_ (fs_partitions s2) !! key_ p =
          Some ((if ok then after_flush (reclaim_after_flush (fm_config (fs_manager s))) else λ q, set_state q SEALED) p)) as Hpk2.
  { rewrite Hoth by done. rewrite Hpm1, lookup_with_partition, decide_True by done. by rewrite Hpk. }
  intros reclaim base_path. split_and!.
  - intros k Hk. rewrite fmap_cons, not_elem_of_cons in Hk. rewrite Hoth by tauto. rewrite Hpm1, lookup_with_partition.
    by rewrite decide_False by naive_solver.
  - constructor; [|done]. eexists. split; [exact Hpk2|]. destruct ok; [left|right; done]. split; [by destruct p|].
    assert (∀ sl, Forall flushable sl → (∀ q, q ∈ sl → key_ p ≠ key_ q) →
      ∀ q, own_file base_path p q → Forall (λ p', ¬ own_file base_path p' q) sl) as Hown.
    { intros sl Hsl Hsne q Hq. rewrite Forall_forall in Hsl |- *. intros p' Hp' Ho. apply (Hsne p' Hp').
      eapply own_file_key; [apply Hp|by apply Hsl|done|done]. }
    intros i c Hi. destruct (Hdisk1 eq_refl i c Hi) as (bytes & Hb & Hparse). exists bytes. split; [|done].
    apply Hframe; [done|]. apply (Hown sealed Hfl Hne). exists c. split; [by eapply list_elem_of_lookup_2|done].
  - assert (is_flushed (fs_partitions s2) p = ok) as Hflag.
    { unfold is_flushed. rewrite Hpk2. destruct ok; [|by destruct p]. destruct p. by destruct (reclaim_after_flush _). }
    rewrite Hn. destruct ok; [rewrite filter_cons_True by done|rewrite filter_cons_False by by rewrite Hflag]; cbn [length]; lia.
  - intros q bytes Hq Hno. apply Forall_cons in Hno as [Hno1 Hno]. apply Hframe; [by apply Hframe1|done].
Qed.

Lemma sealed_in_manager m p : manager_ok m → p ∈ get_sealed_partitions m →
  partitions_ m !! key_ p = Some p ∧ state_ p = SEALED.
Proof.
  intros Hm (k & Hk & Hs%bool_decide_eq_true)%elem_of_select. split; [|done]. by destruct (mo_key _ Hm k p Hk) as [-> _].
Qed.

Lemma sealed_keys_distinct m : manager_ok m → NoDup (key_ <$> get_sealed_partitions m).
Proof.
  intros Hm. unfold get_sealed_partitions, select.
  assert (∀ l, NoDup l.*1 → (∀ k p, (k, p) ∈ l → key_ p = k) → ∀ P : PartitionKey → Partition → bool,
    NoDup (key_ <$> omap (λ kp, if P kp.1 kp.2 then Some kp.2 else None) l)) as Hl.
  { induction l as [|[k p] l IH]; intros Hnd Hk P; [by constructor|]. cbn [omap list_omap fst snd]. rewrite fmap_cons in Hnd.
    apply NoDup_cons in Hnd as [Hnin Hnd]. assert (∀ k p, (k, p) ∈ l → key_ p = k) as Hk' by (intros; apply Hk; by right).
    specialize (IH Hnd Hk' P). destruct (P k p); [|done]. cbn [fmap list_fmap]. apply NoDup_cons. split; [|done].
    intros (q & Hq & Hin)%list_elem_of_fmap. apply list_elem_of_omap in Hin as ([k' q'] & Hin & Hs).
    destruct (P _ _) in Hs; simplify_eq/=. apply Hnin. rewrite <- (Hk k p), Hq, (Hk' _ _ Hin) by by left.
    by apply (list_elem_of_fmap_2 fst _ (k', q)). }
  set (P := λ (_ : PartitionKey) (p : Partition), bool_decide (state_ p = SEALED)).
  apply (Hl (map_to_list (partitions_ m))) with (P := P); [apply NoDup_fst_map_to_list|].
  intros k p Hkp%elem_of_map_to_list. by destruct (mo_key _ Hm k p Hkp).
Qed.

(** C16. Flushing settles every sealed partition, when column files are the only
    format: output format BINARY, no Parquet writer and no upload to S3. Every
    partition of the manager has distinct column names and a key in range. Then
    a sealed partition ends flushed, with all its columns on disk, or sealed as
    it was; every other partition is untouched, and the count is the number of
    partitions that were flushed. With Parquet or both formats a partition can
    end flushed without its column files, which is not covered. *)
Theorem flush_settles_sealed io now s n s' :
  manager_ok (fs_partitions s) → map_Forall (λ _ p, flushable p) (partitions_ (fs_partitions s)) →
  binary_only (fs_manager s) → do_flush_sealed parquet_encode gmtime io now s = (n, s') →
  let reclaim := reclaim_after_flush (fm_config (fs_manager s)) in
  (∀ k p, partitions_ (fs_partitions s) !! k = Some p → state_ p ≠ SEALED → partitions_ (fs_partitions s') !! k = Some p) ∧
  (∀ k p, partitions_ (fs_partitions s) !! k = Some p → state_ p = SEALED →
     partitions_ (fs_partitions s') !! k = Some p ∨
     partitions_ (fs_partitions s') !! k = Some (after_flush reclaim p) ∧
     on_disk (disk_ (fs_storage s')) (hw_base_path (fs_writer s)) p) ∧
  n = Z.of_nat (length (filter (λ p, is_flushed (fs_partitions s') p = true) (get_sealed_partitions (fs_partitions s)))).
Proof.
  intros Hm Hfl Hbin H reclaim. unfold do_flush_sealed in H.
  assert (∀ p, p ∈ get_sealed_partitions (fs_partitions s) → partitions_ (fs_partitions s) !! key_ p = Some p ∧ state_ p = SEALED)
    as Hsealed by (intros p Hp; by apply sealed_in_manager).
  destruct (flush_all_spec io now _ s n s' (sealed_keys_distinct _ Hm)) as (Hoth & Hall & Hn & _); [|done| |done|].
  { apply Forall_forall. intros p Hp. by apply (Hfl (key_ p)), Hsealed. }
  { apply Forall_forall. intros p Hp. by apply Hsealed. }
  split_and!; [| |done].
  - intros k p Hk Hs. rewrite Hoth; [done|]. intros (q & -> & Hq)%list_elem_of_fmap. destruct (Hsealed q Hq) as [Hqk Hqs].
    by simplify_eq.
  - intros k p Hk Hs. destruct (mo_key _ Hm k p Hk) as [<- _]. rewrite Forall_forall in Hall.
    destruct (Hall p) as (p' & Hp' & [[-> Hd]| ->]).
    { apply elem_of_select. exists (key_ p). split; [done|]. by apply bool_decide_eq_true. }
    + right. by destruct p.
    + left. rewrite Hp'. f_equal. destruct p; simpl in *; by subst.
Qed.

(** The cold tier does not look at what the writer answers: an active partition
    that could not be written counts as flushed, and nothing is on disk. *)
Theorem cold_tier_forgets_failure io s p :
  state_ p = ACTIVE → partitions_ (fs_partitions s) !! key_ p = Some p → exports_configured (fs_manager s) = false →
  Hdb.flush_partition (fio_disk io) (disk_ (fs_storage s)) (fs_writer s) (set_state (PartitionManager.seal p) FLUSHING) =
    (0, disk_ (fs_storage s), fs_writer s) →
  let s' := cold_tier parquet_encode gmtime io s p in
  (state_ <$> partitions_ (fs_partitions s') !! key_ p) = Some FLUSHED ∧ disk_ (fs_storage s') = disk_ (fs_storage s).
Proof.
  intros Hs Hp He Hf. unfold cold_tier, seal_and_write, export. rewrite Hs, Hf. cbn [fs_manager]. rewrite He.
  cbn [with_manager with_partitions fs_partitions fs_storage disk_]. rewrite lookup_with_partition, decide_True by by destruct p.
  replace (key_ (set_state (PartitionManager.seal p) FLUSHING)) with (key_ p) by by destruct p.
  rewrite Hp. split; [|done]. destruct p. by destruct (reclaim_after_flush _).
Qed.
End Facts.

(** ** Concrete runs *)

Definition all_well : flush_io := mkFlushIo always_works (λ _, mkWriteIo true true true true) (λ _, true) (λ _, true) (λ _, true) (λ _, true) 7.

Notation first_snapshot := (snapshot_program all_well 1000 0 (mkWriter ["db"%string] false 0 0) [] ["s"%string] ∅).
Notation first_disk := (final ∅ first_snapshot.2).
Notation second_snapshot := (snapshot_program all_well 2000 3 (mkWriter ["db"%string] false 0 0) [] ["s"%string] first_disk).

Lemma demo_flushable : flushable demo_partition.
Proof.
  split; [apply demo_partition_ok| |].
  - vm_compute. repeat constructor; by (set_solver || apply not_elem_of_nil || done).
  - by vm_compute.
Qed.

(** A partition whose snapshot succeeds, and one disk where its file cannot be written. *)
Notation demo_snapshot := (snapshot_program all_well 2000 3 (mkWriter ["db"%string] false 0 0) [demo_partition] ["s"%string] first_disk).


(** While the first snapshot is written there is data without CURRENT: a restart
    then refuses to recover. *)
Example first_snapshot_interrupted :
  resolve_snapshot (λ _, true) ∅ "s" = SnapshotMissing ∧
  existsb (λ s, match resolve_snapshot (λ _, true) s "s" with SnapshotInvalid _ => true | _ => false end) first_snapshot.2 = true.
Proof. split; by vm_compute. Qed.

Lemma singleton_manager_ok arena p n : p_id p < n → manager_ok (mkManager arena {[ key_ p := p ]} n).
Proof.
  intros Hp. split; simpl.
  - by intros k q [<- <-]%lookup_singleton_Some.
  - by intros k k' q q' [<- _]%lookup_singleton_Some [<- _]%lookup_singleton_Some.
Qed.

Definition demo_flush_state : flush_state :=
  mkFlushState (new_flush_manager default_flush_config "" 0)
    (mkManager 1 {[ key_ demo_partition := demo_partition ]} 1) (mkWriter ["db"%string] true 0 0) (mkStorage ∅ ∅).

Notation demo_flushed := (do_flush_sealed (λ _, None) (λ _, (0, 0, 0)) all_well 5 demo_flush_state).

Lemma flush_settles_sealed_witness :
  (∀ k p, partitions_ (fs_partitions demo_flush_state) !! k = Some p → state_ p ≠ SEALED →
     partitions_ (fs_partitions demo_flushed.2) !! k = Some p) ∧
  (∀ k p, partitions_ (fs_partitions demo_flush_state) !! k = Some p → state_ p = SEALED →
     partitions_ (fs_partitions demo_flushed.2) !! k = Some p ∨
     partitions_ (fs_partitions demo_flushed.2) !! k = Some (after_flush false p) ∧
     on_disk (disk_ (fs_storage demo_flushed.2)) ["db"%string] p) ∧
  demo_flushed.1 = Z.of_nat (length (filter (λ p, is_flushed (fs_partitions demo_flushed.2) p = true)
    (get_sealed_partitions (fs_partitions demo_flush_state)))).
Proof.
  apply (flush_settles_sealed (λ _, None) (λ _, (0, 0, 0)) all_well 5 demo_flush_state).
  - apply singleton_manager_ok. by vm_compute.
  - apply map_Forall_singleton, demo_flushable.
  - done.
  - apply surjective_pairing.
Defined.
