(* ===== verification/Parser.v ===== *)
(** * The SQL parser

    Models [src/sql/parser.cpp] and [include/zeptodb/sql/parser.h]: a recursive
    descent over the tokens of [Tokenizer.v] into the syntax of [Ast.v]. The
    parser's position is the list of tokens that are left. A parser returns a
    value and the tokens after it, or throws; the third outcome is running out
    of fuel, which [ParserFacts.v] shows never happens. *)

From S2P Require Import Prelude.
From S2P Require Import Ast.
From S2P Require Import Text.
From S2P Require Import Tokenizer.
From S2P Require Import Literals.
From stdpp Require Import base list strings.
From Stdlib Require Import ZArith Lia.

Open Scope Z_scope.

(** ** Token types can be compared *)

Definition type_index (t : TokenType) : Z :=
  match t with | SELECT => 0 | FROM => 1 | WHERE => 2 | JOIN => 3 | ASOF => 4 | ON => 5 | AND => 6 | OR => 7
   | NOT => 8 | GROUP => 9 | BY => 10 | ORDER => 11 | LIMIT => 12 | OFFSET => 13 | BETWEEN => 14 | HAVING => 15
   | AS => 16 | DISTINCT => 17 | INNER => 18 | LEFT => 19 | RIGHT => 20 | OUTER => 21 | CROSS => 22 | ASC => 23
   | DESC => 24 | NULLS => 25 | FIRST => 26 | LAST => 27 | SUM => 28 | AVG => 29 | COUNT => 30 | MIN => 31
   | MAX => 32 | VWAP => 33 | STDDEV => 34 | VARIANCE => 35 | MEDIAN => 36 | PERCENTILE => 37 | OVER => 38
   | PARTITION => 39 | ROWS => 40 | RANGE => 41 | PRECEDING => 42 | FOLLOWING => 43 | UNBOUNDED => 44
   | CURRENT => 45 | ROW => 46 | RANK => 47 | DENSE_RANK => 48 | ROW_NUMBER => 49 | LAG => 50 | LEAD => 51
   | XBAR => 52 | EMA => 53 | DELTA => 54 | RATIO => 55 | WINDOW => 56 | DATE_TRUNC => 57 | NOW => 58
   | EPOCH_S => 59 | EPOCH_MS => 60 | SUBSTR => 61 | LIKE => 62 | FULL => 63 | PLUS_JOIN => 64 | AJ0 => 65
   | EXPLAIN => 66 | INTERVAL => 67 | SAMPLE => 68 | WITH => 69 | INSERT => 70 | INTO => 71 | VALUES => 72
   | UPDATE => 73 | SET => 74 | DELETE_KW => 75 | MATERIALIZED => 76 | VIEW => 77 | UNION => 78 | ALL => 79
   | INTERSECT => 80 | EXCEPT => 81 | IN => 82 | IS => 83 | NULL_KW => 84 | GT => 85 | LT => 86 | GE => 87
   | LE => 88 | EQ => 89 | NE => 90 | PLUS => 91 | MINUS => 92 | SLASH => 93 | CASE => 94 | WHEN => 95 | THEN => 96
   | ELSE => 97 | CASE_END => 98 | COMMA => 99 | DOT => 100 | LPAREN => 101 | RPAREN => 102 | STAR => 103
   | IDENT => 104 | NUMBER => 105 | STRING => 106 | END => 107 end.

Definition same_type (t t' : TokenType) : bool := type_index t =? type_index t'.

(** ** Parsers *)

Inductive exn : Type :=
  | token_exception (e : token_error)
  | runtime_error (what : string)
  | invalid_argument
  | out_of_range.

Inductive result (A : Type) : Type :=
  | Parsed (a : A) (rest : list Token)
  | Threw (e : exn)
  | NoFuel.
Arguments Parsed {A}.
Arguments Threw {A}.
Arguments NoFuel {A}.

Definition parser (A : Type) : Type := list Token → result A.

#[global] Instance parser_ret : MRet parser := λ A a ts, Parsed a ts.
#[global] Instance parser_bind : MBind parser := λ A B f p ts,
  match p ts with
  | Parsed a rest => f a rest
  | Threw e => Threw e
  | NoFuel => NoFuel
  end.

Definition throw {A} (e : exn) : parser A := λ _, Threw e.
Definition no_fuel {A} : parser A := λ _, NoFuel.

(** [throw std::runtime_error("Parser: expected ... '" + current().value + "'")] *)
Definition token_at (n : nat) (ts : list Token) : Token := nth n ts (mkToken END "").
Definition current : parser Token := λ ts, Parsed (token_at 0 ts) ts.
Definition peek : parser Token := λ ts, Parsed (token_at 1 ts) ts.
Definition fail_at {A} (message : string) : parser A :=
  tok ← current; throw (runtime_error (message +:+ value tok +:+ "'")).

Definition has_type (t : TokenType) (ts : list Token) : bool :=
  match ts with
  | [] => false
  | tok :: _ => negb (same_type (type tok) END) && same_type (type tok) t
  end.

Definition at_end : parser bool := λ ts,
  Parsed (match ts with [] => true | tok :: _ => same_type (type tok) END end) ts.
Definition check (t : TokenType) : parser bool := λ ts, Parsed (has_type t ts) ts.
Definition advance : parser () := λ ts, Parsed tt (tail ts).
Definition match_ (t : TokenType) : parser bool := λ ts,
  if has_type t ts then Parsed true (tail ts) else Parsed false ts.

Definition expect (t : TokenType) (msg : string) : parser string :=
  ok ← check t;
  if ok : bool then tok ← current; advance;; mret (value tok)
  else fail_at ("Parser: expected " +:+ msg +:+ " but got '").

(** [check] of one of several types. *)
Definition check_any (types : list TokenType) : parser bool := λ ts, Parsed (existsb (λ t, has_type t ts) types) ts.

(** [peek().type == t] *)
Definition peek_is (t : TokenType) : parser bool := tok ← peek; mret (same_type (type tok) t).

(** [current().type == IDENT && to_upper_str(current().value) == word] *)
Definition to_upper_str (s : string) : string := upper_word s.
Definition ident_is (word : string) : parser bool :=
  tok ← current; mret (same_type (type tok) IDENT && String.eqb (to_upper_str (value tok)) word).

Definition returned {A} (c : converted A) : parser A :=
  match c with
  | Valid a => mret a
  | InvalidArgument => throw invalid_argument
  | OutOfRange => throw out_of_range
  end.

(** ** Loops

    Every iteration that goes on has consumed a token, so the number of tokens
    left is fuel enough. *)

Inductive flow (A : Type) : Type := Continue (a : A) | Break (a : A).
Arguments Continue {A}.
Arguments Break {A}.

Fixpoint while_fuel {A} (fuel : nat) (body : A → parser (flow A)) (a : A) : parser A :=
  match fuel with
  | O => no_fuel
  | S fuel =>
      next ← body a;
      match next with
      | Continue a => while_fuel fuel body a
      | Break a => mret a
      end
  end.

Definition while {A} (body : A → parser (flow A)) (a : A) : parser A := λ ts, while_fuel (S (length ts)) body a ts.

(** [while (match(t)) a = p(a)] *)
Definition while_match {A} (t : TokenType) (p : A → parser A) : A → parser A :=
  while (λ a, more ← match_ t; if more : bool then a ← p a; mret (Continue a) else mret (Break a)).

(** [do { items.push_back(p()) } while (match(COMMA))] *)
Definition comma_list {A} (p : parser A) : parser (list A) :=
  first ← p;
  while_match COMMA (λ items, item ← p; mret (items ++ [item])) [first].

(** ** Names and literals *)

Definition ident_like (t : TokenType) : bool :=
  match t with IDENT | OFFSET | FIRST | LAST | ASC | DESC | ROWS => true | _ => false end.
Definition is_ident_like : parser bool := λ ts, Parsed (ident_like (type (token_at 0 ts))) ts.

Definition take_value : parser string := tok ← current; advance;; mret (value tok).

(** The alias (empty when there is none) and the column. *)
Definition parse_qualified_name : parser (string * string) :=
  b ← is_ident_like;
  if b : bool then
    first ← take_value;
    dot ← match_ DOT;
    if dot : bool then
      star ← check STAR;
      if star : bool then advance;; mret (first, "*"%string)
      else
        b ← is_ident_like;
        if b : bool then col ← take_value; mret (first, col)
        else col ← expect IDENT "column name"; mret (first, col)
    else mret (EmptyString, first)
  else
    star ← check STAR;
    if star : bool then advance;; mret (EmptyString, "*"%string)
    else fail_at "Parser: expected identifier, got '".

Definition parse_integer_literal : parser Z :=
  b ← check NUMBER;
  if b : bool then s ← take_value; returned (stoll s)
  else fail_at "Parser: expected integer literal, got '".

Definition parse_string_literal : parser string :=
  b ← check STRING;
  if b : bool then take_value
  else fail_at "Parser: expected string literal, got '".

Definition parse_compare_op : parser CompareOp :=
  tok ← current;
  match type tok with
  | EQ => advance;; mret Ast.EQ
  | NE => advance;; mret Ast.NE
  | GT => advance;; mret Ast.GT
  | LT => advance;; mret Ast.LT
  | GE => advance;; mret Ast.GE
  | LE => advance;; mret Ast.LE
  | _ => fail_at "Parser: expected comparison operator, got '"
  end.

(** The value of a number token: floating point when it has a dot. *)
Definition number_value (s : string) : parser CompareValue :=
  if has_dot s then f ← returned (stod s); mret (VFloat f (cast_int64 f))
  else v ← returned (stoll s); mret (VInt v).

(** ** Arithmetic expressions *)

(** [std::tolower] on every character. *)
Definition tolower (c : char) : char :=
  if Text.between 65 90 c then Ascii.ascii_of_N (Ascii.N_of_ascii c + 32) else c.
Definition to_lower_str (s : string) : string := str (tolower <$> chars s).

Definition simple_func (name : string) (arg : option ArithExpr) : ArithExpr := AFunc name "" arg None [].

Section Arith.
  (** The recursive call, for the expressions between parentheses. *)
Variable parse_arith_expr_node : parser ArithExpr.

Definition parse_call_args : parser (list ArithExpr) :=
  close ← check RPAREN;
  if close : bool then mret [] else comma_list parse_arith_expr_node.

(** A call of one of the spatial functions. *)
Definition parse_function_call : parser ArithExpr :=
  name ← take_value;
  let name := to_lower_str name in
  expect LPAREN "(";;
  args ← parse_call_args;
  expect RPAREN ")";;
  let distance_fn := String.eqb name "haversine" || String.eqb name "st_distance" in
  if negb distance_fn && negb (String.eqb name "st_within") then
    throw (runtime_error ("Parser: unknown scalar function '" +:+ name +:+ "'"))
  else
    let expected := if distance_fn then 4%nat else 5%nat in
    if negb (length args =? expected)%nat then
      throw (runtime_error ("Parser: function '" +:+ name +:+ "' expects " +:+
                            to_string (Z.of_nat expected) +:+ " arguments"))
    else mret (AFunc name "" (nth_error args 0) (nth_error args 1) args).

Definition parse_substr : parser ArithExpr :=
  expect LPAREN "(";;
  arg ← parse_arith_expr_node;
  expect COMMA ",";;
  start ← take_value;
  more ← match_ COMMA;
  len ← (if more : bool then e ← parse_arith_expr_node; mret (Some e) else mret None);
  expect RPAREN ")";;
  mret (AFunc "substr" start (Some arg) len []).

Definition parse_arith_primary : parser ArithExpr :=
  paren ← match_ LPAREN;
  if paren : bool then node ← parse_arith_expr_node; expect RPAREN ")";; mret node else
  tok ← current;
  call ← peek_is LPAREN;
  match type tok with
  | NUMBER =>
      advance;;
      v ← number_value (value tok);
      mret (match v with VFloat f i => AFloat f i | VInt i => ALiteral i | _ => ALiteral 0 end)
  | DATE_TRUNC =>
      advance;;
      expect LPAREN "(";;
      unit ← parse_string_literal;
      expect COMMA ",";;
      arg ← parse_arith_expr_node;
      expect RPAREN ")";;
      mret (AFunc "date_trunc" unit (Some arg) None [])
  | NOW => advance;; expect LPAREN "(";; expect RPAREN ")";; mret (simple_func "now" None)
  | EPOCH_S =>
      advance;; expect LPAREN "(";; arg ← parse_arith_expr_node; expect RPAREN ")";; mret (simple_func "epoch_s" (Some arg))
  | EPOCH_MS =>
      advance;; expect LPAREN "(";; arg ← parse_arith_expr_node; expect RPAREN ")";; mret (simple_func "epoch_ms" (Some arg))
  | SUBSTR => advance;; parse_substr
  | INTERVAL => advance;; lit ← parse_string_literal; mret (AFunc "interval" lit None None [])
  | IDENT =>
      if call : bool then parse_function_call
      else '(alias, col) ← parse_qualified_name; mret (AColumn alias col)
  | _ => '(alias, col) ← parse_qualified_name; mret (AColumn alias col)
  end.

(** A left-associative chain: [while (check(op)) { advance(); left = left op operand }]. *)
Definition arith_chain (op_of : TokenType → option ArithOp) (operand : parser ArithExpr) : parser ArithExpr :=
  left ← operand;
  while (λ left,
    tok ← current;
    match op_of (type tok) with
    | Some op => advance;; right ← operand; mret (Continue (ABinary op left right))
    | None => mret (Break left)
    end) left.

Definition term_op (t : TokenType) : option ArithOp :=
  match t with STAR => Some MUL | SLASH => Some DIV | _ => None end.
Definition sum_op (t : TokenType) : option ArithOp :=
  match t with PLUS => Some ADD | MINUS => Some SUB | _ => None end.

Definition parse_arith_term : parser ArithExpr := arith_chain term_op parse_arith_primary.
Definition parse_arith_sum : parser ArithExpr := arith_chain sum_op parse_arith_term.
End Arith.

Fixpoint parse_arith_fuel (fuel : nat) (ts : list Token) : result ArithExpr :=
  match fuel with
  | O => NoFuel
  | S fuel => parse_arith_sum (λ ts, parse_arith_fuel fuel ts) ts
  end.
Definition parse_arith_expr_node : parser ArithExpr := λ ts, parse_arith_fuel (S (length ts)) ts.

(** ** Windows, joins, GROUP BY and ORDER BY *)

(** [[ASC | DESC]] *)
Definition parse_direction : parser bool :=
  desc ← match_ DESC;
  if desc : bool then mret false else match_ ASC;; mret true.

(** One end of a frame; [side] is PRECEDING or FOLLOWING. *)
Definition parse_frame_bound (side : TokenType) (side_name : string) : parser Z :=
  unbounded ← match_ UNBOUNDED;
  if unbounded : bool then expect side side_name;; mret INT64_MAX else
  cur ← match_ CURRENT;
  if cur : bool then expect ROW "ROW";; mret 0 else
  n ← parse_integer_literal;
  expect side side_name;;
  mret n.

Definition parse_frame : parser (option (Z * Z)) :=
  present ← check_any [ROWS; RANGE];
  if negb present then mret None else
  advance;;
  range ← match_ BETWEEN;
  if range : bool then
    preceding ← parse_frame_bound PRECEDING "PRECEDING";
    expect AND "AND";;
    following ← parse_frame_bound FOLLOWING "FOLLOWING";
    mret (Some (preceding, following))
  else preceding ← parse_frame_bound PRECEDING "PRECEDING"; mret (Some (preceding, 0)).

Definition parse_order_item : parser (string * string * bool) :=
  name ← parse_qualified_name; asc ← parse_direction; mret (name, asc).

Definition parse_window_spec : parser WindowSpec :=
  partition ← match_ PARTITION;
  partition_by ← (if partition : bool then expect BY "BY";; comma_list parse_qualified_name else mret []);
  order ← match_ ORDER;
  order_by ← (if order : bool then expect BY "BY";; comma_list parse_order_item else mret []);
  frame ← parse_frame;
  mret (mkWindowSpec partition_by order_by frame).

Definition parse_order_by : parser (list OrderByItem) :=
  comma_list ('(name, asc) ← parse_order_item; mret (mkOrderBy name.1 name.2 asc)).

(** The bucket of a unit in nanoseconds; an unknown unit has bucket 1. *)
Definition trunc_bucket (unit : string) : Z :=
  if String.eqb unit "us" then 1000
  else if String.eqb unit "ms" then 1000000
  else if String.eqb unit "s" then 1000000000
  else if String.eqb unit "min" then 60000000000
  else if String.eqb unit "hour" then 3600000000000
  else if String.eqb unit "day" then 86400000000000
  else if String.eqb unit "week" then 604800000000000
  else 1.

(** Alias, column, xbar bucket, date bucket. *)
Definition parse_group_item : parser (string * string * Z * Z) :=
  xbar ← match_ XBAR;
  if xbar : bool then
    expect LPAREN "(";;
    name ← parse_qualified_name;
    expect COMMA ",";;
    bucket ← parse_integer_literal;
    expect RPAREN ")";;
    mret (name, bucket, 0)
  else
  trunc ← match_ DATE_TRUNC;
  if trunc : bool then
    expect LPAREN "(";;
    tok ← current;
    if negb (same_type (type tok) STRING) then throw (runtime_error "DATE_TRUNC expects a string unit") else
    advance;;
    expect COMMA ",";;
    name ← parse_qualified_name;
    expect RPAREN ")";;
    mret (name, 0, trunc_bucket (value tok))
  else name ← parse_qualified_name; mret (name, 0, 0).

Definition group_of (items : list (string * string * Z * Z)) : GroupByClause :=
  mkGroupBy ((λ i, i.1.1.2) <$> items) ((λ i, i.1.1.1) <$> items) ((λ i, i.1.2) <$> items) (snd <$> items).

Definition parse_group_by : parser GroupByClause := items ← comma_list parse_group_item; mret (group_of items).

Definition parse_join_type : parser JoinType :=
  tok ← current;
  let join (outer : bool) t := advance;; (if outer then match_ OUTER else mret false);; expect JOIN "JOIN";; mret t in
  match type tok with
  | ASOF => join false J_ASOF
  | AJ0 => join false J_AJ0
  | INNER => join false J_INNER
  | LEFT => join true J_LEFT
  | RIGHT => join true J_RIGHT
  | FULL => join true J_FULL
  | PLUS_JOIN => join false J_PLUS
  | UNION => join false J_UNION_JOIN
  | WINDOW => join false J_WINDOW
  | _ => expect JOIN "JOIN";; mret J_INNER
  end.

(** A name with an optional [- n] or [+ n]: the name and the signed offset. *)
Inductive shift : Type := NoShift | Minus (n : Z) | Plus (n : Z).
Definition parse_shift : parser shift :=
  minus ← match_ MINUS;
  if minus : bool then n ← parse_integer_literal; mret (Minus n) else
  plus ← match_ PLUS;
  if plus : bool then n ← parse_integer_literal; mret (Plus n) else mret NoShift.

Definition window_before (s : shift) : Z := match s with Minus n => n | _ => 0 end.
Definition window_after (s : shift) : Z := match s with Plus n => n | _ => 0 end.

(** A condition of the ON clause: a comparison is appended, BETWEEN replaces the
    window. *)
Definition parse_join_cond (st : list JoinCondition * JoinWindow) : parser (list JoinCondition * JoinWindow) :=
  '(left_alias, left_col) ← parse_qualified_name;
  between ← match_ BETWEEN;
  if between : bool then
    '(_, ref_col) ← parse_qualified_name;
    before ← parse_shift;
    expect AND "AND";;
    parse_qualified_name;;
    after ← parse_shift;
    mret (st.1, mkJoinWindow ref_col left_col (window_before before) (window_after after))
  else
    op ← parse_compare_op;
    '(right_alias, right_col) ← parse_qualified_name;
    mret (st.1 ++ [mkJoinCondition left_alias left_col op right_alias right_col], st.2).

Definition no_window : JoinWindow := mkJoinWindow "" "" 0 0.

Definition parse_join : parser JoinClause :=
  jt ← parse_join_type;
  table ← expect IDENT "join table name";
  match_ AS;;
  named ← check IDENT;
  alias ← (if named : bool then take_value else mret EmptyString);
  on ← check ON;
  if match jt with J_UNION_JOIN => negb on | _ => false end then mret (mkJoin jt table alias [] no_window) else
  expect ON "ON";;
  st ← parse_join_cond ([], no_window);
  '(conds, window) ← while_match AND parse_join_cond st;
  mret (mkJoin jt table alias conds window).

(** ** Select expressions *)

(** A default [SelectExpr] and assignments to its fields. *)
Definition default_item : SelectExpr :=
  mkSelectItem Ast.NONE false "" "" "" "" false 0 50 WJ_NONE W_NONE 1 0 NoEma None None None.
Definition set_agg (x : AggFunc) (e : SelectExpr) : SelectExpr :=
  mkSelectItem x (agg_distinct e) (item_table_alias e) (column e) (agg_arg2 e) (alias e) (is_star e)
    (xbar_bucket e) (percentile_value e) (wj_agg e) (window_func e) (window_offset e) (window_default e) (ema e)
    (window_spec e) (arith_expr e) (case_when e).
Definition set_distinct (e : SelectExpr) : SelectExpr :=
  mkSelectItem (agg e) true (item_table_alias e) (column e) (agg_arg2 e) (alias e) (is_star e) (xbar_bucket e)
    (percentile_value e) (wj_agg e) (window_func e) (window_offset e) (window_default e) (ema e) (window_spec e)
    (arith_expr e) (case_when e).
Definition set_name (n : string * string) (e : SelectExpr) : SelectExpr :=
  mkSelectItem (agg e) (agg_distinct e) n.1 n.2 (agg_arg2 e) (alias e) (is_star e) (xbar_bucket e)
    (percentile_value e) (wj_agg e) (window_func e) (window_offset e) (window_default e) (ema e) (window_spec e)
    (arith_expr e) (case_when e).
Definition set_arg2 (x : string) (e : SelectExpr) : SelectExpr :=
  mkSelectItem (agg e) (agg_distinct e) (item_table_alias e) (column e) x (alias e) (is_star e) (xbar_bucket e)
    (percentile_value e) (wj_agg e) (window_func e) (window_offset e) (window_default e) (ema e) (window_spec e)
    (arith_expr e) (case_when e).
Definition set_alias (x : string) (e : SelectExpr) : SelectExpr :=
  mkSelectItem (agg e) (agg_distinct e) (item_table_alias e) (column e) (agg_arg2 e) x (is_star e)
    (xbar_bucket e) (percentile_value e) (wj_agg e) (window_func e) (window_offset e) (window_default e) (ema e)
    (window_spec e) (arith_expr e) (case_when e).
Definition set_star (n : string) (e : SelectExpr) : SelectExpr :=
  mkSelectItem (agg e) (agg_distinct e) n (column e) (agg_arg2 e) (alias e) true (xbar_bucket e)
    (percentile_value e) (wj_agg e) (window_func e) (window_offset e) (window_default e) (ema e) (window_spec e)
    (arith_expr e) (case_when e).
Definition set_xbar (x : Z) (e : SelectExpr) : SelectExpr :=
  mkSelectItem (agg e) (agg_distinct e) (item_table_alias e) (column e) (agg_arg2 e) (alias e) (is_star e) x
    (percentile_value e) (wj_agg e) (window_func e) (window_offset e) (window_default e) (ema e) (window_spec e)
    (arith_expr e) (case_when e).
Definition set_percentile (x : Z) (e : SelectExpr) : SelectExpr :=
  mkSelectItem (agg e) (agg_distinct e) (item_table_alias e) (column e) (agg_arg2 e) (alias e) (is_star e)
    (xbar_bucket e) x (wj_agg e) (window_func e) (window_offset e) (window_default e) (ema e) (window_spec e)
    (arith_expr e) (case_when e).
Definition set_wj (x : WJAggFunc) (e : SelectExpr) : SelectExpr :=
  mkSelectItem (agg e) (agg_distinct e) (item_table_alias e) (column e) (agg_arg2 e) (alias e) (is_star e)
    (xbar_bucket e) (percentile_value e) x (window_func e) (window_offset e) (window_default e) (ema e)
    (window_spec e) (arith_expr e) (case_when e).
Definition set_window (x : WindowFunc) (e : SelectExpr) : SelectExpr :=
  mkSelectItem (agg e) (agg_distinct e) (item_table_alias e) (column e) (agg_arg2 e) (alias e) (is_star e)
    (xbar_bucket e) (percentile_value e) (wj_agg e) x (window_offset e) (window_default e) (ema e)
    (window_spec e) (arith_expr e) (case_when e).
Definition set_offset (x d : Z) (e : SelectExpr) : SelectExpr :=
  mkSelectItem (agg e) (agg_distinct e) (item_table_alias e) (column e) (agg_arg2 e) (alias e) (is_star e)
    (xbar_bucket e) (percentile_value e) (wj_agg e) (window_func e) x d (ema e) (window_spec e) (arith_expr e)
    (case_when e).
Definition set_ema (x : EmaParameter) (e : SelectExpr) : SelectExpr :=
  mkSelectItem (agg e) (agg_distinct e) (item_table_alias e) (column e) (agg_arg2 e) (alias e) (is_star e)
    (xbar_bucket e) (percentile_value e) (wj_agg e) (window_func e) (window_offset e) (window_default e) x
    (window_spec e) (arith_expr e) (case_when e).
Definition set_spec (x : WindowSpec) (e : SelectExpr) : SelectExpr :=
  mkSelectItem (agg e) (agg_distinct e) (item_table_alias e) (column e) (agg_arg2 e) (alias e) (is_star e)
    (xbar_bucket e) (percentile_value e) (wj_agg e) (window_func e) (window_offset e) (window_default e) (ema e)
    (Some x) (arith_expr e) (case_when e).
Definition set_arith (x : ArithExpr) (e : SelectExpr) : SelectExpr :=
  mkSelectItem (agg e) (agg_distinct e) (item_table_alias e) (column e) (agg_arg2 e) (alias e) (is_star e)
    (xbar_bucket e) (percentile_value e) (wj_agg e) (window_func e) (window_offset e) (window_default e) (ema e)
    (window_spec e) (Some x) (case_when e).
Definition set_case (x : CaseWhenExpr) (e : SelectExpr) : SelectExpr :=
  mkSelectItem (agg e) (agg_distinct e) (item_table_alias e) (column e) (agg_arg2 e) (alias e) (is_star e)
    (xbar_bucket e) (percentile_value e) (wj_agg e) (window_func e) (window_offset e) (window_default e) (ema e)
    (window_spec e) (arith_expr e) (Some x).

(** A lone column goes to the item's name, anything else to its expression. *)
Definition set_operand (a : ArithExpr) (e : SelectExpr) : SelectExpr :=
  match a with
  | AColumn alias col => set_name (alias, col) e
  | _ => set_arith a e
  end.

Definition parse_over : parser WindowSpec :=
  expect LPAREN "(";; ws ← parse_window_spec; expect RPAREN ")";; mret ws.

(** The second argument of EMA: an alpha when it has a dot, else a period. *)
Definition parse_ema_argument (e : SelectExpr) : parser SelectExpr :=
  number ← check NUMBER;
  if number : bool then
    s ← take_value;
    if has_dot s then f ← returned (stod s); mret (set_ema (EmaAlpha f) e)
    else p ← returned (stoll s); mret (set_ema (EmaPeriod p) e)
  else mret e.

Definition parse_offset_arguments (e : SelectExpr) : parser SelectExpr :=
  n ← parse_integer_literal;
  more ← match_ COMMA;
  if more : bool then d ← parse_integer_literal; mret (set_offset n d e)
  else mret (set_offset n (window_default e) e).

Definition parse_window_func (wf : WindowFunc) (has_col has_offset : bool) : parser SelectExpr :=
  let e := set_window wf default_item in
  expect LPAREN "(";;
  e ← (if has_col then
         name ← parse_qualified_name;
         let e := set_name name e in
         comma ← check COMMA;
         if has_offset && comma then
           advance;; match wf with W_EMA => parse_ema_argument e | _ => parse_offset_arguments e end
         else mret e
       else mret e);
  expect RPAREN ")";;
  expect OVER "OVER";;
  ws ← parse_over;
  mret (set_spec ws e).

Definition wj_function (agg_type : string) : option WJAggFunc :=
  if String.eqb agg_type "AVG" then Some WJ_AVG
  else if String.eqb agg_type "SUM" then Some WJ_SUM
  else if String.eqb agg_type "COUNT" then Some WJ_COUNT
  else if String.eqb agg_type "MIN" then Some WJ_MIN
  else if String.eqb agg_type "MAX" then Some WJ_MAX
  else None.

(** The part of the name after [WJ_], when there is one. *)
Definition wj_suffix (name : string) : option string :=
  let upper := to_upper_str name in
  if (3 <? String.length upper)%nat && String.eqb (String.substring 0 3 upper) "WJ_"
  then Some (String.substring 3 (String.length upper - 3) upper) else None.

Definition parse_wj (name agg_type : string) : parser SelectExpr :=
  advance;;
  match wj_function agg_type with
  | None => throw (runtime_error ("Unknown wj_ aggregate: " +:+ name))
  | Some wj =>
      expect LPAREN "(";;
      n ← parse_qualified_name;
      expect RPAREN ")";;
      mret (set_name n (set_wj wj default_item))
  end.

Definition plain_item (a : ArithExpr) : SelectExpr :=
  match a with
  | AColumn alias "*" => set_star alias default_item
  | _ => set_operand a default_item
  end.

Definition parse_plain_item : parser SelectExpr :=
  tok ← current;
  match if same_type (type tok) IDENT then wj_suffix (value tok) else None with
  | Some agg_type => parse_wj (value tok) agg_type
  | None =>
      a ← parse_arith_expr_node;
      mret (plain_item a)
  end.

Definition window_of_agg (f : AggFunc) : option WindowFunc :=
  match f with
  | Ast.SUM => Some W_SUM | Ast.AVG => Some W_AVG | Ast.MIN => Some W_MIN | Ast.MAX => Some W_MAX
  | _ => None
  end.

(** An aggregate followed by OVER is a window function. *)
Definition parse_over_suffix (e : SelectExpr) : parser SelectExpr :=
  over ← check OVER;
  match (if over : bool then window_of_agg (agg e) else None) with
  | Some wf => advance;; ws ← parse_over; mret (set_spec ws (set_agg Ast.NONE (set_window wf e)))
  | None => mret e
  end.

(** After AS any token is a name, up to these. *)
Definition parse_alias (e : SelectExpr) : parser SelectExpr :=
  as_ ← match_ AS;
  if as_ : bool then
    stop ← check_any [COMMA; FROM; WHERE; GROUP; ORDER; LIMIT];
    over ← at_end;
    if stop || over then mret e else name ← take_value; mret (set_alias name e)
  else mret e.

(** ** Conditions and SELECT *)

Section Recursive.
  (** The recursive calls. Each is made after a token was consumed. *)
Variable parse_primary_expr : parser (option Expr).
Variable parse_select : parser SelectStmt.

Definition parse_and_expr : parser (option Expr) :=
  left ← parse_primary_expr;
  while_match AND (λ left, right ← parse_primary_expr; mret (Some (EAnd left right))) left.

Definition parse_expr : parser (option Expr) :=
  left ← parse_and_expr;
  while_match OR (λ left, right ← parse_and_expr; mret (Some (EOr left right))) left.

Definition parse_where : parser (option Expr) := parse_expr.

Definition parse_case_branch : parser (option Expr * ArithExpr) :=
  cond ← parse_expr;
  expect THEN "THEN";;
  val ← parse_arith_expr_node;
  mret (cond, val).

Definition parse_case_when_expr : parser CaseWhenExpr :=
  branches ← while_match WHEN (λ bs, b ← parse_case_branch; mret (bs ++ [b])) [];
  els ← match_ ELSE;
  else_val ← (if els : bool then e ← parse_arith_expr_node; mret (Some e) else mret None);
  expect CASE_END "END";;
  mret (mkCaseWhen branches else_val).

(** The parenthesised arguments of an aggregate. *)
Definition parse_agg_operand (e : SelectExpr) : parser SelectExpr :=
  case ← match_ CASE;
  if case : bool then c ← parse_case_when_expr; mret (set_case c e)
  else a ← parse_arith_expr_node; mret (set_operand a e).

Definition parse_count_operand (e : SelectExpr) : parser SelectExpr :=
  star ← match_ STAR;
  if star : bool then mret (set_name (item_table_alias e, "*"%string) e) else
  dist ← match_ DISTINCT;
  if dist : bool then name ← parse_qualified_name; mret (set_name name (set_distinct e))
  else parse_agg_operand e.

Definition parse_vwap_operand (e : SelectExpr) : parser SelectExpr :=
  name ← parse_qualified_name;
  expect COMMA ",";;
  '(_, col2) ← parse_qualified_name;
  mret (set_arg2 col2 (set_name name e)).

Definition parse_xbar_operand (e : SelectExpr) : parser SelectExpr :=
  name ← parse_qualified_name;
  expect COMMA ",";;
  bucket ← parse_integer_literal;
  mret (set_xbar bucket (set_name name e)).

Definition parse_agg (func : AggFunc) : parser SelectExpr :=
  let e := set_agg func default_item in
  expect LPAREN "(";;
  e ← match func with
      | Ast.COUNT => parse_count_operand e
      | Ast.VWAP => parse_vwap_operand e
      | Ast.XBAR => parse_xbar_operand e
      | _ => parse_agg_operand e
      end;
  expect RPAREN ")";;
  mret e.

Definition parse_percentile : parser SelectExpr :=
  expect LPAREN "(";;
  a ← parse_arith_expr_node;
  expect COMMA ",";;
  n ← parse_integer_literal;
  expect RPAREN ")";;
  mret (set_percentile n (set_operand a (set_agg Ast.PERCENTILE default_item))).

(** FIRST and LAST are aggregates when a parenthesis follows. *)
Definition parse_first_last (func : AggFunc) (name : string) : parser SelectExpr :=
  call ← check LPAREN;
  if call : bool then parse_agg func else mret (set_name (EmptyString, name) default_item).

Definition parse_item_body : parser SelectExpr :=
  tok ← current;
  match type tok with
  | SUM => advance;; parse_agg Ast.SUM
  | AVG => advance;; parse_agg Ast.AVG
  | COUNT => advance;; parse_agg Ast.COUNT
  | MIN => advance;; parse_agg Ast.MIN
  | MAX => advance;; parse_agg Ast.MAX
  | VWAP => advance;; parse_agg Ast.VWAP
  | STDDEV => advance;; parse_agg Ast.STDDEV
  | VARIANCE => advance;; parse_agg Ast.VARIANCE
  | MEDIAN => advance;; parse_agg Ast.MEDIAN
  | PERCENTILE => advance;; parse_percentile
  | XBAR => advance;; parse_agg Ast.XBAR
  | FIRST => advance;; parse_first_last Ast.FIRST "FIRST"
  | LAST => advance;; parse_first_last Ast.LAST "LAST"
  | ROW_NUMBER => advance;; parse_window_func W_ROW_NUMBER false false
  | RANK => advance;; parse_window_func W_RANK false false
  | DENSE_RANK => advance;; parse_window_func W_DENSE_RANK false false
  | LAG => advance;; parse_window_func W_LAG true true
  | LEAD => advance;; parse_window_func W_LEAD true true
  | EMA => advance;; parse_window_func W_EMA true true
  | DELTA => advance;; parse_window_func W_DELTA true false
  | RATIO => advance;; parse_window_func W_RATIO true false
  | STAR => advance;; mret (set_star "" default_item)
  | CASE => advance;; c ← parse_case_when_expr; mret (set_case c default_item)
  | _ => parse_plain_item
  end.

Definition parse_select_expr : parser SelectExpr :=
  e ← parse_item_body;
  e ← parse_over_suffix e;
  parse_alias e.

(** *** Conditions *)

(** [WHERE 1 = 1] is no condition, [WHERE 1 = 0] a comparison that never holds. *)
Definition never_match : Expr := ECompare "" "__never_match__" Ast.EQ (VInt 0) None.

Definition compare_literals (op : CompareOp) (lhs rhs : Z) : bool :=
  match op with
  | Ast.EQ => lhs =? rhs
  | Ast.NE => negb (lhs =? rhs)
  | Ast.GT => rhs <? lhs
  | Ast.GE => rhs <=? lhs
  | Ast.LT => lhs <? rhs
  | Ast.LE => lhs <=? rhs
  end.

Definition parse_literal_comparison : parser (option Expr) :=
  lhs ← parse_integer_literal;
  op ← parse_compare_op;
  rhs ← parse_integer_literal;
  mret (if compare_literals op lhs rhs then None else Some never_match).

Definition parse_between (table_alias column : string) (lhs : option ArithExpr) : parser (option Expr) :=
  lo ← parse_integer_literal;
  expect AND "AND";;
  hi ← parse_integer_literal;
  mret (Some (EBetween table_alias column lhs lo hi)).

Definition compare_op_of (t : TokenType) : option CompareOp :=
  match t with
  | EQ => Some Ast.EQ | NE => Some Ast.NE | GT => Some Ast.GT
  | LT => Some Ast.LT | GE => Some Ast.GE | LE => Some Ast.LE | _ => None
  end.

(** The value after the operator of a function predicate. *)
Definition parse_predicate_value : parser CompareValue :=
  tok ← current;
  call ← peek_is LPAREN;
  match type tok with
  | NOW | EPOCH_S | EPOCH_MS | DATE_TRUNC | INTERVAL => e ← parse_arith_expr_node; mret (VExpr e)
  | IDENT =>
      if call : bool then e ← parse_arith_expr_node; mret (VExpr e)
      else fail_at "Parser: expected value after function predicate, got '"
  | NUMBER => advance;; number_value (value tok)
  | STRING => advance;; mret (VString (value tok))
  | _ => fail_at "Parser: expected value after function predicate, got '"
  end.

Definition parse_function_predicate : parser (option Expr) :=
  lhs ← parse_arith_expr_node;
  between ← match_ BETWEEN;
  if between : bool then parse_between "" "" (Some lhs) else
  tok ← current;
  match compare_op_of (type tok) with
  | Some _ =>
      op ← parse_compare_op;
      v ← parse_predicate_value;
      mret (Some (ECompare "" "" op v (Some lhs)))
  | None => mret (Some (ECompare "" "" Ast.NE (VInt 0) (Some lhs)))
  end.

(** A literal of an IN list; [None] for any other token. *)
Definition parse_in_value : parser (option Z) :=
  tok ← current;
  match type tok with
  | NUMBER =>
      advance;;
      v ← number_value (value tok);
      mret (match v with VInt i => Some i | VFloat _ i => Some i | _ => None end)
  | STRING => advance;; mret (Some (match stoll (value tok) with Valid v => v | _ => 0 end))
  | _ => mret None
  end.

Definition parse_in (table_alias column : string) : parser (option Expr) :=
  expect LPAREN "(";;
  sub ← check SELECT;
  if sub : bool then
    q ← parse_select;
    expect RPAREN ")";;
    mret (Some (EInSubquery table_alias column q))
  else
    first ← parse_in_value;
    vs ← while (λ vs,
           more ← match_ COMMA;
           if more : bool then
             v ← parse_in_value;
             mret (match v with Some v => Continue (vs ++ [v]) | None => Break vs end)
           else mret (Break vs)) (option_list first);
    expect RPAREN ")";;
    mret (Some (EIn table_alias column vs)).

Definition parse_is_null (table_alias column : string) : parser (option Expr) :=
  negated ← match_ NOT;
  expect NULL_KW "NULL";;
  mret (Some (EIsNull table_alias column negated)).

Definition parse_like (table_alias column : string) (negated : bool) : parser (option Expr) :=
  pattern ← parse_string_literal;
  mret (Some (ELike table_alias column pattern negated)).

Definition parse_comparison (table_alias column : string) : parser (option Expr) :=
  op ← parse_compare_op;
  tok ← current;
  sub ← peek_is SELECT;
  let compare v := mret (Some (ECompare table_alias column op v None)) in
  match type tok with
  | LPAREN =>
      if sub : bool then
        advance;;
        q ← parse_select;
        expect RPAREN ")";;
        mret (Some (EScalarSubquery table_alias column op q))
      else fail_at "Parser: expected value in WHERE condition, got '"
  | NOW | EPOCH_S | EPOCH_MS | DATE_TRUNC | INTERVAL => e ← parse_arith_expr_node; compare (VExpr e)
  | NUMBER => advance;; v ← number_value (value tok); compare v
  | STRING => advance;; compare (VString (value tok))
  | IDENT | STAR => advance;; compare (VInt 0)
  | _ => fail_at "Parser: expected value in WHERE condition, got '"
  end.

Definition parse_column_condition : parser (option Expr) :=
  '(table_alias, column) ← parse_qualified_name;
  between ← match_ BETWEEN;
  if between : bool then parse_between table_alias column None else
  in_ ← match_ IN;
  if in_ : bool then parse_in table_alias column else
  is_ ← match_ IS;
  if is_ : bool then parse_is_null table_alias column else
  like ← match_ LIKE;
  if like : bool then parse_like table_alias column false else
  not_ ← check NOT;
  not_like ← peek_is LIKE;
  if not_ && not_like then advance;; advance;; parse_like table_alias column true
  else parse_comparison table_alias column.

Definition parse_primary_body : parser (option Expr) :=
  not_ ← match_ NOT;
  if not_ : bool then sub ← parse_primary_expr; mret (Some (ENot sub)) else
  paren ← match_ LPAREN;
  if paren : bool then sub ← parse_expr; expect RPAREN ")";; mret sub else
  number ← check NUMBER;
  if number : bool then parse_literal_comparison else
  ident ← check IDENT;
  call ← peek_is LPAREN;
  if ident && call then parse_function_predicate else parse_column_condition.

(** *** SELECT *)

Definition star_item : SelectExpr := set_star "" default_item.

Definition parse_select_list : parser (list SelectExpr) :=
  star ← match_ STAR;
  if star : bool then mret [star_item] else comma_list parse_select_expr.

(** A subquery must have an alias; a table may have one, unless the identifier is
    one of these words between backticks. *)
Definition not_an_alias : list string := ["WHERE"; "JOIN"; "GROUP"; "ORDER"; "LIMIT"; "SAMPLE"].

(** Table, alias, subquery. *)
Definition parse_from : parser (string * string * option SelectStmt) :=
  expect FROM "FROM";;
  paren ← match_ LPAREN;
  if paren : bool then
    q ← parse_select;
    expect RPAREN ")";;
    match_ AS;;
    alias ← expect IDENT "subquery alias";
    mret (EmptyString, alias, Some q)
  else
    table ← expect IDENT "table name";
    match_ AS;;
    ident ← check IDENT;
    tok ← current;
    if ident && negb (bool_decide (value tok ∈ not_an_alias)) then advance;; mret (table, value tok, None)
    else mret (table, EmptyString, None).

Definition parse_sample : parser (option double) :=
  sample ← match_ SAMPLE;
  if sample : bool then
    s ← expect NUMBER "sample rate (0..1)";
    rate ← returned (stod s);
    if (mantissa rate <=? 0) || exceeds_one rate then throw (runtime_error "SAMPLE rate must be in (0, 1]")
    else mret (Some rate)
  else mret None.

Definition parse_optional_join : parser (option JoinClause) :=
  union ← check UNION;
  before_join ← peek_is JOIN;
  other ← check_any [ASOF; AJ0; JOIN; INNER; LEFT; RIGHT; FULL; PLUS_JOIN; WINDOW];
  if other || union && before_join then jc ← parse_join; mret (Some jc) else mret None.

(** [if (match(t)) clause = p()] *)
Definition optional {A} (t : TokenType) (p : parser A) : parser (option A) :=
  b ← match_ t;
  if b : bool then a ← p; mret (Some a) else mret None.

Definition parse_select_body : parser SelectStmt :=
  expect SELECT "SELECT";;
  dist ← match_ DISTINCT;
  cols ← parse_select_list;
  '(table, alias, subquery) ← parse_from;
  sample ← parse_sample;
  jc ← parse_optional_join;
  where_ ← optional WHERE parse_where;
  group ← optional GROUP (expect BY "BY";; parse_group_by);
  having_ ← optional HAVING parse_where;
  order ← optional ORDER (expect BY "BY";; parse_order_by);
  limit_ ← optional LIMIT parse_integer_literal;
  offset_ ← optional OFFSET parse_integer_literal;
  mret (Select (mkSelect [] false dist cols table alias subquery jc where_ group order limit_ offset_
                         sample having_ S_NONE None)).
End Recursive.

Fixpoint parse_primary_fuel (fuel : nat) (ts : list Token) : result (option Expr) :=
  match fuel with
  | O => NoFuel
  | S fuel => parse_primary_body (λ ts, parse_primary_fuel fuel ts) (λ ts, parse_select_fuel fuel ts) ts
  end
with parse_select_fuel (fuel : nat) (ts : list Token) : result SelectStmt :=
  match fuel with
  | O => NoFuel
  | S fuel => parse_select_body (λ ts, parse_primary_fuel fuel ts) (λ ts, parse_select_fuel fuel ts) ts
  end.

Definition parse_primary_expr : parser (option Expr) := λ ts, parse_primary_fuel (S (length ts)) ts.
Definition parse_select : parser SelectStmt := λ ts, parse_select_fuel (S (length ts)) ts.
Definition parse_condition : parser (option Expr) := parse_where parse_primary_expr.

(** ** Common table expressions and set operations *)

Definition parse_cte : parser (string * SelectStmt) :=
  name ← expect IDENT "CTE name";
  expect AS "AS";;
  expect LPAREN "(";;
  q ← parse_select;
  expect RPAREN ")";;
  mret (name, q).

Definition parse_cte_list : parser (list (string * SelectStmt)) := advance;; comma_list parse_cte.

Definition with_ctes (ctes : list (string * SelectStmt)) (ex : bool) (s : SelectStmt) : SelectStmt :=
  let b := body_of s in
  Select (mkSelect ctes ex (distinct b) (columns b) (from_table b) (from_alias b) (from_subquery b) (Ast.join b)
    (where_clause b) (group_by b) (order_by b) (limit b) (offset b) (sample_rate b) (having b) (set_op b) (rhs b)).

Definition with_set_op (op : SetOp) (right : SelectStmt) (s : SelectStmt) : SelectStmt :=
  let b := body_of s in
  Select (mkSelect (cte_defs b) (explain b) (distinct b) (columns b) (from_table b) (from_alias b)
    (from_subquery b) (Ast.join b) (where_clause b) (group_by b) (order_by b) (limit b) (offset b)
    (sample_rate b) (having b) op (Some right)).

Definition parse_set_operator : parser (option SetOp) :=
  tok ← current;
  match type tok with
  | UNION => advance;; all ← match_ ALL; mret (Some (if all : bool then S_UNION_ALL else S_UNION_DISTINCT))
  | INTERSECT => advance;; mret (Some S_INTERSECT)
  | EXCEPT => advance;; mret (Some S_EXCEPT)
  | _ => mret None
  end.

Definition parse_set_ops : SelectStmt → parser SelectStmt :=
  while (λ sel,
    op ← parse_set_operator;
    match op with
    | Some op => right ← parse_select; mret (Continue (with_set_op op right sel))
    | None => mret (Break sel)
    end).

Definition parse_query : parser ParsedStatement :=
  is_explain ← match_ EXPLAIN;
  has_ctes ← check WITH;
  ctes ← (if has_ctes : bool then parse_cte_list else mret []);
  sel ← parse_select;
  sel ← parse_set_ops (with_ctes ctes is_explain sel);
  mret (P_SELECT sel).

(** ** INSERT, UPDATE, DELETE *)

Definition parse_insert_value : parser InsertValue :=
  is_str ← check STRING;
  if is_str : bool then s ← take_value; mret (IString s) else
  neg ← match_ MINUS;
  s ← expect NUMBER "number or string";
  if has_dot s then d ← returned (stod s); mret (IFloat (if neg : bool then negate d else d))
  else v ← returned (stoll s); mret (IInt (if neg : bool then i64 (- v) else v)).

Definition parse_value_row : parser (list InsertValue) :=
  expect LPAREN "(";; row ← comma_list parse_insert_value; expect RPAREN ")";; mret row.

(** Is the token after the parenthesis a number? *)
Definition check_ahead_is_values : parser bool :=
  tok ← peek; mret (match type tok with NUMBER | MINUS => true | _ => false end).

Definition parse_insert_columns : parser (list string) :=
  paren ← check LPAREN;
  ahead ← check_ahead_is_values;
  if paren && negb ahead then
    advance;;
    cols ← comma_list (expect IDENT "column name");
    expect RPAREN ")";;
    mret cols
  else mret [].

Definition parse_insert : parser InsertStmt :=
  expect INSERT "INSERT";;
  expect INTO "INTO";;
  table ← expect IDENT "table name";
  cols ← parse_insert_columns;
  expect VALUES "VALUES";;
  rows ← comma_list parse_value_row;
  mret (mkInsert table cols rows).

Definition parse_assignment : parser (string * Z) :=
  col ← expect IDENT "column name";
  expect EQ "=";;
  neg ← match_ MINUS;
  v ← parse_integer_literal;
  mret (col, if neg : bool then i64 (- v) else v).

Definition parse_update : parser UpdateStmt :=
  expect UPDATE "UPDATE";;
  table ← expect IDENT "table name";
  expect SET "SET";;
  assigns ← comma_list parse_assignment;
  cond ← optional WHERE parse_condition;
  mret (mkUpdate table assigns cond).

Definition parse_delete : parser DeleteStmt :=
  expect DELETE_KW "DELETE";;
  expect FROM "FROM";;
  table ← expect IDENT "table name";
  cond ← optional WHERE parse_condition;
  mret (mkDelete table cond).

(** ** DDL *)

Definition parse_ddl_column_def : parser DdlColumnDef :=
  col ← expect IDENT "column name";
  ty ← expect IDENT "column type";
  mret (mkDdlColumn col (to_upper_str ty)).

(** A word that must come next, else the error. *)
Definition expect_word (word message : string) : parser () :=
  b ← ident_is word;
  if b : bool then advance else throw (runtime_error message).
Definition expect_type (t : TokenType) (message : string) : parser () :=
  tok ← current;
  if same_type (type tok) t then advance else throw (runtime_error message).
Definition skip_word (word : string) : parser () :=
  b ← ident_is word;
  if b : bool then advance else mret tt.

Definition parse_if_not_exists : parser bool :=
  b ← ident_is "IF";
  if b : bool then
    advance;;
    expect_type NOT "Expected NOT after IF in CREATE TABLE";;
    expect_word "EXISTS" "Expected EXISTS after IF NOT";;
    mret true
  else mret false.

(** The placement options read so far. *)
Definition parse_table_option (st : option string * option Z) : parser (option string * option Z) :=
  name ← expect IDENT "table option name";
  let key := to_upper_str name in
  expect EQ "=";;
  if String.eqb key "PLACEMENT" || String.eqb key "PLACEMENT_POLICY" then
    tok ← current;
    if same_type (type tok) STRING || same_type (type tok) IDENT then advance;; mret (Some (value tok), st.2)
    else throw (runtime_error "Expected placement policy string or identifier")
  else if String.eqb key "NODE_ID" || String.eqb key "PLACEMENT_NODE_ID" then
    node_id ← parse_integer_literal;
    if (node_id <=? 0) || (2 ^ 32 - 1 <? node_id) then
      throw (runtime_error "placement node_id must be a positive uint32")
    else mret (st.1, Some node_id)
  else throw (runtime_error ("Unsupported CREATE TABLE option: " +:+ key)).

Definition parse_create_table : parser CreateTableStmt :=
  if_not_exists ← parse_if_not_exists;
  table ← expect IDENT "table name";
  expect LPAREN "(";;
  cols ← comma_list parse_ddl_column_def;
  expect RPAREN ")";;
  options ← match_ WITH;
  '(policy, node_id) ←
    (if options : bool then
       expect LPAREN "(";;
       st ← parse_table_option (None, None);
       st ← while_match COMMA parse_table_option st;
       expect RPAREN ")";;
       mret st
     else mret (None, None));
  mret (mkCreateTable table cols if_not_exists policy node_id).

Definition parse_drop_table : parser DropTableStmt :=
  b ← ident_is "IF";
  (if b : bool then advance;; expect_word "EXISTS" "Expected EXISTS after IF in DROP TABLE" else mret tt);;
  table ← expect IDENT "table name";
  mret (mkDropTable table b).

(** A duration in nanoseconds; the product wraps. *)
Definition parse_ns : parser Z :=
  val ← parse_integer_literal;
  named ← check IDENT;
  unit ← (if named : bool then u ← take_value; mret (to_upper_str u) else mret "HOURS"%string);
  if String.eqb unit "HOURS" then mret (i64 (val * 3600000000000))
  else if String.eqb unit "DAYS" then mret (i64 (val * 86400000000000))
  else if String.eqb unit "MINUTES" then mret (i64 (val * 60000000000))
  else throw (runtime_error ("Unknown time unit: " +:+ unit)).

(** Warm, cold and drop ages. *)
Definition parse_tiers : Z * Z * Z → parser (Z * Z * Z) :=
  while (λ '(warm, cold, drop),
    named ← check IDENT;
    if negb named then mret (Break (warm, cold, drop)) else
    word ← take_value;
    let tier := to_upper_str word in
    if String.eqb tier "HOT" then parse_ns;; mret (Continue (warm, cold, drop))
    else if String.eqb tier "WARM" then ns ← parse_ns; mret (Continue (ns, cold, drop))
    else if String.eqb tier "COLD" then ns ← parse_ns; mret (Continue (warm, ns, drop))
    else if String.eqb tier "DROP" then ns ← parse_ns; mret (Continue (warm, cold, ns))
    else mret (Break (warm, cold, drop))).

Definition parse_set_attribute : parser AlterAction :=
  col ← expect IDENT "column name";
  attr ← expect IDENT "attribute type (SORTED/GROUPED/PARTED)";
  let attr := to_upper_str attr in
  if bool_decide (attr ∈ ["SORTED"; "GROUPED"; "PARTED"]%string) then mret (SET_ATTRIBUTE col attr)
  else throw (runtime_error ("Unknown attribute type: " +:+ attr +:+ " (expected SORTED, GROUPED, or PARTED)")).

Definition parse_alter_set : parser AlterAction :=
  tok ← current;
  if negb (same_type (type tok) IDENT) then throw (runtime_error "Expected TTL or ATTRIBUTE after SET") else
  let set_what := to_upper_str (value tok) in
  if String.eqb set_what "ATTRIBUTE" then advance;; parse_set_attribute
  else if String.eqb set_what "TTL" then
    advance;;
    n ← parse_integer_literal;
    named ← check IDENT;
    unit ← (if named : bool then u ← take_value; mret (to_upper_str u) else mret "DAYS"%string);
    mret (SET_TTL n unit)
  else if String.eqb set_what "STORAGE" then
    advance;;
    expect_word "POLICY" "Expected POLICY after STORAGE";;
    '(warm, cold, drop) ← parse_tiers (0, 0, 0);
    mret (SET_STORAGE_POLICY warm cold drop)
  else throw (runtime_error "Expected TTL, ATTRIBUTE, or STORAGE after SET").

Definition parse_alter_table : parser AlterTableStmt :=
  table ← expect IDENT "table name";
  tok ← current;
  let is_set := same_type (type tok) SET in
  if negb (same_type (type tok) IDENT) && negb is_set then
    throw (runtime_error "Expected ADD, DROP, or SET after ALTER TABLE name")
  else
  let verb := if is_set then "SET"%string else to_upper_str (value tok) in
  advance;;
  act ← (if String.eqb verb "ADD" then
           skip_word "COLUMN";; def ← parse_ddl_column_def; mret (ADD_COLUMN def)
         else if String.eqb verb "DROP" then
           skip_word "COLUMN";; col ← expect IDENT "column name"; mret (DROP_COLUMN col)
         else if String.eqb verb "SET" then parse_alter_set
         else throw (runtime_error ("Unknown ALTER TABLE action: " +:+ verb)));
  mret (mkAlterTable table act).

(** After CREATE MATERIALIZED or DROP MATERIALIZED. *)
Definition parse_view_name : parser string :=
  expect_type VIEW "Expected VIEW after MATERIALIZED";;
  expect IDENT "view name".

Definition parse_create : parser ParsedStatement :=
  mv ← match_ MATERIALIZED;
  if mv : bool then
    name ← parse_view_name;
    as_ ← match_ AS;
    (if as_ : bool then mret tt else expect_word "AS" "Expected AS after view name");;
    q ← parse_select;
    mret (P_CREATE_MV name q)
  else
    expect_word "TABLE" "Expected TABLE or MATERIALIZED after CREATE";;
    t ← parse_create_table;
    mret (P_CREATE_TABLE t).

Definition parse_drop : parser ParsedStatement :=
  mv ← match_ MATERIALIZED;
  if mv : bool then name ← parse_view_name; mret (P_DROP_MV name)
  else
    expect_word "TABLE" "Expected TABLE or MATERIALIZED after DROP";;
    t ← parse_drop_table;
    mret (P_DROP_TABLE t).

Definition dispatch_ddl : parser ParsedStatement :=
  verb ← take_value;
  let verb := to_upper_str verb in
  if String.eqb verb "CREATE" then parse_create
  else if String.eqb verb "DROP" then parse_drop
  else
    expect_word "TABLE" "Expected TABLE after ALTER";;
    t ← parse_alter_table;
    mret (P_ALTER_TABLE t).

(** ** Statements *)

Definition parse_show : parser ParsedStatement := advance;; skip_word "TABLES";; mret P_SHOW_TABLES.

Definition parse_describe : parser ParsedStatement :=
  advance;;
  over ← at_end;
  name ← (if over : bool then mret EmptyString else take_value);
  mret (P_DESCRIBE_TABLE name).

(** What follows the tokens of the statement is not looked at. *)
Definition parse_tokens : parser ParsedStatement :=
  tok ← current;
  match type tok with
  | IDENT =>
      let up := to_upper_str (value tok) in
      if bool_decide (up ∈ ["CREATE"; "DROP"; "ALTER"]%string) then dispatch_ddl
      else if String.eqb up "SHOW" then parse_show
      else if bool_decide (up ∈ ["DESCRIBE"; "DESC"]%string) then parse_describe
      else parse_query
  | INSERT => s ← parse_insert; mret (P_INSERT s)
  | UPDATE => s ← parse_update; mret (P_UPDATE s)
  | DELETE_KW => s ← parse_delete; mret (P_DELETE s)
  | _ => parse_query
  end.

Definition parse_statement (sql : string) : result ParsedStatement :=
  match tokenize sql with
  | Tokens ts => parse_tokens ts
  | Error e => Threw (token_exception e)
  | OutOfFuel => NoFuel
  end.

Definition parse (sql : string) : result SelectStmt :=
  match parse_statement sql with
  | Parsed (P_SELECT s) rest => Parsed s rest
  | Parsed _ _ => Threw (runtime_error "Expected SELECT statement, got DDL")
  | Threw e => Threw e
  | NoFuel => NoFuel
  end.
