(* ===== verification/ParserFacts.v ===== *)
(** * Theorems about the SQL parser

    Termination of [Parser.v] and what the statements it returns say of the text,
    by a weakest precondition of parsers. *)

From S2P Require Import Prelude.
From S2P Require Import Ast.
From S2P Require Import Text.
From S2P Require Import Tokenizer.
From S2P Require Import Literals.
From S2P Require Import Parser.
From stdpp Require Import base list strings.
From Stdlib Require Import ZArith Lia.

Open Scope Z_scope.

(** ** Weakest preconditions *)

(** [p] does not run out of fuel on [ts], and what it returns satisfies [Q]. *)
Definition runs {A} (p : parser A) (Q : A → list Token → Prop) (ts : list Token) : Prop :=
  match p ts with
  | Parsed a rest => Q a rest
  | Threw _ => True
  | NoFuel => False
  end.

(** On fewer than [n] tokens [p] terminates and leaves no more than it was given. *)
Definition shrinks {A} (n : nat) (p : parser A) : Prop :=
  ∀ ts, (length ts < n)%nat → runs p (λ _ rest, (length rest <= length ts)%nat) ts.

Lemma runs_mono {A} (p : parser A) (Q Q' : A → list Token → Prop) ts :
  runs p Q ts → (∀ a r, Q a r → Q' a r) → runs p Q' ts.
Proof. unfold runs. intros H HQ. destruct (p ts); [by apply HQ|done|done]. Qed.

Lemma runs_bind {A B} (p : parser A) (f : A → parser B) Q ts :
  runs p (λ a, runs (f a) Q) ts → runs (p ≫= f) Q ts.
Proof. unfold runs, mbind, parser_bind. by destruct (p ts). Qed.

Lemma runs_ret {A} (a : A) (Q : A → list Token → Prop) ts : Q a ts → runs (mret a) Q ts.
Proof. done. Qed.

Lemma runs_shrinks {A} n (p : parser A) Q ts :
  shrinks n p → (length ts < n)%nat → (∀ a r, (length r <= length ts)%nat → Q a r) → runs p Q ts.
Proof. intros Hp Hn HQ. eapply runs_mono; [by apply Hp|]. intros a r. apply HQ. Qed.

(** *** Primitive parsers *)

Lemma has_type_nonempty t ts : has_type t ts = true → (0 < length ts)%nat.
Proof. destruct ts; simpl; [done|lia]. Qed.

Lemma length_tail_lt (ts : list Token) : (0 < length ts)%nat → (length (tail ts) < length ts)%nat.
Proof. destruct ts; simpl; lia. Qed.

Lemma runs_check t Q ts : (∀ b, (b = true → (0 < length ts)%nat) → Q b ts) → runs (check t) Q ts.
Proof. intros H. apply H, has_type_nonempty. Qed.

Lemma runs_check_any l Q ts : (∀ b, (b = true → (0 < length ts)%nat) → Q b ts) → runs (check_any l) Q ts.
Proof.
  intros H. apply H. intros (t & _ & Ht)%existsb_exists. by eapply has_type_nonempty.
Qed.

Lemma runs_match t Q ts :
  (∀ r, (length r < length ts)%nat → Q true r) → Q false ts → runs (match_ t) Q ts.
Proof.
  intros H1 H2. unfold runs, match_. destruct (has_type t ts) eqn:Ht; [|done].
  apply H1, length_tail_lt. by eapply has_type_nonempty.
Qed.

Lemma runs_expect t m Q ts :
  (∀ s r, (length r < length ts)%nat → Q s r) → runs (expect t m) Q ts.
Proof.
  intros H. unfold expect. apply runs_bind, runs_check. intros [] Hb; [|done].
  apply H. apply length_tail_lt. by apply Hb.
Qed.

Lemma runs_current Q ts :
  (∀ tok, (type tok ≠ END → (0 < length ts)%nat) → Q tok ts) → runs current Q ts.
Proof. intros H. apply H. destruct ts; simpl; [done|lia]. Qed.

Lemma runs_advance Q ts :
  (∀ r, (length r <= length ts)%nat → ((0 < length ts)%nat → (length r < length ts)%nat) → Q tt r) →
  runs advance Q ts.
Proof. intros H. apply H; destruct ts; simpl; lia. Qed.

Lemma runs_take_value Q ts :
  (∀ s r, (length r <= length ts)%nat → ((0 < length ts)%nat → (length r < length ts)%nat) → Q s r) →
  runs take_value Q ts.
Proof. intros H. apply runs_bind, runs_current. intros tok _. apply runs_bind, runs_advance. intros r. apply H. Qed.

Lemma runs_peek_is t Q ts : (∀ b, Q b ts) → runs (peek_is t) Q ts.
Proof. intros H. apply H. Qed.
Lemma runs_is_ident_like Q ts : (∀ b, Q b ts) → runs is_ident_like Q ts.
Proof. intros H. apply H. Qed.
Lemma runs_ident_is w Q ts : (∀ b, Q b ts) → runs (ident_is w) Q ts.
Proof. intros H. apply H. Qed.
Lemma runs_at_end Q ts : (∀ b, Q b ts) → runs at_end Q ts.
Proof. intros H. apply H. Qed.
Lemma runs_ahead Q ts : (∀ b, Q b ts) → runs check_ahead_is_values Q ts.
Proof. intros H. apply H. Qed.
Lemma runs_throw {A} e (Q : A → list Token → Prop) ts : runs (throw e) Q ts.
Proof. done. Qed.
Lemma runs_fail_at {A} m (Q : A → list Token → Prop) ts : runs (fail_at m) Q ts.
Proof. done. Qed.
Lemma runs_returned {A} (c : converted A) Q ts : (∀ a, Q a ts) → runs (returned c) Q ts.
Proof. intros H. destruct c; [by apply runs_ret|done|done]. Qed.

(** *** Loops *)

Lemma runs_while_fuel {A} (I : list Token → Prop) n (body : A → parser (flow A)) a Q ts :
  (∀ a ts, I ts → runs (body a) (λ next r,
     match next with Continue _ => I r ∧ (length r < length ts)%nat | Break a => Q a r end) ts) →
  I ts → (length ts < n)%nat → runs (while_fuel n body a) Q ts.
Proof.
  intros Hbody. revert a ts. induction n as [|n IH]; intros a ts HI Hn; [lia|]. cbn [while_fuel].
  apply runs_bind. eapply runs_mono; [by apply Hbody|]. intros [a'|a'] r.
  - intros [HI' Hlt]. apply IH; [done|lia].
  - intros HQ. by apply runs_ret.
Qed.

Lemma runs_while {A} (I : list Token → Prop) (body : A → parser (flow A)) a Q ts :
  (∀ a ts, I ts → runs (body a) (λ next r,
     match next with Continue _ => I r ∧ (length r < length ts)%nat | Break a => Q a r end) ts) →
  I ts → runs (while body a) Q ts.
Proof. intros. eapply runs_while_fuel; eauto. Qed.

Lemma shrinks_while {A} n (body : A → parser (flow A)) a :
  (∀ a ts, (length ts < n)%nat → runs (body a) (λ next r,
     match next with Continue _ => (length r < length ts)%nat | Break _ => (length r <= length ts)%nat end) ts) →
  shrinks n (while body a).
Proof.
  intros Hbody ts Hn.
  apply (runs_while (λ ts', (length ts' <= length ts)%nat)); [|lia].
  intros a' ts' Hl. eapply runs_mono; [apply Hbody; lia|]. intros [a''|a''] r; simpl; lia.
Qed.

Lemma shrinks_while_match {A} n t (p : A → parser A) a :
  (∀ a, shrinks n (p a)) → shrinks n (while_match t p a).
Proof.
  intros Hp. apply shrinks_while. intros a' ts Hn. apply runs_bind, runs_match; [|by apply runs_ret].
  intros r Hr. apply runs_bind. eapply (runs_shrinks n); [apply Hp|lia|]. intros a'' r' Hr'. apply runs_ret. lia.
Qed.

Lemma shrinks_comma_list {A} n (p : parser A) : shrinks n p → shrinks n (comma_list p).
Proof.
  intros Hp ts Hn. apply runs_bind. eapply (runs_shrinks n); [done|done|]. intros a r Hr.
  eapply (runs_shrinks n); [|lia|].
  - apply shrinks_while_match. intros l ts' Hn'. apply runs_bind. eapply (runs_shrinks n); [done|done|].
    intros a' r' Hr'. by apply runs_ret.
  - intros l r' Hr'. simpl. lia.
Qed.

(** *** Automation

    [parse_steps] runs through a parser: every primitive is replaced by what its
    rule says of the tokens left, a parser with a lemma in the database [parse]
    by that lemma. *)

Create HintDb parse.

(** A recursive parser is known to terminate below some length only. *)
Ltac use_shrinks :=
  first
  [ match goal with H : shrinks ?n _ |- runs _ _ _ =>
      first [ apply (runs_shrinks n); [solve [eauto 3 with parse nocore]|lia|intros]
            | apply (runs_shrinks (S n)); [solve [eauto 3 with parse nocore]|lia|intros] ] end
  | lazymatch goal with |- runs _ _ ?ts =>
      apply (runs_shrinks (S (length ts))); [solve [eauto 3 with parse nocore]|lia|intros] end ].

Ltac parse_step :=
  lazymatch goal with
  | |- runs (mbind _ _) _ _ => apply runs_bind
  | |- runs (mret _) _ _ => apply runs_ret
  | |- runs (throw _) _ _ => apply runs_throw
  | |- runs (fail_at _) _ _ => apply runs_fail_at
  | |- runs (returned _) _ _ => apply runs_returned; intros
  | |- runs (check _) _ _ => apply runs_check; intros
  | |- runs (check_any _) _ _ => apply runs_check_any; intros
  | |- runs (match_ _) _ _ => apply runs_match; [intros|]
  | |- runs (expect _ _) _ _ => apply runs_expect; intros
  | |- runs current _ _ => apply runs_current; intros
  | |- runs advance _ _ => apply runs_advance; intros
  | |- runs take_value _ _ => apply runs_take_value; intros
  | |- runs (peek_is _) _ _ => apply runs_peek_is; intros
  | |- runs is_ident_like _ _ => apply runs_is_ident_like; intros
  | |- runs (ident_is _) _ _ => apply runs_ident_is; intros
  | |- runs at_end _ _ => apply runs_at_end; intros
  | |- runs check_ahead_is_values _ _ => apply runs_ahead; intros
  | |- runs (if ?b then _ else _) _ _ => destruct b
  | H : type ?tok ≠ END → _ |- runs (match type ?tok with _ => _ end) _ _ =>
      let E := fresh in destruct (type tok) eqn:E; try specialize (H ltac:(discriminate))
  | |- runs (match ?x with _ => _ end) _ _ => destruct x
  | |- runs (let _ := _ in _) _ _ => cbv zeta
  | |- runs _ _ _ => use_shrinks
  end.
Ltac parse_steps := repeat (cbv beta zeta; parse_step).
Ltac shrink := let ts := fresh "ts" in intros ts ?; parse_steps; try done; try lia.
#[export] Hint Extern 2 (shrinks _ (mbind _ _)) => solve [shrink] : parse.
#[export] Hint Extern 2 (shrinks _ (if _ then _ else _)) => solve [shrink] : parse.
#[export] Hint Extern 1 (shrinks _ (expect _ _)) => solve [shrink] : parse.
#[export] Hint Extern 1 (shrinks _ (match_ _)) => solve [shrink] : parse.
#[export] Hint Extern 1 (shrinks _ (take_value)) => solve [shrink] : parse.
#[export] Hint Extern 1 (shrinks _ (mret _)) => solve [shrink] : parse.
#[export] Hint Extern 1 (shrinks _ advance) => solve [shrink] : parse.
#[export] Hint Resolve shrinks_while_match shrinks_comma_list : parse.

(** ** The parsers terminate *)

Lemma shrinks_qualified_name n : shrinks n parse_qualified_name.
Proof. unfold parse_qualified_name. shrink. Qed.
Lemma shrinks_integer n : shrinks n parse_integer_literal.
Proof. unfold parse_integer_literal. shrink. Qed.
Lemma shrinks_string n : shrinks n parse_string_literal.
Proof. unfold parse_string_literal. shrink. Qed.
Lemma shrinks_number_value n s : shrinks n (number_value s).
Proof. unfold number_value. shrink. Qed.
Lemma shrinks_compare_op n : shrinks n parse_compare_op.
Proof. unfold parse_compare_op. shrink. Qed.
#[export] Hint Resolve shrinks_qualified_name shrinks_integer shrinks_string shrinks_number_value
  shrinks_compare_op : parse.

(** *** Arithmetic *)

Section Arith.
Context (n : nat) (rec : parser ArithExpr) (Hrec : shrinks n rec).
#[local] Hint Resolve Hrec : parse.

Lemma shrinks_function_call : shrinks (S n) (parse_function_call rec).
Proof. unfold parse_function_call, parse_call_args. shrink. Qed.
Lemma shrinks_substr : shrinks n (parse_substr rec).
Proof. unfold parse_substr. shrink. Qed.
#[local] Hint Resolve shrinks_function_call shrinks_substr : parse.

Lemma shrinks_arith_primary : shrinks (S n) (parse_arith_primary rec).
Proof. unfold parse_arith_primary, simple_func. shrink. Qed.

Lemma shrinks_arith_chain m op_of p : (∀ t, op_of t ≠ None → t ≠ END) → shrinks m p → shrinks m (arith_chain op_of p).
Proof.
  intros Hop Hp ts Hts. apply runs_bind. eapply (runs_shrinks m); [done|done|]. intros a r Hr.
  apply (runs_shrinks m); [|lia|intros; lia]. apply shrinks_while. intros left ts' Hts'.
  apply runs_bind, runs_current. intros tok Htok. destruct (op_of (type tok)) as [op|] eqn:Ho; [|by apply runs_ret].
  specialize (Htok (Hop (type tok) ltac:(congruence))). apply runs_bind, runs_advance. intros r' _ Hr'.
  specialize (Hr' Htok). apply runs_bind. eapply (runs_shrinks m); [done|lia|]. intros a' r'' Hr''. apply runs_ret. lia.
Qed.

Lemma shrinks_arith_sum : shrinks (S n) (parse_arith_sum rec).
Proof.
  apply shrinks_arith_chain; [by intros []|]. apply shrinks_arith_chain; [by intros []|apply shrinks_arith_primary].
Qed.
End Arith.

Lemma shrinks_arith_fuel n : shrinks n (λ ts, parse_arith_fuel n ts).
Proof.
  induction n as [|n IH]; [intros ts Hts; lia|]. intros ts Hts. by apply (shrinks_arith_sum n).
Qed.

Lemma shrinks_arith n : shrinks n parse_arith_expr_node.
Proof. intros ts _. apply (shrinks_arith_fuel (S (length ts))). lia. Qed.
#[export] Hint Resolve shrinks_arith : parse.

(** *** Clauses *)

Lemma shrinks_direction n : shrinks n parse_direction.
Proof. unfold parse_direction. shrink. Qed.
Lemma shrinks_frame_bound n t s : shrinks n (parse_frame_bound t s).
Proof. unfold parse_frame_bound. shrink. Qed.
#[export] Hint Resolve shrinks_direction shrinks_frame_bound : parse.

Lemma shrinks_frame n : shrinks n parse_frame.
Proof. unfold parse_frame. shrink. Qed.
Lemma shrinks_order_item n : shrinks n parse_order_item.
Proof. unfold parse_order_item. shrink. Qed.
#[export] Hint Resolve shrinks_frame shrinks_order_item : parse.

Lemma shrinks_window_spec n : shrinks n parse_window_spec.
Proof. unfold parse_window_spec. shrink. Qed.
Lemma shrinks_order_by n : shrinks n parse_order_by.
Proof. unfold parse_order_by. apply shrinks_comma_list. shrink. Qed.
Lemma shrinks_group_item n : shrinks n parse_group_item.
Proof. unfold parse_group_item. shrink. Qed.
#[export] Hint Resolve shrinks_window_spec shrinks_order_by shrinks_group_item : parse.

Lemma shrinks_group_by n : shrinks n parse_group_by.
Proof. unfold parse_group_by. shrink. Qed.
Lemma shrinks_join_type n : shrinks n parse_join_type.
Proof. unfold parse_join_type. shrink. Qed.
Lemma shrinks_shift n : shrinks n parse_shift.
Proof. unfold parse_shift. shrink. Qed.
#[export] Hint Resolve shrinks_group_by shrinks_join_type shrinks_shift : parse.

Lemma shrinks_join_cond n st : shrinks n (parse_join_cond st).
Proof. unfold parse_join_cond. shrink. Qed.
#[export] Hint Resolve shrinks_join_cond : parse.
Lemma shrinks_join n : shrinks n parse_join.
Proof. unfold parse_join. shrink. Qed.
#[export] Hint Resolve shrinks_join : parse.

(** *** Select items *)

Lemma shrinks_over n : shrinks n parse_over.
Proof. unfold parse_over. shrink. Qed.
Lemma shrinks_ema n e : shrinks n (parse_ema_argument e).
Proof. unfold parse_ema_argument. shrink. Qed.
Lemma shrinks_offsets n e : shrinks n (parse_offset_arguments e).
Proof. unfold parse_offset_arguments. shrink. Qed.
#[export] Hint Resolve shrinks_over shrinks_ema shrinks_offsets : parse.

Lemma shrinks_window_func n wf c o : shrinks n (parse_window_func wf c o).
Proof. unfold parse_window_func. shrink. Qed.
Lemma shrinks_wj n name t : shrinks n (parse_wj name t).
Proof. unfold parse_wj. shrink. Qed.
#[export] Hint Resolve shrinks_window_func shrinks_wj : parse.
Lemma shrinks_plain_item n : shrinks n parse_plain_item.
Proof. unfold parse_plain_item. shrink. Qed.
Lemma shrinks_over_suffix n e : shrinks n (parse_over_suffix e).
Proof. unfold parse_over_suffix. shrink. Qed.
Lemma shrinks_alias n e : shrinks n (parse_alias e).
Proof. unfold parse_alias. shrink. Qed.
#[export] Hint Resolve shrinks_plain_item shrinks_over_suffix shrinks_alias : parse.

Section Recursive.
Context (n : nat) (primary : parser (option Expr)) (select : parser SelectStmt).
Context (Hprimary : shrinks n primary) (Hselect : shrinks n select).
#[local] Hint Resolve Hprimary Hselect : parse.

Lemma shrinks_and_expr : shrinks n (parse_and_expr primary).
Proof. unfold parse_and_expr. shrink. Qed.
#[local] Hint Resolve shrinks_and_expr : parse.
Lemma shrinks_expr : shrinks n (parse_expr primary).
Proof. unfold parse_expr. shrink. Qed.
#[local] Hint Resolve shrinks_expr : parse.
Lemma shrinks_where : shrinks n (parse_where primary).
Proof. apply shrinks_expr. Qed.
Lemma shrinks_case_branch : shrinks n (parse_case_branch primary).
Proof. unfold parse_case_branch. shrink. Qed.
#[local] Hint Resolve shrinks_where shrinks_case_branch : parse.
Lemma shrinks_case_when : shrinks n (parse_case_when_expr primary).
Proof. unfold parse_case_when_expr. shrink. Qed.
#[local] Hint Resolve shrinks_case_when : parse.
Lemma shrinks_agg_operand e : shrinks n (parse_agg_operand primary e).
Proof. unfold parse_agg_operand. shrink. Qed.
#[local] Hint Resolve shrinks_agg_operand : parse.
Lemma shrinks_count_operand e : shrinks n (parse_count_operand primary e).
Proof. unfold parse_count_operand. shrink. Qed.
#[local] Hint Resolve shrinks_count_operand : parse.
Lemma shrinks_vwap_operand e : shrinks n (parse_vwap_operand e).
Proof. unfold parse_vwap_operand. shrink. Qed.
Lemma shrinks_xbar_operand e : shrinks n (parse_xbar_operand e).
Proof. unfold parse_xbar_operand. shrink. Qed.
#[local] Hint Resolve shrinks_vwap_operand shrinks_xbar_operand : parse.
Lemma shrinks_agg f : shrinks n (parse_agg primary f).
Proof. unfold parse_agg. shrink. Qed.
Lemma shrinks_percentile : shrinks n parse_percentile.
Proof. unfold parse_percentile. shrink. Qed.
#[local] Hint Resolve shrinks_agg shrinks_percentile : parse.
Lemma shrinks_first_last f s : shrinks n (parse_first_last primary f s).
Proof. unfold parse_first_last. shrink. Qed.
#[local] Hint Resolve shrinks_first_last : parse.
Lemma shrinks_item_body : shrinks n (parse_item_body primary).
Proof. unfold parse_item_body. shrink. Qed.
#[local] Hint Resolve shrinks_item_body : parse.
Lemma shrinks_select_expr : shrinks n (parse_select_expr primary).
Proof. unfold parse_select_expr. shrink. Qed.
#[local] Hint Resolve shrinks_select_expr : parse.

(** *** Conditions *)

Lemma shrinks_literal_comparison : shrinks (S n) parse_literal_comparison.
Proof. unfold parse_literal_comparison. shrink. Qed.
Lemma shrinks_between m a c l : shrinks m (parse_between a c l).
Proof. unfold parse_between. shrink. Qed.
Lemma shrinks_predicate_value m : shrinks m parse_predicate_value.
Proof. unfold parse_predicate_value. shrink. Qed.
#[local] Hint Resolve shrinks_literal_comparison shrinks_between shrinks_predicate_value : parse.
Lemma shrinks_function_predicate : shrinks (S n) parse_function_predicate.
Proof. unfold parse_function_predicate. shrink. Qed.
Lemma shrinks_in_value m : shrinks m parse_in_value.
Proof. unfold parse_in_value. shrink. Qed.
#[local] Hint Resolve shrinks_function_predicate shrinks_in_value : parse.
Lemma shrinks_in_rest m vs : shrinks m
  (while (λ vs, more ← match_ COMMA;
            if more : bool then
              v ← parse_in_value; mret (match v with Some v => Continue (vs ++ [v]) | None => Break vs end)
            else mret (Break vs)) vs).
Proof. apply shrinks_while. clear. intros vs ts Hts. parse_steps; try done; try lia. destruct a; lia. Qed.
#[local] Hint Resolve shrinks_in_rest : parse.
Lemma shrinks_in a c : shrinks n (parse_in select a c).
Proof. unfold parse_in. shrink. Qed.
Lemma shrinks_is_null m a c : shrinks m (parse_is_null a c).
Proof. unfold parse_is_null. shrink. Qed.
Lemma shrinks_like m a c b : shrinks m (parse_like a c b).
Proof. unfold parse_like. shrink. Qed.
#[local] Hint Resolve shrinks_in shrinks_is_null shrinks_like : parse.
Lemma shrinks_comparison a c : shrinks (S n) (parse_comparison select a c).
Proof. unfold parse_comparison. shrink. Qed.
#[local] Hint Resolve shrinks_comparison : parse.
Lemma shrinks_column_condition : shrinks (S n) (parse_column_condition select).
Proof. unfold parse_column_condition. shrink. Qed.
#[local] Hint Resolve shrinks_column_condition : parse.
Lemma shrinks_primary_body : shrinks (S n) (parse_primary_body primary select).
Proof. unfold parse_primary_body. shrink. Qed.

(** *** SELECT *)

Lemma shrinks_select_list : shrinks n (parse_select_list primary).
Proof. unfold parse_select_list. shrink. Qed.
Lemma shrinks_from : shrinks n (parse_from select).
Proof. unfold parse_from. shrink. Qed.
Lemma shrinks_sample : shrinks n parse_sample.
Proof. unfold parse_sample. shrink. Qed.
Lemma shrinks_optional_join : shrinks n parse_optional_join.
Proof. unfold parse_optional_join. shrink. Qed.
#[local] Hint Resolve shrinks_select_list shrinks_from shrinks_sample shrinks_optional_join : parse.
Lemma shrinks_optional {A} m t (p : parser A) : shrinks m p → shrinks m (optional t p).
Proof. intros Hp. unfold optional. shrink. Qed.
#[local] Hint Resolve shrinks_optional : parse.
Lemma shrinks_select_body : shrinks (S n) (parse_select_body primary select).
Proof. unfold parse_select_body. shrink. Qed.
End Recursive.

Lemma shrinks_fuel n : shrinks n (parse_primary_fuel n) ∧ shrinks n (parse_select_fuel n).
Proof.
  induction n as [|n [IH1 IH2]]; [split; intros ts Hts; lia|].
  split; [by apply (shrinks_primary_body n)|by apply (shrinks_select_body n)].
Qed.

Lemma shrinks_primary n : shrinks n parse_primary_expr.
Proof. intros ts _. apply (shrinks_fuel (S (length ts))). lia. Qed.
Lemma shrinks_select n : shrinks n parse_select.
Proof. intros ts _. apply (shrinks_fuel (S (length ts))). lia. Qed.
Lemma shrinks_condition n : shrinks n parse_condition.
Proof. apply shrinks_where, shrinks_primary. Qed.
#[export] Hint Resolve shrinks_select shrinks_condition shrinks_optional : parse.

(** *** Statements *)

Lemma shrinks_cte n : shrinks n parse_cte.
Proof. unfold parse_cte. shrink. Qed.
#[export] Hint Resolve shrinks_cte : parse.

Lemma shrinks_set_ops n s : shrinks n (parse_set_ops s).
Proof.
  apply shrinks_while. intros sel ts Hts. unfold parse_set_operator. parse_steps; lia.
Qed.
#[export] Hint Resolve shrinks_set_ops : parse.

Lemma shrinks_query n : shrinks n parse_query.
Proof. unfold parse_query, parse_cte_list. shrink. Qed.

Lemma shrinks_insert_value n : shrinks n parse_insert_value.
Proof. unfold parse_insert_value. shrink. Qed.
#[export] Hint Resolve shrinks_query shrinks_insert_value : parse.
Lemma shrinks_value_row n : shrinks n parse_value_row.
Proof. unfold parse_value_row. shrink. Qed.
Lemma shrinks_insert_columns n : shrinks n parse_insert_columns.
Proof. unfold parse_insert_columns. shrink. Qed.
#[export] Hint Resolve shrinks_value_row shrinks_insert_columns : parse.
Lemma shrinks_insert n : shrinks n parse_insert.
Proof. unfold parse_insert. shrink. Qed.
Lemma shrinks_assignment n : shrinks n parse_assignment.
Proof. unfold parse_assignment. shrink. Qed.
#[export] Hint Resolve shrinks_insert shrinks_assignment : parse.
Lemma shrinks_update n : shrinks n parse_update.
Proof. unfold parse_update. shrink. Qed.
Lemma shrinks_delete n : shrinks n parse_delete.
Proof. unfold parse_delete. shrink. Qed.
#[export] Hint Resolve shrinks_update shrinks_delete : parse.

Lemma shrinks_expect_word n w m : shrinks n (expect_word w m).
Proof. unfold expect_word. shrink. Qed.
Lemma shrinks_expect_type n t m : shrinks n (expect_type t m).
Proof. unfold expect_type. shrink. Qed.
Lemma shrinks_skip_word n w : shrinks n (skip_word w).
Proof. unfold skip_word. shrink. Qed.
Lemma shrinks_column_def n : shrinks n parse_ddl_column_def.
Proof. unfold parse_ddl_column_def. shrink. Qed.
#[export] Hint Resolve shrinks_expect_word shrinks_expect_type shrinks_skip_word shrinks_column_def : parse.
Lemma shrinks_if_not_exists n : shrinks n parse_if_not_exists.
Proof. unfold parse_if_not_exists. shrink. Qed.
Lemma shrinks_table_option n st : shrinks n (parse_table_option st).
Proof. unfold parse_table_option. shrink. Qed.
#[export] Hint Resolve shrinks_if_not_exists shrinks_table_option : parse.
Lemma shrinks_create_table n : shrinks n parse_create_table.
Proof. unfold parse_create_table. shrink. Qed.
Lemma shrinks_drop_table n : shrinks n parse_drop_table.
Proof. unfold parse_drop_table. shrink. Qed.
Lemma shrinks_ns n : shrinks n parse_ns.
Proof. unfold parse_ns. shrink. Qed.
#[export] Hint Resolve shrinks_create_table shrinks_drop_table shrinks_ns : parse.

Lemma shrinks_tiers n st : shrinks n (parse_tiers st).
Proof.
  apply shrinks_while. intros [[warm cold] drop] ts Hts.
  apply runs_bind, runs_check. intros [] Hb; [specialize (Hb eq_refl)|by apply runs_ret]. simpl. parse_steps; lia.
Qed.
Lemma shrinks_set_attribute n : shrinks n parse_set_attribute.
Proof. unfold parse_set_attribute. shrink. Qed.
#[export] Hint Resolve shrinks_tiers shrinks_set_attribute : parse.
Lemma shrinks_alter_set n : shrinks n parse_alter_set.
Proof. unfold parse_alter_set. shrink. Qed.
#[export] Hint Resolve shrinks_alter_set : parse.
Lemma shrinks_alter_table n : shrinks n parse_alter_table.
Proof. unfold parse_alter_table. shrink. Qed.
Lemma shrinks_view_name n : shrinks n parse_view_name.
Proof. unfold parse_view_name. shrink. Qed.
#[export] Hint Resolve shrinks_alter_table shrinks_view_name : parse.
Lemma shrinks_create n : shrinks n parse_create.
Proof. unfold parse_create. shrink. Qed.
Lemma shrinks_drop n : shrinks n parse_drop.
Proof. unfold parse_drop. shrink. Qed.
#[export] Hint Resolve shrinks_create shrinks_drop : parse.
Lemma shrinks_ddl n : shrinks n dispatch_ddl.
Proof. unfold dispatch_ddl. shrink. Qed.
Lemma shrinks_show n : shrinks n parse_show.
Proof. unfold parse_show. shrink. Qed.
Lemma shrinks_describe n : shrinks n parse_describe.
Proof. unfold parse_describe. shrink. Qed.
#[export] Hint Resolve shrinks_ddl shrinks_show shrinks_describe : parse.

Lemma shrinks_tokens n : shrinks n parse_tokens.
Proof. unfold parse_tokens. shrink. Qed.

(** ** Theorems *)

(** C35. Parsing terminates on every text: [parse_statement] returns a statement or
    throws, without running out of the fuel that its loops and its recursion take
    from the number of tokens left, and it never leaves more tokens than the text
    has characters, and the final one. *)
Theorem parse_terminates sql :
  match parse_statement sql with
  | Parsed _ rest => (length rest <= S (length (chars sql)))%nat
  | Threw _ => True
  | NoFuel => False
  end.
Proof.
  unfold parse_statement, tokenize.
  pose proof (tokenize_loop_sound (S (length (chars sql))) (Z.of_nat (length (chars sql))) [] (chars sql)) as H.
  destruct (tokenize_loop _ _ [] (chars sql)) as [ts|e|]; [|done|by apply H; [lia|]].
  destruct H as (body & -> & _ & Hl); [lia|done|].
  pose proof (shrinks_tokens (S (length (body ++ [mkToken END ""]))) (body ++ [mkToken END ""]) ltac:(lia)) as Hw.
  unfold runs in Hw. destruct (parse_tokens _) as [s rest|e|]; [|done|done].
  rewrite length_app in Hw. simpl in Hl, Hw. lia.
Qed.
