(* ===== verification/Float64.v ===== *)
(** * IEEE 754 arithmetic

    The [double] of the program as the Standard Library's [spec_float], with
    binary64's precision and exponents: bits to numbers and back, conversions from
    and to integers, and the comparisons of the language. The functions of
    [<cmath>] whose last digit is up to the library are the class [Libm]. *)

From S2P Require Import Prelude.
From S2P Require Import Ast.
From S2P Require Import Literals.
From stdpp Require Import base list strings.
From Stdlib Require Import ZArith Lia SpecFloat.

Open Scope Z_scope.

Notation f64 := spec_float.

Class Libm : Type := { f64_sin : f64 → f64; f64_cos : f64 → f64; f64_atan2 : f64 → f64 → f64 }.

(** ** Numbers and their bits *)

(** The number with [mbits] bits of mantissa and [ebits] of exponent. *)
Definition float_of_bits (mbits ebits bits : Z) : f64 :=
  let sign := Z.testbit bits (mbits + ebits) in
  let e := Z.land (Z.shiftr bits mbits) (2 ^ ebits - 1) in
  let m := Z.land bits (2 ^ mbits - 1) in
  if e =? 2 ^ ebits - 1 then (if m =? 0 then S754_infinity sign else S754_nan)
  else match (if e =? 0 then m else m + 2 ^ mbits) with
       | Zpos p => S754_finite sign p (Z.max e 1 - (2 ^ (ebits - 1) - 1) - mbits)
       | _ => S754_zero sign
       end.

Definition f64_of_bits (bits : Z) : f64 := float_of_bits 52 11 bits.

(** A [float] has the same value as a [double], with a longer mantissa. *)
Definition f64_of_f32_bits (bits : Z) : f64 :=
  match float_of_bits 23 8 bits with
  | S754_finite s m e => binary_round 53 1024 s m e
  | x => x
  end.

(** [std::bit_cast<int64_t>], before the sign is taken; all NaNs are one. *)
Definition bits_of_f64 (x : f64) : Z :=
  let sign (s : bool) := if s then 2 ^ 63 else 0 in
  match x with
  | S754_zero s => sign s
  | S754_infinity s => sign s + Z.shiftl 2047 52
  | S754_nan => Z.shiftl 4095 51
  | S754_finite s m e =>
      sign s + (if Zpos m <? 2 ^ 52 then Zpos m else Z.shiftl (e + 1075) 52 + (Zpos m - 2 ^ 52))
  end.

(** ** Conversions *)

Definition f64_of_Z (z : Z) : f64 := binary_normalize 53 1024 z 0 false.
Definition f64_of_double (d : double) : f64 := binary_normalize 53 1024 (mantissa d) (exponent d) false.

(** [static_cast<int64_t>]: the fraction is dropped; out of range it is undefined. *)
Definition f64_to_i64 (x : f64) : option Z :=
  match x with
  | S754_zero _ => Some 0
  | S754_finite s m e =>
      let v := if 0 <=? e then Zpos m * 2 ^ e else Zpos m / 2 ^ (- e) in
      let v := if s then - v else v in
      if in_int64 v then Some v else None
  | _ => None
  end.

(** [std::llround]: to the nearest integer, halfway cases away from zero. *)
Definition f64_llround (x : f64) : option Z :=
  match x with
  | S754_zero _ => Some 0
  | S754_finite s m e =>
      let v := if 0 <=? e then Zpos m * 2 ^ e else (2 * Zpos m + 2 ^ (- e)) / (2 * 2 ^ (- e)) in
      let v := if s then - v else v in
      if in_int64 v then Some v else None
  | _ => None
  end.

(** ** Operations *)

Definition f64_add : f64 → f64 → f64 := SFadd 53 1024.
Definition f64_sub : f64 → f64 → f64 := SFsub 53 1024.
Definition f64_mul : f64 → f64 → f64 := SFmul 53 1024.
Definition f64_div : f64 → f64 → f64 := SFdiv 53 1024.
Definition f64_sqrt : f64 → f64 := SFsqrt 53 1024.
Definition f64_zero : f64 := S754_zero false.

Definition f64_eqb : f64 → f64 → bool := SFeqb.
Definition f64_ltb : f64 → f64 → bool := SFltb.
Definition f64_leb : f64 → f64 → bool := SFleb.

Definition f64_isfinite (x : f64) : bool :=
  match x with S754_zero _ | S754_finite _ _ _ => true | _ => false end.

Definition f64_clamp (v lo hi : f64) : f64 := if f64_ltb v lo then lo else if f64_ltb hi v then hi else v.

(** ** Samples *)

Example f64_tenth : bits_of_f64 (f64_div (f64_of_Z 1) (f64_of_Z 10)) = 0x3FB999999999999A.
Proof. by vm_compute. Qed.

Example f64_decimal : match stod "3.25" with Valid d => bits_of_f64 (f64_of_double d) | _ => 0 end = 0x400A000000000000.
Proof. by vm_compute. Qed.

Example f64_bits_back :
  Forall (λ b, bits_of_f64 (f64_of_bits b) = b)
    [0; 1; 0x000FFFFFFFFFFFFF; 0x0010000000000000; 0x3FF0000000000000; 0x7FEFFFFFFFFFFFFF; 0x7FF0000000000000;
     0x8000000000000000; 0xC00921FB54442D18].
Proof. repeat constructor. Qed.

Example f64_casts :
  (f64_to_i64 (f64_of_bits 0xC004000000000000), f64_llround (f64_of_bits 0xC004000000000000), f64_to_i64 (f64_of_Z (2 ^ 63))) =
  (Some (-2), Some (-3), None).
Proof. by vm_compute. Qed.

Example f64_widens : f64_of_f32_bits 0x3DCCCCCD = f64_of_bits 0x3FB99999A0000000.
Proof. by vm_compute. Qed.
