(* ===== verification/RowEval.v ===== *)
(** * Evaluating expressions on one row

    Models what src/sql/executor.cpp does for a single row of a partition: reading
    a column as an integer or a [double], arithmetic expressions, the conditions of
    WHERE and of CASE WHEN, LIKE. An evaluation returns a value, throws, or runs
    into undefined behaviour ([evaluated]): signed overflow, a cast out of range.
    The clock that [NOW()] reads is a function of the row. *)

From S2P Require Import Prelude.
From S2P Require Import Bytes.
From S2P Require Import Text.
From S2P Require Import Tokenizer.
From S2P Require Import ColumnStore.
From S2P Require Import PartitionManager.
From S2P Require Import Ast.
From S2P Require Import Literals.
From S2P Require Import Parser.
From S2P Require Import Float64.
From stdpp Require Import base list strings.
From Stdlib Require Import ZArith Lia Ascii SpecFloat.

Open Scope Z_scope.

(** ** Outcomes *)

Inductive evaluated (A : Type) : Type :=
  | Value (a : A)
  | Throws (what : string)
  | Undefined.
Arguments Value {A}.
Arguments Throws {A}.
Arguments Undefined {A}.

#[export] Instance evaluated_ret : MRet evaluated := λ A a, Value a.
#[export] Instance evaluated_bind : MBind evaluated := λ A B f m,
  match m with Value a => f a | Throws w => Throws w | Undefined => Undefined end.
#[export] Instance evaluated_fmap : FMap evaluated := λ A B f m,
  match m with Value a => Value (f a) | Throws w => Throws w | Undefined => Undefined end.

Definition defined {A} (o : option A) : evaluated A := match o with Some a => Value a | None => Undefined end.
Definition thrown {A} (c : converted A) : evaluated A :=
  match c with Valid a => Value a | InvalidArgument => Throws "stoll" | OutOfRange => Throws "stoll" end.

(** A signed result that must fit. *)
Definition checked (z : Z) : evaluated Z := if in_int64 z then Value z else Undefined.

Lemma bind_value {A B} (m : evaluated A) (f : A → evaluated B) b : m ≫= f = Value b → ∃ a, m = Value a ∧ f a = Value b.
Proof. destruct m as [a| |]; [|done..]. intros H. by exists a. Qed.

Lemma fmap_value {A B} (m : evaluated A) (f : A → B) b : f <$> m = Value b → ∃ a, m = Value a ∧ b = f a.
Proof. destruct m as [a| |]; [|done..]. intros [= <-]. by exists a. Qed.

(** ** Comparisons *)

Definition compare_val {T} (eqb ltb : T → T → bool) (v : T) (op : CompareOp) (cmp : T) (leb : T → T → bool) : bool :=
  match op with
  | EQ => eqb v cmp
  | NE => negb (eqb v cmp)
  | GT => ltb cmp v
  | LT => ltb v cmp
  | GE => leb cmp v
  | LE => leb v cmp
  end.

Definition compare_i64 (v : Z) (op : CompareOp) (cmp : Z) : bool := compare_val Z.eqb Z.ltb v op cmp Z.leb.
Definition compare_f64 (v : f64) (op : CompareOp) (cmp : f64) : bool := compare_val f64_eqb f64_ltb v op cmp f64_leb.

(** ** Columns *)

Definition i32 (z : Z) : Z := (z + 2 ^ 31) mod 2 ^ 32 - 2 ^ 31.

(** [pointer[row]] of a pointer to values of [width] bytes, unsigned. *)
Definition raw_at (m : memory) (width : nat) (pointer row : Z) : Z :=
  le_val (read_bytes m (pointer + row * Z.of_nat width) width).

Definition is_float_type (t : ColumnType) : bool := match t with FLOAT32 | FLOAT64 => true | _ => false end.

Definition read_column_as_i64 (m : memory) (cv : ColumnVector) (row : Z) : evaluated Z :=
  if size_ cv <=? row then Value 0 else
  match data_ cv with
  | None => Value 0
  | Some d =>
      match type_ cv with
      | INT32 => Value (i32 (raw_at m 4 d row))
      | INT64 | TIMESTAMP_NS => Value (i64 (raw_at m 8 d row))
      | FLOAT32 => defined (f64_to_i64 (f64_of_f32_bits (raw_at m 4 d row)))
      | FLOAT64 => defined (f64_to_i64 (f64_of_bits (raw_at m 8 d row)))
      | SYMBOL | STRING => Value (raw_at m 4 d row)
      | BOOL => Value (raw_at m 1 d row)
      end
  end.

Definition read_column_as_f64 (m : memory) (cv : ColumnVector) (row : Z) : evaluated f64 :=
  if size_ cv <=? row then Value f64_zero else
  match data_ cv with
  | None => Value f64_zero
  | Some d =>
      match type_ cv with
      | FLOAT32 => Value (f64_of_f32_bits (raw_at m 4 d row))
      | FLOAT64 => Value (f64_of_bits (raw_at m 8 d row))
      | _ => f64_of_Z <$> read_column_as_i64 m cv row
      end
  end.

(** [col_ptr(part, name)[row]]: eight bytes per row, whatever the column's type;
    none for a null pointer. *)
Definition col_word (p : Partition) (name : string) (row : Z) : option Z :=
  cv ← get_column p name; d ← data_ cv; Some (i64 (raw_at (memory_ p) 8 d row)).

(** ** Arithmetic *)

Definition date_trunc_bucket (unit : string) : Z :=
  if String.eqb unit "ns" then 1
  else if String.eqb unit "us" then 1000
  else if String.eqb unit "ms" then 1000000
  else if String.eqb unit "s" then 1000000000
  else if String.eqb unit "min" then 60000000000
  else if String.eqb unit "hour" then 3600000000000
  else if String.eqb unit "day" then 86400000000000
  else if String.eqb unit "week" then 604800000000000
  else 1.

Definition truncate_to (arg bucket : Z) : Z := Z.quot arg bucket * bucket.

(** [while (!s.empty() && s.back() == c) s.pop_back()], on the reversed text *)
Fixpoint pop_spaces (rev_unit : text) : text :=
  match rev_unit with
  | c :: l => if Ascii.eqb c " "%char then pop_spaces l else rev_unit
  | [] => []
  end.

(** The unit in lower case, without trailing spaces and one trailing [s]. *)
Definition normalize_unit (unit : text) : string :=
  let l := pop_spaces (rev (tolower <$> unit)) in
  let s := str (rev l) in
  match l with
  | c :: l' => if Ascii.eqb c "s"%char && negb (String.eqb s "ns") && negb (String.eqb s "ms") then str (rev l') else s
  | [] => s
  end.

Definition one_of (s : string) (l : list string) : bool := existsb (String.eqb s) l.

Definition ns_per_unit (unit_str : string) : Z :=
  if one_of unit_str ["n"; "ns"; "nanosecond"] then 1
  else if one_of unit_str ["u"; "us"; "microsecond"] then 1000
  else if one_of unit_str ["ms"; "millisecond"] then 1000000
  else if one_of unit_str ["second"; "sec"; "s"] then 1000000000
  else if one_of unit_str ["minute"; "min"; "m"] then 60000000000
  else if one_of unit_str ["hour"; "h"] then 3600000000000
  else if one_of unit_str ["day"; "d"] then 86400000000000
  else if one_of unit_str ["week"; "w"] then 604800000000000
  else 1.

(** INTERVAL 'n unit' in nanoseconds: split at the first space, or else after the
    leading digits. *)
Definition interval_ns (lit : string) : evaluated Z :=
  let l := chars lit in
  let not_space c := negb (Ascii.eqb c " "%char) in
  '(n, unit) ←
    match span not_space l with
    | (number, _ :: unit) => (λ n, (n, unit)) <$> thrown (stoll (str number))
    | (_, []) =>
        match span isdigit l with
        | ((_ :: _) as ds, (_ :: _) as unit) => (λ n, (n, unit)) <$> thrown (stoll (str ds))
        | _ => Value (1, l)
        end
    end;
  checked (n * ns_per_unit (normalize_unit unit)).

Definition arith_i64 (op : ArithOp) (lv rv : Z) : evaluated Z :=
  match op with
  | ADD => checked (lv + rv)
  | SUB => checked (lv - rv)
  | MUL => checked (lv * rv)
  | DIV => if negb (rv =? 0) then checked (Z.quot lv rv) else Value 0
  end.

Definition arith_f64 (op : ArithOp) (lv rv : f64) : f64 :=
  match op with
  | ADD => f64_add lv rv
  | SUB => f64_sub lv rv
  | MUL => f64_mul lv rv
  | DIV => if negb (f64_eqb rv f64_zero) then f64_div lv rv else f64_zero
  end.

(** SUBSTR on the decimal digits of an integer. *)
Definition substr_i64 (arg start : Z) (len : option Z) : Z :=
  let s := chars (to_string arg) in
  let pos := Z.max start 1 - 1 in
  let size := Z.of_nat (length s) in
  if size <=? pos then 0 else
  let len := match len with Some n => u64 n | None => size - pos end in
  match stoll (str (take (Z.to_nat (Z.min len size)) (drop (Z.to_nat pos) s))) with
  | Valid v => v
  | _ => 0
  end.

Definition is_spatial_distance_fn (name : string) : bool := String.eqb name "haversine" || String.eqb name "st_distance".

(** [degrees * pi / 180.0] *)
Definition deg_to_rad (degrees : f64) : f64 := f64_div (f64_mul degrees (f64_of_bits 0x400921FB54442D18)) (f64_of_Z 180).

(** [6'371'008.8] *)
Definition earth_radius_m : f64 := f64_of_bits 0x41584D8C33333333.

Definition spatial_distance_to_i64 (meters : f64) : evaluated Z :=
  if negb (f64_isfinite meters) then Value 0
  else if f64_leb (f64_of_Z INT64_MAX) meters then Value INT64_MAX
  else defined (f64_llround meters).

Section Evaluation.
Context {M : Libm} (now : Z → Z).

Definition haversine (lat1 lon1 lat2 lon2 : f64) : f64 :=
  if negb (f64_isfinite lat1) || negb (f64_isfinite lon1) || negb (f64_isfinite lat2) || negb (f64_isfinite lon2)
  then f64_zero else
  let two := f64_of_Z 2 in
  let dlat := deg_to_rad (f64_sub lat2 lat1) in
  let dlon := deg_to_rad (f64_sub lon2 lon1) in
  let rlat1 := deg_to_rad lat1 in
  let rlat2 := deg_to_rad lat2 in
  let sin_dlat := f64_sin (f64_div dlat two) in
  let sin_dlon := f64_sin (f64_div dlon two) in
  let a := f64_add (f64_mul sin_dlat sin_dlat)
             (f64_mul (f64_mul (f64_mul (f64_cos rlat1) (f64_cos rlat2)) sin_dlon) sin_dlon) in
  let clamped := f64_clamp a f64_zero (f64_of_Z 1) in
  f64_mul (f64_mul earth_radius_m two) (f64_atan2 (f64_sqrt clamped) (f64_sqrt (f64_sub (f64_of_Z 1) clamped))).

Section Row.
Context (p : Partition) (idx : Z).

Definition eval_spatial_distance_m (eval_f : ArithExpr → evaluated f64) (args : list ArithExpr) : evaluated f64 :=
  match args with
  | [a1; o1; a2; o2] =>
      lat1 ← eval_f a1; lon1 ← eval_f o1; lat2 ← eval_f a2; lon2 ← eval_f o2;
      Value (haversine lat1 lon1 lat2 lon2)
  | _ => Value f64_zero
  end.

Definition eval_spatial_within (eval_f : ArithExpr → evaluated f64) (args : list ArithExpr) : evaluated bool :=
  match args with
  | [a1; o1; a2; o2; r] =>
      radius_m ← eval_f r;
      if negb (f64_isfinite radius_m) || f64_ltb radius_m f64_zero then Value false else
      (λ d, f64_leb d radius_m) <$> eval_spatial_distance_m eval_f [a1; o1; a2; o2]
  | _ => Value false
  end.

(** The FUNC case of [eval_arith]. *)
Definition eval_func (eval_i : ArithExpr → evaluated Z) (eval_f : ArithExpr → evaluated f64)
    (name unit : string) (func_arg func_arg2 : option ArithExpr) (args : list ArithExpr) : evaluated Z :=
  if is_spatial_distance_fn name then eval_spatial_distance_m eval_f args ≫= spatial_distance_to_i64
  else if String.eqb name "st_within" then (λ b : bool, if b then 1 else 0) <$> eval_spatial_within eval_f args
  else if String.eqb name "now" then Value (now idx)
  else if String.eqb name "interval" then interval_ns unit
  else
    arg ← match func_arg with Some e => eval_i e | None => Value 0 end;
    if String.eqb name "date_trunc" then Value (truncate_to arg (date_trunc_bucket unit))
    else if String.eqb name "epoch_s" then Value (Z.quot arg 1000000000)
    else if String.eqb name "epoch_ms" then Value (Z.quot arg 1000000)
    else if String.eqb name "substr" then
      start ← (if String.eqb unit "" then Value 1 else thrown (stoll unit));
      if Z.of_nat (length (chars (to_string arg))) <=? Z.max start 1 - 1 then Value 0 else
      len ← match func_arg2 with Some e => Some <$> eval_i e | None => Value None end;
      Value (substr_i64 arg start len)
    else Value arg.

Fixpoint eval_arith (node : ArithExpr) : evaluated Z :=
  match node with
  | ALiteral v => Value v
  | AFloat _ v => Value v
  | AColumn _ col => if String.eqb col "symbol" then Value (symbol_id (key_ p)) else Value (default 0 (col_word p col idx))
  | ABinary op l r => lv ← eval_arith l; rv ← eval_arith r; arith_i64 op lv rv
  | AFunc name unit arg arg2 args => eval_func eval_arith eval_arith_as_f64 name unit arg arg2 args
  end
with eval_arith_as_f64 (node : ArithExpr) : evaluated f64 :=
  match node with
  | ALiteral v => Value (f64_of_Z v)
  | AFloat v _ => Value (f64_of_double v)
  | AColumn _ col =>
      if String.eqb col "symbol" then Value (f64_of_Z (symbol_id (key_ p)))
      else match get_column p col with
           | Some cv => read_column_as_f64 (memory_ p) cv idx
           | None => Value f64_zero
           end
  | ABinary op l r => lv ← eval_arith_as_f64 l; rv ← eval_arith_as_f64 r; Value (arith_f64 op lv rv)
  | AFunc name unit arg arg2 args =>
      if is_spatial_distance_fn name then eval_spatial_distance_m eval_arith_as_f64 args
      else if String.eqb name "st_within"
      then (λ b : bool, if b then f64_of_Z 1 else f64_zero) <$> eval_spatial_within eval_arith_as_f64 args
      else f64_of_Z <$> eval_func eval_arith eval_arith_as_f64 name unit arg arg2 args
  end.
End Row.
End Evaluation.

(** ** Constant expressions *)

(** [eval_arith_const]: no columns, one reading of the clock. *)
Fixpoint eval_arith_const (clock : Z) (node : ArithExpr) : evaluated Z :=
  match node with
  | ALiteral v | AFloat _ v => Value v
  | AColumn _ _ => Value 0
  | ABinary op l r => lv ← eval_arith_const clock l; rv ← eval_arith_const clock r; arith_i64 op lv rv
  | AFunc name unit func_arg _ _ =>
      if String.eqb name "now" then Value clock
      else if String.eqb name "interval" then interval_ns unit
      else
        arg ← match func_arg with Some e => eval_arith_const clock e | None => Value 0 end;
        if String.eqb name "date_trunc" then Value (truncate_to arg (date_trunc_bucket unit))
        else if String.eqb name "epoch_s" then Value (Z.quot arg 1000000000)
        else if String.eqb name "epoch_ms" then Value (Z.quot arg 1000000)
        else Value arg
  end.

(** [resolve_value_exprs]: a constant expression on the right of a comparison is
    replaced by its value. *)
Fixpoint resolve_value_exprs (clock : Z) (e : Expr) : evaluated Expr :=
  let resolve (e : option Expr) : evaluated (option Expr) :=
    match e with Some e => Some <$> resolve_value_exprs clock e | None => Value None end in
  match e with
  | EAnd l r => l ← resolve l; r ← resolve r; Value (EAnd l r)
  | EOr l r => l ← resolve l; r ← resolve r; Value (EOr l r)
  | ENot l => l ← resolve l; Value (ENot l)
  | ECompare a c op (VExpr v) lhs => v ← eval_arith_const clock v; Value (ECompare a c op (VInt v) lhs)
  | _ => Value e
  end.

(** ** LIKE *)

(** [dp[0][j]] for the positions after the first. *)
Fixpoint like_first (pat : text) (left : bool) : list bool :=
  match pat with
  | [] => []
  | c :: pat => let b := left && Ascii.eqb c "%"%char in b :: like_first pat b
  end.

(** [dp[i][j]] for [j > 0], from [dp[i-1]] and the cell on the left. *)
Fixpoint like_cells (c : char) (pat : text) (prev : list bool) (left : bool) : list bool :=
  match pat, prev with
  | pc :: pat, diag :: ((up :: _) as prev) =>
      let b := if Ascii.eqb pc "%"%char then up || left
               else if Ascii.eqb pc "_"%char || Ascii.eqb pc c then diag else false in
      b :: like_cells c pat prev b
  | _, _ => []
  end.

Definition like_start (pat : text) : list bool := true :: like_first pat true.
Definition like_row (pat : text) (prev : list bool) (c : char) : list bool := false :: like_cells c pat prev false.

(** [dp[m][n]] *)
Definition like_match (s pat : text) : bool := default false (last (foldl (like_row pat) (like_start pat) s)).

(** ** The condition of WHERE on one row *)

Definition is_float_value (v : CompareValue) : bool := match v with VFloat _ _ => true | _ => false end.
Definition int_value (v : CompareValue) : Z := match v with VInt i | VFloat _ i => i | VString _ | VExpr _ => 0 end.
Definition float_value (v : CompareValue) : f64 :=
  match v with VFloat d _ => f64_of_double d | _ => f64_of_Z (int_value v) end.

Definition all_found (v : Z) (values : list Z) : bool := existsb (Z.eqb v) values.

Section Conditions.
Context {M : Libm} (now : Z → Z) (p : Partition).

(** A comparison of a column's cell. *)
Definition compare_cell (cv : ColumnVector) (op : CompareOp) (v : CompareValue) (row : Z) : evaluated bool :=
  if is_float_value v || is_float_type (type_ cv)
  then (λ x, compare_f64 x op (float_value v)) <$> read_column_as_f64 (memory_ p) cv row
  else (λ x, compare_i64 x op (int_value v)) <$> read_column_as_i64 (memory_ p) cv row.

Definition between_f64 (lo hi : Z) (x : f64) : bool := f64_leb (f64_of_Z lo) x && f64_leb x (f64_of_Z hi).
Definition between_i64 (lo hi x : Z) : bool := (lo <=? x) && (x <=? hi).

Definition between_cell (cv : ColumnVector) (lo hi row : Z) : evaluated bool :=
  if is_float_type (type_ cv) then between_f64 lo hi <$> read_column_as_f64 (memory_ p) cv row
  else between_i64 lo hi <$> read_column_as_i64 (memory_ p) cv row.

Definition compare_arith (lhs : ArithExpr) (op : CompareOp) (v : CompareValue) (row : Z) : evaluated bool :=
  (λ x, compare_f64 x op (float_value v)) <$> eval_arith_as_f64 now p (u32 row) lhs.

Definition between_arith (lhs : ArithExpr) (lo hi row : Z) : evaluated bool :=
  between_f64 lo hi <$> eval_arith_as_f64 now p (u32 row) lhs.

(** The number a LIKE pattern is matched against. *)
Definition like_value (col : string) (row : Z) : evaluated Z :=
  if String.eqb col "symbol" then Value (symbol_id (key_ p))
  else match get_column p col with
       | Some cv => read_column_as_i64 (memory_ p) cv row
       | None => Value 0
       end.

Definition like_cell (col pattern : string) (negated : bool) (row : Z) : evaluated bool :=
  (λ v, xorb negated (like_match (chars (to_string v)) (chars pattern))) <$> like_value col row.

Definition null_cell (cv : ColumnVector) (negated : bool) (row : Z) : evaluated bool :=
  (λ v, xorb negated (v =? INT64_MIN)) <$> read_column_as_i64 (memory_ p) cv row.

Fixpoint eval_expr_single_row (row : Z) (e : Expr) : evaluated bool :=
  let single (e : option Expr) : evaluated bool :=
    match e with Some e => eval_expr_single_row row e | None => Value true end in
  match e with
  | EAnd l r => b ← single l; if b : bool then single r else Value false
  | EOr l r => b ← single l; if b : bool then Value true else single r
  | ENot l => negb <$> single l
  | EBetween _ col (Some lhs) lo hi => between_arith lhs lo hi row
  | EBetween _ col None lo hi =>
      if String.eqb col "symbol" then Value true
      else match get_column p col with Some cv => between_cell cv lo hi row | None => Value false end
  | ECompare _ col op v (Some lhs) => compare_arith lhs op v row
  | ECompare _ col op v None =>
      if String.eqb col "symbol" then Value true
      else match get_column p col with Some cv => compare_cell cv op v row | None => Value false end
  | EIn _ col values =>
      if String.eqb col "symbol" then Value (all_found (symbol_id (key_ p)) values)
      else match get_column p col with
           | Some cv => (λ v, all_found v values) <$> read_column_as_i64 (memory_ p) cv row
           | None => Value false
           end
  | EIsNull _ col negated =>
      match get_column p col with Some cv => null_cell cv negated row | None => Value (negb negated) end
  | ELike _ col pattern negated => like_cell col pattern negated row
  | EScalarSubquery _ _ _ _ | EInSubquery _ _ _ => Value true
  end.

(** ** The condition of CASE WHEN on one row

    It reads eight bytes per row of every column. *)

Fixpoint eval_expr_single (row : Z) (e : Expr) : evaluated bool :=
  let single (e : option Expr) : evaluated bool :=
    match e with Some e => eval_expr_single row e | None => Value true end in
  let word col := col_word p col row in
  match e with
  | EAnd l r => b ← single l; if b : bool then single r else Value false
  | EOr l r => b ← single l; if b : bool then Value true else single r
  | ENot l => negb <$> single l
  | ECompare _ col op v _ =>
      match get_column p col with
      | None => Value false
      | Some _ =>
          w ← defined (word col);
          Value (match v with
                 | VFloat d _ => compare_f64 (f64_of_bits (u64 w)) op (f64_of_double d)
                 | _ => compare_i64 w op (int_value v)
                 end)
      end
  | EBetween _ col _ lo hi => Value (match word col with Some w => between_i64 lo hi w | None => false end)
  | EIn _ col values => Value (match word col with Some w => all_found w values | None => false end)
  | EIsNull _ col negated =>
      Value (xorb negated (match word col with Some w => w =? INT64_MIN | None => true end))
  | ELike _ col pattern negated =>
      let v := if String.eqb col "symbol" then symbol_id (key_ p) else default 0 (word col) in
      Value (xorb negated (like_match (chars (to_string v)) (chars pattern)))
  | EScalarSubquery _ _ _ _ | EInSubquery _ _ _ => Value true
  end.

(** CASE WHEN: the first branch whose condition holds. *)
Fixpoint eval_branches (branches : list (option Expr * ArithExpr)) (otherwise : option ArithExpr) (row : Z) : evaluated Z :=
  match branches with
  | [] => match otherwise with Some e => eval_arith now p row e | None => Value 0 end
  | (cond, then_val) :: branches =>
      b ← match cond with Some e => eval_expr_single row e | None => Value true end;
      if b : bool then eval_arith now p row then_val else eval_branches branches otherwise row
  end.

Definition eval_case_when (c : CaseWhenExpr) (row : Z) : evaluated Z := eval_branches (branches c) (else_val c) row.
End Conditions.
