(* ===== verification/WhereEval.v ===== *)
(** * WHERE: scanning a partition

    Models [eval_expr], [eval_where] and [eval_where_ranged] of
    src/sql/executor.cpp, which return the rows of a partition that satisfy a
    condition by combining the row sets of its parts. The lemma
    [eval_expr_selects] relates them to the condition of one row in [RowEval]. *)

From S2P Require Import Prelude.
From S2P Require Import Bytes.
From S2P Require Import Text.
From S2P Require Import Tokenizer.
From S2P Require Import Arena.
From S2P Require Import ColumnStore.
From S2P Require Import PartitionManager.
From S2P Require Import Ast.
From S2P Require Import Float64.
From S2P Require Import RowEval.
From stdpp Require Import base list sets strings sorting.
From Stdlib Require Import ZArith Lia Ascii.

Open Scope Z_scope.

(** ** The set algorithms of the standard library, on sorted ranges *)

Fixpoint set_intersection (a : list Z) : list Z → list Z :=
  fix inner (b : list Z) : list Z :=
    match a, b with
    | x :: a', y :: b' =>
        if x <? y then set_intersection a' b
        else if y <? x then inner b'
        else x :: set_intersection a' b'
    | _, _ => []
    end.

Fixpoint set_union (a : list Z) : list Z → list Z :=
  fix inner (b : list Z) : list Z :=
    match a, b with
    | x :: a', y :: b' =>
        if x <? y then x :: set_union a' b
        else if y <? x then y :: inner b'
        else x :: set_union a' b'
    | [], _ => b
    | _, [] => a
    end.

Fixpoint set_difference (a : list Z) : list Z → list Z :=
  fix inner (b : list Z) : list Z :=
    match a, b with
    | x :: a', y :: b' =>
        if x <? y then x :: set_difference a' b
        else if y <? x then inner b'
        else set_difference a' b'
    | [], _ => []
    | _, [] => a
    end.

(** ** Scanning *)

Definition numbers (n : Z) : list Z := Z.of_nat <$> seq 0 (Z.to_nat n).
Definition all_rows (n : Z) : list Z := u32 <$> numbers n.

(** A loop over the rows that keeps those that satisfy a condition. *)
Fixpoint keep_rows (P : Z → evaluated bool) (rows : list Z) : evaluated (list Z) :=
  match rows with
  | [] => Value []
  | i :: rows => b ← P i; kept ← keep_rows P rows; Value (if b : bool then u32 i :: kept else kept)
  end.

Definition scan (n : Z) (P : Z → evaluated bool) : evaluated (list Z) := keep_rows P (numbers n).

Section Where.
Context {M : Libm} (now : Z → Z) (p : Partition).

(** The loop over the values of IN reads the cell when there is a value. *)
Definition in_cell (cv : ColumnVector) (values : list Z) (row : Z) : evaluated bool :=
  match values with
  | [] => Value false
  | _ => (λ v, all_found v values) <$> read_column_as_i64 (memory_ p) cv row
  end.

Fixpoint eval_expr (n : Z) (e : Expr) : evaluated (list Z) :=
  let sub (e : option Expr) : evaluated (list Z) :=
    match e with Some e => eval_expr n e | None => Value (all_rows n) end in
  match e with
  | EAnd l r => a ← sub l; b ← sub r; Value (set_intersection a b)
  | EOr l r => a ← sub l; b ← sub r; Value (set_union a b)
  | ENot l => inner ← sub l; Value (set_difference (all_rows n) inner)
  | EBetween _ col (Some lhs) lo hi => scan n (between_arith now p lhs lo hi)
  | EBetween _ col None lo hi =>
      if String.eqb col "symbol" then Value (all_rows n)
      else match get_column p col with Some cv => scan n (between_cell p cv lo hi) | None => Value [] end
  | ECompare _ col op v (Some lhs) => scan n (compare_arith now p lhs op v)
  | ECompare _ col op v None =>
      if String.eqb col "symbol" then Value (all_rows n)
      else match get_column p col with Some cv => scan n (compare_cell p cv op v) | None => Value [] end
  | EIn _ col values =>
      match get_column p col with
      | Some cv => scan n (in_cell cv values)
      | None =>
          if String.eqb col "symbol" && all_found (symbol_id (key_ p)) values then Value (all_rows n) else Value []
      end
  | EIsNull _ col negated =>
      match get_column p col with
      | Some cv => scan n (null_cell p cv negated)
      | None => Value (if negated then [] else all_rows n)
      end
  | ELike _ col pattern negated => scan n (like_cell p col pattern negated)
  | EScalarSubquery _ _ _ _ | EInSubquery _ _ _ => Value []
  end.

(** The condition of a statement: absent, null, or an expression. *)
Definition where_expr (s : SelectStmt) : option Expr := where_clause (body_of s) ≫= id.

Definition eval_where (s : SelectStmt) (n : Z) : evaluated (list Z) :=
  match where_expr s with Some e => eval_expr n e | None => Value (all_rows n) end.

Definition eval_where_ranged (s : SelectStmt) (row_begin row_end : Z) : evaluated (list Z) :=
  if row_end <=? row_begin then Value [] else
  match where_clause (body_of s) with
  | None => Value (u32 <$> drop (Z.to_nat row_begin) (numbers row_end))
  | Some _ => List.filter (λ idx, u32 row_begin <=? idx) <$> eval_where s row_end
  end.
End Where.

(** ** Sets of rows as filters *)

Section Sets.
Implicit Types (P Q : Z → bool) (l : list Z).

Lemma filter_subset P l : List.filter P l ⊆ l.
Proof. intros x [??]%list_elem_of_In%List.filter_In. by apply list_elem_of_In. Qed.

(** The first element of a filtered tail is above the head. *)
Lemma filtered_above P x l : StronglySorted Z.lt (x :: l) →
  match List.filter P l with [] => True | y :: _ => x <? y = true ∧ y <? x = false end.
Proof.
  intros [_ Hx]%StronglySorted_inv. destruct (List.filter P l) as [|y l'] eqn:Hf; [done|].
  assert (y ∈ l) as Hy by (apply (filter_subset P); rewrite Hf; set_solver).
  rewrite Forall_forall in Hx. specialize (Hx y Hy). split; lia.
Qed.

Lemma intersection_cons x a y b : set_intersection (x :: a) (y :: b) =
  if x <? y then set_intersection a (y :: b) else if y <? x then set_intersection (x :: a) b else x :: set_intersection a b.
Proof. done. Qed.
Lemma union_cons x a y b : set_union (x :: a) (y :: b) =
  if x <? y then x :: set_union a (y :: b) else if y <? x then y :: set_union (x :: a) b else x :: set_union a b.
Proof. done. Qed.
Lemma difference_cons x a y b : set_difference (x :: a) (y :: b) =
  if x <? y then x :: set_difference a (y :: b) else if y <? x then set_difference (x :: a) b else set_difference a b.
Proof. done. Qed.
Lemma intersection_nil_r a : set_intersection a [] = [].
Proof. by destruct a. Qed.
Lemma union_nil_r a : set_union a [] = a.
Proof. by destruct a. Qed.
Lemma difference_nil_r a : set_difference a [] = a.
Proof. by destruct a. Qed.
Lemma intersection_nil_l b : set_intersection [] b = [].
Proof. by destruct b. Qed.
Lemma union_nil_l b : set_union [] b = b.
Proof. by destruct b. Qed.

(** Two filters of one sorted list meet at its head. *)
Ltac at_head l Hl IH P Q :=
  pose proof (filtered_above P _ l Hl); pose proof (filtered_above Q _ l Hl);
  apply StronglySorted_inv in Hl as [Hl _]; specialize (IH Hl); cbn [List.filter];
  rewrite <- IH; destruct (P _), (Q _); cbn [andb orb negb];
  rewrite ?intersection_cons, ?union_cons, ?difference_cons, ?Z.ltb_irrefl; try done.

Ltac one_side H l :=
  destruct l; [|destruct H as [H1 H2];
    rewrite ?intersection_cons, ?union_cons, ?difference_cons, ?H1, ?H2; try done];
  rewrite ?intersection_nil_r, ?union_nil_r, ?difference_nil_r, ?intersection_nil_l, ?union_nil_l; try done.

Lemma intersection_filter P Q l : StronglySorted Z.lt l →
  set_intersection (List.filter P l) (List.filter Q l) = List.filter (λ x, P x && Q x) l.
Proof.
  induction l as [|x l IH]; intros Hl; [done|]. at_head l Hl IH P Q.
  - one_side H0 (List.filter Q l).
  - one_side H (List.filter P l).
Qed.

Lemma union_filter P Q l : StronglySorted Z.lt l →
  set_union (List.filter P l) (List.filter Q l) = List.filter (λ x, P x || Q x) l.
Proof.
  induction l as [|x l IH]; intros Hl; [done|]. at_head l Hl IH P Q.
  - one_side H0 (List.filter Q l).
  - one_side H (List.filter P l).
Qed.

Lemma difference_filter P l : StronglySorted Z.lt l → set_difference l (List.filter P l) = List.filter (λ x, negb (P x)) l.
Proof.
  induction l as [|x l IH]; intros Hl; [done|]. pose proof (filtered_above P x l Hl).
  apply StronglySorted_inv in Hl as [Hl _]. specialize (IH Hl). cbn [List.filter]. rewrite <- IH.
  destruct (P x); cbn [negb]; [by rewrite difference_cons, Z.ltb_irrefl|].
  one_side H (List.filter P l).
Qed.
End Sets.

(** ** Scans as filters *)

Definition holds (b : evaluated bool) : bool := match b with Value true => true | _ => false end.

Lemma elem_of_numbers n i : i ∈ numbers n ↔ 0 <= i < n.
Proof.
  unfold numbers. rewrite list_elem_of_fmap. split.
  - intros (k & -> & Hk%elem_of_seq). lia.
  - intros Hi. exists (Z.to_nat i). rewrite elem_of_seq. lia.
Qed.

Lemma numbers_sorted n : StronglySorted Z.lt (numbers n).
Proof.
  unfold numbers. generalize 0%nat as start. generalize (Z.to_nat n) as k.
  induction k as [|k IH]; intros start; [constructor|]. simpl. constructor; [apply IH|].
  apply Forall_fmap, Forall_forall. intros j Hj%elem_of_seq. simpl. lia.
Qed.

Lemma all_rows_numbers n : n <= 2 ^ 32 → all_rows n = numbers n.
Proof.
  intros Hn. unfold all_rows. rewrite <- (list_fmap_id (numbers n)) at 2. apply list_fmap_ext.
  intros k i Hi%list_elem_of_lookup_2%elem_of_numbers. apply wrap_small. unfold id. lia.
Qed.

Lemma filter_all_true (l : list Z) : List.filter (λ _, true) l = l.
Proof. induction l as [|x l IH]; [done|]. simpl. by rewrite IH. Qed.

Lemma filter_none (l : list Z) : List.filter (λ _, false) l = [].
Proof. by induction l. Qed.

Lemma filter_agree (P Q : Z → bool) l : (∀ i, i ∈ l → P i = Q i) → List.filter P l = List.filter Q l.
Proof.
  induction l as [|x l IH]; intros H; [done|]. simpl. rewrite (H x) by set_solver.
  rewrite IH; [done|]. intros i Hi. apply H. set_solver.
Qed.

Lemma keep_rows_filter P l kept : (∀ i, i ∈ l → 0 <= i < 2 ^ 32) → keep_rows P l = Value kept →
  kept = List.filter (λ i, holds (P i)) l ∧ ∀ i, i ∈ l → P i = Value (holds (P i)).
Proof.
  revert kept. induction l as [|x l IH]; intros kept Hl H; cbn [keep_rows] in H.
  { simplify_eq/=. split; [done|]. intros i Hi. by apply elem_of_nil in Hi. }
  apply bind_value in H as (b & Hb & (k & Hk & H)%bind_value). simplify_eq/=.
  destruct (IH k) as [-> Hd]; [intros i Hi; apply Hl; set_solver|done|].
  rewrite Hb, wrap_small by (apply Hl; set_solver). split; [by destruct b|].
  intros i [->|Hi]%elem_of_cons; [by rewrite Hb; destruct b|by apply Hd].
Qed.

(** Induction over the connectives; everything else is a leaf. *)
Definition on_option (P : Expr → Prop) (e : option Expr) : Prop := match e with Some e => P e | None => True end.
Definition leaf (e : Expr) : bool := match e with EAnd _ _ | EOr _ _ | ENot _ => false | _ => true end.

Lemma expr_induction (P : Expr → Prop) :
  (∀ l r, on_option P l → on_option P r → P (EAnd l r)) →
  (∀ l r, on_option P l → on_option P r → P (EOr l r)) →
  (∀ l, on_option P l → P (ENot l)) →
  (∀ e, leaf e = true → P e) → ∀ e, P e.
Proof.
  intros Ha Ho Hn Hl. fix IH 1. intros e. destruct e as [| |l r|l r|l| | | | |]; try by apply Hl.
  - apply Ha; [destruct l|destruct r]; try done; apply IH.
  - apply Ho; [destruct l|destruct r]; try done; apply IH.
  - apply Hn; destruct l; try done; apply IH.
Qed.

(** The rows, and that the condition has a value on each. *)
Definition selects (n : Z) (rows : list Z) (P : Z → evaluated bool) : Prop :=
  rows = List.filter (λ i, holds (P i)) (numbers n) ∧ ∀ i, 0 <= i < n → P i = Value (holds (P i)).

Lemma scan_selects n P rows : n <= 2 ^ 32 → scan n P = Value rows → selects n rows P.
Proof.
  intros Hn H. destruct (keep_rows_filter P (numbers n) rows) as [Hr Hd].
  - intros i Hi%elem_of_numbers. lia.
  - done.
  - split; [done|]. intros i Hi. by apply Hd, elem_of_numbers.
Qed.

Lemma selects_const n rows (b : bool) P : n <= 2 ^ 32 → (∀ i, 0 <= i < n → P i = Value b) →
  rows = (if b then all_rows n else []) → selects n rows P.
Proof.
  intros Hn HP ->. split; [|by intros i Hi; rewrite (HP i Hi); destruct b].
  rewrite (filter_agree _ (λ _, b)).
  - destruct b; [by rewrite filter_all_true, all_rows_numbers|by rewrite filter_none].
  - intros i Hi%elem_of_numbers. rewrite HP by done. by destruct b.
Qed.

Lemma selects_ext n rows P Q : (∀ i, 0 <= i < n → P i = Q i) → selects n rows P → selects n rows Q.
Proof.
  intros HPQ [-> Hd]. split; [|by intros i Hi; rewrite <- HPQ by done; apply Hd].
  apply filter_agree. intros i Hi%elem_of_numbers. by rewrite HPQ.
Qed.

Lemma selects_and n a b P Q : selects n a P → selects n b Q →
  selects n (set_intersection a b) (λ i, b ← P i; if b : bool then Q i else Value false).
Proof.
  intros [-> HP] [-> HQ]. split.
  - rewrite intersection_filter by apply numbers_sorted. apply filter_agree. intros i Hi%elem_of_numbers.
    rewrite (HP i Hi), (HQ i Hi). by destruct (holds (P i)), (holds (Q i)).
  - intros i Hi. rewrite (HP i Hi), (HQ i Hi). by destruct (holds (P i)), (holds (Q i)).
Qed.

Lemma selects_or n a b P Q : selects n a P → selects n b Q →
  selects n (set_union a b) (λ i, b ← P i; if b : bool then Value true else Q i).
Proof.
  intros [-> HP] [-> HQ]. split.
  - rewrite union_filter by apply numbers_sorted. apply filter_agree. intros i Hi%elem_of_numbers.
    rewrite (HP i Hi), (HQ i Hi). by destruct (holds (P i)), (holds (Q i)).
  - intros i Hi. rewrite (HP i Hi), (HQ i Hi). by destruct (holds (P i)), (holds (Q i)).
Qed.

Lemma selects_not n a P : n <= 2 ^ 32 → selects n a P → selects n (set_difference (all_rows n) a) (λ i, negb <$> P i).
Proof.
  intros Hn [-> HP]. split.
  - rewrite all_rows_numbers, difference_filter by (done || apply numbers_sorted).
    apply filter_agree. intros i Hi%elem_of_numbers. rewrite (HP i Hi). by destruct (holds (P i)).
  - intros i Hi. rewrite (HP i Hi). by destruct (holds (P i)).
Qed.

(** No subquery is left in the expression, and no IN is without values. *)
Fixpoint plain (e : Expr) : bool :=
  let sub (e : option Expr) : bool := match e with Some e => plain e | None => true end in
  match e with
  | EAnd l r | EOr l r => sub l && sub r
  | ENot l => sub l
  | EIn _ _ values => negb (bool_decide (values = []))
  | EScalarSubquery _ _ _ _ | EInSubquery _ _ _ => false
  | _ => true
  end.

Section Filter.
Context {M : Libm} (now : Z → Z) (p : Partition).

Definition single_or_all (e : option Expr) (i : Z) : evaluated bool :=
  match e with Some e => eval_expr_single_row now p i e | None => Value true end.

Lemma option_selects {n} (Hn : n <= 2 ^ 32) (e : option Expr) rows :
  on_option (λ e, ∀ rows, plain e = true → eval_expr now p n e = Value rows →
    selects n rows (λ i, eval_expr_single_row now p i e)) e →
  match e with Some e => plain e | None => true end = true →
  match e with Some e => eval_expr now p n e | None => Value (all_rows n) end = Value rows →
  selects n rows (single_or_all e).
Proof. destruct e as [e|]; intros He Hp H; [by apply He|]. simplify_eq. by apply (selects_const n _ true). Qed.

Lemma leaf_selects n e rows :
  n <= 2 ^ 32 → get_column p "symbol" = None → plain e = true → leaf e = true →
  eval_expr now p n e = Value rows → selects n rows (λ i, eval_expr_single_row now p i e).
Proof.
  intros Hn Hs Hp Hl H.
  destruct e as [a col op v [lhs|]|a col [lhs|] lo hi| | | |a col values|a col neg|a col pat neg| |]; try done; cbn in H |- *.
  - by apply scan_selects.
  - destruct (String.eqb col "symbol"); [simplify_eq; by apply (selects_const n _ true)|].
    destruct (get_column p col) as [cv|]; [by apply scan_selects|]. simplify_eq. by apply (selects_const n _ false).
  - by apply scan_selects.
  - destruct (String.eqb col "symbol"); [simplify_eq; by apply (selects_const n _ true)|].
    destruct (get_column p col) as [cv|]; [by apply scan_selects|]. simplify_eq. by apply (selects_const n _ false).
  - destruct (get_column p col) as [cv|] eqn:Hc.
    + destruct (String.eqb_spec col "symbol") as [->|]; [congruence|]. cbn in Hp. destruct values as [|v values]; [done|].
      by apply scan_selects.
    + destruct (String.eqb col "symbol"); cbn [andb] in H; [|simplify_eq; by apply (selects_const n _ false)].
      apply (selects_const n _ (all_found (symbol_id (key_ p)) values)); [done|done|].
      by destruct (all_found _ _); simplify_eq.
  - destruct (get_column p col) as [cv|]; [by apply scan_selects|]. simplify_eq.
    apply (selects_const n _ (negb neg)); [done|done|]. by destruct neg.
  - by apply scan_selects.
Qed.

Lemma eval_expr_selects n e rows :
  n <= 2 ^ 32 → get_column p "symbol" = None → plain e = true →
  eval_expr now p n e = Value rows → selects n rows (λ i, eval_expr_single_row now p i e).
Proof.
  intros Hn Hs. revert rows. induction e as [l r Hl Hr|l r Hl Hr|l Hl|e He] using expr_induction; intros rows Hp H.
  - apply andb_true_iff in Hp as [??]. apply bind_value in H as (a & Ha & (b & Hb & H)%bind_value). simplify_eq.
    apply (selects_and _ _ _ (single_or_all l) (single_or_all r)); by apply (option_selects Hn).
  - apply andb_true_iff in Hp as [??]. apply bind_value in H as (a & Ha & (b & Hb & H)%bind_value). simplify_eq.
    apply (selects_or _ _ _ (single_or_all l) (single_or_all r)); by apply (option_selects Hn).
  - apply bind_value in H as (a & Ha & H). simplify_eq.
    apply (selects_not _ _ (single_or_all l) Hn). by apply (option_selects Hn).
  - by apply leaf_selects.
Qed.
End Filter.
