(* ===== verification/IndexScan.v ===== *)
(** * WHERE: using the indexes of a partition

    Models the composite index scan of src/sql/executor.cpp: what a WHERE clause
    says about the time range, the sorted columns and the grouped and parted
    columns of a partition, [IndexResult] which intersects what the indexes
    answer, and [collect_and_intersect]. The theorem [index_scan_exact] says when
    it finds the rows that a scan of the partition finds. *)

From S2P Require Import Prelude.
From S2P Require Import Bytes.
From S2P Require Import Text.
From S2P Require Import Tokenizer.
From S2P Require Import Arena.
From S2P Require Import ColumnStore.
From S2P Require Import PartitionManager.
From S2P Require Import Ast.
From S2P Require Import Literals.
From S2P Require Import Float64.
From S2P Require Import RowEval.
From S2P Require Import WhereEval.
From stdpp Require Import base gmap sets list fin_maps strings sorting.
From Stdlib Require Import ZArith Lia Ascii.

Open Scope Z_scope.

(** ** IndexResult *)

Record IndexResult : Type := mkIndexResult {
  range_begin : Z;
  range_end : Z;
  row_set : list Z;
  has_set : bool;
}.

Definition SIZE_MAX : Z := 2 ^ 64 - 1.
Definition empty_result : IndexResult := mkIndexResult 0 SIZE_MAX [] false.

Definition in_rows (b e idx : Z) : bool := (u32 b <=? idx) && (idx <? u32 e).

Definition set_range (r : IndexResult) (b e : Z) : IndexResult := mkIndexResult b e (row_set r) (has_set r).

Definition intersect_range (r : IndexResult) (b e : Z) : IndexResult :=
  let b := Z.max (range_begin r) b in
  let e := Z.min (range_end r) e in
  mkIndexResult b e (if has_set r then List.filter (in_rows b e) (row_set r) else row_set r) (has_set r).

(** The larger set, in its order, restricted to the smaller one. *)
Definition intersect_set (r : IndexResult) (s : list Z) : IndexResult :=
  let rows :=
    if negb (has_set r) then row_set r ++ List.filter (in_rows (range_begin r) (range_end r)) s
    else
      let '(smaller, larger) := if Nat.leb (length (row_set r)) (length s) then (row_set r, s) else (s, row_set r) in
      List.filter (λ idx, existsb (Z.eqb idx) smaller) larger in
  mkIndexResult (range_begin r) (range_end r) rows true.

Definition materialize (r : IndexResult) : list Z :=
  if has_set r then row_set r else
  let b := range_begin r in
  let e := if range_end r =? SIZE_MAX then b else range_end r in
  if e <=? b then [] else u32 <$> drop (Z.to_nat b) (numbers e).

(** ** What the condition says *)

(** [timestamp BETWEEN lo AND hi], the first one in the conjunction. *)
Fixpoint find_ts (e : Expr) : option (Z * Z) :=
  let sub (e : option Expr) : option (Z * Z) := match e with Some e => find_ts e | None => None end in
  match e with
  | EBetween _ col _ lo hi =>
      if String.eqb col "timestamp" || String.eqb col "recv_ts" then Some (lo, hi) else None
  | EAnd l r => match sub l with Some range => Some range | None => sub r end
  | _ => None
  end.

Definition extract_time_range (s : SelectStmt) : option (Z * Z) := where_expr s ≫= find_ts.

Notation bounds := (gmap string (Z * Z)).

(** [try_emplace] with the widest range, then both bounds. *)
Definition narrow (m : bounds) (col : string) (lo hi : Z) : bounds :=
  let '(l, h) := default (INT64_MIN, INT64_MAX) (m !! col) in <[col := (Z.max l lo, Z.min h hi)]> m.

Definition is_int_value (v : CompareValue) : bool := negb (is_float_value v).

Fixpoint collect_ranges (p : Partition) (m : bounds) (e : Expr) : evaluated bounds :=
  let sub (m : bounds) (e : option Expr) : evaluated bounds :=
    match e with Some e => collect_ranges p m e | None => Value m end in
  match e with
  | EBetween _ col _ lo hi => Value (if is_sorted p col then narrow m col lo hi else m)
  | ECompare _ col op v _ =>
      if negb (is_int_value v && is_sorted p col) then Value m else
      let v := int_value v in
      match op with
      | GE => Value (narrow m col v INT64_MAX)
      | GT => v ← checked (v + 1); Value (narrow m col v INT64_MAX)
      | LE => Value (narrow m col INT64_MIN v)
      | LT => v ← checked (v - 1); Value (narrow m col INT64_MIN v)
      | EQ => Value (narrow m col v v)
      | NE => Value (narrow m col INT64_MIN INT64_MAX)
      end
  | EAnd l r => m ← sub m l; sub m r
  | _ => Value m
  end.

Definition extract_all_sorted_ranges (s : SelectStmt) (p : Partition) : evaluated (list (string * (Z * Z))) :=
  match where_expr s with
  | Some e => map_to_list <$> collect_ranges p ∅ e
  | None => Value []
  end.

Fixpoint collect_eqs (p : Partition) (e : Expr) : list (string * Z) :=
  let sub (e : option Expr) : list (string * Z) := match e with Some e => collect_eqs p e | None => [] end in
  match e with
  | ECompare _ col EQ v _ =>
      if is_int_value v && (is_grouped p col || is_parted p col) then [(col, int_value v)] else []
  | EAnd l r => sub l ++ sub r
  | _ => []
  end.

Definition extract_all_index_eqs (s : SelectStmt) (p : Partition) : list (string * Z) :=
  match where_expr s with Some e => collect_eqs p e | None => [] end.

(** ** The rest of the condition *)

(** Whether every conjunct is a comparison of a column that an index answered. *)
Fixpoint all_indexed (cols : gset string) (e : Expr) : bool :=
  let sub (e : option Expr) : bool := match e with Some e => all_indexed cols e | None => false end in
  match e with
  | ECompare _ col _ _ _ | EBetween _ col _ _ _ => bool_decide (col ∈ cols)
  | EAnd l r => sub l && sub r
  | _ => false
  end.

Section Scan.
Context {M : Libm} (now : Z → Z) (p : Partition).

Definition eval_remaining_where (s : SelectStmt) (candidates : list Z) (indexed_cols : gset string) : evaluated (list Z) :=
  match where_clause (body_of s), candidates with
  | None, _ | _, [] => Value candidates
  | Some e, _ =>
      if match e with Some e => all_indexed indexed_cols e | None => false end then Value candidates
      else keep_rows (λ i, match e with Some e => eval_expr_single_row now p i e | None => Value true end) candidates
  end.

(** The indexes one after the other: what they leave, and their columns. *)
Definition use_range (acc : IndexResult * gset string) (pred : string * (Z * Z)) : IndexResult * gset string :=
  let '(col, (lo, hi)) := pred in
  let '(rb, re) := sorted_range p col lo hi in
  (intersect_range acc.1 rb re, {[col]} ∪ acc.2).

Definition use_eq (acc : IndexResult * gset string) (pred : string * Z) : IndexResult * gset string :=
  let '(col, val) := pred in
  (if is_grouped p col then intersect_set acc.1 (grouped_lookup p col val)
   else let '(rb, re) := parted_range p col val in intersect_range acc.1 rb re, {[col]} ∪ acc.2).

(** The rows and how many were scanned. *)
Definition collect_and_intersect (s : SelectStmt) (rows_scanned : Z) : evaluated (list Z * Z) :=
  let n := num_rows p in
  let time := extract_time_range s in
  if match time with Some (lo, hi) => negb (overlaps_time_range p lo hi) | None => false end
  then Value ([], rows_scanned) else
  let start := match time with
               | Some (lo, hi) => let '(rb, re) := timestamp_range p lo hi in
                                  (set_range empty_result rb re, {["timestamp"; "recv_ts"]})
               | None => (empty_result, ∅)
               end in
  ranges ← extract_all_sorted_ranges s p;
  let eqs := extract_all_index_eqs s p in
  let any_index_used := bool_decide (is_Some time) || negb (bool_decide (ranges = [])) || negb (bool_decide (eqs = [])) in
  if negb any_index_used then (λ rows, (rows, u64 (rows_scanned + n))) <$> eval_where now p s n else
  let '(combined, indexed_cols) := foldl use_eq (foldl use_range start ranges) eqs in
  let candidates := materialize combined in
  (λ rows, (rows, u64 (rows_scanned + Z.of_nat (length candidates)))) <$>
    eval_remaining_where s candidates indexed_cols.
End Scan.

(** ** The conjuncts of a condition *)

Fixpoint conjuncts (e : Expr) : list Expr :=
  let sub (e : option Expr) : list Expr := match e with Some e => conjuncts e | None => [] end in
  match e with EAnd l r => sub l ++ sub r | _ => [e] end.

Definition option_conjuncts (e : option Expr) : list Expr := match e with Some e => conjuncts e | None => [] end.

Lemma holds_and x y : holds (b ← x; if b : bool then y else Value false) = holds x && holds y.
Proof. by destruct x as [[]| |]. Qed.

Section Conjuncts.
Context {M : Libm} (now : Z → Z) (p : Partition).

Definition row_holds (e : Expr) (i : Z) : bool := holds (eval_expr_single_row now p i e).

Lemma conjuncts_hold e i : row_holds e i = forallb (λ L, row_holds L i) (conjuncts e).
Proof.
  induction e as [l r Hl Hr|l r _ _|l _|e He] using expr_induction; cbn [conjuncts forallb]; rewrite ?andb_true_r; [|done|done|].
  - assert (∀ o : option Expr, on_option (λ e, row_holds e i = forallb (λ L, row_holds L i) (conjuncts e)) o →
      holds (single_or_all now p o i) = forallb (λ L, row_holds L i) (option_conjuncts o)) as Ho by by intros [o|].
    change (row_holds (EAnd l r) i = forallb (λ L, row_holds L i) (option_conjuncts l ++ option_conjuncts r)).
    rewrite forallb_app, <- (Ho l Hl), <- (Ho r Hr). apply holds_and.
  - destruct e; try done; cbn [conjuncts forallb]; by rewrite andb_true_r.
Qed.

Lemma find_ts_conjunct e lo hi : find_ts e = Some (lo, hi) →
  ∃ a col lhs, EBetween a col lhs lo hi ∈ conjuncts e ∧ (col = "timestamp" ∨ col = "recv_ts").
Proof.
  induction e as [l r Hl Hr|l r _ _|l _|e He] using expr_induction; cbn [find_ts conjuncts]; try done.
  - intros H. destruct (match l with Some e => find_ts e | None => None end) as [range|] eqn:Hf.
    + simplify_eq. destruct l as [l|]; [|done]. destruct (Hl Hf) as (a & col & lhs & Hin & Hc).
      exists a, col, lhs. split; [|done]. apply elem_of_app. by left.
    + destruct r as [r|]; [|done]. destruct (Hr H) as (a & col & lhs & Hin & Hc).
      exists a, col, lhs. split; [|done]. apply elem_of_app. by right.
  - destruct e as [|a col lhs lo' hi'| | | | | | | |]; try done. cbn [find_ts].
    destruct (_ || _) eqn:Hc; [|done]. intros [= -> ->]. exists a, col, lhs. split; [by apply list_elem_of_singleton|].
    apply orb_true_iff in Hc as [?%String.eqb_eq|?%String.eqb_eq]; auto.
Qed.

Lemma collect_eqs_conjuncts e : collect_eqs p e = conjuncts e ≫= collect_eqs p.
Proof.
  induction e as [l r Hl Hr|l r _ _|l _|e He] using expr_induction; try done.
  - cbn [collect_eqs conjuncts]. rewrite bind_app. destruct l as [l|], r as [r|]; cbn in *; by rewrite <- ?Hl, <- ?Hr.
  - destruct e; try done; cbn [conjuncts mbind list_bind]; by rewrite app_nil_r.
Qed.

Lemma all_indexed_conjuncts cols e : all_indexed cols e = true →
  Forall (λ L, all_indexed cols L = true) (conjuncts e).
Proof.
  induction e as [l r Hl Hr|l r _ _|l _|e He] using expr_induction; intros H; try done.
  - cbn [all_indexed conjuncts] in *. apply andb_true_iff in H as [H1 H2]. apply Forall_app.
    destruct l as [l|], r as [r|]; try done. split; [by apply Hl|by apply Hr].
  - destruct e; try done; by constructor.
Qed.

(** The collection over a list of conjuncts. *)
Fixpoint collect_all (m : bounds) (l : list Expr) : evaluated bounds :=
  match l with [] => Value m | e :: l => m ← collect_ranges p m e; collect_all m l end.

Lemma collect_all_app m l k : collect_all m (l ++ k) = (m ← collect_all m l; collect_all m k).
Proof. revert m. induction l as [|e l IH]; intros m; [done|]. simpl. destruct (collect_ranges p m e); try done. apply IH. Qed.

Lemma collect_ranges_conjuncts e m : collect_ranges p m e = collect_all m (conjuncts e).
Proof.
  revert m. induction e as [l r Hl Hr|l r _ _|l _|e He] using expr_induction; intros m; try done.
  - cbn [collect_ranges conjuncts]. rewrite collect_all_app.
    assert (∀ (o : option Expr) m, on_option (λ e, ∀ m, collect_ranges p m e = collect_all m (conjuncts e)) o →
      match o with Some e => collect_ranges p m e | None => Value m end = collect_all m (option_conjuncts o)) as Ho.
    { intros [o|] m' H; [by apply H|done]. }
    rewrite (Ho l m Hl). change (match l with Some e => conjuncts e | None => [] end) with (option_conjuncts l).
    destruct (collect_all m (option_conjuncts l)) as [m'| |]; try done. by apply (Ho r m' Hr).
  - destruct e; try done; cbn [conjuncts collect_all]; by destruct (collect_ranges _ _ _).
Qed.
End Conjuncts.

(** ** What an index result stands for *)

Lemma sorted_same l k : StronglySorted Z.lt l → StronglySorted Z.lt k → (∀ x, x ∈ l ↔ x ∈ k) → l = k.
Proof.
  intros Hl. revert k. induction Hl as [|x l Hl IH Hx]; intros k Hk H.
  { destruct k as [|y k]; [done|]. exfalso. apply (not_elem_of_nil y), H. set_solver. }
  destruct Hk as [|y k Hk Hy]; [exfalso; apply (not_elem_of_nil x), H; set_solver|].
  rewrite Forall_forall in Hx. rewrite Forall_forall in Hy.
  assert (x = y) as ->.
  { assert (x ∈ y :: k) as [->|Hxk]%elem_of_cons by (apply H; set_solver); [done|].
    assert (y ∈ x :: l) as [->|Hyl]%elem_of_cons by (apply H; set_solver); [done|].
    specialize (Hx y Hyl). specialize (Hy x Hxk). lia. }
  f_equal. apply IH; [done|]. intros z. split; intros Hz.
  - assert (z ∈ y :: k) as [->|?]%elem_of_cons by (apply H; set_solver); [|done]. specialize (Hx y Hz). lia.
  - assert (z ∈ y :: l) as [->|?]%elem_of_cons by (apply H; set_solver); [|done]. specialize (Hy y Hz). lia.
Qed.

Lemma elem_of_filtered (P : Z → bool) l x : x ∈ List.filter P l ↔ x ∈ l ∧ P x = true.
Proof. by rewrite !list_elem_of_In, List.filter_In. Qed.

Lemma filter_sorted (P : Z → bool) l : StronglySorted Z.lt l → StronglySorted Z.lt (List.filter P l).
Proof.
  induction 1 as [|x l Hl IH Hx]; [constructor|]. simpl. destruct (P x); [|done]. constructor; [done|].
  rewrite Forall_forall in *. intros y [Hy _]%elem_of_filtered. by apply Hx.
Qed.

(** A sorted list of rows is the filter of the rows by membership. *)
Lemma sorted_rows_filter l n (P : Z → bool) : StronglySorted Z.lt l → (∀ i, i ∈ l ↔ 0 <= i < n ∧ P i = true) →
  l = List.filter P (numbers n).
Proof.
  intros Hl H. apply sorted_same; [done|apply filter_sorted, numbers_sorted|]. intros i.
  by rewrite H, elem_of_filtered, elem_of_numbers.
Qed.

Lemma filter_filter (P Q : Z → bool) l : List.filter P (List.filter Q l) = List.filter (λ x, Q x && P x) l.
Proof.
  induction l as [|x l IH]; [done|]. simpl. destruct (Q x); simpl; [|done]. destruct (P x); by rewrite IH.
Qed.

Definition inside (b e i : Z) : bool := (b <=? i) && (i <? e).

(** Of [n] rows exactly those with [Q] are left. *)
Record leaves (n : Z) (r : IndexResult) (Q : Z → bool) : Prop := {
  lv_begin : 0 <= range_begin r <= n;
  lv_end : range_end r = SIZE_MAX ∨ 0 <= range_end r <= n;
  lv_range i : 0 <= i < n → Q i = true → inside (range_begin r) (range_end r) i = true;
  lv_open i : has_set r = false → 0 <= i < n → inside (range_begin r) (range_end r) i = true → Q i = true;
  lv_empty : has_set r = false → row_set r = [];
  lv_set : has_set r = true → row_set r = List.filter Q (numbers n);
}.

Section Leaves.
Context (n : Z) (Hn : 0 <= n < 2 ^ 32).

Lemma in_rows_inside b e i : 0 <= b <= n → e = SIZE_MAX ∨ 0 <= e <= n → 0 <= i < n → in_rows b e i = inside b e i.
Proof.
  intros Hb He Hi. unfold in_rows, inside. rewrite (wrap_small 32 b) by lia. f_equal.
  destruct He as [->|He]; [|by rewrite wrap_small by lia].
  change (u32 SIZE_MAX) with (2 ^ 32 - 1). unfold SIZE_MAX. rewrite !(proj2 (Z.ltb_lt _ _)) by lia. done.
Qed.

Lemma leaves_ext r P Q : (∀ i, 0 <= i < n → P i = Q i) → leaves n r P → leaves n r Q.
Proof.
  intros H [H1 H2 H3 H4 H5 H6]. split; try done.
  - intros i Hi. rewrite <- H by done. by apply H3.
  - intros i Hs Hi. rewrite <- H by done. by apply H4.
  - intros Hs. rewrite (H6 Hs). apply filter_agree. intros i Hi%elem_of_numbers. by apply H.
Qed.

Lemma leaves_empty : leaves n empty_result (λ _, true).
Proof.
  split; simpl; try done; [lia|by left|]. intros i Hi _. unfold inside, SIZE_MAX. lia.
Qed.

Lemma leaves_set_range b e : 0 <= b <= n → 0 <= e <= n → leaves n (set_range empty_result b e) (inside b e).
Proof. intros Hb He. by split; simpl; try done; try lia. Qed.

Lemma leaves_intersect_range r Q b e : 0 <= b <= n → 0 <= e <= n → leaves n r Q →
  leaves n (intersect_range r b e) (λ i, Q i && inside b e i).
Proof.
  intros Hb He [H1 H2 H3 H4 H5 H6].
  assert (∀ i, inside (Z.max (range_begin r) b) (Z.min (range_end r) e) i = inside (range_begin r) (range_end r) i && inside b e i) as Hin.
  { intros i. unfold inside. lia. }
  assert (0 <= Z.min (range_end r) e <= n) as He'.
  { destruct H2 as [->|H2]; unfold SIZE_MAX; lia. }
  split; unfold intersect_range; cbn [range_begin range_end row_set has_set]; [lia|by right|..].
  - intros i Hi [HQ Hbe]%andb_true_iff. rewrite Hin, Hbe, (H3 i Hi HQ). done.
  - intros i Hs Hi. rewrite Hin. intros [Hr ->]%andb_true_iff. by rewrite (H4 i Hs Hi Hr).
  - intros Hs. rewrite Hs. by apply H5.
  - intros Hs. rewrite Hs, (H6 Hs), filter_filter. apply filter_agree. intros i Hi%elem_of_numbers.
    rewrite in_rows_inside by (lia || done || by right). rewrite Hin. specialize (H3 i Hi).
    destruct (Q i); [|done]. by rewrite (H3 eq_refl).
Qed.

Lemma existsb_mem x l : existsb (Z.eqb x) l = true ↔ x ∈ l.
Proof.
  rewrite List.existsb_exists, list_elem_of_In. split; [|intros Hx; exists x; split; [done|lia]].
  intros (y & Hy & Heq). by replace x with y by lia.
Qed.

Lemma leaves_intersect_set r Q S : leaves n r Q → leaves n (intersect_set r (List.filter S (numbers n))) (λ i, Q i && S i).
Proof.
  intros [H1 H2 H3 H4 H5 H6]. split; unfold intersect_set; cbn [range_begin range_end row_set has_set]; try done.
  { intros i Hi [HQ _]%andb_true_iff. by apply H3. }
  intros _. destruct (has_set r) eqn:Hs; cbn [negb].
  - rewrite (H6 eq_refl). destruct (Nat.leb _ _).
    + rewrite filter_filter. apply filter_agree. intros i Hi. destruct (S i); [|by rewrite andb_false_r].
      rewrite andb_true_r. simpl. apply eq_bool_prop_intro. rewrite !Is_true_true, existsb_mem, elem_of_filtered. tauto.
    + rewrite filter_filter. apply filter_agree. intros i Hi. destruct (Q i); [|done].
      simpl. apply eq_bool_prop_intro. rewrite !Is_true_true, existsb_mem, elem_of_filtered. tauto.
  - rewrite (H5 eq_refl). simpl. rewrite filter_filter. apply filter_agree. intros i Hi%elem_of_numbers.
    rewrite in_rows_inside by done. specialize (H3 i Hi). specialize (H4 i eq_refl Hi).
    destruct (Q i), (inside (range_begin r) (range_end r) i); rewrite ?andb_true_r, ?andb_false_r; try done.
    + by specialize (H3 eq_refl).
    + by specialize (H4 eq_refl).
Qed.

Lemma numbers_drop b e : 0 <= b → b <= e <= n → u32 <$> drop (Z.to_nat b) (numbers e) = List.filter (inside b e) (numbers n).
Proof.
  intros Hb He. apply sorted_rows_filter.
  - rewrite fmap_drop. change (u32 <$> numbers e) with (all_rows e). rewrite all_rows_numbers by lia.
    pose proof (numbers_sorted e) as Hs. rewrite <- (take_drop (Z.to_nat b) (numbers e)) in Hs.
    by apply StronglySorted_app_1_r in Hs.
  - intros i. rewrite fmap_drop. change (u32 <$> numbers e) with (all_rows e). rewrite all_rows_numbers by lia.
    unfold numbers. rewrite <- fmap_drop, drop_seq, list_elem_of_fmap. unfold inside. split.
    + intros (k & -> & Hk%elem_of_seq). lia.
    + intros [Hi Hin]. exists (Z.to_nat i). rewrite elem_of_seq. lia.
Qed.

Lemma leaves_materialize r Q : leaves n r Q → has_set r = true ∨ range_end r ≠ SIZE_MAX →
  materialize r = List.filter Q (numbers n).
Proof.
  intros [H1 H2 H3 H4 H5 H6] Hu. unfold materialize. destruct (has_set r) eqn:Hs; [by apply H6|].
  destruct Hu as [?|Hu]; [done|]. destruct H2 as [?|H2]; [done|]. rewrite (proj2 (Z.eqb_neq _ _)) by done.
  assert (List.filter Q (numbers n) = List.filter (inside (range_begin r) (range_end r)) (numbers n)) as ->.
  { apply filter_agree. intros i Hi%elem_of_numbers. specialize (H3 i Hi). specialize (H4 i eq_refl Hi).
    destruct (Q i), (inside _ _ i); try done; [by specialize (H3 eq_refl)|by specialize (H4 eq_refl)]. }
  destruct (Z.leb_spec (range_end r) (range_begin r)) as [Hle|Hlt].
  - rewrite (filter_agree _ (λ _, false)); [by rewrite filter_none|]. intros i _. unfold inside. lia.
  - apply numbers_drop; lia.
Qed.
End Leaves.

(** ** Columns that an index can answer for *)

Definition values (p : Partition) (col : string) : list Z := default [] (column_values p col).
Definition value_at (p : Partition) (col : string) (i : Z) : Z := default 0 (values p col !! Z.to_nat i).

(** A column of 64-bit integers with a value in every row. *)
Definition word_column (p : Partition) (col : string) : Prop :=
  ∃ cv, get_column p col = Some cv ∧ (type_ cv = INT64 ∨ type_ cv = TIMESTAMP_NS) ∧ size_ cv = num_rows p ∧ is_Some (data_ cv).

(** The indexes of the partition describe its columns as they are, and its ticks
    came in the order of their timestamps. *)
Record indexes_right (p : Partition) : Prop := {
  ix_rows : 0 <= num_rows p < 2 ^ 32;
  ix_symbol : get_column p "symbol" = None;
  ix_time : is_Some (get_column p "timestamp") → word_column p "timestamp" ∧ StronglySorted Z.le (values p "timestamp");
  ix_sorted col : is_sorted p col = true → word_column p col ∧ StronglySorted Z.le (values p col);
  ix_grouped col : is_grouped p col = true → word_column p col ∧ ∀ v, grouped_lookup p col v = matches (values p col) v;
  ix_parted col : is_parted p col = true → word_column p col ∧ ∀ v,
    0 <= (parted_range p col v).1 <= num_rows p ∧ 0 <= (parted_range p col v).2 <= num_rows p ∧
    ∀ j, 0 <= j → (values p col !! Z.to_nat j = Some v ↔ (parted_range p col v).1 <= j < (parted_range p col v).2);
}.

Lemma values_word p col : 0 <= num_rows p → word_column p col →
  column_values p col = Some (values p col) ∧ Z.of_nat (length (values p col)) = num_rows p.
Proof.
  intros Hn (cv & Hcv & _ & Hsz & _). unfold values, column_values. rewrite Hcv. simpl. split; [done|].
  unfold span_i64. rewrite length_fmap, length_seq. lia.
Qed.

Lemma value_at_lookup p col i : 0 <= i < num_rows p → word_column p col →
  values p col !! Z.to_nat i = Some (value_at p col i).
Proof.
  intros Hi Hw. destruct (values_word p col ltac:(lia) Hw) as [_ Hl].
  destruct (lookup_lt_is_Some_2 (values p col) (Z.to_nat i)) as [v Hv]; [lia|]. unfold value_at. by rewrite Hv.
Qed.

Lemma read_word p col cv i : get_column p col = Some cv → word_column p col → 0 <= i < num_rows p →
  read_column_as_i64 (memory_ p) cv i = Value (value_at p col i).
Proof.
  intros Hcv (cv' & Hcv' & Ht & Hsz & [d Hd]) Hi. rewrite Hcv in Hcv'. simplify_eq.
  assert (value_at p col i = i64 (raw_at (memory_ p) 8 d i)) as ->.
  { unfold value_at, values, column_values. rewrite Hcv. simpl. unfold span_i64, base, raw_at. rewrite Hd.
    rewrite list_lookup_fmap, lookup_seq_lt by lia. simpl. by rewrite Z2Nat.id by lia. }
  unfold read_column_as_i64. rewrite (proj2 (Z.leb_gt _ _)) by lia. rewrite Hd. by destruct Ht as [-> | ->].
Qed.

Lemma value_at_range p col i : word_column p col → 0 <= i < num_rows p → INT64_MIN <= value_at p col i <= INT64_MAX.
Proof.
  intros Hw Hi. destruct Hw as (cv & Hcv & Ht & Hsz & [d Hd]).
  unfold value_at, values, column_values. rewrite Hcv. simpl. unfold span_i64, base. rewrite Hd.
  rewrite list_lookup_fmap, lookup_seq_lt by lia. cbn [default fmap option_fmap option_map from_option]. apply i64_range.
Qed.

Section Leaf.
Context {M : Libm} (now : Z → Z) (p : Partition) (Hs : get_column p "symbol" = None).

Lemma word_not_symbol col : word_column p col → String.eqb col "symbol" = false.
Proof. intros (cv & Hcv & _). apply String.eqb_neq. intros ->. congruence. Qed.

Lemma compare_leaf a col op v i : word_column p col → 0 <= i < num_rows p → is_float_value v = false →
  row_holds now p (ECompare a col op v None) i = compare_i64 (value_at p col i) op (int_value v).
Proof.
  intros Hw Hi Hv. unfold row_holds. cbn [eval_expr_single_row]. rewrite (word_not_symbol col Hw).
  pose proof Hw as (cv & Hcv & Ht & _). rewrite Hcv. unfold compare_cell. rewrite Hv, (read_word p col cv i Hcv Hw Hi).
  destruct Ht as [-> | ->]; simpl; by destruct (compare_i64 _ _ _).
Qed.

Lemma between_leaf a col lo hi i : word_column p col → 0 <= i < num_rows p →
  row_holds now p (EBetween a col None lo hi) i = between_i64 lo hi (value_at p col i).
Proof.
  intros Hw Hi. unfold row_holds. cbn [eval_expr_single_row]. rewrite (word_not_symbol col Hw).
  pose proof Hw as (cv & Hcv & Ht & _). rewrite Hcv. unfold between_cell. rewrite (read_word p col cv i Hcv Hw Hi).
  destruct Ht as [-> | ->]; simpl; by destruct (between_i64 _ _ _).
Qed.
End Leaf.

(** ** Conditions that the indexes answer in full *)

Definition leaf_column (L : Expr) : option string :=
  match L with ECompare _ col _ _ _ | EBetween _ col _ _ _ => Some col | _ => None end.

(** The conjunct is what an index was asked. *)
Definition extracted (p : Partition) (time : option (Z * Z)) (L : Expr) : bool :=
  match L with
  | EBetween _ col None lo hi =>
      if String.eqb col "recv_ts" then false
      else String.eqb col "timestamp" && bool_decide (time = Some (lo, hi)) || is_sorted p col
  | ECompare _ col op v None =>
      is_int_value v &&
      (is_sorted p col && match op with NE => false | _ => true end ||
       (is_grouped p col || is_parted p col) && match op with EQ => true | _ => false end)
  | _ => false
  end.

Definition indexed_columns (time : option (Z * Z)) (ranges : list (string * (Z * Z))) (eqs : list (string * Z)) : gset string :=
  (if bool_decide (is_Some time) then {["timestamp"; "recv_ts"]} else ∅) ∪ list_to_set ranges.*1 ∪ list_to_set eqs.*1.

(** Every conjunct on a column that some index answers for is itself answered. *)
Definition tame (p : Partition) (e : Expr) (ranges : list (string * (Z * Z))) : bool :=
  forallb (λ L, match leaf_column L with
                | Some col => implb (bool_decide (col ∈ indexed_columns (find_ts e) ranges (collect_eqs p e)))
                                (extracted p (find_ts e) L)
                | None => true
                end) (conjuncts e).

Lemma tame_spec p e ranges L col : tame p e ranges = true → L ∈ conjuncts e → leaf_column L = Some col →
  col ∈ indexed_columns (find_ts e) ranges (collect_eqs p e) → extracted p (find_ts e) L = true.
Proof.
  unfold tame. rewrite forallb_forall. intros H HL Hc Hin. specialize (H L (proj1 (list_elem_of_In _ _) HL)).
  rewrite Hc, bool_decide_eq_true_2 in H by done. by destruct (extracted _ _ _).
Qed.

Section Ranges.
Context (p : Partition) (Hp : indexes_right p).

(** A row lies within all bounds collected so far. *)
Definition in_bounds (m : bounds) (i : Z) : Prop :=
  ∀ col lo hi, m !! col = Some (lo, hi) → lo <= value_at p col i <= hi.

Definition sorted_columns_only (m : bounds) : Prop := ∀ col, is_Some (m !! col) → is_sorted p col = true.

Lemma narrow_bounds m col lo hi i : 0 <= i < num_rows p → is_sorted p col = true →
  in_bounds (narrow m col lo hi) i ↔ in_bounds m i ∧ lo <= value_at p col i <= hi.
Proof.
  intros Hi Hs. destruct (ix_sorted p Hp col Hs) as [Hw _]. pose proof (value_at_range p col i Hw Hi) as Hv.
  unfold narrow. destruct (m !! col) as [[l h]|] eqn:Hm; cbn [default from_option id]; split.
  - intros H. specialize (H col) as Hc. rewrite lookup_insert_eq in Hc. specialize (Hc _ _ eq_refl).
    split; [|lia]. intros c l' h' Hc'. destruct (decide (c = col)) as [->|Hne]; [simplify_eq; lia|].
    apply H. by rewrite lookup_insert_ne.
  - intros [H Hc] c l' h' Hl. destruct (decide (c = col)) as [->|Hne].
    + rewrite lookup_insert_eq in Hl. simplify_eq. specialize (H col l h Hm). lia.
    + rewrite lookup_insert_ne in Hl by done. by apply H.
  - intros H. specialize (H col) as Hc. rewrite lookup_insert_eq in Hc. specialize (Hc _ _ eq_refl).
    split; [|lia]. intros c l' h' Hc'. destruct (decide (c = col)) as [->|Hne]; [congruence|].
    apply H. by rewrite lookup_insert_ne.
  - intros [H Hc] c l' h' Hl. destruct (decide (c = col)) as [->|Hne].
    + rewrite lookup_insert_eq in Hl. simplify_eq. lia.
    + rewrite lookup_insert_ne in Hl by done. by apply H.
Qed.

Lemma narrow_sorted m col lo hi : sorted_columns_only m → is_sorted p col = true → sorted_columns_only (narrow m col lo hi).
Proof.
  intros Hm Hs c. unfold narrow. destruct (default _ _) as [l h]. destruct (decide (c = col)) as [->|Hne]; [done|].
  rewrite lookup_insert_ne by done. apply Hm.
Qed.

Lemma narrow_dom m col lo hi : dom (narrow m col lo hi) = {[col]} ∪ dom m.
Proof. unfold narrow. destruct (default _ _) as [l h]. apply dom_insert_L. Qed.

Definition conjunct (L : Expr) : bool := match L with EAnd _ _ => false | _ => true end.

(** A conjunct that speaks about a sorted column. *)
Definition ranged (L : Expr) : bool :=
  match L with
  | EBetween _ col _ _ _ => is_sorted p col
  | ECompare _ col _ v _ => is_int_value v && is_sorted p col
  | _ => false
  end.

Lemma collect_leaf m m' L : collect_ranges p m L = Value m' → conjunct L = true →
  sorted_columns_only m → sorted_columns_only m' ∧
  (if ranged L then dom m' = dom m ∪ list_to_set (option_list (leaf_column L)) else m' = m).
Proof.
  intros H Hl Hm. destruct L as [a col op v lhs|a col lhs lo hi| | | | | | | |]; try done; cbn in H |- *; try (by simplify_eq).
  - destruct (is_int_value v && is_sorted p col) eqn:Hr; cbn [negb] in H; [|by simplify_eq].
    apply andb_true_iff in Hr as [_ Hsc].
    assert (∃ lo hi, m' = narrow m col lo hi) as (lo & hi & ->).
    { destruct op; try (simplify_eq; by eauto); apply bind_value in H as (x & _ & H); simplify_eq; by eauto. }
    split; [by apply narrow_sorted|]. rewrite narrow_dom. set_solver.
  - destruct (is_sorted p col) eqn:Hsc; simplify_eq; [|done].
    split; [by apply narrow_sorted|]. rewrite narrow_dom. set_solver.
Qed.

Lemma collect_leaf_bounds {Lm : Libm} (now : Z → Z) m m' L i time : collect_ranges p m L = Value m' → 0 <= i < num_rows p →
  (ranged L = true → extracted p time L = true) → conjunct L = true →
  in_bounds m' i ↔ in_bounds m i ∧ (ranged L = true → row_holds now p L i = true).
Proof.
  intros H Hi Hx Hl. pose proof (ix_symbol p Hp) as Hsym.
  destruct L as [a col op v lhs|a col lhs lo hi| | | | | | | |]; try done; cbn [collect_ranges ranged] in *;
    try (simplify_eq; split; [by intros; split|by intros []]).
  - destruct (is_int_value v && is_sorted p col) eqn:Hr; cbn [negb] in H; [|simplify_eq; split; [by split|by intros []]].
    specialize (Hx eq_refl). cbn [extracted] in Hx. destruct lhs as [lhs|]; [done|].
    apply andb_true_iff in Hr as [Hv Hsc]. destruct (ix_sorted p Hp col Hsc) as [Hw _].
    pose proof (value_at_range p col i Hw Hi) as Hvr. unfold is_int_value in Hv. apply negb_true_iff in Hv.
    rewrite (compare_leaf now p Hsym a col op v i Hw Hi Hv). rewrite Hsc in Hx.
    destruct op; unfold compare_i64, compare_val; cbn [andb] in Hx.
    2: by destruct (is_grouped p col || is_parted p col), (is_int_value v).
    all: try (unfold checked in H; destruct (in_int64 _); [|done]; cbn in H).
    all: simplify_eq.
    all: rewrite narrow_bounds by done; split; intros [Hb Hc]; (split; [done|]); [intros _|specialize (Hc eq_refl)]; lia.
  - destruct (is_sorted p col) eqn:Hsc; simplify_eq; [|split; [by split|by intros []]].
    specialize (Hx eq_refl). cbn [extracted] in Hx. destruct lhs as [lhs|]; [done|].
    destruct (ix_sorted p Hp col Hsc) as [Hw _].
    rewrite narrow_bounds by done. rewrite (between_leaf now p Hsym a col lo hi i Hw Hi). unfold between_i64.
    split; intros [Hb Hc]; (split; [done|]); [intros _|specialize (Hc eq_refl)]; lia.
Qed.
End Ranges.

(** ** What the indexes answer *)

Lemma bound_le {A} (before : A → bool) (l : list A) : (bound before l <= length l)%nat.
Proof.
  unfold bound. assert (∀ fuel first len, (first + len <= length l)%nat → (bound_loop fuel before l first len <= first + len)%nat) as H.
  { induction fuel as [|fuel IH]; intros first len Hl; cbn [bound_loop]; [lia|].
    destruct (Nat.eqb_spec len 0) as [->|Hlen]; [lia|].
    assert (Nat.div2 len < len)%nat as Hhalf by (apply Nat.lt_div2; lia). generalize dependent (Nat.div2 len). intros half Hhalf.
    destruct (l !! (first + half)%nat) as [x|]; [|lia]. destruct (before x).
    - specialize (IH (first + half + 1) (len - half - 1))%nat. lia.
    - specialize (IH first half). lia. }
  specialize (H (S (length l)) 0%nat (length l)). lia.
Qed.

Section Answers.
Context (p : Partition) (Hp : indexes_right p).
Notation n := (num_rows p).

Lemma sorted_range_inside col lo hi : word_column p col → StronglySorted Z.le (values p col) →
  let '(b, e) := sorted_range p col lo hi in
  0 <= b <= n ∧ 0 <= e <= n ∧ ∀ i, 0 <= i < n → inside b e i = between_i64 lo hi (value_at p col i).
Proof.
  intros Hw Hsort. destruct (values_word p col) as [Hc Hl]; [apply Hp|done|]. pose proof (ix_rows p Hp).
  assert (sorted_range p col lo hi = match values p col with [] => (0, 0) | _ => value_range (values p col) lo hi end) as ->.
  { unfold sorted_range. rewrite Hc. by destruct (values p col). }
  destruct (values p col) as [|v0 vs] eqn:Hvs; [split_and!; simpl in Hl; try lia; intros i Hi; lia|]. rewrite <- Hvs in *.
  pose proof (bound_le (λ v, v <? lo) (values p col)). pose proof (bound_le (λ v, negb (hi <? v)) (values p col)).
  unfold value_range. split_and!; [lia..|]. intros i Hi.
  pose proof (value_range_sorted (values p col) lo hi (Z.to_nat i) (value_at p col i) Hsort) as Hr.
  specialize (Hr (value_at_lookup p col i Hi Hw)). unfold value_range in Hr. simpl in Hr.
  unfold inside, between_i64. apply eq_bool_prop_intro. rewrite !Is_true_true, !andb_true_iff. lia.
Qed.

Lemma matches_filter col v : word_column p col → matches (values p col) v = List.filter (λ i, value_at p col i =? v) (numbers n).
Proof.
  intros Hw. destruct (values_word p col) as [Hc Hl]; [apply Hp|done|]. apply sorted_rows_filter.
  - unfold matches, matches_from. pose proof (number_fst_sorted (values p col) 0) as Hs.
    induction (number 0 (values p col)) as [|[j x] l IH]; [constructor|]. cbn in Hs |- *.
    apply StronglySorted_inv in Hs as [Hs Hj]. specialize (IH Hs). case_decide; [|done].
    constructor; [done|]. apply Forall_forall. intros k ([j' x'] & Hin & Hd)%list_elem_of_omap.
    simpl in Hd. case_decide; simplify_eq. rewrite Forall_forall in Hj. apply Hj.
    apply list_elem_of_fmap. eexists. by split; [|exact Hin].
  - intros i. rewrite elem_of_matches. split.
    + intros [Hi Hv]. pose proof (lookup_lt_Some _ _ _ Hv). assert (0 <= i < n) as Hin by lia. split; [done|].
      unfold value_at. rewrite Hv. simpl. lia.
    + intros [Hi Hv]. split; [lia|]. rewrite (value_at_lookup p col i Hi Hw). f_equal. lia.
Qed.

Lemma parted_range_inside col v : is_parted p col = true →
  let '(b, e) := parted_range p col v in
  0 <= b <= n ∧ 0 <= e <= n ∧ ∀ i, 0 <= i < n → inside b e i = (value_at p col i =? v).
Proof.
  intros Hpt. destruct (ix_parted p Hp col Hpt) as [Hw Hr]. destruct (Hr v) as (Hb & He & Hj).
  destruct (parted_range p col v) as [b e]. simpl in *. split_and!; [lia..|]. intros i Hi. specialize (Hj i ltac:(lia)).
  rewrite (value_at_lookup p col i Hi Hw) in Hj. unfold inside. apply eq_bool_prop_intro.
  rewrite !Is_true_true, !andb_true_iff, Z.leb_le, Z.ltb_lt, Z.eqb_eq, <- Hj. split; [by intros [=]|by intros ->].
Qed.

Definition used (r : IndexResult) : Prop := has_set r = true ∨ range_end r ≠ SIZE_MAX.

Lemma used_intersect_range r b e : 0 <= e <= n → used (intersect_range r b e).
Proof. intros He. right. pose proof (ix_rows p Hp). unfold intersect_range, SIZE_MAX. simpl. lia. Qed.

Definition answer_range (i : Z) (pred : string * (Z * Z)) : bool :=
  let '(col, (lo, hi)) := pred in between_i64 lo hi (value_at p col i).
Definition answer_eq (i : Z) (pred : string * Z) : bool := let '(col, v) := pred in value_at p col i =? v.

Lemma use_ranges_leaves l acc Q : leaves n acc.1 Q → (∀ col, col ∈ l.*1 → is_sorted p col = true) →
  let res := foldl (use_range p) acc l in
  leaves n res.1 (λ i, Q i && forallb (answer_range i) l) ∧ res.2 = list_to_set l.*1 ∪ acc.2 ∧
  (used acc.1 ∨ l ≠ [] → used res.1).
Proof.
  revert acc Q. induction l as [|[col [lo hi]] l IH]; intros acc Q Hl Hs; cbn [foldl].
  { split_and!; [|set_solver|by intros [?|]]. eapply leaves_ext; [|exact Hl]. intros i _. simpl. by rewrite andb_true_r. }
  assert (is_sorted p col = true) as Hsc by (apply Hs; set_solver). destruct (ix_sorted p Hp col Hsc) as [Hw Hsort].
  pose proof (sorted_range_inside col lo hi Hw Hsort) as Hr. pose proof (ix_rows p Hp) as Hn.
  unfold use_range at 2 4 6. destruct (sorted_range p col lo hi) as [b e]. destruct Hr as (Hb & He & Hin).
  pose proof (leaves_intersect_range n Hn acc.1 Q b e Hb He Hl) as Hl'.
  destruct (IH (intersect_range acc.1 b e, {[col]} ∪ acc.2) _ Hl') as (H1 & H2 & H3).
  { intros c Hc. apply Hs. set_solver. }
  split_and!.
  - eapply leaves_ext; [|exact H1]. intros i Hi. simpl. rewrite Hin by done. by rewrite andb_assoc.
  - rewrite H2. simpl. set_solver.
  - intros _. apply H3. left. by apply used_intersect_range.
Qed.

Lemma use_eqs_leaves l acc Q : leaves n acc.1 Q → (∀ col v, (col, v) ∈ l → is_grouped p col || is_parted p col = true) →
  let res := foldl (use_eq p) acc l in
  leaves n res.1 (λ i, Q i && forallb (answer_eq i) l) ∧ res.2 = list_to_set l.*1 ∪ acc.2 ∧
  (used acc.1 ∨ l ≠ [] → used res.1).
Proof.
  revert acc Q. induction l as [|[col v] l IH]; intros acc Q Hl Hs; cbn [foldl].
  { split_and!; [|set_solver|by intros [?|]]. eapply leaves_ext; [|exact Hl]. intros i _. simpl. by rewrite andb_true_r. }
  pose proof (ix_rows p Hp) as Hn.
  assert (leaves n (use_eq p acc (col, v)).1 (λ i, Q i && answer_eq i (col, v)) ∧ used (use_eq p acc (col, v)).1) as [Hl' Hu].
  { unfold use_eq. specialize (Hs col v ltac:(set_solver)). destruct (is_grouped p col) eqn:Hg; cbn [fst].
    - destruct (ix_grouped p Hp col Hg) as [Hw Hlk]. rewrite Hlk, matches_filter by done.
      split; [by apply leaves_intersect_set|by left].
    - pose proof (parted_range_inside col v Hs) as Hr. destruct (parted_range p col v) as [b e]. destruct Hr as (Hb & He & Hin).
      split; [|by apply used_intersect_range]. eapply leaves_ext; [|by apply (leaves_intersect_range n Hn acc.1 Q b e Hb He)].
      intros i Hi. simpl. by rewrite Hin. }
  destruct (IH (use_eq p acc (col, v)) _ Hl') as (H1 & H2 & H3); [intros c w Hc; apply (Hs c w); set_solver|].
  split_and!.
  - eapply leaves_ext; [|exact H1]. intros i Hi. cbn [forallb]. by rewrite andb_assoc.
  - rewrite H2. simpl. set_solver.
  - intros _. apply H3. by left.
Qed.
End Answers.

(** ** Exactness *)

Section Exact.
Context {M : Libm} (now : Z → Z) (p : Partition) (Hp : indexes_right p).
Notation n := (num_rows p).

Lemma conjuncts_conjunct e : Forall (λ L, conjunct L = true) (conjuncts e).
Proof.
  induction e as [l r Hl Hr|l r _ _|l _|e He] using expr_induction; cbn [conjuncts]; try by repeat constructor.
  - apply Forall_app. destruct l as [l|], r as [r|]; split; try done; constructor.
  - destruct e; try done; by repeat constructor.
Qed.

Lemma collect_all_columns m m' l : collect_all p m l = Value m' → Forall (λ L, conjunct L = true) l →
  sorted_columns_only p m → sorted_columns_only p m' ∧ dom m ⊆ dom m' ∧
  (∀ L col, L ∈ l → ranged p L = true → leaf_column L = Some col → col ∈ dom m').
Proof.
  revert m. induction l as [|L l IH]; intros m H Hc Hm; cbn in H.
  { simplify_eq. split_and!; [done|done|]. intros L col HL. by apply elem_of_nil in HL. }
  apply Forall_cons in Hc as [HL Hc]. apply bind_value in H as (m1 & H1 & H).
  destruct (collect_leaf p Hp m m1 L H1 HL Hm) as [Hm1 Hd]. destruct (IH m1 H Hc Hm1) as (H2 & H3 & H4).
  split_and!; [done| |].
  - destruct (ranged p L); [set_solver|by subst].
  - intros L' col [->|HL']%elem_of_cons Hr Hcol; [|by apply (H4 L')].
    rewrite Hr, Hcol in Hd. apply H3. rewrite Hd. set_solver.
Qed.

Lemma collect_all_bounds m m' l time i : collect_all p m l = Value m' → Forall (λ L, conjunct L = true) l → 0 <= i < n →
  (∀ L, L ∈ l → ranged p L = true → extracted p time L = true) →
  in_bounds p m' i ↔ in_bounds p m i ∧ ∀ L, L ∈ l → ranged p L = true → row_holds now p L i = true.
Proof.
  revert m. induction l as [|L l IH]; intros m H Hc Hi Hx; cbn in H.
  { simplify_eq. split; [|by intros []]. intros Hb. split; [done|]. intros L HL. by apply elem_of_nil in HL. }
  apply Forall_cons in Hc as [HL Hc]. apply bind_value in H as (m1 & H1 & H).
  rewrite (IH m1 H Hc Hi) by (intros; apply Hx; set_solver).
  rewrite (collect_leaf_bounds p Hp now m m1 L i time H1 Hi) by (done || (apply Hx; set_solver)).
  split.
  - intros [[Hb HL1] Hl]. split; [done|]. intros L' [->|HL']%elem_of_cons; [done|by apply Hl].
  - intros [Hb Hl]. split; [split; [done|apply Hl; set_solver]|]. intros L' HL'. apply Hl. set_solver.
Qed.

Lemma in_bounds_list m i : in_bounds p m i ↔ forallb (answer_range p i) (map_to_list m) = true.
Proof.
  rewrite forallb_forall. split.
  - intros H [col [lo hi]] Hin%list_elem_of_In%elem_of_map_to_list. specialize (H col lo hi Hin). simpl. unfold between_i64. lia.
  - intros H col lo hi Hm. specialize (H (col, (lo, hi))). rewrite <- list_elem_of_In, elem_of_map_to_list in H.
    specialize (H Hm). simpl in H. unfold between_i64 in H. lia.
Qed.

Definition answer_time (time : option (Z * Z)) (i : Z) : bool :=
  match time with Some (lo, hi) => between_i64 lo hi (value_at p "timestamp" i) | None => true end.

Section Statement.
Context (e : Expr) (m : bounds) (Hm : collect_ranges p ∅ e = Value m) (Ht : tame p e (map_to_list m) = true).

Lemma collect_all_here : collect_all p ∅ (conjuncts e) = Value m.
Proof. by rewrite <- collect_ranges_conjuncts. Qed.

Lemma map_columns (col : string) : col ∈ (map_to_list m).*1 ↔ col ∈ dom m.
Proof.
  rewrite list_elem_of_fmap, elem_of_dom. split.
  - intros ([c b] & -> & Hin%elem_of_map_to_list). by exists b.
  - intros [b Hb]. exists (col, b). by rewrite elem_of_map_to_list.
Qed.

Lemma empty_sorted : sorted_columns_only p ∅.
Proof. intros col [? H]. by rewrite lookup_empty in H. Qed.

Lemma ranged_extracted L : L ∈ conjuncts e → ranged p L = true → extracted p (find_ts e) L = true.
Proof.
  intros HL Hr. assert (∃ col, leaf_column L = Some col) as [col Hc] by (destruct L; try done; by eexists).
  apply (tame_spec p e _ L col Ht HL Hc). unfold indexed_columns. apply elem_of_union_l, elem_of_union_r, elem_of_list_to_set, map_columns.
  by destruct (collect_all_columns ∅ m (conjuncts e) collect_all_here (conjuncts_conjunct e) empty_sorted) as (_ & _ & H); eapply H.
Qed.

(** The bounds hold where the conjuncts on sorted columns hold. *)
Lemma bounds_conjuncts i : 0 <= i < n →
  forallb (answer_range p i) (map_to_list m) = true ↔
  ∀ L, L ∈ conjuncts e → ranged p L = true → row_holds now p L i = true.
Proof.
  intros Hi. rewrite <- in_bounds_list.
  rewrite (collect_all_bounds ∅ m (conjuncts e) (find_ts e) i collect_all_here (conjuncts_conjunct e) Hi ranged_extracted).
  split; [by intros []|]. intros H. split; [|done]. intros col lo hi Hl. by rewrite lookup_empty in Hl.
Qed.

Lemma elem_of_collect_eqs col v : (col, v) ∈ collect_eqs p e ↔
  ∃ a w lhs, ECompare a col EQ w lhs ∈ conjuncts e ∧ v = int_value w ∧ is_int_value w = true ∧
    is_grouped p col || is_parted p col = true.
Proof.
  rewrite collect_eqs_conjuncts, list_elem_of_bind. split.
  - intros (L & Hin & HL). pose proof (proj1 (Forall_forall _ _) (conjuncts_conjunct e) L HL) as Hc.
    destruct L as [a c op w lhs| | | | | | | | |]; cbn in Hin; try done; try (by apply elem_of_nil in Hin).
    destruct op; try (by apply elem_of_nil in Hin). destruct (_ && _) eqn:Hx; [|by apply elem_of_nil in Hin].
    apply list_elem_of_singleton in Hin. simplify_eq. apply andb_true_iff in Hx as [??]. by exists a, w, lhs.
  - intros (a & w & lhs & HL & -> & Hw & Hx). exists (ECompare a col EQ w lhs). split; [|done].
    cbn. rewrite Hw, Hx. by apply list_elem_of_singleton.
Qed.

Lemma eq_extracted a col w lhs i : ECompare a col EQ w lhs ∈ conjuncts e → is_int_value w = true →
  is_grouped p col || is_parted p col = true → 0 <= i < n →
  row_holds now p (ECompare a col EQ w lhs) i = (value_at p col i =? int_value w).
Proof.
  intros HL Hw Hx Hi. assert (extracted p (find_ts e) (ECompare a col EQ w lhs) = true) as He.
  { apply (tame_spec p e _ _ col Ht HL eq_refl). unfold indexed_columns. apply elem_of_union_r, elem_of_list_to_set, list_elem_of_fmap.
    exists (col, int_value w). split; [done|]. apply elem_of_collect_eqs. by exists a, w, lhs. }
  cbn [extracted] in He. destruct lhs as [lhs|]; [done|].
  assert (word_column p col) as Hwc.
  { apply orb_true_iff in Hx as [Hg|Hg]; [by apply (ix_grouped p Hp)|by apply (ix_parted p Hp)]. }
  unfold is_int_value in Hw. apply negb_true_iff in Hw. by rewrite (compare_leaf now p (ix_symbol p Hp) a col EQ w i Hwc Hi Hw).
Qed.

(** A conjunct on the time column whose range was extracted. *)
Lemma time_sound lo hi i : find_ts e = Some (lo, hi) → 0 <= i < n → row_holds now p e i = true →
  is_Some (get_column p "timestamp") ∧ between_i64 lo hi (value_at p "timestamp" i) = true.
Proof.
  intros Hf Hi He. destruct (find_ts_conjunct e lo hi Hf) as (a & col & lhs & HL & Hcol).
  assert (extracted p (find_ts e) (EBetween a col lhs lo hi) = true) as Hx.
  { apply (tame_spec p e _ _ col Ht HL eq_refl). unfold indexed_columns. rewrite bool_decide_eq_true_2 by (rewrite Hf; by eexists).
    set_solver. }
  cbn [extracted] in Hx. destruct lhs as [lhs|]; [done|]. destruct Hcol as [-> | ->]; [|done].
  rewrite conjuncts_hold, forallb_forall in He. specialize (He _ (proj1 (list_elem_of_In _ _) HL)).
  destruct (get_column p "timestamp") as [cv|] eqn:Hc; [|unfold row_holds in He; cbn in He; by rewrite Hc in He].
  split; [done|]. destruct (ix_time p Hp) as [Hw _]; [by rewrite Hc|].
  by rewrite (between_leaf now p (ix_symbol p Hp) a "timestamp" lo hi i Hw Hi) in He.
Qed.

(** What satisfies the condition satisfies what the indexes were asked. *)
Lemma answers_sound i : 0 <= i < n → row_holds now p e i = true →
  answer_time (find_ts e) i && (forallb (answer_range p i) (map_to_list m) && forallb (answer_eq p i) (collect_eqs p e)) = true.
Proof.
  intros Hi He. apply andb_true_iff. split; [|apply andb_true_iff; split].
  - unfold answer_time. destruct (find_ts e) as [[lo hi]|] eqn:Hf; [|done]. by apply (time_sound lo hi i).
  - apply bounds_conjuncts; [done|]. intros L HL _. rewrite conjuncts_hold, forallb_forall in He.
    by apply He, list_elem_of_In.
  - apply forallb_forall. intros [col v] Hin%list_elem_of_In. apply elem_of_collect_eqs in Hin as (a & w & lhs & HL & -> & Hw & Hx).
    simpl. rewrite <- (eq_extracted a col w lhs i HL Hw Hx Hi). rewrite conjuncts_hold, forallb_forall in He.
    by apply He, list_elem_of_In.
Qed.

(** When every conjunct is covered, nothing else is needed. *)
Lemma answers_complete i : 0 <= i < n → all_indexed (indexed_columns (find_ts e) (map_to_list m) (collect_eqs p e)) e = true →
  (is_Some (find_ts e) → word_column p "timestamp") →
  answer_time (find_ts e) i && (forallb (answer_range p i) (map_to_list m) && forallb (answer_eq p i) (collect_eqs p e)) = true →
  row_holds now p e i = true.
Proof.
  intros Hi Hall Htw [Hti [Hr He]%andb_true_iff]%andb_true_iff. rewrite conjuncts_hold, forallb_forall. intros L HL%list_elem_of_In.
  pose proof (proj1 (Forall_forall _ _) (all_indexed_conjuncts _ e Hall) L HL) as HLi.
  assert (∃ col, leaf_column L = Some col) as [col Hc].
  { pose proof (proj1 (Forall_forall _ _) (conjuncts_conjunct e) L HL). destruct L; try done; by eexists. }
  assert (extracted p (find_ts e) L = true) as Hx.
  { apply (tame_spec p e _ L col Ht HL Hc). destruct L; try done; cbn in HLi, Hc; simplify_eq; by apply bool_decide_eq_true in HLi. }
  destruct (ranged p L) eqn:Hrg; [by apply (proj1 (bounds_conjuncts i Hi) Hr)|].
  destruct L as [a c op v [lhs|]|a c [lhs|] lo hi| | | | | | | |]; try done; cbn in Hc, Hrg, Hx; simplify_eq.
  - apply andb_true_iff in Hx as [Hv Hx]. rewrite Hv in Hrg. cbn [andb] in Hrg. rewrite Hrg in Hx. cbn [andb orb] in Hx.
    apply andb_true_iff in Hx as [Hx Hop]. destruct op; try done.
    rewrite (eq_extracted a col v None i HL Hv Hx Hi). rewrite forallb_forall in He. apply (He (col, int_value v)), list_elem_of_In.
    apply elem_of_collect_eqs. by exists a, v, None.
  - destruct (String.eqb col "recv_ts"); [done|]. rewrite Hrg, orb_false_r in Hx. apply andb_true_iff in Hx as [Hcol Hf].
    apply String.eqb_eq in Hcol as ->. apply bool_decide_eq_true in Hf. rewrite Hf in Hti. simpl in Hti.
    rewrite (between_leaf now p (ix_symbol p Hp) a "timestamp" lo hi i); [done|apply Htw; by rewrite Hf|done].
Qed.
End Statement.

Lemma keep_rows_value P l : (∀ i, i ∈ l → 0 <= i < 2 ^ 32 ∧ P i = Value (holds (P i))) →
  keep_rows P l = Value (List.filter (λ i, holds (P i)) l).
Proof.
  induction l as [|x l IH]; intros H; [done|]. cbn [keep_rows List.filter]. destruct (H x) as [Hx HP]; [set_solver|].
  rewrite IH by (intros; apply H; set_solver). rewrite HP at 1. cbn. rewrite wrap_small by done. by destruct (holds (P x)).
Qed.

Lemma timestamp_range_is_sorted_range lo hi : timestamp_range p lo hi = sorted_range p "timestamp" lo hi.
Proof. done. Qed.

(** Before any index on a column, the rows of the time range are left. *)
Lemma start_leaves time (Htw : is_Some time → is_Some (get_column p "timestamp")) :
  let start := match time with
               | Some (lo, hi) => let '(rb, re) := timestamp_range p lo hi in
                                  (set_range empty_result rb re, {["timestamp"; "recv_ts"]})
               | None => (empty_result, ∅ : gset string)
               end in
  leaves n start.1 (answer_time time) ∧ start.2 = (if bool_decide (is_Some time) then {["timestamp"; "recv_ts"]} else ∅) ∧
  (is_Some time → used start.1).
Proof.
  pose proof (ix_rows p Hp) as Hn. destruct time as [[lo hi]|]; [|split_and!; [by apply leaves_empty|done|by intros [? ?]]].
  destruct (ix_time p Hp) as [Hw Hsort]; [apply Htw; by eexists|]. rewrite timestamp_range_is_sorted_range.
  pose proof (sorted_range_inside p Hp "timestamp" lo hi Hw Hsort) as Hr.
  destruct (sorted_range p "timestamp" lo hi) as [b e]. destruct Hr as (Hb & He & Hin). cbn [fst snd]. split_and!.
  - eapply leaves_ext; [|by apply leaves_set_range]. intros i Hi. simpl. by apply Hin.
  - by rewrite bool_decide_eq_true_2 by (by eexists).
  - intros _. right. unfold SIZE_MAX. simpl. lia.
Qed.

(** A partition that the time range misses has no rows in it. *)
Lemma no_overlap lo hi i : is_Some (get_column p "timestamp") → overlaps_time_range p lo hi = false → 0 <= i < n →
  between_i64 lo hi (value_at p "timestamp" i) = false.
Proof.
  intros Hc Ho Hi. destruct (ix_time p Hp Hc) as [Hw Hsort]. destruct (values_word p "timestamp" ltac:(lia) Hw) as [Hv Hl].
  unfold overlaps_time_range in Ho. rewrite Hv in Ho. pose proof (value_at_lookup p "timestamp" i Hi Hw) as Hlk.
  destruct (values p "timestamp") as [|front rest]; [done|]. unfold between_i64. apply andb_false_iff in Ho.
  assert (front <= value_at p "timestamp" i) as Hf.
  { apply StronglySorted_inv in Hsort as [_ Hall]. rewrite Forall_forall in Hall.
    apply list_elem_of_lookup_2, elem_of_cons in Hlk as [->|Hin]; [done|by apply Hall]. }
  destruct (last (front :: rest)) as [back|] eqn:Hlast; [|by apply last_None in Hlast].
  assert (value_at p "timestamp" i <= back) as Hb.
  { apply last_Some in Hlast as [l' Hl']. rewrite Hl' in Hlk, Hsort. apply list_elem_of_lookup_2, elem_of_app in Hlk as [Hin|Hin].
    - apply (StronglySorted_app_1_elem_of Z.le l' [back]); [done|done|set_solver].
    - apply list_elem_of_singleton in Hin. lia. }
  simpl in Ho. lia.
Qed.

Lemma overlaps_has_time lo hi : overlaps_time_range p lo hi = true → is_Some (get_column p "timestamp").
Proof. unfold overlaps_time_range, column_values. by destruct (get_column p "timestamp"). Qed.

(** No row satisfies a condition whose time range the partition misses. *)
Lemma missed_range e m lo hi rows : collect_ranges p ∅ e = Value m → tame p e (map_to_list m) = true →
  find_ts e = Some (lo, hi) → overlaps_time_range p lo hi = false →
  selects n rows (λ i, eval_expr_single_row now p i e) → rows = [].
Proof.
  intros Hm Ht Hf Ho [-> _]. rewrite (filter_agree _ (λ _, false)); [by rewrite filter_none|].
  intros i Hi%elem_of_numbers. destruct (holds _) eqn:Hh; [|done].
  destruct (time_sound e m Hm Ht lo hi i Hf Hi Hh) as [Hc Hb]. by rewrite (no_overlap lo hi i Hc Ho Hi) in Hb.
Qed.

(** What the indexes leave, filtered by the rest of the condition. *)
Lemma remaining_exact s e m cand cols rows : where_clause (body_of s) = Some (Some e) →
  cand = List.filter (λ i, answer_time (find_ts e) i &&
    (forallb (answer_range p i) (map_to_list m) && forallb (answer_eq p i) (collect_eqs p e))) (numbers n) →
  cols = indexed_columns (find_ts e) (map_to_list m) (collect_eqs p e) →
  collect_ranges p ∅ e = Value m → tame p e (map_to_list m) = true → (is_Some (find_ts e) → word_column p "timestamp") →
  selects n rows (λ i, eval_expr_single_row now p i e) → eval_remaining_where now p s cand cols = Value rows.
Proof.
  intros He Hcand Hcols Hm Ht Htw [Hrows Hd]. pose proof (ix_rows p Hp) as Hn.
  assert (List.filter (λ i, holds (eval_expr_single_row now p i e)) cand = rows) as Hf.
  { subst cand rows. rewrite filter_filter. apply filter_agree. intros i Hi%elem_of_numbers.
    fold (row_holds now p e i). destruct (row_holds now p e i) eqn:Hh; [|by rewrite andb_false_r].
    by rewrite (answers_sound e m Hm Ht i Hi Hh). }
  unfold eval_remaining_where. rewrite He. destruct cand as [|c cand'] eqn:Hc; [by rewrite <- Hf|].
  rewrite <- Hc in *. destruct (all_indexed cols e) eqn:Ha.
  - f_equal. rewrite <- Hf. rewrite <- (filter_all_true cand) at 1. apply filter_agree.
    intros i Hi. rewrite Hcand in Hi. apply elem_of_filtered in Hi as [Hi%elem_of_numbers Hx]. symmetry.
    subst cols. by apply (answers_complete e m Hm Ht i Hi Ha Htw).
  - rewrite <- Hf. apply keep_rows_value. intros i Hi. rewrite Hcand in Hi.
    apply elem_of_filtered in Hi as [Hi%elem_of_numbers _]. split; [lia|by apply Hd].
Qed.
(** The candidates, and the columns they were found by. *)
Lemma candidates_exact e m start : collect_ranges p ∅ e = Value m →
  leaves n start.1 (answer_time (find_ts e)) → start.2 = (if bool_decide (is_Some (find_ts e)) then {["timestamp"; "recv_ts"]} else ∅) →
  used start.1 ∨ map_to_list m ≠ [] ∨ collect_eqs p e ≠ [] →
  let res := foldl (use_eq p) (foldl (use_range p) start (map_to_list m)) (collect_eqs p e) in
  materialize res.1 = List.filter (λ i, answer_time (find_ts e) i &&
    (forallb (answer_range p i) (map_to_list m) && forallb (answer_eq p i) (collect_eqs p e))) (numbers n) ∧
  res.2 = indexed_columns (find_ts e) (map_to_list m) (collect_eqs p e).
Proof.
  intros Hm Hl Hc Hu. pose proof (ix_rows p Hp) as Hn.
  destruct (use_ranges_leaves p Hp (map_to_list m) start _ Hl) as (Hl1 & Hc1 & Hu1).
  { intros col Hcol. apply (collect_all_columns ∅ m (conjuncts e)).
    - by rewrite <- collect_ranges_conjuncts.
    - apply conjuncts_conjunct.
    - intros c [? H]. by rewrite lookup_empty in H.
    - by apply elem_of_dom, map_columns. }
  destruct (use_eqs_leaves p Hp (collect_eqs p e) _ _ Hl1) as (Hl2 & Hc2 & Hu2).
  { intros col v Hin. apply elem_of_collect_eqs in Hin. destruct Hin as (? & ? & ? & ? & ? & ? & ?). done. }
  split.
  - rewrite (leaves_materialize n Hn _ _ Hl2).
    + apply filter_agree. intros i _. by rewrite andb_assoc.
    + apply Hu2. destruct Hu as [Hu|[Hu|Hu]]; [left; apply Hu1; by left|left; apply Hu1; by right|by right].
  - rewrite Hc2, Hc1, Hc. unfold indexed_columns. set_solver.
Qed.
End Exact.

(** ** Building the indexes *)

Lemma unindexed_right p : sorted_columns_ p = ∅ → grouped_indexes_ p = ∅ → parted_indexes_ p = ∅ →
  0 <= num_rows p < 2 ^ 32 → get_column p "symbol" = None →
  (is_Some (get_column p "timestamp") → word_column p "timestamp" ∧ StronglySorted Z.le (values p "timestamp")) →
  indexes_right p.
Proof.
  intros Hs Hg Ht Hn Hsym Hts. split; try done; intros col H; exfalso.
  - unfold is_sorted in H. rewrite Hs in H. apply bool_decide_eq_true in H. set_solver.
  - unfold is_grouped in H. rewrite Hg, lookup_empty in H. apply bool_decide_eq_true in H. by destruct H.
  - unfold is_parted in H. rewrite Ht, lookup_empty in H. apply bool_decide_eq_true in H. by destruct H.
Qed.

Section Build.
Context (p : Partition) (Hp : indexes_right p) (col : string) (Hw : word_column p col).

Lemma set_sorted_right : StronglySorted Z.le (values p col) → indexes_right (set_sorted p col).
Proof.
  intros Hsort. destruct Hp as [H1 H2 H3 H4 H5 H6]. split; try done.
  intros c Hc. unfold is_sorted in Hc. apply bool_decide_eq_true in Hc. simpl in Hc.
  apply elem_of_union in Hc as [->%elem_of_singleton|Hc]; [by split|]. apply H4. unfold is_sorted. by apply bool_decide_eq_true_2.
Qed.

Lemma set_grouped_right : indexes_right (set_grouped p col).
Proof.
  destruct (values_word p col) as [Hc Hl]; [apply Hp|done|]. pose proof (ix_rows p Hp).
  pose proof (column_indexes_exact p col) as Hx. unfold set_grouped in *. rewrite Hc in *.
  destruct (values p col) as [|v0 rest] eqn:Hv; [done|]. destruct (Hx v0 rest eq_refl ltac:(lia)) as [Hlk _].
  destruct Hp as [H1 H2 H3 H4 H5 H6]. split; try done. intros c Hg. unfold is_grouped, grouped_lookup in *. simpl in *.
  destruct (decide (c = col)) as [->|Hne].
  - split; [done|]. intros v. rewrite Hlk.
    f_equal. by rewrite <- Hv.
  - rewrite lookup_insert_ne in Hg |- * by done. by apply H5.
Qed.

Lemma part_rows_bounds vs idx cur start i v b e : 0 <= start <= i → (∀ v b e, idx !! v = Some (b, e) → 0 <= b <= i ∧ 0 <= e <= i) →
  part_rows idx cur start i vs !! v = Some (b, e) →
  0 <= b <= i + Z.of_nat (length vs) ∧ 0 <= e <= i + Z.of_nat (length vs).
Proof.
  revert idx cur start i. induction vs as [|x vs IH]; intros idx cur start i Hs Hidx; cbn [part_rows length].
  - intros [[_ [= <- <-]]|[_ H]]%lookup_insert_Some; [lia|]. specialize (Hidx _ _ _ H). lia.
  - destruct (x =? cur); intros H; apply IH in H; try lia.
    + intros w b' e' Hw'. specialize (Hidx _ _ _ Hw'). lia.
    + intros w b' e' [[_ [= <- <-]]|[_ Hw']]%lookup_insert_Some; [lia|]. specialize (Hidx _ _ _ Hw'). lia.
Qed.

Lemma set_parted_right v0 rest : values p col = v0 :: rest → clustered {[v0]} v0 rest → indexes_right (set_parted p col).
Proof.
  intros Hv Hcl. destruct (values_word p col) as [Hc Hl]; [apply Hp|done|]. pose proof (ix_rows p Hp).
  pose proof (column_indexes_exact p col) as Hx. unfold set_parted in *. rewrite Hc, Hv in *.
  destruct (Hx v0 rest eq_refl ltac:(lia)) as (_ & Hlk & _). specialize (Hlk Hcl).
  destruct Hp as [H1 H2 H3 H4 H5 H6]. split; try done. intros c Hg. unfold is_parted, parted_range in *. simpl in *.
  destruct (decide (c = col)) as [->|Hne].
  - split; [done|]. intros v. rewrite lookup_insert_eq in Hlk |- *. cbn [mbind option_bind] in *. split; [|split].
    3: { intros j Hj. rewrite <- (Hlk v j Hj), <- Hv. done. }
    all: change (num_rows _) with (num_rows p); destruct (part_rows ∅ v0 0 1 rest !! v) as [[b e]|] eqn:Hb; simpl; [|lia].
    all: apply part_rows_bounds in Hb; [lia|lia|]; intros ? ? ? H'; by rewrite lookup_empty in H'.
  - rewrite lookup_insert_ne in Hg |- * by done. by apply H6.
Qed.
End Build.

(** The columns of an indexed partition are those it had. *)
Lemma word_set_sorted p col c : word_column (set_sorted p col) c ↔ word_column p c.
Proof. done. Qed.
Lemma word_set_grouped p col c : word_column (set_grouped p col) c ↔ word_column p c.
Proof. unfold set_grouped. by destruct (column_values p col) as [[|v rest]|]. Qed.
Lemma values_set_grouped p col c : values (set_grouped p col) c = values p c.
Proof. unfold set_grouped. by destruct (column_values p col) as [[|v rest]|]. Qed.

Lemma indexed_right p sorted grouped parted v0 rest : indexes_right p →
  word_column p sorted → word_column p grouped → word_column p parted →
  StronglySorted Z.le (values p sorted) → values p parted = v0 :: rest → clustered {[v0]} v0 rest →
  indexes_right (set_parted (set_grouped (set_sorted p sorted) grouped) parted).
Proof.
  intros Hp Hs Hg Ht Hsort Hv Hcl.
  apply (set_parted_right _ (set_grouped_right _ (set_sorted_right p Hp sorted Hs Hsort) grouped Hg) parted) with (v0 := v0) (rest := rest).
  - by apply word_set_grouped.
  - by rewrite values_set_grouped.
  - done.
Qed.


(** ** A partition with indexes *)

Definition no_libm : Libm := {| f64_sin x := x; f64_cos x := x; f64_atan2 x _ := x |}.

(** timestamp, price (sorted), venue (grouped), lot (parted), size *)
Definition demo_columns : Partition :=
  foldl (λ p c, add_column p c.1 c.2) (new_partition 0 (mkKey 0 7 0) (make_arena 1 true))
    [("timestamp", TIMESTAMP_NS); ("price", INT64); ("venue", INT64); ("lot", INT64); ("size", INT64)].
Definition demo_row (p : Partition) (row : list Z) : Partition :=
  foldl (λ p c, (append_at p c.1 (push_le 8 c.2)).2) p (imap pair row).
Definition demo_base : Partition :=
  foldl demo_row demo_columns [[10; 5; 1; 3; 200]; [20; 5; 2; 3; 100]; [30; 7; 1; 3; 50]; [40; 9; 1; 4; 300]; [50; 9; 1; 4; 30]].
Definition demo : Partition := set_parted (set_grouped (set_sorted demo_base "price") "venue") "lot".

Definition select_where (e : Expr) : SelectStmt :=
  Select (mkSelect [] false false [] "t" "" None None (Some (Some e)) None None None None None None S_NONE None).
Definition both (l r : Expr) : Expr := EAnd (Some l) (Some r).
Definition int_compare (col : string) (op : CompareOp) (v : Z) : Expr := ECompare "" col op (VInt v) None.

Lemma demo_words : Forall (word_column demo_base) ["timestamp"; "price"; "venue"; "lot"; "size"].
Proof.
  repeat (apply Forall_cons_2; [eexists; split; [vm_compute; reflexivity|split; [vm_compute; tauto|split; [vm_compute; reflexivity|
    eexists; vm_compute; reflexivity]]]|]). apply Forall_nil_2.
Qed.

Lemma demo_word col : bool_decide (col ∈ ["timestamp"; "price"; "venue"; "lot"; "size"]) = true → word_column demo_base col.
Proof. intros H%bool_decide_eq_true. exact (proj1 (Forall_forall _ _) demo_words col H). Qed.

Lemma demo_right : indexes_right demo.
Proof.
  apply (indexed_right demo_base "price" "venue" "lot" 3 [3; 3; 4; 4]);
    [|apply demo_word; vm_compute; reflexivity..| |vm_compute; reflexivity|].
  - apply unindexed_right; [vm_compute; reflexivity|vm_compute; reflexivity|vm_compute; reflexivity| |vm_compute; reflexivity|].
    + assert (num_rows demo_base = 5) as -> by (vm_compute; reflexivity). lia.
    + intros _. split; [apply demo_word; vm_compute; reflexivity|].
      assert (values demo_base "timestamp" = [10; 20; 30; 40; 50]) as -> by (vm_compute; reflexivity). repeat constructor; lia.
  - assert (values demo_base "price" = [5; 5; 7; 9; 9]) as -> by (vm_compute; reflexivity). repeat constructor; lia.
  - cbn [clustered]. repeat (case_decide; [|try done]); try done.
Qed.

Definition demo_query : Expr :=
  both (both (EBetween "" "timestamp" None 10 45) (int_compare "price" GT 4))
    (both (both (int_compare "venue" EQ 1) (int_compare "lot" EQ 3)) (int_compare "size" GE 100)).


(** Two rows were looked at. *)
Example demo_scan : @collect_and_intersect no_libm (λ _, 0) demo (select_where demo_query) 0 = Value ([0], 2).
Proof. by vm_compute. Qed.

(** An inequality on a sorted column is no range, but the index path counts the
    column as covered: the condition is dropped, and all rows are selected. *)
Example sorted_ne_is_dropped :
  let q := select_where (int_compare "price" NE 5) in
  @eval_where no_libm (λ _, 0) demo q 5 = Value [2; 3; 4] ∧
  @collect_and_intersect no_libm (λ _, 0) demo q 0 = Value ([0; 1; 2; 3; 4], 5).
Proof. split; by vm_compute. Qed.

(** So is a second condition on the timestamp beside a BETWEEN. *)
Example second_time_condition_is_dropped :
  let q := select_where (both (EBetween "" "timestamp" None 10 45) (int_compare "timestamp" GT 20)) in
  @eval_where no_libm (λ _, 0) demo q 5 = Value [2; 3] ∧
  @collect_and_intersect no_libm (λ _, 0) demo q 0 = Value ([0; 1; 2; 3], 4).
Proof. split; by vm_compute. Qed.
