(* ===== verification/SqlGrammar.v ===== *)
(** * A reference grammar for the SQL parser

    The grammar of arithmetic expressions, conditions and SELECT statements as
    inductive relations between token lists and syntax trees, with the usual
    precedence and associativity, and the theorem that the parser of [Parser.v]
    returns the tree of every derivation. *)

From S2P Require Import Prelude.
From S2P Require Import Ast.
From S2P Require Import Text.
From S2P Require Import Tokenizer.
From S2P Require Import Literals.
From S2P Require Import Parser.
From stdpp Require Import base list strings.
From Stdlib Require Import ZArith Lia.

Open Scope Z_scope.

(** ** The grammar *)

Definition head_type (ts : list Token) : TokenType := type (token_at 0 ts).

Notation lparen := (mkToken LPAREN "(").
Notation rparen := (mkToken RPAREN ")").
Notation comma := (mkToken COMMA ",").

Definition more_commas (tss : list (list Token)) : list Token := tss ≫= λ ts, comma :: ts.
Definition commas (tss : list (list Token)) : list Token :=
  match tss with
  | [] => []
  | ts :: tss => ts ++ more_commas tss
  end.

(** [column] or [alias.column] *)
Inductive name : list Token → string → string → Prop :=
  | name_plain t v : ident_like t = true → name [mkToken t v] "" v
  | name_dotted t v t' v' : ident_like t = true → ident_like t' = true →
      name [mkToken t v; mkToken DOT "."; mkToken t' v'] v v'.

Inductive integer : list Token → Z → Prop :=
  | integer_literal s v : stoll s = Valid v → integer [mkToken NUMBER s] v.

Inductive primary : list Token → ArithExpr → Prop :=
  | primary_column ts alias col : name ts alias col → primary ts (AColumn alias col)
  | primary_integer s v : has_dot s = false → stoll s = Valid v → primary [mkToken NUMBER s] (ALiteral v)
  | primary_float s f : has_dot s = true → stod s = Valid f → primary [mkToken NUMBER s] (AFloat f (cast_int64 f))
  | primary_paren ts e : sum ts e → primary (lparen :: ts ++ [rparen]) e
  | primary_now w : primary [mkToken NOW w; lparen; rparen] (AFunc "now" "" None None [])
  | primary_interval w lit : primary [mkToken INTERVAL w; mkToken STRING lit] (AFunc "interval" lit None None [])
  | primary_epoch_s w ts e : sum ts e → primary (mkToken EPOCH_S w :: lparen :: ts ++ [rparen]) (AFunc "epoch_s" "" (Some e) None [])
  | primary_epoch_ms w ts e : sum ts e → primary (mkToken EPOCH_MS w :: lparen :: ts ++ [rparen]) (AFunc "epoch_ms" "" (Some e) None [])
  | primary_date_trunc w unit ts e : sum ts e →
      primary (mkToken DATE_TRUNC w :: lparen :: mkToken STRING unit :: comma :: ts ++ [rparen])
              (AFunc "date_trunc" unit (Some e) None [])
with term : list Token → ArithExpr → Prop :=
  | term_primary ts e : primary ts e → term ts e
  | term_chain op o ts ts' l r : term ts l → term_op (type o) = Some op → primary ts' r →
      term (ts ++ o :: ts') (ABinary op l r)
with sum : list Token → ArithExpr → Prop :=
  | sum_term ts e : term ts e → sum ts e
  | sum_chain op o ts ts' l r : sum ts l → sum_op (type o) = Some op → term ts' r →
      sum (ts ++ o :: ts') (ABinary op l r).

Definition time_start (t : TokenType) : bool :=
  match t with NOW | EPOCH_S | EPOCH_MS | DATE_TRUNC | INTERVAL => true | _ => false end.

Inductive operand : list Token → CompareValue → Prop :=
  | operand_integer s v : has_dot s = false → stoll s = Valid v → operand [mkToken NUMBER s] (VInt v)
  | operand_float s f : has_dot s = true → stod s = Valid f → operand [mkToken NUMBER s] (VFloat f (cast_int64 f))
  | operand_string s : operand [mkToken STRING s] (VString s)
  | operand_column c : operand [mkToken IDENT c] (VInt 0)
  | operand_time ts e : time_start (head_type ts) = true → sum ts e → operand ts (VExpr e).

Inductive cond_primary : list Token → option Expr → Prop :=
  | cond_not w ts e : cond_primary ts e → cond_primary (mkToken NOT w :: ts) (Some (ENot e))
  | cond_paren ts e : cond_or ts e → cond_primary (lparen :: ts ++ [rparen]) e
  | cond_literals ts ts' l r o op : integer ts l → compare_op_of (type o) = Some op → integer ts' r →
      cond_primary (ts ++ o :: ts') (if compare_literals op l r then None else Some never_match)
  | cond_compare ts alias col o op ts' v : name ts alias col → compare_op_of (type o) = Some op → operand ts' v →
      cond_primary (ts ++ o :: ts') (Some (ECompare alias col op v None))
  | cond_between w w' ts alias col lo l hi h : name ts alias col → integer lo l → integer hi h →
      cond_primary (ts ++ mkToken BETWEEN w :: lo ++ mkToken AND w' :: hi) (Some (EBetween alias col None l h))
  | cond_in w ts alias col tss vs : name ts alias col → Forall2 integer tss vs →
      Forall (λ ts, existsb (λ t, has_dot (value t)) ts = false) tss →
      cond_primary (ts ++ mkToken IN w :: lparen :: commas tss ++ [rparen]) (Some (EIn alias col vs))
  | cond_null w w' ts alias col : name ts alias col →
      cond_primary (ts ++ [mkToken IS w; mkToken NULL_KW w']) (Some (EIsNull alias col false))
  | cond_not_null w w' w'' ts alias col : name ts alias col →
      cond_primary (ts ++ [mkToken IS w; mkToken NOT w'; mkToken NULL_KW w'']) (Some (EIsNull alias col true))
  | cond_like w ts alias col pat : name ts alias col →
      cond_primary (ts ++ [mkToken LIKE w; mkToken STRING pat]) (Some (ELike alias col pat false))
  | cond_not_like w w' ts alias col pat : name ts alias col →
      cond_primary (ts ++ [mkToken NOT w; mkToken LIKE w'; mkToken STRING pat]) (Some (ELike alias col pat true))
with cond_and : list Token → option Expr → Prop :=
  | cond_and_one ts e : cond_primary ts e → cond_and ts e
  | cond_and_chain w ts ts' l r : cond_and ts l → cond_primary ts' r →
      cond_and (ts ++ mkToken AND w :: ts') (Some (EAnd l r))
with cond_or : list Token → option Expr → Prop :=
  | cond_or_one ts e : cond_and ts e → cond_or ts e
  | cond_or_chain w ts ts' l r : cond_or ts l → cond_and ts' r →
      cond_or (ts ++ mkToken OR w :: ts') (Some (EOr l r)).

(** *** SELECT *)

Definition aggregate_of (t : TokenType) : option AggFunc :=
  match t with
  | SUM => Some Ast.SUM | AVG => Some Ast.AVG | COUNT => Some Ast.COUNT | MIN => Some Ast.MIN | MAX => Some Ast.MAX
  | STDDEV => Some Ast.STDDEV | VARIANCE => Some Ast.VARIANCE | MEDIAN => Some Ast.MEDIAN | _ => None
  end.

(** Items whose first token is no keyword of its own in a select list. *)
Definition plain_start (tok : Token) : bool :=
  match type tok with
  | IDENT => match wj_suffix (value tok) with None => true | Some _ => false end
  | OFFSET | ASC | DESC | ROWS | NUMBER | LPAREN | NOW | INTERVAL | EPOCH_S | EPOCH_MS | DATE_TRUNC => true
  | _ => false
  end.

Inductive item_body : list Token → SelectExpr → Prop :=
  | item_plain ts a : plain_start (token_at 0 ts) = true → sum ts a → item_body ts (plain_item a)
  | item_aggregate t w f ts a : aggregate_of t = Some f → sum ts a →
      item_body (mkToken t w :: lparen :: ts ++ [rparen]) (set_operand a (set_agg f default_item))
  | item_count w w' : item_body [mkToken COUNT w; lparen; mkToken STAR w'; rparen]
                        (set_name (EmptyString, "*"%string) (set_agg Ast.COUNT default_item))
  | item_vwap w ts alias col ts' alias' col' : name ts alias col → name ts' alias' col' →
      item_body (mkToken VWAP w :: lparen :: ts ++ comma :: ts' ++ [rparen])
                (set_arg2 col' (set_name (alias, col) (set_agg Ast.VWAP default_item)))
  | item_xbar w ts alias col ts' n : name ts alias col → integer ts' n →
      item_body (mkToken XBAR w :: lparen :: ts ++ comma :: ts' ++ [rparen])
                (set_xbar n (set_name (alias, col) (set_agg Ast.XBAR default_item))).

Definition no_alias (t : TokenType) : bool :=
  match t with COMMA | FROM | WHERE | GROUP | ORDER | LIMIT | END => true | _ => false end.

Inductive item : list Token → SelectExpr → Prop :=
  | item_bare ts e : item_body ts e → item ts e
  | item_alias ts e w t v : item_body ts e → no_alias t = false →
      item (ts ++ [mkToken AS w; mkToken t v]) (set_alias v e).

Inductive select_list : list Token → list SelectExpr → Prop :=
  | list_star w : select_list [mkToken STAR w] [star_item]
  | list_items tss es : tss ≠ [] → Forall2 item tss es → select_list (commas tss) es.

Inductive from_clause : list Token → string → string → Prop :=
  | from_plain w t : from_clause [mkToken FROM w; mkToken IDENT t] t ""
  | from_aliased w t a : a ∉ not_an_alias → from_clause [mkToken FROM w; mkToken IDENT t; mkToken IDENT a] t a
  | from_as w w' t a : a ∉ not_an_alias →
      from_clause [mkToken FROM w; mkToken IDENT t; mkToken AS w'; mkToken IDENT a] t a.

Inductive group_item : list Token → string * string * Z * Z → Prop :=
  | group_name ts alias col : name ts alias col → group_item ts (alias, col, 0, 0)
  | group_xbar w ts alias col ts' n : name ts alias col → integer ts' n →
      group_item (mkToken XBAR w :: lparen :: ts ++ comma :: ts' ++ [rparen]) (alias, col, n, 0).

Inductive order_item : list Token → OrderByItem → Prop :=
  | order_plain ts alias col : name ts alias col → order_item ts (mkOrderBy alias col true)
  | order_asc w ts alias col : name ts alias col → order_item (ts ++ [mkToken ASC w]) (mkOrderBy alias col true)
  | order_desc w ts alias col : name ts alias col → order_item (ts ++ [mkToken DESC w]) (mkOrderBy alias col false).

(** A clause that may be absent. *)
Inductive clause {A} (t : TokenType) (body : list Token → A → Prop) : list Token → option A → Prop :=
  | clause_absent : clause t body [] None
  | clause_present w ts a : body ts a → clause t body (mkToken t w :: ts) (Some a).

Inductive after_by {A} (one : list Token → A → Prop) : list Token → list A → Prop :=
  | by_items w tss xs : tss ≠ [] → Forall2 one tss xs → after_by one (mkToken BY w :: commas tss) xs.

Inductive distinct_clause : list Token → bool → Prop :=
  | distinct_absent : distinct_clause [] false
  | distinct_present w : distinct_clause [mkToken DISTINCT w] true.

(** Everything after the select list, and the statement it makes of DISTINCT and a
    select list. *)
Inductive clauses : list Token → (bool → list SelectExpr → SelectStmt) → Prop :=
  | clauses_intro from table alias wts wh gts gr hts hv ots ord lts lim offs off :
      from_clause from table alias →
      clause WHERE cond_or wts wh → clause GROUP (after_by group_item) gts gr → clause HAVING cond_or hts hv →
      clause ORDER (after_by order_item) ots ord → clause LIMIT integer lts lim → clause OFFSET integer offs off →
      clauses (from ++ wts ++ gts ++ hts ++ ots ++ lts ++ offs)
        (λ d items, Select (mkSelect [] false d items table alias None None wh (group_of <$> gr) ord lim off
                               None hv S_NONE None)).

Inductive select : list Token → SelectStmt → Prop :=
  | select_intro w ds d cols items tail mk :
      distinct_clause ds d → select_list cols items → clauses tail mk →
      select (mkToken SELECT w :: ds ++ cols ++ tail) (mk d items).

(** ** Follow sets *)

(** What may come after a name. *)
Definition ends_name (ts : list Token) : bool :=
  match head_type ts with DOT | LPAREN => false | _ => true end.
(** What may come after an arithmetic expression. *)
Definition ends_sum (ts : list Token) : bool :=
  match head_type ts with DOT | LPAREN | PLUS | MINUS | STAR | SLASH => false | _ => true end.
(** What may come after a condition. *)
Definition ends_cond (ts : list Token) : bool :=
  match head_type ts with DOT | LPAREN | PLUS | MINUS | STAR | SLASH | AND | OR => false | _ => true end.

Lemma ends_sum_name ts : ends_sum ts = true → ends_name ts = true.
Proof. unfold ends_sum, ends_name. by destruct (head_type ts). Qed.
Lemma ends_cond_sum ts : ends_cond ts = true → ends_sum ts = true.
Proof. unfold ends_cond, ends_sum. by destruct (head_type ts). Qed.

(** ** Running a parser *)

Definition token_types : list TokenType :=
  [SELECT; FROM; WHERE; JOIN; ASOF; ON; AND; OR; NOT; GROUP; BY; ORDER; LIMIT; OFFSET; BETWEEN; HAVING; AS;
   DISTINCT; INNER; LEFT; RIGHT; OUTER; CROSS; ASC; DESC; NULLS; FIRST; LAST; SUM; AVG; COUNT; MIN; MAX; VWAP;
   STDDEV; VARIANCE; MEDIAN; PERCENTILE; OVER; PARTITION; ROWS; RANGE; PRECEDING; FOLLOWING; UNBOUNDED;
   CURRENT; ROW; RANK; DENSE_RANK; ROW_NUMBER; LAG; LEAD; XBAR; EMA; DELTA; RATIO; WINDOW; DATE_TRUNC; NOW;
   EPOCH_S; EPOCH_MS; SUBSTR; LIKE; FULL; PLUS_JOIN; AJ0; EXPLAIN; INTERVAL; SAMPLE; WITH; INSERT; INTO;
   VALUES; UPDATE; SET; DELETE_KW; MATERIALIZED; VIEW; UNION; ALL; INTERSECT; EXCEPT; IN; IS; NULL_KW; GT; LT;
   GE; LE; EQ; NE; PLUS; MINUS; SLASH; CASE; WHEN; THEN; ELSE; CASE_END; COMMA; DOT; LPAREN; RPAREN; STAR;
   IDENT; NUMBER; STRING; END].

Lemma type_index_lookup t : nth_error token_types (Z.to_nat (type_index t)) = Some t.
Proof. by destruct t. Qed.

Lemma same_type_refl t : same_type t t = true.
Proof. apply Z.eqb_refl. Qed.

Lemma same_type_ne t t' : t ≠ t' → same_type t t' = false.
Proof.
  intros Hne. apply Z.eqb_neq. intros Heq. apply Hne.
  pose proof (type_index_lookup t) as H. pose proof (type_index_lookup t') as H'. rewrite Heq in H. congruence.
Qed.

Lemma bind_parsed {A B} (p : parser A) (f : A → parser B) ts a rest :
  p ts = Parsed a rest → (p ≫= f) ts = f a rest.
Proof. unfold mbind, parser_bind. by intros ->. Qed.

Lemma head_type_cons tok ts : head_type (tok :: ts) = type tok.
Proof. done. Qed.

Lemma has_type_cons t tok ts :
  has_type t (tok :: ts) = negb (same_type (type tok) END) && same_type (type tok) t.
Proof. done. Qed.

Lemma parse_name ts alias col rest :
  name ts alias col → ends_name rest = true → parse_qualified_name (ts ++ rest) = Parsed (alias, col) rest.
Proof.
  intros [t v Ht|t v t' v' Ht Ht'] Hr.
  - destruct t; try done; (destruct rest as [|[[] ?] rest]; try done).
  - destruct t; try done; destruct t'; done.
Qed.

Lemma parse_integer ts v rest : integer ts v → parse_integer_literal (ts ++ rest) = Parsed v rest.
Proof.
  intros [s z Hs]. change (parse_integer_literal (mkToken NUMBER s :: rest) = Parsed z rest).
  change (returned (stoll s) rest = Parsed z rest). by rewrite Hs.
Qed.

Lemma number_integer s v ts : has_dot s = false → stoll s = Valid v → number_value s ts = Parsed (VInt v) ts.
Proof. unfold number_value. by intros -> ->. Qed.
Lemma number_float s f ts : has_dot s = true → stod s = Valid f →
  number_value s ts = Parsed (VFloat f (cast_int64 f)) ts.
Proof. unfold number_value. by intros -> ->. Qed.

(** ** Arithmetic *)

Lemma while_fuel_break {A} fuel (body : A → parser (flow A)) a b ts rest :
  (0 < fuel)%nat → body a ts = Parsed (Break b) rest → while_fuel fuel body a ts = Parsed b rest.
Proof. destruct fuel; [lia|]. intros _ Hb. cbn [while_fuel]. by rewrite (bind_parsed _ _ _ _ _ Hb). Qed.

Lemma while_fuel_continue {A} fuel (body : A → parser (flow A)) a b ts rest :
  body a ts = Parsed (Continue b) rest → while_fuel (S fuel) body a ts = while_fuel fuel body b rest.
Proof. intros Hb. cbn [while_fuel]. by rewrite (bind_parsed _ _ _ _ _ Hb). Qed.

(** One operator of a chain. *)
Definition chain_step (op_of : TokenType → option ArithOp) (operand : parser ArithExpr) (left : ArithExpr) :
  parser (flow ArithExpr) :=
  tok ← current;
  match op_of (type tok) with
  | Some op => advance;; right ← operand; mret (Continue (ABinary op left right))
  | None => mret (Break left)
  end.

Lemma chain_step_op op_of p left o op ts rest r :
  op_of (type o) = Some op → p ts = Parsed r rest →
  chain_step op_of p left (o :: ts) = Parsed (Continue (ABinary op left r)) rest.
Proof.
  intros Ho Hp. unfold chain_step. rewrite (bind_parsed _ _ _ o (o :: ts)) by done. rewrite Ho.
  rewrite (bind_parsed advance _ _ tt ts) by done. by rewrite (bind_parsed p _ _ _ _ Hp).
Qed.

Lemma chain_step_stop op_of p left ts :
  op_of (head_type ts) = None → chain_step op_of p left ts = Parsed (Break left) ts.
Proof.
  intros Ho. unfold chain_step. rewrite (bind_parsed _ _ _ (token_at 0 ts) ts) by done.
  unfold head_type in Ho. by rewrite Ho.
Qed.

Section Arith.
Context (n : nat) (rec : parser ArithExpr).
Hypothesis Hrec : ∀ ts e rest, (length (ts ++ rest) < n)%nat → sum ts e → ends_sum rest = true →
  rec (ts ++ rest) = Parsed e rest.

(** An expression between parentheses. *)
Lemma parse_closed {A} ts e rest (f : ArithExpr → parser A) :
  (length (ts ++ rparen :: rest) < n)%nat → sum ts e →
  (rec ≫= λ a, expect RPAREN ")" ≫= λ _, f a) (ts ++ rparen :: rest) = f e rest.
Proof. intros Hn Hts. by rewrite (bind_parsed rec _ _ e (rparen :: rest)) by (by apply Hrec). Qed.

Lemma parse_primary_ok ts e rest :
  (length (ts ++ rest) < S n)%nat → primary ts e → ends_name rest = true →
  parse_arith_primary rec (ts ++ rest) = Parsed e rest.
Proof.
  intros Hn Hts Hr. destruct Hts as [ts alias col Hname|s v Hd Hs|s f Hd Hs|ts e He|w|w lit|w ts e He|w ts e He|w unit ts e He].
  - transitivity (('(alias, col) ← parse_qualified_name; mret (AColumn alias col)) (ts ++ rest)).
    + destruct Hname as [t v Ht|t v t' v' Ht Ht']; destruct t; try done.
      destruct rest as [|[[] ?] rest]; done.
    + by rewrite (bind_parsed _ _ _ _ _ (parse_name _ _ _ _ Hname Hr)).
  - change ((v ← number_value s; mret (match v with VFloat f i => AFloat f i | VInt i => ALiteral i | _ => ALiteral 0 end)) rest = Parsed (ALiteral v) rest).
    by rewrite (bind_parsed _ _ _ _ _ (number_integer s v rest Hd Hs)).
  - change ((v ← number_value s; mret (match v with VFloat f i => AFloat f i | VInt i => ALiteral i | _ => ALiteral 0 end)) rest = Parsed (AFloat f (cast_int64 f)) rest).
    by rewrite (bind_parsed _ _ _ _ _ (number_float s f rest Hd Hs)).
  - cbn [app] in Hn |- *. rewrite <- app_assoc in Hn |- *. simpl in Hn.
    change ((node ← rec; expect RPAREN ")";; mret node) (ts ++ rparen :: rest) = Parsed e rest).
    by rewrite (parse_closed ts e) by (done || lia).
  - done.
  - done.
  - cbn [app] in Hn |- *. rewrite <- app_assoc in Hn |- *. simpl in Hn.
    change ((arg ← rec; expect RPAREN ")";; mret (simple_func "epoch_s" (Some arg))) (ts ++ rparen :: rest) = Parsed (AFunc "epoch_s" "" (Some e) None []) rest).
    by rewrite (parse_closed ts e) by (done || lia).
  - cbn [app] in Hn |- *. rewrite <- app_assoc in Hn |- *. simpl in Hn.
    change ((arg ← rec; expect RPAREN ")";; mret (simple_func "epoch_ms" (Some arg))) (ts ++ rparen :: rest) = Parsed (AFunc "epoch_ms" "" (Some e) None []) rest).
    by rewrite (parse_closed ts e) by (done || lia).
  - cbn [app] in Hn |- *. rewrite <- app_assoc in Hn |- *. simpl in Hn.
    change ((arg ← rec; expect RPAREN ")";; mret (AFunc "date_trunc" unit (Some arg) None [])) (ts ++ rparen :: rest) = Parsed (AFunc "date_trunc" unit (Some e) None []) rest).
    by rewrite (parse_closed ts e) by (done || lia).
Qed.

(** A chain of operators has been read up to its last operand. *)
Lemma parse_term_chain ts e : term ts e → ∀ rest, (length (ts ++ rest) < S n)%nat → ends_name rest = true →
  ∃ fuel, (length rest < fuel)%nat ∧
    parse_arith_term rec (ts ++ rest) = while_fuel fuel (chain_step term_op (parse_arith_primary rec)) e rest.
Proof.
  induction 1 as [ts e He|op o ts ts' l r Hl IH Ho Hr]; intros rest Hn Hrest.
  - exists (S (length rest)). split; [lia|]. unfold parse_arith_term, arith_chain.
    by rewrite (bind_parsed _ _ _ e rest) by (by apply parse_primary_ok).
  - rewrite <- app_assoc in Hn |- *. cbn [app] in Hn |- *.
    destruct (IH (o :: ts' ++ rest)) as (fuel & Hf & ->); [done| |].
    + revert Ho. unfold ends_name. rewrite head_type_cons. by destruct (type o).
    + destruct fuel as [|fuel]; [lia|]. exists fuel. simpl in Hf. rewrite length_app in Hf. split; [lia|].
      apply while_fuel_continue, chain_step_op; [exact Ho|]. apply parse_primary_ok; [|exact Hr|exact Hrest].
      rewrite length_app in Hn. simpl in Hn. rewrite length_app in Hn |- *. lia.
Qed.

Lemma parse_term_ok ts e rest : (length (ts ++ rest) < S n)%nat → term ts e → ends_name rest = true →
  term_op (head_type rest) = None → parse_arith_term rec (ts ++ rest) = Parsed e rest.
Proof.
  intros Hn Hts Hr Ho. destruct (parse_term_chain ts e Hts rest Hn Hr) as (fuel & Hf & ->).
  apply while_fuel_break; [lia|]. by apply chain_step_stop.
Qed.

Lemma parse_sum_chain ts e : sum ts e → ∀ rest, (length (ts ++ rest) < S n)%nat → ends_name rest = true →
  term_op (head_type rest) = None →
  ∃ fuel, (length rest < fuel)%nat ∧
    parse_arith_sum rec (ts ++ rest) = while_fuel fuel (chain_step sum_op (parse_arith_term rec)) e rest.
Proof.
  induction 1 as [ts e He|op o ts ts' l r Hl IH Ho Hr]; intros rest Hn Hrest Hterm.
  - exists (S (length rest)). split; [lia|]. unfold parse_arith_sum, arith_chain.
    by rewrite (bind_parsed _ _ _ e rest) by (by apply parse_term_ok).
  - rewrite <- app_assoc in Hn |- *. cbn [app] in Hn |- *.
    destruct (IH (o :: ts' ++ rest)) as (fuel & Hf & ->); [done| | |].
    + revert Ho. unfold ends_name. rewrite head_type_cons. by destruct (type o).
    + revert Ho. rewrite head_type_cons. by destruct (type o).
    + destruct fuel as [|fuel]; [lia|]. exists fuel. simpl in Hf. rewrite length_app in Hf. split; [lia|].
      apply while_fuel_continue, chain_step_op; [exact Ho|]. apply parse_term_ok; [|exact Hr|exact Hrest|exact Hterm].
      rewrite length_app in Hn. simpl in Hn. rewrite length_app in Hn |- *. lia.
Qed.

Lemma parse_sum_ok ts e rest : (length (ts ++ rest) < S n)%nat → sum ts e → ends_sum rest = true →
  parse_arith_sum rec (ts ++ rest) = Parsed e rest.
Proof.
  intros Hn Hts Hr.
  assert (ends_name rest = true ∧ term_op (head_type rest) = None ∧ sum_op (head_type rest) = None) as (Hname & Ht & Hs).
  { revert Hr. unfold ends_sum, ends_name. by destruct (head_type rest). }
  destruct (parse_sum_chain ts e Hts rest Hn Hname Ht) as (fuel & Hf & ->).
  apply while_fuel_break; [lia|]. by apply chain_step_stop.
Qed.
End Arith.

Lemma parse_arith_fuel_ok n ts e rest : (length (ts ++ rest) < n)%nat → sum ts e → ends_sum rest = true →
  parse_arith_fuel n (ts ++ rest) = Parsed e rest.
Proof.
  revert ts e rest. induction n as [|n IH]; intros ts e rest Hn Hts Hr; [lia|]. cbn [parse_arith_fuel].
  by apply (parse_sum_ok n).
Qed.

Lemma parse_sum ts e rest : sum ts e → ends_sum rest = true → parse_arith_expr_node (ts ++ rest) = Parsed e rest.
Proof. intros Hts Hr. by apply parse_arith_fuel_ok; [lia|..]. Qed.

(** ** Chains of keywords and comma lists *)

Lemma has_type_head t ts : t ≠ END → has_type t ts = same_type (head_type ts) t.
Proof.
  intros Ht. destruct ts as [|tok ts]; [by rewrite (same_type_ne _ t) by done|].
  rewrite has_type_cons, head_type_cons. destruct (same_type (type tok) END) eqn:He; [|done].
  simpl. symmetry. apply same_type_ne. intros Hty. rewrite Hty, (same_type_ne t END) in He; done.
Qed.

Lemma has_type_false t ts : head_type ts ≠ t → has_type t ts = false.
Proof.
  destruct ts as [|tok ts]; [done|]. rewrite has_type_cons, head_type_cons. intros Hne.
  rewrite (same_type_ne _ _ Hne). by rewrite andb_false_r.
Qed.

Lemma match_other t ts : head_type ts ≠ t → match_ t ts = Parsed false ts.
Proof. intros Hne. unfold match_. by rewrite has_type_false. Qed.
Lemma check_other t ts : head_type ts ≠ t → check t ts = Parsed false ts.
Proof. intros Hne. unfold check. by rewrite has_type_false. Qed.

(** The body of [while_match]. *)
Definition match_step {A} (t : TokenType) (p : A → parser A) (a : A) : parser (flow A) :=
  more ← match_ t; if more : bool then a ← p a; mret (Continue a) else mret (Break a).

Lemma match_step_stop {A} t (p : A → parser A) a ts :
  head_type ts ≠ t → match_step t p a ts = Parsed (Break a) ts.
Proof. intros Hne. unfold match_step. by rewrite (bind_parsed _ _ _ _ _ (match_other t ts Hne)). Qed.

Lemma match_step_go {A} t (p : A → parser A) a b tok ts rest :
  type tok = t → t ≠ END → p a ts = Parsed b rest → match_step t p a (tok :: ts) = Parsed (Continue b) rest.
Proof.
  intros <- Hend Hp. unfold match_step. rewrite (bind_parsed _ _ _ true ts).
  - by rewrite (bind_parsed _ _ _ _ _ Hp).
  - unfold match_. by rewrite has_type_cons, same_type_refl, (same_type_ne _ END) by done.
Qed.

Lemma comma_list_ok {A} (p : parser A) (F : list Token → bool) tss xs rest :
  Forall2 (λ ts x, ∀ rest, F rest = true → p (ts ++ rest) = Parsed x rest) tss xs → tss ≠ [] →
  (∀ ts, F (comma :: ts) = true) → F rest = true → head_type rest ≠ COMMA →
  comma_list p (commas tss ++ rest) = Parsed xs rest.
Proof.
  intros Hall Hne Hcomma HF Hrest. destruct Hall as [|ts x tss xs Hx Hall]; [done|]. clear Hne.
  assert (∀ k acc fuel, k = more_commas tss ++ rest → (length k < fuel)%nat →
    while_fuel fuel (match_step COMMA (λ items, item ← p; mret (items ++ [item]))) acc k = Parsed (acc ++ xs) rest) as Hloop.
  { clear Hx. induction Hall as [|ts' x' tss xs Hx Hall IH]; intros k acc fuel -> Hf.
    - rewrite app_nil_r. apply while_fuel_break; [lia|]. by apply match_step_stop.
    - destruct fuel as [|fuel]; [lia|].
      change (more_commas (ts' :: tss)) with ((comma :: ts') ++ more_commas tss) in *.
      rewrite <- app_assoc in Hf |- *. cbn [app] in Hf |- *.
      rewrite (while_fuel_continue _ _ _ (acc ++ [x']) _ (more_commas tss ++ rest)).
      + rewrite (IH _ _ fuel eq_refl) by (simpl in Hf; rewrite length_app in Hf; lia). by rewrite <- app_assoc.
      + apply match_step_go; [done|done|]. rewrite (bind_parsed p _ _ x' (more_commas tss ++ rest)); [done|].
        apply Hx. destruct tss; [exact HF|apply Hcomma]. }
  unfold comma_list. simpl. rewrite <- app_assoc. rewrite (bind_parsed p _ _ x (more_commas tss ++ rest)).
  - by apply (Hloop _ [x]); [|lia].
  - apply Hx. destruct tss; [exact HF|apply Hcomma].
Qed.

(** ** Conditions *)

Lemma head_type_app ts ts' : head_type ts ≠ END → head_type (ts ++ ts') = head_type ts.
Proof. by destruct ts. Qed.

Lemma parse_compare_ok o op rest : compare_op_of (type o) = Some op → parse_compare_op (o :: rest) = Parsed op rest.
Proof. destruct o as [t v]. destruct t; try done; by intros [= <-]. Qed.

Lemma parse_operand_ok select alias col o op ts v rest :
  compare_op_of (type o) = Some op → operand ts v → ends_sum rest = true →
  parse_comparison select alias col (o :: ts ++ rest) = Parsed (Some (ECompare alias col op v None)) rest.
Proof.
  intros Ho Hts Hr. unfold parse_comparison. rewrite (bind_parsed _ _ _ op (ts ++ rest)) by by apply parse_compare_ok.
  destruct Hts as [s z Hd Hs|s f Hd Hs|s|c|ts e Hstart He].
  - change ((v ← number_value s; mret (Some (ECompare alias col op v None))) rest = Parsed (Some (ECompare alias col op (VInt z) None)) rest).
    by rewrite (bind_parsed _ _ _ _ _ (number_integer s z rest Hd Hs)).
  - change ((v ← number_value s; mret (Some (ECompare alias col op v None))) rest
      = Parsed (Some (ECompare alias col op (VFloat f (cast_int64 f)) None)) rest).
    by rewrite (bind_parsed _ _ _ _ _ (number_float s f rest Hd Hs)).
  - done.
  - done.
  - assert (type (token_at 0 (ts ++ rest)) = head_type ts) as Hh.
    { apply head_type_app. by destruct (head_type ts). }
    pose proof (parse_sum ts e rest He Hr) as Hp.
    rewrite (bind_parsed _ _ _ (token_at 0 (ts ++ rest)) (ts ++ rest)) by done.
    rewrite (bind_parsed _ _ _ (same_type (type (token_at 1 (ts ++ rest))) SELECT) (ts ++ rest)) by done.
    rewrite Hh. destruct (head_type ts); try done; by rewrite (bind_parsed _ _ _ _ _ Hp).
Qed.

(** The list of an IN condition. *)
Lemma parse_in_value_ok ts v rest :
  integer ts v → existsb (λ t, has_dot (value t)) ts = false → parse_in_value (ts ++ rest) = Parsed (Some v) rest.
Proof.
  intros [s z Hs] Hd. cbn [existsb value] in Hd. rewrite orb_false_r in Hd.
  change ((v ← number_value s; mret (match v with VInt i => Some i | VFloat _ i => Some i | _ => None end)) rest = Parsed (Some z) rest).
  by rewrite (bind_parsed _ _ _ _ _ (number_integer s z rest Hd Hs)).
Qed.

Definition in_step (vs : list Z) : parser (flow (list Z)) :=
  more ← match_ COMMA;
  if more : bool then
    v ← parse_in_value; mret (match v with Some v => Continue (vs ++ [v]) | None => Break vs end)
  else mret (Break vs).

Lemma parse_in_rest tss vs rest :
  Forall2 integer tss vs → Forall (λ ts, existsb (λ t, has_dot (value t)) ts = false) tss →
  ∀ acc fuel, (length (more_commas tss ++ rparen :: rest) < fuel)%nat →
  while_fuel fuel in_step acc (more_commas tss ++ rparen :: rest) = Parsed (acc ++ vs) (rparen :: rest).
Proof.
  intros Hall. induction Hall as [|ts v tss vs Hts Hall IH]; intros Hd acc fuel Hf.
  - rewrite app_nil_r. by apply while_fuel_break; [lia|].
  - apply Forall_cons in Hd as [Hd Hds]. destruct fuel as [|fuel]; [lia|].
    change (more_commas (ts :: tss)) with ((comma :: ts) ++ more_commas tss) in *.
    rewrite <- app_assoc in Hf |- *. cbn [app] in Hf |- *.
    rewrite (while_fuel_continue _ _ _ (acc ++ [v]) _ (more_commas tss ++ rparen :: rest)).
    + rewrite IH by (done || (simpl in Hf; rewrite length_app in Hf; lia)). by rewrite <- app_assoc.
    + unfold in_step. rewrite (bind_parsed _ _ _ true (ts ++ more_commas tss ++ rparen :: rest)) by done.
      by rewrite (bind_parsed _ _ _ _ _ (parse_in_value_ok ts v _ Hts Hd)).
Qed.

Lemma parse_in_ok select alias col tss vs rest :
  Forall2 integer tss vs → Forall (λ ts, existsb (λ t, has_dot (value t)) ts = false) tss →
  parse_in select alias col (lparen :: commas tss ++ rparen :: rest) = Parsed (Some (EIn alias col vs)) rest.
Proof.
  intros Hall Hd. unfold parse_in. rewrite (bind_parsed _ _ _ "("%string (commas tss ++ rparen :: rest)) by done.
  destruct Hall as [|ts v tss vs Hts Hall]; [done|]. apply Forall_cons in Hd as [Hd Hds].
  change (commas (ts :: tss)) with (ts ++ more_commas tss). rewrite <- app_assoc.
  rewrite (bind_parsed _ _ _ false (ts ++ more_commas tss ++ rparen :: rest)) by by destruct Hts.
  cbv iota. rewrite (bind_parsed _ _ _ _ _ (parse_in_value_ok ts v _ Hts Hd)).
  rewrite (bind_parsed _ _ _ (v :: vs) (rparen :: rest)); [done|].
  by apply (parse_in_rest tss vs rest Hall Hds [v]); lia.
Qed.

Section Conditions.
Context (n : nat) (rec : parser (option Expr)) (select : parser SelectStmt).
Hypothesis Hrec : ∀ ts e rest, (length (ts ++ rest) < n)%nat → cond_primary ts e → ends_sum rest = true →
  rec (ts ++ rest) = Parsed e rest.

Lemma parse_and_chain ts e : cond_and ts e → ∀ rest, (length (ts ++ rest) < n)%nat → ends_sum rest = true →
  ∃ fuel, (length rest < fuel)%nat ∧ parse_and_expr rec (ts ++ rest) =
    while_fuel fuel (match_step AND (λ left, right ← rec; mret (Some (EAnd left right)))) e rest.
Proof.
  induction 1 as [ts e He|w ts ts' l r Hl IH Hr]; intros rest Hn Hrest.
  - exists (S (length rest)). split; [lia|]. unfold parse_and_expr.
    by rewrite (bind_parsed _ _ _ e rest) by (by apply Hrec).
  - rewrite <- app_assoc in Hn |- *. cbn [app] in Hn |- *.
    destruct (IH (mkToken AND w :: ts' ++ rest)) as (fuel & Hf & ->); [done|done|].
    destruct fuel as [|fuel]; [lia|]. exists fuel. simpl in Hf. rewrite length_app in Hf. split; [lia|].
    apply while_fuel_continue, match_step_go; [done|done|].
    rewrite (bind_parsed _ _ _ r rest); [done|]. apply Hrec; [|done|done].
    rewrite length_app in Hn. simpl in Hn. lia.
Qed.

Lemma parse_and_ok ts e rest : (length (ts ++ rest) < n)%nat → cond_and ts e → ends_sum rest = true →
  head_type rest ≠ AND → parse_and_expr rec (ts ++ rest) = Parsed e rest.
Proof.
  intros Hn Hts Hr Hand. destruct (parse_and_chain ts e Hts rest Hn Hr) as (fuel & Hf & ->).
  apply while_fuel_break; [lia|]. by apply match_step_stop.
Qed.

Lemma parse_or_chain ts e : cond_or ts e → ∀ rest, (length (ts ++ rest) < n)%nat → ends_sum rest = true →
  head_type rest ≠ AND →
  ∃ fuel, (length rest < fuel)%nat ∧ parse_expr rec (ts ++ rest) =
    while_fuel fuel (match_step OR (λ left, right ← parse_and_expr rec; mret (Some (EOr left right)))) e rest.
Proof.
  induction 1 as [ts e He|w ts ts' l r Hl IH Hr]; intros rest Hn Hrest Hand.
  - exists (S (length rest)). split; [lia|]. unfold parse_expr.
    by rewrite (bind_parsed _ _ _ e rest) by (by apply parse_and_ok).
  - rewrite <- app_assoc in Hn |- *. cbn [app] in Hn |- *.
    destruct (IH (mkToken OR w :: ts' ++ rest)) as (fuel & Hf & ->); [done|done|done|].
    destruct fuel as [|fuel]; [lia|]. exists fuel. simpl in Hf. rewrite length_app in Hf. split; [lia|].
    apply while_fuel_continue, match_step_go; [done|done|].
    rewrite (bind_parsed _ _ _ r rest); [done|]. apply parse_and_ok; [|done|done|done].
    rewrite length_app in Hn. simpl in Hn. lia.
Qed.

Lemma parse_or_ok ts e rest : (length (ts ++ rest) < n)%nat → cond_or ts e → ends_cond rest = true →
  parse_expr rec (ts ++ rest) = Parsed e rest.
Proof.
  intros Hn Hts Hr. pose proof (ends_cond_sum rest Hr) as Hs.
  assert (head_type rest ≠ AND ∧ head_type rest ≠ OR) as [Hand Hor].
  { revert Hr. unfold ends_cond. by destruct (head_type rest). }
  destruct (parse_or_chain ts e Hts rest Hn Hs Hand) as (fuel & Hf & ->).
  apply while_fuel_break; [lia|]. by apply match_step_stop.
Qed.

(** A condition that starts with a name is one on a column. *)
Lemma parse_primary_name ts alias col rest : name ts alias col → ends_name rest = true →
  parse_primary_body rec select (ts ++ rest) = parse_column_condition select (ts ++ rest).
Proof.
  intros [t v Ht|t v t' v' Ht Ht'] Hr.
  - unfold parse_primary_body, ends_name in *. cbn [app].
    rewrite (bind_parsed _ _ _ false (mkToken t v :: rest)) by by destruct t. cbv iota.
    rewrite (bind_parsed _ _ _ false (mkToken t v :: rest)) by by destruct t. cbv iota.
    rewrite (bind_parsed _ _ _ false (mkToken t v :: rest)) by by destruct t. cbv iota.
    rewrite (bind_parsed _ _ _ (same_type t IDENT) (mkToken t v :: rest)) by by destruct t.
    rewrite (bind_parsed _ _ _ false (mkToken t v :: rest)); [by rewrite andb_false_r|].
    unfold peek_is, peek, mbind, parser_bind. unfold head_type in Hr. change (token_at 1 (mkToken t v :: rest)) with (token_at 0 rest).
    rewrite same_type_ne; [done|]. intros He. by rewrite He in Hr.
  - destruct t; try done; destruct t'; done.
Qed.

(** After the name, by the token that follows it. *)
Lemma parse_column_ok ts alias col tok rest :
  name ts alias col → head_type (tok :: rest) ≠ DOT → head_type (tok :: rest) ≠ LPAREN →
  parse_primary_body rec select (ts ++ tok :: rest) =
    (between ← match_ BETWEEN;
     if between : bool then parse_between alias col None else
     in_ ← match_ IN;
     if in_ : bool then parse_in select alias col else
     is_ ← match_ IS;
     if is_ : bool then parse_is_null alias col else
     like ← match_ LIKE;
     if like : bool then parse_like alias col false else
     not_ ← check NOT;
     not_like ← peek_is LIKE;
     if not_ && not_like then advance;; advance;; parse_like alias col true
     else parse_comparison select alias col) (tok :: rest).
Proof.
  intros Hname Hd Hp. assert (ends_name (tok :: rest) = true) as Hr.
  { unfold ends_name. by destruct (head_type (tok :: rest)). }
  rewrite (parse_primary_name ts alias col) by done. unfold parse_column_condition.
  by rewrite (bind_parsed _ _ _ _ _ (parse_name ts alias col _ Hname Hr)).
Qed.

Lemma parse_between_ok alias col w lo l hi h rest : integer lo l → integer hi h →
  parse_between alias col None (lo ++ mkToken AND w :: hi ++ rest) = Parsed (Some (EBetween alias col None l h)) rest.
Proof.
  intros Hl Hh. unfold parse_between. rewrite (bind_parsed _ _ _ _ _ (parse_integer lo l _ Hl)).
  rewrite (bind_parsed _ _ _ w (hi ++ rest)) by done. by rewrite (bind_parsed _ _ _ _ _ (parse_integer hi h rest Hh)).
Qed.

Lemma parse_literals_ok ts l o op ts' r rest : integer ts l → compare_op_of (type o) = Some op → integer ts' r →
  parse_primary_body rec select (ts ++ o :: ts' ++ rest) =
    Parsed (if compare_literals op l r then None else Some never_match) rest.
Proof.
  intros Hl Ho Hr. transitivity (parse_literal_comparison (ts ++ o :: ts' ++ rest)); [by destruct Hl|].
  unfold parse_literal_comparison. rewrite (bind_parsed _ _ _ _ _ (parse_integer ts l _ Hl)).
  rewrite (bind_parsed _ _ _ op (ts' ++ rest)) by by apply parse_compare_ok.
  by rewrite (bind_parsed _ _ _ _ _ (parse_integer ts' r rest Hr)).
Qed.

Lemma parse_primary_cond_ok ts e rest : (length (ts ++ rest) < S n)%nat → cond_primary ts e →
  ends_sum rest = true → parse_primary_body rec select (ts ++ rest) = Parsed e rest.
Proof.
  intros Hn Hts Hr. destruct Hts; rewrite <- ?app_assoc in Hn |- *; cbn [app] in Hn |- *; rewrite <- ?app_assoc in Hn |- *.
  - unfold parse_primary_body. rewrite (bind_parsed _ _ _ true (ts ++ rest)) by done. cbv iota.
    rewrite (bind_parsed _ _ _ e rest); [done|]. simpl in Hn. apply Hrec; [lia|done|done].
  - unfold parse_primary_body. rewrite (bind_parsed _ _ _ false (lparen :: ts ++ [rparen] ++ rest)) by done. cbv iota.
    rewrite (bind_parsed _ _ _ true (ts ++ rparen :: rest)) by done. cbv iota. simpl in Hn.
    rewrite (bind_parsed _ _ _ e (rparen :: rest)); [done|]. apply parse_or_ok; [simpl in Hn; lia|done|done].
  - by apply parse_literals_ok.
  - assert (∀ t, compare_op_of t = None → head_type (o :: ts' ++ rest) ≠ t) as Hne.
    { intros t Ht. rewrite head_type_cons. congruence. }
    rewrite (parse_column_ok ts alias col) by auto.
    rewrite (bind_parsed _ _ _ _ _ (match_other BETWEEN _ (Hne BETWEEN eq_refl))). cbv iota.
    rewrite (bind_parsed _ _ _ _ _ (match_other IN _ (Hne IN eq_refl))). cbv iota.
    rewrite (bind_parsed _ _ _ _ _ (match_other IS _ (Hne IS eq_refl))). cbv iota.
    rewrite (bind_parsed _ _ _ _ _ (match_other LIKE _ (Hne LIKE eq_refl))). cbv iota.
    rewrite (bind_parsed _ _ _ _ _ (check_other NOT _ (Hne NOT eq_refl))).
    rewrite (bind_parsed _ _ _ (same_type (type (token_at 1 (o :: ts' ++ rest))) LIKE) (o :: ts' ++ rest)) by done.
    cbn [andb]. by apply parse_operand_ok.
  - rewrite (parse_column_ok ts alias col) by done.
    rewrite (bind_parsed _ _ _ true (lo ++ mkToken AND w' :: hi ++ rest)) by done. by apply parse_between_ok.
  - rewrite (parse_column_ok ts alias col) by done.
    rewrite (bind_parsed _ _ _ false (mkToken IN w :: lparen :: commas tss ++ [rparen] ++ rest)) by done. cbv iota.
    rewrite (bind_parsed _ _ _ true (lparen :: commas tss ++ [rparen] ++ rest)) by done. by apply parse_in_ok.
  - by rewrite (parse_column_ok ts alias col) by done.
  - by rewrite (parse_column_ok ts alias col) by done.
  - by rewrite (parse_column_ok ts alias col) by done.
  - by rewrite (parse_column_ok ts alias col) by done.
Qed.
End Conditions.

Lemma parse_primary_fuel_ok n ts e rest : (length (ts ++ rest) < n)%nat → cond_primary ts e → ends_sum rest = true →
  parse_primary_fuel n (ts ++ rest) = Parsed e rest.
Proof.
  revert ts e rest. induction n as [|n IH]; intros ts e rest Hn Hts Hr; [lia|].
  by apply (parse_primary_cond_ok n (λ ts, parse_primary_fuel n ts)).
Qed.

Lemma parse_expr_fuel_ok n ts e rest : (length (ts ++ rest) < n)%nat → cond_or ts e → ends_cond rest = true →
  parse_expr (λ ts, parse_primary_fuel n ts) (ts ++ rest) = Parsed e rest.
Proof. intros Hn. apply (parse_or_ok n); [|done]. intros. by apply parse_primary_fuel_ok. Qed.

(** ** SELECT *)

Definition sum_start (t : TokenType) : bool :=
  ident_like t || match t with NUMBER | LPAREN | NOW | INTERVAL | EPOCH_S | EPOCH_MS | DATE_TRUNC => true | _ => false end.

Lemma name_head ts alias col : name ts alias col → ident_like (head_type ts) = true.
Proof. by intros []. Qed.

Lemma primary_head ts e : primary ts e → sum_start (head_type ts) = true.
Proof. intros []; try done. unfold sum_start. by rewrite (name_head _ _ _ H). Qed.

Lemma start_not_end t : sum_start t = true → t ≠ END.
Proof. by destruct t. Qed.

Lemma term_head ts e : term ts e → sum_start (head_type ts) = true.
Proof.
  induction 1 as [ts e He|op o ts ts' l r Hl IH Ho Hr]; [by eapply primary_head|].
  by rewrite head_type_app by by apply start_not_end.
Qed.

Lemma sum_head ts e : sum ts e → sum_start (head_type ts) = true.
Proof.
  induction 1 as [ts e He|op o ts ts' l r Hl IH Ho Hr]; [by eapply term_head|].
  by rewrite head_type_app by by apply start_not_end.
Qed.

Lemma sum_head_app ts e rest : sum ts e → sum_start (head_type (ts ++ rest)) = true.
Proof. intros He%sum_head. by rewrite head_type_app by by apply start_not_end. Qed.

Lemma match_not_start t ts : sum_start (head_type ts) = true → sum_start t = false → match_ t ts = Parsed false ts.
Proof. intros Hs Ht. apply match_other. congruence. Qed.

(** What may come after the body of an item. *)
Definition ends_item (ts : list Token) : bool :=
  match head_type ts with COMMA | FROM | AS => true | _ => false end.
Definition ends_alias (ts : list Token) : bool :=
  match head_type ts with COMMA | FROM => true | _ => false end.

Lemma ends_item_sum ts : ends_item ts = true → ends_sum ts = true.
Proof. unfold ends_item, ends_sum. by destruct (head_type ts). Qed.

Section Items.
Context (rec : parser (option Expr)).

Lemma parse_operand_item ts a e rest : sum ts a →
  parse_agg_operand rec e (ts ++ rparen :: rest) = Parsed (set_operand a e) (rparen :: rest).
Proof.
  intros Ha. unfold parse_agg_operand.
  rewrite (bind_parsed _ _ _ _ _ (match_not_start CASE _ (sum_head_app _ _ _ Ha) eq_refl)).
  cbv iota. by rewrite (bind_parsed _ _ _ _ _ (parse_sum ts a (rparen :: rest) Ha eq_refl)).
Qed.

Lemma parse_aggregate_ok t f ts a rest : aggregate_of t = Some f → sum ts a →
  parse_agg rec f (lparen :: ts ++ rparen :: rest) = Parsed (set_operand a (set_agg f default_item)) rest.
Proof.
  intros Hf Ha. unfold parse_agg. rewrite (bind_parsed _ _ _ "("%string (ts ++ rparen :: rest)) by done.
  rewrite (bind_parsed _ _ _ (set_operand a (set_agg f default_item)) (rparen :: rest)); [done|].
  destruct t; try done; injection Hf as <-; try by apply parse_operand_item.
  unfold parse_count_operand. pose proof (sum_head_app _ _ (rparen :: rest) Ha) as Hh.
  rewrite (bind_parsed _ _ _ _ _ (match_not_start STAR _ Hh eq_refl)). cbv iota.
  rewrite (bind_parsed _ _ _ _ _ (match_not_start DISTINCT _ Hh eq_refl)). cbv iota.
  by apply parse_operand_item.
Qed.

Lemma parse_item_body_ok ts e rest : item_body ts e → ends_item rest = true →
  parse_item_body rec (ts ++ rest) = Parsed e rest.
Proof.
  intros Hts Hr. destruct Hts as [ts a Hs Ha|t w f ts a Hf Ha|w w'|w ts alias col ts' alias' col' H1 H2|w ts alias col ts' n H1 H2].
  - transitivity (parse_plain_item (ts ++ rest)).
    + destruct ts as [|[t v] ts]; [done|]. unfold plain_start in Hs. simpl in Hs. by destruct t.
    + unfold parse_plain_item. rewrite (bind_parsed _ _ _ (token_at 0 (ts ++ rest)) (ts ++ rest)) by done.
      assert (token_at 0 (ts ++ rest) = token_at 0 ts) as -> by by destruct ts.
      assert ((if same_type (type (token_at 0 ts)) IDENT then wj_suffix (value (token_at 0 ts)) else None) = None) as ->.
      { revert Hs. unfold plain_start. destruct (type (token_at 0 ts)) eqn:Ht; try done.
        simpl. by destruct (wj_suffix _). }
      by rewrite (bind_parsed _ _ _ _ _ (parse_sum ts a rest Ha (ends_item_sum _ Hr))).
  - cbn [app]. rewrite <- app_assoc. cbn [app].
    transitivity (parse_agg rec f (lparen :: ts ++ rparen :: rest)); [|by eapply parse_aggregate_ok].
    destruct t; try done; by injection Hf as <-.
  - done.
  - cbn [app]. rewrite <- app_assoc. cbn [app]. rewrite <- app_assoc.
    change ((e ← parse_vwap_operand (set_agg Ast.VWAP default_item); expect RPAREN ")";; mret e)
              (ts ++ comma :: ts' ++ rparen :: rest) = Parsed (set_arg2 col' (set_name (alias, col) (set_agg Ast.VWAP default_item))) rest).
    rewrite (bind_parsed _ _ _ (set_arg2 col' (set_name (alias, col) (set_agg Ast.VWAP default_item))) (rparen :: rest)); [done|].
    unfold parse_vwap_operand.
    rewrite (bind_parsed _ _ _ _ _ (parse_name ts alias col (comma :: ts' ++ rparen :: rest) H1 eq_refl)).
    rewrite (bind_parsed _ _ _ ","%string (ts' ++ rparen :: rest)) by done.
    by rewrite (bind_parsed _ _ _ _ _ (parse_name ts' alias' col' (rparen :: rest) H2 eq_refl)).
  - cbn [app]. rewrite <- app_assoc. cbn [app]. rewrite <- app_assoc.
    change ((e ← parse_xbar_operand (set_agg Ast.XBAR default_item); expect RPAREN ")";; mret e)
              (ts ++ comma :: ts' ++ rparen :: rest) = Parsed (set_xbar n (set_name (alias, col) (set_agg Ast.XBAR default_item))) rest).
    rewrite (bind_parsed _ _ _ (set_xbar n (set_name (alias, col) (set_agg Ast.XBAR default_item))) (rparen :: rest)); [done|].
    unfold parse_xbar_operand.
    rewrite (bind_parsed _ _ _ _ _ (parse_name ts alias col (comma :: ts' ++ rparen :: rest) H1 eq_refl)).
    rewrite (bind_parsed _ _ _ ","%string (ts' ++ rparen :: rest)) by done.
    by rewrite (bind_parsed _ _ _ _ _ (parse_integer ts' n (rparen :: rest) H2)).
Qed.
End Items.

Lemma body_head ts e : item_body ts e → head_type ts ≠ STAR ∧ head_type ts ≠ DISTINCT ∧ head_type ts ≠ END.
Proof.
  intros [ts' a Hs Ha|t w f ts' a Hf Ha| | |]; [|by destruct t|done|done|done].
  pose proof (sum_head _ _ Ha) as H. split_and!; by intros He; rewrite He in H.
Qed.

Lemma item_head ts e : item ts e → head_type ts ≠ STAR ∧ head_type ts ≠ DISTINCT ∧ head_type ts ≠ END.
Proof.
  intros [ts' e' Hb|ts' e' w t v Hb Hal]; [by eapply body_head|].
  pose proof (body_head _ _ Hb) as H. rewrite head_type_app by apply H. exact H.
Qed.

Lemma item_agg_over ts e rest : item_body ts e → ends_item rest = true → parse_over_suffix e rest = Parsed e rest.
Proof.
  intros _ Hr. unfold parse_over_suffix. rewrite (bind_parsed _ _ _ false rest); [done|].
  apply check_other. intros He. unfold ends_item in Hr. by rewrite He in Hr.
Qed.

Lemma parse_select_expr_ok rec ts e rest : item ts e → ends_alias rest = true →
  parse_select_expr rec (ts ++ rest) = Parsed e rest.
Proof.
  intros Hts Hr. unfold parse_select_expr. destruct Hts as [ts e Hb|ts e w t v Hb Hal].
  - assert (ends_item rest = true) as Hi by (revert Hr; unfold ends_alias, ends_item; by destruct (head_type rest)).
    rewrite (bind_parsed _ _ _ _ _ (parse_item_body_ok rec ts e rest Hb Hi)).
    rewrite (bind_parsed _ _ _ _ _ (item_agg_over ts e rest Hb Hi)).
    unfold parse_alias. rewrite (bind_parsed _ _ _ _ _ (match_other AS rest ltac:(intros He; unfold ends_alias in Hr; by rewrite He in Hr))).
    done.
  - rewrite <- app_assoc. cbn [app].
    rewrite (bind_parsed _ _ _ _ _ (parse_item_body_ok rec ts e (mkToken AS w :: mkToken t v :: rest) Hb eq_refl)).
    rewrite (bind_parsed _ _ _ _ _ (item_agg_over ts e (mkToken AS w :: mkToken t v :: rest) Hb eq_refl)).
    by destruct t.
Qed.

Lemma parse_select_list_ok rec ts es rest : select_list ts es → head_type rest = FROM →
  parse_select_list rec (ts ++ rest) = Parsed es rest.
Proof.
  intros [w|tss es' Hne Hall] Hr; [done|].
  unfold parse_select_list. rewrite (bind_parsed _ _ _ _ _ (match_other STAR (commas tss ++ rest) ltac:(
    destruct Hall as [|ts' x tss xs Hx _]; [done|]; simpl; rewrite <- app_assoc;
    pose proof (item_head _ _ Hx) as (H1 & _ & H3); by rewrite head_type_app))). cbv iota.
  apply comma_list_ok with (F := ends_alias); try done.
  - eapply Forall2_impl; [exact Hall|]. intros ts' x Hx rest' Hr'. by apply parse_select_expr_ok.
  - unfold ends_alias. by rewrite Hr.
  - by rewrite Hr.
Qed.

(** *** Clauses come in order *)

Definition rank (t : TokenType) : nat :=
  match t with
  | WHERE => 1 | GROUP => 2 | HAVING => 3 | ORDER => 4 | LIMIT => 5 | OFFSET => 6
  | END | RPAREN | INTERSECT | EXCEPT => 7
  | _ => 0
  end.

(** The next token starts clause number [k], a later one, or ends the statement. *)
Definition at_clause (k : nat) (ts : list Token) : Prop := (k <= rank (head_type ts))%nat.

Lemma at_clause_weaken k k' ts : (k' <= k)%nat → at_clause k ts → at_clause k' ts.
Proof. unfold at_clause. lia. Qed.

Lemma at_clause_not k t ts : at_clause k ts → (rank t < k)%nat → head_type ts ≠ t.
Proof. unfold at_clause. intros Hk Ht He. rewrite He in Hk. lia. Qed.

Lemma at_clause_ends k ts : at_clause (S k) ts → ends_cond ts = true.
Proof. unfold at_clause, ends_cond. destruct (head_type ts); try done; simpl; lia. Qed.

Lemma at_clause_app {A} k t (body : list Token → A → Prop) ts o rest :
  clause t body ts o → rank t = k → at_clause (S k) rest → at_clause k (ts ++ rest).
Proof.
  intros [|w ts' a Hb] Ht Hr; [by eapply at_clause_weaken; [|exact Hr]; lia|].
  unfold at_clause. cbn [app]. rewrite head_type_cons. simpl. lia.
Qed.

Lemma optional_ok {A} k t (p : parser A) (body : list Token → A → Prop) ts o rest :
  clause t body ts o → rank t = k → (0 < k < 7)%nat → at_clause (S k) rest →
  (∀ ts' a, (length ts' <= length ts)%nat → body ts' a → p (ts' ++ rest) = Parsed a rest) →
  optional t p (ts ++ rest) = Parsed o rest.
Proof.
  intros [|w ts' a Hb] Ht Hk Hr Hp; unfold optional.
  - assert (head_type rest ≠ t) as Hne by (eapply at_clause_not; [exact Hr|lia]).
    cbn [app]. by rewrite (bind_parsed _ _ _ _ _ (match_other t rest Hne)).
  - cbn [app]. rewrite (bind_parsed _ _ _ true (ts' ++ rest)).
    + by rewrite (bind_parsed _ _ _ _ _ (Hp ts' a ltac:(simpl; lia) Hb)).
    + unfold match_. rewrite has_type_cons. cbn [type]. rewrite same_type_refl.
      rewrite (same_type_ne t END); [done|]. intros ->. simpl in Ht. lia.
Qed.

(** What may come after an item of GROUP BY or ORDER BY. *)
Definition ends_key (ts : list Token) : bool := same_type (head_type ts) COMMA || (0 <? rank (head_type ts))%nat.

Lemma ends_key_not ts t : ends_key ts = true → t ≠ COMMA → rank t = 0%nat → head_type ts ≠ t.
Proof.
  unfold ends_key. intros [H|H]%orb_true_iff Ht Hr He; rewrite He in H.
  - by rewrite same_type_ne in H.
  - by rewrite Hr in H.
Qed.

Lemma ends_key_name ts : ends_key ts = true → ends_name ts = true.
Proof. unfold ends_key, ends_name. by destruct (head_type ts). Qed.

Lemma parse_group_item_ok ts x rest : group_item ts x → ends_key rest = true →
  parse_group_item (ts ++ rest) = Parsed x rest.
Proof.
  intros [ts' alias col Hn|w ts' alias col ts'' n Hn Hi] Hr; unfold parse_group_item.
  - assert (∀ t, ident_like t = false → head_type (ts' ++ rest) ≠ t) as Hh.
    { intros t Ht. pose proof (name_head _ _ _ Hn) as H. rewrite head_type_app; [congruence|].
      intros He. by rewrite He in H. }
    rewrite (bind_parsed _ _ _ _ _ (match_other XBAR _ (Hh XBAR eq_refl))). cbv iota.
    rewrite (bind_parsed _ _ _ _ _ (match_other DATE_TRUNC _ (Hh DATE_TRUNC eq_refl))). cbv iota.
    by rewrite (bind_parsed _ _ _ _ _ (parse_name _ _ _ rest Hn (ends_key_name _ Hr))).
  - cbn [app]. rewrite <- app_assoc. cbn [app]. rewrite <- app_assoc.
    rewrite (bind_parsed _ _ _ true (lparen :: ts' ++ comma :: ts'' ++ [rparen] ++ rest)) by done. cbv iota.
    rewrite (bind_parsed _ _ _ "("%string (ts' ++ comma :: ts'' ++ [rparen] ++ rest)) by done.
    rewrite (bind_parsed _ _ _ _ _ (parse_name _ _ _ (comma :: ts'' ++ [rparen] ++ rest) Hn eq_refl)).
    rewrite (bind_parsed _ _ _ ","%string (ts'' ++ [rparen] ++ rest)) by done.
    by rewrite (bind_parsed _ _ _ _ _ (parse_integer _ _ ([rparen] ++ rest) Hi)).
Qed.

Lemma parse_order_item_ok ts x rest : order_item ts x → ends_key rest = true →
  ('(name, asc) ← parse_order_item; mret (mkOrderBy name.1 name.2 asc)) (ts ++ rest) = Parsed x rest.
Proof.
  intros Hts Hr. destruct Hts as [ts alias col Hn|w ts alias col Hn|w ts alias col Hn].
  - rewrite (bind_parsed _ _ _ ((alias, col), true) rest); [done|]. unfold parse_order_item.
    rewrite (bind_parsed _ _ _ _ _ (parse_name _ _ _ rest Hn (ends_key_name _ Hr))). unfold parse_direction.
    assert (parse_direction rest = Parsed true rest) as Hd.
    { unfold parse_direction.
      rewrite (bind_parsed _ _ _ _ _ (match_other DESC rest ltac:(by apply ends_key_not))). cbv iota.
      by rewrite (bind_parsed _ _ _ _ _ (match_other ASC rest ltac:(by apply ends_key_not))). }
    unfold parse_direction in Hd. by rewrite (bind_parsed _ _ _ _ _ Hd).
  - rewrite <- app_assoc. rewrite (bind_parsed _ _ _ ((alias, col), true) rest); [done|]. unfold parse_order_item.
    by rewrite (bind_parsed _ _ _ _ _ (parse_name _ _ _ ([mkToken ASC w] ++ rest) Hn eq_refl)).
  - rewrite <- app_assoc. rewrite (bind_parsed _ _ _ ((alias, col), false) rest); [done|]. unfold parse_order_item.
    by rewrite (bind_parsed _ _ _ _ _ (parse_name _ _ _ ([mkToken DESC w] ++ rest) Hn eq_refl)).
Qed.

Lemma parse_by_ok {A} (p : parser A) (one : list Token → A → Prop) ts xs rest k :
  (∀ ts x rest, one ts x → ends_key rest = true → p (ts ++ rest) = Parsed x rest) →
  after_by one ts xs → at_clause (S k) rest →
  ∃ ts', (∀ B (q : parser B), (expect BY "BY" ≫= λ _, q) (ts ++ rest) = q (ts' ++ rest)) ∧
    comma_list p (ts' ++ rest) = Parsed xs rest.
Proof.
  intros Hp [w tss xs' Hne Hall] Hr. exists (commas tss). split; [done|].
  apply comma_list_ok with (F := ends_key); try done.
  - eapply Forall2_impl; [exact Hall|]. intros ts' x Hx rest' Hr'. by apply Hp.
  - unfold ends_key. apply orb_true_iff. right. unfold at_clause in Hr. apply Nat.ltb_lt. lia.
  - eapply at_clause_not; [exact Hr|simpl; lia].
Qed.

Lemma parse_from_ok select ts table alias rest : from_clause ts table alias → at_clause 1 rest →
  parse_from select (ts ++ rest) = Parsed (table, alias, None) rest.
Proof.
  intros Hts Hr. unfold parse_from. destruct Hts as [w t|w t a Ha|w w' t a Ha]; cbn [app].
  - rewrite (bind_parsed _ _ _ w (mkToken IDENT t :: rest)) by done.
    rewrite (bind_parsed _ _ _ false (mkToken IDENT t :: rest)) by done. cbv iota.
    rewrite (bind_parsed _ _ _ t rest) by done.
    rewrite (bind_parsed _ _ _ _ _ (match_other AS rest ltac:(by eapply at_clause_not; [exact Hr|simpl; lia]))).
    rewrite (bind_parsed _ _ _ _ _ (check_other IDENT rest ltac:(by eapply at_clause_not; [exact Hr|simpl; lia]))).
    by rewrite (bind_parsed _ _ _ (token_at 0 rest) rest) by done.
  - rewrite (bind_parsed _ _ _ w (mkToken IDENT t :: mkToken IDENT a :: rest)) by done.
    rewrite (bind_parsed _ _ _ false (mkToken IDENT t :: mkToken IDENT a :: rest)) by done. cbv iota.
    rewrite (bind_parsed _ _ _ t (mkToken IDENT a :: rest)) by done.
    rewrite (bind_parsed _ _ _ false (mkToken IDENT a :: rest)) by done.
    rewrite (bind_parsed _ _ _ true (mkToken IDENT a :: rest)) by done.
    rewrite (bind_parsed _ _ _ (mkToken IDENT a) (mkToken IDENT a :: rest)) by done.
    cbn [value]. by rewrite (bool_decide_false _ Ha).
  - rewrite (bind_parsed _ _ _ w (mkToken IDENT t :: mkToken AS w' :: mkToken IDENT a :: rest)) by done.
    rewrite (bind_parsed _ _ _ false (mkToken IDENT t :: mkToken AS w' :: mkToken IDENT a :: rest)) by done. cbv iota.
    rewrite (bind_parsed _ _ _ t (mkToken AS w' :: mkToken IDENT a :: rest)) by done.
    rewrite (bind_parsed _ _ _ true (mkToken IDENT a :: rest)) by done.
    rewrite (bind_parsed _ _ _ true (mkToken IDENT a :: rest)) by done.
    rewrite (bind_parsed _ _ _ (mkToken IDENT a) (mkToken IDENT a :: rest)) by done.
    cbn [value]. by rewrite (bool_decide_false _ Ha).
Qed.

Lemma parse_sample_absent rest : at_clause 1 rest → parse_sample rest = Parsed None rest.
Proof.
  intros Hr. unfold parse_sample.
  by rewrite (bind_parsed _ _ _ _ _ (match_other SAMPLE rest ltac:(by eapply at_clause_not; [exact Hr|simpl; lia]))).
Qed.

Lemma parse_join_absent rest : at_clause 1 rest → parse_optional_join rest = Parsed None rest.
Proof.
  intros Hr. unfold parse_optional_join.
  rewrite (bind_parsed _ _ _ _ _ (check_other UNION rest ltac:(by eapply at_clause_not; [exact Hr|simpl; lia]))).
  rewrite (bind_parsed _ _ _ (same_type (type (token_at 1 rest)) JOIN) rest) by done.
  rewrite (bind_parsed _ _ _ false rest); [done|].
  unfold check_any. cbn [existsb].
  rewrite !(has_type_false _ rest) by (eapply at_clause_not; [exact Hr|simpl; lia]). done.
Qed.

Lemma select_list_head ts es rest : select_list ts es → head_type (ts ++ rest) ≠ DISTINCT.
Proof.
  intros [w|tss es' Hne Hall]; [done|]. destruct Hall as [|ts' x tss xs Hx _]; [done|].
  simpl. rewrite <- app_assoc. pose proof (item_head _ _ Hx) as (_ & H2 & H3). by rewrite head_type_app.
Qed.

Lemma parse_distinct_ok ts d rest : distinct_clause ts d → head_type rest ≠ DISTINCT →
  match_ DISTINCT (ts ++ rest) = Parsed d rest.
Proof. intros [|w] Hr; [by apply match_other|done]. Qed.

Lemma from_head ts table alias rest : from_clause ts table alias → head_type (ts ++ rest) = FROM.
Proof. by intros []. Qed.

Lemma parse_select_body_ok n ts s rest :
  (length (ts ++ rest) < S n)%nat → select ts s → at_clause 7 rest →
  parse_select_body (λ ts, parse_primary_fuel n ts) (λ ts, parse_select_fuel n ts) (ts ++ rest) = Parsed s rest.
Proof.
  intros Hn Hts Hr. destruct Hts as [w ds d cols items tail mk Hd Hc Htail].
  destruct Htail as [from table alias wts wh gts gr hts hv ots ord lts lim offs off Hf Hw Hg Hh Ho Hl Hof].
  cbn [app] in Hn |- *. rewrite <- !app_assoc in Hn |- *.
  pose proof (at_clause_app 6 OFFSET _ _ _ rest Hof eq_refl Hr) as A6.
  pose proof (at_clause_app 5 LIMIT _ _ _ _ Hl eq_refl A6) as A5.
  pose proof (at_clause_app 4 ORDER _ _ _ _ Ho eq_refl A5) as A4.
  pose proof (at_clause_app 3 HAVING _ _ _ _ Hh eq_refl A4) as A3.
  pose proof (at_clause_app 2 GROUP _ _ _ _ Hg eq_refl A3) as A2.
  pose proof (at_clause_app 1 WHERE _ _ _ _ Hw eq_refl A2) as A1.
  simpl in Hn. rewrite !length_app in Hn.
  unfold parse_select_body. rewrite (bind_parsed _ _ _ w (ds ++ cols ++ from ++ wts ++ gts ++ hts ++ ots ++ lts ++ offs ++ rest)) by done.
  rewrite (bind_parsed _ _ _ _ _ (parse_distinct_ok ds d _ Hd (select_list_head _ _ _ Hc))).
  rewrite (bind_parsed _ _ _ _ _ (parse_select_list_ok _ cols items _ Hc (from_head _ _ _ _ Hf))).
  rewrite (bind_parsed _ _ _ _ _ (parse_from_ok _ from table alias _ Hf A1)).
  rewrite (bind_parsed _ _ _ _ _ (parse_sample_absent _ A1)).
  rewrite (bind_parsed _ _ _ _ _ (parse_join_absent _ A1)).
  rewrite (bind_parsed _ _ _ wh (gts ++ hts ++ ots ++ lts ++ offs ++ rest)); [|
    eapply (optional_ok 1); [exact Hw|done|lia|exact A2|]; intros ts' a Hlen Ha;
    apply parse_expr_fuel_ok; [rewrite !length_app; lia|done|by eapply at_clause_ends]].
  rewrite (bind_parsed _ _ _ (group_of <$> gr) (hts ++ ots ++ lts ++ offs ++ rest)).
  2: { eapply (optional_ok 2 _ _ (λ ts g, ∃ xs, g = group_of xs ∧ after_by group_item ts xs)); [|done|lia|exact A3|].
       - destruct Hg as [|w' ts' a Ha]; [constructor|]. constructor. by exists a.
       - intros ts' a _ (xs & -> & Ha). unfold parse_group_by.
         destruct (parse_by_ok _ _ ts' xs _ 2 parse_group_item_ok Ha A3) as (ts'' & -> & Hb).
         by rewrite (bind_parsed _ _ _ _ _ Hb). }
  rewrite (bind_parsed _ _ _ hv (ots ++ lts ++ offs ++ rest)); [|
    eapply (optional_ok 3); [exact Hh|done|lia|exact A4|]; intros ts' a Hlen Ha;
    apply parse_expr_fuel_ok; [rewrite !length_app; lia|done|by eapply at_clause_ends]].
  rewrite (bind_parsed _ _ _ ord (lts ++ offs ++ rest)); [|
    eapply (optional_ok 4); [exact Ho|done|lia|exact A5|]; intros ts' a _ Ha;
    destruct (parse_by_ok _ _ ts' a _ 4 parse_order_item_ok Ha A5) as (ts'' & -> & Hb); exact Hb].
  rewrite (bind_parsed _ _ _ lim (offs ++ rest)); [|
    eapply (optional_ok 5); [exact Hl|done|lia|exact A6|]; intros ts' a _ Ha; by apply parse_integer].
  rewrite (bind_parsed _ _ _ off rest); [done|].
  eapply (optional_ok 6); [exact Hof|done|lia|exact Hr|]; intros ts' a _ Ha; by apply parse_integer.
Qed.

Lemma parse_select_ok ts s rest : select ts s → at_clause 7 rest → parse_select (ts ++ rest) = Parsed s rest.
Proof. intros Hts Hr. unfold parse_select. cbn [parse_select_fuel]. by apply parse_select_body_ok; [lia|..]. Qed.

Lemma with_ctes_none s ts : select ts s → with_ctes [] false s = s.
Proof. by intros [w ds d cols items tail mk _ _ []]. Qed.

Lemma select_head ts s : select ts s → ∃ w ts', ts = mkToken SELECT w :: ts'.
Proof. intros []. eauto. Qed.

Lemma parse_query_ok ts s rest : select ts s → at_clause 7 rest →
  parse_query (ts ++ rest) = (sel ← parse_set_ops s; mret (P_SELECT sel)) rest.
Proof.
  intros Hts Hr. destruct (select_head ts s Hts) as (w & ts' & Heq). unfold parse_query.
  rewrite (bind_parsed _ _ _ _ _ (match_other EXPLAIN (ts ++ rest) ltac:(by rewrite Heq))).
  rewrite (bind_parsed _ _ _ _ _ (check_other WITH (ts ++ rest) ltac:(by rewrite Heq))).
  rewrite (bind_parsed _ _ _ [] (ts ++ rest)) by done.
  rewrite (bind_parsed _ _ _ _ _ (parse_select_ok ts s rest Hts Hr)). by rewrite (with_ctes_none s ts).
Qed.

Lemma parse_tokens_select ts s rest : select ts s → parse_tokens (ts ++ rest) = parse_query (ts ++ rest).
Proof. intros (w & ts' & ->)%select_head. done. Qed.

Definition end_token : Token := mkToken END "".

Lemma tokenize_valid ts : valid_from None ts → tokenize (str (print ts)) = Tokens (ts ++ [end_token]).
Proof.
  intros Hv. unfold tokenize. rewrite chars_str. pose proof (length_print ts).
  by apply tokenize_loop_print; [lia|].
Qed.

(** ** Theorems *)

(** C6. The parser implements the grammar: for every SELECT statement derived by
    the reference grammar (aggregates, arithmetic with its precedence and
    associativity, conditions with NOT over AND over OR, and the optional clauses
    in their order), parsing its text gives exactly the tree of the derivation
    and consumes every token. *)
Theorem select_grammar ts s :
  select ts s → valid_from None ts → parse (str (print ts)) = Parsed s [end_token].
Proof.
  intros Hts Hv. unfold parse, parse_statement. rewrite (tokenize_valid ts Hv).
  rewrite (parse_tokens_select ts s) by done. rewrite (parse_query_ok ts s) by (done || by vm_compute). done.
Qed.

Lemma set_op_step o op ts s rest sel :
  type o = INTERSECT ∧ op = S_INTERSECT ∨ type o = EXCEPT ∧ op = S_EXCEPT → select ts s → at_clause 7 rest →
  ∀ fuel, while_fuel (S fuel) (λ sel,
      op ← parse_set_operator;
      match op with
      | Some op => right ← parse_select; mret (Continue (with_set_op op right sel))
      | None => mret (Break sel)
      end) sel (o :: ts ++ rest) =
    while_fuel fuel (λ sel,
      op ← parse_set_operator;
      match op with
      | Some op => right ← parse_select; mret (Continue (with_set_op op right sel))
      | None => mret (Break sel)
      end) (with_set_op op s sel) rest.
Proof.
  intros Ho Hts Hr fuel. apply while_fuel_continue.
  rewrite (bind_parsed _ _ _ (Some op) (ts ++ rest)).
  - by rewrite (bind_parsed _ _ _ _ _ (parse_select_ok ts s rest Hts Hr)).
  - destruct o as [t v]; simpl in Ho. by destruct Ho as [[-> ->]|[-> ->]].
Qed.

(** A chain of set operations keeps only its last operand: in
    [q0 INTERSECT q1 EXCEPT q2] the operand [q1] is parsed, overwritten and lost,
    whatever it is. *)
Theorem set_operations_drop_middle o1 op1 o2 op2 ts0 ts1 ts2 s0 s1 s2 :
  type o1 = INTERSECT ∧ op1 = S_INTERSECT ∨ type o1 = EXCEPT ∧ op1 = S_EXCEPT →
  type o2 = INTERSECT ∧ op2 = S_INTERSECT ∨ type o2 = EXCEPT ∧ op2 = S_EXCEPT →
  select ts0 s0 → select ts1 s1 → select ts2 s2 → valid_from None (ts0 ++ o1 :: ts1 ++ o2 :: ts2) →
  parse (str (print (ts0 ++ o1 :: ts1 ++ o2 :: ts2))) = Parsed (with_set_op op2 s2 s0) [end_token].
Proof.
  intros H1 H2 Hs0 Hs1 Hs2 Hv. unfold parse, parse_statement. rewrite (tokenize_valid _ Hv).
  assert (∀ o op k, type o = INTERSECT ∧ op = S_INTERSECT ∨ type o = EXCEPT ∧ op = S_EXCEPT → at_clause 7 (o :: k)) as Hat.
  { intros o op k Ho. unfold at_clause. rewrite head_type_cons. by destruct Ho as [[-> _]|[-> _]]. }
  rewrite <- app_assoc. cbn [app]. rewrite <- app_assoc. cbn [app].
  rewrite (parse_tokens_select ts0 s0) by done. rewrite (parse_query_ok ts0 s0) by (done || by eapply Hat).
  rewrite (bind_parsed _ _ _ (with_set_op op2 s2 s0) [end_token]); [done|].
  unfold parse_set_ops, while. rewrite (set_op_step o1 op1 ts1 s1) by (done || by eapply Hat).
  destruct (select_head ts1 s1 Hs1) as (w1 & k1 & Hk1). destruct (select_head ts2 s2 Hs2) as (w2 & k2 & Hk2).
  assert (∃ m, length (o1 :: ts1 ++ o2 :: ts2 ++ [end_token]) = S (S m)) as [m ->].
  { rewrite Hk1. simpl. eauto. }
  rewrite (set_op_step o2 op2 ts2 s2) by (done || by vm_compute). done.
Qed.

(** A comparison of a column with another column is parsed as a comparison
    with 0: the name on the right is read and dropped, so [a = b] and [a = 0] give
    the same condition. *)
Theorem column_comparison_is_zero ts alias col o op other rest :
  name ts alias col → compare_op_of (type o) = Some op → ends_cond rest = true →
  parse_condition (ts ++ o :: mkToken IDENT other :: rest) =
    Parsed (Some (ECompare alias col op (VInt 0) None)) rest ∧
  parse_condition (ts ++ o :: mkToken IDENT other :: rest) = parse_condition (ts ++ o :: mkToken NUMBER "0" :: rest).
Proof.
  assert (∀ v tok, operand [tok] v → name ts alias col → compare_op_of (type o) = Some op → ends_cond rest = true →
    parse_condition (ts ++ o :: tok :: rest) = Parsed (Some (ECompare alias col op v None)) rest) as H.
  { intros v tok Hv Hn Ho Hr. unfold parse_condition, parse_where.
    change (o :: tok :: rest) with ((o :: [tok]) ++ rest). rewrite app_assoc.
    apply (parse_or_ok (S (length ((ts ++ o :: [tok]) ++ rest))) parse_primary_expr); [|lia| |done].
    - intros ts' e rest' _ Hp Hr'. by apply parse_primary_fuel_ok; [lia|..].
    - by apply cond_or_one, cond_and_one, cond_compare. }
  intros Hn Ho Hr. rewrite (H (VInt 0)) by (done || constructor). split; [done|].
  by rewrite (H (VInt 0)) by (done || by constructor).
Qed.

(** A statement is parsed up to where its grammar ends, and the rest of the
    text is not looked at: whatever follows [DELETE FROM t] without starting with
    WHERE (such as a misspelt [WHRE x = 1]) is dropped, and every row is deleted. *)
Theorem delete_ignores_trailing w w' t junk :
  valid_from None (mkToken DELETE_KW w :: mkToken FROM w' :: mkToken IDENT t :: junk) → head_type junk ≠ WHERE →
  parse_statement (str (print (mkToken DELETE_KW w :: mkToken FROM w' :: mkToken IDENT t :: junk))) =
    Parsed (P_DELETE (mkDelete t None)) (junk ++ [end_token]).
Proof.
  intros Hv Hj. unfold parse_statement. rewrite (tokenize_valid _ Hv). cbn [app].
  assert (head_type (junk ++ [end_token]) ≠ WHERE) as Hh by by destruct junk.
  change ((s ← (cond ← optional WHERE parse_condition; mret (mkDelete t cond)); mret (P_DELETE s)) (junk ++ [end_token]) =
    Parsed (P_DELETE (mkDelete t None)) (junk ++ [end_token])).
  rewrite (bind_parsed _ _ _ (mkDelete t None) (junk ++ [end_token])); [done|].
  rewrite (bind_parsed _ _ _ None (junk ++ [end_token])); [done|].
  unfold optional. by rewrite (bind_parsed _ _ _ _ _ (match_other WHERE _ Hh)).
Qed.

(** ** The hypotheses can hold *)

Notation ident v := (mkToken IDENT v).
Notation number n := (mkToken NUMBER n).
Notation word t v := (mkToken t v).

Lemma col_name v : name [ident v] "" v.
Proof. by constructor. Qed.
Lemma col_sum v : sum [ident v] (AColumn "" v).
Proof. apply sum_term, term_primary, primary_column, col_name. Qed.

(** [SELECT symbol, SUM(price * volume) AS notional FROM trades t] *)
Definition sample_list : list (list Token) :=
  [[ident "symbol"];
   [word SUM "SUM"; lparen; ident "price"; word STAR "*"; ident "volume"; rparen; word AS "AS"; ident "notional"]].
(** [a > 100 AND NOT b IN (1, 2) OR c = 'x'] *)
Definition sample_where : list Token :=
  [ident "a"; word GT ">"; number "100"; word AND "AND"; word NOT "NOT"; ident "b"; word IN "IN"; lparen; number "1";
   comma; number "2"; rparen; word OR "OR"; ident "c"; word EQ "="; word STRING "x"].
Definition sample_tail : list Token :=
  [word FROM "FROM"; ident "trades"; ident "t"] ++ (word WHERE "WHERE" :: sample_where) ++
  (word GROUP "GROUP" :: word BY "BY" :: commas [[ident "symbol"]]) ++ [] ++
  (word ORDER "ORDER" :: word BY "BY" :: commas [[ident "notional"; word DESC "DESC"]]) ++
  [word LIMIT "LIMIT"; number "10"] ++ [].
Definition sample_select : list Token := word SELECT "SELECT" :: [] ++ commas sample_list ++ sample_tail.

Definition sample_condition : Expr :=
  EOr (Some (EAnd (Some (ECompare "" "a" Ast.GT (VInt 100) None)) (Some (ENot (Some (EIn "" "b" [1; 2]))))))
      (Some (ECompare "" "c" Ast.EQ (VString "x") None)).
Definition sample_items : list SelectExpr :=
  [plain_item (AColumn "" "symbol");
   set_alias "notional" (set_operand (ABinary MUL (AColumn "" "price") (AColumn "" "volume")) (set_agg Ast.SUM default_item))].
Definition sample_make (d : bool) (items : list SelectExpr) : SelectStmt :=
  Select (mkSelect [] false d items "trades" "t" None None (Some (Some sample_condition)) (group_of <$> Some [(EmptyString, "symbol"%string, 0, 0)])
    (Some [mkOrderBy "" "notional" false]) (Some 10) None None None S_NONE None).
Definition sample_statement : SelectStmt := sample_make false sample_items.

Lemma sample_where_derives : cond_or sample_where (Some sample_condition).
Proof.
  apply (cond_or_chain "OR" [_; _; _; _; _; _; _; _; _; _; _; _] [_; _; _]).
  - apply cond_or_one, (cond_and_chain "AND" [_; _; _] [_; _; _; _; _; _; _; _]).
    + apply cond_and_one, (cond_compare [_] _ _ _ _ [_]); [apply col_name|done|by apply operand_integer].
    + apply cond_not, (cond_in "IN" [_] _ _ [[_]; [_]] [_; _]); [apply col_name| |by repeat constructor].
      repeat constructor.
  - apply cond_and_one, (cond_compare [_] _ _ _ _ [_]); [apply col_name|done|constructor].
Qed.

Lemma sample_select_derives : select sample_select sample_statement.
Proof.
  apply (select_intro "SELECT" [] false (commas sample_list) sample_items sample_tail sample_make distinct_absent);
    [|apply (clauses_intro [_; _; _] _ _ (_ :: sample_where) _
        (_ :: _ :: commas [[_]]) _ [] None (_ :: _ :: commas [[_; _]]) _ [_; _] _ [] None)].
  - apply list_items; [done|]. apply Forall2_cons; split; [by apply item_bare, item_plain, col_sum|].
    apply Forall2_cons; split; [|done]. apply (item_alias [_; _; _; _; _; _] _ "AS"); [|done].
    apply (item_aggregate SUM "SUM" _ [_; _; _]); [done|].
    apply sum_term, (term_chain _ _ [_] [_]); [|done|]; repeat constructor.
  - apply from_aliased. by apply (bool_decide_unpack _); vm_compute.
  - constructor. apply sample_where_derives.
  - constructor. apply by_items; [done|]. repeat constructor.
  - constructor.
  - constructor. apply by_items; [done|]. repeat constructor. apply (order_desc _ [_]), col_name.
  - constructor. by constructor.
  - constructor.
Qed.

Lemma sample_valid ts : Forall valid_token ts → Forall (λ t, negative t = false) ts → ∀ b, valid_from b ts.
Proof.
  intros Hv Hn. induction Hv as [|t ts Ht Hv IH]; intros b; [done|]. apply Forall_cons in Hn as [Hneg Hn].
  split; [done|]. split; [by rewrite Hneg|by apply IH].
Qed.

Ltac valid_tokens :=
  apply sample_valid;
  repeat (apply Forall_cons; split); try apply Forall_nil; try done;
  first [done | by right | left; by apply (bool_decide_unpack _); vm_compute].

Lemma select_grammar_witness :
  select sample_select sample_statement ∧ parse (str (print sample_select)) = Parsed sample_statement [end_token].
Proof.
  split; [exact sample_select_derives|].
  apply select_grammar; [exact sample_select_derives|]. unfold sample_select, sample_tail. cbn [app]. valid_tokens.
Defined.

(** [SELECT c FROM t] *)
Definition tiny_tail (t : string) : list Token := [word FROM "FROM"; ident t] ++ [] ++ [] ++ [] ++ [] ++ [] ++ [].
Definition tiny_select (c t : string) : list Token :=
  word SELECT "SELECT" :: [] ++ commas [[ident c]] ++ tiny_tail t.
Definition tiny_make (t : string) (d : bool) (items : list SelectExpr) : SelectStmt :=
  Select (mkSelect [] false d items t "" None None None (group_of <$> None) None None None None None S_NONE None).
Definition tiny_statement (c t : string) : SelectStmt := tiny_make t false [plain_item (AColumn "" c)].

Lemma tiny_clauses t : clauses (tiny_tail t) (tiny_make t).
Proof. apply (clauses_intro [_; _] _ _ [] _ [] None [] _ [] _ [] _ [] _); constructor. Qed.

Lemma tiny_derives c t : plain_start (ident c) = true → select (tiny_select c t) (tiny_statement c t).
Proof.
  intros Hc. apply (select_intro "SELECT" [] false (commas [[ident c]]) _ (tiny_tail t) (tiny_make t) distinct_absent).
  - apply list_items; [done|]. apply Forall2_cons; split; [|done]. by apply item_bare, item_plain, col_sum.
  - apply tiny_clauses.
Qed.

Lemma set_operations_drop_middle_witness :
  parse (str (print (tiny_select "a" "t" ++ word INTERSECT "INTERSECT" :: tiny_select "b" "u" ++
                     word EXCEPT "EXCEPT" :: tiny_select "c" "v"))) =
    Parsed (with_set_op S_EXCEPT (tiny_statement "c" "v") (tiny_statement "a" "t")) [end_token].
Proof.
  apply (set_operations_drop_middle _ S_INTERSECT _ S_EXCEPT _ _ _ _ (tiny_statement "b" "u")); try by apply tiny_derives.
  - by left.
  - by right.
  - cbn [app tiny_select tiny_tail commas more_commas]. valid_tokens.
Defined.

Lemma column_comparison_is_zero_witness :
  name [ident "a"] "" "a" ∧
  parse_condition [ident "a"; word EQ "="; ident "b"; end_token] =
    parse_condition [ident "a"; word EQ "="; number "0"; end_token].
Proof.
  split; [apply col_name|].
  apply (column_comparison_is_zero [ident "a"] "" "a" (word EQ "=") Ast.EQ "b" [end_token]); [apply col_name|done|done].
Defined.

Lemma delete_ignores_trailing_witness :
  parse_statement (str (print [word DELETE_KW "DELETE"; word FROM "FROM"; ident "t"; ident "WHRE"; ident "x";
                               word EQ "="; number "1"])) =
    Parsed (P_DELETE (mkDelete "t" None)) ([ident "WHRE"; ident "x"; word EQ "="; number "1"] ++ [end_token]).
Proof. apply delete_ignores_trailing; [valid_tokens|done]. Defined.
