(* ===== verification/PartialAgg.v ===== *)
(** * Merging the results of several nodes

    Models [include/zeptodb/cluster/partial_agg.h]: after a query was scattered
    over the nodes, their result sets are merged as scalar aggregates, by
    concatenation, or group by group. Cells are [int64_t]; a checked addition
    that overflows makes the whole merge an error. [QueryResultSet] is the one
    of [include/zeptodb/sql/executor.h]; its timing field is left out. *)

From S2P Require Import Prelude.
From S2P Require Import ColumnStore.
From S2P Require Import StringDictionary.
From S2P Require Import Ast.
From stdpp Require Import base gmap sets list fin_maps strings sorting.
From Stdlib Require Import ZArith Lia.

Open Scope Z_scope.

(** [cluster::AggFunc], what a column's name tells. *)
Inductive ColumnAgg : Type := ColNone | ColSum | ColCount | ColMin | ColMax | ColAvg | ColVwap.

Inductive MergeStrategy : Type := SCALAR_AGG | CONCAT | MERGE_GROUP_BY.

#[export] Instance ColumnAgg_eq_dec : EqDecision ColumnAgg.
Proof. solve_decision. Defined.

Record QueryResultSet : Type := mkResultSet {
  column_names : list string;
  column_types : list ColumnType;
  rows : list (list Z);
  typed_rows : list (list Z); (** the 8 bytes of each cell; no merge reads them *)
  string_rows : list string;
  symbol_dict : option StringDictionary;
  rows_scanned : Z;
  error : string;
}.

Definition empty_result : QueryResultSet := mkResultSet [] [] [] [] [] None 0 "".
Definition ok (r : QueryResultSet) : bool := String.eqb (error r) "".
Definition error_result (what : string) : QueryResultSet := mkResultSet [] [] [] [] [] None 0 what.

(** ** Detection by column name *)

Definition to_lower (c : Ascii.ascii) : Ascii.ascii :=
  let n := Ascii.N_of_ascii c in
  if ((65 <=? n)%N && (n <=? 90)%N) then Ascii.ascii_of_N (n + 32) else c.

Definition detect_agg (col : string) : ColumnAgg :=
  let lo := String.string_of_list_ascii (to_lower <$> String.list_ascii_of_string col) in
  let starts p := String.prefix p lo in
  if String.eqb lo "count(*)" || starts "count(" then ColCount
  else if starts "sum(" then ColSum
  else if starts "min(" then ColMin
  else if starts "max(" then ColMax
  else if starts "avg(" then ColAvg
  else if starts "vwap(" then ColVwap
  else ColNone.

(** Only the first result with rows is looked at. *)
Fixpoint detect_merge_strategy (results : list QueryResultSet) : MergeStrategy :=
  match results with
  | [] => CONCAT
  | r :: rest =>
      if negb (ok r) || bool_decide (rows r = []) then detect_merge_strategy rest
      else if (length (rows r) =? 1)%nat && negb (bool_decide (column_names r = [])) &&
              forallb (λ n, negb (bool_decide (detect_agg n = ColNone))) (column_names r)
      then SCALAR_AGG else CONCAT
  end.

(** ** Cells *)

(** How a column is merged: the cases the [switch] statements distinguish, and
    [KKey] for a group key, which is skipped. *)
Inductive kind : Type := KKey | KSum | KMin | KMax | KAvg | KTake.

#[export] Instance kind_eq_dec : EqDecision kind.
Proof. solve_decision. Defined.

Definition kind_of_name (name : string) : kind :=
  match detect_agg name with
  | ColSum | ColCount | ColVwap => KSum
  | ColMin => KMin | ColMax => KMax | ColAvg => KAvg | ColNone => KTake
  end.

Definition kind_of_agg (af : AggFunc) : kind :=
  match af with
  | SUM | COUNT | VWAP => KSum
  | MIN => KMin | MAX => KMax | AVG => KAvg | _ => KTake
  end.

(** The identity element, and the count of an AVG column. *)
Definition identity (k : kind) : Z * Z :=
  (match k with KMin => INT64_MAX | KMax => INT64_MIN | _ => 0 end, 0).

(** One value; [None] when [__builtin_add_overflow] reports an overflow. *)
Definition merge_cell (k : kind) (acc : Z * Z) (v : Z) : option (Z * Z) :=
  match k with
  | KKey => Some acc
  | KSum => let s := acc.1 + v in
      if (INT64_MIN <=? s) && (s <=? INT64_MAX) then Some (s, acc.2) else None
  | KMin => Some (Z.min acc.1 v, acc.2)
  | KMax => Some (Z.max acc.1 v, acc.2)
  | KAvg => Some (i64 (acc.1 + v), acc.2 + 1)
  | KTake => Some (v, acc.2)
  end.

(** One row: [for (ci = 0; ci < ncols && ci < src.size(); ++ci)]. *)
Fixpoint merge_cells (kinds : list kind) (accs : list (Z * Z)) (src : list Z) : option (list (Z * Z)) :=
  match kinds, accs, src with
  | k :: kinds, a :: accs, v :: src =>
      a ← merge_cell k a v; rest ← merge_cells kinds accs src; Some (a :: rest)
  | _, _, _ => Some accs
  end.

(** The truncated average, and the rounded one of the SQL-driven merge. *)
Definition avg_truncated (s c : Z) : Z := Z.quot s c.
Definition avg_rounded (s c : Z) : Z :=
  if 0 <=? s then Z.quot (s + Z.quot c 2) c else Z.quot (s - Z.quot c 2) c.

Definition finalize (avg : Z → Z → Z) (k : kind) (acc : Z * Z) : Z :=
  match k with KAvg => if 0 <? acc.2 then avg acc.1 acc.2 else acc.1 | _ => acc.1 end.

(** ** Scalar aggregates *)

Definition overflow_error : string := "integer overflow in distributed SUM/VWAP".

(** The loop over the results: the accumulators and [rows_scanned], or where the
    sum overflowed. *)
Fixpoint merge_scalar_rows (kinds : list kind) (accs : list (Z * Z)) (scanned : Z)
    (results : list QueryResultSet) : option (list (Z * Z)) * Z :=
  match results with
  | [] => (Some accs, scanned)
  | r :: rest =>
      match rows r with
      | src :: _ =>
          if negb (ok r) then merge_scalar_rows kinds accs scanned rest
          else
            let scanned := u64 (scanned + rows_scanned r) in
            match merge_cells kinds accs src with
            | Some accs => merge_scalar_rows kinds accs scanned rest
            | None => (None, scanned)
            end
      | [] => merge_scalar_rows kinds accs scanned rest
      end
  end.

Definition contributes (r : QueryResultSet) : bool := ok r && negb (bool_decide (rows r = [])).

Definition merge_scalar_by (kinds_of : list string → list kind) (avg : Z → Z → Z)
    (results : list QueryResultSet) : QueryResultSet :=
  match results with
  | [] => empty_result
  | _ =>
      match list_find contributes results with
      | None => error_result "merge_scalar: all nodes returned errors"
      | Some (_, tmpl) =>
          let kinds := kinds_of (column_names tmpl) in
          let merged out scanned err := mkResultSet (column_names tmpl) (column_types tmpl) out [] [] None scanned err in
          match merge_scalar_rows kinds (identity <$> kinds) 0 results with
          | (Some accs, scanned) => merged [zip_with (finalize avg) kinds accs] scanned ""%string
          | (None, scanned) => merged [] scanned overflow_error
          end
      end
  end.

Definition merge_scalar_results (results : list QueryResultSet) : QueryResultSet :=
  merge_scalar_by (fmap kind_of_name) avg_truncated results.

(** [ci < sql_aggs.size() ? sql_aggs[ci] : NONE] *)
Definition agg_at (aggs : list AggFunc) (ci : nat) : AggFunc := default NONE (aggs !! ci).

Definition merge_scalar_with_sql_aggs (results : list QueryResultSet) (sql_aggs : list AggFunc) : QueryResultSet :=
  merge_scalar_by (imap (λ ci _, kind_of_agg (agg_at sql_aggs ci))) avg_rounded results.

(** ** Concatenation *)

Definition string_encoded (t : ColumnType) : bool :=
  match t with SYMBOL | STRING => true | _ => false end.

(** The strings of a row's encoded cells. *)
Definition decode_row (dict : StringDictionary) (types : list ColumnType) (row : list Z) : list string :=
  mjoin (zip_with (λ t v, if string_encoded t then [StringDictionary.lookup dict (u32 v)] else []) types row).

Definition merge_concat_step (merged r : QueryResultSet) : QueryResultSet :=
  if negb (ok r) then
    mkResultSet (column_names merged) (column_types merged) (rows merged) (typed_rows merged)
      (string_rows merged) (symbol_dict merged) (rows_scanned merged)
      (if String.eqb (error merged) "" then error r else error merged)
  else
    let dict := match string_rows merged, symbol_dict r with
                | [], Some d => Some d
                | _, _ => symbol_dict merged
                end in
    let strings :=
      match string_rows r, symbol_dict r with
      | _ :: _, _ => string_rows r
      | [], Some d =>
          if existsb string_encoded (column_types r)
          then mjoin (decode_row d (column_types r) <$> rows r) else []
      | [], None => []
      end in
    mkResultSet (column_names merged) (column_types merged) (rows merged ++ rows r) (typed_rows merged)
      (string_rows merged ++ strings) dict (u64 (rows_scanned merged + rows_scanned r)) (error merged).

(** The first result that names its columns. *)
Definition with_columns (results : list QueryResultSet) : QueryResultSet :=
  match list_find (λ r, bool_decide (column_names r ≠ [])) results with
  | Some (_, r) => mkResultSet (column_names r) (column_types r) [] [] [] None 0 ""
  | None => empty_result
  end.

Definition merge_concat_results (results : list QueryResultSet) : QueryResultSet :=
  foldl merge_concat_step (with_columns results) results.

Definition merge_results (results : list QueryResultSet) (hint : option MergeStrategy) : QueryResultSet :=
  match results with
  | [] => error_result "merge_results: empty result list"
  | _ =>
      match list_find (λ r, negb (ok r)) results with
      | Some (_, r) => r
      | None =>
          match default (detect_merge_strategy results) hint with
          | SCALAR_AGG => merge_scalar_results results
          | _ => merge_concat_results results
          end
      end
  end.

(** ** Groups *)

(** The keys of [std::map<std::vector<int64_t>, ...>] are ordered
    lexicographically. *)
Fixpoint lex_leb (a b : list Z) : bool :=
  match a, b with
  | [], _ => true
  | _, [] => false
  | x :: a, y :: b => (x <? y) || ((x =? y) && lex_leb a b)
  end.
Definition key_le (a b : list Z * list (Z * Z)) : Prop := lex_leb a.1 b.1 = true.
#[export] Instance key_le_dec : RelDecision key_le := λ a b, decide (lex_leb a.1 b.1 = true).

Definition is_key (col_is_key : list bool) (ci : nat) : bool := default false (col_is_key !! ci).

Definition group_kinds (ncols : nat) (col_is_key : list bool) (col_aggs : list AggFunc) : list kind :=
  (λ ci, if is_key col_is_key ci then KKey else kind_of_agg (agg_at col_aggs ci)) <$> seq 0 ncols.

(** [ci < src.size() ? src[ci] : 0] *)
Definition cell (src : list Z) (ci : nat) : Z := default 0 (src !! ci).

Definition group_key (kinds : list kind) (src : list Z) : list Z :=
  mjoin (imap (λ ci k, match k with KKey => [cell src ci] | _ => [] end) kinds).

Definition new_group (kinds : list kind) (src : list Z) : list (Z * Z) :=
  imap (λ ci k, match k with KKey => (cell src ci, 0) | _ => identity k end) kinds.

Definition group_row (kinds : list kind) (groups : gmap (list Z) (list (Z * Z))) (src : list Z)
    : option (gmap (list Z) (list (Z * Z))) :=
  let key := group_key kinds src in
  accs ← merge_cells kinds (default (new_group kinds src) (groups !! key)) src;
  Some (<[key := accs]> groups).

Fixpoint group_rows (kinds : list kind) (groups : gmap (list Z) (list (Z * Z))) (srcs : list (list Z))
    : option (gmap (list Z) (list (Z * Z))) :=
  match srcs with
  | [] => Some groups
  | src :: rest => groups ← group_row kinds groups src; group_rows kinds groups rest
  end.

(** The loop over the results: groups, [rows_scanned], the first error. *)
Fixpoint group_results (kinds : list kind) (groups : gmap (list Z) (list (Z * Z))) (scanned : Z) (err : string)
    (results : list QueryResultSet) : option (gmap (list Z) (list (Z * Z))) * Z * string :=
  match results with
  | [] => (Some groups, scanned, err)
  | r :: rest =>
      if negb (ok r)
      then group_results kinds groups scanned (if String.eqb err "" then error r else err) rest
      else
        let scanned := u64 (scanned + rows_scanned r) in
        match group_rows kinds groups (rows r) with
        | Some groups => group_results kinds groups scanned err rest
        | None => (None, scanned, overflow_error)
        end
  end.

Definition merge_group_by_results (results : list QueryResultSet) (col_is_key : list bool)
    (col_aggs : list AggFunc) : QueryResultSet :=
  match results with
  | [] => empty_result
  | _ =>
      let tmpl := with_columns results in
      let kinds := group_kinds (length (column_names tmpl)) col_is_key col_aggs in
      match group_results kinds ∅ 0 ""%string results with
      | (Some groups, scanned, err) =>
          mkResultSet (column_names tmpl) (column_types tmpl)
            ((λ g, zip_with (finalize avg_truncated) kinds g.2) <$> merge_sort key_le (map_to_list groups))
            [] [] None scanned err
      | (None, scanned, err) => mkResultSet (column_names tmpl) (column_types tmpl) [] [] [] None scanned err
      end
  end.

(** ** Cells, column by column *)

(** The values [vals] merged into [acc], one after the other. *)
Definition fold_cell (k : kind) (acc : Z * Z) (vals : list Z) : option (Z * Z) :=
  foldl (λ o v, o ≫= λ a, merge_cell k a v) (Some acc) vals.

(** Rows merged into accumulators. *)
Definition fold_rows (kinds : list kind) (accs : list (Z * Z)) (srcs : list (list Z)) : option (list (Z * Z)) :=
  foldl (λ o src, o ≫= λ a, merge_cells kinds a src) (Some accs) srcs.

Lemma foldl_none {A B} (f : B → A → option B) (l : list A) : foldl (λ o v, o ≫= λ a, f a v) None l = None.
Proof. induction l; done. Qed.

Lemma merge_cells_spec kinds accs src :
  length accs = length kinds → length src = length kinds →
  match merge_cells kinds accs src with
  | Some accs' => length accs' = length kinds ∧
      ∀ ci k a v, kinds !! ci = Some k → accs !! ci = Some a → src !! ci = Some v →
        accs' !! ci = merge_cell k a v
  | None => ∃ ci k a v, kinds !! ci = Some k ∧ accs !! ci = Some a ∧ src !! ci = Some v ∧
      merge_cell k a v = None
  end.
Proof.
  revert accs src. induction kinds as [|k kinds IH]; intros [|a accs] [|v src] Ha Hs; try done.
  cbn [merge_cells]. destruct (merge_cell k a v) as [a'|] eqn:Hm; simpl.
  - specialize (IH accs src ltac:(simpl in *; lia) ltac:(simpl in *; lia)).
    destruct (merge_cells kinds accs src) as [accs'|]; simpl.
    + destruct IH as [Hl IH]. split; [by rewrite Hl|]. intros [|ci] k' b w ???; simplify_eq/=; eauto.
    + destruct IH as (ci & k' & b & w & ?). by exists (S ci), k', b, w.
  - by exists 0%nat, k, a, v.
Qed.

Lemma fold_rows_spec kinds accs srcs :
  length accs = length kinds → Forall (λ src, length src = length kinds) srcs →
  match fold_rows kinds accs srcs with
  | Some accs' => length accs' = length kinds ∧
      ∀ ci k a, kinds !! ci = Some k → accs !! ci = Some a →
        accs' !! ci = fold_cell k a ((λ src, cell src ci) <$> srcs)
  | None => ∃ ci k a, kinds !! ci = Some k ∧ accs !! ci = Some a ∧
      fold_cell k a ((λ src, cell src ci) <$> srcs) = None
  end.
Proof.
  intros Hl Hall. revert accs Hl. induction Hall as [|src srcs Hsrc Hall IH]; intros accs Hl.
  - simpl. split; [done|]. by intros.
  - unfold fold_rows. cbn [foldl]. pose proof (merge_cells_spec kinds accs src Hl Hsrc) as Hm. simpl.
    assert (∀ ci k, kinds !! ci = Some k → src !! ci = Some (cell src ci)) as Hcell.
    { intros ci k Hk%lookup_lt_Some. unfold cell.
      by destruct (lookup_lt_is_Some_2 src ci ltac:(lia)) as [v ->]. }
    destruct (merge_cells kinds accs src) as [accs1|].
    + destruct Hm as [Hl1 Hm]. specialize (IH accs1 Hl1). unfold fold_rows in IH.
      destruct (foldl _ (Some accs1) srcs) as [accs2|].
      * destruct IH as [Hl2 IH]. split; [done|]. intros ci k a Hk Ha.
        destruct (lookup_lt_is_Some_2 accs1 ci) as [a1 Ha1].
        { rewrite Hl1. by eapply lookup_lt_Some. }
        rewrite (IH ci k a1 Hk Ha1). unfold fold_cell. simpl.
        by rewrite <- (Hm ci k a _ Hk Ha (Hcell ci k Hk)), Ha1.
      * destruct IH as (ci & k & a1 & Hk & Ha1 & Hf).
        destruct (lookup_lt_is_Some_2 accs ci) as [a Ha].
        { rewrite Hl. by eapply lookup_lt_Some. }
        exists ci, k, a. split_and!; [done..|]. unfold fold_cell. simpl.
        by rewrite <- (Hm ci k a _ Hk Ha (Hcell ci k Hk)), Ha1.
    + rewrite foldl_none. destruct Hm as (ci & k & a & v & Hk & Ha & Hv & Hn).
      exists ci, k, a. split_and!; [done..|]. unfold fold_cell. simpl.
      rewrite (Hcell ci k Hk) in Hv. injection Hv as <-. by rewrite Hn, foldl_none.
Qed.

(** Every partial sum from the left is an [int64_t]. *)
Definition sums_fit (vals : list Z) : Prop :=
  ∀ n, (n <= length vals)%nat → INT64_MIN <= zsum (take n vals) <= INT64_MAX.
#[export] Instance sums_fit_dec vals : Decision (sums_fit vals).
Proof.
  refine (cast_if (decide (Forall (λ n, INT64_MIN <= zsum (take n vals) <= INT64_MAX)
    (seq 0 (S (length vals)))))); unfold sums_fit.
  - abstract (intros n Hn; rewrite Forall_forall in f; apply f; apply elem_of_seq; lia).
  - abstract (intros H; apply n; apply Forall_forall; intros m Hm%elem_of_seq; apply H; lia).
Defined.

(** What a column of values merges to. *)
Definition merged_cell (avg : Z → Z → Z) (k : kind) (vals : list Z) : Z :=
  match k with
  | KSum => zsum vals
  | KMin => foldr Z.min INT64_MAX vals
  | KMax => foldr Z.max INT64_MIN vals
  | KAvg => if (length vals =? 0)%nat then 0 else avg (i64 (zsum vals)) (Z.of_nat (length vals))
  | KTake | KKey => default 0 (last vals)
  end.

Lemma sums_fit_snoc vals v :
  sums_fit (vals ++ [v]) ↔ sums_fit vals ∧ INT64_MIN <= zsum vals + v <= INT64_MAX.
Proof.
  unfold sums_fit. split.
  - intros H. split.
    + intros n Hn. specialize (H n ltac:(rewrite length_app; lia)). by rewrite take_app_le in H by done.
    + specialize (H (length vals + 1)%nat ltac:(rewrite length_app; simpl; lia)).
      rewrite take_ge, zsum_app in H by (rewrite length_app; simpl; lia). simpl in H.
      by rewrite Z.add_0_r in H.
  - intros [H Hv] n Hn. destruct (decide (n <= length vals)%nat).
    + rewrite take_app_le by done. by apply H.
    + rewrite take_ge, zsum_app by (rewrite length_app in *; simpl in *; lia). simpl. lia.
Qed.

Lemma fold_cell_snoc k acc vals v :
  fold_cell k acc (vals ++ [v]) = fold_cell k acc vals ≫= λ a, merge_cell k a v.
Proof. unfold fold_cell. by rewrite foldl_app. Qed.

Lemma fold_cell_sum vals :
  fold_cell KSum (identity KSum) vals = if decide (sums_fit vals) then Some (zsum vals, 0) else None.
Proof.
  induction vals as [|v vals IH] using rev_ind.
  - rewrite decide_True; [done|]. intros n Hn. rewrite take_nil. simpl. unfold INT64_MIN, INT64_MAX. lia.
  - rewrite fold_cell_snoc, IH. destruct (decide (sums_fit vals)) as [Hf|Hf]; simpl.
    + destruct (Z.leb_spec INT64_MIN (zsum vals + v)), (Z.leb_spec (zsum vals + v) INT64_MAX); simpl;
        [rewrite decide_True by (apply sums_fit_snoc; split; [done|lia]); by rewrite zsum_app; simpl; rewrite Z.add_0_r|..];
        rewrite decide_False; try done; intros [_ ?]%sums_fit_snoc; lia.
    + rewrite decide_False; [done|]. by intros [? _]%sums_fit_snoc.
Qed.

Lemma fold_cell_value avg k vals :
  k ≠ KKey → (k = KSum → sums_fit vals) →
  ∃ acc, fold_cell k (identity k) vals = Some acc ∧ finalize avg k acc = merged_cell avg k vals.
Proof.
  assert (∀ (f : Z → Z → Z) z, (∀ a b c, f a (f b c) = f (f a b) c) → (∀ a b, f a b = f b a) →
    ∀ vals v, foldr f z (vals ++ [v]) = f (foldr f z vals) v) as Hsnoc.
  { intros f z Ha Hc l v. induction l as [|x l IH]; simpl; [by rewrite Hc|]. by rewrite IH, Ha. }
  intros Hk Hs. destruct k; [done| | | | |].
  - rewrite fold_cell_sum, decide_True by auto. by eexists.
  - exists (foldr Z.min INT64_MAX vals, 0). split; [|done].
    clear Hs. induction vals as [|v vals IH] using rev_ind; [done|].
    rewrite fold_cell_snoc, IH. simpl. rewrite Hsnoc; [done|lia|lia].
  - exists (foldr Z.max INT64_MIN vals, 0). split; [|done].
    clear Hs. induction vals as [|v vals IH] using rev_ind; [done|].
    rewrite fold_cell_snoc, IH. simpl. rewrite Hsnoc; [done|lia|lia].
  - exists (i64 (zsum vals), Z.of_nat (length vals)). split.
    + clear Hs. induction vals as [|v vals IH] using rev_ind; [done|].
      rewrite fold_cell_snoc, IH. simpl. rewrite zsum_app, length_app. simpl. rewrite Z.add_0_r.
      do 2 f_equal; [|lia]. apply i64_mod_eq. by rewrite Zplus_mod, i64_mod, <- Zplus_mod.
    + destruct vals as [|v vals]; [done|]. cbn [finalize merged_cell fst snd].
      destruct (Z.ltb_spec 0 (Z.of_nat (length (v :: vals)))); [done|simpl in *; lia].
  - exists (default 0 (last vals), 0). split; [|done].
    clear Hs. induction vals as [|v vals IH] using rev_ind; [done|].
    rewrite fold_cell_snoc, IH. simpl. by rewrite last_snoc.
Qed.

(** ** Scalar merges *)

(** The rows that are merged: the first row of every result that is not an error. *)
Definition contrib (results : list QueryResultSet) : list (list Z) :=
  omap (λ r, if ok r then head (rows r) else None) results.
Definition column_of (srcs : list (list Z)) (ci : nat) : list Z := (λ src, cell src ci) <$> srcs.

Lemma merge_scalar_rows_fold kinds accs scanned results :
  (merge_scalar_rows kinds accs scanned results).1 = fold_rows kinds accs (contrib results).
Proof.
  revert accs scanned. induction results as [|r results IH]; intros accs scanned; [done|].
  cbn [merge_scalar_rows]. unfold contrib. cbn [omap list_omap].
  fold (omap (λ r, if ok r then head (rows r) else None) results). fold (contrib results).
  destruct (rows r) as [|src ?]; [destruct (ok r); apply IH|].
  destruct (ok r); simpl; [|apply IH]. unfold fold_rows. cbn [foldl]. simpl.
  destruct (merge_cells kinds accs src) as [accs'|]; [apply IH|]. by rewrite foldl_none.
Qed.

Lemma merge_scalar_by_spec kinds_of avg results tmpl :
  (∀ names, length (kinds_of names) = length names ∧ KKey ∉ kinds_of names) →
  find contributes results = Some tmpl →
  let n := length (column_names tmpl) in
  let kinds := kinds_of (column_names tmpl) in
  Forall (λ src, length src = n) (contrib results) →
  let merged := merge_scalar_by kinds_of avg results in
  let vals := column_of (contrib results) in
  ((∀ ci, kinds !! ci = Some KSum → sums_fit (vals ci)) →
    error merged = ""%string ∧ rows merged = [imap (λ ci k, merged_cell avg k (vals ci)) kinds]) ∧
  ((∃ ci, kinds !! ci = Some KSum ∧ ¬ sums_fit (vals ci)) →
    error merged = overflow_error ∧ rows merged = []).
Proof.
  intros Hkinds Hf n kinds Hall merged vals. destruct (Hkinds (column_names tmpl)) as [Hlk Hkey].
  fold kinds n in Hlk. fold kinds in Hkey.
  assert (∃ i, list_find contributes results = Some (i, tmpl)) as [i Hfind].
  { clear -Hf. induction results as [|r results IH]; [done|]. simpl in *.
    destruct (contributes r) eqn:Hc.
    - simplify_eq. exists 0%nat. by rewrite decide_True by done.
    - destruct (IH Hf) as [i Hi]. exists (S i). rewrite decide_False by (by intros []).
      by rewrite Hi. }
  assert (merged = let merged out scanned err :=
      mkResultSet (column_names tmpl) (column_types tmpl) out [] [] None scanned err in
    match merge_scalar_rows kinds (identity <$> kinds) 0 results with
    | (Some accs, scanned) => merged [zip_with (finalize avg) kinds accs] scanned ""%string
    | (None, scanned) => merged [] scanned overflow_error
    end) as Hmerged.
  { unfold merged, merge_scalar_by. destruct results; [done|]. by rewrite Hfind. }
  pose proof (fold_rows_spec kinds (identity <$> kinds) (contrib results)) as Hfold.
  rewrite length_fmap, Hlk in Hfold. specialize (Hfold eq_refl Hall).
  pose proof (merge_scalar_rows_fold kinds (identity <$> kinds) 0 results) as Hrows.
  destruct (merge_scalar_rows kinds (identity <$> kinds) 0 results) as [o scanned]. simpl in Hrows. subst o.
  assert (∀ ci k, kinds !! ci = Some k → (identity <$> kinds) !! ci = Some (identity k)) as Hid.
  { intros ci k Hk. by rewrite list_lookup_fmap, Hk. }
  assert (∀ ci k, kinds !! ci = Some k → k ≠ KKey) as Hnk.
  { intros ci k Hk ->. apply Hkey. by eapply list_elem_of_lookup_2. }
  split.
  - intros Hfit. destruct (fold_rows _ _ _) as [accs|].
    + destruct Hfold as [Hla Hacc]. rewrite Hmerged. simpl. split; [done|]. f_equal.
      apply list_eq. intros ci. rewrite lookup_zip_with, list_lookup_imap.
      destruct (kinds !! ci) as [k|] eqn:Hk; [|done]. simpl.
      rewrite (Hacc ci k (identity k) Hk (Hid ci k Hk)).
      destruct (fold_cell_value avg k (column_of (contrib results) ci)) as (acc & Hf1 & Hf2).
      { by eapply Hnk. }
      { intros ->. by apply Hfit. }
      unfold column_of in Hf1. rewrite Hf1. simpl. by rewrite Hf2.
    + destruct Hfold as (ci & k & a & Hk & Ha & Hn). rewrite (Hid ci k Hk) in Ha. injection Ha as <-.
      destruct (fold_cell_value avg k (column_of (contrib results) ci)) as (acc & Hf1 & _).
      { by eapply Hnk. }
      { intros ->. by apply Hfit. }
      unfold column_of in Hf1. congruence.
  - intros (ci & Hk & Hnf). destruct (fold_rows _ _ _) as [accs|]; [|by rewrite Hmerged].
    destruct Hfold as [Hla Hacc]. exfalso.
    pose proof (Hacc ci KSum _ Hk (Hid ci KSum Hk)) as Hc. rewrite fold_cell_sum, decide_False in Hc by done.
    apply lookup_ge_None in Hc. apply lookup_lt_Some in Hk. lia.
Qed.

Lemma kind_of_agg_not_key af : kind_of_agg af ≠ KKey.
Proof. by destruct af. Qed.
Lemma kind_of_name_not_key name : kind_of_name name ≠ KKey.
Proof. unfold kind_of_name. by destruct (detect_agg name). Qed.

Lemma merge_scalar_sql_spec results sql_aggs tmpl :
  find contributes results = Some tmpl →
  let n := length (column_names tmpl) in
  Forall (λ src, length src = n) (contrib results) →
  let merged := merge_scalar_with_sql_aggs results sql_aggs in
  let kind_at ci := kind_of_agg (agg_at sql_aggs ci) in
  let vals := column_of (contrib results) in
  ((∀ ci, (ci < n)%nat → kind_at ci = KSum → sums_fit (vals ci)) →
    error merged = ""%string ∧
    rows merged = [(λ ci, merged_cell avg_rounded (kind_at ci) (vals ci)) <$> seq 0 n]) ∧
  ((∃ ci, (ci < n)%nat ∧ kind_at ci = KSum ∧ ¬ sums_fit (vals ci)) →
    error merged = overflow_error ∧ rows merged = []).
Proof.
  intros Hf n Hall merged kind_at vals.
  destruct (merge_scalar_by_spec (imap (λ ci _, kind_of_agg (agg_at sql_aggs ci))) avg_rounded results tmpl)
    as [H1 H2]; [|done|done|].
  { intros names. split; [apply length_imap|]. intros [ci Hci]%list_elem_of_lookup.
    rewrite list_lookup_imap in Hci. destruct (names !! ci); simplify_eq/=. by apply kind_of_agg_not_key in Hci. }
  assert (∀ ci k, imap (λ ci (_ : string), kind_of_agg (agg_at sql_aggs ci)) (column_names tmpl) !! ci = Some k ↔
    (ci < n)%nat ∧ kind_at ci = k) as Hk.
  { intros ci k. rewrite list_lookup_imap. split.
    - destruct (column_names tmpl !! ci) eqn:Hc; [|done]. simpl. intros [= <-].
      split; [by eapply lookup_lt_Some|done].
    - intros [Hlt <-]. by destruct (lookup_lt_is_Some_2 _ _ Hlt) as [? ->]. }
  split.
  - intros Hfit. destruct H1 as [He Hr].
    { intros ci Hci%Hk. destruct Hci. by apply Hfit. }
    split; [done|]. unfold merged, merge_scalar_with_sql_aggs. rewrite Hr. f_equal. apply list_eq. intros ci.
    rewrite list_lookup_imap, list_lookup_fmap. destruct (decide (ci < n)%nat) as [Hlt|Hge].
    + rewrite lookup_seq_lt by done. by rewrite (proj2 (Hk ci (kind_at ci))).
    + rewrite lookup_seq_ge by lia. rewrite (lookup_ge_None_2 _ ci); [done|].
      rewrite length_imap. fold n. lia.
  - intros (ci & Hlt & Hs & Hn). apply H2. exists ci. split; [by apply Hk|done].
Qed.

(** A NULL in a column makes its minimum NULL. *)
Lemma min_of_null vals : INT64_MIN ∈ vals → Forall (λ v, INT64_MIN <= v) vals → foldr Z.min INT64_MAX vals = INT64_MIN.
Proof.
  intros Hin Hge. induction Hge as [|v l Hv Hge IH]; [by apply elem_of_nil in Hin|]. simpl.
  assert (INT64_MIN <= foldr Z.min INT64_MAX l) as Hlow.
  { clear -Hge. induction Hge; simpl; [unfold INT64_MIN, INT64_MAX; lia|lia]. }
  apply elem_of_cons in Hin as [<-|Hin]; [lia|]. rewrite IH by done. lia.
Qed.

(** Merging one row per node. When every node's row has the columns of the
    first one, a SUM, COUNT or VWAP column is the exact sum over the nodes,
    MIN and MAX their extrema, AVG the rounded average of the averages and any
    other column the last node's value; results that are errors or have no row
    are skipped. If a partial sum of some SUM column leaves [int64_t] the
    result is an overflow error without rows. A node that answers a MIN column
    with [INT64_MIN], the executor's NULL for "no rows", makes the merged
    minimum NULL. *)
Theorem merge_scalar_exact results sql_aggs tmpl :
  find contributes results = Some tmpl →
  let n := length (column_names tmpl) in
  Forall (λ src, length src = n) (contrib results) →
  let merged := merge_scalar_with_sql_aggs results sql_aggs in
  let kind_at ci := kind_of_agg (agg_at sql_aggs ci) in
  let vals := column_of (contrib results) in
  ((∀ ci, (ci < n)%nat → kind_at ci = KSum → sums_fit (vals ci)) →
    error merged = ""%string ∧
    rows merged = [(λ ci, merged_cell avg_rounded (kind_at ci) (vals ci)) <$> seq 0 n] ∧
    ∀ ci, (ci < n)%nat → kind_at ci = KMin → INT64_MIN ∈ vals ci → Forall (λ v, INT64_MIN <= v) (vals ci) →
      ∃ row, rows merged = [row] ∧ row !! ci = Some INT64_MIN) ∧
  ((∃ ci, (ci < n)%nat ∧ kind_at ci = KSum ∧ ¬ sums_fit (vals ci)) →
    error merged = overflow_error ∧ rows merged = []).
Proof.
  intros Hf n Hall merged kind_at vals.
  destruct (merge_scalar_sql_spec results sql_aggs tmpl Hf Hall) as [H1 H2]. split; [|done].
  intros Hfit. destruct (H1 Hfit) as [He Hrows]. split; [done|]. split; [done|].
  intros ci Hlt Hmin Hin Hge. eexists. split; [exact Hrows|].
  rewrite list_lookup_fmap, lookup_seq_lt by done. simpl. unfold kind_at in Hmin. rewrite Hmin. simpl. f_equal.
  by apply min_of_null.
Qed.

Definition node_result (cells : list Z) : QueryResultSet :=
  mkResultSet ["sum"; "lowest"; "mean"] [INT64; INT64; INT64] [cells] [] [] None 1 "".

Lemma merge_scalar_exact_witness :
  rows (merge_scalar_with_sql_aggs [node_result [5; 2; 10]; error_result "down"; node_result [7; -3; 11]]
    [SUM; MIN; AVG]) = [[12; -3; 11]].
Proof.
  destruct (merge_scalar_exact [node_result [5; 2; 10]; error_result "down"; node_result [7; -3; 11]]
    [SUM; MIN; AVG] (node_result [5; 2; 10])) as [H _].
  - reflexivity.
  - repeat constructor.
  - destruct H as (_ & H & _).
    + intros ci Hlt Hs. apply (bool_decide_unpack _).
      destruct ci as [|[|[|ci]]]; [reflexivity..|simpl in Hlt; lia].
    + exact H.
Defined.

(** ** Groups *)

Section groups.
Context (kinds : list kind).

Definition key_of (src : list Z) : list Z := group_key kinds src.
(** The rows of one group. *)
Definition group_of (srcs : list (list Z)) (key : list Z) : list (list Z) :=
  filter (λ src, key_of src = key) srcs.

(** The accumulators of a group, from its rows alone. *)
Definition group_accs (group : list (list Z)) : option (list (Z * Z)) :=
  match group with
  | [] => None
  | first :: _ => fold_rows kinds (new_group kinds first) group
  end.

Lemma group_of_snoc srcs src key :
  group_of (srcs ++ [src]) key = group_of srcs key ++ (if decide (key_of src = key) then [src] else []).
Proof. unfold group_of. rewrite filter_app. f_equal. Qed.

Lemma group_accs_snoc group src :
  group ≠ [] → group_accs (group ++ [src]) = group_accs group ≫= λ a, merge_cells kinds a src.
Proof. destruct group as [|first group]; [done|]. intros _. unfold group_accs, fold_rows. simpl. by rewrite foldl_app. Qed.

Lemma group_accs_single src : group_accs [src] = merge_cells kinds (new_group kinds src) src.
Proof. done. Qed.

Lemma group_rows_app groups l k :
  group_rows kinds groups (l ++ k) = group_rows kinds groups l ≫= λ g, group_rows kinds g k.
Proof.
  revert groups. induction l as [|src l IH]; intros groups; [done|]. simpl.
  destruct (group_row kinds groups src); [apply IH|done].
Qed.

(** The map holds, under every key, the accumulators of that key's rows. *)
Lemma group_rows_spec srcs :
  match group_rows kinds ∅ srcs with
  | Some groups =>
      (∀ key, groups !! key = group_accs (group_of srcs key)) ∧
      (∀ key, key ∈ key_of <$> srcs → is_Some (groups !! key))
  | None => ∃ key, key ∈ key_of <$> srcs ∧ group_accs (group_of srcs key) = None
  end.
Proof.
  induction srcs as [|src srcs IH] using rev_ind.
  { simpl. split; [done|]. by intros key ?%elem_of_nil. }
  rewrite group_rows_app, fmap_app. destruct (group_rows kinds ∅ srcs) as [groups|]; simpl.
  - destruct IH as [IH Hdom]. unfold group_row.
    assert (group_accs (group_of (srcs ++ [src]) (key_of src)) =
            merge_cells kinds (default (new_group kinds src) (groups !! key_of src)) src) as Hkey.
    { rewrite group_of_snoc, decide_True by done. rewrite IH.
      destruct (group_of srcs (key_of src)) as [|first group] eqn:Hg; [done|].
      rewrite group_accs_snoc by done.
      destruct (Hdom (key_of src)) as [a Ha].
      { assert (first ∈ group_of srcs (key_of src)) as [<- Hin]%list_elem_of_filter by (rewrite Hg; left).
        by apply list_elem_of_fmap_2. }
      rewrite IH, Hg in Ha. by rewrite Ha. }
    fold (key_of src). destruct (merge_cells kinds _ src) as [accs|]; simpl.
    + split; intros key.
      * destruct (decide (key_of src = key)) as [<-|Hne]; [by rewrite lookup_insert_eq|].
        rewrite lookup_insert_ne, group_of_snoc, decide_False, app_nil_r by done. apply IH.
      * rewrite elem_of_app, list_elem_of_singleton. intros Hin.
        destruct (decide (key_of src = key)) as [<-|Hne]; [by rewrite lookup_insert_eq|].
        rewrite lookup_insert_ne by done. destruct Hin as [Hin|Hin]; [by apply Hdom|congruence].
    + exists (key_of src). split; [|done]. apply elem_of_app. right. by apply list_elem_of_singleton.
  - destruct IH as (key & Hin & Hn). exists key. split; [apply elem_of_app; by left|].
    rewrite group_of_snoc. case_decide; [|by rewrite app_nil_r].
    rewrite group_accs_snoc, Hn; [done|]. apply list_elem_of_fmap in Hin as (s & -> & Hs).
    intros He. apply (elem_of_nil s). rewrite <- He. by apply list_elem_of_filter.
Qed.
End groups.

#[export] Instance key_le_total : Total key_le.
Proof.
  intros [a u] [b v]. unfold key_le. simpl. clear u v. revert b.
  induction a as [|x a IH]; intros [|y b]; simpl; [by left|by left|by right|].
  destruct (Z.ltb_spec x y), (Z.ltb_spec y x); simpl; [by left|by left|by right|].
  assert (x = y) as -> by lia. rewrite Z.eqb_refl. apply IH.
Qed.

#[export] Instance key_le_trans : Transitive key_le.
Proof.
  intros [a u] [b v] [c w]. unfold key_le. simpl. clear u v w. revert b c.
  induction a as [|x a IH]; intros [|y b] [|z c]; simpl; try done.
  destruct (Z.ltb_spec x y), (Z.ltb_spec y z), (Z.ltb_spec x z); simpl; try done; try lia;
    destruct (Z.eqb_spec x y), (Z.eqb_spec y z); simpl; try done; try lia; subst.
  rewrite Z.eqb_refl. apply IH.
Qed.

(** The results that are not errors contribute all their rows. *)
Definition ok_rows (results : list QueryResultSet) : list (list Z) :=
  mjoin (rows <$> filter (λ r, ok r = true) results).

Lemma group_results_rows kinds groups scanned err results :
  (group_results kinds groups scanned err results).1.1 = group_rows kinds groups (ok_rows results).
Proof.
  revert groups scanned err. induction results as [|r results IH]; intros; [done|]. unfold ok_rows.
  rewrite filter_cons. cbn [group_results]. destruct (ok r); simpl; [|apply IH].
  rewrite group_rows_app. destruct (group_rows kinds groups (rows r)); [apply IH|done].
Qed.

(** The error of the first result that failed. *)
Definition first_error (results : list QueryResultSet) : string :=
  default ""%string (error <$> head (filter (λ r, ok r ≠ true) results)).

Lemma group_results_error kinds groups scanned err results :
  is_Some (group_results kinds groups scanned err results).1.1 →
  (group_results kinds groups scanned err results).2 =
    if String.eqb err "" then first_error results else err.
Proof.
  revert groups scanned err. induction results as [|r results IH]; intros groups scanned err; simpl.
  - intros _. by destruct (String.eqb_spec err "").
  - unfold first_error. rewrite filter_cons. destruct (ok r) eqn:Hr; simpl.
    + destruct (group_rows kinds groups (rows r)); simpl; [apply IH|]. by intros [? ?].
    + intros H. rewrite (IH _ _ _ H). destruct (String.eqb_spec err ""); [|by destruct (String.eqb_spec err "")].
      unfold ok in Hr. by rewrite Hr.
Qed.

Lemma group_results_overflow kinds groups scanned err results :
  (group_results kinds groups scanned err results).1.1 = None →
  (group_results kinds groups scanned err results).2 = overflow_error.
Proof.
  revert groups scanned err. induction results as [|r results IH]; intros groups scanned err; simpl; [done|].
  destruct (ok r); simpl; [|apply IH].
  by destruct (group_rows kinds groups (rows r)); simpl; [apply IH|].
Qed.

(** What the rows of a group are merged to. *)
Definition merged_row (kinds : list kind) (group : list (list Z)) : list Z :=
  imap (λ ci k, match k with
                | KKey => cell (default [] (head group)) ci
                | _ => merged_cell avg_truncated k (column_of group ci)
                end) kinds.

Lemma fold_cell_key acc vals : fold_cell KKey acc vals = Some acc.
Proof. induction vals as [|v vals IH] using rev_ind; [done|]. by rewrite fold_cell_snoc, IH. Qed.

Lemma group_accs_value kinds group :
  group ≠ [] → Forall (λ src, length src = length kinds) group →
  (∀ ci, kinds !! ci = Some KSum → sums_fit (column_of group ci)) →
  ∃ accs, group_accs kinds group = Some accs ∧ zip_with (finalize avg_truncated) kinds accs = merged_row kinds group.
Proof.
  intros Hne Hall Hfit. destruct group as [|first group]; [done|]. unfold group_accs.
  assert (length (new_group kinds first) = length kinds) as Hl by apply length_imap.
  pose proof (fold_rows_spec kinds (new_group kinds first) _ Hl Hall) as Hspec.
  assert (∀ ci k, kinds !! ci = Some k → ∃ acc a, new_group kinds first !! ci = Some a ∧
    fold_cell k a (column_of (first :: group) ci) = Some acc ∧
    Some (finalize avg_truncated k acc) = merged_row kinds (first :: group) !! ci) as Hci.
  { intros ci k Hk. unfold new_group, merged_row. rewrite !list_lookup_imap, Hk. cbn [fmap option_fmap option_map].
    destruct (decide (k = KKey)) as [->|Hkey]; [eexists _, _; by rewrite fold_cell_key|].
    destruct (fold_cell_value avg_truncated k (column_of (first :: group) ci) Hkey) as (acc & Hf & Hv).
    { intros ->. by apply Hfit. }
    exists acc, (identity k). rewrite Hf, Hv. by destruct k. }
  destruct (fold_rows kinds _ _) as [accs|].
  - exists accs. split; [done|]. destruct Hspec as [Hla Hspec]. apply list_eq. intros ci.
    rewrite lookup_zip_with. destruct (kinds !! ci) as [k|] eqn:Hk; simpl.
    + destruct (Hci ci k Hk) as (acc & a & Ha & Hf & <-). unfold column_of in Hf.
      by rewrite (Hspec ci k a Hk Ha), Hf.
    + unfold merged_row. by rewrite list_lookup_imap, Hk.
  - destruct Hspec as (ci & k & a & Hk & Ha & Hn). exfalso.
    destruct (Hci ci k Hk) as (acc & a' & Ha' & Hf & _). unfold column_of in Hf. congruence.
Qed.

Lemma group_accs_overflow kinds group ci :
  group ≠ [] → Forall (λ src, length src = length kinds) group →
  kinds !! ci = Some KSum → ¬ sums_fit (column_of group ci) → group_accs kinds group = None.
Proof.
  intros Hne Hall Hk Hn. destruct group as [|first group]; [done|]. unfold group_accs.
  pose proof (fold_rows_spec kinds (new_group kinds first) _ (length_imap _ _) Hall) as Hspec.
  destruct (fold_rows kinds _ _) as [accs|]; [|done]. destruct Hspec as [Hla Hspec].
  assert (new_group kinds first !! ci = Some (identity KSum)) as Ha by (unfold new_group; by rewrite list_lookup_imap, Hk).
  specialize (Hspec _ _ _ Hk Ha). fold (column_of (first :: group) ci) in Hspec.
  rewrite fold_cell_sum, decide_False in Hspec by done.
  apply lookup_ge_None in Hspec. apply lookup_lt_Some in Hk. lia.
Qed.

(** The groups in the order of the map: increasing keys, each once. *)
Lemma groups_in_order (groups : gmap (list Z) (list (Z * Z))) :
  let l := merge_sort key_le (map_to_list groups) in
  StronglySorted (λ a b, lex_leb a b = true) l.*1 ∧ NoDup l.*1 ∧
  ∀ key accs, (key, accs) ∈ l ↔ groups !! key = Some accs.
Proof.
  intros l. pose proof (merge_sort_Permutation key_le (map_to_list groups)) as Hp. fold l in Hp. split_and!.
  - pose proof (StronglySorted_merge_sort key_le (map_to_list groups)) as Hs. fold l in Hs. clear Hp.
    induction Hs as [|x xs Hs IH Hx]; simpl; constructor; [done|].
    rewrite Forall_fmap. eapply Forall_impl; [exact Hx|done].
  - rewrite Hp. apply NoDup_fst_map_to_list.
  - intros key accs. rewrite Hp. apply elem_of_map_to_list.
Qed.


Definition keyed_result (data : list (list Z)) : QueryResultSet :=
  mkResultSet ["bucket"; "sum"; "highest"; "mean"] [INT64; INT64; INT64; INT64] data [] [] None 1 "".

