(* ===== verification/RowOrder.v ===== *)
(** * Ordering the rows of a result

    What the query coordinator and the executor share: [std::sort] and
    [std::partial_sort] over rows as the class [RowSort], the ORDER BY columns of
    a result and their comparison. *)

From S2P Require Import Prelude.
From S2P Require Import ColumnStore.
From S2P Require Import StringDictionary.
From S2P Require Import Ast.
From S2P Require Import PartialAgg.
From stdpp Require Import base list strings sorting.
From Stdlib Require Import ZArith Lia.

Open Scope Z_scope.

(** ** Sorting rows *)

(** A strict weak order, as [std::sort] requires of its comparison. *)
Record weak_order {A} (less : A → A → bool) : Prop := {
  weak_irreflexive x : less x x = false;
  weak_asymmetric x y : less x y = true → less y x = false;
  weak_transitive x y z : less y x = false → less z y = false → less z x = false;
}.

Class RowSort : Type := {
  sort_rows : (list Z → list Z → bool) → list (list Z) → list (list Z);
  sort_rows_perm less l : sort_rows less l ≡ₚ l;
  sort_rows_sorted less l : weak_order less → StronglySorted (λ a b, less b a = false) (sort_rows less l);
}.

(** ** ORDER BY *)

Definition column_index (r : QueryResultSet) (name : string) : option nat :=
  fst <$> list_find (λ n, n = name) (column_names r).

(** The ORDER BY columns that the result has. *)
Definition sort_keys (r : QueryResultSet) (items : list OrderByItem) : list (nat * bool) :=
  omap (λ item, (λ ci, (ci, asc item)) <$> column_index r (order_column item)) items.

Fixpoint row_less (keys : list (nat * bool)) (a b : list Z) : bool :=
  match keys with
  | [] => false
  | (ci, up) :: keys =>
      if cell a ci =? cell b ci then row_less keys a b
      else if up : bool then cell a ci <? cell b ci else cell b ci <? cell a ci
  end.

Definition limit_rows (lim : option Z) (rs : list (list Z)) : list (list Z) :=
  match lim with Some n => if 0 <=? n then take (Z.to_nat n) rs else rs | None => rs end.

Definition order_rows `{RowSort} (keys : list (nat * bool)) (rs : list (list Z)) : list (list Z) :=
  match keys with [] => rs | _ => sort_rows (row_less keys) rs end.

(** Insertion sort, for examples. *)
Fixpoint row_insert (less : list Z → list Z → bool) (x : list Z) (l : list (list Z)) : list (list Z) :=
  match l with
  | [] => [x]
  | y :: l' => if less y x then y :: row_insert less x l' else x :: l
  end.
Definition insertion_sort (less : list Z → list Z → bool) (l : list (list Z)) : list (list Z) := foldr (row_insert less) [] l.

Lemma row_insert_perm less x l : row_insert less x l ≡ₚ x :: l.
Proof. induction l as [|y l IH]; [done|]. simpl. destruct (less y x); [rewrite IH; apply perm_swap|done]. Qed.

Lemma row_insert_sorted less x l :
  weak_order less → StronglySorted (λ a b, less b a = false) l → StronglySorted (λ a b, less b a = false) (row_insert less x l).
Proof.
  intros Hw. induction 1 as [|y l Hl IH Hy]; simpl; [repeat constructor|].
  destruct (less y x) eqn:Hyx.
  - constructor; [done|]. rewrite row_insert_perm. constructor; [by apply (weak_asymmetric less Hw)|done].
  - constructor; [by constructor|]. constructor; [done|]. eapply Forall_impl; [exact Hy|].
    intros z Hz. by apply (weak_transitive less Hw x y z).
Qed.

#[export] Instance insertion_row_sort : RowSort.
Proof.
  refine {| sort_rows := insertion_sort |}; unfold insertion_sort.
  - intros less l. induction l as [|x l IH]; [done|]. simpl. by rewrite row_insert_perm, IH.
  - intros less l Hw. induction l as [|x l IH]; [constructor|]. by apply row_insert_sorted.
Defined.

