(* ===== verification/MaterializedView.v ===== *)
(** * Materialized views

    Models [include/zeptodb/storage/materialized_view.h] and
    [src/storage/materialized_view.cpp]: views that aggregate ticks as they are
    ingested. Every method holds the manager's lock. The theorem
    [views_refine] says that, whatever is created, dropped and ingested, a view
    answers what grouping the ticks since its creation would. *)

From S2P Require Import Prelude.
From stdpp Require Import base gmap list strings sorting.
From Stdlib Require Import ZArith Lia.

Open Scope Z_scope.

(** ** Data *)

Inductive MVAggType : Type := MV_SUM | MV_COUNT | MV_MIN | MV_MAX | MV_FIRST | MV_LAST.
#[export] Instance MVAggType_eq_dec : EqDecision MVAggType.
Proof. solve_decision. Defined.

Record MVColumnDef : Type := mkMVColumn { mv_name : string; mv_agg : MVAggType; source_col : string }.

Record MVDef : Type := mkMVDef {
  view_name : string;
  source_table : string;
  mv_group_by : list string;
  mv_xbar_bucket : Z;
  mv_columns : list MVColumnDef;
}.

Record MVBucket : Type := mkBucket {
  group_key : Z;
  time_key : Z;
  values : list Z;
  counts : list Z;
}.

Record ViewState : Type := mkView { view_def : MVDef; buckets : gmap (Z * Z) MVBucket }.

Record MaterializedViewManager : Type := mkManager {
  views_ : gmap string ViewState;
  views_empty_ : bool;
}.

Definition no_views : MaterializedViewManager := mkManager ∅ true.

(** The arguments of [on_tick]. *)
Record MVTick : Type := mkMVTick { mv_symbol : Z; mv_ts : Z; mv_price : Z; mv_volume : Z }.

Record ViewResult : Type := mkViewResult { view_columns : list string; view_rows : list (list Z) }.

(** ** Operations *)

Definition create_view (d : MVDef) (m : MaterializedViewManager) : bool * MaterializedViewManager :=
  match views_ m !! view_name d with
  | Some _ => (false, m)
  | None => (true, mkManager (<[view_name d := mkView d ∅]> (views_ m)) false)
  end.

Definition drop_view (name : string) (m : MaterializedViewManager) : bool * MaterializedViewManager :=
  match views_ m !! name with
  | None => (false, m)
  | Some _ =>
      let vs := delete name (views_ m) in
      (true, mkManager vs (if bool_decide (vs = ∅) then true else views_empty_ m))
  end.

Definition view_exists (name : string) (m : MaterializedViewManager) : bool := bool_decide (is_Some (views_ m !! name)).

Definition source_value (col : MVColumnDef) (t : MVTick) : Z :=
  if String.eqb (source_col col) "price" then mv_price t
  else if String.eqb (source_col col) "volume" then mv_volume t else 0.

(** The new value of a column whose bucket has seen [n] ticks. *)
Definition update_value (a : MVAggType) (v n src : Z) : Z :=
  match a with
  | MV_SUM => i64 (v + src)
  | MV_COUNT => i64 (v + 1)
  | MV_MIN => if src <? v then src else v
  | MV_MAX => if v <? src then src else v
  | MV_FIRST => if n =? 0 then src else v
  | MV_LAST => src
  end.

Definition update_bucket (b : MVBucket) (d : MVDef) (t : MVTick) : MVBucket :=
  mkBucket (group_key b) (time_key b)
    (imap (λ i v, match mv_columns d !! i with
                  | Some col => update_value (mv_agg col) v (default 0 (counts b !! i)) (source_value col t)
                  | None => v
                  end) (values b))
    (imap (λ i n, match mv_columns d !! i with Some _ => i64 (n + 1) | None => n end) (counts b)).

Definition tick_key (d : MVDef) (t : MVTick) : Z * Z :=
  (mv_symbol t, if 0 <? mv_xbar_bucket d then i64 (Z.quot (mv_ts t) (mv_xbar_bucket d) * mv_xbar_bucket d) else 0).

Definition initial_value (a : MVAggType) : Z :=
  match a with MV_MIN => INT64_MAX | MV_MAX => INT64_MIN | _ => 0 end.

Definition init_bucket (d : MVDef) (k : Z * Z) : MVBucket :=
  mkBucket k.1 k.2 (initial_value ∘ mv_agg <$> mv_columns d) (replicate (length (mv_columns d)) 0).

Definition update_view (t : MVTick) (vs : ViewState) : ViewState :=
  let d := view_def vs in
  let k := tick_key d t in
  let b := default (mkBucket 0 0 [] []) (buckets vs !! k) in
  let b := if bool_decide (values b = []) then init_bucket d k else b in
  mkView d (<[k := update_bucket b d t]> (buckets vs)).

Definition on_tick (t : MVTick) (m : MaterializedViewManager) : MaterializedViewManager :=
  if views_empty_ m then m else mkManager (update_view t <$> views_ m) (views_empty_ m).

Definition bucket_le (a b : MVBucket) : Prop :=
  group_key a < group_key b ∨ (group_key a = group_key b ∧ time_key a <= time_key b).
#[export] Instance bucket_le_dec : RelDecision bucket_le.
Proof. intros a b. unfold bucket_le. apply _. Defined.

Definition bucket_row (d : MVDef) (b : MVBucket) : list Z :=
  group_key b :: (if 0 <? mv_xbar_bucket d then [time_key b] else []) ++ values b.

Definition view_names (d : MVDef) : list string :=
  "symbol"%string :: (if 0 <? mv_xbar_bucket d then ["bar"%string] else []) ++ (mv_name <$> mv_columns d).

Definition query_view (name : string) (m : MaterializedViewManager) : ViewResult :=
  match views_ m !! name with
  | None => mkViewResult [] []
  | Some vs =>
      mkViewResult (view_names (view_def vs))
        (bucket_row (view_def vs) <$> merge_sort bucket_le ((map_to_list (buckets vs)).*2))
  end.

Definition list_views (m : MaterializedViewManager) : list string := (map_to_list (views_ m)).*1.
Definition get_all_defs (m : MaterializedViewManager) : list MVDef := view_def <$> (map_to_list (views_ m)).*2.

(** ** Specification: grouping the ticks *)

Definition aggregate (a : MVAggType) (l : list Z) : Z :=
  match a with
  | MV_SUM => i64 (foldr Z.add 0 l)
  | MV_COUNT => i64 (Z.of_nat (length l))
  | MV_MIN => foldr Z.min INT64_MAX l
  | MV_MAX => foldr Z.max INT64_MIN l
  | MV_FIRST => default 0 (head l)
  | MV_LAST => default 0 (last l)
  end.

Definition group_le (a b : Z * Z) : Prop := a.1 < b.1 ∨ (a.1 = b.1 ∧ a.2 <= b.2).
#[export] Instance group_le_dec : RelDecision group_le.
Proof. intros a b. unfold group_le. apply _. Defined.

(** The ticks of a group, in the order they came. *)
Definition group_ticks (d : MVDef) (k : Z * Z) (ts : list MVTick) : list MVTick := filter (λ t, tick_key d t = k) ts.

Definition group_values (d : MVDef) (k : Z * Z) (ts : list MVTick) : list Z :=
  (λ col, aggregate (mv_agg col) (source_value col <$> group_ticks d k ts)) <$> mv_columns d.

Definition view_group_row (d : MVDef) (ts : list MVTick) (k : Z * Z) : list Z :=
  k.1 :: (if 0 <? mv_xbar_bucket d then [k.2] else []) ++ group_values d k ts.

(** [SELECT key, aggregates FROM ts GROUP BY key ORDER BY key] *)
Definition view_group_rows (d : MVDef) (ts : list MVTick) : list (list Z) :=
  view_group_row d ts <$> merge_sort group_le (remove_dups (tick_key d <$> ts)).

(** What is to be known of the views: their definitions and the ticks since. *)
Notation view_spec := (gmap string (MVDef * list MVTick)%type).

Inductive mv_op : Type :=
  | CreateView (d : MVDef)
  | DropView (name : string)
  | ViewExists (name : string)
  | OnTick (t : MVTick)
  | QueryView (name : string)
  | ListViews
  | GetAllDefs.

Inductive mv_answer : Type :=
  | Done
  | Answer (b : bool)
  | Names (l : list string)
  | Defs (l : list MVDef)
  | Rows (r : ViewResult).

Definition mv_step (op : mv_op) (m : MaterializedViewManager) : mv_answer * MaterializedViewManager :=
  match op with
  | CreateView d => let '(b, m) := create_view d m in (Answer b, m)
  | DropView name => let '(b, m) := drop_view name m in (Answer b, m)
  | ViewExists name => (Answer (view_exists name m), m)
  | OnTick t => (Done, on_tick t m)
  | QueryView name => (Rows (query_view name m), m)
  | ListViews => (Names (list_views m), m)
  | GetAllDefs => (Defs (get_all_defs m), m)
  end.

Definition spec_step (op : mv_op) (s : view_spec) : mv_answer * view_spec :=
  match op with
  | CreateView d =>
      if bool_decide (is_Some (s !! view_name d)) then (Answer false, s) else (Answer true, <[view_name d := (d, [])]> s)
  | DropView name => (Answer (bool_decide (is_Some (s !! name))), delete name s)
  | ViewExists name => (Answer (bool_decide (is_Some (s !! name))), s)
  | OnTick t => (Done, (λ v, (v.1, v.2 ++ [t])) <$> s)
  | QueryView name =>
      (Rows (match s !! name with
             | Some (d, ts) => mkViewResult (view_names d) (view_group_rows d ts)
             | None => mkViewResult [] []
             end), s)
  | ListViews => (Names (map_to_list s).*1, s)
  | GetAllDefs => (Defs ((map_to_list s).*2).*1, s)
  end.

(** The answers of a run. *)
Fixpoint run_ops {St} (step : mv_op → St → mv_answer * St) (ops : list mv_op) (s : St) : list mv_answer * St :=
  match ops with
  | [] => ([], s)
  | op :: ops =>
      let '(a, s) := step op s in
      let '(l, s) := run_ops step ops s in (a :: l, s)
  end.

(** ** Incremental aggregation *)

Lemma foldr_min_snoc a l x : foldr Z.min a (l ++ [x]) = Z.min (foldr Z.min a l) x.
Proof. induction l as [|y l IH]; simpl; [lia|]. rewrite IH. lia. Qed.
Lemma foldr_max_snoc a l x : foldr Z.max a (l ++ [x]) = Z.max (foldr Z.max a l) x.
Proof. induction l as [|y l IH]; simpl; [lia|]. rewrite IH. lia. Qed.
Lemma foldr_add_snoc l x : foldr Z.add 0 (l ++ [x]) = foldr Z.add 0 l + x.
Proof. induction l as [|y l IH]; simpl; [lia|]. rewrite IH. lia. Qed.

Lemma aggregate_snoc a l x :
  update_value a (aggregate a l) (Z.of_nat (length l)) x = aggregate a (l ++ [x]).
Proof.
  destruct a; simpl.
  - by rewrite foldr_add_snoc, i64_add_l.
  - rewrite length_app, i64_add_l. f_equal. simpl. lia.
  - rewrite foldr_min_snoc. destruct (Z.ltb_spec x (foldr Z.min INT64_MAX l)); lia.
  - rewrite foldr_max_snoc. destruct (Z.ltb_spec (foldr Z.max INT64_MIN l) x); lia.
  - by destruct l.
  - by rewrite last_snoc.
Qed.

Lemma aggregate_nil a : aggregate a [] = initial_value a.
Proof. by destruct a. Qed.

(** ** The buckets of a view *)

Section Buckets.
Implicit Types (d : MVDef) (t : MVTick) (ts : list MVTick) (k : Z * Z).

(** The bucket of a group that has seen [ts]. *)
Definition group_bucket d k ts : MVBucket :=
  mkBucket k.1 k.2 (group_values d k ts) (replicate (length (mv_columns d)) (Z.of_nat (length (group_ticks d k ts)))).

Lemma group_ticks_snoc_eq d ts t : group_ticks d (tick_key d t) (ts ++ [t]) = group_ticks d (tick_key d t) ts ++ [t].
Proof. unfold group_ticks. by rewrite filter_app, filter_cons_True. Qed.

Lemma group_ticks_snoc_ne d k ts t : tick_key d t ≠ k → group_ticks d k (ts ++ [t]) = group_ticks d k ts.
Proof. intros. unfold group_ticks. by rewrite filter_app, filter_cons_False, filter_nil, app_nil_r. Qed.

Lemma group_ticks_nil d k ts : group_ticks d k ts = [] ↔ k ∉ tick_key d <$> ts.
Proof.
  unfold group_ticks. rewrite list_elem_of_fmap. split.
  - intros Hf (t & -> & Ht). apply (not_elem_of_nil t). rewrite <- Hf. by apply list_elem_of_filter.
  - intros Hk. destruct (filter _ ts) as [|t l] eqn:Hf; [done|]. exfalso. apply Hk.
    assert (t ∈ filter (λ t, tick_key d t = k) ts) as Ht by (rewrite Hf; by left).
    apply list_elem_of_filter in Ht as [<- Ht]. eauto.
Qed.

Lemma update_group_bucket d ts t :
  let k := tick_key d t in
  Z.of_nat (length ts) < INT64_MAX →
  update_bucket (group_bucket d k ts) d t = group_bucket d k (ts ++ [t]).
Proof.
  intros k Hlen. unfold update_bucket, group_bucket, group_values. simpl. subst k. rewrite group_ticks_snoc_eq.
  assert (Z.of_nat (length (group_ticks d (tick_key d t) ts)) < INT64_MAX) as Hn.
  { pose proof (length_filter (λ t0, tick_key d t0 = tick_key d t) ts). unfold group_ticks. lia. }
  f_equal; apply list_eq; intros i.
  - rewrite list_lookup_imap, !list_lookup_fmap. destruct (mv_columns d !! i) as [col|] eqn:Hc; [|done]. simpl.
    rewrite lookup_replicate_2 by (by eapply lookup_lt_Some). simpl.
    rewrite fmap_app. cbn [fmap list_fmap]. by rewrite <- aggregate_snoc, length_fmap.
  - rewrite list_lookup_imap. destruct (decide (i < length (mv_columns d))%nat) as [Hi|Hi].
    + rewrite !lookup_replicate_2 by done. simpl. destruct (lookup_lt_is_Some_2 _ _ Hi) as [col ->].
      rewrite length_app. unfold INT64_MAX in *. rewrite i64_small; [f_equal; simpl; lia|unfold INT64_MIN, INT64_MAX; lia].
    + by rewrite !(proj1 (lookup_replicate_None _ _ _)) by lia.
Qed.

Lemma group_bucket_fresh d k ts : group_ticks d k ts = [] → group_bucket d k ts = init_bucket d k.
Proof.
  intros Hg. unfold group_bucket, init_bucket, group_values. by rewrite Hg.
Qed.

Lemma group_bucket_no_columns d k ts : mv_columns d = [] → group_bucket d k ts = init_bucket d k.
Proof. intros Hc. unfold group_bucket, init_bucket, group_values. by rewrite Hc. Qed.

(** The buckets after [ts]: one per group that occurs. *)
Definition built d ts (vs : ViewState) : Prop :=
  view_def vs = d ∧
  ∀ k, buckets vs !! k = if bool_decide (group_ticks d k ts = []) then None else Some (group_bucket d k ts).

Lemma built_fresh d : built d [] (mkView d ∅).
Proof. split; [done|]. intros k. cbn [buckets]. by rewrite lookup_empty, bool_decide_true. Qed.

Lemma built_tick d ts vs t : Z.of_nat (length ts) < INT64_MAX → built d ts vs → built d (ts ++ [t]) (update_view t vs).
Proof.
  intros Hlen [Hd Hb]. unfold update_view. rewrite Hd. split; [done|]. intros k. simpl.
  destruct (decide (tick_key d t = k)) as [<-|Hk].
  - rewrite lookup_insert_eq, (bool_decide_false (group_ticks _ _ (ts ++ [t]) = [])).
    2: { rewrite group_ticks_snoc_eq. intros E. by apply app_nil in E as [_ E]. }
    f_equal. rewrite <- update_group_bucket by done. f_equal. rewrite Hb.
    destruct (decide (group_ticks d (tick_key d t) ts = [])) as [Hg|Hg].
    { rewrite (bool_decide_true (group_ticks _ _ _ = [])) by done. simpl. by rewrite group_bucket_fresh. }
    rewrite (bool_decide_false (group_ticks _ _ _ = [])) by done. cbn [default from_option id].
    case_bool_decide as Hv; [|done]. apply fmap_nil_inv in Hv. by rewrite group_bucket_no_columns.
  - rewrite lookup_insert_ne, Hb by done. unfold group_bucket, group_values. by rewrite group_ticks_snoc_ne.
Qed.

#[local] Instance group_le_trans : Transitive group_le.
Proof. intros [a1 a2] [b1 b2] [c1 c2]. unfold group_le. simpl. lia. Qed.
#[local] Instance group_le_total : Total group_le.
Proof. intros [a1 a2] [b1 b2]. unfold group_le. simpl. lia. Qed.
#[local] Instance bucket_le_trans : Transitive bucket_le.
Proof. intros a b c. unfold bucket_le. lia. Qed.
#[local] Instance bucket_le_total : Total bucket_le.
Proof. intros a b. unfold bucket_le. lia. Qed.

(** A view's buckets, in any order, are those of the groups. *)
Lemma built_buckets d ts vs : built d ts vs →
  (map_to_list (buckets vs)).*2 ≡ₚ (λ k, group_bucket d k ts) <$> remove_dups (tick_key d <$> ts).
Proof.
  intros [_ Hb]. transitivity ((λ k, group_bucket d k ts) <$> (map_to_list (buckets vs)).*1).
  - rewrite <- list_fmap_compose. apply reflexive_eq, list_fmap_ext. intros i [k b] Hi.
    apply list_elem_of_lookup_2, elem_of_map_to_list in Hi. rewrite Hb in Hi. by case_bool_decide; simplify_eq.
  - apply fmap_Permutation, NoDup_Permutation; [apply NoDup_fst_map_to_list|apply NoDup_remove_dups|].
    intros k. rewrite list_elem_of_fmap, elem_of_remove_dups. split.
    + intros ([k' b] & -> & Hk). apply elem_of_map_to_list in Hk. rewrite Hb in Hk. simpl.
      case_bool_decide as Hg; [done|].
      destruct (decide (k' ∈ tick_key d <$> ts)) as [|Hin]; [done|]. by apply group_ticks_nil in Hin.
    + intros Hk. exists (k, group_bucket d k ts). split; [done|]. apply elem_of_map_to_list.
      rewrite Hb, bool_decide_false; [done|]. intros Hg. by apply group_ticks_nil in Hg.
Qed.

Lemma sorted_buckets d ts vs : built d ts vs →
  merge_sort bucket_le ((map_to_list (buckets vs)).*2) =
    (λ k, group_bucket d k ts) <$> merge_sort group_le (remove_dups (tick_key d <$> ts)).
Proof.
  intros Hb.
  assert (StronglySorted bucket_le ((λ k, group_bucket d k ts) <$> merge_sort group_le (remove_dups (tick_key d <$> ts)))) as Hs.
  { assert (StronglySorted group_le (merge_sort group_le (remove_dups (tick_key d <$> ts)))) as Hk by apply (StronglySorted_merge_sort group_le).
    induction Hk as [|k l _ IH Hf]; [constructor|]. constructor; [done|]. by apply Forall_fmap. }
  apply (StronglySorted_unique_strong bucket_le); [|apply (StronglySorted_merge_sort bucket_le)|done|].
  - intros x1 x2. rewrite merge_sort_Permutation, built_buckets by done. intros Hx1 Hx2.
    apply list_elem_of_fmap in Hx1 as (k1 & -> & _), Hx2 as (k2 & -> & _).
    unfold bucket_le. simpl. intros H1 H2. assert (k1 = k2) as -> by (apply injective_projections; lia). done.
  - by rewrite merge_sort_Permutation, built_buckets, (merge_sort_Permutation group_le).
Qed.

Lemma query_built d ts vs m name : views_ m !! name = Some vs → built d ts vs →
  query_view name m = mkViewResult (view_names d) (view_group_rows d ts).
Proof.
  intros Hm Hb. unfold query_view. rewrite Hm, (sorted_buckets d ts) by done. destruct Hb as [-> _].
  f_equal. unfold view_group_rows. by rewrite <- list_fmap_compose.
Qed.
End Buckets.

(** ** Refinement *)

(** A view that has seen [ts]. *)
Definition view_after (v : MVDef * list MVTick) : ViewState := foldl (flip update_view) (mkView v.1 ∅) v.2.

Lemma built_after d ts : Z.of_nat (length ts) <= INT64_MAX → built d ts (view_after (d, ts)).
Proof.
  induction ts as [|t ts IH] using rev_ind; intros Hlen; [apply built_fresh|].
  rewrite length_app in Hlen. simpl in Hlen. unfold view_after. cbn [fst snd]. rewrite foldl_snoc. apply built_tick; [lia|]. apply IH. lia.
Qed.

(** The manager's state for what is to be known of its views. *)
Definition manager_of (s : view_spec) : MaterializedViewManager := mkManager (view_after <$> s) (bool_decide (s = ∅)).

Definition short (n : Z) (s : view_spec) : Prop := map_Forall (λ _ v, Z.of_nat (length v.2) <= n) s.

Lemma manager_of_lookup s name : views_ (manager_of s) !! name = view_after <$> s !! name.
Proof. apply lookup_fmap. Qed.

Lemma view_def_after v : view_def (view_after v) = v.1.
Proof. destruct v as [d ts]. unfold view_after. simpl. by induction ts using rev_ind; [|rewrite foldl_snoc]. Qed.

Lemma bool_decide_fmap_empty (s : view_spec) : bool_decide (view_after <$> s = ∅) = bool_decide (s = ∅).
Proof. apply bool_decide_ext. split; [apply fmap_empty_inv|intros ->; apply fmap_empty]. Qed.

(** One operation does the same in both, up to the state's representation. *)
Lemma step_refines op s n : short n s → n <= INT64_MAX →
  mv_step op (manager_of s) = ((spec_step op s).1, manager_of (spec_step op s).2).
Proof.
  intros Hs Hn. destruct op as [d|name|name|t|name| |]; simpl.
  - unfold create_view. rewrite manager_of_lookup. destruct (s !! view_name d) as [v|] eqn:Hd; simpl.
    + done.
    + unfold manager_of. simpl. f_equal. f_equal.
      * by rewrite fmap_insert.
      * symmetry. apply bool_decide_false, insert_non_empty.
  - unfold drop_view. rewrite manager_of_lookup. destruct (s !! name) as [v|] eqn:Hd; simpl.
    + unfold manager_of. simpl. rewrite <- fmap_delete, bool_decide_fmap_empty.
      f_equal. f_equal. case_bool_decide as He; [done|]. apply bool_decide_false. intros ->. by rewrite lookup_empty in Hd.
    + by rewrite delete_id.
  - unfold view_exists. rewrite manager_of_lookup. f_equal. f_equal. apply bool_decide_ext. apply fmap_is_Some.
  - unfold on_tick. simpl. f_equal. case_bool_decide as He.
    + subst s. rewrite fmap_empty. done.
    + unfold manager_of. f_equal.
      * rewrite <- !map_fmap_compose. apply map_fmap_ext. intros name [d ts] _. simpl. unfold view_after. simpl. by rewrite foldl_snoc.
      * symmetry. apply bool_decide_false. intros E. by apply fmap_empty_inv in E.
  - f_equal. f_equal. destruct (s !! name) as [[d ts]|] eqn:Hd; [|unfold query_view; by rewrite manager_of_lookup, Hd].
    apply (query_built d ts (view_after (d, ts))); [by rewrite manager_of_lookup, Hd|].
    apply built_after. specialize (Hs _ _ Hd). simpl in Hs. lia.
  - f_equal. f_equal. unfold list_views. simpl. rewrite map_to_list_fmap, <- list_fmap_compose. done.
  - f_equal. f_equal. unfold get_all_defs. simpl. rewrite map_to_list_fmap, <- !list_fmap_compose.
    apply list_fmap_ext. intros i [k v] _. apply view_def_after.
Qed.

Lemma short_step op s n : 0 <= n → short n s → short (n + 1) (spec_step op s).2.
Proof.
  intros Hn Hs. assert (short (n + 1) s) as Hw by (eapply map_Forall_impl; [exact Hs|]; intros k v Hv; simpl in *; lia).
  destruct op as [d|name|name|t|name| |]; simpl; try done.
  - case_bool_decide; simpl; [done|]. apply map_Forall_insert_2; [|done]. simpl. lia.
  - by apply map_Forall_delete.
  - intros name v. rewrite lookup_fmap, fmap_Some. intros (v' & Hv & ->). specialize (Hs _ _ Hv). simpl in *.
    rewrite length_app. simpl. lia.
Qed.

Lemma run_refines ops s n : short n s → 0 <= n → n + Z.of_nat (length ops) <= INT64_MAX →
  run_ops mv_step ops (manager_of s) = ((run_ops spec_step ops s).1, manager_of (run_ops spec_step ops s).2) ∧
  short (n + Z.of_nat (length ops)) (run_ops spec_step ops s).2.
Proof.
  revert s n. induction ops as [|op ops IH]; intros s n Hs H0 Hn; [by rewrite Z.add_0_r|].
  cbn [run_ops length] in *. rewrite (step_refines _ _ n) by (done || lia).
  pose proof (short_step op s n H0 Hs) as Hs'. destruct (spec_step op s) as [a s']. cbn [fst snd] in *.
  destruct (IH s' (n + 1) Hs' ltac:(lia) ltac:(lia)) as [-> Hshort]. destruct (run_ops spec_step ops s'). cbn [fst snd] in *.
  split; [done|]. replace (n + Z.of_nat (S (length ops))) with (n + 1 + Z.of_nat (length ops)) by lia. done.
Qed.

(** A run of the manager from its beginning. *)
Lemma history_refines ops : Z.of_nat (length ops) <= INT64_MAX →
  run_ops mv_step ops no_views = ((run_ops spec_step ops ∅).1, manager_of (run_ops spec_step ops ∅).2) ∧
  short INT64_MAX (run_ops spec_step ops ∅).2.
Proof.
  intros Hlen. change no_views with (manager_of ∅).
  destruct (run_refines ops ∅ 0) as [Hrun Hs]; [apply map_Forall_empty|lia..|]. split; [exact Hrun|].
  eapply map_Forall_impl; [exact Hs|]. intros k v Hv. simpl in *. lia.
Qed.

(** C5. Materialized views answer what grouping would. Against the specification
    that keeps every tick since a view's creation and groups them when asked,
    any run of the manager gives the same answers: which views exist and how they
    are defined, and for a query the rows of the GROUP BY, ordered by key, each
    with its SUM (modulo 2^64), COUNT, MIN, MAX, FIRST and LAST. *)
Theorem views_refine ops :
  Z.of_nat (length ops) <= INT64_MAX →
  (run_ops mv_step ops no_views).1 = (run_ops spec_step ops ∅).1.
Proof. intros Hlen. by destruct (history_refines ops Hlen) as [-> _]. Qed.

Definition demo_view : MVDef :=
  mkMVDef "bars" "trades" ["symbol"%string] 10 [mkMVColumn "high" MV_MAX "price"; mkMVColumn "vol" MV_SUM "volume"].

Lemma views_refine_witness :
  (run_ops mv_step [CreateView demo_view; OnTick (mkMVTick 2 12 100 5); OnTick (mkMVTick 1 19 90 1); OnTick (mkMVTick 2 17 120 6);
     CreateView demo_view; QueryView "bars"] no_views).1 =
  [Answer true; Done; Done; Done; Answer false;
   Rows (mkViewResult ["symbol"; "bar"; "high"; "vol"] [[1; 10; 90; 1]; [2; 10; 120; 11]])].
Proof. rewrite views_refine; [reflexivity|]. unfold INT64_MAX. simpl. lia. Defined.
