(* ===== verification/ViewRewrite.v ===== *)
(** * Queries answered from materialized views

    Models [include/zeptodb/sql/mv_rewriter.h] and the parts of
    [src/sql/executor.cpp] that create views from SELECT statements and answer
    SELECT statements from them. *)

From S2P Require Import Prelude.
From S2P Require Import ColumnStore.
From S2P Require Import StringDictionary.
From S2P Require Import Ast.
From S2P Require Import PartialAgg.
From S2P Require Import RowOrder.
From S2P Require Import Parser.
From S2P Require Import MaterializedView.
From stdpp Require Import base gmap list strings sorting.
From Stdlib Require Import ZArith Lia.

Open Scope Z_scope.

Notation query_body := (SelectBody Expr SelectStmt).

(** ** Matching *)

Definition map_agg (f : AggFunc) : option MVAggType :=
  match f with
  | Ast.SUM => Some MV_SUM
  | Ast.COUNT => Some MV_COUNT
  | Ast.MIN => Some MV_MIN
  | Ast.MAX => Some MV_MAX
  | Ast.FIRST => Some MV_FIRST
  | Ast.LAST => Some MV_LAST
  | _ => None
  end.

(** [None] when a function cannot be mapped. *)
Fixpoint query_aggs (cols : list SelectExpr) : option (list (MVAggType * string)) :=
  match cols with
  | [] => Some []
  | col :: cols =>
      match agg col with
      | Ast.NONE => query_aggs cols
      | f => a ← map_agg f; rest ← query_aggs cols; Some ((a, column col) :: rest)
      end
  end.

(** The GROUP BY columns that are no bucket, and the last bucket. *)
Definition group_shape (g : GroupByClause) : list string * Z :=
  foldl (λ acc p, if 0 <? p.2 then (acc.1, p.2) else (acc.1 ++ [p.1], acc.2)) ([], 0)
    (imap (λ i col, (col, default 0 (xbar_buckets g !! i))) (group_columns g)).

Definition string_le (a b : string) : Prop := String.leb a b = true.
#[export] Instance string_le_dec : RelDecision string_le.
Proof. intros a b. unfold string_le. apply _. Defined.

Definition sets_equal (a b : list string) : bool :=
  (length a =? length b)%nat && bool_decide (merge_sort string_le a = merge_sort string_le b).

Definition aggs_match (query : list (MVAggType * string)) (cols : list MVColumnDef) : bool :=
  forallb (λ qa, existsb (λ mc, bool_decide (mv_agg mc = qa.1) && String.eqb (source_col mc) qa.2) cols) query.

Definition is_some {A} (o : option A) : bool := match o with Some _ => true | None => false end.

(** Only simple GROUP BY aggregations are candidates. *)
Definition plain_group_by (b : query_body) : bool :=
  negb (is_some (where_clause b) || is_some (Ast.join b) || is_some (having b)) &&
  negb (distinct b || is_some (from_subquery b) || negb (bool_decide (cte_defs b = []))) &&
  match set_op b with S_NONE => true | _ => false end.

Definition view_matches (b : query_body) (shape : list string * Z) (aggs : list (MVAggType * string)) (d : MVDef) : bool :=
  String.eqb (source_table d) (from_table b) && (mv_xbar_bucket d =? shape.2) &&
  sets_equal shape.1 (mv_group_by d) && aggs_match aggs (mv_columns d).

Definition try_rewrite (b : query_body) (m : MaterializedViewManager) : option (string * ViewResult) :=
  g ← group_by b;
  if negb (plain_group_by b) then None
  else
    aggs ← query_aggs (Ast.columns b);
    if bool_decide (aggs = []) then None
    else
      d ← List.find (view_matches b (group_shape g) aggs) (get_all_defs m);
      Some (view_name d, query_view (view_name d) m).

(** ** Statements *)

Definition ddl_ok (msg : string) : QueryResultSet := mkResultSet ["result"%string] [] [] [] [msg] None 0 "".

(** The output columns of a view: functions that cannot be kept are skipped. *)
Definition mv_column (col : SelectExpr) : option MVColumnDef :=
  a ← map_agg (agg col); Some (mkMVColumn (if String.eqb (alias col) "" then column col else alias col) a (column col)).

Definition mv_def_of (name : string) (q : query_body) : MVDef :=
  let shape := match group_by q with Some g => group_shape g | None => ([], 0) end in
  mkMVDef name (from_table q) shape.1 shape.2 (omap mv_column (Ast.columns q)).

Definition exec_create_mv (name : string) (q : query_body) (m : MaterializedViewManager) :
    QueryResultSet * MaterializedViewManager :=
  if view_exists name m then (error_result ("Materialized view '" +:+ name +:+ "' already exists"), m)
  else
    let d := mv_def_of name q in
    if bool_decide (mv_columns d = []) then (error_result "Materialized view must have at least one aggregation column", m)
    else (ddl_ok ("Materialized view '" +:+ name +:+ "' created"), (create_view d m).2).

Definition exec_drop_mv (name : string) (m : MaterializedViewManager) : QueryResultSet * MaterializedViewManager :=
  let '(dropped, m') := drop_view name m in
  if dropped : bool then (ddl_ok ("Materialized view '" +:+ name +:+ "' dropped"), m')
  else (error_result ("Materialized view '" +:+ name +:+ "' not found"), m).

(** ** ORDER BY, LIMIT and OFFSET *)

Section Order.
Context {HS : RowSort}.

(** A [size_t] made from an [int64_t]. *)
Definition as_size (n : Z) : Z := u64 n.

(** The rows after [apply_order_by]; a partial sort followed by [resize] is the
    beginning of a sort. *)
Definition apply_order_by (b : query_body) (r : QueryResultSet) : list (list Z) :=
  let n := Z.of_nat (length (rows r)) in
  match order_by b with
  | None => rows r
  | Some items =>
      match rows r, sort_keys r items with
      | [], _ | _, [] => rows r
      | _, keys =>
          let off := as_size (default 0 (offset b)) in
          let lim := as_size (default n (limit b)) in
          let need := Z.min (u64 (off + lim)) n in
          let sorted := take (Z.to_nat need) (sort_rows (row_less keys) (rows r)) in
          match offset b with
          | Some o =>
              if 0 <? o then
                let rs := drop (Z.to_nat o) sorted in
                match limit b with Some l => take (Z.to_nat (as_size l)) rs | None => rs end
              else sorted
          | None => sorted
          end
      end
  end.

(** What follows when a view answers. *)
Definition limit_view_rows (b : query_body) (rs : list (list Z)) : list (list Z) :=
  match limit b with
  | None => rs
  | Some lim =>
      let off := default 0 (offset b) in
      if off <? Z.of_nat (length rs) then
        let rest := drop (Z.to_nat off) rs in
        if i64 (off + lim) <? Z.of_nat (length rs) then take (Z.to_nat lim) rest else rest
      else []
  end.

Definition answer_from_view (dict : option StringDictionary) (b : query_body) (m : MaterializedViewManager) : option QueryResultSet :=
  hit ← try_rewrite b m;
  let r := mkResultSet (view_columns hit.2) (replicate (length (view_columns hit.2)) INT64) (view_rows hit.2) [] [] dict 0 "" in
  Some (mkResultSet (column_names r) (column_types r) (limit_view_rows b (apply_order_by b r)) [] [] dict 0 "").
End Order.

(** ** What an answer is *)

Lemma sets_equal_permutation a b : sets_equal a b = true → a ≡ₚ b.
Proof.
  unfold sets_equal. intros [_ H]%andb_prop. apply bool_decide_eq_true in H.
  by rewrite <- (merge_sort_Permutation string_le a), H, merge_sort_Permutation.
Qed.

Lemma query_aggs_columns cols aggs col :
  query_aggs cols = Some aggs → col ∈ cols → agg col ≠ Ast.NONE → ∃ a, map_agg (agg col) = Some a ∧ (a, column col) ∈ aggs.
Proof.
  revert aggs. induction cols as [|c cols IH]; intros aggs Hq Hin Hn; [by apply not_elem_of_nil in Hin|].
  apply elem_of_cons in Hin as [->|Hin]; simpl in Hq.
  - destruct (agg c); simplify_option_eq; try done; (eexists; split; [reflexivity|apply list_elem_of_here]).
  - assert (∃ rest, query_aggs cols = Some rest ∧ (aggs = rest ∨ ∃ x, aggs = x :: rest)) as (rest & Hr & Hrest).
    { destruct (agg c); simplify_option_eq; eauto. }
    destruct (IH _ Hr Hin Hn) as (a & ? & ?). exists a. split; [done|].
    destruct Hrest as [->|[x ->]]; [done|by apply list_elem_of_further].
Qed.

(** A definition is kept under its name. *)
Lemma spec_named ops (s : view_spec) :
  map_Forall (λ name v, view_name v.1 = name) s →
  map_Forall (λ name v, view_name v.1 = name) (run_ops spec_step ops s).2.
Proof.
  revert s. induction ops as [|op ops IH]; intros s Hs; [done|]. cbn [run_ops].
  assert (map_Forall (λ name v, view_name v.1 = name) (spec_step op s).2) as Hstep.
  { destruct op as [d|name|name|t|name| |]; simpl; try done.
    - case_bool_decide; [done|]. by apply map_Forall_insert_2.
    - by apply map_Forall_delete.
    - intros name v. rewrite lookup_fmap, fmap_Some. intros (v' & Hv & ->). simpl. exact (Hs _ _ Hv). }
  destruct (spec_step op s) as [a s']. specialize (IH s' Hstep). by destruct (run_ops spec_step ops s').
Qed.

Lemma try_rewrite_found b m name vr : try_rewrite b m = Some (name, vr) →
  ∃ g aggs d, group_by b = Some g ∧ plain_group_by b = true ∧ query_aggs (Ast.columns b) = Some aggs ∧
    d ∈ get_all_defs m ∧ view_matches b (group_shape g) aggs d = true ∧ name = view_name d ∧ vr = query_view name m.
Proof.
  unfold try_rewrite. intros H. destruct (group_by b) as [g|] eqn:Hg; [|done]. simpl in H.
  destruct (plain_group_by b) eqn:Hp; [|done]. simpl in H.
  destruct (query_aggs (Ast.columns b)) as [aggs|] eqn:Ha; [|done]. simpl in H. case_bool_decide; [done|].
  destruct (List.find _ _) as [d|] eqn:Hf; [|done]. simplify_eq/=.
  apply List.find_some in Hf as [Hin Hm]. exists g, aggs, d. split_and!; try done. by apply list_elem_of_In.
Qed.

(** A query that is answered from a view gets what grouping the table's ticks
    since the view's creation gives. After any history of the manager, when a
    SELECT is rewritten, the view was defined with the query's FROM name, GROUP BY
    columns and time bucket, the rows of the answer are the groups of the ticks
    since then, and every aggregate of the query is one of their columns. *)
Theorem rewrite_exact ops b name vr :
  Z.of_nat (length ops) <= INT64_MAX →
  try_rewrite b (run_ops mv_step ops no_views).2 = Some (name, vr) →
  ∃ d ts g, (run_ops spec_step ops ∅).2 !! name = Some (d, ts) ∧ group_by b = Some g ∧
    source_table d = from_table b ∧ mv_group_by d ≡ₚ (group_shape g).1 ∧ mv_xbar_bucket d = (group_shape g).2 ∧
    vr = mkViewResult (view_names d) (view_group_rows d ts) ∧
    ∀ col, col ∈ Ast.columns b → agg col ≠ Ast.NONE →
      ∃ i c, mv_columns d !! i = Some c ∧ map_agg (agg col) = Some (mv_agg c) ∧ source_col c = column col ∧
        ∀ k, group_values d k ts !! i = Some (aggregate (mv_agg c) (source_value c <$> group_ticks d k ts)).
Proof.
  intros Hlen Hr. destruct (history_refines ops Hlen) as [Hrun Hshort]. rewrite Hrun in Hr. cbn [snd] in Hr.
  pose proof (spec_named ops ∅ (map_Forall_empty _)) as Hnamed. revert Hr Hshort Hnamed.
  generalize (run_ops spec_step ops ∅).2. intros s Hr Hshort Hnamed.
  apply try_rewrite_found in Hr as (g & aggs & d & Hg & _ & Haggs & Hd & Hm & Hname & Hvr).
  assert (∃ ts, s !! name = Some (d, ts)) as [ts Hts].
  { unfold get_all_defs in Hd. apply list_elem_of_fmap in Hd as (vs & -> & Hvs).
    apply list_elem_of_fmap in Hvs as ([n v] & -> & Hv). apply elem_of_map_to_list in Hv.
    rewrite manager_of_lookup in Hv. destruct (s !! n) as [[d' ts]|] eqn:Hn; [|done]. simplify_eq/=.
    rewrite view_def_after. simpl. exists ts. specialize (Hnamed _ _ Hn). simpl in Hnamed. by rewrite Hnamed. }
  exists d, ts, g. unfold view_matches in Hm. apply andb_prop in Hm as [[[Ht Hx]%andb_prop Hc]%andb_prop Ha].
  split_and!; try done.
  - by apply String.eqb_eq.
  - symmetry. by apply sets_equal_permutation.
  - lia.
  - rewrite Hvr. apply (query_built d ts (view_after (d, ts))); [by rewrite manager_of_lookup, Hts|].
    apply built_after. apply (Hshort _ _ Hts).
  - intros col Hcol Hnone. destruct (query_aggs_columns _ _ _ Haggs Hcol Hnone) as (a & Hmap & Hin).
    unfold aggs_match in Ha. rewrite forallb_forall in Ha. apply list_elem_of_In in Hin. specialize (Ha _ Hin).
    apply existsb_exists in Ha as (c & Hcin & [Hca Hcs]%andb_prop). simpl in *.
    apply bool_decide_eq_true in Hca. apply String.eqb_eq in Hcs. apply list_elem_of_In in Hcin.
    apply list_elem_of_lookup in Hcin as [i Hi]. exists i, c. split_and!; [done|by subst|done|].
    intros k. unfold group_values. by rewrite list_lookup_fmap, Hi.
Qed.

(** A statement's body, for examples. *)
Definition select_of (sql : string) : query_body :=
  match parse sql with
  | Parsed stmt _ => body_of stmt
  | _ => mkSelect [] false false [] "" "" None None None None None None None None None S_NONE None
  end.

(** The answer from a view has the view's columns, not the query's. With a view
    of the volumes' sum and the highest price per symbol, [SELECT symbol, max(price)
    ... GROUP BY symbol] answers with the sum of the volumes in its second column. *)
Theorem view_answers_other_columns :
  let m := (exec_create_mv "stats" (select_of "SELECT symbol, sum(volume) AS vol, max(price) AS high FROM trades GROUP BY symbol")
              no_views).2 in
  let m := on_tick (mkMVTick 1 10 500 7) m in
  snd <$> try_rewrite (select_of "SELECT symbol, max(price) FROM trades GROUP BY symbol") m =
    Some (mkViewResult ["symbol"; "vol"; "high"] [[1; 7; 500]]).
Proof. vm_compute. reflexivity. Qed.

(** The condition of a view's query is dropped, and so is DISTINCT: both counts are
    of all ticks. *)
Example view_ignores_condition :
  let m := (exec_create_mv "big" (select_of "SELECT symbol, count(price) AS n FROM trades WHERE price > 100 GROUP BY symbol") no_views).2 in
  let m := on_tick (mkMVTick 1 10 500 7) (on_tick (mkMVTick 1 10 50 7) m) in
  snd <$> try_rewrite (select_of "SELECT symbol, count(DISTINCT symbol) FROM trades GROUP BY symbol") m = None ∧
  snd <$> try_rewrite (select_of "SELECT symbol, count(DISTINCT price) FROM trades GROUP BY symbol") m =
    Some (mkViewResult ["symbol"; "n"] [[1; 2]]).
Proof. split; vm_compute; reflexivity. Qed.

(** After ORDER BY, an offset is applied twice: of the symbols 1, 2, 3 and 4,
    LIMIT 2 OFFSET 1 should answer 2 and 3, and answers 3. *)
Example offset_is_applied_twice :
  let m := (exec_create_mv "counts" (select_of "SELECT symbol, count(price) AS n FROM trades GROUP BY symbol") no_views).2 in
  let m := foldr (λ symbol m, on_tick (mkMVTick symbol 10 500 7) m) m [1; 2; 3; 4] in
  rows <$> answer_from_view None (select_of "SELECT symbol, count(price) FROM trades GROUP BY symbol ORDER BY symbol LIMIT 2 OFFSET 1") m =
    Some [[3; 1]].
Proof. vm_compute. reflexivity. Qed.

Lemma rewrite_exact_witness :
  let ops := [CreateView (mv_def_of "bars" (select_of "SELECT symbol, max(price) AS high FROM trades GROUP BY symbol"));
              OnTick (mkMVTick 7 10 500 1); OnTick (mkMVTick 7 20 600 1)] in
  ∃ d ts vr, try_rewrite (select_of "SELECT symbol, max(price) FROM trades GROUP BY symbol") (run_ops mv_step ops no_views).2 =
      Some ("bars"%string, vr) ∧
    vr = mkViewResult (view_names d) (view_group_rows d ts) ∧ length ts = 2%nat.
Proof.
  set (ops := [_; _; _]).
  assert (try_rewrite (select_of "SELECT symbol, max(price) FROM trades GROUP BY symbol") (run_ops mv_step ops no_views).2 =
    Some ("bars"%string, mkViewResult ["symbol"; "high"] [[7; 600]])) as Hr by (vm_compute; reflexivity).
  destruct (rewrite_exact ops _ _ _ ltac:(vm_compute; discriminate) Hr) as (d & ts & g & Hs & _ & _ & _ & _ & Hvr & _).
  exists d, ts, (mkViewResult ["symbol"; "high"] [[7; 600]]). split; [exact Hr|]. split; [exact Hvr|].
  vm_compute in Hs. injection Hs as _ <-. reflexivity.
Defined.
