(* ===== verification/MergePlan.v ===== *)
(** * Planning a distributed query

    Models the planning half of [src/cluster/query_coordinator.cpp]: how the
    coordinator turns the text of a query into a merge plan. AVG and VWAP cannot
    be merged from the nodes' results, so the select list is printed again with
    sums and counts in their place, and the averages are computed from the merged
    row. HAVING is cut out of the text that goes to the nodes. *)

From S2P Require Import Prelude.
From S2P Require Import ColumnStore.
From S2P Require Import StringDictionary.
From S2P Require Import Ast.
From S2P Require Import PartialAgg.
From S2P Require Import Text.
From S2P Require Import Tokenizer.
From S2P Require Import Literals.
From S2P Require Import Parser.
From stdpp Require Import base list strings.
From Stdlib Require Import ZArith Lia.

Open Scope Z_scope.

(** ** Text *)

(** [lo.find(pat)]; [None] is [npos]. *)
Fixpoint find_text (pat l : text) : option nat :=
  if bool_decide (take (length pat) l = pat) then Some O
  else match l with
       | [] => None
       | _ :: l => S <$> find_text pat l
       end.

(** [lo.find(pat, start)] *)
Definition find_text_from (pat : text) (start : nat) (l : text) : option nat :=
  if (length l <? start)%nat then None else Nat.add start <$> find_text pat (drop start l).

Definition lower_text (s : string) : text := tolower <$> chars s.

(** ** The plan *)

(** An AVG or VWAP column: where it stands in the original select list, and where
    its sum and its count (or sum of volumes) stand in the rewritten one. *)
Record AvgColInfo : Type := mkAvgCol { orig_idx : nat; sum_idx : nat; cnt_idx : nat; is_vwap : bool }.

Record MergePlan : Type := mkPlan {
  strategy : MergeStrategy;
  col_aggs : list AggFunc;
  col_is_key : list bool;
  rewritten_sql : string;
  avg_cols : list AvgColInfo;
  orig_col_names : list string;
  orig_to_rewritten : list Z;
  plan_having : option (string * CompareOp * Z); (** column, operator, value *)
}.

Definition plan_of_strategy (s : MergeStrategy) : MergePlan := mkPlan s [] [] "" [] [] [] None.

(** ** Printing expressions *)

Definition op_char (op : ArithOp) : string :=
  match op with ADD => "+" | SUB => "-" | MUL => "*" | DIV => "/" end.

(** Floating-point literals print as integers, calls without their arguments. *)
Fixpoint unparse_arith (e : ArithExpr) : string :=
  match e with
  | AColumn table_alias column => if String.eqb table_alias "" then column else table_alias +:+ "." +:+ column
  | ALiteral literal => to_string literal
  | AFloat _ literal => to_string literal
  | ABinary op l r => "(" +:+ unparse_arith l +:+ " " +:+ op_char op +:+ " " +:+ unparse_arith r +:+ ")"
  | AFunc func_name _ _ _ _ => if String.eqb func_name "" then "" else func_name +:+ "(...)"
  end.

Definition op_str (op : CompareOp) : string :=
  match op with
  | Ast.EQ => "=" | Ast.NE => "!=" | Ast.GT => ">" | Ast.LT => "<" | Ast.GE => ">=" | Ast.LE => "<="
  end.

(** The fields of a condition of any kind; those its kind does not use have their
    default. *)
Definition expr_column (e : Expr) : string :=
  match e with
  | ECompare _ c _ _ _ | EBetween _ c _ _ _ | EIn _ c _ | EIsNull _ c _ | ELike _ c _ _
  | EScalarSubquery _ c _ _ | EInSubquery _ c _ => c
  | EAnd _ _ | EOr _ _ | ENot _ => ""
  end.
Definition expr_op (e : Expr) : CompareOp :=
  match e with ECompare _ _ op _ _ | EScalarSubquery _ _ op _ => op | _ => Ast.EQ end.
Definition expr_value (e : Expr) : Z :=
  match e with ECompare _ _ _ (VInt v) _ | ECompare _ _ _ (VFloat _ v) _ => v | _ => 0 end.

Definition unparse_branch (b : option Expr * ArithExpr) : string :=
  " WHEN " +:+
  match b.1 with
  | Some c => expr_column c +:+ " " +:+ op_str (expr_op c) +:+ " " +:+ to_string (expr_value c)
  | None => ""
  end +:+ " THEN " +:+ unparse_arith b.2.

Definition concat_strings (l : list string) : string := foldr String.append EmptyString l.

Definition unparse_case_when (c : CaseWhenExpr) : string :=
  "CASE" +:+ concat_strings (unparse_branch <$> branches c) +:+
  match else_val c with Some e => " ELSE " +:+ unparse_arith e | None => "" end +:+ " END".

Definition unparse_expr_inner (col : SelectExpr) : string :=
  match case_when col, arith_expr col with
  | Some c, _ => unparse_case_when c
  | None, Some a => unparse_arith a
  | None, None => if is_star col then "*" else column col
  end.

Definition unparse_call (name : string) (col : SelectExpr) : string := name +:+ "(" +:+ unparse_expr_inner col +:+ ")".

Definition unparse_select_expr (col : SelectExpr) : string :=
  match agg col with
  | Ast.NONE => unparse_expr_inner col
  | Ast.COUNT => if is_star col || String.eqb (column col) "*" then "count(*)" else unparse_call "count" col
  | Ast.SUM => unparse_call "sum" col
  | Ast.AVG => unparse_call "avg" col
  | Ast.MIN => unparse_call "min" col
  | Ast.MAX => unparse_call "max" col
  | Ast.VWAP => "vwap(" +:+ column col +:+ ", " +:+ agg_arg2 col +:+ ")"
  | Ast.FIRST => unparse_call "first" col
  | Ast.LAST => unparse_call "last" col
  | Ast.XBAR => "xbar(" +:+ column col +:+ ", " +:+ to_string (xbar_bucket col) +:+ ")"
  | Ast.STDDEV => unparse_call "stddev" col
  | Ast.VARIANCE => unparse_call "variance" col
  | Ast.MEDIAN => unparse_call "median" col
  | Ast.PERCENTILE => "percentile(" +:+ unparse_expr_inner col +:+ ", " +:+ to_string (percentile_value col) +:+ ")"
  end.

(** ** Cutting the text *)

(** Everything from the first [from] between spaces. *)
Definition extract_from_suffix (sql : string) : string :=
  match find_text (chars " from ") (lower_text sql) with
  | Some pos => str (drop pos (chars sql))
  | None => ""
  end.

Definition having_ends : list string := [" order "; " limit "; " union "; " intersect "; " except "].

(** The least position at which one of [kws] stands, from [start] on. *)
Definition first_keyword (kws : list string) (start : nat) (lo : text) : option nat :=
  foldl (λ best kw,
    match find_text_from (chars kw) start lo, best with
    | Some p, Some b => Some (if (p <? b)%nat then p else b)
    | Some p, None => Some p
    | None, _ => best
    end) None kws.

(** Without the text from [having] to the clause that follows it. *)
Definition strip_having (sql : string) : string :=
  let lo := lower_text sql in
  match find_text (chars " having ") lo with
  | None => sql
  | Some pos =>
      match first_keyword having_ends (pos + 8) lo with
      | None => str (take pos (chars sql))
      | Some stop => str (take pos (chars sql) ++ drop stop (chars sql))
      end
  end.

(** ** Rewriting averages *)

(** What the loop over the select list has built. *)
Record Rewrite : Type := mkRewrite {
  rw_exprs : list string;
  rw_aggs : list AggFunc;
  rw_avg_cols : list AvgColInfo;
  rw_names : list string;
  rw_index : list Z;
}.

Definition rewrite_step (rw : Rewrite) (p : nat * SelectExpr) : Rewrite :=
  let '(i, col) := p in
  let idx := length (rw_exprs rw) in
  let names := rw_names rw ++ [if String.eqb (alias col) "" then column col else alias col] in
  match agg col with
  | Ast.AVG =>
      let inner := unparse_expr_inner col in
      mkRewrite (rw_exprs rw ++ ["sum(" +:+ inner +:+ ")"; "count(" +:+ inner +:+ ")"])
        (rw_aggs rw ++ [Ast.SUM; Ast.COUNT]) (rw_avg_cols rw ++ [mkAvgCol i idx (idx + 1) false])
        names (rw_index rw ++ [-1])
  | Ast.VWAP =>
      mkRewrite (rw_exprs rw ++ ["sum(" +:+ column col +:+ " * " +:+ agg_arg2 col +:+ ")"; "sum(" +:+ agg_arg2 col +:+ ")"])
        (rw_aggs rw ++ [Ast.SUM; Ast.SUM]) (rw_avg_cols rw ++ [mkAvgCol i idx (idx + 1) true])
        names (rw_index rw ++ [-1])
  | f =>
      mkRewrite (rw_exprs rw ++ [unparse_select_expr col]) (rw_aggs rw ++ [f]) (rw_avg_cols rw) names
        (rw_index rw ++ [Z.of_nat idx])
  end.

Definition rewrite_columns (cols : list SelectExpr) : Rewrite :=
  foldl rewrite_step (mkRewrite [] [] [] [] []) (imap (λ i c, (i, c)) cols).

(** The expressions separated by commas. *)
Definition select_text (exprs : list string) : string :=
  match exprs with
  | [] => ""
  | e :: rest => e +:+ concat_strings ((λ e, ", " +:+ e) <$> rest)
  end.

Definition build_avg_rewrite (cols : list SelectExpr) (original_sql : string) : MergePlan :=
  let rw := rewrite_columns cols in
  mkPlan SCALAR_AGG (rw_aggs rw) [] ("SELECT " +:+ select_text (rw_exprs rw) +:+ extract_from_suffix original_sql)
    (rw_avg_cols rw) (rw_names rw) (rw_index rw) None.

(** Division that rounds to nearest, away from zero in the middle; sums wrap. *)
Definition rounded_quotient (s c : Z) : Z :=
  if c =? 0 then 0
  else if 0 <=? s then Z.quot (i64 (s + Z.quot c 2)) c else Z.quot (i64 (s - Z.quot c 2)) c.

Definition reconstruct_cell (plan : MergePlan) (src : list Z) (i : nat) : Z :=
  match list_find (λ ai, orig_idx ai = i) (avg_cols plan) with
  | Some (_, ai) => rounded_quotient (default 0 (src !! sum_idx ai)) (default 1 (src !! cnt_idx ai))
  | None =>
      let ri := default (-1) (orig_to_rewritten plan !! i) in
      if 0 <=? ri then default 0 (src !! Z.to_nat ri) else 0
  end.

Definition reconstruct_row (plan : MergePlan) (src : list Z) : list Z :=
  reconstruct_cell plan src <$> seq 0 (length (orig_col_names plan)).

Definition reconstruct_avg_result (merged : QueryResultSet) (plan : MergePlan) : QueryResultSet :=
  if negb (ok merged) then merged
  else mkResultSet (orig_col_names plan) (replicate (length (orig_col_names plan)) INT64)
         (reconstruct_row plan <$> rows merged) [] [] None (rows_scanned merged) "".

(** ** The plan of a statement *)

Definition is_aggregate (col : SelectExpr) : bool := match agg col with Ast.NONE => false | _ => true end.

(** The executor's columns are the keys, then the aggregates of the select list. *)
Definition group_plan (keys : list string) (b : SelectBody Expr SelectStmt) : MergePlan :=
  let aggregates := List.filter is_aggregate (columns b) in
  mkPlan MERGE_GROUP_BY (((λ _, Ast.NONE) <$> keys) ++ (agg <$> aggregates))
    (((λ _, true) <$> keys) ++ ((λ _, false) <$> aggregates)) "" [] [] []
    (match having b with
     | Some (Some (ECompare _ c op _ _ as h)) => Some (c, op, expr_value h)
     | _ => None
     end).

Definition needs_rewrite (col : SelectExpr) : bool := match agg col with Ast.AVG | Ast.VWAP => true | _ => false end.

Definition scalar_plan (sql : string) (b : SelectBody Expr SelectStmt) : MergePlan :=
  if negb (bool_decide (columns b = [])) && forallb is_aggregate (columns b) then
    if existsb needs_rewrite (columns b) then build_avg_rewrite (columns b) sql
    else mkPlan SCALAR_AGG (agg <$> columns b) [] "" [] [] [] None
  else plan_of_strategy CONCAT.

(** Groups with a [symbol] key are never split between nodes. *)
Definition plan_of_statement (sql : string) (stmt : SelectStmt) : MergePlan :=
  let b := body_of stmt in
  match group_by b with
  | Some g =>
      if bool_decide (group_columns g = []) then scalar_plan sql b
      else if bool_decide ("symbol"%string ∈ group_columns g) then plan_of_strategy CONCAT
      else group_plan (group_columns g) b
  | None => scalar_plan sql b
  end.

Definition merge_plan_from_sql (sql : string) : MergePlan :=
  match parse sql with
  | Parsed stmt _ => plan_of_statement sql stmt
  | _ => plan_of_strategy CONCAT
  end.

(** ** Routing *)

Definition uint32 (z : Z) : Z := z mod 2 ^ 32.

(** [WHERE symbol = n] *)
Definition extract_symbol_filter (sql : string) : option Z :=
  match parse sql with
  | Parsed stmt _ =>
      match where_clause (body_of stmt) with
      | Some (Some (ECompare _ "symbol" Ast.EQ (VInt v) _)) => Some (uint32 v)
      | Some (Some (ECompare _ "symbol" Ast.EQ (VExpr _) _)) => Some 0
      | _ => None
      end
  | _ => None
  end.

Definition extract_table_name (sql : string) : option string :=
  match parse_statement sql with
  | Parsed (P_SELECT s) _ =>
      let t := from_table (body_of s) in if String.eqb t "" then None else Some t
  | Parsed (P_INSERT s) _ => Some (insert_table s)
  | Parsed (P_UPDATE s) _ => Some (update_table s)
  | Parsed (P_DELETE s) _ => Some (delete_table s)
  | _ => None
  end.

Fixpoint find_column (order : list string) : option nat :=
  match order with
  | [] => None
  | c :: order => if String.eqb (to_lower_str c) "symbol" then Some O else S <$> find_column order
  end.

Definition insert_symbol (v : InsertValue) : option Z :=
  match v with
  | IString _ => None
  | IInt i => if (i <? 0) || (2 ^ 32 - 1 <? i) then None else Some i
  | IFloat f => let raw := cast_int64 f in if (raw <? 0) || (2 ^ 32 - 1 <? raw) then None else Some raw
  end.

(** All rows must name the same symbol. *)
Fixpoint same_symbol (col : nat) (found : option Z) (value_rows : list (list InsertValue)) : option Z :=
  match value_rows with
  | [] => found
  | row :: value_rows =>
      match v ← row !! col; insert_symbol v with
      | None => None
      | Some s =>
          match found with
          | None => same_symbol col (Some s) value_rows
          | Some f => if f =? s then same_symbol col found value_rows else None
          end
      end
  end.

(** [schema_columns] are the names of the table's columns in order. *)
Definition insert_routing_symbol (stmt : InsertStmt) (schema_columns : list string) : option Z :=
  let order := match insert_columns stmt with [] => schema_columns | cs => cs end in
  match find_column order with
  | None => Some 0
  | Some col => same_symbol col None (value_rows stmt)
  end.
