(* ===== verification/RewriteFacts.v ===== *)
(** * Theorems about the planning of distributed queries

    The query the coordinator sends to the nodes, as text, is parsed by them to
    the original query with sums and counts in place of averages; the averages
    computed from the merged answers are those of the whole data. *)

From S2P Require Import Prelude.
From S2P Require Import ColumnStore.
From S2P Require Import StringDictionary.
From S2P Require Import Ast.
From S2P Require Import PartialAgg.
From S2P Require Import Text.
From S2P Require Import Tokenizer.
From S2P Require Import Literals.
From S2P Require Import Parser.
From S2P Require Import SqlGrammar.
From S2P Require Import MergePlan.
From stdpp Require Import base list strings.
From Stdlib Require Import ZArith Lia Ascii.

Open Scope Z_scope.

(** ** Tokens of a text *)

(** The text [l], after a token [back], tokenizes to [ts]. *)
Inductive lexes : option Token → text → list Token → Prop :=
  | lexes_end back l : skip_whitespace l = [] → lexes back l []
  | lexes_token back l c l' t rest ts :
      skip_whitespace l = c :: l' → (∀ pos, scan c l' back pos = Produced t rest) →
      lexes (Some t) rest ts → lexes back l (t :: ts).

(** Whatever the previous token is. *)
Definition lexes_any (l : text) (ts : list Token) : Prop := ∀ back, lexes back l ts.

Lemma lexes_loop fuel len acc l ts :
  (length l < fuel)%nat → lexes (last acc) l ts →
  tokenize_loop fuel len acc l = Tokens (acc ++ ts ++ [end_token]).
Proof.
  intros Hf Hl. remember (last acc) as back eqn:Hback. revert fuel acc Hf Hback.
  induction Hl as [back l Hs|back l c l' t rest ts Hs Hscan Hl IH]; intros fuel acc Hf Hback;
    (destruct fuel as [|fuel]; [lia|]); cbn [tokenize_loop]; rewrite Hs; [done|].
  pose proof (length_span isspace l) as Hlen. unfold skip_whitespace in Hs. rewrite Hs in Hlen. simpl in Hlen.
  pose proof (scan_sound c l' back 0) as Hsound. rewrite Hscan in Hsound. destruct Hsound as (_ & _ & Hr).
  subst back. rewrite Hscan. rewrite (IH fuel (acc ++ [t])); [by rewrite <- app_assoc|lia|by rewrite last_snoc].
Qed.

Lemma lexes_tokenize s ts : lexes None (chars s) ts → tokenize s = Tokens (ts ++ [end_token]).
Proof. intros Hl. unfold tokenize. by apply (lexes_loop _ _ []); [lia|]. Qed.

Lemma lexes_space back l ts : lexes back l ts → lexes back (" "%char :: l) ts.
Proof.
  intros Hl. inversion Hl; subst; [apply lexes_end|eapply lexes_token]; try done; by rewrite skip_space.
Qed.

Lemma lexes_scan t back rest l ts : scans_to t back rest l → lexes (Some t) rest ts → lexes back l (t :: ts).
Proof. intros (c & l' & -> & Hc & Hs) Hr. by apply (lexes_token back _ c l' t rest); [apply skip_not_space|..]. Qed.

Lemma lexes_word v back rest ts : is_word v = true → ends_run ident_char rest →
  let t := mkToken (keyword_type (upper_word v)) v in lexes (Some t) rest ts → lexes back (chars v ++ rest) (t :: ts).
Proof. intros Hv Hr t. apply lexes_scan. by apply scan_word. Qed.

Lemma lexes_print back ts : valid_from back ts → lexes back (print ts) ts.
Proof.
  revert back. induction ts as [|t ts IH]; intros back; [intros _; by apply lexes_end|].
  intros (Ht & Hneg & Hts). rewrite print_cons. apply lexes_space. eapply lexes_scan; [|by apply IH].
  apply scan_print; [done|done|apply print_stops].
Qed.

Lemma lexes_number v back rest ts :
  valid_token (mkToken NUMBER v) → (negative (mkToken NUMBER v) = true → from_option is_operand false back = false) →
  ends_run number_char rest → lexes (Some (mkToken NUMBER v)) rest ts → lexes back (chars v ++ rest) (mkToken NUMBER v :: ts).
Proof. intros Hv Hb Hr. apply lexes_scan. by apply scan_number. Qed.

(** The operators the printer uses, before any text. *)
Lemma lexes_op ty s back rest ts :
  (ty, s) ∈ [(LPAREN, "("); (RPAREN, ")"); (COMMA, ","); (STAR, "*"); (PLUS, "+"); (SLASH, "/"); (DOT, ".")]%string →
  lexes (Some (mkToken ty s)) rest ts → lexes back (chars s ++ rest) (mkToken ty s :: ts).
Proof.
  intros Hop. apply lexes_scan.
  repeat (apply elem_of_cons in Hop as [[= -> ->]|Hop]; [by repeat eexists|]). by apply elem_of_nil in Hop.
Qed.
Ltac by_op := rewrite !elem_of_cons; auto 10.

Lemma lexes_blank back rest ts : lexes back rest ts → lexes back (chars " " ++ rest) ts.
Proof. apply lexes_space. Qed.

Lemma lexes_minus back rest ts :
  lexes (Some (mkToken MINUS "-")) (chars " " ++ rest) ts →
  lexes back (chars "-" ++ chars " " ++ rest) (mkToken MINUS "-" :: ts).
Proof. apply lexes_scan. by repeat eexists. Qed.

(** ** Printed expressions *)

(** A column name that is one word and may be used as a name. *)
Definition name_word (v : string) : bool := is_word v && ident_like (keyword_type (upper_word v)).
Definition word_token (v : string) : Token := mkToken (keyword_type (upper_word v)) v.

(** Expressions that [unparse_arith] prints faithfully: columns and integers under
    operators. *)
Fixpoint printable (e : ArithExpr) : Prop :=
  match e with
  | AColumn table_alias column => (table_alias = ""%string ∨ name_word table_alias = true) ∧ name_word column = true
  | ALiteral literal => INT64_MIN <= literal <= INT64_MAX
  | ABinary _ l r => printable l ∧ printable r
  | AFloat _ _ | AFunc _ _ _ _ _ => False
  end.

Definition op_token (op : ArithOp) : Token :=
  match op with
  | ADD => mkToken PLUS "+" | SUB => mkToken MINUS "-" | MUL => mkToken STAR "*" | DIV => mkToken SLASH "/"
  end.

Fixpoint arith_tokens (e : ArithExpr) : list Token :=
  match e with
  | AColumn table_alias column =>
      if String.eqb table_alias "" then [word_token column]
      else [word_token table_alias; mkToken DOT "."; word_token column]
  | ALiteral literal => [mkToken NUMBER (to_string literal)]
  | ABinary op l r => lparen :: arith_tokens l ++ op_token op :: arith_tokens r ++ [rparen]
  | AFloat _ _ | AFunc _ _ _ _ _ => []
  end.

(** What may follow a printed expression. *)
Definition after_expr (l : text) : Prop :=
  match l with c :: _ => ident_char c = false ∧ Ascii.eqb c "."%char = false | [] => True end.

Lemma after_expr_run l : after_expr l → ends_run ident_char l ∧ ends_run number_char l.
Proof.
  destruct l as [|c l]; [done|]. intros [Hi Hd]. split; [done|]. unfold ends_run, number_char. rewrite Hd.
  unfold ident_char, isalnum in Hi. by destruct (isdigit c), (isalpha c).
Qed.

Lemma name_word_spec v : name_word v = true →
  is_word v = true ∧ ident_like (type (word_token v)) = true ∧ name [word_token v] "" v.
Proof.
  unfold name_word. intros [Hw Hi]%andb_true_iff. split; [done|]. split; [done|]. by constructor.
Qed.

Lemma to_string_token z : valid_token (mkToken NUMBER (to_string z)) ∧
  (negative (mkToken NUMBER (to_string z)) = true → z < 0).
Proof.
  unfold valid_token, negative. cbn [type value]. unfold to_string. rewrite chars_str.
  assert (∀ n, 0 <= n → unsigned_number (unsigned_digits n) = true ∧
    match unsigned_digits n with c :: _ => Ascii.eqb c "-"%char | [] => false end = false) as H.
  { intros n Hn. destruct (unsigned_digits_spec n Hn) as (Hd & _ & Hne).
    destruct (unsigned_digits n) as [|c l]; [done|]. cbn [forallb] in Hd. apply andb_true_iff in Hd as [Hc Hl].
    destruct (digit_not_sign c Hc) as (_ & Hm & _). split; [|done]. simpl. rewrite Hc. simpl.
    clear -Hl. induction l as [|d l IH]; [done|]. cbn [forallb] in Hl |- *. apply andb_true_iff in Hl as [Hd Hl].
    unfold number_char at 1. by rewrite Hd, IH. }
  destruct (Z.ltb_spec z 0) as [Hz|Hz].
  - split; [|done]. simpl. by apply H; lia.
  - destruct (H z Hz) as [Hu Hm]. destruct (unsigned_digits z) as [|c l]; [done|]. by rewrite Hm.
Qed.

Lemma lexes_arith e : printable e → ∀ back rest ts,
  from_option is_operand false back = false → after_expr rest → lexes_any rest ts →
  lexes back (chars (unparse_arith e) ++ rest) (arith_tokens e ++ ts).
Proof.
  induction e as [al col|n|f n|op l IHl r IHr|]; intros Hp back rest ts Hback Hrest Hts; cbn [printable] in Hp; try done.
  - destruct (after_expr_run rest Hrest) as [Hi _]. destruct Hp as [Hal (Hw & Hk & _)%name_word_spec].
    cbn [unparse_arith arith_tokens]. destruct (String.eqb_spec al "") as [->|Hne].
    + apply lexes_word; [done|done|apply Hts].
    + destruct Hal as [->|(Hwa & _)%name_word_spec]; [done|]. rewrite !chars_append, <- !app_assoc.
      apply lexes_word; [done|done|]. apply lexes_op; [by_op|].
      apply lexes_word; [done|done|apply Hts].
  - destruct (after_expr_run rest Hrest) as [_ Hn]. destruct (to_string_token n) as [Hv _].
    apply lexes_number; [done|done|done|apply Hts].
  - destruct Hp as [Hl Hr]. cbn [unparse_arith arith_tokens]. rewrite !chars_append, <- !(@app_assoc char).
    cbn [app]. rewrite <- (@app_assoc Token). apply lexes_op; [by_op|]. apply IHl; [done|done|done|].
    intros b. apply lexes_blank.
    assert (lexes (Some (op_token op)) (chars " " ++ chars (unparse_arith r) ++ chars ")" ++ rest)
              (arith_tokens r ++ rparen :: ts)) as H.
    { apply lexes_blank, IHr; [done|by destruct op|done|]. intros b'. apply lexes_op; [by_op|apply Hts]. }
    rewrite <- app_comm_cons, <- (@app_assoc Token). destruct op; [|apply lexes_minus, H|..]; (apply lexes_op; [by_op|exact H]).
Qed.

Lemma arith_primary e : printable e → primary (arith_tokens e) e.
Proof.
  induction e as [al col|n|f n|op l IHl r IHr|]; cbn [printable arith_tokens]; try done.
  - intros [Hal (Hw & Hk & Hn)%name_word_spec]. apply primary_column.
    destruct (String.eqb_spec al "") as [->|Hne]; [done|]. destruct Hal as [->|(_ & Hka & _)%name_word_spec]; [done|].
    by constructor.
  - intros Hn. apply primary_integer; [apply no_dot_to_string|by apply stoll_to_string].
  - intros [Hl Hr]. assert (term (arith_tokens l) l ∧ primary (arith_tokens r) r) as [Htl Hpr].
    { split; [by apply term_primary, IHl|by apply IHr]. }
    replace (arith_tokens l ++ op_token op :: arith_tokens r ++ [rparen])
      with ((arith_tokens l ++ op_token op :: arith_tokens r) ++ [rparen]) by (by rewrite <- app_assoc).
    apply primary_paren. destruct op.
    + apply sum_chain; [by apply sum_term|done|by apply term_primary].
    + apply sum_chain; [by apply sum_term|done|by apply term_primary].
    + by apply sum_term, term_chain.
    + by apply sum_term, term_chain.
Qed.

Lemma arith_sum e : printable e → sum (arith_tokens e) e.
Proof. intros He. by apply sum_term, term_primary, arith_primary. Qed.

(** ** The rewritten select list *)

Definition simple_agg (f : AggFunc) : bool :=
  match f with
  | Ast.SUM | Ast.AVG | Ast.COUNT | Ast.MIN | Ast.MAX | Ast.STDDEV | Ast.VARIANCE | Ast.MEDIAN => true
  | _ => false
  end.

(** The printer drops the alias of a lone column. *)
Definition unaliased (a : ArithExpr) : Prop := match a with AColumn al _ => al = ""%string | _ => True end.

(** Aggregates that are printed faithfully. *)
Inductive scalar_item : SelectExpr → Prop :=
  | scalar_agg f a al : simple_agg f = true → printable a → unaliased a →
      scalar_item (set_alias al (set_operand a (set_agg f default_item)))
  | scalar_count al : scalar_item (set_alias al (set_name (EmptyString, "*"%string) (set_agg Ast.COUNT default_item)))
  | scalar_vwap al price vol : name_word price = true → name_word vol = true →
      scalar_item (set_alias al (set_arg2 vol (set_name (EmptyString, price) (set_agg Ast.VWAP default_item))))
  | scalar_xbar al col n : name_word col = true → INT64_MIN <= n <= INT64_MAX →
      scalar_item (set_alias al (set_xbar n (set_name (EmptyString, col) (set_agg Ast.XBAR default_item)))).

(** What the nodes are asked for in place of an item. *)
Definition rewritten (e : SelectExpr) : list SelectExpr :=
  match agg e with
  | Ast.AVG => [set_alias "" (set_agg Ast.SUM e); set_alias "" (set_agg Ast.COUNT e)]
  | Ast.VWAP =>
      [set_operand (ABinary MUL (AColumn "" (column e)) (AColumn "" (agg_arg2 e))) (set_agg Ast.SUM default_item);
       set_operand (AColumn "" (agg_arg2 e)) (set_agg Ast.SUM default_item)]
  | _ => [set_alias "" e]
  end.

(** The texts and the aggregates [rewrite_step] appends for an item. *)
Definition item_texts (e : SelectExpr) : list string :=
  match agg e with
  | Ast.AVG => ["sum(" +:+ unparse_expr_inner e +:+ ")"; "count(" +:+ unparse_expr_inner e +:+ ")"]
  | Ast.VWAP => ["sum(" +:+ column e +:+ " * " +:+ agg_arg2 e +:+ ")"; "sum(" +:+ agg_arg2 e +:+ ")"]
  | _ => [unparse_select_expr e]
  end%string.
Definition item_aggs (e : SelectExpr) : list AggFunc :=
  match agg e with Ast.AVG => [Ast.SUM; Ast.COUNT] | Ast.VWAP => [Ast.SUM; Ast.SUM] | f => [f] end.

(** The columns of the rewritten list before item [i]. *)
Definition rewritten_index (cols : list SelectExpr) (i : nat) : nat := length (take i cols ≫= item_texts).

Definition avg_entry (cols : list SelectExpr) (i : nat) (e : SelectExpr) : option AvgColInfo :=
  match agg e with
  | Ast.AVG => Some (mkAvgCol i (rewritten_index cols i) (rewritten_index cols i + 1) false)
  | Ast.VWAP => Some (mkAvgCol i (rewritten_index cols i) (rewritten_index cols i + 1) true)
  | _ => None
  end.

Lemma bind_snoc {A B} (f : A → list B) l x : (l ++ [x]) ≫= f = (l ≫= f) ++ f x.
Proof. rewrite bind_app. simpl. by rewrite app_nil_r. Qed.

Lemma rewrite_columns_snoc cols e :
  rewrite_columns (cols ++ [e]) = rewrite_step (rewrite_columns cols) (length cols, e).
Proof.
  unfold rewrite_columns. rewrite imap_app, foldl_app. cbn [imap foldl compose]. by rewrite Nat.add_0_r.
Qed.

Lemma rewrite_step_spec rw i e :
  rw_exprs (rewrite_step rw (i, e)) = rw_exprs rw ++ item_texts e ∧
  rw_aggs (rewrite_step rw (i, e)) = rw_aggs rw ++ item_aggs e ∧
  rw_names (rewrite_step rw (i, e)) = rw_names rw ++ [if String.eqb (alias e) "" then column e else alias e] ∧
  rw_index (rewrite_step rw (i, e)) =
    rw_index rw ++ [if needs_rewrite e then -1 else Z.of_nat (length (rw_exprs rw))] ∧
  rw_avg_cols (rewrite_step rw (i, e)) =
    rw_avg_cols rw ++ match agg e with
                      | Ast.AVG => [mkAvgCol i (length (rw_exprs rw)) (length (rw_exprs rw) + 1) false]
                      | Ast.VWAP => [mkAvgCol i (length (rw_exprs rw)) (length (rw_exprs rw) + 1) true]
                      | _ => []
                      end.
Proof.
  unfold rewrite_step, item_texts, item_aggs, needs_rewrite. destruct (agg e); simpl; by rewrite ?app_nil_r.
Qed.

Lemma rewrite_columns_exprs cols :
  rw_exprs (rewrite_columns cols) = cols ≫= item_texts ∧ rw_aggs (rewrite_columns cols) = cols ≫= item_aggs.
Proof.
  induction cols as [|e cols [IH1 IH2]] using rev_ind; [done|]. rewrite rewrite_columns_snoc, !bind_snoc.
  destruct (rewrite_step_spec (rewrite_columns cols) (length cols) e) as (-> & -> & _). by rewrite IH1, IH2.
Qed.

Lemma rewritten_index_snoc cols e i : (i <= length cols)%nat → rewritten_index (cols ++ [e]) i = rewritten_index cols i.
Proof. intros Hi. unfold rewritten_index. by rewrite take_app_le. Qed.

Lemma rewritten_index_all cols : rewritten_index cols (length cols) = length (rw_exprs (rewrite_columns cols)).
Proof. unfold rewritten_index. rewrite firstn_all. by rewrite (proj1 (rewrite_columns_exprs cols)). Qed.

Lemma rewrite_columns_index cols :
  rw_index (rewrite_columns cols) =
    imap (λ i e, if needs_rewrite e then -1 else Z.of_nat (rewritten_index cols i)) cols ∧
  rw_avg_cols (rewrite_columns cols) = omap id (imap (avg_entry cols) cols) ∧
  length (rw_names (rewrite_columns cols)) = length cols.
Proof.
  induction cols as [|e cols (IH1 & IH2 & IH3)] using rev_ind; [done|].
  rewrite rewrite_columns_snoc, !imap_app.
  destruct (rewrite_step_spec (rewrite_columns cols) (length cols) e) as (_ & _ & -> & -> & ->).
  rewrite IH1, IH2. cbn [imap]. rewrite Nat.add_0_r.
  assert (∀ A (f g : nat → SelectExpr → A), (∀ i e, (i < length cols)%nat → f i e = g i e) → imap f cols = imap g cols) as Hext.
  { intros A f g Hfg. apply imap_ext. intros i x Hx%lookup_lt_Some. by apply Hfg. }
  split_and!.
  - f_equal; [apply Hext; intros i x Hi; by rewrite rewritten_index_snoc by lia|].
    rewrite rewritten_index_snoc, rewritten_index_all by done. done.
  - rewrite omap_app. f_equal.
    + f_equal. apply Hext. intros i x Hi. unfold avg_entry. by rewrite rewritten_index_snoc by lia.
    + unfold avg_entry. simpl. rewrite rewritten_index_snoc, rewritten_index_all by done. by destruct (agg e).
  - rewrite !length_app, IH3. done.
Qed.

(** [s] tokenizes to [ts] wherever it stands. *)
Definition reads (s : string) (its : list Token) : Prop :=
  ∀ back rest ts, lexes_any rest ts → lexes back (chars s ++ rest) (its ++ ts).

Lemma reads_open name k s its :
  is_word name = true → keyword_type (upper_word name) = k →
  (∀ rest ts, lexes_any rest ts → lexes (Some lparen) (chars s ++ rest) (its ++ ts)) →
  reads (name +:+ "(" +:+ s) (mkToken k name :: lparen :: its).
Proof.
  intros Hw <- Hs back rest ts Hts. rewrite !chars_append, <- !(@app_assoc char). cbn [app].
  apply lexes_word; [done|done|]. apply lexes_op; [by_op|]. by apply Hs.
Qed.

Lemma reads_call name k f a :
  is_word name = true → keyword_type (upper_word name) = k → aggregate_of k = Some f → printable a →
  ∃ its, item its (set_operand a (set_agg f default_item)) ∧ reads (name +:+ "(" +:+ unparse_arith a +:+ ")") its.
Proof.
  intros Hw Hk Hf Ha. exists (mkToken k name :: lparen :: arith_tokens a ++ [rparen]). split.
  - by apply item_bare, item_aggregate, arith_sum.
  - apply reads_open; [done|done|]. intros rest ts Hts. rewrite chars_append, <- !app_assoc.
    apply lexes_arith; [done|done|done|]. intros b. apply lexes_op; [by_op|apply Hts].
Qed.

Lemma name_word_not_star c : name_word c = true → String.eqb c "*" = false.
Proof. intros Hc. apply String.eqb_neq. intros ->. by vm_compute in Hc. Qed.

Lemma operand_text f a al : unaliased a → printable a →
  unparse_expr_inner (set_alias al (set_operand a (set_agg f default_item))) = unparse_arith a.
Proof.
  destruct a as [t c|n|d n|op l r|]; try done. intros ->. done.
Qed.

Lemma set_alias_bare f a al :
  set_alias "" (set_alias al (set_operand a (set_agg f default_item))) = set_operand a (set_agg f default_item).
Proof. by destruct a. Qed.

Definition item_reads (e : SelectExpr) : Prop :=
  ∃ tss, Forall2 item tss (rewritten e) ∧ Forall2 reads (item_texts e) tss.

Lemma one_text e e' its :
  rewritten e = [e'] → item its e' → reads (unparse_select_expr e) its → item_texts e = [unparse_select_expr e] → item_reads e.
Proof. intros Hr Hi Hs Ht. exists [its]. rewrite Hr, Ht. split; (apply Forall2_cons; split; [done|constructor]). Qed.

(** What the definitions give for an item whose aggregate is known. *)
Ltac by_agg H :=
  try done; try (unfold rewritten; by rewrite H); try (unfold unparse_select_expr; by rewrite H);
  try (unfold item_texts; by rewrite H).

Lemma agg_reads f a al : simple_agg f = true → printable a → unaliased a →
  item_reads (set_alias al (set_operand a (set_agg f default_item))).
Proof.
  intros Hf Hp Hu. set (e := set_alias al (set_operand a (set_agg f default_item))).
  assert (agg e = f) as Hagg by by destruct a. assert (is_star e = false) as Hstar by by destruct a.
  assert (String.eqb (column e) "*" = false) as Hcol.
  { destruct a as [t c| | | |]; try done. apply name_word_not_star, Hp. }
  pose proof (operand_text f a al Hu Hp) as Hin. fold e in Hin.
  assert (∀ name k g, is_word name = true → keyword_type (upper_word name) = k → aggregate_of k = Some g →
    ∃ its, item its (set_operand a (set_agg g default_item)) ∧ reads (name +:+ "(" +:+ unparse_arith a +:+ ")") its) as Hcall.
  { intros name k g H1 H2 H3. by eapply reads_call. }
  assert (∀ name k, is_word name = true → keyword_type (upper_word name) = k → aggregate_of k = Some f →
    rewritten e = [set_alias "" e] → unparse_select_expr e = unparse_call name e →
    item_texts e = [unparse_select_expr e] → item_reads e) as Hone.
  { intros name k H1 H2 H3 Hr Hs Ht. destruct (Hcall name k f H1 H2 H3) as (its & Hi & Hread).
    apply (one_text e (set_alias "" e) its Hr); [unfold e; by rewrite set_alias_bare| |done].
    rewrite Hs. unfold unparse_call. by rewrite Hin. }
  destruct f; try done.
  - apply (Hone "count" COUNT); by_agg Hagg. unfold unparse_select_expr. by rewrite Hagg, Hstar, Hcol.
  - apply (Hone "sum" SUM); by_agg Hagg.
  - destruct (Hcall "sum" SUM Ast.SUM) as (its & Hi & Hs); [done..|].
    destruct (Hcall "count" COUNT Ast.COUNT) as (its' & Hi' & Hs'); [done..|].
    exists [its; its']. unfold rewritten, item_texts. rewrite Hagg, Hin. split.
    + apply Forall2_cons; split; [by destruct a|]. apply Forall2_cons; split; [by destruct a|done].
    + apply Forall2_cons; split; [done|]. by apply Forall2_cons.
  - apply (Hone "min" MIN); by_agg Hagg.
  - apply (Hone "max" MAX); by_agg Hagg.
  - apply (Hone "stddev" STDDEV); by_agg Hagg.
  - apply (Hone "variance" VARIANCE); by_agg Hagg.
  - apply (Hone "median" MEDIAN); by_agg Hagg.
Qed.

Lemma count_star_reads al :
  item_reads (set_alias al (set_name (EmptyString, "*"%string) (set_agg Ast.COUNT default_item))).
Proof.
  eapply (one_text _ _ [mkToken COUNT "count"; lparen; mkToken STAR "*"; rparen]); [done| | |done].
  - apply item_bare, item_count.
  - apply (reads_open "count" COUNT "*)" [mkToken STAR "*"; rparen]); [done|done|]. intros rest ts Hts.
    apply (lexes_op STAR "*"); [by_op|]. apply (lexes_op RPAREN ")"); [by_op|apply Hts].
Qed.

Lemma product_reads p v : name_word p = true → name_word v = true →
  ∃ its, item its (set_operand (ABinary MUL (AColumn "" p) (AColumn "" v)) (set_agg Ast.SUM default_item)) ∧
    reads ("sum(" +:+ p +:+ " * " +:+ v +:+ ")") its.
Proof.
  intros Hp Hv. destruct (name_word_spec p Hp) as (Hwp & _ & Hnp). destruct (name_word_spec v Hv) as (Hwv & _ & Hnv).
  exists (mkToken SUM "sum" :: lparen :: [word_token p; mkToken STAR "*"; word_token v] ++ [rparen]). split.
  - apply item_bare, (item_aggregate SUM "sum" Ast.SUM); [done|].
    apply sum_term, (term_chain MUL (mkToken STAR "*") [_] [_]); [|done|by apply primary_column].
    by apply term_primary, primary_column.
  - apply (reads_open "sum" SUM (p +:+ " * " +:+ v +:+ ")")); [done|done|]. intros rest ts Hts.
    rewrite !chars_append, <- !(@app_assoc char). apply lexes_word; [done|done|].
    apply (lexes_blank _ (chars "*" ++ chars " " ++ chars v ++ chars ")" ++ rest)), lexes_op; [by_op|].
    apply lexes_blank, lexes_word; [done|done|]. apply lexes_op; [by_op|apply Hts].
Qed.

Lemma vwap_reads al p v : name_word p = true → name_word v = true →
  item_reads (set_alias al (set_arg2 v (set_name (EmptyString, p) (set_agg Ast.VWAP default_item)))).
Proof.
  intros Hp Hv. destruct (product_reads p v Hp Hv) as (its & Hi & Hs).
  destruct (reads_call "sum" SUM Ast.SUM (AColumn "" v)) as (its' & Hi' & Hs'); [done..|by split; [left|]|].
  exists [its; its']. split; (apply Forall2_cons; split; [done|]; apply Forall2_cons; split; done).
Qed.

Lemma xbar_reads al c n : name_word c = true → INT64_MIN <= n <= INT64_MAX →
  item_reads (set_alias al (set_xbar n (set_name (EmptyString, c) (set_agg Ast.XBAR default_item)))).
Proof.
  intros Hc Hn. destruct (name_word_spec c Hc) as (Hw & _ & Hname). destruct (to_string_token n) as [Hv _].
  eapply (one_text _ _ (mkToken XBAR "xbar" :: lparen :: [word_token c] ++ comma :: [mkToken NUMBER (to_string n)] ++ [rparen]));
    [done| | |done].
  - apply item_bare, item_xbar; [exact Hname|constructor; by apply stoll_to_string].
  - apply (reads_open "xbar" XBAR (c +:+ ", " +:+ to_string n +:+ ")")); [done|done|]. intros rest ts Hts.
    rewrite !chars_append, <- !(@app_assoc char). apply lexes_word; [done|done|].
    apply (lexes_op COMMA "," _ (chars " " ++ chars (to_string n) ++ chars ")" ++ rest)); [by_op|].
    apply lexes_blank, lexes_number; [done|done|done|]. apply (lexes_op RPAREN ")"); [by_op|apply Hts].
Qed.

Lemma scalar_item_reads e : scalar_item e → item_reads e.
Proof.
  intros [f a al Hf Hp Hu|al|al p v Hp Hv|al c n Hc Hn].
  - by apply agg_reads.
  - apply count_star_reads.
  - by apply vwap_reads.
  - by apply xbar_reads.
Qed.

(** ** The whole text *)

Lemma items_read es : Forall scalar_item es →
  ∃ tss, Forall2 item tss (es ≫= rewritten) ∧ Forall2 reads (es ≫= item_texts) tss.
Proof.
  induction 1 as [|e es He Hes (tss & Hi & Hr)]; [by exists []|].
  destruct (scalar_item_reads e He) as (tss' & Hi' & Hr'). exists (tss' ++ tss).
  split; by apply Forall2_app.
Qed.

Lemma lexes_more texts tss rest ts :
  Forall2 reads texts tss → lexes_any rest ts →
  lexes_any (chars (concat_strings ((λ e, ", " +:+ e) <$> texts)) ++ rest) (more_commas tss ++ ts).
Proof.
  intros Hall Hrest. induction Hall as [|s its texts tss Hs Hall IH]; [exact Hrest|].
  intros back. change (more_commas (its :: tss)) with ((comma :: its) ++ more_commas tss).
  cbn [concat_strings fmap list_fmap foldr]. rewrite !chars_append, <- !(@app_assoc char), <- (@app_assoc Token).
  apply (lexes_op COMMA "," _ (chars " " ++ chars s ++ _)); [by_op|]. apply lexes_blank. by apply Hs.
Qed.

Lemma lexes_select texts tss rest ts : texts ≠ [] →
  Forall2 reads texts tss → lexes_any rest ts →
  lexes_any (chars (select_text texts) ++ rest) (commas tss ++ ts).
Proof.
  intros Hne [|s its texts' tss' Hs Hall] Hrest back; [done|]. simpl. rewrite chars_append, <- !app_assoc.
  apply Hs. by apply lexes_more.
Qed.

Lemma clauses_head tail mk : clauses tail mk → ∃ w tail', tail = mkToken FROM w :: tail'.
Proof. intros [from table alias wts wh gts gr hts hv ots ord lts lim offs off [] ]; eauto. Qed.

Lemma lexes_tail tail mk : clauses tail mk → valid_from None tail → lexes_any (print tail) tail.
Proof.
  intros Hc Hv back. apply lexes_print. destruct (clauses_head tail mk Hc) as (w & tail' & ->).
  destruct Hv as (Ht & _ & Hts). by split.
Qed.

Lemma bind_not_nil {A B} (f : A → list B) l : (∀ x, f x ≠ []) → l ≠ [] → l ≫= f ≠ [].
Proof. intros Hf Hl. destruct l as [|x l]; [done|]. simpl. specialize (Hf x). by destruct (f x). Qed.

Lemma item_texts_some e : item_texts e ≠ [].
Proof. unfold item_texts. by destruct (agg e). Qed.

(** The text sent to the nodes tokenizes to a derivation of the rewritten query. *)
Lemma rewritten_tokens es tail mk sql : Forall scalar_item es → es ≠ [] → clauses tail mk → valid_from None tail →
  extract_from_suffix sql = str (print tail) →
  ∃ ts, select ts (mk false (es ≫= rewritten)) ∧
    tokenize (rewritten_sql (build_avg_rewrite es sql)) = Tokens (ts ++ [end_token]).
Proof.
  intros Hes Hne Hc Hv Hsuf. destruct (items_read es Hes) as (tss & Hi & Hr).
  exists (mkToken SELECT "SELECT" :: [] ++ commas tss ++ tail). split.
  - apply select_intro; [constructor| |done]. apply list_items; [|done].
    intros ->. apply Forall2_nil_inv_r in Hr. by apply (bind_not_nil item_texts es item_texts_some) in Hr.
  - apply lexes_tokenize. unfold build_avg_rewrite. cbn [rewritten_sql].
    rewrite (proj1 (rewrite_columns_exprs es)), Hsuf, !chars_append, chars_str.
    apply (lexes_word "SELECT" None (chars " " ++ _)); [done|done|]. apply lexes_blank, lexes_select; [|done|].
    + apply bind_not_nil; [apply item_texts_some|done].
    + by eapply lexes_tail.
Qed.

(** C8. The text the coordinator writes for the nodes means what it should, for
    the statements it prints faithfully. The select list, without DISTINCT, is
    one or more of: the aggregates SUM, AVG, COUNT, MIN, MAX, STDDEV, VARIANCE
    and MEDIAN over a column or over integer arithmetic of columns; COUNT of
    everything; VWAP of two columns; XBAR of a column. The clauses from FROM on
    are any of the grammar whose printed text is what [extract_from_suffix] cuts
    out of the query. Then the nodes parse the rewritten text to the original
    statement with SUM and COUNT in place of every AVG, SUM of the products and
    SUM of the volumes in place of every VWAP, and everything else, conditions
    included, as it was, except that aliases are gone. Float literals, which the
    printer truncates ([rewrite_truncates_literals]), functions and plain
    columns are outside the claim. *)
Theorem rewrite_parses es tail mk sql :
  Forall scalar_item es → es ≠ [] → clauses tail mk → valid_from None tail →
  extract_from_suffix sql = str (print tail) →
  parse (rewritten_sql (build_avg_rewrite es sql)) = Parsed (mk false (es ≫= rewritten)) [end_token].
Proof.
  intros Hes Hne Hc Hv Hsuf. destruct (rewritten_tokens es tail mk sql Hes Hne Hc Hv Hsuf) as (ts & Hts & Htok).
  unfold parse, parse_statement. rewrite Htok. rewrite (parse_tokens_select ts _ _ Hts).
  rewrite (parse_query_ok ts _ _ Hts) by by vm_compute. done.
Qed.

Definition avg_item (c : string) : SelectExpr := set_alias "" (set_operand (AColumn "" c) (set_agg Ast.AVG default_item)).
Definition vwap_item : SelectExpr :=
  set_alias "vw" (set_arg2 "volume" (set_name (EmptyString, "price"%string) (set_agg Ast.VWAP default_item))).

Lemma rewrite_parses_witness :
  let sql := "select avg(price), vwap(price, volume) AS vw FROM trades"%string in
  extract_from_suffix sql = str (print (tiny_tail "trades")) ∧
  parse sql = Parsed (tiny_make "trades" false [avg_item "price"; vwap_item]) [end_token] ∧
  parse (rewritten_sql (build_avg_rewrite [avg_item "price"; vwap_item] sql)) =
    Parsed (tiny_make "trades" false ([avg_item "price"; vwap_item] ≫= rewritten)) [end_token].
Proof.
  split; [by vm_compute|]. split; [by vm_compute|]. apply (rewrite_parses _ (tiny_tail "trades")).
  - apply Forall_cons; split; [by apply (scalar_agg Ast.AVG (AColumn "" "price")); [|split; [left|]|]|].
    apply Forall_cons; split; [by apply scalar_vwap|done].
  - done.
  - apply tiny_clauses.
  - unfold tiny_tail. cbn [app]. valid_tokens.
  - by vm_compute.
Defined.

(** ** Averages *)

Lemma elem_of_entries {A B} (f : nat → A → option B) l b :
  b ∈ omap id (imap f l) ↔ ∃ j a, l !! j = Some a ∧ f j a = Some b.
Proof.
  rewrite list_elem_of_omap. split.
  - intros (o & Ho & Hb). apply list_elem_of_lookup in Ho as [j Hj]. rewrite list_lookup_imap in Hj.
    destruct (l !! j) as [a|] eqn:Ha; simplify_eq/=. by exists j, a.
  - intros (j & a & Ha & Hb). exists (Some b). split; [|done]. apply list_elem_of_lookup. exists j.
    by rewrite list_lookup_imap, Ha, <- Hb.
Qed.

(** Where the items of a flattened list stand. *)
Lemma bind_lookup {A B C} (g : A → list B) (h : A → list C) l i x m :
  (∀ x, length (g x) = length (h x)) → l !! i = Some x → (m < length (g x))%nat →
  (l ≫= g) !! (length (take i l ≫= h) + m)%nat = g x !! m.
Proof.
  intros Hgh Hi Hm. revert i Hi. induction l as [|y l IH]; intros [|i] Hi; try done; simplify_eq/=.
  - by rewrite lookup_app_l.
  - rewrite length_app, <- (Hgh y), lookup_app_r by lia.
    replace (length (g y) + length (take i l ≫= h) + m - length (g y))%nat with (length (take i l ≫= h) + m)%nat by lia.
    by apply IH.
Qed.

Lemma length_bind_eq {A B C} (g : A → list B) (h : A → list C) l :
  (∀ x, length (g x) = length (h x)) → length (l ≫= g) = length (l ≫= h).
Proof. intros H. induction l as [|x l IH]; [done|]. simpl. rewrite !length_app, H. f_equal. exact IH. Qed.

Lemma item_aggs_texts e : length (item_aggs e) = length (item_texts e).
Proof. unfold item_aggs, item_texts. by destruct (agg e). Qed.

Section Plan.
Context (cols : list SelectExpr) (sql : string).
Let plan := build_avg_rewrite cols sql.

Lemma plan_agg i e m : cols !! i = Some e → (m < length (item_aggs e))%nat →
  agg_at (col_aggs plan) (rewritten_index cols i + m) = default NONE (item_aggs e !! m) ∧
  (rewritten_index cols i + m < length (col_aggs plan))%nat.
Proof.
  intros Hi Hm. unfold agg_at, plan, build_avg_rewrite. cbn [col_aggs].
  rewrite (proj2 (rewrite_columns_exprs cols)). unfold rewritten_index.
  pose proof (bind_lookup item_aggs item_texts cols i e m item_aggs_texts Hi Hm) as Hl.
  split; [by rewrite Hl|]. apply lookup_lt_is_Some. rewrite Hl. by apply lookup_lt_is_Some.
Qed.

Lemma reconstruct_avg_cell src i e ai : cols !! i = Some e → avg_entry cols i e = Some ai →
  reconstruct_cell plan src i = rounded_quotient (default 0 (src !! sum_idx ai)) (default 1 (src !! cnt_idx ai)).
Proof.
  intros Hi Ha. unfold reconstruct_cell, plan, build_avg_rewrite. cbn [avg_cols].
  destruct (rewrite_columns_index cols) as (_ & -> & _).
  assert (∀ j e ai, avg_entry cols j e = Some ai → orig_idx ai = j) as Horig.
  { intros j e' ai' Hj. unfold avg_entry in Hj. by destruct (agg e'); simplify_eq/=. }
  destruct (list_find _ _) as [[j ai']|] eqn:Hf.
  - apply list_find_Some in Hf as (Hj & Ho & _). apply list_elem_of_lookup_2, elem_of_entries in Hj as (j' & e' & He' & Ha').
    rewrite (Horig _ _ _ Ha') in Ho. subst j'. by simplify_eq.
  - apply list_find_None in Hf. rewrite Forall_forall in Hf. destruct (Hf ai); [|by eapply Horig].
    apply elem_of_entries. eauto.
Qed.

Lemma reconstruct_other_cell src i e : cols !! i = Some e → needs_rewrite e = false →
  reconstruct_cell plan src i = default 0 (src !! rewritten_index cols i).
Proof.
  intros Hi Hn. unfold reconstruct_cell, plan, build_avg_rewrite. cbn [avg_cols orig_to_rewritten].
  destruct (rewrite_columns_index cols) as (Hidx & -> & _).
  destruct (list_find _ _) as [[j ai']|] eqn:Hf.
  - apply list_find_Some in Hf as (Hj & Ho & _). apply list_elem_of_lookup_2, elem_of_entries in Hj as (j' & e' & He' & Ha').
    unfold avg_entry in Ha'. unfold needs_rewrite in Hn. by destruct (agg e') eqn:?; simplify_eq/=; destruct (agg e).
  - rewrite Hidx, list_lookup_imap, Hi. simpl. rewrite Hn. destruct (Z.leb_spec 0 (Z.of_nat (rewritten_index cols i))); [|lia].
    by rewrite Nat2Z.id.
Qed.
End Plan.

Lemma zsum_concat parts : zsum (zsum <$> parts) = zsum (mjoin parts).
Proof. induction parts as [|p parts IH]; [done|]. simpl. by rewrite zsum_app, <- IH. Qed.

Lemma length_concat parts : zsum ((λ p : list Z, Z.of_nat (length p)) <$> parts) = Z.of_nat (length (mjoin parts)).
Proof. induction parts as [|p parts IH]; [done|]. rewrite fmap_cons. cbn [foldr]. rewrite IH. simpl. rewrite length_app. lia. Qed.

(** The quotient is the nearest integer. *)
Lemma rounded_quotient_nearest s c : 0 < c → Z.abs s + c / 2 <= INT64_MAX →
  2 * Z.abs (rounded_quotient s c * c - s) <= c.
Proof.
  intros Hc Hs. unfold rounded_quotient. destruct (Z.eqb_spec c 0); [lia|].
  assert (Z.quot c 2 = c / 2) as -> by (apply Z.quot_div_nonneg; lia).
  pose proof (Z.mul_div_le c 2 ltac:(lia)). pose proof (Z.mul_succ_div_gt c 2 ltac:(lia)).
  assert (0 <= c / 2) as Hhalf by (apply Z.div_pos; lia).
  assert (∀ t, 0 <= t → t <= INT64_MAX → i64 t = t ∧ i64 (- t) = - t) as Hi64.
  { intros t Ht Hmax. unfold INT64_MAX in Hmax. split; apply i64_small; unfold INT64_MIN, INT64_MAX; lia. }
  destruct (Z.leb_spec 0 s).
  - destruct (Hi64 (s + c / 2)) as [-> _]; [lia|lia|]. rewrite Z.quot_div_nonneg by lia.
    pose proof (Z.mul_div_le (s + c / 2) c Hc). pose proof (Z.mul_succ_div_gt (s + c / 2) c Hc).
    remember ((s + c / 2) / c) as q. lia.
  - destruct (Hi64 (c / 2 - s)) as [_ Hi]; [lia|lia|].
    replace (s - c / 2) with (- (c / 2 - s)) by lia. rewrite Hi, Z.quot_opp_l by lia.
    rewrite Z.quot_div_nonneg by lia.
    pose proof (Z.mul_div_le (c / 2 - s) c Hc). pose proof (Z.mul_succ_div_gt (c / 2 - s) c Hc).
    remember ((c / 2 - s) / c) as q. lia.
Qed.

(** The merged row of the rewritten query, before and after the reconstruction. *)
Lemma reconstruct_merged cols sql results tmpl :
  let plan := build_avg_rewrite cols sql in
  let srcs := contrib results in
  find contributes results = Some tmpl → length (column_names tmpl) = length (col_aggs plan) →
  Forall (λ src, length src = length (col_aggs plan)) srcs →
  (∀ ci, (ci < length (col_aggs plan))%nat → kind_of_agg (agg_at (col_aggs plan) ci) = KSum → sums_fit (column_of srcs ci)) →
  ∃ src,
    rows (reconstruct_avg_result (merge_scalar_with_sql_aggs results (col_aggs plan)) plan) = [reconstruct_row plan src] ∧
    length (reconstruct_row plan src) = length cols ∧
    (∀ j, (j < length cols)%nat → reconstruct_row plan src !! j = Some (reconstruct_cell plan src j)) ∧
    (∀ j e m, cols !! j = Some e → (m < length (item_aggs e))%nat →
      src !! (rewritten_index cols j + m)%nat =
        Some (merged_cell avg_rounded (kind_of_agg (default NONE (item_aggs e !! m)))
                (column_of srcs (rewritten_index cols j + m)))).
Proof.
  intros plan srcs Hf Hn Hall Hfit.
  destruct (merge_scalar_sql_spec results (col_aggs plan) tmpl Hf) as [Hm _]; [by rewrite Hn|].
  rewrite Hn in Hm. destruct (Hm Hfit) as [Herr Hrows]. fold srcs in Hrows.
  assert (length (orig_col_names plan) = length cols) as Hlen by apply rewrite_columns_index.
  eexists. split_and!.
  - unfold reconstruct_avg_result, ok. by rewrite Herr, Hrows.
  - unfold reconstruct_row. by rewrite length_fmap, length_seq.
  - intros j Hj. unfold reconstruct_row. by rewrite Hlen, list_lookup_fmap, lookup_seq_lt by done.
  - intros j e m Hj Hlt. destruct (plan_agg cols sql j e m Hj Hlt) as [Ha Hl]. fold plan in Ha, Hl.
    by rewrite list_lookup_fmap, lookup_seq_lt, <- Ha by done.
Qed.

(** An average over several nodes is the average of all their rows. When the
    nodes' answers to the rewritten query give, at the places of the sum and of
    the count of AVG item [i], the sum and the number of the values of each part,
    and no partial sum leaves [int64_t], the merged and reconstructed row has at
    [i] the integer nearest to the average of the concatenated parts, and at
    every item that was not rewritten the merge of that item's own column. *)
Theorem distributed_avg_exact cols sql results tmpl i e parts :
  let plan := build_avg_rewrite cols sql in
  let srcs := contrib results in
  let k := rewritten_index cols i in
  cols !! i = Some e → agg e = Ast.AVG →
  find contributes results = Some tmpl → length (column_names tmpl) = length (col_aggs plan) →
  Forall (λ src, length src = length (col_aggs plan)) srcs →
  (∀ ci, (ci < length (col_aggs plan))%nat → kind_of_agg (agg_at (col_aggs plan) ci) = KSum → sums_fit (column_of srcs ci)) →
  column_of srcs k = zsum <$> parts → column_of srcs (k + 1) = (λ p, Z.of_nat (length p)) <$> parts →
  let values := mjoin parts in
  (0 < length values)%nat → Z.abs (zsum values) + Z.of_nat (length values) / 2 <= INT64_MAX →
  ∃ row q, rows (reconstruct_avg_result (merge_scalar_with_sql_aggs results (col_aggs plan)) plan) = [row] ∧
    length row = length cols ∧ row !! i = Some q ∧
    2 * Z.abs (q * Z.of_nat (length values) - zsum values) <= Z.of_nat (length values) ∧
    ∀ j e', cols !! j = Some e' → needs_rewrite e' = false →
      row !! j = Some (merged_cell avg_rounded (kind_of_agg (agg e')) (column_of srcs (rewritten_index cols j))).
Proof.
  intros plan srcs k Hi Hagg Hf Hn Hall Hfit Hsum Hcnt values Hpos Hmax.
  destruct (reconstruct_merged cols sql results tmpl Hf Hn Hall Hfit) as (src & Hrows & Hlen & Hrow & Hsrc).
  fold plan in Hrows, Hlen, Hrow. exists (reconstruct_row plan src), (reconstruct_cell plan src i). split_and!; [done|done| | |].
  - apply Hrow. by eapply lookup_lt_Some.
  - pose proof (reconstruct_avg_cell cols sql src i e (mkAvgCol i k (k + 1) false) Hi) as Hc.
    unfold plan. rewrite Hc by (unfold avg_entry; by rewrite Hagg).
    pose proof (Hsrc i e 0%nat Hi) as Hs. pose proof (Hsrc i e 1%nat Hi) as Hc1. unfold item_aggs in Hs, Hc1.
    rewrite Hagg, Nat.add_0_r in Hs. rewrite Hagg in Hc1. cbn [sum_idx cnt_idx].
    unfold k. rewrite Hs, Hc1 by (simpl; lia). simpl. fold k srcs.
    rewrite Hsum, Hcnt, zsum_concat, length_concat. apply rounded_quotient_nearest; [lia|done].
  - intros j e' Hj Hr. rewrite Hrow by (by eapply lookup_lt_Some). f_equal.
    unfold plan. rewrite (reconstruct_other_cell cols sql src j e') by done.
    pose proof (Hsrc j e' 0%nat Hj) as Hs. rewrite Nat.add_0_r in Hs. unfold item_aggs, needs_rewrite in *.
    destruct (agg e') eqn:Ha; try done; rewrite Hs by (simpl; lia); done.
Qed.

Definition avg_answer (cells : list Z) : QueryResultSet :=
  mkResultSet ["price"; "price"; "price"] [INT64; INT64; INT64] [cells] [] [] None 1 "".
Definition max_item (c : string) : SelectExpr := set_alias "" (set_operand (AColumn "" c) (set_agg Ast.MAX default_item)).

(** Two nodes with the prices 2, 3, 5 and 3, 4. *)
Lemma distributed_avg_exact_witness :
  let cols := [avg_item "price"; max_item "price"] in
  let results := [avg_answer [10; 3; 5]; avg_answer [7; 2; 4]] in
  let plan := build_avg_rewrite cols "select avg(price), max(price) from trades" in
  rows (reconstruct_avg_result (merge_scalar_with_sql_aggs results (col_aggs plan)) plan) = [[3; 5]] ∧
  ∃ row q, rows (reconstruct_avg_result (merge_scalar_with_sql_aggs results (col_aggs plan)) plan) = [row] ∧
    row !! 0%nat = Some q ∧ 2 * Z.abs (q * 5 - 17) <= 5.
Proof.
  split; [by vm_compute|].
  destruct (distributed_avg_exact [avg_item "price"; max_item "price"] "select avg(price), max(price) from trades"
    [avg_answer [10; 3; 5]; avg_answer [7; 2; 4]] (avg_answer [10; 3; 5]) 0 (avg_item "price") [[2; 3; 5]; [3; 4]])
    as (row & q & Hrow & _ & Hq & Hnear & _); try reflexivity.
  - repeat constructor.
  - intros ci Hlt Hs. apply (bool_decide_unpack _).
    destruct ci as [|[|[|ci]]]; [reflexivity..|vm_compute in Hlt; lia].
  - simpl. lia.
  - vm_compute. discriminate.
  - exists row, q. split; [exact Hrow|]. split; [exact Hq|exact Hnear].
Defined.

(** ** Where an INSERT goes *)

Lemma same_symbol_some col vrows f s :
  same_symbol col (Some f) vrows = Some s ↔
  s = f ∧ Forall (λ row : list InsertValue, row !! col ≫= insert_symbol = Some f) vrows.
Proof.
  induction vrows as [|row vrows IH]; cbn [same_symbol].
  - split; [intros [= <-]; by split|by intros [-> _]].
  - rewrite Forall_cons. destruct (row !! col ≫= insert_symbol) as [s'|]; [|naive_solver].
    destruct (Z.eqb_spec f s') as [->|Hne]; [rewrite IH; naive_solver|]. split; [done|]. naive_solver.
Qed.

Lemma insert_symbol_range v s : insert_symbol v = Some s → 0 <= s < 2 ^ 32.
Proof.
  assert (∀ z s, (if (z <? 0) || (2 ^ 32 - 1 <? z) then None else Some z) = Some s → 0 <= s < 2 ^ 32) as H.
  { intros z s'. destruct (Z.ltb_spec z 0), (Z.ltb_spec (2 ^ 32 - 1) z); simpl; intros; simplify_eq; lia. }
  destruct v; [apply H|apply H|done].
Qed.

Lemma find_column_spec order col : find_column order = Some col →
  ∃ c, order !! col = Some c ∧ to_lower_str c = "symbol"%string ∧
    ∀ j c', (j < col)%nat → order !! j = Some c' → to_lower_str c' ≠ "symbol"%string.
Proof.
  revert col. induction order as [|c order IH]; intros col; [done|]. cbn [find_column].
  destruct (String.eqb_spec (to_lower_str c) "symbol") as [Hc|Hc].
  - intros [= <-]. exists c. split; [done|]. split; [done|]. lia.
  - intros Hf. destruct (find_column order) as [k|]; [|done]. injection Hf as <-.
    destruct (IH k eq_refl) as (c' & Hk & Hs & Hbefore). exists c'. split; [done|]. split; [done|].
    intros [|j] c'' Hj Hl; [by injection Hl as <-|]. apply (Hbefore j); [lia|done].
Qed.

(** An INSERT goes to a node only when every row belongs there: the routing
    symbol is [s] exactly when there is a row and every row's value in the first
    column called symbol (in any case) of the statement's column list, or of the
    table's when it has none, is a number naming [s], which then is an unsigned
    32-bit integer; a string, a missing or out-of-range value or two different
    symbols leave it undetermined. A statement without such a column goes to
    symbol 0. *)
Theorem insert_routed_by_symbol stmt schema_columns :
  let order := match insert_columns stmt with [] => schema_columns | cs => cs end in
  match find_column order with
  | None => insert_routing_symbol stmt schema_columns = Some 0 ∧ Forall (λ c, to_lower_str c ≠ "symbol"%string) order
  | Some col =>
      (∃ c, order !! col = Some c ∧ to_lower_str c = "symbol"%string ∧
        ∀ j c', (j < col)%nat → order !! j = Some c' → to_lower_str c' ≠ "symbol"%string) ∧
      ∀ s, insert_routing_symbol stmt schema_columns = Some s ↔
        value_rows stmt ≠ [] ∧ 0 <= s < 2 ^ 32 ∧
        Forall (λ row, row !! col ≫= insert_symbol = Some s) (value_rows stmt)
  end.
Proof.
  intros order. unfold insert_routing_symbol. fold order. destruct (find_column order) as [col|] eqn:Hcol.
  - split; [by apply find_column_spec|]. intros s. destruct (value_rows stmt) as [|row vrows]; [naive_solver|].
    cbn [same_symbol]. rewrite Forall_cons. destruct (row !! col ≫= insert_symbol) as [s'|] eqn:Hs; [|naive_solver].
    rewrite same_symbol_some. assert (row !! col ≫= insert_symbol = Some s' → 0 <= s' < 2 ^ 32) as Hr.
    { destruct (row !! col) as [v|]; [apply insert_symbol_range|done]. }
    naive_solver.
  - split; [done|]. clear -Hcol. induction order as [|c order IH]; [done|]. cbn [find_column] in Hcol.
    destruct (String.eqb_spec (to_lower_str c) "symbol"); [done|]. apply Forall_cons. split; [done|].
    apply IH. by destruct (find_column order).
Qed.

(** ** What the rewrite loses *)

(** The printer writes a floating-point literal as its integer part: the
    nodes are asked for [sum(x * 0)] when the query averages [x * 0.5], so the
    average is 0 whatever the data. *)
Theorem rewrite_truncates_literals tail mk sql f col :
  0 <= cast_int64 f <= INT64_MAX → name_word col = true →
  clauses tail mk → valid_from None tail → extract_from_suffix sql = str (print tail) →
  let e l := set_operand (ABinary MUL (AColumn "" col) l) (set_agg Ast.AVG default_item) in
  rewritten_sql (build_avg_rewrite [e (AFloat f (cast_int64 f))] sql) =
    rewritten_sql (build_avg_rewrite [e (ALiteral (cast_int64 f))] sql) ∧
  parse (rewritten_sql (build_avg_rewrite [e (AFloat f (cast_int64 f))] sql)) =
    Parsed (mk false (rewritten (e (ALiteral (cast_int64 f))))) [end_token].
Proof.
  intros Hf Hcol Hc Hv Hsuf e. split; [done|].
  change (rewritten_sql (build_avg_rewrite [e (AFloat f (cast_int64 f))] sql)) with
    (rewritten_sql (build_avg_rewrite [e (ALiteral (cast_int64 f))] sql)).
  destruct (rewritten_tokens [e (ALiteral (cast_int64 f))] tail mk sql) as (ts & Hts & Htok); [|done..|].
  - apply Forall_cons; split; [|done].
    apply (scalar_agg Ast.AVG (ABinary MUL (AColumn "" col) (ALiteral (cast_int64 f))) ""); [done| |done].
    split; [by split; [left|]|]. cbn [printable]. unfold INT64_MIN. lia.
  - unfold parse, parse_statement. rewrite Htok. rewrite (parse_tokens_select ts _ _ Hts).
    rewrite (parse_query_ok ts _ _ Hts) by by vm_compute. done.
Qed.

(** [AVG(price * 0.5)] *)
Lemma rewrite_truncates_literals_witness :
  let half := mkDouble 4503599627370496 (-53) in
  let sql := "SELECT AVG(price * 0.5) FROM trades"%string in
  let e l := set_operand (ABinary MUL (AColumn "" "price") l) (set_agg Ast.AVG default_item) in
  stod "0.5" = Valid half ∧
  parse sql = Parsed (tiny_make "trades" false [e (AFloat half 0)]) [end_token] ∧
  parse (rewritten_sql (build_avg_rewrite [e (AFloat half 0)] sql)) =
    Parsed (tiny_make "trades" false (rewritten (e (ALiteral 0)))) [end_token].
Proof.
  split; [by vm_compute|]. split; [by vm_compute|].
  apply (rewrite_truncates_literals (tiny_tail "trades") (tiny_make "trades") "SELECT AVG(price * 0.5) FROM trades"
    (mkDouble 4503599627370496 (-53)) "price").
  - by vm_compute.
  - done.
  - apply tiny_clauses.
  - unfold tiny_tail. cbn [app]. valid_tokens.
  - by vm_compute.
Defined.
