(* ===== verification/Rpc.v ===== *)
(** * Rpc: the wire formats of the cluster's RPC protocol

    Models the codecs of [include/zeptodb/cluster/rpc_protocol.h]: the result set
    a node answers with, the schema-aware row that ingest forwards, the WAL batch
    and the metrics request. A buffer is a list of bytes; the decoders read at a
    pointer, so a read past the end of the buffer is an outcome of its own. *)

From S2P Require Import Prelude.
From S2P Require Import Bytes.
From S2P Require Import ColumnStore.
From S2P Require Import StringDictionary.
From S2P Require Import PartialAgg.
From stdpp Require Import base list strings.
From Stdlib Require Import ZArith Lia.

Open Scope Z_scope.

Definition RPC_RESULT_MAX_COLUMNS : Z := 4096.
Definition RPC_RESULT_MAX_ROWS : Z := 1000000.
Definition RPC_RESULT_MAX_STRING_CELLS : Z := 1000000.

(** ** Write helpers *)

Definition proto_write_u32 (v : Z) : list Z :=
  [Z.land v 255; Z.land (Z.shiftr v 8) 255; Z.land (Z.shiftr v 16) 255; Z.land (Z.shiftr v 24) 255].

Definition proto_write_u8 (v : Z) : list Z := [v].

Definition proto_write_i64 (v : Z) : list Z :=
  let u := u64 v in
  [Z.land u 255; Z.land (Z.shiftr u 8) 255; Z.land (Z.shiftr u 16) 255; Z.land (Z.shiftr u 24) 255;
   Z.land (Z.shiftr u 32) 255; Z.land (Z.shiftr u 40) 255; Z.land (Z.shiftr u 48) 255; Z.land (Z.shiftr u 56) 255].

(** A [double] is its bit pattern, as the [int64_t] that [memcpy] makes of it. *)
Definition proto_write_f64 (bits : Z) : list Z := proto_write_i64 bits.

Definition proto_write_str (s : string) : list Z :=
  proto_write_u32 (u32 (Z.of_nat (length (bytes_of_string s)))) ++ bytes_of_string s.

(** ** Read helpers *)

(** [p[0] | p[1] << 8 | ...]; [None] is a read past the end of the buffer. *)
Definition proto_read_u32 (p : list Z) : option (Z * list Z) :=
  match p with
  | b0 :: b1 :: b2 :: b3 :: p =>
      Some (Z.lor (Z.lor (Z.lor b0 (Z.shiftl b1 8)) (Z.shiftl b2 16)) (Z.shiftl b3 24), p)
  | _ => None
  end.

Definition proto_read_i64 (p : list Z) : option (Z * list Z) :=
  match p with
  | b0 :: b1 :: b2 :: b3 :: b4 :: b5 :: b6 :: b7 :: p =>
      Some (i64 (Z.lor (Z.lor (Z.lor (Z.lor (Z.lor (Z.lor (Z.lor b0 (Z.shiftl b1 8)) (Z.shiftl b2 16))
        (Z.shiftl b3 24)) (Z.shiftl b4 32)) (Z.shiftl b5 40)) (Z.shiftl b6 48)) (Z.shiftl b7 56)), p)
  | _ => None
  end.

Definition proto_read_f64 (p : list Z) : option (Z * list Z) := proto_read_i64 p.

Definition proto_read_u8 (p : list Z) : option (Z * list Z) :=
  match p with b :: p => Some (b, p) | [] => None end.

(** [assign(p, n)]: [n] bytes from [p]. *)
Definition proto_read_bytes (n : Z) (p : list Z) : option (list Z * list Z) :=
  if n <=? Z.of_nat (length p) then Some (take (Z.to_nat n) p, drop (Z.to_nat n) p) else None.

(** ** Decoders

    A decoder fills a value of type [R] and moves the pointer; it goes on, it
    returns early with what it has filled, or it reads past the end. *)

Inductive step (R A : Type) : Type :=
  | Next (a : A) (r : R) (p : list Z)
  | Stop (r : R)
  | OverRead.
Arguments Next {R A}.
Arguments Stop {R A}.
Arguments OverRead {R A}.

Definition decoder (R A : Type) : Type := R → list Z → step R A.

#[export] Instance decoder_ret R : MRet (decoder R) := λ A a r p, Next a r p.
#[export] Instance decoder_bind R : MBind (decoder R) := λ A B f m r p,
  match m r p with
  | Next a r p => f a r p
  | Stop r => Stop r
  | OverRead => OverRead
  end.

Section combinators.
Context {R : Type}.

Definition getting {A} (read : list Z → option (A * list Z)) : decoder R A := λ r p,
  match read p with Some (a, p) => Next a r p | None => OverRead end.
Definition get_u32 : decoder R Z := getting proto_read_u32.
Definition get_i64 : decoder R Z := getting proto_read_i64.
Definition get_u8 : decoder R Z := getting proto_read_u8.
Definition get_bytes (n : Z) : decoder R (list Z) := getting (proto_read_bytes n).
Definition remaining : decoder R Z := λ r p, Next (Z.of_nat (length p)) r p.
Definition modify (f : R → R) : decoder R unit := λ r p, Next tt (f r) p.
Definition reject_if (b : bool) (f : R → R) : decoder R unit := λ r p, if b then Stop (f r) else Next tt r p.
(** [if (!need(n)) return], after [f]. *)
Definition require (n : Z) (f : R → R) : decoder R unit :=
  λ r p, if n <=? Z.of_nat (length p) then Next tt r p else Stop (f r).
End combinators.

(** ** Result sets *)

Definition rpc_is_string_encoded_type (t : ColumnType) : bool :=
  match t with SYMBOL | STRING => true | _ => false end.

(** The type written for column [i]: [INT64] when there is none. *)
Definition wire_type (types : list ColumnType) (i : nat) : ColumnType := default INT64 (types !! i).

(** The columns with the types they are written with. *)
Definition wire_columns (names : list string) (types : list ColumnType) : list (string * ColumnType) :=
  imap (λ i n, (n, wire_type types i)) names.

Definition write_column (c : string * ColumnType) : list Z :=
  proto_write_str c.1 ++ proto_write_u8 (type_code c.2).

(** A row is padded with zeros, or cut, to [ncols] cells. *)
Definition padded (ncols : nat) (row : list Z) : list Z := (λ ci, cell row ci) <$> seq 0 ncols.

Definition write_row (ncols : nat) (row : list Z) : list Z := padded ncols row ≫= proto_write_i64.

Definition decoded_strings (r : QueryResultSet) : list string :=
  match string_rows r, symbol_dict r with
  | [], Some d =>
      rows r ≫= λ row, decode_row d (take (length (column_names r)) (column_types r)) row
  | strings, _ => strings
  end.

Definition serialize_result (r : QueryResultSet) : list Z :=
  let ncols := length (column_names r) in
  proto_write_str (error r) ++
  proto_write_u32 (u32 (Z.of_nat ncols)) ++
  (wire_columns (column_names r) (column_types r) ≫= write_column) ++
  proto_write_u32 (u32 (Z.of_nat (length (rows r)))) ++
  (rows r ≫= write_row ncols) ++
  proto_write_u32 (u32 (Z.of_nat (length (decoded_strings r)))) ++
  (decoded_strings r ≫= proto_write_str).

(** Assignments to the fields of a result. *)
Definition with_error (what : string) (r : QueryResultSet) : QueryResultSet :=
  mkResultSet (column_names r) (column_types r) (rows r) (typed_rows r) (string_rows r) (symbol_dict r)
    (rows_scanned r) what.
Definition with_names (names : list string) (types : list ColumnType) (r : QueryResultSet) : QueryResultSet :=
  mkResultSet names types (rows r) (typed_rows r) (string_rows r) (symbol_dict r) (rows_scanned r) (error r).
Definition with_rows (data : list (list Z)) (r : QueryResultSet) : QueryResultSet :=
  mkResultSet (column_names r) (column_types r) data (typed_rows r) (string_rows r) (symbol_dict r)
    (rows_scanned r) (error r).
Definition with_strings (strings : list string) (r : QueryResultSet) : QueryResultSet :=
  mkResultSet (column_names r) (column_types r) (rows r) (typed_rows r) strings (symbol_dict r)
    (rows_scanned r) (error r).

Fixpoint read_columns (n i : nat) : decoder QueryResultSet unit :=
  match n with
  | O => mret tt
  | S n =>
      _ ← require 4 (with_error "proto: truncated(name_len)");
      nlen ← get_u32;
      left ← remaining;
      _ ← reject_if (negb (nlen <=? left) || (left - nlen <? 1)) (with_error "proto: truncated(name)");
      name ← get_bytes nlen;
      _ ← modify (λ r, with_names (<[i := string_of_bytes name]> (column_names r)) (column_types r) r);
      raw_type ← get_u8;
      match type_of_code raw_type with
      | None => reject_if true (with_error "proto: invalid column type")
      | Some t =>
          _ ← modify (λ r, with_names (column_names r) (<[i := t]> (column_types r)) r);
          read_columns n (S i)
      end
  end.

Fixpoint read_cells (n ri ci : nat) : decoder QueryResultSet unit :=
  match n with
  | O => mret tt
  | S n =>
      _ ← require 8 (with_error "proto: truncated(value)");
      v ← get_i64;
      _ ← modify (λ r, with_rows (alter (λ row, <[ci := v]> row) ri (rows r)) r);
      read_cells n ri (S ci)
  end.

Fixpoint read_rows (n ri ncols : nat) : decoder QueryResultSet unit :=
  match n with
  | O => mret tt
  | S n => _ ← read_cells ncols ri 0; read_rows n (S ri) ncols
  end.

Fixpoint read_strings (n : nat) : decoder QueryResultSet unit :=
  match n with
  | O => mret tt
  | S n =>
      _ ← require 4 (with_error "proto: truncated(string_len)");
      slen ← get_u32;
      _ ← require slen (with_error "proto: truncated(string_value)");
      s ← get_bytes slen;
      _ ← modify (λ r, with_strings (string_rows r ++ [string_of_bytes s]) r);
      read_strings n
  end.

(** The optional tail with the decoded strings. *)
Definition read_tail : decoder QueryResultSet unit :=
  left ← remaining;
  if left =? 0 then mret tt else
  _ ← require 4 (with_error "proto: truncated(string_count)");
  string_count ← get_u32;
  left ← remaining;
  _ ← reject_if ((RPC_RESULT_MAX_STRING_CELLS <? string_count) || (left / 4 <? string_count))
        (with_error "proto: string_count exceeds limit");
  read_strings (Z.to_nat string_count).

(** The error and the columns; the number of columns is returned. *)
Definition read_header : decoder QueryResultSet Z :=
  _ ← require 4 (with_error "proto: truncated(error_len)");
  err_len ← get_u32;
  _ ← require err_len (with_error "proto: truncated(error)");
  err ← get_bytes err_len;
  _ ← modify (with_error (string_of_bytes err));
  _ ← require 4 (with_error "proto: truncated(col_count)");
  ncols ← get_u32;
  _ ← reject_if (RPC_RESULT_MAX_COLUMNS <? ncols) (with_error "proto: col_count exceeds limit");
  let nc := Z.to_nat ncols in
  _ ← modify (λ r, with_names (replicate nc ""%string) (replicate nc INT32) r);
  _ ← read_columns nc 0;
  mret ncols.

Definition read_values (ncols : Z) : decoder QueryResultSet unit :=
  _ ← require 4 (with_error "proto: truncated(row_count)");
  nrows ← get_u32;
  _ ← reject_if (RPC_RESULT_MAX_ROWS <? nrows) (with_error "proto: row_count exceeds limit");
  _ ← reject_if ((0 <? nrows) && (ncols =? 0)) (with_error "proto: rows require at least one column");
  left ← remaining;
  _ ← reject_if ((0 <? ncols) && (left / (ncols * 8) <? nrows)) (with_error "proto: truncated(values)");
  let nr := Z.to_nat nrows in
  let nc := Z.to_nat ncols in
  _ ← modify (with_rows (replicate nr (replicate nc 0)));
  read_rows nr 0 nc.

Definition read_result : decoder QueryResultSet unit :=
  ncols ← read_header;
  _ ← read_values ncols;
  _ ← read_tail;
  left ← remaining;
  modify (λ r, if left =? 0 then r else with_error "proto: trailing result payload" r).

(** What a decoder call leaves: the filled value, or undefined behaviour. *)
Definition finished {R A} (s : step R A) : option R :=
  match s with Next _ r _ => Some r | Stop r => Some r | OverRead => None end.

Definition deserialize_result (data : option (list Z)) : option QueryResultSet :=
  match data with
  | None => Some (with_error "proto: null result payload" empty_result)
  | Some data => finished (read_result empty_result data)
  end.

(** ** Schema-aware rows *)

(** The [type] may be any byte: it is cast to [ColumnType] unchecked. *)
Record TypedColumnValue : Type := mkTyped {
  tcv_name : string;
  tcv_type : Z;
  tcv_i64 : Z;
  tcv_f64 : Z; (** the bit pattern *)
  tcv_u32 : Z;
  tcv_u8 : Z;
  tcv_string : option string; (** [string_value] when [has_string_value] *)
}.

Record TypedRowMessage : Type := mkTypedRow {
  row_table_id : Z;
  row_symbol_id : Z;
  row_timestamp : Z;
  row_columns : list TypedColumnValue;
}.

Definition write_typed_column (c : TypedColumnValue) : list Z :=
  proto_write_str (tcv_name c) ++ proto_write_u8 (tcv_type c) ++ proto_write_i64 (tcv_i64 c) ++
  proto_write_f64 (tcv_f64 c) ++ proto_write_u32 (tcv_u32 c) ++ proto_write_u8 (tcv_u8 c).

(** The columns that have a string, with their positions. *)
Definition string_columns (cols : list TypedColumnValue) : list (Z * string) :=
  omap (λ p, (λ s, (p.1, s)) <$> tcv_string p.2) (number 0 cols).

(** The strings follow the columns, if there are any. *)
Definition write_string_tail (cols : list TypedColumnValue) : list Z :=
  match string_columns cols with
  | [] => []
  | strings => proto_write_u32 (u32 (Z.of_nat (length strings))) ++
               (strings ≫= λ p, proto_write_u32 (u32 p.1) ++ proto_write_str p.2)
  end.

Definition serialize_typed_row (row : TypedRowMessage) : list Z :=
  proto_write_u32 (row_table_id row) ++
  proto_write_u32 (row_symbol_id row) ++
  proto_write_i64 (row_timestamp row) ++
  proto_write_u32 (u32 (Z.of_nat (length (row_columns row)))) ++
  (row_columns row ≫= write_typed_column) ++
  write_string_tail (row_columns row).

Definition with_header (table symbol : Z) (cols : list TypedColumnValue) (r : TypedRowMessage) : TypedRowMessage :=
  mkTypedRow table symbol (row_timestamp r) cols.
Definition with_timestamp (ts : Z) (r : TypedRowMessage) : TypedRowMessage :=
  mkTypedRow (row_table_id r) (row_symbol_id r) ts (row_columns r).
Definition with_columns_of (f : list TypedColumnValue → list TypedColumnValue) (r : TypedRowMessage)
    : TypedRowMessage :=
  mkTypedRow (row_table_id r) (row_symbol_id r) (row_timestamp r) (f (row_columns r)).
Definition with_string (s : string) (c : TypedColumnValue) : TypedColumnValue :=
  mkTyped (tcv_name c) (tcv_type c) (tcv_i64 c) (tcv_f64 c) (tcv_u32 c) (tcv_u8 c) (Some s).

(** One column. The sum [name_len + 1 + 8 + 8 + 4 + 1] is a [uint32_t]. *)
Definition read_typed_column : decoder TypedRowMessage unit :=
  _ ← require 4 id;
  name_len ← get_u32;
  _ ← require (u32 (name_len + 22)) id;
  name ← get_bytes name_len;
  type ← get_u8;
  v ← get_i64;
  f ← getting proto_read_f64;
  u ← get_u32;
  b ← get_u8;
  modify (with_columns_of (λ cols, cols ++ [mkTyped (string_of_bytes name) type v f u b None])).

Fixpoint read_typed_columns (n : nat) : decoder TypedRowMessage unit :=
  match n with
  | O => mret tt
  | S n => _ ← read_typed_column; read_typed_columns n
  end.

(** One string cell; [ncols] is [out.columns.size()]. *)
Definition read_string_cell (ncols : nat) : decoder TypedRowMessage unit :=
  _ ← require 4 id;
  column_index ← get_u32;
  _ ← reject_if (Z.of_nat ncols <=? column_index) id;
  _ ← require 4 id;
  value_len ← get_u32;
  _ ← require value_len id;
  s ← get_bytes value_len;
  modify (with_columns_of (alter (with_string (string_of_bytes s)) (Z.to_nat column_index))).

Fixpoint read_string_cells (n ncols : nat) : decoder TypedRowMessage unit :=
  match n with
  | O => mret tt
  | S n => _ ← read_string_cell ncols; read_string_cells n ncols
  end.

Definition read_string_tail (column_count : Z) : decoder TypedRowMessage unit :=
  left ← remaining;
  if left =? 0 then mret tt else
  _ ← require 4 id;
  string_count ← get_u32;
  left ← remaining;
  _ ← reject_if ((column_count <? string_count) || (left / 8 <? string_count)) id;
  _ ← read_string_cells (Z.to_nat string_count) (Z.to_nat column_count);
  left ← remaining;
  reject_if (negb (left =? 0)) id.

Definition read_typed_row : decoder TypedRowMessage unit :=
  _ ← require 20 id;
  table_id ← get_u32;
  symbol_id ← get_u32;
  ts ← get_i64;
  _ ← modify (with_timestamp ts);
  column_count ← get_u32;
  _ ← reject_if (2 ^ 16 - 1 <? table_id) id;
  left ← remaining;
  _ ← reject_if ((RPC_RESULT_MAX_COLUMNS <? column_count) || (left / 26 <? column_count)) id;
  _ ← modify (with_header table_id symbol_id []);
  _ ← read_typed_columns (Z.to_nat column_count);
  read_string_tail column_count.

(** The returned [bool] with [out]; [None] is a read past the end. *)
Definition deserialize_typed_row (data : list Z) (out : TypedRowMessage) : option (bool * TypedRowMessage) :=
  match read_typed_row out data with
  | Next _ r _ => Some (true, r)
  | Stop r => Some (false, r)
  | OverRead => None
  end.

(** ** WAL batches and metrics requests *)

(** A tick travels as the [sizeof(TickMessage)] bytes of its object. *)
Definition tick_size : nat := 64.

Definition serialize_tick (msg : list Z) : list Z := msg.
Definition deserialize_tick (data : list Z) : option (list Z) :=
  if (length data <? tick_size)%nat then None else Some (take tick_size data).

Definition serialize_wal_batch (msgs : list (list Z)) : list Z :=
  proto_write_u32 (u32 (Z.of_nat (length msgs))) ++ mjoin msgs.

(** [count] objects of [tick_size] bytes. *)
Fixpoint objects (count : nat) (p : list Z) : list (list Z) :=
  match count with
  | O => []
  | S count => take tick_size p :: objects count (drop tick_size p)
  end.

(** [None] when it returns [false]. *)
Definition deserialize_wal_batch (data : list Z) : option (list (list Z)) :=
  if Z.of_nat (length data) <? 4 then None
  else
    '(count, p) ← proto_read_u32 data;
    if Z.of_nat (length data) <? 4 + count * Z.of_nat tick_size then None
    else Some (objects (Z.to_nat count) p).

Definition serialize_metrics_request (since_ms limit : Z) : list Z :=
  proto_write_i64 since_ms ++ proto_write_u32 limit.

Definition deserialize_metrics_request (data : list Z) : option (Z * Z) :=
  if Z.of_nat (length data) <? 12 then None
  else
    '(since_ms, p) ← proto_read_i64 data;
    '(limit, _) ← proto_read_u32 p;
    Some (since_ms, limit).

(** ** Reading and writing integers and strings *)

Lemma write_u32_push v : proto_write_u32 v = push_le 4 v.
Proof. unfold proto_write_u32. cbn [push_le]. rewrite !Z.shiftr_shiftr by lia. done. Qed.

Lemma write_i64_push v : proto_write_i64 v = push_le 8 (u64 v).
Proof. unfold proto_write_i64. cbn [push_le]. cbv zeta. rewrite !Z.shiftr_shiftr by lia. done. Qed.

Lemma read_u32_val p : (4 <= length p)%nat → proto_read_u32 p = Some (le_val (take 4 p), drop 4 p).
Proof.
  destruct p as [|b0 [|b1 [|b2 [|b3 p]]]]; simpl; try lia. intros _. do 2 f_equal.
  rewrite Z.shiftl_0_l, Z.lor_0_r, !Z.shiftl_lor, !Z.shiftl_shiftl, !Z.lor_assoc by lia. done.
Qed.

Lemma read_i64_val p : (8 <= length p)%nat → proto_read_i64 p = Some (i64 (le_val (take 8 p)), drop 8 p).
Proof.
  destruct p as [|b0 [|b1 [|b2 [|b3 [|b4 [|b5 [|b6 [|b7 p]]]]]]]]; cbn [length]; try lia. intros _.
  unfold proto_read_i64. cbn [take drop le_val]. do 3 f_equal.
  rewrite Z.shiftl_0_l, Z.lor_0_r, !Z.shiftl_lor, !Z.shiftl_shiftl, !Z.lor_assoc by lia. done.
Qed.

Lemma length_write_u32 v : length (proto_write_u32 v) = 4%nat.
Proof. done. Qed.
Lemma length_write_i64 v : length (proto_write_i64 v) = 8%nat.
Proof. done. Qed.

Lemma read_write_u32 v p : 0 <= v < 2 ^ 32 → proto_read_u32 (proto_write_u32 v ++ p) = Some (v, p).
Proof.
  intros Hv. rewrite read_u32_val by (rewrite length_app, length_write_u32; lia).
  rewrite take_app_length', drop_app_length' by done.
  rewrite write_u32_push, le_val_push_le by (simpl; lia). done.
Qed.

Lemma read_write_i64 v p : INT64_MIN <= v <= INT64_MAX → proto_read_i64 (proto_write_i64 v ++ p) = Some (v, p).
Proof.
  intros Hv. rewrite read_i64_val by (rewrite length_app, length_write_i64; lia).
  rewrite take_app_length', drop_app_length' by done.
  rewrite write_i64_push, le_val_push_le by (apply wrap_range; lia).
  do 2 f_equal. rewrite <- (i64_small v Hv) at 2. apply i64_mod_eq. unfold u64, wrap. apply Z.mod_mod. lia.
Qed.

Lemma read_bytes_app n bs p : n = Z.of_nat (length bs) → proto_read_bytes n (bs ++ p) = Some (bs, p).
Proof.
  intros ->. unfold proto_read_bytes. rewrite (proj2 (Z.leb_le _ _)) by (rewrite length_app; lia).
  by rewrite Nat2Z.id, take_app_length, drop_app_length.
Qed.

(** ** Weakest preconditions of decoders *)

(** Started in [r] at [p], [m] does not read past the end, and ends in [Q] or
    returns early with a value that satisfies [E]. *)
Definition wp {R A} (m : decoder R A) (E : R → Prop) (Q : A → R → list Z → Prop) (r : R) (p : list Z) : Prop :=
  match m r p with Next a r p => Q a r p | Stop r => E r | OverRead => False end.

Section wp_rules.
Context {R : Type} (E : R → Prop).

Lemma wp_bind {A B} (m : decoder R A) (f : A → decoder R B) Q r p :
  wp m E (λ a r p, wp (f a) E Q r p) r p → wp (m ≫= f) E Q r p.
Proof. unfold wp, mbind, decoder_bind. by destruct (m r p). Qed.

Lemma wp_ret {A} (a : A) (Q : A → R → list Z → Prop) r p : Q a r p → wp (mret a) E Q r p.
Proof. done. Qed.

Lemma wp_mono {A} (m : decoder R A) (Q Q' : A → R → list Z → Prop) r p :
  wp m E Q r p → (∀ a r p, Q a r p → Q' a r p) → wp m E Q' r p.
Proof. unfold wp. destruct (m r p); auto. Qed.

Lemma wp_modify f (Q : unit → R → list Z → Prop) r p : Q tt (f r) p → wp (modify f) E Q r p.
Proof. done. Qed.

Lemma wp_remaining (Q : Z → R → list Z → Prop) r p : Q (Z.of_nat (length p)) r p → wp remaining E Q r p.
Proof. done. Qed.

Lemma wp_require n f (Q : unit → R → list Z → Prop) r p :
  (Z.of_nat (length p) < n → E (f r)) → (n <= Z.of_nat (length p) → Q tt r p) → wp (require n f) E Q r p.
Proof. intros. unfold wp, require. destruct (Z.leb_spec n (Z.of_nat (length p))); auto. Qed.

Lemma wp_reject_if b f (Q : unit → R → list Z → Prop) r p :
  (b = true → E (f r)) → (b = false → Q tt r p) → wp (reject_if b f) E Q r p.
Proof. intros. unfold wp, reject_if. destruct b; auto. Qed.

Lemma wp_getting {A} (read : list Z → option (A * list Z)) a p' (Q : A → R → list Z → Prop) r p :
  read p = Some (a, p') → Q a r p' → wp (getting read) E Q r p.
Proof. intros H. unfold wp, getting. by rewrite H. Qed.
End wp_rules.

(** Symbolic execution of what an encoder wrote. *)
Ltac wp_step :=
  lazymatch goal with
  | |- wp (_ ≫= _) _ _ _ _ => apply wp_bind
  | |- wp (modify _) _ _ _ _ => apply wp_modify
  | |- wp remaining _ _ _ _ => apply wp_remaining
  | |- wp (mret _) _ _ _ _ => apply wp_ret
  | |- wp get_u32 _ _ _ (proto_write_u32 _ ++ _) =>
      eapply (wp_getting _ proto_read_u32); [apply read_write_u32; try lia|]
  | |- wp get_i64 _ _ _ (proto_write_i64 _ ++ _) =>
      eapply (wp_getting _ proto_read_i64); [apply read_write_i64; try lia|]
  end.
Ltac wp_run := repeat wp_step.

Lemma length_write_str s : length (proto_write_str s) = (4 + String.length s)%nat.
Proof. unfold proto_write_str. by rewrite length_app, length_bytes_of_string. Qed.

Definition fits (s : string) : Prop := Z.of_nat (String.length s) < 2 ^ 32.

Lemma write_str_split s p : fits s →
  proto_write_str s ++ p = proto_write_u32 (Z.of_nat (String.length s)) ++ bytes_of_string s ++ p.
Proof.
  intros H. unfold proto_write_str. rewrite <- app_assoc, length_bytes_of_string.
  by rewrite wrap_small by (unfold fits in H; lia).
Qed.

Lemma wp_get_string {R} (E : R → Prop) s Q r p :
  Q (bytes_of_string s) r p → wp (get_bytes (Z.of_nat (String.length s))) E Q r (bytes_of_string s ++ p).
Proof.
  intros H. eapply wp_getting; [|exact H]. apply read_bytes_app. by rewrite length_bytes_of_string.
Qed.

(** ** Result sets: round trip *)

Lemma list_inserts_id {A} (l : list A) k : length k = length l → list_inserts 0 k l = k.
Proof.
  intros Hl. apply list_eq. intros j. destruct (decide (j < length l)%nat).
  - rewrite list_lookup_inserts by lia. by rewrite Nat.sub_0_r.
  - rewrite !lookup_ge_None_2; [done|lia|]. rewrite length_inserts. lia.
Qed.

Lemma bind_cons {A} (f : A → list Z) (x : A) (l : list A) (p : list Z) : ((x :: l) ≫= f) ++ p = f x ++ (l ≫= f) ++ p.
Proof. cbn [mbind list_bind]. by rewrite <- app_assoc. Qed.

Lemma wp_read_columns E cols n i Q r p :
  n = length cols → Forall (λ c, fits c.1) cols →
  Q tt (with_names (list_inserts i cols.*1 (column_names r)) (list_inserts i cols.*2 (column_types r)) r) p →
  wp (read_columns n i) E Q r ((cols ≫= write_column) ++ p).
Proof.
  intros -> Hall. revert i r. induction Hall as [|[n t] cols Hn Hall IH]; intros i r HQ.
  { apply wp_ret. by destruct r. }
  rewrite bind_cons. unfold write_column at 1. cbn [read_columns length fst snd].
  rewrite <- app_assoc, write_str_split by done. wp_run. apply wp_require; [rewrite length_app, length_write_u32; lia|].
  intros _. wp_run. { unfold fits in Hn. simpl in Hn. lia. }
  apply wp_reject_if.
  - rewrite length_app, length_bytes_of_string. cbn [app length proto_write_u8].
    intros [H%negb_true_iff%Z.leb_gt|H%Z.ltb_lt]%orb_true_iff; lia.
  - intros _. wp_run. apply wp_get_string. wp_run. eapply wp_getting; [done|].
    rewrite type_of_type_code. wp_run. apply IH. simpl in *. rewrite string_of_bytes_of_string.
    by rewrite <- !list_insert_inserts_lt by lia.
Qed.

Lemma wp_read_cells E vs ri ci Q r p :
  Forall (λ v, INT64_MIN <= v <= INT64_MAX) vs →
  Q tt (with_rows (alter (list_inserts ci vs) ri (rows r)) r) p →
  wp (read_cells (length vs) ri ci) E Q r ((vs ≫= proto_write_i64) ++ p).
Proof.
  intros Hall. revert ci r. induction Hall as [|v vs Hv Hall IH]; intros ci r HQ.
  { apply wp_ret. destruct r as [? ? data ? ? ? ? ?]. unfold with_rows in HQ. simpl in *.
    by rewrite list_alter_id in HQ. }
  rewrite bind_cons. cbn [read_cells length]. wp_run. apply wp_require;
    [rewrite length_app, length_write_i64; lia|]. intros _. wp_run. apply IH. simpl.
  rewrite list_alter_alter_eq. erewrite list_alter_ext; [exact HQ| |done]. intros row _. simpl.
  by rewrite list_insert_inserts_lt by lia.
Qed.

Lemma wp_read_rows E data n ri ncols Q r p :
  n = length data →
  Forall (λ row, length row = ncols ∧ Forall (λ v, INT64_MIN <= v <= INT64_MAX) row) data →
  (∀ k, (ri <= k < ri + length data)%nat → ∃ row, rows r !! k = Some row ∧ length row = ncols) →
  Q tt (with_rows (list_inserts ri data (rows r)) r) p →
  wp (read_rows n ri ncols) E Q r ((data ≫= λ row, row ≫= proto_write_i64) ++ p).
Proof.
  intros -> Hall. revert ri r. induction Hall as [|row data [Hl Hv] Hall IH]; intros ri r Hrows HQ.
  { apply wp_ret. by destruct r. }
  rewrite bind_cons. cbn [read_rows length]. rewrite <- Hl at 1. apply wp_bind, wp_read_cells; [done|].
  destruct (Hrows ri) as (row0 & Hr0 & Hl0); [simpl; lia|].
  assert (alter (list_inserts 0 row) ri (rows r) = <[ri := row]> (rows r)) as Hins.
  { apply list_eq. intros k. destruct (decide (k = ri)) as [->|Hne].
    - rewrite list_lookup_alter_eq, Hr0. simpl. rewrite list_lookup_insert_eq by (by eapply lookup_lt_Some).
      by rewrite list_inserts_id by congruence.
    - by rewrite list_lookup_alter_ne, list_lookup_insert_ne by done. }
  rewrite Hins. apply IH.
  - intros k Hk. simpl. rewrite list_lookup_insert_ne by lia. apply Hrows. simpl. lia.
  - simpl. simpl in HQ. by rewrite <- list_insert_inserts_lt by lia.
Qed.

Lemma wp_read_strings E strings Q r p :
  Forall fits strings →
  Q tt (with_strings (string_rows r ++ strings) r) p →
  wp (read_strings (length strings)) E Q r ((strings ≫= proto_write_str) ++ p).
Proof.
  intros Hall. revert r. induction Hall as [|s strings Hs Hall IH]; intros r HQ.
  { apply wp_ret. destruct r. unfold with_strings in HQ. simpl in *. by rewrite app_nil_r in HQ. }
  rewrite bind_cons, write_str_split by done. cbn [read_strings length].
  wp_run. apply wp_require; [rewrite length_app, length_write_u32; lia|]. intros _. wp_run.
  { unfold fits in Hs. lia. }
  wp_run. apply wp_require; [rewrite length_app, length_bytes_of_string; lia|]. intros _.
  wp_run. apply wp_get_string. wp_run. apply IH. simpl. rewrite string_of_bytes_of_string.
  by rewrite <- app_assoc.
Qed.

(** What a result becomes on the other side: types for every column, rows of
    one width, and the strings in place of the dictionary. *)
Definition received (r : QueryResultSet) : QueryResultSet :=
  mkResultSet (column_names r) (wire_columns (column_names r) (column_types r)).*2
    (padded (length (column_names r)) <$> rows r) [] (decoded_strings r) None 0 (error r).

(** The sizes and values the format can carry. *)
Definition encodable (r : QueryResultSet) : Prop :=
  fits (error r) ∧ Forall fits (column_names r) ∧ Forall fits (decoded_strings r) ∧
  Z.of_nat (length (column_names r)) <= RPC_RESULT_MAX_COLUMNS ∧
  Z.of_nat (length (rows r)) <= RPC_RESULT_MAX_ROWS ∧
  Z.of_nat (length (decoded_strings r)) <= RPC_RESULT_MAX_STRING_CELLS ∧
  (column_names r = [] → rows r = []) ∧
  Forall (Forall (λ v, INT64_MIN <= v <= INT64_MAX)) (rows r).

Lemma wire_columns_names names types : (wire_columns names types).*1 = names.
Proof. unfold wire_columns. rewrite fmap_imap. apply list_eq. intros i. rewrite list_lookup_imap. by destruct (names !! i). Qed.

Lemma length_wire_columns names types : length (wire_columns names types) = length names.
Proof. apply length_imap. Qed.

Lemma length_padded n row : length (padded n row) = n.
Proof. unfold padded. by rewrite length_fmap, length_seq. Qed.

Lemma padded_range n row :
  Forall (λ v, INT64_MIN <= v <= INT64_MAX) row → Forall (λ v, INT64_MIN <= v <= INT64_MAX) (padded n row).
Proof.
  intros Hall. apply Forall_forall. intros v (ci & -> & _)%list_elem_of_fmap. unfold cell.
  destruct (row !! ci) as [v|] eqn:Hv; simpl; [by eapply Forall_lookup_1 in Hall|].
  unfold INT64_MIN, INT64_MAX. lia.
Qed.

Lemma length_bind_const {A} (f : A → list Z) (l : list A) n :
  Forall (λ x, length (f x) = n) l → length (l ≫= f) = (length l * n)%nat.
Proof. induction 1 as [|x l Hx Hl IH]; [done|]. cbn [mbind list_bind length]. rewrite length_app, Hx. fold (l ≫= f). lia. Qed.

Lemma length_bind_ge {A} (f : A → list Z) (l : list A) n :
  (∀ x, n <= length (f x))%nat → (length l * n <= length (l ≫= f))%nat.
Proof. intros Hn. induction l as [|x l IH]; [done|]. cbn [mbind list_bind length]. rewrite length_app. fold (l ≫= f). specialize (Hn x). lia. Qed.

Lemma rows_bytes (data : list (list Z)) ncols :
  (data ≫= write_row ncols) = ((padded ncols <$> data) ≫= λ row, row ≫= proto_write_i64).
Proof. induction data as [|row data IH]; [done|]. cbn [mbind list_bind fmap list_fmap]. by rewrite <- IH. Qed.

Lemma wp_read_tail (E : QueryResultSet → Prop) strings Q r :
  Forall fits strings → Z.of_nat (length strings) <= RPC_RESULT_MAX_STRING_CELLS →
  Q tt (with_strings (string_rows r ++ strings) r) [] →
  wp read_tail E Q r (proto_write_u32 (Z.of_nat (length strings)) ++ (strings ≫= proto_write_str)).
Proof.
  unfold RPC_RESULT_MAX_STRING_CELLS. intros Hall Hmax HQ. unfold read_tail. wp_run.
  rewrite (proj2 (Z.eqb_neq _ _)) by (rewrite length_app, length_write_u32; lia).
  wp_run. apply wp_require; [rewrite length_app, length_write_u32; lia|]. intros _. wp_run. apply wp_reject_if.
  - unfold RPC_RESULT_MAX_STRING_CELLS. intros [H%Z.ltb_lt|H%Z.ltb_lt]%orb_true_iff; [lia|].
    pose proof (length_bind_ge proto_write_str strings 4) as Hlen.
    assert (Z.of_nat (length strings) <= Z.of_nat (length (strings ≫= proto_write_str)) / 4); [|lia].
    apply Z.div_le_lower_bound; [lia|]. assert (∀ x, 4 <= length (proto_write_str x))%nat as Hs.
    { intros x. rewrite length_write_str. lia. }
    specialize (Hlen Hs). lia.
  - intros _. rewrite Nat2Z.id. rewrite <- (app_nil_r (strings ≫= proto_write_str)). by apply wp_read_strings.
Qed.

Lemma wp_read_header (E : QueryResultSet → Prop) err names types Q p :
  fits err → Forall fits names → Z.of_nat (length names) <= RPC_RESULT_MAX_COLUMNS →
  Q (Z.of_nat (length names)) (with_names names (wire_columns names types).*2 (with_error err empty_result)) p →
  wp read_header E Q empty_result (proto_write_str err ++
    proto_write_u32 (Z.of_nat (length names)) ++ (wire_columns names types ≫= write_column) ++ p).
Proof.
  unfold RPC_RESULT_MAX_COLUMNS. intros He Hn Hnc HQ. unfold read_header. rewrite write_str_split by done.
  wp_run. apply wp_require; [rewrite length_app, length_write_u32; lia|]. intros _. wp_run.
  { unfold fits in He. lia. }
  apply wp_require; [rewrite length_app, length_bytes_of_string; lia|]. intros _. wp_run. apply wp_get_string.
  wp_run. apply wp_require; [rewrite length_app, length_write_u32; lia|]. intros _. wp_run.
  apply wp_reject_if; [unfold RPC_RESULT_MAX_COLUMNS; intros H%Z.ltb_lt; lia|]. intros _. wp_run.
  rewrite Nat2Z.id. apply wp_read_columns.
  - by rewrite length_wire_columns.
  - rewrite <- (wire_columns_names names types), Forall_fmap in Hn. exact Hn.
  - cbn [column_names column_types with_names with_error]. rewrite wire_columns_names.
    rewrite (list_inserts_id _ names) by (by rewrite length_replicate).
    rewrite (list_inserts_id _ (wire_columns _ _).*2) by (by rewrite length_replicate, length_fmap, length_wire_columns).
    wp_run. by rewrite string_of_bytes_of_string.
Qed.

Lemma wp_read_values (E : QueryResultSet → Prop) data nc Q r p :
  Forall (λ row, length row = nc ∧ Forall (λ v, INT64_MIN <= v <= INT64_MAX) row) data →
  Z.of_nat (length data) <= RPC_RESULT_MAX_ROWS → (nc = 0%nat → data = []) →
  Q tt (with_rows data r) p →
  wp (read_values (Z.of_nat nc)) E Q r
    (proto_write_u32 (Z.of_nat (length data)) ++ (data ≫= λ row, row ≫= proto_write_i64) ++ p).
Proof.
  unfold RPC_RESULT_MAX_ROWS. intros Hall Hnr Hempty HQ. unfold read_values.
  wp_run. apply wp_require; [rewrite length_app, length_write_u32; lia|]. intros _. wp_run.
  apply wp_reject_if; [unfold RPC_RESULT_MAX_ROWS; intros H%Z.ltb_lt; lia|]. intros _. wp_run.
  apply wp_reject_if.
  { intros [H1%Z.ltb_lt H2%Z.eqb_eq]%andb_true_iff. rewrite Hempty in H1 by lia. simpl in H1. lia. }
  intros _. wp_run.
  assert (length (data ≫= λ row, row ≫= proto_write_i64) = length data * (nc * 8))%nat as Hlen.
  { apply length_bind_const. eapply Forall_impl; [exact Hall|]. intros row [<- _]. simpl.
    apply length_bind_const. by apply Forall_forall. }
  apply wp_reject_if.
  { rewrite length_app, Hlen. intros [H1%Z.ltb_lt H2%Z.ltb_lt]%andb_true_iff.
    assert (Z.of_nat (length data) <= Z.of_nat (length data * (nc * 8) + length p) / (Z.of_nat nc * 8)); [|lia].
    apply Z.div_le_lower_bound; lia. }
  intros _. wp_run. rewrite !Nat2Z.id. apply wp_read_rows; [done|done| |].
  { intros k Hk. simpl. rewrite lookup_replicate_2 by lia. eexists. split; [done|]. apply length_replicate. }
  cbn [rows with_rows]. by rewrite list_inserts_id by (by rewrite length_replicate).
Qed.

(** C31. A result set survives the wire: whatever a node encodes within the
    format's limits is decoded by the coordinator, without reading past the end
    of the payload, to the same error, the same columns, the same cells (rows
    padded to the width of the header) and the same strings, dictionary codes
    being replaced by the strings they stand for. *)
Theorem result_roundtrip r :
  encodable r → deserialize_result (Some (serialize_result r)) = Some (received r).
Proof.
  intros (He & Hn & Hs & Hnc & Hnr & Hns & Hempty & Hv).
  set (nc := length (column_names r)) in *.
  assert (wp read_result (λ _, False) (λ _ r' _, r' = received r) empty_result (serialize_result r)) as H.
  2: { unfold deserialize_result, wp in *. by destruct (read_result _ _); [simpl; subst|done|done]. }
  unfold serialize_result, read_result. cbv zeta. fold nc. rewrite rows_bytes, <- (length_fmap (padded nc)).
  rewrite !(wrap_small 32) by (unfold RPC_RESULT_MAX_COLUMNS, RPC_RESULT_MAX_ROWS, RPC_RESULT_MAX_STRING_CELLS in *;
    rewrite ?length_fmap; lia).
  wp_run. apply wp_read_header; [done..|]. wp_run. apply wp_read_values.
  - apply Forall_fmap. eapply Forall_impl; [exact Hv|]. intros row Hrow. simpl.
    split; [apply length_padded|by apply padded_range].
  - by rewrite length_fmap.
  - intros H0%length_zero_iff_nil. by rewrite Hempty.
  - wp_run. apply wp_read_tail; [done|done|]. wp_run. done.
Qed.

(** ** Result sets: arbitrary payloads *)

(** No four bytes in a row spell a length that wraps when 22 is added. *)
Definition no_wrap (p : list Z) : Prop := ∀ i, le_val (take 4 (drop i p)) + 22 < 2 ^ 32.

Lemma no_wrap_drop n p : no_wrap p → no_wrap (drop n p).
Proof. intros H i. rewrite drop_drop. apply H. Qed.

Section any.
Context {R : Type} (E : R → Prop).

(** Reads of bytes that are there, whatever they are. *)
Lemma wp_get_u32_any (Q : Z → R → list Z → Prop) r p :
  Forall is_byte p → 4 <= Z.of_nat (length p) →
  (∀ v p', 0 <= v < 2 ^ 32 → (no_wrap p → v + 22 < 2 ^ 32 ∧ no_wrap p') → Forall is_byte p' →
    length p = (4 + length p')%nat → Q v r p') →
  wp get_u32 E Q r p.
Proof.
  intros Hp Hl HQ. eapply (wp_getting _ proto_read_u32); [apply read_u32_val; lia|].
  apply HQ; [| |by apply Forall_drop|rewrite length_drop; lia].
  - pose proof (le_val_range (take 4 p)) as H. rewrite length_take_le in H by lia. apply H. by apply Forall_take.
  - intros Hw. split; [apply (Hw 0%nat)|by apply no_wrap_drop].
Qed.

Lemma wp_get_i64_any (Q : Z → R → list Z → Prop) r p :
  Forall is_byte p → 8 <= Z.of_nat (length p) →
  (∀ v p', (no_wrap p → no_wrap p') → Forall is_byte p' → length p = (8 + length p')%nat → Q v r p') →
  wp get_i64 E Q r p.
Proof.
  intros Hp Hl HQ. eapply (wp_getting _ proto_read_i64); [apply read_i64_val; lia|].
  apply HQ; [by apply no_wrap_drop|by apply Forall_drop|rewrite length_drop; lia].
Qed.

Lemma wp_get_u8_any (Q : Z → R → list Z → Prop) r p :
  Forall is_byte p → 1 <= Z.of_nat (length p) →
  (∀ v p', (no_wrap p → no_wrap p') → Forall is_byte p' → length p = (1 + length p')%nat → Q v r p') →
  wp get_u8 E Q r p.
Proof.
  intros Hp Hl HQ. destruct p as [|b p]; [simpl in Hl; lia|].
  eapply (wp_getting _ proto_read_u8); [done|]. inversion Hp. apply HQ; [|done|done].
  apply (no_wrap_drop 1).
Qed.

Lemma wp_get_bytes_any n (Q : list Z → R → list Z → Prop) r p :
  Forall is_byte p → 0 <= n <= Z.of_nat (length p) →
  (∀ bs p', (no_wrap p → no_wrap p') → Forall is_byte p' → length p = (Z.to_nat n + length p')%nat → Q bs r p') →
  wp (get_bytes n) E Q r p.
Proof.
  intros Hp Hl HQ. eapply (wp_getting _ (proto_read_bytes n)).
  - unfold proto_read_bytes. by rewrite (proj2 (Z.leb_le _ _)) by lia.
  - apply HQ; [by apply no_wrap_drop|by apply Forall_drop|rewrite length_drop; lia].
Qed.
End any.

(** Symbolic execution on arbitrary bytes. *)
Ltac any_step :=
  lazymatch goal with
  | |- wp (_ ≫= _) _ _ _ _ => apply wp_bind
  | |- wp (modify _) _ _ _ _ => apply wp_modify
  | |- wp remaining _ _ _ _ => apply wp_remaining
  | |- wp (mret _) _ _ _ _ => apply wp_ret
  | |- wp (require _ _) _ _ _ _ => let H := fresh "Hreq" in apply wp_require; [intros _|intros H]
  | |- wp (reject_if _ _) _ _ _ _ => let H := fresh "Hrej" in apply wp_reject_if; [intros _|intros H]
  | |- wp get_u32 _ _ _ _ => let H := fresh "Hw" in apply wp_get_u32_any; [assumption|lia|intros ? ? ? H ? ?]
  | |- wp get_i64 _ _ _ _ => let H := fresh "Hw" in apply wp_get_i64_any; [assumption|lia|intros ? ? H ? ?]
  | |- wp (getting proto_read_f64) _ _ _ _ =>
      let H := fresh "Hw" in apply wp_get_i64_any; [assumption|lia|intros ? ? H ? ?]
  | |- wp get_u8 _ _ _ _ => let H := fresh "Hw" in apply wp_get_u8_any; [assumption|lia|intros ? ? H ? ?]
  | |- wp (get_bytes _) _ _ _ _ => let H := fresh "Hw" in apply wp_get_bytes_any; [assumption|lia|intros ? ? H ? ?]
  end.

(** The shape of a decoded result. *)
Definition well_shaped (r : QueryResultSet) : Prop :=
  Z.of_nat (length (column_names r)) <= RPC_RESULT_MAX_COLUMNS ∧
  length (column_types r) = length (column_names r) ∧
  Z.of_nat (length (rows r)) <= RPC_RESULT_MAX_ROWS ∧
  Forall (λ row, length row = length (column_names r)) (rows r) ∧
  Z.of_nat (length (string_rows r)) <= RPC_RESULT_MAX_STRING_CELLS.

Lemma well_shaped_error what r : well_shaped r → well_shaped (with_error what r).
Proof. done. Qed.

Ltac any_run := repeat (any_step; try solve [assumption | apply well_shaped_error; assumption]).

Lemma well_shaped_names names types r :
  well_shaped r → length names = length (column_names r) → length types = length (column_types r) →
  well_shaped (with_names names types r).
Proof. unfold well_shaped. simpl. intros (? & ? & ? & ? & ?) -> ->. done. Qed.

Lemma any_read_columns n i Q r p :
  Forall is_byte p → well_shaped r →
  (∀ r' p, Forall is_byte p → well_shaped r' → length (column_names r') = length (column_names r) →
    string_rows r' = string_rows r → Q tt r' p) →
  wp (read_columns n i) well_shaped Q r p.
Proof.
  revert i r p. induction n as [|n IH]; intros i r p Hp Hr HQ; [by apply wp_ret, HQ|].
  cbn [read_columns]. any_run.
  apply orb_false_iff in Hrej as [Hle%negb_false_iff%Z.leb_le Hlt%Z.ltb_ge].
  any_run. destruct (type_of_code _) as [t|]; any_run.
  - apply IH; [done|by repeat (apply well_shaped_names; [|by rewrite ?length_insert..])|].
    intros r' p1 Hp1 Hr1. cbn [column_names with_names]. rewrite length_insert. by apply HQ.
  - by apply well_shaped_names; rewrite ?length_insert.
  - done.
Qed.

Lemma any_read_cells n ri ci Q r p :
  Forall is_byte p → well_shaped r →
  (∀ r' p, Forall is_byte p → well_shaped r' → string_rows r' = string_rows r → Q tt r' p) →
  wp (read_cells n ri ci) well_shaped Q r p.
Proof.
  revert ci r p. induction n as [|n IH]; intros ci r p Hp Hr HQ; [by apply wp_ret, HQ|].
  cbn [read_cells]. any_run. apply IH; [done| |done].
  destruct Hr as (? & ? & ? & Hrows & ?). repeat split; simpl; try done.
  - by rewrite length_alter.
  - apply Forall_alter; [done|]. intros row Hrow Hl. by rewrite length_insert.
Qed.

Lemma any_read_rows n ri ncols Q r p :
  Forall is_byte p → well_shaped r →
  (∀ r' p, Forall is_byte p → well_shaped r' → string_rows r' = string_rows r → Q tt r' p) →
  wp (read_rows n ri ncols) well_shaped Q r p.
Proof.
  revert ri r p. induction n as [|n IH]; intros ri r p Hp Hr HQ; [by apply wp_ret, HQ|].
  cbn [read_rows]. any_run. apply any_read_cells; [done..|]. intros r1 p1 Hp1 Hr1 Hs1.
  apply IH; [done..|]. intros r2 p2 Hp2 Hr2 Hs2. apply HQ; [done..|congruence].
Qed.

Lemma any_read_strings n Q r p :
  Forall is_byte p → well_shaped r →
  Z.of_nat (length (string_rows r) + n) <= RPC_RESULT_MAX_STRING_CELLS →
  (∀ r' p, Forall is_byte p → well_shaped r' → Q tt r' p) →
  wp (read_strings n) well_shaped Q r p.
Proof.
  intros Hp Hr Hn HQ. revert r p Hp Hr Hn. induction n as [|n IH]; intros r p Hp Hr Hn; [by apply wp_ret, HQ|].
  cbn [read_strings]. any_run.
  destruct Hr as (? & ? & ? & ? & ?). apply IH; [done| |].
  - repeat split; simpl; try done. rewrite length_app. simpl. lia.
  - simpl. rewrite length_app. simpl. lia.
Qed.

(** Decoding never reads past the end of the payload and never produces an
    oversized result, whatever bytes arrive: every payload is decoded to a
    result with at most 4096 columns, a type for each, at most a million rows of
    exactly that many cells, and at most a million strings. *)
Theorem result_decoding_in_bounds data :
  Forall is_byte data → ∃ r, deserialize_result (Some data) = Some r ∧ well_shaped r.
Proof.
  intros Hdata. assert (wp read_result well_shaped (λ _ r _, well_shaped r) empty_result data) as H.
  2: { unfold deserialize_result, wp in *. destruct (read_result _ _); simpl; eauto. done. }
  assert (well_shaped empty_result) as He by (by repeat split).
  unfold read_result, read_header. any_run. apply any_read_columns; [done| |].
  { apply Z.ltb_ge in Hrej. unfold well_shaped, RPC_RESULT_MAX_COLUMNS in *. simpl.
    rewrite !length_replicate. split_and!; [lia|done|lia|constructor|lia]. }
  intros r1 p1 Hp1 Hr1 Hl1 Hs1. cbn [column_names with_names] in Hl1. rewrite length_replicate in Hl1.
  unfold read_values. any_run. apply any_read_rows; [done| |].
  { apply Z.ltb_ge in Hrej0. destruct Hr1 as (? & ? & ? & ? & ?). split_and!; try done.
    - simpl. rewrite length_replicate. unfold RPC_RESULT_MAX_ROWS in *. lia.
    - apply Forall_replicate. by rewrite length_replicate. }
  intros r2 p2 Hp2 Hr2 Hs2. any_run. unfold read_tail. any_run.
  assert (well_shaped (with_error "proto: trailing result payload" r2)) by done.
  case_match.
  { any_run. by case_match. }
  any_run.
  match goal with H : (RPC_RESULT_MAX_STRING_CELLS <? _) || _ = false |- _ =>
    apply orb_false_iff in H as [Hmax%Z.ltb_ge _] end.
  apply any_read_strings; [done|done| |].
  { rewrite Hs2. simpl. rewrite Hs1. simpl. lia. }
  intros r3 p3 Hp3 Hr3. any_run. by case_match.
Qed.

(** ** Schema-aware rows *)

Definition column_encodable (c : TypedColumnValue) : Prop :=
  Z.of_nat (String.length (tcv_name c)) + 22 < 2 ^ 32 ∧ is_byte (tcv_type c) ∧
  INT64_MIN <= tcv_i64 c <= INT64_MAX ∧ INT64_MIN <= tcv_f64 c <= INT64_MAX ∧
  0 <= tcv_u32 c < 2 ^ 32 ∧ is_byte (tcv_u8 c) ∧
  match tcv_string c with Some s => fits s | None => True end.

Definition row_encodable (row : TypedRowMessage) : Prop :=
  0 <= row_table_id row < 2 ^ 16 ∧ 0 <= row_symbol_id row < 2 ^ 32 ∧
  INT64_MIN <= row_timestamp row <= INT64_MAX ∧
  Z.of_nat (length (row_columns row)) <= RPC_RESULT_MAX_COLUMNS ∧
  Forall column_encodable (row_columns row).

Definition without_string (c : TypedColumnValue) : TypedColumnValue :=
  mkTyped (tcv_name c) (tcv_type c) (tcv_i64 c) (tcv_f64 c) (tcv_u32 c) (tcv_u8 c) None.

Lemma length_write_typed_column c :
  length (write_typed_column c) = (26 + String.length (tcv_name c))%nat.
Proof.
  unfold write_typed_column. rewrite !length_app, length_write_str. simpl. lia.
Qed.

Lemma wp_read_typed_column E c Q r p :
  column_encodable c →
  Q tt (with_columns_of (λ cols, cols ++ [without_string c]) r) p →
  wp read_typed_column E Q r (write_typed_column c ++ p).
Proof.
  intros (Hn & Ht & Hi & Hf & Hu & Hb & _) HQ. unfold read_typed_column, write_typed_column.
  rewrite <- !app_assoc, write_str_split by (unfold fits; lia).
  wp_run. apply wp_require; [rewrite length_app, length_write_u32; lia|]. intros _. wp_run.
  rewrite wrap_small by lia.
  apply wp_require; [rewrite !length_app, length_bytes_of_string; cbn; lia|]. intros _.
  wp_run. apply wp_get_string. wp_run. eapply wp_getting; [done|]. wp_run.
  eapply (wp_getting _ proto_read_f64); [by apply read_write_i64|]. wp_run.
  eapply wp_getting; [done|]. wp_run. by rewrite string_of_bytes_of_string.
Qed.

Lemma wp_read_typed_columns E cols n Q r p :
  n = length cols → Forall column_encodable cols →
  Q tt (with_columns_of (λ l, l ++ (without_string <$> cols)) r) p →
  wp (read_typed_columns n) E Q r ((cols ≫= write_typed_column) ++ p).
Proof.
  intros -> Hall. revert r. induction Hall as [|c cols Hc Hall IH]; intros r HQ.
  { apply wp_ret. destruct r. unfold with_columns_of in HQ. simpl in *. by rewrite app_nil_r in HQ. }
  rewrite bind_cons. cbn [read_typed_columns length]. wp_run. apply wp_read_typed_column; [done|].
  apply IH. unfold with_columns_of in *. simpl in *. by rewrite <- app_assoc.
Qed.

(** The string cells put the strings back. *)
Definition put_string (cols : list TypedColumnValue) (p : Z * string) : list TypedColumnValue :=
  alter (with_string p.2) (Z.to_nat p.1) cols.

Lemma put_strings pre cols :
  foldl put_string (pre ++ (without_string <$> cols))
    (omap (λ p, (λ s, (p.1, s)) <$> tcv_string p.2) (number (Z.of_nat (length pre)) cols)) = pre ++ cols.
Proof.
  revert pre. induction cols as [|c cols IH]; intros pre; [done|].
  specialize (IH (pre ++ [c])). rewrite <- !app_assoc in IH.
  replace (Z.of_nat (length (pre ++ [c]))) with (Z.of_nat (length pre) + 1) in IH by (rewrite length_app; simpl; lia).
  cbn. destruct (tcv_string c) as [s|] eqn:Hs; simpl.
  - unfold put_string at 2. simpl. rewrite Nat2Z.id, alter_app_r_alt, Nat.sub_diag by done. simpl.
    assert (with_string s (without_string c) = c) as -> by (destruct c; simpl in Hs; by subst).
    exact IH.
  - assert (without_string c = c) as -> by (destruct c; simpl in Hs; by subst). exact IH.
Qed.

Lemma wp_read_string_cells E (l : list (Z * string)) n ncols Q r p :
  n = length l →
  Forall (λ e, 0 <= e.1 < Z.of_nat ncols ∧ fits e.2) l → Z.of_nat ncols <= RPC_RESULT_MAX_COLUMNS →
  Q tt (with_columns_of (λ cols, foldl put_string cols l) r) p →
  wp (read_string_cells n ncols) E Q r ((l ≫= λ e, proto_write_u32 (u32 e.1) ++ proto_write_str e.2) ++ p).
Proof.
  intros -> Hall Hmax. unfold RPC_RESULT_MAX_COLUMNS in Hmax.
  revert r. induction Hall as [|[i s] l [Hi Hs] Hall IH]; intros r HQ.
  { apply wp_ret. by destruct r. }
  rewrite bind_cons, <- app_assoc, write_str_split by done. cbn [read_string_cells length fst snd] in *.
  rewrite wrap_small by lia. unfold read_string_cell.
  wp_run. apply wp_require; [rewrite length_app, length_write_u32; lia|]. intros _. wp_run.
  apply wp_reject_if; [intros H%Z.leb_le; lia|]. intros _.
  wp_run. apply wp_require; [rewrite length_app, length_write_u32; lia|]. intros _. wp_run.
  { unfold fits in Hs. lia. }
  apply wp_require; [rewrite length_app, length_bytes_of_string; lia|]. intros _.
  wp_run. apply wp_get_string. wp_run. rewrite string_of_bytes_of_string. by apply IH.
Qed.

Lemma string_columns_ok cols :
  Forall column_encodable cols →
  Forall (λ e, 0 <= e.1 < Z.of_nat (length cols) ∧ fits e.2) (string_columns cols).
Proof.
  intros Hall. apply Forall_forall. intros [i s] ([j c] & Hin & Hs)%list_elem_of_omap.
  apply elem_of_number in Hin as [Hj Hc]. simpl in *. destruct (tcv_string c) as [s'|] eqn:Hs'; simplify_eq/=.
  rewrite Z.sub_0_r in Hc. apply (Forall_lookup_1 _ _ _ _ Hall) in Hc as Hok.
  apply lookup_lt_Some in Hc. destruct Hok as (_ & _ & _ & _ & _ & _ & Hok). rewrite Hs' in Hok. split; [lia|done].
Qed.

Lemma length_string_columns cols : (length (string_columns cols) <= length cols)%nat.
Proof.
  unfold string_columns. generalize 0. induction cols as [|c cols IH]; intros i; [done|]. cbn.
  specialize (IH (i + 1)). destruct (tcv_string c); simpl; lia.
Qed.

Lemma wp_read_string_tail E cols Q r :
  Forall column_encodable cols → Z.of_nat (length cols) <= RPC_RESULT_MAX_COLUMNS →
  row_columns r = without_string <$> cols →
  Q tt (with_columns_of (λ _, cols) r) [] →
  wp (read_string_tail (Z.of_nat (length cols))) E Q r (write_string_tail cols).
Proof.
  intros Hcols Hmax Hr HQ. pose proof (put_strings [] cols) as Hput.
  change (foldl put_string (without_string <$> cols) (string_columns cols) = cols) in Hput.
  pose proof (string_columns_ok cols Hcols) as Hok. pose proof (length_string_columns cols) as Hle.
  unfold read_string_tail, write_string_tail. unfold RPC_RESULT_MAX_COLUMNS in Hmax.
  destruct (string_columns cols) as [|e l] eqn:He.
  { wp_run. simpl in Hput. rewrite <- Hput, <- Hr in HQ. by destruct r. }
  rewrite <- He in *. rewrite (wrap_small 32) by lia. wp_run.
  rewrite (proj2 (Z.eqb_neq _ _)) by (rewrite length_app, length_write_u32; lia).
  wp_run. apply wp_require; [rewrite !length_app, length_write_u32; lia|]. intros _. wp_run.
  apply wp_reject_if.
  { intros [H%Z.ltb_lt|H%Z.ltb_lt]%orb_true_iff; [lia|].
    pose proof (length_bind_ge (λ e, proto_write_u32 (u32 e.1) ++ proto_write_str e.2) (string_columns cols) 8) as Hlen.
    assert (∀ x : Z * string, 8 <= length (proto_write_u32 (u32 x.1) ++ proto_write_str x.2))%nat as Hx.
    { intros x. rewrite length_app, length_write_u32, length_write_str. lia. }
    specialize (Hlen Hx).
    assert (Z.of_nat (length (string_columns cols)) <= Z.of_nat (length (string_columns cols ≫=
      λ e, proto_write_u32 (u32 e.1) ++ proto_write_str e.2)) / 8); [|lia].
    apply Z.div_le_lower_bound; lia. }
  intros _. wp_run. rewrite !Nat2Z.id, <- (app_nil_r (string_columns cols ≫= _)).
  apply wp_read_string_cells; [done|done|unfold RPC_RESULT_MAX_COLUMNS; lia|]. wp_run.
  apply wp_reject_if; [done|]. intros _. unfold with_columns_of in *. by rewrite Hr, Hput.
Qed.

(** A row that ingest forwards arrives as it was: decoding what
    [serialize_typed_row] wrote returns [true] with the same table, symbol,
    timestamp and columns, strings included, and overwrites whatever was in the
    output. *)
Theorem typed_row_roundtrip row out :
  row_encodable row → deserialize_typed_row (serialize_typed_row row) out = Some (true, row).
Proof.
  intros (Ht & Hs & Hts & Hmax & Hcols).
  assert (wp read_typed_row (λ _, False) (λ _ r' _, r' = row) out (serialize_typed_row row)) as H.
  2: { unfold deserialize_typed_row, wp in *. by destruct (read_typed_row _ _); [subst|done|done]. }
  unfold read_typed_row, serialize_typed_row. unfold RPC_RESULT_MAX_COLUMNS in Hmax.
  rewrite (wrap_small 32) by lia. set (cols := row_columns row) in *.
  wp_run. apply wp_require; [rewrite !length_app; simpl; lia|]. intros _. wp_run.
  apply wp_reject_if; [intros H%Z.ltb_lt; lia|]. intros _. wp_run.
  apply wp_reject_if.
  { unfold RPC_RESULT_MAX_COLUMNS. intros [H%Z.ltb_lt|H%Z.ltb_lt]%orb_true_iff; [lia|].
    pose proof (length_bind_ge write_typed_column cols 26) as Hlen.
    assert (Z.of_nat (length cols) <=
      Z.of_nat (length ((cols ≫= write_typed_column) ++ write_string_tail cols)) / 26); [|lia].
    apply Z.div_le_lower_bound; [lia|]. rewrite length_app.
    assert (∀ x, 26 <= length (write_typed_column x))%nat as Hx by (intros; rewrite length_write_typed_column; lia).
    specialize (Hlen Hx). lia. }
  intros _. wp_run. rewrite Nat2Z.id. apply wp_read_typed_columns; [done|done|].
  apply wp_read_string_tail; [done|done|done|]. by destruct row.
Qed.

(** ** Schema-aware rows: arbitrary payloads *)

Ltac typed_step :=
  any_step; try match goal with Hs : no_wrap ?p, Hi : no_wrap ?p → _ |- _ => specialize (Hi Hs) end;
  try match goal with H : _ + 22 < _ ∧ no_wrap _ |- _ => destruct H end;
  try exact I.

Definition any_row (r : TypedRowMessage) : Prop := True.

Lemma any_read_typed_columns n Q r p :
  Forall is_byte p → no_wrap p → (∀ r' p, Forall is_byte p → no_wrap p → Q tt r' p) →
  wp (read_typed_columns n) any_row Q r p.
Proof.
  intros Hp Hs HQ. revert r p Hp Hs. induction n as [|n IH]; intros r p Hp Hs; [by apply wp_ret, HQ|].
  cbn [read_typed_columns]. unfold read_typed_column. do 7 typed_step.
  match goal with H : u32 _ <= _ |- _ => rewrite wrap_small in H by lia end. repeat typed_step. by apply IH.
Qed.

Lemma any_read_string_cells n ncols Q r p :
  Forall is_byte p → (∀ r' p, Forall is_byte p → Q tt r' p) →
  wp (read_string_cells n ncols) any_row Q r p.
Proof.
  intros Hp HQ. revert r p Hp. induction n as [|n IH]; intros r p Hp; [by apply wp_ret, HQ|].
  cbn [read_string_cells]. unfold read_string_cell. repeat typed_step. by apply IH.
Qed.

(** Executions that end out of bounds. *)
Lemma over_bind {R A B} (m : decoder R A) (f : A → decoder R B) r p :
  wp m (λ _, False) (λ a r p, f a r p = OverRead) r p → (m ≫= f) r p = OverRead.
Proof. unfold wp, mbind, decoder_bind. by destruct (m r p). Qed.

Lemma over_bind_l {R A B} (m : decoder R A) (f : A → decoder R B) r p :
  m r p = OverRead → (m ≫= f) r p = OverRead.
Proof. intros H. unfold mbind, decoder_bind. by rewrite H. Qed.

Ltac over_step := cbv beta; apply over_bind; try wp_step.

(** Decoding a forwarded row reads past the end of the message exactly
    through the wrap-around of [name_len + 22]: with no such length among the
    bytes the decoder stays inside the message, but a message of any size below
    four gigabytes whose first column claims a name of 2^32 - 22 bytes or more
    passes the check and is read out of bounds. *)
Theorem typed_row_overread :
  (∀ data out, Forall is_byte data → no_wrap data → deserialize_typed_row data out ≠ None) ∧
  (∀ table symbol ts count name_len rest out,
    0 <= table < 2 ^ 16 → 0 <= symbol < 2 ^ 32 → INT64_MIN <= ts <= INT64_MAX →
    1 <= count <= RPC_RESULT_MAX_COLUMNS → count * 26 <= 4 + Z.of_nat (length rest) →
    2 ^ 32 - 22 <= name_len < 2 ^ 32 → Z.of_nat (length rest) < name_len →
    deserialize_typed_row (proto_write_u32 table ++ proto_write_u32 symbol ++ proto_write_i64 ts ++
      proto_write_u32 count ++ proto_write_u32 name_len ++ rest) out = None).
Proof.
  split.
  - intros data out Hp Hs. assert (wp read_typed_row any_row (λ _ _ _, True) out data) as H.
    2: { unfold deserialize_typed_row, wp in *. by destruct (read_typed_row out data). }
    unfold read_typed_row. repeat typed_step. apply any_read_typed_columns; [done..|].
    intros r p Hp1 Hs1. unfold read_string_tail. do 2 typed_step. case_match; [done|].
    repeat typed_step. apply any_read_string_cells; [done|]. intros r2 p2 Hp2. by repeat typed_step.
  - intros table symbol ts count name_len rest out Ht Hs Hts Hc Hlen Hn Hrest.
    unfold RPC_RESULT_MAX_COLUMNS in Hc.
    assert (read_typed_row out (proto_write_u32 table ++ proto_write_u32 symbol ++ proto_write_i64 ts ++
      proto_write_u32 count ++ proto_write_u32 name_len ++ rest) = OverRead) as H.
    2: { unfold deserialize_typed_row. by rewrite H. }
    unfold read_typed_row. over_step. apply wp_require; [rewrite !length_app; simpl; lia|intros _].
    do 5 over_step. over_step. apply wp_reject_if; [intros H%Z.ltb_lt; lia|intros _]. over_step.
    over_step. apply wp_reject_if.
    { unfold RPC_RESULT_MAX_COLUMNS. rewrite length_app, length_write_u32.
      intros [H%Z.ltb_lt|H%Z.ltb_lt]%orb_true_iff; [lia|].
      assert (count <= Z.of_nat (4 + length rest) / 26); [|lia]. apply Z.div_le_lower_bound; lia. }
    intros _. over_step. apply over_bind_l. assert (Z.to_nat count = S (Z.to_nat (count - 1))) as -> by lia.
    cbn [read_typed_columns]. apply over_bind_l. unfold read_typed_column.
    over_step. apply wp_require; [rewrite length_app, length_write_u32; lia|intros _].
    over_step. over_step. apply wp_require.
    { unfold wrap. assert ((name_len + 22) mod 2 ^ 32 = name_len + 22 - 2 ^ 32) as ->; [|lia].
      symmetry. apply (Z.mod_unique _ _ 1); lia. }
    intros _. apply over_bind_l. unfold get_bytes, getting, proto_read_bytes.
    by rewrite (proj2 (Z.leb_gt _ _)) by lia.
Qed.

(** ** WAL batches and metrics requests *)

Lemma objects_join msgs :
  Forall (λ m, length m = tick_size) msgs → objects (length msgs) (mjoin msgs) = msgs.
Proof.
  induction 1 as [|m msgs Hm Hall IH]; [done|]. change (mjoin (m :: msgs)) with (m ++ mjoin msgs).
  cbn [length objects]. by rewrite take_app_length', drop_app_length', IH by done.
Qed.

Lemma length_join_const (msgs : list (list Z)) n :
  Forall (λ m, length m = n) msgs → length (mjoin msgs) = (length msgs * n)%nat.
Proof. induction 1 as [|m msgs Hm Hall IH]; [done|]. simpl. rewrite length_app. fold (mjoin msgs). lia. Qed.

Lemma wal_batch_roundtrip msgs :
  Forall (λ m, length m = tick_size) msgs → Z.of_nat (length msgs) < 2 ^ 32 →
  deserialize_wal_batch (serialize_wal_batch msgs) = Some msgs.
Proof.
  intros Hall Hlen. unfold deserialize_wal_batch, serialize_wal_batch. rewrite wrap_small by lia.
  rewrite (proj2 (Z.ltb_ge _ 4)) by (rewrite length_app, length_write_u32; lia).
  rewrite read_write_u32 by lia. simpl. rewrite (proj2 (Z.ltb_ge _ _)).
  - by rewrite Nat2Z.id, objects_join.
  - rewrite (length_join_const _ _ Hall). unfold tick_size. lia.
Qed.

Lemma metrics_request_roundtrip since_ms limit :
  INT64_MIN <= since_ms <= INT64_MAX → 0 <= limit < 2 ^ 32 →
  deserialize_metrics_request (serialize_metrics_request since_ms limit) = Some (since_ms, limit).
Proof.
  intros Hs Hl. unfold deserialize_metrics_request, serialize_metrics_request.
  rewrite length_app, length_write_i64, length_write_u32. simpl (_ <? _). cbv iota.
  rewrite read_write_i64 by done. cbn [mbind option_bind].
  rewrite <- (app_nil_r (proto_write_u32 limit)). by rewrite read_write_u32 by done.
Qed.

(** ** Witnesses *)

Definition sample_dict : StringDictionary := mkDict ["AAPL"; "MSFT"] [true; true] ∅.
Definition sample_result : QueryResultSet :=
  mkResultSet ["symbol"; "price"; "note"] [SYMBOL; INT64] [[1; -5; 7]; [0; 12]] [] [] (Some sample_dict) 2 "".

Lemma result_roundtrip_witness :
  deserialize_result (Some (serialize_result sample_result)) =
    Some (mkResultSet ["symbol"; "price"; "note"] [SYMBOL; INT64; INT64] [[1; -5; 7]; [0; 12; 0]] []
            ["MSFT"; "AAPL"] None 0 "").
Proof.
  rewrite (result_roundtrip sample_result); [vm_compute; reflexivity|].
  unfold encodable, fits. apply (bool_decide_unpack _). vm_compute. reflexivity.
Defined.

Lemma result_decoding_in_bounds_witness : ∃ r, deserialize_result (Some [255; 0; 0; 0; 65]) = Some r ∧ well_shaped r.
Proof.
  apply result_decoding_in_bounds. unfold is_byte. apply (bool_decide_unpack _). vm_compute. reflexivity.
Defined.

Definition sample_row : TypedRowMessage :=
  mkTypedRow 3 70000 (-1) [mkTyped "px" 1 42 0 0 0 None; mkTyped "sym" 5 0 0 7 0 (Some "AAPL"%string)].

Lemma typed_row_roundtrip_witness :
  deserialize_typed_row (serialize_typed_row sample_row) (mkTypedRow 0 0 0 []) = Some (true, sample_row).
Proof.
  apply typed_row_roundtrip. unfold row_encodable. unfold RPC_RESULT_MAX_COLUMNS, INT64_MIN, INT64_MAX.
  cbn [sample_row row_table_id row_symbol_id row_timestamp row_columns length]. split_and!; try lia.
  repeat constructor; unfold column_encodable, is_byte, fits; apply (bool_decide_unpack _); vm_compute; reflexivity.
Defined.

(** A message of 46 bytes whose only column claims a name of 4294967274 bytes. *)
Lemma typed_row_overread_witness :
  deserialize_typed_row (proto_write_u32 0 ++ proto_write_u32 0 ++ proto_write_i64 0 ++
    proto_write_u32 1 ++ proto_write_u32 4294967274 ++ replicate 22 0) (mkTypedRow 0 0 0 []) = None.
Proof.
  destruct typed_row_overread as [_ H].
  apply H; rewrite ?length_replicate; unfold RPC_RESULT_MAX_COLUMNS, INT64_MIN, INT64_MAX; lia.
Defined.
