(* ===== verification/Coordinator.v ===== *)
(** * The query coordinator: nodes and their queries

    Models [include/zeptodb/cluster/query_coordinator.h] and the first part of
    [src/cluster/query_coordinator.cpp]: the registered nodes, the placement of
    tables, the execution of a query on one node or on all of them, and the
    bounded fetch of a whole table. A node's pipeline with its executor, and what
    is behind the network, are parameters ([Pipeline], [Network]); the node's
    state is threaded through every call. Calls that the code makes in parallel
    are made in the order of the endpoints; each of them touches its own node
    only. Locks make a public method one step. *)

From S2P Require Import Prelude.
From S2P Require Import Text.
From S2P Require Import ColumnStore.
From S2P Require Import StringDictionary.
From S2P Require Import SchemaRegistry.
From S2P Require Import PartitionRouter.
From S2P Require Import HealthMonitor.
From S2P Require Import RingBuffer.
From S2P Require Import Ast.
From S2P Require Import PartialAgg.
From S2P Require Import Parser.
From S2P Require Import MergePlan.
From S2P Require Import Rpc.
From stdpp Require Import base list strings sorting fin_maps.
From Stdlib Require Import ZArith Lia.

Open Scope Z_scope.

(** ** What a node can do *)

(** A pipeline with its schema registry and its executor. *)
Class Pipeline (T : Type) : Type := {
  new_pipeline : T;
  schema_registry : T → SchemaRegistry;
  set_schema_registry : SchemaRegistry → T → T;
  save_schema_catalog : T → bool * T;
  ingest_typed_row : TypedRowMessage → T → bool * T;
  store_tick_direct : TickMessage → T → T;
  execute_local : string → T → QueryResultSet * T;
}.

(** A query sent to a node, with the greatest answer that is accepted. *)
Class Network (R : Type) : Type := {
  rpc_execute : NodeAddress → string → option Z → R → QueryResultSet * R;
}.

#[export] Instance TablePlacementPolicy_eq_dec : EqDecision TablePlacementPolicy.
Proof. solve_decision. Defined.

(** ** State *)

Record NodeEndpoint : Type := mkEndpoint {
  addr : NodeAddress;
  has_rpc : bool;
  pipeline : option Z; (** its address *)
  is_local : bool;
}.

Inductive SmallTableJoinPolicy : Type := JoinDisabled | BoundedBroadcast.
Inductive WindowMaterializationPolicy : Type := WindowDisabled | BoundedCoordinatorLocal.

Record SmallTableJoinConfig : Type := mkJoinConfig {
  join_policy : SmallTableJoinPolicy;
  join_row_limit : Z;
  join_max_bytes : Z;
  join_max_latency : Z;
}.
Record WindowMaterializationConfig : Type := mkWindowConfig {
  window_policy : WindowMaterializationPolicy;
  window_row_limit : Z;
  window_max_bytes : Z;
  window_max_latency : Z;
}.

(** The counters of both telemetries; [LastLeftRows] is [last_rows] of the second. *)
Inductive counter : Type :=
  | Candidates | Accepted | RejectedRowCap | RejectedByteCap | RejectedLatencyCap | Errors
  | RowsMaterialized | BytesMaterialized | LastLeftRows | LastRightRows | LastMaterializedBytes | LastLatencyUs.
#[export] Instance counter_eq_dec : EqDecision counter.
Proof. solve_decision. Defined.

Definition telemetry : Type := counter → Z.
Definition no_telemetry : telemetry := λ _, 0.
Definition store (c : counter) (n : Z) (t : telemetry) : telemetry := λ c', if decide (c' = c) then n else t c'.
Definition fetch_add (c : counter) (n : Z) (t : telemetry) : telemetry := store c (u64 (t c + n)) t.

(** [router_] is what [router()] returns: the coordinator's own router or, after
    [set_shared_router], the caller's ([external_router_]). While the caller's is in
    use, [own_router_] holds the coordinator's own one. [executed_] records every query
    that was run on an endpoint, oldest first. *)
Record Coordinator (T R : Type) : Type := mkCoordinator {
  endpoints_ : list NodeEndpoint;
  router_ : PartitionRouter;
  own_router_ : option PartitionRouter;
  small_table_join_config_ : SmallTableJoinConfig;
  window_materialization_config_ : WindowMaterializationConfig;
  small_table_join_stats_ : telemetry;
  window_materialization_stats_ : telemetry;
  pipelines : Z → T;
  remotes : R;
  executed_ : list (Z * string);
}.
Arguments mkCoordinator {T R}.
Arguments endpoints_ {T R}.
Arguments router_ {T R}.
Arguments own_router_ {T R}.
Arguments small_table_join_config_ {T R}.
Arguments window_materialization_config_ {T R}.
Arguments small_table_join_stats_ {T R}.
Arguments window_materialization_stats_ {T R}.
Arguments pipelines {T R}.
Arguments remotes {T R}.
Arguments executed_ {T R}.

Section State.
Context {T R : Type}.

Definition default_join_config : SmallTableJoinConfig := mkJoinConfig BoundedBroadcast 4096 (8 * 1024 * 1024) 0.
Definition default_window_config : WindowMaterializationConfig :=
  mkWindowConfig BoundedCoordinatorLocal 65536 (64 * 1024 * 1024) 0.

(** A new coordinator among nodes in any state. *)
Definition new_coordinator (pipes : Z → T) (net : R) : Coordinator T R :=
  mkCoordinator [] empty_router None default_join_config default_window_config no_telemetry no_telemetry pipes net [].

Definition set_endpoints (eps : list NodeEndpoint) (c : Coordinator T R) : Coordinator T R :=
  mkCoordinator eps (router_ c) (own_router_ c) (small_table_join_config_ c) (window_materialization_config_ c)
    (small_table_join_stats_ c) (window_materialization_stats_ c) (pipelines c) (remotes c) (executed_ c).
Definition set_router (r : PartitionRouter) (c : Coordinator T R) : Coordinator T R :=
  mkCoordinator (endpoints_ c) r (own_router_ c) (small_table_join_config_ c) (window_materialization_config_ c)
    (small_table_join_stats_ c) (window_materialization_stats_ c) (pipelines c) (remotes c) (executed_ c).
Definition set_join_config (cfg : SmallTableJoinConfig) (c : Coordinator T R) : Coordinator T R :=
  mkCoordinator (endpoints_ c) (router_ c) (own_router_ c) cfg (window_materialization_config_ c)
    (small_table_join_stats_ c) (window_materialization_stats_ c) (pipelines c) (remotes c) (executed_ c).
Definition set_window_config (cfg : WindowMaterializationConfig) (c : Coordinator T R) : Coordinator T R :=
  mkCoordinator (endpoints_ c) (router_ c) (own_router_ c) (small_table_join_config_ c) cfg
    (small_table_join_stats_ c) (window_materialization_stats_ c) (pipelines c) (remotes c) (executed_ c).
Definition set_join_stats (f : telemetry → telemetry) (c : Coordinator T R) : Coordinator T R :=
  mkCoordinator (endpoints_ c) (router_ c) (own_router_ c) (small_table_join_config_ c) (window_materialization_config_ c)
    (f (small_table_join_stats_ c)) (window_materialization_stats_ c) (pipelines c) (remotes c) (executed_ c).
Definition set_window_stats (f : telemetry → telemetry) (c : Coordinator T R) : Coordinator T R :=
  mkCoordinator (endpoints_ c) (router_ c) (own_router_ c) (small_table_join_config_ c) (window_materialization_config_ c)
    (small_table_join_stats_ c) (f (window_materialization_stats_ c)) (pipelines c) (remotes c) (executed_ c).
Definition set_pipeline (p : Z) (t : T) (c : Coordinator T R) : Coordinator T R :=
  mkCoordinator (endpoints_ c) (router_ c) (own_router_ c) (small_table_join_config_ c) (window_materialization_config_ c)
    (small_table_join_stats_ c) (window_materialization_stats_ c)
    (λ q, if q =? p then t else pipelines c q) (remotes c) (executed_ c).
Definition set_remotes (net : R) (c : Coordinator T R) : Coordinator T R :=
  mkCoordinator (endpoints_ c) (router_ c) (own_router_ c) (small_table_join_config_ c) (window_materialization_config_ c)
    (small_table_join_stats_ c) (window_materialization_stats_ c) (pipelines c) net (executed_ c).
Definition record_call (id : Z) (sql : string) (c : Coordinator T R) : Coordinator T R :=
  mkCoordinator (endpoints_ c) (router_ c) (own_router_ c) (small_table_join_config_ c) (window_materialization_config_ c)
    (small_table_join_stats_ c) (window_materialization_stats_ c) (pipelines c) (remotes c)
    (executed_ c ++ [(id, sql)]).

(** [set_shared_router]: the caller's router takes the place of the own one, or with
    a null pointer the own one comes back. *)
Definition set_shared_router (shared : option PartitionRouter) (c : Coordinator T R) : Coordinator T R :=
  let own := default (router_ c) (own_router_ c) in
  let '(r, idle) := match shared with Some r => (r, Some own) | None => (own, None) end in
  mkCoordinator (endpoints_ c) r idle (small_table_join_config_ c) (window_materialization_config_ c)
    (small_table_join_stats_ c) (window_materialization_stats_ c) (pipelines c) (remotes c) (executed_ c).

(** The owner of a shared router changes it. *)
Definition shared_router_changed (r : PartitionRouter) (c : Coordinator T R) : Coordinator T R :=
  match own_router_ c with Some _ => set_router r c | None => c end.

(** ** A state monad with exceptions *)

Definition M (A : Type) : Type := Coordinator T R → outcome A * Coordinator T R.

#[export] Instance M_ret : MRet M := λ _ a c, (Returned a, c).
#[export] Instance M_bind : MBind M := λ _ _ f m c,
  match m c with
  | (Returned a, c) => f a c
  | (Thrown e, c) => (Thrown e, c)
  end.
#[export] Instance M_fmap : FMap M := λ _ _ f m, x ← m; mret (f x).

Definition gets {A} (f : Coordinator T R → A) : M A := λ c, (Returned (f c), c).
Definition modify (f : Coordinator T R → Coordinator T R) : M unit := λ c, (Returned tt, f c).
(** [try { m } catch (...) { handler }] *)
Definition try_catch {A} (m handler : M A) : M A := λ c,
  match m c with
  | (Returned a, c) => (Returned a, c)
  | (Thrown _, c) => handler c
  end.

Fixpoint map_m {A B} (f : A → M B) (l : list A) : M (list B) :=
  match l with
  | [] => mret []
  | x :: l => y ← f x; ys ← map_m f l; mret (y :: ys)
  end.
End State.

Arguments M : clear implicits.

(** ** Arithmetic on sizes *)

Definition SIZE_MAX : Z := 2 ^ 64 - 1.
Definition saturating_add (lhs rhs : Z) : Z := if SIZE_MAX - rhs <? lhs then SIZE_MAX else lhs + rhs.
Definition saturating_multiply (lhs rhs : Z) : Z :=
  if negb (lhs =? 0) && (SIZE_MAX / lhs <? rhs) then SIZE_MAX else lhs * rhs.
Definition size_to_u64 (value : Z) : Z := Z.min value (2 ^ 64 - 1).

(** ** Sizes of results *)

Definition in_uint32 (raw : Z) : bool := (0 <=? raw) && (raw <=? 2 ^ 32 - 1).

(** The codes of a row's encoded cells. *)
Definition encoded_cells (types : list ColumnType) (row : list Z) : list Z :=
  mjoin (zip_with (λ t v, if string_encoded t then [v] else []) types row).

Definition cells_bytes (rows : list (list Z)) : Z :=
  foldl (λ bytes row, saturating_add bytes (saturating_multiply (Z.of_nat (length row)) 8)) 0 rows.

Definition estimate_result_bytes (r : QueryResultSet) : Z :=
  let bytes := cells_bytes (rows r) in
  let bytes := foldl (λ bytes row, saturating_add bytes (saturating_multiply (Z.of_nat (length row)) 8)) bytes (typed_rows r) in
  match string_rows r, symbol_dict r with
  | _ :: _, _ => foldl (λ bytes s, saturating_add bytes (Z.of_nat (String.length s))) bytes (string_rows r)
  | [], Some dict =>
      foldl (λ bytes row,
        foldl (λ bytes raw,
          if in_uint32 raw then saturating_add bytes (Z.of_nat (String.length (StringDictionary.lookup dict raw))) else bytes)
        bytes (encoded_cells (column_types r) row)) bytes (rows r)
  | [], None => bytes
  end.

(** ** Strings of results *)

Definition strings_per_row (types : list ColumnType) : nat := length (List.filter string_encoded types).

Definition decoded_string_cell (r : QueryResultSet) (row_idx col_idx : nat) : option string :=
  match column_types r !! col_idx with
  | Some t =>
      if string_encoded t then
        let per_row := strings_per_row (column_types r) in
        let position := strings_per_row (take col_idx (column_types r)) in
        match string_rows r !! (row_idx * per_row + position)%nat with
        | Some s => Some s
        | None =>
            match symbol_dict r, rows r !! row_idx ≫= lookup col_idx with
            | Some dict, Some raw => if in_uint32 raw then Some (StringDictionary.lookup dict raw) else None
            | _, _ => None
            end
        end
      else None
  | None => None
  end.

Definition with_strings (strings : list string) (r : QueryResultSet) : QueryResultSet :=
  mkResultSet (column_names r) (column_types r) (rows r) (typed_rows r) strings None (rows_scanned r) (error r).

(** The strings are copied out of the dictionary, which the result then no longer
    refers to. *)
Definition snapshot_decoded_string_rows (r : QueryResultSet) : QueryResultSet :=
  match string_rows r, symbol_dict r with
  | _ :: _, _ => with_strings (string_rows r) r
  | [], None => r
  | [], Some dict =>
      with_strings
        (rows r ≫= λ row,
           (λ raw, if in_uint32 raw then StringDictionary.lookup dict raw else ""%string) <$> encoded_cells (column_types r) row) r
  end.

Section Coordinator.
Context {T R : Type} {HT : Pipeline T} {HR : Network R}.

Notation coordinator := (Coordinator T R).
Notation m := (M T R).

(** ** Placement of tables *)

(** The schema of the first local pipeline that has the table. *)
Definition find_schema (c : coordinator) (table : string) : option TableSchema :=
  head (omap (λ ep,
    if is_local ep then p ← pipeline ep; SchemaRegistry.get (schema_registry (pipelines c p)) table else None) (endpoints_ c)).
Definition schema_snapshot (c : coordinator) (table : string) : option TableSchema :=
  if String.eqb table "" then None else find_schema c table.

Definition resolve_routing_table_id (c : coordinator) (table : option string) : Z :=
  match table with
  | Some t => match schema_snapshot c t with Some s => table_id s | None => 0 end
  | None => 0
  end.

(** Sorted, without duplicates. *)
Definition local_pipelines (c : coordinator) : list Z :=
  merge_sort Z.le (remove_dups (omap (λ ep, if is_local ep then pipeline ep else None) (endpoints_ c))).

Definition to_cluster_placement_policy (m : TablePlacementMode) : TablePlacementPolicy :=
  match m with
  | SchemaRegistry.HashByTable => HashByTable
  | SchemaRegistry.PinnedNode => PinnedNode
  | SchemaRegistry.HashByTableAndSymbol => HashByTableAndSymbol
  end.

Definition to_schema_placement_options (policy : TablePlacementPolicy) (node : Z) : TablePlacementOptions :=
  match policy with
  | HashByTableAndSymbol => no_placement
  | HashByTable => mkPlacement true SchemaRegistry.HashByTable node
  | PinnedNode => mkPlacement true SchemaRegistry.PinnedNode node
  end.

(** The error, or the router with the schema's placement. *)
Definition apply_schema_placement (s : TableSchema) (r : PartitionRouter) : string + PartitionRouter :=
  if table_id s =? 0 then inl "catalog placement requires non-zero table_id"%string
  else if negb (configured (placement s)) then inr (clear_table_placement r (table_id s))
  else
    let policy := to_cluster_placement_policy (mode (placement s)) in
    let node := placement_node (placement s) in
    if bool_decide (policy = PinnedNode) && negb (bool_decide (node ∈ all_nodes r)) then
      inl ("catalog placement node " +:+ to_string node +:+ " for table '" +:+ table_name s +:+ "' is not registered")%string
    else match set_table_placement r (table_id s) policy node with
         | Returned r => inr r
         | Thrown e => inl e
         end.

(** Until the first error. *)
Fixpoint apply_placements (ss : list TableSchema) (r : PartitionRouter) : option string * PartitionRouter :=
  match ss with
  | [] => (None, r)
  | s :: ss =>
      match apply_schema_placement s r with
      | inl e => (Some e, r)
      | inr r => apply_placements ss r
      end
  end.

(** Only the first pipeline's catalog is applied: the loop returns in its first
    round. *)
Definition apply_catalog_table_placements : m (option string) := λ c,
  match local_pipelines c with
  | [] => (Returned None, c)
  | p :: _ =>
      let '(e, r) := apply_placements (schemas (schema_registry (pipelines c p))) (router_ c) in
      (Returned e, set_router r c)
  end.

(** ** Nodes *)

Definition registered (c : coordinator) (id : Z) : bool := existsb (λ ep, addr_id (addr ep) =? id) (endpoints_ c).

Definition add_endpoint (ep : NodeEndpoint) : m unit :=
  known ← gets (λ c, registered c (addr_id (addr ep)));
  if known : bool then mret tt
  else
    modify (λ c, set_endpoints (endpoints_ c ++ [ep]) c);;
    modify (λ c, set_router (add_node (router_ c) (addr_id (addr ep))) c);;
    apply_catalog_table_placements;; mret tt.

Definition add_remote_node (a : NodeAddress) : m unit := add_endpoint (mkEndpoint a true None false).
Definition add_local_node (a : NodeAddress) (p : Z) : m unit := add_endpoint (mkEndpoint a false (Some p) true).

Definition remove_node (id : Z) : m unit :=
  modify (λ c, set_endpoints (List.filter (λ ep, negb (addr_id (addr ep) =? id)) (endpoints_ c)) c);;
  modify (λ c, set_router (PartitionRouter.remove_node (router_ c) id) c).

(** The callback registered with the health monitor. *)
Definition on_state_change (id : Z) (new_state : NodeState) : m unit :=
  if bool_decide (new_state = DEAD) then remove_node id else mret tt.

(** *** Placement by hand *)

(** What a catalog update changed, newest first: the pipelines and their previous
    placements. *)
Fixpoint update_catalogs (table : string) (f : SchemaRegistry → bool * SchemaRegistry) (ps : list Z)
    (done : list (Z * TablePlacementOptions)) (c : coordinator) : bool * list (Z * TablePlacementOptions) * coordinator :=
  match ps with
  | [] => (true, done, c)
  | p :: ps =>
      match SchemaRegistry.get (schema_registry (pipelines c p)) table with
      | None => update_catalogs table f ps done c
      | Some previous =>
          let '(ok, r) := f (schema_registry (pipelines c p)) in
          let c := set_pipeline p (set_schema_registry r (pipelines c p)) c in
          if ok : bool then update_catalogs table f ps (done ++ [(p, placement previous)]) c else (false, done, c)
      end
  end.

Definition save_catalog (p : Z) (c : coordinator) : bool * coordinator :=
  let '(ok, t) := save_schema_catalog (pipelines c p) in (ok, set_pipeline p t c).

(** Until the first failure. *)
Fixpoint save_catalogs (ps : list Z) (c : coordinator) : bool * coordinator :=
  match ps with
  | [] => (true, c)
  | p :: ps => let '(ok, c) := save_catalog p c in if ok : bool then save_catalogs ps c else (false, c)
  end.

Definition rollback_catalogs (table : string) (updates : list (Z * TablePlacementOptions)) (c : coordinator) : coordinator :=
  let c := foldl (λ c u, set_pipeline u.1 (set_schema_registry
             (SchemaRegistry.set_placement (schema_registry (pipelines c u.1)) table u.2).2 (pipelines c u.1)) c) c updates in
  foldl (λ c u, (save_catalog u.1 c).2) c updates.

Definition update_and_save (table : string) (f : SchemaRegistry → bool * SchemaRegistry) (update_error save_error : string)
    (c : coordinator) : (string + list (Z * TablePlacementOptions)) * coordinator :=
  let '(ok, updates, c) := update_catalogs table f (local_pipelines c) [] c in
  if negb ok then (inl update_error, rollback_catalogs table updates c)
  else
    let '(ok, c) := save_catalogs updates.*1 c in
    if negb ok then (inl save_error, rollback_catalogs table updates c) else (inr updates, c).

(** [None] is success. *)
Definition set_table_placement (table : string) (policy : TablePlacementPolicy) (node : Z) (c : coordinator) :
    option string * coordinator :=
  match schema_snapshot c table with
  | None => (Some ("table '" +:+ table +:+ "' is not declared")%string, c)
  | Some s =>
      if bool_decide (policy = PinnedNode) && negb (bool_decide (node ∈ all_nodes (router_ c))) then
        (Some ("pinned table placement node " +:+ to_string node +:+ " is not registered")%string, c)
      else
        let '(res, c) := update_and_save table (λ r, SchemaRegistry.set_placement r table (to_schema_placement_options policy node))
          ("failed to update table placement metadata for table '" +:+ table +:+ "'")
          ("failed to persist table placement for table '" +:+ table +:+ "'") c in
        match res with
        | inl e => (Some e, c)
        | inr updates =>
            match PartitionRouter.set_table_placement (router_ c) (table_id s) policy node with
            | Returned r => (None, set_router r c)
            | Thrown e => (Some e, rollback_catalogs table updates c)
            end
        end
  end.

Definition clear_table_placement (table : string) (c : coordinator) : option string * coordinator :=
  match schema_snapshot c table with
  | None => (Some ("table '" +:+ table +:+ "' is not declared")%string, c)
  | Some s =>
      let '(res, c) := update_and_save table (λ r, SchemaRegistry.clear_placement r table)
        ("failed to clear table placement metadata for table '" +:+ table +:+ "'")
        ("failed to persist cleared table placement for table '" +:+ table +:+ "'") c in
      match res with
      | inl e => (Some e, c)
      | inr _ => (None, set_router (PartitionRouter.clear_table_placement (router_ c) (table_id s)) c)
      end
  end.

(** ** Configuration *)

(** [None] is success; the policies are those of the enumerations. *)
Definition set_small_table_join_config (cfg : SmallTableJoinConfig) (c : coordinator) : option string * coordinator :=
  let bounded := match join_policy cfg with BoundedBroadcast => true | JoinDisabled => false end in
  if bounded && (join_row_limit cfg =? 0) then (Some "small-table JOIN row_limit must be positive"%string, c)
  else if bounded && (join_row_limit cfg =? SIZE_MAX) then (Some "small-table JOIN row_limit is too large"%string, c)
  else if bounded && (join_max_bytes cfg =? 0) then (Some "small-table JOIN max_materialized_bytes must be positive"%string, c)
  else (None, set_join_config cfg c).

Definition set_window_materialization_config (cfg : WindowMaterializationConfig) (c : coordinator) : option string * coordinator :=
  let bounded := match window_policy cfg with BoundedCoordinatorLocal => true | WindowDisabled => false end in
  if bounded && (window_row_limit cfg =? 0) then (Some "window materialization row_limit must be positive"%string, c)
  else if bounded && (window_row_limit cfg =? SIZE_MAX) then (Some "window materialization row_limit is too large"%string, c)
  else if bounded && (window_max_bytes cfg =? 0) then (Some "window materialization max_materialized_bytes must be positive"%string, c)
  else (None, set_window_config cfg c).

Definition reset_small_table_join_stats (c : coordinator) : coordinator := set_join_stats (λ _, no_telemetry) c.
Definition reset_window_materialization_stats (c : coordinator) : coordinator := set_window_stats (λ _, no_telemetry) c.

(** ** Running a query *)

Definition make_query_error (e : string) : QueryResultSet := error_result e.

Definition run_local (id p : Z) (sql : string) : m QueryResultSet := λ c,
  let '(r, t) := execute_local sql (pipelines c p) in (Returned r, record_call id sql (set_pipeline p t c)).

Definition run_remote (a : NodeAddress) (sql : string) (response_limit : option Z) : m QueryResultSet := λ c,
  let '(r, net) := rpc_execute a sql response_limit (remotes c) in
  (Returned r, record_call (addr_id a) sql (set_remotes net c)).

Definition exec_on (ep : NodeEndpoint) (sql : string) : m QueryResultSet :=
  match (if is_local ep then pipeline ep else None), has_rpc ep with
  | Some p, _ => run_local (addr_id (addr ep)) p sql
  | None, true => run_remote (addr ep) sql None
  | None, false => mret (make_query_error "QueryCoordinator::exec_on: endpoint has no RPC or pipeline")
  end.

Definition node_error (ep : NodeEndpoint) (e : string) : string :=
  "node " +:+ host (addr ep) +:+ ":" +:+ to_string (port (addr ep)) +:+ " failed: " +:+ e.

(** The first error of a node stands for all the results. *)
Definition checked_results (eps : list NodeEndpoint) (results : list QueryResultSet) : list QueryResultSet :=
  match list_find (λ p : NodeEndpoint * QueryResultSet, ok p.2 = false) (zip eps results) with
  | Some (_, (ep, r)) => [make_query_error (node_error ep (error r))]
  | None => results
  end.

Definition scatter (sql : string) : m (list QueryResultSet) :=
  eps ← gets endpoints_;
  results ← map_m (λ ep, exec_on ep sql) eps;
  mret (checked_results eps results).

(** [node_indices] in the set's order of iteration. *)
Definition scatter_to (sql : string) (node_indices : list nat) : m (list QueryResultSet) :=
  eps ← gets (λ c, omap (λ i, endpoints_ c !! i) node_indices);
  match eps with
  | [] => mret []
  | _ =>
      results ← map_m (λ ep, exec_on ep sql) eps;
      mret (checked_results eps results)
  end.

(** Failures are logged only. *)
Definition forward_ddl_to_remotes (sql : string) : m unit :=
  remotes ← gets (λ c, List.filter (λ ep, negb (is_local ep) && has_rpc ep) (endpoints_ c));
  map_m (λ ep, run_remote (addr ep) sql None) remotes;;
  mret tt.

(** A call of the router, which may throw. *)
Definition route_symbol (table_id symbol : Z) : m Z := λ c,
  let '(res, r) := if table_id =? 0 then route (router_ c) symbol else route_table (router_ c) table_id symbol in
  (res, set_router r c).

Definition execute_sql_for_symbol (sql : string) (symbol : Z) : m QueryResultSet :=
  eps ← gets endpoints_;
  match eps with
  | [] => mret (make_query_error "QueryCoordinator: no nodes registered")
  | _ =>
      table_id ← gets (λ c, resolve_routing_table_id c (extract_table_name sql));
      owner ← route_symbol table_id symbol;
      match List.find (λ ep, addr_id (addr ep) =? owner) eps with
      | Some target => exec_on target sql
      | None => mret (make_query_error ("QueryCoordinator: owning node not found for symbol " +:+ to_string symbol))
      end
  end.

(** ** Fetching a table within a budget *)

Inductive BoundedFetchStatus : Type := FetchOk | RowLimitExceeded | ByteLimitExceeded | FetchError.

Record BoundedFetchResult : Type := mkFetch {
  fetch_result : QueryResultSet;
  fetch_status : BoundedFetchStatus;
  rows_observed : Z;
  estimated_bytes : Z;
}.

Definition no_fetch : BoundedFetchResult := mkFetch empty_result FetchOk 0 0.

Definition rpc_envelope_allowance : Z := 64 * 1024.
Definition payload_limit_error : string := "response payload exceeds configured limit".

Definition contains (pat s : string) : bool := match find_text (chars pat) (chars s) with Some _ => true | None => false end.

(** The strings of results have no dictionary any more. *)
Definition append_result (a r : QueryResultSet) (names : list string) (types : list ColumnType) : QueryResultSet :=
  mkResultSet names types (rows a ++ rows r) (typed_rows a ++ typed_rows r) (string_rows a ++ string_rows r)
    (symbol_dict a) (saturating_add (rows_scanned a) (rows_scanned r)) (error a).

(** A node's answer to the probe: the fetch goes on ([inr]) or ends. *)
Definition absorb (ep : NodeEndpoint) (row_limit max_bytes : Z) (fetched : BoundedFetchResult) (r : QueryResultSet) :
    BoundedFetchResult + BoundedFetchResult :=
  let acc := fetch_result fetched in
  let accumulated := Z.of_nat (length (rows acc)) in
  let remaining_rows := if accumulated <? row_limit then row_limit - accumulated else 0 in
  let remaining_bytes := if estimated_bytes fetched <? max_bytes then max_bytes - estimated_bytes fetched else 0 in
  if negb (ok r) then
    if contains payload_limit_error (error r) then
      inl (mkFetch acc ByteLimitExceeded (rows_observed fetched) (saturating_add max_bytes 1))
    else
      inl (mkFetch (mkResultSet (column_names acc) (column_types acc) (rows acc) (typed_rows acc) (string_rows acc)
                      (symbol_dict acc) (rows_scanned acc) (node_error ep (error r)))
             FetchError (rows_observed fetched) (estimated_bytes fetched))
  else
    let observed := saturating_add accumulated (Z.of_nat (length (rows r))) in
    let node_bytes := estimate_result_bytes r in
    let observed_bytes := saturating_add (estimated_bytes fetched) node_bytes in
    if remaining_rows <? Z.of_nat (length (rows r)) then inl (mkFetch acc RowLimitExceeded observed observed_bytes)
    else if remaining_bytes <? node_bytes then inl (mkFetch acc ByteLimitExceeded observed observed_bytes)
    else
      let r := snapshot_decoded_string_rows r in
      let first := bool_decide (column_names acc = []) && negb (bool_decide (column_names r = [])) in
      if negb first && negb (bool_decide (column_names r = [])) &&
         negb (bool_decide (column_names acc = column_names r) && bool_decide (column_types acc = column_types r)) then
        inl (mkFetch (mkResultSet (column_names acc) (column_types acc) (rows acc) (typed_rows acc) (string_rows acc)
                        (symbol_dict acc) (rows_scanned acc)
                        "bounded cluster materialization returned inconsistent column metadata")
               FetchError observed (estimated_bytes fetched))
      else
        let merged := append_result acc r (if first then column_names r else column_names acc)
                        (if first then column_types r else column_types acc) in
        inr (mkFetch merged FetchOk (Z.of_nat (length (rows merged))) observed_bytes).

(** The query and the response allowance of the next node. *)
Definition probe_query (base_sql : string) (row_limit : Z) (fetched : BoundedFetchResult) : string :=
  let accumulated := Z.of_nat (length (rows (fetch_result fetched))) in
  let remaining := if accumulated <? row_limit then row_limit - accumulated else 0 in
  base_sql +:+ " LIMIT " +:+ to_string (saturating_add remaining 1).
Definition response_allowance (max_bytes : Z) (fetched : BoundedFetchResult) : Z :=
  let remaining := if estimated_bytes fetched <? max_bytes then max_bytes - estimated_bytes fetched else 0 in
  saturating_add remaining rpc_envelope_allowance.

Definition exec_probe (ep : NodeEndpoint) (query : string) (allowance : Z) : m QueryResultSet :=
  match (if is_local ep then pipeline ep else None), has_rpc ep with
  | Some _, _ => exec_on ep query
  | None, true => run_remote (addr ep) query (Some allowance)
  | None, false => mret (make_query_error "QueryCoordinator::fetch_concat_bounded: endpoint has no RPC or pipeline")
  end.

Fixpoint fetch_from (eps : list NodeEndpoint) (base_sql : string) (row_limit max_bytes : Z) (fetched : BoundedFetchResult) :
    m BoundedFetchResult :=
  match eps with
  | [] => mret fetched
  | ep :: eps =>
      r ← exec_probe ep (probe_query base_sql row_limit fetched) (response_allowance max_bytes fetched);
      match absorb ep row_limit max_bytes fetched r with
      | inl fetched => mret fetched
      | inr fetched => fetch_from eps base_sql row_limit max_bytes fetched
      end
  end.

Definition fetch_concat_bounded (base_sql : string) (row_limit max_bytes : Z) : m BoundedFetchResult :=
  eps ← gets endpoints_;
  fetch_from eps base_sql row_limit max_bytes no_fetch.
End Coordinator.
