(* ===== verification/DistributedQuery.v ===== *)
(** * The query coordinator: distributed execution

    Models the rest of [src/cluster/query_coordinator.cpp]: how [execute_sql]
    chooses a way to run a statement on the cluster, the bounded joins and window
    queries that the coordinator runs on a copy of the data, and what it does to
    the merged rows.
    The time a bounded query takes is the parameter [elapsed] (microseconds). *)

From S2P Require Import Prelude.
From S2P Require Import Text.
From S2P Require Import ColumnStore.
From S2P Require Import StringDictionary.
From S2P Require Import SchemaRegistry.
From S2P Require Import PartitionRouter.
From S2P Require Import HealthMonitor.
From S2P Require Import RingBuffer.
From S2P Require Import Ast.
From S2P Require Import PartialAgg.
From S2P Require Import RowOrder.
From S2P Require Import Parser.
From S2P Require Import MergePlan.
From S2P Require Import Rpc.
From S2P Require Import Coordinator.
From stdpp Require Import base gmap list strings sorting.
From Stdlib Require Import ZArith Lia.

Open Scope Z_scope.

(** ** A result as a table *)

(** A schema for a table that the coordinator does not know. *)
Definition infer_schema_from_result (table : string) (r : QueryResultSet) : option TableSchema :=
  if String.eqb table "" || bool_decide (column_names r = []) then None
  else Some (mkSchema table (imap (λ ci name, mkColumn name (default INT64 (column_types r !! ci))) (column_names r))
               0 false (stable_table_id table) no_placement).

Definition find_timestamp_sort_column (r : QueryResultSet) : option nat :=
  match list_find (λ n, to_lower_str n = "timestamp"%string) (column_names r),
        list_find (λ n, to_lower_str n = "timestamp_ns"%string) (column_names r),
        list_find (λ t, t = TIMESTAMP_NS) (column_types r) with
  | Some (ci, _), _, _ => Some ci
  | None, Some (ci, _), _ => Some ci
  | None, None, Some (ci, _) => Some ci
  | None, None, None => None
  end.

(** [std::stable_sort] of the row numbers by a cell. *)
Fixpoint stable_insert (key : nat → Z) (i : nat) (l : list nat) : list nat :=
  match l with
  | [] => [i]
  | j :: l' => if key j <? key i then j :: stable_insert key i l' else i :: l
  end.
Definition stable_order (key : nat → Z) (n : nat) : list nat := foldr (stable_insert key) [] (seq 0 n).

(** The elements at the positions of [order]. *)
Definition permuted {A} (order : list nat) (l : list A) : list A := omap (λ i, l !! i) order.

Definition sort_result_by_column (r : QueryResultSet) (col : nat) : QueryResultSet :=
  let n := length (rows r) in
  if (n <? 2)%nat then r
  else
    let order := stable_order (λ i, cell (default [] (rows r !! i)) col) n in
    let per_row := strings_per_row (column_types r) in
    mkResultSet (column_names r) (column_types r) (permuted order (rows r))
      (if (length (typed_rows r) =? n)%nat then permuted order (typed_rows r) else typed_rows r)
      (if (0 <? per_row)%nat && (n * per_row <=? length (string_rows r))%nat
       then order ≫= λ i, take per_row (drop (i * per_row) (string_rows r)) else string_rows r)
      (symbol_dict r) (rows_scanned r) (error r).

(** The bits of a floating-point cell. *)
Definition result_cell_as_f64 (r : QueryResultSet) (row_idx col_idx : nat) : Z :=
  match typed_rows r !! row_idx ≫= lookup col_idx with
  | Some bits => bits
  | None => default 0 (rows r !! row_idx ≫= lookup col_idx)
  end.

(** The column of [r] with the same name in lower case; the first one wins. *)
Definition source_index (r : QueryResultSet) (name : string) : option nat :=
  fst <$> list_find (λ n, to_lower_str n = to_lower_str name) (column_names r).

(** The cell of a schema column, 0 when there is none. *)
Definition raw_cell (r : QueryResultSet) (ri : nat) (src : option nat) : Z :=
  default 0 (row ← rows r !! ri; ci ← src; row !! ci).

(** [None] when a string code does not fit. *)
Definition typed_cell (r : QueryResultSet) (ri : nat) (col : ColumnDef) : option TypedColumnValue :=
  let src := source_index r (col_name col) in
  let raw := raw_cell r ri src in
  let value i f u b s := mkTyped (col_name col) (type_code (col_type col)) i f u b s in
  match col_type col with
  | INT32 | INT64 | TIMESTAMP_NS => Some (value raw 0 0 0 None)
  | FLOAT32 | FLOAT64 => Some (value 0 (from_option (result_cell_as_f64 r ri) 0 src) 0 0 None)
  | SYMBOL | STRING =>
      if in_uint32 raw then Some (value 0 0 raw 0 (src ≫= decoded_string_cell r ri)) else None
  | BOOL => Some (value 0 0 0 (if raw =? 0 then 0 else 1) None)
  end.

(** The loop over the columns: the symbol, the timestamp and whether it was set,
    the values; or the column whose code does not fit. *)
Fixpoint typed_cells (r : QueryResultSet) (ri : nat) (cols : list ColumnDef) (sym ts : Z) (has_ts : bool) :
    string + (Z * Z * list TypedColumnValue) :=
  match cols with
  | [] => inr (sym, ts, [])
  | col :: cols =>
      match typed_cell r ri col with
      | None => inl (col_name col)
      | Some v =>
          let raw := raw_cell r ri (source_index r (col_name col)) in
          let name := to_lower_str (col_name col) in
          let sym := if String.eqb name "symbol" && in_uint32 raw then raw else sym in
          let is_ts := String.eqb name "timestamp" || String.eqb name "timestamp_ns" ||
                       (negb has_ts && bool_decide (col_type col = TIMESTAMP_NS)) in
          match typed_cells r ri cols sym (if is_ts then raw else ts) (has_ts || is_ts) with
          | inl e => inl e
          | inr (sym, ts, vs) => inr (sym, ts, v :: vs)
          end
      end
  end.

(** Joins with an equality between two columns, of two named tables, in a query
    without subqueries or set operations. *)
Definition is_small_table_hash_join_candidate (stmt : SelectStmt) : bool :=
  let b := body_of stmt in
  match Ast.join b with
  | None => false
  | Some j =>
      negb (String.eqb (from_table b) "") && negb (String.eqb (join_table j) "") &&
      match from_subquery b, cte_defs b, set_op b, rhs b with None, [], S_NONE, None => true | _, _, _, _ => false end &&
      match join_type j with J_INNER | J_LEFT | J_RIGHT | J_FULL => true | _ => false end &&
      existsb (λ cond, match cond_op cond with Ast.EQ => true | _ => false end &&
                       negb (String.eqb (left_col cond) "") && negb (String.eqb (right_col cond) "")) (on_conditions j)
  end.

(** ** After the merge *)

Definition merge_by_plan (plan : MergePlan) (results : list QueryResultSet) : QueryResultSet :=
  match strategy plan, col_aggs plan with
  | MERGE_GROUP_BY, _ => merge_group_by_results results (col_is_key plan) (col_aggs plan)
  | SCALAR_AGG, _ :: _ => merge_scalar_with_sql_aggs results (col_aggs plan)
  | _, _ => merge_concat_results results
  end.

(** With the averages put back. *)
Definition merge_tier_b (plan : MergePlan) (results : list QueryResultSet) : QueryResultSet :=
  let merged := merge_by_plan plan results in
  match strategy plan, col_aggs plan, avg_cols plan with
  | SCALAR_AGG, _ :: _, _ :: _ => reconstruct_avg_result merged plan
  | _, _, _ => merged
  end.

(** Only the rows are replaced. *)
Definition with_rows (rs : list (list Z)) (r : QueryResultSet) : QueryResultSet :=
  mkResultSet (column_names r) (column_types r) rs (typed_rows r) (string_rows r) (symbol_dict r) (rows_scanned r) (error r).

Definition compare_op (op : CompareOp) (v w : Z) : bool :=
  match op with
  | Ast.GT => w <? v | Ast.GE => w <=? v | Ast.LT => v <? w | Ast.LE => v <=? w
  | Ast.EQ => v =? w | Ast.NE => negb (v =? w)
  end.

Definition having_filter (plan : MergePlan) (r : QueryResultSet) : QueryResultSet :=
  match plan_having plan with
  | Some (col, op, val) =>
      match column_index r col with
      | Some hcol => if ok r then with_rows (List.filter (λ row, compare_op op (cell row hcol) val) (rows r)) r else r
      | None => r
      end
  | None => r
  end.

(** The first of equal rows stays. *)
Fixpoint distinct_rows (seen : gset (list Z)) (rs : list (list Z)) : list (list Z) :=
  match rs with
  | [] => []
  | r :: rs => if bool_decide (r ∈ seen) then distinct_rows seen rs else r :: distinct_rows ({[r]} ∪ seen) rs
  end.

Section Post.
Context {HS : RowSort}.

(** DISTINCT, ORDER BY and LIMIT of a merged result. *)
Definition post_process (sql : string) (r : QueryResultSet) : QueryResultSet :=
  if ok r && (1 <? length (rows r))%nat then
    match parse sql with
    | Parsed stmt _ =>
        let b := body_of stmt in
        let rs := if distinct b then distinct_rows ∅ (rows r) else rows r in
        let rs := match order_by b with Some items => order_rows (sort_keys r items) rs | None => rs end in
        with_rows (limit_rows (limit b) rs) r
    | _ => r
    end
  else r.

(** ORDER BY the first item, and LIMIT. *)
Definition post_process_in (sql : string) (r : QueryResultSet) : QueryResultSet :=
  if ok r && (1 <? length (rows r))%nat then
    match parse sql with
    | Parsed stmt _ =>
        let b := body_of stmt in
        let rs := match order_by b with Some items => order_rows (sort_keys r (take 1 items)) (rows r) | None => rows r end in
        with_rows (limit_rows (limit b) rs) r
    | _ => r
    end
  else r.
End Post.

(** ** Queries the coordinator runs itself *)

Section DistributedQuery.
Context {T R : Type} {HT : Pipeline T} {HR : Network R} {HS : RowSort}.
Variable elapsed : Z.

Notation coordinator := (Coordinator T R).
Notation m := (M T R).

(** A new pipeline, filled with the rows of a result: the error ([""] when none is
    named) or the pipeline. *)
Fixpoint ingest_rows (table_id : Z) (schema : TableSchema) (r : QueryResultSet) (indices : list nat) (tmp : T) : string + T :=
  match indices with
  | [] => inr tmp
  | ri :: indices =>
      match typed_cells r ri (SchemaRegistry.columns schema) 0 0 false with
      | inl name => inl ("temporary table string code out of range for column '" +:+ name +:+ "'")%string
      | inr (sym, ts, values) =>
          let '(stored, tmp) := ingest_typed_row (mkTypedRow table_id sym ts values) tmp in
          if stored : bool then ingest_rows table_id schema r indices tmp
          else inl ("failed to materialize row " +:+ to_string (Z.of_nat ri) +:+ " into temporary table '" +:+
                    table_name schema +:+ "'")%string
      end
  end.

Definition with_registry (f : SchemaRegistry → SchemaRegistry) (tmp : T) : T :=
  set_schema_registry (f (schema_registry tmp)) tmp.

Definition materialize_result_into_typed_table (tmp : T) (schema : TableSchema) (r : QueryResultSet) : string + T :=
  if String.eqb (table_name schema) "" || bool_decide (SchemaRegistry.columns schema = []) then inl ""%string
  else
    let created :=
      if exists_table (schema_registry tmp) (table_name schema) then Some tmp
      else match SchemaRegistry.create (schema_registry tmp) (table_name schema) (SchemaRegistry.columns schema) no_placement with
           | (true, reg) => Some (set_schema_registry reg tmp)
           | (false, _) => None
           end in
    match created with
    | None => inl ("failed to create temporary table '" +:+ table_name schema +:+ "'")%string
    | Some tmp =>
        let id := get_table_id (schema_registry tmp) (table_name schema) in
        if id =? 0 then inl ("temporary table '" +:+ table_name schema +:+ "' has no table id")%string
        else
          match ingest_rows id schema r (seq 0 (length (rows r))) tmp with
          | inl e => inl e
          | inr tmp => inr (match rows r with [] => tmp | _ => with_registry (λ reg, mark_id_has_data reg id) tmp end)
          end
    end.

Definition error_or (e fallback : string) : string := if String.eqb e "" then fallback else e.

(** The query on the copy; its time and its outcome are counted. *)
Definition run_on_copy (set_stats : (telemetry → telemetry) → coordinator → coordinator) (what : string)
    (max_latency copied_rows copied_bytes : Z) (tmp : T) (sql : string) : m QueryResultSet :=
  let result := snapshot_decoded_string_rows (execute_local sql tmp).1 in
  modify (set_stats (store LastLatencyUs elapsed));;
  if (0 <? max_latency) && (max_latency <? elapsed) then
    modify (set_stats (fetch_add RejectedLatencyCap 1));;
    mret (make_query_error (what +:+ " latency limit exceeded (" +:+ to_string elapsed +:+ " us, limit " +:+
                            to_string max_latency +:+ " us)"))
  else if ok result then
    modify (set_stats (fetch_add Accepted 1));;
    modify (set_stats (fetch_add RowsMaterialized copied_rows));;
    modify (set_stats (fetch_add BytesMaterialized (size_to_u64 copied_bytes)));;
    mret result
  else
    modify (set_stats (fetch_add Errors 1));;
    mret result.

(** *** Small-table joins *)

Definition count_join (c : counter) (n : Z) : m unit := modify (set_join_stats (fetch_add c n)).
Definition gauge_join (c : counter) (n : Z) : m unit := modify (set_join_stats (store c (size_to_u64 n))).
Definition finish_join (r : QueryResultSet) : m QueryResultSet := modify (set_join_stats (store LastLatencyUs elapsed));; mret r.
Definition fail_join (r : QueryResultSet) : m QueryResultSet := count_join Errors 1;; finish_join r.

Definition reject_rows (cfg : SmallTableJoinConfig) (table : string) : m QueryResultSet :=
  count_join RejectedRowCap 1;;
  finish_join (make_query_error ("small-table broadcast JOIN row limit exceeded for table '" +:+ table +:+ "' (limit " +:+
                                 to_string (join_row_limit cfg) +:+ ")")).
Definition reject_bytes (cfg : SmallTableJoinConfig) (observed : Z) : m QueryResultSet :=
  count_join RejectedByteCap 1;;
  finish_join (make_query_error ("small-table broadcast JOIN materialized byte limit exceeded (estimated " +:+
                                 to_string observed +:+ " bytes, limit " +:+ to_string (join_max_bytes cfg) +:+ " bytes)")).

(** What a fetch that stayed within its budget is followed by. *)
Definition with_side (cfg : SmallTableJoinConfig) (table : string) (observed : Z) (f : BoundedFetchResult) (k : m QueryResultSet) :
    m QueryResultSet :=
  match fetch_status f with
  | RowLimitExceeded => reject_rows cfg table
  | ByteLimitExceeded => reject_bytes cfg observed
  | FetchError => fail_join (fetch_result f)
  | FetchOk => k
  end.

(** Both sides are there. *)
Definition join_locally (cfg : SmallTableJoinConfig) (sql left_table right_table : string) (left_schema right_schema : option TableSchema)
    (left right : QueryResultSet) (bytes : Z) : m QueryResultSet :=
  gauge_join LastMaterializedBytes bytes;;
  if join_max_bytes cfg <? bytes then reject_bytes cfg bytes
  else
    match left_schema ∪ infer_schema_from_result left_table left, right_schema ∪ infer_schema_from_result right_table right with
    | None, _ => fail_join (make_query_error ("small-table broadcast JOIN could not resolve schema for table '" +:+ left_table +:+ "'"))
    | Some _, None => fail_join (make_query_error ("small-table broadcast JOIN could not resolve schema for table '" +:+ right_table +:+ "'"))
    | Some left_schema, Some right_schema =>
        match materialize_result_into_typed_table new_pipeline left_schema left with
        | inl e => fail_join (make_query_error (error_or e "failed to materialize small-table broadcast JOIN left side"))
        | inr tmp =>
            match (if String.eqb right_table left_table then inr tmp
                   else materialize_result_into_typed_table tmp right_schema right) with
            | inl e => fail_join (make_query_error (error_or e "failed to materialize small-table broadcast JOIN right side"))
            | inr tmp =>
                run_on_copy set_join_stats "small-table broadcast JOIN" (join_max_latency cfg)
                  (u64 (Z.of_nat (length (rows left)) + Z.of_nat (length (rows right)))) bytes tmp sql
            end
        end
    end.

Definition execute_small_table_hash_join (sql left_table right_table : string) : m QueryResultSet :=
  count_join Candidates 1;;
  cfg ← gets small_table_join_config_;
  match join_policy cfg with
  | JoinDisabled => finish_join (make_query_error "small-table broadcast JOIN is disabled by coordinator policy")
  | BoundedBroadcast =>
      left_schema ← gets (λ c, schema_snapshot c left_table);
      right_schema ← gets (λ c, schema_snapshot c right_table);
      left ← fetch_concat_bounded ("SELECT * FROM " +:+ left_table) (join_row_limit cfg) (join_max_bytes cfg);
      gauge_join LastLeftRows (rows_observed left);;
      gauge_join LastMaterializedBytes (estimated_bytes left);;
      with_side cfg left_table (estimated_bytes left) left
        (let left_bytes := estimated_bytes left in
         if String.eqb right_table left_table then
           gauge_join LastRightRows (Z.of_nat (length (rows (fetch_result left))));;
           join_locally cfg sql left_table right_table left_schema right_schema (fetch_result left) (fetch_result left)
             (saturating_add left_bytes left_bytes)
         else
           let remaining := if left_bytes <? join_max_bytes cfg then join_max_bytes cfg - left_bytes else 0 in
           right ← fetch_concat_bounded ("SELECT * FROM " +:+ right_table) (join_row_limit cfg) remaining;
           gauge_join LastRightRows (rows_observed right);;
           let total := saturating_add left_bytes (estimated_bytes right) in
           gauge_join LastMaterializedBytes total;;
           with_side cfg right_table total right
             (join_locally cfg sql left_table right_table left_schema right_schema (fetch_result left) (fetch_result right) total))
  end.

(** *** Queries that need all the rows *)

Definition count_window (c : counter) (n : Z) : m unit := modify (set_window_stats (fetch_add c n)).
Definition gauge_window (c : counter) (n : Z) : m unit := modify (set_window_stats (store c (size_to_u64 n))).
Definition finish_window (r : QueryResultSet) : m QueryResultSet :=
  modify (set_window_stats (store LastLatencyUs elapsed));; mret r.

Definition is_first_or_last (col : SelectExpr) : bool := match agg col with Ast.FIRST | Ast.LAST => true | _ => false end.

Definition column_needs_full_data (col : SelectExpr) : bool :=
  match window_spec col, window_func col with
  | None, W_NONE =>
      match agg col with
      | Ast.FIRST | Ast.LAST | Ast.STDDEV | Ast.VARIANCE | Ast.MEDIAN | Ast.PERCENTILE => true
      | Ast.COUNT => agg_distinct col
      | _ => false
      end
  | _, _ => true
  end.

Definition has_inner_query (b : SelectBody Expr SelectStmt) : bool :=
  negb (bool_decide (length (cte_defs b) = O)) || match from_subquery b with Some _ => true | None => false end.

Definition needs_full_data (b : SelectBody Expr SelectStmt) : bool :=
  existsb column_needs_full_data (Ast.columns b) || has_inner_query b.

(** A query of a named inner table reads [trades]. *)
Definition real_table (b : SelectBody Expr SelectStmt) : string := if has_inner_query b then "trades" else from_table b.

Definition where_ends : list string := [" group "; " order "; " limit "; " having "; " union "].

(** The WHERE clause cut out of the query's text. *)
Definition where_text (sql : string) : string :=
  let lo := lower_text sql in
  match find_text (chars " where ") lo with
  | None => ""
  | Some pos =>
      match first_keyword where_ends (pos + 7) lo with
      | None => str (drop pos (chars sql))
      | Some stop => str (take (stop - pos) (drop pos (chars sql)))
      end
  end.

Definition base_query (sql : string) (b : SelectBody Expr SelectStmt) : string :=
  "SELECT * FROM " +:+ real_table b +:+ match where_clause b with Some _ => where_text sql | None => "" end.

(** The last column of that name. *)
Definition last_column (names : list string) (name : string) : option nat :=
  foldl (λ found p, if String.eqb p.2 name then Some p.1 else found) None (imap pair names).

(** Rows without a schema are ticks. *)
Definition tick_of_row (names : list string) (row : list Z) : TickMessage :=
  let field name := from_option (cell row) 0 (last_column names name) in
  mkTick 0 (field "timestamp") (uint32 (field "symbol")) (field "price") (field "volume") 0 0 0.

Definition replay (schema : option TableSchema) (table : string) (r : QueryResultSet) : string + T :=
  match schema ∪ infer_schema_from_result table r with
  | Some s =>
      match materialize_result_into_typed_table new_pipeline s r with
      | inl e => inl (error_or e ("failed to materialize temporary table '" +:+ table_name s +:+ "'"))
      | inr tmp => inr tmp
      end
  | None => inr (foldl (λ tmp row, store_tick_direct (tick_of_row (column_names r) row) tmp) new_pipeline (rows r))
  end.

(** FIRST and LAST need the rows in the order of their time. *)
Definition in_time_order (b : SelectBody Expr SelectStmt) (r : QueryResultSet) : QueryResultSet :=
  if existsb is_first_or_last (Ast.columns b) then
    match find_timestamp_sort_column r with Some ts_col => sort_result_by_column r ts_col | None => r end
  else r.

Definition execute_full_data (sql : string) (stmt : SelectStmt) : m QueryResultSet :=
  let b := body_of stmt in
  let table := real_table b in
  count_window Candidates 1;;
  cfg ← gets window_materialization_config_;
  match window_policy cfg with
  | WindowDisabled => finish_window (make_query_error "cluster full-data window materialization is disabled by coordinator policy")
  | BoundedCoordinatorLocal =>
      schema ← gets (λ c, find_schema c table);
      base ← fetch_concat_bounded (base_query sql b) (window_row_limit cfg) (window_max_bytes cfg);
      gauge_window LastLeftRows (rows_observed base);;
      gauge_window LastMaterializedBytes (estimated_bytes base);;
      match fetch_status base with
      | RowLimitExceeded =>
          count_window RejectedRowCap 1;;
          finish_window (make_query_error ("cluster full-data window materialization row limit exceeded for table '" +:+
                                           table +:+ "' (limit " +:+ to_string (window_row_limit cfg) +:+ ")"))
      | ByteLimitExceeded =>
          count_window RejectedByteCap 1;;
          finish_window (make_query_error ("cluster full-data window materialization byte limit exceeded (estimated " +:+
                                           to_string (estimated_bytes base) +:+ " bytes, limit " +:+
                                           to_string (window_max_bytes cfg) +:+ " bytes)"))
      | FetchError => count_window Errors 1;; finish_window (fetch_result base)
      | FetchOk =>
          let data := in_time_order b (fetch_result base) in
          match replay schema table data with
          | inl e => count_window Errors 1;; finish_window (make_query_error e)
          | inr tmp =>
              run_on_copy set_window_stats "cluster full-data window materialization" (window_max_latency cfg)
                (Z.of_nat (length (rows data))) (estimated_bytes base) tmp sql
          end
      end
  end.

(** ** Choosing a way *)

Definition no_nodes : QueryResultSet := make_query_error "QueryCoordinator: no nodes registered".

(** [try { auto stmt = parser.parse(sql); ... } catch (...) {}] *)
Definition with_select (sql : string) (k : SelectStmt → m (option QueryResultSet)) : m (option QueryResultSet) :=
  match parse sql with
  | Parsed stmt _ => try_catch (k stmt) (mret None)
  | _ => mret None
  end.

(** The first way that answers. *)
Fixpoint first_answer (ways : list (m (option QueryResultSet))) (last : m QueryResultSet) : m QueryResultSet :=
  match ways with
  | [] => last
  | way :: ways => answer ← way; match answer with Some r => mret r | None => first_answer ways last end
  end.

(** The words that begin a statement. *)
Definition starts_with (word sql : string) : bool := String.prefix word (str (toupper <$> take 10 (chars sql))).

Definition answered (k : m QueryResultSet) : m (option QueryResultSet) := r ← k; mret (Some r).

(** [WHERE symbol = n]: the owner of the symbol answers. *)
Definition to_symbol_owner (sql : string) : m (option QueryResultSet) :=
  match extract_symbol_filter sql with
  | Some symbol => answered (execute_sql_for_symbol sql symbol)
  | None => mret None
  end.

Definition on_first_node (sql : string) : m (option QueryResultSet) :=
  eps ← gets endpoints_;
  match eps with
  | [] => mret None
  | ep :: _ => answered (exec_on ep sql)
  end.

(** The symbol of the inserted rows. *)
Definition insert_to_owner (sql : string) : m (option QueryResultSet) :=
  match parse_statement sql with
  | Parsed (P_INSERT ins) _ =>
      schema ← gets (λ c, schema_snapshot c (insert_table ins));
      match s ← schema; insert_routing_symbol ins (col_name <$> SchemaRegistry.columns s) with
      | Some symbol => try_catch (answered (execute_sql_for_symbol sql symbol)) (mret None)
      | None => mret None
      end
  | _ => mret None
  end.

(** The affected rows of all nodes. *)
Definition sum_affected (results : list QueryResultSet) : QueryResultSet :=
  match list_find (λ r, ok r = false) results with
  | Some (_, r) => r
  | None =>
      let affected r := match rows r with row :: _ => cell row 0 | [] => 0 end in
      mkResultSet (match results with r :: _ => column_names r | [] => ["affected"%string] end) [INT64]
        [[foldl (λ total r, i64 (total + affected r)) 0 results]] [] [] None 0 ""
  end.

Definition first_or_empty (results : list QueryResultSet) : QueryResultSet := default empty_result (head results).

Definition run_ddl (sql : string) : m QueryResultSet :=
  results ← scatter sql;
  match list_find (λ r, ok r = false) results with
  | Some (_, r) => mret r
  | None =>
      placement_error ← apply_catalog_table_placements;
      mret (match placement_error with
            | Some e => make_query_error (error_or e "failed to apply catalog table placement")
            | None => first_or_empty results
            end)
  end.

(** Cell by cell, as far as both have it. *)
Definition add_row (row other : list Z) : list Z := imap (λ c v, from_option (λ w, i64 (v + w)) v (other !! c)) row.
Definition add_rows (rs others : list (list Z)) : list (list Z) :=
  imap (λ i row, from_option (add_row row) row (others !! i)) rs.

Definition sum_catalog (results : list QueryResultSet) : QueryResultSet :=
  match results with
  | [] => empty_result
  | first :: rest =>
      if negb (ok first) then first
      else with_rows (foldl (λ rs r, if ok r then add_rows rs (rows r) else rs) (rows first) rest) first
  end.

(** Statements that are not SELECT. *)
Definition execute_dml (sql : string) : m (option QueryResultSet) :=
  if starts_with "INSERT" sql then
    routed ← insert_to_owner sql;
    match routed with
    | Some r => mret (Some r)
    | None =>
        routed ← to_symbol_owner sql;
        match routed with Some r => mret (Some r) | None => on_first_node sql end
    end
  else if starts_with "UPDATE" sql || starts_with "DELETE" sql then
    routed ← to_symbol_owner sql;
    match routed with
    | Some r => mret (Some r)
    | None => answered (sum_affected <$> scatter sql)
    end
  else if starts_with "CREATE" sql || starts_with "DROP" sql || starts_with "ALTER" sql then answered (run_ddl sql)
  else if starts_with "SHOW" sql then answered (sum_catalog <$> scatter sql)
  else if starts_with "DESC" sql then
    described ← on_first_node sql;
    mret (Some (default no_nodes described))
  else mret None.

(** Without other nodes there is nothing to merge. *)
Definition single_node (sql : string) : m (option QueryResultSet) :=
  eps ← gets endpoints_;
  match eps with
  | [] => mret (Some no_nodes)
  | [ep] => answered (exec_on ep sql)
  | _ => mret None
  end.

(** What the nodes are asked. *)
Definition node_sql (plan : MergePlan) (sql : string) : string :=
  let base := if String.eqb (rewritten_sql plan) "" then sql else rewritten_sql plan in
  match plan_having plan with Some _ => strip_having base | None => base end.

(** [WHERE symbol IN (...)] *)
Definition execute_symbol_in (sql : string) : m (option QueryResultSet) :=
  with_select sql (λ stmt,
    match where_clause (body_of stmt) with
    | Some (Some (EIn _ "symbol" _)) =>
        let plan := merge_plan_from_sql sql in
        results ← scatter (node_sql plan sql);
        mret (Some (post_process_in sql (merge_by_plan plan results)))
    | _ => mret None
    end).

(** The value of [symbol = ...]; a string counts as 0. *)
Definition time_join_symbol (b : SelectBody Expr SelectStmt) : option Z :=
  match where_clause b with
  | Some (Some (ECompare _ "symbol" Ast.EQ (VFloat _ _) _)) => None
  | Some (Some (ECompare _ "symbol" Ast.EQ _ _ as w)) => Some (uint32 (expr_value w))
  | _ => None
  end.

(** ASOF and WINDOW joins. *)
Definition execute_time_join (sql : string) : m (option QueryResultSet) :=
  with_select sql (λ stmt,
    match join_type <$> Ast.join (body_of stmt) with
    | Some J_ASOF | Some J_WINDOW =>
        match time_join_symbol (body_of stmt) with
        | Some symbol => answered (execute_sql_for_symbol sql symbol)
        | None => answered (merge_concat_results <$> scatter sql)
        end
    | _ => mret None
    end).

Definition execute_bounded_join (sql : string) : m (option QueryResultSet) :=
  with_select sql (λ stmt,
    match Ast.join (body_of stmt) with
    | Some j =>
        if is_small_table_hash_join_candidate stmt
        then answered (execute_small_table_hash_join sql (from_table (body_of stmt)) (join_table j)) else mret None
    | None => mret None
    end).

Definition execute_bounded_window (sql : string) : m (option QueryResultSet) :=
  with_select sql (λ stmt,
    if needs_full_data (body_of stmt) then answered (execute_full_data sql stmt) else mret None).

Definition scatter_gather (sql : string) : m QueryResultSet :=
  let plan := merge_plan_from_sql sql in
  results ← scatter (node_sql plan sql);
  mret (post_process sql (having_filter plan (merge_tier_b plan results))).

Definition execute_sql (sql : string) : m QueryResultSet :=
  first_answer [execute_dml sql; single_node sql; to_symbol_owner sql; execute_symbol_in sql; execute_time_join sql;
                execute_bounded_join sql; execute_bounded_window sql] (scatter_gather sql).
End DistributedQuery.
