(* ===== verification/CoordinatorFacts.v ===== *)
(** * Theorems about the query coordinator

    First a small program logic for the coordinator's monad: a computation
    [respects] a preorder on states when every run moves along it. Then what every
    operation keeps: the registered nodes agree with the router's ring
    ([coordinator_invariant]), and a node that falls silent leaves both
    ([silent_node_is_dropped]). Then what the ways to run a statement do. *)

From S2P Require Import Prelude.
From S2P Require Import Text.
From S2P Require Import ColumnStore.
From S2P Require Import StringDictionary.
From S2P Require Import SchemaRegistry.
From S2P Require Import PartitionRouter.
From S2P Require Import RouterFacts.
From S2P Require Import HealthMonitor.
From S2P Require Import RingBuffer.
From S2P Require Import Ast.
From S2P Require Import PartialAgg.
From S2P Require Import RowOrder.
From S2P Require Import Parser.
From S2P Require Import MergePlan.
From S2P Require Import Rpc.
From S2P Require Import Coordinator.
From S2P Require Import DistributedQuery.
From stdpp Require Import base gmap sets list strings sorting relations.
From Stdlib Require Import ZArith Lia.

Open Scope Z_scope.

(** ** A relational logic *)

Section Logic.
Context {T R : Type}.
Implicit Types Rel : relation (Coordinator T R).

Definition respects Rel {A} (k : M T R A) : Prop := ∀ c, Rel c (k c).2.

Section Rules.
Context Rel `{!PreOrder Rel}.

Lemma respects_ret {A} (a : A) : respects Rel (mret a).
Proof. by intros c. Qed.
Lemma respects_gets {A} (f : Coordinator T R → A) : respects Rel (gets f).
Proof. by intros c. Qed.
Lemma respects_modify f : (∀ c, Rel c (f c)) → respects Rel (modify f).
Proof. by intros H c. Qed.
Lemma respects_bind {A B} (k : M T R A) (f : A → M T R B) :
  respects Rel k → (∀ a, respects Rel (f a)) → respects Rel (k ≫= f).
Proof.
  intros Hk Hf c. unfold mbind, M_bind. specialize (Hk c).
  destruct (k c) as [[a|e] c']; [|done]. etrans; [exact Hk|apply Hf].
Qed.
Lemma respects_fmap {A B} (f : A → B) (k : M T R A) : respects Rel k → respects Rel (f <$> k).
Proof. intros Hk. apply respects_bind; [done|]. intros a. apply respects_ret. Qed.
Lemma respects_try {A} (k h : M T R A) : respects Rel k → respects Rel h → respects Rel (try_catch k h).
Proof.
  intros Hk Hh c. unfold try_catch. specialize (Hk c).
  destruct (k c) as [[a|e] c']; [done|]. etrans; [exact Hk|apply Hh].
Qed.
Lemma respects_map_m {A B} (f : A → M T R B) l : (∀ a, respects Rel (f a)) → respects Rel (map_m f l).
Proof.
  intros Hf. induction l as [|a l IH]; [apply respects_ret|]. cbn [map_m].
  apply respects_bind; [apply Hf|]. intros b. apply respects_bind; [apply IH|].
  intros bs. apply respects_ret.
Qed.
Lemma respects_first_answer ways last :
  Forall (respects Rel) ways → respects Rel last → respects Rel (first_answer ways last).
Proof.
  intros Hw Hl. induction Hw as [|way ways Hway _ IH]; [done|]. cbn [first_answer].
  apply respects_bind; [done|]. intros [r|]; [apply respects_ret|done].
Qed.
End Rules.
End Logic.

Create HintDb respects.
#[export] Hint Resolve respects_ret respects_gets respects_fmap respects_try respects_map_m : respects.

(** Follows the structure of a computation. *)
Ltac respect_step :=
  match goal with
  | |- respects _ (mbind _ _) => apply respects_bind; [exact _| |intros ?]
  | |- respects _ (fmap _ _) => apply respects_fmap; [exact _|]
  | |- respects _ (mret _) => apply respects_ret; exact _
  | |- respects _ (gets _) => apply respects_gets; exact _
  | |- respects _ (try_catch _ _) => apply respects_try; [exact _| |]
  | |- respects _ (map_m _ _) => apply respects_map_m; [exact _|intros ?]
  | |- respects _ (match ?x with _ => _ end) => destruct x
  | |- respects _ (let _ := _ in _) => cbv zeta
  | |- respects _ _ => solve [auto with respects]
  end.
Ltac respect := repeat respect_step.

(** ** What every operation keeps *)

(** The router of a state that comes later: the same nodes and pins. *)
Definition same_nodes (r r' : PartitionRouter) : Prop :=
  node_set_ r' = node_set_ r ∧ pinned_ r' = pinned_ r ∧ (router_ok r → router_ok r').

#[export] Instance same_nodes_preorder : PreOrder same_nodes.
Proof. split; [by intros r|]. intros r1 r2 r3 (?&?&?) (?&?&?). split_and!; [congruence..|auto]. Qed.

Lemma same_nodes_op r op :
  match op with OpAdd _ | OpRemove _ | OpPin _ _ | OpUnpin _ | OpCommit _ _ => False | _ => True end → same_nodes r (run_op r op).
Proof.
  intros Hop. split_and!.
  1,2: destruct op; try done; simpl;
    unfold route_table, route, PartitionRouter.set_table_placement, end_migration, recently_migrated;
    repeat (case_match || case_decide); simplify_eq; reflexivity.
  intros Hr. apply router_ok_op; [|done]. by destruct op.
Qed.

Section Facts.
Context {T R : Type} {HT : Pipeline T} {HR : Network R} {HS : RowSort}.
Notation coordinator := (Coordinator T R).
Implicit Types c : coordinator.

(** The nodes, the ring and the configuration stay. *)
Definition membership : relation coordinator := λ c c',
  (endpoints_ c' = endpoints_ c ∧ own_router_ c' = own_router_ c) ∧ same_nodes (router_ c) (router_ c').

#[export] Instance membership_preorder : PreOrder membership.
Proof. split; [by intros c|]. intros c1 c2 c3 [[??] ?] [[??] ?]. split; [split; congruence|by etrans]. Qed.

Lemma membership_modify (f : coordinator → coordinator) :
  (∀ c, endpoints_ (f c) = endpoints_ c) → (∀ c, own_router_ (f c) = own_router_ c) → (∀ c, router_ (f c) = router_ c) →
  respects membership (modify f).
Proof. intros He Ho Hr c. split; [split; [apply He|apply Ho]|]. simpl. by rewrite Hr. Qed.

Lemma membership_run_local id p sql : respects membership (run_local id p sql).
Proof. intros c. unfold run_local. by destruct (execute_local _ _). Qed.
Lemma membership_run_remote a sql lim : respects membership (run_remote a sql lim).
Proof. intros c. unfold run_remote. by destruct (rpc_execute _ _ _ _). Qed.

Lemma membership_route t s : respects membership (route_symbol t s).
Proof.
  intros c. unfold route_symbol.
  assert (same_nodes (router_ c) (if t =? 0 then route (router_ c) s else route_table (router_ c) t s).2) as Hn.
  { destruct (t =? 0); [by apply (same_nodes_op _ (OpRoute s))|by apply (same_nodes_op _ (OpRouteTable t s))]. }
  by destruct (if t =? 0 then _ else _) as [res r].
Qed.

Lemma apply_schema_placement_nodes s r :
  match apply_schema_placement s r with inl _ => True | inr r' => same_nodes r r' end.
Proof.
  unfold apply_schema_placement. destruct (table_id s =? 0); [done|].
  destruct (negb _); [by apply (same_nodes_op r (OpClearPlace _))|]. cbv zeta. destruct (_ && _); [done|]. destruct (PartitionRouter.set_table_placement _ _ _ _) as [r'|] eqn:Hp; [|done].
  pose proof (same_nodes_op r (OpPlace (table_id s) (to_cluster_placement_policy (mode (placement s)))
    (placement_node (placement s))) I) as Hn. simpl in Hn. by rewrite Hp in Hn.
Qed.

Lemma apply_placements_nodes ss r : same_nodes r (apply_placements ss r).2.
Proof.
  revert r. induction ss as [|s ss IH]; intros r; [done|]. cbn [apply_placements].
  pose proof (apply_schema_placement_nodes s r) as Hs. destruct (apply_schema_placement s r) as [e|r']; [done|].
  etrans; [exact Hs|apply IH].
Qed.

Lemma membership_apply_catalog : respects membership apply_catalog_table_placements.
Proof.
  intros c. unfold apply_catalog_table_placements. destruct (local_pipelines c) as [|p ps]; [done|].
  pose proof (apply_placements_nodes (schemas (schema_registry (pipelines c p))) (router_ c)) as Hn.
  by destruct (apply_placements _ _) as [e r].
Qed.

Lemma membership_stats f : respects membership (modify (set_join_stats f)) ∧ respects membership (modify (set_window_stats f)).
Proof. split; by apply membership_modify. Qed.

(** ** Executing a statement

    What all the elementary actions of an execution respect, the execution
    respects. *)

Class Steps (Rel : relation coordinator) : Prop := {
  steps_preorder :: PreOrder Rel;
  steps_local id p sql : respects Rel (run_local id p sql);
  steps_remote a sql lim : respects Rel (run_remote a sql lim);
  steps_route t s : respects Rel (route_symbol t s);
  steps_catalog : respects Rel apply_catalog_table_placements;
  steps_join f : respects Rel (modify (set_join_stats f));
  steps_window f : respects Rel (modify (set_window_stats f));
}.

#[export] Instance membership_steps : Steps membership.
Proof.
  split; auto using membership_run_local, membership_run_remote, membership_route, membership_apply_catalog.
  - exact _.
  - apply membership_stats.
  - apply membership_stats.
Qed.

Section Execution.
Context Rel `{!Steps Rel} (elapsed : Z).
Local Hint Resolve steps_local steps_remote steps_route steps_catalog steps_join steps_window : respects.

Lemma exec_on_respects ep sql : respects Rel (exec_on ep sql).
Proof. unfold exec_on. respect. Qed.
Local Hint Resolve exec_on_respects : respects.

Lemma scatter_respects sql : respects Rel (scatter sql).
Proof. unfold scatter. respect. Qed.
Lemma scatter_to_respects sql idx : respects Rel (scatter_to sql idx).
Proof. unfold scatter_to. respect. Qed.
Lemma forward_ddl_respects sql : respects Rel (forward_ddl_to_remotes sql).
Proof. unfold forward_ddl_to_remotes. respect. Qed.
Lemma execute_sql_for_symbol_respects sql s : respects Rel (execute_sql_for_symbol sql s).
Proof. unfold execute_sql_for_symbol. respect. Qed.
Lemma fetch_from_respects eps base rl mb f : respects Rel (fetch_from eps base rl mb f).
Proof. revert f. induction eps as [|ep eps IH]; intros f; cbn [fetch_from]; unfold exec_probe; respect. Qed.
Local Hint Resolve scatter_respects execute_sql_for_symbol_respects fetch_from_respects : respects.
Lemma fetch_concat_bounded_respects base rl mb : respects Rel (fetch_concat_bounded base rl mb).
Proof. unfold fetch_concat_bounded. respect. Qed.
Local Hint Resolve fetch_concat_bounded_respects : respects.

Lemma run_on_copy_join_respects what lat n b tmp sql :
  respects Rel (run_on_copy elapsed set_join_stats what lat n b tmp sql).
Proof. unfold run_on_copy. respect. Qed.
Lemma run_on_copy_window_respects what lat n b tmp sql :
  respects Rel (run_on_copy elapsed set_window_stats what lat n b tmp sql).
Proof. unfold run_on_copy. respect. Qed.
Local Hint Resolve run_on_copy_join_respects run_on_copy_window_respects : respects.

Lemma join_locally_respects cfg sql l r ls rs lr rr b : respects Rel (join_locally elapsed cfg sql l r ls rs lr rr b).
Proof. unfold join_locally, gauge_join, reject_bytes, fail_join, finish_join, count_join. respect. Qed.
Local Hint Resolve join_locally_respects : respects.
Lemma execute_small_table_hash_join_respects sql l r : respects Rel (execute_small_table_hash_join elapsed sql l r).
Proof.
  unfold execute_small_table_hash_join, with_side, reject_rows, reject_bytes, gauge_join, fail_join, finish_join, count_join.
  respect.
Qed.
Lemma execute_full_data_respects sql stmt : respects Rel (execute_full_data elapsed sql stmt).
Proof. unfold execute_full_data, gauge_window, finish_window, count_window. respect. Qed.
Local Hint Resolve execute_small_table_hash_join_respects execute_full_data_respects : respects.

Lemma with_select_respects sql k : (∀ stmt, respects Rel (k stmt)) → respects Rel (with_select sql k).
Proof. intros Hk. unfold with_select. respect. Qed.

Lemma execute_dml_respects sql : respects Rel (execute_dml sql).
Proof. unfold execute_dml, insert_to_owner, to_symbol_owner, on_first_node, run_ddl, answered. respect. Qed.

Theorem execute_sql_respects sql : respects Rel (execute_sql elapsed sql).
Proof.
  unfold execute_sql, scatter_gather. apply respects_first_answer; [exact _| |respect].
  repeat apply Forall_cons_2; try apply Forall_nil_2.
  - apply execute_dml_respects.
  - unfold single_node, answered. respect.
  - unfold to_symbol_owner, answered. respect.
  - apply with_select_respects. intros stmt. respect.
  - apply with_select_respects. intros stmt. unfold answered. respect.
  - apply with_select_respects. intros stmt. unfold answered. respect.
  - apply with_select_respects. intros stmt. unfold answered. respect.
Qed.
End Execution.
End Facts.

(** ** The nodes of a coordinator *)

Section Nodes.
Context {T R : Type} {HT : Pipeline T} {HR : Network R} {HS : RowSort}.
Notation coordinator := (Coordinator T R).
Implicit Types c : coordinator.

Definition endpoint_ids c : list Z := (λ ep, addr_id (addr ep)) <$> endpoints_ c.

(** The calls of a coordinator; the nodes change without it as well, and so does a
    router that its owner shares with it. *)
Inductive coord_op : Type :=
  | AddRemote (a : NodeAddress) | AddLocal (a : NodeAddress) (p : Z)
  | RemoveNode (id : Z) | StateChange (id : Z) (s : NodeState)
  | SetPlacement (table : string) (policy : TablePlacementPolicy) (node : Z) | ClearPlacement (table : string)
  | ApplyCatalog
  | Execute (elapsed : Z) (sql : string) | ExecuteForSymbol (sql : string) (symbol : Z) | ForwardDdl (sql : string)
  | SetJoinConfig (cfg : SmallTableJoinConfig) | SetWindowConfig (cfg : WindowMaterializationConfig)
  | ResetJoinStats | ResetWindowStats
  | ShareRouter (shared : option PartitionRouter) | OwnerChange (r : PartitionRouter)
  | Elsewhere (pipes : Z → T) (net : R).

Definition coord_step c (op : coord_op) : coordinator :=
  match op with
  | AddRemote a => (add_remote_node a c).2
  | AddLocal a p => (add_local_node a p c).2
  | RemoveNode id => (Coordinator.remove_node id c).2
  | StateChange id s => (on_state_change id s c).2
  | SetPlacement t pol n => (set_table_placement t pol n c).2
  | ClearPlacement t => (clear_table_placement t c).2
  | ApplyCatalog => (apply_catalog_table_placements c).2
  | Execute elapsed sql => (execute_sql elapsed sql c).2
  | ExecuteForSymbol sql s => (execute_sql_for_symbol sql s c).2
  | ForwardDdl sql => (forward_ddl_to_remotes sql c).2
  | SetJoinConfig cfg => (set_small_table_join_config cfg c).2
  | SetWindowConfig cfg => (set_window_materialization_config cfg c).2
  | ResetJoinStats => reset_small_table_join_stats c
  | ResetWindowStats => reset_window_materialization_stats c
  | ShareRouter shared => set_shared_router shared c
  | OwnerChange r => shared_router_changed r c
  | Elsewhere pipes net => mkCoordinator (endpoints_ c) (router_ c) (own_router_ c) (small_table_join_config_ c)
      (window_materialization_config_ c) (small_table_join_stats_ c) (window_materialization_stats_ c) pipes net (executed_ c)
  end.

(** Node ids are [uint32_t], and an owner's router is one that its methods made. *)
Definition coord_op_ok (op : coord_op) : Prop :=
  match op with
  | AddRemote a | AddLocal a _ => node_ok (addr_id a)
  | RemoveNode id | StateChange id _ => node_ok id
  | ShareRouter (Some r) | OwnerChange r => router_ok r
  | _ => True
  end.

(** The calls of a coordinator that keeps its own router. *)
Definition keeps_own (op : coord_op) : Prop := match op with ShareRouter _ => False | _ => True end.

(** A coordinator that uses its own router. *)
Record coordinator_ok c : Prop := {
  cok_own : own_router_ c = None;
  cok_distinct : NoDup (endpoint_ids c);
  cok_nodes : ∀ n, n ∈ node_set_ (router_ c) ↔ n ∈ endpoint_ids c;
  cok_router : router_ok (router_ c);
  cok_pins : pinned_ (router_ c) = ∅;
}.

Lemma coordinator_ok_membership c c' : membership c c' → coordinator_ok c → coordinator_ok c'.
Proof.
  intros [[He Ho] (Hn & Hp & Hr)] [H0 H1 H2 H3 H4]. split; unfold endpoint_ids in *; rewrite ?He, ?Ho, ?Hn, ?Hp; auto.
Qed.

Lemma registered_spec c id : registered c id = true ↔ id ∈ endpoint_ids c.
Proof.
  unfold registered, endpoint_ids. rewrite existsb_exists, list_elem_of_fmap.
  split; intros (ep & H1 & H2); exists ep; [apply Z.eqb_eq in H2; by rewrite list_elem_of_In|].
  rewrite <- list_elem_of_In. split; [done|]. apply Z.eqb_eq. congruence.
Qed.

Lemma coordinator_ok_add c ep :
  node_ok (addr_id (addr ep)) → coordinator_ok c → coordinator_ok (add_endpoint ep c).2.
Proof.
  intros Hid Hok. destruct (registered c (addr_id (addr ep))) eqn:Hreg.
  { unfold add_endpoint, mbind, M_bind, gets. by rewrite Hreg. }
  assert (addr_id (addr ep) ∉ endpoint_ids c) as Hnew by (by rewrite <- registered_spec, Hreg).
  set (c1 := set_router (add_node (router_ c) (addr_id (addr ep))) (set_endpoints (endpoints_ c ++ [ep]) c)).
  apply (coordinator_ok_membership c1).
  { replace (add_endpoint ep c).2 with ((apply_catalog_table_placements;; mret tt) c1).2.
    - apply (respects_bind membership); [apply membership_apply_catalog|]. intros e. apply respects_ret, _.
    - unfold add_endpoint, mbind, M_bind, gets. by rewrite Hreg. }
  destruct Hok as [H0 H1 H2 H3 H4]. split; unfold endpoint_ids, c1; simpl; rewrite ?fmap_app; simpl; [done|..].
  - apply NoDup_app. split_and!; [done| |apply NoDup_singleton]. intros n Hn ->%list_elem_of_singleton. done.
  - intros n. rewrite node_set_add_node, elem_of_app, list_elem_of_singleton, elem_of_union, elem_of_singleton, H2. tauto.
  - by apply router_ok_add.
  - by rewrite pinned_add_node.
Qed.

Lemma removed_ids c id n : n ∈ endpoint_ids (Coordinator.remove_node id c).2 ↔ n ∈ endpoint_ids c ∧ n ≠ id.
Proof.
  unfold endpoint_ids. simpl. rewrite !list_elem_of_fmap. split.
  - intros (ep & -> & [Hin Hne%negb_true_iff%Z.eqb_neq]%list_elem_of_In%filter_In).
    split; [|done]. exists ep. by rewrite list_elem_of_In.
  - intros [(ep & -> & Hin%list_elem_of_In) Hne]. exists ep. split; [done|].
    apply list_elem_of_In, filter_In. split; [done|]. by apply negb_true_iff, Z.eqb_neq.
Qed.

Lemma coordinator_ok_remove c id : node_ok id → coordinator_ok c → coordinator_ok (Coordinator.remove_node id c).2.
Proof.
  intros Hid [H0 H1 H2 H3 H4].
  split.
  - done.
  - unfold endpoint_ids in *. simpl. eapply sublist_NoDup; [exact H1|]. clear.
    induction (endpoints_ c) as [|ep eps IH]; [done|]. simpl. destruct (negb _); simpl;
      [by apply sublist_skip|by apply sublist_cons].
  - intros n. rewrite removed_ids, <- H2. simpl. rewrite node_set_remove_node. set_solver.
  - by apply router_ok_remove.
  - simpl. by rewrite pinned_remove_node.
Qed.
End Nodes.

(** ** Placement of tables *)

(** What the coordinator relies on: a pipeline keeps the registry it is given, and
    saving the catalog does not change it. *)
Class PipelineLaws (T : Type) {HT : Pipeline T} : Prop := {
  registry_set r (t : T) : schema_registry (set_schema_registry r t) = r;
  registry_save (t : T) : schema_registry (save_schema_catalog t).2 = schema_registry t;
}.

Lemma set_placement_undo r table p s :
  SchemaRegistry.get r table = Some s →
  (SchemaRegistry.set_placement (SchemaRegistry.set_placement r table p).2 table (placement s)).2 = r.
Proof.
  unfold SchemaRegistry.get, SchemaRegistry.set_placement, SchemaRegistry.update_table. intros Hs. rewrite Hs. simpl.
  rewrite lookup_insert_eq. simpl. rewrite insert_insert_eq, insert_id; [by destruct r|]. rewrite Hs. by destruct s.
Qed.

Section Quiet.
Context {T R : Type} {HT : Pipeline T}.
Implicit Types c : Coordinator T R.

(** Everything but the pipelines stays. *)
Definition quiet : relation (Coordinator T R) := λ c c',
  (endpoints_ c' = endpoints_ c ∧ own_router_ c' = own_router_ c) ∧ router_ c' = router_ c.
#[export] Instance quiet_preorder : PreOrder quiet.
Proof. split; [by intros c|]. intros c1 c2 c3 [[??] ?] [[??] ?]. split_and!; congruence. Qed.

Lemma quiet_update_catalogs table f ps dn c : quiet c (update_catalogs table f ps dn c).2.
Proof.
  revert dn c. induction ps as [|p ps IH]; intros dn c; [done|]. cbn [update_catalogs].
  destruct (SchemaRegistry.get _ _); [|apply IH]. destruct (f _) as [[] r]; [|done]. etrans; [|apply IH]. done.
Qed.
Lemma quiet_save_catalog p c : quiet c (save_catalog p c).2.
Proof. unfold save_catalog. by destruct (save_schema_catalog _). Qed.
Lemma quiet_save_catalogs ps c : quiet c (save_catalogs ps c).2.
Proof.
  revert c. induction ps as [|p ps IH]; intros c; [done|]. cbn [save_catalogs].
  pose proof (quiet_save_catalog p c) as Hq. destruct (save_catalog p c) as [[] c1]; [|done]. etrans; [exact Hq|apply IH].
Qed.
Lemma quiet_foldl {A} (f : Coordinator T R → A → Coordinator T R) l c : (∀ c a, quiet c (f c a)) → quiet c (foldl f c l).
Proof. intros Hf. revert c. induction l as [|a l IH]; intros c; [done|]. etrans; [apply Hf|apply IH]. Qed.
Lemma quiet_rollback table ups c : quiet c (rollback_catalogs table ups c).
Proof.
  unfold rollback_catalogs. etrans; [|apply quiet_foldl; intros; apply quiet_save_catalog].
  by apply quiet_foldl.
Qed.

Lemma quiet_update_and_save table f e1 e2 c : quiet c (update_and_save table f e1 e2 c).2.
Proof.
  unfold update_and_save. pose proof (quiet_update_catalogs table f (local_pipelines c) [] c) as H1.
  destruct (update_catalogs _ _ _ _ _) as [[ok ups] c1]. destruct (negb ok); [etrans; [exact H1|apply quiet_rollback]|].
  pose proof (quiet_save_catalogs ups.*1 c1) as H2. destruct (save_catalogs _ _) as [ok' c2].
  etrans; [exact H1|]. destruct (negb ok'); [|done]. etrans; [exact H2|apply quiet_rollback].
Qed.
End Quiet.

Section Placement.
Context {T R : Type} {HT : Pipeline T} {HP : PipelineLaws T}.
Notation coordinator := (Coordinator T R).
Implicit Types c : coordinator.

Definition registry_at c (p : Z) : SchemaRegistry := schema_registry (pipelines c p).

Lemma set_pipeline_at c p t q : pipelines (set_pipeline p t c) q = if q =? p then t else pipelines c q.
Proof. done. Qed.

Lemma local_pipelines_distinct c : NoDup (local_pipelines c).
Proof. unfold local_pipelines. rewrite merge_sort_Permutation. apply NoDup_remove_dups. Qed.

Definition planned_updates (table : string) c (ps : list Z) : list (Z * TablePlacementOptions) :=
  omap (λ q, (λ s, (q, placement s)) <$> SchemaRegistry.get (registry_at c q) table) ps.

Lemma planned_cons table c q ps :
  planned_updates table c (q :: ps) =
  match SchemaRegistry.get (registry_at c q) table with
  | Some s => (q, placement s) :: planned_updates table c ps
  | None => planned_updates table c ps
  end.
Proof. unfold planned_updates. simpl. by destruct (SchemaRegistry.get _ _). Qed.

Lemma elem_of_planned table c ps q pl :
  (q, pl) ∈ planned_updates table c ps ↔
  q ∈ ps ∧ ∃ s, SchemaRegistry.get (registry_at c q) table = Some s ∧ pl = placement s.
Proof.
  unfold planned_updates. rewrite list_elem_of_omap. split.
  - intros (q' & Hq & (s & Hs & [= -> ->])%fmap_Some). eauto.
  - intros (Hq & s & Hs & ->). exists q. split; [done|]. by rewrite Hs.
Qed.

Lemma planned_distinct table c ps : NoDup ps → NoDup (planned_updates table c ps).*1.
Proof.
  intros Hnd. eapply sublist_NoDup; [exact Hnd|]. clear. unfold planned_updates.
  induction ps as [|q ps IH]; [done|]. simpl.
  destruct (SchemaRegistry.get _ _); simpl; [by apply sublist_skip|by apply sublist_cons].
Qed.

Lemma planned_same table c c' ps :
  (∀ q, q ∈ ps → registry_at c' q = registry_at c q) → planned_updates table c' ps = planned_updates table c ps.
Proof.
  intros H. apply list_omap_ext, Forall_Forall2_diag, Forall_forall. intros q Hq. by rewrite H.
Qed.

(** Every pipeline that has the table gets the new placement. *)
Lemma update_catalogs_spec table pl ps done_ c :
  NoDup ps →
  ∃ c', update_catalogs table (λ r, SchemaRegistry.set_placement r table pl) ps done_ c =
          (true, done_ ++ planned_updates table c ps, c') ∧
    ∀ q, registry_at c' q = if bool_decide (q ∈ ps) then (SchemaRegistry.set_placement (registry_at c q) table pl).2 else registry_at c q.
Proof.
  revert done_ c. induction ps as [|p ps IH]; intros dn c Hnd; cbn [update_catalogs].
  { exists c. unfold planned_updates. simpl. rewrite app_nil_r. done. }
  inversion Hnd as [|? ? Hp Hnd']; subst. rewrite planned_cons.
  change (schema_registry (pipelines c p)) with (registry_at c p).
  destruct (SchemaRegistry.get (registry_at c p) table) as [s|] eqn:Hs.
  - destruct (SchemaRegistry.set_placement (registry_at c p) table pl) as [ok r] eqn:Hset.
    assert (ok = true) as ->.
    { unfold SchemaRegistry.set_placement, SchemaRegistry.update_table, SchemaRegistry.get in *. rewrite Hs in Hset. by injection Hset. }
    set (c1 := set_pipeline p (set_schema_registry r (pipelines c p)) c).
    assert (∀ q, registry_at c1 q = if q =? p then r else registry_at c q) as Hc1.
    { intros q. unfold registry_at, c1. rewrite set_pipeline_at. destruct (q =? p); [apply registry_set|done]. }
    destruct (IH (dn ++ [(p, placement s)]) c1 Hnd') as (c' & He & Hr). exists c'. split.
    + rewrite He, <- app_assoc. do 4 f_equal. apply planned_same. intros q Hin. rewrite Hc1.
      destruct (Z.eqb_spec q p) as [->|]; done.
    + intros q. rewrite Hr, Hc1. destruct (Z.eqb_spec q p) as [->|Hne].
      * rewrite bool_decide_false by done. rewrite bool_decide_true by apply list_elem_of_here.
        by rewrite Hset.
      * destruct (decide (q ∈ ps)); [rewrite !bool_decide_true|rewrite !bool_decide_false];
          rewrite ?elem_of_cons; (done || by right || by intros [|]).
  - destruct (IH dn c Hnd') as (c' & He & Hr). exists c'. split.
    + exact He.
    + intros q. rewrite Hr. destruct (decide (q = p)) as [->|Hne].
      * rewrite bool_decide_false by done. rewrite bool_decide_true by apply list_elem_of_here.
        unfold SchemaRegistry.set_placement, SchemaRegistry.update_table, registry_at, SchemaRegistry.get in *. by rewrite Hs.
      * destruct (decide (q ∈ ps)); [rewrite !bool_decide_true|rewrite !bool_decide_false];
          rewrite ?elem_of_cons; (done || by right || by intros [|]).
Qed.

Lemma save_catalog_registry p c q : registry_at (save_catalog p c).2 q = registry_at c q.
Proof.
  unfold save_catalog. pose proof (registry_save (pipelines c p)) as Hs.
  destruct (save_schema_catalog (pipelines c p)) as [ok t]. unfold registry_at.
  cbn [snd]. rewrite set_pipeline_at. by destruct (Z.eqb_spec q p) as [->|].
Qed.

Lemma save_catalogs_registry ps c q : registry_at (save_catalogs ps c).2 q = registry_at c q.
Proof.
  revert c. induction ps as [|p ps IH]; intros c; [done|]. cbn [save_catalogs].
  pose proof (save_catalog_registry p c q) as Hr. destruct (save_catalog p c) as [[] c1]; [|done].
  by rewrite IH.
Qed.

Lemma foldl_registry {A} (f : coordinator → A → coordinator) l c q :
  (∀ c a, registry_at (f c a) q = registry_at c q) → registry_at (foldl f c l) q = registry_at c q.
Proof. intros Hf. revert c. induction l as [|a l IH]; intros c; [done|]. cbn [foldl]. by rewrite IH. Qed.

Lemma rollback_catalogs_spec table ups c q :
  NoDup ups.*1 →
  (q ∉ ups.*1 → registry_at (rollback_catalogs table ups c) q = registry_at c q) ∧
  (∀ pl, (q, pl) ∈ ups →
     registry_at (rollback_catalogs table ups c) q = (SchemaRegistry.set_placement (registry_at c q) table pl).2).
Proof.
  intros Hnd. unfold rollback_catalogs. cbv zeta.
  rewrite (foldl_registry (λ c u, (save_catalog u.1 c).2)) by (intros; apply save_catalog_registry).
  revert c. induction ups as [|[p pl] ups IH]; intros c; [split; [done|by intros ? ?%elem_of_nil]|].
  inversion Hnd as [|? ? Hp Hnd']; subst. cbn [foldl fst snd].
  match goal with |- context [foldl _ ?x ups] => set (c1 := x) end.
  destruct (IH Hnd' c1) as (H2 & H3).
  assert (registry_at c1 q = if q =? p then (SchemaRegistry.set_placement (registry_at c p) table pl).2 else registry_at c q) as Hu.
  { unfold registry_at, c1. rewrite set_pipeline_at. destruct (q =? p); [apply registry_set|done]. }
  split.
  - intros [Hne Hn]%not_elem_of_cons. rewrite H2, Hu by done. by rewrite (proj2 (Z.eqb_neq q p)).
  - intros pl' [[= -> ->]|Hl]%elem_of_cons.
    + rewrite H2, Hu by done. by rewrite Z.eqb_refl.
    + rewrite (H3 _ Hl), Hu. rewrite (proj2 (Z.eqb_neq q p)); [done|]. intros ->.
      apply Hp. by apply (list_elem_of_fmap_2 fst) in Hl.
Qed.

(** Rolling back after the catalogs were updated, and saved or not, undoes it. *)
Lemma rollback_undoes table pl c c1 c2 q :
  update_catalogs table (λ r, SchemaRegistry.set_placement r table pl) (local_pipelines c) [] c =
    (true, planned_updates table c (local_pipelines c), c1) →
  (∀ q, registry_at c2 q = registry_at c1 q) →
  registry_at (rollback_catalogs table (planned_updates table c (local_pipelines c)) c2) q = registry_at c q.
Proof.
  intros He H12. destruct (update_catalogs_spec table pl _ [] c (local_pipelines_distinct c)) as (c' & He' & Hr).
  rewrite He in He'. injection He' as <-. set (ups := planned_updates table c (local_pipelines c)).
  destruct (rollback_catalogs_spec table ups c2 q) as [Hout Hin]; [apply planned_distinct, local_pipelines_distinct|].
  destruct (decide (q ∈ ups.*1)) as [((q' & pl') & -> & Hq)%list_elem_of_fmap|Hn].
  - simpl in *. rewrite (Hin _ Hq), H12, Hr. apply elem_of_planned in Hq as (Hq & s & Hs & ->).
    rewrite bool_decide_true by done. by apply set_placement_undo.
  - rewrite Hout, H12, Hr by done. case_bool_decide as Hq; [|done].
    destruct (SchemaRegistry.get (registry_at c q) table) as [s|] eqn:Hs.
    + destruct Hn. apply list_elem_of_fmap. exists (q, placement s). split; [done|]. apply elem_of_planned. eauto.
    + unfold SchemaRegistry.set_placement, SchemaRegistry.update_table, SchemaRegistry.get in *. by rewrite Hs.
Qed.

Lemma update_and_save_spec table pl e1 e2 c :
  match update_and_save table (λ r, SchemaRegistry.set_placement r table pl) e1 e2 c with
  | (inl e, c') => e = e2 ∧ ∀ q, registry_at c' q = registry_at c q
  | (inr ups, c') => 
      (∀ q, registry_at c' q = if bool_decide (q ∈ local_pipelines c) then (SchemaRegistry.set_placement (registry_at c q) table pl).2
                               else registry_at c q) ∧
      ∀ c2, (∀ q, registry_at c2 q = registry_at c' q) → ∀ q, registry_at (rollback_catalogs table ups c2) q = registry_at c q
  end.
Proof.
  unfold update_and_save.
  destruct (update_catalogs_spec table pl _ [] c (local_pipelines_distinct c)) as (c1 & He & Hr).
  pose proof (rollback_undoes table pl c c1) as Hundo. rewrite He. simpl in *. specialize (Hundo).
  pose proof (save_catalogs_registry (planned_updates table c (local_pipelines c)).*1 c1) as Hs.
  destruct (save_catalogs _ _) as [[] c2]; simpl in *.
  - split; [intros q; by rewrite Hs, Hr|]. intros c3 H3 q. apply Hundo; [done|]. intros. by rewrite H3, Hs.
  - split; [done|]. intros q. by apply Hundo.
Qed.

(** C26. Placing a table is all or nothing: when it fails, whatever failed, the
    router and the schema registry of every pipeline are what they were; when it
    succeeds, the router has the placement, of a registered node if it is pinned,
    and exactly the local pipelines that know the table have it in their
    registries. *)
Theorem placement_all_or_nothing c table policy node res c' :
  set_table_placement table policy node c = (res, c') →
  endpoints_ c' = endpoints_ c ∧
  match res with
  | Some _ => router_ c' = router_ c ∧ ∀ p, registry_at c' p = registry_at c p
  | None => ∃ s, schema_snapshot c table = Some s ∧
      table_placement (router_ c') (table_id s) = Some (mkTablePlacement policy node) ∧
      (policy = PinnedNode → node ∈ node_set_ (router_ c)) ∧
      ∀ p, registry_at c' p =
        if bool_decide (p ∈ local_pipelines c)
        then (SchemaRegistry.set_placement (registry_at c p) table (to_schema_placement_options policy node)).2
        else registry_at c p
  end.
Proof.
  unfold set_table_placement. destruct (schema_snapshot c table) as [s|] eqn:Hs; [|by intros [= <- <-]].
  destruct (_ && _) eqn:Hpin; [by intros [= <- <-]|].
  pose proof (update_and_save_spec table (to_schema_placement_options policy node)
    ("failed to update table placement metadata for table '" +:+ table +:+ "'")
    ("failed to persist table placement for table '" +:+ table +:+ "'") c) as Hu.
  match type of Hu with match ?u with _ => _ end => pose proof (quiet_update_and_save table
    (λ r, SchemaRegistry.set_placement r table (to_schema_placement_options policy node))
    ("failed to update table placement metadata for table '" +:+ table +:+ "'")
    ("failed to persist table placement for table '" +:+ table +:+ "'") c) as [[He _] Hr]; destruct u as [[e|ups] c1] end.
  { intros [= <- <-]. split_and!; [done|done|apply Hu]. }
  destruct Hu as [Hreg Hundo]. cbn [snd] in *.
  destruct (PartitionRouter.set_table_placement (router_ c1) (table_id s) policy node) as [r|e] eqn:Hp; intros [= <- <-].
  - split; [done|]. exists s. split_and!; [done| | |apply Hreg].
    + unfold PartitionRouter.set_table_placement in Hp. unfold table_placement. simpl.
      destruct (_ =? 0); [done|]. destruct policy; [| |destruct (_ =? _); [done|]]; simplify_eq; simpl; apply lookup_insert_eq.
    + intros ->. rewrite bool_decide_true in Hpin by done. simpl in Hpin.
      apply negb_false_iff, bool_decide_eq_true in Hpin. by apply elem_of_elements.
  - destruct (quiet_rollback table ups c1) as [[He' _] Hr']. rewrite He', Hr'. split_and!; [done|done|]. by apply Hundo.
Qed.
End Placement.

(** ** Nodes for examples

    A node answers each text as its script says, anything else with an empty
    result; the network answers for the node of an address. *)

Record script_node : Type := mkScript {
  script_registry : SchemaRegistry;
  script : list (string * QueryResultSet);
  can_save : bool;
}.

Definition scripted (sc : list (string * QueryResultSet)) (sql : string) : QueryResultSet :=
  match list_find (λ p : string * QueryResultSet, p.1 = sql) sc with Some (_, p) => p.2 | None => empty_result end.

#[export] Instance script_pipeline : Pipeline script_node := {|
  new_pipeline := mkScript empty_registry [] true;
  schema_registry := script_registry;
  set_schema_registry r t := mkScript r (script t) (can_save t);
  save_schema_catalog t := (can_save t, t);
  ingest_typed_row _ t := (true, t);
  store_tick_direct _ t := t;
  execute_local sql t := (scripted (script t) sql, t);
|}.
#[export] Instance script_laws : PipelineLaws script_node.
Proof. by split. Defined.

#[export] Instance script_network : Network (Z → list (string * QueryResultSet)) := {|
  rpc_execute a sql _ net := (scripted (net (addr_id a)) sql, net);
|}.

Notation demo := (Coordinator script_node (Z → list (string * QueryResultSet))).

Definition demo_address (id : Z) : NodeAddress := mkAddress "host" 9000 id.
Definition demo_start (net : Z → list (string * QueryResultSet)) : demo :=
  new_coordinator (λ p, mkScript empty_registry (net p) true) net.
Definition demo_table : SchemaRegistry := (SchemaRegistry.create empty_registry "trades" [mkColumn "price" INT64] no_placement).2.

Lemma placement_all_or_nothing_witness :
  let c : demo := mkCoordinator [mkEndpoint (demo_address 1) false (Some 1) true] (add_node empty_router 1) None
    default_join_config default_window_config no_telemetry no_telemetry
    (λ _, mkScript demo_table [] false) (λ _, []) [] in
  let '(res, c') := set_table_placement "trades" PinnedNode 1 c in
  res = Some "failed to persist table placement for table 'trades'"%string ∧ registry_at c' 1 = registry_at c 1.
Proof.
  intros c. destruct (set_table_placement "trades" PinnedNode 1 c) as [res c'] eqn:H.
  assert (res = Some "failed to persist table placement for table 'trades'"%string) as Hres.
  { change res with (res, c').1. rewrite <- H. vm_compute. reflexivity. }
  split; [exact Hres|]. rewrite Hres in H.
  destruct (placement_all_or_nothing c "trades" PinnedNode 1 _ _ H) as (_ & _ & Hr). apply Hr.
Defined.

(** ** The nodes agree with the ring *)

Section Invariant.
Context {T R : Type} {HT : Pipeline T} {HR : Network R} {HS : RowSort}.
Notation coordinator := (Coordinator T R).
Implicit Types c : coordinator.

Lemma quiet_membership c c' : quiet c c' → membership c c'.
Proof. intros [He Hr]. split; [done|]. by rewrite Hr. Qed.

Lemma membership_set_placement table policy node c : membership c (set_table_placement table policy node c).2.
Proof.
  unfold set_table_placement. destruct (schema_snapshot c table) as [s|]; [|done]. destruct (_ && _); [done|].
  match goal with |- context [update_and_save table ?f ?e1 ?e2 c] =>
    pose proof (quiet_update_and_save table f e1 e2 c) as Hq; destruct (update_and_save table f e1 e2 c) as [[e|ups] c1] end;
    cbn [snd] in Hq; [by apply quiet_membership|].
  pose proof (same_nodes_op (router_ c1) (OpPlace (table_id s) policy node) I) as Hn. simpl in Hn.
  destruct (PartitionRouter.set_table_placement _ _ _ _).
  - etrans; [by apply quiet_membership|]. done.
  - apply quiet_membership. etrans; [exact Hq|apply quiet_rollback].
Qed.

Lemma membership_clear_placement table c : membership c (clear_table_placement table c).2.
Proof.
  unfold clear_table_placement. destruct (schema_snapshot c table) as [s|]; [|done].
  match goal with |- context [update_and_save table ?f ?e1 ?e2 c] =>
    pose proof (quiet_update_and_save table f e1 e2 c) as Hq; destruct (update_and_save table f e1 e2 c) as [[e|ups] c1] end;
    cbn [snd] in Hq; (etrans; [by apply quiet_membership|]); [done|].
  split; [done|]. by apply (same_nodes_op (router_ c1) (OpClearPlace (table_id s))).
Qed.

Lemma coordinator_ok_step c op : coord_op_ok op → keeps_own op → coordinator_ok c → coordinator_ok (coord_step c op).
Proof.
  intros Hop Hown Hok. destruct op; cbn [coord_step coord_op_ok] in *.
  - by apply coordinator_ok_add.
  - by apply coordinator_ok_add.
  - by apply coordinator_ok_remove.
  - unfold on_state_change. case_bool_decide; [by apply coordinator_ok_remove|done].
  - eapply coordinator_ok_membership, Hok. apply membership_set_placement.
  - eapply coordinator_ok_membership, Hok. apply membership_clear_placement.
  - eapply coordinator_ok_membership, Hok. apply membership_apply_catalog.
  - eapply coordinator_ok_membership, Hok. apply (execute_sql_respects membership).
  - eapply coordinator_ok_membership, Hok. apply (execute_sql_for_symbol_respects membership).
  - eapply coordinator_ok_membership, Hok. apply (forward_ddl_respects membership).
  - eapply coordinator_ok_membership, Hok. unfold set_small_table_join_config. cbv zeta. by repeat case_match.
  - eapply coordinator_ok_membership, Hok. unfold set_window_materialization_config. cbv zeta. by repeat case_match.
  - by apply (coordinator_ok_membership c).
  - by apply (coordinator_ok_membership c).
  - done.
  - unfold shared_router_changed. by rewrite (cok_own _ Hok).
  - by apply (coordinator_ok_membership c).
Qed.

Lemma coordinator_ok_new (pipes : Z → T) (net : R) : coordinator_ok (new_coordinator pipes net).
Proof. split; simpl; [done|apply NoDup_nil_2|set_solver|apply router_ok_empty|done]. Qed.

Lemma route_registered c symbol :
  coordinator_ok c → endpoints_ c ≠ [] →
  ∃ ep, ep ∈ endpoints_ c ∧ (route (router_ c) symbol).1 = Returned (addr_id (addr ep)).
Proof.
  intros [_ _ Hn Hr Hp] Hne. rewrite route_answer_eq by done. unfold route_answer. rewrite Hp, lookup_empty.
  destruct Hr as [Hns Hring Hc].
  destruct (find_node_is_Some (ring_ (router_ c)) (symbol_hash symbol)) as [n Hf]; [|by eapply ring_ok_keys|apply symbol_hash_range|].
  { rewrite ring_ok_empty by done. destruct (endpoints_ c) as [|ep eps] eqn:He; [done|]. intros Hempty.
    assert (addr_id (addr ep) ∈ node_set_ (router_ c)) as Hin; [|by rewrite Hempty in Hin].
    apply Hn. unfold endpoint_ids. rewrite He. apply list_elem_of_here. }
  rewrite Hf. apply (find_node_in _ (node_set_ (router_ c))), Hn, list_elem_of_fmap in Hf as (ep & -> & Hin); [|done|apply symbol_hash_range].
  eauto.
Qed.

(** *** A router that is shared *)

(** What holds of a coordinator whichever router it uses. *)
Record coordinator_wf c : Prop := {
  cwf_distinct : NoDup (endpoint_ids c);
  cwf_router : router_ok (router_ c);
  cwf_own : from_option router_ok True (own_router_ c);
}.

Lemma coordinator_wf_membership c c' : membership c c' → coordinator_wf c → coordinator_wf c'.
Proof. intros [[He Ho] (_ & _ & Hr)] [H1 H2 H3]. split; unfold endpoint_ids in *; rewrite ?He, ?Ho; auto. Qed.

Lemma added_or_there c ep :
  (endpoint_ids (add_endpoint ep c).2 = endpoint_ids c ∧ add_endpoint ep c = (Returned tt, c)) ∨
  (addr_id (addr ep) ∉ endpoint_ids c ∧
   membership (set_router (add_node (router_ c) (addr_id (addr ep))) (set_endpoints (endpoints_ c ++ [ep]) c)) (add_endpoint ep c).2).
Proof.
  destruct (registered c (addr_id (addr ep))) eqn:Hreg; [left|right].
  { unfold add_endpoint, mbind, M_bind, gets. by rewrite Hreg. }
  split; [by rewrite <- registered_spec, Hreg|].
  set (c1 := set_router _ _). replace (add_endpoint ep c).2 with ((apply_catalog_table_placements;; mret tt) c1).2.
  - apply (respects_bind membership); [apply membership_apply_catalog|]. intros e. apply respects_ret, _.
  - unfold add_endpoint, mbind, M_bind, gets. by rewrite Hreg.
Qed.

Lemma coordinator_wf_add c ep :
  node_ok (addr_id (addr ep)) → coordinator_wf c → coordinator_wf (add_endpoint ep c).2.
Proof.
  intros Hid [H1 H2 H3]. destruct (added_or_there c ep) as [[_ ->]|[Hnew Hm]]; [by split|].
  apply (coordinator_wf_membership _ _ Hm). split; unfold endpoint_ids; simpl; rewrite ?fmap_app; simpl.
  - apply NoDup_app. split_and!; [done| |apply NoDup_singleton]. intros n Hn ->%list_elem_of_singleton. done.
  - by apply router_ok_add.
  - done.
Qed.

Lemma coordinator_wf_remove c id : node_ok id → coordinator_wf c → coordinator_wf (Coordinator.remove_node id c).2.
Proof.
  intros Hid [H1 H2 H3]. split; simpl; [|by apply router_ok_remove|done].
  unfold endpoint_ids in *. simpl. eapply sublist_NoDup; [exact H1|]. clear.
  induction (endpoints_ c) as [|ep eps IH]; [done|]. simpl. destruct (negb _); simpl;
    [by apply sublist_skip|by apply sublist_cons].
Qed.

(** The calls that leave the endpoints and the nodes as they are. *)
Lemma membership_step c op :
  match op with
  | AddRemote _ | AddLocal _ _ | RemoveNode _ | StateChange _ _ | ShareRouter _ | OwnerChange _ => True
  | _ => membership c (coord_step c op)
  end.
Proof.
  destruct op; try exact I; cbn [coord_step].
  - apply membership_set_placement.
  - apply membership_clear_placement.
  - apply membership_apply_catalog.
  - apply (execute_sql_respects membership).
  - apply (execute_sql_for_symbol_respects membership).
  - apply (forward_ddl_respects membership).
  - unfold set_small_table_join_config. cbv zeta. by repeat case_match.
  - unfold set_window_materialization_config. cbv zeta. by repeat case_match.
  - done.
  - done.
  - done.
Qed.

Lemma coordinator_wf_step c op : coord_op_ok op → coordinator_wf c → coordinator_wf (coord_step c op).
Proof.
  intros Hop Hok. pose proof (membership_step c op) as Hm.
  destruct op; try (by apply (coordinator_wf_membership c)); cbn [coord_step coord_op_ok] in *.
  - by apply coordinator_wf_add.
  - by apply coordinator_wf_add.
  - by apply coordinator_wf_remove.
  - unfold on_state_change. case_bool_decide; [by apply coordinator_wf_remove|done].
  - destruct Hok as [H1 H2 H3]. assert (router_ok (default (router_ c) (own_router_ c))) as Hown.
    { by destruct (own_router_ c). }
    unfold set_shared_router. by destruct shared.
  - destruct Hok as [H1 H2 H3]. unfold shared_router_changed. destruct (own_router_ c) eqn:Ho; [|split; rewrite ?Ho; done].
    split; simpl; rewrite ?Ho; done.
Qed.

(** The documented use of a shared router: it is set before any endpoint is added,
    and its owner keeps the nodes of the endpoints. *)
Fixpoint shared_as_documented c (ops : list coord_op) : Prop :=
  match ops with
  | [] => True
  | op :: ops =>
      match op with
      | ShareRouter _ => endpoints_ c = []
      | OwnerChange r => ∀ n, n ∈ endpoint_ids c → n ∈ node_set_ r
      | _ => True
      end ∧ shared_as_documented (coord_step c op) ops
  end.

Lemma endpoints_are_nodes_step c op :
  match op with
  | ShareRouter _ => endpoints_ c = []
  | OwnerChange r => ∀ n, n ∈ endpoint_ids c → n ∈ node_set_ r
  | _ => True
  end →
  (∀ n, n ∈ endpoint_ids c → n ∈ node_set_ (router_ c)) →
  ∀ n, n ∈ endpoint_ids (coord_step c op) → n ∈ node_set_ (router_ (coord_step c op)).
Proof.
  intros Hdoc Hin.
  assert (∀ c', membership c c' → ∀ n, n ∈ endpoint_ids c' → n ∈ node_set_ (router_ c')) as Hmem.
  { intros c' [[He _] (Hn & _)]. unfold endpoint_ids. rewrite He, Hn. exact Hin. }
  assert (∀ ep n, n ∈ endpoint_ids (add_endpoint ep c).2 → n ∈ node_set_ (router_ (add_endpoint ep c).2)) as Hadd.
  { intros ep n. destruct (added_or_there c ep) as [[_ Hsame]|[_ [[He _] (Hn & _)]]]; [rewrite Hsame; apply Hin|].
    unfold endpoint_ids in *. rewrite He, Hn. simpl. rewrite fmap_app, node_set_add_node. simpl.
    intros [?%Hin|?%list_elem_of_singleton]%elem_of_app; set_solver. }
  assert (∀ id n, n ∈ endpoint_ids (Coordinator.remove_node id c).2 → n ∈ node_set_ (router_ (Coordinator.remove_node id c).2)) as Hrem.
  { intros id n [Hn Hne]%removed_ids. simpl. rewrite node_set_remove_node. apply Hin in Hn. set_solver. }
  pose proof (membership_step c op) as Hm. destruct op; try (by apply Hmem); cbn [coord_step].
  - apply Hadd.
  - apply Hadd.
  - apply Hrem.
  - unfold on_state_change. case_bool_decide; [apply Hrem|exact Hin].
  - unfold set_shared_router, endpoint_ids. intros n Hn. exfalso.
    destruct shared; simpl in Hn; rewrite Hdoc in Hn; by apply elem_of_nil in Hn.
  - unfold shared_router_changed. destruct (own_router_ c); [exact Hdoc|exact Hin].
Qed.

End Invariant.


(** ** A silent node is dropped *)

Section Silence.
Context (n hb : Z).

(** Nothing is heard of the node, and it cannot be reached. *)
Definition silent (op : hm_op) : Prop :=
  match op with
  | OpHeartbeat _ _ k | OpLeave k | OpSimTimeout _ k _ => k ≠ n
  | OpCheck now connect => age_ms now hb < 2 ^ 32 ∧ ∀ a, addr_id a = n → connect a = false
  | OpAddPeer _ _ | OpSimMisses _ _ | OpStop => True
  end.

(** A check after the timeout. *)
Definition mature (cfg : HealthConfig) (op : hm_op) : bool :=
  match op with OpCheck now _ => dead_timeout_ms cfg <=? age_ms now hb | _ => false end.

(** How many such checks it takes. *)
Definition checks_left (s : NodeState) : nat :=
  match s with ACTIVE | JOINING => 2 | SUSPECT => 1 | _ => 0 end.

Definition may_die (s : NodeState) : Prop := s = ACTIVE ∨ s = JOINING ∨ s = SUSPECT ∨ s = DEAD.

Record watched (m : HealthMonitor) (s : NodeState) : Prop := {
  w_self : n ≠ self_node_ m;
  w_state : node_states_ m !! n = Some s;
  w_heartbeat : last_heartbeat_ m !! n = Some hb;
  w_address : ∀ a, node_addresses_ m !! n = Some a → addr_id a = n;
  w_timing : timing_ok (config_ m);
  w_order : suspect_timeout_ms (config_ m) <= dead_timeout_ms (config_ m);
  w_may_die : may_die s;
}.

Lemma transition_fields m k s :
  self_node_ (transition_state m k s) = self_node_ m ∧ last_heartbeat_ (transition_state m k s) = last_heartbeat_ m ∧
  node_addresses_ (transition_state m k s) = node_addresses_ m ∧ config_ (transition_state m k s) = config_ m.
Proof. unfold transition_state. destruct (node_states_ m !! k); [|done]. by case_decide. Qed.

Lemma transitions_fields l m :
  let m' := foldl (λ m (c : Z * NodeState), transition_state m c.1 c.2) m l in
  self_node_ m' = self_node_ m ∧ last_heartbeat_ m' = last_heartbeat_ m ∧
  node_addresses_ m' = node_addresses_ m ∧ config_ m' = config_ m.
Proof.
  revert m. induction l as [|[k s] l IH]; intros m; [done|]. cbn [foldl fst snd].
  destruct (IH (transition_state m k s)) as (?&?&?&?), (transition_fields m k s) as (?&?&?&?). split_and!; congruence.
Qed.

Lemma check_fields now connect m :
  let m' := check_timeouts now connect m in
  self_node_ m' = self_node_ m ∧ last_heartbeat_ m' = last_heartbeat_ m ∧
  node_addresses_ m' = node_addresses_ m ∧ config_ m' = config_ m.
Proof.
  unfold check_timeouts. destruct (check_locked now m) as [ds m1] eqn:Hc.
  destruct (check_locked_spec _ _ _ _ Hc) as (_ & ? & ? & ? & _ & ? & _).
  destruct (transitions_fields (changes_of connect ds) m1) as (?&?&?&?). cbv zeta. split_and!; congruence.
Qed.

Lemma watched_check now connect m s :
  watched m s → silent (OpCheck now connect) →
  ∃ s', watched (check_timeouts now connect m) s' ∧
    (checks_left s' <= checks_left s - (if mature (config_ m) (OpCheck now connect) then 1 else 0))%nat.
Proof.
  intros [H1 H2 H3 H4 H5 H6 H7] [Hage Hconn]. exists (verdict now connect m n hb s).
  destruct (check_fields now connect m) as (F1 & F2 & F3 & F4). split.
  - split; rewrite ?F1, ?F2, ?F3, ?F4; try done; [by apply check_timeouts_state|].
    unfold may_die, verdict. destruct H7 as [->|[->|[->| ->]]]; try case_match; auto 6.
  - assert (from_option connect false (node_addresses_ m !! n) = false) as Hfail.
    { destruct (node_addresses_ m !! n) as [a|] eqn:Ha; [|done]. simpl. by apply Hconn, H4. }
    unfold mature, verdict. rewrite Hfail. cbn [negb]. rewrite andb_true_r.
    destruct H7 as [->|[->|[->| ->]]]; simpl;
      repeat match goal with |- context [?a <=? ?b] => destruct (Z.leb_spec a b) end; simpl; lia.
Qed.

(** A heartbeat of another node. *)
Lemma heartbeat_other now rejoin m k :
  k ≠ n →
  let m' := inject_heartbeat now rejoin m k in
  self_node_ m' = self_node_ m ∧ node_states_ m' !! n = node_states_ m !! n ∧
  last_heartbeat_ m' !! n = last_heartbeat_ m !! n ∧ node_addresses_ m' = node_addresses_ m ∧ config_ m' = config_ m.
Proof.
  intros Hs. cbv zeta. assert (∀ s, self_node_ (transition_state (touch now m k) k s) = self_node_ m ∧
    node_states_ (transition_state (touch now m k) k s) !! n = node_states_ m !! n ∧
    last_heartbeat_ (transition_state (touch now m k) k s) !! n = last_heartbeat_ m !! n ∧
    node_addresses_ (transition_state (touch now m k) k s) = node_addresses_ m ∧
    config_ (transition_state (touch now m k) k s) = config_ m) as Ht.
  { intros t. destruct (transition_fields (touch now m k) k t) as (-> & -> & -> & ->).
    rewrite transition_state_lookup_ne by congruence. simpl. by rewrite lookup_insert_ne. }
  unfold inject_heartbeat, handle_dead_rejoin.
  destruct (node_states_ (touch now m k) !! k) as [[]|] eqn:Hk;
    try (destruct (Ht ACTIVE) as (-> & -> & -> & -> & ->); done);
    try (simpl; rewrite lookup_insert_ne by congruence; done).
  - destruct (enable_dead_rejoin _); [|simpl; rewrite lookup_insert_ne by congruence; done].
    destruct (Ht REJOINING) as (E1 & E2 & E3 & E4 & E5).
    destruct (rejoin_result rejoin k); [|rewrite E1, E2, E3, E4, E5; done].
    destruct (transition_fields (transition_state (touch now m k) k REJOINING) k ACTIVE) as (G1 & G2 & G3 & G4).
    rewrite G1, G2, G3, G4, transition_state_lookup_ne, E1, E2, E3, E4, E5 by congruence. done.
  - simpl. rewrite !lookup_insert_ne by congruence. done.
Qed.

Lemma watched_op m s op :
  watched m s → silent op →
  ∃ s', watched (run_hm m op) s' ∧ config_ (run_hm m op) = config_ m ∧
    (checks_left s' <= checks_left s - (if mature (config_ m) op then 1 else 0))%nat.
Proof.
  intros Hw Hs. destruct op as [now rejoin k|now connect|k|now p|now k age|k c|]; cbn [run_hm].
  2:{ destruct (watched_check now connect m s Hw Hs) as (s' & ? & ?). exists s'. split_and!; [done|apply check_fields|done]. }
  all: destruct Hw as [H1 H2 H3 H4 H5 H6 H7]; exists s; simpl in Hs.
  - destruct (heartbeat_other now rejoin m k Hs) as (F1 & F2 & F3 & F4 & F5).
    split_and!; [split; rewrite ?F1, ?F2, ?F3, ?F4, ?F5; done|done|simpl; lia].
  - destruct (transition_fields m k LEAVING) as (F1 & F2 & F3 & F4). unfold mark_leaving.
    split_and!; [split; rewrite ?F1, ?F2, ?F3, ?F4, ?transition_state_lookup_ne by congruence; done|done|simpl; lia].
  - unfold add_peer, add_node_locked. split_and!; [|by case_match|simpl; lia].
    assert (∀ a, <[addr_id p:=p]> (node_addresses_ m) !! n = Some a → addr_id a = n) as Ha.
    { intros a [[? ->]|[_ ?]]%lookup_insert_Some; [done|by apply H4]. }
    destruct (node_states_ m !! addr_id p) eqn:Hp; [by split|].
    assert (addr_id p ≠ n) by congruence. split; simpl; rewrite ?lookup_insert_ne by done; done.
  - split_and!; [|done|simpl; lia]. split; simpl; rewrite ?lookup_insert_ne by done; done.
  - split_and!; [|done|simpl; lia]. by split.
  - split_and!; [|done|simpl; lia]. by split.
Qed.

Lemma watched_ops m s ops :
  watched m s → Forall silent ops →
  ∃ s', watched (foldl run_hm m ops) s' ∧ (checks_left s' <= checks_left s - length (List.filter (mature (config_ m)) ops))%nat.
Proof.
  intros Hw Hops. revert m s Hw. induction Hops as [|op ops Hop _ IH]; intros m s Hw; [exists s; split; [done|simpl; lia]|].
  destruct (watched_op m s op Hw Hop) as (s1 & Hw1 & Hc & Hle).
  destruct (IH (run_hm m op) s1 Hw1) as (s2 & Hw2 & Hle2). exists s2. split; [done|].
  rewrite Hc in Hle2. simpl. destruct (mature (config_ m) op); simpl in *; lia.
Qed.
End Silence.

Section Dropped.
Context {T R : Type} {HT : Pipeline T} {HR : Network R}.
Implicit Types c : Coordinator T R.

(** The events of the monitor, as the callback receives them. *)
Definition deliver (evs : list (Z * NodeState * NodeState)) c : Coordinator T R :=
  foldl (λ c e, (on_state_change e.1.1 e.2 c).2) c evs.

Lemma follow_reaches k s evs : follow k s evs = Some DEAD → s ≠ DEAD → ∃ from, (k, from, DEAD) ∈ evs.
Proof.
  revert s. induction evs as [|[[k' from] to] evs IH]; intros s; cbn [follow]; [by intros [= ->]|].
  destruct (Z.eqb_spec k k') as [<-|_].
  - case_decide; [|done]. intros Hf _. destruct (decide (to = DEAD)) as [->|Hne].
    + exists from. apply list_elem_of_here.
    + destruct (IH _ Hf Hne) as (f & Hin). exists f. by right.
  - intros Hf Hs. destruct (IH _ Hf Hs) as (f & Hin). exists f. by right.
Qed.

Lemma deliver_ids evs c k :
  k ∈ endpoint_ids (deliver evs c) ↔ k ∈ endpoint_ids c ∧ ∀ from, (k, from, DEAD) ∉ evs.
Proof.
  revert c. induction evs as [|[[k' from] to] evs IH]; intros c.
  { split; [|by intros []]. intros Hk. split; [done|]. by intros ? ?%elem_of_nil. }
  unfold deliver in *. cbn [foldl fst snd]. rewrite IH. unfold on_state_change. case_bool_decide as Hd.
  - subst to. rewrite removed_ids. split.
    + intros [[Hk Hne] Hn]. split; [done|]. intros f [[= -> ->]|Hin]%elem_of_cons; [done|by eapply Hn].
    + intros [Hk Hn]. split_and!; [done| |].
      * intros ->. apply (Hn from), list_elem_of_here.
      * intros f Hin. apply (Hn f). by right.
  - cbn [snd mret M_ret]. split; intros [Hk Hn]; (split; [done|]); intros f Hin.
    + apply elem_of_cons in Hin as [[= -> -> <-]|Hin]; [done|by apply (Hn f)].
    + apply (Hn f). by right.
Qed.

Lemma deliver_ok evs c : Forall (λ e, node_ok e.1.1) evs → coordinator_ok c → coordinator_ok (deliver evs c).
Proof.
  intros Hevs. revert c. induction Hevs as [|e evs He _ IH]; intros c Hc; [done|].
  apply IH. unfold on_state_change. case_bool_decide; [by apply coordinator_ok_remove|done].
Qed.

Lemma owner_registered c symbol k : coordinator_ok c → (route (router_ c) symbol).1 = Returned k → k ∈ endpoint_ids c.
Proof.
  intros Hok Hk. destruct (decide (endpoints_ c = [])) as [He|He].
  - destruct Hok as [_ _ Hn Hr Hp]. rewrite route_answer_eq in Hk by done. unfold route_answer in Hk.
    rewrite Hp, lookup_empty in Hk. destruct (find_node _ _) as [k'|] eqn:Hf; [|done]. injection Hk as ->.
    destruct Hr as [? Hring ?]. apply (find_node_in _ (node_set_ (router_ c))) in Hf; [|done|apply symbol_hash_range].
    by apply Hn.
  - destruct (route_registered c symbol Hok He) as (ep & Hin & Hep). rewrite Hk in Hep. injection Hep as ->.
    apply list_elem_of_fmap. eauto.
Qed.

(** C18. A node that falls silent and cannot be reached leaves the cluster. The
    node is not the monitor's own, is JOINING, ACTIVE or SUSPECT, neither
    leaving nor rejoining, and its last heartbeat is at [hb]; the monitor's
    timeouts are valid and in order. Anything may happen in the monitor, except
    that no heartbeat, leave or simulated timeout of the node occurs, that every
    TCP probe of its address fails, and that checks come within 2^32 ms of [hb].
    Then after two checks past the dead timeout it is DEAD; and a coordinator
    with its own router and no pinned symbols, with endpoint ids that are its
    nodes, which has received the monitor's events, does not have it as an
    endpoint any more and routes no symbol to it. Pins and placements on the
    node are not removed by the code and are not covered. *)
Theorem silent_node_is_dropped n hb m s ops c :
  watched n hb m s → s ≠ DEAD → Forall (silent n hb) ops →
  (2 <= length (List.filter (mature hb (config_ m)) ops))%nat → coordinator_ok c →
  let m' := foldl run_hm m ops in
  node_states_ m' !! n = Some DEAD ∧
  ∃ evs, events_ m' = events_ m ++ evs ∧
    (Forall (λ e, node_ok e.1.1) evs →
     n ∉ endpoint_ids (deliver evs c) ∧ ∀ symbol, (route (router_ (deliver evs c)) symbol).1 ≠ Returned n).
Proof.
  intros Hw Hs Hops Hmature Hc m'. destruct (watched_ops n hb m s ops Hw Hops) as (s' & Hw' & Hle).
  assert (s' = DEAD) as ->.
  { destruct Hw' as [_ _ _ _ _ _ Hd]. assert (checks_left s <= 2)%nat by (destruct s; simpl; lia).
    destruct Hd as [->|[->|[->| ->]]]; simpl in Hle; try lia; done. }
  split; [apply Hw'|].
  destruct (sequential_state_machine m ops) as (evs & Hevs & _ & _ & Hfollow). exists evs. split; [done|]. intros Hids.
  assert (n ∉ endpoint_ids (deliver evs c)) as Hn.
  { rewrite deliver_ids. intros [_ Hno]. destruct (Hfollow n s) as (s' & Hs' & Hf); [apply Hw|].
    assert (s' = DEAD) as -> by (destruct Hw' as [_ Hd _ _ _ _ _]; congruence).
    destruct (follow_reaches n s evs Hf Hs) as (from & Hin). by apply (Hno from). }
  split; [done|]. intros symbol Hr. apply Hn. eapply owner_registered; [|exact Hr]. by apply deliver_ok.
Qed.
End Dropped.

(** Node 2 is known to the monitor of node 1 and to the coordinator. *)
Lemma silent_node_is_dropped_witness :
  let m := inject_heartbeat 0 None (new_monitor default_health_config) 2 in
  let ops := [OpCheck 4000000000 (λ _, false); OpCheck 11000000000 (λ _, false); OpHeartbeat 12000000000 None 3;
              OpCheck 13000000000 (λ _, false)] in
  let c := foldl coord_step (demo_start (λ _, [])) [AddLocal (demo_address 1) 10; AddRemote (demo_address 2)] in
  node_states_ (foldl run_hm m ops) !! 2 = Some DEAD ∧
  ∀ symbol, (route (router_ (deliver (events_ (foldl run_hm m ops)) c)) symbol).1 ≠ Returned 2.
Proof.
  set (m := inject_heartbeat 0 None (new_monitor default_health_config) 2).
  set (ops := [OpCheck 4000000000 (λ _, false); OpCheck 11000000000 (λ _, false); OpHeartbeat 12000000000 None 3;
               OpCheck 13000000000 (λ _, false)]).
  set (c := foldl coord_step (demo_start (λ _, [])) [AddLocal (demo_address 1) 10; AddRemote (demo_address 2)]).
  destruct (silent_node_is_dropped 2 0 m ACTIVE ops c) as (Hd & evs & Hevs & Hdrop).
  - split; try reflexivity; [discriminate| |split; [|split]; vm_compute; (reflexivity || discriminate)|by vm_compute|by left].
    intros a Ha. vm_compute in Ha. discriminate Ha.
  - discriminate.
  - repeat apply Forall_cons_2; try apply Forall_nil_2; try (split; [by vm_compute|done]). discriminate.
  - vm_compute. auto.
  - apply coordinator_ok_step; [by vm_compute|done|]. apply coordinator_ok_step; [by vm_compute|done|]. apply coordinator_ok_new.
  - split; [exact Hd|]. change (events_ m) with (@nil (Z * NodeState * NodeState)) in Hevs. cbn [app] in Hevs.
    assert (Forall (λ e : Z * NodeState * NodeState, node_ok e.1.1) evs) as Hids.
    { rewrite <- Hevs. apply Forall_forall. intros e He. assert (e.1.1 ∈ [2; 2]) as He'.
      { apply (list_elem_of_fmap_2 (λ e, e.1.1)) in He. vm_compute in He. exact He. }
      apply elem_of_cons in He' as [He'|He'%list_elem_of_singleton]; rewrite He'; unfold node_ok; lia. }
    rewrite Hevs. intros symbol. apply Hdrop. exact Hids.
Defined.
