(* ===== verification/QueryFacts.v ===== *)
(** * Theorems about distributed execution

    Which nodes run a statement, and what becomes of their answers: statements
    routed to the owner of a symbol, statements that run everywhere, bounded
    copies of the data, averages over the cluster. *)

From S2P Require Import Prelude.
From S2P Require Import Text.
From S2P Require Import ColumnStore.
From S2P Require Import StringDictionary.
From S2P Require Import SchemaRegistry.
From S2P Require Import PartitionRouter.
From S2P Require Import RouterFacts.
From S2P Require Import HealthMonitor.
From S2P Require Import RingBuffer.
From S2P Require Import Ast.
From S2P Require Import Literals.
From S2P Require Import Tokenizer.
From S2P Require Import PartialAgg.
From S2P Require Import RowOrder.
From S2P Require Import Parser.
From S2P Require Import MergePlan.
From S2P Require Import RewriteFacts.
From S2P Require Import Rpc.
From S2P Require Import Coordinator.
From S2P Require Import DistributedQuery.
From S2P Require Import CoordinatorFacts.
From stdpp Require Import base gmap sets list strings sorting relations.
From Stdlib Require Import ZArith Lia Ascii.

Open Scope Z_scope.

(** ** Statements that begin with UPDATE or DELETE are not queries *)

Lemma prefix_chars p s : String.prefix p s = true ↔ ∃ rest, chars s = chars p ++ rest.
Proof.
  revert s. induction p as [|a p IH]; intros s; [destruct s; simpl; split; eauto|].
  destruct s as [|b s]; [split; [done|by intros []]|].
  change (String.prefix (String.String a p) (String.String b s)) with
    (if Ascii.ascii_dec a b then String.prefix p s else false). simpl.
  destruct (Ascii.ascii_dec a b) as [->|Hne].
  - rewrite IH. split; intros [rest Hr]; exists rest; [by rewrite Hr|by injection Hr].
  - split; [done|]. intros [rest [= ? _]]. congruence.
Qed.

Lemma starts_with_spec word sql :
  (length (chars word) <= 10)%nat →
  starts_with word sql = true ↔ ∃ rest, toupper <$> chars sql = chars word ++ rest.
Proof.
  intros Hlen. unfold starts_with. rewrite prefix_chars, chars_str. split.
  - intros [rest Hr]. exists (rest ++ (toupper <$> drop 10 (chars sql))).
    by rewrite app_assoc, <- Hr, <- fmap_app, take_drop.
  - intros [rest Hr]. exists (take (10 - length (chars word)) rest).
    rewrite fmap_take, Hr, take_app. by rewrite take_ge by lia.
Qed.

(** The word at the beginning of a text. *)
Lemma first_word_upper w l rest :
  forallb ident_char w = true → toupper <$> l = w ++ rest →
  ∃ more, toupper <$> (span ident_char l).1 = w ++ more.
Proof.
  revert l. induction w as [|x w IH]; intros l Hw Hl; [by exists (toupper <$> (span ident_char l).1)|].
  destruct l as [|c l]; [done|]. simpl in Hw. cbn [fmap list_fmap app] in Hl. injection Hl as Hc Hl.
  apply andb_prop in Hw as [Hx Hw].
  assert (ident_char c = true) as Hic by (rewrite <- Hc in Hx; revert Hx; clear; by_char c).
  destruct (IH l Hw Hl) as [more Hm]. exists more. cbn [span]. rewrite Hic.
  destruct (span ident_char l) as [w' r]. cbn [fst fmap list_fmap app] in *. by rewrite Hc, Hm.
Qed.

Lemma find_keyword_prefix word ty table upper :
  Forall (λ e : string * TokenType, String.prefix word e.1 = true → e.2 = ty) table →
  String.prefix word upper = true → find_keyword table upper = ty ∨ find_keyword table upper = IDENT.
Proof.
  intros Hall Hp. induction Hall as [|[w t] table He _ IH]; [by right|]. cbn [find_keyword].
  destruct (String.eqb_spec upper w) as [->|]; [|done]. left. by apply He.
Qed.

Lemma tokenize_loop_keeps fuel len acc l ts : tokenize_loop fuel len acc l = Tokens ts → ∃ more, ts = acc ++ more.
Proof.
  revert acc l. induction fuel as [|fuel IH]; intros acc l; [done|]. cbn [tokenize_loop].
  destruct (skip_whitespace l) as [|c rest]; [intros [= <-]; eauto|].
  destruct (scan c rest (last acc) _) as [t rest'|rest'|e]; [|apply IH|done].
  intros [more ->]%IH. rewrite <- app_assoc. eauto.
Qed.

(** The first token of a text whose first character begins a word. *)
Lemma tokenize_first_word sql c l ts :
  chars sql = c :: l → isalpha c = true → tokenize sql = Tokens ts →
  ∃ more, ts = (read_ident_or_keyword (c :: l)).1 :: more.
Proof.
  intros Hc Ha. unfold tokenize. rewrite Hc. generalize (length (c :: l)) as fuel, (Z.of_nat (length (c :: l))) as len.
  intros fuel len.
  change (tokenize_loop (S fuel) len [] (c :: l)) with
    (match skip_whitespace (c :: l) with
     | [] => Tokens [mkToken END ""]
     | c :: rest => match scan c rest None (len - Z.of_nat (length (c :: rest))) with
        | Produced t rest => tokenize_loop fuel len ([] ++ [t]) rest
        | Skipped rest => tokenize_loop fuel len [] rest
        | Failed e => Error e
        end
     end).
  assert (isspace c = false ∧ Ascii.eqb c "-"%char = false ∧ isdigit c = false ∧ Ascii.eqb c "'"%char = false) as (Hs & Hm & Hd & Hq)
    by (revert Ha; clear; by_char c).
  rewrite skip_not_space by done. unfold scan. rewrite Hm, Hd, Hq, Ha. cbn [andb orb].
  destruct (read_ident_or_keyword (c :: l)) as [t rest]. intros [more ->]%tokenize_loop_keeps. eauto.
Qed.

Lemma parse_query_word t ts : type t = IDENT → parse_query (t :: ts) = Threw (runtime_error ("Parser: expected SELECT but got '" +:+ value t +:+ "'")).
Proof.
  intros Ht. unfold parse_query, match_, check, mbind, parser_bind, has_type, same_type. rewrite Ht. cbn.
  unfold parse_select. cbn [parse_select_fuel length]. unfold parse_select_body, expect, check, mbind, parser_bind, has_type, same_type.
  rewrite Ht. cbn. rewrite Ht. done.
Qed.

(** A word that is a keyword of its own kind, and no other keyword begins with. *)
Lemma parse_dml_word word ty sql :
  (word = "UPDATE"%string ∧ ty = UPDATE) ∨ (word = "DELETE"%string ∧ ty = DELETE_KW) →
  starts_with word sql = true → ∀ stmt rest, parse sql ≠ Parsed stmt rest.
Proof.
  intros Hword Hs stmt rest. apply starts_with_spec in Hs as [more Hmore]; [|by destruct Hword as [[-> _]|[-> _]]; simpl; lia].
  unfold parse, parse_statement. destruct (tokenize sql) as [ts|e|] eqn:Hts; [|done..].
  assert (∃ c l, chars sql = c :: l ∧ isalpha c = true) as (c & l & Hc & Ha).
  { destruct (chars sql) as [|c l]; [by destruct Hword as [[-> _]|[-> _]]|]. exists c, l. split; [done|].
    cbn [fmap list_fmap] in Hmore. assert (isalpha (toupper c) = true) as H.
    { destruct Hword as [[-> _]|[-> _]]; by injection Hmore as -> _. }
    revert H. clear. by_char c. }
  destruct (tokenize_first_word sql c l ts Hc Ha Hts) as [more' ->].
  destruct (first_word_upper (chars word) (chars sql) more) as [tail_ Hup]; [by destruct Hword as [[-> _]|[-> _]]|done|].
  rewrite Hc in Hup. unfold read_ident_or_keyword. destruct (span ident_char (c :: l)) as [ident rest'] eqn:Hspan.
  cbn [fst] in *. set (upper := str (toupper <$> ident)).
  assert (String.prefix word upper = true) as Hp by (apply prefix_chars; unfold upper; rewrite chars_str; eauto).
  destruct (find_keyword_prefix word ty keywords upper) as [Hk|Hk]; [|done|..].
  { destruct Hword as [[-> ->]|[-> ->]]; unfold keywords; repeat (apply Forall_cons_2; [vm_compute; congruence|]); apply Forall_nil_2. }
  - unfold parse_tokens, current, mbind, parser_bind, token_at, keyword_type. cbn [nth type]. rewrite Hk.
    destruct Hword as [[-> ->]|[-> ->]]; cbn.
    + by destruct (parse_update _).
    + by destruct (parse_delete _).
  - unfold parse_tokens, current, mbind, parser_bind, token_at, keyword_type. cbn [nth type value]. rewrite Hk.
    unfold to_upper_str, upper_word. rewrite chars_str. fold upper.
    assert (∀ w, String.prefix word w = false → upper ≠ w) as Hne by (intros w Hw ->; congruence).
    rewrite bool_decide_false.
    2:{ rewrite !elem_of_cons, elem_of_nil. intros [?|[?|[?|[]]]]; (eapply Hne; [|done]); by destruct Hword as [[-> _]|[-> _]]. }
    destruct (String.eqb_spec upper "SHOW") as [He|_]; [exfalso; eapply Hne, He; by destruct Hword as [[-> _]|[-> _]]|].
    rewrite bool_decide_false.
    2:{ rewrite !elem_of_cons, elem_of_nil. intros [?|[?|[]]]; (eapply Hne; [|done]); by destruct Hword as [[-> _]|[-> _]]. }
    by rewrite parse_query_word.
Qed.

(** ** One call *)

Section Queries.
Context {T R : Type} {HT : Pipeline T} {HR : Network R} {HS : RowSort}.
Notation coordinator := (Coordinator T R).
Notation m := (M T R).
Implicit Types c : coordinator.

(** An endpoint that can run a statement: all that the coordinator adds are. *)
Definition usable (ep : NodeEndpoint) : bool :=
  match (if is_local ep then pipeline ep else None) with Some _ => true | None => has_rpc ep end.

Definition call_of (sql : string) (ep : NodeEndpoint) : Z * string := (addr_id (addr ep), sql).
Definition calls_on (eps : list NodeEndpoint) (sql : string) : list (Z * string) :=
  call_of sql <$> List.filter usable eps.

(** The computation returns, and appends [calls] to the log. *)
Definition returns {A} (k : m A) c (calls : list (Z * string)) (a : A) c' : Prop :=
  k c = (Returned a, c') ∧ executed_ c' = executed_ c ++ calls ∧ endpoints_ c' = endpoints_ c ∧ router_ c' = router_ c.

Lemma exec_on_returns ep sql c : ∃ r c', returns (exec_on ep sql) c (calls_on [ep] sql) r c'.
Proof.
  unfold exec_on, returns, calls_on. cbn [List.filter]. unfold usable.
  destruct (if is_local ep then pipeline ep else None) as [p|].
  - unfold run_local. destruct (execute_local sql (pipelines c p)) as [r t]. by eexists _, _.
  - destruct (has_rpc ep).
    + unfold run_remote. destruct (rpc_execute (addr ep) sql None (remotes c)) as [r net]. by eexists _, _.
    + eexists _, _. split; [done|]. by rewrite app_nil_r.
Qed.

Lemma exec_all_returns eps sql c : ∃ rs c', returns (map_m (λ ep, exec_on ep sql) eps) c (calls_on eps sql) rs c' ∧ length rs = length eps.
Proof.
  revert c. induction eps as [|ep eps IH]; intros c.
  { eexists [], c. split; [|done]. split; [done|]. by rewrite app_nil_r. }
  destruct (exec_on_returns ep sql c) as (r & c1 & H1 & L1 & E1 & R1). destruct (IH c1) as (rs & c2 & (H2 & L2 & E2 & R2) & Hlen).
  exists (r :: rs), c2. split; [|simpl; congruence]. split.
  - cbn [map_m]. unfold mbind, M_bind. by rewrite H1, H2.
  - split; [|split; congruence]. rewrite L2, L1, <- app_assoc. f_equal. unfold calls_on. cbn [List.filter].
    by destruct (usable ep).
Qed.

(** C38. A scattered statement runs exactly once on every endpoint, in any case; the
    answer is either all the endpoints' results, in order, or a single error that
    names the first endpoint that failed and says why: there is no partial answer. *)
Theorem scatter_all_or_nothing sql c :
  ∃ rs c', map_m (λ ep, exec_on ep sql) (endpoints_ c) c = (Returned rs, c') ∧
    executed_ c' = executed_ c ++ calls_on (endpoints_ c) sql ∧ length rs = length (endpoints_ c) ∧
    ((Forall (λ r, ok r = true) rs ∧ scatter sql c = (Returned rs, c')) ∨
     ∃ i ep r, endpoints_ c !! i = Some ep ∧ rs !! i = Some r ∧ ok r = false ∧ Forall (λ r, ok r = true) (take i rs) ∧
       scatter sql c = (Returned [error_result (node_error ep (error r))], c')).
Proof.
  destruct (exec_all_returns (endpoints_ c) sql c) as (rs & c' & (Hrs & Hlog & He & Hr) & Hlen). exists rs, c'.
  split_and!; [done..|].
  assert (scatter sql c = (Returned (checked_results (endpoints_ c) rs), c')) as Hs.
  { unfold scatter, mbind, M_bind, gets. by rewrite Hrs. }
  unfold checked_results in Hs. destruct (list_find _ (zip (endpoints_ c) rs)) as [[i [ep r]]|] eqn:Hf.
  - right. apply list_find_Some in Hf as (Hi & Hok & Hbefore). simpl in Hok.
    apply lookup_zip_Some in Hi as [Hep Hri]. exists i, ep, r. split_and!; [done..| |done].
    apply Forall_lookup. intros j x Hj. apply lookup_take_Some in Hj as [Hj Hlt].
    destruct (endpoints_ c !! j) as [ep'|] eqn:Hep'.
    + specialize (Hbefore j (ep', x)). rewrite lookup_zip_Some in Hbefore. specialize (Hbefore (conj Hep' Hj) Hlt).
      simpl in Hbefore. by destruct (ok x).
    + apply lookup_ge_None in Hep'. apply lookup_lt_Some in Hj. lia.
  - left. split; [|done]. apply list_find_None in Hf. apply Forall_lookup. intros j x Hj.
    destruct (endpoints_ c !! j) as [ep'|] eqn:Hep'.
    + rewrite Forall_lookup in Hf. specialize (Hf j (ep', x)). rewrite lookup_zip_Some in Hf. specialize (Hf (conj Hep' Hj)).
      simpl in Hf. by destruct (ok x).
    + apply lookup_ge_None in Hep'. apply lookup_lt_Some in Hj. lia.
Qed.

(** ** The owner of a symbol *)

Lemma execute_sql_for_symbol_eq sql symbol c :
  endpoints_ c ≠ [] →
  let routed := route_symbol (resolve_routing_table_id c (extract_table_name sql)) symbol c in
  execute_sql_for_symbol sql symbol c =
  match routed.1 with
  | Thrown e => (Thrown e, routed.2)
  | Returned owner =>
      match List.find (λ ep, addr_id (addr ep) =? owner) (endpoints_ c) with
      | Some ep => exec_on ep sql routed.2
      | None => (Returned (make_query_error ("QueryCoordinator: owning node not found for symbol " +:+ to_string symbol)), routed.2)
      end
  end.
Proof.
  intros Hne. unfold execute_sql_for_symbol, mbind, M_bind, gets. destruct (endpoints_ c) as [|ep0 eps]; [done|].
  cbv zeta. destruct (route_symbol _ symbol c) as [[owner|e] c1]; [|done]. cbn [fst snd].
  by destruct (List.find _ _).
Qed.

Lemma route_symbol_state t symbol c : 
  executed_ (route_symbol t symbol c).2 = executed_ c ∧ endpoints_ (route_symbol t symbol c).2 = endpoints_ c.
Proof. unfold route_symbol. destruct (t =? 0); [by destruct (route _ _)|by destruct (route_table _ _ _)]. Qed.

(** Wherever the router sends the symbol, at most one node is asked. *)
Lemma execute_sql_for_symbol_calls sql symbol c :
  ∃ eps, (length eps <= 1)%nat ∧ eps ⊆ endpoints_ c ∧
    executed_ (execute_sql_for_symbol sql symbol c).2 = executed_ c ++ calls_on eps sql ∧
    endpoints_ (execute_sql_for_symbol sql symbol c).2 = endpoints_ c ∧
    (eps = [] ∨ ∃ r, (execute_sql_for_symbol sql symbol c).1 = Returned r).
Proof.
  destruct (decide (endpoints_ c = [])) as [He|Hne].
  { exists []. unfold execute_sql_for_symbol, mbind, M_bind, gets. rewrite He. simpl. rewrite app_nil_r.
    split_and!; [lia|done|done|done|by left]. }
  rewrite execute_sql_for_symbol_eq by done. cbv zeta.
  destruct (route_symbol_state (resolve_routing_table_id c (extract_table_name sql)) symbol c) as [HL HE].
  destruct (route_symbol _ symbol c) as [[owner|e] c1]; cbn [fst snd] in *.
  - destruct (List.find _ (endpoints_ c)) as [ep|] eqn:Hf.
    + apply find_some in Hf as [Hin%list_elem_of_In _].
      destruct (exec_on_returns ep sql c1) as (r & c' & -> & HL' & HE' & _). exists [ep]. cbn [fst snd].
      split_and!; [simpl; lia|by intros x ->%list_elem_of_singleton|congruence|congruence|eauto].
    + exists []. simpl. rewrite app_nil_r. split_and!; [lia|set_solver|done|done|by left].
  - exists []. simpl. rewrite app_nil_r. split_and!; [lia|set_solver|done|done|by left].
Qed.

(** A placement whose node is there. *)
Definition placement_usable c (t : Z) : Prop :=
  ∀ n, table_placement (router_ c) t = Some (mkTablePlacement PinnedNode n) → n ≠ INVALID_NODE_ID ∧ n ∈ endpoint_ids c.

Lemma route_symbol_registered t symbol c :
  coordinator_ok c → endpoints_ c ≠ [] → placement_usable c t →
  ∃ ep, ep ∈ endpoints_ c ∧ (route_symbol t symbol c).1 = Returned (addr_id (addr ep)).
Proof.
  intros Hok Hne Hp. unfold route_symbol.
  assert (∀ s, ∃ ep, ep ∈ endpoints_ c ∧ (route (router_ c) s).1 = Returned (addr_id (addr ep))) as Hroute
    by (intros s; by apply route_registered).
  assert (∀ (x : (outcome Z * PartitionRouter)%type) (c : coordinator), (let '(res, r) := x in (res, set_router r c)).1 = x.1) as Hfst by (by intros [] ?).
  rewrite Hfst. destruct (Z.eqb_spec t 0) as [->|Ht]; [apply Hroute|]. unfold route_table. rewrite (proj2 (Z.eqb_neq t 0)) by done.
  destruct (table_placement (router_ c) t) as [[[] n]|] eqn:Htp; [apply Hroute..| |apply Hroute].
  destruct (Hp n Htp) as [Hinv (ep & -> & Hin)%list_elem_of_fmap]. rewrite (proj2 (Z.eqb_neq _ _)) by done. eauto.
Qed.

Lemma find_endpoint c ep : NoDup (endpoint_ids c) → ep ∈ endpoints_ c →
  List.find (λ ep', addr_id (addr ep') =? addr_id (addr ep)) (endpoints_ c) = Some ep.
Proof.
  unfold endpoint_ids. induction (endpoints_ c) as [|ep' eps IH]; [by intros _ ?%elem_of_nil|].
  rewrite fmap_cons. intros [Hn Hnd]%NoDup_cons [->|Hin]%elem_of_cons; cbn [List.find]; [by rewrite Z.eqb_refl|].
  rewrite (proj2 (Z.eqb_neq _ _)); [by apply IH|]. intros Heq. apply Hn. rewrite Heq. by apply (list_elem_of_fmap_2 (λ ep, addr_id (addr ep))).
Qed.

(** ** Statements with a symbol *)

Definition statement_words : list string := ["INSERT"; "UPDATE"; "DELETE"; "CREATE"; "DROP"; "ALTER"; "SHOW"; "DESC"]%string.
(** None of the words that [execute_sql] looks for. *)
Definition plain (sql : string) : bool := forallb (λ w, negb (starts_with w sql)) statement_words.

Lemma plain_execute_dml sql c : plain sql = true → execute_dml sql c = (Returned None, c).
Proof.
  unfold plain, statement_words. cbn [forallb]. rewrite !andb_true_iff, !negb_true_iff.
  intros (H1 & H2 & H3 & H4 & H5 & H6 & H7 & H8 & _). unfold execute_dml. by rewrite H1, H2, H3, H4, H5, H6, H7, H8.
Qed.

Lemma several_single_node sql c : (2 <= length (endpoints_ c))%nat → single_node sql c = (Returned None, c).
Proof. intros Hl. unfold single_node, mbind, M_bind, gets. by destruct (endpoints_ c) as [|? [|? ?]]; [simpl in Hl; lia..|]. Qed.

Lemma first_answer_none (way : m (option QueryResultSet)) ways last c c' :
  way c = (Returned None, c') → first_answer (way :: ways) last c = first_answer ways last c'.
Proof. intros H. cbn [first_answer]. unfold mbind, M_bind. by rewrite H. Qed.
Lemma first_answer_some (way : m (option QueryResultSet)) ways last c c' r :
  way c = (Returned (Some r), c') → first_answer (way :: ways) last c = (Returned r, c').
Proof. intros H. cbn [first_answer]. unfold mbind, M_bind. by rewrite H. Qed.

(** The statements that name a symbol: an INSERT into a known table whose rows
    have one, and a query [WHERE symbol = n] when there are several nodes. *)
Inductive names_symbol c (sql : string) (symbol : Z) : Prop :=
  | insert_names ins rest s :
      starts_with "INSERT" sql = true → parse_statement sql = Parsed (P_INSERT ins) rest →
      schema_snapshot c (insert_table ins) = Some s →
      insert_routing_symbol ins (col_name <$> SchemaRegistry.columns s) = Some symbol → names_symbol c sql symbol
  | filter_names :
      plain sql = true → (2 <= length (endpoints_ c))%nat → extract_symbol_filter sql = Some symbol → names_symbol c sql symbol.


(** A symbol that is given as a string counts as symbol 0 in a time join: whatever
    the string, the join runs on the owner of symbol 0 alone. *)
Theorem string_symbol_is_zero elapsed sql stmt rest ta name lhs c :
  coordinator_ok c → (2 <= length (endpoints_ c))%nat → plain sql = true → parse sql = Parsed stmt rest →
  where_clause (body_of stmt) = Some (Some (ECompare ta "symbol" Ast.EQ (VString name) lhs)) →
  join_type <$> Ast.join (body_of stmt) = Some J_ASOF ∨ join_type <$> Ast.join (body_of stmt) = Some J_WINDOW →
  let t := resolve_routing_table_id c (extract_table_name sql) in
  placement_usable c t →
  ∃ ep r c', ep ∈ endpoints_ c ∧ (route_symbol t 0 c).1 = Returned (addr_id (addr ep)) ∧
    execute_sql elapsed sql c = (Returned r, c') ∧ executed_ c' = executed_ c ++ calls_on [ep] sql.
Proof.
  intros Hok Hlen Hplain Hp Hw Hj t Hplace.
  assert (endpoints_ c ≠ []) as Hne by (intros He; rewrite He in Hlen; simpl in Hlen; lia).
  destruct (route_symbol_registered t 0 c Hok Hne Hplace) as (ep & Hin & Hroute).
  pose proof (execute_sql_for_symbol_eq sql 0 c Hne) as Heq. cbv zeta in Heq. fold t in Heq.
  rewrite Hroute, find_endpoint in Heq; [|apply Hok|done].
  destruct (route_symbol_state t 0 c) as [HL HE].
  destruct (exec_on_returns ep sql (route_symbol t 0 c).2) as (r & c' & Hexec & HL' & _).
  exists ep, r, c'. rewrite Hexec in Heq. split_and!; [done..| |congruence].
  unfold execute_sql.
  rewrite (first_answer_none _ _ _ c c) by (by apply plain_execute_dml).
  rewrite (first_answer_none _ _ _ c c) by (by apply several_single_node).
  rewrite (first_answer_none _ _ _ c c) by (unfold to_symbol_owner, extract_symbol_filter; rewrite Hp, Hw; done).
  rewrite (first_answer_none _ _ _ c c) by (unfold execute_symbol_in, with_select; rewrite Hp; unfold try_catch; rewrite Hw; done).
  apply first_answer_some. unfold execute_time_join, with_select. rewrite Hp. unfold try_catch, time_join_symbol. rewrite Hw.
  change (uint32 (expr_value _)) with 0.
  destruct Hj as [->| ->]; unfold answered, mbind, M_bind; by rewrite Heq.
Qed.

(** *** At most one node *)

(** A way to run [sql] that asks at most one endpoint, and none if it does not
    answer. *)
Definition asks_one (sql : string) (k : m (option QueryResultSet)) : Prop := ∀ c, ∃ eps,
  eps ⊆ endpoints_ c ∧ (length eps <= 1)%nat ∧
  executed_ (k c).2 = executed_ c ++ calls_on eps sql ∧ endpoints_ (k c).2 = endpoints_ c ∧
  match (k c).1 with Returned (Some _) => True | _ => eps = [] end.

Lemma asks_one_none sql : asks_one sql (mret None).
Proof. intros c. exists []. simpl. rewrite app_nil_r. split_and!; [set_solver|lia|done..]. Qed.

Lemma asks_one_owner sql symbol : asks_one sql (answered (execute_sql_for_symbol sql symbol)).
Proof.
  intros c. destruct (execute_sql_for_symbol_calls sql symbol c) as (eps & Hlen & Hsub & HL & HE & Hret). exists eps.
  unfold answered, mbind, M_bind. destruct (execute_sql_for_symbol sql symbol c) as [[r|e] c']; [done|].
  split_and!; [done..|]. by destruct Hret as [|[r Hr]].
Qed.

Lemma asks_one_first sql : asks_one sql (on_first_node sql).
Proof.
  intros c. unfold on_first_node, answered, mbind, M_bind, gets. destruct (endpoints_ c) as [|ep eps] eqn:He.
  { exists []. simpl. rewrite app_nil_r. split_and!; [done|lia|done..]. }
  destruct (exec_on_returns ep sql c) as (r & c' & -> & HL & HE & _). exists [ep]. cbn [fst snd mret M_ret].
  split_and!; [by intros x ->%list_elem_of_singleton; left|simpl; lia|done|congruence|done].
Qed.

Lemma asks_one_gets {A} sql (f : coordinator → A) (k : A → m (option QueryResultSet)) :
  (∀ a, asks_one sql (k a)) → asks_one sql (a ← gets f; k a).
Proof. intros Hk c. apply (Hk (f c) c). Qed.

Lemma asks_one_try sql (k : m (option QueryResultSet)) : asks_one sql k → asks_one sql (try_catch k (mret None)).
Proof. intros Hk c. destruct (Hk c) as (eps & H). exists eps. unfold try_catch. by destruct (k c) as [[r|e] c']. Qed.

Lemma asks_one_else sql (k k' : m (option QueryResultSet)) :
  asks_one sql k → asks_one sql k' →
  asks_one sql (routed ← k; match routed with Some r => mret (Some r) | None => k' end).
Proof.
  intros Hk Hk' c. destruct (Hk c) as (eps & Hsub & Hlen & HL & HE & Hret). unfold mbind, M_bind.
  destruct (k c) as [[[r|]|e] c']; cbn [fst snd] in *; [by exists eps| |by exists eps].
  destruct (Hk' c') as (eps' & H1 & H2 & H3 & H4 & H5). exists eps'. subst eps. simpl in HL. rewrite app_nil_r in HL.
  rewrite <- HE, <- HL. done.
Qed.

Lemma asks_one_insert sql : asks_one sql (insert_to_owner sql).
Proof.
  unfold insert_to_owner. destruct (parse_statement sql) as [[] rest| |]; try apply asks_one_none.
  apply asks_one_gets. intros o. destruct (s ← o; _); [|apply asks_one_none]. apply asks_one_try, asks_one_owner.
Qed.

(** C28. No text that begins with INSERT is executed twice: whatever follows the
    word, whether or not it can be parsed or routed, at most one endpoint of the
    coordinator is asked. The word has to be at the very beginning: an INSERT
    after a space is not recognised by the coordinator and is not covered. *)
Theorem insert_runs_at_most_once elapsed sql c :
  starts_with "INSERT" sql = true → endpoints_ c ≠ [] →
  ∃ eps, eps ⊆ endpoints_ c ∧ (length eps <= 1)%nat ∧
    executed_ (execute_sql elapsed sql c).2 = executed_ c ++ calls_on eps sql.
Proof.
  intros Hw Hne.
  assert (asks_one sql (execute_dml sql)) as Hone.
  { unfold execute_dml. rewrite Hw. apply asks_one_else; [apply asks_one_insert|]. apply asks_one_else; [|apply asks_one_first].
    unfold to_symbol_owner. destruct (extract_symbol_filter sql); [apply asks_one_owner|apply asks_one_none]. }
  assert (∀ c c', endpoints_ c ≠ [] → on_first_node sql c ≠ (Returned None, c')) as Hfirst.
  { intros c0 c' He. unfold on_first_node, answered, mbind, M_bind, gets. destruct (endpoints_ c0) as [|ep eps]; [done|].
    by destruct (exec_on ep sql c0) as [[r|e] c1]. }
  assert (∀ c', execute_dml sql c ≠ (Returned None, c')) as Hsome.
  { intros c'. unfold execute_dml. rewrite Hw. unfold mbind, M_bind.
    destruct (asks_one_insert sql c) as (_ & _ & _ & _ & HE & _).
    destruct (insert_to_owner sql c) as [[[r|]|e] c1]; [done| |done]. cbn [snd] in HE.
    assert (asks_one sql (to_symbol_owner sql)) as Ho.
    { unfold to_symbol_owner. destruct (extract_symbol_filter sql); [apply asks_one_owner|apply asks_one_none]. }
    destruct (Ho c1) as (_ & _ & _ & _ & HE' & _).
    destruct (to_symbol_owner sql c1) as [[[r|]|e] c2]; [done| |done]. apply Hfirst. cbn [snd] in HE'. congruence. }
  destruct (Hone c) as (eps & Hsub & Hlen & HL & _). exists eps. split_and!; [done..|].
  unfold execute_sql. cbn [first_answer]. unfold mbind at 1, M_bind at 1.
  destruct (execute_dml sql c) as [[[r|]|e] c']; [done|by destruct (Hsome c')|done].
Qed.

(** UPDATE and DELETE are never routed: also when they name a symbol, all the
    endpoints execute them, once each, because the text is searched for a symbol
    with the parser of queries, which refuses it. The answer is the sum of the
    affected rows, or the error of the first node that failed. *)
Theorem update_runs_everywhere elapsed sql c :
  starts_with "UPDATE" sql = true ∨ starts_with "DELETE" sql = true →
  ∃ rs c', map_m (λ ep, exec_on ep sql) (endpoints_ c) c = (Returned rs, c') ∧
    executed_ c' = executed_ c ++ calls_on (endpoints_ c) sql ∧
    execute_sql elapsed sql c = (Returned (sum_affected (checked_results (endpoints_ c) rs)), c').
Proof.
  intros Hw. destruct (exec_all_returns (endpoints_ c) sql c) as (rs & c' & (Hrs & HL & _) & _). exists rs, c'.
  split_and!; [done..|]. unfold execute_sql. apply first_answer_some. unfold execute_dml.
  assert (starts_with "INSERT" sql = false) as ->.
  { apply not_true_is_false. intros Hi. apply starts_with_spec in Hi as [x Hx]; [|simpl; lia].
    destruct Hw as [Hw|Hw]; apply starts_with_spec in Hw as [y Hy]; simpl in *; try lia; congruence. }
  assert (starts_with "UPDATE" sql || starts_with "DELETE" sql = true) as -> by (by destruct Hw as [->| ->]; rewrite ?orb_true_r).
  assert (extract_symbol_filter sql = None) as Hnone.
  { unfold extract_symbol_filter. destruct (parse sql) as [stmt rest| |] eqn:Hp; [|done..].
    exfalso. destruct Hw as [Hw|Hw]; (eapply (parse_dml_word _ _ sql); [|exact Hw|exact Hp]); [by left|by right]. }
  unfold to_symbol_owner. rewrite Hnone. unfold answered, scatter, mbind, M_bind, gets, fmap, M_fmap, mbind, M_bind, mret, M_ret.
  by rewrite Hrs.
Qed.

(** A statement is recognized by the first characters of its text. When none of
    the words is there and the text is not a query either, every endpoint executes
    it: a blank before INSERT makes every node insert the row. *)
Theorem unrecognized_runs_everywhere elapsed sql c :
  plain sql = true → (∀ stmt rest, parse sql ≠ Parsed stmt rest) → (2 <= length (endpoints_ c))%nat →
  ∃ rs c', map_m (λ ep, exec_on ep sql) (endpoints_ c) c = (Returned rs, c') ∧
    executed_ c' = executed_ c ++ calls_on (endpoints_ c) sql ∧
    ∃ r, execute_sql elapsed sql c = (Returned r, c').
Proof.
  intros Hplain Hparse Hlen. destruct (exec_all_returns (endpoints_ c) sql c) as (rs & c' & (Hrs & HL & _) & _). exists rs, c'.
  split_and!; [done..|]. unfold execute_sql.
  rewrite (first_answer_none _ _ _ c c) by (by apply plain_execute_dml).
  rewrite (first_answer_none _ _ _ c c) by (by apply several_single_node).
  assert (∀ k, with_select sql k c = (Returned None, c)) as Hwith.
  { intros k. unfold with_select. destruct (parse sql) eqn:Hp; [by destruct (Hparse a rest)|done..]. }
  rewrite (first_answer_none _ _ _ c c).
  2:{ unfold to_symbol_owner, extract_symbol_filter. destruct (parse sql) eqn:Hp; [by destruct (Hparse a rest)|done..]. }
  do 4 (rewrite (first_answer_none _ _ _ c c) by (apply Hwith)). cbn [first_answer].
  assert (merge_plan_from_sql sql = plan_of_strategy CONCAT) as Hplan.
  { unfold merge_plan_from_sql. destruct (parse sql) eqn:Hp; [by destruct (Hparse a rest)|done..]. }
  unfold scatter_gather. rewrite Hplan. unfold node_sql. cbn [rewritten_sql plan_of_strategy plan_having].
  unfold scatter, mbind, M_bind, gets, mret, M_ret. cbn. rewrite Hrs. eauto.
Qed.

(** ** Copies of the data *)

Lemma saturating_add_exact a b : a + b <= SIZE_MAX → saturating_add a b = a + b.
Proof. unfold saturating_add. destruct (Z.ltb_spec (SIZE_MAX - b) a); lia. Qed.
Lemma saturating_add_over a b n : n < SIZE_MAX → n < a + b → n < saturating_add a b.
Proof. unfold saturating_add. destruct (Z.ltb_spec (SIZE_MAX - b) a); lia. Qed.

Lemma foldl_nonneg {A} (f : Z → A → Z) l n : (∀ n a, 0 <= n → 0 <= f n a) → 0 <= n → 0 <= foldl f n l.
Proof. intros Hf. revert n. induction l as [|a l IH]; intros n Hn; [done|]. apply IH. by apply Hf. Qed.
Lemma saturating_add_nonneg a b : 0 <= a → 0 <= b → 0 <= saturating_add a b.
Proof. unfold saturating_add, SIZE_MAX. destruct (_ <? _); lia. Qed.
Lemma saturating_multiply_nonneg a b : 0 <= a → 0 <= b → 0 <= saturating_multiply a b.
Proof. unfold saturating_multiply, SIZE_MAX. destruct (_ && _); lia. Qed.

Lemma estimate_nonneg r : 0 <= estimate_result_bytes r.
Proof.
  assert (∀ n (row : list Z), 0 <= n → 0 <= saturating_add n (saturating_multiply (Z.of_nat (length row)) 8)) as Hrow
    by (intros; apply saturating_add_nonneg; [done|]; apply saturating_multiply_nonneg; lia).
  assert (0 <= cells_bytes (rows r)) as H1 by (apply foldl_nonneg; [apply Hrow|lia]).
  unfold estimate_result_bytes. cbv zeta. set (b := foldl _ (cells_bytes (rows r)) (typed_rows r)).
  assert (0 <= b) as Hb by (apply foldl_nonneg; [apply Hrow|done]).
  destruct (string_rows r) as [|x l].
  - destruct (symbol_dict r); [|done]. apply foldl_nonneg; [|done]. intros n row Hn. apply foldl_nonneg; [|done].
    intros n' raw Hn'. destruct (in_uint32 raw); [apply saturating_add_nonneg; lia|done].
  - apply foldl_nonneg; [|done]. intros n s Hn. apply saturating_add_nonneg; lia.
Qed.

Definition total_bytes (rs : list QueryResultSet) : Z := foldr (λ r n, estimate_result_bytes r + n) 0 rs.
Lemma total_bytes_nonneg rs : 0 <= total_bytes rs.
Proof. induction rs as [|r rs IH]; simpl; [lia|]. pose proof (estimate_nonneg r). lia. Qed.
Lemma total_bytes_snoc rs r : total_bytes (rs ++ [r]) = total_bytes rs + estimate_result_bytes r.
Proof. induction rs as [|x rs IH]; simpl; [lia|]. rewrite IH. lia. Qed.

Definition row_count (r : QueryResultSet) : Z := Z.of_nat (length (rows r)).
Definition all_rows (rs : list QueryResultSet) : list (list Z) := rs ≫= rows.

(** A fetch in progress, after the answers [rs]. *)
Record fetching (row_limit max_bytes : Z) (rs : list QueryResultSet) (f : BoundedFetchResult) : Prop := {
  f_status : fetch_status f = FetchOk;
  f_rows : rows (fetch_result f) = all_rows rs;
  f_count : row_count (fetch_result f) <= row_limit;
  f_bytes : estimated_bytes f = total_bytes rs;
  f_budget : estimated_bytes f <= max_bytes;
}.

(** Why a fetch ended before all nodes were asked. *)
Definition stopped (row_limit max_bytes : Z) (f : BoundedFetchResult) : Prop :=
  match fetch_status f with
  | FetchOk => False
  | RowLimitExceeded => row_limit < rows_observed f
  | ByteLimitExceeded => max_bytes < estimated_bytes f
  | FetchError => ok (fetch_result f) = false
  end.

Lemma node_error_not_empty ep e : String.eqb (node_error ep e) "" = false.
Proof. done. Qed.

Lemma snapshot_rows r : rows (snapshot_decoded_string_rows r) = rows r.
Proof. unfold snapshot_decoded_string_rows. destruct (string_rows r); [|done]. by destruct (symbol_dict r). Qed.

Lemma absorb_spec ep rl mb rs f r :
  0 <= rl < SIZE_MAX → 0 <= mb < SIZE_MAX → fetching rl mb rs f →
  match absorb ep rl mb f r with
  | inr f' => ok r = true ∧ fetching rl mb (rs ++ [r]) f' ∧ row_count (fetch_result f) + row_count r <= rl
  | inl f' => stopped rl mb f'
  end.
Proof.
  intros Hrl Hmb [Hst Hrows Hcount Hbytes Hbudget]. unfold absorb, stopped. unfold row_count in *.
  set (acc := Z.of_nat (length (rows (fetch_result f)))) in *.
  destruct (ok r) eqn:Hok; cbn [negb].
  2:{ destruct (contains _ _); cbn [fetch_status]; [|done]. by apply saturating_add_over; [lia|simpl; lia]. }
  set (n := Z.of_nat (length (rows r))).
  set (rem := if acc <? rl then rl - acc else 0). assert (rem = rl - acc) as Hrem by (unfold rem; destruct (Z.ltb_spec acc rl); lia).
  set (remb := if estimated_bytes f <? mb then mb - estimated_bytes f else 0).
  assert (remb = mb - estimated_bytes f) as Hremb by (unfold remb; destruct (Z.ltb_spec (estimated_bytes f) mb); lia).
  destruct (Z.ltb_spec rem n); [cbn; apply saturating_add_over; lia|].
  destruct (Z.ltb_spec remb (estimate_result_bytes r)); [cbn; apply saturating_add_over; lia|].
  destruct (_ && _) eqn:Hcols; [done|]. split; [done|]. split; [|lia].
  split; cbn [fetch_status fetch_result estimated_bytes append_result rows row_count].
  - done.
  - rewrite Hrows, snapshot_rows. unfold all_rows. rewrite bind_app. simpl. by rewrite app_nil_r.
  - change (Z.of_nat (length (rows (fetch_result f) ++ rows (snapshot_decoded_string_rows r))) <= rl). rewrite snapshot_rows, length_app. lia.
  - rewrite saturating_add_exact by lia. by rewrite Hbytes, total_bytes_snoc.
  - rewrite saturating_add_exact by lia. lia.
Qed.

(** The nodes that were asked for the rows of [base] and answered fewer than the
    number they were limited to: all they have. *)
Inductive gathered (base : string) : list NodeEndpoint → list QueryResultSet → coordinator → coordinator → Prop :=
  | gathered_nil c : gathered base [] [] c c
  | gathered_cons ep eps r rs c c1 c2 n allowance :
      exec_probe ep (base +:+ " LIMIT " +:+ to_string n) allowance c = (Returned r, c1) →
      row_count r < n → gathered base eps rs c1 c2 → gathered base (ep :: eps) (r :: rs) c c2.

(** What a fetch leaves as it was. *)
Definition undisturbed c c' : Prop :=
  endpoints_ c' = endpoints_ c ∧ router_ c' = router_ c ∧
  small_table_join_config_ c' = small_table_join_config_ c ∧
  window_materialization_config_ c' = window_materialization_config_ c ∧
  small_table_join_stats_ c' = small_table_join_stats_ c ∧ window_materialization_stats_ c' = window_materialization_stats_ c.

Lemma exec_probe_returns ep q a c : ∃ r c', exec_probe ep q a c = (Returned r, c') ∧ undisturbed c c'.
Proof.
  unfold exec_probe, exec_on. destruct (if is_local ep then pipeline ep else None) as [p|].
  - unfold run_local. destruct (execute_local q (pipelines c p)) as [r t]. by eexists _, _.
  - destruct (has_rpc ep).
    + unfold run_remote. destruct (rpc_execute (addr ep) q (Some a) (remotes c)) as [r net]. by eexists _, _.
    + by eexists _, _.
Qed.

Lemma fetch_from_spec base rl mb eps f c rs :
  0 <= rl < SIZE_MAX → 0 <= mb < SIZE_MAX → fetching rl mb rs f →
  ∃ f' c', fetch_from eps base rl mb f c = (Returned f', c') ∧ undisturbed c c' ∧
    ((∃ rs', gathered base eps rs' c c' ∧ fetching rl mb (rs ++ rs') f' ∧ Forall (λ r, ok r = true) rs') ∨ stopped rl mb f').
Proof.
  intros Hrl Hmb. revert f c rs. induction eps as [|ep eps IH]; intros f c rs Hf.
  { exists f, c. split_and!; try done. left. exists []. rewrite app_nil_r. split_and!; [constructor|done|constructor]. }
  cbn [fetch_from]. unfold mbind, M_bind.
  destruct (exec_probe_returns ep (probe_query base rl f) (response_allowance mb f) c) as (r & c1 & Hr & Hc1). rewrite Hr.
  pose proof (absorb_spec ep rl mb rs f r Hrl Hmb Hf) as Ha. destruct (absorb ep rl mb f r) as [f'|f'].
  { exists f', c1. split_and!; [done|done|by right]. }
  destruct Ha as (Hok & Hf' & Hcount). destruct (IH f' c1 (rs ++ [r]) Hf') as (f2 & c2 & H2 & Hc2 & Hend).
  exists f2, c2. split; [done|]. split.
  { destruct Hc1 as (?&?&?&?&?&?), Hc2 as (?&?&?&?&?&?). split_and!; congruence. }
  destruct Hend as [(rs' & Hg & Hf2 & Hoks)|Hstop]; [left|by right].
  exists (r :: rs'). rewrite (assoc (++) rs [r] rs'). split_and!; [|done|by constructor].
  econstructor; [exact Hr| |exact Hg]. destruct Hf as [_ _ Hle _ _]. unfold row_count in *.
  set (acc := Z.of_nat (length (rows (fetch_result f)))) in *. cbv zeta.
  rewrite saturating_add_exact; destruct (Z.ltb_spec acc rl); lia.
Qed.


(** ** Counting what became of a bounded join *)

Definition outcomes (t : telemetry) : Z :=
  t Accepted + t RejectedRowCap + t RejectedByteCap + t RejectedLatencyCap + t Errors.

Definition is_outcome (ctr : counter) : bool :=
  match ctr with Accepted | RejectedRowCap | RejectedByteCap | RejectedLatencyCap | Errors => true | _ => false end.

(** Every one of them can be counted once more. *)
Definition below_wrap (t : telemetry) : Prop := ∀ ctr, is_outcome ctr = true → 0 <= t ctr < 2 ^ 64 - 1.

(** [t'] counts [k] more outcomes than [t], nothing else about candidates. *)
Definition counted (k : Z) (t t' : telemetry) : Prop :=
  t' Candidates = t Candidates ∧ ∃ ctr, (k = 0 ∨ k = 1 ∧ is_outcome ctr = true) ∧
    ∀ ctr', is_outcome ctr' = true → t' ctr' = t ctr' + (if decide (ctr' = ctr) then k else 0).

Lemma counted_refl t : counted 0 t t.
Proof. split; [done|]. exists Accepted. split; [by left|]. intros ctr' _. case_decide; lia. Qed.
Lemma counted_trans_l k t t' t'' : counted 0 t t' → counted k t' t'' → counted k t t''.
Proof.
  intros [H1 (c1 & _ & H2)] [H3 (c2 & Hk & H4)]. split; [congruence|]. exists c2. split; [done|].
  intros ctr Hc. rewrite (H4 _ Hc), (H2 _ Hc). case_decide; case_decide; lia.
Qed.
Lemma counted_trans_r k t t' t'' : counted k t t' → counted 0 t' t'' → counted k t t''.
Proof.
  intros [H1 (c1 & Hk & H2)] [H3 (c2 & _ & H4)]. split; [congruence|]. exists c1. split; [done|].
  intros ctr Hc. rewrite (H4 _ Hc), (H2 _ Hc). case_decide; case_decide; lia.
Qed.
Lemma counted_quiet ctr t t' : is_outcome ctr = false → ctr ≠ Candidates → (∀ x, x ≠ ctr → t' x = t x) → counted 0 t t'.
Proof.
  intros Ho Hc Hsame. split; [by apply Hsame|]. exists Accepted. split; [by left|]. intros x Hx.
  rewrite Hsame by (by intros ->; rewrite Ho in Hx). case_decide; lia.
Qed.
Lemma counted_store ctr n t : is_outcome ctr = false → ctr ≠ Candidates → counted 0 t (store ctr n t).
Proof. intros Ho Hc. apply (counted_quiet ctr); [done|done|]. intros x Hne. unfold store. by rewrite decide_False. Qed.
Lemma counted_add ctr n t : is_outcome ctr = false → ctr ≠ Candidates → counted 0 t (fetch_add ctr n t).
Proof. apply counted_store. Qed.
Lemma counted_one ctr t : is_outcome ctr = true → 0 <= t ctr < 2 ^ 64 - 1 → counted 1 t (fetch_add ctr 1 t).
Proof.
  intros Ho Hr. unfold fetch_add, store. split; [rewrite decide_False; [done|by intros <-]|]. exists ctr. split; [by right|].
  intros x Hx. case_decide as Hd; [|lia]. subst x. rewrite wrap_small by lia. done.
Qed.

(** A computation that counts one outcome of a join, starting from the telemetry
    [t0] up to gauges. *)
Definition counts_one (t0 : telemetry) (k : m QueryResultSet) : Prop :=
  ∀ c, counted 0 t0 (small_table_join_stats_ c) → ∃ r c', k c = (Returned r, c') ∧ counted 1 t0 (small_table_join_stats_ c').

Lemma counted_zero_same t0 t ctr : counted 0 t0 t → is_outcome ctr = true → t ctr = t0 ctr.
Proof. intros [_ (c1 & _ & H)] Ho. rewrite (H _ Ho). case_decide; lia. Qed.

Lemma counts_one_modify t0 f k :
  (∀ t, counted 0 t0 t → counted 0 t (f t)) → counts_one t0 k → counts_one t0 (modify (set_join_stats f);; k).
Proof. intros Hf Hk c Hc. apply (Hk (set_join_stats f c)). eapply counted_trans_l; [exact Hc|by apply Hf]. Qed.

Lemma counts_one_gauge t0 ctr n k : is_outcome ctr = false → ctr ≠ Candidates → counts_one t0 k → counts_one t0 (gauge_join ctr n;; k).
Proof. intros Ho Hc. apply counts_one_modify. intros t _. by apply counted_store. Qed.

Lemma counts_one_finish t0 ctr elapsed r :
  below_wrap t0 → is_outcome ctr = true → counts_one t0 (count_join ctr 1;; finish_join elapsed r).
Proof.
  intros Hw Ho c Hc. eexists r, _. split; [done|]. cbn [small_table_join_stats_ set_join_stats].
  eapply counted_trans_r; [|by apply counted_store]. eapply counted_trans_l; [exact Hc|]. apply counted_one; [done|].
  rewrite (counted_zero_same t0) by done. by apply Hw.
Qed.

Lemma counts_one_copy t0 elapsed what lat n b tmp sql :
  below_wrap t0 → counts_one t0 (run_on_copy elapsed set_join_stats what lat n b tmp sql).
Proof.
  intros Hw c Hc. unfold run_on_copy. cbv zeta.
  assert (∀ t ctr, counted 0 t0 t → is_outcome ctr = true → counted 1 t0 (fetch_add ctr 1 t)) as Hone.
  { intros t ctr Ht Ho. eapply counted_trans_l; [exact Ht|]. apply counted_one; [done|]. rewrite (counted_zero_same t0) by done. by apply Hw. }
  assert (counted 0 t0 (store LastLatencyUs elapsed (small_table_join_stats_ c))) as Hlat
    by (eapply counted_trans_l; [exact Hc|by apply counted_store]).
  destruct (_ && _); [by eexists _, _; split; [done|]; apply Hone|].
  destruct (ok _); [|by eexists _, _; split; [done|]; apply Hone].
  eexists _, _. split; [done|]. cbn [small_table_join_stats_ set_join_stats].
  eapply counted_trans_r; [|by apply counted_add]. eapply counted_trans_r; [|by apply counted_add]. by apply Hone.
Qed.

Lemma counts_one_locally t0 elapsed cfg sql lt rt ls rs l r b :
  below_wrap t0 → counts_one t0 (join_locally elapsed cfg sql lt rt ls rs l r b).
Proof.
  intros Hw. unfold join_locally. apply counts_one_gauge; [done|done|].
  destruct (_ <? _); [by apply counts_one_finish|].
  destruct (ls ∪ _); [|by apply counts_one_finish]. destruct (rs ∪ _); [|by apply counts_one_finish].
  destruct (materialize_result_into_typed_table _ _ l); [by apply counts_one_finish|].
  destruct (if String.eqb rt lt then _ else _); [by apply counts_one_finish|by apply counts_one_copy].
Qed.

Lemma fetch_undisturbed base rl mb c :
  0 <= rl < SIZE_MAX → 0 <= mb < SIZE_MAX →
  ∃ f c', fetch_concat_bounded base rl mb c = (Returned f, c') ∧ undisturbed c c' ∧ (fetch_status f = FetchOk → 0 <= estimated_bytes f).
Proof.
  intros Hrl Hmb. destruct (fetch_from_spec base rl mb (endpoints_ c) no_fetch c [] Hrl Hmb) as (f & c' & Hf & Hu & Hend).
  { split; simpl; try done; unfold row_count; simpl; lia. }
  exists f, c'. split_and!; [done|done|]. intros Hok. destruct Hend as [(rs & _ & [_ _ _ -> _] & _)|Hstop]; [apply total_bytes_nonneg|].
  unfold stopped in Hstop. by rewrite Hok in Hstop.
Qed.

Lemma counts_one_fetch t0 base rl mb k :
  0 <= rl < SIZE_MAX → 0 <= mb < SIZE_MAX → (∀ f, (fetch_status f = FetchOk → 0 <= estimated_bytes f) → counts_one t0 (k f)) →
  counts_one t0 (f ← fetch_concat_bounded base rl mb; k f).
Proof.
  intros Hrl Hmb Hk c Hc. destruct (fetch_undisturbed base rl mb c Hrl Hmb) as (f & c' & Hf & (_ & _ & _ & _ & Hs & _) & Hpos).
  unfold mbind, M_bind. rewrite Hf. apply Hk; [done|]. by rewrite Hs.
Qed.

Lemma counts_one_side t0 elapsed cfg table n f k :
  below_wrap t0 → (fetch_status f = FetchOk → counts_one t0 k) → counts_one t0 (with_side elapsed cfg table n f k).
Proof. intros Hw Hk. unfold with_side. destruct (fetch_status f); [by apply Hk|by apply counts_one_finish..]. Qed.

(** The telemetry of bounded joins adds up: a join that the coordinator tries is
    one more candidate and has exactly one outcome (accepted, a row, byte or latency
    limit, an error); when the policy disables the joins it is a candidate without
    any. The copies end, so the join returns an answer in every case. *)
Theorem join_telemetry_adds_up elapsed sql left_table right_table c :
  below_wrap (small_table_join_stats_ c) → 0 <= small_table_join_stats_ c Candidates < 2 ^ 64 - 1 →
  0 <= join_row_limit (small_table_join_config_ c) < SIZE_MAX → 0 <= join_max_bytes (small_table_join_config_ c) < SIZE_MAX →
  ∃ r c', execute_small_table_hash_join elapsed sql left_table right_table c = (Returned r, c') ∧
    small_table_join_stats_ c' Candidates = small_table_join_stats_ c Candidates + 1 ∧
    outcomes (small_table_join_stats_ c') = outcomes (small_table_join_stats_ c) +
      match join_policy (small_table_join_config_ c) with BoundedBroadcast => 1 | JoinDisabled => 0 end.
Proof.
  intros Hw Hc0 Hrl Hmb. unfold execute_small_table_hash_join.
  set (cfg := small_table_join_config_ c) in *.
  set (t0 := fetch_add Candidates 1 (small_table_join_stats_ c)).
  assert (∀ ctr, ctr ≠ Candidates → t0 ctr = small_table_join_stats_ c ctr) as Hother
    by (intros ctr Hne; unfold t0, fetch_add, store; by rewrite decide_False).
  assert (t0 Candidates = small_table_join_stats_ c Candidates + 1) as Hcand.
  { unfold t0, fetch_add, store. rewrite decide_True by done. apply wrap_small. lia. }
  set (c1 := set_join_stats (fetch_add Candidates 1) c).
  assert (∀ k : m QueryResultSet, (∃ r c', k c1 = (Returned r, c') ∧ counted 1 t0 (small_table_join_stats_ c')) →
    ∃ r c', (count_join Candidates 1;; k) c = (Returned r, c') ∧ small_table_join_stats_ c' Candidates = small_table_join_stats_ c Candidates + 1 ∧
      outcomes (small_table_join_stats_ c') = outcomes (small_table_join_stats_ c) + 1) as Hgoal.
  { intros k (r & c' & Hk & Hcc & ctr & Hone & Hcnt). exists r, c'. split; [exact Hk|]. split; [congruence|].
    destruct Hone as [|[_ Ho]]; [done|]. unfold outcomes. rewrite !Hcnt, !Hother by done. by destruct ctr; simpl; try lia. }
  destruct (join_policy cfg) eqn:Hpol.
  - eexists _, _. unfold mbind at 2, M_bind at 2. unfold gets. fold cfg.
    change (small_table_join_config_ (set_join_stats (fetch_add Candidates 1) c)) with cfg.
    split; [unfold count_join, modify, mbind, M_bind, gets; cbn; fold cfg; by rewrite Hpol|].
    cbn [small_table_join_stats_ set_join_stats]. unfold store at 1. rewrite decide_False by done. split; [exact Hcand|].
    unfold outcomes, store. rewrite !decide_False by done. fold t0. rewrite !Hother by done. lia.
  - assert (counted 0 t0 (small_table_join_stats_ c1)) as H0 by apply counted_refl.
    apply Hgoal. unfold mbind at 1, M_bind at 1. unfold gets at 1. change (small_table_join_config_ c1) with cfg. rewrite Hpol.
    unfold mbind at 1, M_bind at 1. unfold gets at 1. unfold mbind at 1, M_bind at 1. unfold gets at 1.
    assert (below_wrap t0) as Hw0 by (intros ctr Ho; rewrite Hother by (by intros ->); by apply Hw).
    match goal with |- ∃ r c', ?k c1 = _ ∧ _ => enough (counts_one t0 k) as H by exact (H c1 H0) end.
    apply counts_one_fetch; [done|done|]. intros left Hpos. apply counts_one_gauge; [done|done|]. apply counts_one_gauge; [done|done|].
    apply counts_one_side; [done|]. intros Hfok. specialize (Hpos Hfok). cbv zeta. destruct (String.eqb right_table left_table).
    + apply counts_one_gauge; [done|done|]. by apply counts_one_locally.
    + apply counts_one_fetch; [done| |].
      { destruct (Z.ltb_spec (estimated_bytes left) (join_max_bytes cfg)); lia. }
      intros right _. apply counts_one_gauge; [done|done|]. apply counts_one_gauge; [done|done|].
      apply counts_one_side; [done|]. intros _. by apply counts_one_locally.
Qed.

(** ** Averages over the cluster *)

(** A query that is scattered and whose averages are rewritten. *)
Definition scattered_average (b : SelectBody Expr SelectStmt) : Prop :=
  Ast.join b = None ∧ group_by b = None ∧ needs_full_data b = false ∧
  (∀ a vs, where_clause b ≠ Some (Some (EIn a "symbol" vs))) ∧
  forallb is_aggregate (Ast.columns b) = true ∧ existsb needs_rewrite (Ast.columns b) = true.

Lemma scattered_average_plan sql stmt rest :
  parse sql = Parsed stmt rest → scattered_average (body_of stmt) →
  merge_plan_from_sql sql = build_avg_rewrite (Ast.columns (body_of stmt)) sql.
Proof.
  intros Hp (_ & Hg & _ & _ & Hall & Hex). unfold merge_plan_from_sql. rewrite Hp. unfold plan_of_statement. rewrite Hg.
  unfold scalar_plan. rewrite Hall, Hex. rewrite bool_decide_false; [done|]. intros He. by rewrite He in Hex.
Qed.

Lemma rewrite_plan_nonempty cols sql :
  existsb needs_rewrite cols = true →
  col_aggs (build_avg_rewrite cols sql) ≠ [] ∧ avg_cols (build_avg_rewrite cols sql) ≠ [].
Proof.
  intros (e & Hin%list_elem_of_In & He)%existsb_exists. apply list_elem_of_lookup in Hin as [i Hi]. split.
  - assert (0 < length (item_aggs e))%nat as Hpos by (unfold item_aggs, needs_rewrite in *; by destruct (agg e); simpl; lia).
    destruct (plan_agg cols sql i e 0 Hi Hpos) as [_ Hl]. intros Hnil. rewrite Hnil in Hl. simpl in Hl. lia.
  - assert (∃ ai, avg_entry cols i e = Some ai) as [ai Hai]
      by (unfold avg_entry, needs_rewrite in *; destruct (agg e); try done; eauto).
    intros Hnil. unfold build_avg_rewrite in Hnil. cbn [avg_cols] in Hnil.
    destruct (rewrite_columns_index cols) as (_ & Hav & _). rewrite Hav in Hnil.
    assert (ai ∈ []) as Hbad; [|by apply elem_of_nil in Hbad]. rewrite <- Hnil. apply elem_of_entries. eauto.
Qed.

Lemma execute_scattered_average elapsed sql stmt rest c results c' :
  parse sql = Parsed stmt rest → scattered_average (body_of stmt) → extract_symbol_filter sql = None →
  plain sql = true → (2 <= length (endpoints_ c))%nat →
  let plan := build_avg_rewrite (Ast.columns (body_of stmt)) sql in
  scatter (rewritten_sql plan) c = (Returned results, c') →
  execute_sql elapsed sql c =
    (Returned (post_process sql (reconstruct_avg_result (merge_scalar_with_sql_aggs results (col_aggs plan)) plan)), c').
Proof.
  intros Hp Hsc Hsym Hplain Hlen plan Hrun. unfold execute_sql.
  pose proof (scattered_average_plan sql stmt rest Hp Hsc) as Hplan. fold plan in Hplan.
  destruct Hsc as (Hj & Hg & Hfull & Hin & Hall & Hex).
  rewrite (first_answer_none _ _ _ c c) by (by apply plain_execute_dml).
  rewrite (first_answer_none _ _ _ c c) by (by apply several_single_node).
  rewrite (first_answer_none _ _ _ c c) by (unfold to_symbol_owner; by rewrite Hsym).
  rewrite (first_answer_none _ _ _ c c).
  2:{ unfold execute_symbol_in, with_select. rewrite Hp. unfold try_catch.
      destruct (where_clause (body_of stmt)) as [[[]|]|] eqn:Hw; try done.
      destruct (decide (column = "symbol"%string)) as [->|Hne]; [by destruct (Hin table_alias in_values)|].
      assert (∀ (A : Type) (x y : A), match column with "symbol"%string => x | _ => y end = y) as Hm.
      { intros A x y. repeat (case_match; try done). }
      by rewrite Hm. }
  rewrite (first_answer_none _ _ _ c c) by (unfold execute_time_join, with_select; rewrite Hp, Hj; done).
  rewrite (first_answer_none _ _ _ c c) by (unfold execute_bounded_join, with_select; rewrite Hp, Hj; done).
  rewrite (first_answer_none _ _ _ c c) by (unfold execute_bounded_window, with_select; rewrite Hp, Hfull; done).
  cbn [first_answer]. unfold scatter_gather. rewrite Hplan.
  change (node_sql plan sql) with (rewritten_sql plan). unfold mbind, M_bind. rewrite Hrun. unfold mret, M_ret.
  do 3 f_equal. change (having_filter plan (merge_tier_b plan results)) with (merge_tier_b plan results).
  unfold merge_tier_b, merge_by_plan. change (strategy plan) with SCALAR_AGG.
  destruct (rewrite_plan_nonempty (Ast.columns (body_of stmt)) sql Hex) as [Ha Hv]. fold plan in Ha, Hv.
  destruct (col_aggs plan) eqn:Hca; [done|]. destruct (avg_cols plan); [done|]. done.
Qed.

(** C4. An average over a cluster is the average of all its rows. Take a query
    that parses, does not begin with INSERT, UPDATE, DELETE, CREATE, DROP,
    ALTER, SHOW or DESC, has only aggregates in its select list, at least one of
    them an AVG or VWAP and none that needs all the data, and has no GROUP BY,
    join, inner query, [symbol = n] or [symbol IN]; and a cluster of at least
    two nodes. When every node answers the rewritten query without an error,
    some answer has a row, every row has a cell for each rewritten item, the
    cells at the places of the sum and of the count of AVG item [i] are the sum
    and the number of the values the node holds, and no sum leaves [int64_t],
    then [execute_sql] answers one row, which has at [i] the integer nearest to
    the average of all the values of all the nodes, and at every item that was
    not rewritten the merge of that item's column; each node was asked once, for
    the rewritten text. What the nodes compute is a hypothesis; the queries left
    out are answered in other ways, some of them wrongly
    ([symbol_in_skips_average]). *)
Theorem cluster_average_exact elapsed sql stmt rest c results c' tmpl i e parts :
  parse sql = Parsed stmt rest → scattered_average (body_of stmt) → extract_symbol_filter sql = None →
  plain sql = true → (2 <= length (endpoints_ c))%nat →
  let cols := Ast.columns (body_of stmt) in
  let plan := build_avg_rewrite cols sql in
  let srcs := contrib results in
  let k := rewritten_index cols i in
  map_m (λ ep, exec_on ep (rewritten_sql plan)) (endpoints_ c) c = (Returned results, c') →
  Forall (λ r, ok r = true) results →
  cols !! i = Some e → agg e = Ast.AVG →
  find contributes results = Some tmpl → length (column_names tmpl) = length (col_aggs plan) →
  Forall (λ src, length src = length (col_aggs plan)) srcs →
  (∀ ci, (ci < length (col_aggs plan))%nat → kind_of_agg (agg_at (col_aggs plan) ci) = KSum → sums_fit (column_of srcs ci)) →
  column_of srcs k = zsum <$> parts → column_of srcs (k + 1) = (λ p, Z.of_nat (length p)) <$> parts →
  let values := mjoin parts in
  (0 < length values)%nat → Z.abs (zsum values) + Z.of_nat (length values) / 2 <= INT64_MAX →
  ∃ r row q, execute_sql elapsed sql c = (Returned r, c') ∧ rows r = [row] ∧ length row = length cols ∧ row !! i = Some q ∧
    2 * Z.abs (q * Z.of_nat (length values) - zsum values) <= Z.of_nat (length values) ∧
    (∀ j e', cols !! j = Some e' → needs_rewrite e' = false →
       row !! j = Some (merged_cell avg_rounded (kind_of_agg (agg e')) (column_of srcs (rewritten_index cols j)))) ∧
    executed_ c' = executed_ c ++ calls_on (endpoints_ c) (rewritten_sql plan).
Proof.
  intros Hp Hsc Hsym Hplain Hlen cols plan srcs k Hrun Hok Hi Hagg Hf Hn Hall Hfit Hsum Hcnt values Hpos Hmax.
  destruct (exec_all_returns (endpoints_ c) (rewritten_sql plan) c) as (rs & c1 & (Hrs & HL & _) & _).
  rewrite Hrun in Hrs. injection Hrs as <- <-.
  assert (scatter (rewritten_sql plan) c = (Returned results, c')) as Hscatter.
  { unfold scatter, mbind, M_bind, gets, mret, M_ret. rewrite Hrun. unfold checked_results.
    destruct (list_find _ _) as [[n [ep r]]|] eqn:Hfind; [|done]. apply list_find_Some in Hfind as (Hz & Hbad & _).
    apply lookup_zip_Some in Hz as [_ Hr]. rewrite Forall_lookup in Hok. specialize (Hok _ _ Hr). simpl in Hbad. congruence. }
  destruct (distributed_avg_exact cols sql results tmpl i e parts Hi Hagg Hf Hn Hall Hfit Hsum Hcnt Hpos Hmax)
    as (row & q & Hrows & Hrlen & Hq & Hnear & Hother). fold plan in Hrows.
  eexists _, row, q. split; [by eapply execute_scattered_average|].
  assert (∀ r, rows r = [row] → post_process sql r = r) as Hpost.
  { intros r Hr. unfold post_process. rewrite Hr. by rewrite andb_false_r. }
  fold cols plan. rewrite Hpost by done. split_and!; done.
Qed.

(** ** ORDER BY, DISTINCT and LIMIT over the cluster *)

Lemma row_less_order keys : weak_order (row_less keys).
Proof.
  induction keys as [|[ci up] keys [H1 H2 H3]]; split; try done.
  - intros x. cbn [row_less]. by rewrite Z.eqb_refl.
  - intros x y. cbn [row_less]. destruct (Z.eqb_spec (cell x ci) (cell y ci)) as [->|]; [rewrite Z.eqb_refl; apply H2|].
    rewrite (proj2 (Z.eqb_neq (cell y ci) (cell x ci))) by congruence. destruct up; rewrite Z.ltb_lt, Z.ltb_ge; lia.
  - intros x y z. cbn [row_less].
    destruct (Z.eqb_spec (cell y ci) (cell x ci)) as [Hyx|]; destruct (Z.eqb_spec (cell z ci) (cell y ci)) as [Hzy|].
    + rewrite (proj2 (Z.eqb_eq (cell z ci) (cell x ci))) by congruence. apply H3.
    + rewrite (proj2 (Z.eqb_neq (cell z ci) (cell x ci))) by congruence. intros _. by rewrite Hyx.
    + rewrite (proj2 (Z.eqb_neq (cell z ci) (cell x ci))) by congruence. intros H _. revert H. by rewrite Hzy.
    + destruct (Z.eqb_spec (cell z ci) (cell x ci)) as [Hzx|]; destruct up; rewrite !Z.ltb_ge; try lia.
Qed.

Lemma distinct_rows_spec seen rs :
  NoDup (distinct_rows seen rs) ∧ ∀ r, r ∈ distinct_rows seen rs ↔ r ∈ rs ∧ r ∉ seen.
Proof.
  revert seen. induction rs as [|r rs IH]; intros seen; cbn [distinct_rows].
  { split; [apply NoDup_nil_2|]. intros r. split; [by intros ?%elem_of_nil|by intros [?%elem_of_nil _]]. }
  case_bool_decide as Hr.
  - destruct (IH seen) as [H1 H2]. split; [done|]. intros x. rewrite H2, elem_of_cons. split; [tauto|].
    intros [[->|Hx] Hn]; done.
  - destruct (IH ({[r]} ∪ seen)) as [H1 H2]. split.
    + apply NoDup_cons. split; [|done]. rewrite H2. set_solver.
    + intros x. rewrite !elem_of_cons, H2, elem_of_union, elem_of_singleton. destruct (decide (x = r)) as [->|]; tauto.
Qed.

(** What happens to the merged rows of several nodes: they are the LIMIT first of
    a list that is sorted by the ORDER BY columns the result has, in their order and
    direction, and that holds the merged rows, each of them once if the query is
    DISTINCT. But the texts of the string columns, and everything else in the result,
    stay where they were: they are not sorted along. *)
Theorem merged_rows_ordered sql stmt rest r :
  parse sql = Parsed stmt rest → ok r = true → (1 < length (rows r))%nat →
  let b := body_of stmt in
  let r' := post_process sql r in
  ∃ sorted, rows r' = limit_rows (limit b) sorted ∧
    (if distinct b then NoDup sorted ∧ ∀ row, row ∈ sorted ↔ row ∈ rows r else sorted ≡ₚ rows r) ∧
    (∀ items, order_by b = Some items → StronglySorted (λ x y, row_less (sort_keys r items) y x = false) sorted) ∧
    string_rows r' = string_rows r ∧ symbol_dict r' = symbol_dict r ∧ column_names r' = column_names r ∧ error r' = error r.
Proof.
  intros Hp Hok Hlen b r'. unfold r', post_process. rewrite Hok, (proj2 (Nat.ltb_lt _ _)), Hp by done. cbn [andb]. fold b.
  set (rs := if distinct b then distinct_rows ∅ (rows r) else rows r).
  set (sorted := match order_by b with Some items => order_rows (sort_keys r items) rs | None => rs end).
  exists sorted. split; [done|].
  assert (sorted ≡ₚ rs) as Hperm.
  { unfold sorted, order_rows. destruct (order_by b) as [items|]; [|done]. destruct (sort_keys r items); [done|apply sort_rows_perm]. }
  split_and!; [|intros items Hi|done..].
  - unfold rs in Hperm. destruct (distinct b); [|done]. destruct (distinct_rows_spec ∅ (rows r)) as [H1 H2].
    rewrite Hperm. split; [done|]. intros row. rewrite Hperm, H2. set_solver.
  - unfold sorted. rewrite Hi. unfold order_rows. destruct (sort_keys r items) as [|key keys] eqn:Hk.
    + clear. induction rs; constructor; [done|]. apply Forall_forall. done.
    + apply sort_rows_sorted, row_less_order.
Qed.
End Queries.

(** ** Runs on a cluster of two nodes *)

(** Two nodes behind the network, with the scripts of their ids. *)
Definition two_nodes (scripts : Z → list (string * QueryResultSet)) : demo :=
  foldl coord_step (demo_start scripts) [AddRemote (demo_address 1); AddRemote (demo_address 2)].

Lemma two_nodes_ok scripts : coordinator_ok (two_nodes scripts).
Proof.
  unfold two_nodes. cbn [foldl]. do 2 (apply coordinator_ok_step; [unfold coord_op_ok, node_ok; simpl; lia|done|]).
  apply coordinator_ok_new.
Qed.

Definition answer (r : outcome QueryResultSet * demo) : QueryResultSet :=
  match r.1 with Returned q => q | Thrown e => error_result e end.

Definition ordered_query : string := "SELECT symbol, price FROM trades ORDER BY price".
Definition priced (symbol : string) (price : Z) : QueryResultSet :=
  mkResultSet ["symbol"; "price"] [SYMBOL; INT64] [[1; price]] [] [symbol] None 1 "".

(** ORDER BY over several nodes puts the strings beside the wrong rows: node 1
    holds AAA at 30 and node 2 BBB at 10; the answer, sorted by price, says that AAA
    is at 10 and BBB at 30. *)
Theorem order_by_mixes_strings :
  let r := answer (execute_sql 0 ordered_query
    (two_nodes (λ id, [(ordered_query, if id =? 1 then priced "AAA" 30 else priced "BBB" 10)]))) in
  rows r = [[1; 10]; [1; 30]] ∧ decoded_string_cell r 0 0 = Some "AAA"%string ∧ decoded_string_cell r 1 0 = Some "BBB"%string.
Proof. vm_compute. done. Qed.

Definition in_query : string := "SELECT avg(price) FROM trades WHERE symbol IN (1, 2)".
Definition in_rewritten : string := "SELECT sum(price), count(price) FROM trades WHERE symbol IN (1, 2)".
Definition sums_of (sum count : Z) : QueryResultSet :=
  mkResultSet ["price"; "price"] [INT64; INT64] [[sum; count]] [] [] None 1 "".

(** An average over [symbol IN (...)] is not put back together: the nodes are
    asked for sums and counts, with 10 over 2 rows and 20 over 3 rows, and the answer
    to [avg(price)] is the row of the total sum and the total count, 30 and 5, where
    the average is 6. *)
Theorem symbol_in_skips_average :
  let run := execute_sql 0 in_query
    (two_nodes (λ id, [(in_rewritten, if id =? 1 then sums_of 10 2 else sums_of 20 3)])) in
  rows (answer run) = [[30; 5]] ∧ executed_ run.2 = [(1, in_rewritten); (2, in_rewritten)] ∧
  rows (merge_tier_b (merge_plan_from_sql in_query) [sums_of 10 2; sums_of 20 3]) = [[6]].
Proof. vm_compute. done. Qed.

(** A node that has the table, and one that has not. *)
Definition local_and_remote (scripts : Z → list (string * QueryResultSet)) : demo :=
  mkCoordinator [mkEndpoint (demo_address 1) false (Some 1) true; mkEndpoint (demo_address 2) true None false]
    (add_node (add_node empty_router 1) 2) None default_join_config default_window_config no_telemetry no_telemetry
    (λ p, mkScript (SchemaRegistry.create empty_registry "trades" [mkColumn "symbol" SYMBOL; mkColumn "price" INT64] no_placement).2
            (scripts p) true) scripts [].

Lemma local_and_remote_ok scripts : coordinator_ok (local_and_remote scripts).
Proof.
  split.
  - done.
  - unfold endpoint_ids. simpl. apply (bool_decide_unpack _). vm_compute. done.
  - intros n. cbn [router_ local_and_remote]. rewrite !node_set_add_node. unfold endpoint_ids. simpl.
    rewrite !elem_of_cons, elem_of_nil. set_solver.
  - cbn [router_ local_and_remote]. do 2 (apply router_ok_add; [unfold node_ok; lia|]). apply router_ok_empty.
  - cbn [router_ local_and_remote]. by rewrite !pinned_add_node.
Qed.


Lemma insert_runs_at_most_once_witness :
  ∃ eps, (length eps <= 1)%nat ∧
    executed_ (execute_sql 0 "INSERT INTO nowhere VALUES ('x', 1" (two_nodes (λ _, []))).2 = calls_on eps "INSERT INTO nowhere VALUES ('x', 1".
Proof.
  destruct (insert_runs_at_most_once 0 "INSERT INTO nowhere VALUES ('x', 1" (two_nodes (λ _, []))) as (eps & _ & Hlen & Hlog).
  - reflexivity.
  - discriminate.
  - exists eps. split; [exact Hlen|exact Hlog].
Defined.

Lemma update_runs_everywhere_witness :
  executed_ (execute_sql 0 "UPDATE trades SET price = 1 WHERE symbol = 7" (two_nodes (λ _, []))).2 =
    calls_on (endpoints_ (two_nodes (λ _, []))) "UPDATE trades SET price = 1 WHERE symbol = 7".
Proof.
  destruct (update_runs_everywhere 0 "UPDATE trades SET price = 1 WHERE symbol = 7" (two_nodes (λ _, [])))
    as (rs & c' & _ & Hlog & Hrun); [left; reflexivity|].
  rewrite Hrun. exact Hlog.
Defined.

Lemma unrecognized_runs_everywhere_witness :
  executed_ (execute_sql 0 " INSERT INTO trades VALUES (7, 100)" (two_nodes (λ _, []))).2 =
    [(1, " INSERT INTO trades VALUES (7, 100)"); (2, " INSERT INTO trades VALUES (7, 100)")]%string.
Proof.
  destruct (unrecognized_runs_everywhere 0 " INSERT INTO trades VALUES (7, 100)" (two_nodes (λ _, [])))
    as (rs & c' & _ & Hlog & r & Hrun).
  - reflexivity.
  - intros stmt rest Hp. vm_compute in Hp. discriminate Hp.
  - vm_compute. auto.
  - rewrite Hrun. exact Hlog.
Defined.

Definition three_rows : QueryResultSet := mkResultSet ["price"] [INT64] [[1]; [2]; [3]] [] [] None 3 "".


Lemma join_telemetry_adds_up_witness :
  ∃ r c', execute_small_table_hash_join 0 "SELECT * FROM a JOIN b ON a.k = b.k" "a" "b" (two_nodes (λ _, [])) = (Returned r, c') ∧
    small_table_join_stats_ c' Candidates = 1 ∧ outcomes (small_table_join_stats_ c') = 1.
Proof.
  assert (small_table_join_stats_ (two_nodes (λ _, [])) = no_telemetry) as Hstats by (vm_compute; reflexivity).
  assert (small_table_join_config_ (two_nodes (λ _, [])) = default_join_config) as Hcfg by (vm_compute; reflexivity).
  destruct (join_telemetry_adds_up 0 "SELECT * FROM a JOIN b ON a.k = b.k" "a" "b" (two_nodes (λ _, []))) as (r & c' & H1 & H2 & H3);
    rewrite ?Hstats, ?Hcfg in *.
  - intros ctr _. unfold no_telemetry. lia.
  - unfold no_telemetry. lia.
  - unfold SIZE_MAX. simpl. lia.
  - unfold SIZE_MAX. simpl. lia.
  - exists r, c'. split; [exact H1|]. split; [exact H2|exact H3].
Defined.

Definition average_query : string := "SELECT avg(price) FROM trades".
Definition average_rewritten : string := "SELECT sum(price), count(price) FROM trades".

Definition average_stmt : SelectStmt :=
  Select (mkSelect [] false false [set_alias "" (avg_item "price")] "trades" "" None None None None None None None None None S_NONE None).

(** Prices 2, 3, 5 on node 1, and 3, 4 on node 2: the average is 17 / 5. *)
Lemma cluster_average_exact_witness :
  let c := two_nodes (λ id, [(average_rewritten, if id =? 1 then sums_of 10 3 else sums_of 7 2)]) in
  ∃ r row q, (execute_sql 0 average_query c).1 = Returned r ∧ rows r = [row] ∧ row !! 0%nat = Some q ∧ 2 * Z.abs (q * 5 - 17) <= 5.
Proof.
  intros c. assert (∃ rest, parse average_query = Parsed average_stmt rest) as [rest Hp] by (eexists; vm_compute; reflexivity).
  assert (map_m (λ ep, exec_on ep average_rewritten) (endpoints_ c) c =
    (Returned [sums_of 10 3; sums_of 7 2], (map_m (λ ep, exec_on ep average_rewritten) (endpoints_ c) c).2)) as Hrun.
  { rewrite (surjective_pairing (map_m _ _ _)) at 1. f_equal; vm_compute; reflexivity. }
  assert (rewritten_sql (build_avg_rewrite (Ast.columns (body_of average_stmt)) average_query) = average_rewritten) as Htext
    by (vm_compute; reflexivity).
  destruct (cluster_average_exact 0 average_query average_stmt rest c [sums_of 10 3; sums_of 7 2]
    (map_m (λ ep, exec_on ep average_rewritten) (endpoints_ c) c).2 (sums_of 10 3) 0
    (set_alias "" (avg_item "price")) [[2; 3; 5]; [3; 4]]) as (r & row & q & Hexec & Hrows & _ & Hq & Hnear & _).
  - exact Hp.
  - split; [reflexivity|]. split; [reflexivity|]. split; [reflexivity|]. split; [discriminate|]. split; reflexivity.
  - vm_compute. reflexivity.
  - vm_compute. reflexivity.
  - vm_compute. auto.
  - rewrite Htext. exact Hrun.
  - repeat constructor.
  - reflexivity.
  - reflexivity.
  - reflexivity.
  - reflexivity.
  - repeat constructor.
  - intros ci Hlt Hs. apply (bool_decide_unpack _). destruct ci as [|[|ci]]; [vm_compute; reflexivity..|vm_compute in Hlt; lia].
  - reflexivity.
  - reflexivity.
  - vm_compute. auto 10.
  - vm_compute. discriminate.
  - exists r, row, q. rewrite Hexec. split; [reflexivity|]. split; [exact Hrows|]. split; [exact Hq|exact Hnear].
Defined.

Lemma merged_rows_ordered_witness :
  rows (post_process "SELECT DISTINCT price FROM trades ORDER BY price DESC LIMIT 2"
    (mkResultSet ["price"] [INT64] [[1]; [3]; [2]; [3]] [] [] None 4 "")) = [[3]; [2]] ∧
  ∃ sorted, NoDup sorted ∧ StronglySorted (λ x y, row_less [(0%nat, false)] y x = false) sorted.
Proof.
  split; [vm_compute; reflexivity|].
  destruct (parse "SELECT DISTINCT price FROM trades ORDER BY price DESC LIMIT 2") as [stmt rest| |] eqn:Hp; [|vm_compute in Hp; discriminate Hp..].
  destruct (merged_rows_ordered "SELECT DISTINCT price FROM trades ORDER BY price DESC LIMIT 2" stmt rest
    (mkResultSet ["price"] [INT64] [[1]; [3]; [2]; [3]] [] [] None 4 "")) as (sorted & _ & Hperm & Hsorted & _).
  - exact Hp.
  - reflexivity.
  - vm_compute. auto.
  - exists sorted. vm_compute in Hp. injection Hp as <- _. cbn in Hperm. split; [apply Hperm|]. exact (Hsorted _ eq_refl).
Defined.

Definition asof_query : string :=
  "SELECT * FROM trades ASOF JOIN quotes ON trades.symbol = quotes.symbol AND trades.ts >= quotes.ts WHERE symbol = 'AAPL'".

Lemma string_symbol_is_zero_witness :
  let c := two_nodes (λ _, []) in
  ∃ ep r c', (route (router_ c) 0).1 = Returned (addr_id (addr ep)) ∧
    execute_sql 0 asof_query c = (Returned r, c') ∧ executed_ c' = calls_on [ep] asof_query.
Proof.
  intros c. destruct (parse asof_query) as [stmt rest| |] eqn:Hp; [|vm_compute in Hp; discriminate Hp..].
  assert (where_clause (body_of stmt) = Some (Some (ECompare "" "symbol" Ast.EQ (VString "AAPL") None)) ∧
          join_type <$> Ast.join (body_of stmt) = Some J_ASOF) as [Hw Hj].
  { vm_compute in Hp. injection Hp as <- _. split; reflexivity. }
  destruct (string_symbol_is_zero 0 asof_query stmt rest "" "AAPL" None c) as (ep & r & c' & _ & Hroute & Hrun & Hlog).
  - apply two_nodes_ok.
  - vm_compute. auto.
  - vm_compute. reflexivity.
  - exact Hp.
  - exact Hw.
  - left. exact Hj.
  - intros n Hn. exfalso. vm_compute in Hn. discriminate Hn.
  - exists ep, r, c'. split; [|split; [exact Hrun|exact Hlog]].
    rewrite <- Hroute. vm_compute. reflexivity.
Defined.
