(* ===== verification/Failover.v ===== *)
(** * Failover

    Models [include/zeptodb/cluster/failover_manager.h] and
    [src/cluster/failover_manager.cpp]: what happens when a node is declared dead.
    The router, the query coordinator and the migrator are those of
    [PartitionRouter.v], [Coordinator.v] and [Migration.v]; the manager's router
    and the coordinator's are two fields (when the program shares one, the second
    removal finds nothing to do). A background re-replication thread is an entry
    of [async_threads_], and [async_step] is one round of its loop, so that threads
    interleave with each other and with further failovers. *)

From S2P Require Import Prelude.
From S2P Require Import SchemaRegistry.
From S2P Require Import PartitionRouter.
From S2P Require Import RouterFacts.
From S2P Require Import HealthMonitor.
From S2P Require Import RingBuffer.
From S2P Require Import Migration.
From S2P Require Import PartialAgg.
From S2P Require Import RowOrder.
From S2P Require Import Rpc.
From S2P Require Import Coordinator.
From S2P Require Import CoordinatorFacts.
From stdpp Require Import base gmap sets list strings relations.
From Stdlib Require Import ZArith Lia.

Open Scope Z_scope.

(** ** Data *)

Record ReReplicationTarget : Type := mkTarget { new_primary : Z; new_replica : Z }.

Record FailoverEvent : Type := mkEvent {
  dead_node : Z;
  affected_vnodes : Z;
  re_replication : list ReReplicationTarget;
  re_replication_attempted : Z;
  re_replication_succeeded : Z;
}.

Record FailoverConfig : Type := mkFailoverConfig { auto_re_replicate : bool; async_re_replicate : bool }.
Definition default_failover_config : FailoverConfig := mkFailoverConfig true true.

(** [async_threads_] holds the events of the running threads with the targets they
    have still to do, [fired_] the events the callbacks received, oldest first. *)
Record FailoverManager (T R : Type) : Type := mkFailover {
  fm_router : PartitionRouter;
  fm_coordinator : Coordinator T R;
  fm_config : FailoverConfig;
  migrator_ : PartitionMigrator;
  failover_count_ : Z;
  re_replication_count_ : Z;
  async_threads_ : list (FailoverEvent * list ReReplicationTarget);
  fired_ : list FailoverEvent;
}.
Arguments mkFailover {T R}.
Arguments fm_router {T R}.
Arguments fm_coordinator {T R}.
Arguments fm_config {T R}.
Arguments migrator_ {T R}.
Arguments failover_count_ {T R}.
Arguments re_replication_count_ {T R}.
Arguments async_threads_ {T R}.
Arguments fired_ {T R}.

(** ** Operations *)

(** The loop over the plan's moves: the first move to each node gives a target,
    unless the replica found for its symbol is that node itself. *)
Fixpoint re_replication_targets (r : PartitionRouter) (dead : Z) (seen : gset Z) (moves : list Move) :
    list ReReplicationTarget :=
  match moves with
  | [] => []
  | m :: moves =>
      if bool_decide (move_from m = dead) && bool_decide (move_to m ∉ seen) then
        let rest := re_replication_targets r dead ({[move_to m]} ∪ seen) moves in
        let replica := route_replica r (move_symbol m) in
        if negb (replica =? INVALID_NODE_ID) && negb (replica =? move_to m)
        then mkTarget (move_to m) replica :: rest else rest
      else re_replication_targets r dead seen moves
  end.

Definition failover_event (r : PartitionRouter) (dead : Z) : FailoverEvent :=
  let plan := plan_remove r dead in
  let r := PartitionRouter.remove_node r dead in
  mkEvent dead (Z.of_nat (length plan))
    (if (2 <=? node_count r)%nat then re_replication_targets r dead ∅ plan else []) 0 0.

Section Failover.
Context {T R : Type} {HT : Pipeline T} {HR : Network R}.
Context (select_reply : list remote_call → Z → Z → QueryResult)
  (replicate_reply : list remote_call → Z → list TickMessage → bool).
Notation manager := (FailoverManager T R).
Implicit Types f : manager.

Definition new_failover (r : PartitionRouter) (c : Coordinator T R) (cfg : FailoverConfig) : manager :=
  mkFailover r c cfg new_migrator 0 0 [] [].

Definition with_migrator (m : PartitionMigrator) f : manager :=
  mkFailover (fm_router f) (fm_coordinator f) (fm_config f) m (failover_count_ f) (re_replication_count_ f)
    (async_threads_ f) (fired_ f).

Definition register_node (id : Z) f : manager := with_migrator (add_migration_node (migrator_ f) id) f.

(** One round of the loop of [run_re_replication]: always symbol 0. *)
Definition re_replicate (t : ReReplicationTarget) (e : FailoverEvent) f : FailoverEvent * manager :=
  let '(ok, _, m) := migrate_symbol select_reply replicate_reply (migrator_ f) 0 (new_primary t) (new_replica t) in
  let one := if ok : bool then 1 else 0 in
  (mkEvent (dead_node e) (affected_vnodes e) (re_replication e) (u64 (re_replication_attempted e + 1))
     (u64 (re_replication_succeeded e + one)),
   mkFailover (fm_router f) (fm_coordinator f) (fm_config f) m (failover_count_ f) (u64 (re_replication_count_ f + one))
     (async_threads_ f) (fired_ f)).

Fixpoint run_targets (ts : list ReReplicationTarget) (e : FailoverEvent) f : FailoverEvent * manager :=
  match ts with
  | [] => (e, f)
  | t :: ts => let '(e, f) := re_replicate t e f in run_targets ts e f
  end.

Definition run_re_replication (e : FailoverEvent) f : FailoverEvent * manager := run_targets (re_replication e) e f.

Definition fire (e : FailoverEvent) f : manager :=
  mkFailover (fm_router f) (fm_coordinator f) (fm_config f) (migrator_ f) (failover_count_ f) (re_replication_count_ f)
    (async_threads_ f) (fired_ f ++ [e]).

Definition set_async (ths : list (FailoverEvent * list ReReplicationTarget)) f : manager :=
  mkFailover (fm_router f) (fm_coordinator f) (fm_config f) (migrator_ f) (failover_count_ f) (re_replication_count_ f)
    ths (fired_ f).

Definition can_re_replicate (e : FailoverEvent) f : bool :=
  auto_re_replicate (fm_config f) && negb (bool_decide (length (re_replication e) = 0%nat)) &&
  forallb (λ t, has_node (migrator_ f) (new_primary t) && has_node (migrator_ f) (new_replica t)) (re_replication e).

Definition trigger_failover (dead : Z) f : FailoverEvent * manager :=
  let e := failover_event (fm_router f) dead in
  let f := mkFailover (PartitionRouter.remove_node (fm_router f) dead) (Coordinator.remove_node dead (fm_coordinator f)).2 (fm_config f)
             (migrator_ f) (u64 (failover_count_ f + 1)) (re_replication_count_ f) (async_threads_ f) (fired_ f) in
  if can_re_replicate e f then
    if async_re_replicate (fm_config f) then (e, set_async (async_threads_ f ++ [(e, re_replication e)]) f)
    else let '(e, f) := run_re_replication e f in (e, fire e f)
  else (e, fire e f).

(** The callback registered with the health monitor. *)
Definition failover_on_state_change (id : Z) (new_state : NodeState) f : manager :=
  if bool_decide (new_state = DEAD) then (trigger_failover id f).2 else f.

(** A round of thread [i], or its callbacks when it has done its targets. *)
Definition async_step (i : nat) f : manager :=
  match async_threads_ f !! i with
  | None => f
  | Some (e, t :: ts) =>
      let '(e, f) := re_replicate t e f in set_async (<[i := (e, ts)]> (async_threads_ f)) f
  | Some (e, []) => fire e (set_async (delete i (async_threads_ f)) f)
  end.

Inductive failover_op : Type :=
  | TriggerFailover (dead : Z)
  | NodeChanged (id : Z) (s : NodeState)
  | RegisterNode (id : Z)
  | ThreadRuns (i : nat).

Definition failover_step f (op : failover_op) : manager :=
  match op with
  | TriggerFailover dead => (trigger_failover dead f).2
  | NodeChanged id s => failover_on_state_change id s f
  | RegisterNode id => register_node id f
  | ThreadRuns i => async_step i f
  end.

(** The nodes that were declared dead, oldest first. *)
Definition declared_dead (op : failover_op) : list Z :=
  match op with TriggerFailover dead => [dead] | NodeChanged id DEAD => [id] | _ => [] end.
End Failover.

(** ** The targets of a failover *)

Lemma targets_primaries r dead seen moves :
  NoDup (new_primary <$> re_replication_targets r dead seen moves) ∧
  ∀ t, t ∈ re_replication_targets r dead seen moves →
    new_primary t ∉ seen ∧
    ∃ m, m ∈ moves ∧ move_from m = dead ∧ move_to m = new_primary t ∧ new_replica t = route_replica r (move_symbol m) ∧
         new_replica t ≠ INVALID_NODE_ID ∧ new_replica t ≠ new_primary t.
Proof.
  revert seen. induction moves as [|m moves IH]; intros seen; simpl; [split; [constructor|by intros t ?%not_elem_of_nil]|].
  case_bool_decide as Hfrom; simpl.
  2:{ destruct (IH seen) as [H1 H2]. split; [done|]. intros t Ht. destruct (H2 t Ht) as (? & m' & ? & ?). split; [done|].
      exists m'. split; [by right|done]. }
  case_bool_decide as Hseen.
  2:{ destruct (IH seen) as [H1 H2]. split; [done|]. intros t Ht. destruct (H2 t Ht) as (? & m' & ? & ?). split; [done|].
      exists m'. split; [by right|done]. }
  destruct (IH ({[move_to m]} ∪ seen)) as [H1 H2].
  assert (∀ t, t ∈ re_replication_targets r dead ({[move_to m]} ∪ seen) moves → new_primary t ∉ seen ∧
    ∃ m', m' ∈ m :: moves ∧ move_from m' = dead ∧ move_to m' = new_primary t ∧ new_replica t = route_replica r (move_symbol m') ∧
         new_replica t ≠ INVALID_NODE_ID ∧ new_replica t ≠ new_primary t) as Hrest.
  { intros t Ht. destruct (H2 t Ht) as (Hn & m' & ? & ?). split; [set_solver|]. exists m'. split; [by right|done]. }
  destruct (_ && _) eqn:Hkeep; [|done]. simpl.
  apply andb_prop in Hkeep as [Hi%negb_true_iff%Z.eqb_neq Hp%negb_true_iff%Z.eqb_neq]. split.
  - constructor; [|done]. intros (t & Heq & Ht)%list_elem_of_fmap. destruct (H2 t Ht) as [Hn _]. set_solver.
  - intros t [->|Ht]%elem_of_cons; [|by apply Hrest]. simpl. split; [done|]. exists m. split_and!; try done. apply list_elem_of_here.
Qed.

Lemma plan_remove_members r dead m :
  router_ok r → m ∈ plan_remove r dead →
  move_from m = dead ∧ move_to m ∈ node_set_ r ∧ move_to m ≠ dead.
Proof.
  intros Hok. unfold plan_remove. destruct (decide (dead ∈ node_set_ r)) as [Hin|]; [|by intros ?%not_elem_of_nil].
  case_match; [by intros ?%not_elem_of_nil|].
  intros (i & o & _ & Hf & ->)%deduplicate_sound%elem_of_plan_remove_moves. simpl. split; [done|].
  assert (router_ok (PartitionRouter.remove_node r dead)) as Hok' by (apply router_ok_remove; [by apply Hok|done]).
  apply (find_node_in _ _ _ (rok_ring _ Hok') (vnode_hash_range _ _)) in Hf. rewrite node_set_remove_node in Hf. set_solver.
Qed.

Lemma replica_member r s : router_ok r → route_replica r s ≠ INVALID_NODE_ID → route_replica r s ∈ node_set_ r.
Proof.
  intros Hok Hv. destruct (decide (2 <= size (node_set_ r))%nat) as [Hs|Hs].
  - destruct (replica_next r s Hok Hs) as (p & n & _ & -> & Hn & _). done.
  - exfalso. apply Hv. unfold route_replica. by rewrite (proj2 (Nat.ltb_lt _ _)) by lia.
Qed.

(** What a failover plans. When a node of a cluster is declared dead, every
    re-replication target copies between two different members that remain, from a
    node that takes over some of the dead node's symbols, and no node is the
    source of two targets. *)
Theorem failover_targets r dead :
  router_ok r →
  let e := failover_event r dead in
  NoDup (new_primary <$> re_replication e) ∧
  ∀ t, t ∈ re_replication e →
    new_primary t ∈ node_set_ r ∖ {[dead]} ∧ new_replica t ∈ node_set_ r ∖ {[dead]} ∧ new_primary t ≠ new_replica t ∧
    ∃ m, m ∈ plan_remove r dead ∧ move_to m = new_primary t.
Proof.
  intros Hok e. subst e. unfold failover_event. cbn [re_replication].
  destruct (2 <=? _)%nat; [|split; [constructor|by intros t ?%not_elem_of_nil]].
  destruct (targets_primaries (PartitionRouter.remove_node r dead) dead ∅ (plan_remove r dead)) as [Hnd Ht].
  split; [done|]. intros t Hin. destruct (Ht t Hin) as (_ & m & Hm & _ & Hto & Hrep & Hv & Hne).
  destruct (plan_remove_members r dead m Hok Hm) as (_ & Hmem & Hd).
  split_and!; [by rewrite <- Hto, elem_of_difference, elem_of_singleton| |congruence|by exists m].
  destruct (decide (dead ∈ node_set_ r)) as [Hdead|Hdead].
  - rewrite <- node_set_remove_node, Hrep. apply replica_member; [|congruence].
    apply router_ok_remove; [by apply Hok|done].
  - exfalso. unfold plan_remove in Hm. rewrite decide_False in Hm by done. by apply not_elem_of_nil in Hm.
Qed.

(** ** Every failover is reported, and only symbol 0 is copied *)

Section FailoverFacts.
Context {T R : Type} {HT : Pipeline T} {HR : Network R}.
Context (select_reply : list remote_call → Z → Z → QueryResult)
  (replicate_reply : list remote_call → Z → list TickMessage → bool).
Notation manager := (FailoverManager T R).
Implicit Types f : manager.

Notation failover_step := (failover_step select_reply replicate_reply).

Definition of_symbol (s : Z) (c : remote_call) : Prop :=
  match c with
  | CallSelect _ symbol _ | CallDelete _ symbol => symbol = s
  | CallReplicate _ batch _ => Forall (λ t, symbol_id t = s) batch
  end.

(** What a thread has done of its targets. *)
Definition progressed (e : FailoverEvent) (todo : list ReReplicationTarget) : Prop :=
  ∃ done_, re_replication e = done_ ++ todo ∧ re_replication_attempted e = u64 (Z.of_nat (length done_)).

(** [dead] are the nodes declared dead so far. *)
Record failover_ok (dead : list Z) f : Prop := {
  fo_count : failover_count_ f = u64 (Z.of_nat (length dead));
  fo_reported : dead_node <$> (fired_ f ++ (async_threads_ f).*1) ≡ₚ dead;
  fo_threads : Forall (λ th, progressed th.1 th.2) (async_threads_ f);
  fo_fired : Forall (λ e, re_replication_attempted e = 0 ∨ progressed e []) (fired_ f);
  fo_copied : Forall (of_symbol 0) (sent_ (migrator_ f));
}.

Lemma migrate_symbol_calls m s from to ok n m' :
  migrate_symbol select_reply replicate_reply m s from to = (ok, n, m') → 0 <= s < 2 ^ 32 →
  Forall (of_symbol s) (sent_ m) → Forall (of_symbol s) (sent_ m').
Proof.
  intros Hm Hs Hf.
  assert (∀ cols (rs : list (list Z)), Forall (λ t, symbol_id t = s) (tick_of_row cols s <$> rs)) as Hb.
  { intros cols rs. apply Forall_fmap, Forall_true. intros row. by apply wrap_small. }
  unfold migrate_symbol in Hm. destruct (_ && _); [|by simplify_eq].
  set (r := select_reply _ _ _) in Hm.
  assert (Forall (of_symbol s) (sent_ m ++ [CallSelect from s r])) as Hf' by (by apply Forall_app_2, Forall_singleton).
  destruct (q_ok r); [|by simplify_eq/=]. cbn [negb] in Hm. specialize (Hb (Migration.column_names r) (Migration.rows r)).
  destruct (Migration.rows r) as [|row rs]; [by simplify_eq/=|].
  revert Hm Hb. generalize (tick_of_row (Migration.column_names r) s <$> row :: rs). intros batch Hm Hb.
  destruct (replicate_reply _ _ _); simplify_eq/=; (apply Forall_app_2; [done|by apply Forall_singleton]).
Qed.

Lemma re_replicate_spec t e f e' f' todo :
  re_replicate select_reply replicate_reply t e f = (e', f') →
  dead_node e' = dead_node e ∧ (progressed e (t :: todo) → progressed e' todo) ∧ re_replication e' = re_replication e ∧
  async_threads_ f' = async_threads_ f ∧ fired_ f' = fired_ f ∧ failover_count_ f' = failover_count_ f ∧
  (Forall (of_symbol 0) (sent_ (migrator_ f)) → Forall (of_symbol 0) (sent_ (migrator_ f'))).
Proof.
  unfold re_replicate. destruct (migrate_symbol _ _ _ _ _ _) as [[ok n] m] eqn:Hm. intros. simplify_eq/=.
  split_and!; try done.
  - intros (d & Hd & Ha). exists (d ++ [t]). simpl. rewrite <- app_assoc, Ha, length_app. split; [done|].
    unfold wrap. rewrite Z.add_mod_idemp_l by lia. f_equal. simpl. lia.
  - eapply migrate_symbol_calls; [exact Hm|lia].
Qed.

Lemma run_targets_spec ts e f e' f' :
  run_targets select_reply replicate_reply ts e f = (e', f') →
  dead_node e' = dead_node e ∧ (progressed e ts → progressed e' []) ∧
  async_threads_ f' = async_threads_ f ∧ fired_ f' = fired_ f ∧ failover_count_ f' = failover_count_ f ∧
  (Forall (of_symbol 0) (sent_ (migrator_ f)) → Forall (of_symbol 0) (sent_ (migrator_ f'))).
Proof.
  revert e f. induction ts as [|t ts IH]; intros e f Hr; simpl in Hr; [by simplify_eq|].
  destruct (re_replicate _ _ t e f) as [e1 f1] eqn:H1.
  destruct (re_replicate_spec _ _ _ _ _ ts H1) as (? & ? & _ & ? & ? & ? & ?).
  destruct (IH _ _ Hr) as (? & ? & ? & ? & ? & ?). split_and!; try congruence; auto.
Qed.

Lemma reported_snoc (fired running : list FailoverEvent) e :
  dead_node <$> ((fired ++ [e]) ++ running) ≡ₚ (dead_node <$> (fired ++ running)) ++ [dead_node e].
Proof. rewrite !fmap_app. simpl. by rewrite <- !app_assoc, (Permutation_app_comm [dead_node e]). Qed.

Lemma failover_ok_trigger dead f id : failover_ok dead f → failover_ok (dead ++ [id]) (trigger_failover select_reply replicate_reply id f).2.
Proof.
  intros [H1 H2 H3 H4 H5].
  assert (failover_count_ f = u64 (Z.of_nat (length dead)) → u64 (failover_count_ f + 1) = u64 (Z.of_nat (length (dead ++ [id])))) as Hcount.
  { intros ->. unfold wrap. rewrite Z.add_mod_idemp_l, length_app by lia. f_equal. simpl. lia. }
  unfold trigger_failover. set (e := failover_event (fm_router f) id). set (f1 := mkFailover _ _ _ _ _ _ _ _).
  assert (progressed e (re_replication e)) as Hp by by exists [].
  destruct (can_re_replicate e f1); [destruct (async_re_replicate _)|].
  - split; simpl; [by apply Hcount| | |done|done].
    + by rewrite (fmap_app fst), app_assoc, (fmap_app dead_node), H2.
    + apply Forall_app_2; [done|]. by apply Forall_singleton.
  - destruct (run_re_replication _ _ e f1) as [e' f'] eqn:Hr.
    destruct (run_targets_spec _ _ _ _ _ Hr) as (Hd & Hpr & Ht & Hf & Hc & Hs).
    split; simpl; rewrite ?Ht, ?Hf, ?Hc; simpl; auto.
    + by rewrite reported_snoc, H2, Hd.
    + apply Forall_app_2; [done|]. apply Forall_singleton. auto.
  - split; simpl; auto.
    + by rewrite reported_snoc, H2.
    + apply Forall_app_2; [done|]. apply Forall_singleton. by left.
Qed.

Lemma failover_ok_async dead f i : failover_ok dead f → failover_ok dead (async_step select_reply replicate_reply i f).
Proof.
  intros [H1 H2 H3 H4 H5]. unfold async_step. destruct (async_threads_ f !! i) as [[e [|t ts]]|] eqn:Hi; [| |by split].
  - rewrite Forall_lookup in H3. pose proof (H3 _ _ Hi) as Hp. simpl in Hp.
    split; simpl; [done| | | |done].
    + rewrite reported_snoc, <- H2, !fmap_app, <- app_assoc. f_equiv.
      rewrite <- Permutation_cons_append. symmetry.
      exact (fmap_Permutation dead_node _ _ (fmap_Permutation fst _ _ (delete_Permutation (async_threads_ f) i _ Hi))).
    + rewrite Forall_lookup. intros j x Hj. rewrite list_lookup_delete in Hj. case_decide; eauto.
    + apply Forall_app_2; [done|]. apply Forall_singleton. by right.
  - destruct (re_replicate _ _ t e f) as [e' f'] eqn:Hr.
    destruct (re_replicate_spec _ _ _ _ _ ts Hr) as (Hd & Hp & _ & Ht & Hf & Hc & Hs).
    rewrite Forall_lookup in H3. pose proof (H3 _ _ Hi) as Hth. simpl in Hth.
    split; simpl; rewrite ?Hf, ?Hc; auto.
    + rewrite Ht, <- H2. apply reflexive_eq. rewrite !fmap_app. f_equal. rewrite !list_fmap_insert. simpl. rewrite Hd.
      apply list_insert_id. by rewrite !list_lookup_fmap, Hi.
    + rewrite Ht. apply Forall_insert; [by apply Forall_lookup|]. simpl. auto.
Qed.

Lemma failover_ok_step dead f op : failover_ok dead f → failover_ok (dead ++ declared_dead op) (failover_step f op).
Proof.
  intros Hf. destruct op as [id|id s|id|i]; simpl.
  - by apply failover_ok_trigger.
  - unfold failover_on_state_change. destruct s; simpl; rewrite ?app_nil_r; try done. by apply failover_ok_trigger.
  - rewrite app_nil_r. destruct Hf. by split.
  - rewrite app_nil_r. by apply failover_ok_async.
Qed.

Lemma failover_ok_run r c cfg ops :
  failover_ok (ops ≫= declared_dead) (foldl failover_step (new_failover r c cfg) ops).
Proof.
  induction ops as [|op ops IH] using rev_ind; [by split|].
  rewrite bind_app, foldl_snoc. simpl. rewrite app_nil_r. by apply failover_ok_step.
Qed.

(** *** Background threads finish *)

Definition async_round : relation manager := λ f f', ∃ i, is_Some (async_threads_ f !! i) ∧ f' = async_step select_reply replicate_reply i f.

(** The rounds that are left: one per target, and one for the callbacks. *)
Definition work f : nat := sum_list ((λ th, S (length th.2)) <$> async_threads_ f).

Lemma work_zero f : work f = 0%nat ↔ async_threads_ f = [].
Proof. unfold work. destruct (async_threads_ f) as [|th ths]; simpl; [done|]. split; [lia|done]. Qed.

Lemma sum_list_at (l : list nat) i x : l !! i = Some x → sum_list l = (x + sum_list (delete i l))%nat.
Proof.
  revert i. induction l as [|y l IH]; intros [|i] Hi; simplify_eq/=; [done|]. rewrite (IH i Hi).
  change (sum_list (y :: delete i l)) with (y + sum_list (delete i l))%nat. lia.
Qed.

Lemma sum_list_insert (l : list nat) i x y : l !! i = Some x → (sum_list (<[i:=y]> l) + x = sum_list l + y)%nat.
Proof. revert i. induction l as [|z l IH]; intros [|i] Hi; simplify_eq/=; [lia|]. specialize (IH i Hi). lia. Qed.

Lemma thread_step_work f f' : async_round f f' → work f = S (work f').
Proof.
  intros (i & [[e ts] Hi] & ->). unfold async_step. rewrite Hi.
  assert (((λ th : FailoverEvent * list ReReplicationTarget, S (length th.2)) <$> async_threads_ f) !! i = Some (S (length ts))) as Hl
    by (by rewrite list_lookup_fmap, Hi).
  unfold work. destruct ts as [|t ts]; simpl.
  - by rewrite (sum_list_at _ i _ Hl), list_fmap_delete.
  - destruct (re_replicate _ _ t e f) as [e' f'] eqn:Hr. destruct (re_replicate_spec _ _ _ _ _ ts Hr) as (_ & _ & _ & Ht & _).
    simpl. rewrite Ht, list_fmap_insert. simpl.
    pose proof (sum_list_insert _ i _ (S (length ts)) Hl) as Hsum. simpl in *. lia.
Qed.

Lemma thread_steps_ok dead k f f' : failover_ok dead f → nsteps async_round k f f' → failover_ok dead f' ∧ work f = (k + work f')%nat.
Proof.
  intros Hok Hk. induction Hk as [f|k f f1 f' Hstep _ IH]; [done|].
  pose proof (thread_step_work _ _ Hstep) as Hw. destruct Hstep as (i & _ & ->).
  destruct (IH (failover_ok_async _ _ i Hok)) as [Hf' Hw']. split; [done|]. lia.
Qed.

(** C19. Every failover is reported, once. Whatever failovers happened and however
    the background threads were scheduled, the threads end: after as many of their
    rounds as there are targets and callbacks left, in any order, none is running,
    and before that one can go on. Then the callbacks have received exactly one
    event per node that was declared dead, whose targets were all attempted, or
    none of them. *)
Theorem failovers_reported r c cfg ops k f' :
  let f := foldl failover_step (new_failover r c cfg) ops in
  nsteps async_round k f f' →
  (k <= work f)%nat ∧
  (k < work f → ∃ f'', async_round f' f'')%nat ∧
  (k = work f → async_threads_ f' = [] ∧ dead_node <$> fired_ f' ≡ₚ ops ≫= declared_dead ∧
     ∀ e, e ∈ fired_ f' → re_replication_attempted e = 0 ∨ re_replication_attempted e = u64 (Z.of_nat (length (re_replication e)))).
Proof.
  intros f Hk. destruct (thread_steps_ok _ _ _ _ (failover_ok_run r c cfg ops) Hk) as [[_ Hrep _ Hfired _] Hw]. fold f in Hw.
  split_and!; [lia| |].
  - intros Hlt. destruct (async_threads_ f') as [|th ths] eqn:He.
    + apply work_zero in He. lia.
    + exists (async_step select_reply replicate_reply 0 f'), 0%nat. rewrite He. split; [by eexists|done].
  - intros ->. assert (async_threads_ f' = []) as He by (apply work_zero; lia).
    rewrite He, app_nil_r in Hrep. split_and!; [done|done|].
    intros e Hin. rewrite Forall_forall in Hfired. destruct (Hfired e Hin) as [|(d & Hd & Ha)]; [by left|].
    right. by rewrite Hd, app_nil_r.
Qed.

(** A failover copies the rows of symbol 0 only. Whatever the plan, the remote
    calls of re-replication read and send nothing but symbol 0, so that the other
    symbols of a dead node are left with one copy. *)
Theorem failover_copies_symbol_zero r (c : Coordinator T R) cfg ops :
  Forall (of_symbol 0) (sent_ (migrator_ (foldl failover_step (new_failover r c cfg) ops))).
Proof. apply (fo_copied _ _ (failover_ok_run r c cfg ops)). Qed.
End FailoverFacts.

(** ** Examples *)

Definition three_nodes : PartitionRouter := foldl run_op empty_router [OpAdd 1; OpAdd 2; OpAdd 3].

Lemma three_nodes_ok : router_ok three_nodes.
Proof. apply router_ok_run; [|apply router_ok_empty]. repeat constructor; simpl; lia. Qed.

Lemma failover_targets_witness :
  ∃ t, t ∈ re_replication (failover_event three_nodes 1) ∧ new_replica t ∈ node_set_ three_nodes ∖ {[1]} ∧ new_primary t ≠ new_replica t.
Proof.
  exists (mkTarget 2 3). assert (mkTarget 2 3 ∈ re_replication (failover_event three_nodes 1)) as Hin.
  { assert (re_replication (failover_event three_nodes 1) = [mkTarget 2 3; mkTarget 3 2]) as -> by (vm_compute; reflexivity). by left. }
  split; [exact Hin|].
  destruct (failover_targets three_nodes 1 three_nodes_ok) as [_ Ht]. destruct (Ht _ Hin) as (_ & H2 & H3 & _).
  split; [exact H2|exact H3].
Defined.

(** A failover can leave data without a replica. In a cluster of three nodes the
    death of node 3 promotes the two others, and no re-replication is planned for
    either: the replica is looked up for a symbol computed from a ring position,
    which another node may own, and a target whose replica is the promoted node
    itself is dropped. *)
Theorem failover_skips_promoted :
  move_to <$> plan_remove three_nodes 3 = [2; 1] ∧ re_replication (failover_event three_nodes 3) = [].
Proof. split; vm_compute; reflexivity. Qed.

Definition no_rows : list remote_call → Z → Z → QueryResult := λ _ _ _, mkResult true [] [].
Definition accepts : list remote_call → Z → list TickMessage → bool := λ _ _ _, true.
Notation demo_manager := (FailoverManager script_node (Z → list (string * QueryResultSet))).
Definition demo_round : demo_manager → demo_manager := async_step no_rows accepts 0.
Definition demo_coordinator : Coordinator script_node (Z → list (string * QueryResultSet)) :=
  new_coordinator (λ p, mkScript demo_table [] true) (λ _, []).
Notation demo_failover ops :=
  (foldl (failover_step no_rows accepts) (new_failover three_nodes demo_coordinator default_failover_config) ops).
Notation demo_step := (async_round (T:=script_node) (R:=Z → list (string * QueryResultSet)) no_rows accepts).

Lemma demo_round_step (f : demo_manager) : (0 < length (async_threads_ f))%nat → demo_step f (demo_round f).
Proof. intros Hf. exists 0%nat. split; [by apply lookup_lt_is_Some_2|reflexivity]. Qed.

Lemma demo_rounds (f : demo_manager) :
  (0 < length (async_threads_ f))%nat → (0 < length (async_threads_ (demo_round f)))%nat →
  (0 < length (async_threads_ (demo_round (demo_round f))))%nat → nsteps demo_step 3 f (demo_round (demo_round (demo_round f))).
Proof. intros H1 H2 H3. do 3 (eapply nsteps_l; [by apply demo_round_step|]). constructor. Qed.

Lemma failovers_reported_witness :
  ∃ f', nsteps demo_step 3 (demo_failover [RegisterNode 2; RegisterNode 3; TriggerFailover 1]) f' ∧ async_threads_ f' = [] ∧
    dead_node <$> fired_ f' ≡ₚ [1].
Proof.
  assert (∃ f', nsteps demo_step 3 (demo_failover [RegisterNode 2; RegisterNode 3; TriggerFailover 1]) f') as [f' Hn].
  { eexists. apply demo_rounds; vm_compute; repeat constructor. }
  exists f'. split; [exact Hn|].
  destruct (failovers_reported no_rows accepts three_nodes demo_coordinator default_failover_config
    [RegisterNode 2; RegisterNode 3; TriggerFailover 1] 3 f' Hn) as (_ & _ & Hend).
  destruct Hend as (He & Hf & _); [vm_compute; reflexivity|]. split; [exact He|exact Hf].
Defined.
