(* ===== verification/Snapshot.v ===== *)
(** * Cluster snapshots

    Models [include/zeptodb/cluster/snapshot_coordinator.h] and
    [src/cluster/snapshot_coordinator.cpp]: a two-phase commit over the nodes.
    A node is a parameter: the class [Participant] says whether a statement reaches
    it and how it answers. The calls of a phase run in parallel, one per node, so
    that each node sees its own statements in order and no order between nodes
    matters; [received] are the statements that reached a node, oldest first. *)

From S2P Require Import Prelude.
From S2P Require Import Text.
From S2P Require Import ColumnStore.
From S2P Require Import StringDictionary.
From S2P Require Import PartialAgg.
From S2P Require Import Tokenizer.
From S2P Require Import Literals.
From S2P Require Import Parser.
From stdpp Require Import base list strings.
From Stdlib Require Import ZArith Lia Ascii.

Open Scope Z_scope.

(** ** Data *)

Record SnapshotNodeResult : Type := mkNodeResult {
  sn_node_id : Z;
  sn_success : bool;
  sn_error : string;
  rows_flushed : Z;
}.

Record SnapshotResult : Type := mkSnapshot {
  snapshot_ts : Z;
  snapshot_id : Z;
  snapshot_nodes : list SnapshotNodeResult;
}.

Definition all_ok (r : SnapshotResult) : bool :=
  forallb sn_success (snapshot_nodes r) && negb (bool_decide (length (snapshot_nodes r) = 0%nat)).

(** A [size_t]. *)
Definition total_rows (r : SnapshotResult) : Z := foldl (λ t n, u64 (t + rows_flushed n)) 0 (snapshot_nodes r).

(** What a call to a node comes to: nothing when [TcpRpcClient::execute_sql] cannot
    connect or send, else the result it returns, which is an error also when the
    answer does not arrive. *)
Class Participant (N : Type) : Type := { node_execute : string → N → option QueryResultSet * N }.

Record NodeEntry (N : Type) : Type := mkNode { entry_id : Z; entry_node : N; received : list string }.
Arguments mkNode {N}.
Arguments entry_id {N}.
Arguments entry_node {N}.
Arguments received {N}.

Record SnapshotCoordinator (N : Type) : Type := mkSnapCoordinator {
  snap_nodes_ : list (NodeEntry N);
  prepare_timeout_ms_ : Z;
  snapshot_seq_ : Z;
}.
Arguments mkSnapCoordinator {N}.
Arguments snap_nodes_ {N}.
Arguments prepare_timeout_ms_ {N}.
Arguments snapshot_seq_ {N}.

(** ** Operations *)

Section Snapshot.
Context {N : Type} {HN : Participant N}.
Notation coordinator := (SnapshotCoordinator N).
Implicit Types (c : coordinator) (n : NodeEntry N).

Definition new_snapshot_coordinator : coordinator := mkSnapCoordinator [] 10000 0.

Definition add_snapshot_node (id : Z) (node : N) c : coordinator :=
  mkSnapCoordinator (snap_nodes_ c ++ [mkNode id node []]) (prepare_timeout_ms_ c) (snapshot_seq_ c).

Definition set_prepare_timeout_ms (ms : Z) c : coordinator := mkSnapCoordinator (snap_nodes_ c) ms (snapshot_seq_ c).

Definition next_snapshot_id c : Z * coordinator :=
  let id := u64 (snapshot_seq_ c + 1) in (id, mkSnapCoordinator (snap_nodes_ c) (prepare_timeout_ms_ c) id).

Definition call_node (cmd : string) n : QueryResultSet * NodeEntry N :=
  match node_execute cmd (entry_node n) with
  | (Some r, node) => (r, mkNode (entry_id n) node (received n ++ [cmd]))
  | (None, node) => (error_result "TcpRpcClient: cannot connect", mkNode (entry_id n) node (received n))
  end.

(** A phase: one call per node, and the results in the order of the nodes. *)
Definition call_all (cmd : string) (result : Z → QueryResultSet → SnapshotNodeResult) c : list SnapshotNodeResult * coordinator :=
  let calls := call_node cmd <$> snap_nodes_ c in
  (zip_with (λ n p, result (entry_id n) p.1) (snap_nodes_ c) calls,
   mkSnapCoordinator calls.*2 (prepare_timeout_ms_ c) (snapshot_seq_ c)).

Definition prepare_result (id : Z) (r : QueryResultSet) : SnapshotNodeResult := mkNodeResult id (ok r) (error r) 0.

Definition commit_result (id : Z) (r : QueryResultSet) : SnapshotNodeResult :=
  if ok r then mkNodeResult id true "" (match rows r with (v :: _) :: _ => v | _ => 0 end)
  else mkNodeResult id false (error r) 0.

Definition snapshot_command (verb : string) (sid : Z) : string := "SNAPSHOT " +:+ verb +:+ " " +:+ to_string sid.

(** What the nodes answer is ignored. *)
Definition send_abort (sid : Z) c : coordinator := (call_all (snapshot_command "ABORT" sid) prepare_result c).2.

(** [now] is the clock's reading. *)
Definition take_snapshot (now : Z) c : SnapshotResult * coordinator :=
  let '(sid, c) := next_snapshot_id c in
  let '(prepared, c) := call_all (snapshot_command "PREPARE" sid) prepare_result c in
  if negb (forallb sn_success prepared) then (mkSnapshot now sid prepared, send_abort sid c)
  else
    let '(committed, c) := call_all (snapshot_command "COMMIT" sid) commit_result c in
    (mkSnapshot now sid committed, c).

Definition take_snapshot_legacy (now : Z) c : SnapshotResult * coordinator :=
  let '(sid, c) := next_snapshot_id c in
  let '(results, c) := call_all "SNAPSHOT" commit_result c in (mkSnapshot now sid results, c).
End Snapshot.

(** ** What the nodes receive *)

(** The statements of the rounds between two sequence numbers. *)
Inductive rounds : Z → Z → list string → Prop :=
  | rounds_none s : rounds s s []
  | rounds_committed s s' l : rounds s s' l → let id := u64 (s' + 1) in
      rounds s id (l ++ [snapshot_command "PREPARE" id; snapshot_command "COMMIT" id])
  | rounds_aborted s s' l : rounds s s' l → let id := u64 (s' + 1) in
      rounds s id (l ++ [snapshot_command "PREPARE" id; snapshot_command "ABORT" id])
  | rounds_legacy s s' l : rounds s s' l → rounds s (u64 (s' + 1)) (l ++ ["SNAPSHOT"%string]).

Section SnapshotFacts.
Context {N : Type} {HN : Participant N}.
Notation coordinator := (SnapshotCoordinator N).
Implicit Types (c : coordinator) (n : NodeEntry N).

(** A node that is called with [cmds]: what reaches it, and its state then. *)
Fixpoint heard (cmds : list string) (node : N) : list string * N :=
  match cmds with
  | [] => ([], node)
  | cmd :: cmds =>
      let '(r, node) := node_execute cmd node in
      let '(l, node) := heard cmds node in
      (match r with Some _ => cmd :: l | None => l end, node)
  end.

(** The same nodes, each of which has been called with [cmds]. *)
Definition sent (cmds : list string) c c' : Prop :=
  Forall2 (λ n n', entry_id n' = entry_id n ∧ received n' = received n ++ (heard cmds (entry_node n)).1 ∧
    entry_node n' = (heard cmds (entry_node n)).2) (snap_nodes_ c) (snap_nodes_ c').

Lemma heard_app l1 l2 node : heard (l1 ++ l2) node =
  ((heard l1 node).1 ++ (heard l2 (heard l1 node).2).1, (heard l2 (heard l1 node).2).2).
Proof.
  revert node. induction l1 as [|cmd l1 IH]; intros node; simpl; [by destruct (heard l2 node)|].
  destruct (node_execute cmd node) as [r node']. rewrite IH. destruct (heard l1 node') as [l n]. by destruct r.
Qed.

Lemma sent_nil c : sent [] c c.
Proof. unfold sent. induction (snap_nodes_ c); constructor; [|done]. by rewrite app_nil_r. Qed.

Lemma sent_app l1 l2 c1 c2 c3 : sent l1 c1 c2 → sent l2 c2 c3 → sent (l1 ++ l2) c1 c3.
Proof.
  unfold sent. generalize (snap_nodes_ c1), (snap_nodes_ c2), (snap_nodes_ c3). intros n1 n2 n3 H12.
  revert n3. induction H12 as [|x y n1 n2 (Hi & Hr & Hn) _ IH]; intros n3 H23;
    inversion H23 as [|? z ? n3' (Hi' & Hr' & Hn') Hrest]; subst; constructor; [|by apply IH].
  rewrite heard_app. simpl. split; [congruence|]. rewrite Hr', Hr, Hn', <- app_assoc, Hn. done.
Qed.

Lemma call_all_spec cmd result c rs c' : call_all cmd result c = (rs, c') →
  sent [cmd] c c' ∧ snapshot_seq_ c' = snapshot_seq_ c ∧
  rs = (λ n, result (entry_id n) (call_node cmd n).1) <$> snap_nodes_ c.
Proof.
  unfold call_all, sent. intros [= <- <-]. simpl. split_and!; [|done|].
  - induction (snap_nodes_ c) as [|n l IH]; constructor; [|done]. unfold call_node. simpl.
    destruct (node_execute cmd (entry_node n)) as [[r|] node]; simpl; by rewrite ?app_nil_r.
  - induction (snap_nodes_ c) as [|n l IH]; [done|]. simpl. by f_equal.
Qed.

(** PREPARE reaches the node, and the answer has no error. *)
Definition prepares (sid : Z) n : bool :=
  match (node_execute (snapshot_command "PREPARE" sid) (entry_node n)).1 with Some r => ok r | None => false end.

Lemma call_prepares sid n : ok (call_node (snapshot_command "PREPARE" sid) n).1 = prepares sid n.
Proof. unfold call_node, prepares. by destruct (node_execute _ _) as [[r|] node]. Qed.

(** A call that is answered without an error reached the node. *)
Lemma answered_heard cmd n : ok (call_node cmd n).1 = true → (heard [cmd] (entry_node n)).1 = [cmd].
Proof. unfold call_node. simpl. by destruct (node_execute _ _) as [[r|] node]. Qed.

Lemma forallb_fmap {A B} (f : A → B) (p : B → bool) l : forallb p (f <$> l) = forallb (p ∘ f) l.
Proof. induction l as [|x l IH]; [done|]. csimpl. by rewrite IH. Qed.

(** When every call of a phase succeeds, it reached every node. *)
Lemma all_answered cmd result c rs c' : call_all cmd result c = (rs, c') →
  (∀ id r, sn_success (result id r) = ok r) → forallb sn_success rs = true →
  Forall (λ n, (heard [cmd] (entry_node n)).1 = [cmd]) (snap_nodes_ c).
Proof.
  intros H Hres Hall. destruct (call_all_spec _ _ _ _ _ H) as (_ & _ & ->). rewrite forallb_fmap in Hall.
  apply Forall_forall. intros n Hn. apply answered_heard. rewrite <- (Hres (entry_id n)).
  rewrite forallb_forall in Hall. apply Hall. by apply list_elem_of_In.
Qed.

Lemma commit_success id r : sn_success (commit_result id r) = ok r.
Proof. unfold commit_result. by destruct (ok r). Qed.

(** Two phases that both reach every node. *)
Lemma heard_both cmd1 cmd2 c c1 : sent [cmd1] c c1 →
  Forall (λ n, (heard [cmd1] (entry_node n)).1 = [cmd1]) (snap_nodes_ c) →
  Forall (λ n, (heard [cmd2] (entry_node n)).1 = [cmd2]) (snap_nodes_ c1) →
  Forall (λ n, (heard [cmd1; cmd2] (entry_node n)).1 = [cmd1; cmd2]) (snap_nodes_ c).
Proof.
  unfold sent. intros Hs H1 H2. induction Hs as [|n n' l l' (_ & _ & Hn) _ IH]; [constructor|].
  apply Forall_cons in H1 as [H1 H1']. apply Forall_cons in H2 as [H2 H2']. constructor; [|by apply IH].
  change [cmd1; cmd2] with ([cmd1] ++ [cmd2]). rewrite heard_app. cbn [fst]. by rewrite H1, <- Hn, H2.
Qed.

(** A round of the protocol. *)
Lemma snapshot_round now c r c' :
  take_snapshot now c = (r, c') →
  let sid := u64 (snapshot_seq_ c + 1) in
  let prepared := forallb (prepares sid) (snap_nodes_ c) in
  let cmds := [snapshot_command "PREPARE" sid; snapshot_command (if prepared then "COMMIT" else "ABORT") sid] in
  snapshot_id r = sid ∧ snapshot_seq_ c' = sid ∧ sent cmds c c' ∧
  sn_node_id <$> snapshot_nodes r = entry_id <$> snap_nodes_ c ∧
  (prepared = true → Forall (λ n, (heard (take 1 cmds) (entry_node n)).1 = take 1 cmds) (snap_nodes_ c)) ∧
  (all_ok r = true → prepared = true ∧ snap_nodes_ c ≠ [] ∧ Forall (λ n, (heard cmds (entry_node n)).1 = cmds) (snap_nodes_ c)).
Proof.
  unfold take_snapshot, next_snapshot_id. set (sid := u64 _). set (c0 := mkSnapCoordinator _ _ sid).
  destruct (call_all _ prepare_result c0) as [ps c1] eqn:H1. destruct (call_all_spec _ _ _ _ _ H1) as (Hs1 & Hq1 & Hps).
  assert (forallb sn_success ps = forallb (prepares sid) (snap_nodes_ c)) as Hprep.
  { rewrite Hps, forallb_fmap. simpl. clear. induction (snap_nodes_ c) as [|n l IH]; [done|]. simpl. by rewrite IH, call_prepares. }
  pose proof (all_answered _ _ _ _ _ H1 (λ _ _, eq_refl)) as Hheard. rewrite Hprep in Hheard |- *.
  intros Hr. cbv zeta. destruct (forallb (prepares sid) (snap_nodes_ c)) eqn:Hp.
  - destruct (call_all _ commit_result c1) as [cs c2] eqn:H2. destruct (call_all_spec _ _ _ _ _ H2) as (Hs2 & Hq2 & Hcs).
    simplify_eq/=. split_and!; [done|congruence|by apply (sent_app [_] [_] _ c1)| |by intros _; apply Hheard|].
    + rewrite <- list_fmap_compose. transitivity (entry_id <$> snap_nodes_ c1).
      * apply list_fmap_ext. intros i n _. simpl. unfold commit_result. by destruct (ok _).
      * symmetry. unfold sent in Hs1. clear -Hs1. simpl in Hs1. induction Hs1 as [|n n' l l' [He _] _ IH]; [done|]. csimpl. by rewrite He, IH.
    + unfold all_ok. simpl. intros [Hall Hne]%andb_prop. split; [done|]. split.
      * intros Hnil. unfold sent in Hs1. simpl in Hs1. rewrite Hnil in Hs1. apply Forall2_nil_inv_l in Hs1. by rewrite Hs1 in Hne.
      * apply (heard_both _ _ _ c1 Hs1 (Hheard eq_refl)). by apply (all_answered _ _ _ _ _ H2 commit_success).
  - destruct (call_all (snapshot_command "ABORT" sid) prepare_result c1) as [as_ c2] eqn:H2.
    destruct (call_all_spec _ _ _ _ _ H2) as (Hs2 & Hq2 & _). unfold send_abort in Hr. rewrite H2 in Hr. simplify_eq/=.
    split_and!; [done|congruence|by apply (sent_app [_] [_] _ c1)| |done|].
    + rewrite <- list_fmap_compose. by apply list_fmap_ext.
    + unfold all_ok. simpl. intros [Hall _]%andb_prop. congruence.
Qed.

(** C20. A snapshot is taken on all nodes or on none. Every node is called with
    PREPARE and then, all nodes alike, with COMMIT when every node answered PREPARE
    without an error and with ABORT otherwise, under the same new id; a node hears
    those of its two calls that reach it. When nodes are told to commit, PREPARE
    reached every node; and the snapshot is reported as complete only if both
    statements reached every node. *)
Theorem snapshot_two_phase now c r c' :
  take_snapshot now c = (r, c') →
  let sid := u64 (snapshot_seq_ c + 1) in
  let prepared := forallb (prepares sid) (snap_nodes_ c) in
  let cmds := [snapshot_command "PREPARE" sid; snapshot_command (if prepared then "COMMIT" else "ABORT") sid] in
  snapshot_id r = sid ∧ snapshot_seq_ c' = sid ∧ sent cmds c c' ∧
  sn_node_id <$> snapshot_nodes r = entry_id <$> snap_nodes_ c ∧
  (prepared = true → Forall (λ n, (heard (take 1 cmds) (entry_node n)).1 = take 1 cmds) (snap_nodes_ c)) ∧
  (all_ok r = true → prepared = true ∧ snap_nodes_ c ≠ [] ∧ Forall (λ n, (heard cmds (entry_node n)).1 = cmds) (snap_nodes_ c)).
Proof. apply snapshot_round. Qed.

(** *** A sequence of snapshots *)

Inductive snapshot_op : Type := TakeSnapshot (now : Z) | TakeLegacy (now : Z) | SetTimeout (ms : Z).

Definition snapshot_step c (op : snapshot_op) : coordinator :=
  match op with
  | TakeSnapshot now => (take_snapshot now c).2
  | TakeLegacy now => (take_snapshot_legacy now c).2
  | SetTimeout ms => set_prepare_timeout_ms ms c
  end.

(** All nodes share one history. Whatever snapshots are taken and whatever the
    nodes answer, each node has been called with the same statements in the same order:
    rounds of PREPARE and COMMIT or of PREPARE and ABORT with increasing ids, and
    single SNAPSHOT statements. *)
Theorem snapshots_share_history ops c :
  ∃ log, sent log c (foldl snapshot_step c ops) ∧ rounds (snapshot_seq_ c) (snapshot_seq_ (foldl snapshot_step c ops)) log.
Proof.
  induction ops as [|op ops (log & Hsent & Hrounds)] using rev_ind; [exists []; split; [apply sent_nil|constructor]|].
  rewrite foldl_snoc. set (c1 := foldl snapshot_step c ops) in *. destruct op as [now|now|ms]; cbn [snapshot_step].
  - destruct (take_snapshot now c1) as [r c2] eqn:H. destruct (snapshot_round _ _ _ _ H) as (_ & Hseq & Hs & _). simpl. rewrite Hseq.
    eexists. split; [by eapply sent_app|]. destruct (forallb _ _); by constructor.
  - unfold take_snapshot_legacy, next_snapshot_id. set (c0 := mkSnapCoordinator _ _ _).
    destruct (call_all "SNAPSHOT" commit_result c0) as [rs c2] eqn:H. destruct (call_all_spec _ _ _ _ _ H) as (Hs & Hq & _).
    simpl. rewrite Hq. exists (log ++ ["SNAPSHOT"%string]). split; [by eapply sent_app|]. by constructor.
  - eauto.
Qed.
End SnapshotFacts.

(** ** The nodes of this program *)

Lemma tokenize_loop_extends fuel len ts l ts' : tokenize_loop fuel len ts l = Tokens ts' → ∃ t rest, ts' = ts ++ t :: rest.
Proof.
  revert ts l. induction fuel as [|fuel IH]; intros ts l; simpl; [done|].
  destruct (skip_whitespace l) as [|c rest]; [intros [= <-]; eauto|]. destruct (scan _ _ _ _) as [t r|r|e]; [|apply IH|done].
  intros (t' & rest' & ->)%IH. rewrite <- app_assoc. eauto.
Qed.

(** A statement that begins with the word SNAPSHOT is a syntax error. *)
Lemma snapshot_is_no_statement (s : string) st rest : parse_statement ("SNAPSHOT " +:+ s) ≠ Parsed st rest.
Proof.
  unfold parse_statement. destruct (tokenize _) as [ts|e|] eqn:Ht; [|done..].
  unfold tokenize in Ht. revert Ht. generalize (Z.of_nat (length (chars ("SNAPSHOT " +:+ s)))). intros len.
  destruct (scan_word "SNAPSHOT" None (" "%char :: chars s)) as (c & l & Hl & Hc & Hscan); [done|done|].
  change (chars ("SNAPSHOT " +:+ s)) with (chars "SNAPSHOT" ++ " "%char :: chars s). rewrite Hl. generalize (length (c :: l)). intros fuel. cbn [tokenize_loop].
  assert (skip_whitespace (c :: l) = c :: l) as -> by (unfold skip_whitespace; simpl; by rewrite Hc).
  simpl last. rewrite Hscan. intros (t & more & ->)%tokenize_loop_extends.
  vm_compute. discriminate.
Qed.

(** No node of this program takes part in a snapshot. The SQL parser knows no
    SNAPSHOT statement, so that nodes which answer syntax errors with an error
    answer every PREPARE with one: each snapshot of a cluster is aborted. *)
Theorem snapshots_always_abort {N} {HN : Participant N} now c r c' :
  (∀ sql n r, (∀ st rest, parse_statement sql ≠ Parsed st rest) → (node_execute sql n).1 = Some r → ok r = false) →
  snap_nodes_ c ≠ [] → take_snapshot now c = (r, c') →
  let sid := u64 (snapshot_seq_ c + 1) in
  sent [snapshot_command "PREPARE" sid; snapshot_command "ABORT" sid] c c' ∧ all_ok r = false.
Proof.
  intros Hsyntax Hne Hr sid. destruct (snapshot_round _ _ _ _ Hr) as (_ & _ & Hsent & _ & _ & Hok). fold sid in Hsent, Hok.
  assert (forallb (prepares sid) (snap_nodes_ c) = false) as Hp.
  { destruct (snap_nodes_ c) as [|n l]; [done|]. simpl. unfold prepares at 1.
    destruct (node_execute (snapshot_command "PREPARE" sid) (entry_node n)).1 as [res|] eqn:He; [|done]. rewrite (Hsyntax (snapshot_command "PREPARE" sid) (entry_node n) res); [done| |done].
    intros st rest. apply snapshot_is_no_statement. }
  rewrite Hp in Hsent, Hok. split; [done|]. destruct (all_ok r); [|done]. by destruct (Hok eq_refl).
Qed.

(** ** Examples *)

(** A node that only parses. *)
#[export] Instance parsing_node : Participant unit := {
  node_execute sql n := (Some (match parse_statement sql with Parsed _ _ => empty_result | _ => error_result "syntax error" end), n);
}.

Lemma snapshots_always_abort_witness :
  let c := add_snapshot_node 2 tt (add_snapshot_node 1 tt new_snapshot_coordinator) in
  all_ok (take_snapshot 0 c).1 = false ∧ received <$> snap_nodes_ (take_snapshot 0 c).2 = [["SNAPSHOT PREPARE 1"; "SNAPSHOT ABORT 1"]; ["SNAPSHOT PREPARE 1"; "SNAPSHOT ABORT 1"]].
Proof.
  split; [|vm_compute; reflexivity].
  refine (proj2 (snapshots_always_abort 0 (add_snapshot_node 2 tt (add_snapshot_node 1 tt new_snapshot_coordinator)) _ _ _ _
    (surjective_pairing _))).
  - intros sql n r Hsql. simpl. destruct (parse_statement sql) as [st rest|e|] eqn:Hp; [|intros [= <-]; reflexivity..].
    destruct (Hsql st rest eq_refl).
  - discriminate.
Defined.

(** A node that answers everything. *)
Definition agreeing_node : Participant unit := {| node_execute sql n := (Some (mkResultSet [] [] [[5]] [] [] None 0 ""), n) |}.

(** A node that cannot be reached twice: its state says for how many calls. *)
Definition fading_node : Participant nat := {|
  node_execute sql n := match n with S n => (Some (mkResultSet [] [] [[5]] [] [] None 0 ""), n) | O => (None, O) end |}.

(** A node that cannot be reached for COMMIT has heard PREPARE only, while the other
    one has committed; the snapshot is not reported as complete. *)
Example commit_is_lost :
  let c := add_snapshot_node 2 1%nat (add_snapshot_node 1 2%nat new_snapshot_coordinator) in
  let '(r, c') := take_snapshot (HN := fading_node) 0 c in
  (all_ok r, received <$> snap_nodes_ c') =
  (false, [["SNAPSHOT PREPARE 1"; "SNAPSHOT COMMIT 1"]; ["SNAPSHOT PREPARE 1"]]).
Proof. by vm_compute. Qed.

Lemma snapshot_two_phase_witness :
  let c := add_snapshot_node 2 tt (add_snapshot_node 1 tt new_snapshot_coordinator) in
  let '(r, c') := take_snapshot (HN := agreeing_node) 0 c in
  all_ok r = true ∧ sent [snapshot_command "PREPARE" 1; snapshot_command "COMMIT" 1] c c' ∧ total_rows r = 10.
Proof.
  destruct (take_snapshot (HN := agreeing_node) 0 (add_snapshot_node 2 tt (add_snapshot_node 1 tt new_snapshot_coordinator))) as [r c'] eqn:H.
  cbv zeta. rewrite H. destruct (snapshot_two_phase (HN := agreeing_node) _ _ _ _ H) as (_ & _ & Hsent & _).
  vm_compute in H. injection H as <- <-. split; [vm_compute; reflexivity|]. split; [exact Hsent|vm_compute; reflexivity].
Defined.
