(* ===== verification/TickPipeline.v ===== *)
(** * The pipeline of one node

    Models [include/zeptodb/core/pipeline.h] and [src/core/pipeline.cpp]: ticks go
    through the queue into the columns of a partition, rows with a schema go there
    directly, and partitions are found again through an index of pointers. A
    pointer to a partition is its identity; following one that no longer leads to a
    partition, or a null pointer, is undefined behaviour and gives [None]. Clocks
    are arguments; the latency statistics are left out. *)

From S2P Require Import Prelude.
From S2P Require Import Text.
From S2P Require Import Bytes.
From S2P Require Import Arena.
From S2P Require Import ColumnStore.
From S2P Require Import StringDictionary.
From S2P Require Import SchemaRegistry.
From S2P Require Import MaterializedView.
From S2P Require Import PartitionManager.
From S2P Require Import RingBuffer.
From S2P Require Import Rpc.
From S2P Require Import Hdb.
From S2P Require Import FlushManager.
From stdpp Require Import base gmap list strings fin_maps.
From Stdlib Require Import ZArith Lia.

Open Scope Z_scope.

(** ** Configuration *)

Inductive StorageMode : Type := PURE_IN_MEMORY | TIERED | PURE_ON_DISK.

#[export] Instance StorageMode_eq_dec : EqDecision StorageMode.
Proof. solve_decision. Defined.

Record PipelineConfig : Type := mkPipelineConfig {
  arena_size_per_partition : Z;
  drain_batch_size : Z;
  drain_threads : Z;
  ring_buffer_capacity : Z;
  storage_mode : StorageMode;
  hdb_base_path : string;
  flush_config : FlushConfig;
  enable_recovery : bool;
  recovery_snapshot_path : string;
  max_memory_bytes : Z;
}.

Definition default_pipeline_config : PipelineConfig :=
  mkPipelineConfig (32 * 1024 * 1024) 256 0 0 PURE_IN_MEMORY "/tmp/zepto_hdb" default_flush_config false "" 0.

Definition kDefaultCapacity : Z := 65536.
Definition kMin : Z := 4096.
Definition kMax : Z := 16 * 1024 * 1024.

Definition resolve_ring_buffer_capacity (configured : Z) : outcome Z :=
  let cap := if configured =? 0 then kDefaultCapacity else configured in
  let pow2 := negb (cap =? 0) && (Z.land cap (cap - 1) =? 0) in
  if negb pow2 || (cap <? kMin) || (kMax <? cap)
  then Thrown "PipelineConfig::ring_buffer_capacity must be a power of two in [4096, 16777216]"
  else Returned cap.

(** ** State *)

Record PipelineStats : Type := mkStats {
  ticks_ingested : Z;
  ticks_stored : Z;
  queries_executed : Z;
  total_rows_scanned : Z;
  partitions_created : Z;
  partitions_evicted : Z;
}.

Definition zero_stats : PipelineStats := mkStats 0 0 0 0 0 0.

Record ZeptoPipeline : Type := mkPipeline {
  pl_config : PipelineConfig;
  tick_plant_ : TickPlant;
  partition_mgr_ : PartitionManager;
  stats_ : PipelineStats;
  partition_index_ : gmap Z (list Z); (** pointers to partitions *)
  schema_registry_ : SchemaRegistry;
  mat_view_mgr_ : MaterializedViewManager;
  symbol_dict_ : StringDictionary;
  pl_running : bool;
  recovery_completed_ : bool;
}.

Definition set_config (c : PipelineConfig) (pl : ZeptoPipeline) : ZeptoPipeline :=
  mkPipeline c (tick_plant_ pl) (partition_mgr_ pl) (stats_ pl) (partition_index_ pl) (schema_registry_ pl)
    (mat_view_mgr_ pl) (symbol_dict_ pl) (pl_running pl) (recovery_completed_ pl).
Definition set_plant (t : TickPlant) (pl : ZeptoPipeline) : ZeptoPipeline :=
  mkPipeline (pl_config pl) t (partition_mgr_ pl) (stats_ pl) (partition_index_ pl) (schema_registry_ pl)
    (mat_view_mgr_ pl) (symbol_dict_ pl) (pl_running pl) (recovery_completed_ pl).
Definition set_partitions (m : PartitionManager) (pl : ZeptoPipeline) : ZeptoPipeline :=
  mkPipeline (pl_config pl) (tick_plant_ pl) m (stats_ pl) (partition_index_ pl) (schema_registry_ pl)
    (mat_view_mgr_ pl) (symbol_dict_ pl) (pl_running pl) (recovery_completed_ pl).
Definition count_stats (f : PipelineStats → PipelineStats) (pl : ZeptoPipeline) : ZeptoPipeline :=
  mkPipeline (pl_config pl) (tick_plant_ pl) (partition_mgr_ pl) (f (stats_ pl)) (partition_index_ pl) (schema_registry_ pl)
    (mat_view_mgr_ pl) (symbol_dict_ pl) (pl_running pl) (recovery_completed_ pl).
Definition set_index (i : gmap Z (list Z)) (pl : ZeptoPipeline) : ZeptoPipeline :=
  mkPipeline (pl_config pl) (tick_plant_ pl) (partition_mgr_ pl) (stats_ pl) i (schema_registry_ pl)
    (mat_view_mgr_ pl) (symbol_dict_ pl) (pl_running pl) (recovery_completed_ pl).
Definition set_registry (r : SchemaRegistry) (pl : ZeptoPipeline) : ZeptoPipeline :=
  mkPipeline (pl_config pl) (tick_plant_ pl) (partition_mgr_ pl) (stats_ pl) (partition_index_ pl) r
    (mat_view_mgr_ pl) (symbol_dict_ pl) (pl_running pl) (recovery_completed_ pl).
Definition set_views (v : MaterializedViewManager) (pl : ZeptoPipeline) : ZeptoPipeline :=
  mkPipeline (pl_config pl) (tick_plant_ pl) (partition_mgr_ pl) (stats_ pl) (partition_index_ pl) (schema_registry_ pl)
    v (symbol_dict_ pl) (pl_running pl) (recovery_completed_ pl).
Definition set_dict (d : StringDictionary) (pl : ZeptoPipeline) : ZeptoPipeline :=
  mkPipeline (pl_config pl) (tick_plant_ pl) (partition_mgr_ pl) (stats_ pl) (partition_index_ pl) (schema_registry_ pl)
    (mat_view_mgr_ pl) d (pl_running pl) (recovery_completed_ pl).
Definition set_run (running recovered : bool) (pl : ZeptoPipeline) : ZeptoPipeline :=
  mkPipeline (pl_config pl) (tick_plant_ pl) (partition_mgr_ pl) (stats_ pl) (partition_index_ pl) (schema_registry_ pl)
    (mat_view_mgr_ pl) (symbol_dict_ pl) running recovered.

(** Counters, [fetch_add] on 64 bits. *)
Definition add_ingested (s : PipelineStats) : PipelineStats :=
  mkStats (u64 (ticks_ingested s + 1)) (ticks_stored s) (queries_executed s) (total_rows_scanned s) (partitions_created s) (partitions_evicted s).
Definition add_stored (s : PipelineStats) : PipelineStats :=
  mkStats (ticks_ingested s) (u64 (ticks_stored s + 1)) (queries_executed s) (total_rows_scanned s) (partitions_created s) (partitions_evicted s).
Definition add_created (s : PipelineStats) : PipelineStats :=
  mkStats (ticks_ingested s) (ticks_stored s) (queries_executed s) (total_rows_scanned s) (u64 (partitions_created s + 1)) (partitions_evicted s).
Definition add_evicted (s : PipelineStats) : PipelineStats :=
  mkStats (ticks_ingested s) (ticks_stored s) (queries_executed s) (total_rows_scanned s) (partitions_created s) (u64 (partitions_evicted s + 1)).
Definition add_query (rows : Z) (s : PipelineStats) : PipelineStats :=
  mkStats (ticks_ingested s) (ticks_stored s) (u64 (queries_executed s + 1)) (u64 (total_rows_scanned s + rows)) (partitions_created s) (partitions_evicted s).

(** ** The constructor *)

(** The combinations of options that are refused, and the recovery path that is
    filled in. *)
Definition check_config (c : PipelineConfig) : outcome PipelineConfig :=
  let f := flush_config c in
  if negb (bool_decide (storage_mode c = PURE_IN_MEMORY)) && String.eqb (hdb_base_path c) ""
  then Thrown "On-disk and tiered storage require PipelineConfig::hdb_base_path"
  else if bool_decide (storage_mode c = TIERED) && reclaim_after_flush f
  then Thrown "Tiered storage cannot reclaim flushed RDB partitions until general SQL merges HDB rows"
  else if bool_decide (storage_mode c = TIERED) && (0 <? max_memory_bytes c)
  then Thrown "Tiered storage cannot evict RDB partitions under a memory limit until general SQL merges HDB rows"
  else if enable_auto_snapshot f && String.eqb (snapshot_path f) ""
  then Thrown "Auto-snapshot requires FlushConfig::snapshot_path"
  else if enable_auto_snapshot f && (snapshot_interval_ms f =? 0)
  then Thrown "Auto-snapshot requires a non-zero snapshot interval"
  else if enable_recovery c && String.eqb (recovery_snapshot_path c) ""
  then if String.eqb (snapshot_path f) ""
       then Thrown "Recovery requires PipelineConfig::recovery_snapshot_path"
       else Returned (mkPipelineConfig (arena_size_per_partition c) (drain_batch_size c) (drain_threads c)
              (ring_buffer_capacity c) (storage_mode c) (hdb_base_path c) f (enable_recovery c) (snapshot_path f)
              (max_memory_bytes c))
  else Returned c.

(** [catalog] is the schema catalog beside the historical data. *)
Definition load_catalog (c : PipelineConfig) (catalog : catalog_file) : outcome SchemaRegistry :=
  if negb (bool_decide (storage_mode c = PURE_IN_MEMORY)) && negb (String.eqb (hdb_base_path c) "")
  then match load_from_checked catalog empty_registry with
       | (Invalid, _) => Thrown "SchemaRegistry catalog is unreadable or invalid"
       | (_, r) => Returned r
       end
  else Returned empty_registry.

Definition new_pipeline (config : PipelineConfig) (catalog : catalog_file) : outcome ZeptoPipeline :=
  let? capacity := resolve_ring_buffer_capacity (ring_buffer_capacity config) in
  let? plant := new_plant capacity in
  let? config := check_config config in
  let? registry := load_catalog config catalog in
  Returned (mkPipeline config plant (new_manager (arena_size_per_partition config)) zero_stats ∅ registry no_views empty_dict
              false false).

(** Whether there is a writer and a reader of historical data, and a flush
    manager. *)
Definition has_hdb (pl : ZeptoPipeline) : bool := negb (bool_decide (storage_mode (pl_config pl) = PURE_IN_MEMORY)).
Definition has_flush_manager (pl : ZeptoPipeline) : bool := bool_decide (storage_mode (pl_config pl) = TIERED).

Definition save_schema_catalog (io : save_io) (fs : gmap string text) (tmp : string) (pl : ZeptoPipeline) : bool * gmap string text :=
  if bool_decide (storage_mode (pl_config pl) = PURE_IN_MEMORY) then (true, fs)
  else if String.eqb (hdb_base_path (pl_config pl)) "" then (false, fs)
  else save_to io fs tmp (hdb_base_path (pl_config pl) +:+ "/_schema.json")%string (schema_registry_ pl).

(** ** Storing ticks *)

Definition COL_TIMESTAMP : string := "timestamp".
Definition COL_PRICE : string := "price".
Definition COL_VOLUME : string := "volume".
Definition COL_MSG_TYPE : string := "msg_type".

(** The column of a name, as a position. *)
Definition column_position (p : Partition) (name : string) : option nat :=
  fst <$> list_find (λ c, name_ c = name) (columns_ p).

(** The columns of a partition that is used for the first time. *)
Definition init_tick_columns (price_is_float : bool) (p : Partition) : Partition :=
  let p := PartitionManager.add_column p COL_TIMESTAMP TIMESTAMP_NS in
  let p := PartitionManager.add_column p COL_PRICE (if price_is_float then FLOAT64 else INT64) in
  let p := PartitionManager.add_column p COL_VOLUME INT64 in
  PartitionManager.add_column p COL_MSG_TYPE INT32.

(** The four appends, whose answers nobody looks at. The price is the eight bytes
    of the message's union, as a double or as an integer. *)
Definition append_tick (msg : TickMessage) (p : Partition) : option Partition :=
  ts_col ← column_position p COL_TIMESTAMP;
  px_col ← column_position p COL_PRICE;
  vol_col ← column_position p COL_VOLUME;
  mt_col ← column_position p COL_MSG_TYPE;
  let p := (append_at p ts_col (push_le 8 (recv_ts msg))).2 in
  let p := (append_at p px_col (push_le 8 (price msg))).2 in
  let p := (append_at p vol_col (push_le 8 (volume msg))).2 in
  Some (append_at p mt_col (push_le 4 (msg_type msg))).2.

(** What [store_tick] does to the partition; whether it was new to ticks. *)
Definition store_row (msg : TickMessage) (p : Partition) : option (bool * Partition) :=
  match column_position p COL_TIMESTAMP with
  | None => pair true <$> append_tick msg (init_tick_columns (negb (price_is_float msg =? 0)) p)
  | Some _ => pair false <$> append_tick msg p
  end.

(** The key of the index. *)
Definition index_key (table symbol : Z) : Z := Z.lor (u64 (Z.shiftl table 32)) (u32 symbol).
Definition index_partition (key id : Z) (pl : ZeptoPipeline) : ZeptoPipeline :=
  count_stats add_created (set_index (<[key := default [] (partition_index_ pl !! key) ++ [id]]> (partition_index_ pl)) pl).

(** Over the limit the oldest partition is erased, unless it is the one in use;
    its pointers stay in the index. *)
Definition evict_over_limit (current : Z) (pl : ZeptoPipeline) : ZeptoPipeline :=
  if (0 <? max_memory_bytes (pl_config pl)) &&
     (max_memory_bytes (pl_config pl) <? total_memory_bytes (partition_mgr_ pl))
  then match oldest_partition (partition_mgr_ pl) with
       | Some oldest =>
           if p_id oldest =? current then pl
           else count_stats add_evicted (set_partitions (evict_partition (partition_mgr_ pl) (p_id oldest)) pl)
       | None => pl
       end
  else pl.

Definition store_tick (msg : TickMessage) (pl : ZeptoPipeline) : option ZeptoPipeline :=
  let '(p, m) := get_or_create (partition_mgr_ pl) (tick_table_id msg) (RingBuffer.symbol_id msg) (recv_ts msg) in
  '(is_new, p') ← store_row msg p;
  let pl := set_partitions (with_partition m (key_ p) (λ _, p')) pl in
  let pl := if is_new : bool then index_partition (index_key (tick_table_id msg) (RingBuffer.symbol_id msg)) (p_id p) pl else pl in
  let pl := count_stats add_stored pl in
  let pl := set_views (on_tick (mkMVTick (RingBuffer.symbol_id msg) (recv_ts msg) (price msg) (volume msg)) (mat_view_mgr_ pl)) pl in
  Some (evict_over_limit (p_id p) pl).

(** ** The queue *)

(** A full queue is bypassed, with the caller's time stamp. *)
Definition ingest_tick (now : Z) (msg : TickMessage) (pl : ZeptoPipeline) : option (bool * ZeptoPipeline) :=
  let '(ok, plant) := ingest (tick_plant_ pl) now msg in
  let pl := set_plant plant pl in
  pl ← (if ok : bool then Some pl else store_tick msg pl);
  Some (ok, count_stats add_ingested pl).

(** The rows of three arrays; [timestamps] may be missing. [clocks] are the times
    the plant stamps ticks with. *)
Fixpoint ingest_ticks (symbol : Z) (rows : list (Z * Z * Z)) (clocks : nat → Z) (i : nat) (pl : ZeptoPipeline) :
    option (Z * ZeptoPipeline) :=
  match rows with
  | [] => Some (0, pl)
  | (price, volume, ts) :: rows =>
      '(_, pl) ← ingest_tick (clocks i) (mkTick 0 ts symbol price volume 0 0 0) pl;
      '(queued, pl) ← ingest_ticks symbol rows clocks (S i) pl;
      Some (queued + 1, pl)
  end.

Definition ingest_batch (symbol : Z) (prices volumes : list Z) (timestamps : option (list Z)) (now : Z) (clocks : nat → Z)
    (pl : ZeptoPipeline) : option (Z * ZeptoPipeline) :=
  let ts := match timestamps with
            | Some ts => ts
            | None => (λ i, i64 (now + Z.of_nat i)) <$> seq 0 (length prices)
            end in
  ingest_ticks symbol (zip (zip prices volumes) ts) clocks 0 pl.

(** One round of a drain thread that nothing interrupts between taking the tick and
    storing it, as when there is one; [DrainThreads] has several. *)
Definition drain_one (pl : ZeptoPipeline) : option (bool * ZeptoPipeline) :=
  match consume (tick_plant_ pl) with
  | (None, plant) => Some (false, set_plant plant pl)
  | (Some msg, plant) => pair true <$> store_tick msg (set_plant plant pl)
  end.

(** Up to [max_items]; [fuel] bounds what the queue holds. *)
Fixpoint drain_sync (fuel : nat) (max_items count : Z) (pl : ZeptoPipeline) : option (Z * ZeptoPipeline) :=
  match fuel with
  | O => None
  | S fuel =>
      if max_items <=? count then Some (count, pl)
      else
        '(taken, pl) ← drain_one pl;
        if taken : bool then drain_sync fuel max_items (count + 1) pl else Some (count, pl)
  end.

(** The inner loop of [drain_loop]. *)
Definition drain_batch (pl : ZeptoPipeline) : option (Z * ZeptoPipeline) :=
  drain_sync (S (Z.to_nat (drain_batch_size (pl_config pl)))) (drain_batch_size (pl_config pl)) 0 pl.

(** Rounds of [drain_loop], as often as [running_] is seen. *)
Fixpoint drain_loop (rounds : nat) (pl : ZeptoPipeline) : option ZeptoPipeline :=
  match rounds with
  | O => Some pl
  | S rounds => if pl_running pl then '(_, pl) ← drain_batch pl; drain_loop rounds pl else Some pl
  end.

(** [max(2, hardware_concurrency() / 4)] unless it is configured. *)
Definition drain_thread_count (hardware_concurrency : Z) (config : PipelineConfig) : Z :=
  Z.max 1 (if drain_threads config =? 0 then Z.max 2 (hardware_concurrency / 4) else drain_threads config).

(** ** Rows with a schema *)

Definition column_default (t : ColumnType) : list Z := push_le (Z.to_nat (column_type_size t)) 0.

(** The bytes a value has in a column of a type; a [float] is rounded from the
    double by the class [FloatOps]. *)
Class FloatOps : Type := {
  float_of_double : Z → Z; (** bit patterns *)
  double_of_float : Z → Z;
}.

Definition INT32_MIN : Z := - 2 ^ 31.

Section Typed.
Context {F : FloatOps}.

Definition typed_bytes (t : ColumnType) (v : TypedColumnValue) : option (list Z) :=
  if negb (type_code t =? tcv_type v) then None
  else match t with
  | INT32 => if (tcv_i64 v <? INT32_MIN) || (INT32_MAX <? tcv_i64 v) then None else Some (push_le 4 (tcv_i64 v))
  | INT64 | TIMESTAMP_NS => Some (push_le 8 (tcv_i64 v))
  | FLOAT32 => Some (push_le 4 (float_of_double (tcv_f64 v)))
  | FLOAT64 => Some (push_le 8 (tcv_f64 v))
  | SYMBOL | STRING => Some (push_le 4 (tcv_u32 v))
  | BOOL => Some [if tcv_u8 v =? 0 then 0 else 1]
  end.

(** The values by name, checked against the schema. *)
Fixpoint collect_values (schema : list ColumnDef) (values : gmap string TypedColumnValue) (cols : list TypedColumnValue) :
    option (gmap string TypedColumnValue) :=
  match cols with
  | [] => Some values
  | v :: cols =>
      if String.eqb (tcv_name v) "" then None
      else match values !! tcv_name v with
      | Some _ => None
      | None =>
          match List.find (λ c, String.eqb (col_name c) (tcv_name v)) schema with
          | Some c => if type_code (col_type c) =? tcv_type v
                      then collect_values schema (<[tcv_name v := v]> values) cols else None
          | None => None
          end
      end
  end.

(** The dictionary codes that came with their strings. *)
Definition is_dictionary_type (code : Z) : bool := (code =? type_code SYMBOL) || (code =? type_code STRING).

Fixpoint bind_strings (d : StringDictionary) (cols : list TypedColumnValue) : bool * StringDictionary :=
  match cols with
  | [] => (true, d)
  | v :: cols =>
      match tcv_string v with
      | Some s =>
          if is_dictionary_type (tcv_type v)
          then let '(ok, d) := ensure_code d (tcv_u32 v) s in if ok : bool then bind_strings d cols else (false, d)
          else bind_strings d cols
      | None => bind_strings d cols
      end
  end.

(** A new column gets a default value for every row there is. *)
Fixpoint append_defaults (n : nat) (i : nat) (t : ColumnType) (p : Partition) : bool * Partition :=
  match n with
  | O => (true, p)
  | S n => let '(ok, p) := append_at p i (column_default t) in if ok : bool then append_defaults n i t p else (false, p)
  end.

Fixpoint add_missing_columns (existing_rows : Z) (schema : list ColumnDef) (p : Partition) : bool * Partition :=
  match schema with
  | [] => (true, p)
  | c :: schema =>
      match column_position p (col_name c) with
      | Some _ => add_missing_columns existing_rows schema p
      | None =>
          let i := length (columns_ p) in
          let p := PartitionManager.add_column p (col_name c) (col_type c) in
          let '(ok, p) := append_defaults (Z.to_nat existing_rows) i (col_type c) p in
          if ok : bool then add_missing_columns existing_rows schema p else (false, p)
      end
  end.

Definition column_types_match (schema : list ColumnDef) (p : Partition) : bool :=
  forallb (λ c, match get_column p (col_name c) with
                | Some col => type_code (type_ col) =? type_code (col_type c)
                | None => true
                end) schema.

(** The value of every column, in the order of the columns; [sizes] are the sizes
    before, to which they go back when one value cannot be appended. *)
Definition roll_back (sizes : list (nat * Z)) (p : Partition) : Partition :=
  foldl (λ p t, set_size_at p t.1 t.2) p sizes.

Fixpoint append_row (values : gmap string TypedColumnValue) (cols : list ColumnVector) (i : nat) (touched : list (nat * Z))
    (p : Partition) : bool * Partition :=
  match cols with
  | [] => (true, p)
  | c :: cols =>
      let touched := touched ++ [(i, size_ c)] in
      let bytes := match values !! name_ c with
                   | None => Some (column_default (type_ c))
                   | Some v => typed_bytes (type_ c) v
                   end in
      let '(ok, p) := match bytes with Some b => append_at p i b | None => (false, p) end in
      if ok : bool then append_row values cols (S i) touched p else (false, roll_back touched p)
  end.

Definition ingest_typed_row (row : TypedRowMessage) (pl : ZeptoPipeline) : bool * ZeptoPipeline :=
  if (row_table_id row =? 0) || (length (row_columns row) =? 0)%nat then (false, pl)
  else match get_by_id (schema_registry_ pl) (row_table_id row) with
  | None => (false, pl)
  | Some schema =>
      match collect_values (columns schema) ∅ (row_columns row) with
      | None => (false, pl)
      | Some values =>
          let '(bound, d) := bind_strings (symbol_dict_ pl) (row_columns row) in
          let pl := set_dict d pl in
          if negb bound then (false, pl)
          else
            let '(p, m) := get_or_create (partition_mgr_ pl) (row_table_id row) (row_symbol_id row) (row_timestamp row) in
            let update p' := set_partitions (with_partition m (key_ p) (λ _, p')) pl in
            let is_new := (length (columns_ p) =? 0)%nat in
            if negb (column_types_match (columns schema) p) then (false, update p)
            else
              let '(ok, p1) := add_missing_columns (num_rows p) (columns schema) p in
              if negb ok then (false, update p1)
              else
                let '(ok, p2) := append_row values (columns_ p1) 0 [] p1 in
                let pl := update p2 in
                let pl := if is_new then index_partition (index_key (row_table_id row) (row_symbol_id row)) (p_id p) pl else pl in
                if negb ok then (false, pl)
                else (true, set_registry (mark_has_data (schema_registry_ pl) (table_name schema))
                              (count_stats add_stored (count_stats add_ingested pl)))
      end
  end.
End Typed.

(** ** Finding and dropping partitions *)

Definition find_partitions (table symbol : Z) (pl : ZeptoPipeline) : list Z :=
  default [] (partition_index_ pl !! index_key table symbol).

(** What a pointer leads to. *)
Definition deref (m : PartitionManager) (id : Z) : option Partition :=
  snd <$> List.find (λ kp, p_id kp.2 =? id) (map_to_list (partitions_ m)).

Definition evict_older_than_ns (cutoff : Z) (pl : ZeptoPipeline) : Z * ZeptoPipeline :=
  let '(evicted, m) := evict_older_than (partition_mgr_ pl) cutoff in
  let pl := set_partitions m pl in
  if (0 <? evicted)%nat
  then (Z.of_nat evicted,
        set_index (foldl (λ ix p, let k := index_key (PartitionManager.table_id (key_ p)) (PartitionManager.symbol_id (key_ p)) in
                                  <[k := default [] (ix !! k) ++ [p_id p]]> ix) ∅ (get_all_partitions m)) pl)
  else (Z.of_nat evicted, pl).

Definition drop_table_index (table : Z) (pl : ZeptoPipeline) : ZeptoPipeline :=
  set_index (filter (λ e : Z * list Z, u16 (Z.shiftr e.1 32) ≠ table) (partition_index_ pl)) pl.

(** Every pointer of the index is followed. *)
Definition total_stored_rows (pl : ZeptoPipeline) : option Z :=
  foldl (λ total id, t ← total; p ← deref (partition_mgr_ pl) id; Some (t + num_rows p)) (Some 0)
    (concat (map_to_list (partition_index_ pl)).*2).
