(* ===== verification/PipelineFacts.v ===== *)
(** * What the pipeline stores

    Theorems on [TickPipeline.v]. A partition that only takes ticks has its four
    columns in step ([stores]) as long as its arena has room ([room]); a pipeline
    represents the sequence of ticks that were stored in it ([represents]). *)

From S2P Require Import Prelude.
From S2P Require Import Bytes.
From S2P Require Import Arena.
From S2P Require Import StringDictionary.
From S2P Require Import SchemaRegistry.
From S2P Require Import MaterializedView.
From S2P Require Import PartitionManager.
From S2P Require Import RingBuffer.
From S2P Require Import ColumnStore.
From S2P Require Import Hdb.
From S2P Require Import FlushManager.
From S2P Require Import TickPipeline.
From stdpp Require Import base gmap list strings fin_maps.
From Stdlib Require Import ZArith Lia.

Open Scope Z_scope.

(** ** How much a column takes

    The sizes of the columns and what they have taken of the arena. *)

Definition geometry (p : Partition) : Z * list (Z * Z * Z) :=
  (offset_ (arena_ p), (λ c, (size_ c, capacity_ c, elem_size_ c)) <$> columns_ p).

(** What one more row of [e] bytes takes of the arena, in a column with [n] of [cap]
    rows, and the capacity afterwards. *)
Definition taken (n cap e : Z) : Z := if n <? cap then 0 else 2 * cap * e.
Definition next_capacity (n cap : Z) : Z := if n <? cap then cap else 2 * cap.

Lemma align_up_multiple x : 0 <= x < 2 ^ 61 → x mod 64 = 0 → align_up x CACHE_LINE_SIZE = x.
Proof.
  intros Hx Hm. destruct (align_up_bounds x CACHE_LINE_SIZE) as [Hb Hal]; [by exists 6|lia|]. unfold CACHE_LINE_SIZE in *.
  apply Z.div_exact in Hm; [|done]. apply Z.div_exact in Hal; [|done]. lia.
Qed.

Lemma allocate_next a size : arena_ok a → offset_ a mod 64 = 0 → 0 <= size → offset_ a + size <= total_size_ a →
  allocate a size CACHE_LINE_SIZE = (Some (offset_ a), mkArena (total_size_ a) (offset_ a + size)).
Proof.
  intros [Ho Ht] Hm Hs Hfit. unfold allocate, attempt. rewrite align_up_multiple by (done || lia).
  rewrite wrap_small by lia. by rewrite (proj2 (Z.ltb_ge _ _)) by lia.
Qed.

Lemma append_capacity a m c v :
  arena_ok a → 0 <= size_ c <= capacity_ c → 0 < capacity_ c < 2 ^ 56 → 1 <= elem_size_ c <= 8 → offset_ a mod 64 = 0 →
  offset_ a + taken (size_ c) (capacity_ c) (elem_size_ c) <= total_size_ a →
  ∃ m' c', append a m c v =
    (true, mkArena (total_size_ a) (offset_ a + taken (size_ c) (capacity_ c) (elem_size_ c)), m', c') ∧
    size_ c' = size_ c + 1 ∧ capacity_ c' = next_capacity (size_ c) (capacity_ c) ∧ elem_size_ c' = elem_size_ c.
Proof.
  intros Ha Hs Hc He Hm Hfit. unfold append, ensure_capacity, taken, next_capacity in *. rewrite wrap_small by lia.
  destruct (Z.ltb_spec (size_ c) (capacity_ c)) as [Hlt|Hge].
  - rewrite (proj2 (Z.leb_le _ _)) by lia. rewrite Z.add_0_r. destruct a as [total off]. eexists _, _. split; [done|].
    simpl. by rewrite wrap_small by lia.
  - assert (size_ c = capacity_ c) as Heq by lia.
    rewrite (proj2 (Z.leb_gt _ _)), (proj2 (Z.eqb_neq (capacity_ c) 0)) by lia.
    assert (grow 64 (capacity_ c) (size_ c + 1) = 2 * capacity_ c) as ->.
    { cbn [grow]. rewrite (proj2 (Z.ltb_lt _ _)) by lia. unfold GROWTH_FACTOR. rewrite wrap_small by lia.
      rewrite (proj2 (Z.ltb_ge _ _)) by lia. lia. }
    rewrite (wrap_small 64 (2 * capacity_ c * elem_size_ c)) by nia.
    rewrite allocate_next by (done || nia). eexists _, _. split; [done|]. simpl. by rewrite wrap_small by lia.
Qed.

(** A new column takes its first block. *)
Lemma make_column_takes a m name t a' m' c' :
  arena_ok a → offset_ a mod 64 = 0 → offset_ a + 8192 * column_type_size t <= total_size_ a →
  make_column a m name t = (a', m', c') →
  a' = mkArena (total_size_ a) (offset_ a + 8192 * column_type_size t) ∧ size_ c' = 0 ∧ capacity_ c' = 8192 ∧
  elem_size_ c' = column_type_size t.
Proof.
  intros Ha Hm Hfit H. assert (1 <= column_type_size t <= 8) by by destruct t.
  unfold make_column, ensure_capacity in H. cbn [capacity_ size_ elem_size_ data_ name_ type_] in H.
  change (INITIAL_CAPACITY <=? 0) with false in H. change (0 =? 0) with true in H. cbv iota in H.
  replace (grow 64 (Z.max INITIAL_CAPACITY INITIAL_CAPACITY) INITIAL_CAPACITY) with 8192 in H by done.
  rewrite (wrap_small 64) in H by lia. rewrite allocate_next in H by (done || lia). simplify_eq/=. done.
Qed.

(** ** Appending to one column of several *)

Lemma append_at_room p i v n cap e off (G : list (Z * Z * Z)) :
  partition_ok p → geometry p = (off, G) → G !! i = Some (n, cap, e) → 0 < cap → off mod 64 = 0 →
  off + taken n cap e <= total_size_ (arena_ p) → Z.of_nat (length v) = e → Forall is_byte v →
  ∃ p', append_at p i v = (true, p') ∧ partition_ok p' ∧ same_partition p p' ∧
    contents p' = alter (push_value v) i (contents p) ∧
    geometry p' = (off + taken n cap e, <[i := (n + 1, next_capacity n cap, e)]> G).
Proof.
  intros Hp [= <- <-] Hi Hcap Hm Hfit Hv Hb. apply list_lookup_fmap_Some in Hi as (c & [= -> -> ->] & Hi).
  destruct (column_at p i c Hp Hi) as [Hc _]. pose proof (so_arena _ _ (po_store _ Hp)) as Ha. pose proof (po_size _ Hp).
  pose proof (elem_size_range _ _ Hc). pose proof (co_size _ _ Hc). pose proof (co_end _ _ Hc) as He. pose proof (co_base _ _ Hc).
  unfold block_end in He. assert (capacity_ c < 2 ^ 56) by (destruct Ha; nia).
  destruct (append_capacity (arena_ p) (memory_ p) c v) as (m' & c' & Happ & Hs' & Hc' & He'); [done|done|lia|done|done|done|].
  destruct (append_at p i v) as [ok p'] eqn:Hat.
  destruct (append_at_spec p i c v ok p' Hp Hi) as (Hp' & Hsame & Hcon); [|done|done|].
  { rewrite <- (co_elem _ _ Hc). lia. }
  unfold append_at in Hat. rewrite Hi, Happ in Hat. simplify_eq. eexists. split_and!; try done.
  unfold geometry. simpl. f_equal. rewrite list_fmap_insert. by rewrite Hs', Hc', He'.
Qed.

(** ** A partition of ticks *)

(** Its columns for a list of ticks. *)
Definition tick_contents (float : bool) (msgs : list TickMessage) : list entry :=
  [(COL_TIMESTAMP, TIMESTAMP_NS, push_le 8 ∘ recv_ts <$> msgs);
   (COL_PRICE, (if float then FLOAT64 else INT64), push_le 8 ∘ price <$> msgs);
   (COL_VOLUME, INT64, push_le 8 ∘ volume <$> msgs);
   (COL_MSG_TYPE, INT32, push_le 4 ∘ msg_type <$> msgs)].

(** The bytes four columns of [8192 * 2 ^ j] rows have taken, the blocks they left
    included. *)
Definition rows_at (j : nat) : Z := 8192 * 2 ^ Z.of_nat j.
Definition bytes_at_level (j : nat) : Z := 28 * (2 * rows_at j - 8192).

(** Room for [n] ticks in an arena. *)
Definition room (total n : Z) : Prop := ∃ j, n <= rows_at j ∧ bytes_at_level j <= total.

(** Its columns are in step, at some level of growth. *)
Record stores (p : Partition) (float : bool) (msgs : list TickMessage) : Prop := {
  st_ok : partition_ok p;
  st_contents : contents p = tick_contents float msgs;
  st_geometry : ∃ j, Z.of_nat (length msgs) <= rows_at j ∧
    geometry p = (bytes_at_level j, (λ e, (Z.of_nat (length msgs), rows_at j, e)) <$> [8; 8; 8; 4]);
}.

Lemma rows_at_S j : rows_at (S j) = 2 * rows_at j.
Proof. unfold rows_at. rewrite Nat2Z.inj_succ, Z.pow_succ_r by lia. lia. Qed.

Lemma rows_at_pos j : 8192 <= rows_at j ∧ rows_at j mod 64 = 0.
Proof.
  unfold rows_at. pose proof (Z.pow_pos_nonneg 2 (Z.of_nat j)). split; [lia|].
  replace (8192 * 2 ^ Z.of_nat j) with (128 * 2 ^ Z.of_nat j * 64) by lia. by rewrite Z.mod_mul.
Qed.

Lemma rows_at_mono j j' : rows_at j < rows_at j' → (j < j')%nat.
Proof. unfold rows_at. intros H. destruct (decide (j < j')%nat); [done|]. assert (2 ^ Z.of_nat j' <= 2 ^ Z.of_nat j) by (apply Z.pow_le_mono_r; lia). lia. Qed.

Lemma rows_at_le j j' : (j <= j')%nat → rows_at j <= rows_at j'.
Proof. unfold rows_at. intros H. assert (2 ^ Z.of_nat j <= 2 ^ Z.of_nat j') by (apply Z.pow_le_mono_r; lia). lia. Qed.

(** The next growth fits where there is room for one more row. *)
Lemma room_for_growth total n j : room total (n + 1) → n <= rows_at j → bytes_at_level j <= total →
  bytes_at_level j + 56 * (if n <? rows_at j then 0 else rows_at j) <= total.
Proof.
  intros (j' & Hn & Hb) Hj Ht. destruct (Z.ltb_spec n (rows_at j)); [lia|]. assert (S j <= j')%nat as Hle by (apply rows_at_mono; lia).
  apply rows_at_le in Hle. rewrite rows_at_S in Hle. unfold bytes_at_level in *. lia.
Qed.

Lemma contents_arena p : partition_ok p → 0 <= offset_ (arena_ p) <= total_size_ (arena_ p).
Proof. intros Hp. by destruct (so_arena _ _ (po_store _ Hp)). Qed.

Lemma same_partition_trans p1 p2 p3 : same_partition p1 p2 → same_partition p2 p3 → same_partition p1 p3.
Proof. unfold same_partition. intros (-> & -> & -> & ->) (-> & -> & -> & ->). done. Qed.

(** A column's place depends on the names alone. *)
Lemma find_column_contents p name :
  column_position p name = fst <$> list_find (λ e : entry, e.1.1 = name) (contents p).
Proof.
  unfold column_position, contents. induction (columns_ p) as [|c cs IH]; [done|].
  cbn [fmap list_fmap list_find entry_of fst snd]. destruct (decide (name_ c = name)); [done|].
  destruct (list_find _ cs) as [[]|], (list_find _ (entry_of _ <$> cs)) as [[]|]; simpl in *; congruence.
Qed.

Lemma tick_columns p float msgs : contents p = tick_contents float msgs →
  column_position p COL_TIMESTAMP = Some 0%nat ∧ column_position p COL_PRICE = Some 1%nat ∧
  column_position p COL_VOLUME = Some 2%nat ∧ column_position p COL_MSG_TYPE = Some 3%nat.
Proof. intros Hc. rewrite !find_column_contents, Hc. done. Qed.

(** One tick more. *)
Lemma append_tick_stores p float msgs msg :
  stores p float msgs → room (total_size_ (arena_ p)) (Z.of_nat (length msgs) + 1) →
  ∃ p', append_tick msg p = Some p' ∧ stores p' float (msgs ++ [msg]) ∧ same_partition p p'.
Proof.
  intros [Hp Hc (j & Hj & Hg)] Hroom. set (n := Z.of_nat (length msgs)) in *. destruct (rows_at_pos j) as [Hr Hr64].
  assert (bytes_at_level j <= total_size_ (arena_ p)) as Hb.
  { pose proof (contents_arena p Hp). apply (f_equal fst) in Hg. simpl in Hg. lia. }
  pose proof (room_for_growth _ _ _ Hroom Hj Hb) as Hfit.
  assert (bytes_at_level j mod 64 = 0) as Hb64.
  { unfold bytes_at_level. rewrite <- Z.mul_mod_idemp_r, <- Zminus_mod_idemp_l, <- (Z.mul_mod_idemp_r 2), Hr64 by done. done. }
  assert (∀ e, taken n (rows_at j) e mod 64 = 0) as Ht.
  { intros e. unfold taken. destruct (n <? rows_at j); [done|].
    replace (2 * rows_at j * e) with (2 * e * rows_at j) by lia. by rewrite <- Z.mul_mod_idemp_r, Hr64, Z.mul_0_r. }
  assert (∀ x e, x mod 64 = 0 → (x + taken n (rows_at j) e) mod 64 = 0) as Hadd by (intros x e Hx; by rewrite Zplus_mod, Hx, Ht).
  assert (0 <= taken n (rows_at j) 8 ∧ 3 * taken n (rows_at j) 8 + taken n (rows_at j) 4 =
    56 * (if n <? rows_at j then 0 else rows_at j) ∧ 0 <= taken n (rows_at j) 4) as (Ht8 & Hsum & Ht4) by (unfold taken; destruct (n <? rows_at j); lia).
  destruct (append_at_room p 0 (push_le 8 (recv_ts msg)) n (rows_at j) 8 _ _ Hp Hg) as (p1 & H1 & Hp1 & Hs1 & Hc1 & Hg1);
    [done|lia|done|lia|done|apply push_le_bytes|].
  destruct (append_at_room p1 1 (push_le 8 (price msg)) n (rows_at j) 8 _ _ Hp1 Hg1) as (p2 & H2 & Hp2 & Hs2 & Hc2 & Hg2);
    [done|lia|by apply Hadd|destruct Hs1 as (_ & _ & _ & ->); lia|done|apply push_le_bytes|].
  pose proof (same_partition_trans _ _ _ Hs1 Hs2) as Hs12.
  destruct (append_at_room p2 2 (push_le 8 (volume msg)) n (rows_at j) 8 _ _ Hp2 Hg2) as (p3 & H3 & Hp3 & Hs3 & Hc3 & Hg3);
    [done|lia|by apply Hadd, Hadd|destruct Hs12 as (_ & _ & _ & ->); lia|done|apply push_le_bytes|].
  pose proof (same_partition_trans _ _ _ Hs12 Hs3) as Hs13.
  destruct (append_at_room p3 3 (push_le 4 (msg_type msg)) n (rows_at j) 4 _ _ Hp3 Hg3) as (p4 & H4 & Hp4 & Hs4 & Hc4 & Hg4);
    [done|lia|by apply Hadd, Hadd, Hadd|destruct Hs13 as (_ & _ & _ & ->); lia|done|apply push_le_bytes|].
  exists p4. split_and!.
  - destruct (tick_columns _ _ _ Hc) as (Ht0 & Ht1 & Ht2 & Ht3). unfold append_tick. rewrite Ht0, Ht1, Ht2, Ht3.
    cbn [mbind option_bind]. by rewrite H1; cbn [snd]; rewrite H2; cbn [snd]; rewrite H3; cbn [snd]; rewrite H4.
  - split; [done| |].
    + rewrite Hc4, Hc3, Hc2, Hc1, Hc. unfold tick_contents. by rewrite !fmap_app.
    + rewrite Hg4. rewrite length_app, Nat2Z.inj_add. simpl. fold n. unfold next_capacity in *. destruct (Z.ltb_spec n (rows_at j)).
      * exists j. split; [lia|]. f_equal. unfold taken. rewrite (proj2 (Z.ltb_lt _ _)) by done. lia.
      * exists (S j). rewrite rows_at_S. split; [lia|]. f_equal. unfold bytes_at_level. rewrite rows_at_S. lia.
  - by eapply same_partition_trans.
Qed.

(** A column behind the others. *)
Lemma add_column_room p name t off (G : list (Z * Z * Z)) :
  partition_ok p → geometry p = (off, G) → off mod 64 = 0 → off + 8192 * column_type_size t <= total_size_ (arena_ p) →
  let p' := PartitionManager.add_column p name t in
  partition_ok p' ∧ same_partition p p' ∧ contents p' = contents p ++ [(name, t, [])] ∧
  geometry p' = (off + 8192 * column_type_size t, G ++ [(0, 8192, column_type_size t)]).
Proof.
  intros Hp [= <- <-] Hm Hfit p'. destruct (add_column_spec p name t Hp) as (Hp' & Hs & Hc). split_and!; [done..|].
  unfold p', PartitionManager.add_column. destruct (make_column _ _ name t) as [[a m] c] eqn:Hmk.
  destruct (make_column_takes _ _ _ _ _ _ _ (so_arena _ _ (po_store _ Hp)) Hm Hfit Hmk) as (-> & Hsz & Hcap & He).
  unfold geometry. simpl. rewrite fmap_app. simpl. by rewrite Hsz, Hcap, He.
Qed.

Lemma init_tick_columns_stores id k size float :
  0 <= size < 2 ^ 55 → bytes_at_level 0 <= total_size_ (make_arena size true) →
  let p := new_partition id k (make_arena size true) in
  stores (init_tick_columns float p) float [] ∧ same_partition p (init_tick_columns float p).
Proof.
  intros Hsz Hb p. change (bytes_at_level 0) with 229376 in Hb.
  change (total_size_ (make_arena size true)) with (total_size_ (arena_ p)) in Hb.
  assert (partition_ok p) as Hp by by apply new_partition_ok. set (t := if float then FLOAT64 else INT64).
  assert (column_type_size t = 8) as Ht by by destruct float.
  destruct (add_column_room p COL_TIMESTAMP TIMESTAMP_NS 0 [] Hp eq_refl eq_refl) as (Hp1 & Hs1 & Hc1 & Hg1); [cbn [column_type_size]; lia|].
  destruct (add_column_room _ COL_PRICE t _ _ Hp1 Hg1 eq_refl) as (Hp2 & Hs2 & Hc2 & Hg2); [rewrite Ht; destruct Hs1 as (_ & _ & _ & ->); cbn [column_type_size]; lia|].
  rewrite Ht in Hg2. pose proof (same_partition_trans _ _ _ Hs1 Hs2) as Hs12.
  destruct (add_column_room _ COL_VOLUME INT64 _ _ Hp2 Hg2 eq_refl) as (Hp3 & Hs3 & Hc3 & Hg3);
    [destruct Hs12 as (_ & _ & _ & ->); cbn [column_type_size]; lia|].
  pose proof (same_partition_trans _ _ _ Hs12 Hs3) as Hs13.
  destruct (add_column_room _ COL_MSG_TYPE INT32 _ _ Hp3 Hg3 eq_refl) as (Hp4 & Hs4 & Hc4 & Hg4);
    [destruct Hs13 as (_ & _ & _ & ->); cbn [column_type_size]; lia|].
  split; [|by eapply same_partition_trans]. unfold init_tick_columns. fold t. split; [done| |].
  - rewrite Hc4, Hc3, Hc2, Hc1. done.
  - exists 0%nat. split; [simpl; unfold rows_at; lia|]. by rewrite Hg4.
Qed.

(** ** A full arena *)

Lemma append_at_full p i v n e off (G : list (Z * Z * Z)) :
  partition_ok p → geometry p = (off, G) → G !! i = Some (n, n, e) → 0 < n → off mod 64 = 0 →
  total_size_ (arena_ p) < off + 2 * n * e → append_at p i v = (false, p).
Proof.
  intros Hp [= <- <-] Hi Hn Hm Hfit. apply list_lookup_fmap_Some in Hi as (c & [= Hsz -> ->] & Hi).
  destruct (column_at p i c Hp Hi) as [Hc _]. pose proof (so_arena _ _ (po_store _ Hp)) as Ha. pose proof (po_size _ Hp).
  pose proof (elem_size_range _ _ Hc). pose proof (co_end _ _ Hc) as He. pose proof (co_base _ _ Hc). pose proof (co_size _ _ Hc).
  unfold block_end in He. assert (capacity_ c < 2 ^ 56) as Hcap by (destruct Ha; nia).
  unfold append_at. rewrite Hi. unfold append, ensure_capacity. rewrite <- Hsz, wrap_small by lia.
  rewrite (proj2 (Z.leb_gt _ _)), (proj2 (Z.eqb_neq (capacity_ c) 0)) by lia.
  assert (grow 64 (capacity_ c) (capacity_ c + 1) = 2 * capacity_ c) as ->.
  { cbn [grow]. rewrite (proj2 (Z.ltb_lt _ _)) by lia. unfold GROWTH_FACTOR. rewrite wrap_small by lia.
    rewrite (proj2 (Z.ltb_ge _ _)) by lia. lia. }
  rewrite (wrap_small 64 (2 * capacity_ c * elem_size_ c)) by nia. unfold allocate, attempt.
  destruct Ha as [Ho Ht]. rewrite align_up_multiple by (done || lia). rewrite wrap_small by nia.
  rewrite (proj2 (Z.ltb_lt _ _)) by lia. rewrite list_insert_id by done. by destruct p.
Qed.

(** A partition of the default size takes 524288 ticks. *)
Lemma default_room : room (total_size_ (make_arena (arena_size_per_partition default_pipeline_config) true)) 524288.
Proof. exists 6%nat. by vm_compute. Qed.

Lemma level_of_full j : 524288 <= rows_at j → bytes_at_level j <= 2 ^ 25 → j = 6%nat.
Proof.
  intros Hn Hb. assert (5 < j)%nat by (apply rows_at_mono; change (rows_at 5) with 262144; lia).
  destruct (decide (j = 6%nat)) as [|Hne]; [done|]. pose proof (rows_at_le 7 j ltac:(lia)) as Hr.
  change (rows_at 7) with 1048576 in Hr. unfold bytes_at_level in Hb. lia.
Qed.

(** The tick behind them is lost, and the partition with it: its time stamp, price
    and volume find no room, its message type does. From then on the columns
    differ in length, so the partition can neither be flushed nor snapshotted,
    while the tick counts as stored. *)
Theorem full_partition_loses_ticks p float msgs msg :
  stores p float msgs → Z.of_nat (length msgs) = 524288 → total_size_ (arena_ p) = 2 ^ 25 →
  ∃ p', store_row msg p = Some (false, p') ∧ contents p' = alter (push_value (push_le 4 (msg_type msg))) 3%nat (contents p) ∧
    consistent p' = false.
Proof.
  intros [Hp Hc (j & Hj & Hg)] Hn Ht. rewrite Hn in Hj, Hg.
  assert (j = 6%nat) as ->.
  { apply level_of_full; [done|]. pose proof (contents_arena p Hp). apply (f_equal fst) in Hg. simpl in Hg. lia. }
  change (bytes_at_level 6) with 29130752 in Hg. change (rows_at 6) with 524288 in Hg.
  pose proof (append_at_full p 0 (push_le 8 (recv_ts msg)) _ _ _ _ Hp Hg eq_refl ltac:(lia) eq_refl ltac:(lia)) as H0.
  pose proof (append_at_full p 1 (push_le 8 (price msg)) _ _ _ _ Hp Hg eq_refl ltac:(lia) eq_refl ltac:(lia)) as H1.
  pose proof (append_at_full p 2 (push_le 8 (volume msg)) _ _ _ _ Hp Hg eq_refl ltac:(lia) eq_refl ltac:(lia)) as H2.
  destruct (append_at_room p 3 (push_le 4 (msg_type msg)) _ _ _ _ _ Hp Hg eq_refl ltac:(lia) eq_refl) as (p' & H3 & _ & _ & Hc' & Hg');
    [unfold taken; simpl; lia|done|apply push_le_bytes|].
  destruct (tick_columns _ _ _ Hc) as (Ht0 & Ht1 & Ht2 & Ht3). exists p'. split_and!; [|done|].
  - unfold store_row, append_tick. rewrite Ht0, Ht1, Ht2, Ht3. cbn [mbind option_bind].
    by rewrite H0; cbn [snd]; rewrite H1; cbn [snd]; rewrite H2; cbn [snd]; rewrite H3.
  - apply (f_equal snd) in Hg'. simpl in Hg'. unfold consistent, num_rows.
    destruct (columns_ p') as [|c0 [|c1 [|c2 [|c3 [|]]]]]; try done. simpl in Hg' |- *. injection Hg' as -> _ _ _ _ _ _ _ _ -> _ _.
    by rewrite !andb_false_r.
Qed.

(** ** The log of stored ticks *)

Definition key_of (msg : TickMessage) : PartitionKey :=
  mkKey (tick_table_id msg) (RingBuffer.symbol_id msg) (to_hour_epoch (recv_ts msg)).
Definition ticks_of (log : list TickMessage) (k : PartitionKey) : list TickMessage := filter (λ msg, key_of msg = k) log.

(** The first tick of a partition decides the type of its prices. *)
Definition float_of (msgs : list TickMessage) : bool :=
  match msgs with [] => false | msg :: _ => negb (price_is_float msg =? 0) end.

Definition ids_ok (table symbol : Z) : Prop := 0 <= table < 2 ^ 16 ∧ 0 <= symbol < 2 ^ 32.
Definition tick_ok (msg : TickMessage) : Prop := ids_ok (tick_table_id msg) (RingBuffer.symbol_id msg).

(** The bytes of a partition's arena. *)
Definition partition_bytes (m : PartitionManager) : Z := total_size_ (make_arena (arena_size_ m) true).

Definition view_tick (msg : TickMessage) : MVTick := mkMVTick (RingBuffer.symbol_id msg) (recv_ts msg) (price msg) (volume msg).

(** The pipeline holds the ticks of [log], each in the partition of its key, in
    order; its index finds the partitions of a table and symbol; its views have
    seen every tick. *)
Record represents (views : MaterializedViewManager) (pl : ZeptoPipeline) (log : list TickMessage) : Prop := {
  rp_manager : manager_ok (partition_mgr_ pl);
  rp_arena : 0 <= arena_size_ (partition_mgr_ pl) < 2 ^ 55;
  rp_log : Forall tick_ok log;
  rp_present : ∀ k, partitions_ (partition_mgr_ pl) !! k = None ↔ ticks_of log k = [];
  rp_stores : ∀ k p, partitions_ (partition_mgr_ pl) !! k = Some p →
    stores p (float_of (ticks_of log k)) (ticks_of log k) ∧ total_size_ (arena_ p) = partition_bytes (partition_mgr_ pl);
  rp_index : ∀ table symbol id, ids_ok table symbol →
    (id ∈ find_partitions table symbol pl ↔
     ∃ hour p, partitions_ (partition_mgr_ pl) !! mkKey table symbol hour = Some p ∧ p_id p = id);
  rp_distinct : ∀ table symbol, ids_ok table symbol → NoDup (find_partitions table symbol pl);
  rp_stored : ticks_stored (stats_ pl) = u64 (Z.of_nat (length log));
  rp_views : mat_view_mgr_ pl = foldl (λ v msg, on_tick (view_tick msg) v) views log;
}.

Lemma index_key_spec table symbol : ids_ok table symbol → index_key table symbol = table * 2 ^ 32 + symbol.
Proof.
  intros [Ht Hs]. unfold index_key. rewrite Z.shiftl_mul_pow2, !wrap_small by lia.
  pose proof (Z.add_lor_land (table * 2 ^ 32) symbol) as H. replace (Z.land (table * 2 ^ 32) symbol) with 0 in H; [lia|].
  symmetry. apply Z.bits_inj'. intros i Hi. rewrite Z.land_spec, Z.bits_0.
  destruct (decide (i < 32)); [by rewrite Z.mul_pow2_bits_low by lia|].
  rewrite <- (Z.mod_small symbol (2 ^ 32)), Z.mod_pow2_bits_high, andb_false_r by lia. done.
Qed.

Lemma index_key_inj table symbol table' symbol' : ids_ok table symbol → ids_ok table' symbol' →
  index_key table symbol = index_key table' symbol' → table = table' ∧ symbol = symbol'.
Proof. intros H H'. rewrite !index_key_spec by done. destruct H, H'. lia. Qed.

(** ** Storing one tick *)

Lemma store_row_old p float msgs msg :
  stores p float msgs → room (total_size_ (arena_ p)) (Z.of_nat (length msgs) + 1) →
  ∃ p', store_row msg p = Some (false, p') ∧ stores p' float (msgs ++ [msg]) ∧ same_partition p p'.
Proof.
  intros Hst Hroom. destruct (append_tick_stores p float msgs msg Hst Hroom) as (p' & Ha & Hp').
  exists p'. split; [|done]. unfold store_row. destruct (tick_columns _ _ _ (st_contents _ _ _ Hst)) as (-> & _). by rewrite Ha.
Qed.

Lemma room_start total n : room total n → bytes_at_level 0 <= total.
Proof.
  intros (j & _ & Hj). etrans; [|done]. pose proof (rows_at_le 0 j ltac:(lia)). unfold bytes_at_level. lia.
Qed.

Lemma store_row_new id k size msg :
  0 <= size < 2 ^ 55 → room (total_size_ (make_arena size true)) 1 →
  let p := new_partition id k (make_arena size true) in
  ∃ p', store_row msg p = Some (true, p') ∧ stores p' (negb (price_is_float msg =? 0)) [msg] ∧ same_partition p p'.
Proof.
  intros Hs Hr p. destruct (init_tick_columns_stores id k size (negb (price_is_float msg =? 0)) Hs (room_start _ _ Hr)) as [Hi Hsame].
  fold p in Hi, Hsame. destruct (append_tick_stores _ _ _ msg Hi) as (p' & Ha & Hst & Hs').
  { destruct Hsame as (_ & _ & _ & ->). done. }
  exists p'. split; [|split; [done|by eapply same_partition_trans]]. unfold store_row. change (column_position p COL_TIMESTAMP) with (@None nat).
  by rewrite Ha.
Qed.

(** The manager after a tick was stored: one partition more, or one changed. *)
Lemma store_manager m msg : manager_ok m →
  let '(p, m') := get_or_create m (tick_table_id msg) (RingBuffer.symbol_id msg) (recv_ts msg) in
  key_ p = key_of msg ∧
  (partitions_ m !! key_of msg = Some p ∧ m' = m ∨
   partitions_ m !! key_of msg = None ∧ p = new_partition (next_id_ m) (key_of msg) (make_arena (arena_size_ m) true) ∧
   next_id_ m' = next_id_ m + 1) ∧
  ∀ p', same_partition p p' →
    partitions_ (with_partition m' (key_ p) (λ _, p')) = <[key_of msg := p']> (partitions_ m) ∧
    arena_size_ (with_partition m' (key_ p) (λ _, p')) = arena_size_ m ∧
    manager_ok (with_partition m' (key_ p) (λ _, p')).
Proof.
  intros Hm. pose proof (manager_ok_op m (OpGet (tick_table_id msg) (RingBuffer.symbol_id msg) (recv_ts msg)) I Hm) as Hm'.
  simpl in Hm'. unfold get_or_create in *. fold (key_of msg) in *.
  assert (∀ m0 p p', manager_ok m0 → partitions_ m0 !! key_of msg = Some p → same_partition p p' →
    manager_ok (with_partition m0 (key_of msg) (λ _, p'))) as Hw.
  { intros m0 p p' H0 Hp (Hid & Hk & _). apply (manager_ok_map m0 (λ k q, if decide (k = key_of msg)
      then mkPartition (p_id q) (key_ q) (state_ p') (arena_ p') (memory_ p') (columns_ p') (sorted_columns_ p') (grouped_indexes_ p')
        (parted_indexes_ p') else q)); [intros k q; by case_decide| |done].
    intros k. simpl. destruct (decide (k = key_of msg)) as [->|Hne]; [|rewrite lookup_alter_ne by done; by destruct (partitions_ m0 !! k)].
    rewrite lookup_alter_eq, Hp. simpl. rewrite <- Hid, <- Hk. by destruct p'. }
  destruct (partitions_ m !! key_of msg) as [p|] eqn:Hp.
  - destruct (mo_key _ Hm _ _ Hp) as [Hk _]. split; [done|]. split; [by left|]. intros p' Hs. rewrite Hk. split_and!; [|done|by eapply Hw].
    simpl. apply map_eq. intros k. rewrite lookup_insert. case_decide as Heq; [|by rewrite lookup_alter_ne].
    by rewrite <- Heq, lookup_alter_eq, Hp.
  - split; [done|]. split; [by right|]. intros p' Hs. simpl. split_and!; [|done|].
    + apply map_eq. intros k. rewrite lookup_insert. case_decide as Heq.
      * by rewrite <- Heq, lookup_alter_eq, lookup_insert_eq.
      * by rewrite lookup_alter_ne, lookup_insert_ne.
    + eapply (Hw _ (new_partition (next_id_ m) (key_of msg) (make_arena (arena_size_ m) true))); [done| |done].
      simpl. by rewrite lookup_insert_eq.
Qed.

Lemma ticks_of_snoc log msg k : ticks_of (log ++ [msg]) k = ticks_of log k ++ (if decide (key_of msg = k) then [msg] else []).
Proof. unfold ticks_of. by rewrite filter_app. Qed.

Lemma ticks_of_other log msg k : key_of msg ≠ k → ticks_of (log ++ [msg]) k = ticks_of log k.
Proof. intros H. by rewrite ticks_of_snoc, decide_False, app_nil_r. Qed.

Lemma float_of_snoc msgs msg : msgs ≠ [] → float_of (msgs ++ [msg]) = float_of msgs.
Proof. by destruct msgs. Qed.

(** What storing a tick must not touch. *)
Definition same_front (pl pl' : ZeptoPipeline) : Prop :=
  pl_config pl' = pl_config pl ∧ tick_plant_ pl' = tick_plant_ pl ∧ schema_registry_ pl' = schema_registry_ pl ∧
  symbol_dict_ pl' = symbol_dict_ pl ∧ pl_running pl' = pl_running pl ∧ arena_size_ (partition_mgr_ pl') = arena_size_ (partition_mgr_ pl).

(** The index after a partition was added to it, or not. *)
Definition index_after (is_new : bool) (msg : TickMessage) (id : Z) (index : gmap Z (list Z)) : gmap Z (list Z) :=
  let key := index_key (tick_table_id msg) (RingBuffer.symbol_id msg) in
  if is_new then <[key := default [] (index !! key) ++ [id]]> index else index.

Lemma index_after_other (is_new : bool) msg id index table symbol : tick_ok msg → ids_ok table symbol →
  (tick_table_id msg, RingBuffer.symbol_id msg) ≠ (table, symbol) →
  index_after is_new msg id index !! index_key table symbol = index !! index_key table symbol.
Proof.
  intros Hm Hk Hne. unfold index_after. destruct is_new; [|done]. rewrite lookup_insert_ne; [done|].
  intros Heq. apply index_key_inj in Heq as [Ht Hs]; [|done..]. by rewrite Ht, Hs in Hne.
Qed.

(** A tick that was put into partition [p], giving [p']. *)
Lemma represents_store views pl pl' log msg is_new p p' m' :
  represents views pl log → tick_ok msg →
  get_or_create (partition_mgr_ pl) (tick_table_id msg) (RingBuffer.symbol_id msg) (recv_ts msg) = (p, m') →
  is_new = bool_decide (partitions_ (partition_mgr_ pl) !! key_of msg = None) →
  same_partition p p' → stores p' (float_of (ticks_of log (key_of msg) ++ [msg])) (ticks_of log (key_of msg) ++ [msg]) →
  partition_mgr_ pl' = with_partition m' (key_ p) (λ _, p') →
  partition_index_ pl' = index_after is_new msg (p_id p) (partition_index_ pl) →
  ticks_stored (stats_ pl') = u64 (ticks_stored (stats_ pl) + 1) →
  mat_view_mgr_ pl' = on_tick (view_tick msg) (mat_view_mgr_ pl) →
  represents views pl' (log ++ [msg]).
Proof.
  intros [Hm Harena Hlog Hpres Hstores Hindex Hdist Hcount Hviews] Hok Hget Hnew Hsame Hst Hpm Hix Hst' Hvw.
  pose proof (store_manager (partition_mgr_ pl) msg Hm) as Hsm. rewrite Hget in Hsm. destruct Hsm as (Hkey & Hcase & Hsm).
  destruct (Hsm p' Hsame) as (Hps & Has & Hm2). split; rewrite ?Hpm, ?Has, ?Hps; try done.
  - apply Forall_app_2; [done|by constructor].
  - intros k. rewrite lookup_insert. case_decide as Hk.
    + subst k. rewrite ticks_of_snoc, decide_True by done. by destruct (ticks_of log (key_of msg)).
    + by rewrite ticks_of_other.
  - intros k q. rewrite lookup_insert. case_decide as Hk.
    + intros [= <-]. subst k. rewrite ticks_of_snoc, decide_True by done. split; [done|].
      destruct Hsame as (_ & _ & _ & ->). unfold partition_bytes. rewrite Has.
      destruct Hcase as [[Hp ->]|(Hp & -> & _)]; [by apply (Hstores (key_of msg))|done].
    + intros Hq. rewrite ticks_of_other by done. unfold partition_bytes. rewrite Has. by apply Hstores.
  - intros table symbol id Hids. specialize (Hindex table symbol). unfold find_partitions in *. rewrite Hix.
    assert ((∃ hour q, <[key_of msg := p']> (partitions_ (partition_mgr_ pl)) !! mkKey table symbol hour = Some q ∧ p_id q = id) ↔
      ((tick_table_id msg, RingBuffer.symbol_id msg) = (table, symbol) ∧ id = p_id p) ∨
      ∃ hour q, partitions_ (partition_mgr_ pl) !! mkKey table symbol hour = Some q ∧ p_id q = id) as ->.
    { split.
      - intros (hour & q & [[Heq <-]|[_ Hq]]%lookup_insert_Some & <-); [left|right; by exists hour, q].
        destruct Hsame as (-> & _). unfold key_of in Heq. by simplify_eq.
      - intros [[[= <- <-] ->]|(hour & q & Hq & <-)].
        + exists (to_hour_epoch (recv_ts msg)), p'. fold (key_of msg). rewrite lookup_insert_eq. by destruct Hsame as (-> & _).
        + destruct (decide (key_of msg = mkKey table symbol hour)) as [Heq|Hne].
          * exists hour, p'. rewrite Heq, lookup_insert_eq. split; [done|]. destruct Hsame as (-> & _).
            destruct Hcase as [[Hp _]|[Hp _]]; rewrite Heq in Hp; by simplify_eq.
          * exists hour, q. by rewrite lookup_insert_ne. }
    rewrite <- Hindex by done. destruct (decide ((tick_table_id msg, RingBuffer.symbol_id msg) = (table, symbol))) as [Heq|Hne].
    2:{ rewrite index_after_other by done. naive_solver. }
    injection Heq as <- <-. subst is_new. destruct Hcase as [[Hp _]|(Hp & _ & _)]; rewrite Hp; simpl.
    + split; [by right|]. intros [[_ ->]|]; [|done]. apply Hindex; [done|]. exists (to_hour_epoch (recv_ts msg)), p. by fold (key_of msg).
    + rewrite lookup_insert_eq. simpl. rewrite elem_of_app, list_elem_of_singleton. naive_solver.
  - intros table symbol Hids. specialize (Hdist table symbol Hids). unfold find_partitions in *. rewrite Hix.
    destruct (decide ((tick_table_id msg, RingBuffer.symbol_id msg) = (table, symbol))) as [Heq|Hne]; [|by rewrite index_after_other].
    injection Heq as <- <-. subst is_new. destruct Hcase as [[Hp _]|(Hp & -> & _)]; rewrite Hp; simpl; [done|].
    rewrite lookup_insert_eq. simpl. apply NoDup_app. split_and!; [done| |apply NoDup_singleton].
    intros id Hid Hin%list_elem_of_singleton. apply Hindex in Hid as (hour & q & Hq & Hqid); [|done].
    destruct (mo_key _ Hm _ _ Hq). lia.
  - rewrite Hst', Hcount, length_app. simpl. rewrite u64_add. f_equal. lia.
  - rewrite foldl_app, Hvw, Hviews. done.
Qed.

(** How many ticks a partition has to take. *)
Definition fits (m : PartitionManager) (log : list TickMessage) : Prop :=
  ∀ k, room (partition_bytes m) (Z.of_nat (length (ticks_of log k))).

Lemma evict_not_limited id pl : max_memory_bytes (pl_config pl) <= 0 → evict_over_limit id pl = pl.
Proof. intros H. unfold evict_over_limit. by rewrite (proj2 (Z.ltb_ge _ _)). Qed.

(** Storing a tick succeeds, adds it to the log, and keeps the partition it belongs
    to. *)
Lemma store_tick_spec views pl log msg :
  represents views pl log → tick_ok msg → max_memory_bytes (pl_config pl) <= 0 →
  room (partition_bytes (partition_mgr_ pl)) (Z.of_nat (length (ticks_of log (key_of msg))) + 1) →
  ∃ pl', store_tick msg pl = Some pl' ∧ represents views pl' (log ++ [msg]) ∧ same_front pl pl' ∧
    ∃ p', partitions_ (partition_mgr_ pl') !! key_of msg = Some p' ∧
      p_id p' = p_id (get_or_create (partition_mgr_ pl) (tick_table_id msg) (RingBuffer.symbol_id msg) (recv_ts msg)).1.
Proof.
  intros Hrep Hok Hmax Hroom. pose proof (store_manager (partition_mgr_ pl) msg (rp_manager _ _ _ Hrep)) as Hsm.
  destruct (get_or_create (partition_mgr_ pl) (tick_table_id msg) (RingBuffer.symbol_id msg) (recv_ts msg)) as [p m'] eqn:Hget.
  destruct Hsm as (Hkey & Hcase & Hsm).
  set (is_new := bool_decide (partitions_ (partition_mgr_ pl) !! key_of msg = None)).
  assert (∃ p', store_row msg p = Some (is_new, p') ∧ same_partition p p' ∧
    stores p' (float_of (ticks_of log (key_of msg) ++ [msg])) (ticks_of log (key_of msg) ++ [msg])) as (p' & Hrow & Hsame & Hst).
  { unfold is_new. destruct Hcase as [[Hp ->]|(Hp & -> & _)].
    - destruct (rp_stores _ _ _ Hrep _ _ Hp) as [Hst Htot]. rewrite Hp, float_of_snoc.
      + destruct (store_row_old p _ _ msg Hst) as (p' & ? & ? & ?); [by rewrite Htot|]. by exists p'.
      + intros Hnil%(rp_present _ _ _ Hrep). by rewrite Hp in Hnil.
    - pose proof Hp as Hnil%(rp_present _ _ _ Hrep). rewrite Hp, Hnil in *. simpl.
      destruct (store_row_new (next_id_ (partition_mgr_ pl)) (key_of msg) (arena_size_ (partition_mgr_ pl)) msg) as (p' & ? & ? & ?);
        [apply Hrep|done|]. by exists p'. }
  eexists. split_and!.
  - unfold store_tick. rewrite Hget, Hrow. cbn [mbind option_bind]. reflexivity.
  - rewrite evict_not_limited by by destruct is_new. apply (represents_store views pl _ log msg is_new p p' m'); try done; by destruct is_new.
  - rewrite evict_not_limited by by destruct is_new. destruct (Hsm p' Hsame) as (_ & Has & _). by destruct is_new.
  - rewrite evict_not_limited by by destruct is_new. destruct (Hsm p' Hsame) as (Hps & _). exists p'.
    split; [|by destruct Hsame]. rewrite <- (lookup_insert_eq (partitions_ (partition_mgr_ pl)) (key_of msg) p'), <- Hps. by destruct is_new.
Qed.

Lemma store_tick_represents views pl log msg :
  represents views pl log → tick_ok msg → max_memory_bytes (pl_config pl) <= 0 →
  room (partition_bytes (partition_mgr_ pl)) (Z.of_nat (length (ticks_of log (key_of msg))) + 1) →
  ∃ pl', store_tick msg pl = Some pl' ∧ represents views pl' (log ++ [msg]) ∧ same_front pl pl'.
Proof.
  intros Hrep Hok Hmax Hroom. destruct (store_tick_spec views pl log msg Hrep Hok Hmax Hroom) as (pl' & ? & ? & ? & _). by exists pl'.
Qed.

(** ** The queue *)

(** A run: calls that put a tick into the queue, and drains of some ticks. *)
Inductive pl_op : Type :=
  | OpIngest (now : Z) (msg : TickMessage)
  | OpDrain (max_items : Z).

Definition stamped (now seq : Z) (m : TickMessage) : TickMessage :=
  mkTick seq now (RingBuffer.symbol_id m) (price m) (volume m) (msg_type m) (price_is_float m) (tick_table_id m).

(** The abstract pipeline: what was stored, what waits, and how many ticks came. *)
Record tick_log : Type := mkLog { log_stored : list TickMessage; log_queue : list TickMessage; log_seq : Z }.

Definition log_op (op : pl_op) (l : tick_log) : tick_log :=
  match op with
  | OpIngest now msg => mkLog (log_stored l) (log_queue l ++ [stamped now (log_seq l) msg]) (u64 (log_seq l + 1))
  | OpDrain n => mkLog (log_stored l ++ take (Z.to_nat n) (log_queue l)) (drop (Z.to_nat n) (log_queue l)) (log_seq l)
  end.

Definition run_op (op : pl_op) (pl : ZeptoPipeline) : option ZeptoPipeline :=
  match op with
  | OpIngest now msg => snd <$> ingest_tick now msg pl
  | OpDrain n => snd <$> drain_sync (S (Z.to_nat n)) n 0 pl
  end.

(** The pipeline [pl] behaves as the log [l]. *)
Record behaves (views : MaterializedViewManager) (pl : ZeptoPipeline) (l : tick_log) : Prop := {
  bh_stored : represents views pl (log_stored l);
  bh_queue : ∃ R, holds (queue_ (tick_plant_ pl)) R (log_queue l);
  bh_ticks : Forall tick_ok (log_queue l);
  bh_seq : seq_counter_ (tick_plant_ pl) = log_seq l;
  bh_limit : max_memory_bytes (pl_config pl) <= 0;
  bh_room : fits (partition_mgr_ pl) (log_stored l ++ log_queue l);
}.

Lemma same_front_trans p1 p2 p3 : same_front p1 p2 → same_front p2 p3 → same_front p1 p3.
Proof. unfold same_front. intros (-> & -> & -> & -> & -> & ->) (-> & -> & -> & -> & -> & ->). done. Qed.

Lemma room_le total n n' : n <= n' → room total n' → room total n.
Proof. intros Hn (j & Hj & Hb). exists j. split; [lia|done]. Qed.

(** A queue of another tick plant. *)
Lemma represents_plant views pl log plant : represents views pl log → represents views (set_plant plant pl) log.
Proof. by intros []. Qed.

Lemma ticks_of_app l1 l2 k : ticks_of (l1 ++ l2) k = ticks_of l1 k ++ ticks_of l2 k.
Proof. unfold ticks_of. apply filter_app. Qed.

(** The limits of the queue and of the arenas do not change. *)
Definition same_room (pl pl' : ZeptoPipeline) : Prop :=
  RingBuffer.capacity_ (queue_ (tick_plant_ pl')) = RingBuffer.capacity_ (queue_ (tick_plant_ pl)) ∧
  arena_size_ (partition_mgr_ pl') = arena_size_ (partition_mgr_ pl).

(** Taking one tick from the queue. *)
Lemma drain_one_behaves views pl l : behaves views pl l →
  match log_queue l with
  | [] => drain_one pl = Some (false, pl)
  | msg :: rest => ∃ pl', drain_one pl = Some (true, pl') ∧ behaves views pl' (mkLog (log_stored l ++ [msg]) rest (log_seq l)) ∧
      same_room pl pl'
  end.
Proof.
  intros [Hrep [R Hq] Hok Hseq Hlim Hroom]. unfold drain_one, consume. destruct (log_queue l) as [|msg rest] eqn:Hl.
  - rewrite (try_pop_empty _ R Hq). f_equal. f_equal. destruct pl as [? [] ? ? ? ? ? ? ? ?]. done.
  - destruct (try_pop_holds _ _ _ _ Hq) as (r' & Hpop & Hq').
    assert (RingBuffer.capacity_ r' = RingBuffer.capacity_ (queue_ (tick_plant_ pl))) as Hcap.
    { pose proof (try_pop_capacity (queue_ (tick_plant_ pl))) as Hc. by rewrite Hpop in Hc. }
    rewrite Hpop. apply Forall_cons in Hok as [Hm Hok].
    destruct (store_tick_represents views (set_plant (mkPlant r' (seq_counter_ (tick_plant_ pl))) pl) (log_stored l) msg)
      as (pl' & -> & Hrep' & Hfront); [by apply represents_plant|done|done| |].
    { eapply room_le; [|apply (Hroom (key_of msg))]. rewrite ticks_of_app, length_app. unfold ticks_of at 3.
      rewrite filter_cons, decide_True by done. simpl. lia. }
    destruct Hfront as (Hc & Hp & _ & _ & _ & Ha). exists pl'. split; [done|]. split; [|by split; [rewrite Hp|]].
    split; simpl; rewrite ?Hp, ?Hc; try done.
    + by exists (R + 1).
    + unfold fits, partition_bytes in *. rewrite Ha. intros k. rewrite <- app_assoc. apply Hroom.
Qed.

(** [drain_sync] takes as many as it may and as there are. *)
Lemma drain_sync_behaves views n : ∀ fuel count pl l,
  behaves views pl l → (n < fuel)%nat →
  ∃ pl', drain_sync fuel (count + Z.of_nat n) count pl = Some (count + Z.of_nat (length (take n (log_queue l))), pl') ∧
    behaves views pl' (log_op (OpDrain (Z.of_nat n)) l) ∧ same_room pl pl'.
Proof.
  induction n as [|n IH]; intros [|fuel] count pl l Hb Hf; try lia; cbn [drain_sync].
  - rewrite (proj2 (Z.leb_le _ _)) by lia. exists pl. split; [do 2 f_equal; simpl; lia|]. split; [|done].
    destruct l. cbn. by rewrite app_nil_r.
  - rewrite (proj2 (Z.leb_gt _ _)) by lia. pose proof (drain_one_behaves _ _ _ Hb) as H1. destruct (log_queue l) as [|msg rest] eqn:Hl.
    + rewrite H1. cbn [mbind option_bind]. exists pl. split; [do 2 f_equal; simpl; lia|]. split; [|done].
      cbn [log_op]. rewrite Nat2Z.id, Hl, app_nil_r. by destruct l; simplify_eq/=.
    + destruct H1 as (pl1 & -> & Hb1 & Hc1). cbn [mbind option_bind].
      destruct (IH fuel (count + 1) pl1 _ Hb1 ltac:(lia)) as (pl' & Hd & Hb' & Hc').
      replace (count + Z.of_nat (S n)) with (count + 1 + Z.of_nat n) by lia. exists pl'. split.
      * rewrite Hd. do 2 f_equal. cbn [log_queue take length]. lia.
      * split; [|by destruct Hc1, Hc'; split; congruence]. cbn [log_op log_stored log_queue log_seq] in *. rewrite Nat2Z.id in *. rewrite Hl.
        cbn [take drop]. by rewrite <- app_assoc in Hb'.
Qed.

Lemma represents_count views pl log f : represents views pl log → (∀ s, ticks_stored (f s) = ticks_stored s) →
  represents views (count_stats f pl) log.
Proof. intros [] Hf. split; try done. simpl. by rewrite Hf. Qed.

(** A tick that finds room in the queue waits there. *)
Lemma ingest_tick_behaves views pl l now msg :
  behaves views pl l → tick_ok msg → Z.of_nat (length (log_queue l)) < RingBuffer.capacity_ (queue_ (tick_plant_ pl)) →
  fits (partition_mgr_ pl) (log_stored l ++ log_queue l ++ [stamped now (log_seq l) msg]) →
  ∃ pl', ingest_tick now msg pl = Some (true, pl') ∧ behaves views pl' (log_op (OpIngest now msg) l) ∧
    same_room pl pl'.
Proof.
  intros [Hrep [R Hq] Hok Hseq Hlim Hroom] Hm Hlt Hfits. unfold ingest_tick, ingest. rewrite Hseq. fold (stamped now (log_seq l) msg).
  destruct (try_push_holds _ _ _ (stamped now (log_seq l) msg) Hq Hlt) as (r' & Hp & Hq').
  pose proof (try_push_capacity (queue_ (tick_plant_ pl)) (stamped now (log_seq l) msg)) as Hc.
  rewrite Hp in Hc |- *. eexists. split; [done|]. split; [|done]. split; simpl; try done.
  - by apply represents_count; [apply represents_plant|].
  - by exists R.
  - apply Forall_app_2; [done|by constructor].
Qed.

(** ** A whole run *)

Definition op_ok (op : pl_op) : Prop := match op with OpIngest _ msg => tick_ok msg | OpDrain n => 0 <= n end.

(** The log of a run; [None] when a tick finds the queue full. *)
Fixpoint run_log (capacity : Z) (ops : list pl_op) (l : tick_log) : option tick_log :=
  match ops with
  | [] => Some l
  | op :: ops =>
      match op with
      | OpIngest _ _ => if Z.of_nat (length (log_queue l)) <? capacity then run_log capacity ops (log_op op l) else None
      | OpDrain _ => run_log capacity ops (log_op op l)
      end
  end.

Fixpoint run_ops (ops : list pl_op) (pl : ZeptoPipeline) : option ZeptoPipeline :=
  match ops with [] => Some pl | op :: ops => pl ← run_op op pl; run_ops ops pl end.

(** Everything that came, stored or waiting. *)
Definition came (l : tick_log) : list TickMessage := log_stored l ++ log_queue l.

Lemma came_op op l : op_ok op → ∃ new, came (log_op op l) = came l ++ new.
Proof.
  unfold came. destruct op as [now msg|n]; simpl; intros _.
  - eexists. by rewrite app_assoc.
  - exists []. by rewrite <- app_assoc, take_drop, app_nil_r.
Qed.

Lemma came_run capacity ops : ∀ l l', Forall op_ok ops → run_log capacity ops l = Some l' → ∃ new, came l' = came l ++ new.
Proof.
  induction ops as [|op ops IH]; intros l l' Hok H; [exists []; by simplify_eq/=; rewrite app_nil_r|].
  apply Forall_cons in Hok as [Ho Hok]. destruct (came_op op l Ho) as [n1 H1].
  assert (run_log capacity ops (log_op op l) = Some l') as Hr by (simpl in H; repeat case_match; done).
  destruct (IH _ _ Hok Hr) as [n2 H2]. exists (n1 ++ n2). by rewrite H2, H1, app_assoc.
Qed.

Lemma fits_prefix m l1 l2 : fits m (l1 ++ l2) → fits m l1.
Proof. intros H k. eapply room_le; [|apply (H k)]. rewrite ticks_of_app, length_app. lia. Qed.

Lemma run_ops_behaves views ops : ∀ pl l l',
  behaves views pl l → Forall op_ok ops → run_log (RingBuffer.capacity_ (queue_ (tick_plant_ pl))) ops l = Some l' →
  fits (partition_mgr_ pl) (came l') → ∃ pl', run_ops ops pl = Some pl' ∧ behaves views pl' l'.
Proof.
  induction ops as [|op ops IH]; intros pl l l' Hb Hok H Hfits; [simplify_eq/=; by exists pl|].
  apply Forall_cons in Hok as [Ho Hok].
  assert (run_log (RingBuffer.capacity_ (queue_ (tick_plant_ pl))) ops (log_op op l) = Some l') as Hr
    by (simpl in H; repeat case_match; done).
  destruct (came_run _ _ _ _ Hok Hr) as [new Hnew].
  assert (∃ pl1, run_op op pl = Some pl1 ∧ behaves views pl1 (log_op op l) ∧ same_room pl pl1) as (pl1 & H1 & Hb1 & [Hc Ha]).
  { destruct op as [now msg|n]; cbn [run_op run_log op_ok log_op] in *.
    - destruct (Z.ltb_spec (Z.of_nat (length (log_queue l))) (RingBuffer.capacity_ (queue_ (tick_plant_ pl)))); [|done].
      destruct (ingest_tick_behaves views pl l now msg Hb Ho) as (pl1 & -> & ?); [done| |by exists pl1].
      rewrite Hnew in Hfits. by apply fits_prefix in Hfits.
    - destruct (Z_of_nat_complete n Ho) as [k ->]. rewrite Nat2Z.id.
      destruct (drain_sync_behaves views k (S k) 0 pl l Hb) as (pl1 & Hd & ?); [lia|]. rewrite Z.add_0_l in Hd. rewrite Hd.
      exists pl1. split; [done|]. by cbn [log_op] in *; rewrite Nat2Z.id in *. }
  cbn [run_ops]. rewrite H1. cbn [mbind option_bind]. apply (IH pl1 (log_op op l)); [done|done|by rewrite Hc|].
  unfold fits, partition_bytes. by rewrite Ha.
Qed.

(** A new pipeline is empty. *)
Lemma new_pipeline_behaves config catalog pl :
  new_pipeline config catalog = Returned pl → 0 <= arena_size_per_partition config < 2 ^ 55 → max_memory_bytes config <= 0 →
  room (partition_bytes (partition_mgr_ pl)) 0 → behaves no_views pl (mkLog [] [] 0).
Proof.
  unfold new_pipeline, new_plant. intros H Ha Hm Hr.
  destruct (resolve_ring_buffer_capacity (ring_buffer_capacity config)) as [cap|] eqn:Hcap; [|done]. cbn [outcome_bind] in H.
  destruct (make_ring cap) as [q|] eqn:Hq; [|done]. cbn [outcome_bind] in H.
  destruct (check_config config) as [c|] eqn:Hc; [|done]. cbn [outcome_bind] in H.
  destruct (load_catalog c catalog) as [r|] eqn:Hl; [|done]. cbn [outcome_bind] in H. injection H as <-.
  assert (arena_size_per_partition c = arena_size_per_partition config ∧ max_memory_bytes c = max_memory_bytes config) as [Hca Hcm].
  { unfold check_config in Hc. repeat case_match; by simplify_eq. }
  assert (0 <= cap < 2 ^ 64) as Hb.
  { unfold resolve_ring_buffer_capacity in Hcap. case_match eqn:Hg; [done|]. injection Hcap as <-.
    apply orb_false_iff in Hg as [[_ H1%Z.ltb_ge]%orb_false_iff H2%Z.ltb_ge]. unfold kMin, kMax in *. lia. }
  split; simpl; try done; [|by exists 0; apply (make_ring_holds cap)|by rewrite Hcm|intros k; apply Hr].
  split; simpl; try done.
  - by rewrite Hca.
  - intros t s id _. unfold find_partitions. simpl. rewrite lookup_empty. simpl. split; [by intros ?%not_elem_of_nil|].
    intros (h & p & Hp & _). by rewrite lookup_empty in Hp.
  - intros t s _. unfold find_partitions. simpl. rewrite lookup_empty. apply NoDup_nil_2.
Qed.


(** ** A run *)

Definition demo_ops : list pl_op :=
  [OpIngest 10 (mkTick 0 0 7 100 2 0 0 0); OpIngest (NS_PER_HOUR + 5) (mkTick 0 0 7 200 3 0 0 0);
   OpIngest (NS_PER_HOUR + 6) (mkTick 0 0 8 900 1 0 0 0); OpDrain 10].
Definition demo_log : list TickMessage :=
  [mkTick 0 10 7 100 2 0 0 0; mkTick 1 (NS_PER_HOUR + 5) 7 200 3 0 0 0; mkTick 2 (NS_PER_HOUR + 6) 8 900 1 0 0 0].

Definition demo_config : PipelineConfig :=
  mkPipelineConfig (32 * 1024 * 1024) 256 0 4096 PURE_IN_MEMORY "" default_flush_config false "" 0.

(** A new pipeline with a queue of 4096. *)
Lemma small_new config : ring_buffer_capacity config = 4096 → check_config config = Returned config →
  load_catalog config Missing = Returned empty_registry →
  ∃ pl, new_pipeline config Missing = Returned pl ∧ arena_size_ (partition_mgr_ pl) = arena_size_per_partition config ∧
    RingBuffer.capacity_ (queue_ (tick_plant_ pl)) = 4096 ∧ pl_config pl = config.
Proof.
  intros Hcap Hcheck Hload. unfold new_pipeline, new_plant. rewrite Hcap. change (resolve_ring_buffer_capacity 4096) with (Returned 4096).
  cbn [outcome_bind]. unfold make_ring. change ((4096 =? 0) || negb (Z.land 4096 (4096 - 1) =? 0)) with false. cbv iota. cbn [outcome_bind].
  rewrite Hcheck. cbn [outcome_bind]. rewrite Hload. cbn [outcome_bind]. eexists. split; [reflexivity|done].
Qed.

Lemma demo_new : ∃ pl, new_pipeline demo_config Missing = Returned pl ∧ arena_size_ (partition_mgr_ pl) = 32 * 1024 * 1024 ∧
  RingBuffer.capacity_ (queue_ (tick_plant_ pl)) = 4096.
Proof. destruct (small_new demo_config) as (pl & ? & ? & ? & _); [done..|]. by exists pl. Qed.

Lemma demo_fits m log : arena_size_ m = 32 * 1024 * 1024 → Z.of_nat (length log) <= 524288 → fits m log.
Proof.
  intros Ha Hl k. unfold partition_bytes. rewrite Ha. eapply room_le; [|apply default_room].
  unfold ticks_of. pose proof (length_filter (λ m, key_of m = k) log). lia.
Qed.

Lemma demo_ops_ok : Forall op_ok demo_ops.
Proof. unfold demo_ops. repeat constructor; by vm_compute. Qed.

Lemma demo_log_run : run_log 4096 demo_ops (mkLog [] [] 0) = Some (mkLog demo_log [] 3).
Proof. by vm_compute. Qed.

