(* ===== verification/DrainThreads.v ===== *)
(** * Several drain threads

    [ZeptoPipeline::start] ([src/core/pipeline.cpp]) starts at least two threads that
    run [drain_loop], unless the configuration says one. Each takes a tick from the
    queue and then stores it, and between the two the others run. [drain_one] of
    [TickPipeline] is both halves of one thread without interruption; here each half is
    a turn, and a schedule is the list of the threads that get the turns. A take
    interleaves with other uses of the queue as [RingBuffer] shows; [store_tick] holds
    the lock of its partition, and is one turn. *)

From S2P Require Import Prelude.
From S2P Require Import Bytes.
From S2P Require Import RingBuffer.
From S2P Require Import ColumnStore.
From S2P Require Import SchemaRegistry.
From S2P Require Import PartitionManager.
From S2P Require Import MaterializedView.
From S2P Require Import TickPipeline.
From S2P Require Import PipelineFacts.
From stdpp Require Import base list gmap.
From Stdlib Require Import ZArith Lia.

Open Scope Z_scope.

(** ** Turns *)

(** A thread between its two halves holds the tick it took. *)
Notation drain_threads := (list (option TickMessage)).

Definition drain_turn (i : nat) (st : ZeptoPipeline * drain_threads) : option (ZeptoPipeline * drain_threads) :=
  let '(pl, threads) := st in
  match threads !! i with
  | None => Some st
  | Some None =>
      let '(taken, plant) := consume (tick_plant_ pl) in Some (set_plant plant pl, <[i := taken]> threads)
  | Some (Some msg) => pl ← store_tick msg pl; Some (pl, <[i := None]> threads)
  end.

Fixpoint drain_turns (schedule : list nat) (st : ZeptoPipeline * drain_threads) : option (ZeptoPipeline * drain_threads) :=
  match schedule with
  | [] => Some st
  | i :: schedule => st ← drain_turn i st; drain_turns schedule st
  end.

(** One thread that is not interrupted does what [drain_one] does; with nothing to
    take its second turn looks into the queue again. *)
Lemma drain_alone pl : drain_turns [0; 0]%nat (pl, [None]) =
  match consume (tick_plant_ pl) with
  | (Some _, _) => '(_, pl) ← drain_one pl; Some (pl, [None])
  | (None, plant) => let '(taken, plant) := consume plant in Some (set_plant plant pl, [taken])
  end.
Proof.
  unfold drain_one. simpl. destruct (consume (tick_plant_ pl)) as [[msg|] plant]; simpl.
  - by destruct (store_tick msg (set_plant plant pl)).
  - by destruct (consume plant).
Qed.

(** ** Nothing is lost *)

Definition held (threads : drain_threads) : list TickMessage := omap id threads.

Lemma held_insert threads i o o' : threads !! i = Some o →
  held (<[i := o']> threads) ++ option_list o ≡ₚ option_list o' ++ held threads.
Proof.
  revert i. induction threads as [|t threads IH]; intros [|i] Hi; simplify_eq/=.
  - unfold held. destruct o as [x|], o' as [y|]; simpl; rewrite ?app_nil_r; try done.
    + f_equiv. symmetry. apply Permutation_cons_append.
    + symmetry. apply Permutation_cons_append.
  - specialize (IH i Hi). unfold held in *. destruct t; simpl; [|done]. rewrite IH. by rewrite Permutation_middle.
Qed.

Lemma fits_permutation m l l' : l ≡ₚ l' → fits m l → fits m l'.
Proof.
  intros Hl H k. specialize (H k). unfold ticks_of in *.
  assert (filter (λ msg, key_of msg = k) l ≡ₚ filter (λ msg, key_of msg = k) l') as Hp by by rewrite Hl.
  by rewrite (Permutation_length Hp) in H.
Qed.

(** What is stored, and what is still on its way. *)
Record draining (views : MaterializedViewManager) (stored queue : list TickMessage) (st : ZeptoPipeline * drain_threads) : Prop := {
  dr_stored : represents views st.1 stored;
  dr_queue : ∃ R, holds (queue_ (tick_plant_ st.1)) R queue;
  dr_ticks : Forall tick_ok (held st.2 ++ queue);
  dr_limit : max_memory_bytes (pl_config st.1) <= 0;
  dr_room : fits (partition_mgr_ st.1) (stored ++ held st.2 ++ queue);
}.

Lemma drain_turn_keeps views stored queue i st : draining views stored queue st →
  ∃ st' new queue', drain_turn i st = Some st' ∧ draining views (stored ++ new) queue' st' ∧ length st'.2 = length st.2 ∧
    (stored ++ new) ++ held st'.2 ++ queue' ≡ₚ stored ++ held st.2 ++ queue.
Proof.
  intros [Hrep [R Hq] Hok Hlim Hroom]. destruct st as [pl threads]. cbn [fst snd] in *. unfold drain_turn.
  destruct (threads !! i) as [[msg|]|] eqn:Hi.
  - pose proof (held_insert threads i _ None Hi) as Hheld. simpl in Hheld.
    assert (tick_ok msg ∧ Forall tick_ok (held (<[i := None]> threads) ++ queue)) as [Hm Hok'].
    { rewrite <- Hheld, <- app_assoc in Hok. cbn [app] in Hok. rewrite <- Permutation_middle, Forall_cons in Hok. exact Hok. }
    assert ((stored ++ [msg]) ++ held (<[i := None]> threads) ++ queue ≡ₚ stored ++ held threads ++ queue) as Hp.
    { rewrite <- app_assoc. f_equiv. rewrite <- Hheld, <- app_assoc. simpl. by rewrite Permutation_middle. }
    pose proof (fits_permutation _ _ _ (symmetry Hp) Hroom) as Hroom'.
    destruct (store_tick_represents views pl stored msg Hrep Hm Hlim) as (pl' & -> & Hrep' & (Hc & Hpl & _ & _ & _ & Ha)).
    { eapply room_le; [|apply (Hroom' (key_of msg))]. rewrite !ticks_of_app, !length_app. unfold ticks_of at 3.
      rewrite filter_cons, decide_True by done. simpl. lia. }
    exists (pl', <[i := None]> threads), [msg], queue. cbn [mbind option_bind fst snd]. split_and!; [done| |by rewrite length_insert|done].
    split; cbn [fst snd]; rewrite ?Hpl, ?Hc; try done; [by exists R|]. unfold fits, partition_bytes in *. by rewrite Ha.
  - unfold consume. destruct queue as [|msg queue].
    + rewrite (try_pop_empty _ R Hq). exists (pl, threads), [], []. rewrite !app_nil_r, list_insert_id by done.
      split_and!; [|split; cbn [fst snd]; try done; by exists R|done|done]. destruct pl as [? [] ? ? ? ? ? ? ? ?]. done.
    + destruct (try_pop_holds _ _ _ _ Hq) as (r' & Hpop & Hq'). rewrite Hpop.
      pose proof (held_insert threads i _ (Some msg) Hi) as Hheld. simpl in Hheld. rewrite app_nil_r in Hheld.
      assert (held (<[i := Some msg]> threads) ++ queue ≡ₚ held threads ++ msg :: queue) as Hp
        by (rewrite Hheld; simpl; by rewrite Permutation_middle).
      eexists _, [], queue. split; [done|]. rewrite !app_nil_r. cbn [fst snd]. rewrite length_insert, Hp.
      split_and!; [|done|done]. split; cbn [fst snd].
      * by apply represents_plant.
      * by exists (R + 1).
      * by rewrite Hp.
      * done.
      * eapply fits_permutation; [|exact Hroom]. by rewrite Hp.
  - exists (pl, threads), [], queue. rewrite app_nil_r. split_and!; [done| |done|done].
    split; [done|by exists R|done..].
Qed.

(** In any interleaving of any number of drain threads, with no tick coming in
    meanwhile, every turn succeeds, and each tick is stored once, or held by a thread,
    or still waits. The ticks of a partition are stored in the order of the second
    halves, which [ticks_swapped] shows need not be that of the queue. *)
Theorem drains_lose_nothing views pl l n schedule :
  behaves views pl l →
  ∃ pl' threads new queue, drain_turns schedule (pl, replicate n None) = Some (pl', threads) ∧
    represents views pl' (log_stored l ++ new) ∧ (∃ R, holds (queue_ (tick_plant_ pl')) R queue) ∧
    new ++ held threads ++ queue ≡ₚ log_queue l.
Proof.
  intros [Hrep Hq Hok Hseq Hlim Hroom].
  assert (held (replicate n None) = []) as Hnone by (induction n; done).
  assert (draining views (log_stored l) (log_queue l) (pl, replicate n None)) as Hd by (split; cbn [fst snd]; by rewrite ?Hnone).
  assert (∀ schedule stored queue st, draining views stored queue st →
    ∃ st' new queue', drain_turns schedule st = Some st' ∧ draining views (stored ++ new) queue' st' ∧
      (stored ++ new) ++ held st'.2 ++ queue' ≡ₚ stored ++ held st.2 ++ queue) as Hall.
  { clear. induction schedule as [|i schedule IH]; intros stored queue st Hst; cbn [drain_turns].
    - exists st, [], queue. by rewrite app_nil_r.
    - destruct (drain_turn_keeps _ _ _ i _ Hst) as (st1 & new1 & q1 & -> & Hst1 & _ & Hp1). cbn [mbind option_bind].
      destruct (IH _ _ _ Hst1) as (st2 & new2 & q2 & Hrun & Hst2 & Hp2). exists st2, (new1 ++ new2), q2.
      rewrite app_assoc. split_and!; [done|done|]. by rewrite Hp2. }
  destruct (Hall schedule _ _ _ Hd) as ([pl' threads] & new & queue & Hrun & [Hrep' Hq' _ _ _] & Hp). cbn [fst snd] in *.
  exists pl', threads, new, queue. split_and!; [done..|]. rewrite Hnone, <- app_assoc in Hp. by apply (inj (app (log_stored l))) in Hp.
Qed.

(** Two threads take one tick each, and the one that took the later stores first. *)
Definition swapped : option ZeptoPipeline :=
  pl ← match new_pipeline demo_config Missing with Returned pl => Some pl | Thrown _ => None end;
  pl ← run_ops [OpIngest 10 (mkTick 0 0 7 100 2 0 0 0); OpIngest 20 (mkTick 0 0 7 200 3 0 0 0)] pl;
  fst <$> drain_turns [0; 1; 1; 0]%nat (pl, [None; None]).

Lemma ticks_swapped :
  (pl ← swapped; p ← partitions_ (partition_mgr_ pl) !! mkKey 0 7 0; c ← columns_ p !! 0%nat;
   Some (as_span (memory_ p) c)) = Some [push_le 8 20; push_le 8 10].
Proof. vm_compute. reflexivity. Qed.
