(* ===== verification/TypedRows.v ===== *)
(** * Rows with a schema are stored whole

    Theorems on [ingest_typed_row] of [TickPipeline.v]. *)

From S2P Require Import Prelude.
From S2P Require Import Bytes.
From S2P Require Import Arena.
From S2P Require Import StringDictionary.
From S2P Require Import SchemaRegistry.
From S2P Require Import MaterializedView.
From S2P Require Import PartitionManager.
From S2P Require Import RingBuffer.
From S2P Require Import ColumnStore.
From S2P Require Import Rpc.
From S2P Require Import Hdb.
From S2P Require Import FlushManager.
From S2P Require Import TickPipeline.
From S2P Require Import PipelineFacts.
From stdpp Require Import base gmap list strings fin_maps.
From Stdlib Require Import ZArith Lia.

Open Scope Z_scope.

(** ** Rolling back *)

Definition more_rows (extra : list (list Z)) (e : entry) : entry := (e.1, e.2 ++ extra).

(** The columns of [p] are those of [p0] with more rows, and the touched ones are
    listed with the sizes they had. *)
Record touched_since (p0 p : Partition) (touched : list (nat * Z)) : Prop := {
  ts_columns : length (contents p) = length (contents p0);
  ts_rows : ∀ k (e : entry), contents p0 !! k = Some e → contents p !! k = Some e ∨
    (∃ extra, contents p !! k = Some (more_rows extra e)) ∧ (k, Z.of_nat (length e.2)) ∈ touched;
  ts_sizes : ∀ k n, (k, n) ∈ touched → ∃ e : entry, contents p0 !! k = Some e ∧ n = Z.of_nat (length e.2);
}.

Lemma column_of_entry p k (e : entry) : contents p !! k = Some e → ∃ c, columns_ p !! k = Some c ∧ e = entry_of (memory_ p) c.
Proof. unfold contents. intros H. apply list_lookup_fmap_Some in H as (c & -> & Hc). by exists c. Qed.

Lemma size_of_entry p k c (e : entry) : partition_ok p → columns_ p !! k = Some c → contents p !! k = Some e → size_ c = Z.of_nat (length e.2).
Proof.
  intros Hp Hc He. destruct (column_at p k c Hp Hc) as [_ ?]. rewrite (lookup_contents _ _ _ Hc) in He. injection He as <-.
  simpl. by rewrite length_as_span by lia.
Qed.

(** Setting every touched column back to its size undoes the row. *)
Lemma roll_back_spec p0 touched : ∀ p, partition_ok p → touched_since p0 p touched →
  partition_ok (roll_back touched p) ∧ same_partition p (roll_back touched p) ∧ contents (roll_back touched p) = contents p0.
Proof.
  induction touched as [|[k n] touched IH]; intros p Hp [Hlen Hrows Hsizes].
  { split_and!; [done|by repeat split|]. apply list_eq_same_length with (length (contents p0)); [done..|].
    intros k e e' _ He He'. destruct (Hrows k e' He') as [H|[_ H%not_elem_of_nil]]; [|done]. simpl in He. congruence. }
  destruct (Hsizes k n) as (e & He & ->); [by left|]. unfold roll_back. cbn [foldl fst snd]. fold (roll_back touched).
  assert (∃ extra, contents p !! k = Some (more_rows extra e)) as (extra & Hk).
  { destruct (Hrows k e He) as [H|[H _]]; [|done]. exists []. unfold more_rows. rewrite app_nil_r. by destruct e. }
  destruct (column_of_entry p k _ Hk) as (c & Hc & _).
  pose proof (size_of_entry p k c _ Hp Hc Hk) as Hsz. unfold more_rows in Hsz. cbn [snd] in Hsz. rewrite length_app in Hsz.
  destruct (set_size_at_spec p k c (Z.of_nat (length e.2)) Hp Hc) as (Hp1 & Hs1 & Hc1); [lia|].
  destruct (IH (set_size_at p k (Z.of_nat (length e.2))) Hp1) as (H1 & H2 & H3).
  - split; [by rewrite Hc1, length_alter| |intros k' n' Hin; apply Hsizes; by right].
    intros k' e' He'. rewrite Hc1. destruct (decide (k' = k)) as [->|Hne].
    + left. rewrite He in He'. injection He' as <-. rewrite list_lookup_alter_eq, Hk. simpl.
      rewrite Nat2Z.id, take_app_length. by destruct e.
    + rewrite list_lookup_alter_ne by done. destruct (Hrows k' e' He') as [H|[H Hin]]; [by left|].
      apply elem_of_cons in Hin as [[= -> _]|Hin]; [done|by right].
  - split_and!; [done|by eapply same_partition_trans|done].
Qed.

(** ** A row *)

Section Rows.
Context {F : FloatOps}.

(** What a row has for a column. *)
Definition column_bytes (values : gmap string TypedColumnValue) (name : string) (t : ColumnType) : option (list Z) :=
  match values !! name with None => Some (column_default t) | Some v => typed_bytes t v end.

Lemma column_bytes_ok values name t b : column_bytes values name t = Some b →
  length b = Z.to_nat (column_type_size t) ∧ Forall is_byte b.
Proof.
  assert (∀ n v, n = Z.to_nat (column_type_size t) → length (push_le n v) = Z.to_nat (column_type_size t) ∧ Forall is_byte (push_le n v))
    as Hpush by (intros n v ->; split; [apply length_push_le|apply push_le_bytes]).
  unfold column_bytes, column_default, typed_bytes. intros H.
  destruct (values !! name) as [v|]; [|apply (inj Some) in H as <-; by apply Hpush].
  destruct (negb _); [done|]. destruct t; try (apply (inj Some) in H as <-; by apply Hpush).
  - destruct (_ || _); [done|]. apply (inj Some) in H as <-. by apply Hpush.
  - apply (inj Some) in H as <-. split; [done|]. constructor; [|done]. by destruct (tcv_u8 v =? 0).
Qed.

(** An entry with the row's value behind it. *)
Definition with_value (values : gmap string TypedColumnValue) (e e' : entry) : Prop :=
  ∃ b, column_bytes values e.1.1 e.1.2 = Some b ∧ e' = push_value b e.

(** The loop: the columns before [i] have the row's value, the others none; in the
    end all have it, or everything is as it was. *)
Lemma append_row_spec values p0 cols : ∀ i touched p ok p',
  cols = drop i (columns_ p0) → partition_ok p0 → partition_ok p → same_partition p0 p → touched_since p0 p touched →
  (i + length cols = length (contents p0))%nat →
  Forall2 (with_value values) (take i (contents p0)) (take i (contents p)) → drop i (contents p) = drop i (contents p0) →
  append_row values cols i touched p = (ok, p') →
  partition_ok p' ∧ same_partition p0 p' ∧
  if ok : bool then Forall2 (with_value values) (contents p0) (contents p') else contents p' = contents p0.
Proof.
  induction cols as [|c cols IH]; intros i touched p ok p' Hcols Hp0 Hp Hsame Ht Hi Htake Hdrop H; cbn [append_row] in H.
  { injection H as <- <-. split_and!; [done..|]. rewrite !take_ge in Htake; [done|rewrite (ts_columns _ _ _ Ht)|]; simpl in Hi; lia. }
  assert (columns_ p0 !! i = Some c) as Hc0 by (rewrite <- (Nat.add_0_r i), <- lookup_drop, <- Hcols; done).
  pose proof (lookup_contents p0 i c Hc0) as He0. set (e := entry_of (memory_ p0) c) in *.
  assert (contents p !! i = Some e) as He by (rewrite <- (Nat.add_0_r i), <- lookup_drop, Hdrop, lookup_drop, Nat.add_0_r; done).
  pose proof (size_of_entry p0 i c e Hp0 Hc0 He0) as Hsz. change (name_ c) with e.1.1 in H. change (type_ c) with e.1.2 in H.
  fold (column_bytes values e.1.1 e.1.2) in H.
  assert (touched_since p0 p (touched ++ [(i, size_ c)])) as Ht'.
  { destruct Ht as [Hl Hr Hs]. split; [done| |].
    - intros k e' He'. destruct (Hr k e' He') as [?|[? ?]]; [by left|right; split; [done|set_solver]].
    - intros k n [Hin|[= -> ->]%list_elem_of_singleton]%elem_of_app; [by apply Hs|by exists e]. }
  assert (∀ p1, partition_ok p1 → contents p1 = contents p → same_partition p p1 →
    let q := roll_back (touched ++ [(i, size_ c)]) p1 in partition_ok q ∧ same_partition p0 q ∧ contents q = contents p0) as Hundo.
  { intros p1 Hp1 Hc1 Hs1. destruct (roll_back_spec p0 (touched ++ [(i, size_ c)]) p1 Hp1) as (? & ? & ?).
    - destruct Ht' as [Hl Hr Hs]. split; [by rewrite Hc1|by rewrite Hc1|done].
    - split_and!; [done| |done]. eapply same_partition_trans; [|done]. by eapply same_partition_trans. }
  destruct (column_bytes values e.1.1 e.1.2) as [b|] eqn:Hb.
  2:{ injection H as <- <-. by apply Hundo. }
  destruct (append_at p i b) as [ok1 p1] eqn:Ha. destruct (column_of_entry p i e He) as (c' & Hc' & Hce).
  destruct (column_bytes_ok _ _ _ _ Hb) as [Hbl Hbb].
  destruct (append_at_spec p i c' b ok1 p1 Hp Hc') as (Hp1 & Hs1 & Hc1); [by rewrite Hbl, Hce|done|done|].
  destruct ok1; [|injection H as <- <-; by apply Hundo].
  eapply (IH (S i)); [|done|done|by eapply same_partition_trans| | | | |exact H].
  - by rewrite (drop_S _ c i Hc0) in Hcols; injection Hcols.
  - destruct Ht' as [Hl Hr Hs]. split; [by rewrite Hc1, length_alter| |done]. intros k e' He'. rewrite Hc1.
    destruct (decide (k = i)) as [->|Hne].
    + rewrite list_lookup_alter_eq, He. simpl. right. rewrite He0 in He'. injection He' as <-. split; [by eexists|].
      rewrite <- Hsz. set_solver.
    + rewrite list_lookup_alter_ne by done. by apply Hr.
  - simpl in Hi. lia.
  - rewrite (take_S_r _ i e He0), Hc1, (take_S_r _ i (push_value b e)) by (by rewrite list_lookup_alter_eq, He).
    rewrite take_alter_ge by lia. apply Forall2_app; [done|]. constructor; [|done]. by exists b.
  - rewrite Hc1, drop_alter_lt by lia.
    by rewrite (drop_S _ e i He), (drop_S _ e i He0) in Hdrop; injection Hdrop.
Qed.
(** ** Columns the partition does not have yet *)

Definition has_name (name : string) (es : list entry) : bool := existsb (λ e, String.eqb e.1.1 name) es.

Definition completed (schema : list ColumnDef) (es : list entry) : list entry :=
  foldl (λ es c, if has_name (col_name c) es then es else es ++ [(col_name c, col_type c, [])]) es schema.

Lemma find_column_has p name : (column_position p name = None) ↔ has_name name (contents p) = false.
Proof.
  rewrite find_column_contents. unfold has_name. induction (contents p) as [|e es IH]; [done|]. cbn [list_find existsb].
  destruct (decide (e.1.1 = name)) as [->|Hne]; [by rewrite String.eqb_refl|].
  rewrite (proj2 (String.eqb_neq _ _) Hne). simpl. rewrite <- IH. by destruct (list_find _ es) as [[]|].
Qed.

Lemma add_missing_spec existing schema : ∀ p, partition_ok p →
  existing = 0 ∨ Forall (λ c, has_name (col_name c) (contents p) = true) schema →
  ∃ p1, add_missing_columns existing schema p = (true, p1) ∧ partition_ok p1 ∧ same_partition p p1 ∧
    contents p1 = completed schema (contents p).
Proof.
  induction schema as [|c schema IH]; intros p Hp Hex; cbn [add_missing_columns completed foldl].
  { exists p. split_and!; [done|done|by repeat split|done]. }
  destruct (column_position p (col_name c)) as [i|] eqn:Hf.
  - assert (has_name (col_name c) (contents p) = true) as ->.
    { apply not_false_iff_true. intros Hn%find_column_has. by rewrite Hf in Hn. }
    apply IH; [done|]. destruct Hex as [|Hex]; [by left|right]. by apply Forall_cons in Hex as [_ Hex].
  - pose proof Hf as Hn%find_column_has. rewrite Hn. destruct Hex as [->|Hex]; [|apply Forall_cons in Hex as [Hc _]; congruence].
    destruct (add_column_spec p (col_name c) (col_type c) Hp) as (Hp1 & Hs1 & Hc1).
    change (Z.to_nat 0) with 0%nat. cbn [append_defaults]. destruct (IH _ Hp1 (or_introl eq_refl)) as (p2 & Ha & Hp2 & Hs2 & Hc2).
    exists p2. split_and!; [done|done|by eapply same_partition_trans|]. by rewrite Hc2, Hc1.
Qed.

(** ** The whole row *)

(** What a message has for a column. *)
Definition row_bytes (row : TypedRowMessage) (name : string) (t : ColumnType) : option (list Z) :=
  match List.find (λ v, String.eqb (tcv_name v) name) (row_columns row) with
  | None => Some (column_default t)
  | Some v => typed_bytes t v
  end.

Notation find_value name cols := (List.find (λ v, String.eqb (tcv_name v) name) cols).

(** A name that was seen does not come again. *)
Lemma collect_values_fresh schema cols name : ∀ values0 values, collect_values schema values0 cols = Some values →
  is_Some (values0 !! name) → find_value name cols = None.
Proof.
  induction cols as [|v cols IH]; intros values0 values H Hs; [done|]. cbn [collect_values List.find] in *.
  destruct (String.eqb _ ""); [done|]. destruct (values0 !! tcv_name v) eqn:Hv; [done|].
  destruct (List.find _ schema) as [c|]; [|done]. destruct (_ =? _); [|done].
  destruct (String.eqb_spec (tcv_name v) name) as [<-|Hne]; [by rewrite Hv in Hs; destruct Hs|].
  eapply IH; [done|]. by rewrite lookup_insert_ne.
Qed.

Lemma collect_values_spec schema cols name : ∀ values0 values, collect_values schema values0 cols = Some values →
  values !! name = match find_value name cols with Some v => Some v | None => values0 !! name end.
Proof.
  induction cols as [|v cols IH]; intros values0 values H; cbn [collect_values] in H; [by simplify_eq/=|].
  destruct (String.eqb _ ""); [done|]. destruct (values0 !! tcv_name v) eqn:Hv; [done|].
  destruct (List.find _ schema) as [c|]; [|done]. destruct (_ =? _); [|done].
  rewrite (IH _ _ H). cbn [List.find]. destruct (String.eqb_spec (tcv_name v) name) as [<-|Hne].
  - rewrite (collect_values_fresh _ _ _ _ _ H) by (by rewrite lookup_insert_eq). by rewrite lookup_insert_eq.
  - destruct (find_value name cols); [done|]. by rewrite lookup_insert_ne.
Qed.

(** The entries of a partition with the row's values behind them. *)
Definition row_appended (row : TypedRowMessage) (e e' : entry) : Prop :=
  ∃ b, row_bytes row e.1.1 e.1.2 = Some b ∧ e' = push_value b e.

Lemma with_value_row schema row values e e' : collect_values schema ∅ (row_columns row) = Some values →
  with_value values e e' → row_appended row e e'.
Proof.
  intros Hv (b & Hb & ->). exists b. split; [|done]. unfold column_bytes in Hb. unfold row_bytes.
  rewrite (collect_values_spec _ _ _ _ _ Hv) in Hb. by destruct (find_value _ _).
Qed.

(** C17. A row with a schema stores all its values or none. If its table has a
    schema, and the partition it belongs to is empty or has all columns of the
    schema, then a row that is accepted puts one value into every column, its
    own or the default of the type, and is counted; a row that is refused leaves
    no value in any column and is not counted, but an empty partition may have
    gained the schema's columns, without values, or have been created. Other
    partitions are untouched. A partition that has rows and lacks a column of
    the schema is not covered: there a refused row can leave a new column
    behind, shorter than the others. *)
Theorem typed_row_all_or_nothing row pl ok pl' schema :
  let key := mkKey (row_table_id row) (row_symbol_id row) (to_hour_epoch (row_timestamp row)) in
  let ps := partitions_ (partition_mgr_ pl) in
  let p := (get_or_create (partition_mgr_ pl) (row_table_id row) (row_symbol_id row) (row_timestamp row)).1 in
  manager_ok (partition_mgr_ pl) → partition_ok p →
  get_by_id (schema_registry_ pl) (row_table_id row) = Some schema →
  num_rows p = 0 ∨ Forall (λ c, has_name (col_name c) (contents p) = true) (columns schema) →
  ingest_typed_row row pl = (ok, pl') →
  let ps' := partitions_ (partition_mgr_ pl') in
  if ok then
    ∃ p', ps' = <[key := p']> ps ∧ partition_ok p' ∧ same_partition p p' ∧
      Forall2 (row_appended row) (completed (columns schema) (contents p)) (contents p') ∧
      ticks_stored (stats_ pl') = u64 (ticks_stored (stats_ pl) + 1)
  else
    (ps' = ps ∨ ∃ p', ps' = <[key := p']> ps ∧ partition_ok p' ∧ same_partition p p' ∧
       (contents p' = contents p ∨ contents p' = completed (columns schema) (contents p))) ∧
    ticks_stored (stats_ pl') = ticks_stored (stats_ pl).
Proof.
  intros key ps p Hm Hp Hschema Hcols H ps'. unfold ingest_typed_row in H.
  assert (∀ b, (b, pl) = (ok, pl') → b = false → if ok then False else
    (ps' = ps ∨ ∃ p', ps' = <[key := p']> ps ∧ partition_ok p' ∧ same_partition p p' ∧
       (contents p' = contents p ∨ contents p' = completed (columns schema) (contents p))) ∧
    ticks_stored (stats_ pl') = ticks_stored (stats_ pl)) as Hrefused by (intros b [= <- <-] ->; split; [by left|done]).
  destruct (_ || _); [specialize (Hrefused _ H eq_refl); by destruct ok|].
  rewrite Hschema in H. destruct (collect_values _ _ _) as [values|] eqn:Hvals; [|specialize (Hrefused _ H eq_refl); by destruct ok].
  clear Hrefused. destruct (bind_strings _ _) as [bound d]. destruct bound; cbn [negb] in H.
  2:{ injection H as <- <-. split; [by left|done]. }
  pose proof (store_manager (partition_mgr_ pl) (mkTick 0 (row_timestamp row) (row_symbol_id row) 0 0 0 0 (row_table_id row)) Hm) as Hsm.
  cbn [tick_table_id RingBuffer.symbol_id recv_ts] in Hsm. cbn [partition_mgr_ set_dict] in H.
  destruct (get_or_create _ _ _ _) as [p0 m]. cbn [fst] in p. subst p. destruct Hsm as (_ & _ & Hsm).
  change (key_of _) with key in Hsm. fold ps in Hsm.
  assert (same_partition p0 p0) as Hrefl by by repeat split.
  destruct (column_types_match _ _); cbn [negb] in H.
  2:{ injection H as <- <-. split; [right|done]. exists p0. destruct (Hsm p0 Hrefl) as (? & _). split_and!; [done..|by left]. }
  destruct (add_missing_spec (num_rows p0) (columns schema) p0 Hp Hcols) as (p1 & Hadd & Hp1 & Hs1 & Hc1). rewrite Hadd in H.
  cbn [negb] in H. destruct (append_row values (columns_ p1) 0 [] p1) as [ok2 p2] eqn:Happ.
  assert (partition_ok p2 ∧ same_partition p1 p2 ∧
    if ok2 : bool then Forall2 (with_value values) (contents p1) (contents p2) else contents p2 = contents p1) as (Hp2 & Hs2 & Hc2).
  { eapply (append_row_spec values p1 (columns_ p1) 0 [] p1); [done..|by repeat split| | |done|done|exact Happ].
    - split; [done|by left|by intros k n ?%not_elem_of_nil].
    - unfold contents. by rewrite length_fmap. }
  pose proof (same_partition_trans _ _ _ Hs1 Hs2) as Hs02. destruct (Hsm p2 Hs02) as (Hps & _ & _).
  destruct ok2; cbn [negb] in H; injection H as <- <-.
  - exists p2. split_and!; [by destruct (_ =? _)%nat|done|done| |by destruct (_ =? _)%nat].
    rewrite <- Hc1. eapply Forall2_impl; [done|]. intros e e'. by eapply with_value_row.
  - split; [|by destruct (_ =? _)%nat]. right. exists p2. split_and!; [by destruct (_ =? _)%nat|done|done|]. right. by rewrite Hc2.
Qed.
End Rows.

(** ** A row of two columns *)

Definition demo_schema : TableSchema :=
  mkSchema "trades" [SchemaRegistry.mkColumn "price" INT64; SchemaRegistry.mkColumn "flag" BOOL] 0 false 1 (mkPlacement false HashByTableAndSymbol 0).
Definition demo_typed : ZeptoPipeline :=
  mkPipeline demo_config (mkPlant (mkRing 1 0 0 0 [mkSlot EMPTY None]) 0) (new_manager 1) zero_stats ∅
    (mkRegistry {[ "trades"%string := demo_schema ]} 2) no_views empty_dict false false.
Definition demo_row : TypedRowMessage := mkTypedRow 1 7 10 [mkTyped "price" (type_code INT64) 100 0 0 0 None].

#[local] Instance bit_floats : FloatOps := {| float_of_double := u32; double_of_float := u64 |}.

Notation demo_result := (ingest_typed_row demo_row demo_typed).
Notation demo_empty := (new_partition 0 (mkKey 1 7 0) (make_arena 1 true)).

Lemma typed_row_all_or_nothing_witness :
  ∃ p', partitions_ (partition_mgr_ demo_result.2) = <[mkKey 1 7 0 := p']> ∅ ∧ partition_ok p' ∧ same_partition demo_empty p' ∧
    Forall2 (row_appended demo_row) [("price"%string, INT64, []); ("flag"%string, BOOL, [])] (contents p') ∧
    ticks_stored (stats_ demo_result.2) = u64 (0 + 1).
Proof.
  assert (demo_result = (true, demo_result.2)) as Hres by (rewrite (surjective_pairing demo_result) at 1; f_equal; by vm_compute).
  apply (typed_row_all_or_nothing demo_row demo_typed true demo_result.2 demo_schema).
  - by split.
  - change (partition_ok demo_empty). apply new_partition_ok. lia.
  - by vm_compute.
  - by left.
  - exact Hres.
Defined.
