(* ===== verification/TickQuery.v ===== *)
(** * Queries on stored ticks

    Models the queries of [src/core/pipeline.cpp]: VWAP, filtered sum and count over
    the partitions of a symbol, and over the column files of historical data. A
    snapshot of a partition is three or four pointers and a count; a value is eight
    bytes at its place behind a pointer, whatever the column's type is. Reading
    through a null pointer, or past the data of a file, is undefined behaviour and
    gives [None]. Quotients are left as numerator and denominator. *)

From S2P Require Import Prelude.
From S2P Require Import Bytes.
From S2P Require Import Arena.
From S2P Require Import StringDictionary.
From S2P Require Import SchemaRegistry.
From S2P Require Import MaterializedView.
From S2P Require Import PartitionManager.
From S2P Require Import RingBuffer.
From S2P Require Import ColumnStore.
From S2P Require Import Vectorized.
From S2P Require Import Hdb.
From S2P Require Import FlushManager.
From S2P Require Import TickPipeline.
From S2P Require Import PipelineFacts.
From stdpp Require Import base gmap list strings fin_maps sorting.
From Stdlib Require Import ZArith Lia.

Open Scope Z_scope.

Definition i128 (z : Z) : Z := (z + 2 ^ 127) mod 2 ^ 128 - 2 ^ 127.

(** A loop whose body may fail. *)
Definition foldM {A B} (f : A → B → option A) (l : list B) (a : A) : option A := foldl (λ acc b, a ← acc; f a b) (Some a) l.

(** ** Snapshots of a partition *)

Record ColumnSnapshot : Type := mkSnap {
  snap_prices : option Z;
  snap_volumes : option Z;
  snap_timestamps : option Z;
  snap_extra_col : option Z;
  snap_count : Z;
}.

Definition build_snapshot (p : Partition) (extra_col_name : string) : ColumnSnapshot :=
  match get_column p COL_TIMESTAMP, get_column p COL_PRICE, get_column p COL_VOLUME with
  | Some ts_col, Some px_col, Some vol_col =>
      mkSnap (data_ px_col) (data_ vol_col) (data_ ts_col)
        (if String.eqb extra_col_name "" then None else get_column p extra_col_name ≫= data_) (size_ ts_col)
  | _, _, _ => mkSnap None None None None 0
  end.

(** [pointer[i]] of an [int64_t] pointer. *)
Definition word_at (m : memory) (pointer : option Z) (i : nat) : option Z :=
  a ← pointer; Some (i64 (le_val (read_bytes m (a + Z.of_nat i * 8) 8))).

(** ** Historical data *)

Record HDBReader : Type := mkReader {
  hr_mapped : path → bool;
  hr_disk : filesystem;
  hr_base_path : path;
}.

Section Queries.
Context {L : Lz4} {V : Simd}.

Definition reader_column (r : HDBReader) (symbol hour : Z) (name : string) : option MappedColumn :=
  read_column (hr_mapped r) (hr_disk r) (hr_base_path r) 0 symbol hour name.
Definition reader_hours (r : HDBReader) (symbol from to : Z) : list Z :=
  list_partitions_in_range (hr_disk r) (hr_base_path r) 0 symbol from to.

Definition mapped_word (c : MappedColumn) (i : nat) : option Z := i64 <$> mapped_at 8 c (Z.of_nat i).

(** [0 .. n-1] *)
Definition rows_upto (n : Z) : list nat := seq 0 (Z.to_nat n).

Definition full_scan (from to : Z) : bool := (from =? 0) && (to =? INT64_MAX).
Definition in_time_range (from to ts : Z) : bool := (from <=? ts) && (ts <=? to).

(** Whether a row is looked at; a full scan does not read its time stamp. *)
Definition row_selected (from to : Z) (ts : nat → option Z) (i : nat) : option bool :=
  if full_scan from to then Some true else in_time_range from to <$> ts i.

(** ** Count *)

Definition count_row (from to : Z) (ts : nat → option Z) (total : Z) (i : nat) : option Z :=
  selected ← in_time_range from to <$> ts i; Some (if selected : bool then u64 (total + 1) else total).

Definition count_partition (from to : Z) (total : Z) (p : Partition) : option Z :=
  let snap := build_snapshot p "" in
  if snap_count snap =? 0 then Some total
  else if full_scan from to then Some (u64 (total + snap_count snap))
  else foldM (count_row from to (word_at (memory_ p) (snap_timestamps snap))) (rows_upto (snap_count snap)) total.

Definition hdb_count_range (reader : option HDBReader) (symbol from to : Z) : option Z :=
  match reader with
  | None => Some 0
  | Some r =>
      foldM (λ total hour,
        match reader_column r symbol hour COL_TIMESTAMP with
        | None => Some total
        | Some ts_col => foldM (count_row from to (mapped_word ts_col)) (rows_upto (mc_rows ts_col)) total
        end) (reader_hours r symbol from to) 0
  end.

(** The answer of a query: its numbers, and the rows it counted. *)
Inductive QueryResult : Type :=
  | VwapResult (pv_sum v_sum : Z) (rows : Z)
  | SumResult (ivalue : Z) (rows : Z)
  | CountResult (ivalue : Z) (rows : Z)
  | ErrorResult (error_msg : string).

(** Every partition that the index has for the symbol, in its order. *)
Definition over_partitions {A : Type} (pl : ZeptoPipeline) (symbol : Z) (f : A → Partition → option A) (a : A) : option A :=
  foldM (λ a id, p ← deref (partition_mgr_ pl) id; f a p) (find_partitions 0 symbol pl) a.

Definition query_count (reader : option HDBReader) (symbol from to : Z) (pl : ZeptoPipeline) :
    option (QueryResult * ZeptoPipeline) :=
  total ← over_partitions pl symbol (count_partition from to) 0;
  h ← hdb_count_range reader symbol from to;
  let total := u64 (total + h) in
  Some (CountResult (i64 total) total, count_stats (add_query total) pl).

(** ** Volume-weighted average price *)

Definition vwap_row (price volume : nat → option Z) (acc : Z * Z * Z) (i : nat) : option (Z * Z * Z) :=
  px ← price i; v ← volume i;
  Some (i128 (acc.1.1 + px * v), i64 (acc.1.2 + v), acc.2).

Definition vwap_rows (from to : Z) (ts price volume : nat → option Z) (n : Z) (acc : Z * Z * Z) : option (Z * Z * Z) :=
  foldM (λ acc i,
    selected ← row_selected from to ts i;
    if selected : bool then '(pv, v, rows) ← vwap_row price volume acc i; Some (pv, v, u64 (rows + 1)) else Some acc)
    (rows_upto n) acc.

(** A partition is skipped by its first and last time stamp. *)
Definition vwap_partition (from to : Z) (acc : Z * Z * Z) (p : Partition) : option (Z * Z * Z) :=
  let snap := build_snapshot p "" in
  let word pointer := word_at (memory_ p) pointer in
  if snap_count snap =? 0 then Some acc
  else
    skip ← (if full_scan from to then Some false
            else last_ts ← word (snap_timestamps snap) (Z.to_nat (snap_count snap - 1));
                 if last_ts <? from then Some true
                 else first_ts ← word (snap_timestamps snap) 0%nat; Some (to <? first_ts));
    if skip : bool then Some acc
    else vwap_rows from to (word (snap_timestamps snap)) (word (snap_prices snap)) (word (snap_volumes snap)) (snap_count snap) acc.

Definition query_vwap_hdb_fallback (r : HDBReader) (symbol from to : Z) (acc : Z * Z * Z) : option (Z * Z * Z) :=
  foldM (λ acc hour,
    match reader_column r symbol hour COL_TIMESTAMP, reader_column r symbol hour COL_PRICE, reader_column r symbol hour COL_VOLUME with
    | Some ts_col, Some px_col, Some vol_col =>
        vwap_rows from to (mapped_word ts_col) (mapped_word px_col) (mapped_word vol_col) (mc_rows ts_col) acc
    | _, _, _ => Some acc
    end) (reader_hours r symbol from to) acc.

Definition query_vwap (reader : option HDBReader) (symbol from to : Z) (pl : ZeptoPipeline) : option (QueryResult * ZeptoPipeline) :=
  acc ← over_partitions pl symbol (vwap_partition from to) (0, 0, 0);
  '(pv_sum, v_sum, rows) ← match reader, find_partitions 0 symbol pl with
        | Some r, [] => query_vwap_hdb_fallback r symbol from to acc
        | _, _ => Some acc
        end;
  if rows =? 0 then Some (ErrorResult "no data for symbol", pl)
  else Some (VwapResult (if v_sum =? 0 then 0 else pv_sum) (if v_sum =? 0 then 1 else v_sum) rows, count_stats (add_query rows) pl).

(** ** Filtered sum *)

Definition filter_column (snap : ColumnSnapshot) (column : string) : option Z :=
  if String.eqb column COL_PRICE then snap_prices snap
  else if String.eqb column COL_VOLUME then snap_volumes snap
  else match snap_extra_col snap with Some c => Some c | None => snap_prices snap end.

(** Blocks of [DATABLOCK_ROWS], each filtered into a selection and summed up. *)
Fixpoint filter_blocks (fuel : nat) (word : nat → option Z) (threshold n offset : Z) (acc : Z * Z) : option (Z * Z) :=
  match fuel with
  | O => None
  | S fuel =>
      if offset <? n
      then
        let block := Z.min DATABLOCK_ROWS (n - offset) in
        data ← mapM word (seq (Z.to_nat offset) (Z.to_nat block));
        let sel := filter_gt_i64 data threshold in
        filter_blocks fuel word threshold n (offset + block)
          (i64 (acc.1 + sum_i64_selected data sel), u64 (acc.2 + Z.of_nat (length sel)))
      else Some acc
  end.

Definition filter_row (from to threshold : Z) (ts word : nat → option Z) (acc : Z * Z) (i : nat) : option (Z * Z) :=
  selected ← row_selected from to ts i;
  if selected : bool then
    x ← word i; Some (if threshold <? x then (i64 (acc.1 + x), u64 (acc.2 + 1)) else acc)
  else Some acc.

Definition filter_partition (column : string) (threshold from to : Z) (acc : Z * Z) (p : Partition) : option (Z * Z) :=
  let snap := build_snapshot p column in
  if snap_count snap =? 0 then Some acc
  else match filter_column snap column with
  | None => Some acc
  | Some col_data =>
      let word := word_at (memory_ p) (Some col_data) in
      if full_scan from to then filter_blocks (S (Z.to_nat (snap_count snap))) word threshold (snap_count snap) 0 acc
      else foldM (filter_row from to threshold (word_at (memory_ p) (snap_timestamps snap)) word) (rows_upto (snap_count snap)) acc
  end.

Definition query_filter_sum (reader : option HDBReader) (symbol : Z) (column : string) (threshold from to : Z)
    (pl : ZeptoPipeline) : option (QueryResult * ZeptoPipeline) :=
  acc ← over_partitions pl symbol (filter_partition column threshold from to) (0, 0);
  '(total_sum, rows) ← match reader, find_partitions 0 symbol pl with
    | Some r, [] =>
        foldM (λ acc hour,
          match reader_column r symbol hour COL_TIMESTAMP, reader_column r symbol hour column with
          | Some ts_col, Some tgt_col =>
              foldM (filter_row from to threshold (mapped_word ts_col) (mapped_word tgt_col)) (rows_upto (mc_rows ts_col)) acc
          | _, _ => Some acc
          end) (reader_hours r symbol from to) acc
    | _, _ => Some acc
    end;
  Some (SumResult total_sum rows, count_stats (add_query rows) pl).
End Queries.

(** ** Loops over the rows of a partition *)

Lemma le_val_push n v : le_val (push_le n v) = v mod 2 ^ (8 * Z.of_nat n).
Proof.
  revert v. induction n as [|n IH]; intros v; cbn [push_le le_val]; [by rewrite Z.mod_1_r|].
  rewrite land_255, lor_shiftl_byte_r by (by apply Z.mod_pos_bound). rewrite IH, Z.shiftr_div_pow2 by lia.
  replace (8 * Z.of_nat (S n)) with (8 + 8 * Z.of_nat n) by lia. rewrite Z.pow_add_r by lia.
  rewrite Z.rem_mul_r; [done|done|]. apply Z.pow_pos_nonneg; lia.
Qed.

Definition int64_ok (v : Z) : Prop := INT64_MIN <= v <= INT64_MAX.

Lemma word_value v : int64_ok v → i64 (le_val (push_le 8 v)) = v.
Proof.
  intros Hv. rewrite le_val_push. change (2 ^ (8 * Z.of_nat 8)) with (2 ^ 64).
  etrans; [|by apply i64_small]. apply i64_mod_eq. by rewrite Z.mod_mod.
Qed.

Lemma foldM_none {A B} (f : A → B → option A) l : foldl (λ acc b, a ← acc; f a b) None l = None.
Proof. by induction l. Qed.

Lemma foldM_cons {A B} (f : A → B → option A) b l a : foldM f (b :: l) a = a ← f a b; foldM f l a.
Proof. unfold foldM. simpl. destruct (f a b); [done|]. apply foldM_none. Qed.

(** A loop over the rows of a list of ticks. *)
Lemma foldM_rows {A} (f : A → nat → option A) (g : A → TickMessage → A) msgs a :
  (∀ i m a, msgs !! i = Some m → f a i = Some (g a m)) → foldM f (seq 0 (length msgs)) a = Some (foldl g a msgs).
Proof.
  intros H. enough (∀ k, (∀ i m a, msgs !! i = Some m → f a (k + i)%nat = Some (g a m)) →
    foldM f (seq k (length msgs)) a = Some (foldl g a msgs)) as He by by apply He.
  clear H. revert a. induction msgs as [|m msgs IH]; intros a k H; [done|]. cbn [length seq foldl]. rewrite foldM_cons.
  pose proof (H 0%nat m a eq_refl) as H0. rewrite Nat.add_0_r in H0. rewrite H0. cbn [mbind option_bind]. apply IH.
  intros i m' a' Hi. rewrite Nat.add_succ_l, <- Nat.add_succ_r. by apply H.
Qed.

(** A total that is kept at a width. *)
Definition absorbs (norm : Z → Z) : Prop := ∀ a x, norm (norm a + x) = norm (a + x).

Lemma absorbs_norm norm x : absorbs norm → norm (norm x) = norm x.
Proof. intros Hn. pose proof (Hn x 0) as H. by rewrite !Z.add_0_r in H. Qed.

Lemma u64_absorbs : absorbs (wrap 64).
Proof. intros a x. apply u64_add. Qed.
Lemma i64_absorbs : absorbs i64.
Proof. intros a x. apply i64_add_l. Qed.
Lemma i128_absorbs : absorbs i128.
Proof.
  intros a x. unfold i128. f_equal. replace ((a + 2 ^ 127) mod 2 ^ 128 - 2 ^ 127 + x + 2 ^ 127) with ((a + 2 ^ 127) mod 2 ^ 128 + x) by lia.
  rewrite Z.add_mod_idemp_l by done. f_equal. lia.
Qed.

Definition tick_sum (g : TickMessage → Z) (msgs : list TickMessage) : Z := zsum (g <$> msgs).

Lemma tick_sum_app g l1 l2 : tick_sum g (l1 ++ l2) = tick_sum g l1 + tick_sum g l2.
Proof. unfold tick_sum. by rewrite fmap_app, zsum_app. Qed.

Lemma fold_total norm (selected : TickMessage → bool) g msgs a : absorbs norm → norm a = a →
  foldl (λ a m, if selected m then norm (a + g m) else a) a msgs =
  norm (a + tick_sum g (filter (λ m, selected m = true) msgs)).
Proof.
  intros Hn. revert a. induction msgs as [|m msgs IH]; intros a Ha; simpl; [by rewrite Z.add_0_r|].
  rewrite filter_cons. destruct (selected m) eqn:Hs; [rewrite decide_True by done|rewrite decide_False by done; by apply IH].
  rewrite IH by by apply absorbs_norm. rewrite Hn. f_equal.
  unfold tick_sum. cbn [fmap list_fmap foldr]. lia.
Qed.

(** ** What a snapshot reads *)

Definition values_ok (m : TickMessage) : Prop := int64_ok (recv_ts m) ∧ int64_ok (price m) ∧ int64_ok (volume m).

(** A pointer behind which a column of ticks lies. *)
Definition reads (m : memory) (pointer : option Z) (f : TickMessage → Z) (msgs : list TickMessage) : Prop :=
  ∀ i msg, msgs !! i = Some msg → word_at m pointer i = Some (f msg).

Lemma column_reads p i c f msgs : partition_ok p → columns_ p !! i = Some c → column_type_size (type_ c) = 8 →
  as_span (memory_ p) c = push_le 8 ∘ f <$> msgs → Forall (λ m, int64_ok (f m)) msgs → reads (memory_ p) (data_ c) f msgs.
Proof.
  intros Hp Hi Ht Hs Hok j msg Hj. destruct (column_at p i c Hp Hi) as [Hc _].
  assert (as_span (memory_ p) c !! j = Some (push_le 8 (f msg))) as Hl by (by rewrite Hs, list_lookup_fmap, Hj).
  assert (Z.of_nat j < size_ c) as Hlt.
  { apply lookup_lt_Some in Hl. pose proof (co_size _ _ Hc). pose proof (length_as_span (memory_ p) c). lia. }
  destruct (data_ c) as [a|] eqn:Hd; [|pose proof (co_data _ _ Hc Hd); pose proof (co_size _ _ Hc); lia].
  unfold as_span in Hl. rewrite Hd, (co_elem _ _ Hc), Ht, list_lookup_fmap in Hl.
  apply fmap_Some in Hl as (k & [-> _]%lookup_seq & Hl). cbn [from_option id Nat.add] in Hl. unfold word_at. cbn [mbind option_bind].
  change (Z.to_nat 8) with 8%nat in *. rewrite <- Hl. rewrite word_value; [done|].
  rewrite Forall_forall in Hok. apply Hok. by eapply list_elem_of_lookup_2.
Qed.

Record reads_ticks (p : Partition) (snap : ColumnSnapshot) (msgs : list TickMessage) : Prop := {
  rt_count : snap_count snap = Z.of_nat (length msgs);
  rt_timestamps : reads (memory_ p) (snap_timestamps snap) recv_ts msgs;
  rt_prices : reads (memory_ p) (snap_prices snap) price msgs;
  rt_volumes : reads (memory_ p) (snap_volumes snap) volume msgs;
}.

Lemma snapshot_reads p float msgs extra : stores p float msgs → Forall values_ok msgs → reads_ticks p (build_snapshot p extra) msgs.
Proof.
  intros [Hp Hc _] Hok. unfold contents, tick_contents in Hc.
  destruct (columns_ p) as [|c0 [|c1 [|c2 [|c3 [|]]]]] eqn:Hcs; try done.
  injection Hc as Hn0 Ht0 Hs0 Hn1 Ht1 Hs1 Hn2 Ht2 Hs2 _ _ _.
  assert (size_ c0 = Z.of_nat (length msgs)) as Hsz.
  { destruct (column_at p 0 c0 Hp) as [Hc _]; [by rewrite Hcs|]. rewrite <- (length_as_span (memory_ p) c0), Hs0 by apply Hc.
    by rewrite length_fmap. }
  unfold build_snapshot, get_column. rewrite Hcs. simpl. rewrite Hn0, Hn1, Hn2. simpl. split; simpl; [done|..].
  - eapply (column_reads p 0 c0); [done|by rewrite Hcs|by rewrite Ht0|done|eapply Forall_impl; [done|]; by intros m (? & ? & ?)].
  - eapply (column_reads p 1 c1); [done|by rewrite Hcs|by rewrite Ht1; destruct float|done|
      eapply Forall_impl; [done|]; by intros m (? & ? & ?)].
  - eapply (column_reads p 2 c2); [done|by rewrite Hcs|by rewrite Ht2|done|eapply Forall_impl; [done|]; by intros m (? & ? & ?)].
Qed.

(** ** Each query on one partition *)

(** The ticks a query looks at. *)
Definition selected (from to : Z) (m : TickMessage) : bool := full_scan from to || in_time_range from to (recv_ts m).

Definition is_u64 (a : Z) : Prop := u64 a = a.
Definition one (_ : TickMessage) : Z := 1.

Lemma tick_sum_one msgs : tick_sum one msgs = Z.of_nat (length msgs).
Proof. unfold tick_sum. induction msgs as [|m msgs IH]; [done|]. cbn [fmap list_fmap foldr length]. unfold one at 1. lia. Qed.

Notation chosen from to msgs := (filter (λ m, selected from to m = true) msgs).

Lemma chosen_full from to (msgs : list TickMessage) : full_scan from to = true → chosen from to msgs = msgs.
Proof.
  intros H. unfold selected. rewrite H. induction msgs as [|m msgs IH]; [done|].
  by rewrite filter_cons, decide_True, IH.
Qed.

Lemma none_chosen from to (msgs : list TickMessage) : (∀ m, m ∈ msgs → selected from to m = true → False) → chosen from to msgs = [].
Proof.
  intros H. destruct (chosen from to msgs) as [|m l] eqn:Hl; [done|]. exfalso.
  assert (m ∈ chosen from to msgs) as [Hs Hin]%list_elem_of_filter by (rewrite Hl; by left). by eapply H.
Qed.

Lemma rows_of_snapshot p snap msgs : reads_ticks p snap msgs → rows_upto (snap_count snap) = seq 0 (length msgs).
Proof. intros [-> _ _ _]. unfold rows_upto. by rewrite Nat2Z.id. Qed.

Lemma count_partition_exact p float msgs from to total :
  stores p float msgs → Forall values_ok msgs → is_u64 total →
  count_partition from to total p = Some (u64 (total + tick_sum one (chosen from to msgs))).
Proof.
  intros Hst Hok Ht. pose proof (snapshot_reads p float msgs "" Hst Hok) as Hsnap. unfold count_partition.
  rewrite (rows_of_snapshot _ _ _ Hsnap). rewrite (rt_count _ _ _ Hsnap). rewrite tick_sum_one.
  destruct (Z.eqb_spec (Z.of_nat (length msgs)) 0) as [H0|_].
  { destruct msgs; [|done]. rewrite filter_nil. simpl. by rewrite Z.add_0_r, Ht. }
  destruct (full_scan from to) eqn:Hf; [by rewrite chosen_full|].
  rewrite (foldM_rows _ (λ total m, if selected from to m then u64 (total + one m) else total)).
  - rewrite (fold_total (wrap 64)) by (done || apply u64_absorbs). by rewrite tick_sum_one.
  - intros i m a Hi. unfold count_row. rewrite (rt_timestamps _ _ _ Hsnap i m Hi). simpl. unfold selected. rewrite Hf. simpl.
    by destruct (in_time_range _ _ _).
Qed.

(** Three totals with one selection. *)
Lemma fold_triple (sel : TickMessage → bool) (f g h : Z → TickMessage → Z) msgs a b c :
  foldl (λ (acc : Z * Z * Z) m, if sel m then (f acc.1.1 m, g acc.1.2 m, h acc.2 m) else acc) (a, b, c) msgs =
  (foldl (λ a m, if sel m then f a m else a) a msgs, foldl (λ b m, if sel m then g b m else b) b msgs,
   foldl (λ c m, if sel m then h c m else c) c msgs).
Proof.
  revert a b c. induction msgs as [|m msgs IH]; intros a b c; [done|]. cbn [foldl]. destruct (sel m); cbn [fst snd]; apply IH.
Qed.

Lemma fold_pair (sel : TickMessage → bool) (f g : Z → TickMessage → Z) msgs a b :
  foldl (λ (acc : Z * Z) m, if sel m then (f acc.1 m, g acc.2 m) else acc) (a, b) msgs =
  (foldl (λ a m, if sel m then f a m else a) a msgs, foldl (λ b m, if sel m then g b m else b) b msgs).
Proof. revert a b. induction msgs as [|m msgs IH]; intros a b; [done|]. cbn [foldl]. destruct (sel m); cbn [fst snd]; apply IH. Qed.

Lemma filter_and (f g : TickMessage → bool) (msgs : list TickMessage) :
  filter (λ m, f m && g m = true) msgs = filter (λ m, g m = true) (filter (λ m, f m = true) msgs).
Proof.
  induction msgs as [|m msgs IH]; [done|]. rewrite !filter_cons, IH. destruct (f m); simpl; [|done]. by rewrite filter_cons.
Qed.

Definition vwap_ok (acc : Z * Z * Z) : Prop := i128 acc.1.1 = acc.1.1 ∧ i64 acc.1.2 = acc.1.2 ∧ is_u64 acc.2.
Definition turnover (m : TickMessage) : Z := price m * volume m.
Definition add_vwap (acc : Z * Z * Z) (msgs : list TickMessage) : Z * Z * Z :=
  (i128 (acc.1.1 + tick_sum turnover msgs), i64 (acc.1.2 + tick_sum volume msgs), u64 (acc.2 + tick_sum one msgs)).

(** Ticks whose time stamps do not go back. *)
Definition in_order (msgs : list TickMessage) : Prop := StronglySorted (λ m m', recv_ts m <= recv_ts m') msgs.

Lemma vwap_ok_id acc : vwap_ok acc → add_vwap acc [] = acc.
Proof. intros (H1 & H2 & H3). unfold add_vwap. cbn [tick_sum fmap list_fmap foldr]. rewrite !Z.add_0_r, H1, H2, H3. by destruct acc as [[]]. Qed.

Lemma vwap_rows_exact p snap msgs from to acc : reads_ticks p snap msgs → vwap_ok acc →
  vwap_rows from to (word_at (memory_ p) (snap_timestamps snap)) (word_at (memory_ p) (snap_prices snap))
    (word_at (memory_ p) (snap_volumes snap)) (snap_count snap) acc = Some (add_vwap acc (chosen from to msgs)).
Proof.
  intros Hsnap (H1 & H2 & H3). unfold vwap_rows. rewrite (rows_of_snapshot _ _ _ Hsnap).
  rewrite (foldM_rows _ (λ acc m, if selected from to m
    then (i128 (acc.1.1 + turnover m), i64 (acc.1.2 + volume m), u64 (acc.2 + one m)) else acc)).
  - destruct acc as [[a b] c]. rewrite (fold_triple (selected from to) (λ a m, i128 (a + turnover m)) (λ b m, i64 (b + volume m)) (λ c m, u64 (c + one m))).
    rewrite (fold_total i128), (fold_total i64), (fold_total (wrap 64));
      by (done || apply i128_absorbs || apply i64_absorbs || apply u64_absorbs).
  - intros i m a Hi. unfold row_selected, selected, vwap_row. rewrite (rt_timestamps _ _ _ Hsnap i m Hi).
    destruct (full_scan from to); cbn [fmap option_fmap option_map mbind option_bind orb];
      [|destruct (in_time_range _ _ _); [|done]]; by rewrite (rt_prices _ _ _ Hsnap i m Hi), (rt_volumes _ _ _ Hsnap i m Hi).
Qed.

(** Skipping a partition by its ends is right when its ticks are in order. *)
Lemma vwap_partition_exact p float msgs from to acc :
  stores p float msgs → Forall values_ok msgs → in_order msgs → vwap_ok acc →
  vwap_partition from to acc p = Some (add_vwap acc (chosen from to msgs)).
Proof.
  intros Hst Hok Hord Hacc. pose proof (snapshot_reads p float msgs "" Hst Hok) as Hsnap. unfold vwap_partition.
  rewrite (rt_count _ _ _ Hsnap) at 1.
  destruct (Z.eqb_spec (Z.of_nat (length msgs)) 0) as [H0|Hne].
  { destruct msgs; [|done]. rewrite filter_nil. by rewrite vwap_ok_id. }
  destruct (full_scan from to) eqn:Hf; cbn [mbind option_bind]; [by apply vwap_rows_exact|].
  destruct msgs as [|first msgs]; [done|]. destruct (exists_last (l := first :: msgs)) as (init & last_ & Hl); [done|].
  assert (reads (memory_ p) (snap_timestamps (build_snapshot p "")) recv_ts (first :: msgs)) as Hts by apply Hsnap.
  rewrite (Hts (Z.to_nat (snap_count (build_snapshot p "") - 1)) last_).
  2:{ rewrite (rt_count _ _ _ Hsnap). assert (length (first :: msgs) = S (length init)) as -> by (rewrite Hl, length_app; simpl; lia).
      replace (Z.to_nat (Z.of_nat (S (length init)) - 1)) with (length init) by lia. by rewrite Hl, lookup_app_r, Nat.sub_diag. }
  cbn [mbind option_bind].
  assert (∀ m, m ∈ first :: msgs → recv_ts first <= recv_ts m <= recv_ts last_) as Hends.
  { intros m Hin. split.
    - apply StronglySorted_inv in Hord as [_ Hall]. apply elem_of_cons in Hin as [->|Hin]; [lia|].
      rewrite Forall_forall in Hall. by apply Hall.
    - rewrite Hl in Hin, Hord. apply elem_of_app in Hin as [Hin|Hin%list_elem_of_singleton]; [|by subst].
      unfold in_order in Hord. eapply StronglySorted_app_1_elem_of in Hord; [apply Hord|done|by left]. }
  assert (∀ b : bool, (b = true → chosen from to (first :: msgs) = []) →
    (if b then Some acc else vwap_rows from to (word_at (memory_ p) (snap_timestamps (build_snapshot p "")))
       (word_at (memory_ p) (snap_prices (build_snapshot p ""))) (word_at (memory_ p) (snap_volumes (build_snapshot p "")))
       (snap_count (build_snapshot p "")) acc) = Some (add_vwap acc (chosen from to (first :: msgs)))) as Hskip.
  { intros [] Hb; [by rewrite Hb, vwap_ok_id by done|]. by apply vwap_rows_exact. }
  assert (∀ m, m ∈ first :: msgs → selected from to m = true → from <= recv_ts m <= to) as Hsel.
  { intros m _. unfold selected, in_time_range. rewrite Hf. simpl. intros [?%Z.leb_le ?%Z.leb_le]%andb_prop. lia. }
  destruct (Z.ltb_spec (recv_ts last_) from) as [Hlt|Hge].
  - cbn [mbind option_bind]. apply (Hskip true). intros _. apply none_chosen. intros m Hin Hs.
    pose proof (Hends m Hin). pose proof (Hsel m Hin Hs). lia.
  - rewrite (Hts 0%nat first eq_refl). cbn [mbind option_bind]. apply Hskip. intros Hto%Z.ltb_lt. apply none_chosen. intros m Hin Hs.
    pose proof (Hends m Hin). pose proof (Hsel m Hin Hs). lia.
Qed.

(** ** Filtered sums *)

Section FilterFacts.
Context {V : Simd} {HV : SimdLaws V}.

(** The values of the selected rows are the values above the threshold. *)
Lemma rows_above_values threshold data :
  (λ i, default 0 (data !! Z.to_nat i)) <$> rows_above threshold data = filter (λ x, threshold < x) data.
Proof.
  unfold rows_above. enough (∀ pre l, data = pre ++ l →
    (λ i, default 0 (data !! Z.to_nat i)) <$> omap (λ p, if threshold <? p.2 then Some p.1 else None) (number (Z.of_nat (length pre)) l) =
    filter (λ x, threshold < x) l) as H by by apply (H []).
  intros pre l. revert pre. induction l as [|x l IH]; intros pre Hd; [done|]. cbn [number omap list_omap fst snd].
  assert (Z.of_nat (length pre) + 1 = Z.of_nat (length (pre ++ [x]))) as -> by (rewrite length_app; simpl; lia).
  specialize (IH (pre ++ [x])). rewrite <- app_assoc in IH. rewrite filter_cons.
  destruct (Z.ltb_spec threshold x); [rewrite decide_True by done|rewrite decide_False by lia; by apply IH].
  rewrite fmap_cons, IH by done. by rewrite Nat2Z.id, Hd, lookup_app_r, Nat.sub_diag by done.
Qed.

Notation above threshold f msgs := (filter (λ m, (threshold <? f m) = true) msgs).

Lemma filter_fmap_above threshold f (msgs : list TickMessage) :
  filter (λ x, threshold < x) (f <$> msgs) = f <$> above threshold f msgs.
Proof.
  induction msgs as [|m msgs IH]; [done|]. rewrite fmap_cons, !filter_cons, IH.
  destruct (Z.ltb_spec threshold (f m)); [by rewrite !decide_True by done|by rewrite !decide_False by (done || lia)].
Qed.

(** The block loop sums the values above the threshold from a row on. *)
Lemma filter_blocks_exact m pointer f msgs threshold : reads m pointer f msgs → ∀ fuel off s c,
  (length msgs - off < fuel)%nat → (off <= length msgs)%nat → i64 s = s → is_u64 c →
  filter_blocks fuel (word_at m pointer) threshold (Z.of_nat (length msgs)) (Z.of_nat off) (s, c) =
  Some (i64 (s + tick_sum f (above threshold f (drop off msgs))), u64 (c + tick_sum one (above threshold f (drop off msgs)))).
Proof.
  intros Hr. induction fuel as [|fuel IH]; intros off s c Hf Hoff Hs Hc; [lia|]. cbn [filter_blocks].
  destruct (Z.ltb_spec (Z.of_nat off) (Z.of_nat (length msgs))) as [Hlt|Hge].
  2:{ rewrite drop_ge by lia. cbn. by rewrite !Z.add_0_r, Hs, Hc. }
  set (b := Z.to_nat (Z.min DATABLOCK_ROWS (Z.of_nat (length msgs) - Z.of_nat off))).
  assert ((0 < b)%nat ∧ Z.of_nat b <= 8192 ∧ (off + b <= length msgs)%nat) as (Hb0 & Hb & Hle) by (unfold b, DATABLOCK_ROWS; lia).
  assert (mapM (word_at m pointer) (seq (Z.to_nat (Z.of_nat off)) b) = Some (f <$> take b (drop off msgs))) as Hdata.
  { apply mapM_Some. rewrite Nat2Z.id. apply Forall2_same_length_lookup_2.
    - rewrite length_seq, length_fmap, length_take, length_drop. lia.
    - intros i j v [-> Hi]%lookup_seq Hv. rewrite list_lookup_fmap, lookup_take_lt, lookup_drop in Hv by done.
      apply fmap_Some in Hv as (msg & Hmsg & ->). by apply Hr. }
  fold b. rewrite Hdata. cbn [mbind option_bind fst snd]. rewrite filter_exact by (rewrite length_fmap, length_take; lia).
  rewrite selected_sum, rows_above_values, filter_fmap_above.
  assert (Z.of_nat (length (rows_above threshold (f <$> take b (drop off msgs)))) = tick_sum one (above threshold f (take b (drop off msgs)))) as ->.
  { rewrite tick_sum_one, <- (length_fmap f), <- filter_fmap_above, <- rows_above_values. by rewrite length_fmap. }
  replace (Z.of_nat off + Z.min DATABLOCK_ROWS (Z.of_nat (length msgs) - Z.of_nat off)) with (Z.of_nat (off + b)) by (unfold b; lia).
  rewrite IH by (lia || by apply absorbs_norm; (apply i64_absorbs || apply u64_absorbs)).
  rewrite <- (take_drop b (drop off msgs)) at 3 4. rewrite !filter_app, !tick_sum_app, drop_drop.
  f_equal. f_equal.
  - rewrite i64_add_l, (Z.add_comm s), <- Z.add_assoc, i64_add_l. f_equal. unfold tick_sum. lia.
  - rewrite u64_absorbs. f_equal. lia.
Qed.

(** The columns of ticks that a filter may name. *)
Definition filterable (column : string) (f : TickMessage → Z) : Prop :=
  column = COL_PRICE ∧ f = price ∨ column = COL_VOLUME ∧ f = volume.

Lemma filter_partition_exact p float msgs column f threshold from to s c :
  filterable column f → stores p float msgs → Forall values_ok msgs → i64 s = s → is_u64 c →
  filter_partition column threshold from to (s, c) p =
  Some (i64 (s + tick_sum f (above threshold f (chosen from to msgs))), u64 (c + tick_sum one (above threshold f (chosen from to msgs)))).
Proof.
  intros Hcol Hst Hok Hs Hc. pose proof (snapshot_reads p float msgs column Hst Hok) as Hsnap. unfold filter_partition.
  rewrite (rt_count _ _ _ Hsnap) at 1.
  destruct (Z.eqb_spec (Z.of_nat (length msgs)) 0) as [H0|Hne].
  { destruct msgs; [|done]. cbn. by rewrite !Z.add_0_r, Hs, Hc. }
  assert (∃ a, filter_column (build_snapshot p column) column = Some a ∧ reads (memory_ p) (Some a) f msgs) as (a & -> & Hr).
  { destruct msgs as [|m msgs]; [done|].
    destruct Hcol as [[-> ->]|[-> ->]]; unfold filter_column; cbn [String.eqb].
    - pose proof (rt_prices _ _ _ Hsnap) as Hr. pose proof (Hr 0%nat m eq_refl) as H1. change (String.eqb COL_PRICE COL_PRICE) with true.
      destruct (snap_prices _) as [a|]; [by exists a|done].
    - pose proof (rt_volumes _ _ _ Hsnap) as Hr. pose proof (Hr 0%nat m eq_refl) as H1. change (String.eqb COL_VOLUME COL_PRICE) with false.
      change (String.eqb COL_VOLUME COL_VOLUME) with true. destruct (snap_volumes _) as [a|]; [by exists a|done]. }
  rewrite (rows_of_snapshot _ _ _ Hsnap), (rt_count _ _ _ Hsnap). destruct (full_scan from to) eqn:Hf.
  - rewrite chosen_full, Nat2Z.id by done. change 0 with (Z.of_nat 0). rewrite (filter_blocks_exact _ _ f) by (done || lia). by rewrite drop_0.
  - rewrite (foldM_rows _ (λ (acc : Z * Z) m, if selected from to m && (threshold <? f m) then (i64 (acc.1 + f m), u64 (acc.2 + one m)) else acc)).
    + rewrite (fold_pair (λ m, selected from to m && (threshold <? f m)) (λ a m, i64 (a + f m)) (λ b m, u64 (b + one m))).
      rewrite (fold_total i64), (fold_total (wrap 64)) by (done || apply i64_absorbs || apply u64_absorbs).
      by rewrite !filter_and.
    + intros i m b Hi. unfold filter_row, row_selected, selected. rewrite Hf, (rt_timestamps _ _ _ Hsnap i m Hi).
      cbn [fmap option_fmap option_map mbind option_bind orb]. destruct (in_time_range _ _ _); [|done]. by rewrite (Hr i m Hi).
Qed.
End FilterFacts.

(** ** All partitions of a symbol *)

Definition of_symbol (symbol : Z) (m : TickMessage) : bool := (tick_table_id m =? 0) && (RingBuffer.symbol_id m =? symbol).
Notation ticks_for symbol log := (filter (λ m, of_symbol symbol m = true) log).

(** The keys of a symbol's partitions. *)
Record covers (symbol : Z) (log : list TickMessage) (ks : list PartitionKey) : Prop := {
  cv_distinct : NoDup ks;
  cv_symbol : ∀ k, k ∈ ks → table_id k = 0 ∧ PartitionManager.symbol_id k = symbol;
  cv_all : ∀ m, m ∈ log → of_symbol symbol m = true → key_of m ∈ ks;
}.

(** A sum over the partitions is the sum over the symbol's ticks. *)
Lemma sum_over_keys g symbol log ks : covers symbol log ks →
  zsum ((λ k, tick_sum g (ticks_of log k)) <$> ks) = tick_sum g (ticks_for symbol log).
Proof.
  intros [Hnd Hsym Hall]. induction log as [|m log IH]; [by induction ks as [|k ks IHk]; [|cbn; apply IHk; [by inversion Hnd|set_solver|set_solver]]|].
  specialize (IH ltac:(intros m' Hm'; apply Hall; by right)). rewrite filter_cons.
  assert (zsum ((λ k, tick_sum g (ticks_of (m :: log) k)) <$> ks) =
    zsum ((λ k, tick_sum g (ticks_of log k)) <$> ks) + if bool_decide (key_of m ∈ ks) then g m else 0) as ->.
  { clear Hsym Hall IH. induction Hnd as [|k ks Hk Hnd IHk]; [done|]. rewrite !fmap_cons. cbn [foldr]. rewrite IHk.
    unfold ticks_of at 1. rewrite filter_cons. destruct (decide (key_of m = k)) as [->|Hne].
    - rewrite (bool_decide_true (_ ∈ _ :: _)), bool_decide_false by (done || by left). unfold tick_sum at 1. cbn. unfold tick_sum, ticks_of. lia.
    - assert (bool_decide (key_of m ∈ k :: ks) = bool_decide (key_of m ∈ ks)) as -> by (apply bool_decide_ext; set_solver).
      fold (ticks_of log k). lia. }
  rewrite IH. destruct (of_symbol symbol m) eqn:Hm.
  - rewrite bool_decide_true, decide_True by (done || (apply Hall; [by left|done])). unfold tick_sum. cbn [fmap list_fmap foldr]. lia.
  - rewrite decide_False by done. rewrite bool_decide_false; [lia|]. intros [Ht Hs]%Hsym. unfold of_symbol in Hm. cbn in Ht, Hs.
    by rewrite Ht, Hs, !Z.eqb_refl in Hm.
Qed.

Lemma deref_found m k p : manager_ok m → partitions_ m !! k = Some p → deref m (p_id p) = Some p.
Proof.
  intros Hm Hk. unfold deref. destruct (List.find _ _) as [[k' q]|] eqn:Hf.
  - apply List.find_some in Hf as [Hin Hid%Z.eqb_eq]. apply list_elem_of_In, elem_of_map_to_list in Hin. simpl in Hid.
    rewrite (mo_id _ Hm k' k q p Hin Hk Hid) in Hin. simpl. congruence.
  - pose proof (List.find_none _ _ Hf (k, p)) as Hn. simpl in Hn. rewrite Z.eqb_refl in Hn. discriminate Hn.
    by apply list_elem_of_In, elem_of_map_to_list.
Qed.

(** The keys behind the pointers the index has for a symbol. *)
Lemma index_keys views pl log symbol : represents views pl log → ids_ok 0 symbol →
  ∃ ks, covers symbol log ks ∧
    Forall2 (λ id k, ∃ p, partitions_ (partition_mgr_ pl) !! k = Some p ∧ p_id p = id) (find_partitions 0 symbol pl) ks.
Proof.
  intros Hrep Hids. pose proof (rp_index _ _ _ Hrep 0 symbol) as Hix. pose proof (rp_distinct _ _ _ Hrep 0 symbol Hids) as Hnd.
  pose proof (rp_manager _ _ _ Hrep) as Hm.
  assert (∃ ks, Forall2 (λ id k, (∃ p, partitions_ (partition_mgr_ pl) !! k = Some p ∧ p_id p = id) ∧
    table_id k = 0 ∧ PartitionManager.symbol_id k = symbol) (find_partitions 0 symbol pl) ks) as (ks & Hks).
  { assert (∀ id, id ∈ find_partitions 0 symbol pl → ∃ k, (∃ p, partitions_ (partition_mgr_ pl) !! k = Some p ∧ p_id p = id) ∧
      table_id k = 0 ∧ PartitionManager.symbol_id k = symbol) as H.
    { intros id (hour & p & Hp & Hid)%Hix; [|done]. exists (mkKey 0 symbol hour). split; [by exists p|done]. }
    clear Hix Hnd. induction (find_partitions 0 symbol pl) as [|id ids IH]; [by exists []|].
    destruct IH as [ks Hks]; [intros x Hx; apply H; by right|]. destruct (H id) as [k Hk]; [by left|]. exists (k :: ks). by constructor. }
  exists ks. split; [|eapply Forall2_impl; [done|]; by intros id k []]. split.
  - clear Hix. induction Hks as [|id k ids ks (Hk & _) Hks IH]; [constructor|]. apply NoDup_cons in Hnd as [Hni Hnd].
    apply NoDup_cons. split; [|by apply IH]. intros Hin. apply Hni.
    apply list_elem_of_lookup in Hin as [i Hi]. destruct (Forall2_lookup_r _ _ _ _ _ Hks Hi) as (id' & Hid' & (q & Hq & <-) & _).
    destruct Hk as (p & Hp & <-). rewrite Hp in Hq. simplify_eq. by eapply list_elem_of_lookup_2.
  - intros k [i Hi]%list_elem_of_lookup. by destruct (Forall2_lookup_r _ _ _ _ _ Hks Hi) as (id' & _ & _ & ?).
  - intros m Hin Hsel. destruct (partitions_ (partition_mgr_ pl) !! key_of m) as [p|] eqn:Hp.
    2:{ apply (rp_present _ _ _ Hrep) in Hp. exfalso. assert (m ∈ ticks_of log (key_of m)) as Hm' by (by apply list_elem_of_filter).
        rewrite Hp in Hm'. by apply not_elem_of_nil in Hm'. }
    apply andb_prop in Hsel as [Ht%Z.eqb_eq Hs%Z.eqb_eq]. assert (p_id p ∈ find_partitions 0 symbol pl) as Hid.
    { apply Hix; [done|]. exists (to_hour_epoch (recv_ts m)), p. split; [|done]. rewrite <- Hp. unfold key_of. by rewrite Ht, Hs. }
    apply list_elem_of_lookup in Hid as [i Hi]. destruct (Forall2_lookup_l _ _ _ _ _ Hks Hi) as (k & Hk & (q & Hq & Heq) & _).
    rewrite (mo_id _ Hm (key_of m) k p q Hp Hq) by done. by eapply list_elem_of_lookup_2.
Qed.

(** A loop over the partitions of a symbol. *)
Lemma over_partitions_exact {A : Type} views pl log symbol (f : A → Partition → option A) (add : A → list TickMessage → A)
    (ok : A → Prop) a :
  represents views pl log → ids_ok 0 symbol →
  (∀ k p a, partitions_ (partition_mgr_ pl) !! k = Some p → ok a →
     f a p = Some (add a (ticks_of log k)) ∧ ok (add a (ticks_of log k))) →
  ok a → ∃ ks, covers symbol log ks ∧ over_partitions pl symbol f a = Some (foldl (λ a k, add a (ticks_of log k)) a ks).
Proof.
  intros Hrep Hids Hf Ha. destruct (index_keys _ _ _ _ Hrep Hids) as (ks & Hcov & Hks). exists ks. split; [done|].
  unfold over_partitions. clear Hcov. revert a Ha. induction Hks as [|id k ids ks (p & Hp & <-) Hks IH]; intros a Ha; [done|].
  rewrite foldM_cons, (deref_found _ k p) by (done || apply Hrep). cbn [mbind option_bind foldl].
  destruct (Hf k p a Hp Ha) as [-> Hok]. by apply IH.
Qed.

Lemma tick_sum_filter (sel : TickMessage → bool) g msgs :
  tick_sum g (filter (λ m, sel m = true) msgs) = tick_sum (λ m, if sel m then g m else 0) msgs.
Proof.
  unfold tick_sum. induction msgs as [|m msgs IH]; [done|]. rewrite filter_cons, fmap_cons. cbn [foldr].
  destruct (sel m); [rewrite decide_True by done; cbn [fmap list_fmap foldr]; by rewrite <- IH|rewrite decide_False by done; lia].
Qed.

(** The sum over the selected ticks of every partition of a symbol. *)
Lemma selected_over_keys (sel : TickMessage → bool) g symbol log ks : covers symbol log ks →
  zsum ((λ k, tick_sum g (filter (λ m, sel m = true) (ticks_of log k))) <$> ks) =
  tick_sum g (filter (λ m, sel m = true) (ticks_for symbol log)).
Proof.
  intros Hcov. rewrite tick_sum_filter, <- (sum_over_keys _ _ _ ks Hcov). f_equal. apply list_fmap_ext.
  intros i k _. apply tick_sum_filter.
Qed.

Lemma fold_selected norm (sel : TickMessage → bool) g symbol log ks a : absorbs norm → norm a = a → covers symbol log ks →
  foldl (λ a k, norm (a + tick_sum g (filter (λ m, sel m = true) (ticks_of log k)))) a ks =
  norm (a + tick_sum g (filter (λ m, sel m = true) (ticks_for symbol log))).
Proof.
  intros Hn Ha Hcov. rewrite <- (selected_over_keys sel g symbol log ks Hcov). revert a Ha. clear Hcov.
  induction ks as [|k ks IH]; intros a Ha; cbn [fmap list_fmap foldl foldr]; [by rewrite Z.add_0_r|].
  rewrite IH by by apply absorbs_norm. rewrite Hn. f_equal. lia.
Qed.

Lemma foldl_triple {B} (f g h : Z → B → Z) ks a b c :
  foldl (λ (acc : Z * Z * Z) k, (f acc.1.1 k, g acc.1.2 k, h acc.2 k)) (a, b, c) ks = (foldl f a ks, foldl g b ks, foldl h c ks).
Proof. revert a b c. induction ks as [|k ks IH]; intros a b c; [done|]. apply IH. Qed.

Lemma foldl_two {B} (f g : Z → B → Z) ks a b :
  foldl (λ (acc : Z * Z) k, (f acc.1 k, g acc.2 k)) (a, b) ks = (foldl f a ks, foldl g b ks).
Proof. revert a b. induction ks as [|k ks IH]; intros a b; [done|]. apply IH. Qed.

Lemma ticks_of_values log k : Forall values_ok log → Forall values_ok (ticks_of log k).
Proof. intros H. apply Forall_forall. rewrite Forall_forall in H. by intros m [_ Hm%H]%list_elem_of_filter. Qed.

Lemma ticks_of_order log k : in_order log → in_order (ticks_of log k).
Proof.
  unfold in_order, ticks_of. induction 1 as [|m log Hs IH Hm]; [constructor|]. rewrite filter_cons. case_decide; [|done].
  constructor; [done|]. apply Forall_forall. rewrite Forall_forall in Hm. by intros m' [_ Hm'%Hm]%list_elem_of_filter.
Qed.

Section QueryFacts.
Context {L : Lz4} {V : Simd} {HV : SimdLaws V}.
Context (views : MaterializedViewManager) (pl : ZeptoPipeline) (log : list TickMessage) (symbol from to : Z).
Context (Hrep : represents views pl log) (Hids : ids_ok 0 symbol) (Hvals : Forall values_ok log).

Notation ticks := (chosen from to (ticks_for symbol log)).

Lemma query_count_exact :
  query_count None symbol from to pl =
  Some (CountResult (i64 (u64 (Z.of_nat (length ticks)))) (u64 (Z.of_nat (length ticks))), count_stats (add_query (u64 (Z.of_nat (length ticks)))) pl).
Proof.
  destruct (over_partitions_exact views pl log symbol (count_partition from to) (λ a msgs, u64 (a + tick_sum one (chosen from to msgs))) is_u64 0
    Hrep Hids) as (ks & Hcov & Hover); [|done|].
  { intros k p a Hp Ha. destruct (rp_stores _ _ _ Hrep k p Hp) as [Hst _]. split; [|by apply absorbs_norm, u64_absorbs].
    eapply count_partition_exact; [done|by apply ticks_of_values|done]. }
  unfold query_count. rewrite Hover, (fold_selected (wrap 64) (selected from to) one symbol) by (done || apply u64_absorbs).
  cbn [mbind option_bind hdb_count_range]. rewrite Z.add_0_l, Z.add_0_r, tick_sum_one.
  by rewrite absorbs_norm by apply u64_absorbs.
Qed.

Lemma query_filter_sum_exact column f threshold : filterable column f →
  let above := filter (λ m, (threshold <? f m) = true) ticks in
  query_filter_sum None symbol column threshold from to pl =
  Some (SumResult (i64 (tick_sum f above)) (u64 (Z.of_nat (length above))), count_stats (add_query (u64 (Z.of_nat (length above)))) pl).
Proof.
  intros Hcol above.
  destruct (over_partitions_exact views pl log symbol (filter_partition column threshold from to)
    (λ (acc : Z * Z) msgs, (i64 (acc.1 + tick_sum f (filter (λ m, selected from to m && (threshold <? f m) = true) msgs)),
      u64 (acc.2 + tick_sum one (filter (λ m, selected from to m && (threshold <? f m) = true) msgs))))
    (λ acc, i64 acc.1 = acc.1 ∧ is_u64 acc.2) (0, 0) Hrep Hids) as (ks & Hcov & Hover); [|done|].
  { intros k p [s c] Hp [Hs Hc]. destruct (rp_stores _ _ _ Hrep k p Hp) as [Hst _].
    split; [|split; [apply absorbs_norm, i64_absorbs|apply absorbs_norm, u64_absorbs]].
    rewrite (filter_partition_exact p _ (ticks_of log k) column f) by (done || by apply ticks_of_values). by rewrite !filter_and. }
  unfold query_filter_sum. rewrite Hover.
  rewrite (foldl_two (λ a k, i64 (a + tick_sum f (filter (λ m, selected from to m && (threshold <? f m) = true) (ticks_of log k))))
    (λ a k, u64 (a + tick_sum one (filter (λ m, selected from to m && (threshold <? f m) = true) (ticks_of log k))))).
  rewrite (fold_selected i64 (λ m, selected from to m && (threshold <? f m)) f symbol),
    (fold_selected (wrap 64) (λ m, selected from to m && (threshold <? f m)) one symbol)
    by (done || apply i64_absorbs || apply u64_absorbs).
  cbn [mbind option_bind]. rewrite !Z.add_0_l, tick_sum_one, filter_and. done.
Qed.

Lemma query_vwap_exact : in_order log →
  query_vwap None symbol from to pl =
  let rows := u64 (Z.of_nat (length ticks)) in
  let v_sum := i64 (tick_sum volume ticks) in
  if rows =? 0 then Some (ErrorResult "no data for symbol", pl)
  else Some (VwapResult (if v_sum =? 0 then 0 else i128 (tick_sum turnover ticks)) (if v_sum =? 0 then 1 else v_sum) rows,
             count_stats (add_query rows) pl).
Proof.
  intros Hord.
  destruct (over_partitions_exact views pl log symbol (vwap_partition from to) (λ acc msgs, add_vwap acc (chosen from to msgs)) vwap_ok (0, 0, 0)
    Hrep Hids) as (ks & Hcov & Hover); [|done|].
  { intros k p a Hp Ha. destruct (rp_stores _ _ _ Hrep k p Hp) as [Hst _]. split.
    - eapply vwap_partition_exact; [done|by apply ticks_of_values|by apply ticks_of_order|done].
    - split_and!; [apply absorbs_norm, i128_absorbs|apply absorbs_norm, i64_absorbs|apply absorbs_norm, u64_absorbs]. }
  unfold query_vwap. rewrite Hover. unfold add_vwap.
  rewrite (foldl_triple (λ a k, i128 (a + tick_sum turnover (chosen from to (ticks_of log k))))
    (λ a k, i64 (a + tick_sum volume (chosen from to (ticks_of log k)))) (λ a k, u64 (a + tick_sum one (chosen from to (ticks_of log k))))).
  rewrite (fold_selected i128 (selected from to) turnover symbol), (fold_selected i64 (selected from to) volume symbol),
    (fold_selected (wrap 64) (selected from to) one symbol) by (done || apply i128_absorbs || apply i64_absorbs || apply u64_absorbs).
  cbn [mbind option_bind]. by rewrite !Z.add_0_l, tick_sum_one.
Qed.
End QueryFacts.

(** C14. A node without a tiered historical reader answers queries over its ticks
    exactly. For a symbol of table 0 and a window of time, the count is the
    number of its stored ticks in the window; a filtered sum of the price or the
    volume column adds up exactly those above the threshold, whichever way the
    columns are scanned; and, when ticks were stored in the order of time, VWAP
    is the turnover over the volume of all of them. Cells are taken as the
    64-bit integers stored, so a price that was ingested as a double counts as
    its bit pattern; sums are exact modulo their width. With a historical reader
    [query_count] counts flushed partitions twice, and VWAP of a log out of
    order is not covered. *)
Theorem queries_exact {L : Lz4} {V : Simd} {HV : SimdLaws V} views pl log symbol from to :
  represents views pl log → ids_ok 0 symbol → Forall values_ok log →
  let ticks := chosen from to (ticks_for symbol log) in
  let rows := u64 (Z.of_nat (length ticks)) in
  query_count None symbol from to pl = Some (CountResult (i64 rows) rows, count_stats (add_query rows) pl) ∧
  (∀ column f threshold, filterable column f →
     let above := filter (λ m, (threshold <? f m) = true) ticks in
     let n := u64 (Z.of_nat (length above)) in
     query_filter_sum None symbol column threshold from to pl = Some (SumResult (i64 (tick_sum f above)) n, count_stats (add_query n) pl)) ∧
  (in_order log →
     let v_sum := i64 (tick_sum volume ticks) in
     query_vwap None symbol from to pl =
     if rows =? 0 then Some (ErrorResult "no data for symbol", pl)
     else Some (VwapResult (if v_sum =? 0 then 0 else i128 (tick_sum turnover ticks)) (if v_sum =? 0 then 1 else v_sum) rows,
                count_stats (add_query rows) pl)).
Proof.
  intros Hrep Hids Hvals ticks rows. split_and!.
  - by eapply query_count_exact.
  - intros column f threshold Hcol above n. by eapply query_filter_sum_exact.
  - intros Hord v_sum. by eapply query_vwap_exact.
Qed.

Lemma demo_run : ∃ pl0 pl, new_pipeline demo_config Missing = Returned pl0 ∧ run_ops demo_ops pl0 = Some pl ∧
  represents no_views pl demo_log.
Proof.
  destruct demo_new as (pl0 & Hnew & Ha & Hc). exists pl0.
  assert (behaves no_views pl0 (mkLog [] [] 0)) as Hb.
  { apply (new_pipeline_behaves demo_config Missing); [done|done|done|]. by apply (demo_fits _ []) with (k := mkKey 0 0 0). }
  destruct (run_ops_behaves no_views demo_ops pl0 _ (mkLog demo_log [] 3) Hb demo_ops_ok) as (pl & Hrun & [Hrep _ _ _ _ _]).
  - by rewrite Hc, demo_log_run.
  - by apply demo_fits.
  - by exists pl.
Qed.

Lemma queries_exact_witness : ∃ pl0 pl, new_pipeline demo_config Missing = Returned pl0 ∧ run_ops demo_ops pl0 = Some pl ∧
  query_count (L := zeros_lz4) None 7 0 INT64_MAX pl = Some (CountResult 2 2, count_stats (add_query 2) pl) ∧
  query_filter_sum (L := zeros_lz4) (V := four_lanes) None 7 COL_PRICE 150 0 INT64_MAX pl = Some (SumResult 200 1, count_stats (add_query 1) pl) ∧
  query_vwap (L := zeros_lz4) None 7 0 INT64_MAX pl = Some (VwapResult 800 5 2, count_stats (add_query 2) pl).
Proof.
  destruct demo_run as (pl0 & pl & Hnew & Hrun & Hrep). exists pl0, pl. split; [done|]. split; [done|].
  destruct (queries_exact (V := four_lanes) no_views pl demo_log 7 0 INT64_MAX Hrep) as (Hcount & Hsum & Hvwap);
    [by vm_compute|by repeat constructor; vm_compute|].
  split; [exact Hcount|]. split; [exact (Hsum COL_PRICE price 150 ltac:(by left))|]. apply Hvwap. repeat constructor; by vm_compute.
Defined.
