(* ===== verification/Recovery.v ===== *)
(** * Starting and stopping a node

    Models [start], [stop] and the recovery of [src/core/pipeline.cpp]. Recovery walks
    the generation that CURRENT selects and stores every row again. It may throw in
    the middle and leaves what it stored so far, so a step of it is a function of
    the pipeline that yields a value or an error and the pipeline; [None] is
    undefined behaviour. What system calls find out is an argument. *)

From S2P Require Import Prelude.
From S2P Require Import Text.
From S2P Require Import Bytes.
From S2P Require Import ColumnStore.
From S2P Require Import SchemaRegistry.
From S2P Require Import PartitionManager.
From S2P Require Import RingBuffer.
From S2P Require Import Literals.
From S2P Require Import Rpc.
From S2P Require Import Hdb.
From S2P Require Import FlushManager.
From S2P Require Import Parser.
From S2P Require Import TickPipeline.
From S2P Require Import TickQuery.
From stdpp Require Import base gmap list strings fin_maps.
From Stdlib Require Import ZArith Lia Ascii.

Open Scope Z_scope.

(** ** Steps that may throw *)

Definition recover_m (A : Type) : Type := ZeptoPipeline → option (outcome A * ZeptoPipeline).

#[export] Instance recover_ret : MRet recover_m := λ A a pl, Some (Returned a, pl).
#[export] Instance recover_bind : MBind recover_m := λ A B f m pl,
  '(r, pl) ← m pl;
  match r with Returned a => f a pl | Thrown w => Some (Thrown w, pl) end.

Definition raise {A : Type} (what : string) : recover_m A := λ pl, Some (Thrown what, pl).
Definition throw_if (b : bool) (what : string) : recover_m () := if b then raise what else mret ().
(** A value that may be undefined, and one that may be missing. *)
Definition defined {A : Type} (a : option A) : recover_m A := λ pl, a ← a; Some (Returned a, pl).
Definition required {A : Type} (a : option A) (what : string) : recover_m A :=
  match a with Some a => mret a | None => raise what end.
Definition this : recover_m ZeptoPipeline := λ pl, Some (Returned pl, pl).
Definition update (f : ZeptoPipeline → option ZeptoPipeline) : recover_m () := λ pl, pl ← f pl; Some (Returned tt, pl).

(** A loop with an accumulator. *)
Fixpoint each {A B : Type} (f : B → A → recover_m B) (l : list A) (b : B) : recover_m B :=
  match l with [] => mret b | a :: l => f b a ≫= λ b, each f l b end.

(** ** Names and values *)

(** [std::from_chars] on the whole text. *)
Definition parse_unsigned_component (l : text) : option Z :=
  match span isdigit l with
  | ((_ :: _) as ds, []) => if digits_value ds <? 2 ^ 64 then Some (digits_value ds) else None
  | _ => None
  end.
Definition parse_signed_component (l : text) : option Z :=
  let '(negative, digits) := match l with
                             | c :: rest => if Ascii.eqb c "-"%char then (true, rest) else (false, l)
                             | [] => (false, l)
                             end in
  match span isdigit digits with
  | ((_ :: _) as ds, []) =>
      let v := if negative : bool then - digits_value ds else digits_value ds in
      if in_int64 v then Some v else None
  | _ => None
  end.

Definition lower_ascii (s : string) : string := to_lower_str s.

Definition i32 (z : Z) : Z := (z + 2 ^ 31) mod 2 ^ 32 - 2 ^ 31.

Section Recovery.
Context {L : Lz4} {F : FloatOps}.

Definition recovered_typed_value (definition : ColumnDef) (column : MappedColumn) (row : Z) : option TypedColumnValue :=
  let value := mkTyped (col_name definition) (type_code (col_type definition)) in
  match col_type definition with
  | INT32 => v ← mapped_at 4 column row; Some (value (i32 v) 0 0 0 None)
  | INT64 | TIMESTAMP_NS => v ← mapped_at 8 column row; Some (value (i64 v) 0 0 0 None)
  | FLOAT32 => v ← mapped_at 4 column row; Some (value 0 (double_of_float v) 0 0 None)
  | FLOAT64 => v ← mapped_at 8 column row; Some (value 0 v 0 0 None)
  | SYMBOL | STRING => v ← mapped_at 4 column row; Some (value 0 0 v 0 None)
  | BOOL => v ← mapped_at 1 column row; Some (value 0 0 0 v None)
  end.

(** The largest symbol, also as a [float]. *)
Definition SymbolId_max : Z := 2 ^ 32 - 1.
Definition SymbolId_max_float : Z := 2 ^ 32.

(** The integer part of a finite number that is not negative and at most [bound];
    the number has [mbits] bits of mantissa and [ebits] of exponent. *)
Definition float_symbol (mbits ebits bound bits : Z) : option Z :=
  let e := Z.land (Z.shiftr bits mbits) (2 ^ ebits - 1) in
  let m := Z.land bits (2 ^ mbits - 1) in
  let m := if e =? 0 then m else m + 2 ^ mbits in
  let k := Z.max e 1 - (2 ^ (ebits - 1) - 1) - mbits in
  if e =? 2 ^ ebits - 1 then None
  else if Z.testbit bits (mbits + ebits) && (0 <? m) then None
  else if (if 0 <=? k then bound <? m * 2 ^ k else bound * 2 ^ (- k) <? m) then None
  else Some (Z.shiftl m k).

(** The symbol in a row: [Some None] when the value is not a symbol. *)
Definition recovered_symbol_value (definition : ColumnDef) (column : MappedColumn) (row : Z) : option (option Z) :=
  let in_range v := if SymbolId_max <? v then None else Some v in
  match col_type definition with
  | INT32 => raw ← mapped_at 4 column row; Some (if i32 raw <? 0 then None else in_range (i32 raw))
  | INT64 | TIMESTAMP_NS => raw ← mapped_at 8 column row; Some (if i64 raw <? 0 then None else in_range (i64 raw))
  | FLOAT32 => raw ← mapped_at 4 column row; Some (float_symbol 23 8 SymbolId_max_float raw ≫= in_range)
  | FLOAT64 => raw ← mapped_at 8 column row; Some (float_symbol 52 11 SymbolId_max raw ≫= in_range)
  | BOOL => raw ← mapped_at 1 column row; Some (if 1 <? raw then None else in_range raw)
  | SYMBOL | STRING => Some None
  end.

(** ** One partition *)

(** What the file system answers: whether a path can be inspected, mapped, listed,
    and whether an [OtherNode] is a symbolic link. *)
Record recovery_io : Type := mkRecoveryIo {
  rio_sees : path → bool;
  rio_mapped : path → bool;
  rio_listed : path → bool;
  rio_symlink : path → bool;
}.

Variable io : recovery_io.
Variable fs : filesystem.
Variable generation : path.

Definition snapshot_column (table symbol hour : Z) (name : string) : option MappedColumn :=
  read_column (rio_mapped io) fs generation table symbol hour name.

(** A counter of the walk: partitions and rows so far. *)
Definition add_recovered (counts : Z * Z) (rows : Z) : recover_m (Z * Z) :=
  throw_if (SIZE_MAX - rows <? counts.2) "snapshot recovered row count overflows size_t" ≫= λ _,
  mret (u64 (counts.1 + 1), u64 (counts.2 + rows)).

(** A row of the four tick columns, stored as a tick; its partition must have
    grown by one. *)
Definition recover_tick (symbol hour : Z) (timestamp price volume msg_type : MappedColumn) (row : Z) : recover_m () :=
  defined (mapped_at 8 timestamp row) ≫= λ ts,
  defined (mapped_at 8 volume row) ≫= λ vol,
  defined (mapped_at 4 msg_type row) ≫= λ mt,
  throw_if (negb (to_hour_epoch (i64 ts) =? hour) || (i32 mt <? 0) || (255 <? i32 mt))
    "legacy snapshot partition key/value mismatch" ≫= λ _,
  defined (mapped_at 8 price row) ≫= λ px,
  let is_float := match mc_type price with FLOAT64 => 1 | _ => 0 end in
  let message := mkTick 0 (i64 ts) symbol (i64 px) (i64 vol) (i32 mt) is_float 0 in
  this ≫= λ pl,
  let '(target, m) := get_or_create (partition_mgr_ pl) 0 symbol (i64 ts) in
  update (λ pl, Some (set_partitions m pl)) ≫= λ _,
  update (store_tick message) ≫= λ _,
  this ≫= λ pl,
  defined (deref (partition_mgr_ pl) (p_id target)) ≫= λ after,
  throw_if (negb (num_rows after =? num_rows target + 1)) "legacy snapshot row could not be restored".

Definition type_is (c : MappedColumn) (t : ColumnType) : bool := type_code (mc_type c) =? type_code t.

Definition legacy_inconsistent : string := "legacy snapshot partition has inconsistent columns".

Definition recover_ticks (symbol hour : Z) (counts : Z * Z) : recover_m (Z * Z) :=
  required (snapshot_column 0 symbol hour COL_TIMESTAMP) legacy_inconsistent ≫= λ timestamp,
  required (snapshot_column 0 symbol hour COL_PRICE) legacy_inconsistent ≫= λ price,
  required (snapshot_column 0 symbol hour COL_VOLUME) legacy_inconsistent ≫= λ volume,
  required (snapshot_column 0 symbol hour COL_MSG_TYPE) legacy_inconsistent ≫= λ msg_type,
  throw_if (negb (type_is timestamp TIMESTAMP_NS) || negb (type_is price INT64 || type_is price FLOAT64) ||
            negb (type_is volume INT64) || negb (type_is msg_type INT32) ||
            negb (mc_rows price =? mc_rows timestamp) || negb (mc_rows volume =? mc_rows timestamp) ||
            negb (mc_rows msg_type =? mc_rows timestamp)) legacy_inconsistent ≫= λ _,
  each (λ _ row, recover_tick symbol hour timestamp price volume msg_type (Z.of_nat row)) (seq 0 (Z.to_nat (mc_rows timestamp))) () ≫= λ _,
  add_recovered counts (mc_rows timestamp).

(** What is found out about the columns of a table, by index. *)
Record routing : Type := mkRouting {
  rt_columns : list MappedColumn;
  rt_rows : Z;
  named_symbol : option nat;
  named_timestamp : option nat;
  typed_timestamp : option nat;
}.

Definition typed_column (table symbol hour : Z) (r : routing) (definition : ColumnDef) : recover_m routing :=
  let index := length (rt_columns r) in
  throw_if (match col_type definition with STRING | SYMBOL => true | _ => false end)
    "snapshot recovery for dictionary columns is not available without a durable StringDictionary" ≫= λ _,
  required (snapshot_column table symbol hour (col_name definition)) "typed snapshot partition has inconsistent columns" ≫= λ column,
  throw_if (negb (type_is column (col_type definition)) || (negb (index =? 0)%nat && negb (mc_rows column =? rt_rows r)))
    "typed snapshot partition has inconsistent columns" ≫= λ _,
  let rows := if (index =? 0)%nat then mc_rows column else rt_rows r in
  let name := lower_ascii (col_name definition) in
  let symbol_at := if String.eqb name "symbol" then Some index else named_symbol r in
  let columns := rt_columns r ++ [column] in
  let integral := match col_type definition with INT64 | TIMESTAMP_NS => true | _ => false end in
  if String.eqb name "timestamp" || String.eqb name "timestamp_ns" then
    if integral then mret (mkRouting columns rows symbol_at (Some index) (typed_timestamp r))
    else raise "snapshot routing timestamp has an invalid type"
  else
    let typed := match typed_timestamp r, col_type definition with None, TIMESTAMP_NS => Some index | t, _ => t end in
    mret (mkRouting columns rows symbol_at (named_timestamp r) typed).

(** The values of a row; a BOOL must be 0 or 1. *)
Definition typed_value (row : Z) (values : list TypedColumnValue) (dc : ColumnDef * MappedColumn) : recover_m (list TypedColumnValue) :=
  (match col_type dc.1 with
   | BOOL => defined (mapped_at 1 dc.2 row) ≫= λ v, throw_if (1 <? v) "typed snapshot contains an invalid BOOL value"
   | _ => mret ()
   end) ≫= λ _,
  defined (recovered_typed_value dc.1 dc.2 row) ≫= λ value, mret (values ++ [value]).

Definition recover_typed_row (schema : TableSchema) (table symbol hour : Z) (r : routing) (row : Z) : recover_m () :=
  let defs := zip (columns schema) (rt_columns r) in
  (match named_symbol r with
   | Some i =>
       defined (defs !! i) ≫= λ dc,
       defined (recovered_symbol_value dc.1 dc.2 row) ≫= λ found,
       throw_if (negb (bool_decide (found = Some symbol))) "typed snapshot symbol routing mismatch"
   | None => mret ()
   end) ≫= λ _,
  each (typed_value row) defs [] ≫= λ values,
  (match (match named_timestamp r with Some i => Some i | None => typed_timestamp r end) with
   | Some i =>
       defined (rt_columns r !! i) ≫= λ column,
       defined (mapped_at 8 column row) ≫= λ ts,
       throw_if (negb (to_hour_epoch (i64 ts) =? hour)) "typed snapshot partition key/value mismatch" ≫= λ _,
       mret (i64 ts)
   | None => mret hour
   end) ≫= λ timestamp,
  this ≫= λ pl,
  let '(ok, pl) := ingest_typed_row (mkTypedRow table symbol timestamp values) pl in
  update (λ _, Some pl) ≫= λ _,
  throw_if (negb ok) "typed snapshot row could not be restored".

Definition unknown_schema : string := "snapshot references an unknown or empty table schema".

Definition known_schema (table : Z) : recover_m TableSchema :=
  this ≫= λ pl,
  match get_by_id (schema_registry_ pl) table with
  | Some schema => if (length (columns schema) =? 0)%nat then raise unknown_schema else mret schema
  | None => raise unknown_schema
  end.

Definition recover_typed (table symbol hour : Z) (counts : Z * Z) : recover_m (Z * Z) :=
  known_schema table ≫= λ schema,
  each (typed_column table symbol hour) (columns schema) (mkRouting [] 0 None None None) ≫= λ r,
  each (λ _ row, recover_typed_row schema table symbol hour r (Z.of_nat row)) (seq 0 (Z.to_nat (rt_rows r))) () ≫= λ _,
  add_recovered counts (rt_rows r).

Definition recover_partition (table symbol hour : Z) (counts : Z * Z) : recover_m (Z * Z) :=
  if table =? 0 then recover_ticks symbol hour counts else recover_typed table symbol hour counts.

(** ** The walk *)

(** A link, or something that cannot be inspected. *)
Definition suspect (p : path) (n : node) : bool :=
  negb (rio_sees io p) || match n with OtherNode => rio_symlink io p | _ => false end.

Definition column_file_name (name : string) : string := (name +:+ ".bin")%string.

(** The names of the files a partition must have. *)
Definition expected_files (table : Z) : recover_m (gset string) :=
  if table =? 0
  then mret (list_to_set (column_file_name <$> [COL_TIMESTAMP; COL_PRICE; COL_VOLUME; COL_MSG_TYPE]))
  else
    known_schema table ≫= λ schema,
    each (λ (files : gset string) definition,
      let file := column_file_name (col_name definition) in
      if bool_decide (file ∈ files) then raise "snapshot schema contains duplicate column files" else mret ({[file]} ∪ files))
      (columns schema) ∅.

Definition check_file (hour_path : path) (expected : gset string) (e : string * node) : recover_m (gset string) :=
  throw_if (suspect (hour_path ++ [e.1]) e.2 || match e.2 with File _ => false | _ => true end)
    "snapshot partition contains an invalid file entry" ≫= λ _,
  if bool_decide (e.1 ∈ expected) then mret (expected ∖ {[e.1]}) else raise "snapshot partition contains an unexpected file".

Definition validate_partition_files (table : Z) (hour_path : path) : recover_m () :=
  expected_files table ≫= λ expected,
  if negb (rio_listed io hour_path) then raise "snapshot partition directory cannot be enumerated"
  else
    each (check_file hour_path) (children fs hour_path) expected ≫= λ missing,
    throw_if (negb (bool_decide (missing = ∅))) "snapshot partition is missing required column files".

Definition walk_hour (table symbol : Z) (symbol_path : path) (counts : Z * Z) (e : string * node) : recover_m (Z * Z) :=
  throw_if (suspect (symbol_path ++ [e.1]) e.2 || match e.2 with Directory => false | _ => true end)
    "snapshot contains an invalid partition entry" ≫= λ _,
  required (parse_signed_component (chars e.1)) "snapshot contains an invalid hour directory" ≫= λ hour,
  throw_if (negb (String.eqb e.1 (to_string hour)) || negb (Z.rem hour NS_PER_HOUR =? 0))
    "snapshot contains an invalid hour directory" ≫= λ _,
  validate_partition_files table (symbol_path ++ [e.1]) ≫= λ _,
  recover_partition table symbol hour counts.

Definition walk_symbol (symbol_path : path) (symbol_name : string) (table : Z) (counts : Z * Z) : recover_m (Z * Z) :=
  required (parse_unsigned_component (chars symbol_name)) "snapshot contains an invalid symbol directory" ≫= λ symbol,
  throw_if ((SymbolId_max <? symbol) || negb (String.eqb symbol_name (to_string symbol)))
    "snapshot contains an invalid symbol directory" ≫= λ _,
  if negb (rio_listed io symbol_path) then raise "snapshot symbol directory cannot be enumerated"
  else
    let hours := children fs symbol_path in
    each (walk_hour table symbol symbol_path) hours counts ≫= λ counts,
    throw_if (length hours =? 0)%nat "snapshot contains an empty symbol directory" ≫= λ _,
    mret counts.

Definition walk_table (table_path : path) (name : string) (counts : Z * Z) : recover_m (Z * Z) :=
  let digits := drop 1 (chars name) in
  required (parse_unsigned_component digits) "snapshot contains an invalid table directory" ≫= λ table,
  throw_if ((table =? 0) || (65535 <? table) || negb (String.eqb (str digits) (to_string table)))
    "snapshot contains an invalid table directory" ≫= λ _,
  if negb (rio_listed io table_path) then raise "snapshot table directory cannot be enumerated"
  else
    let symbols := children fs table_path in
    each (λ counts e,
      throw_if (suspect (table_path ++ [e.1]) e.2 || match e.2 with Directory => false | _ => true end)
        "snapshot table contains an invalid symbol entry" ≫= λ _,
      walk_symbol (table_path ++ [e.1]) e.1 table counts) symbols counts ≫= λ counts,
    throw_if (length symbols =? 0)%nat "snapshot contains an empty table directory" ≫= λ _,
    mret counts.

Definition walk_entry (counts : Z * Z) (e : string * node) : recover_m (Z * Z) :=
  throw_if (suspect (generation ++ [e.1]) e.2) "snapshot generation contains an invalid entry" ≫= λ _,
  match e.2 with
  | File _ => if String.eqb e.1 "_COMPLETE" then mret counts else raise "snapshot generation contains an unexpected entry"
  | OtherNode => raise "snapshot generation contains an unexpected entry"
  | Directory =>
      match chars e.1 with
      | "t"%char :: _ => walk_table (generation ++ [e.1]) e.1 counts
      | _ => walk_symbol (generation ++ [e.1]) e.1 0 counts
      end
  end.

(** The whole generation, against the counts of its manifest. *)
Definition recover_generation (partitions rows : Z) : recover_m () :=
  if negb (rio_listed io generation) then raise "snapshot generation cannot be enumerated"
  else
    each walk_entry (children fs generation) (0, 0) ≫= λ counts,
    throw_if (negb (counts.1 =? partitions) || negb (counts.2 =? rows))
      "snapshot manifest row/partition counts do not match data".
End Recovery.

(** ** Start and stop *)

Section StartStop.
Context {L : Lz4} {F : FloatOps}.

Definition recover (io : recovery_io) (fs : filesystem) : recover_m () :=
  this ≫= λ pl,
  match resolve_snapshot (rio_sees io) fs (recovery_snapshot_path (pl_config pl)) with
  | SnapshotInvalid error => raise ("Snapshot recovery refused: " +:+ error)
  | SnapshotMissing => mret ()
  | SnapshotReady generation partitions rows => recover_generation io fs generation partitions rows
  end.

(** An exception is passed on after [running_] was reset; what was recovered stays. *)
Definition start (io : recovery_io) (fs : filesystem) : recover_m () := λ pl,
  if pl_running pl then Some (Returned tt, pl)
  else
    let pl := set_run true (recovery_completed_ pl) pl in
    if enable_recovery (pl_config pl) && negb (recovery_completed_ pl)
    then
      '(r, pl) ← recover io fs pl;
      match r with
      | Returned _ => Some (Returned tt, set_run (pl_running pl) true pl)
      | Thrown w => Some (Thrown w, set_run false (recovery_completed_ pl) pl)
      end
    else Some (Returned tt, pl).

(** A node with what its flush manager has: the pipeline's partitions are also the
    manager's. *)
Record ZeptoNode : Type := mkNode {
  nd_pipeline : ZeptoPipeline;
  nd_manager : FlushManager.FlushManager;
  nd_writer : HDBWriter;
  nd_storage : storage;
}.

Definition start_node (io : recovery_io) (n : ZeptoNode) : option (outcome () * ZeptoNode) :=
  let was_running := pl_running (nd_pipeline n) in
  '(r, pl) ← start io (disk_ (nd_storage n)) (nd_pipeline n);
  let manager := match r with
                 | Returned _ => if negb was_running && has_flush_manager pl then set_fm_running true (nd_manager n) else nd_manager n
                 | Thrown _ => nd_manager n
                 end in
  Some (r, mkNode pl manager (nd_writer n) (nd_storage n)).

(** What is in the queue is stored; then a snapshot, if one is configured. The
    drain threads have stopped. *)
Definition stop (io : flush_io) (now : Z) (fuel : nat) (n : ZeptoNode) : option (bool * ZeptoNode) :=
  let pl := set_run false (recovery_completed_ (nd_pipeline n)) (nd_pipeline n) in
  let manager := if has_flush_manager pl then set_fm_running false (nd_manager n) else nd_manager n in
  '(_, pl) ← drain_sync fuel SIZE_MAX 0 pl;
  if has_flush_manager pl && negb (String.eqb (snapshot_path (flush_config (pl_config pl))) "")
  then
    let '(_, s, _) := do_snapshot io now (mkFlushState manager (partition_mgr_ pl) (nd_writer n) (nd_storage n)) in
    Some (last_snapshot_succeeded_ (fs_manager s), mkNode pl (fs_manager s) (fs_writer s) (fs_storage s))
  else Some (true, mkNode pl manager (nd_writer n) (nd_storage n)).
End StartStop.
