(* ===== verification/RecoveryFacts.v ===== *)
(** * What recovery restores

    A generation that holds the ticks of a log is walked by [recover_generation]:
    every partition gets its ticks back, in order. The steps of the recovery are
    run one at a time; a loop is run with an invariant of what it has done. *)

From S2P Require Import Prelude.
From S2P Require Import Text.
From S2P Require Import Bytes.
From S2P Require Import Arena.
From S2P Require Import ColumnStore.
From S2P Require Import SchemaRegistry.
From S2P Require Import MaterializedView.
From S2P Require Import PartitionManager.
From S2P Require Import RingBuffer.
From S2P Require Import Literals.
From S2P Require Import Rpc.
From S2P Require Import Hdb.
From S2P Require Import FlushManager.
From S2P Require Import FlushFacts.
From S2P Require Import TickPipeline.
From S2P Require Import PipelineFacts.
From S2P Require Import TickQuery.
From S2P Require Import Recovery.
From stdpp Require Import base gmap list strings fin_maps sorting.
From Stdlib Require Import ZArith Lia Ascii.

Open Scope Z_scope.

(** ** Running steps *)

Lemma run_then {A B : Type} (m : recover_m A) (f : A → recover_m B) pl a pl' :
  m pl = Some (Returned a, pl') → (m ≫= f) pl = f a pl'.
Proof. intros H. unfold mbind, recover_bind. by rewrite H. Qed.

(** A loop, with an invariant of what was done, of the accumulator and of the
    pipeline. *)
Lemma each_invariant {A B : Type} (f : B → A → recover_m B) (I : list A → B → ZeptoPipeline → Prop) l b pl :
  (∀ pre a post b pl, l = pre ++ a :: post → I pre b pl →
     ∃ b' pl', f b a pl = Some (Returned b', pl') ∧ I (pre ++ [a]) b' pl') →
  I [] b pl → ∃ b' pl', each f l b pl = Some (Returned b', pl') ∧ I l b' pl'.
Proof.
  intros Hstep. enough (∀ post pre b pl, l = pre ++ post → I pre b pl →
    ∃ b' pl', each f post b pl = Some (Returned b', pl') ∧ I l b' pl') as H by by apply (H l []).
  clear b pl. induction post as [|a post IH]; intros pre b pl Hl HI.
  { rewrite app_nil_r in Hl. subst pre. by exists b, pl. }
  destruct (Hstep pre a post b pl Hl HI) as (b1 & pl1 & H1 & HI1).
  destruct (IH (pre ++ [a]) b1 pl1) as (b' & pl' & H' & HI'); [by rewrite <- app_assoc|done|].
  exists b', pl'. split; [|done]. cbn [each]. by rewrite (run_then _ _ _ _ _ H1).
Qed.

(** ** Columns read back *)

(** A column as a snapshot has it. *)
Definition column_of (n : nat) (f : TickMessage → Z) (t : ColumnType) (msgs : list TickMessage) : MappedColumn :=
  mkMapped (concat (push_le n ∘ f <$> msgs)) (Z.of_nat (length msgs)) t.

Lemma concat_slice (n : nat) (f : TickMessage → Z) msgs i msg : msgs !! i = Some msg →
  take n (drop (i * n) (concat (push_le n ∘ f <$> msgs))) = push_le n (f msg).
Proof.
  revert i. induction msgs as [|m msgs IH]; intros [|i] Hi; try done; simplify_eq/=.
  - by rewrite drop_0, take_app_length' by by rewrite length_push_le.
  - rewrite drop_app_ge by (rewrite length_push_le; lia). rewrite length_push_le. replace (n + i * n - n)%nat with (i * n)%nat by lia.
    by apply IH.
Qed.

Lemma mapped_at_column n f t msgs i msg : msgs !! i = Some msg → (0 < n)%nat →
  mapped_at (Z.of_nat n) (column_of n f t msgs) (Z.of_nat i) = Some (f msg mod 2 ^ (8 * Z.of_nat n)).
Proof.
  intros Hi Hn. pose proof (lookup_lt_Some _ _ _ Hi) as Hlt. unfold mapped_at, column_of. cbn [mc_data mc_rows].
  assert (Z.of_nat (length (concat (push_le n ∘ f <$> msgs))) = Z.of_nat (length msgs) * Z.of_nat n) as ->.
  { rewrite <- Nat2Z.inj_mul, (length_concat_uniform _ n); [by rewrite length_fmap|].
    apply Forall_forall. intros x (m & -> & _)%list_elem_of_fmap. apply length_push_le. }
  rewrite (proj2 (Z.leb_le _ _)) by nia. rewrite (proj2 (Z.ltb_lt _ _)) by lia. cbn [andb]. f_equal.
  unfold field_at, bytes_at. replace (Z.to_nat (Z.of_nat i * Z.of_nat n)) with (i * n)%nat by lia.
  rewrite Nat2Z.id, (concat_slice n f msgs i msg Hi). apply le_val_push.
Qed.

Lemma word_read f t msgs i msg : msgs !! i = Some msg →
  mapped_at 8 (column_of 8 f t msgs) (Z.of_nat i) = Some (f msg mod 2 ^ 64).
Proof. intros Hi. apply (mapped_at_column 8); [done|lia]. Qed.
Lemma half_read f t msgs i msg : msgs !! i = Some msg →
  mapped_at 4 (column_of 4 f t msgs) (Z.of_nat i) = Some (f msg mod 2 ^ 32).
Proof. intros Hi. apply (mapped_at_column 4); [done|lia]. Qed.

Lemma i64_word v : int64_ok v → i64 (v mod 2 ^ 64) = v.
Proof. intros Hv. etrans; [|by apply i64_small]. apply i64_mod_eq. by rewrite Z.mod_mod. Qed.
Lemma i32_half v : 0 <= v <= 255 → i32 (v mod 2 ^ 32) = v.
Proof. intros Hv. unfold i32. rewrite (Z.mod_small v) by lia. rewrite Z.mod_small by lia. lia. Qed.

(** ** One tick *)

Section Steps.
Context {B : Type}.
Implicit Types (pl : ZeptoPipeline).

Lemma run_defined {A : Type} (a : option A) x (f : A → recover_m B) pl : a = Some x → (defined a ≫= f) pl = f x pl.
Proof. by intros ->. Qed.
Lemma run_required {A : Type} (a : option A) x w (f : A → recover_m B) pl : a = Some x → (required a w ≫= f) pl = f x pl.
Proof. by intros ->. Qed.
Lemma run_check b w (f : () → recover_m B) pl : b = false → (throw_if b w ≫= f) pl = f () pl.
Proof. by intros ->. Qed.
Lemma run_current (f : ZeptoPipeline → recover_m B) pl : (this ≫= f) pl = f pl pl.
Proof. done. Qed.
Lemma run_update g (f : () → recover_m B) pl pl' : g pl = Some pl' → (update g ≫= f) pl = f () pl'.
Proof. intros H. unfold mbind, recover_bind, update. by rewrite H. Qed.
End Steps.

(** What recovery makes of a tick: its number is lost, and whether its price is a
    float is what its partition says. *)
Definition recovered (float : bool) (m : TickMessage) : TickMessage :=
  mkTick 0 (recv_ts m) (RingBuffer.symbol_id m) (price m) (volume m) (msg_type m) (if float then 1 else 0) 0.

(** A tick of the pipeline's own table whose fields are in the range of their types. *)
Definition restorable (m : TickMessage) : Prop :=
  tick_table_id m = 0 ∧ 0 <= RingBuffer.symbol_id m < 2 ^ 32 ∧ values_ok m ∧ 0 <= msg_type m <= 255.

Lemma recovered_key (float : bool) m : restorable m → key_of (recovered float m) = key_of m.
Proof. intros (Ht & _). unfold key_of. simpl. by rewrite Ht. Qed.

(** Storing into a partition that was just created for it. *)
Lemma store_tick_again msg pl :
  store_tick msg (set_partitions (get_or_create (partition_mgr_ pl) (tick_table_id msg) (RingBuffer.symbol_id msg) (recv_ts msg)).2 pl) =
  store_tick msg pl.
Proof.
  unfold store_tick. set (g := get_or_create (partition_mgr_ pl) _ _ _).
  assert (get_or_create g.2 (tick_table_id msg) (RingBuffer.symbol_id msg) (recv_ts msg) = g) as Hg.
  { unfold g, get_or_create. destruct (partitions_ (partition_mgr_ pl) !! _) eqn:Hp; simpl; [by rewrite Hp|by rewrite lookup_insert_eq]. }
  cbn [partition_mgr_ set_partitions]. rewrite Hg. destruct g as [p m]. cbn [snd]. by destruct (store_row msg p) as [[is_new p']|].
Qed.

Lemma stores_rows p float msgs : stores p float msgs → num_rows p = Z.of_nat (length msgs).
Proof. intros [Hp Hc _]. rewrite num_rows_contents, Hc by done. simpl. by rewrite length_fmap. Qed.

(** The rows there are before a tick is stored. *)
Lemma rows_before views pl log msg : represents views pl log → tick_ok msg →
  num_rows (get_or_create (partition_mgr_ pl) (tick_table_id msg) (RingBuffer.symbol_id msg) (recv_ts msg)).1 =
  Z.of_nat (length (ticks_of log (key_of msg))).
Proof.
  intros Hrep Hok. unfold get_or_create. fold (key_of msg). destruct (partitions_ (partition_mgr_ pl) !! key_of msg) as [p|] eqn:Hp; simpl.
  - eapply stores_rows. by apply (rp_stores _ _ _ Hrep).
  - apply (rp_present _ _ _ Hrep) in Hp. by rewrite Hp.
Qed.

Lemma recover_tick_spec views pl log (float : bool) msgs i msg :
  represents views pl log → max_memory_bytes (pl_config pl) <= 0 → msgs !! i = Some msg → restorable msg →
  room (partition_bytes (partition_mgr_ pl)) (Z.of_nat (length (ticks_of log (key_of msg))) + 1) →
  ∃ pl', recover_tick (RingBuffer.symbol_id msg) (to_hour_epoch (recv_ts msg)) (column_of 8 recv_ts TIMESTAMP_NS msgs)
      (column_of 8 price (if float then FLOAT64 else INT64) msgs) (column_of 8 volume INT64 msgs) (column_of 4 msg_type INT32 msgs)
      (Z.of_nat i) pl = Some (Returned (), pl') ∧
    represents views pl' (log ++ [recovered float msg]) ∧ same_front pl pl'.
Proof.
  intros Hrep Hmax Hi (Ht & Hs & (Hts & Hpx & Hvol) & Hmt) Hroom.
  assert (tick_ok (recovered float msg)) as Hok by (split; simpl; lia).
  assert (key_of (recovered float msg) = key_of msg) as Hkey by by apply recovered_key.
  destruct (store_tick_spec views pl log (recovered float msg) Hrep Hok Hmax) as (pl' & Hst & Hrep' & Hfront & p' & Hp' & Hid); [by rewrite Hkey|].
  pose proof (rows_before views pl log _ Hrep Hok) as Hrows. pose proof (store_tick_again (recovered float msg) pl) as Hagain.
  exists pl'. split; [|done]. unfold recover_tick.
  rewrite (run_defined _ _ _ _ (word_read _ _ _ _ _ Hi)), (run_defined _ _ _ _ (word_read _ _ _ _ _ Hi)), (run_defined _ _ _ _ (half_read _ _ _ _ _ Hi)).
  rewrite !i64_word, i32_half by done. rewrite run_check.
  2:{ rewrite Z.eqb_refl, (proj2 (Z.ltb_ge _ _)), (proj2 (Z.ltb_ge _ _)) by lia. done. }
  rewrite (run_defined _ _ _ _ (word_read _ _ _ _ _ Hi)), i64_word by done. rewrite run_current.
  assert ((match mc_type (column_of 8 price (if float then FLOAT64 else INT64) msgs) with FLOAT64 => 1 | _ => 0 end) =
    (if float then 1 else 0)) as -> by by destruct float.
  fold (recovered float msg).
  cbn [tick_table_id RingBuffer.symbol_id recv_ts recovered] in Hagain, Hrows, Hid.
  destruct (get_or_create (partition_mgr_ pl) 0 _ _) as [target m]. cbn [fst snd] in *.
  rewrite (run_update _ _ pl (set_partitions m pl)) by done. rewrite (run_update _ _ _ pl') by by rewrite Hagain. rewrite run_current.
  rewrite (run_defined _ p'). 2:{ rewrite <- Hid. eapply deref_found; [by apply Hrep'|done]. }
  destruct (rp_stores _ _ _ Hrep' _ _ Hp') as [Hst' _]. apply stores_rows in Hst'.
  unfold throw_if. rewrite Hst', Hrows, ticks_of_snoc, decide_True, length_app by done. simpl.
  rewrite (proj2 (Z.eqb_eq _ _)) by lia. done.
Qed.

(** ** One partition *)

(** The four files of a partition of ticks read back. *)
Record reads_back {L : Lz4} (io : recovery_io) (fs : filesystem) (generation : path) (k : PartitionKey) (float : bool)
    (msgs : list TickMessage) : Prop := {
  rb_timestamp : snapshot_column io fs generation 0 (PartitionManager.symbol_id k) (hour_epoch k) COL_TIMESTAMP =
    Some (column_of 8 recv_ts TIMESTAMP_NS msgs);
  rb_price : snapshot_column io fs generation 0 (PartitionManager.symbol_id k) (hour_epoch k) COL_PRICE =
    Some (column_of 8 price (if float then FLOAT64 else INT64) msgs);
  rb_volume : snapshot_column io fs generation 0 (PartitionManager.symbol_id k) (hour_epoch k) COL_VOLUME =
    Some (column_of 8 volume INT64 msgs);
  rb_msg_type : snapshot_column io fs generation 0 (PartitionManager.symbol_id k) (hour_epoch k) COL_MSG_TYPE =
    Some (column_of 4 msg_type INT32 msgs);
}.

(** The ticks of a partition. *)
Definition ticks_at (k : PartitionKey) (msgs : list TickMessage) : Prop :=
  Forall (λ m, restorable m ∧ key_of m = k) msgs.

Lemma ticks_of_recovered (float : bool) k msgs : ticks_at k msgs → ticks_of (recovered float <$> msgs) k = recovered float <$> msgs.
Proof.
  unfold ticks_of. induction 1 as [|m msgs [Hm <-] _ IH]; [done|]. rewrite fmap_cons, filter_cons, recovered_key, decide_True by done.
  by rewrite IH.
Qed.

Lemma same_front_refl pl : same_front pl pl.
Proof. done. Qed.

Lemma same_front_bytes pl pl' : same_front pl pl' → partition_bytes (partition_mgr_ pl') = partition_bytes (partition_mgr_ pl).
Proof. intros (_ & _ & _ & _ & _ & Ha). unfold partition_bytes. by rewrite Ha. Qed.

Section Partition.
Context {L : Lz4} (io : recovery_io) (fs : filesystem) (generation : path) (views : MaterializedViewManager).

(** All rows of a partition, one by one. *)
Lemma recover_rows pl log (float : bool) k msgs :
  represents views pl log → max_memory_bytes (pl_config pl) <= 0 → ticks_at k msgs → ticks_of log k = [] →
  room (partition_bytes (partition_mgr_ pl)) (Z.of_nat (length msgs)) →
  ∃ pl', each (λ _ row, recover_tick (PartitionManager.symbol_id k) (hour_epoch k) (column_of 8 recv_ts TIMESTAMP_NS msgs)
      (column_of 8 price (if float then FLOAT64 else INT64) msgs) (column_of 8 volume INT64 msgs)
      (column_of 4 msg_type INT32 msgs) (Z.of_nat row)) (seq 0 (length msgs)) () pl = Some (Returned (), pl') ∧
    represents views pl' (log ++ (recovered float <$> msgs)) ∧ same_front pl pl'.
Proof.
  intros Hrep Hmax Hat Hnone Hroom.
  set (I := λ (pre : list nat) (_ : ()) pl', represents views pl' (log ++ (recovered float <$> take (length pre) msgs)) ∧ same_front pl pl').
  destruct (each_invariant (λ _ row, recover_tick (PartitionManager.symbol_id k) (hour_epoch k) (column_of 8 recv_ts TIMESTAMP_NS msgs)
    (column_of 8 price (if float then FLOAT64 else INT64) msgs) (column_of 8 volume INT64 msgs) (column_of 4 msg_type INT32 msgs)
    (Z.of_nat row)) I (seq 0 (length msgs)) () pl) as ([] & pl' & Hrun & HI).
  - intros pre i post [] pl1 Hseq [Hrep1 Hf1]. assert (i = length pre ∧ (i < length msgs)%nat) as [-> Hlt].
    { assert (seq 0 (length msgs) !! length pre = Some i) as [? ?]%lookup_seq by by rewrite Hseq, lookup_app_r, Nat.sub_diag by lia.
      simpl in *. lia. }
    destruct (lookup_lt_is_Some_2 _ _ Hlt) as [msg Hi]. pose proof (Forall_lookup_1 _ _ _ _ Hat Hi) as [Hok Hkey].
    destruct (recover_tick_spec views pl1 _ float msgs (length pre) msg Hrep1) as (pl2 & Hr & Hrep2 & Hf2); [|done|done| |].
    + by destruct Hf1 as (-> & _).
    + rewrite (same_front_bytes _ _ Hf1), Hkey, ticks_of_app, Hnone, ticks_of_recovered, length_app, length_fmap, length_take by by apply Forall_take.
      eapply room_le; [|done]. simpl. lia.
    + exists (), pl2. rewrite <- Hkey. split; [done|]. split; [|by eapply same_front_trans].
      rewrite length_app, Nat.add_1_r, (take_S_r _ _ _ Hi), fmap_app, app_assoc. done.
  - split; [|apply same_front_refl]. by rewrite app_nil_r.
  - destruct HI as [Hrep' Hf]. exists pl'. split; [done|]. split; [|done]. by rewrite length_seq, take_ge in Hrep' by lia.
Qed.

Lemma recover_ticks_spec pl log (float : bool) k msgs counts :
  represents views pl log → max_memory_bytes (pl_config pl) <= 0 → reads_back io fs generation k float msgs → ticks_at k msgs →
  ticks_of log k = [] → room (partition_bytes (partition_mgr_ pl)) (Z.of_nat (length msgs)) →
  0 <= counts.1 < SIZE_MAX → 0 <= counts.2 → counts.2 + Z.of_nat (length msgs) <= SIZE_MAX →
  ∃ pl', recover_ticks io fs generation (PartitionManager.symbol_id k) (hour_epoch k) counts pl =
      Some (Returned (counts.1 + 1, counts.2 + Z.of_nat (length msgs)), pl') ∧
    represents views pl' (log ++ (recovered float <$> msgs)) ∧ same_front pl pl'.
Proof.
  intros Hrep Hmax [Hts Hpx Hvol Hmt] Hat Hnone Hroom H1 H2 Hsum.
  destruct (recover_rows pl log float k msgs Hrep Hmax Hat Hnone Hroom) as (pl' & Hrows & Hrep' & Hf). exists pl'. split; [|done].
  unfold recover_ticks. rewrite (run_required _ _ _ _ _ Hts), (run_required _ _ _ _ _ Hpx), (run_required _ _ _ _ _ Hvol), (run_required _ _ _ _ _ Hmt).
  rewrite run_check. 2:{ unfold type_is. simpl. rewrite !Z.eqb_refl. by destruct float. }
  cbn [mc_rows column_of]. rewrite Nat2Z.id, (run_then _ _ _ _ _ Hrows). unfold add_recovered, SIZE_MAX in *.
  rewrite run_check by (apply Z.ltb_ge; lia). unfold mret, recover_ret. by rewrite !wrap_small by lia.
Qed.
End Partition.

(** ** Names of directories *)

Lemma parse_unsigned_to_string z : 0 <= z < 2 ^ 64 → parse_unsigned_component (chars (to_string z)) = Some z.
Proof.
  intros Hz. destruct (unsigned_digits_spec z) as (Hd & Hv & Hne); [lia|]. unfold parse_unsigned_component.
  rewrite to_string_chars, span_all by (done || lia). destruct (unsigned_digits z) eqn:Hu; [done|].
  cbv iota beta. rewrite Hv, (proj2 (Z.ltb_lt _ _)) by lia. done.
Qed.

Lemma digit_not_minus c : isdigit c = true → Ascii.eqb c "-"%char = false.
Proof. by_char c. Qed.

Lemma parse_signed_to_string z : int64_ok z → parse_signed_component (chars (to_string z)) = Some z.
Proof.
  intros Hz. assert (in_int64 z = true) as Hin by (unfold in_int64; apply andb_true_iff; destruct Hz; split; lia).
  unfold parse_signed_component, to_string. rewrite chars_str. destruct (Z.ltb_spec z 0).
  - destruct (unsigned_digits_spec (- z)) as (Hd & Hv & Hne); [lia|]. simpl. rewrite span_all by done.
    destruct (unsigned_digits (- z)) eqn:Hu; [done|]. cbv iota beta. by rewrite Hv, Z.opp_involutive, Hin.
  - destruct (unsigned_digits_spec z) as (Hd & Hv & Hne); [lia|]. destruct (unsigned_digits z) as [|c l] eqn:Hu; [done|].
    pose proof Hd as Hc. simpl in Hc. apply andb_prop in Hc as [Hc _]. rewrite digit_not_minus by done.
    rewrite span_all by done. cbv iota beta. by rewrite Hv, Hin.
Qed.

(** A directory of numbers is not taken for one of a table. *)
Lemma not_a_table {A : Type} z (a b : A) : 0 <= z →
  match chars (to_string z) with "t"%char :: _ => a | _ => b end = b.
Proof.
  intros Hz. rewrite to_string_chars by done. destruct (unsigned_digits_spec z Hz) as (Hd & _ & _).
  destruct (unsigned_digits z) as [|c l]; [done|]. simpl in Hd. apply andb_prop in Hd as [Hc _]. revert Hc.
  destruct c as [[] [] [] [] [] [] [] []]; vm_compute; congruence.
Qed.

Lemma hour_epoch_range ts : int64_ok ts → int64_ok (to_hour_epoch ts) ∧ Z.rem (to_hour_epoch ts) NS_PER_HOUR = 0.
Proof.
  intros Hts. assert (∀ t, 0 <= t → 0 <= Z.quot t NS_PER_HOUR * NS_PER_HOUR <= t) as Hpos.
  { intros t Ht. pose proof (Z.quot_rem t NS_PER_HOUR ltac:(done)). pose proof (Z.rem_bound_pos t NS_PER_HOUR Ht ltac:(done)).
    pose proof (Z.quot_pos t NS_PER_HOUR Ht ltac:(done)). unfold NS_PER_HOUR in *. lia. }
  assert (int64_ok (Z.quot ts NS_PER_HOUR * NS_PER_HOUR)) as Hok.
  { unfold int64_ok, INT64_MIN, INT64_MAX in *. destruct (Z.le_gt_cases 0 ts); [specialize (Hpos ts); lia|].
    specialize (Hpos (- ts)). rewrite Z.quot_opp_l in Hpos by done. lia. }
  unfold to_hour_epoch. rewrite i64_small by apply Hok. split; [done|]. apply Z.rem_mul. unfold NS_PER_HOUR. lia.
Qed.

(** ** Directories *)

Lemma children_entry (fs : filesystem) dir name n : (name, n) ∈ children fs dir ↔ fs !! (dir ++ [name]) = Some n.
Proof.
  split; [|apply child_entry]. intros H. unfold children in H. apply list_elem_of_omap in H as ([q m] & Hq%elem_of_map_to_list & H).
  simpl in H. destruct (last q); [|done]. case_bool_decide; [|done]. by simplify_eq.
Qed.

Lemma NoDup_omap_inj {A B : Type} (f : A → option B) l :
  NoDup l → (∀ x y z, x ∈ l → y ∈ l → f x = Some z → f y = Some z → x = y) → NoDup (omap f l).
Proof.
  induction 1 as [|x l Hx Hnd IH]; intros Hinj; [constructor|]. simpl. assert (NoDup (omap f l)) as Hl.
  { apply IH. intros y y' z Hy Hy'. apply Hinj; by right. }
  destruct (f x) as [z|] eqn:Hz; [|done]. apply NoDup_cons. split; [|done]. intros (y & Hy & Hfy)%list_elem_of_omap.
  assert (x = y) as <- by (eapply Hinj; [by left|by right|done..]). done.
Qed.

Lemma children_distinct (fs : filesystem) dir : NoDup (children fs dir).*1.
Proof.
  assert ((children fs dir).*1 = omap (λ e : path * node, match last e.1 with
    | Some name => if bool_decide (e.1 = dir ++ [name]) then Some name else None | None => None end) (map_to_list fs)) as ->.
  { unfold children. induction (map_to_list fs) as [|[q n] l IH]; [done|]. simpl. destruct (last q); [|done].
    case_bool_decide; [|done]. cbn. f_equal. exact IH. }
  apply NoDup_omap_inj; [apply NoDup_map_to_list|]. intros [q n] [q' n'] name Hq%elem_of_map_to_list Hq'%elem_of_map_to_list H H'. simpl in *.
  destruct (last q); [|done]. case_bool_decide; [|done]. destruct (last q'); [|done]. case_bool_decide; [|done]. by simplify_eq.
Qed.

(** ** A generation on disk *)

Definition tick_column_names : list string := [COL_TIMESTAMP; COL_PRICE; COL_VOLUME; COL_MSG_TYPE].
Definition tick_file_names : list string := column_file_name <$> tick_column_names.

Lemma tick_column_cases c : c ∈ tick_column_names → c = COL_TIMESTAMP ∨ c = COL_PRICE ∨ c = COL_VOLUME ∨ c = COL_MSG_TYPE.
Proof. unfold tick_column_names. rewrite !elem_of_cons. intros [|[|[|[|[]%elem_of_nil]]]]; tauto. Qed.

Lemma tick_file_path base_path symbol hour c : c ∈ tick_column_names →
  column_file_path base_path 0 symbol hour c = ((base_path ++ [to_string symbol]) ++ [to_string hour]) ++ [column_file_name c].
Proof.
  intros Hc%tick_column_cases. unfold column_file_path, partition_dir, below. simpl. rewrite <- !app_assoc. f_equal. simpl. do 2 f_equal.
  by destruct Hc as [-> |[-> |[-> | ->]]].
Qed.

(** The log has ticks in a partition. *)
Definition present (log : list TickMessage) (k : PartitionKey) : Prop := ticks_of log k ≠ [].

Notation symbol_name k := (to_string (PartitionManager.symbol_id k)).
Notation hour_name k := (to_string (hour_epoch k)).

(** The generation has the partitions of the log, and nothing else but its
    manifest. *)
Record holds_log {L : Lz4} (io : recovery_io) (fs : filesystem) (generation : path) (log : list TickMessage) : Prop := {
  hl_top : ∀ name n, fs !! (generation ++ [name]) = Some n →
    (name = "_COMPLETE"%string ∧ ∃ bytes, n = File bytes) ∨ (n = Directory ∧ ∃ k, present log k ∧ name = symbol_name k);
  hl_hours : ∀ k name n, present log k → fs !! ((generation ++ [symbol_name k]) ++ [name]) = Some n →
    n = Directory ∧ ∃ k', present log k' ∧ PartitionManager.symbol_id k' = PartitionManager.symbol_id k ∧ name = hour_name k';
  hl_files : ∀ k name n, present log k → fs !! (((generation ++ [symbol_name k]) ++ [hour_name k]) ++ [name]) = Some n →
    name ∈ tick_file_names ∧ ∃ bytes, n = File bytes;
  hl_symbol : ∀ k, present log k → fs !! (generation ++ [symbol_name k]) = Some Directory;
  hl_hour : ∀ k, present log k → fs !! ((generation ++ [symbol_name k]) ++ [hour_name k]) = Some Directory;
  hl_columns : ∀ k, present log k → reads_back io fs generation k (float_of (ticks_of log k)) (ticks_of log k);
}.

(** Everything can be looked at. *)
Record io_works (io : recovery_io) : Prop := {
  iw_sees : ∀ q, rio_sees io q = true;
  iw_mapped : ∀ q, rio_mapped io q = true;
  iw_listed : ∀ q, rio_listed io q = true;
}.

Lemma present_key log k : Forall restorable log → present log k →
  table_id k = 0 ∧ 0 <= PartitionManager.symbol_id k < 2 ^ 32 ∧ int64_ok (hour_epoch k) ∧ Z.rem (hour_epoch k) NS_PER_HOUR = 0.
Proof.
  intros Hlog Hp. unfold present in Hp. destruct (ticks_of log k) as [|m msgs] eqn:Hm; [done|].
  assert (m ∈ ticks_of log k) as [<- Hin]%list_elem_of_filter by (rewrite Hm; by left).
  rewrite Forall_forall in Hlog. destruct (Hlog m Hin) as (Ht & Hs & (Hts & _) & _). split; [done|]. split; [done|].
  by apply hour_epoch_range.
Qed.

Lemma present_name log k k' : Forall restorable log → present log k → present log k' →
  PartitionManager.symbol_id k' = PartitionManager.symbol_id k → hour_name k' = hour_name k → k' = k.
Proof.
  intros Hlog Hk Hk' Hs Hh. destruct (present_key _ _ Hlog Hk) as (Ht & _ & Hok & _), (present_key _ _ Hlog Hk') as (Ht' & _ & Hok' & _).
  apply to_string_inj in Hh; [|done..]. destruct k, k'. simpl in *. by subst.
Qed.

Lemma ticks_at_key log k : Forall restorable log → ticks_at k (ticks_of log k).
Proof.
  intros Hlog. apply Forall_forall. intros m [Hk Hm]%list_elem_of_filter. rewrite Forall_forall in Hlog. by split; [apply Hlog|].
Qed.

(** What recovery makes of the partitions it has visited. *)
Definition restored_at (log : list TickMessage) (k : PartitionKey) : list TickMessage :=
  recovered (float_of (ticks_of log k)) <$> ticks_of log k.
Definition restored (log : list TickMessage) (ks : list PartitionKey) : list TickMessage := ks ≫= restored_at log.
Definition rows_of (log : list TickMessage) (ks : list PartitionKey) : Z :=
  zsum ((λ k, Z.of_nat (length (ticks_of log k))) <$> ks).

Lemma ticks_of_restored log ks k : Forall restorable log → NoDup ks →
  ticks_of (restored log ks) k = if decide (k ∈ ks) then restored_at log k else [].
Proof.
  intros Hlog. unfold restored. induction 1 as [|k' ks Hk Hnd IH]; [by rewrite decide_False by apply not_elem_of_nil|]. rewrite bind_cons, ticks_of_app, IH.
  destruct (decide (k' = k)) as [->|Hne].
  - rewrite (decide_True _ _ (list_elem_of_here _ _)), decide_False, app_nil_r by done.
    apply ticks_of_recovered. by apply ticks_at_key.
  - assert (ticks_of (restored_at log k') k = []) as ->.
    { destruct (ticks_of (restored_at log k') k) as [|m l] eqn:Hm; [done|].
      assert (m ∈ ticks_of (restored_at log k') k) as [Hmk (m' & -> & Hm')%list_elem_of_fmap]%list_elem_of_filter by (rewrite Hm; by left).
      pose proof (ticks_at_key log k' Hlog) as Hat. unfold ticks_at in Hat. rewrite Forall_forall in Hat.
      destruct (Hat m' Hm') as [Hr Heq]. rewrite recovered_key in Hmk by done. congruence. }
    simpl. destruct (decide (k ∈ ks)); [by rewrite decide_True by by right|].
    rewrite decide_False; [done|]. by intros [->|]%elem_of_cons.
Qed.

Lemma rows_of_le log ks : NoDup ks → 0 <= rows_of log ks <= Z.of_nat (length log).
Proof.
  intros Hnd. unfold rows_of. induction log as [|m log IH].
  { induction ks as [|k ks IHk]; [done|]. apply NoDup_cons in Hnd as [_ Hnd]. specialize (IHk Hnd). rewrite fmap_cons. cbn [foldr] in *. change (ticks_of [] k) with (@nil TickMessage). simpl in *. lia. }
  enough (zsum ((λ k, Z.of_nat (length (ticks_of (m :: log) k))) <$> ks) =
    zsum ((λ k, Z.of_nat (length (ticks_of log k))) <$> ks) + if bool_decide (key_of m ∈ ks) then 1 else 0) as ->
    by (cbn [length]; case_bool_decide; lia).
  clear IH. induction Hnd as [|k ks Hk Hnd IHk]; [done|]. rewrite !fmap_cons. cbn [foldr]. rewrite IHk.
  unfold ticks_of at 1. rewrite filter_cons. destruct (decide (key_of m = k)) as [->|Hne].
  - rewrite (bool_decide_true (_ ∈ _ :: _)), bool_decide_false by (done || by left). fold (ticks_of log k). cbn [length]. lia.
  - assert (bool_decide (key_of m ∈ k :: ks) = bool_decide (key_of m ∈ ks)) as -> by (apply bool_decide_ext; set_solver).
    fold (ticks_of log k). lia.
Qed.

Lemma keys_le_rows log ks : (∀ k, k ∈ ks → present log k) → Z.of_nat (length ks) <= rows_of log ks.
Proof.
  unfold rows_of. induction ks as [|k ks IH]; intros H; [done|]. specialize (IH ltac:(intros k' Hk'; apply H; by right)).
  specialize (H k ltac:(by left)). unfold present in H. rewrite fmap_cons. cbn [foldr length].
  destruct (ticks_of log k); [done|]. cbn [length] in *. lia.
Qed.

(** ** The walk *)

Section Walk.
Context {L : Lz4} {F : FloatOps} (io : recovery_io) (fs : filesystem) (generation : path) (log : list TickMessage).
Context (Hio : io_works io) (Hlog : Forall restorable log) (Hsize : Z.of_nat (length log) <= SIZE_MAX).
Context (Hdisk : holds_log io fs generation log) (views : MaterializedViewManager) (pl0 : ZeptoPipeline).
Context (Hmax : max_memory_bytes (pl_config pl0) <= 0) (Hfits : fits (partition_mgr_ pl0) log).

(** Nothing on the way is suspect. *)
Lemma not_suspect q n : n ≠ OtherNode → suspect io q n = false.
Proof. intros Hn. unfold suspect. rewrite (iw_sees _ Hio). by destruct n. Qed.

(** What was done after the partitions [ks]. *)
Record walked (ks : list PartitionKey) (counts : Z * Z) (pl : ZeptoPipeline) : Prop := {
  wk_log : represents views pl (restored log ks);
  wk_front : same_front pl0 pl;
  wk_distinct : NoDup ks;
  wk_present : ∀ k, k ∈ ks → present log k;
  wk_counts : counts = (Z.of_nat (length ks), rows_of log ks);
}.

Lemma check_files (pl : ZeptoPipeline) k : present log k →
  validate_partition_files io fs 0 ((generation ++ [symbol_name k]) ++ [hour_name k]) pl = Some (Returned (), pl).
Proof.
  intros Hk. set (dir := (generation ++ [symbol_name k]) ++ [hour_name k]). unfold validate_partition_files.
  change (expected_files 0) with (mret (M := recover_m) (list_to_set tick_file_names : gset string)).
  rewrite (run_then _ _ pl (list_to_set tick_file_names) pl) by done. rewrite (iw_listed _ Hio). cbn [negb].
  destruct (each_invariant (check_file io dir) (λ pre missing pl', pl' = pl ∧ missing = list_to_set tick_file_names ∖ list_to_set pre.*1)
    (children fs dir) (list_to_set tick_file_names) pl) as (missing & pl' & Hrun & -> & Hm).
  - intros pre [name n] post missing pl' Hch [-> ->]. assert ((name, n) ∈ children fs dir) as Hin%children_entry.
    { rewrite Hch. apply elem_of_app. right. by left. }
    destruct (hl_files _ _ _ _ Hdisk k name n Hk Hin) as (Hname & bytes & ->).
    assert (name ∉ pre.*1) as Hnew.
    { pose proof (children_distinct fs dir) as Hnd. rewrite Hch, fmap_app in Hnd. apply NoDup_app in Hnd as (_ & Hnd & _).
      intros Hpre. apply (Hnd name Hpre). by left. }
    eexists _, pl. split; [|split; [done|reflexivity]]. unfold check_file. rewrite run_check by by rewrite not_suspect.
    cbn [fst]. rewrite bool_decide_true by set_solver. unfold mret, recover_ret. do 2 f_equal. f_equal. rewrite fmap_app. set_solver.
  - split; [done|set_solver].
  - rewrite (run_then _ _ _ _ _ Hrun). unfold throw_if. rewrite bool_decide_true; [done|]. rewrite Hm.
    apply set_eq. intros name. split; [|set_solver]. intros [Hname Hnot]%elem_of_difference. exfalso. apply Hnot.
    apply elem_of_list_to_set in Hname. apply elem_of_list_to_set.
    enough (∃ n, fs !! (dir ++ [name]) = Some n) as [n Hn] by (apply list_elem_of_fmap; exists (name, n); split; [done|by apply child_entry]).
    destruct (hl_columns _ _ _ _ Hdisk k Hk) as [H1 H2 H3 H4]. 
    assert (∀ c, (∃ col, snapshot_column io fs generation 0 (PartitionManager.symbol_id k) (hour_epoch k) c = Some col) →
      column_file_path generation 0 (PartitionManager.symbol_id k) (hour_epoch k) c = dir ++ [column_file_name c] →
      ∃ n, fs !! (dir ++ [column_file_name c]) = Some n) as Hfile.
    { intros c [col Hcol] Hp. unfold snapshot_column, read_column in Hcol. rewrite Hp in Hcol. by destruct (fs !! _) as [n|]; [exists n|]. }
    unfold tick_file_names in Hname. apply list_elem_of_fmap in Hname as (c & -> & Hc). apply Hfile; [|by apply tick_file_path].
    apply tick_column_cases in Hc as [-> |[-> |[-> | ->]]]; eauto.
Qed.

(** One hour of a symbol. *)
Lemma walk_hour_spec ks counts pl k : walked ks counts pl → present log k → k ∉ ks →
  ∃ counts' pl', walk_hour io fs generation 0 (PartitionManager.symbol_id k) (generation ++ [symbol_name k]) counts
      (hour_name k, Directory) pl = Some (Returned counts', pl') ∧ walked (ks ++ [k]) counts' pl'.
Proof.
  intros [Hrep Hfront Hnd Hpres ->] Hk Hnew. destruct (present_key _ _ Hlog Hk) as (_ & _ & Hh & Hrem).
  assert (NoDup (ks ++ [k])) as Hnd'.
  { apply NoDup_app. split; [done|]. split; [|apply NoDup_singleton]. by intros k' Hk' ->%list_elem_of_singleton. }
  assert (∀ k', k' ∈ ks ++ [k] → present log k') as Hpres'.
  { intros k' [Hk'| ->%list_elem_of_singleton]%elem_of_app; [by apply Hpres|done]. }
  pose proof (rows_of_le log (ks ++ [k]) Hnd') as Hrows. pose proof (keys_le_rows log _ Hpres') as Hkeys.
  assert (rows_of log (ks ++ [k]) = rows_of log ks + Z.of_nat (length (ticks_of log k))) as Hsum.
  { unfold rows_of. rewrite fmap_app, zsum_app. simpl. lia. }
  rewrite length_app in Hkeys. cbn [length] in Hkeys.
  assert (0 <= rows_of log ks) by by apply rows_of_le.
  destruct (recover_ticks_spec io fs generation views pl (restored log ks) (float_of (ticks_of log k)) k (ticks_of log k)
    (Z.of_nat (length ks), rows_of log ks)) as (pl' & Hrun & Hrep' & Hf'); try done.
  - by destruct Hfront as (-> & _).
  - by apply (hl_columns _ _ _ _ Hdisk).
  - by apply ticks_at_key.
  - by rewrite ticks_of_restored, decide_False.
  - rewrite (same_front_bytes _ _ Hfront). apply Hfits.
  - simpl. lia.
  - simpl. lia.
  - eexists _, pl'. split.
    + unfold walk_hour. cbn [fst snd]. rewrite run_check by by rewrite not_suspect.
      rewrite (run_required _ _ _ _ _ (parse_signed_to_string _ Hh)), run_check by by rewrite String.eqb_refl, Hrem.
      rewrite (run_then _ _ _ _ _ (check_files pl k Hk)). unfold recover_partition. exact Hrun.
    + split; [|by eapply same_front_trans|done|done|].
      * unfold restored in *. by rewrite bind_app, bind_singleton.
      * rewrite Hsum, length_app. simpl. f_equal. lia.
Qed.
(** An entry of a directory comes up once. *)
Lemma entry_once dir pre name n post : children fs dir = pre ++ (name, n) :: post → ∀ n', (name, n') ∉ pre.
Proof.
  intros Hch n' Hin. pose proof (children_distinct fs dir) as Hnd. rewrite Hch, fmap_app in Hnd.
  apply NoDup_app in Hnd as (_ & Hnd & _). apply (Hnd name); [|by left]. apply list_elem_of_fmap. by exists (name, n').
Qed.

(** One symbol: its partitions are walked. *)
Lemma walk_symbol_spec ks counts pl k : walked ks counts pl → present log k →
  (∀ k', k' ∈ ks → PartitionManager.symbol_id k' ≠ PartitionManager.symbol_id k) →
  ∃ ks' counts' pl', walk_symbol io fs generation (generation ++ [symbol_name k]) (symbol_name k) 0 counts pl =
      Some (Returned counts', pl') ∧ walked (ks ++ ks') counts' pl' ∧
    ∀ k', k' ∈ ks' ↔ present log k' ∧ PartitionManager.symbol_id k' = PartitionManager.symbol_id k.
Proof.
  intros Hw Hk Hnew. destruct (present_key _ _ Hlog Hk) as (_ & Hs & _). set (dir := generation ++ [symbol_name k]).
  set (I := λ (pre : list (string * node)) counts pl, ∃ ks', walked (ks ++ ks') counts pl ∧
    ∀ k', k' ∈ ks' ↔ present log k' ∧ PartitionManager.symbol_id k' = PartitionManager.symbol_id k ∧ (hour_name k', Directory) ∈ pre).
  destruct (each_invariant (walk_hour io fs generation 0 (PartitionManager.symbol_id k) dir) I (children fs dir) counts pl)
    as (counts' & pl' & Hrun & ks' & Hw' & Hks').
  - intros pre [name n] post c1 pl1 Hch (ks1 & Hw1 & Hks1).
    assert ((name, n) ∈ children fs dir) as Hin%children_entry by (rewrite Hch; apply elem_of_app; right; by left).
    destruct (hl_hours _ _ _ _ Hdisk k name n Hk Hin) as (-> & k1 & Hk1 & Hs1 & ->).
    destruct (walk_hour_spec (ks ++ ks1) c1 pl1 k1 Hw1 Hk1) as (c2 & pl2 & Hrun2 & Hw2).
    { intros [Hin1|Hin1]%elem_of_app; [by apply (Hnew k1)|]. apply Hks1 in Hin1 as (_ & _ & Hpre).
      by apply (entry_once dir pre _ _ _ Hch Directory). }
    rewrite Hs1 in Hrun2. exists c2, pl2. split; [done|]. exists (ks1 ++ [k1]). split; [by rewrite app_assoc|].
    intros k2. rewrite !elem_of_app, !list_elem_of_singleton, Hks1. split.
    + intros [(? & ? & ?)| ->]; [by auto|]. split; [done|]. split; [done|]. by right.
    + intros (Hp2 & Hs2 & [Hpre|[= Hname]]); [by left|right]. apply (present_name log k1 k2); [done..|congruence|done].
  - exists []. rewrite app_nil_r. split; [done|]. intros k'. split; [by intros ?%not_elem_of_nil|]. by intros (_ & _ & ?%not_elem_of_nil).
  - exists ks', counts', pl'. split; [|split; [done|]].
    + unfold walk_symbol. rewrite (run_required _ _ _ _ _ (parse_unsigned_to_string (PartitionManager.symbol_id k) ltac:(lia))).
      rewrite run_check. 2:{ unfold SymbolId_max. rewrite String.eqb_refl, (proj2 (Z.ltb_ge _ _)) by lia. done. }
      fold dir. rewrite (iw_listed _ Hio). cbn [negb]. rewrite (run_then _ _ _ _ _ Hrun), run_check; [done|].
      destruct (children fs dir) as [|e es] eqn:Hch; [|done].
      pose proof (child_entry fs dir (hour_name k) Directory (hl_hour _ _ _ _ Hdisk k Hk)) as Hin. rewrite Hch in Hin. by apply not_elem_of_nil in Hin.
    + intros k'. rewrite Hks'. split; [tauto|]. intros [Hp Hs']. split_and!; [done..|]. apply child_entry. unfold dir. rewrite <- Hs'.
      by apply (hl_hour _ _ _ _ Hdisk).
Qed.

(** The whole generation. *)
Lemma walk_all counts pl : walked [] counts pl →
  ∃ ks counts' pl', each (walk_entry io fs generation) (children fs generation) counts pl = Some (Returned counts', pl') ∧
    walked ks counts' pl' ∧ ∀ k, k ∈ ks ↔ present log k.
Proof.
  intros Hw. set (I := λ (pre : list (string * node)) counts pl, ∃ ks, walked ks counts pl ∧
    ∀ k, k ∈ ks ↔ present log k ∧ (symbol_name k, Directory) ∈ pre).
  destruct (each_invariant (walk_entry io fs generation) I (children fs generation) counts pl) as (counts' & pl' & Hrun & ks & Hw' & Hks).
  - intros pre [name n] post c1 pl1 Hch (ks1 & Hw1 & Hks1).
    assert ((name, n) ∈ children fs generation) as Hin%children_entry by (rewrite Hch; apply elem_of_app; right; by left).
    destruct (hl_top _ _ _ _ Hdisk name n Hin) as [(-> & bytes & ->)|(-> & k1 & Hk1 & ->)].
    + exists c1, pl1. split; [unfold walk_entry; by rewrite run_check by by rewrite not_suspect|]. exists ks1. split; [done|].
      intros k. rewrite Hks1, elem_of_app, list_elem_of_singleton. split; [tauto|]. by intros (? & [?|?]).
    + destruct (present_key _ _ Hlog Hk1) as (_ & Hs1 & _).
      destruct (walk_symbol_spec ks1 c1 pl1 k1 Hw1 Hk1) as (ks2 & c2 & pl2 & Hrun2 & Hw2 & Hks2).
      { intros k' (_ & Hpre)%Hks1 Heq. rewrite Heq in Hpre. by apply (entry_once generation pre _ _ _ Hch Directory). }
      exists c2, pl2. split.
      * unfold walk_entry. cbn [fst snd]. rewrite run_check by by rewrite not_suspect. rewrite not_a_table by lia. exact Hrun2.
      * exists (ks1 ++ ks2). split; [done|]. intros k. rewrite !elem_of_app, Hks1, Hks2, list_elem_of_singleton. split.
        -- intros [[? ?]|[Hp Heq]]; [by auto|]. split; [done|]. right. by rewrite Heq.
        -- intros [Hp [?|[= Heq]]]; [by auto|]. right. split; [done|]. destruct (present_key _ _ Hlog Hp) as (_ & Hs & _).
           apply to_string_inj; unfold INT64_MIN, INT64_MAX; (done || lia).
  - exists []. split; [done|]. intros k. split; [by intros ?%not_elem_of_nil|]. by intros [_ ?%not_elem_of_nil].
  - exists ks, counts', pl'. split; [done|]. split; [done|]. intros k. rewrite Hks. split; [tauto|]. intros Hp. split; [done|].
    apply child_entry. by apply (hl_symbol _ _ _ _ Hdisk).
Qed.

(** Recovery succeeds when the manifest's counts are those of the log. *)
Lemma recover_generation_spec (all : list PartitionKey) :
  represents views pl0 [] → NoDup all → (∀ k, k ∈ all ↔ present log k) →
  ∃ pl' log', recover_generation io fs generation (Z.of_nat (length all)) (rows_of log all) pl0 = Some (Returned (), pl') ∧
    represents views pl' log' ∧ same_front pl0 pl' ∧ ∀ k, ticks_of log' k = restored_at log k.
Proof.
  intros Hrep Hnd Hall. destruct (walk_all (0, 0) pl0) as (ks & counts & pl' & Hrun & [Hrep' Hfront Hks _ ->] & Hmem).
  { split; [done|done|constructor|by intros k ?%not_elem_of_nil|done]. }
  assert (ks ≡ₚ all) as Hperm.
  { apply NoDup_Permutation; [done|done|]. intros k. by rewrite Hmem, Hall. }
  exists pl', (restored log ks). split; [|split; [done|split; [done|]]].
  - unfold recover_generation. rewrite (iw_listed _ Hio). cbn [negb]. rewrite (run_then _ _ _ _ _ Hrun). unfold throw_if. cbn [fst snd].
    rewrite (Permutation_length Hperm). assert (rows_of log ks = rows_of log all) as ->.
    { unfold rows_of. clear -Hperm. induction Hperm as [| | |? ? ? _ IH1 _ IH2]; rewrite ?fmap_cons in *; cbn [foldr] in *; [done|lia|lia|].
      by rewrite IH1. }
    by rewrite !Z.eqb_refl.
  - intros k. rewrite ticks_of_restored by done. destruct (decide (k ∈ ks)) as [|Hk]; [done|].
    unfold restored_at. destruct (ticks_of log k) eqn:Ht; [done|]. exfalso. apply Hk, Hmem. unfold present. by rewrite Ht.
Qed.
End Walk.
