(* ===== verification/RestartFacts.v ===== *)
(** * A node that is stopped and started again

    What a published snapshot of a pipeline of ticks leaves on disk is what recovery
    needs: stopping a node and starting a new one on its disk restores every tick. *)

From S2P Require Import Prelude.
From S2P Require Import Text.
From S2P Require Import Bytes.
From S2P Require Import Arena.
From S2P Require Import ColumnStore.
From S2P Require Import SchemaRegistry.
From S2P Require Import MaterializedView.
From S2P Require Import PartitionManager.
From S2P Require Import RingBuffer.
From S2P Require Import Literals.
From S2P Require Import Rpc.
From S2P Require Import Hdb.
From S2P Require Import FlushManager.
From S2P Require Import FlushFacts.
From S2P Require Import TickPipeline.
From S2P Require Import PipelineFacts.
From S2P Require Import TickQuery.
From S2P Require Import Recovery.
From S2P Require Import RecoveryFacts.
From stdpp Require Import base gmap list strings fin_maps sorting.
From Stdlib Require Import ZArith Lia Ascii.

Open Scope Z_scope.

(** ** A partition of ticks on disk *)

(** A partition whose ticks a snapshot writes. *)
Record tick_partition (p : Partition) (float : bool) (msgs : list TickMessage) : Prop := {
  tp_stores : stores p float msgs;
  tp_rows : msgs ≠ [];
  tp_table : PartitionManager.table_id (key_ p) = 0;
  tp_key : key_ranges (key_ p);
}.

Lemma stores_columns p float msgs : stores p float msgs →
  name_ <$> columns_ p = tick_column_names ∧ existsb dictionary_column (columns_ p) = false ∧ consistent p = true.
Proof.
  intros [Hp Hc _]. pose proof (length_as_span (memory_ p)) as Hlen.
  assert (∀ i c, columns_ p !! i = Some c → Z.of_nat (length (as_span (memory_ p) c)) = size_ c) as Hsz.
  { intros i c Hi. destruct (column_at p i c Hp Hi) as [Hok _]. rewrite Hlen; [done|apply Hok]. }
  unfold contents, tick_contents in Hc. unfold consistent, num_rows.
  destruct (columns_ p) as [|c0 [|c1 [|c2 [|c3 [|]]]]]; try done.
  pose proof (Hsz 0%nat c0 eq_refl) as H0. pose proof (Hsz 1%nat c1 eq_refl) as H1. pose proof (Hsz 2%nat c2 eq_refl) as H2.
  pose proof (Hsz 3%nat c3 eq_refl) as H3. unfold entry_of in Hc. simpl in Hc. injection Hc as Hn0 Ht0 Hs0 Hn1 Ht1 Hs1 Hn2 Ht2 Hs2 Hn3 Ht3 Hs3.
  split; [simpl; by rewrite Hn0, Hn1, Hn2, Hn3|]. rewrite Hs0, length_fmap in H0. rewrite Hs1, length_fmap in H1.
  rewrite Hs2, length_fmap in H2. rewrite Hs3, length_fmap in H3. rewrite <- H0. simpl. unfold dictionary_column.
  rewrite Ht0, Ht1, Ht2, Ht3, <- H0, <- H1, <- H2, <- H3, !Z.eqb_refl. by destruct float.
Qed.

Lemma mkdir_lookup io fs p fs' q : mkdir_p io fs p = (true, fs') →
  fs' !! q = if decide (q ∈ prefixes p) then Some Directory else fs !! q.
Proof.
  intros H. case_decide as Hq; [by eapply mkdir_makes|]. unfold mkdir_p in H. destruct (_ && _); [|done]. injection H as <-.
  revert Hq. induction (prefixes p) as [|r rs IH]; [done|]. intros [Hne Hq]%not_elem_of_cons. simpl. rewrite lookup_insert_ne by done.
  by apply IH.
Qed.

Lemma prefixes_below (gen rest : path) (a b : string) : rest ≠ [] →
  gen ++ rest ∈ prefixes (gen ++ [a; b]) ↔ rest = [a] ∨ rest = [a; b].
Proof.
  intros Hne. split.
  - intros (n & H & _)%list_elem_of_fmap. rewrite take_app in H. destruct (decide (n <= length gen)%nat).
    + apply (f_equal length) in H. rewrite !length_app, !length_take in H. destruct rest; [done|]. cbn [length] in H. lia.
    + rewrite take_ge in H by lia. apply app_inv_head in H. destruct (n - length gen)%nat as [|[|[|]]]; simpl in H; try done; auto.
  - intros H. apply prefix_of_path; [by destruct gen, rest|]. apply prefix_app. destruct H as [-> | ->]; [by exists [b]|done].
Qed.

(** ** The shape of a generation *)

Notation psymbol p := (to_string (PartitionManager.symbol_id (key_ p))).
Notation phour p := (to_string (hour_epoch (key_ p))).

(** Below the generation there are the files of [parts], and some others at the
    top. *)
Record shape {L : Lz4} (s : filesystem) (gen : path) (extra : list string) (parts : list Partition) : Prop := {
  sh_only : ∀ rest n, rest ≠ [] → s !! (gen ++ rest) = Some n →
    (∃ name bytes, name ∈ extra ∧ rest = [name] ∧ n = File bytes) ∨
    ∃ p, p ∈ parts ∧ (rest = [psymbol p] ∧ n = Directory ∨ rest = [psymbol p; phour p] ∧ n = Directory ∨
      ∃ c bytes, c ∈ tick_column_names ∧ rest = [psymbol p; phour p; column_file_name c] ∧ n = File bytes);
  sh_symbol : ∀ p, p ∈ parts → s !! (gen ++ [psymbol p]) = Some Directory;
  sh_hour : ∀ p, p ∈ parts → s !! (gen ++ [psymbol p; phour p]) = Some Directory;
  sh_columns : ∀ p i c, p ∈ parts → columns_ p !! i = Some c →
    holds_column s (gen ++ [psymbol p; phour p; column_file_name (name_ c)]) 0 (memory_ p) c;
}.

Lemma file_below dir c : c ∈ tick_column_names → below dir (c +:+ ".bin")%string = dir ++ [column_file_name c].
Proof. intros Hc%tick_column_cases. unfold below. f_equal. by destruct Hc as [-> |[-> |[-> | ->]]]. Qed.

Lemma app_three (gen : path) a b c : (gen ++ [a; b]) ++ [c] = gen ++ [a; b; c].
Proof. by rewrite <- app_assoc. Qed.

Definition same_names (p q : Partition) : Prop := psymbol p = psymbol q ∧ phour p = phour q.

Lemma tick_key_inj p q : PartitionManager.table_id (key_ p) = 0 → key_ranges (key_ p) →
  PartitionManager.table_id (key_ q) = 0 → key_ranges (key_ q) → same_names p q → key_ p = key_ q.
Proof.
  intros Ht (_ & Hs & Hh) Ht' (_ & Hs' & Hh') [H1 H2]. unfold INT64_MIN, INT64_MAX in *.
  apply to_string_inj in H1; [|unfold INT64_MIN, INT64_MAX; lia..]. apply to_string_inj in H2; [|unfold INT64_MIN, INT64_MAX; lia..].
  destruct (key_ p), (key_ q). simpl in *. by subst.
Qed.

Section Shape.
Context {L : Lz4} {HL : Lz4Laws L}.

(** Writing the columns of a partition of ticks below its directory. *)
Lemma write_tick_columns io w s dir p float msgs total s' :
  tick_partition p float msgs → write_columns io s w dir (memory_ p) (columns_ p) 0 0 = (Some total, s') →
  (∀ i c, columns_ p !! i = Some c → holds_column s' (dir ++ [column_file_name (name_ c)]) 0 (memory_ p) c) ∧
  ∀ q, (∀ c, c ∈ tick_column_names → q ≠ dir ++ [column_file_name c]) → s' !! q = s !! q.
Proof.
  intros [Hst _ _ _] Hw. destruct (stores_columns _ _ _ Hst) as (Hnames & _ & _). pose proof (st_ok _ _ _ Hst) as Hp.
  assert (∀ i c, columns_ p !! i = Some c → name_ c ∈ tick_column_names) as Hin.
  { intros i c Hi. rewrite <- Hnames. apply list_elem_of_fmap. exists c. split; [done|]. by eapply list_elem_of_lookup_2. }
  assert (Forall (λ c, column_ok (arena_ p) c ∧ size_ c < 2 ^ 56) (columns_ p)) as Hcols.
  { apply Forall_lookup_2. intros i c Hi. destruct (column_at p i c Hp Hi) as [? ?]. split; [done|lia]. }
  assert (NoDup (column_file dir <$> columns_ p)) as Hnd.
  { apply column_files_distinct. rewrite Hnames. apply (bool_decide_unpack (NoDup tick_column_names)). by vm_compute. }
  destruct (write_columns_spec io w dir (arena_ p) (memory_ p) _ 0 (po_bytes _ Hp) ltac:(lia) Hcols Hnd _ _ _ _ Hw) as [Hall Hframe].
  split.
  - intros i c Hi. rewrite <- file_below by by eapply Hin. exact (Forall_lookup_1 _ _ _ _ Hall Hi).
  - intros q Hq. apply Hframe. intros (c & -> & [i Hi]%list_elem_of_lookup)%list_elem_of_fmap.
    eapply (Hq (name_ c)); [by eapply Hin|]. rewrite <- file_below by by eapply Hin. done.
Qed.

Lemma shape_lookup (io : disk_io) (s s1 s' : filesystem) (gen : path) (p : Partition) (rest : path) :
  mkdir_p io s (gen ++ [psymbol p; phour p]) = (true, s1) → rest ≠ [] →
  (∀ q, (∀ c, c ∈ tick_column_names → q ≠ (gen ++ [psymbol p; phour p]) ++ [column_file_name c]) → s' !! q = s1 !! q) →
  (∀ c, c ∈ tick_column_names → rest ≠ [psymbol p; phour p; column_file_name c]) →
  s' !! (gen ++ rest) = if decide (rest = [psymbol p] ∨ rest = [psymbol p; phour p]) then Some Directory else s !! (gen ++ rest).
Proof.
  intros Hmk Hne Hframe Hrest. rewrite Hframe.
  - rewrite (mkdir_lookup _ _ _ _ _ Hmk). apply decide_ext. by apply prefixes_below.
  - intros c Hc. rewrite app_three. intros Heq%app_inv_head. by apply (Hrest c).
Qed.

Lemma snapshot_one io w s gen done p float msgs r s' :
  shape s gen [] done → tick_partition p float msgs →
  (∀ q, q ∈ done → PartitionManager.table_id (key_ q) = 0 ∧ key_ranges (key_ q) ∧ key_ q ≠ key_ p) →
  snapshot_partition_checked io s w p gen = (r, s') → sw_ok r = true →
  shape s' gen [] (done ++ [p]) ∧ rows_written r = num_rows p.
Proof.
  intros [Honly Hsym Hhour Hcols] Htp Hdone H Hok. pose proof Htp as [Hst Hrows Ht Hk].
  destruct (stores_columns _ _ _ Hst) as (Hnames & Hdict & Hcons). pose proof (stores_rows _ _ _ Hst) as Hnum.
  unfold snapshot_partition_checked in H. rewrite Hcons, Hdict in H. cbn [negb orb] in H.
  rewrite (proj2 (Z.eqb_neq _ _)) in H by (destruct msgs; [done|]; simpl in Hnum; lia).
  assert (partition_dir gen (PartitionManager.table_id (key_ p)) (PartitionManager.symbol_id (key_ p)) (hour_epoch (key_ p)) =
    gen ++ [psymbol p; phour p]) as Hdir by (unfold partition_dir; by rewrite Ht).
  rewrite Hdir, Ht in H. destruct (mkdir_p _ _ _) as [made s1] eqn:Hmk. destruct made; cbn [negb] in H; [|by simplify_eq].
  destruct (write_columns _ _ _ _ _ _ _ _) as [[total|] s2] eqn:Hw; simplify_eq; split; [|done].
  destruct (write_tick_columns _ _ _ _ _ _ _ _ _ Htp Hw) as [Hmine Hframe].
  pose proof (λ rest, shape_lookup io s s1 s' gen p rest Hmk) as Hlook. split.
  - intros rest n Hne Hn. right. destruct (decide (Exists (λ c, rest = [psymbol p; phour p; column_file_name c]) tick_column_names)) as [(c & Hc & ->)%Exists_exists|Hnot].
    + exists p. split; [apply elem_of_app; right; by left|]. right. right.
      assert (∃ i col, columns_ p !! i = Some col ∧ name_ col = c) as (i & col & Hi & <-).
      { rewrite <- Hnames in Hc. apply list_elem_of_fmap in Hc as (col & -> & [i Hi]%list_elem_of_lookup). by exists i, col. }
      destruct (Hmine i col Hi) as (bytes & Hb & _). rewrite app_three, Hn in Hb. exists (name_ col), bytes. by simplify_eq.
    + rewrite Hlook in Hn; [|done|done|intros c Hc ->; apply Hnot, Exists_exists; by exists c]. case_decide as Hcase.
      * exists p. split; [apply elem_of_app; right; by left|]. injection Hn as <-. naive_solver.
      * destruct (Honly rest n Hne Hn) as [(? & ? & []%elem_of_nil & _)|(q & Hq & Hcases)].
        exists q. split; [apply elem_of_app; by left|done].
  - intros q [Hq|Hq]%elem_of_app; rewrite Hlook by done; case_decide as Hcase; [done|by apply Hsym|done|].
    exfalso. apply Hcase. apply list_elem_of_singleton in Hq as ->. by left.
  - intros q [Hq|Hq]%elem_of_app; rewrite Hlook by done; case_decide as Hcase; [done|by apply Hhour|done|].
    exfalso. apply Hcase. apply list_elem_of_singleton in Hq as ->. by right.
  - intros q i c [Hq|Hq]%elem_of_app Hi.
    + destruct (Hcols q i c Hq Hi) as (bytes & Hb & Hparse). exists bytes. split; [|done].
      rewrite Hlook; [|done|done|].
      * rewrite decide_False; [done|]. by intros [|].
      * intros c' _ [= Hs Hh _]. destruct (Hdone q Hq) as (Ht' & Hk' & Hne). by apply Hne, tick_key_inj.
    + apply list_elem_of_singleton in Hq as ->. rewrite <- app_three. by apply (Hmine i).
Qed.
End Shape.

(** ** What a published snapshot leaves *)

Section Program.
Context {L : Lz4} {HL : Lz4Laws L}.

(** Partitions of ticks under different keys. *)
Definition tick_partitions (ps : list Partition) : Prop :=
  Forall (λ p, ∃ float msgs, tick_partition p float msgs) ps ∧ NoDup (key_ <$> ps).

Definition rows_in (ps : list Partition) : Z := zsum (num_rows <$> ps).

Lemma snapshot_partitions_shape io w gen parts : ∀ done counts s p r st,
  shape s gen [] done → tick_partitions (done ++ parts) →
  snapshot_partitions io w gen parts counts s = (Some (p, r), st) →
  shape (final s st) gen [] (done ++ parts) ∧ p = counts.1 + Z.of_nat (length parts) ∧ r = counts.2 + rows_in parts.
Proof.
  induction parts as [|part parts IH]; intros done counts s p r st Hsh [Htp Hnd] H; cbn [snapshot_partitions] in H.
  { injection H as -> <-. rewrite app_nil_r. split; [done|]. unfold rows_in. simpl. lia. }
  rewrite run_bind in H. unfold act in H. destruct (snapshot_partition_checked (fio_disk io) s w part gen) as [res s1] eqn:Hone.
  change (final s [s1]) with s1 in H. destruct (sw_ok res) eqn:Hok; cbn [negb] in H; [|done].
  pose proof Htp as Hall. rewrite Forall_app, Forall_cons in Hall. destruct Hall as (Hdone & (float & msgs & Hpart) & _).
  destruct (snapshot_one (fio_disk io) w s gen done part float msgs res s1 Hsh Hpart) as [Hsh1 Hrows]; [|done|done|].
  { intros q Hq. rewrite Forall_forall in Hdone. destruct (Hdone q Hq) as (fl & ms & [_ _ Ht Hk]). split; [done|]. split; [done|].
    intros Heq. rewrite fmap_app, fmap_cons in Hnd. apply NoDup_app in Hnd as (_ & Hnd & _). apply (Hnd (key_ q)).
    - apply list_elem_of_fmap. by exists q.
    - rewrite Heq. by left. }
  assert (0 < num_rows part) as Hpos.
  { rewrite (stores_rows _ _ _ (tp_stores _ _ _ Hpart)). pose proof (tp_rows _ _ _ Hpart). destruct msgs; [done|]. simpl. lia. }
  rewrite Hrows, (proj2 (Z.ltb_lt _ _)) in H by done. destruct (_ || _) in H; [done|].
  destruct (snapshot_partitions io w gen parts _ s1) as [o st1] eqn:Hrest. injection H as -> <-.
  destruct (IH (done ++ [part]) _ s1 p r st1 Hsh1 ltac:(rewrite <- app_assoc; by split) Hrest) as (Hsh' & -> & ->).
  change (s1 :: st1) with ([s1] ++ st1).
  split; [by rewrite final_app; rewrite <- app_assoc in Hsh'|]. unfold rows_in. rewrite fmap_cons. cbn [foldr length fst snd]. split; lia.
Qed.

(** The removal of old generations leaves the current one alone. *)
Lemma cleanup_below io root name fs rest :
  final fs (cleanup_old_generations io root name fs).2 !! (generation_path root name ++ rest) = fs !! (generation_path root name ++ rest).
Proof.
  unfold cleanup_old_generations. destruct (fio_listed io _); [|done].
  assert (Forall (λ other, other ≠ name) (expired_generations name (generation_names fs root))) as Hothers.
  { unfold expired_generations. apply Forall_drop. apply Forall_forall. by intros x [Hx _]%list_elem_of_filter. }
  revert Hothers. generalize (expired_generations name (generation_names fs root)). intros others Hothers.
  revert fs. induction Hothers as [|other others Ho _ IH]; intros fs; cbn [remove_generations]; [done|].
  rewrite run_bind. unfold act. cbn [fst snd]. specialize (IH (remove_all io (generation_path root other) fs)).
  change (final fs [remove_all io (generation_path root other) fs]) with (remove_all io (generation_path root other) fs).
  destruct (remove_generations io root others _) as [u st]. cbn [snd] in IH |- *. rewrite final_app. etrans; [exact IH|].
  unfold remove_all. destruct (fs !! (generation_path root name ++ rest)) as [n|] eqn:Hn.
  - apply map_lookup_filter_Some. split; [done|]. intros [[r Heq] _]. simpl in Heq. unfold generation_path in Heq.
    rewrite <- !app_assoc in Heq. apply app_inv_head in Heq. by simplify_eq/=.
  - apply map_lookup_filter_None. by left.
Qed.
Lemma shape_same (s s' : filesystem) gen extra parts :
  (∀ rest, rest ≠ [] → s' !! (gen ++ rest) = s !! (gen ++ rest)) → shape s gen extra parts → shape s' gen extra parts.
Proof.
  intros Heq [Honly Hsym Hhour Hcols]. split.
  - intros rest n Hne. rewrite Heq by done. by apply Honly.
  - intros p Hp. rewrite Heq by done. by apply Hsym.
  - intros p Hp. rewrite Heq by done. by apply Hhour.
  - intros p i c Hp Hi. destruct (Hcols p i c Hp Hi) as (bytes & Hb & Hc). exists bytes. by rewrite Heq.
Qed.

Lemma text_exact io sequence dir name contents fs : (write_text_atomically io sequence dir name contents fs).1 = true →
  ∀ q, final fs (write_text_atomically io sequence dir name contents fs).2 !! q =
    if decide (q = dir ++ [name]) then Some (File (bytes_of_string contents))
    else if decide (q = dir ++ [temporary io name sequence]) then None else fs !! q.
Proof.
  unfold write_text_atomically. destruct (_ || _); [done|]. destruct (_ && _); [|done]. intros _ q. unfold final. simpl.
  rewrite lookup_insert. destruct (decide (q = dir ++ [name])) as [->|Hne]; [by rewrite decide_True|]. rewrite decide_False by done.
  destruct (decide (q = dir ++ [temporary io name sequence])) as [->|Hne']; [by rewrite lookup_delete_eq|].
  by rewrite lookup_delete_ne, lookup_insert_ne by done.
Qed.

Lemma to_string_not_underscore a s : to_string a ≠ ("_" +:+ s)%string.
Proof.
  intros H. apply (f_equal chars) in H. rewrite chars_append in H. change (chars "_") with ["_"%char] in H.
  pose proof (name_chars_to_string a) as Hd. rewrite H in Hd. done.
Qed.

(** The manifest beside the partitions. *)
Lemma shape_complete io sequence gen contents s parts :
  (write_text_atomically io sequence gen "_COMPLETE" contents s).1 = true → shape s gen [] parts →
  shape (final s (write_text_atomically io sequence gen "_COMPLETE" contents s).2) gen ["_COMPLETE"%string] parts.
Proof.
  intros Hok [Honly Hsym Hhour Hcols]. pose proof (text_exact _ _ _ _ _ _ Hok) as Hq.
  assert (∀ p, psymbol p ≠ "_COMPLETE"%string ∧ psymbol p ≠ temporary io "_COMPLETE" sequence) as Hnames.
  { intros p. split; [apply (to_string_not_underscore _ "COMPLETE")|].
    apply (to_string_not_underscore _ ("COMPLETE.tmp." +:+ to_string (fio_pid io) +:+ "." +:+ to_string sequence)). }
  split.
  - intros rest n Hne. rewrite Hq. case_decide as H1; [|case_decide as H2; [done|]].
    + intros [= <-]. apply app_inv_head in H1 as ->. left. eexists _, _. split; [by left|done].
    + intros Hn. destruct (Honly rest n Hne Hn) as [(? & ? & []%elem_of_nil & _)|Hp]. by right.
  - intros p Hp. destruct (Hnames p). rewrite Hq, !decide_False; [by apply Hsym|..]; by intros [= ?]%app_inv_head.
  - intros p Hp. rewrite Hq, !decide_False; [by apply Hhour|..]; by intros [= ?]%app_inv_head.
  - intros p i c Hp Hi. destruct (Hcols p i c Hp Hi) as (bytes & Hb & Hc). exists bytes. split; [|done].
    rewrite Hq, !decide_False; [done|..]; by intros [= ?]%app_inv_head.
Qed.

(** What has a parent is in it. *)
Definition is_tree (fs : filesystem) : Prop := ∀ q name n, q ≠ [] → fs !! (q ++ [name]) = Some n → is_Some (fs !! q).

Lemma tree_below fs q rest : is_tree fs → q ≠ [] → fs !! q = None → fs !! (q ++ rest) = None.
Proof.
  intros Ht Hq Hn. induction rest as [|name rest IH] using rev_ind; [by rewrite app_nil_r|]. rewrite app_assoc.
  destruct (fs !! ((q ++ rest) ++ [name])) as [n|] eqn:Hl; [|done]. apply Ht in Hl; [|by destruct q]. rewrite IH in Hl. by destruct Hl.
Qed.

Lemma publish_leaves io sequence root gname parts (p r : Z) s outcome states name p' r' :
  shape s (generation_path root gname) [] parts →
  publish_generation io sequence root gname p r s = (outcome, states) → outcome = SnapshotPublished name p' r' →
  name = gname ∧ p' = p ∧ r' = r ∧ shape (final s states) (generation_path root gname) ["_COMPLETE"%string] parts.
Proof.
  intros Hsh H ->. unfold publish_generation in H. rewrite run_bind in H.
  pose proof (shape_complete io (sequence + 1) (generation_path root gname) (manifest gname p r) s parts) as Hcomplete.
  destruct (write_text_atomically io (sequence + 1) _ _ _ _) as [ok4 st4]. destruct ok4; cbn [negb] in H; [|done].
  specialize (Hcomplete eq_refl Hsh). cbn [snd] in Hcomplete. rewrite run_bind in H.
  pose proof (text_exact io (sequence + 2) root "CURRENT" (current_contents gname) (final s st4)) as Hcur.
  destruct (write_text_atomically io (sequence + 2) root _ _ _) as [ok5 st5]. destruct ok5; cbn [negb] in H; [|done].
  specialize (Hcur eq_refl). cbn [snd] in Hcur. rewrite run_bind in H.
  pose proof (λ rest, cleanup_below io root gname (final (final s st4) st5) rest) as Hclean.
  destruct (cleanup_old_generations io root gname _) as [[] st6]. cbn [snd] in Hclean. injection H as <- <- <- <-.
  split_and!; [done..|]. rewrite app_nil_r, !final_app. eapply shape_same; [|exact Hcomplete]. intros rest _.
  rewrite Hclean, Hcur, !decide_False; [done|..]; intros Heq; apply (f_equal length) in Heq;
    unfold generation_path, generations in Heq; rewrite !length_app in Heq; simpl in Heq; lia.
Qed.

Lemma snapshot_leaves io now sequence w parts root fs name p r states :
  root ≠ [] → is_tree fs → tick_partitions parts →
  snapshot_program io now sequence w parts root fs = (SnapshotPublished name p r, states) →
  name = generation_name now (fio_pid io) sequence ∧ p = Z.of_nat (length parts) ∧ r = rows_in parts ∧
  shape (final fs states) (generation_path root name) ["_COMPLETE"%string] parts.
Proof.
  intros Hroot Htree Hparts H. unfold snapshot_program in H. rewrite run_bind in H. unfold act at 1 in H.
  set (gname := generation_name now (fio_pid io) sequence) in *. set (gen := generation_path root gname) in *.
  destruct (mkdir_p _ _ _) as [made fs1] eqn:Hmk. destruct made; cbn [negb] in H; [|done].
  change (final fs [fs1]) with fs1 in H. rewrite run_bind in H. unfold act at 1, make_directory in H. fold gen in H.
  destruct (fs1 !! gen) as [n|] eqn:Hg1; [done|]. destruct (fio_create io gen); cbn [negb] in H; [|done].
  set (fs2 := <[gen := Directory]> fs1) in H. change (final fs1 [fs2]) with fs2 in H. rewrite run_bind in H.
  assert (gen ≠ []) as Hgen by (unfold gen, generation_path, generations; by destruct root).
  assert (∀ rest, gen ++ rest ∉ prefixes (generations root)) as Hnp.
  { intros rest (k & Heq & _)%list_elem_of_fmap. apply (f_equal length) in Heq. unfold gen, generation_path in Heq.
    rewrite length_take, !length_app in Heq. simpl in Heq. lia. }
  assert (fs !! gen = None) as Hg0.
  { pose proof (mkdir_lookup _ _ _ _ gen Hmk) as Hl. rewrite Hg1, decide_False in Hl by (pose proof (Hnp []) as Hx; by rewrite app_nil_r in Hx). done. }
  assert (shape fs2 gen [] []) as Hsh.
  { split; [|intros p' Hp'; by apply not_elem_of_nil in Hp'|intros p' Hp'; by apply not_elem_of_nil in Hp'|
      intros p' i c Hp'; by apply not_elem_of_nil in Hp']. intros rest n Hne. unfold fs2. rewrite lookup_insert_ne.
    - rewrite (mkdir_lookup _ _ _ _ _ Hmk), decide_False by apply Hnp. by rewrite (tree_below _ _ _ Htree Hgen Hg0).
    - intros Heq. apply (f_equal length) in Heq. rewrite length_app in Heq. destruct rest; [done|simpl in Heq; lia]. }
  destruct (snapshot_partitions io w gen parts (0, 0) fs2) as [[[pc rc]|] st3] eqn:Hs; [|done].
  destruct (snapshot_partitions_shape io w gen parts [] (0, 0) fs2 pc rc st3 Hsh Hparts Hs) as (Hsh3 & -> & ->).
  destruct (publish_generation io sequence root gname _ _ _) as [outcome st4] eqn:Hpub. cbn [fst snd] in *.
  injection H as -> <-. destruct (publish_leaves _ _ _ _ _ _ _ _ _ _ _ _ _ Hsh3 Hpub eq_refl) as (-> & -> & -> & Hfin).
  split_and!; [done|lia|lia|]. change (fs1 :: fs2 :: st3 ++ st4) with ([fs1; fs2] ++ st3 ++ st4). rewrite !final_app. exact Hfin.
Qed.
End Program.

(** ** The disk holds the log *)

Section Holds.
Context {L : Lz4} {HL : Lz4Laws L}.

(** The partitions of a pipeline, as the flush manager walks them. *)
Definition all_partitions (m : PartitionManager) : list Partition := (map_to_list (partitions_ m)).*2.

Lemma partition_in m p : manager_ok m → p ∈ all_partitions m ↔ partitions_ m !! key_ p = Some p.
Proof.
  intros Hm. unfold all_partitions. rewrite list_elem_of_fmap. split.
  - intros ([k q] & -> & Hk%elem_of_map_to_list). simpl. by destruct (mo_key _ Hm _ _ Hk) as [-> _].
  - intros Hp. exists (key_ p, p). split; [done|]. by apply elem_of_map_to_list.
Qed.

Lemma keys_distinct m : manager_ok m → NoDup (key_ <$> all_partitions m).
Proof.
  intros Hm. unfold all_partitions. rewrite <- list_fmap_compose.
  assert (key_ ∘ snd <$> map_to_list (partitions_ m) = (map_to_list (partitions_ m)).*1) as ->; [|apply NoDup_fst_map_to_list].
  apply list_fmap_ext. intros i [k p] Hi. apply list_elem_of_lookup_2, elem_of_map_to_list in Hi. simpl.
  by destruct (mo_key _ Hm _ _ Hi).
Qed.

Lemma represented_partition views pl log p : represents views pl log → Forall restorable log → p ∈ all_partitions (partition_mgr_ pl) →
  tick_partition p (float_of (ticks_of log (key_ p))) (ticks_of log (key_ p)).
Proof.
  intros Hrep Hlog Hp%partition_in; [|apply Hrep]. assert (present log (key_ p)) as Hpres.
  { intros Hnil%(rp_present _ _ _ Hrep). by rewrite Hp in Hnil. }
  destruct (present_key _ _ Hlog Hpres) as (Ht & Hs & Hh & _). split; [by apply (rp_stores _ _ _ Hrep)|done|done|].
  unfold key_ranges, int64_ok in *. rewrite Ht. split; [lia|]. split; [unfold INT64_MIN, INT64_MAX; lia|exact Hh].
Qed.

Lemma present_partition views pl log k : represents views pl log → present log k →
  ∃ p, p ∈ all_partitions (partition_mgr_ pl) ∧ key_ p = k.
Proof.
  intros Hrep Hk. destruct (partitions_ (partition_mgr_ pl) !! k) as [p|] eqn:Hp.
  - pose proof (rp_manager _ _ _ Hrep) as Hm. destruct (mo_key _ Hm _ _ Hp) as [<- _]. exists p. split; [|done]. by apply partition_in.
  - by apply (rp_present _ _ _ Hrep) in Hp.
Qed.

Lemma represented_partitions views pl log : represents views pl log → Forall restorable log →
  tick_partitions (all_partitions (partition_mgr_ pl)).
Proof.
  intros Hrep Hlog. split; [|apply keys_distinct, Hrep]. apply Forall_forall. intros p Hp.
  eexists _, _. by apply (represented_partition _ _ _ _ Hrep Hlog).
Qed.

(** A column of ticks, read from its file. *)
Lemma shape_column io s gen extra parts p float msgs i t (f : TickMessage → Z) n c :
  io_works io → shape s gen extra parts → p ∈ parts → PartitionManager.table_id (key_ p) = 0 →
  stores p float msgs → contents p !! i = Some (c, t, push_le n ∘ f <$> msgs) → c ∈ tick_column_names →
  snapshot_column io s gen 0 (PartitionManager.symbol_id (key_ p)) (hour_epoch (key_ p)) c = Some (column_of n f t msgs).
Proof.
  intros Hio Hsh Hp Ht Hst Hi Hc. unfold contents in Hi. rewrite list_lookup_fmap in Hi. apply fmap_Some in Hi as (col & Hi & Heq).
  unfold entry_of in Heq. injection Heq as -> -> Hspan. destruct (sh_columns _ _ _ _ Hsh p i col Hp Hi) as (bytes & Hb & Hparse).
  unfold snapshot_column, read_column. rewrite tick_file_path, <- app_assoc, <- app_assoc by done. simpl. rewrite Hb, (iw_mapped _ Hio), Hparse.
  unfold column_of. rewrite <- Hspan. do 2 f_equal.
  destruct (column_at p i col (st_ok _ _ _ Hst) Hi) as [Hok _]. rewrite <- (length_as_span (memory_ p) col), <- Hspan, length_fmap by apply Hok. done.
Qed.

Lemma shape_holds io s gen views pl log : io_works io → represents views pl log → Forall restorable log →
  shape s gen ["_COMPLETE"%string] (all_partitions (partition_mgr_ pl)) → holds_log io s gen log.
Proof.
  intros Hio Hrep Hlog Hsh. pose proof (λ p, represented_partition views pl log p Hrep Hlog) as Hpart.
  assert (∀ p, p ∈ all_partitions (partition_mgr_ pl) → present log (key_ p)) as Hpres by (intros p Hp; by apply Hpart).
  assert (∀ k p, present log k → p ∈ all_partitions (partition_mgr_ pl) → PartitionManager.symbol_id k = PartitionManager.symbol_id (key_ p) →
    hour_epoch k = hour_epoch (key_ p) → key_ p = k) as Hsame.
  { intros k p Hk Hp Hs Hh. apply (present_name log); [done..|by apply Hpres|done|by rewrite Hh]. }
  assert (∀ k k', present log k → present log k' → symbol_name k = symbol_name k' → PartitionManager.symbol_id k = PartitionManager.symbol_id k') as Hsym.
  { intros k k' Hk Hk'. destruct (present_key _ _ Hlog Hk) as (_ & ? & _), (present_key _ _ Hlog Hk') as (_ & ? & _).
    apply to_string_inj; unfold INT64_MIN, INT64_MAX; lia. }
  pose proof Hsh as [Honly Hsymbol Hhour _]. split.
  - intros name n Hn. destruct (Honly [name] n ltac:(done) Hn) as [(nm & bytes & ->%list_elem_of_singleton & [= ->] & ->)|(p & Hp & Hcases)].
    + left. split; [done|]. by exists bytes.
    + right. destruct Hcases as [[[= ->] ->]|[[? _]|(? & ? & _ & ? & _)]]; [|done..]. split; [done|]. exists (key_ p). split; [by apply Hpres|done].
  - intros k name n Hk Hn. rewrite <- app_assoc in Hn. destruct (Honly ([symbol_name k] ++ [name]) n ltac:(done) Hn) as [(? & ? & _ & ? & _)|(p & Hp & Hcases)]; [done|].
    destruct Hcases as [[? _]|[[[= Hs ->] ->]|(? & ? & _ & ? & _)]]; try done. split; [done|]. exists (key_ p). split; [by apply Hpres|].
    split; [|done]. symmetry. by apply Hsym; [|apply Hpres|].
  - intros k name n Hk Hn. rewrite <- !app_assoc in Hn.
    destruct (Honly ([symbol_name k] ++ [hour_name k] ++ [name]) n ltac:(done) Hn) as [(? & ? & _ & ? & _)|(p & Hp & Hcases)]; [done|].
    destruct Hcases as [[? _]|[[? _]|(c & bytes & Hc & [= _ _ ->] & ->)]]; [done..|]. split; [|by exists bytes].
    apply list_elem_of_fmap. by exists c.
  - intros k Hk. destruct (present_partition _ _ _ _ Hrep Hk) as (p & Hp & <-). by apply Hsymbol.
  - intros k Hk. destruct (present_partition _ _ _ _ Hrep Hk) as (p & Hp & <-). rewrite <- app_assoc. by apply Hhour.
  - intros k Hk. destruct (present_partition _ _ _ _ Hrep Hk) as (p & Hp & <-). destruct (Hpart p Hp) as [Hst _ Ht _].
    pose proof (st_contents _ _ _ Hst) as Hcon.
    pose proof (λ i t f n c, shape_column io s gen _ _ p _ _ i t f n c Hio Hsh Hp Ht Hst) as Hcol. rewrite Hcon in Hcol.
    split; [apply (Hcol 0%nat)|apply (Hcol 1%nat)|apply (Hcol 2%nat)|apply (Hcol 3%nat)]; try done; unfold tick_column_names; set_solver.
Qed.
End Holds.

(** ** Stopping *)

(** The configuration of a pipeline is never changed by its ticks. *)
Lemma store_tick_config msg pl pl' : store_tick msg pl = Some pl' → pl_config pl' = pl_config pl.
Proof.
  unfold store_tick. destruct (get_or_create _ _ _ _) as [p m]. destruct (store_row msg p) as [[is_new p']|]; [|done].
  cbn [mbind option_bind]. intros [= <-]. unfold evict_over_limit. destruct is_new; destruct (_ && _); try done;
    (destruct (oldest_partition _) as [q|]; [|done]; by destruct (_ =? _)).
Qed.

Lemma drain_sync_config fuel max : ∀ n pl n' pl', drain_sync fuel max n pl = Some (n', pl') → pl_config pl' = pl_config pl.
Proof.
  induction fuel as [|fuel IH]; intros n pl n' pl' H; [done|]. cbn [drain_sync] in H. destruct (_ <=? _); [by simplify_eq|].
  destruct (drain_one pl) as [[taken pl1]|] eqn:Hone; [|done]. cbn [mbind option_bind] in H.
  assert (pl_config pl1 = pl_config pl) as <-.
  { unfold drain_one in Hone. destruct (consume _) as [[msg|] plant]; [|by simplify_eq].
    destruct (store_tick msg _) as [pl2|] eqn:Hs; [|done]. apply store_tick_config in Hs. simpl in Hone. by simplify_eq. }
  destruct taken; [by eapply IH|by simplify_eq].
Qed.

Lemma run_ops_config ops : ∀ pl pl', run_ops ops pl = Some pl' → pl_config pl' = pl_config pl.
Proof.
  induction ops as [|op ops IH]; intros pl pl' H; [by injection H as ->|]. cbn [run_ops] in H.
  destruct (run_op op pl) as [pl1|] eqn:Hop; [|done]. apply IH in H as ->. destruct op as [now msg|n]; cbn [run_op] in Hop.
  - unfold ingest_tick in Hop. destruct (ingest _ _ _) as [[] plant]; [by injection Hop as <-|].
    destruct (store_tick msg _) as [pl2|] eqn:Hs; [|done]. apply store_tick_config in Hs. simpl in Hop. injection Hop as <-. exact Hs.
  - destruct (drain_sync _ _ _ _) as [[n' pl2]|] eqn:Hd; [|done]. apply drain_sync_config in Hd. by injection Hop as <-.
Qed.

(** A drain without a limit takes everything. *)
Lemma drain_all views fuel : ∀ pl l n max, behaves views pl l → (length (log_queue l) < fuel)%nat →
  n + Z.of_nat (length (log_queue l)) <= max →
  ∃ pl', drain_sync fuel max n pl = Some (n + Z.of_nat (length (log_queue l)), pl') ∧ behaves views pl' (mkLog (came l) [] (log_seq l)).
Proof.
  induction fuel as [|fuel IH]; intros pl l n max Hb Hf Hn; [lia|]. cbn [drain_sync]. pose proof (drain_one_behaves _ _ _ Hb) as Hone.
  unfold came. destruct (log_queue l) as [|msg rest] eqn:Hq.
  - exists pl. assert (behaves views pl (mkLog (log_stored l ++ []) [] (log_seq l))) as Hb'.
    { rewrite app_nil_r. destruct l. simpl in *. by subst. }
    destruct (Z.leb_spec max n); [by rewrite Z.add_0_r|]. rewrite Hone. cbn [mbind option_bind]. by rewrite Z.add_0_r.
  - cbn [length] in *. rewrite (proj2 (Z.leb_gt _ _)) by lia. destruct Hone as (pl1 & -> & Hb1 & _). cbn [mbind option_bind].
    destruct (IH pl1 _ (n + 1) max Hb1) as (pl' & Hd & Hb'); [simpl; lia|simpl; lia|]. exists pl'. unfold came in Hb'. cbn [log_stored log_queue log_seq] in *.
    rewrite <- app_assoc in Hb'. split; [|done]. rewrite Hd. do 2 f_equal. lia.
Qed.

Lemma behaves_set_run views pl l running completed : behaves views pl l → behaves views (set_run running completed pl) l.
Proof. intros [[] ? ? ? ? ?]. by split; [split| | | | |]. Qed.

Lemma represents_set_run views pl log running completed : represents views pl log → represents views (set_run running completed pl) log.
Proof. by intros []. Qed.

Section Restart.
Context {L : Lz4} {HL : Lz4Laws L} {F : FloatOps}.

(** The path of the snapshots, and a name for the next one that is not taken. *)
Record snapshots_to (io : flush_io) (now : Z) (n : ZeptoNode) (sp : string) : Prop := {
  st_tiered : storage_mode (pl_config (nd_pipeline n)) = TIERED;
  st_config : fm_config (nd_manager n) = flush_config (pl_config (nd_pipeline n));
  st_path : snapshot_path (flush_config (pl_config (nd_pipeline n))) = sp;
  st_nonempty : sp ≠ ""%string;
  st_name : fresh_name_ok now (fio_pid io) (generation_sequence_ (nd_manager n));
  st_tree : is_tree (disk_ (nd_storage n));
}.

Lemma root_nonempty sp : sp ≠ ""%string → below [] sp ≠ [].
Proof.
  intros Hsp Hb. apply (f_equal join_slash) in Hb. unfold below in Hb. simpl in Hb. rewrite join_split in Hb. simpl in Hb.
  apply Hsp. by rewrite <- (str_chars sp), Hb.
Qed.

(** A stop ends, and if it reports success the disk holds a published generation of
    everything that came. *)
Lemma stop_spec views io now fuel n l sp :
  snapshots_to io now n sp → behaves views (nd_pipeline n) l → Forall restorable (came l) →
  (length (log_queue l) < fuel)%nat → Z.of_nat (length (came l)) <= SIZE_MAX →
  ∃ ok n', stop io now fuel n = Some (ok, n') ∧ represents views (nd_pipeline n') (came l) ∧
    (ok = true → ∃ name, let parts := all_partitions (partition_mgr_ (nd_pipeline n')) in
       published (disk_ (nd_storage n')) (below [] sp) name (Z.of_nat (length parts)) (rows_in parts) ∧
       shape (disk_ (nd_storage n')) (generation_path (below [] sp) name) ["_COMPLETE"%string] parts).
Proof.
  intros [Hmode Hcfg Hpath Hsp Hname Htree] Hb Hlog Hfuel Hsize. unfold stop.
  pose proof (behaves_set_run _ _ _ false (recovery_completed_ (nd_pipeline n)) Hb) as Hb0.
  unfold came in Hsize. rewrite length_app in Hsize.
  destruct (drain_all views fuel _ l 0 SIZE_MAX Hb0 Hfuel) as (pl & Hd & Hb'); [lia|]. rewrite Hd. cbn [mbind option_bind].
  pose proof (drain_sync_config _ _ _ _ _ _ Hd) as Hpc. cbn [pl_config set_run] in Hpc.
  pose proof (bh_stored _ _ _ Hb') as Hrep. cbn [log_stored] in Hrep.
  unfold has_flush_manager. rewrite Hpc. cbn [pl_config set_run]. rewrite Hmode, bool_decide_true by done. cbn [andb].
  rewrite Hpath, (proj2 (String.eqb_neq sp "") Hsp). cbn [negb]. unfold do_snapshot. cbn [fs_manager fs_writer fs_partitions fs_storage].
  cbn [fm_config generation_sequence_ set_fm_running]. rewrite Hcfg, Hpath, (proj2 (String.eqb_neq sp "") Hsp).
  destruct (snapshot_program _ _ _ _ _ _ _) as [outcome states] eqn:Hprog.
  change ((map_to_list (partitions_ (partition_mgr_ pl))).*2) with (all_partitions (partition_mgr_ pl)) in Hprog.
  destruct outcome as [drawn|name p r]; eexists _, _; (split; [reflexivity|]); cbn [nd_pipeline nd_storage fs_storage disk_ fs_manager]; (split; [done|]); [done|].
  intros _. pose proof (represented_partitions _ _ _ Hrep Hlog) as Hparts.
  destruct (snapshot_leaves _ _ _ _ _ _ _ _ _ _ _ (root_nonempty sp Hsp) Htree Hparts Hprog) as (-> & -> & -> & Hshape).
  exists (generation_name now (fio_pid io) (generation_sequence_ (nd_manager n))). split; [|done].
  pose proof (snapshot_program_states _ _ _ _ _ _ _ _ _ (root_nonempty sp Hsp) Hname Hprog) as [_ Hfin _]. by destruct Hfin.
Qed.

(** Starting on such a disk. *)
Lemma start_spec rio views pl log sp fs name config catalog pl0 :
  io_works rio → represents views pl log → Forall restorable log → Z.of_nat (length log) <= SIZE_MAX → sp ≠ ""%string →
  let parts := all_partitions (partition_mgr_ pl) in
  published fs (below [] sp) name (Z.of_nat (length parts)) (rows_in parts) →
  shape fs (generation_path (below [] sp) name) ["_COMPLETE"%string] parts →
  new_pipeline config catalog = Returned pl0 → enable_recovery (pl_config pl0) = true → recovery_snapshot_path (pl_config pl0) = sp →
  behaves no_views pl0 (mkLog [] [] 0) → fits (partition_mgr_ pl0) log →
  ∃ pl' log', start rio fs pl0 = Some (Returned (), pl') ∧ represents no_views pl' log' ∧
    pl_running pl' = true ∧ recovery_completed_ pl' = true ∧ ∀ k, ticks_of log' k = restored_at log k.
Proof.
  intros Hio Hrep Hlog Hsize Hsp parts Hpub Hshape Hnew Hen Hpath Hb0 Hfits.
  assert (pl_running pl0 = false ∧ recovery_completed_ pl0 = false) as [Hrun0 Hrec0].
  { unfold new_pipeline in Hnew. destruct (resolve_ring_buffer_capacity _) as [cap|]; [|done]. cbn [outcome_bind] in Hnew.
    destruct (new_plant cap) as [plant|]; [|done]. cbn [outcome_bind] in Hnew. destruct (check_config config) as [c|]; [|done].
    cbn [outcome_bind] in Hnew. destruct (load_catalog c catalog) as [r|]; [|done]. cbn [outcome_bind] in Hnew. by injection Hnew as <-. }
  set (pl1 := set_run true (recovery_completed_ pl0) pl0).
  destruct (recover_generation_spec rio fs (generation_path (below [] sp) name) log Hio Hlog Hsize
    (shape_holds rio fs _ views pl log Hio Hrep Hlog Hshape) no_views pl1) with (all := key_ <$> parts)
    as (pl' & log' & Hrec & Hrep' & Hfront & Hticks).
  - apply (bh_limit _ _ _ Hb0).
  - exact Hfits.
  - apply represents_set_run. exact (bh_stored _ _ _ Hb0).
  - apply keys_distinct, Hrep.
  - intros k. split.
    + intros (p & -> & Hp)%list_elem_of_fmap. by apply (represented_partition _ _ _ _ Hrep Hlog).
    + intros (p & Hp & <-)%(present_partition _ _ _ _ Hrep). apply list_elem_of_fmap. by exists p.
  - exists (set_run (pl_running pl') true pl'), log'. split; [|split; [by apply represents_set_run|]].
    + unfold start. rewrite Hrun0. fold pl1. change (pl_config pl1) with (pl_config pl0).
      change (recovery_completed_ pl1) with (recovery_completed_ pl0). rewrite Hen, Hrec0. cbn [andb negb].
      unfold recover. rewrite run_current. change (pl_config pl1) with (pl_config pl0). rewrite Hpath.
      rewrite (resolve_published _ _ _ _ _ _ (iw_sees _ Hio) Hsp Hpub).
      assert (rows_of log (key_ <$> parts) = rows_in parts) as Hrows.
      { unfold rows_of, rows_in. rewrite <- list_fmap_compose. f_equal. apply list_fmap_ext. intros i p Hi. simpl.
        apply list_elem_of_lookup_2 in Hi. symmetry. eapply stores_rows. by apply (represented_partition _ _ _ _ Hrep Hlog). }
      rewrite length_fmap, Hrows in Hrec. rewrite Hrec. done.
    + split; [|split; [done|exact Hticks]]. by destruct Hfront as (_ & _ & _ & _ & -> & _).
Qed.

(** C12. A node that is stopped and started again has every tick, for a node with
    snapshots whose ticks carry no table. The node runs in tiered mode with a
    snapshot path, its ticks have table id 0 and fields in the range of their
    types, some of them stored and some still in the queue, and no memory limit
    is set. Then stopping it ends; and if the stop reports success, a new node
    that recovers from the same path, whose reads of files work, which has
    recovery on, no memory limit and arenas below 2^55 bytes with room for the
    ticks, starts, and each of its partitions has the ticks the old node had
    taken for it, in their order, with their times, prices, volumes and types.
    Ticks of SQL tables (table id not 0) are outside the claim. *)
Theorem restart_restores views io rio now fuel n l sp config catalog pl0 :
  snapshots_to io now n sp → behaves views (nd_pipeline n) l → Forall restorable (came l) →
  (length (log_queue l) < fuel)%nat → Z.of_nat (length (came l)) <= SIZE_MAX →
  io_works rio → new_pipeline config catalog = Returned pl0 → enable_recovery (pl_config pl0) = true →
  recovery_snapshot_path (pl_config pl0) = sp → 0 <= arena_size_per_partition config < 2 ^ 55 → max_memory_bytes config <= 0 →
  fits (partition_mgr_ pl0) (came l) →
  ∃ ok n', stop io now fuel n = Some (ok, n') ∧ represents views (nd_pipeline n') (came l) ∧
    (ok = true → ∃ pl' log', start rio (disk_ (nd_storage n')) pl0 = Some (Returned (), pl') ∧ represents no_views pl' log' ∧
       pl_running pl' = true ∧ recovery_completed_ pl' = true ∧ ∀ k, ticks_of log' k = restored_at (came l) k).
Proof.
  intros Hto Hb Hlog Hfuel Hsize Hio Hnew Hen Hpath Ha Hm Hfits. assert (behaves no_views pl0 (mkLog [] [] 0)) as Hb0.
  { apply (new_pipeline_behaves config catalog); try done. eapply room_le, (Hfits (mkKey 0 0 0)). lia. }
  destruct (stop_spec views io now fuel n l sp Hto Hb Hlog Hfuel Hsize) as (ok & n' & Hstop & Hrep & Hdisk).
  exists ok, n'. split; [done|]. split; [done|]. intros Hok. destruct (Hdisk Hok) as (name & Hpub & Hshape).
  eapply (start_spec rio views (nd_pipeline n') (came l) sp); try done. apply Hto.
Qed.
End Restart.

(** ** A restart *)

Definition tiered_flush : FlushConfig :=
  mkFlushConfig false false 1 BINARY false "" FLAT false false 60000 "s" (mkTiering false 0 0 0).
Definition tiered_config : PipelineConfig :=
  mkPipelineConfig (32 * 1024 * 1024) 256 0 4096 TIERED "db" tiered_flush false "" 0.
Definition recovering_config : PipelineConfig :=
  mkPipelineConfig (32 * 1024 * 1024) 256 0 4096 PURE_IN_MEMORY "" default_flush_config true "s" 0.

(** One tick is stored, one waits. *)
Definition restart_ops : list pl_op :=
  [OpIngest 10 (mkTick 0 0 7 100 2 1 0 0); OpDrain 5; OpIngest 20 (mkTick 0 0 7 200 3 0 0 0)].
Definition restart_log : tick_log := mkLog [mkTick 0 10 7 100 2 1 0 0] [mkTick 1 20 7 200 3 0 0 0] 2.

#[local] Instance bits_as_floats : FloatOps := {| float_of_double := u32; double_of_float := u64 |}.

Definition node_of (pl : ZeptoPipeline) : ZeptoNode :=
  mkNode pl (new_flush_manager tiered_flush "host" 0) (mkWriter ["db"%string] false 0 0) (mkStorage ∅ ∅).
Definition all_seen : recovery_io := mkRecoveryIo (λ _, true) (λ _, true) (λ _, true) (λ _, false).

Definition new_and_run (config : PipelineConfig) (ops : list pl_op) : option ZeptoPipeline :=
  match new_pipeline config Missing with Returned pl => run_ops ops pl | Thrown _ => None end.

Lemma stop_succeeds :
  (pl ← new_and_run tiered_config restart_ops; '(ok, _) ← stop (L := zeros_lz4) all_well 1000 3 (node_of pl); Some ok) = Some true.
Proof. by vm_compute. Qed.

Lemma restart_restores_witness : ∃ pl n' pl0 pl' log',
  new_and_run tiered_config restart_ops = Some pl ∧ stop (L := zeros_lz4) all_well 1000 3 (node_of pl) = Some (true, n') ∧
  new_pipeline recovering_config Missing = Returned pl0 ∧
  start (L := zeros_lz4) all_seen (disk_ (nd_storage n')) pl0 = Some (Returned (), pl') ∧
  ticks_of log' (mkKey 0 7 0) = [mkTick 0 10 7 100 2 1 0 0; mkTick 0 20 7 200 3 0 0 0].
Proof.
  destruct (small_new tiered_config) as (plt & Hnew & Ha & Hc & Hcfg); [done..|].
  destruct (small_new recovering_config) as (pl0 & Hnew0 & Ha0 & Hc0 & Hcfg0); [done..|].
  assert (behaves no_views plt (mkLog [] [] 0)) as Hb.
  { apply (new_pipeline_behaves tiered_config Missing); [done|done|done|]. by apply (demo_fits _ []) with (k := mkKey 0 0 0). }
  destruct (run_ops_behaves no_views restart_ops plt _ restart_log Hb) as (pl & Hrun & Hb').
  { repeat constructor; by vm_compute. }
  { rewrite Hc. by vm_compute. }
  { by apply demo_fits. }
  assert (pl_config pl = tiered_config) as Hpc by (apply run_ops_config in Hrun; congruence).
  destruct (restart_restores (L := zeros_lz4) no_views all_well all_seen 1000 3 (node_of pl) restart_log "s" recovering_config Missing pl0)
    as (ok & n' & Hstop & _ & Hok).
  - split; cbn [node_of nd_pipeline nd_manager nd_storage disk_]; rewrite ?Hpc; [reflexivity..|by vm_compute|by vm_compute|].
    intros q name n _. by rewrite lookup_empty.
  - exact Hb'.
  - repeat constructor; by vm_compute.
  - simpl. lia.
  - by vm_compute.
  - by split.
  - exact Hnew0.
  - by rewrite Hcfg0.
  - by rewrite Hcfg0.
  - by vm_compute.
  - by vm_compute.
  - by apply demo_fits.
  - assert (new_and_run tiered_config restart_ops = Some pl) as Hpl by (unfold new_and_run; rewrite Hnew; exact Hrun).
    pose proof stop_succeeds as Hs. rewrite Hpl in Hs. cbn [mbind option_bind] in Hs. rewrite Hstop in Hs. cbn [mbind option_bind] in Hs.
    injection Hs as ->. destruct (Hok eq_refl) as (pl' & log' & Hstart & _ & _ & _ & Hticks). exists pl, n', pl0, pl', log'.
    split; [exact Hpl|]. split; [exact Hstop|]. split; [exact Hnew0|]. split; [exact Hstart|]. by rewrite Hticks.
Defined.

(** ** A recovery that is tried again

    Recovery that throws leaves what it has stored, and nothing remembers that it
    was done: another [start] stores the same ticks once more. *)

Definition restart_disk : option filesystem :=
  pl ← new_and_run tiered_config restart_ops;
  '(_, n) ← stop (L := zeros_lz4) all_well 1000 3 (node_of pl); Some (disk_ (nd_storage n)).

(** The manifest of the generation claims a third row. *)
Definition wrong_manifest (fs : filesystem) : filesystem :=
  let name := generation_name 1000 7 0 in <[complete_path ["s"%string] name := File (bytes_of_string (manifest name 1 3))]> fs.

Example recovery_retry_duplicates :
  (fs ← restart_disk; pl ← new_and_run recovering_config [];
   '(r1, pl) ← start (L := zeros_lz4) all_seen (wrong_manifest fs) pl; rows1 ← total_stored_rows pl;
   '(_, pl) ← start (L := zeros_lz4) all_seen (wrong_manifest fs) pl; rows2 ← total_stored_rows pl;
   Some (r1, rows1, rows2)) =
  Some (Thrown "snapshot manifest row/partition counts do not match data", 2, 4).
Proof. by vm_compute. Qed.

(** ** Rows with a schema are restored as well *)

Definition typed_config : PipelineConfig :=
  mkPipelineConfig (32 * 1024 * 1024) 256 0 4096 TIERED "db" tiered_flush true "s" 0.
Definition typed_schema : TableSchema :=
  mkSchema "trades" [SchemaRegistry.mkColumn "symbol" INT64; SchemaRegistry.mkColumn "price" INT64; SchemaRegistry.mkColumn "at" TIMESTAMP_NS;
                     SchemaRegistry.mkColumn "flag" BOOL] 0 false 1 (mkPlacement false HashByTableAndSymbol 0).
Definition typed_row (price at_ flag : Z) : TypedRowMessage :=
  mkTypedRow 1 7 at_ [mkTyped "symbol" (type_code INT64) 7 0 0 0 None; mkTyped "price" (type_code INT64) price 0 0 0 None;
                      mkTyped "at" (type_code TIMESTAMP_NS) at_ 0 0 0 None; mkTyped "flag" (type_code BOOL) 0 0 0 flag None].
Definition with_trades (pl : ZeptoPipeline) : ZeptoPipeline := set_registry (mkRegistry {[ "trades"%string := typed_schema ]} 2) pl.
Definition contents_of (pl : ZeptoPipeline) (k : PartitionKey) : list (list Z) :=
  match partitions_ (partition_mgr_ pl) !! k with
  | Some p => (λ c, concat (as_span (memory_ p) c)) <$> columns_ p
  | None => []
  end.

Example typed_rows_restored :
  (pl ← with_trades <$> new_and_run typed_config [];
   let pl := (ingest_typed_row (typed_row 200 12 1) (ingest_typed_row (typed_row 100 11 0) pl).2).2 in
   '(ok, n) ← stop (L := zeros_lz4) all_well 1000 3 (node_of pl);
   pl' ← with_trades <$> new_and_run typed_config [];
   '(r, pl') ← start (L := zeros_lz4) all_seen (disk_ (nd_storage n)) pl';
   Some (ok, r, contents_of pl' (mkKey 1 7 0), bool_decide (contents_of pl' (mkKey 1 7 0) = contents_of pl (mkKey 1 7 0)))) =
  Some (true, Returned (), [concat [push_le 8 7; push_le 8 7]; concat [push_le 8 100; push_le 8 200]; concat [push_le 8 11; push_le 8 12]; [0; 1]], true).
Proof. by vm_compute. Qed.
